(* ===== verification/_CoqProject ===== *)
-Q . S2P
Prelude.v
JsString.v
Glob.v
SequenceSet.v
ListMatch.v
Rights.v
Limits.v
Lmtp.v
Text.v
Sasl.v
Saslprep.v
Scram.v
JsNumber.v
Loop.v
SmtpParams.v
Smtp.v
Pop3.v
Srs.v
Net.v
Throttle.v
PeerLimit.v
Regex.v
RegexMachine.v
RegexSem.v
RegexSpec.v
ImapReader.v
ImapParser.v
MaildropLock.v
Dns.v
DnsSpec.v
ManageSieve.v
Sieve.v
DnsCache.v
SieveVars.v
JsDate.v
SieveDate.v
SieveRun.v
SieveSpec.v
Hash.v
Greylist.v
MimeEncoding.v
MimeHeaders.v
InboundAuth.v
Trace.v
MimeAddress.v
MimeFields.v
MimeHtml.v
MimeBody.v
MimeStructure.v
JmapBody.v
MimeMessage.v
Vacation.v
Cidr.v
Effects.v
Spf.v
SpfSpec.v
Async.v
Dmarc.v
DmarcSpec.v
Dkim.v
DkimSpec.v
InboundRun.v
Dane.v
SmtpClient.v
SmtpClientSpec.v
SmtpRelay.v
MtaSts.v
Dsn.v
Queue.v
Enqueue.v
MtaWorker.v
MtaWorkerSpec.v
QueueLease.v
BlobGc.v
ImapFetch.v
ImapSearch.v
ImapCommands.v
ImapSession.v
ImapSessionSpec.v
ImapNumbers.v
