(* ===== verification/Prelude.v ===== *)
(** * Ionosphere: a verification library for the protocol core of the mail platform

    Ionosphere (src/) is a mail platform in TypeScript: listeners for SMTP, LMTP, POP3, IMAP,
    ManageSieve and JMAP, an outbound queue, a DNS resolver, the Sieve language, message
    authentication, a spam filter and a store over SQL.  The protocol packages are written as pure
    state machines: an adapter feeds an engine bytes and the answers of backends, and performs the
    actions the engine returns.  This library models these engines and the algorithms under them,
    definition by definition, and proves what makes them correct.

    ** Parts and files

    Language and shared ground:
    - [Prelude]: notations, tactics, generic lemmas on lists, integers, bits, sorting;
    - [JsString], [JsNumber], [Text]: the JavaScript the source uses: strings as UTF-16 units,
      [Number(string)] with IEEE rounding, UTF-8 (streaming decoder included), base64;
    - [Loop]: while loops with output, as a relation and as a function with fuel, and
      computations that throw, with [Fuel] as a third outcome that is proved not to occur;
    - [Limits]: the constants of packages/core/src/limits.ts the modelled code uses.

    Packages/core:
    - [Glob] (glob.ts): wildcard matching by rows and its captures;
    - [Regex], [RegexMachine], [RegexSem], [RegexSpec] (regex.ts): parser, compiler and thread
      machine of the linear-time regular expressions, their semantics, and the equivalence;
    - [Rights] (rights.ts), [Sasl] (sasl.ts), [Saslprep] (saslprep.ts), [Scram] (scram.ts and
      scram-session.ts, with the interface [ScramServer] the engines use);
    - [Net] and [Throttle] (auth-throttle.ts and packages/store/src/auth-failures.ts), [PeerLimit]
      (peer-limit.ts);
    - [MaildropLock] (packages/store/src/maildrop-lock.ts and the lock of proto-pop3/src/server.ts).

    Protocol engines:
    - [Lmtp] (proto-lmtp/src/engine.ts), [SmtpParams] and [Smtp] (proto-smtp/src/engine.ts),
      [Pop3] (proto-pop3/src/engine.ts), [ManageSieve] (proto-managesieve/src/engine.ts);
    - [ImapReader] (proto-imap/src/reader.ts), [ImapParser] (parser.ts), [SequenceSet]
      (sequence-set.ts), [ListMatch] (list-match.ts): input and arguments of IMAP;
    - [ImapFetch] (fetch-items.ts, fetch-format.ts): the items of FETCH and their wire text;
      [ImapSearch] (search-criteria.ts, sort-thread.ts): SEARCH, SORT and THREAD;
    - [ImapCommands] (engine.ts): the state of an IMAP session, the commands on mailboxes and messages,
      and what is done with the answers of the store; [ImapSession] (engine.ts): authentication, dispatch,
      the queue of lines and the methods the listener calls; [ImapSessionSpec]: sessions as runs of small
      steps; [ImapNumbers]: sequence numbers and searches, and the witnesses of both.

    Sieve (packages/sieve/src):
    - [Sieve] (lexer.ts, parser.ts, ast.ts): from text to commands;
    - [SieveVars] (variables.ts), [JsDate] and [SieveDate] (date-parts.ts over the calendar of
      JavaScript), [SieveRun] (interpret.ts): variables, dates and the interpreter;
    - [SieveSpec]: what a run promises: total, the implicit keep, chains of [if].

    Messages:
    - [MimeEncoding] (packages/mime/src/encoding.ts), [MimeHeaders] (headers.ts), [MimeAddress]
      (address.ts), [MimeFields] (ids.ts, subject.ts, date.ts), [MimeHtml] (html.ts), [MimeBody]
      (body.ts), [MimeStructure] (structure.ts), [JmapBody] (jmap-body.ts), [MimeMessage]
      (parse.ts): reading a message;
    - [InboundAuth] and [Trace] (apps/server/src/inbound-auth.ts, packages/core/src/received.ts,
      packages/mail-auth/src/authres.ts): the trace headers of an accepted message and the removal
      of forged ones;
    - [Vacation] (apps/server/src/vacation.ts): automatic replies.

    Message authentication (packages/mail-auth/src):
    - [Effects] and [Async]: the monads the evaluators run in: state with exceptions and a logic of
      costs, and tasks that interleave at their awaits;
    - [Cidr] (addresses and ranges of spf.ts), [Spf] (spf.ts over dns.ts), [SpfSpec] (check_host() of
      RFC 7208 as a relation, and the refinement);
    - [Dmarc] (dmarc.ts) and [DmarcSpec]: policies and alignment, with the lookups side by side;
    - [Dkim] (canon.ts, sign.ts, verify.ts, crypto.ts, keys.ts), [DkimSpec];
    - [InboundRun] (apps/server/src/inbound-auth.ts): the three together for a received message.

    Outbound mail (packages/mta/src, packages/mta-sts/src, packages/mail-auth/src/dane.ts):
    - [Dane] (dane.ts): TLSA records against a chain of certificates;
    - [SmtpClient] (smtp-client.ts, envelope.ts): one delivery attempt as a program over the script of a
      peer; [SmtpClientSpec]: what goes over the wire, that an attempt ends, what a success means;
      [SmtpRelay]: the client against the engine of [Smtp], and runs;
    - [MtaSts] (policy.ts, fetch.ts and the cache of worker.ts): policies and their enforcement;
    - [Dsn] (dsn.ts, suppression.ts): delivery status notifications;
    - [Queue] (columns.ts, domain-lookup.ts and blob-ledger.ts of packages/db/src, chunk.ts, the queue
      commands of packages/admin-cmd/src/ops.ts): tables as lists of rows, statements, batches as
      transactions;
    - [Enqueue] (enqueue.ts): the gates in front of the queue and what is written;
    - [MtaWorker] (worker.ts, smarthost.ts): a tick of the worker; [MtaWorkerSpec]: its
      theorems and runs; [QueueLease]: several workers and the administrator on one queue.

    Message bodies (packages/store/src):
    - [BlobGc] (blob.ts, blob-gc.ts): files by hash and generation, their ledger and
      references, and the collector, interleaved with writers and the worker.

    Others:
    - [Dns] and [DnsSpec] (packages/dns/src/wire.ts), [DnsCache] (cache.ts);
    - [Srs] (packages/srs/src/srs.ts): sender rewriting;
    - [Hash] (packages/core/src/hash.ts) and [Greylist] (packages/spam/src/greylist.ts): greylisting
      over its table.

    ** How code becomes definitions

    A class is a record of its mutable fields and one function per method, from the state to the
    new state and what the method returns; options are a configuration record after the defaults
    of the constructor.  A closure that waits for an answer of the store ([callBackend] of IMAP) is a value
    of an inductive type with the variables it captures.  Some engines group their fields into sub-records (a connection, a
    transaction) for the sake of the invariants.  A method that throws on a wrong order of calls
    returns [None]; a parser that throws returns a [Result].  Byte arrays and strings are lists of
    integers; numbers that can lose precision go through [JsNumber].  SCRAM draws its nonces from a
    stream in the configuration.  The clock reading of a call is an argument.

    Code outside the repository is a parameter: node:crypto ([NodeCrypto]), node:net ([NodeNet]),
    the Unicode tables behind [normalize] ([UnicodeData]), the implementation-defined part of
    [Date.parse] ([DateParse]), the legacy tables of [TextDecoder] ([TextDecoders]), the local time
    zone ([LocalZone]), the DNS ([Resolver], whose answers may differ from question to question), the
    key formats of node:crypto ([DkimKeys]), SHA-512 ([NodeSha512]), each a class with the documented facts the proofs use and a concrete
    instance in the witnesses.  A peer of the outbound client is a list of what it sends ([Peer]); the hooks of
    the worker (resolver, relays, keys, policies, blob store, clock, random numbers) are the record
    [Hooks], the answer of each question arbitrary, and [None] where a hook throws.  [toUpperCase] and [toLowerCase] are
    exact on ASCII and Latin-1 and on the units whose mapping gives letters of these; the other
    units map to themselves.

    ** What the theorems show

    - Delivery: the SMTP and LMTP engines hand over a message only for a sender and recipients the
      backend accepted in this transaction, with exactly the bytes the client sent, whether by DATA
      or BDAT; POP3 deletes only what was confirmed in this session.
    - Authentication: in the traces of SMTP, POP3 and ManageSieve credentials are taken and
      protected actions done only where TLS or the configuration allows and after the backend has
      said yes; the SCRAM server accepts exactly proofs for the stored keys; the throttle refuses
      what the shared history of failures blocks, and fails closed; nothing sent before STARTTLS
      survives it in ManageSieve.
    - IMAP: the store is asked only after a positive verdict, about messages of the selected mailbox only
      when it is open for writing, and one request at a time; lines that wait are bounded; a client that
      follows EXISTS, EXPUNGE and VANISHED knows under each number the message that the engine means by it,
      and that the store has; [$] is the saved search; SEARCH in batches answers as one pass does, and SORT
      gives the one order that its criteria allow, defined on what the store records of the messages.
    - Segmentation: how the network cuts the input does not change the actions (LMTP, POP3, IMAP
      reader, away from a line that is being dropped).
    - Round trips: SRS addresses, DNS messages, IMAP commands, Sieve scripts, UID sets, POP3
      messages, SASL payloads are read back as they were written.
    - Reference semantics: the wildcard matcher, the regular expressions, sequence sets and the
      throttle agree with definitions that say what they mean.
    - Bounds and termination: buffers, threads of the regular-expression machine, connections per
      peer, names and entries of DNS messages, cached answers and nested blocks are bounded; every
      parser ends on every input.
    - Sieve: every script ends, with a result or a script error; without [discard] a run keeps,
      files, redirects or rejects the message; the branch an [if] chain takes is the first whose
      test holds; expansion of variables is not repeated, and [:quotewildcard] makes a value match
      only itself.
    - Messages: the header of a stored message that came in starting with a field is the server's own fields and then the records of
      the stripped message, none of which gives a verdict in the server's name; the parts of a MIME
      structure are disjoint nested ranges of the message, bounded in number and depth; every part
      JMAP lists as a body has its value; addresses read from headers are well formed, and dates
      are read back as written; the linear scan of HTML gives the text of the plain scan; an
      automatic reply is never answered by another.
    - Message authentication: a message is reported as dmarc=pass only when its From domain publishes
      a policy and SPF or a signature vouches for an aligned domain; a verdict of SPF is the one
      check_host() defines; what is signed verifies, if it starts with a header line, and a From header added later is seen; the order
      of DNS answers does not matter; the questions to the DNS are bounded whatever the records.
    - Outbound delivery: what enters the queue passed every gate, and its rows, ledger and references are
      written together; a row is closed as delivered only after a server accepted the recipient and
      the stored message; the work on a group ends with every row delivered, bounced and, where its
      sender wants and can have a notice, reported, or due again; two workers never hold valid leases on one row.
    - Outbound TLS: where TLS is demanded only the greeting goes out in the clear, and the rest to a peer that
      was pinned or verified; a policy that was read is enforced until it runs out, and binds the hosts and
      the wire of every session that does not go to the configured relay; what the client sends is what the receiving engine hands on; a notification
      has the header fields of the program and no others.
    - Bodies: in every interleaving of writers, workers and the collector, whose whole runs are sequences of
      the interleaved steps, referenced bodies and those of letters to be sent can be read, provided that
      writers commit within the grace period and outcomes of deliveries come while the letter is in flight.
    - Greylisting: under every interleaving a message is accepted only for a triple seen before by
      the delay, and a sender that retries in the window is accepted.
    - Exclusion: under every interleaving of the SQL statements of all servers at most one session
      holds a live lease on a maildrop.

    Some lemmas show where the code does not do what it means to; they are marked as gaps in
    their files.

    ** Fuel

    A loop of the source is a structural recursion where it can be, and otherwise has fuel: the
    length of what is left to read (each iteration reads at least one item), or twice that where
    two functions call each other in turn.  The termination theorems prove the fuel enough for
    every input; [Loop.whileFuel_loop] does it for the loops of the engines by a measure.
    SPF recurses through include and redirect, each of which takes one of ten lookups, so that
    eleven levels ([SPF_FUEL]) are never used up; the tasks of DMARC are finite trees.
    The outbound client runs out of the script of its peer while it still waits for a reply ([Fuel], no
    result); the theorems on safety hold at that point too, and with a peer that ends, as sockets do by their
    timeout, there is a result ([SmtpClientSpec.sendSmtp_ends]).

    ** Not modelled

    - Sockets, TLS, timers, SQL engines, HTTP, files, logging and metrics: I/O around the engines.
      An SQL statement is one atomic step.
    - Interleaving inside the methods of the throttle, at their awaits.
    - The depth of the JavaScript stack.
    - Positions in error messages of Sieve, and log lines.
    - The lanes of a tick of the worker run one after the other, as with concurrency 1; its timers
      and the abuse sweep, whose rates are floating point numbers, are left out.
    - The callback that counts IMAP commands, and the IMAP listener.
    - ARC, DMARC and TLS reports, the spam filter, JMAP methods, the store
      apart from the tables named above, the rest of the administration interface and the server that
      wires everything together: most of this is SQL over the store, documents, and wiring.  What is there
      of decisions (rights, sequence sets, patterns, parsing, authentication) is in the parts above. *)

From stdpp Require Export base decidable list sorting gmap sets strings.
From coqutil Require Export Datatypes.RecordSettersUsingExistingGetters.
From Stdlib Require Export ZArith Lia Bool.

#[global] Open Scope Z_scope.

(** Field updates compute under [cbn]. *)
#[global] Arguments const {E} newValue _ /.

(** ** Notations of the development *)

Declare Scope js_scope.
Delimit Scope js_scope with js.

(** A JavaScript string is its sequence of UTF-16 code units; a [Uint8Array] is
    its sequence of bytes.  Both are lists of integers; the ranges are the
    predicates [is_units] and [is_bytes]. *)
Abbreviation jsstr := (list Z).
Abbreviation bytes := (list Z).

(** ASCII literals: [js "EHLO"] is the list of the codes of the letters. *)
Fixpoint js (s : string) : jsstr :=
  match s with
  | EmptyString => []
  | String c s' => Z.of_N (Ascii.N_of_ascii c) :: js s'
  end.

#[global] Arguments js : simpl never.

(** JavaScript's [===] on strings. *)
Fixpoint seqb (a b : jsstr) : bool :=
  match a, b with
  | [], [] => true
  | x :: a', y :: b' => (x =? y) && seqb a' b'
  | _, _ => false
  end.

Infix "===" := seqb (at level 70, no associativity) : js_scope.
#[global] Open Scope js_scope.

(** [s.length] and [bytes.length] as a JavaScript number. *)
Definition len {A} (l : list A) : Z := Z.of_nat (length l).

Definition is_byte (b : Z) : Prop := 0 <= b < 256.
Definition is_bytes (l : bytes) : Prop := Forall is_byte l.

(** ** Tactics *)

Create HintDb ion.
Create Rewrite HintDb ion.

(** Splits every boolean connective and comparison of the context into the
    propositions [lia] and [congruence] work on. *)
Ltac bool_hyps :=
  repeat match goal with
  | H : _ && _ = true |- _ => apply andb_true_iff in H as [? ?]
  | H : _ || _ = false |- _ => apply orb_false_iff in H as [? ?]
  | H : negb _ = true |- _ => apply negb_true_iff in H
  | H : negb _ = false |- _ => apply negb_false_iff in H
  | H : (_ =? _) = true |- _ => apply Z.eqb_eq in H
  | H : (_ =? _) = false |- _ => apply Z.eqb_neq in H
  | H : (_ <=? _) = true |- _ => apply Z.leb_le in H
  | H : (_ <=? _) = false |- _ => apply Z.leb_gt in H
  | H : (_ <? _) = true |- _ => apply Z.ltb_lt in H
  | H : (_ <? _) = false |- _ => apply Z.ltb_ge in H
  end.

(** Case analysis on the innermost scrutinee of the goal, keeping equations. *)
Ltac case_inner :=
  match goal with
  | |- context [match ?x with _ => _ end] =>
      lazymatch x with
      | context [match _ with _ => _ end] => fail
      | _ => let E := fresh "E" in destruct x eqn:E
      end
  end.

(** The same in a hypothesis. *)
Ltac case_inner_in H :=
  match type of H with
  | context [match ?x with _ => _ end] =>
      lazymatch x with
      | context [match _ with _ => _ end] => fail
      | _ => let E := fresh "E" in destruct x eqn:E
      end
  end.

(** ** Strings *)

Lemma seqb_eq a b : (a === b) = true <-> a = b.
Proof.
  revert b; induction a as [|x a IH]; intros [|y b]; simpl; try done.
  rewrite andb_true_iff, Z.eqb_eq, IH. split; [intros [-> ->]|intros [= -> ->]]; done.
Qed.

Lemma seqb_spec a b : reflect (a = b) (a === b).
Proof. apply iff_reflect. symmetry. apply seqb_eq. Qed.

Lemma seqb_refl a : (a === a) = true.
Proof. by apply seqb_eq. Qed.

Lemma seqb_neq a b : (a === b) = false <-> a <> b.
Proof. rewrite <- not_true_iff_false, seqb_eq. done. Qed.

#[export] Hint Resolve seqb_refl : ion.

(** ** Lengths *)

Lemma len_nil {A} : len (@nil A) = 0.
Proof. done. Qed.

Lemma len_cons {A} (x : A) l : len (x :: l) = 1 + len l.
Proof. unfold len. simpl. lia. Qed.

Lemma len_app {A} (l k : list A) : len (l ++ k) = len l + len k.
Proof. unfold len. rewrite length_app. lia. Qed.

Lemma len_nonneg {A} (l : list A) : 0 <= len l.
Proof. unfold len. lia. Qed.

Lemma len_zero {A} (l : list A) : len l = 0 -> l = [].
Proof. destruct l; [done|]. rewrite len_cons. pose proof (len_nonneg l). lia. Qed.

#[export] Hint Rewrite @len_nil @len_cons @len_app : ion.
#[export] Hint Resolve len_nonneg : ion.

(** ** Lists *)

Lemma take_drop_cons {A} (l : list A) i x :
  l !! i = Some x -> l = take i l ++ x :: drop (S i) l.
Proof. intros H. symmetry. by apply take_drop_middle. Qed.

Lemma Forall_take {A} (P : A -> Prop) n l : Forall P l -> Forall P (take n l).
Proof. apply Forall_take. Qed.

Lemma Forall_drop {A} (P : A -> Prop) n l : Forall P l -> Forall P (drop n l).
Proof. apply Forall_drop. Qed.

(** Membership in a literal, by computation. *)
Lemma lit_notin (c : Z) (l : list Z) : bool_decide (c ∈ l) = false -> c ∉ l.
Proof. apply bool_decide_eq_false. Qed.

(** ** Stable sorting by an integer key

    [Array.prototype.sort] with the comparator [(a, b) => key(a) - key(b)] is a
    stable sort; the insertion sort below computes the same list. *)
Section SortBy.
Context {A : Type} (key : A -> Z).

Fixpoint insertBy (x : A) (l : list A) : list A :=
  match l with
  | [] => [x]
  | y :: l' => if key x <? key y then x :: l else y :: insertBy x l'
  end.

Definition sortBy (l : list A) : list A := fold_left (fun acc x => insertBy x acc) l [].

Definition key_le (a b : A) : Prop := key a <= key b.

Lemma insertBy_perm x l : insertBy x l ≡ₚ x :: l.
Proof.
  induction l as [|y l IH]; simpl; [done|]. destruct (_ <? _); [done|].
  rewrite IH. apply Permutation_swap.
Qed.

Lemma insertBy_sorted x l : StronglySorted key_le l -> StronglySorted key_le (insertBy x l).
Proof.
  induction 1 as [|y l Hs IH Hf]; simpl; [by repeat constructor|].
  destruct (Z.ltb_spec (key x) (key y)).
  - repeat constructor; [done|done|unfold key_le; lia|].
    eapply Forall_impl; [exact Hf|]. unfold key_le. lia.
  - constructor; [done|]. rewrite insertBy_perm. constructor; [done|done].
Qed.

Lemma sortBy_perm l : sortBy l ≡ₚ l.
Proof.
  unfold sortBy. enough (H : forall acc, fold_left (fun acc x => insertBy x acc) l acc ≡ₚ acc ++ l)
    by (rewrite H; done).
  induction l as [|x l IH]; intros acc; simpl; [by rewrite app_nil_r|].
  rewrite IH, insertBy_perm. simpl. apply Permutation_middle.
Qed.

Lemma sortBy_sorted l : StronglySorted key_le (sortBy l).
Proof.
  unfold sortBy.
  enough (H : forall acc, StronglySorted key_le acc ->
            StronglySorted key_le (fold_left (fun acc x => insertBy x acc) l acc))
    by (apply H; constructor).
  induction l as [|x l IH]; intros acc Ha; simpl; [done|]. apply IH. by apply insertBy_sorted.
Qed.

Lemma elem_of_sortBy x l : x ∈ sortBy l <-> x ∈ l.
Proof. by rewrite sortBy_perm. Qed.
End SortBy.

(** ** Bit fields *)

(** Joining a high part and a low part of [k] bits is an addition. *)
Lemma lor_shiftl_add a b k : 0 <= k -> 0 <= b < 2 ^ k -> Z.lor (Z.shiftl a k) b = a * 2 ^ k + b.
Proof.
  intros Hk Hb. rewrite Z.shiftl_mul_pow2 by done. pose proof (Z.add_lor_land (a * 2 ^ k) b) as Hadd.
  enough (Hz : Z.land (a * 2 ^ k) b = 0) by (rewrite Hz, Z.add_0_r in Hadd; exact Hadd).
  destruct (Z.eq_dec b 0) as [->|Hb0]; [apply Z.land_0_r|].
  apply Z.bits_inj'. intros n Hn. rewrite Z.land_spec, Z.bits_0. destruct (Z.lt_ge_cases n k).
  - by rewrite (Z.mul_pow2_bits_low a k n) by assumption.
  - rewrite (Z.bits_above_log2 b n); [apply andb_false_r|lia|].
    apply Z.log2_lt_pow2; [lia|]. apply (Z.lt_le_trans _ (2 ^ k)); [lia|]. apply Z.pow_le_mono_r; lia.
Qed.

Lemma land_255 n : Z.land n 255 = n mod 256.
Proof. exact (Z.land_ones n 8 ltac:(lia)). Qed.
