(* ===== verification/JsString.v ===== *)
(** * The parts of the JavaScript standard library the modelled code calls on strings

    Strings are lists of UTF-16 code units.  Case mapping is exact on every code
    unit below 256 and on every code unit whose image meets ASCII or Latin-1
    (dotless i, long s, the Latin ligatures, the Kelvin and Angstrom signs, dotted
    capital I); the other cased letters are mapped to themselves, which no test
    of the modelled code against an ASCII word can tell apart. *)

From S2P Require Import Prelude.

(** ** Code points the code names *)

Definition CR : Z := 13.
Definition LF : Z := 10.
Definition DOT : Z := 46.
Definition SP : Z := 32.
Definition crlf : bytes := [CR; LF].

(** ** Searching and slicing *)

(** [s.indexOf(c)] for a one-unit needle; [None] is JavaScript's [-1]. *)
Fixpoint indexOf (c : Z) (l : jsstr) : option nat :=
  match l with
  | [] => None
  | x :: r => if x =? c then Some O else S <$> indexOf c r
  end.

(** [s.lastIndexOf(c)]. *)
Definition lastIndexOf (c : Z) (l : jsstr) : option nat :=
  (fun i => (length l - 1 - i)%nat) <$> indexOf c (rev l).

(** [s.indexOf("\r\n")], and [indexOfCRLF] of the SMTP engine. *)
Fixpoint indexOfCRLF (l : bytes) : option nat :=
  match l with
  | [] => None
  | x :: r =>
      if (x =? CR) && (match r with y :: _ => y =? LF | [] => false end)
      then Some O else S <$> indexOfCRLF r
  end.

(** [s.startsWith(p)] *)
Fixpoint startsWith (p s : jsstr) : bool :=
  match p, s with
  | [], _ => true
  | _ :: _, [] => false
  | x :: p', y :: s' => (x =? y) && startsWith p' s'
  end.

(** [s.indexOf(p)] and [s.includes(p)] *)
Fixpoint indexOfStr (p s : jsstr) : option nat :=
  if startsWith p s then Some O
  else match s with [] => None | _ :: s' => S <$> indexOfStr p s' end.

Definition includes (p s : jsstr) : bool :=
  match indexOfStr p s with Some _ => true | None => false end.

(** [s.endsWith(c)] for a one-unit suffix *)
Definition endsWith1 (c : Z) (s : jsstr) : bool :=
  match last s with Some x => x =? c | None => false end.

(** [s.split(c)] for a one-unit separator *)
Fixpoint splitOn (c : Z) (l : jsstr) : list jsstr :=
  match l with
  | [] => [[]]
  | x :: r =>
      if x =? c then [] :: splitOn c r
      else match splitOn c r with [] => [[x]] | h :: t => (x :: h) :: t end
  end.

(** [ls.join(sep)] *)
Fixpoint joinWith (sep : jsstr) (ls : list jsstr) : jsstr :=
  match ls with
  | [] => []
  | [l] => l
  | l :: r => l ++ sep ++ joinWith sep r
  end.

(** [a < b] on strings: by code units. *)
Fixpoint strLt (a b : jsstr) : bool :=
  match a, b with
  | _, [] => false
  | [], _ :: _ => true
  | x :: a', y :: b' => (x <? y) || ((x =? y) && strLt a' b')
  end.

(** [s.padStart(w, "0")] *)
Definition padStart0 (w : nat) (s : jsstr) : jsstr := replicate (w - length s) 48 ++ s.

(** ** White space *)

(** The code units [trim] and the [\s] of a regular expression accept. *)
Definition isWs (c : Z) : bool :=
  ((9 <=? c) && (c <=? 13)) || (c =? 32) || (c =? 160) || (c =? 5760)
  || ((8192 <=? c) && (c <=? 8202)) || (c =? 8232) || (c =? 8233)
  || (c =? 8239) || (c =? 8287) || (c =? 12288) || (c =? 65279).

(** The line terminators, which the [.] of a regular expression refuses. *)
Definition isLineTerminator (c : Z) : bool :=
  (c =? 10) || (c =? 13) || (c =? 8232) || (c =? 8233).

Fixpoint trimStart (s : jsstr) : jsstr :=
  match s with
  | [] => []
  | c :: r => if isWs c then trimStart r else s
  end.

Definition trimEnd (s : jsstr) : jsstr := rev (trimStart (rev s)).

(** [s.trim()] *)
Definition trim (s : jsstr) : jsstr := trimEnd (trimStart s).

(** [s.split(/\s+/)] : a separator is a maximal run of white space, so a leading
    (or trailing) run leaves an empty first (last) field. [inWs] says that the
    scan is inside such a run. *)
Fixpoint splitWsAux (inWs : bool) (acc : jsstr) (s : jsstr) : list jsstr :=
  match s with
  | [] => [rev acc]
  | c :: r =>
      if isWs c then
        if inWs then splitWsAux true acc r
        else rev acc :: splitWsAux true [] r
      else splitWsAux false (c :: acc) r
  end.

Definition splitWs (s : jsstr) : list jsstr := splitWsAux false [] s.

(** ** Case mapping *)

Definition upperUnit (c : Z) : jsstr :=
  if (97 <=? c) && (c <=? 122) then [c - 32]
  else if c =? 181 then [924]
  else if c =? 223 then [83; 83]
  else if (224 <=? c) && (c <=? 254) && negb (c =? 247) then [c - 32]
  else if c =? 255 then [376]
  else if c =? 305 then [73]
  else if c =? 383 then [83]
  else if c =? 64256 then [70; 70]
  else if c =? 64257 then [70; 73]
  else if c =? 64258 then [70; 76]
  else if c =? 64259 then [70; 70; 73]
  else if c =? 64260 then [70; 70; 76]
  else if (c =? 64261) || (c =? 64262) then [83; 84]
  else [c].

Definition lowerUnit (c : Z) : jsstr :=
  if (65 <=? c) && (c <=? 90) then [c + 32]
  else if (192 <=? c) && (c <=? 222) && negb (c =? 215) then [c + 32]
  else if c =? 304 then [105; 775]
  else if c =? 8490 then [107]
  else if c =? 8491 then [229]
  else [c].

(** [s.toUpperCase()] and [s.toLowerCase()] *)
Definition toUpperCase (s : jsstr) : jsstr := flat_map upperUnit s.
Definition toLowerCase (s : jsstr) : jsstr := flat_map lowerUnit s.

(** The folding of the [i] flag of a regular expression without the [u] flag, on
    the ASCII letters (a unit from 128 up never folds to one below). *)
Definition foldAscii (c : Z) : Z :=
  if (97 <=? c) && (c <=? 122) then c - 32 else c.

(** [/^p/i.test(s)] for an ASCII literal [p] *)
Fixpoint startsWithI (p s : jsstr) : bool :=
  match p, s with
  | [], _ => true
  | _ :: _, [] => false
  | x :: p', y :: s' => (foldAscii x =? foldAscii y) && startsWithI p' s'
  end.

(** ** Numbers in strings *)

Definition isDigit (c : Z) : bool := (48 <=? c) && (c <=? 57).

(** [/^\d+$/.test(s)] *)
Definition isDigits (s : jsstr) : bool :=
  match s with [] => false | _ => forallb isDigit s end.

(** The value of a string of digits. *)
Definition digitsVal (s : jsstr) : Z := fold_left (fun n c => n * 10 + (c - 48)) s 0.

Fixpoint decDigits (fuel : nat) (n : Z) (acc : jsstr) : jsstr :=
  match fuel with
  | O => acc
  | S f =>
      let acc' := (48 + n mod 10) :: acc in
      if n / 10 =? 0 then acc' else decDigits f (n / 10) acc'
  end.

(** [String(n)] for an integer [n] (below [10^21], where JavaScript switches to
    the exponent form). *)
Definition numToString (n : Z) : jsstr :=
  if n <? 0 then 45 :: decDigits (S (Z.to_nat (Z.log2 (- n)))) (- n) []
  else decDigits (S (Z.to_nat (Z.log2 n))) n [].

(** ** Lemmas: searching *)

Lemma toLowerCase_app a b : toLowerCase (a ++ b) = toLowerCase a ++ toLowerCase b.
Proof. apply flat_map_app. Qed.

Lemma indexOf_None c l : indexOf c l = None <-> c ∉ l.
Proof.
  induction l as [|x l IH]; simpl; [set_solver|].
  destruct (Z.eqb_spec x c) as [->|Hne].
  - split; [done|]. intros H. exfalso. apply H. left.
  - rewrite fmap_None, IH, not_elem_of_cons. intuition congruence.
Qed.

Lemma indexOf_Some c l i :
  indexOf c l = Some i -> l = take i l ++ c :: drop (S i) l /\ c ∉ take i l.
Proof.
  revert i; induction l as [|x l IH]; simpl; intros i; [done|].
  destruct (Z.eqb_spec x c) as [->|Hne].
  - intros [= <-]. simpl. split; [done|set_solver].
  - intros (j & Hj & ->)%fmap_Some. destruct (IH _ Hj) as [Hl Hn]. simpl.
    split; [by rewrite <- Hl|]. apply not_elem_of_cons. done.
Qed.

Lemma indexOf_app_notin c l r :
  c ∉ l -> indexOf c (l ++ c :: r) = Some (length l).
Proof.
  induction l as [|x l IH]; simpl; intros Hn.
  - by rewrite Z.eqb_refl.
  - apply not_elem_of_cons in Hn as [Hx Hn].
    rewrite (proj2 (Z.eqb_neq x c)) by congruence. by rewrite IH.
Qed.

(** What follows the unit found. *)
Lemma drop_after (c : Z) l r : drop (S (length l)) (l ++ c :: r) = r.
Proof. induction l as [|x l IH]; [done|]. exact IH. Qed.

Lemma indexOf_app_l c l r i : indexOf c l = Some i -> indexOf c (l ++ r) = Some i.
Proof.
  revert i; induction l as [|x l IH]; simpl; intros i; [done|].
  destruct (x =? c); [done|]. intros (j & Hj & ->)%fmap_Some. by rewrite (IH _ Hj).
Qed.

Lemma indexOf_lt c l i : indexOf c l = Some i -> (i < length l)%nat.
Proof.
  revert i; induction l as [|x l IH]; simpl; intros i; [done|].
  destruct (x =? c); [intros [= <-]; lia|].
  intros (j & Hj & ->)%fmap_Some. apply IH in Hj. lia.
Qed.

Lemma lastIndexOf_app c l r : c ∉ r -> lastIndexOf c (l ++ c :: r) = Some (length l).
Proof.
  intros Hr. unfold lastIndexOf. rewrite rev_app_distr. cbn [rev]. rewrite <- app_assoc. cbn [app].
  rewrite indexOf_app_notin by (by rewrite list_elem_of_In, <- in_rev, <- list_elem_of_In).
  cbn. rewrite length_rev, length_app. cbn. f_equal. lia.
Qed.

Lemma lastIndexOf_Some c l i :
  lastIndexOf c l = Some i -> exists a b, l = a ++ c :: b /\ c ∉ b /\ i = length a.
Proof.
  unfold lastIndexOf. intros (j & Hj & ->)%fmap_Some. apply indexOf_lt in Hj as Hlt.
  destruct (indexOf_Some _ _ _ Hj) as [Hl Hn]. set (a := take j (rev l)) in *. set (b := drop (S j) (rev l)) in *.
  exists (rev b), (rev a). apply (f_equal (@rev Z)) in Hl as Hr. rewrite rev_involutive, rev_app_distr in Hr.
  cbn [rev] in Hr. rewrite <- app_assoc in Hr. split; [exact Hr|].
  split; [by rewrite list_elem_of_In, <- in_rev, <- list_elem_of_In|].
  rewrite Hr at 1. rewrite length_app, !length_rev. cbn. unfold a. rewrite !length_rev in *.
  rewrite length_take, length_rev. lia.
Qed.

(** [startsWith] and [indexOfStr] as decompositions. *)
Lemma startsWith_app p s : startsWith p (p ++ s) = true.
Proof. induction p as [|x p IH]; [done|]. simpl. by rewrite Z.eqb_refl. Qed.

Lemma startsWith_split p s : startsWith p s = true -> s = p ++ drop (length p) s.
Proof.
  revert s; induction p as [|x p IH]; intros [|y s]; simpl; try done.
  intros [->%Z.eqb_eq H]%andb_true_iff. f_equal. by apply IH.
Qed.

Lemma indexOfStr_Some p s i :
  indexOfStr p s = Some i ->
  s = take i s ++ p ++ drop (i + length p) s /\
  forall j, (j < i)%nat -> startsWith p (drop j s) = false.
Proof.
  revert i; induction s as [|x s IH]; intros i; simpl.
  - destruct (startsWith p []) eqn:E; [|done]. intros [= <-]. destruct p; [|done]. split; [done|lia].
  - destruct (startsWith p (x :: s)) eqn:E.
    + intros [= <-]. split; [by apply startsWith_split|lia].
    + intros (k & Hk & ->)%fmap_Some. destruct (IH _ Hk) as [Hs Hn]. simpl. split; [by f_equal|].
      intros [|j] Hj; [done|]. simpl. apply Hn. lia.
Qed.

Lemma indexOfStr_lt p s i : indexOfStr p s = Some i -> (i + length p <= length s)%nat.
Proof.
  intros H. pose proof (indexOfStr_Some _ _ _ H) as [Hs _]. revert i H Hs.
  induction s as [|x s IH]; intros i; simpl.
  - destruct p; simpl; [|done]. intros [= <-] _. simpl. lia.
  - destruct (startsWith p (x :: s)) eqn:E.
    + intros [= <-] Hs. apply (f_equal length) in Hs. rewrite !length_app in Hs. simpl in Hs |- *. lia.
    + intros (k & Hk & ->)%fmap_Some Hs. specialize (IH _ Hk). simpl in *.
      destruct (indexOfStr_Some _ _ _ Hk) as [Hs' _]. specialize (IH Hs'). lia.
Qed.

(** ** Lemmas: CRLF-terminated lines *)

Definition no_crlf (l : bytes) : Prop := indexOfCRLF l = None.

Lemma indexOfCRLF_lt l i : indexOfCRLF l = Some i -> (i + 2 <= length l)%nat.
Proof.
  revert i; induction l as [|x l IH]; simpl; intros i; [done|].
  destruct l as [|y l].
  - simpl. rewrite andb_false_r. done.
  - destruct ((x =? CR) && (y =? LF)).
    + intros [= <-]. simpl. lia.
    + intros (j & Hj & ->)%fmap_Some. apply IH in Hj. simpl in *. lia.
Qed.

Lemma indexOfCRLF_app_l l r i :
  indexOfCRLF l = Some i -> indexOfCRLF (l ++ r) = Some i.
Proof.
  revert i; induction l as [|x l IH]; simpl; intros i; [done|].
  destruct l as [|y l].
  - simpl. rewrite andb_false_r. done.
  - simpl in *. destruct ((x =? CR) && (y =? LF)); [done|].
    intros (j & Hj & ->)%fmap_Some. by rewrite (IH _ Hj).
Qed.

Lemma indexOfCRLF_split l i :
  indexOfCRLF l = Some i -> l = take i l ++ crlf ++ drop (i + 2) l.
Proof.
  revert i; induction l as [|x l IH]; simpl; intros i; [done|].
  destruct l as [|y l].
  - simpl. rewrite andb_false_r. done.
  - destruct ((x =? CR) && (y =? LF)) eqn:E.
    + intros [= <-]. bool_hyps. subst. done.
    + intros (j & Hj & ->)%fmap_Some. simpl. f_equal. exact (IH _ Hj).
Qed.

(** A line without CRLF that does not end in CR, followed by CRLF, is found whole;
    so is one that ends in CR as long as the pair formed is the terminator. *)
Lemma indexOfCRLF_line l r :
  no_crlf l -> indexOfCRLF (l ++ crlf ++ r) = Some (length l).
Proof.
  unfold no_crlf.
  induction l as [|x l IH]; intros H; [done|].
  change (indexOfCRLF (x :: (l ++ crlf ++ r)) = Some (S (length l))).
  simpl in H. simpl.
  destruct l as [|y l].
  - simpl in *. destruct (x =? CR); done.
  - simpl in *. destruct ((x =? CR) && (y =? LF)); [done|].
    apply fmap_None in H. rewrite (IH H). done.
Qed.

(** Removing the line and its terminator. *)
Lemma take_line (l r : bytes) : take (length l) (l ++ crlf ++ r) = l.
Proof. apply take_app_length. Qed.

Lemma drop_line (l r : bytes) : drop (length l + 2) (l ++ crlf ++ r) = r.
Proof. induction l; [done|]. simpl. done. Qed.

Lemma no_crlf_cons x l : no_crlf (x :: l) -> no_crlf l.
Proof.
  unfold no_crlf. simpl. destruct ((x =? CR) && _); [done|]. by rewrite fmap_None.
Qed.

Lemma no_crlf_cons_other x l : x <> CR -> no_crlf l -> no_crlf (x :: l).
Proof.
  unfold no_crlf. simpl. intros Hx ->.
  by rewrite (proj2 (Z.eqb_neq x CR)).
Qed.

(** ** Lemmas: splitting and joining *)

Lemma splitOn_ne c l : splitOn c l <> [].
Proof. destruct l as [|x l]; simpl; [done|]. destruct (x =? c); [done|]. by destruct (splitOn c l). Qed.

Lemma join_split c l : joinWith [c] (splitOn c l) = l.
Proof.
  induction l as [|x l IH]; [done|]. simpl.
  pose proof (splitOn_ne c l) as Hne.
  destruct (Z.eqb_spec x c) as [->|Hx].
  - destruct (splitOn c l); [done|]. simpl in *. by rewrite IH.
  - destruct (splitOn c l) as [|h [|h' t]]; simpl in *; [done|by rewrite IH|by rewrite <- IH].
Qed.

Lemma splitOn_no_sep c l : Forall (fun s => c ∉ s) (splitOn c l).
Proof.
  induction l as [|x l IH]; simpl; [constructor; [apply not_elem_of_nil|constructor]|].
  destruct (Z.eqb_spec x c) as [->|Hx]; [constructor; [apply not_elem_of_nil|done]|].
  destruct (splitOn c l) as [|h t].
  { constructor; [|constructor]. rewrite list_elem_of_singleton. congruence. }
  apply Forall_cons in IH as [Hh Ht]. constructor; [|done].
  apply not_elem_of_cons. done.
Qed.

Lemma splitOn_notin c l : c ∉ l -> splitOn c l = [l].
Proof.
  induction l as [|x l IH]; simpl; intros Hn; [done|].
  apply not_elem_of_cons in Hn as [Hx Hn].
  rewrite (proj2 (Z.eqb_neq x c)) by congruence. by rewrite IH.
Qed.

Lemma splitOn_app c l r : c ∉ l -> splitOn c (l ++ c :: r) = l :: splitOn c r.
Proof.
  induction l as [|x l IH]; simpl; intros Hn.
  - by rewrite Z.eqb_refl.
  - apply not_elem_of_cons in Hn as [Hx Hn].
    rewrite (proj2 (Z.eqb_neq x c)) by congruence. by rewrite IH.
Qed.

Lemma split_join c ls :
  ls <> [] -> Forall (fun l => c ∉ l) ls -> splitOn c (joinWith [c] ls) = ls.
Proof.
  induction ls as [|l [|l' ls] IH]; intros Hne Hf; [done| |].
  - inversion Hf; subst. by apply splitOn_notin.
  - inversion Hf; subst. change (joinWith [c] (l :: l' :: ls)) with (l ++ c :: joinWith [c] (l' :: ls)).
    rewrite splitOn_app by done. by rewrite IH.
Qed.

(** ** Lemmas: decimal numbers *)

Lemma digitsVal_snoc s c : digitsVal (s ++ [c]) = digitsVal s * 10 + (c - 48).
Proof. unfold digitsVal. by rewrite fold_left_app. Qed.

Lemma digitsVal_fold s n :
  fold_left (fun n c => n * 10 + (c - 48)) s n = n * 10 ^ len s + digitsVal s.
Proof.
  unfold digitsVal. revert n. induction s as [|c s IH] using rev_ind; intros n.
  - simpl. rewrite len_nil. lia.
  - rewrite !fold_left_app. simpl. rewrite IH.
    replace (len (s ++ [c])) with (Z.succ (len s)) by (unfold len; rewrite length_app; simpl; lia).
    rewrite Z.pow_succ_r by apply len_nonneg. lia.
Qed.

Lemma digitsVal_cons c s : digitsVal (c :: s) = (c - 48) * 10 ^ len s + digitsVal s.
Proof. unfold digitsVal at 1. simpl. rewrite digitsVal_fold. lia. Qed.

Lemma decDigits_val fuel n acc :
  0 <= n < 10 ^ Z.of_nat fuel ->
  digitsVal (decDigits fuel n acc) = n * 10 ^ len acc + digitsVal acc.
Proof.
  revert n acc; induction fuel as [|f IH]; intros n acc Hn.
  - simpl in *. assert (n = 0) by lia. subst. lia.
  - rewrite Nat2Z.inj_succ, Z.pow_succ_r in Hn by lia. simpl.
    pose proof (Z.div_mod n 10 ltac:(lia)) as Hd.
    assert (0 <= len acc) by apply len_nonneg.
    destruct (Z.eqb_spec (n / 10) 0) as [H0|H0].
    + rewrite digitsVal_cons. f_equal. f_equal. lia.
    + rewrite IH.
      * rewrite len_cons, digitsVal_cons, Z.pow_add_r by lia.
        change (10 ^ 1) with 10. rewrite Hd at 3. nia.
      * split; [apply Z.div_pos; lia|]. apply Z.div_lt_upper_bound; lia.
Qed.

Lemma decDigits_ne fuel n acc : decDigits (S fuel) n acc <> [].
Proof.
  revert n acc; induction fuel as [|f IH]; intros n acc.
  - simpl. destruct (n / 10 =? 0); done.
  - change (decDigits (S (S f)) n acc) with
      (if n / 10 =? 0 then (48 + n mod 10) :: acc else decDigits (S f) (n / 10) ((48 + n mod 10) :: acc)).
    destruct (n / 10 =? 0); [done|apply IH].
Qed.

Lemma decDigits_digits fuel n acc :
  Forall (fun c => isDigit c = true) acc ->
  Forall (fun c => isDigit c = true) (decDigits fuel n acc).
Proof.
  revert n acc; induction fuel as [|f IH]; intros n acc Ha; [done|]. simpl.
  assert (Hc : isDigit (48 + n mod 10) = true).
  { pose proof (Z.mod_pos_bound n 10 ltac:(lia)). unfold isDigit.
    apply andb_true_iff. rewrite !Z.leb_le. lia. }
  destruct (n / 10 =? 0); [by constructor|]. apply IH. by constructor.
Qed.

Lemma numToString_fuel n : 0 <= n -> n < 10 ^ Z.of_nat (S (Z.to_nat (Z.log2 n))).
Proof.
  intros Hn. rewrite Nat2Z.inj_succ, Z2Nat.id by apply Z.log2_nonneg.
  destruct (Z.eq_dec n 0) as [->|]; [done|].
  destruct (Z.log2_spec n) as [_ H]; [lia|].
  pose proof (Z.pow_le_mono_l 2 10 (Z.succ (Z.log2 n)) ltac:(lia)). lia.
Qed.

(** Printing an integer and reading its digits back gives the integer. *)
Lemma numToString_val n : 0 <= n -> digitsVal (numToString n) = n.
Proof.
  intros Hn. unfold numToString. rewrite (proj2 (Z.ltb_ge n 0)) by lia.
  rewrite decDigits_val.
  - rewrite len_nil. unfold digitsVal. simpl. lia.
  - split; [done|]. by apply numToString_fuel.
Qed.

Lemma numToString_digits n : 0 <= n -> isDigits (numToString n) = true.
Proof.
  intros Hn. unfold numToString, isDigits. rewrite (proj2 (Z.ltb_ge n 0)) by lia.
  pose proof (decDigits_ne (Z.to_nat (Z.log2 n)) n []) as Hne.
  pose proof (decDigits_digits (S (Z.to_nat (Z.log2 n))) n [] ltac:(constructor)) as Hd.
  destruct (decDigits _ _ _) as [|c s]; [done|].
  apply forallb_forall. intros x Hx. rewrite Forall_forall in Hd. apply Hd.
  by apply list_elem_of_In.
Qed.

Lemma decDigits_head fuel n acc :
  1 <= n < 10 ^ Z.of_nat fuel ->
  exists c s, decDigits fuel n acc = c :: s /\ 49 <= c.
Proof.
  revert n acc; induction fuel as [|f IH]; intros n acc Hn; [simpl in Hn; lia|].
  rewrite Nat2Z.inj_succ, Z.pow_succ_r in Hn by lia. simpl.
  pose proof (Z.div_mod n 10 ltac:(lia)) as Hd.
  pose proof (Z.mod_pos_bound n 10 ltac:(lia)).
  destruct (Z.eqb_spec (n / 10) 0) as [H0|H0].
  - eexists _, _. split; [done|]. lia.
  - apply IH. split; [lia|]. apply Z.div_lt_upper_bound; lia.
Qed.

(** No leading zero. *)
Lemma numToString_head n : 1 <= n -> exists c s, numToString n = c :: s /\ 49 <= c.
Proof.
  intros Hn. unfold numToString. rewrite (proj2 (Z.ltb_ge n 0)) by lia.
  apply decDigits_head. split; [done|]. by apply numToString_fuel; lia.
Qed.

(** ** Lemmas: decimal numbers of fixed width *)

Lemma digitsVal_app a b : digitsVal (a ++ b) = digitsVal a * 10 ^ len b + digitsVal b.
Proof. unfold digitsVal at 1. rewrite fold_left_app. apply digitsVal_fold. Qed.

Lemma digitsVal_pad w s : digitsVal (padStart0 w s) = digitsVal s.
Proof.
  unfold padStart0. induction (w - length s)%nat as [|n IH]; [done|]. cbn [replicate app].
  rewrite digitsVal_cons, IH. change (48 - 48) with 0. rewrite Z.mul_0_l. done.
Qed.

Lemma digitsVal_bound s : forallb isDigit s = true -> 0 <= digitsVal s < 10 ^ len s.
Proof.
  induction s as [|c s IH]; [done|]. cbn [forallb]. intros [Hc Hs]%andb_true_iff. unfold isDigit in Hc. bool_hyps.
  specialize (IH Hs). rewrite digitsVal_cons, len_cons, Z.pow_add_r by (pose proof (len_nonneg s); lia). nia.
Qed.

(** The digits of [n] padded to a width that holds it have that width. *)
Lemma padStart0_length w n : 0 <= n < 10 ^ Z.of_nat w -> (0 < w)%nat -> length (padStart0 w (numToString n)) = w.
Proof.
  intros Hn Hw. unfold padStart0. rewrite length_app, length_replicate.
  enough (length (numToString n) <= w)%nat by lia.
  destruct (Z.eq_dec n 0) as [->|]; [change (numToString 0) with [48]; cbn [length]; lia|]. destruct (numToString_head n ltac:(lia)) as (c & s & Hs & Hc).
  pose proof (numToString_val n ltac:(lia)) as Hv. pose proof (numToString_digits n ltac:(lia)) as Hd.
  rewrite Hs in *. unfold isDigits in Hd. cbn [forallb] in Hd. apply andb_true_iff in Hd as [_ Hd].
  rewrite digitsVal_cons in Hv. pose proof (digitsVal_bound s Hd) as Hb. cbn [length].
  assert (10 ^ len s < 10 ^ Z.of_nat w) by nia. apply Z.pow_lt_mono_r_iff in H; [unfold len in H; lia|lia|lia].
Qed.

Lemma padStart0_digits w n : 0 <= n -> forallb isDigit (padStart0 w (numToString n)) = true.
Proof.
  intros Hn. unfold padStart0. rewrite forallb_app. pose proof (numToString_digits n Hn) as Hd.
  assert (Hf : forallb isDigit (numToString n) = true) by (unfold isDigits in Hd; by destruct (numToString n)).
  rewrite Hf, andb_true_r. induction (w - _)%nat; [done|]. by cbn.
Qed.

(** Strings of the same length compare piece by piece. *)
Lemma strLt_app a a' b b' : length a = length a' ->
  strLt (a ++ b) (a' ++ b') = strLt a a' || ((a === a') && strLt b b').
Proof.
  revert a'; induction a as [|x a IH]; intros [|y a'] Hl; try done. cbn in Hl |- *. rewrite IH by lia.
  destruct (Z.ltb_spec x y); [done|]. cbn [orb]. destruct (Z.eqb_spec x y); [|done]. cbn [andb]. done.
Qed.

(** Digits of the same width compare as their numbers do. *)
Lemma strLt_digits a b : forallb isDigit a = true -> forallb isDigit b = true -> length a = length b ->
  strLt a b = (digitsVal a <? digitsVal b) /\ (a === b) = (digitsVal a =? digitsVal b).
Proof.
  revert b; induction a as [|x a IH]; intros [|y b] Ha Hb Hl; try done. cbn in Ha, Hb, Hl.
  apply andb_true_iff in Ha as [Hx Ha], Hb as [Hy Hb]. unfold isDigit in Hx, Hy. bool_hyps.
  destruct (IH b Ha Hb ltac:(lia)) as [IH1 IH2]. cbn [strLt seqb]. rewrite IH1, IH2, !digitsVal_cons.
  pose proof (digitsVal_bound a Ha). pose proof (digitsVal_bound b Hb).
  assert (len a = len b) as El by (unfold len; lia). rewrite El in *.
  set (P := 10 ^ len b) in *. destruct (Z.lt_trichotomy x y) as [Hlt|[->|Hgt]].
  - rewrite (proj2 (Z.ltb_lt x y)), (proj2 (Z.eqb_neq x y)) by lia. cbn. split; symmetry; [apply Z.ltb_lt|apply Z.eqb_neq]; nia.
  - rewrite Z.ltb_irrefl, Z.eqb_refl. cbn. split; apply eq_true_iff_eq; rewrite ?Z.ltb_lt, ?Z.eqb_eq; lia.
  - rewrite (proj2 (Z.ltb_ge x y)), (proj2 (Z.eqb_neq x y)) by lia. cbn. split; symmetry; [apply Z.ltb_ge|apply Z.eqb_neq]; nia.
Qed.

(** ** Dot-stuffing (RFC 5321 4.5.2), the sender's side of DATA transparency *)

Definition stuffLine (l : bytes) : bytes := if startsWith [DOT] l then DOT :: l else l.

(** A message of the lines [ls] as a client sends it, terminator included. *)
Definition stuffedBody (ls : list bytes) : bytes :=
  flat_map (fun l => stuffLine l ++ crlf) ls ++ [DOT] ++ crlf.

(** The message itself. *)
Definition bodyOf (ls : list bytes) : bytes := flat_map (fun l => l ++ crlf) ls.

Lemma stuffedBody_cons l ls rest :
  stuffedBody (l :: ls) ++ rest = stuffLine l ++ crlf ++ (stuffedBody ls ++ rest).
Proof. unfold stuffedBody. cbn [flat_map]. by rewrite <- !app_assoc. Qed.

#[global] Arguments stuffLine : simpl never.
#[global] Arguments stuffedBody : simpl never.
#[global] Arguments bodyOf : simpl never.

Lemma stuffLine_not_dot l : stuffLine l <> [DOT].
Proof.
  unfold stuffLine. destruct l as [|x l]; [done|]. cbn [startsWith].
  destruct (Z.eqb_spec DOT x) as [E|E]; cbn [andb]; congruence.
Qed.

Lemma stuffLine_no_crlf l : no_crlf l -> no_crlf (stuffLine l).
Proof.
  intros H. unfold stuffLine. case_match; [|done]. by apply no_crlf_cons_other.
Qed.

Lemma unstuff_stuffLine l :
  (if startsWith [DOT; DOT] (stuffLine l) then drop 1 (stuffLine l) else stuffLine l) = l.
Proof.
  unfold stuffLine. destruct l as [|x l]; [done|]. cbn [startsWith].
  destruct (Z.eqb_spec DOT x) as [<-|Hx]; cbn [andb startsWith].
  - done.
  - by rewrite (proj2 (Z.eqb_neq DOT x)).
Qed.
