(* ===== verification/Glob.v ===== *)
(** * Wildcard matching (packages/core/src/glob.ts)

    The linear-time matcher that IMAP LIST and Sieve [:matches] share: the
    tokenizer, the forward dynamic-programming matcher, and the capture
    extraction over the backward table.  [Pat] is the abstract meaning of a
    pattern; the theorems show that both tables compute it. *)

From S2P Require Import Prelude JsString.

(** ** Data *)

(** [interface GlobSyntax].  The wildcards are one-unit strings in every syntax
    the code builds, so they are code units here. *)
Record GlobSyntax := mkGlobSyntax {
  star : Z;
  starWithin : option Z;
  boundary : option Z;
  single : option Z;
  escape : option Z;
  caseInsensitive : bool
}.

Definition imapListSyntax (delimiter : Z) : GlobSyntax :=
  {| star := 42; starWithin := Some 37; boundary := Some delimiter;
     single := None; escape := None; caseInsensitive := false |}.

Definition SIEVE_MATCH_SYNTAX : GlobSyntax :=
  {| star := 42; starWithin := None; boundary := None;
     single := Some 63; escape := Some 92; caseInsensitive := true |}.

Inductive Token :=
| TLiteral (ch : Z)
| TStar
| TStarWithin
| TSingle.

(** ** Tokenizer *)

(** [x !== undefined && ch === x] *)
Definition isOpt (o : option Z) (ch : Z) : bool :=
  match o with Some x => ch =? x | None => false end.

(** The loop of [tokenize]; [lastStar] is [out[out.length - 1]?.kind === "star"]. *)
Fixpoint tokenizeFrom (syntax : GlobSyntax) (lastStar : bool) (pattern : jsstr) : list Token :=
  match pattern with
  | [] => []
  | ch :: rest =>
      if isOpt (escape syntax) ch then
        match rest with
        | next :: rest' => TLiteral next :: tokenizeFrom syntax false rest'
        | [] => []
        end
      else if ch =? star syntax then
        if lastStar then tokenizeFrom syntax true rest
        else TStar :: tokenizeFrom syntax true rest
      else if isOpt (starWithin syntax) ch then TStarWithin :: tokenizeFrom syntax false rest
      else if isOpt (single syntax) ch then TSingle :: tokenizeFrom syntax false rest
      else TLiteral ch :: tokenizeFrom syntax false rest
  end.

Definition tokenize (pattern : jsstr) (syntax : GlobSyntax) : list Token :=
  tokenizeFrom syntax false pattern.

(** ** The forward matcher *)

(** [hay]: the value, lower-cased when the syntax ignores case.  The loops index
    it only below [value.length], hence the [take]. *)
Definition hayOf (syntax : GlobSyntax) (value : jsstr) : jsstr :=
  if caseInsensitive syntax then take (length value) (toLowerCase value) else value.

(** [hay[j] === ch] for a literal token, with its own lower-casing: a literal
    whose lower case has two units equals no unit. *)
Definition litEq (syntax : GlobSyntax) (ch h : Z) : bool :=
  if caseInsensitive syntax then
    match toLowerCase [ch] with [c] => h =? c | _ => false end
  else h =? ch.

(** [boundary !== undefined && h === boundary] *)
Definition isBoundary (syntax : GlobSyntax) (h : Z) : bool := isOpt (boundary syntax) h.

(** The running OR of the [star] case. *)
Fixpoint rowStar (run : bool) (prev : list bool) : list bool :=
  match prev with
  | [] => []
  | p :: prev' => let run' := run || p in run' :: rowStar run' prev'
  end.

(** The running OR of the [starWithin] case from the second cell on, cut at a boundary. *)
Fixpoint rowWithin (syntax : GlobSyntax) (run : bool) (prev : list bool) (hay : jsstr) : list bool :=
  match prev, hay with
  | p :: prev', h :: hay' =>
      let run' := if isBoundary syntax h then p else run || p in
      run' :: rowWithin syntax run' prev' hay'
  | _, _ => []
  end.

(** One row of the table: [prev] and the token give [cur]. *)
Definition stepRow (syntax : GlobSyntax) (hay : jsstr) (tok : Token) (prev : list bool) : list bool :=
  match tok with
  | TLiteral ch => false :: zip_with (fun p h => p && litEq syntax ch h) prev hay
  | TSingle => false :: take (length hay) prev
  | TStar => rowStar false prev
  | TStarWithin =>
      match prev with
      | [] => []
      | p0 :: prev' => p0 :: rowWithin syntax p0 prev' hay
      end
  end.

(** The loop over the tokens with its early exit when no position is alive. *)
Fixpoint runRows (syntax : GlobSyntax) (hay : jsstr) (tokens : list Token) (prev : list bool) : bool :=
  match tokens with
  | [] => match prev !! length hay with Some b => b | None => false end
  | tok :: tokens' =>
      let cur := stepRow syntax hay tok prev in
      if existsb id cur then runRows syntax hay tokens' cur else false
  end.

Definition matchTokens (tokens : list Token) (value : jsstr) (syntax : GlobSyntax) : bool :=
  runRows syntax (hayOf syntax value) tokens (true :: replicate (length value) false).

Definition globMatch (pattern value : jsstr) (syntax : GlobSyntax) : bool :=
  matchTokens (tokenize pattern syntax) value syntax.

Definition compileGlob (pattern : jsstr) (syntax : GlobSyntax) : jsstr -> bool :=
  let tokens := tokenize pattern syntax in
  fun value => matchTokens tokens value syntax.

(** ** Captures *)

Definition MAX_CAPTURE_CELLS : Z := 1000000.

Record GlobCaptureResult := mkCapture { matched : bool; captures : list jsstr }.

(** The [star] row of the backward table: the OR of the cells from here on. *)
Fixpoint backStar (next : list bool) : list bool :=
  match next with
  | [] => []
  | n :: next' => existsb id next :: backStar next'
  end.

(** The [starWithin] row of the backward table, computed from the last cell. *)
Fixpoint backWithin (syntax : GlobSyntax) (next : list bool) (hay : jsstr) : list bool :=
  match next, hay with
  | n :: next', h :: hay' =>
      let row := backWithin syntax next' hay' in
      let run := match row with r :: _ => r | [] => false end in
      (if isBoundary syntax h then n else run || n) :: row
  | _, _ => next
  end.

(** Row [i] of [canFinish] from row [i + 1]. *)
Definition backRow (syntax : GlobSyntax) (hay : jsstr) (tok : Token) (next : list bool) : list bool :=
  match tok with
  | TLiteral ch => zip_with (fun h n => litEq syntax ch h && n) hay (tail next) ++ [false]
  | TSingle => tail next ++ [false]
  | TStar => backStar next
  | TStarWithin => backWithin syntax next hay
  end.

(** The rows [i], [i + 1], ..., [n] of [canFinish]. *)
Fixpoint canFinish (syntax : GlobSyntax) (hay : jsstr) (tokens : list Token) : list (list bool) :=
  match tokens with
  | [] => [replicate (length hay) false ++ [true]]
  | tok :: tokens' =>
      match canFinish syntax hay tokens' with
      | next :: rows => backRow syntax hay tok next :: next :: rows
      | [] => []
      end
  end.

Definition cell (row : list bool) (j : nat) : bool :=
  match row !! j with Some b => b | None => false end.

(** [for (let k = m; k >= j; k--)]: the largest [k = j + d] that can finish and
    that, for [%], crosses no boundary; [j] when there is none. *)
Fixpoint greedyEnd (syntax : GlobSyntax) (hay : jsstr) (within : bool) (next : list bool)
    (j d : nat) : nat :=
  if cell next (j + d)
     && negb (within && existsb (isBoundary syntax) (take d (drop j hay)))
  then (j + d)%nat
  else match d with O => j | S d' => greedyEnd syntax hay within next j d' end.

(** The walk from the front; [rows] are the rows [i + 1], ..., [n]. *)
Fixpoint captureWalk (syntax : GlobSyntax) (value hay : jsstr) (tokens : list Token)
    (rows : list (list bool)) (j : nat) : list jsstr :=
  match tokens with
  | [] => []
  | tok :: tokens' =>
      let next := match rows with r :: _ => r | [] => [] end in
      match tok with
      | TLiteral _ => captureWalk syntax value hay tokens' (tail rows) (S j)
      | TSingle =>
          take 1 (drop j value) :: captureWalk syntax value hay tokens' (tail rows) (S j)
      | TStar | TStarWithin =>
          let within := match tok with TStarWithin => true | _ => false end in
          let end_ := greedyEnd syntax hay within next j (length value - j) in
          take (end_ - j) (drop j value)
            :: captureWalk syntax value hay tokens' (tail rows) end_
      end
  end.

Definition globCaptures (pattern value : jsstr) (syntax : GlobSyntax) : GlobCaptureResult :=
  let tokens := tokenize pattern syntax in
  if MAX_CAPTURE_CELLS <? (len tokens + 1) * (len value + 1) then
    mkCapture (matchTokens tokens value syntax) []
  else
    let hay := hayOf syntax value in
    let rows := canFinish syntax hay tokens in
    if cell (match rows with r :: _ => r | [] => [] end) 0
    then mkCapture true (captureWalk syntax value hay tokens (tail rows) 0)
    else mkCapture false [].

(** ** Abstract meaning *)

(** What one token may consume. *)
Inductive Eats (syntax : GlobSyntax) : Token -> jsstr -> Prop :=
| eats_literal ch h : litEq syntax ch h = true -> Eats syntax (TLiteral ch) [h]
| eats_single h : Eats syntax TSingle [h]
| eats_star w : Eats syntax TStar w
| eats_within w : Forall (fun h => isBoundary syntax h = false) w -> Eats syntax TStarWithin w.

(** A token list matches a string cut into consecutive pieces, one per token. *)
Inductive Toks (syntax : GlobSyntax) : list Token -> jsstr -> Prop :=
| toks_nil : Toks syntax [] []
| toks_cons tok toks w v :
    Eats syntax tok w -> Toks syntax toks v -> Toks syntax (tok :: toks) (w ++ v).

(** The meaning of a pattern, read directly off its characters: this is what RFC
    9051 section 6.3.9 and RFC 5228 section 2.7.1 describe, with no tokenizer and
    no table. *)
Inductive Pat (syntax : GlobSyntax) : jsstr -> jsstr -> Prop :=
| pat_nil : Pat syntax [] []
| pat_escaped e c p h v :
    isOpt (escape syntax) e = true -> litEq syntax c h = true ->
    Pat syntax p v -> Pat syntax (e :: c :: p) (h :: v)
| pat_escape_end e :
    isOpt (escape syntax) e = true -> Pat syntax [e] []
| pat_star p w v :
    isOpt (escape syntax) (star syntax) = false ->
    Pat syntax p v -> Pat syntax (star syntax :: p) (w ++ v)
| pat_within c p w v :
    isOpt (escape syntax) c = false -> c <> star syntax -> isOpt (starWithin syntax) c = true ->
    Forall (fun h => isBoundary syntax h = false) w ->
    Pat syntax p v -> Pat syntax (c :: p) (w ++ v)
| pat_single c p h v :
    isOpt (escape syntax) c = false -> c <> star syntax -> isOpt (starWithin syntax) c = false ->
    isOpt (single syntax) c = true -> Pat syntax p v -> Pat syntax (c :: p) (h :: v)
| pat_literal c p h v :
    isOpt (escape syntax) c = false -> c <> star syntax -> isOpt (starWithin syntax) c = false ->
    isOpt (single syntax) c = false -> litEq syntax c h = true ->
    Pat syntax p v -> Pat syntax (c :: p) (h :: v).

(** ** Facts on [hay] and on token lists *)

Lemma lowerUnit_ne c : lowerUnit c <> [].
Proof. unfold lowerUnit. repeat case_match; done. Qed.

Lemma toLowerCase_length s : (length s <= length (toLowerCase s))%nat.
Proof.
  induction s as [|c s IH]; [done|]. unfold toLowerCase in *. simpl. rewrite length_app.
  pose proof (lowerUnit_ne c). destruct (lowerUnit c); [done|]. simpl. lia.
Qed.

Lemma hayOf_length syntax value : length (hayOf syntax value) = length value.
Proof.
  unfold hayOf. destruct (caseInsensitive syntax); [|done].
  rewrite length_take. pose proof (toLowerCase_length value). lia.
Qed.

Section Meaning.
Context (syntax : GlobSyntax).

Lemma toks_cons_iff tok toks v :
  Toks syntax (tok :: toks) v <->
  exists w v', v = w ++ v' /\ Eats syntax tok w /\ Toks syntax toks v'.
Proof.
  split.
  - inversion 1; subst. eauto.
  - intros (w & v' & -> & ? & ?). by constructor.
Qed.

Lemma toks_nil_iff v : Toks syntax [] v <-> v = [].
Proof. split; [by inversion 1|intros ->; constructor]. Qed.

Lemma toks_star_star toks v :
  Toks syntax (TStar :: TStar :: toks) v <-> Toks syntax (TStar :: toks) v.
Proof.
  rewrite !toks_cons_iff. setoid_rewrite toks_cons_iff. split.
  - intros (w & v' & -> & _ & w' & v'' & -> & _ & H).
    exists (w ++ w'), v''. rewrite app_assoc. repeat split; auto; constructor.
  - intros (w & v' & -> & _ & H). exists w, v'. repeat split; auto; try constructor.
    exists [], v'. repeat split; auto; constructor.
Qed.

(** The tokenizer is faithful to the pattern; a star that was just emitted
    absorbs the stars the tokenizer then drops. *)
Lemma tokenizeFrom_sound (b : bool) p v :
  Toks syntax (if b then TStar :: tokenizeFrom syntax b p else tokenizeFrom syntax b p) v ->
  exists w v', v = w ++ v' /\ (b = false -> w = []) /\ Pat syntax p v'.
Proof.
  enough (forall (n : nat) (p : jsstr) (b : bool) (v : jsstr), (length p <= n)%nat ->
    Toks syntax (tokenizeFrom syntax b p) v ->
    exists w v', v = w ++ v' /\ (b = false -> w = []) /\ Pat syntax p v') as Hmain.
  { destruct b; [|intros H; exact (Hmain (length p) p false v (le_n _) H)].
    rewrite toks_cons_iff. intros (w & v1 & -> & _ & H).
    destruct (Hmain (length p) p true v1) as (w' & v' & -> & _ & HP); [done..|].
    exists (w ++ w'), v'. rewrite app_assoc. done. }
  clear p b v. induction n as [|n IH]; intros p b v Hlen.
  { destruct p; simpl in *; [|lia]. intros ->%toks_nil_iff.
    exists [], []. repeat split; auto. constructor. }
  destruct p as [|ch rest]; simpl in *.
  { intros ->%toks_nil_iff. exists [], []. repeat split; auto. constructor. }
  destruct (isOpt (escape syntax) ch) eqn:Eesc.
  - destruct rest as [|c rest].
    + intros ->%toks_nil_iff. exists [], []. repeat split; auto. by constructor.
    + rewrite toks_cons_iff. intros (w & v' & -> & He & HT). inversion He; subst.
      apply IH in HT as (w & v'' & -> & Hw & HP); [|simpl in *; lia].
      rewrite (Hw eq_refl). exists [], (h :: v''). simpl. repeat split; auto. by constructor.
  - destruct (Z.eqb_spec ch (star syntax)) as [->|Hstar].
    + destruct b.
      * intros HT. apply IH in HT as (w & v' & -> & _ & HP); [|lia].
        exists w, v'. repeat split; [done..|]. change v' with ([] ++ v'). by constructor.
      * rewrite toks_cons_iff. intros (w & v1 & -> & _ & HT).
        apply IH in HT as (w' & v' & -> & _ & HP); [|lia].
        exists [], (w ++ w' ++ v'). repeat split; [done..|].
        rewrite app_assoc. by constructor.
    + destruct (isOpt (starWithin syntax) ch) eqn:Ew; [|destruct (isOpt (single syntax) ch) eqn:Es];
        rewrite toks_cons_iff; intros (w & v1 & -> & He & HT); inversion He; subst;
        apply IH in HT as (w' & v' & -> & Hw & HP); try lia;
        rewrite (Hw eq_refl); simpl; eexists [], _; repeat split; try done;
        by constructor.
Qed.

Lemma tokenizeFrom_complete p v :
  Pat syntax p v ->
  Toks syntax (tokenizeFrom syntax false p) v /\
  Toks syntax (TStar :: tokenizeFrom syntax true p) v.
Proof.
  assert (Hlift : forall toks v, Toks syntax toks v -> Toks syntax (TStar :: toks) v).
  { intros toks u H. change u with ([] ++ u). constructor; [constructor|done]. }
  induction 1 as [|e c p h v He Hl HP [IH1 IH2]|e He|p w v Hs HP [IH1 IH2]
    |c p w v He Hs Hw Hf HP [IH1 IH2]|c p h v He Hs Hw Hsi HP [IH1 IH2]
    |c p h v He Hs Hw Hsi Hl HP [IH1 IH2]]; simpl.
  - split; [|apply Hlift]; constructor.
  - rewrite He. split; [|apply Hlift]; change (h :: v) with ([h] ++ v);
      constructor; auto; by constructor.
  - rewrite He. split; [|apply Hlift]; constructor.
  - rewrite Hs, Z.eqb_refl. split.
    + apply toks_cons_iff in IH2 as (w' & v' & -> & _ & HT).
      rewrite app_assoc. constructor; [constructor|done].
    + apply toks_cons_iff in IH2 as (w' & v' & -> & _ & HT).
      rewrite app_assoc. constructor; [constructor|done].
  - rewrite He, (proj2 (Z.eqb_neq _ _) Hs), Hw.
    split; [|apply Hlift]; (constructor; [by constructor|done]).
  - rewrite He, (proj2 (Z.eqb_neq _ _) Hs), Hw, Hsi.
    split; [|apply Hlift]; change (h :: v) with ([h] ++ v); (constructor; [by constructor|done]).
  - rewrite He, (proj2 (Z.eqb_neq _ _) Hs), Hw, Hsi.
    split; [|apply Hlift]; change (h :: v) with ([h] ++ v); (constructor; [by constructor|done]).
Qed.

Lemma tokenize_meaning p v : Toks syntax (tokenize p syntax) v <-> Pat syntax p v.
Proof.
  split.
  - intros H. destruct (tokenizeFrom_sound false p v H) as (w & v' & -> & Hw & HP).
    by rewrite (Hw eq_refl).
  - intros H. by apply tokenizeFrom_complete.
Qed.
End Meaning.

(** ** The forward table *)

Section Forward.
Context (syntax : GlobSyntax).

(** Some alive cell of [row] stands before a suffix of [hay] that satisfies [P]. *)
Fixpoint Alive (row : list bool) (hay : jsstr) (P : jsstr -> Prop) : Prop :=
  match row with
  | [] => False
  | b :: row' =>
      (b = true /\ P hay) \/
      match hay with [] => False | _ :: hay' => Alive row' hay' P end
  end.

(** [P] holds of some suffix reached by consuming a piece the token eats. *)
Definition after (tok : Token) (P : jsstr -> Prop) (v : jsstr) : Prop :=
  exists w v', v = w ++ v' /\ Eats syntax tok w /\ P v'.

Lemma after_literal ch P v :
  after (TLiteral ch) P v <->
  match v with h :: v' => litEq syntax ch h = true /\ P v' | [] => False end.
Proof.
  split.
  - intros (w & v' & -> & He & HP). inversion He; subst. done.
  - destruct v as [|h v]; [done|]. intros [Hl HP]. exists [h], v.
    repeat split; [by constructor|done].
Qed.

Lemma after_single P v :
  after TSingle P v <-> match v with _ :: v' => P v' | [] => False end.
Proof.
  split.
  - intros (w & v' & -> & He & HP). inversion He; subst. done.
  - destruct v as [|h v]; [done|]. intros HP. exists [h], v. repeat split; [constructor|done].
Qed.

Lemma after_star P v :
  after TStar P v <-> P v \/ match v with _ :: v' => after TStar P v' | [] => False end.
Proof.
  split.
  - intros ([|h w] & v' & -> & He & HP); [by left|right].
    simpl. exists w, v'. repeat split; [constructor|done].
  - intros [HP|HP].
    + exists [], v. repeat split; [constructor|done].
    + destruct v as [|h v]; [done|]. destruct HP as (w & v' & -> & _ & HP).
      exists (h :: w), v'. repeat split; [constructor|done].
Qed.

Lemma after_within P v :
  after TStarWithin P v <->
  P v \/ match v with
         | h :: v' => isBoundary syntax h = false /\ after TStarWithin P v'
         | [] => False
         end.
Proof.
  split.
  - intros ([|h w] & v' & -> & He & HP); [by left|right].
    inversion He as [| | |? Hf]; subst. inversion Hf; subst.
    simpl. split; [done|]. exists w, v'. repeat split; [by constructor|done].
  - intros [HP|HP].
    + exists [], v. repeat split; [by constructor|done].
    + destruct v as [|h v]; [done|]. destruct HP as (Hh & w & v' & -> & He & HP).
      inversion He; subst. exists (h :: w), v'. repeat split; [|done].
      constructor. by constructor.
Qed.

Lemma Alive_false row hay P : existsb id row = false -> ~ Alive row hay P.
Proof.
  revert hay; induction row as [|b row IH]; intros hay; simpl; [tauto|].
  intros H. apply orb_false_iff in H as [Hb Hr]. unfold id in Hb. subst b.
  intros [[? _]|H']; [done|]. destruct hay; [done|]. by apply (IH hay).
Qed.

Lemma Alive_star run prev hay P :
  length prev = S (length hay) ->
  Alive (rowStar run prev) hay P <->
  (run = true /\ after TStar P hay) \/ Alive prev hay (after TStar P).
Proof.
  revert run hay; induction prev as [|p prev IH]; intros run hay Hl; [done|].
  simpl. rewrite (after_star P hay). destruct hay as [|h hay].
  - destruct run, p; simpl; intuition congruence.
  - rewrite (IH (run || p) hay) by (simpl in *; lia).
    rewrite orb_true_iff. intuition.
Qed.

Lemma Alive_within run prev hay0 h P :
  length prev = S (length hay0) ->
  Alive (rowWithin syntax run prev (h :: hay0)) hay0 P <->
  (run = true /\ isBoundary syntax h = false /\ after TStarWithin P hay0)
  \/ Alive prev hay0 (after TStarWithin P).
Proof.
  revert run hay0 h; induction prev as [|p prev IH]; intros run hay0 h Hl; [done|].
  simpl. rewrite (after_within P hay0). destruct hay0 as [|h' hay].
  - destruct (isBoundary syntax h), run, p; simpl; intuition congruence.
  - rewrite (IH _ hay h') by (simpl in *; lia).
    destruct (isBoundary syntax h), run, p; simpl; intuition congruence.
Qed.

Lemma Alive_shift (f : bool -> Z -> bool) (Q P : jsstr -> Prop) prev hay :
  length prev = S (length hay) ->
  (forall h v, Q (h :: v) <-> f true h = true /\ P v) -> ~ Q [] ->
  (forall h, f false h = false) ->
  Alive (false :: zip_with f prev hay) hay P <-> Alive prev hay Q.
Proof.
  intros Hl HQ HQ0 Hf. revert prev Hl.
  induction hay as [|h hay IH]; intros [|p prev] Hl; simpl in *; try lia.
  - intuition congruence.
  - specialize (IH prev ltac:(lia)). simpl in IH.
    rewrite <- IH. destruct hay as [|h' hay]; destruct p; rewrite ?Hf, ?HQ; simpl in *;
      intuition congruence.
Qed.

Lemma Alive_step tok prev hay P :
  length prev = S (length hay) ->
  Alive (stepRow syntax hay tok prev) hay P <-> Alive prev hay (after tok P).
Proof.
  intros Hl. destruct tok as [ch| | |].
  - apply Alive_shift; try done.
    + intros h v. by rewrite after_literal.
    + by intros H%after_literal.
  - simpl. rewrite Alive_star by done. intuition congruence.
  - simpl. destruct prev as [|p0 prev]; [done|]. simpl.
    rewrite (after_within P hay). destruct hay as [|h hay].
    + simpl in *. intuition.
    + rewrite Alive_within by (simpl in *; lia). intuition.
  - simpl.
    replace (take (length hay) prev) with (zip_with (fun (p : bool) (_ : Z) => p) prev hay).
    + apply (Alive_shift (fun (p : bool) (_ : Z) => p)); try done.
      * intros h v. rewrite after_single. intuition.
      * by intros H%after_single.
    + assert (Hle : (length hay <= length prev)%nat) by lia. clear Hl. revert prev Hle.
      induction hay as [|h hay IH]; intros [|p prev] Hle; simpl in *; try done; try lia.
      f_equal. apply IH. lia.
Qed.

Lemma stepRow_length tok prev hay :
  length prev = S (length hay) -> length (stepRow syntax hay tok prev) = S (length hay).
Proof.
  intros Hl. destruct tok as [ch| | |]; simpl.
  - rewrite length_zip_with. lia.
  - clear - Hl. rewrite <- Hl. generalize false. clear Hl.
    induction prev as [|p prev IH]; intros run; simpl; [done|]. by rewrite IH.
  - destruct prev as [|p0 prev]; [done|]. simpl. f_equal. simpl in Hl.
    injection Hl as Hl. generalize p0. clear p0. revert prev Hl.
    induction hay as [|h hay IH]; intros [|p prev] Hl run; simpl in *; try done.
    rewrite IH; lia.
  - rewrite length_take. lia.
Qed.

Lemma Alive_end prev hay :
  length prev = S (length hay) ->
  (match prev !! length hay with Some b => b | None => false end) = true <->
  Alive prev hay (fun v => v = []).
Proof.
  revert hay; induction prev as [|p prev IH]; intros [|h hay] Hl; simpl in *; try lia.
  - destruct p; intuition congruence.
  - rewrite IH by lia. intuition congruence.
Qed.

Lemma Alive_iff row hay (P Q : jsstr -> Prop) :
  (forall v, P v <-> Q v) -> Alive row hay P <-> Alive row hay Q.
Proof.
  intros HPQ. revert hay. induction row as [|b row IH]; intros hay; simpl; [done|].
  rewrite HPQ. destruct hay; [done|]. by rewrite IH.
Qed.

Lemma runRows_spec tokens hay prev :
  length prev = S (length hay) ->
  runRows syntax hay tokens prev = true <-> Alive prev hay (Toks syntax tokens).
Proof.
  revert prev; induction tokens as [|tok tokens IH]; intros prev Hl; simpl.
  - rewrite Alive_end by done. apply Alive_iff. intros v. by rewrite toks_nil_iff.
  - rewrite (Alive_iff prev hay (Toks syntax (tok :: tokens)) (after tok (Toks syntax tokens)))
      by apply toks_cons_iff.
    rewrite <- Alive_step by done.
    destruct (existsb id (stepRow syntax hay tok prev)) eqn:E.
    + apply IH. by apply stepRow_length.
    + split; [done|]. intros H. by apply Alive_false in H.
Qed.

Lemma Alive_start hay P : Alive (true :: replicate (length hay) false) hay P <-> P hay.
Proof.
  simpl. split; [|by left]. intros [[_ H]|H]; [done|].
  destruct hay as [|h hay]; [done|]. exfalso. revert H. apply Alive_false.
  clear. simpl. induction hay; simpl; auto.
Qed.

Lemma matchTokens_spec tokens value :
  matchTokens tokens value syntax = true <-> Toks syntax tokens (hayOf syntax value).
Proof.
  unfold matchTokens. rewrite <- (hayOf_length syntax value).
  rewrite runRows_spec.
  - apply Alive_start.
  - simpl. by rewrite length_replicate.
Qed.
End Forward.

(** ** The backward table and the captures *)

Section Backward.
Context (syntax : GlobSyntax).

(** Cell [j] of [row] says whether the suffix of [hay] from [j] on satisfies [P]. *)
Fixpoint Aligned (row : list bool) (hay : jsstr) (P : jsstr -> Prop) : Prop :=
  match row with
  | [] => False
  | b :: row' =>
      (b = true <-> P hay) /\
      match hay with [] => row' = [] | _ :: hay' => Aligned row' hay' P end
  end.

Lemma Aligned_cell row hay P j :
  Aligned row hay P -> (j <= length hay)%nat -> cell row j = true <-> P (drop j hay).
Proof.
  revert row j; induction hay as [|h hay IH]; intros [|b row] j Ha Hj; simpl in *; try done;
    destruct Ha as [Hb Ha].
  - assert (j = O) by lia. by subst.
  - destruct j as [|j]; [done|]. apply (IH row j); [done|lia].
Qed.

Lemma Aligned_head row hay P :
  Aligned row hay P -> (match row with r :: _ => r | [] => false end) = true <-> P hay.
Proof. destruct row; simpl; [done|tauto]. Qed.

Lemma Aligned_tail_star row hay P :
  Aligned row hay P -> (existsb id row = true <-> after syntax TStar P hay).
Proof.
  revert hay; induction row as [|b row IH]; intros hay Ha; [done|].
  rewrite after_star. simpl. rewrite orb_true_iff. unfold id at 1.
  destruct Ha as [Hb Ha]. rewrite Hb. destruct hay as [|h hay].
  - subst row. simpl. intuition congruence.
  - by rewrite (IH hay).
Qed.

Lemma Aligned_star next hay P :
  Aligned next hay P -> Aligned (backStar next) hay (after syntax TStar P).
Proof.
  revert hay; induction next as [|n next IH]; intros hay Ha; [done|]. split.
  - exact (Aligned_tail_star (n :: next) hay P Ha).
  - destruct Ha as [_ Ha]. destruct hay; [by subst next|by apply IH].
Qed.

Lemma Aligned_within next hay P :
  Aligned next hay P -> Aligned (backWithin syntax next hay) hay (after syntax TStarWithin P).
Proof.
  revert next; induction hay as [|h hay IH]; intros [|n next] Ha; simpl in *; try done;
    destruct Ha as [Hn Ha]; rewrite after_within.
  - subst next. rewrite Hn. intuition.
  - specialize (IH _ Ha). split; [|done].
    pose proof (Aligned_head _ _ _ IH) as Hh.
    destruct (isBoundary syntax h).
    + rewrite Hn. intuition congruence.
    + rewrite orb_true_iff, Hn, Hh. intuition.
Qed.

Lemma Aligned_shift (f : Z -> bool -> bool) (Q P : jsstr -> Prop) next hay :
  Aligned next hay P ->
  (forall h b v, (b = true <-> P v) -> (f h b = true <-> Q (h :: v))) -> ~ Q [] ->
  Aligned (zip_with f hay (tail next) ++ [false]) hay Q.
Proof.
  intros Ha Hf HQ. revert next Ha.
  induction hay as [|h hay IH]; intros [|n next] Ha; simpl in *; try done;
    destruct Ha as [_ Ha].
  destruct next as [|n' next]; [done|]. simpl.
  split; [|by apply (IH (n' :: next))].
  apply Hf. exact (Aligned_head _ _ _ Ha).
Qed.

Lemma zip_second (hay : jsstr) (next : list bool) :
  length next = length hay -> zip_with (fun (_ : Z) (b : bool) => b) hay next = next.
Proof.
  revert next; induction hay as [|h hay IH]; intros [|n next] Hl; simpl in *; try done.
  f_equal. apply IH. lia.
Qed.

Lemma Aligned_length row hay P : Aligned row hay P -> length row = S (length hay).
Proof.
  revert hay; induction row as [|b row IH]; intros hay Ha; [done|].
  destruct Ha as [_ Ha]. destruct hay; simpl; [by subst|]. by rewrite (IH hay).
Qed.

Lemma Aligned_back tok next hay P :
  Aligned next hay P -> Aligned (backRow syntax hay tok next) hay (after syntax tok P).
Proof.
  intros Ha. destruct tok as [ch| | |]; simpl.
  - apply (Aligned_shift (fun h n => litEq syntax ch h && n) _ P); [done| |by intros H%after_literal].
    intros h b v Hb. rewrite after_literal, andb_true_iff, Hb. done.
  - by apply Aligned_star.
  - by apply Aligned_within.
  - rewrite <- (zip_second hay (tail next)).
    + apply (Aligned_shift (fun (_ : Z) (b : bool) => b) _ P); [done| |by intros H%after_single].
      intros h b v Hb. rewrite after_single. done.
    + apply Aligned_length in Ha. destruct next; simpl in *; lia.
Qed.

Lemma Aligned_iff row hay (P Q : jsstr -> Prop) :
  (forall v, P v <-> Q v) -> Aligned row hay P -> Aligned row hay Q.
Proof.
  intros HPQ. revert hay. induction row as [|b row IH]; intros hay H; simpl in *; [done|].
  destruct H as [Hb H]. split; [by rewrite Hb|]. destruct hay; auto.
Qed.

Lemma canFinish_spec hay tokens :
  exists row, canFinish syntax hay tokens
                = row :: tail (canFinish syntax hay tokens)
    /\ Aligned row hay (Toks syntax tokens)
    /\ match tokens with
       | [] => True
       | _ :: tokens' => tail (canFinish syntax hay tokens) = canFinish syntax hay tokens'
       end.
Proof.
  induction tokens as [|tok tokens (row & Hr & Ha & _)]; simpl.
  - eexists. repeat split. clear. induction hay as [|h hay IH]; simpl.
    + rewrite toks_nil_iff. intuition.
    + split; [|done]. rewrite toks_nil_iff. intuition congruence.
  - rewrite Hr. eexists. repeat split. simpl.
    apply (Aligned_iff _ _ (after syntax tok (Toks syntax tokens))).
    + intros v. by rewrite toks_cons_iff.
    + by apply Aligned_back.
Qed.

Definition is_wild (tok : Token) : Prop := tok = TStar \/ tok = TStarWithin.
Definition is_within (tok : Token) : bool := match tok with TStarWithin => true | _ => false end.

(** The captures read the value off the tokens: literals stand for themselves
    and each wildcard for its capture, which is the longest one from which the
    remaining tokens can still finish. *)
Inductive Captured : list Token -> list jsstr -> jsstr -> jsstr -> Prop :=
| captured_nil : Captured [] [] [] []
| captured_literal ch toks caps x v h hay :
    litEq syntax ch h = true -> Captured toks caps v hay ->
    Captured (TLiteral ch :: toks) caps (x :: v) (h :: hay)
| captured_single toks caps x v h hay :
    Captured toks caps v hay -> Captured (TSingle :: toks) ([x] :: caps) (x :: v) (h :: hay)
| captured_wild tok toks caps w v wh hay :
    is_wild tok -> length w = length wh -> Eats syntax tok wh ->
    (forall wh' hay', wh' ++ hay' = wh ++ hay -> (length wh < length wh')%nat ->
       Eats syntax tok wh' -> ~ Toks syntax toks hay') ->
    Captured toks caps v hay ->
    Captured (tok :: toks) (w :: caps) (w ++ v) (wh ++ hay).

Lemma wild_eats tok w :
  is_wild tok ->
  negb (is_within tok && existsb (isBoundary syntax) w) = true <-> Eats syntax tok w.
Proof.
  assert (Hf : existsb (isBoundary syntax) w = false <->
               Forall (fun h => isBoundary syntax h = false) w).
  { induction w as [|h w IH]; simpl; [by split|].
    rewrite orb_false_iff, IH, Forall_cons. done. }
  intros [-> | ->]; simpl.
  - split; [constructor|done].
  - rewrite negb_true_iff, Hf. split; [by constructor|by inversion 1].
Qed.

(** [k] is an admissible end for the wildcard that starts at [j]. *)
Definition ends_at tok hay (P : jsstr -> Prop) (j k : nat) : Prop :=
  P (drop (j + k) hay) /\ Eats syntax tok (take k (drop j hay)).

Lemma greedyEnd_spec tok hay next P j d :
  is_wild tok -> Aligned next hay P -> (j + d <= length hay)%nat ->
  (exists k, (k <= d)%nat /\ ends_at tok hay P j k) ->
  exists e, greedyEnd syntax hay (is_within tok) next j d = (j + e)%nat
    /\ (e <= d)%nat /\ ends_at tok hay P j e
    /\ forall k, (e < k <= d)%nat -> ~ ends_at tok hay P j k.
Proof.
  intros Htok Ha.
  assert (Htest : forall k, (j + k <= length hay)%nat ->
    cell next (j + k) && negb (is_within tok && existsb (isBoundary syntax) (take k (drop j hay)))
    = true <-> ends_at tok hay P j k).
  { intros k Hk. rewrite andb_true_iff, (wild_eats tok), (Aligned_cell next hay P) by done. done. }
  induction d as [|d IH]; intros Hd (k & Hk & He); cbn [greedyEnd].
  - assert (k = O) by lia. subst k. exists O.
    rewrite (proj2 (Htest O Hd)) by done. repeat split; try apply He; lia.
  - destruct (cell next (j + S d) && negb _) eqn:E.
    + apply Htest in E; [|done]. exists (S d). repeat split; try apply E; lia.
    + rewrite <- not_true_iff_false, (Htest (S d) Hd) in E.
      destruct (decide (k = S d)) as [->|Hne]; [tauto|].
      destruct IH as (e & -> & Hed & Hee & Hmax); [lia|exists k; split; [lia|done]|].
      exists e. repeat split; try apply Hee; [lia|].
      intros k' Hk'. destruct (decide (k' = S d)) as [->|]; [done|]. apply Hmax. lia.
Qed.

Lemma ends_at_split tok hay P j w v :
  drop j hay = w ++ v -> Eats syntax tok w -> P v ->
  (length w <= length hay - j)%nat /\ ends_at tok hay P j (length w).
Proof.
  intros Hd He HP. split.
  - apply (f_equal length) in Hd. rewrite length_drop, length_app in Hd. lia.
  - unfold ends_at. rewrite <- drop_drop, Hd, drop_app_length, take_app_length. done.
Qed.

(** A wildcard's step of the walk. *)
Lemma captured_greedy tok toks caps value hay next j :
  is_wild tok -> length value = length hay -> (j <= length hay)%nat ->
  Aligned next hay (Toks syntax toks) -> Toks syntax (tok :: toks) (drop j hay) ->
  let e := greedyEnd syntax hay (is_within tok) next j (length value - j) in
  (j <= e <= length hay)%nat /\ Toks syntax toks (drop e hay) /\
  (Captured toks caps (drop e value) (drop e hay) ->
   Captured (tok :: toks) (take (e - j) (drop j value) :: caps) (drop j value) (drop j hay)).
Proof.
  intros Htok Hlen Hj Ha (w & v & Hd & He & HT)%toks_cons_iff.
  destruct (greedyEnd_spec tok hay next (Toks syntax toks) j (length value - j) Htok Ha)
    as (e & Heq & Hed & [HPe Hee] & Hmax); [lia| |].
  { exists (length w). rewrite Hlen. by apply (ends_at_split _ _ _ _ _ v). }
  cbv zeta. rewrite Heq. replace (j + e - j)%nat with e by lia. split; [lia|]. split; [done|].
  intros HC.
  assert (Hcut : forall l : jsstr, drop j l = take e (drop j l) ++ drop (j + e) l)
    by (intros l; by rewrite <- drop_drop, take_drop).
  rewrite (Hcut hay). rewrite (Hcut value) at 2.
  constructor; [done| |done| |done].
  - rewrite !length_take, !length_drop. lia.
  - intros wh' hay' Happ Hl He' HT'. rewrite <- Hcut in Happ.
    rewrite length_take, length_drop in Hl.
    destruct (ends_at_split tok hay (Toks syntax toks) j wh' hay') as [Hle Hend]; [done..|].
    apply (Hmax (length wh')); [lia|done].
Qed.

Lemma drop_uncons (l : jsstr) j : (j < length l)%nat -> exists x, drop j l = x :: drop (S j) l.
Proof.
  intros Hj. destruct (lookup_lt_is_Some_2 l j Hj) as [x Hx]. exists x. by apply drop_S.
Qed.

(** A literal's or a [?]'s step of the walk. *)
Lemma captured_one tok toks (value hay : jsstr) j :
  tok = TSingle \/ (exists ch, tok = TLiteral ch) -> length value = length hay ->
  Toks syntax (tok :: toks) (drop j hay) ->
  exists x h, drop j value = x :: drop (S j) value /\ drop j hay = h :: drop (S j) hay
    /\ (S j <= length hay)%nat /\ Eats syntax tok [h] /\ Toks syntax toks (drop (S j) hay).
Proof.
  intros Htok Hlen (w & v & Hd & He & HT)%toks_cons_iff.
  assert (Hw : exists h, w = [h]) by (destruct Htok as [->|[ch ->]]; inversion He; eauto).
  destruct Hw as [h ->].
  assert (Hj : (j < length hay)%nat).
  { apply (f_equal length) in Hd. rewrite length_drop in Hd. simpl in Hd. lia. }
  destruct (drop_uncons value j) as [x Hx]; [lia|]. destruct (drop_uncons hay j) as [h' Hh]; [lia|].
  rewrite Hh in Hd. injection Hd as -> <-. exists x, h. repeat split; auto.
Qed.

Lemma captureWalk_spec tokens value hay j :
  length value = length hay -> (j <= length hay)%nat ->
  Toks syntax tokens (drop j hay) ->
  Captured tokens
    (captureWalk syntax value hay tokens (tail (canFinish syntax hay tokens)) j)
    (drop j value) (drop j hay).
Proof.
  intros Hlen. revert j. induction tokens as [|tok tokens IH]; intros j Hj HT.
  { apply toks_nil_iff in HT. rewrite HT, drop_ge; [constructor|].
    apply (f_equal length) in HT. rewrite length_drop in HT. simpl in HT. lia. }
  destruct (canFinish_spec hay (tok :: tokens)) as (row0 & _ & _ & Htl). rewrite Htl.
  destruct (canFinish_spec hay tokens) as (row & Hrow & Ha & _).
  assert (Hhd : match canFinish syntax hay tokens with r :: _ => r | [] => [] end = row)
    by (by rewrite Hrow).
  destruct tok as [ch| | |].
  - destruct (captured_one (TLiteral ch) tokens value hay j) as (x & h & Hx & Hh & Hj' & He & HT');
      [eauto|done..|].
    cbn [captureWalk]. rewrite Hx, Hh. inversion He; subst. constructor; auto.
  - destruct (captured_greedy TStar tokens
      (captureWalk syntax value hay tokens (tail (canFinish syntax hay tokens))
         (greedyEnd syntax hay false row j (length value - j)))
      value hay row j) as (He & HT' & HC); [by left|done..|].
    cbn [captureWalk]. rewrite Hhd. exact (HC (IH _ (proj2 He) HT')).
  - destruct (captured_greedy TStarWithin tokens
      (captureWalk syntax value hay tokens (tail (canFinish syntax hay tokens))
         (greedyEnd syntax hay true row j (length value - j)))
      value hay row j) as (He & HT' & HC); [by right|done..|].
    cbn [captureWalk]. rewrite Hhd. exact (HC (IH _ (proj2 He) HT')).
  - destruct (captured_one TSingle tokens value hay j) as (x & h & Hx & Hh & Hj' & He & HT');
      [eauto|done..|].
    cbn [captureWalk]. rewrite Hx, Hh. constructor. auto.
Qed.
End Backward.

(** The two readings of a pattern give the same answer. *)
Lemma globCaptures_matched pattern value syntax :
  matched (globCaptures pattern value syntax) = globMatch pattern value syntax.
Proof.
  unfold globCaptures, globMatch. destruct (_ <? _); [done|].
  destruct (canFinish_spec syntax (hayOf syntax value) (tokenize pattern syntax)) as (row & -> & Ha & _). simpl.
  pose proof (Aligned_cell row _ _ 0 Ha ltac:(lia)) as Hc. rewrite drop_0 in Hc.
  pose proof (matchTokens_spec syntax (tokenize pattern syntax) value) as Hm.
  apply eq_true_iff_eq. destruct (cell row 0); simpl; tauto.
Qed.

Lemma globMatch_meaning pattern value syntax :
  globMatch pattern value syntax = true <-> Pat syntax pattern (hayOf syntax value).
Proof. unfold globMatch. rewrite matchTokens_spec. apply tokenize_meaning. Qed.

(** ** Properties *)

(** C10: the dynamic-programming matcher decides the meaning of the pattern: it
    answers [true] exactly when the value (case-folded when the syntax says so)
    can be cut into pieces that the pattern's characters describe.  In
    particular the collapsing of repeated stars, the row recycling and the early
    exit on a dead row never change the answer. *)
Theorem globMatch_correct pattern value syntax :
  globMatch pattern value syntax = true <-> Pat syntax pattern (hayOf syntax value).
Proof. apply globMatch_meaning. Qed.

(** [globCaptures] agrees with [globMatch] on every input (also beyond the
    cell limit, where it drops the captures), and below the limit the captures of
    a match are the wildcards' pieces in order: putting them back for the
    wildcards rebuilds the value, [%] captures cross no boundary, and each
    wildcard took the longest piece from which the rest can still match. *)
Theorem globCaptures_correct pattern value syntax :
  matched (globCaptures pattern value syntax) = globMatch pattern value syntax /\
  (globMatch pattern value syntax = true ->
   (len (tokenize pattern syntax) + 1) * (len value + 1) <= MAX_CAPTURE_CELLS ->
   Captured syntax (tokenize pattern syntax) (captures (globCaptures pattern value syntax))
     value (hayOf syntax value)).
Proof.
  split; [apply globCaptures_matched|]. intros Hg Hsmall. apply matchTokens_spec in Hg.
  unfold globCaptures. rewrite (proj2 (Z.ltb_ge _ _)) by exact Hsmall.
  destruct (canFinish_spec syntax (hayOf syntax value) (tokenize pattern syntax)) as (row & Hrow & Ha & _).
  pose proof (proj2 (Aligned_cell row _ _ 0 Ha ltac:(lia)) ltac:(by rewrite drop_0)) as Hc.
  rewrite Hrow. cbn [tail]. rewrite Hc.
  rewrite <- (drop_0 value), <- (drop_0 (hayOf syntax value)) at 2.
  apply captureWalk_spec; [by rewrite hayOf_length|lia|by rewrite drop_0].
Qed.

Lemma globCaptures_correct_witness :
  captures (globCaptures (js "*a%b") (js "xa/aab") (imapListSyntax 47)) = [js "xa/a"; js ""]
  /\ Captured (imapListSyntax 47) (tokenize (js "*a%b") (imapListSyntax 47))
       (captures (globCaptures (js "*a%b") (js "xa/aab") (imapListSyntax 47)))
       (js "xa/aab") (hayOf (imapListSyntax 47) (js "xa/aab")).
Proof.
  split; [vm_compute; reflexivity|].
  apply (proj2 (globCaptures_correct (js "*a%b") (js "xa/aab") (imapListSyntax 47))).
  - vm_compute. reflexivity.
  - vm_compute. discriminate.
Defined.

(** With a case-insensitive syntax the matcher lower-cases the whole value
    before it indexes it by the value's own length, so a letter whose lower case
    is longer (U+0130) shifts the rest of the value out of reach: the pattern
    [*x] does not match the two-letter value U+0130 [x], and the one-letter
    pattern U+0130 does not match itself, although both match under the
    case-sensitive reading. *)
Theorem globMatch_lowercase_length :
  globMatch (js "*x") [304; 120] SIEVE_MATCH_SYNTAX = false /\
  globMatch [304] [304] SIEVE_MATCH_SYNTAX = false /\
  globMatch (js "*x") [304; 120]
    {| star := 42; starWithin := None; boundary := None; single := Some 63;
       escape := Some 92; caseInsensitive := false |} = true.
Proof. vm_compute. done. Qed.
