(* ===== verification/SequenceSet.v ===== *)
(** * IMAP sequence sets (packages/proto-imap/src/sequence-set.ts)

    Parsing, matching, printing and normalising the [seq-number] ranges of RFC
    9051.  The theorems: printing a UID set and parsing it back denotes the same
    set, and normalisation keeps the denoted set while producing disjoint,
    non-adjacent, increasing intervals. *)

From S2P Require Import Prelude JsString.

(** ** Data *)

(** [number | "*"] *)
Inductive SeqNumber :=
| SNum (n : Z)
| SStar.

Record SeqRange := mkRange { from : SeqNumber; to : SeqNumber }.

Definition MAX_SAFE_INTEGER : Z := 9007199254740991.

(** ** Operations *)

(** [/^[1-9]\d*$/.test(s)] *)
Definition isNzNumber (s : jsstr) : bool :=
  match s with
  | [] => false
  | c :: r => ((49 <=? c) && (c <=? 57)) && forallb isDigit r
  end.

(** The value of a digit string is exact as a double up to [MAX_SAFE_INTEGER];
    beyond, [Number(s)] rounds to some double that is not a safe integer. *)
Definition parseSeqNumber (s : jsstr) : option SeqNumber :=
  if s === js "*" then Some SStar
  else if negb (isNzNumber s) then None
  else if digitsVal s <=? MAX_SAFE_INTEGER then Some (SNum (digitsVal s)) else None.

Definition parsePart (part : jsstr) : option SeqRange :=
  match indexOf 58 part with
  | None => n ← parseSeqNumber part; Some (mkRange n n)
  | Some colon =>
      f ← parseSeqNumber (take colon part);
      t ← parseSeqNumber (drop (S colon) part);
      Some (mkRange f t)
  end.

(** The loop over the comma-separated parts, stopping at the first bad one. *)
Definition parseSequenceSet (input : jsstr) : option (list SeqRange) :=
  if len input =? 0 then None else mapM parsePart (splitOn 44 input).

Definition resolve (v : SeqNumber) (max : Z) : Z :=
  match v with SStar => max | SNum n => n end.

(** The two ends of a range with [lo > hi] swapped. *)
Definition bounds (r : SeqRange) (max : Z) : Z * Z :=
  let lo := resolve (from r) max in
  let hi := resolve (to r) max in
  if hi <? lo then (hi, lo) else (lo, hi).

Definition matchSequenceSet (ranges : list SeqRange) (value max : Z) : bool :=
  existsb (fun r => let '(lo, hi) := bounds r max in (lo <=? value) && (value <=? hi)) ranges.

(** [[...new Set(uids)].sort((a, b) => a - b)] *)
Definition sortedUnique (uids : list Z) : list Z := sortBy id (rev (remove_dups (rev uids))).

(** The loop of [formatUidSet]: [lo] is [sorted[i]] and [hi] is [sorted[j]]. *)
Fixpoint uidRuns (lo hi : Z) (rest : list Z) : list (Z * Z) :=
  match rest with
  | [] => [(lo, hi)]
  | x :: rest' => if x =? hi + 1 then uidRuns lo x rest' else (lo, hi) :: uidRuns x x rest'
  end.

Definition formatRun (r : Z * Z) : jsstr :=
  if fst r =? snd r then numToString (fst r)
  else numToString (fst r) ++ [58] ++ numToString (snd r).

Definition formatUidSet (uids : list Z) : jsstr :=
  match sortedUnique uids with
  | [] => []
  | x :: rest => joinWith [44] (formatRun <$> uidRuns x x rest)
  end.

Definition hasStar (r : SeqRange) : bool :=
  match from r, to r with SStar, _ | _, SStar => true | _, _ => false end.

(** The first loop of [normalizeRanges]. *)
Definition resolveRanges (ranges : list SeqRange) (max : Z) : list (Z * Z) :=
  omap (fun r =>
    let '(lo, hi) := bounds r max in
    if (hi <? 1) || ((max <? 1) && hasStar r) then None
    else Some (Z.max 1 lo, hi)) ranges.

(** The second loop: [last] is the last element of [merged]. *)
Fixpoint mergeFrom (last : Z * Z) (l : list (Z * Z)) : list (Z * Z) :=
  match l with
  | [] => [last]
  | (lo, hi) :: l' =>
      if lo <=? snd last + 1 then mergeFrom (fst last, Z.max (snd last) hi) l'
      else last :: mergeFrom (lo, hi) l'
  end.

Definition normalizeRanges (ranges : list SeqRange) (max : Z) : list (Z * Z) :=
  match sortBy fst (resolveRanges ranges max) with
  | [] => []
  | r :: l => mergeFrom r l
  end.

(** ** Denotation *)

(** [v] lies in one of the closed intervals. *)
Definition covers (l : list (Z * Z)) (v : Z) : Prop :=
  exists r, r ∈ l /\ fst r <= v <= snd r.

Lemma covers_nil v : ~ covers [] v.
Proof. intros (r & Hr & _). set_solver. Qed.

Lemma covers_cons r l v : covers (r :: l) v <-> (fst r <= v <= snd r) \/ covers l v.
Proof.
  unfold covers. split.
  - intros (r' & [->|Hr]%elem_of_cons & Hv); eauto.
  - intros [H|(r' & Hr & Hv)]; [exists r|exists r']; rewrite elem_of_cons; eauto.
Qed.

Lemma covers_perm l k v : l ≡ₚ k -> covers l v <-> covers k v.
Proof. intros H. unfold covers. by setoid_rewrite H. Qed.

(** Increasing intervals that neither overlap nor touch. *)
Inductive Separated : list (Z * Z) -> Prop :=
| sep_nil : Separated []
| sep_one r : fst r <= snd r -> Separated [r]
| sep_cons r r' l :
    fst r <= snd r -> snd r + 1 < fst r' -> Separated (r' :: l) -> Separated (r :: r' :: l).

(** ** Matching and normalisation *)

Lemma matchSequenceSet_covers ranges v max :
  matchSequenceSet ranges v max = true <-> covers ((fun r => bounds r max) <$> ranges) v.
Proof.
  induction ranges as [|r ranges IH]; simpl.
  - split; [discriminate|]. intros H. exfalso. exact (covers_nil v H).
  - rewrite covers_cons, orb_true_iff, IH.
    destruct (bounds r max) as [lo hi]. simpl. rewrite andb_true_iff, !Z.leb_le. done.
Qed.

Lemma bounds_le r max : fst (bounds r max) <= snd (bounds r max).
Proof. unfold bounds. destruct (Z.ltb_spec (resolve (to r) max) (resolve (from r) max)); simpl; lia. Qed.

Lemma resolveRanges_cons r ranges max :
  resolveRanges (r :: ranges) max =
  let '(lo, hi) := bounds r max in
  if (hi <? 1) || ((max <? 1) && hasStar r) then resolveRanges ranges max
  else (Z.max 1 lo, hi) :: resolveRanges ranges max.
Proof.
  unfold resolveRanges at 1. simpl. destruct (bounds r max) as [lo hi].
  by destruct ((hi <? 1) || _).
Qed.

Lemma resolveRanges_covers ranges max v :
  1 <= max -> 1 <= v ->
  covers (resolveRanges ranges max) v <-> covers ((fun r => bounds r max) <$> ranges) v.
Proof.
  intros Hmax Hv. induction ranges as [|r ranges IH]; [done|].
  rewrite resolveRanges_cons, fmap_cons, covers_cons, <- IH.
  destruct (bounds r max) as [lo hi]. rewrite (proj2 (Z.ltb_ge max 1)) by lia.
  rewrite andb_false_l, orb_false_r. simpl. destruct (Z.ltb_spec hi 1).
  - split; [by right|]. intros [?|?]; [lia|done].
  - rewrite covers_cons. simpl. split; (intros [?|?]; [left; lia|by right]).
Qed.

Lemma resolveRanges_bounds ranges max :
  Forall (fun r => 1 <= fst r <= snd r) (resolveRanges ranges max).
Proof.
  induction ranges as [|r ranges IH]; [constructor|].
  rewrite resolveRanges_cons. pose proof (bounds_le r max) as Hb.
  destruct (bounds r max) as [lo hi]. simpl in Hb.
  destruct (Z.ltb_spec hi 1); simpl; [done|].
  destruct ((max <? 1) && hasStar r); [done|]. constructor; [simpl; lia|done].
Qed.

Lemma mergeFrom_covers last l v :
  Forall (fun r => fst r <= snd r) (last :: l) -> StronglySorted (key_le fst) (last :: l) ->
  covers (mergeFrom last l) v <-> covers (last :: l) v.
Proof.
  revert last; induction l as [|[lo hi] l IH]; intros last Hle Hs; simpl; [done|].
  apply Forall_cons in Hle as [Hlast [Hlh Hl]%Forall_cons].
  apply StronglySorted_inv in Hs as [Hs [Hlo Hf]%Forall_cons].
  pose proof Hs as [Hs' _]%StronglySorted_inv. unfold key_le in Hlo. simpl in *.
  destruct (Z.leb_spec lo (snd last + 1)).
  - rewrite IH; simpl.
    + rewrite !covers_cons. simpl. split.
      * intros [H'|H']; [|by right; right].
        destruct (decide (v <= snd last)); [left; lia|right; left; lia].
      * intros [H'|[H'|H']]; [left; lia|left; lia|by right].
    + constructor; [simpl; lia|done].
    + constructor; done.
  - rewrite !covers_cons, IH, covers_cons by (done || by constructor). done.
Qed.

Lemma mergeFrom_head last l :
  exists hi l', mergeFrom last l = (fst last, hi) :: l' /\ snd last <= hi.
Proof.
  revert last; induction l as [|[lo hi] l IH]; intros last; simpl.
  - exists (snd last), []. split; [by destruct last|lia].
  - destruct (lo <=? snd last + 1).
    + destruct (IH (fst last, Z.max (snd last) hi)) as (hi' & l' & -> & Hle).
      simpl in *. exists hi', l'. split; [done|lia].
    + exists (snd last), (mergeFrom (lo, hi) l). split; [by destruct last|lia].
Qed.

Lemma mergeFrom_separated last l :
  Forall (fun r => fst r <= snd r) (last :: l) -> StronglySorted (key_le fst) (last :: l) ->
  Separated (mergeFrom last l).
Proof.
  revert last; induction l as [|[lo hi] l IH]; intros last Hle Hs; simpl.
  { constructor. by inversion Hle. }
  apply Forall_cons in Hle as [Hlast [Hlh Hl]%Forall_cons].
  apply StronglySorted_inv in Hs as [Hs [Hlo Hf]%Forall_cons].
  pose proof Hs as [Hs' _]%StronglySorted_inv. unfold key_le in Hlo. simpl in *.
  destruct (Z.leb_spec lo (snd last + 1)).
  - apply IH; constructor; simpl; try done; lia.
  - destruct (mergeFrom_head (lo, hi) l) as (hi' & l' & Heq & _).
    assert (HS : Separated (mergeFrom (lo, hi) l)) by (apply IH; [by constructor|done]).
    rewrite Heq in *. constructor; [done|simpl; lia|done].
Qed.

(** The sorted input of the merge satisfies its preconditions. *)
Lemma sorted_resolved ranges max :
  StronglySorted (key_le fst) (sortBy fst (resolveRanges ranges max)) /\
  Forall (fun r => fst r <= snd r) (sortBy fst (resolveRanges ranges max)).
Proof.
  split; [apply sortBy_sorted|]. rewrite sortBy_perm.
  eapply Forall_impl; [apply resolveRanges_bounds|]. simpl. lia.
Qed.

(** In a mailbox with at least one message, the normalised intervals cover
    exactly the positive numbers that the sequence set matches, and they come out
    in increasing order with a gap between any two. *)
Theorem normalizeRanges_correct ranges max :
  1 <= max ->
  Separated (normalizeRanges ranges max) /\
  forall v, 1 <= v ->
    covers (normalizeRanges ranges max) v <-> matchSequenceSet ranges v max = true.
Proof.
  intros Hmax. destruct (sorted_resolved ranges max) as [Hs Hf].
  unfold normalizeRanges.
  pose proof (fun v => covers_perm _ _ v (sortBy_perm fst (resolveRanges ranges max))) as Hperm.
  destruct (sortBy fst (resolveRanges ranges max)) as [|r l].
  - split; [constructor|]. intros v Hv.
    by rewrite matchSequenceSet_covers, <- resolveRanges_covers, <- Hperm by done.
  - split; [by apply mergeFrom_separated|]. intros v Hv.
    by rewrite mergeFrom_covers, matchSequenceSet_covers, <- resolveRanges_covers, <- Hperm by done.
Qed.

Lemma normalizeRanges_correct_witness :
  normalizeRanges [mkRange (SNum 12) (SNum 5); mkRange (SNum 13) SStar; mkRange (SNum 2) (SNum 2)] 15
    = [(2, 2); (5, 15)] /\
  Separated (normalizeRanges [mkRange (SNum 12) (SNum 5); mkRange (SNum 13) SStar] 15).
Proof.
  split; [vm_compute; reflexivity|].
  apply (normalizeRanges_correct [mkRange (SNum 12) (SNum 5); mkRange (SNum 13) SStar] 15).
  lia.
Defined.

(** ** Printing and parsing *)

Lemma isNzNumber_numToString n : 1 <= n -> isNzNumber (numToString n) = true.
Proof.
  intros Hn. pose proof (numToString_digits n ltac:(lia)) as Hd.
  destruct (numToString_head n Hn) as (c & s & E & Hc1). rewrite E in *.
  unfold isDigits in Hd. simpl in *.
  apply andb_true_iff in Hd as [Hc Hs]. rewrite Hs, andb_true_r.
  unfold isDigit in Hc. bool_hyps. apply andb_true_iff. rewrite !Z.leb_le. lia.
Qed.

Lemma parse_num n :
  1 <= n <= MAX_SAFE_INTEGER -> parseSeqNumber (numToString n) = Some (SNum n).
Proof.
  intros Hn. unfold parseSeqNumber.
  rewrite isNzNumber_numToString, numToString_val by lia.
  rewrite (proj2 (Z.leb_le n MAX_SAFE_INTEGER)) by lia.
  destruct (seqb_spec (numToString n) (js "*")) as [E|]; [|done].
  pose proof (isNzNumber_numToString n ltac:(lia)) as H. by rewrite E in H.
Qed.

Lemma numToString_notin n c : 0 <= n -> isDigit c = false -> c ∉ numToString n.
Proof.
  intros Hn Hc Hin. pose proof (numToString_digits n Hn) as Hd.
  unfold isDigits in Hd. destruct (numToString n) as [|d s]; [done|].
  rewrite forallb_forall in Hd. specialize (Hd c). rewrite <- list_elem_of_In in Hd.
  specialize (Hd Hin). congruence.
Qed.

Definition safe (n : Z) : Prop := 1 <= n <= MAX_SAFE_INTEGER.

Lemma parse_run r :
  safe (fst r) -> safe (snd r) ->
  parsePart (formatRun r) = Some (mkRange (SNum (fst r)) (SNum (snd r))).
Proof.
  intros Hlo Hhi. unfold formatRun, parsePart.
  assert (Hcol : forall n, safe n -> 58 ∉ numToString n)
    by (intros n Hn; apply numToString_notin; [unfold safe in *; lia|done]).
  destruct (Z.eqb_spec (fst r) (snd r)) as [E|E].
  - rewrite (proj2 (indexOf_None _ _)) by auto. rewrite parse_num by done. by rewrite E.
  - change (numToString (fst r) ++ [58] ++ numToString (snd r))
      with (numToString (fst r) ++ 58 :: numToString (snd r)).
    rewrite indexOf_app_notin by auto.
    rewrite take_app_length, drop_app_ge by lia.
    replace (S (length (numToString (fst r))) - length (numToString (fst r)))%nat with 1%nat by lia.
    rewrite skipn_cons, drop_0, !parse_num by done. done.
Qed.

Lemma uidRuns_safe lo hi rest :
  safe lo -> safe hi -> Forall safe rest ->
  Forall (fun r => safe (fst r) /\ safe (snd r)) (uidRuns lo hi rest).
Proof.
  revert lo hi; induction rest as [|x rest IH]; intros lo hi Hlo Hhi Hr; simpl.
  - by constructor.
  - apply Forall_cons in Hr as [Hx Hr]. destruct (x =? hi + 1); [by apply IH|].
    constructor; [done|by apply IH].
Qed.

(** The runs of an increasing list are exactly its elements. *)
Lemma uidRuns_covers lo hi rest v :
  lo <= hi -> StronglySorted (key_le id) (hi :: rest) ->
  covers (uidRuns lo hi rest) v <-> (lo <= v <= hi) \/ v ∈ rest.
Proof.
  revert lo hi; induction rest as [|x rest IH]; intros lo hi Hle Hs; simpl.
  - rewrite covers_cons. simpl. split; [intros [?|H]; [by left|by apply covers_nil in H]|].
    intros [?|H]; [by left|set_solver].
  - apply StronglySorted_inv in Hs as [Hs [Hx _]%Forall_cons]. unfold key_le, id in Hx.
    destruct (Z.eqb_spec x (hi + 1)) as [->|Hne].
    + rewrite IH by (done || lia). rewrite elem_of_cons. intuition lia.
    + rewrite covers_cons, IH, elem_of_cons by (done || lia). simpl. intuition lia.
Qed.

Lemma sortedUnique_elem v uids : v ∈ sortedUnique uids <-> v ∈ uids.
Proof.
  unfold sortedUnique. rewrite elem_of_sortBy, list_elem_of_In, <- in_rev, <- list_elem_of_In.
  by rewrite elem_of_remove_dups, list_elem_of_In, <- in_rev, <- list_elem_of_In.
Qed.

Lemma formatRun_no_comma r : safe (fst r) /\ safe (snd r) -> 44 ∉ formatRun r.
Proof.
  intros [Hlo Hhi]. unfold formatRun, safe in *.
  assert (forall n, 1 <= n -> 44 ∉ numToString n)
    by (intros n Hn; apply numToString_notin; [lia|done]).
  destruct (fst r =? snd r); [apply H; lia|].
  rewrite !elem_of_app, list_elem_of_singleton.
  intros [Hin|[Hin|Hin]]; [|done|]; revert Hin; apply H; lia.
Qed.

Lemma parse_runs runs :
  Forall (fun r => safe (fst r) /\ safe (snd r)) runs -> runs <> [] ->
  parseSequenceSet (joinWith [44] (formatRun <$> runs))
  = Some ((fun r => mkRange (SNum (fst r)) (SNum (snd r))) <$> runs).
Proof.
  intros Hf Hne. unfold parseSequenceSet.
  destruct (Z.eqb_spec (len (joinWith [44] (formatRun <$> runs))) 0) as [E|_].
  - apply len_zero in E. exfalso. destruct runs as [|r runs]; [done|].
    apply Forall_cons in Hf as [[Hlo Hhi] _].
    assert (Hr : formatRun r <> []).
    { intros H. pose proof (parse_run r Hlo Hhi) as Hp. by rewrite H in Hp. }
    destruct runs as [|r' runs]; simpl in E; [done|]. by apply app_nil in E as [? _].
  - rewrite split_join.
    + clear Hne. induction Hf as [|r runs [Hlo Hhi] Hf IH]; [done|].
      rewrite !fmap_cons. cbn [mapM]. rewrite parse_run by done. simpl in *. by rewrite IH.
    + by destruct runs.
    + apply Forall_fmap. eapply Forall_impl; [exact Hf|]. apply formatRun_no_comma.
Qed.

Lemma uidRuns_ordered lo hi rest :
  lo <= hi -> StronglySorted (key_le id) (hi :: rest) ->
  Forall (fun r => fst r <= snd r) (uidRuns lo hi rest).
Proof.
  revert lo hi; induction rest as [|x rest IH]; intros lo hi Hle Hs; simpl; [by constructor|].
  apply StronglySorted_inv in Hs as [Hs [Hx _]%Forall_cons]. unfold key_le, id in Hx.
  destruct (x =? hi + 1); [apply IH; [lia|done]|]. constructor; [done|apply IH; [lia|done]].
Qed.

Lemma bounds_of_runs runs max :
  Forall (fun r => fst r <= snd r) runs ->
  (fun r => bounds r max) <$> ((fun r => mkRange (SNum (fst r)) (SNum (snd r))) <$> runs) = runs.
Proof.
  induction 1 as [|[lo hi] runs Hr Hf IH]; [done|]. rewrite !fmap_cons, IH. f_equal.
  unfold bounds. simpl in *. by rewrite (proj2 (Z.ltb_ge hi lo)).
Qed.

(** The compressed UID set printed for COPYUID/APPENDUID parses back, and the
    parsed set matches exactly the given UIDs, whatever the mailbox's maximum. *)
Theorem formatUidSet_roundtrip uids :
  uids <> [] -> Forall safe uids ->
  exists ranges, parseSequenceSet (formatUidSet uids) = Some ranges /\
    forall v max, matchSequenceSet ranges v max = true <-> v ∈ uids.
Proof.
  intros Hne Hf. unfold formatUidSet.
  assert (Hs : StronglySorted (key_le id) (sortedUnique uids)) by apply sortBy_sorted.
  assert (Hf' : Forall safe (sortedUnique uids))
    by (rewrite Forall_forall in *; intros x Hx; apply Hf; by apply sortedUnique_elem).
  pose proof (fun v => sortedUnique_elem v uids) as Helem.
  destruct (sortedUnique uids) as [|x rest].
  { destruct uids as [|u uids]; [done|]. exfalso. apply (not_elem_of_nil u), Helem. left. }
  apply Forall_cons in Hf' as [Hx Hr].
  pose proof (uidRuns_safe x x rest Hx Hx Hr) as Hruns.
  eexists. split; [apply parse_runs; [done|]|].
  { destruct rest as [|y rest]; simpl; [done|]. pose proof (uidRuns_covers x x (y :: rest) x ltac:(lia) Hs) as Hc.
    intros E. simpl in Hc. rewrite E in Hc. apply (covers_nil x), Hc. left. lia. }
  intros v max. rewrite matchSequenceSet_covers, bounds_of_runs, <- Helem, elem_of_cons.
  2: { apply uidRuns_ordered; [lia|done]. }
  rewrite uidRuns_covers by (done || lia). intuition lia.
Qed.

Lemma formatUidSet_roundtrip_witness :
  formatUidSet [9; 3; 4; 5; 4] = js "3:5,9" /\
  exists ranges, parseSequenceSet (formatUidSet [9; 3; 4; 5; 4]) = Some ranges /\
    forall v max, matchSequenceSet ranges v max = true <-> v ∈ [9; 3; 4; 5; 4].
Proof.
  split; [vm_compute; reflexivity|].
  apply (formatUidSet_roundtrip [9; 3; 4; 5; 4]); [discriminate|].
  repeat (apply Forall_cons; split; [unfold safe, MAX_SAFE_INTEGER; lia|]). apply Forall_nil. exact I.
Defined.
