(* ===== verification/ListMatch.v ===== *)
(** * Mailbox names and LIST patterns (packages/proto-imap/src/list-match.ts) *)

From S2P Require Import Prelude JsString Glob.

Definition HIERARCHY_DELIMITER : Z := 47.
Definition LIST_SYNTAX : GlobSyntax := imapListSyntax HIERARCHY_DELIMITER.

Definition normalizeMailboxName (name : jsstr) : jsstr :=
  let segs := splitOn HIERARCHY_DELIMITER name in
  joinWith [HIERARCHY_DELIMITER]
    match segs with
    | s0 :: rest =>
        if negb (len s0 =? 0) && (toUpperCase s0 === js "INBOX") then js "INBOX" :: rest else segs
    | [] => segs
    end.

Definition joinListPattern (ref pattern : jsstr) : jsstr :=
  if len ref =? 0 then pattern
  else if endsWith1 HIERARCHY_DELIMITER ref then ref ++ pattern
  else ref ++ [HIERARCHY_DELIMITER] ++ pattern.

Definition compileListPattern (pattern : jsstr) : jsstr -> bool := compileGlob pattern LIST_SYNTAX.

Definition matchesListPattern (pattern name : jsstr) : bool := compileGlob pattern LIST_SYNTAX name.

(** [name.replaceAll("\\", "\\\\").replaceAll(DQUOTE, "\\" + DQUOTE)]: the second
    replacement touches no backslash, so the two are one pass. *)
Definition quoteUnit (c : Z) : jsstr :=
  if c =? 92 then [92; 92] else if c =? 34 then [92; 34] else [c].

Definition quoteMailboxName (name : jsstr) : jsstr := 34 :: flat_map quoteUnit name ++ [34].

Definition ROLE_ATTRS : list (jsstr * jsstr) :=
  [(js "sent", js "\Sent"); (js "trash", js "\Trash"); (js "junk", js "\Junk");
   (js "drafts", js "\Drafts"); (js "archive", js "\Archive")].

(** [role] is [null] or a string; the empty string is falsy. *)
Definition roleToAttribute (role : option jsstr) : option jsstr :=
  match role with
  | None | Some [] => None
  | Some r => snd <$> find (fun p => fst p === toLowerCase r) ROLE_ATTRS
  end.

(** ** A reader of quoted strings (RFC 9051, [quoted]) *)

Fixpoint readQuoted (s : jsstr) : option (jsstr * jsstr) :=
  match s with
  | [] => None
  | c :: r =>
      if c =? 34 then Some ([], r)
      else if c =? 92 then
        match r with
        | d :: r' => '(n, rest) ← readQuoted r'; Some (d :: n, rest)
        | [] => None
        end
      else '(n, rest) ← readQuoted r; Some (c :: n, rest)
  end.

Lemma readQuoted_quote name rest :
  readQuoted (flat_map quoteUnit name ++ 34 :: rest) = Some (name, rest).
Proof.
  induction name as [|c name IH]; [done|].
  change (flat_map quoteUnit (c :: name)) with (quoteUnit c ++ flat_map quoteUnit name).
  rewrite <- app_assoc. unfold quoteUnit at 1.
  destruct (Z.eqb_spec c 92) as [->|Hb]; [|destruct (Z.eqb_spec c 34) as [->|Hq]];
    cbn [app readQuoted].
  - change (92 =? 34) with false. change (92 =? 92) with true. cbv iota. by rewrite IH.
  - change (92 =? 34) with false. change (92 =? 92) with true. cbv iota. by rewrite IH.
  - rewrite (proj2 (Z.eqb_neq c 34) Hq), (proj2 (Z.eqb_neq c 92) Hb). by rewrite IH.
Qed.

(** A quoted mailbox name in a response is read back by an IMAP client as the
    same name, and nothing of the name leaks past the closing quote, whatever
    backslashes and quotes the name holds. *)
Theorem quoteMailboxName_roundtrip name rest :
  exists body, quoteMailboxName name ++ rest = 34 :: body /\ readQuoted body = Some (name, rest).
Proof.
  exists (flat_map quoteUnit name ++ 34 :: rest). split; [|apply readQuoted_quote].
  unfold quoteMailboxName. simpl. by rewrite <- app_assoc.
Qed.

(** LIST matching is the RFC's: [*] crosses the hierarchy delimiter, [%] does
    not, every other character (backslash included) stands for itself with its
    case; so [%] lists exactly the names of the top level. *)
Theorem matchesListPattern_correct pattern name :
  (matchesListPattern pattern name = true <-> Pat LIST_SYNTAX pattern name) /\
  (matchesListPattern (js "%") name = true <-> HIERARCHY_DELIMITER ∉ name).
Proof.
  pose proof (fun p => matchTokens_spec LIST_SYNTAX (tokenize p LIST_SYNTAX) name) as Hspec.
  unfold matchesListPattern, compileGlob. split.
  - rewrite Hspec. apply tokenize_meaning.
  - rewrite Hspec. change (tokenize (js "%") LIST_SYNTAX) with [TStarWithin].
    change (hayOf LIST_SYNTAX name) with name.
    rewrite toks_cons_iff. setoid_rewrite toks_nil_iff. split.
    + intros (w & v & -> & He & ->). inversion He as [| | |? Hf]; subst.
      rewrite app_nil_r. intros Hin. rewrite Forall_forall in Hf. by specialize (Hf _ Hin).
    + intros Hn. exists name, []. rewrite app_nil_r. repeat split.
      constructor. apply Forall_forall. intros x Hx. unfold isBoundary. simpl.
      apply Z.eqb_neq. intros ->. done.
Qed.

(** Mailbox-name normalisation is idempotent, rewrites the first segment only
    (to INBOX, when it is INBOX up to case) and keeps the other segments. *)
Theorem normalizeMailboxName_idempotent name :
  normalizeMailboxName (normalizeMailboxName name) = normalizeMailboxName name /\
  tail (splitOn HIERARCHY_DELIMITER (normalizeMailboxName name))
    = tail (splitOn HIERARCHY_DELIMITER name).
Proof.
  assert (Hsplit : splitOn HIERARCHY_DELIMITER (normalizeMailboxName name) =
    match splitOn HIERARCHY_DELIMITER name with
    | s0 :: rest =>
        if negb (len s0 =? 0) && (toUpperCase s0 === js "INBOX") then js "INBOX" :: rest
        else s0 :: rest
    | [] => []
    end).
  { unfold normalizeMailboxName. pose proof (splitOn_no_sep HIERARCHY_DELIMITER name) as Hf.
    pose proof (splitOn_ne HIERARCHY_DELIMITER name) as Hne.
    destruct (splitOn HIERARCHY_DELIMITER name) as [|s0 rest]; [done|].
    apply Forall_cons in Hf as [H0 Hrest].
    destruct (negb _ && _); apply split_join; try done; constructor; try done.
    vm_compute. intros H. repeat (apply elem_of_cons in H as [H|H]; [done|]). by apply elem_of_nil in H. }
  split.
  - unfold normalizeMailboxName at 1. rewrite Hsplit. unfold normalizeMailboxName.
    destruct (splitOn HIERARCHY_DELIMITER name) as [|s0 rest]; [done|].
    destruct (negb (len s0 =? 0) && _) eqn:E; [done|]. by rewrite E.
  - rewrite Hsplit. destruct (splitOn HIERARCHY_DELIMITER name) as [|s0 rest]; [done|].
    by destruct (negb _ && _).
Qed.
