(* ===== verification/Rights.v ===== *)
(** * RFC 4314 mailbox rights (packages/core/src/rights.ts)

    Sets of rights are lists without duplicates in insertion order, as a
    JavaScript [Set] iterates them; a right is its one-letter code unit. *)

From S2P Require Import Prelude JsString.

Definition STANDARD_MAILBOX_RIGHTS : jsstr := js "lrswipkxtea".

(** [throw new RangeError] is [None]. *)
Definition expandRight (c : Z) : option jsstr :=
  if c =? 99 then Some (js "kx")
  else if c =? 100 then Some (js "etx")
  else if bool_decide (c ∈ STANDARD_MAILBOX_RIGHTS) then Some [c]
  else None.

(** [set.add(x)] *)
Definition setAdd (s : jsstr) (x : Z) : jsstr := if bool_decide (x ∈ s) then s else s ++ [x].

Fixpoint parseMailboxRightsFrom (rights value : jsstr) : option jsstr :=
  match value with
  | [] => Some rights
  | c :: value' =>
      e ← expandRight c; parseMailboxRightsFrom (fold_left setAdd e rights) value'
  end.

Definition parseMailboxRights (value : jsstr) : option jsstr := parseMailboxRightsFrom [] value.

Definition combineMailboxRights (rightsSets : list jsstr) : jsstr :=
  fold_left (fun acc s => fold_left setAdd s acc) rightsSets [].

Definition has (s : jsstr) (x : Z) : bool := bool_decide (x ∈ s).

Definition formatMailboxRights (rights : jsstr) (includeVirtual : bool) : jsstr :=
  let value := filter (fun r => r ∈ rights) STANDARD_MAILBOX_RIGHTS in
  let virtual :=
    if includeVirtual then
      (if has rights 107 || has rights 120 then [99] else [])
      ++ (if has rights 101 || has rights 116 || has rights 120 then [100] else [])
    else [] in
  value ++ virtual.

Inductive MailboxOperation :=
| OpLookup | OpRead | OpSeen | OpWrite | OpInsert | OpPost | OpCreate | OpDelete | OpExpunge | OpAdmin.

Definition MAILBOX_OPERATION_RIGHT (op : MailboxOperation) : Z :=
  match op with
  | OpLookup => 108 | OpRead => 114 | OpSeen => 115 | OpWrite => 119 | OpInsert => 105
  | OpPost => 112 | OpCreate => 107 | OpDelete => 120 | OpExpunge => 101 | OpAdmin => 97
  end.

(** ** Lemmas *)

Lemma elem_of_setAdd y s x : y ∈ setAdd s x <-> y = x \/ y ∈ s.
Proof.
  unfold setAdd. case_bool_decide; [|rewrite elem_of_app, list_elem_of_singleton]; naive_solver.
Qed.

Lemma elem_of_adds y e s : y ∈ fold_left setAdd e s <-> y ∈ e \/ y ∈ s.
Proof.
  revert s; induction e as [|x e IH]; intros s; simpl; [set_solver|].
  rewrite IH, elem_of_setAdd, elem_of_cons. tauto.
Qed.

Lemma setAdd_NoDup s x : NoDup s -> NoDup (setAdd s x).
Proof.
  unfold setAdd. case_bool_decide; [done|]. intros Hn. apply NoDup_app. split; [done|].
  split; [set_solver|apply NoDup_singleton].
Qed.

Lemma adds_NoDup e s : NoDup s -> NoDup (fold_left setAdd e s).
Proof. revert s; induction e as [|x e IH]; intros s Hs; simpl; [done|]. by apply IH, setAdd_NoDup. Qed.

(** What a letter of the input stands for. *)
Definition grants (c y : Z) : Prop := exists e, expandRight c = Some e /\ y ∈ e.

Lemma parseFrom_spec rights value r :
  parseMailboxRightsFrom rights value = Some r ->
  (forall y, y ∈ r <-> y ∈ rights \/ exists c, c ∈ value /\ grants c y) /\ (NoDup rights -> NoDup r).
Proof.
  revert rights; induction value as [|c value IH]; intros rights; simpl.
  - intros [= <-]. split; [set_solver|done].
  - destruct (expandRight c) as [e|] eqn:E; [|done]. simpl. intros H.
    destruct (IH _ H) as [Hel Hnd]. split.
    + intros y. rewrite Hel, elem_of_adds. setoid_rewrite elem_of_cons.
      unfold grants. naive_solver.
    + intros Hr. by apply Hnd, adds_NoDup.
Qed.

Lemma parseFrom_total rights value :
  Forall (fun c => is_Some (expandRight c)) value -> is_Some (parseMailboxRightsFrom rights value).
Proof.
  intros Hf. revert rights; induction Hf as [|c value [e He] Hf IH]; intros rights; simpl; [done|].
  rewrite He. simpl. apply IH.
Qed.

Lemma standard_not_virtual : Forall (fun y => y <> 99 /\ y <> 100) STANDARD_MAILBOX_RIGHTS.
Proof. repeat (apply Forall_cons; split; [vm_compute; split; discriminate|]). by apply Forall_nil. Qed.

Lemma expand_standard y : y ∈ STANDARD_MAILBOX_RIGHTS -> expandRight y = Some [y].
Proof.
  intros Hy. unfold expandRight. rewrite bool_decide_true by done.
  destruct (proj1 (Forall_forall _ _) standard_not_virtual y Hy) as [H99 H100].
  by rewrite (proj2 (Z.eqb_neq y 99) H99), (proj2 (Z.eqb_neq y 100) H100).
Qed.

Definition standard (s : jsstr) : Prop := Forall (fun y => y ∈ STANDARD_MAILBOX_RIGHTS) s.

Lemma elem_of_format y s b :
  y ∈ formatMailboxRights s b <->
  (y ∈ STANDARD_MAILBOX_RIGHTS /\ y ∈ s) \/
  (b = true /\ ((y = 99 /\ (107 ∈ s \/ 120 ∈ s)) \/ (y = 100 /\ (101 ∈ s \/ 116 ∈ s \/ 120 ∈ s)))).
Proof.
  unfold formatMailboxRights. rewrite elem_of_app, list_elem_of_filter.
  destruct b; [|set_solver]. rewrite elem_of_app. unfold has.
  destruct (_ || _) eqn:E1, (bool_decide (101 ∈ s) || _ || _) eqn:E2;
    rewrite ?orb_true_iff, ?orb_false_iff, ?bool_decide_eq_true, ?bool_decide_eq_false in *;
    rewrite ?list_elem_of_singleton; set_solver.
Qed.

(** Without the virtual letters, printing a set of standard rights and parsing
    it back gives the same set. *)
Theorem formatMailboxRights_roundtrip s :
  standard s ->
  exists r, parseMailboxRights (formatMailboxRights s false) = Some r /\ NoDup r /\
    forall y, y ∈ r <-> y ∈ s.
Proof.
  intros Hs. unfold parseMailboxRights.
  destruct (parseFrom_total [] (formatMailboxRights s false)) as [r Hr].
  { apply Forall_forall. intros y [[Hy _]|[? _]]%elem_of_format; [|done].
    rewrite expand_standard by done. eauto. }
  exists r. destruct (parseFrom_spec _ _ _ Hr) as [Hel Hnd].
  split; [done|]. split; [apply Hnd; constructor|]. intros y. rewrite Hel.
  setoid_rewrite elem_of_format. unfold grants, standard in *. rewrite Forall_forall in Hs. split.
  - intros [H|(c & [[Hc Hin]|[? _]] & e & He & Hy)]; [set_solver| |done].
    rewrite expand_standard in He by done. injection He as <-.
    apply list_elem_of_singleton in Hy. by subst.
  - intros Hy. right. exists y. split; [by left; auto|]. exists [y].
    split; [by apply expand_standard, Hs|]. by apply list_elem_of_singleton.
Qed.

Lemma formatMailboxRights_roundtrip_witness :
  formatMailboxRights (js "xlk") false = js "lkx" /\
  exists r, parseMailboxRights (formatMailboxRights (js "xlk") false) = Some r /\ NoDup r /\
    forall y, y ∈ r <-> y ∈ js "xlk".
Proof.
  split; [vm_compute; reflexivity|].
  apply (formatMailboxRights_roundtrip (js "xlk")).
  repeat (apply Forall_cons; split; [apply (bool_decide_unpack _); vm_compute; exact I|]).
  apply Forall_nil. exact I.
Defined.

(** With the virtual letters, reading the printed rights back widens the set
    by exactly what RFC 4314's obsolete letters stand for: [c] brings in both of
    [k], [x] when one is present and [d] all of [e], [t], [x]. *)
Theorem formatMailboxRights_virtual s :
  standard s ->
  exists r, parseMailboxRights (formatMailboxRights s true) = Some r /\
    forall y, y ∈ r <->
      y ∈ s \/ (y ∈ js "kx" /\ (107 ∈ s \/ 120 ∈ s))
      \/ (y ∈ js "etx" /\ (101 ∈ s \/ 116 ∈ s \/ 120 ∈ s)).
Proof.
  intros Hs. unfold parseMailboxRights.
  destruct (parseFrom_total [] (formatMailboxRights s true)) as [r Hr].
  { apply Forall_forall. intros y [[Hy _]|[_ [[-> _]|[-> _]]]]%elem_of_format;
      [rewrite expand_standard by done; eauto|by eexists..]. }
  exists r. destruct (parseFrom_spec _ _ _ Hr) as [Hel _]. split; [done|].
  intros y. rewrite Hel. setoid_rewrite elem_of_format.
  unfold grants, standard in *. rewrite Forall_forall in Hs. split.
  - intros [H|(c & [[Hc Hin]|[_ [[-> H]|[-> H]]]] & e & He & Hy)]; [set_solver| | |].
    + rewrite expand_standard in He by done. injection He as <-.
      apply list_elem_of_singleton in Hy. subst. by left.
    + injection He as <-. auto.
    + injection He as <-. auto.
  - intros [Hy|[[Hy H]|[Hy H]]]; right.
    + exists y. split; [by left; auto|]. exists [y].
      split; [by apply expand_standard, Hs|]. by apply list_elem_of_singleton.
    + exists 99. split; [right; split; [done|by left]|]. by eexists.
    + exists 100. split; [right; split; [done|by right]|]. by eexists.
Qed.

Lemma formatMailboxRights_virtual_witness :
  parseMailboxRights (formatMailboxRights (js "lk") true) = Some (js "lkx") /\
  exists r, parseMailboxRights (formatMailboxRights (js "lk") true) = Some r /\
    forall y, y ∈ r <->
      y ∈ js "lk" \/ (y ∈ js "kx" /\ (107 ∈ js "lk" \/ 120 ∈ js "lk"))
      \/ (y ∈ js "etx" /\ (101 ∈ js "lk" \/ 116 ∈ js "lk" \/ 120 ∈ js "lk")).
Proof.
  split; [vm_compute; reflexivity|].
  apply (formatMailboxRights_virtual (js "lk")).
  repeat (apply Forall_cons; split; [apply (bool_decide_unpack _); vm_compute; exact I|]).
  apply Forall_nil. exact I.
Defined.
