(* ===== verification/Limits.v ===== *)
(** * Protocol limits shared by the engines (packages/core/src/limits.ts) *)

From S2P Require Import Prelude.

Definition MAX_MESSAGE_BYTES : Z := 25 * 1024 * 1024.
Definition POP3_IDLE_TIMEOUT_MS : Z := 10 * 60 * 1000.
Definition MAX_COMMAND_LINE : Z := 4096.
Definition MAX_PIPELINE_PENDING_BYTES : Z := 1024 * 1024.
Definition MAX_RCPT_PER_SESSION : Z := 1000.
Definition MAX_SMTP_ERRORS_PER_SESSION : Z := 20.
Definition MAX_IMAP_LINE_BYTES : Z := 64 * 1024.
Definition MAX_PREAUTH_LITERAL_BYTES : Z := 8 * 1024.
