(* ===== verification/Lmtp.v ===== *)
(** * The LMTP engine (packages/proto-lmtp/src/engine.ts)

    A byte-stream state machine: [feed], [rcptResult] and [deliverResult] are the
    public methods, each a function from the engine's fields to the new fields and
    the emitted actions ([None] where the source throws). *)

From S2P Require Import Prelude JsString Limits.

(** ** Data *)

Record LmtpDelivery := mkDelivery {
  d_rcpt : jsstr; d_ok : bool; d_code : Z; d_enhanced : option jsstr; d_message : jsstr
}.

Record LmtpDeliverEnv := mkEnv {
  e_mailFrom : jsstr; e_lhloName : jsstr; e_clientIp : jsstr; e_rcptTo : list jsstr; e_raw : bytes
}.

Inductive LmtpAction :=
| AReply (text : jsstr)
| AVerifyRcpt (rcpt : jsstr)
| ADeliver (env : LmtpDeliverEnv)
| AClose.

(** [LmtpEngineOptions] after the constructor's defaults. *)
Record LmtpConfig := mkConfig { hostname : jsstr; clientIp : jsstr; maxSizeBytes : Z }.

Inductive Awaiting := WNone | WRcpt | WDeliver.

(** The mutable fields of [LmtpEngine]. *)
Record Lmtp := mkLmtp {
  buffer : jsstr;
  greeted : bool;
  lhloName : jsstr;
  mailFrom : option jsstr;
  rcptTo : list jsstr;
  pendingRcpt : option jsstr;
  inData : bool;
  dataLines : list jsstr;
  dataOverflow : bool;
  awaiting : Awaiting;
  closed : bool;
  rcptCount : Z;
  errorCount : Z
}.

Definition initial : Lmtp :=
  {| buffer := []; greeted := false; lhloName := []; mailFrom := None; rcptTo := [];
     pendingRcpt := None; inData := false; dataLines := []; dataOverflow := false;
     awaiting := WNone; closed := false; rcptCount := 0; errorCount := 0 |}.

Inductive RcptOutcome :=
| RcptOk
| RcptFail (code : Z) (enhanced message : jsstr).

(** ** Helpers of the file *)

Definition reply (s : string) : LmtpAction := AReply (js s).

Definition extractPath (rest : jsstr) : option jsstr :=
  match indexOf 60 rest with
  | None => None
  | Some lt =>
      match indexOf 62 (drop (S lt) rest) with
      | None => None
      | Some gt => Some (trim (take gt (drop (S lt) rest)))
      end
  end.

(** [text.startsWith("4") || text.startsWith("5")] on a reply action *)
Definition isError (a : LmtpAction) : bool :=
  match a with AReply (c :: _) => (c =? 52) || (c =? 53) | _ => false end.

Definition countErrors (acts : list LmtpAction) : Z := len (filter (fun a => isError a = true) acts).

(** [rest.slice(rest.indexOf(":") + 1)] *)
Definition afterColon (rest : jsstr) : jsstr :=
  match indexOf 58 rest with Some i => drop (S i) rest | None => rest end.

Section Engine.
Context (cfg : LmtpConfig).

Definition greeting : list LmtpAction := [AReply (js "220 " ++ hostname cfg ++ js " LMTP ready")].

Definition resetTransaction (s : Lmtp) : Lmtp :=
  s <| mailFrom := None |> <| rcptTo := [] |> <| pendingRcpt := None |>
    <| inData := false |> <| dataLines := [] |> <| dataOverflow := false |>.

(** ** Lines *)

(** [dataLines.reduce((n, l) => n + l.length + 2, 0)] *)
Definition dataTotal (ls : list jsstr) : Z := fold_left (fun n l => n + len l + 2) ls 0.

Definition handleDataLine (line : jsstr) (s : Lmtp) : Lmtp * list LmtpAction :=
  if line === js "." then
    let s := s <| inData := false |> in
    if dataOverflow s then (resetTransaction s, [reply "552 5.3.4 message too large"])
    else
      let raw := joinWith crlf (dataLines s) ++ (if 0 <? len (dataLines s) then crlf else []) in
      (s <| awaiting := WDeliver |>,
       [ADeliver {| e_mailFrom := default [] (mailFrom s); e_lhloName := lhloName s;
                    e_clientIp := clientIp cfg; e_rcptTo := rcptTo s; e_raw := raw |}])
  else
    let unstuffed := if startsWith (js "..") line then drop 1 line else line in
    let s := s <| dataLines ::= fun ls => ls ++ [unstuffed] |> in
    (if maxSizeBytes cfg <? dataTotal (dataLines s) then s <| dataOverflow := true |> else s, []).

Definition handleCommand (line : jsstr) (s : Lmtp) : Lmtp * list LmtpAction :=
  let sp := indexOf SP line in
  let verb := toUpperCase (match sp with None => line | Some i => take i line end) in
  let rest := match sp with None => [] | Some i => drop (S i) line end in
  if verb === js "LHLO" then
    if len (trim rest) =? 0 then (s, [reply "501 5.5.4 LHLO requires domain"])
    else
      let s := s <| lhloName := trim rest |> <| greeted := true |> in
      (resetTransaction s,
       [AReply (js "250-" ++ hostname cfg); reply "250-PIPELINING";
        reply "250-ENHANCEDSTATUSCODES"; reply "250-8BITMIME";
        AReply (js "250 SIZE " ++ numToString (maxSizeBytes cfg))])
  else if (verb === js "HELO") || (verb === js "EHLO") then
    (s, [reply "500 5.5.1 LMTP requires LHLO"])
  else if verb === js "MAIL" then
    if negb (greeted s) then (s, [reply "503 5.5.1 send LHLO first"])
    else match mailFrom s with
    | Some _ => (s, [reply "503 5.5.1 nested MAIL command"])
    | None =>
        if negb (startsWithI (js "FROM:") rest) then (s, [reply "501 5.5.4 syntax: MAIL FROM:<addr>"])
        else match extractPath (afterColon rest) with
        | None => (s, [reply "501 5.5.4 syntax: MAIL FROM:<addr>"])
        | Some addr => (s <| mailFrom := Some addr |>, [reply "250 2.1.0 OK"])
        end
    end
  else if verb === js "RCPT" then
    match mailFrom s with
    | None => (s, [reply "503 5.5.1 need MAIL before RCPT"])
    | Some _ =>
        if negb (startsWithI (js "TO:") rest) then (s, [reply "501 5.5.4 syntax: RCPT TO:<addr>"])
        else match extractPath (afterColon rest) with
        | None | Some [] => (s, [reply "501 5.5.4 syntax: RCPT TO:<addr>"])
        | Some addr =>
            if MAX_RCPT_PER_SESSION <=? rcptCount s then (s, [reply "452 4.5.3 too many recipients"])
            else
              (s <| rcptCount ::= Z.add 1 |> <| pendingRcpt := Some addr |> <| awaiting := WRcpt |>,
               [AVerifyRcpt addr])
        end
    end
  else if verb === js "DATA" then
    match mailFrom s with
    | None => (s, [reply "503 5.5.1 need MAIL first"])
    | Some _ =>
        if len (rcptTo s) =? 0 then (s, [reply "503 5.5.1 need RCPT first"])
        else
          (s <| inData := true |> <| dataLines := [] |> <| dataOverflow := false |>,
           [reply "354 end data with <CR><LF>.<CR><LF>"])
    end
  else if verb === js "RSET" then (resetTransaction s, [reply "250 2.0.0 OK"])
  else if verb === js "NOOP" then (s, [reply "250 2.0.0 OK"])
  else if verb === js "QUIT" then
    (s <| closed := true |>, [AReply (js "221 2.0.0 " ++ hostname cfg ++ js " closing"); AClose])
  else (s, [reply "500 5.5.1 command not recognized"]).

(** ** The loop *)

Definition running (s : Lmtp) : bool :=
  match awaiting s with WNone => negb (closed s) | _ => false end.

Definition handleLine (line : jsstr) (s : Lmtp) : Lmtp * list LmtpAction :=
  if inData s then handleDataLine line s else handleCommand line s.

(** [pump()] with a bound on the number of iterations; [pump] below gives one
    more than the buffer's length, and each iteration removes at least two units. *)
Fixpoint pumpFuel (fuel : nat) (s : Lmtp) : Lmtp * list LmtpAction :=
  match fuel with
  | O => (s, [])
  | S f =>
      if running s then
        match indexOfCRLF (buffer s) with
        | None =>
            if MAX_COMMAND_LINE <? len (buffer s)
            then (s <| buffer := [] |>, [reply "500 5.5.2 line too long"])
            else (s, [])
        | Some idx =>
            let line := take idx (buffer s) in
            let '(s1, a) := handleLine line (s <| buffer ::= drop (idx + 2) |>) in
            let '(s2, b) := pumpFuel f s1 in
            (s2, a ++ b)
        end
      else (s, [])
  end.

Definition pump (s : Lmtp) : Lmtp * list LmtpAction := pumpFuel (S (length (buffer s))) s.

Definition guardErrors (r : Lmtp * list LmtpAction) : Lmtp * list LmtpAction :=
  let '(s, actions) := r in
  if closed s then (s, actions)
  else
    let s := s <| errorCount ::= fun n => n + countErrors actions |> in
    if errorCount s <=? MAX_SMTP_ERRORS_PER_SESSION then (s, actions)
    else
      (s <| closed := true |> <| buffer := [] |>,
       actions ++ [reply "421 4.7.0 too many errors, closing connection"; AClose]).

(** ** Public methods *)

(** The check after the loop in [feed()]. *)
Definition guardPending (r : Lmtp * list LmtpAction) : Lmtp * list LmtpAction :=
  let '(s, actions) := r in
  if negb (closed s) && (match awaiting s with WNone => false | _ => true end)
     && (MAX_PIPELINE_PENDING_BYTES <? len (buffer s))
  then (s <| buffer := [] |> <| closed := true |>,
        actions ++ [reply "421 4.7.0 too much pipelined data, closing connection"; AClose])
  else (s, actions).

Definition feed (chunk : bytes) (s : Lmtp) : Lmtp * list LmtpAction :=
  if closed s then (s, [])
  else guardErrors (guardPending (pump (s <| buffer ::= fun b => b ++ chunk |>))).

Definition rcptResult (outcome : RcptOutcome) (s : Lmtp) : option (Lmtp * list LmtpAction) :=
  match awaiting s, pendingRcpt s with
  | WRcpt, Some rcpt =>
      let s := s <| pendingRcpt := None |> <| awaiting := WNone |> in
      let '(s, a) :=
        match outcome with
        | RcptOk => (s <| rcptTo ::= fun l => l ++ [rcpt] |>, [reply "250 2.1.5 OK"])
        | RcptFail code enhanced message =>
            (s, [AReply (numToString code ++ [SP] ++ enhanced ++ [SP] ++ message)])
        end in
      let '(s, b) := pump s in
      Some (guardErrors (s, a ++ b))
  | _, _ => None
  end.

(** The reply for one recipient. *)
Definition deliveryReply (results : list LmtpDelivery) (rcpt : jsstr) : LmtpAction :=
  match find (fun r => d_rcpt r === rcpt) results with
  | Some r =>
      AReply (numToString (d_code r) ++ [SP]
              ++ default (if d_ok r then js "2.0.0" else js "5.0.0") (d_enhanced r)
              ++ [SP] ++ d_message r)
  | None => reply "451 4.3.0 no delivery result"
  end.

Definition deliverResult (results : list LmtpDelivery) (s : Lmtp) : option (Lmtp * list LmtpAction) :=
  match awaiting s with
  | WDeliver =>
      let s := s <| awaiting := WNone |> in
      let a := deliveryReply results <$> rcptTo s in
      let '(s, b) := pump (resetTransaction s) in
      Some (guardErrors (s, a ++ b))
  | _ => None
  end.

End Engine.

Arguments pump : simpl never.
Arguments handleLine : simpl never.
Arguments dataTotal : simpl never.
Arguments countErrors : simpl never.
Arguments guardErrors : simpl never.
Arguments guardPending : simpl never.

(** The last address sent to the backend for verification. *)
Definition verifying (acts : list LmtpAction) (old : option jsstr) : option jsstr :=
  fold_left (fun o a => match a with AVerifyRcpt r => Some r | _ => o end) acts old.

Arguments verifying : simpl never.

Lemma verifying_app a b old : verifying (a ++ b) old = verifying b (verifying a old).
Proof. apply fold_left_app. Qed.

Lemma verifying_weaken b r o : verifying b None = Some r -> verifying b o = Some r.
Proof.
  revert o; induction b as [|x b IH]; intros o; [done|].
  change (verifying (x :: b) None) with
    (verifying b (match x with AVerifyRcpt r => Some r | _ => None end)).
  change (verifying (x :: b) o) with
    (verifying b (match x with AVerifyRcpt r => Some r | _ => o end)).
  destruct x; auto.
Qed.

(** ** Lemmas: the handlers never touch the buffer *)

Section EngineFacts.
Context (cfg : LmtpConfig).

Definition withBuffer (b : jsstr) (s : Lmtp) : Lmtp := s <| buffer := b |>.

Ltac open_line := unfold handleLine, handleDataLine, handleCommand, resetTransaction.

Lemma handleLine_frame line b s :
  handleLine cfg line (withBuffer b s) =
  (withBuffer b (fst (handleLine cfg line s)), snd (handleLine cfg line s)).
Proof.
  destruct s. open_line. unfold withBuffer. cbn.
  repeat (case_inner; cbn; try reflexivity).
Qed.

Lemma handleLine_buffer line s : buffer (fst (handleLine cfg line s)) = buffer s.
Proof.
  destruct s. open_line. cbn. repeat (case_inner; cbn; try reflexivity).
Qed.

(** ** The loop as a relation, and its fuel *)

(** One iteration of [while (awaiting === null && !closed)]. *)
Inductive Loop : Lmtp -> list LmtpAction -> Lmtp -> Prop :=
| loop_stop s : running s = false -> Loop s [] s
| loop_wait s :
    running s = true -> indexOfCRLF (buffer s) = None -> len (buffer s) <= MAX_COMMAND_LINE ->
    Loop s [] s
| loop_long s :
    running s = true -> indexOfCRLF (buffer s) = None -> MAX_COMMAND_LINE < len (buffer s) ->
    Loop s [reply "500 5.5.2 line too long"] (withBuffer [] s)
| loop_line s idx s1 a b s2 :
    running s = true -> indexOfCRLF (buffer s) = Some idx ->
    handleLine cfg (take idx (buffer s)) (withBuffer (drop (idx + 2) (buffer s)) s) = (s1, a) ->
    Loop s1 b s2 -> Loop s (a ++ b) s2.

Lemma pumpFuel_loop fuel s :
  (length (buffer s) < fuel)%nat -> Loop s (snd (pumpFuel cfg fuel s)) (fst (pumpFuel cfg fuel s)).
Proof.
  revert s; induction fuel as [|f IH]; intros s Hf; [lia|]. cbn [pumpFuel].
  destruct (running s) eqn:Er; [|by constructor].
  destruct (indexOfCRLF (buffer s)) as [idx|] eqn:Ei.
  - destruct (handleLine cfg _ _) as [s1 a] eqn:El.
    specialize (IH s1). destruct (pumpFuel cfg f s1) as [s2 b] eqn:Ep. simpl in *.
    eapply loop_line; [done..|]. apply IH.
    pose proof (handleLine_buffer (take idx (buffer s)) (s <| buffer ::= drop (idx + 2) |>)) as Hb.
    rewrite El in Hb. simpl in Hb. rewrite Hb.
    apply indexOfCRLF_lt in Ei. cbn. rewrite length_drop. lia.
  - destruct (Z.ltb_spec MAX_COMMAND_LINE (len (buffer s))); simpl.
    + by apply loop_long.
    + by apply loop_wait.
Qed.

Lemma pump_loop s : Loop s (snd (pump cfg s)) (fst (pump cfg s)).
Proof. unfold pump. apply pumpFuel_loop. lia. Qed.

Lemma Loop_det s a s1 b s2 : Loop s a s1 -> Loop s b s2 -> a = b /\ s1 = s2.
Proof.
  intros H. revert b s2. induction H as [s Hr|s Hr Hi Hl|s Hr Hi Hl|s idx s1 a b s2 Hr Hi Hh HL IH];
    intros b' s2' H'; inversion H'; subst; try congruence; try lia; try done.
  assert (idx0 = idx) by congruence. subst idx0.
  assert (s1 = s3 /\ a = a0) as [-> ->] by (split; congruence).
  match goal with HL' : Loop s3 ?x s2' |- _ => destruct (IH _ _ HL') as [-> ->] end. done.
Qed.

Lemma loop_pump s a s' : Loop s a s' -> pump cfg s = (s', a).
Proof.
  intros H. destruct (Loop_det _ _ _ _ _ H (pump_loop s)) as [-> ->]. by destruct (pump cfg s).
Qed.

(** Where the loop rests. *)
Lemma Loop_rest s a s' :
  Loop s a s' -> running s' = true -> no_crlf (buffer s') /\ len (buffer s') <= MAX_COMMAND_LINE.
Proof.
  induction 1 as [s Hr|s Hr Hi Hl|s Hr Hi Hl|]; intros Hr'; auto.
  - congruence.
  - split; [done|]. cbn. unfold len, MAX_COMMAND_LINE. simpl. lia.
Qed.

Lemma Loop_buffer_le s a s' : Loop s a s' -> len (buffer s') <= len (buffer s).
Proof.
  induction 1 as [| |s Hr Hi Hl|s idx s1 a b s2 Hr Hi Hh HL IH]; try lia.
  - cbn. pose proof (len_nonneg (buffer s)). unfold len at 1. simpl. lia.
  - assert (Hb : buffer s1 = drop (idx + 2) (buffer s)).
    { pose proof (handleLine_buffer (take idx (buffer s)) (withBuffer (drop (idx + 2) (buffer s)) s)) as Hb.
      rewrite Hh in Hb. exact Hb. }
    rewrite Hb in IH. unfold len in *. rewrite length_drop in IH. lia.
Qed.

(** ** The invariant *)

Record Inv (s : Lmtp) : Prop := {
  inv_count : len (rcptTo s) + len (option_list (pendingRcpt s)) <= rcptCount s <= MAX_RCPT_PER_SESSION;
  inv_pending : awaiting s = WRcpt <-> is_Some (pendingRcpt s);
  inv_mail : rcptTo s <> [] \/ is_Some (pendingRcpt s) -> is_Some (mailFrom s);
  inv_greeted : is_Some (mailFrom s) -> greeted s = true;
  inv_data : inData s = true -> rcptTo s <> [] /\ awaiting s = WNone;
  inv_deliver : awaiting s = WDeliver -> rcptTo s <> [] /\ inData s = false;
  inv_size : dataOverflow s = false -> dataTotal (dataLines s) <= maxSizeBytes cfg
}.

(** The envelope of a delivery is complete and within the size limit. *)
Definition good_action (s : Lmtp) (a : LmtpAction) : Prop :=
  match a with
  | ADeliver env =>
      e_rcptTo env <> [] /\ e_rcptTo env = rcptTo s /\ mailFrom s = Some (e_mailFrom env)
      /\ len (e_raw env) <= maxSizeBytes cfg
  | _ => True
  end.

Lemma dataTotal_app ls k : dataTotal (ls ++ k) = dataTotal ls + dataTotal k.
Proof.
  unfold dataTotal. rewrite fold_left_app.
  enough (H : forall l n, fold_left (fun n l => n + len l + 2) l n
                          = n + fold_left (fun n l => n + len l + 2) l 0) by apply H.
  clear. induction l as [|x l IH]; intros n; cbn [fold_left]; [lia|].
  rewrite (IH (n + len x + 2)), (IH (0 + len x + 2)). lia.
Qed.

Lemma raw_lines ls :
  joinWith crlf ls ++ (if 0 <? len ls then crlf else []) = flat_map (fun l => l ++ crlf) ls.
Proof.
  induction ls as [|l ls IH]; [done|]. simpl flat_map. rewrite <- IH.
  destruct ls as [|l' ls]; [simpl; by rewrite app_nil_r|].
  cbn [joinWith]. rewrite (proj2 (Z.ltb_lt 0 (len (l :: l' :: ls)))) by (rewrite !len_cons; pose proof (len_nonneg ls); lia).
  rewrite (proj2 (Z.ltb_lt 0 (len (l' :: ls)))) by (rewrite len_cons; pose proof (len_nonneg ls); lia).
  by rewrite <- !app_assoc.
Qed.

Lemma raw_size ls :
  len (joinWith crlf ls ++ (if 0 <? len ls then crlf else [])) = dataTotal ls.
Proof.
  rewrite raw_lines. induction ls as [|l ls IH]; [done|].
  change (dataTotal (l :: ls)) with (dataTotal ([l] ++ ls)).
  rewrite dataTotal_app. simpl flat_map. rewrite !len_app, IH.
  change (dataTotal [l]) with (0 + len l + 2). change (len crlf) with 2. lia.
Qed.

Context (max_nonneg : 0 <= maxSizeBytes cfg).

Lemma Inv_reset s :
  Inv s -> awaiting s = WNone -> Inv (resetTransaction s).
Proof.
  intros [Hc Hp Hm Hg Hd Hdl Hs] Ha. unfold resetTransaction. constructor; cbn.
  - pose proof (len_nonneg (rcptTo s)). pose proof (len_nonneg (option_list (pendingRcpt s))).
    unfold len at 1 2. simpl. lia.
  - rewrite Ha. split; [done|]. by intros [? ?].
  - intros [?|[? ?]]; done.
  - by intros [? ?].
  - done.
  - congruence.
  - done.
Qed.

Lemma running_inv s : running s = true -> awaiting s = WNone /\ closed s = false.
Proof. unfold running. destruct (awaiting s); try done. by rewrite negb_true_iff. Qed.

Lemma Inv_append s x :
  Inv s ->
  let s' := s <| dataLines ::= fun ls => ls ++ [x] |> in
  Inv (if maxSizeBytes cfg <? dataTotal (dataLines s') then s' <| dataOverflow := true |> else s').
Proof.
  intros [H1 H2 H3 H4 H5 H6 H7] s'.
  destruct (Z.ltb_spec (maxSizeBytes cfg) (dataTotal (dataLines s'))); by constructor; cbn.
Qed.

Lemma handleDataLine_inv line s s' a :
  Inv s -> running s = true -> inData s = true -> handleDataLine cfg line s = (s', a) ->
  Inv s' /\ Forall (good_action s) a.
Proof.
  intros HI [Ha Hc]%running_inv Hd. unfold handleDataLine. destruct HI as [H1 H2 H3 H4 H5 H6 H7].
  destruct (H5 Hd) as [Hr _]. destruct (H3 (or_introl Hr)) as [from Hfrom].
  destruct (line === js "."); [cbn; destruct (dataOverflow s) eqn:Eo|]; intros [= <- <-].
  - split; [|by repeat constructor]. apply (Inv_reset (s <| inData := false |>)); [|done].
    constructor; cbn; try done; intuition congruence.
  - split.
    + assert (awaiting s <> WRcpt) by congruence.
      constructor; cbn; try done; intuition congruence.
    + constructor; [|done]. cbn. rewrite Hfrom, raw_size. repeat split; auto.
  - split; [|done]. by apply Inv_append; constructor.
Qed.

Lemma Inv_helo s name :
  Inv s -> Inv (s <| lhloName := name |> <| greeted := true |>).
Proof. intros [H1 H2 H3 H4 H5 H6 H7]. by constructor; cbn. Qed.

Lemma Inv_mail s addr :
  Inv s -> greeted s = true -> Inv (s <| mailFrom := Some addr |>).
Proof. intros [H1 H2 H3 H4 H5 H6 H7] Hg. constructor; cbn; eauto. Qed.

Lemma Inv_rcpt s addr :
  Inv s -> awaiting s = WNone -> inData s = false -> is_Some (mailFrom s) ->
  rcptCount s < MAX_RCPT_PER_SESSION ->
  Inv (s <| rcptCount ::= Z.add 1 |> <| pendingRcpt := Some addr |> <| awaiting := WRcpt |>).
Proof.
  intros [H1 H2 H3 H4 H5 H6 H7] Ha Hd Hm Hc.
  constructor; cbn; try done; try (intuition congruence).
  assert (pendingRcpt s = None) as E.
  { destruct (pendingRcpt s) eqn:E; [|done]. rewrite (proj2 H2) in Ha by eauto. done. }
  rewrite E in H1. unfold len at 2 in H1. unfold len at 2. simpl in *. lia.
Qed.

Lemma Inv_start_data s :
  Inv s -> awaiting s = WNone -> rcptTo s <> [] ->
  Inv (s <| inData := true |> <| dataLines := [] |> <| dataOverflow := false |>).
Proof. intros [H1 H2 H3 H4 H5 H6 H7] Ha Hr. constructor; cbn; try done. congruence. Qed.

Lemma Inv_close s : Inv s -> Inv (s <| closed := true |>).
Proof. intros [H1 H2 H3 H4 H5 H6 H7]. by constructor. Qed.

Lemma Inv_buffer b s : Inv s -> Inv (withBuffer b s).
Proof. intros [H1 H2 H3 H4 H5 H6 H7]. by constructor. Qed.

Lemma Inv_errors f s : Inv s -> Inv (s <| errorCount ::= f |>).
Proof. intros [H1 H2 H3 H4 H5 H6 H7]. by constructor. Qed.

Hint Resolve Inv_reset Inv_helo Inv_mail Inv_rcpt Inv_start_data Inv_close Inv_buffer Inv_errors : ion.

Lemma handleCommand_inv line s s' a :
  Inv s -> running s = true -> inData s = false -> handleCommand cfg line s = (s', a) ->
  Inv s' /\ Forall (good_action s) a.
Proof.
  intros HI [Ha Hc]%running_inv Hd. unfold handleCommand.
  repeat case_inner; intros [= <- <-]; (split; [|by repeat constructor]); bool_hyps; eauto with ion;
    first [apply Inv_rcpt; by eauto
          |apply Inv_start_data; [done..|]; intros E'; rewrite E' in *; done].
Qed.

Lemma handleLine_inv line s s' a :
  Inv s -> running s = true -> handleLine cfg line s = (s', a) ->
  Inv s' /\ Forall (good_action s) a.
Proof.
  intros HI Hr. unfold handleLine. destruct (inData s) eqn:Ed.
  - by apply handleDataLine_inv.
  - by apply handleCommand_inv.
Qed.

(** ** What a line can do to the recipients *)

(** An envelope addressed to some of the recipients [rs] of the transaction. *)
Definition deliver_ok (rs : list jsstr) (a : LmtpAction) : Prop :=
  match a with
  | ADeliver env => e_rcptTo env <> [] /\ e_rcptTo env ⊆ rs /\ len (e_raw env) <= maxSizeBytes cfg
  | _ => True
  end.

Lemma handleLine_rcpts line s s' a :
  running s = true -> handleLine cfg line s = (s', a) ->
  rcptTo s' ⊆ rcptTo s /\
  (forall r, pendingRcpt s' = Some r -> verifying a (pendingRcpt s) = Some r).
Proof.
  intros [Ha Hc]%running_inv. unfold handleLine, handleDataLine, handleCommand, resetTransaction.
  repeat case_inner; intros [= <- <-]; cbn; (split; [set_solver|done]).
Qed.

Lemma Loop_inv s a s' :
  Loop s a s' -> Inv s ->
  Inv s' /\ rcptTo s' ⊆ rcptTo s /\ Forall (deliver_ok (rcptTo s)) a /\
  (forall r, pendingRcpt s' = Some r -> verifying a (pendingRcpt s) = Some r).
Proof.
  induction 1 as [s Hr|s Hr Hi Hl|s Hr Hi Hl|s idx s1 a b s2 Hr Hi Hh HL IH]; intros HI.
  - done.
  - done.
  - split; [by apply Inv_buffer|]. split; [done|]. split; [by repeat constructor|done].
  - set (sl := withBuffer (drop (idx + 2) (buffer s)) s) in *.
    assert (Hrl : running sl = true) by exact Hr.
    destruct (handleLine_inv _ sl _ _ (Inv_buffer _ _ HI) Hrl Hh) as [HI1 Hg].
    destruct (handleLine_rcpts _ sl _ _ Hrl Hh) as [Hsub Hpend].
    destruct (IH HI1) as (HI2 & Hsub2 & Hd2 & Hp2).
    change (rcptTo sl) with (rcptTo s) in *. change (pendingRcpt sl) with (pendingRcpt s) in *.
    split; [done|]. split; [set_solver|]. split.
    + apply Forall_app. split.
      * eapply Forall_impl; [exact Hg|]. intros [] H; try done. cbn in *.
        destruct H as (Hne & He & _ & Hlen). split; [done|]. split; [by rewrite He|done].
      * eapply Forall_impl; [exact Hd2|]. intros [] H; try done. cbn in *.
        destruct H as (Hne & Hs & Hlen). split; [done|]. split; [set_solver|done].
    + intros r Hp. rewrite verifying_app. specialize (Hp2 r Hp).
      destruct (pendingRcpt s1) as [r1|] eqn:E1.
      * by rewrite (Hpend r1 eq_refl).
      * by apply verifying_weaken.
Qed.

End EngineFacts.

(** ** Sessions *)

Inductive Event :=
| EvFeed (chunk : bytes)
| EvRcpt (outcome : RcptOutcome)
| EvDeliver (results : list LmtpDelivery).

Definition step (cfg : LmtpConfig) (e : Event) (s : Lmtp) : option (Lmtp * list LmtpAction) :=
  match e with
  | EvFeed chunk => Some (feed cfg chunk s)
  | EvRcpt outcome => rcptResult cfg outcome s
  | EvDeliver results => deliverResult cfg results s
  end.

(** A session: the calls the adapter made with what the engine answered, oldest
    first, and the engine's state after them. *)
Inductive Session (cfg : LmtpConfig) : list (Event * list LmtpAction) -> Lmtp -> Prop :=
| session_start : Session cfg [] initial
| session_step tr s e s' acts :
    Session cfg tr s -> step cfg e s = Some (s', acts) -> Session cfg (tr ++ [(e, acts)]) s'.

(** The recipients the backend accepted, replayed from the trace alone: the
    address under verification is the last one the engine asked about. *)
Definition replay (st : option jsstr * list jsstr) (x : Event * list LmtpAction)
    : option jsstr * list jsstr :=
  let '(pend, acc) := st in
  let acc := match x.1 with EvRcpt RcptOk => acc ++ option_list pend | _ => acc end in
  (verifying x.2 pend, acc).

Definition accepted (tr : list (Event * list LmtpAction)) : list jsstr :=
  snd (fold_left replay tr (None, [])).

Section SessionFacts.
Context (cfg : LmtpConfig) (max_nonneg : 0 <= maxSizeBytes cfg).

(** Where the engine rests between two calls while the connection is open. *)
Record Resting (s : Lmtp) : Prop := {
  rest_errors : errorCount s <= MAX_SMTP_ERRORS_PER_SESSION;
  rest_idle : awaiting s = WNone -> no_crlf (buffer s) /\ len (buffer s) <= MAX_COMMAND_LINE;
  rest_pending : len (buffer s) <= MAX_PIPELINE_PENDING_BYTES
}.

Lemma guardErrors_spec s a s' a' :
  guardErrors (s, a) = (s', a') ->
  (s' = s /\ a' = a /\ closed s = true) \/
  (closed s = false /\ errorCount s + countErrors a <= MAX_SMTP_ERRORS_PER_SESSION /\ a' = a
   /\ s' = s <| errorCount ::= fun n => n + countErrors a |>) \/
  (closed s = false /\ MAX_SMTP_ERRORS_PER_SESSION < errorCount s + countErrors a
   /\ a' = a ++ [reply "421 4.7.0 too many errors, closing connection"; AClose]
   /\ s' = s <| errorCount ::= fun n => n + countErrors a |> <| closed := true |> <| buffer := [] |>).
Proof.
  unfold guardErrors. destruct (closed s) eqn:Ec; [intros [= <- <-]; auto|]. cbn.
  destruct (Z.leb_spec (errorCount s + countErrors a) MAX_SMTP_ERRORS_PER_SESSION);
    intros [= <- <-]; auto 10.
Qed.

(** What a call has established about recipients: [rs] bounds the transaction's
    recipients, [pend] is the address under verification when the call began. *)
Record Post (rs : list jsstr) (pend : option jsstr) (r : Lmtp * list LmtpAction) : Prop := {
  post_inv : Inv cfg r.1;
  post_rcpts : rcptTo r.1 ⊆ rs;
  post_deliver : Forall (deliver_ok cfg rs) r.2;
  post_pending : forall x, pendingRcpt r.1 = Some x -> verifying r.2 pend = Some x
}.

Lemma Post_extend rs pend s s' a extra :
  Post rs pend (s, a) -> Inv cfg s' -> rcptTo s' = rcptTo s -> pendingRcpt s' = pendingRcpt s ->
  Forall (fun x => match x with AReply _ | AClose => True | _ => False end) extra ->
  Post rs pend (s', a ++ extra).
Proof.
  intros [HI Hr Hd Hp] HI' Er Ep Hx. constructor; cbn in *; [done|by rewrite Er| |].
  - apply Forall_app. split; [done|]. eapply Forall_impl; [exact Hx|]. by intros [].
  - intros x. rewrite Ep. intros Hx'. apply Hp in Hx'. rewrite verifying_app, Hx'.
    clear - Hx. induction Hx as [|[] l H Hx IH]; done.
Qed.

Lemma Post_guardPending rs pend r : Post rs pend r -> Post rs pend (guardPending r).
Proof.
  destruct r as [s a]. intros HP. unfold guardPending. case_match; [|done].
  apply (Post_extend rs pend s); [done| |done..|by repeat constructor].
  apply (Inv_close cfg (withBuffer [] s)), Inv_buffer, HP.
Qed.

Lemma Post_guardErrors rs pend r : Post rs pend r -> Post rs pend (guardErrors r).
Proof.
  destruct r as [s a]. intros HP. destruct (guardErrors (s, a)) as [s' a'] eqn:E.
  destruct (guardErrors_spec _ _ _ _ E) as [(-> & -> & _)|[(_ & _ & -> & ->)|(_ & _ & -> & ->)]].
  - done.
  - destruct HP as [HI Hr Hd Hp]. constructor; try done. by apply Inv_errors.
  - apply (Post_extend rs pend s); [done| |done..|by repeat constructor].
    apply (Inv_buffer cfg []), Inv_close, Inv_errors, HP.
Qed.

Lemma Post_pump s rs pre pend :
  Inv cfg s -> rcptTo s ⊆ rs -> Forall (deliver_ok cfg rs) pre ->
  (forall x, pendingRcpt s = Some x -> verifying pre pend = Some x) ->
  Post rs pend (let '(s1, b) := pump cfg s in (s1, pre ++ b)).
Proof.
  intros HI Hr Hd Hp. pose proof (pump_loop cfg s) as HL. destruct (pump cfg s) as [s1 b].
  destruct (Loop_inv cfg max_nonneg _ _ _ HL HI) as (HI1 & Hr1 & Hd1 & Hp1). cbn in *.
  constructor; cbn; [done|set_solver| |].
  - apply Forall_app. split; [done|]. eapply Forall_impl; [exact Hd1|].
    intros [] H; try done. cbn in *. destruct H as (? & ? & ?). repeat split; [done|set_solver|done].
  - intros x Hx. apply Hp1 in Hx. rewrite verifying_app.
    destruct (pendingRcpt s) as [y|]; [by rewrite (Hp y eq_refl)|by apply verifying_weaken].
Qed.

(** The three entry points. *)
Lemma feed_post chunk s :
  Inv cfg s -> Post (rcptTo s) (pendingRcpt s) (feed cfg chunk s).
Proof.
  intros HI. unfold feed. destruct (closed s); [by constructor; cbn; auto|].
  apply Post_guardErrors, Post_guardPending.
  pose proof (Post_pump (s <| buffer ::= fun b => b ++ chunk |>) (rcptTo s) [] (pendingRcpt s)) as HP.
  destruct (pump cfg _). apply HP; auto. by apply (Inv_buffer cfg (buffer s ++ chunk)).
Qed.

Lemma rcptResult_post outcome s r :
  Inv cfg s -> rcptResult cfg outcome s = Some r ->
  Post (rcptTo s ++ match outcome with RcptOk => option_list (pendingRcpt s) | _ => [] end) None r.
Proof.
  intros HI. unfold rcptResult. destruct (awaiting s) eqn:Ea; try done.
  destruct (pendingRcpt s) as [rcpt|] eqn:Ep; [|done].
  assert (Hs0 : Inv cfg (s <| pendingRcpt := None |> <| awaiting := WNone |>)).
  { destruct HI as [H1 H2 H3 H4 H5 H6 H7]. constructor; cbn; try done.
    - pose proof (len_nonneg (option_list (pendingRcpt s))). unfold len at 2. simpl. lia.
    - intros [?|[? ?]]; [eauto|done].
    - intros Hd. by destruct (H5 Hd) as [? ?]. }
  destruct outcome as [|code enhanced message].
  - match goal with |- context [pump cfg ?s1] => set (s1' := s1) end.
    destruct (pump cfg s1') as [s2 b] eqn:E. intros [= <-]. apply Post_guardErrors.
    pose proof (Post_pump s1' (rcptTo s ++ [rcpt]) [reply "250 2.1.5 OK"] None) as HP.
    rewrite E in HP. apply HP; [|done|by repeat constructor|done].
    destruct Hs0 as [H1 H2 H3 H4 H5 H6 H7], HI as [G1 G2 G3 _ _ _ _]. subst s1'.
    constructor; cbn in *; try done.
    + rewrite Ep in G1. rewrite len_app. unfold len at 2 3. unfold len at 2 in G1. simpl in *. lia.
    + intros _. apply G3. rewrite Ep. eauto.
    + intros Hd. destruct (H5 Hd). split; [|done]. by destruct (rcptTo s).
  - match goal with |- context [pump cfg ?s1] => set (s1' := s1) end.
    destruct (pump cfg s1') as [s2 b] eqn:E. intros [= <-]. apply Post_guardErrors.
    pose proof (Post_pump s1' (rcptTo s ++ [])
      [AReply (numToString code ++ [SP] ++ enhanced ++ [SP] ++ message)] None) as HP.
    rewrite E in HP. apply HP; [done| |by repeat constructor|done]. by rewrite app_nil_r.
Qed.

Lemma deliverResult_post results s r :
  Inv cfg s -> deliverResult cfg results s = Some r -> Post [] None r.
Proof.
  intros HI. unfold deliverResult. destruct (awaiting s) eqn:Ea; try done.
  assert (Hs0 : Inv cfg (resetTransaction (s <| awaiting := WNone |>))).
  { destruct HI as [H1 H2 H3 H4 H5 H6 H7]. unfold resetTransaction. constructor; cbn; try done.
    - pose proof (len_nonneg (option_list (pendingRcpt s))). pose proof (len_nonneg (rcptTo s)).
      unfold len at 1 2. simpl. lia.
    - by intros [?|[? ?]]. }
  destruct (pump cfg _) as [s2 b] eqn:E. intros [= <-]. apply Post_guardErrors.
  pose proof (Post_pump (resetTransaction (s <| awaiting := WNone |>)) []
    (deliveryReply results <$> rcptTo s) None) as HP.
  rewrite E in HP. apply HP; [done|done| |done].
  apply Forall_fmap, Forall_true. intros x. unfold deliveryReply. cbn. by destruct (find _ _).
Qed.

Lemma step_post e s r :
  Inv cfg s -> step cfg e s = Some r ->
  Post (rcptTo s ++ match e with EvRcpt RcptOk => option_list (pendingRcpt s) | _ => [] end)
    (match e with EvFeed _ => pendingRcpt s | _ => None end) r.
Proof.
  intros HI. destruct e as [chunk|outcome|results]; cbn.
  - intros [= <-]. rewrite app_nil_r. by apply feed_post.
  - intros H. pose proof (rcptResult_post _ _ _ HI H). by destruct outcome.
  - intros H. destruct (deliverResult_post _ _ _ HI H) as [H1 H2 H3 H4].
    constructor; [done|set_solver| |done]. eapply Forall_impl; [exact H3|].
    intros [] Hx; try done. cbn in *. destruct Hx as (Hne & Hs & _). exfalso. apply Hne.
    destruct (e_rcptTo env); [done|]. set_solver.
Qed.

Lemma Inv_initial : Inv cfg initial.
Proof.
  constructor; cbn; try done.
  by intros [?|[? ?]].
Qed.

(** The replay of the trace follows the engine's own fields. *)
Lemma Session_inv tr s :
  Session cfg tr s ->
  Inv cfg s /\ rcptTo s ⊆ accepted tr /\
  (forall x, pendingRcpt s = Some x -> fst (fold_left replay tr (None, [])) = Some x).
Proof.
  induction 1 as [|tr s e s' acts HS (HI & Hr & Hp) Hstep].
  { split; [apply Inv_initial|]. split; [done|by cbn]. }
  destruct (step_post _ _ _ HI Hstep) as [HI' Hr' _ Hp']. cbn in HI', Hr', Hp'.
  unfold accepted in *. rewrite fold_left_app. cbn.
  destruct (fold_left replay tr (None, [])) as [pend acc]. cbn in *.
  split; [done|]. split.
  - intros x Hx. specialize (Hr' x Hx). apply elem_of_app in Hr' as [Hin|Hin].
    + apply Hr in Hin. destruct e as [|[]|]; rewrite ?elem_of_app; auto.
    + destruct e as [|[]|]; cbn in *; try (by apply elem_of_nil in Hin).
      apply elem_of_app. right. destruct (pendingRcpt s) as [y|]; [|by apply elem_of_nil in Hin].
      by rewrite (Hp y eq_refl).
  - intros x Hx. apply Hp' in Hx. destruct e as [chunk|o|rs]; cbn in *.
    + destruct (pendingRcpt s) as [y|]; [by rewrite (Hp y eq_refl)|by apply verifying_weaken].
    + by apply verifying_weaken.
    + by apply verifying_weaken.
Qed.

(** ** Bounds between two calls *)

Lemma Loop_closed s a s' : Loop cfg s a s' -> closed s = true -> s' = s.
Proof.
  intros HL Hc. assert (Hr : running s = false)
    by (unfold running; rewrite Hc; by destruct (awaiting s)).
  inversion HL; subst; congruence.
Qed.

Lemma Resting_guard s0 b s1 a s' a' :
  Loop cfg s0 b s1 -> (awaiting s1 <> WNone -> len (buffer s1) <= MAX_PIPELINE_PENDING_BYTES) ->
  guardErrors (s1, a) = (s', a') -> closed s' = false -> Resting s'.
Proof.
  intros HL Hlen HE Hc.
  destruct (guardErrors_spec _ _ _ _ HE) as [(-> & _ & ?)|[(Ec & He & _ & ->)|(_ & _ & _ & ->)]];
    [congruence| |done].
  assert (Hidle : awaiting s1 = WNone -> no_crlf (buffer s1) /\ len (buffer s1) <= MAX_COMMAND_LINE).
  { intros Ha. apply (Loop_rest cfg _ _ _ HL). unfold running. by rewrite Ha, Ec. }
  constructor; cbn; [done|done|].
  destruct (awaiting s1) eqn:Ea; [destruct Hidle as [_ ?]|apply Hlen..]; try done.
  unfold MAX_COMMAND_LINE, MAX_PIPELINE_PENDING_BYTES in *. lia.
Qed.

Lemma step_resting e s s' acts :
  (closed s = false -> Resting s) -> step cfg e s = Some (s', acts) ->
  closed s' = false -> Resting s'.
Proof.
  intros HR Hstep Hc. destruct e as [chunk|outcome|results]; cbn in Hstep.
  - injection Hstep as Hf. unfold feed in Hf. destruct (closed s) eqn:Ec; [congruence|].
    pose proof (pump_loop cfg (s <| buffer ::= fun b => b ++ chunk |>)) as HL.
    destruct (pump cfg _) as [s1 b]. cbn in HL.
    destruct (guardPending (s1, b)) as [s1' b'] eqn:Eg. unfold guardPending in Eg.
    destruct (negb (closed s1) && _ && _) eqn:Econd.
    + injection Eg as <- <-. destruct (guardErrors_spec _ _ _ _ Hf) as [(-> & _)|[(? & _)|(? & _)]]; done.
    + injection Eg as <- <-. eapply Resting_guard; [exact HL| |exact Hf|done].
      intros Ha. destruct (guardErrors_spec _ _ _ _ Hf) as [(-> & _ & ?)|[(Ec1 & _)|(_ & _ & _ & ->)]];
        [congruence| |done].
      rewrite Ec1 in Econd. destruct (awaiting s1); [done|..]; cbn in Econd; bool_hyps; lia.
  - unfold rcptResult in Hstep. destruct (awaiting s); try done.
    destruct (pendingRcpt s) as [rcpt|]; [|done].
    assert (Hgen : forall s0 pre, closed s0 = closed s -> buffer s0 = buffer s ->
      guardErrors (let '(s1, b) := pump cfg s0 in (s1, pre ++ b)) = (s', acts) -> Resting s').
    { intros s0 pre Ec0 Eb0 Hg. pose proof (pump_loop cfg s0) as HL.
      destruct (pump cfg s0) as [s1 b]. cbn in *. eapply Resting_guard; [exact HL| |exact Hg|done].
      intros _. assert (Hcs : closed s = false).
      { destruct (closed s) eqn:E; [|done]. apply Loop_closed in HL as ->; [|done].
        destruct (guardErrors_spec _ _ _ _ Hg) as [(-> & _)|[(? & _)|(? & _)]]; congruence. }
      pose proof (Loop_buffer_le cfg _ _ _ HL) as Hle. rewrite Eb0 in Hle.
      destruct (HR Hcs). lia. }
    destruct outcome as [|code enhanced message];
      (match type of Hstep with context [pump cfg ?s0] => set (s0' := s0) in * end);
      [apply (Hgen s0' [reply "250 2.1.5 OK"])
      |apply (Hgen s0' [AReply (numToString code ++ [SP] ++ enhanced ++ [SP] ++ message)])];
      try done; destruct (pump cfg s0'); by injection Hstep.
  - unfold deliverResult in Hstep. destruct (awaiting s); try done.
    set (s0 := resetTransaction (s <| awaiting := WNone |>)) in *.
    pose proof (pump_loop cfg s0) as HL. destruct (pump cfg s0) as [s1 b]. cbn in *.
    injection Hstep as Hg. eapply Resting_guard; [exact HL| |exact Hg|done].
    intros _. assert (Hcs : closed s = false).
    { destruct (closed s) eqn:E; [|done]. apply Loop_closed in HL as ->; [|done].
      destruct (guardErrors_spec _ _ _ _ Hg) as [(-> & _)|[(Hx & _)|(Hx & _)]]; [|cbn in Hx; congruence..].
      cbn in Hc. congruence. }
    pose proof (Loop_buffer_le cfg _ _ _ HL) as Hle. cbn in Hle. destruct (HR Hcs). lia.
Qed.

Lemma Session_resting tr s : Session cfg tr s -> closed s = false -> Resting s.
Proof.
  induction 1 as [|tr s e s' acts HS IH Hstep]; [|by eapply step_resting].
  intros _. constructor; cbn; [done|done|done].
Qed.

End SessionFacts.


(** ** Segmentation: how the bytes are cut into chunks does not matter *)

Section Segmentation.
Context (cfg : LmtpConfig).

Definition withErrors (n : Z) (s : Lmtp) : Lmtp := s <| errorCount := n |>.
Definition appendBuffer (c : bytes) (s : Lmtp) : Lmtp := s <| buffer ::= fun b => b ++ c |>.

Lemma handleLine_errors line n s :
  handleLine cfg line (withErrors n s) =
  (withErrors n (fst (handleLine cfg line s)), snd (handleLine cfg line s)).
Proof.
  destruct s. unfold handleLine, handleDataLine, handleCommand, resetTransaction, withErrors. cbn.
  repeat (case_inner; cbn; try reflexivity).
Qed.

Lemma handleLine_errorCount line s : errorCount (fst (handleLine cfg line s)) = errorCount s.
Proof.
  destruct s. unfold handleLine, handleDataLine, handleCommand, resetTransaction. cbn.
  repeat (case_inner; cbn; try reflexivity).
Qed.

Lemma Loop_errors n s a s' : Loop cfg s a s' -> Loop cfg (withErrors n s) a (withErrors n s').
Proof.
  induction 1 as [s Hr|s Hr Hi Hl|s Hr Hi Hl|s idx s1 a b s2 Hr Hi Hh HL IH].
  - by apply loop_stop.
  - by apply loop_wait.
  - by apply (loop_long cfg (withErrors n s)).
  - eapply (loop_line cfg (withErrors n s)); [done|exact Hi| |exact IH].
    pose proof (handleLine_errors (take idx (buffer s)) n (withBuffer (drop (idx + 2) (buffer s)) s)) as E.
    rewrite Hh in E. exact E.
Qed.

Lemma Loop_errorCount s a s' : Loop cfg s a s' -> errorCount s' = errorCount s.
Proof.
  induction 1 as [| | |s idx s1 a b s2 Hr Hi Hh HL IH]; try done. rewrite IH.
  pose proof (handleLine_errorCount (take idx (buffer s)) (withBuffer (drop (idx + 2) (buffer s)) s)) as E.
  rewrite Hh in E. exact E.
Qed.

Definition too_long : LmtpAction := reply "500 5.5.2 line too long".

(** A run that did not drop an over-long line can be continued with more input. *)
Lemma Loop_append c s a s1 b s2 :
  Loop cfg s a s1 -> too_long ∉ a -> Loop cfg (appendBuffer c s1) b s2 ->
  Loop cfg (appendBuffer c s) (a ++ b) s2.
Proof.
  induction 1 as [s Hr|s Hr Hi Hl|s Hr Hi Hl|s idx s1 a b' s1' Hr Hi Hh HL IH]; intros Hn H2.
  - done.
  - done.
  - exfalso. apply Hn. by left.
  - rewrite <- app_assoc.
    pose proof (handleLine_buffer cfg (take idx (buffer s)) (withBuffer (drop (idx + 2) (buffer s)) s)) as Hb.
    rewrite Hh in Hb. cbn in Hb. apply indexOfCRLF_lt in Hi as Hlt.
    eapply (loop_line cfg (appendBuffer c s) idx (appendBuffer c s1)).
    + done.
    + by apply indexOfCRLF_app_l.
    + cbn. rewrite take_app_le, drop_app_le by lia.
      pose proof (handleLine_frame cfg (take idx (buffer s)) (drop (idx + 2) (buffer s) ++ c)
        (withBuffer (drop (idx + 2) (buffer s)) s)) as E.
      rewrite Hh in E. change (withBuffer ?x (withBuffer _ s)) with (withBuffer x s) in E.
      change (withBuffer ?x (appendBuffer c s)) with (withBuffer x s). rewrite E. cbn [fst snd].
      f_equal. unfold appendBuffer, withBuffer. rewrite <- Hb. by destruct s1.
    + apply IH; [|done]. set_solver.
Qed.

Lemma countErrors_app a b : countErrors (a ++ b) = countErrors a + countErrors b.
Proof. unfold countErrors. by rewrite filter_app, len_app. Qed.

Lemma countErrors_nonneg a : 0 <= countErrors a.
Proof. apply len_nonneg. Qed.

(** What an open connection shows about the guards that were passed. *)
Lemma feed_open c s s' acts :
  feed cfg c s = (s', acts) -> closed s' = false ->
  exists s1, Loop cfg (appendBuffer c s) acts s1 /\ closed s1 = false /\
    (awaiting s1 <> WNone -> len (buffer s1) <= MAX_PIPELINE_PENDING_BYTES) /\
    errorCount s + countErrors acts <= MAX_SMTP_ERRORS_PER_SESSION /\
    s' = withErrors (errorCount s + countErrors acts) s1.
Proof.
  unfold feed. destruct (closed s) eqn:Ec; [congruence|].
  pose proof (pump_loop cfg (appendBuffer c s)) as HL.
  change (s <| buffer ::= _ |>) with (appendBuffer c s).
  destruct (pump cfg (appendBuffer c s)) as [s1 a]. cbn in HL. unfold guardPending.
  destruct (negb (closed s1) && _ && _) eqn:Eg; intros HE Hc.
  - destruct (guardErrors_spec _ _ _ _ HE) as [(-> & _ & ?)|[(? & _)|(? & _)]]; done.
  - destruct (guardErrors_spec _ _ _ _ HE) as [(-> & _ & ?)|[(E1 & He & -> & ->)|(_ & _ & _ & ->)]];
      [congruence| |done].
    apply Loop_errorCount in HL as En. cbn in En. exists s1.
    repeat split; try done; [|by rewrite <- En|by rewrite <- En].
    intros Ha. rewrite E1 in Eg. destruct (awaiting s1); [done|..]; cbn in Eg; bool_hyps; lia.
Qed.

Lemma feed_from_loop c s acts s1 :
  closed s = false -> Loop cfg (appendBuffer c s) acts s1 -> closed s1 = false ->
  (awaiting s1 <> WNone -> len (buffer s1) <= MAX_PIPELINE_PENDING_BYTES) ->
  errorCount s + countErrors acts <= MAX_SMTP_ERRORS_PER_SESSION ->
  feed cfg c s = (withErrors (errorCount s + countErrors acts) s1, acts).
Proof.
  intros Hc HL Hc1 Hp He. unfold feed. rewrite Hc.
  change (s <| buffer ::= _ |>) with (appendBuffer c s). rewrite (loop_pump cfg _ _ _ HL).
  unfold guardPending. rewrite Hc1. cbn [negb andb].
  assert (Eg : (match awaiting s1 with WNone => false | _ => true end
                && (MAX_PIPELINE_PENDING_BYTES <? len (buffer s1))) = false).
  { destruct (awaiting s1); [done|..]; cbn; apply Z.ltb_ge, Hp; done. }
  rewrite Eg. unfold guardErrors. rewrite Hc1. cbn.
  apply Loop_errorCount in HL as En. cbn in En. rewrite En.
  rewrite (proj2 (Z.leb_le _ _) He). unfold withErrors. by rewrite <- En.
Qed.

Lemma Loop_total s : exists a s', Loop cfg s a s'.
Proof. eexists _, _. apply pump_loop. Qed.

Lemma Loop_append_split c s a s1 b s2 :
  Loop cfg s a s1 -> too_long ∉ a -> Loop cfg (appendBuffer c s) b s2 ->
  exists b', b = a ++ b' /\ Loop cfg (appendBuffer c s1) b' s2.
Proof.
  intros H1 Hn H2. destruct (Loop_total (appendBuffer c s1)) as (b' & s2' & H3).
  destruct (Loop_det cfg _ _ _ _ _ H2 (Loop_append _ _ _ _ _ _ H1 Hn H3)) as [-> ->]. eauto.
Qed.
End Segmentation.

(** ** DATA transparency *)

Section Data.
Context (cfg : LmtpConfig).

(** The fields a client cannot influence while the message body is read. *)
Definition withData (ls : list jsstr) (o : bool) (s : Lmtp) : Lmtp :=
  s <| dataLines := ls |> <| dataOverflow := o |>.

Lemma handleLine_data l s :
  inData s = true ->
  handleLine cfg (stuffLine l) s =
  (withData (dataLines s ++ [l])
     (dataOverflow s || (maxSizeBytes cfg <? dataTotal (dataLines s ++ [l]))) s, []).
Proof.
  intros Hd. unfold handleLine, handleDataLine. rewrite Hd.
  change (js ".") with [DOT]. change (js "..") with [DOT; DOT].
  rewrite (proj2 (seqb_neq _ _) (stuffLine_not_dot l)).
  rewrite unstuff_stuffLine.
  unfold withData. destruct s. cbn. by destruct (_ <? _), dataOverflow0.
Qed.

Lemma dataTotal_nonneg ls : 0 <= dataTotal ls.
Proof. rewrite <- raw_size. apply len_nonneg. Qed.

(** The loop reads the whole body, up to its terminator. *)
Lemma Loop_body ls rest s a s' :
  running s = true -> inData s = true -> Forall no_crlf ls ->
  dataOverflow s = (maxSizeBytes cfg <? dataTotal (dataLines s)) ->
  Loop cfg (withBuffer ([DOT] ++ crlf ++ rest)
    (withData (dataLines s ++ ls) (maxSizeBytes cfg <? dataTotal (dataLines s ++ ls)) s)) a s' ->
  Loop cfg (withBuffer (stuffedBody ls ++ rest) s) a s'.
Proof.
  intros Hr Hd Hls. revert s Hr Hd. induction Hls as [|l ls Hl Hls IH]; intros s Hr Hd Ho HL.
  - rewrite app_nil_r, <- Ho in HL. by destruct s.
  - change a with ([] ++ a).
    apply (loop_line cfg _ (length (stuffLine l))
             (withBuffer (stuffedBody ls ++ rest)
               (withData (dataLines s ++ [l])
                  (dataOverflow s || (maxSizeBytes cfg <? dataTotal (dataLines s ++ [l]))) s))); [done|..].
    + cbn [buffer withBuffer]. cbn. rewrite stuffedBody_cons. by apply indexOfCRLF_line, stuffLine_no_crlf.
    + cbn. rewrite stuffedBody_cons, take_line, drop_line.
      change (withBuffer ?b (withBuffer _ s)) with (withBuffer b s).
      by rewrite handleLine_frame, handleLine_data.
    + apply IH; [done|done| |].
      * cbn. destruct (dataOverflow s) eqn:Eo; [|done]. cbn.
        symmetry in Ho |- *. bool_hyps. apply Z.ltb_lt. rewrite dataTotal_app.
        pose proof (dataTotal_nonneg [l]). lia.
      * cbn. rewrite <- app_assoc. cbn. exact HL.
Qed.

Definition envelope (s : Lmtp) : LmtpDeliverEnv :=
  {| e_mailFrom := default [] (mailFrom s); e_lhloName := lhloName s;
     e_clientIp := clientIp cfg; e_rcptTo := rcptTo s; e_raw := bodyOf (dataLines s) |}.

(** The terminator, with nothing pipelined after it. *)
Lemma Loop_terminator s :
  running s = true -> inData s = true ->
  if dataOverflow s
  then Loop cfg (withBuffer ([DOT] ++ crlf) s) [reply "552 5.3.4 message too large"]
         (withBuffer [] (resetTransaction s))
  else Loop cfg (withBuffer ([DOT] ++ crlf) s) [ADeliver (envelope s)]
         (withBuffer [] (s <| inData := false |> <| awaiting := WDeliver |>)).
Proof.
  intros Hr Hd. apply running_inv in Hr as [Ha Hc].
  assert (Hl : handleLine cfg [DOT] (withBuffer [] s) = handleDataLine cfg [DOT] (withBuffer [] s))
    by (unfold handleLine; cbn; by rewrite Hd).
  unfold handleDataLine in Hl. change (js ".") with [DOT] in Hl. rewrite seqb_refl in Hl. cbn in Hl.
  destruct (dataOverflow s) eqn:Eo.
  - change [reply "552 5.3.4 message too large"] with ([reply "552 5.3.4 message too large"] ++ []).
    eapply loop_line; [unfold running; cbn; by rewrite Ha, Hc|done|exact Hl|].
    apply loop_wait; [unfold running; cbn; by rewrite Ha, Hc|done|done].
  - change [ADeliver (envelope s)] with ([ADeliver (envelope s)] ++ []).
    eapply loop_line; [unfold running; cbn; by rewrite Ha, Hc|done| |].
    + etransitivity; [exact Hl|]. unfold envelope, bodyOf. by rewrite <- raw_lines.
    + by apply loop_stop.
Qed.
End Data.

(** ** Properties *)

Section Properties.
Context (cfg : LmtpConfig).

(** The command loop terminates and is the one of the source: for every state the
    executable [pump] produces the unique result of the [while] loop's big-step
    relation, which has no bound on the number of iterations. *)
Theorem lmtp_pump_total s :
  Loop cfg s (snd (pump cfg s)) (fst (pump cfg s)) /\
  (forall a s', Loop cfg s a s' -> pump cfg s = (s', a)).
Proof. split; [apply pump_loop|apply loop_pump]. Qed.

(** Invariant of every LMTP session, whatever the client sends and however the
    backend answers: the recipient counter bounds the recipients and stays within the
    session limit (RSET does not reset it), recipients exist only after LHLO and MAIL,
    DATA and a delivery only with recipients; and while the connection is open the
    error counter is within its limit, the buffer is bounded, and outside a backend
    call it holds no complete line. *)
Theorem lmtp_session_invariant tr s :
  0 <= maxSizeBytes cfg -> Session cfg tr s ->
  Inv cfg s /\ (closed s = false -> Resting s).
Proof.
  intros Hm HS. split; [by apply (Session_inv cfg Hm tr)|].
  by apply (Session_resting cfg tr).
Qed.

(** C5: A message is handed to the backend only for recipients the backend itself
    accepted in this session, never for none, and never above the advertised size. *)
Theorem lmtp_deliver_safe tr s e s' acts env :
  0 <= maxSizeBytes cfg -> Session cfg tr s -> step cfg e s = Some (s', acts) ->
  ADeliver env ∈ acts ->
  e_rcptTo env <> [] /\ e_rcptTo env ⊆ accepted (tr ++ [(e, acts)]) /\
  len (e_raw env) <= maxSizeBytes cfg.
Proof.
  intros Hm HS Hstep Hin. destruct (Session_inv cfg Hm _ _ HS) as (HI & Hr & Hp).
  destruct (step_post cfg Hm _ _ _ HI Hstep) as [_ _ Hd _].
  rewrite Forall_forall in Hd. destruct (Hd _ Hin) as (Hne & Hsub & Hlen).
  split; [done|]. split; [|done]. unfold accepted in *. rewrite fold_left_app. cbn.
  destruct (fold_left replay tr (None, [])) as [pend acc]. cbn in *.
  intros x Hx. specialize (Hsub x Hx). apply elem_of_app in Hsub as [H|H].
  - apply Hr in H. destruct e as [|[]|]; cbn; set_solver.
  - destruct e as [|[]|]; cbn in H; try (by apply elem_of_nil in H).
    destruct (pendingRcpt s) as [y|]; [|by apply elem_of_nil in H].
    rewrite (Hp y eq_refl). set_solver.
Qed.

(** After a delivery every recipient of the transaction gets exactly one reply, in
    RCPT order and before anything else is answered; a recipient the backend gave no
    result for gets a temporary failure, never a success; the transaction is reset
    before the next pipelined line is read. *)
Theorem lmtp_deliverResult_replies results s :
  awaiting s = WDeliver ->
  exists guard,
    snd <$> deliverResult cfg results s
      = Some ((deliveryReply results <$> rcptTo s)
              ++ snd (pump cfg (resetTransaction (s <| awaiting := WNone |>))) ++ guard) /\
    (guard = [] \/ guard = [reply "421 4.7.0 too many errors, closing connection"; AClose]) /\
    (forall r, (forall x, x ∈ results -> d_rcpt x <> r) ->
       deliveryReply results r = reply "451 4.3.0 no delivery result").
Proof.
  intros Ha. unfold deliverResult. rewrite Ha.
  set (s0 := resetTransaction _). destruct (pump cfg s0) as [s1 b]. cbn [fst snd] in *.
  assert (Hmiss : forall r, (forall x, x ∈ results -> d_rcpt x <> r) ->
       deliveryReply results r = reply "451 4.3.0 no delivery result").
  { intros r Hx. unfold deliveryReply. destruct (find _ results) as [x|] eqn:E; [|done].
    apply find_some in E as [Hin Heq%seqb_eq]. by apply Hx in Heq; [|apply list_elem_of_In]. }
  destruct (guardErrors _) as [s' a'] eqn:E.
  destruct (guardErrors_spec _ _ _ _ E) as [(-> & -> & _)|[(_ & _ & -> & ->)|(_ & _ & -> & ->)]].
  - exists []. rewrite app_nil_r. auto.
  - exists []. rewrite app_nil_r. auto.
  - eexists. rewrite <- app_assoc. auto.
Qed.

(** The replies do not depend on how the network cuts the byte stream: feeding two
    chunks gives the same actions and the same state as feeding their concatenation,
    as long as the connection stays open and no over-long partial line was dropped
    at the cut. *)
Theorem lmtp_feed_segmentation c1 c2 s :
  closed (fst (feed cfg (c1 ++ c2) s)) = false ->
  reply "500 5.5.2 line too long" ∉ snd (feed cfg c1 s) ->
  feed cfg (c1 ++ c2) s =
  (let '(s1, a1) := feed cfg c1 s in let '(s2, a2) := feed cfg c2 s1 in (s2, a1 ++ a2)).
Proof.
  destruct (feed cfg (c1 ++ c2) s) as [s' acts] eqn:E12. cbn [fst]. intros Hc Hn.
  destruct (feed_open cfg _ _ _ _ E12 Hc) as (s3 & HL & Hc3 & Hp3 & He3 & ->).
  assert (Hcs : closed s = false).
  { destruct (closed s) eqn:E; [|done]. unfold feed in E12. rewrite E in E12. congruence. }
  pose proof (pump_loop cfg (appendBuffer c1 s)) as H1.
  destruct (pump cfg (appendBuffer c1 s)) as [s1 a1] eqn:Ep. cbn [fst snd] in H1.
  assert (Hn1 : too_long ∉ a1).
  { intros Hin. apply Hn. unfold feed. rewrite Hcs.
    change (s <| buffer ::= _ |>) with (appendBuffer c1 s). rewrite Ep.
    assert (Hmono : forall r, too_long ∈ snd r -> too_long ∈ snd (guardErrors r)).
    { intros [x l] Hl. unfold guardErrors. repeat case_match; cbn in *; set_solver. }
    apply Hmono. unfold guardPending. repeat case_match; cbn; set_solver. }
  assert (Happ : appendBuffer (c1 ++ c2) s = appendBuffer c2 (appendBuffer c1 s)).
  { change (withBuffer (buffer s ++ c1 ++ c2) s = withBuffer ((buffer s ++ c1) ++ c2) s).
    by rewrite app_assoc. }
  rewrite Happ in HL. destruct (Loop_append_split cfg _ _ _ _ _ _ H1 Hn1 HL) as (a2 & -> & H2).
  rewrite countErrors_app in He3. pose proof (countErrors_nonneg a1). pose proof (countErrors_nonneg a2).
  assert (Hc1 : closed s1 = false).
  { destruct (closed s1) eqn:E; [|done]. apply (Loop_closed cfg) in H2; [|done]. subst s3.
    cbn in Hc3. congruence. }
  rewrite (feed_from_loop cfg c1 s a1 s1); [|done|done|done| |lia].
  - assert (Hce : errorCount (withErrors (errorCount s + countErrors a1) s1)
                  = errorCount s + countErrors a1) by done.
    rewrite (feed_from_loop cfg c2 _ a2 (withErrors (errorCount s + countErrors a1) s3)); try done.
    + rewrite Hce, countErrors_app. unfold withErrors. cbn. by rewrite Z.add_assoc.
    + by apply (Loop_errors cfg (errorCount s + countErrors a1)) in H2.
    + rewrite Hce. lia.
  - intros Ha. inversion H2; subst; cbn in *.
    + rewrite len_app in Hp3. specialize (Hp3 Ha). pose proof (len_nonneg c2). lia.
    + unfold running in *. cbn in *. by destruct (awaiting s1).
    + unfold running in *. cbn in *. by destruct (awaiting s1).
    + unfold running in *. cbn in *. by destruct (awaiting s1).
Qed.

(** DATA transparency: a dot-stuffed message sent with its terminator is delivered
    byte for byte, to the transaction's recipients and from its sender, when it is
    within the size limit; otherwise it is refused with 552, nothing is delivered and
    the transaction is reset. *)
Theorem lmtp_data_roundtrip ls s :
  closed s = false -> awaiting s = WNone -> inData s = true -> buffer s = [] ->
  dataLines s = [] -> dataOverflow s = false -> 0 <= maxSizeBytes cfg ->
  errorCount s < MAX_SMTP_ERRORS_PER_SESSION -> Forall no_crlf ls ->
  feed cfg (stuffedBody ls) s =
  if len (bodyOf ls) <=? maxSizeBytes cfg then
    (s <| inData := false |> <| awaiting := WDeliver |> <| dataLines := ls |>,
     [ADeliver {| e_mailFrom := default [] (mailFrom s); e_lhloName := lhloName s;
                  e_clientIp := clientIp cfg; e_rcptTo := rcptTo s; e_raw := bodyOf ls |}])
  else ((resetTransaction s) <| errorCount ::= Z.add 1 |>, [reply "552 5.3.4 message too large"]).
Proof.
  intros Hc Ha Hd Hb Hdl Hdo Hm He Hls.
  assert (Hr : running s = true) by (unfold running; by rewrite Ha, Hc).
  assert (Hlen : len (bodyOf ls) = dataTotal ls) by (unfold bodyOf; by rewrite <- raw_lines, raw_size).
  assert (Happ : appendBuffer (stuffedBody ls) s = withBuffer (stuffedBody ls ++ []) s).
  { unfold appendBuffer, withBuffer. rewrite app_nil_r. destruct s. cbn in *. by subst. }
  assert (Ho : false = (maxSizeBytes cfg <? dataTotal [])) by (symmetry; by apply Z.ltb_ge).
  pose proof (fun a s' => Loop_body cfg ls [] s a s' Hr Hd Hls) as HB.
  rewrite Hdl, Hdo in HB. cbn [app] in HB. rewrite <- Hlen, <- Happ in HB.
  pose proof (Loop_terminator cfg (withData ls (maxSizeBytes cfg <? len (bodyOf ls)) s) Hr Hd) as HT.
  cbn [dataOverflow withData] in HT. cbn in HT. rewrite Z.leb_antisym.
  destruct (maxSizeBytes cfg <? len (bodyOf ls)); cbn [negb].
  - rewrite (feed_from_loop cfg _ _ _ _ Hc (HB _ _ Ho HT)); cbn; try done.
    + change (countErrors _) with 1. rewrite Z.add_comm. unfold withErrors, resetTransaction.
      destruct s. cbn in *. by subst.
    + change (countErrors _) with 1. lia.
  - rewrite (feed_from_loop cfg _ _ _ _ Hc (HB _ _ Ho HT)); cbn; try done.
    + change (countErrors _) with 0. rewrite Z.add_0_r. unfold withErrors, withData.
      destruct s. cbn in *. by subst.
    + change (countErrors _) with 0. lia.
Qed.

(** An over-long line inside DATA breaks transparency: once a partial line exceeds
    the command-line limit the engine drops it, answers 500 in the middle of the
    message, and takes the rest of that same line for a new one; a line ending in a
    dot then terminates the message, which is delivered without the line. *)
Theorem lmtp_data_long_line_desync p s :
  closed s = false -> awaiting s = WNone -> inData s = true -> buffer s = [] ->
  dataOverflow s = false -> errorCount s < MAX_SMTP_ERRORS_PER_SESSION ->
  no_crlf p -> MAX_COMMAND_LINE < len p ->
  snd (feed cfg p s) = [reply "500 5.5.2 line too long"] /\
  snd (feed cfg (js "." ++ crlf) (fst (feed cfg p s))) = [ADeliver (envelope cfg s)].
Proof.
  intros Hc Ha Hd Hb Hdo He Hp Hl.
  assert (Hr : running s = true) by (unfold running; by rewrite Ha, Hc).
  assert (H1 : Loop cfg (appendBuffer p s) [reply "500 5.5.2 line too long"] (withBuffer [] (appendBuffer p s))).
  { apply loop_long; [done|..]; cbn; by rewrite Hb. }
  rewrite (feed_from_loop cfg _ _ _ _ Hc H1); [|done|done|]; cycle 1.
  { change (countErrors _) with 1. lia. }
  split; [done|]. set (n := errorCount s + _). cbn [fst].
  pose proof (Loop_terminator cfg (withErrors n s) Hr Hd) as HT.
  change (dataOverflow (withErrors n s)) with (dataOverflow s) in HT. rewrite Hdo in HT.
  assert (Happ : appendBuffer (js "." ++ crlf) (withErrors n (withBuffer [] (appendBuffer p s)))
                 = withBuffer ([DOT] ++ crlf) (withErrors n s)) by (by destruct s).
  rewrite <- Happ in HT. erewrite feed_from_loop; [|exact Hc|exact HT|done|done|]; [done|].
  change (errorCount _ + countErrors _) with (errorCount s + 1 + 0). lia.
Qed.
End Properties.

(** ** A scripted session, on which the hypotheses above hold *)

Fixpoint run (cfg : LmtpConfig) (evs : list Event) (tr : list (Event * list LmtpAction)) (s : Lmtp)
    : option (list (Event * list LmtpAction) * Lmtp) :=
  match evs with
  | [] => Some (tr, s)
  | e :: evs =>
      match step cfg e s with
      | Some (s', acts) => run cfg evs (tr ++ [(e, acts)]) s'
      | None => None
      end
  end.

Lemma run_session cfg evs tr s tr' s' :
  Session cfg tr s -> run cfg evs tr s = Some (tr', s') -> Session cfg tr' s'.
Proof.
  revert tr s; induction evs as [|e evs IH]; intros tr s HS; cbn; [by intros [= <- <-]|].
  destruct (step cfg e s) as [[s1 acts]|] eqn:E; [|done].
  intros H. eapply IH; [|exact H]. by eapply session_step.
Qed.

Definition cfg0 : LmtpConfig := {| hostname := js "mx"; clientIp := js "127.0.0.1"; maxSizeBytes := 100 |}.

Definition line (s : string) : bytes := js s ++ crlf.

Definition script0 : list Event :=
  [EvFeed (line "LHLO c" ++ line "MAIL FROM:<a@x>" ++ js "RCPT TO:"); EvFeed (line "<b@y>" ++ js "DA");
   EvRcpt RcptOk; EvFeed (line "TA")].

Definition session0 : list (Event * list LmtpAction) * Lmtp :=
  default ([], initial) (run cfg0 script0 [] initial).

Lemma session0_ok : Session cfg0 session0.1 session0.2.
Proof.
  apply (run_session cfg0 script0 [] initial); [constructor|]. by vm_compute.
Qed.

Lemma lmtp_session_invariant_witness : Inv cfg0 session0.2 /\ (closed session0.2 = false -> Resting session0.2).
Proof. apply (lmtp_session_invariant cfg0 session0.1 session0.2); [done|apply session0_ok]. Defined.

Definition env0 : LmtpDeliverEnv :=
  {| e_mailFrom := js "a@x"; e_lhloName := js "c"; e_clientIp := js "127.0.0.1";
     e_rcptTo := [js "b@y"]; e_raw := line "hi" |}.

Lemma lmtp_deliver_safe_witness :
  e_rcptTo env0 <> [] /\ e_rcptTo env0 ⊆ [js "b@y"] /\ len (e_raw env0) <= maxSizeBytes cfg0.
Proof.
  apply (lmtp_deliver_safe cfg0 session0.1 session0.2 (EvFeed (line "hi" ++ line "."))
    (fst (feed cfg0 (line "hi" ++ line ".") session0.2))
    [ADeliver env0] env0); [done|apply session0_ok|by vm_compute|set_solver].
Defined.

Lemma lmtp_deliverResult_replies_witness :
  exists guard,
    snd <$> deliverResult cfg0 [] (fst (feed cfg0 (line ".") session0.2))
      = Some ([reply "451 4.3.0 no delivery result"] ++ [] ++ guard) /\
    (guard = [] \/ guard = [reply "421 4.7.0 too many errors, closing connection"; AClose]) /\
    (forall r, (forall x, x ∈ [] -> d_rcpt x <> r) ->
       deliveryReply [] r = reply "451 4.3.0 no delivery result").
Proof.
  apply (lmtp_deliverResult_replies cfg0 [] (fst (feed cfg0 (line ".") session0.2))). by vm_compute.
Defined.

Lemma lmtp_feed_segmentation_witness :
  feed cfg0 (js "li" ++ line "ne") session0.2 =
  (let '(s1, a1) := feed cfg0 (js "li") session0.2 in
   let '(s2, a2) := feed cfg0 (line "ne") s1 in (s2, a1 ++ a2)).
Proof.
  apply (lmtp_feed_segmentation cfg0 (js "li") (line "ne") session0.2); [by vm_compute|].
  replace (snd (feed cfg0 (js "li") session0.2)) with (@nil LmtpAction) by (by vm_compute).
  apply not_elem_of_nil.
Defined.

Lemma lmtp_data_roundtrip_witness :
  snd (feed cfg0 (stuffedBody [js ".hi"; js "x"]) session0.2)
    = [ADeliver (envelope cfg0 (session0.2 <| dataLines := [js ".hi"; js "x"] |>))].
Proof.
  rewrite (lmtp_data_roundtrip cfg0 [js ".hi"; js "x"] session0.2); [by vm_compute|by vm_compute..|].
  by repeat constructor.
Defined.

Lemma lmtp_data_long_line_desync_witness :
  snd (feed cfg0 (replicate 4097 65) session0.2) = [reply "500 5.5.2 line too long"] /\
  snd (feed cfg0 (js "." ++ crlf) (fst (feed cfg0 (replicate 4097 65) session0.2)))
    = [ADeliver (envelope cfg0 session0.2)].
Proof.
  apply (lmtp_data_long_line_desync cfg0 (replicate 4097 65) session0.2); by vm_compute.
Defined.
