(* ===== verification/Text.v ===== *)
(** * Text encodings the engines use: UTF-8 and base64

    [TextDecoder] (the WHATWG UTF-8 decoder: replacement of ill-formed input, byte
    order mark, streaming state), [TextEncoder] / [Buffer.from(string)] and the base64
    codec of RFC 4648, as used by packages/core/src/sasl.ts and the protocol engines. *)

From S2P Require Import Prelude JsString.

(** ** UTF-16 code units and scalar values *)

Definition isHigh (u : Z) : bool := (0xD800 <=? u) && (u <=? 0xDBFF).
Definition isLow (u : Z) : bool := (0xDC00 <=? u) && (u <=? 0xDFFF).

Definition REPLACEMENT : Z := 0xFFFD.
Definition BOM : Z := 0xFEFF.

(** The scalar values of a string, lone surrogates replaced. *)
Fixpoint scalars (s : jsstr) : list Z :=
  match s with
  | [] => []
  | u :: s' =>
      if isHigh u then
        match s' with
        | v :: s'' =>
            if isLow v then (0x10000 + (u - 0xD800) * 1024 + (v - 0xDC00)) :: scalars s''
            else REPLACEMENT :: scalars s'
        | [] => [REPLACEMENT]
        end
      else if isLow u then REPLACEMENT :: scalars s'
      else u :: scalars s'
  end.

Definition unitsOf (c : Z) : jsstr :=
  if c <? 0x10000 then [c]
  else [0xD800 + (c - 0x10000) / 1024; 0xDC00 + (c - 0x10000) mod 1024].

(** A string without lone surrogates. *)
Fixpoint wellFormed (s : jsstr) : bool :=
  match s with
  | [] => true
  | u :: s' =>
      if isHigh u then match s' with v :: s'' => isLow v && wellFormed s'' | [] => false end
      else negb (isLow u) && (0 <=? u) && (u <? 0x10000) && wellFormed s'
  end.

(** ** Encoding *)

Definition utf8Scalar (c : Z) : bytes :=
  if c <? 0x80 then [c]
  else if c <? 0x800 then [0xC0 + c / 64; 0x80 + c mod 64]
  else if c <? 0x10000 then [0xE0 + c / 4096; 0x80 + c / 64 mod 64; 0x80 + c mod 64]
  else [0xF0 + c / 262144; 0x80 + c / 4096 mod 64; 0x80 + c / 64 mod 64; 0x80 + c mod 64].

(** [new TextEncoder().encode(s)], [Buffer.from(s)] *)
Definition utf8Encode (s : jsstr) : bytes := flat_map utf8Scalar (scalars s).

(** ** Decoding *)

Record Utf8State := mkUtf8 { u_cp : Z; u_needed : nat; u_lower : Z; u_upper : Z }.

Definition utf8Init : Utf8State := {| u_cp := 0; u_needed := 0; u_lower := 0x80; u_upper := 0xBF |}.

Definition utf8Lead (b : Z) : Utf8State * list Z :=
  if b <=? 0x7F then (utf8Init, [b])
  else if (0xC2 <=? b) && (b <=? 0xDF) then
    ({| u_cp := b - 0xC0; u_needed := 1; u_lower := 0x80; u_upper := 0xBF |}, [])
  else if (0xE0 <=? b) && (b <=? 0xEF) then
    ({| u_cp := b - 0xE0; u_needed := 2;
        u_lower := if b =? 0xE0 then 0xA0 else 0x80;
        u_upper := if b =? 0xED then 0x9F else 0xBF |}, [])
  else if (0xF0 <=? b) && (b <=? 0xF4) then
    ({| u_cp := b - 0xF0; u_needed := 3;
        u_lower := if b =? 0xF0 then 0x90 else 0x80;
        u_upper := if b =? 0xF4 then 0x8F else 0xBF |}, [])
  else (utf8Init, [REPLACEMENT]).

Definition utf8Step (st : Utf8State) (b : Z) : Utf8State * list Z :=
  match u_needed st with
  | O => utf8Lead b
  | S n =>
      if (u_lower st <=? b) && (b <=? u_upper st) then
        let cp := u_cp st * 64 + (b - 0x80) in
        match n with
        | O => (utf8Init, [cp])
        | S _ => ({| u_cp := cp; u_needed := n; u_lower := 0x80; u_upper := 0xBF |}, [])
        end
      else let '(st', out) := utf8Lead b in (st', REPLACEMENT :: out)
  end.

Fixpoint utf8Run (st : Utf8State) (bs : bytes) : Utf8State * list Z :=
  match bs with
  | [] => (st, [])
  | b :: bs' =>
      let '(st1, o1) := utf8Step st b in
      let '(st2, o2) := utf8Run st1 bs' in (st2, o1 ++ o2)
  end.

(** A [TextDecoder] used with [{stream: true}]: the partial sequence and whether the
    byte order mark has been dealt with. *)
Record TextDecoder := mkDecoder { td_state : Utf8State; td_bomSeen : bool }.

Definition newTextDecoder : TextDecoder := {| td_state := utf8Init; td_bomSeen := false |}.

(** Drops a leading byte order mark of the stream. *)
Definition stripBom (seen : bool) (cs : list Z) : bool * list Z :=
  match cs with
  | [] => (seen, [])
  | c :: cs' => (true, if negb seen && (c =? BOM) then cs' else cs)
  end.

(** [decoder.decode(chunk, { stream: true })] *)
Definition decodeStream (d : TextDecoder) (chunk : bytes) : TextDecoder * jsstr :=
  let '(st, cs) := utf8Run (td_state d) chunk in
  let '(seen, cs) := stripBom (td_bomSeen d) cs in
  ({| td_state := st; td_bomSeen := seen |}, flat_map unitsOf cs).

(** [decoder.decode(bytes)] on a decoder without pending input: the whole input. *)
Definition utf8Decode (bs : bytes) : jsstr :=
  let '(st, cs) := utf8Run utf8Init bs in
  let cs := cs ++ (match u_needed st with O => [] | S _ => [REPLACEMENT] end) in
  flat_map unitsOf (snd (stripBom false cs)).

(** ** Base64 *)

Definition b64Char (v : Z) : Z :=
  if v <? 26 then 65 + v else if v <? 52 then 97 + (v - 26)
  else if v <? 62 then 48 + (v - 52) else if v =? 62 then 43 else 47.

Definition b64Val (c : Z) : option Z :=
  if (65 <=? c) && (c <=? 90) then Some (c - 65)
  else if (97 <=? c) && (c <=? 122) then Some (c - 97 + 26)
  else if (48 <=? c) && (c <=? 57) then Some (c - 48 + 52)
  else if c =? 43 then Some 62 else if c =? 47 then Some 63 else None.

Definition PAD : Z := 61.

(** [buf.toString("base64")] *)
Fixpoint base64Encode (bs : bytes) : jsstr :=
  match bs with
  | [] => []
  | [a] => [b64Char (a / 4); b64Char (a mod 4 * 16); PAD; PAD]
  | [a; b] => [b64Char (a / 4); b64Char (a mod 4 * 16 + b / 16); b64Char (b mod 16 * 4); PAD]
  | a :: b :: c :: bs' =>
      b64Char (a / 4) :: b64Char (a mod 4 * 16 + b / 16)
        :: b64Char (b mod 16 * 4 + c / 64) :: b64Char (c mod 64) :: base64Encode bs'
  end.

Definition isB64 (c : Z) : bool := match b64Val c with Some _ => true | None => false end.

(** The regular expression [STRICT_BASE64_RE]. *)
Fixpoint strictBase64 (s : jsstr) : bool :=
  match s with
  | [] => true
  | a :: b :: c :: d :: s' =>
      isB64 a && isB64 b &&
      (if isB64 c && isB64 d then strictBase64 s'
       else match s' with
            | [] => (d =? PAD) && (isB64 c || (c =? PAD))
            | _ => false
            end)
  | _ => false
  end.

Definition valOr0 (c : Z) : Z := default 0 (b64Val c).

(** [Buffer.from(s, "base64")] on a string that passed the test: RFC 4648 decoding,
    unused low bits of the last group dropped. *)
Fixpoint base64Decode (s : jsstr) : bytes :=
  match s with
  | a :: b :: c :: d :: s' =>
      let v1 := valOr0 a * 4 + valOr0 b / 16 in
      let v2 := valOr0 b mod 16 * 16 + valOr0 c / 4 in
      let v3 := valOr0 c mod 4 * 64 + valOr0 d in
      if c =? PAD then [v1] else if d =? PAD then [v1; v2] else v1 :: v2 :: v3 :: base64Decode s'
  | _ => []
  end.

#[global] Arguments utf8Encode : simpl never.
#[global] Arguments utf8Decode : simpl never.
#[global] Arguments decodeStream : simpl never.

(** ** Lemmas: streaming *)

Lemma utf8Run_app st a b :
  utf8Run st (a ++ b) =
  (let '(st1, o1) := utf8Run st a in let '(st2, o2) := utf8Run st1 b in (st2, o1 ++ o2)).
Proof.
  revert st; induction a as [|x a IH]; intros st; simpl; [by destruct (utf8Run st b)|].
  destruct (utf8Step st x) as [st1 o1]. rewrite IH.
  destruct (utf8Run st1 a) as [st2 o2]. destruct (utf8Run st2 b) as [st3 o3]. by rewrite app_assoc.
Qed.

Lemma stripBom_app seen a b :
  stripBom seen (a ++ b) =
  (let '(s1, o1) := stripBom seen a in let '(s2, o2) := stripBom s1 b in (s2, o1 ++ o2)).
Proof.
  destruct a as [|x a]; simpl; [by destruct (stripBom seen b)|].
  destruct b as [|y b]; simpl; [by rewrite !app_nil_r|]. by destruct (negb seen && _).
Qed.

(** Decoding a stream does not depend on how it is cut, even inside a character. *)
Lemma decodeStream_app d a b :
  decodeStream d (a ++ b) =
  (let '(d1, o1) := decodeStream d a in let '(d2, o2) := decodeStream d1 b in (d2, o1 ++ o2)).
Proof.
  unfold decodeStream. rewrite utf8Run_app.
  destruct (utf8Run (td_state d) a) as [st1 o1]. destruct (utf8Run st1 b) as [st2 o2] eqn:E2.
  rewrite stripBom_app. destruct (stripBom (td_bomSeen d) o1) as [s1 p1]. simpl. rewrite E2.
  destruct (stripBom s1 o2) as [s2 p2]. by rewrite flat_map_app.
Qed.

(** ** Lemmas: encoding then decoding *)

Definition isScalar (c : Z) : Prop := 0 <= c < 0xD800 \/ 0xDFFF < c < 0x110000.

(** Decides the comparisons of the goal that follow from the context by [lia]. *)
Ltac decide_cmps :=
  repeat match goal with
  | |- context [?a <=? ?b] =>
      first [rewrite (proj2 (Z.leb_le a b)) by lia | rewrite (proj2 (Z.leb_gt a b)) by lia]
  | |- context [?a <? ?b] =>
      first [rewrite (proj2 (Z.ltb_lt a b)) by lia | rewrite (proj2 (Z.ltb_ge a b)) by lia]
  end.

Lemma utf8Run_cons st b bs :
  utf8Run st (b :: bs) =
  (let '(st1, o1) := utf8Step st b in let '(st2, o2) := utf8Run st1 bs in (st2, o1 ++ o2)).
Proof. done. Qed.

(** Continuation bytes within the state's bounds. *)
Lemma utf8Run_cont st n b bs :
  u_needed st = S (S n) -> u_lower st <= b <= u_upper st ->
  utf8Run st (b :: bs) =
  utf8Run {| u_cp := u_cp st * 64 + (b - 0x80); u_needed := S n; u_lower := 0x80; u_upper := 0xBF |} bs.
Proof.
  intros Hn Hb. rewrite utf8Run_cons. unfold utf8Step. rewrite Hn. decide_cmps. cbn [andb].
  by destruct (utf8Run _ bs).
Qed.

Lemma utf8Run_last st b bs :
  u_needed st = 1%nat -> u_lower st <= b <= u_upper st ->
  utf8Run st (b :: bs) =
  (let '(st2, o2) := utf8Run utf8Init bs in (st2, (u_cp st * 64 + (b - 0x80)) :: o2)).
Proof.
  intros Hn Hb. rewrite utf8Run_cons. unfold utf8Step. rewrite Hn. decide_cmps. cbn [andb]. done.
Qed.

Lemma utf8Run_lead b bs st :
  utf8Lead b = (st, []) -> utf8Run utf8Init (b :: bs) = utf8Run st bs.
Proof.
  intros H. rewrite utf8Run_cons. unfold utf8Step. cbn [u_needed utf8Init]. rewrite H.
  by destruct (utf8Run st bs).
Qed.

Lemma utf8Run_scalar c bs :
  isScalar c ->
  utf8Run utf8Init (utf8Scalar c ++ bs) = (let '(st, o) := utf8Run utf8Init bs in (st, c :: o)).
Proof.
  intros Hc. unfold isScalar in Hc. unfold utf8Scalar.
  destruct (Z.ltb_spec c 0x80).
  { cbn [app]. rewrite utf8Run_cons. unfold utf8Step. cbn [u_needed utf8Init]. unfold utf8Lead.
    decide_cmps. done. }
  destruct (Z.ltb_spec c 0x800).
  { cbn [app]. pose proof (Z.div_mod c 64). pose proof (Z.mod_pos_bound c 64).
    assert (2 <= c / 64 < 32) by (split; [apply Z.div_le_lower_bound|apply Z.div_lt_upper_bound]; lia).
    erewrite utf8Run_lead by (unfold utf8Lead; decide_cmps; reflexivity).
    rewrite utf8Run_last; cbn; [|done|lia]. destruct (utf8Run utf8Init bs). do 2 f_equal. lia. }
  destruct (Z.ltb_spec c 0x10000).
  { cbn [app]. pose proof (Z.div_mod c 64). pose proof (Z.mod_pos_bound c 64).
    pose proof (Z.div_mod (c / 64) 64). pose proof (Z.mod_pos_bound (c / 64) 64).
    rewrite Z.div_div in * by lia. change (64 * 64) with 4096 in *.
    assert (0 <= c / 4096 < 16) by (split; [apply Z.div_le_lower_bound|apply Z.div_lt_upper_bound]; lia).
    erewrite utf8Run_lead by (unfold utf8Lead; decide_cmps; reflexivity).
    rewrite (utf8Run_cont _ 0); cbn [u_needed u_lower u_upper u_cp]; [|done|].
    - rewrite utf8Run_last; cbn [u_needed u_lower u_upper u_cp]; [|done|lia].
      destruct (utf8Run utf8Init bs). do 2 f_equal. lia.
    - destruct (Z.eqb_spec (0xE0 + c / 4096) 0xE0); destruct (Z.eqb_spec (0xE0 + c / 4096) 0xED); lia. }
  cbn [app]. pose proof (Z.div_mod c 64). pose proof (Z.mod_pos_bound c 64).
  pose proof (Z.div_mod (c / 64) 64). pose proof (Z.mod_pos_bound (c / 64) 64).
  pose proof (Z.div_mod (c / 64 / 64) 64). pose proof (Z.mod_pos_bound (c / 64 / 64) 64).
  rewrite !Z.div_div in * by lia. change (64 * 64 * 64) with 262144 in *. change (64 * 64) with 4096 in *.
  assert (0 <= c / 262144 < 5) by (split; [apply Z.div_le_lower_bound|apply Z.div_lt_upper_bound]; lia).
  erewrite utf8Run_lead by (unfold utf8Lead; decide_cmps; reflexivity).
  rewrite (utf8Run_cont _ 1); cbn [u_needed u_lower u_upper u_cp]; [|done|].
  - rewrite (utf8Run_cont _ 0); cbn [u_needed u_lower u_upper u_cp]; [|done|lia].
    rewrite utf8Run_last; cbn [u_needed u_lower u_upper u_cp]; [|done|lia].
    destruct (utf8Run utf8Init bs). do 2 f_equal. lia.
  - destruct (Z.eqb_spec (0xF0 + c / 262144) 0xF0); destruct (Z.eqb_spec (0xF0 + c / 262144) 0xF4); lia.
Qed.

Lemma utf8Run_scalars cs :
  Forall isScalar cs -> utf8Run utf8Init (flat_map utf8Scalar cs) = (utf8Init, cs).
Proof.
  induction 1 as [|c cs Hc Hcs IH]; [done|]. cbn [flat_map]. by rewrite utf8Run_scalar, IH.
Qed.

Lemma wellFormed_ind (P : jsstr -> Prop) :
  P [] ->
  (forall u s, isHigh u = false -> isLow u = false -> 0 <= u < 0x10000 ->
     wellFormed s = true -> P s -> P (u :: s)) ->
  (forall u v s, isHigh u = true -> isLow v = true -> wellFormed s = true -> P s -> P (u :: v :: s)) ->
  forall s, wellFormed s = true -> P s.
Proof.
  intros H0 H1 H2 s. remember (length s) as n eqn:En. assert (Hn : (length s <= n)%nat) by lia.
  clear En. revert s Hn. induction n as [|n IH]; intros [|u s] Hn Hw; try done; [simpl in Hn; lia|].
  cbn [wellFormed] in Hw. destruct (isHigh u) eqn:Eh.
  - destruct s as [|v s]; [done|]. bool_hyps. apply H2; auto. apply IH; [simpl in *; lia|done].
  - bool_hyps. apply H1; auto. apply IH; [simpl in *; lia|done].
Qed.

Lemma scalars_ok s :
  wellFormed s = true -> Forall isScalar (scalars s) /\ flat_map unitsOf (scalars s) = s.
Proof.
  revert s. apply wellFormed_ind; [by split| |].
  - intros u s Eh El Hr Hw [IH1 IH2]. cbn [scalars]. rewrite Eh, El. split.
    + constructor; [|done]. unfold isHigh, isLow, isScalar in *.
      destruct (Z.leb_spec 0xD800 u), (Z.leb_spec u 0xDBFF), (Z.leb_spec 0xDC00 u), (Z.leb_spec u 0xDFFF);
        cbn in *; try done; lia.
    + cbn [flat_map]. rewrite IH2. unfold unitsOf. by decide_cmps.
  - intros u v s Eh El Hw [IH1 IH2]. cbn [scalars]. rewrite Eh, El.
    unfold isHigh, isLow in *. bool_hyps. split.
    + constructor; [|done]. unfold isScalar. lia.
    + cbn [flat_map]. rewrite IH2. unfold unitsOf. decide_cmps. cbn [app].
      replace (0x10000 + (u - 0xD800) * 1024 + (v - 0xDC00) - 0x10000)
        with (v - 0xDC00 + (u - 0xD800) * 1024) by lia.
      rewrite Z.div_add, Z.mod_add, Z.div_small, Z.mod_small by lia. f_equal; [lia|]. f_equal. lia.
Qed.

Lemma scalars_bom c s : scalars s = BOM :: c -> exists s', s = BOM :: s'.
Proof.
  destruct s as [|u s]; cbn [scalars]; [done|]. unfold isHigh, isLow, BOM, REPLACEMENT.
  destruct ((0xD800 <=? u) && (u <=? 0xDBFF)) eqn:Eh.
  - destruct s as [|v s]; [done|]. destruct ((0xDC00 <=? v) && _) eqn:El; [|done]. bool_hyps.
    intros Hx%(f_equal (hd 0)). cbn [hd] in Hx. lia.
  - destruct ((0xDC00 <=? u) && _); [done|]. intros Hx%(f_equal (hd 0)). cbn [hd] in Hx. subst u. eauto.
Qed.

(** [decode(encode(s))] is [s], unless [s] starts with a byte order mark. *)
Lemma utf8Decode_encode s :
  wellFormed s = true -> (forall s', s <> BOM :: s') -> utf8Decode (utf8Encode s) = s.
Proof.
  intros Hw Hb. destruct (scalars_ok s Hw) as [Hs Hu]. unfold utf8Decode, utf8Encode.
  rewrite utf8Run_scalars by done. cbn [u_needed utf8Init]. rewrite app_nil_r.
  destruct (scalars s) as [|c cs] eqn:E; [done|]. cbn [stripBom]. cbn [negb andb].
  destruct (Z.eqb_spec c BOM) as [->|]; [|exact Hu].
  destruct (scalars_bom cs s E) as [s' ->]. by destruct (Hb s').
Qed.

(** ASCII text is its own encoding. *)
Definition is_ascii (s : jsstr) : Prop := Forall (fun c => 0 <= c < 128) s.

Lemma ascii_scalars s :
  is_ascii s -> scalars s = s /\ Forall isScalar s /\ flat_map utf8Scalar s = s /\ flat_map unitsOf s = s.
Proof.
  induction 1 as [|c s Hc Hs (H1 & H2 & H3 & H4)]; [done|].
  assert (isHigh c = false /\ isLow c = false) as [Eh El].
  { unfold isHigh, isLow. split; apply andb_false_intro1, Z.leb_gt; lia. }
  cbn [scalars flat_map]. rewrite Eh, El, H1, H3, H4. unfold utf8Scalar, unitsOf.
  rewrite (proj2 (Z.ltb_lt c 0x80)), (proj2 (Z.ltb_lt c 0x10000)) by lia.
  repeat split; try done. constructor; [left; lia|done].
Qed.

Lemma utf8Encode_ascii s : is_ascii s -> utf8Encode s = s.
Proof. intros H. destruct (ascii_scalars s H) as (H1 & _ & H3 & _). unfold utf8Encode. by rewrite H1. Qed.

Lemma decodeStream_ascii seen s :
  is_ascii s -> s <> [] ->
  decodeStream {| td_state := utf8Init; td_bomSeen := seen |} s
    = ({| td_state := utf8Init; td_bomSeen := true |}, s).
Proof.
  intros H Hne. destruct (ascii_scalars s H) as (_ & H2 & H3 & H4). unfold decodeStream. cbn [td_state td_bomSeen].
  assert (utf8Run utf8Init s = (utf8Init, s)) as -> by (rewrite <- H3 at 1; by apply utf8Run_scalars).
  destruct s as [|c s]; [done|]. cbn [stripBom]. inversion_clear H.
  rewrite (proj2 (Z.eqb_neq c BOM)) by (unfold BOM; lia). by rewrite andb_false_r, H4.
Qed.

(** ASCII units cut a text where the encoding can be cut. *)
Lemma scalars_cons u s : scalars (u :: s) =
  if isHigh u then
    match s with
    | v :: r => if isLow v then (0x10000 + (u - 0xD800) * 1024 + (v - 0xDC00)) :: scalars r else REPLACEMENT :: scalars s
    | [] => [REPLACEMENT]
    end
  else if isLow u then REPLACEMENT :: scalars s else u :: scalars s.
Proof. reflexivity. Qed.

Lemma scalars_app_plain a c b : isLow c = false -> scalars (a ++ c :: b) = scalars a ++ scalars (c :: b).
Proof.
  intros Hc. induction a as [a IH] using (induction_ltof1 _ (@length Z)). unfold ltof in IH. destruct a as [|u [|v a]]; [done| |].
  - cbn [app]. rewrite (scalars_cons u (c :: b)), (scalars_cons u []), Hc. by destruct (isHigh u), (isLow u).
  - pose proof (IH (v :: a) ltac:(cbn; lia)) as IH1. pose proof (IH a ltac:(cbn; lia)) as IH2.
    cbn [app] in *. rewrite !(scalars_cons u (v :: _)), IH1, IH2. by destruct (isHigh u), (isLow v), (isLow u).
Qed.

Lemma utf8Encode_app_ascii a c b : 0 <= c < 128 -> utf8Encode (a ++ c :: b) = utf8Encode a ++ c :: utf8Encode b.
Proof.
  intros Hc. unfold utf8Encode. assert (Hl : isLow c = false) by (unfold isLow; destruct (Z.leb_spec 0xDC00 c); [lia|done]).
  assert (Hh : isHigh c = false) by (unfold isHigh; destruct (Z.leb_spec 0xD800 c); [lia|done]).
  rewrite scalars_app_plain, flat_map_app by done. cbn [scalars]. rewrite Hh, Hl. cbn [flat_map]. unfold utf8Scalar at 2.
  destruct (Z.ltb_spec c 0x80); [done|lia].
Qed.

Lemma utf8Encode_cons_ascii c b : 0 <= c < 128 -> utf8Encode (c :: b) = c :: utf8Encode b.
Proof. apply (utf8Encode_app_ascii []). Qed.

Lemma utf8Encode_prefix a s : is_ascii a -> utf8Encode (a ++ s) = a ++ utf8Encode s.
Proof.
  induction 1 as [|c a Hc Ha IH]; [done|]. cbn [app]. by rewrite utf8Encode_cons_ascii, IH by exact Hc.
Qed.

Lemma utf8Scalar_bytes c : isScalar c -> is_bytes (utf8Scalar c).
Proof.
  unfold isScalar, utf8Scalar. intros Hc.
  repeat case_inner; bool_hyps; repeat constructor; unfold is_byte;
    repeat match goal with |- context [?x mod 64] => lazymatch goal with
      | _ : 0 <= x mod 64 < 64 |- _ => fail | _ => pose proof (Z.mod_pos_bound x 64 ltac:(lia)) end end;
    try lia;
    match goal with |- context [c / ?k] =>
      assert (0 <= c / k) by (apply Z.div_pos; lia);
      assert (c / k < 32) by (apply Z.div_lt_upper_bound; lia);
      try assert (c / k < 16) by (apply Z.div_lt_upper_bound; lia); lia end.
Qed.

Lemma utf8Encode_bytes s : wellFormed s = true -> is_bytes (utf8Encode s).
Proof.
  intros Hw. destruct (scalars_ok s Hw) as [Hs _]. unfold utf8Encode.
  induction Hs as [|c cs Hc Hcs IH]; [constructor|]. cbn [flat_map].
  apply Forall_app. split; [by apply utf8Scalar_bytes|done].
Qed.

(** ** Lemmas: base64 *)

Lemma b64Val_char v : 0 <= v < 64 -> b64Val (b64Char v) = Some v.
Proof.
  intros H. unfold b64Char, b64Val.
  repeat case_inner; bool_hyps; try lia; try (f_equal; lia);
    repeat match goal with H : _ && _ = false |- _ => apply andb_false_iff in H as [?|?] end;
    bool_hyps; try lia.
Qed.

Lemma b64Char_not_pad v : 0 <= v -> b64Char v =? PAD = false.
Proof.
  intros Hv. unfold b64Char, PAD. apply Z.eqb_neq. repeat case_inner; bool_hyps; try lia.
Qed.

Lemma base64_roundtrip bs :
  is_bytes bs -> strictBase64 (base64Encode bs) = true /\ base64Decode (base64Encode bs) = bs.
Proof.
  remember (length bs) as n eqn:En. assert (Hn : (length bs <= n)%nat) by lia.
  clear En. revert bs Hn. induction n as [|n IH]; intros [|a [|b [|c bs]]] Hn Hb;
    try done; try (simpl in Hn; lia); inversion Hb as [|? ? Ha Hb1]; subst;
    unfold is_byte in *;
    pose proof (Z.div_mod a 4); pose proof (Z.mod_pos_bound a 4);
    assert (0 <= a / 4 < 64) by (split; [apply Z.div_pos|apply Z.div_lt_upper_bound]; lia).
  - cbn [base64Encode strictBase64 base64Decode]. unfold isB64, valOr0.
    rewrite !b64Val_char by lia. cbn. split; [done|]. f_equal.
    rewrite Z.div_mul by lia. lia.
  - inversion Hb1 as [|? ? Hbb Hb2]; subst. unfold is_byte in *.
    pose proof (Z.div_mod b 16). pose proof (Z.mod_pos_bound b 16).
    assert (0 <= b / 16 < 16) by (split; [apply Z.div_pos|apply Z.div_lt_upper_bound]; lia).
    cbn [base64Encode strictBase64 base64Decode]. rewrite b64Char_not_pad by lia. unfold isB64, valOr0.
    rewrite !b64Val_char by lia. cbn [b64Val PAD Z.eqb andb orb default]. cbn. split; [done|].
    rewrite (Z.add_comm _ (b / 16)), Z.div_add, (Z.div_small (b / 16)), Z.mod_add, (Z.mod_small (b / 16)), Z.div_mul by lia.
    f_equal; [lia|]. f_equal. lia.
  - inversion Hb1 as [|? ? Hbb Hb2]; subst. inversion Hb2 as [|? ? Hcc Hb3]; subst. unfold is_byte in *.
    pose proof (Z.div_mod b 16). pose proof (Z.mod_pos_bound b 16).
    assert (0 <= b / 16 < 16) by (split; [apply Z.div_pos|apply Z.div_lt_upper_bound]; lia).
    pose proof (Z.div_mod c 64). pose proof (Z.mod_pos_bound c 64).
    assert (0 <= c / 64 < 4) by (split; [apply Z.div_pos|apply Z.div_lt_upper_bound]; lia).
    cbn [base64Encode strictBase64 base64Decode]. rewrite !b64Char_not_pad by lia. unfold isB64, valOr0.
    rewrite !b64Val_char by lia. unfold default, from_option, id. cbn [andb].
    destruct (IH bs) as [IH1 IH2]; [simpl in *; lia|done|]. rewrite IH1, IH2. split; [done|].
    rewrite (Z.add_comm _ (b / 16)), (Z.add_comm _ (c / 64)).
    rewrite !Z.div_add, !Z.mod_add, (Z.div_small (b / 16)), (Z.mod_small (b / 16)), (Z.div_small (c / 64)),
      (Z.mod_small (c / 64)) by lia.
    f_equal; [lia|]. f_equal; [lia|]. f_equal. lia.
Qed.
