(* ===== verification/Sasl.v ===== *)
(** * SASL payloads (packages/core/src/sasl.ts)

    The base64, PLAIN and OAuth parsers shared by the protocol engines.  Regular
    expressions of the source are written out as the scans they denote. *)

From S2P Require Import Prelude JsString Text.

Definition CTRL_A : Z := 1.

Record SaslOAuthCreds := mkOAuth { oa_user : jsstr; oa_token : jsstr }.
Record SaslPlainCreds := mkPlain { pl_user : jsstr; pl_pass : jsstr }.

(** The leading spaces of a string and what follows. *)
Fixpoint spanSpaces (s : jsstr) : nat * jsstr :=
  match s with
  | c :: s' => if c =? SP then let '(n, r) := spanSpaces s' in (S n, r) else (O, s)
  | [] => (O, [])
  end.

(** [f.match(/^auth=Bearer[ ]+(.+)$/i)], with the captured group trimmed: [.] stops at
    line terminators, and the group takes one of several trailing spaces when nothing
    else is left. *)
Definition matchBearer (f : jsstr) : option jsstr :=
  if startsWithI (js "auth=Bearer") f then
    let '(n, r) := spanSpaces (drop (length (js "auth=Bearer")) f) in
    match r with
    | [] => if (2 <=? n)%nat then Some (trim [SP]) else None
    | _ =>
        if (1 <=? n)%nat && forallb (fun c => negb (isLineTerminator c)) r
        then Some (trim r) else None
    end
  else None.

Fixpoint extractBearer (fields : list jsstr) : option jsstr :=
  match fields with
  | [] => None
  | f :: fields' => match matchBearer f with Some t => Some t | None => extractBearer fields' end
  end.

(** [!user || user.length === 0 || !token]: both present and non-empty. *)
Definition oauthCreds (user token : option jsstr) : option SaslOAuthCreds :=
  match user, token with
  | Some ((_ :: _) as u), Some ((_ :: _) as t) => Some {| oa_user := u; oa_token := t |}
  | _, _ => None
  end.

Definition parseXoauth2 (decoded : jsstr) : option SaslOAuthCreds :=
  let fields := splitOn CTRL_A decoded in
  let user := fold_left (fun u f => if startsWith (js "user=") f
                                    then Some (drop (length (js "user=")) f) else u) fields None in
  oauthCreds user (extractBearer fields).

(** [s.replace(/=XY/g, r)] for a two-unit code recognised by [m]. *)
Fixpoint replaceCode (m : Z -> Z -> bool) (r : Z) (s : jsstr) : jsstr :=
  match s with
  | [] => []
  | c :: s' =>
      if c =? 61 then
        match s' with
        | x :: y :: s'' => if m x y then r :: replaceCode m r s'' else c :: replaceCode m r s'
        | _ => c :: replaceCode m r s'
        end
      else c :: replaceCode m r s'
  end.

(** [2C] and [3D] in any letter case. *)
Definition is2Ci (x y : Z) : bool := (x =? 50) && ((y =? 67) || (y =? 99)).
Definition is3Di (x y : Z) : bool := (x =? 51) && ((y =? 68) || (y =? 100)).

Definition decodeGs2 (s : jsstr) : jsstr := replaceCode is3Di 61 (replaceCode is2Ci 44 s).

(** The authzid of the GS2 header: the first comma-separated item that starts with
    [a=] (the source's expression anchors at the start or at a comma and captures up
    to the next comma); an empty capture counts as none. *)
Definition matchAuthzid (gs2 : jsstr) : option jsstr :=
  match find (fun item => startsWith (js "a=") item) (splitOn 44 gs2) with
  | Some item => match drop 2 item with [] => None | v => Some v end
  | None => None
  end.

Definition parseOauthbearer (decoded : jsstr) : option SaslOAuthCreds :=
  let fields := splitOn CTRL_A decoded in
  let gs2 := default [] (head fields) in
  oauthCreds (decodeGs2 <$> matchAuthzid gs2) (extractBearer (drop 1 fields)).

Definition parseSaslOAuth (mechanism decoded : jsstr) : option SaslOAuthCreds :=
  let m := toUpperCase mechanism in
  if m === js "XOAUTH2" then parseXoauth2 decoded
  else if m === js "OAUTHBEARER" then parseOauthbearer decoded
  else None.

Definition isOAuthMechanism (mechanism : jsstr) : bool :=
  let m := toUpperCase mechanism in (m === js "XOAUTH2") || (m === js "OAUTHBEARER").

Definition decodeSaslBase64 (s : jsstr) : option bytes :=
  if strictBase64 s then Some (base64Decode s) else None.

Definition parseSaslPlain (bs : bytes) : option SaslPlainCreds :=
  match indexOf 0 bs with
  | None => None
  | Some idx1 =>
      match indexOf 0 (drop (S idx1) bs) with
      | None => None
      | Some k =>
          let user := utf8Decode (take k (drop (S idx1) bs)) in
          let pass := utf8Decode (drop (S k) (drop (S idx1) bs)) in
          match user with
          | [] => None
          | _ => Some {| pl_user := user; pl_pass := pass |}
          end
      end
  end.

Definition decodeSaslPlain (b64 : jsstr) : option SaslPlainCreds :=
  match decodeSaslBase64 b64 with None => None | Some bs => parseSaslPlain bs end.

#[global] Arguments decodeSaslBase64 : simpl never.
#[global] Arguments parseSaslPlain : simpl never.
#[global] Arguments parseSaslOAuth : simpl never.

(** ** Lemmas *)

Lemma decodeSaslBase64_encode bs : is_bytes bs -> decodeSaslBase64 (base64Encode bs) = Some bs.
Proof. intros Hb. unfold decodeSaslBase64. by destruct (base64_roundtrip bs Hb) as [-> ->]. Qed.

(** Encoding introduces a NUL byte only for a NUL character. *)
Lemma utf8Scalar_nul c : isScalar c -> 0 ∈ utf8Scalar c -> c = 0.
Proof.
  unfold utf8Scalar, isScalar. intros Hc.
  assert (0 <= c / 64) by (apply Z.div_pos; lia).
  assert (0 <= c / 4096) by (apply Z.div_pos; lia).
  assert (0 <= c / 262144) by (apply Z.div_pos; lia).
  pose proof (Z.mod_pos_bound c 64). pose proof (Z.mod_pos_bound (c / 64) 64).
  pose proof (Z.mod_pos_bound (c / 4096) 64).
  repeat case_inner; rewrite ?elem_of_cons, elem_of_nil; lia.
Qed.

Lemma utf8Encode_nul s : wellFormed s = true -> 0 ∉ s -> 0 ∉ utf8Encode s.
Proof.
  intros Hw Hs Hin. destruct (scalars_ok s Hw) as [Hsc Hu]. apply Hs. rewrite <- Hu.
  unfold utf8Encode in Hin. apply list_elem_of_In, in_flat_map in Hin as (c & Hc & Hin).
  rewrite Forall_forall in Hsc. apply list_elem_of_In in Hc, Hin.
  apply utf8Scalar_nul in Hin; [|by apply Hsc]. subst c.
  apply list_elem_of_In, in_flat_map. exists 0. split; [by apply list_elem_of_In|]. by left.
Qed.

Lemma utf8Encode_nonempty s : s <> [] -> utf8Encode s <> [].
Proof.
  unfold utf8Encode. destruct s as [|u s]; [done|]. intros _.
  assert (H : forall c cs, flat_map utf8Scalar (c :: cs) <> []).
  { intros c cs. cbn [flat_map]. unfold utf8Scalar. repeat case_inner; done. }
  cbn [scalars]. repeat case_inner; apply H.
Qed.

(** A token as OAuth issues it: printable on one line, not empty, no blank ends. *)
Definition cleanToken (t : jsstr) : Prop :=
  t <> [] /\ trim t = t /\ CTRL_A ∉ t /\ Forall (fun c => isLineTerminator c = false) t.

Lemma trim_head_not_sp c t : trim (c :: t) = c :: t -> (c =? SP) = false.
Proof.
  intros H. destruct (Z.eqb_spec c SP) as [->|]; [|done]. exfalso.
  unfold trim in H. cbn [trimStart isWs] in H. cbn in H.
  assert (Hle : forall s, (length (trimStart s) <= length s)%nat).
  { induction s as [|x s IH]; cbn; [done|]. destruct (isWs x); cbn; lia. }
  apply (f_equal length) in H. unfold trimEnd in H. rewrite length_rev in H.
  pose proof (Hle (rev (trimStart t))). pose proof (Hle t). rewrite length_rev in *. cbn in H. lia.
Qed.

Lemma startsWithI_app p s : startsWithI p (p ++ s) = true.
Proof. induction p as [|x p IH]; [done|]. cbn. by rewrite Z.eqb_refl. Qed.

Lemma matchBearer_token t : cleanToken t -> matchBearer (js "auth=Bearer " ++ t) = Some t.
Proof.
  intros (Hne & Ht & _ & Hl). change (js "auth=Bearer ") with (js "auth=Bearer" ++ [SP]).
  rewrite <- app_assoc. unfold matchBearer. rewrite startsWithI_app, drop_app_length.
  destruct t as [|c t]; [done|]. cbn [app spanSpaces]. rewrite Z.eqb_refl, (trim_head_not_sp c t Ht).
  cbn [Nat.leb andb]. rewrite Ht.
  replace (forallb _ (c :: t)) with true; [done|]. symmetry. apply forallb_forall.
  intros x Hx%list_elem_of_In. rewrite Forall_forall in Hl. by rewrite Hl.
Qed.

Definition escapeGs2 (s : jsstr) : jsstr :=
  flat_map (fun c => if c =? 44 then js "=2C" else if c =? 61 then js "=3D" else [c]) s.

Lemma escapeGs2_cons c s :
  escapeGs2 (c :: s) =
  (if c =? 44 then js "=2C" else if c =? 61 then js "=3D" else [c]) ++ escapeGs2 s.
Proof. done. Qed.

Lemma replaceCode_other m r c s : (c =? 61) = false -> replaceCode m r (c :: s) = c :: replaceCode m r s.
Proof. intros H. cbn. by rewrite H. Qed.

(** Undoing the escapes, comma first, for any recognisers of the two codes. *)
Lemma replaceCode_escape m2 m3 s :
  m2 50 67 = true -> m2 51 68 = false -> m3 51 68 = true ->
  replaceCode m3 61 (replaceCode m2 44 (escapeGs2 s)) = s.
Proof.
  intros H2 H2' H3.
  assert (H1 : replaceCode m2 44 (escapeGs2 s)
               = flat_map (fun c => if c =? 61 then js "=3D" else [c]) s).
  { induction s as [|c s IH]; [done|]. rewrite escapeGs2_cons. cbn [flat_map].
    destruct (Z.eqb_spec c 44) as [->|Hc].
    { change (js "=2C" ++ escapeGs2 s) with (61 :: 50 :: 67 :: escapeGs2 s). cbn. rewrite H2. f_equal. exact IH. }
    destruct (Z.eqb_spec c 61) as [->|Hc'].
    - change (js "=3D" ++ escapeGs2 s) with (61 :: 51 :: 68 :: escapeGs2 s).
      change (js "=3D") with [61; 51; 68]. cbn. rewrite H2'. do 3 f_equal. exact IH.
    - cbn [app]. rewrite replaceCode_other by (by apply Z.eqb_neq). cbn [app]. by f_equal. }
  rewrite H1. clear H1. induction s as [|c s IH]; [done|]. cbn [flat_map].
  destruct (Z.eqb_spec c 61) as [->|Hc].
  - change (js "=3D") with [61; 51; 68]. cbn. rewrite H3. f_equal. exact IH.
  - cbn [app]. rewrite replaceCode_other by (by apply Z.eqb_neq). by f_equal.
Qed.

Lemma decodeGs2_escape s : decodeGs2 (escapeGs2 s) = s.
Proof. by apply replaceCode_escape. Qed.

Lemma escapeGs2_notin c s : c ∉ s -> c <> 61 -> c ∉ js "2C3D" -> c ∉ escapeGs2 s.
Proof.
  intros Hs H61 Hd Hin. unfold escapeGs2 in Hin.
  apply list_elem_of_In, in_flat_map in Hin as (x & Hx & Hin). apply list_elem_of_In in Hx, Hin.
  destruct (x =? 44); [|destruct (x =? 61)].
  - change (js "=2C") with [61; 50; 67] in Hin. change (js "2C3D") with [50; 67; 51; 68] in Hd. set_solver.
  - change (js "=3D") with [61; 51; 68] in Hin. change (js "2C3D") with [50; 67; 51; 68] in Hd. set_solver.
  - set_solver.
Qed.

Lemma escapeGs2_no_comma s : 44 ∉ escapeGs2 s.
Proof.
  intros Hin. apply list_elem_of_In, in_flat_map in Hin as (x & _ & Hin). apply list_elem_of_In in Hin.
  destruct (Z.eqb_spec x 44); [|destruct (Z.eqb_spec x 61)].
  - change (js "=2C") with [61; 50; 67] in Hin. set_solver.
  - change (js "=3D") with [61; 51; 68] in Hin. set_solver.
  - set_solver.
Qed.

Lemma escapeGs2_ne s : s <> [] -> escapeGs2 s <> [].
Proof. destruct s as [|c s]; [done|]. intros _. cbn. by destruct (c =? 44), (c =? 61). Qed.

Definition xoauth2Payload (user token : jsstr) : jsstr :=
  (js "user=" ++ user) ++ CTRL_A :: (js "auth=Bearer " ++ token) ++ [CTRL_A; CTRL_A].

Definition oauthbearerPayload (user token : jsstr) : jsstr :=
  (js "n,a=" ++ escapeGs2 user ++ js ",") ++ CTRL_A :: (js "auth=Bearer " ++ token) ++ [CTRL_A; CTRL_A].

Lemma payload_fields hd token :
  CTRL_A ∉ hd -> cleanToken token ->
  splitOn CTRL_A (hd ++ CTRL_A :: (js "auth=Bearer " ++ token) ++ [CTRL_A; CTRL_A])
  = [hd; js "auth=Bearer " ++ token; []; []].
Proof.
  intros Hh (_ & _ & Ht & _). rewrite splitOn_app by done.
  rewrite splitOn_app; [done|]. intros [H|H]%elem_of_app; [|done].
  by apply lit_notin in H.
Qed.

(** ** Properties *)

(** PLAIN round trip: the base64 of [authzid NUL authcid NUL passwd] in UTF-8 gives
    back exactly the user name and the password, whatever the authorisation identity
    and also when the password itself contains NUL characters. *)
Theorem decodeSaslPlain_roundtrip authzid user pass :
  wellFormed authzid = true -> wellFormed user = true -> wellFormed pass = true ->
  0 ∉ authzid -> 0 ∉ user -> user <> [] ->
  (forall s, user <> BOM :: s) -> (forall s, pass <> BOM :: s) ->
  decodeSaslPlain (base64Encode (utf8Encode authzid ++ 0 :: utf8Encode user ++ 0 :: utf8Encode pass))
  = Some {| pl_user := user; pl_pass := pass |}.
Proof.
  intros Ha Hu Hp Na Nu Hne Bu Bp. unfold decodeSaslPlain.
  rewrite decodeSaslBase64_encode; cycle 1.
  { unfold is_bytes. rewrite Forall_app, Forall_cons, Forall_app, Forall_cons.
    repeat split; try done; by apply utf8Encode_bytes. }
  unfold parseSaslPlain. rewrite indexOf_app_notin by (by apply utf8Encode_nul).
  rewrite drop_after, indexOf_app_notin by (by apply utf8Encode_nul).
  rewrite take_app_length, drop_after.
  rewrite !utf8Decode_encode by done. by destruct user.
Qed.

(** OAuth round trips: the XOAUTH2 and the OAUTHBEARER client responses for a user
    name and a bearer token (the name escaped as a saslname in the GS2 header) parse
    back to that name and token. *)
Theorem parseSaslOAuth_roundtrip user token :
  user <> [] -> CTRL_A ∉ user -> cleanToken token ->
  parseSaslOAuth (js "xoauth2") (xoauth2Payload user token)
    = Some {| oa_user := user; oa_token := token |} /\
  parseSaslOAuth (js "OAuthBearer") (oauthbearerPayload user token)
    = Some {| oa_user := user; oa_token := token |}.
Proof.
  intros Hne Hu Ht. assert (Htn : exists c t, token = c :: t).
  { destruct Ht as [H _]. destruct token; [done|eauto]. }
  unfold parseSaslOAuth. cbn [toUpperCase]. split.
  - change (toUpperCase (js "xoauth2") === js "XOAUTH2") with true. cbv iota.
    unfold parseXoauth2, xoauth2Payload. rewrite payload_fields;
      [|rewrite not_elem_of_app; split; [by apply lit_notin|done]|done].
    cbn [fold_left extractBearer].
    change (matchBearer (js "user=" ++ user)) with (@None jsstr). cbv iota.
    rewrite matchBearer_token by done.
    change (startsWith (js "user=") (js "user=" ++ user)) with true.
    change (startsWith (js "user=") (js "auth=Bearer " ++ token)) with false.
    rewrite drop_app_length. destruct user; [done|]. destruct Htn as (c & t & ->). reflexivity.
  - change (toUpperCase (js "OAuthBearer") === js "XOAUTH2") with false.
    change (toUpperCase (js "OAuthBearer") === js "OAUTHBEARER") with true. cbv iota.
    unfold parseOauthbearer, oauthbearerPayload. rewrite payload_fields; [| |done].
    + cbn [head drop extractBearer]. rewrite matchBearer_token by done.
      unfold default, from_option, id, matchAuthzid.
      change (js "n,a=" ++ escapeGs2 user ++ js ",") with ([110] ++ 44 :: (js "a=" ++ escapeGs2 user) ++ [44]).
      rewrite splitOn_app by (by apply lit_notin).
      rewrite splitOn_app; [|intros [H|H]%elem_of_app; [by apply lit_notin in H|by apply escapeGs2_no_comma in H]].
      cbn [find]. change (startsWith (js "a=") [110]) with false.
      change (startsWith (js "a=") (js "a=" ++ escapeGs2 user)) with true. cbv iota.
      change (drop 2 (js "a=" ++ escapeGs2 user)) with (escapeGs2 user).
      pose proof (escapeGs2_ne user Hne) as He. pose proof (decodeGs2_escape user) as Hd.
      destruct (escapeGs2 user) as [|x e]; [done|]. cbn [fmap option_fmap option_map]. rewrite Hd.
      destruct user; [done|]. destruct Htn as (c & t & ->). reflexivity.
    + rewrite !not_elem_of_app. repeat split; try (by apply lit_notin).
      apply escapeGs2_notin; [done|done|by apply lit_notin].
Qed.

Lemma decodeSaslPlain_roundtrip_witness :
  decodeSaslPlain (base64Encode (utf8Encode [] ++ 0 :: utf8Encode (js "kim") ++ 0 :: utf8Encode [112; 0; 0xD83D; 0xDE00]))
  = Some {| pl_user := js "kim"; pl_pass := [112; 0; 0xD83D; 0xDE00] |}.
Proof.
  apply (decodeSaslPlain_roundtrip [] (js "kim") [112; 0; 0xD83D; 0xDE00]);
    first [done|by apply lit_notin|by vm_compute].
Defined.

Lemma parseSaslOAuth_roundtrip_witness :
  parseSaslOAuth (js "xoauth2") (xoauth2Payload (js "a,=b") (js "tok en"))
    = Some {| oa_user := js "a,=b"; oa_token := js "tok en" |} /\
  parseSaslOAuth (js "OAuthBearer") (oauthbearerPayload (js "a,=b") (js "tok en"))
    = Some {| oa_user := js "a,=b"; oa_token := js "tok en" |}.
Proof.
  apply (parseSaslOAuth_roundtrip (js "a,=b") (js "tok en")); [done|by apply lit_notin|].
  repeat split; [done|by apply lit_notin|by repeat constructor].
Defined.
