(* ===== verification/Saslprep.v ===== *)
(** * SASLprep (packages/core/src/saslprep.ts)

    The Unicode tables the source inlines are written out; what comes from the
    runtime's Unicode data (NFKC, the letter and unassigned categories) is the class
    [UnicodeData]. *)

From S2P Require Import Prelude JsString Text.

Class UnicodeData := {
  normalizeNFKC : jsstr -> jsstr;
  isLetter : Z -> bool;      (* the general category L *)
  isUnassigned : Z -> bool   (* the general category Cn *)
}.

(** The code points of a string: a lone surrogate is one of its own. *)
Fixpoint codePoints (s : jsstr) : list Z :=
  match s with
  | [] => []
  | u :: s' =>
      if isHigh u then
        match s' with
        | v :: s'' =>
            if isLow v then (0x10000 + (u - 0xD800) * 1024 + (v - 0xDC00)) :: codePoints s''
            else u :: codePoints s'
        | [] => [u]
        end
      else u :: codePoints s'
  end.

Definition inRanges (rs : list (Z * Z)) (c : Z) : bool :=
  existsb (fun '(lo, hi) => (lo <=? c) && (c <=? hi)) rs.

Definition NON_ASCII_SPACE : list (Z * Z) :=
  [(0xA0, 0xA0); (0x1680, 0x1680); (0x2000, 0x200B); (0x202F, 0x202F); (0x205F, 0x205F); (0x3000, 0x3000)].

Definition MAPPED_TO_NOTHING : list (Z * Z) :=
  [(0xAD, 0xAD); (0x34F, 0x34F); (0x1806, 0x1806); (0x180B, 0x180D); (0x200C, 0x200D);
   (0x2060, 0x2060); (0xFE00, 0xFE0F); (0xFEFF, 0xFEFF)].

Definition PROHIBITED : list (Z * Z) :=
  NON_ASCII_SPACE ++
  [(0x0, 0x1F); (0x7F, 0x7F)] ++
  [(0x80, 0x9F); (0x6DD, 0x6DD); (0x70F, 0x70F); (0x180E, 0x180E); (0x200C, 0x200D); (0x2028, 0x2029);
   (0x2060, 0x2063); (0x206A, 0x206F); (0xFEFF, 0xFEFF); (0xFFF9, 0xFFFC); (0x1D173, 0x1D17A)] ++
  [(0xE000, 0xF8FF); (0xF0000, 0xFFFFD); (0x100000, 0x10FFFD)] ++
  (0xFDD0, 0xFDEF) :: map (fun p => (p * 0x10000 + 0xFFFE, p * 0x10000 + 0xFFFF))
                        [0; 1; 2; 3; 4; 5; 6; 7; 8; 9; 10; 11; 12; 13; 14; 15; 16] ++
  [(0xD800, 0xDFFF)] ++
  [(0xFFF9, 0xFFFD)] ++
  [(0x2FF0, 0x2FFB)] ++
  [(0x340, 0x341); (0x200E, 0x200F); (0x202A, 0x202E); (0x206A, 0x206F)] ++
  [(0xE0001, 0xE0001); (0xE0020, 0xE007F)].

Definition RAND_AL : list (Z * Z) :=
  [(0x5BE, 0x5BE); (0x5C0, 0x5C0); (0x5C3, 0x5C3); (0x5D0, 0x5EA); (0x5F0, 0x5F4); (0x61B, 0x61B);
   (0x61F, 0x61F); (0x621, 0x63A); (0x640, 0x64A); (0x66D, 0x66F); (0x671, 0x6D5); (0x6DD, 0x6DD);
   (0x6E5, 0x6E6); (0x6FA, 0x6FE); (0x700, 0x70D); (0x710, 0x710); (0x712, 0x72C); (0x780, 0x7A5);
   (0x7B1, 0x7B1); (0x200F, 0x200F); (0xFB1D, 0xFB1D); (0xFB1F, 0xFB28); (0xFB2A, 0xFB36);
   (0xFB38, 0xFB3C); (0xFB3E, 0xFB3E); (0xFB40, 0xFB41); (0xFB43, 0xFB44); (0xFB46, 0xFBB1);
   (0xFBD3, 0xFD3D); (0xFD50, 0xFD8F); (0xFD92, 0xFDC7); (0xFDF0, 0xFDFC); (0xFE70, 0xFE74);
   (0xFE76, 0xFEFC)].

Inductive SaslprepMode := stored | query.

Section Saslprep.
Context {U : UnicodeData}.

Definition bidiOk (s : jsstr) : bool :=
  let chars := codePoints s in
  if negb (existsb (inRanges RAND_AL) chars) then true
  else if existsb (fun c => isLetter c && negb (inRanges RAND_AL c)) chars then false
  else match chars with
       | [] => false
       | c :: _ => inRanges RAND_AL c && inRanges RAND_AL (List.last chars 0)
       end.

(** Both replacements act on single code units: no character of the two tables lies
    outside the basic plane. *)
Definition mapCharacters (s : jsstr) : jsstr :=
  List.filter (fun c => negb (inRanges MAPPED_TO_NOTHING c))
    (map (fun c => if inRanges NON_ASCII_SPACE c then SP else c) s).

Definition isPrintableAscii (c : Z) : bool := (0x20 <=? c) && (c <=? 0x7E).

Definition saslprep (input : jsstr) (mode : SaslprepMode) : option jsstr :=
  if forallb isPrintableAscii input then Some input
  else
    let normalized := normalizeNFKC (mapCharacters input) in
    if existsb (inRanges PROHIBITED) (codePoints normalized) then None
    else if (match mode with stored => true | query => false end)
            && existsb isUnassigned (codePoints normalized) then None
    else if negb (bidiOk normalized) then None
    else Some normalized.

(** ** Properties *)

Lemma existsb_false {A} (f : A -> bool) l : existsb f l = false -> forall x, x ∈ l -> f x = false.
Proof.
  intros H x Hx. destruct (f x) eqn:E; [|done].
  assert (existsb f l = true) by (apply existsb_exists; exists x; split; [by apply list_elem_of_In|done]).
  congruence.
Qed.

Lemma codePoints_ascii s :
  forallb isPrintableAscii s = true -> codePoints s = s.
Proof.
  induction s as [|u s IH]; [done|]. cbn [forallb codePoints]. intros [Hu Hs]%andb_true_iff.
  unfold isPrintableAscii, isHigh in *. bool_hyps.
  destruct (Z.leb_spec 0xD800 u); [lia|]. cbn. by rewrite IH.
Qed.

Lemma prohibited_ascii c : 0x20 <= c <= 0x7E -> inRanges PROHIBITED c = false.
Proof.
  intros Hc. destruct (inRanges PROHIBITED c) eqn:E; [|done]. exfalso.
  unfold inRanges in E. apply existsb_exists in E as ([lo hi] & Hin & H). bool_hyps.
  assert (Hall : forallb (fun p => (0x7F <=? fst p) || (snd p <=? 0x1F)) PROHIBITED = true) by done.
  rewrite forallb_forall in Hall. specialize (Hall _ Hin). cbn [fst snd] in Hall.
  apply orb_true_iff in Hall as [Hx|Hx]; bool_hyps; lia.
Qed.

(** What SASLprep lets through: the result of a successful preparation, whatever the
    runtime's Unicode tables, has no prohibited code point (controls, non-ASCII spaces,
    private use, non-characters, lone surrogates, tags), no unassigned one when the
    value is to be stored unless it is plain ASCII, and respects the bidirectional
    rule; printable ASCII is left unchanged. *)
Theorem saslprep_output input mode out :
  saslprep input mode = Some out ->
  (forall c, c ∈ codePoints out -> inRanges PROHIBITED c = false) /\
  (mode = stored -> (forall c, c ∈ codePoints out -> isUnassigned c = false) \/ out = input) /\
  (out = input \/ bidiOk out = true) /\
  (forallb isPrintableAscii input = true -> out = input).
Proof.
  unfold saslprep. destruct (forallb isPrintableAscii input) eqn:Ea.
  - intros [= <-]. split; [|auto]. rewrite codePoints_ascii by done. intros c Hc.
    rewrite forallb_forall in Ea. apply list_elem_of_In, Ea in Hc. unfold isPrintableAscii in Hc.
    bool_hyps. by apply prohibited_ascii.
  - destruct (existsb (inRanges PROHIBITED) _) eqn:Ep; [done|].
    destruct (_ && existsb isUnassigned _) eqn:Eu; [done|].
    destruct (bidiOk _) eqn:Eb; [|done]. cbn. intros [= <-].
    split; [by apply existsb_false|]. split; [|split; [by right|congruence]].
    intros ->. left. cbn in Eu. by apply existsb_false.
Qed.
End Saslprep.

(** A runtime that knows only Latin-1: enough to run the definitions. *)
Definition latinUnicode : UnicodeData :=
  {| normalizeNFKC := fun s => s; isLetter := fun c => (65 <=? c) && (c <=? 122);
     isUnassigned := fun c => 0x377 <? c |}.

Lemma saslprep_output_witness :
  (forall c, c ∈ codePoints (js "a b") -> inRanges PROHIBITED c = false) /\
  (stored = stored ->
     (forall c, c ∈ codePoints (js "a b") -> @isUnassigned latinUnicode c = false)
     \/ js "a b" = [97; 0xA0; 0xAD; 98]) /\
  (js "a b" = [97; 0xA0; 0xAD; 98] \/ @bidiOk latinUnicode (js "a b") = true) /\
  (forallb isPrintableAscii [97; 0xA0; 0xAD; 98] = true -> js "a b" = [97; 0xA0; 0xAD; 98]).
Proof.
  apply (@saslprep_output latinUnicode [97; 0xA0; 0xAD; 98] stored (js "a b")). by vm_compute.
Defined.
