(* ===== verification/Scram.v ===== *)
(** * SCRAM-SHA-256, server side (packages/core/src/scram.ts, scram-session.ts)

    node:crypto and node's lenient base64 decoder are the class [NodeCrypto]; the
    random bytes of the server nonce are an argument of [start].  [ScramServer] is the
    interface the protocol engines use, with the laws they rely on; the session below
    is its instance. *)

From S2P Require Import Prelude JsString Text Sasl Saslprep.

Class NodeCrypto := {
  hmacSha256 : bytes -> bytes -> bytes;
  sha256 : bytes -> bytes;
  pbkdf2Sha256 : bytes -> bytes -> Z -> bytes;
  bufferFromBase64 : jsstr -> bytes;
  hmac_length : forall k d, length (hmacSha256 k d) = 32%nat;
  hmac_bytes : forall k d, is_bytes (hmacSha256 k d);
  sha256_length : forall d, length (sha256 d) = 32%nat;
  bufferFromBase64_strict : forall s, strictBase64 s = true -> bufferFromBase64 s = base64Decode s
}.

Definition SCRAM_DEFAULT_ITERATIONS : Z := 100000.
Definition KEY_LEN : nat := 32.

(** Stored keys; the stored key is a SHA-256 digest, so it has that length. *)
Record ScramStoredKeys := mkKeys {
  sk_iterations : Z; sk_salt : bytes; sk_storedKey : bytes; sk_serverKey : bytes;
  sk_length : (length sk_storedKey =? KEY_LEN)%nat = true
}.

Inductive ScramStep :=
| NeedLookup (username : jsstr)
| NeedSend (message : jsstr)
| NeedDone (username message : jsstr)
| NeedFailed (username : option jsstr).

(** ** The interface of a server session *)

Class ScramServer := {
  ScramSession : Type;
  scramNew : bytes -> ScramSession;
  scramStart : bytes -> jsstr -> ScramSession -> ScramSession * ScramStep;
  scramProvideKeys : option ScramStoredKeys -> ScramSession -> ScramSession * ScramStep;
  scramFinal : jsstr -> ScramSession -> ScramSession * ScramStep;
  scramUser : ScramSession -> jsstr;
  scramStart_lookup : forall r m s s' u, scramStart r m s = (s', NeedLookup u) -> scramUser s' = u;
  scramProvideKeys_user : forall k s, scramUser (fst (scramProvideKeys k s)) = scramUser s;
  scramFinal_done : forall m s s' u msg,
    scramFinal m s = (s', NeedDone u msg) -> u = scramUser s /\ scramUser s' = scramUser s
}.

(** ** Messages *)

(** [=] not followed by [2C] or [3D] *)
Fixpoint hasBadEscape (v : jsstr) : bool :=
  match v with
  | [] => false
  | c :: v' =>
      ((c =? 61) && negb (startsWith (js "2C") v' || startsWith (js "3D") v')) || hasBadEscape v'
  end.

Definition is2C (x y : Z) : bool := (x =? 50) && (y =? 67).
Definition is3D (x y : Z) : bool := (x =? 51) && (y =? 68).

Definition unescapeName (v : jsstr) : option jsstr :=
  if hasBadEscape v then None
  else Some (replaceCode is3D 61 (replaceCode is2C 44 v)).

Record ClientFirst := mkClientFirst {
  cf_gs2Header : jsstr; cf_bare : jsstr; cf_username : jsstr; cf_clientNonce : jsstr
}.

(** [attrs], a Map in insertion order whose first value for a key stays. *)
Definition attrGet (k : jsstr) (m : list (jsstr * jsstr)) : option jsstr :=
  snd <$> find (fun p => fst p === k) m.

Fixpoint parseAttrs (parts : list jsstr) (m : list (jsstr * jsstr)) : option (list (jsstr * jsstr)) :=
  match parts with
  | [] => Some m
  | part :: parts' =>
      match indexOf 61 part with
      | None | Some O => None
      | Some eq =>
          parseAttrs parts'
            (match attrGet (take eq part) m with
             | Some _ => m
             | None => m ++ [(take eq part, drop (S eq) part)]
             end)
      end
  end.

Definition isNonceChar (c : Z) : bool :=
  ((0x21 <=? c) && (c <=? 0x2b)) || ((0x2d <=? c) && (c <=? 0x7e)).

(** The GS2 header: a flag ([n], [y] or [p=...]), an authorisation identity, and the
    two commas; what follows is the bare message. *)
Definition splitGs2 (message : jsstr) : option (jsstr * jsstr) :=
  match indexOf 44 message with
  | None => None
  | Some i =>
      let flag := take i message in
      if (flag === js "n") || (flag === js "y") || (startsWith (js "p=") flag && (2 <? len flag)) then
        match indexOf 44 (drop (S i) message) with
        | None => None
        | Some j => Some (take (S i + S j) message, drop (S i + S j) message)
        end
      else None
  end.

Definition parseClientFirst (message : jsstr) : option ClientFirst :=
  match splitGs2 message with
  | None => None
  | Some (gs2Header, bare) =>
      if startsWith (js "p=") gs2Header then None
      else match parseAttrs (splitOn 44 bare) [] with
      | None => None
      | Some attrs =>
          match attrGet (js "n") attrs, attrGet (js "r") attrs with
          | Some rawUser, Some ((_ :: _) as clientNonce) =>
              match unescapeName rawUser with
              | None => None
              | Some username =>
                  if negb (forallb isNonceChar clientNonce) then None
                  else Some {| cf_gs2Header := gs2Header; cf_bare := bare;
                               cf_username := username; cf_clientNonce := clientNonce |}
              end
          | _, _ => None
          end
      end
  end.

(** [serverNonce()] for the 18 random bytes drawn *)
Definition serverNonce (rnd : bytes) : jsstr := base64Encode rnd.

Definition buildServerFirst (clientNonce serverNonce : jsstr) (salt : bytes) (iterations : Z) : jsstr :=
  js "r=" ++ clientNonce ++ serverNonce ++ js ",s=" ++ base64Encode salt ++ js ",i=" ++ numToString iterations.

(** [s.lastIndexOf(p)] for a longer needle *)
Fixpoint lastIndexOfStr (p s : jsstr) : option nat :=
  match s with
  | [] => None
  | _ :: s' =>
      match lastIndexOfStr p s' with
      | Some i => Some (S i)
      | None => if startsWith p s then Some O else None
      end
  end.

Inductive ClientFinalVerdict :=
| VerdictOk (serverFinal : jsstr)
| VerdictFail (reason : string).

Section Scram.
Context {C : NodeCrypto}.

(** [hmac(key, data)] on a string hashes its UTF-8 bytes. *)
Definition hmacStr (key : bytes) (data : jsstr) : bytes := hmacSha256 key (utf8Encode data).

(** [proof[i] ^ clientSignature[i]] over the key length *)
Definition xorKey (a b : bytes) : bytes :=
  map (fun i => Z.lxor (nth i a 0) (nth i b 0)) (seq 0 KEY_LEN).

Record ScramKeys := mkScramKeys {
  k_salt : bytes; k_iterations : Z; k_storedKey : bytes; k_serverKey : bytes
}.

Definition scramPassword {U : UnicodeData} (password : jsstr) : jsstr :=
  default password (saslprep password query).

Definition deriveScramKeys {U : UnicodeData} (password : jsstr) (salt : bytes) (iterations : Z) : ScramKeys :=
  let saltedPassword := pbkdf2Sha256 (utf8Encode (scramPassword password)) salt iterations in
  let clientKey := hmacStr saltedPassword (js "Client Key") in
  {| k_salt := salt; k_iterations := iterations; k_storedKey := sha256 clientKey;
     k_serverKey := hmacStr saltedPassword (js "Server Key") |}.

Definition verifyClientFinal (clientFirstBare serverFirst clientFinal expectedNonce gs2Header : jsstr)
    (storedKey serverKey : bytes) : ClientFinalVerdict :=
  match lastIndexOfStr (js ",p=") clientFinal with
  | None => VerdictFail "no-proof"
  | Some proofIdx =>
      let withoutProof := take proofIdx clientFinal in
      let proofB64 := drop (proofIdx + 3) clientFinal in
      match parseAttrs (splitOn 44 withoutProof) [] with
      | None => VerdictFail "malformed"
      | Some attrs =>
          if negb (match attrGet (js "c") attrs with
                   | Some c => c === base64Encode (utf8Encode gs2Header) | None => false end)
          then VerdictFail "channel-binding-mismatch"
          else if negb (match attrGet (js "r") attrs with
                        | Some r => r === expectedNonce | None => false end)
          then VerdictFail "nonce-mismatch"
          else
            let proof := bufferFromBase64 proofB64 in
            if negb (length proof =? KEY_LEN)%nat then VerdictFail "malformed-proof"
            else
              let authMessage := clientFirstBare ++ js "," ++ serverFirst ++ js "," ++ withoutProof in
              let clientSignature := hmacStr storedKey authMessage in
              let clientKey := xorKey proof clientSignature in
              if negb (sha256 clientKey === storedKey) then VerdictFail "bad-proof"
              else
                let serverSignature := hmacStr serverKey authMessage in
                VerdictOk (js "v=" ++ base64Encode serverSignature)
      end
  end.

(** ** The session *)

Inductive SessionState := SInit | SAwaitingKeys | SAwaitingFinal | SClosed.

Record Session := mkSession {
  ss_state : SessionState;
  ss_clientFirstBare : jsstr;
  ss_gs2Header : jsstr;
  ss_username : jsstr;
  ss_clientNonce : jsstr;
  ss_serverNoncePart : jsstr;
  ss_fullNonce : jsstr;
  ss_serverFirst : jsstr;
  ss_keys : option ScramStoredKeys;
  ss_decoySecret : bytes
}.

Definition newSession (decoySecret : bytes) : Session :=
  {| ss_state := SInit; ss_clientFirstBare := []; ss_gs2Header := []; ss_username := [];
     ss_clientNonce := []; ss_serverNoncePart := []; ss_fullNonce := []; ss_serverFirst := [];
     ss_keys := None; ss_decoySecret := decoySecret |}.

Lemma fakeStored_length k d : (length (hmacStr k d) =? KEY_LEN)%nat = true.
Proof. unfold hmacStr. by rewrite hmac_length. Qed.

Definition fakeKeys (username : jsstr) (secret : bytes) : ScramStoredKeys :=
  {| sk_iterations := SCRAM_DEFAULT_ITERATIONS;
     sk_salt := take 16 (hmacStr secret (js "salt:" ++ username));
     sk_storedKey := hmacStr secret (js "stored:" ++ username);
     sk_serverKey := hmacStr secret (js "server:" ++ username);
     sk_length := fakeStored_length secret (js "stored:" ++ username) |}.

Definition fail (s : Session) : Session * ScramStep :=
  (s <| ss_state := SClosed |>,
   NeedFailed (match ss_username s with [] => None | u => Some u end)).

Definition start (rnd : bytes) (clientFirst : jsstr) (s : Session) : Session * ScramStep :=
  match ss_state s with
  | SInit =>
      match parseClientFirst clientFirst with
      | None => fail s
      | Some cf =>
          ({| ss_state := SAwaitingKeys; ss_clientFirstBare := cf_bare cf;
              ss_gs2Header := cf_gs2Header cf; ss_username := cf_username cf;
              ss_clientNonce := cf_clientNonce cf; ss_serverNoncePart := serverNonce rnd;
              ss_fullNonce := cf_clientNonce cf ++ serverNonce rnd;
              ss_serverFirst := ss_serverFirst s; ss_keys := ss_keys s;
              ss_decoySecret := ss_decoySecret s |},
           NeedLookup (cf_username cf))
      end
  | _ => fail s
  end.

Definition provideKeys (keys : option ScramStoredKeys) (s : Session) : Session * ScramStep :=
  match ss_state s with
  | SAwaitingKeys =>
      let k := match keys with Some k => k | None => fakeKeys (ss_username s) (ss_decoySecret s) end in
      let serverFirst :=
        buildServerFirst (ss_clientNonce s) (ss_serverNoncePart s) (sk_salt k) (sk_iterations k) in
      (s <| ss_keys := Some k |> <| ss_serverFirst := serverFirst |> <| ss_state := SAwaitingFinal |>,
       NeedSend serverFirst)
  | _ => fail s
  end.

Definition final (clientFinal : jsstr) (s : Session) : Session * ScramStep :=
  match ss_state s, ss_keys s with
  | SAwaitingFinal, Some k =>
      let v := verifyClientFinal (ss_clientFirstBare s) (ss_serverFirst s) clientFinal (ss_fullNonce s)
                 (ss_gs2Header s) (sk_storedKey k) (sk_serverKey k) in
      let s := s <| ss_state := SClosed |> in
      match v with
      | VerdictOk ((_ :: _) as serverFinal) => (s, NeedDone (ss_username s) serverFinal)
      | _ => fail s
      end
  | _, _ => fail s
  end.
End Scram.

Arguments verifyClientFinal : simpl never.
Arguments parseClientFirst : simpl never.

(** ** The session implements the interface *)

Section Instance_.
Context {C : NodeCrypto}.

Lemma start_lookup rnd m s s' u : start rnd m s = (s', NeedLookup u) -> ss_username s' = u.
Proof.
  unfold start, fail. destruct (ss_state s); try done.
  destruct (parseClientFirst m); [|done]. by intros [= <- <-].
Qed.

Lemma provideKeys_user k s : ss_username (fst (provideKeys k s)) = ss_username s.
Proof. unfold provideKeys, fail. by destruct (ss_state s). Qed.

Lemma final_done m s s' u msg :
  final m s = (s', NeedDone u msg) -> u = ss_username s /\ ss_username s' = ss_username s.
Proof.
  unfold final, fail. destruct (ss_state s); try done. destruct (ss_keys s); [|done].
  destruct (verifyClientFinal _ _ _ _ _ _ _) as [[|c v]|]; try done. by intros [= <- <- <-].
Qed.

#[global] Instance session_server : ScramServer := {|
  ScramSession := Session;
  scramNew := newSession;
  scramStart := start;
  scramProvideKeys := provideKeys;
  scramFinal := final;
  scramUser := ss_username;
  scramStart_lookup := start_lookup;
  scramProvideKeys_user := provideKeys_user;
  scramFinal_done := final_done
|}.
End Instance_.

(** ** Lemmas: strings of the exchange *)

Lemma b64Char_ne v c : isB64 c = false -> 0 <= v < 64 -> c <> b64Char v.
Proof. intros Hc Hv ->. unfold isB64 in Hc. by rewrite b64Val_char in Hc. Qed.

Lemma base64Encode_chars bs c :
  is_bytes bs -> isB64 c = false -> c <> PAD -> c ∉ base64Encode bs.
Proof.
  intros Hb Hc Hp. remember (length bs) as n eqn:En. assert (Hn : (length bs <= n)%nat) by lia.
  clear En. revert bs Hn Hb. induction n as [|n IH]; intros [|x [|y [|z bs]]] Hn Hb;
    try (by apply not_elem_of_nil); try (simpl in Hn; lia);
    repeat match goal with H : is_bytes (_ :: _) |- _ => apply Forall_cons in H as [? ?]
                         | H : Forall is_byte (_ :: _) |- _ => apply Forall_cons in H as [? ?] end;
    unfold is_byte in *;
    assert (0 <= x / 4 < 64) by (split; [apply Z.div_pos|apply Z.div_lt_upper_bound]; lia);
    pose proof (Z.mod_pos_bound x 4 ltac:(lia));
    cbn [base64Encode]; rewrite ?not_elem_of_cons.
  - repeat split; first [done|apply not_elem_of_nil|apply b64Char_ne; [done|lia]].
  - assert (0 <= y / 16 < 16) by (split; [apply Z.div_pos|apply Z.div_lt_upper_bound]; lia).
    pose proof (Z.mod_pos_bound y 16 ltac:(lia)).
    repeat split; first [done|apply not_elem_of_nil|apply b64Char_ne; [done|lia]].
  - assert (0 <= y / 16 < 16) by (split; [apply Z.div_pos|apply Z.div_lt_upper_bound]; lia).
    assert (0 <= z / 64 < 4) by (split; [apply Z.div_pos|apply Z.div_lt_upper_bound]; lia).
    pose proof (Z.mod_pos_bound y 16 ltac:(lia)). pose proof (Z.mod_pos_bound z 64 ltac:(lia)).
    repeat split; try (apply b64Char_ne; [done|lia]).
    apply IH; [simpl in *; lia|done].
Qed.

Lemma lastIndexOfStr_None p s : head p = Some 44 -> 44 ∉ s -> lastIndexOfStr p s = None.
Proof.
  intros Hp. induction s as [|c s IH]; [done|]. intros Hs. cbn [lastIndexOfStr].
  rewrite IH by set_solver. destruct p as [|x p]; [done|]. injection Hp as ->. cbn [startsWith].
  destruct (Z.eqb_spec 44 c); [set_solver|done].
Qed.

Lemma lastIndexOfStr_last p x y :
  head p = Some 44 -> 44 ∉ tail p -> 44 ∉ y -> lastIndexOfStr p (x ++ p ++ y) = Some (length x).
Proof.
  intros Hp Ht Hy. induction x as [|c x IH]; cbn [app length].
  - destruct p as [|c p]; [done|]. cbn [app lastIndexOfStr].
    rewrite lastIndexOfStr_None; [|done|cbn in Ht; set_solver].
    change (c :: p ++ y) with ((c :: p) ++ y). by rewrite startsWith_app.
  - cbn [lastIndexOfStr]. by rewrite IH.
Qed.

Lemma xorKey_length a b : length (xorKey a b) = KEY_LEN.
Proof. unfold xorKey. by rewrite length_map, length_seq. Qed.

Lemma xorKey_nth a b i : (i < KEY_LEN)%nat -> nth i (xorKey a b) 0 = Z.lxor (nth i a 0) (nth i b 0).
Proof.
  intros Hi. unfold xorKey. erewrite nth_indep by (by rewrite length_map, length_seq).
  rewrite (map_nth (fun i => Z.lxor (nth i a 0) (nth i b 0)) (seq 0 KEY_LEN) 0%nat i).
  by rewrite seq_nth.
Qed.

(** XOR with the same signature twice gives back the key. *)
Lemma xorKey_involutive k s : length k = KEY_LEN -> xorKey (xorKey k s) s = k.
Proof.
  intros Hk. apply (nth_ext _ _ 0 0); [by rewrite xorKey_length|].
  rewrite xorKey_length. intros i Hi. rewrite !xorKey_nth by done.
  by rewrite Z.lxor_assoc, Z.lxor_nilpotent, Z.lxor_0_r.
Qed.

Lemma lxor_byte a b : is_byte a -> is_byte b -> is_byte (Z.lxor a b).
Proof.
  unfold is_byte. intros Ha Hb. split; [apply Z.lxor_nonneg; lia|].
  destruct (Z.eq_dec (Z.lxor a b) 0) as [->|Hne]; [lia|].
  assert (0 <= Z.lxor a b) by (apply Z.lxor_nonneg; lia).
  change 256 with (2 ^ 8). apply Z.log2_lt_pow2; [lia|]. pose proof (Z.log2_lxor a b ltac:(lia) ltac:(lia)).
  assert (Z.log2 a <= 7) by (change 7 with (Z.log2 255); apply Z.log2_le_mono; lia).
  assert (Z.log2 b <= 7) by (change 7 with (Z.log2 255); apply Z.log2_le_mono; lia). lia.
Qed.

Lemma nth_byte l i : is_bytes l -> is_byte (nth i l 0).
Proof.
  intros Hl. destruct (nth_in_or_default i l 0) as [Hin| ->]; [|unfold is_byte; lia].
  unfold is_bytes in Hl. rewrite Forall_forall in Hl. apply Hl. by apply list_elem_of_In.
Qed.

Lemma xorKey_bytes a b : is_bytes a -> is_bytes b -> is_bytes (xorKey a b).
Proof.
  intros Ha Hb. unfold is_bytes, xorKey. apply List.Forall_forall. intros x Hx.
  apply in_map_iff in Hx as (i & <- & _). apply lxor_byte; by apply nth_byte.
Qed.

(** ** The client of RFC 5802, without channel binding *)

Section Client.
Context {C : NodeCrypto} {U : UnicodeData}.

Definition clientFirstBare (user nonce : jsstr) : jsstr :=
  (js "n=" ++ escapeGs2 user) ++ 44 :: js "r=" ++ nonce.

Definition clientFirstMessage (user nonce : jsstr) : jsstr := js "n,," ++ clientFirstBare user nonce.

Definition clientFinalBare (nonce : jsstr) : jsstr :=
  (js "c=" ++ base64Encode (utf8Encode (js "n,,"))) ++ 44 :: js "r=" ++ nonce.

(** The messages signed by both sides. *)
Definition authMessageOf (user clientNonce nonce serverFirst : jsstr) : jsstr :=
  clientFirstBare user clientNonce ++ js "," ++ serverFirst ++ js "," ++ clientFinalBare nonce.

Definition clientKeyOf (password : jsstr) (salt : bytes) (iterations : Z) : bytes :=
  hmacStr (pbkdf2Sha256 (utf8Encode (scramPassword password)) salt iterations) (js "Client Key").

Definition clientFinalMessage (password : jsstr) (salt : bytes) (iterations : Z)
    (user clientNonce nonce serverFirst : jsstr) : jsstr :=
  let ck := clientKeyOf password salt iterations in
  let proof := xorKey ck (hmacStr (sha256 ck) (authMessageOf user clientNonce nonce serverFirst)) in
  clientFinalBare nonce ++ js ",p=" ++ base64Encode proof.

Lemma derived_length password salt iterations :
  (length (k_storedKey (deriveScramKeys password salt iterations)) =? KEY_LEN)%nat = true.
Proof. cbn. by rewrite sha256_length. Qed.

(** The keys the store keeps for a password. *)
Definition storedKeysOf (password : jsstr) (salt : bytes) (iterations : Z) : ScramStoredKeys :=
  let k := deriveScramKeys password salt iterations in
  {| sk_iterations := k_iterations k; sk_salt := k_salt k; sk_storedKey := k_storedKey k;
     sk_serverKey := k_serverKey k; sk_length := derived_length password salt iterations |}.

Lemma hasBadEscape_escape s : hasBadEscape (escapeGs2 s) = false.
Proof.
  induction s as [|c s IH]; [done|]. rewrite escapeGs2_cons.
  destruct (Z.eqb_spec c 44) as [->|]; [|destruct (Z.eqb_spec c 61) as [->|]].
  - change (js "=2C" ++ escapeGs2 s) with (61 :: 50 :: 67 :: escapeGs2 s). cbn. exact IH.
  - change (js "=3D" ++ escapeGs2 s) with (61 :: 51 :: 68 :: escapeGs2 s). cbn. exact IH.
  - cbn [app hasBadEscape]. by rewrite (proj2 (Z.eqb_neq c 61)).
Qed.

Lemma unescapeName_escape s : unescapeName (escapeGs2 s) = Some s.
Proof.
  unfold unescapeName. rewrite hasBadEscape_escape. f_equal. by apply replaceCode_escape.
Qed.

(** Two attributes, each named by one letter. *)
Lemma parseAttrs_two x y v w :
  (x =? 61) = false -> (y =? 61) = false -> (x =? y) = false ->
  parseAttrs [x :: 61 :: v; y :: 61 :: w] [] = Some [([x], v); ([y], w)].
Proof.
  intros Hx Hy Hxy. cbn [parseAttrs indexOf]. rewrite Hx, Hy. cbn. by rewrite Hxy.
Qed.

Lemma nonce_no_comma n : forallb isNonceChar n = true -> 44 ∉ n.
Proof. intros H Hin. rewrite forallb_forall in H. by apply list_elem_of_In, H in Hin. Qed.

Lemma parseClientFirst_honest user nonce :
  nonce <> [] -> forallb isNonceChar nonce = true ->
  parseClientFirst (clientFirstMessage user nonce)
  = Some {| cf_gs2Header := js "n,,"; cf_bare := clientFirstBare user nonce;
            cf_username := user; cf_clientNonce := nonce |}.
Proof.
  intros Hne Hn. unfold parseClientFirst, clientFirstMessage.
  change (splitGs2 (js "n,," ++ clientFirstBare user nonce)) with
    (Some (js "n,,", clientFirstBare user nonce)). cbv iota beta.
  change (startsWith (js "p=") (js "n,,")) with false. cbv iota.
  unfold clientFirstBare at 1. rewrite splitOn_app; cycle 1.
  { rewrite not_elem_of_app. split; [by apply lit_notin|apply escapeGs2_no_comma]. }
  rewrite splitOn_notin; cycle 1.
  { rewrite not_elem_of_app. split; [by apply lit_notin|by apply nonce_no_comma]. }
  change (js "n=" ++ escapeGs2 user) with (110 :: 61 :: escapeGs2 user).
  change (js "r=" ++ nonce) with (114 :: 61 :: nonce). rewrite parseAttrs_two by done.
  change (attrGet (js "n") _) with (Some (escapeGs2 user)).
  change (attrGet (js "r") _) with (Some nonce). cbv iota.
  destruct nonce as [|c n]; [done|]. by rewrite unescapeName_escape, Hn.
Qed.

Lemma clientKey_length password salt iterations :
  length (clientKeyOf password salt iterations) = KEY_LEN.
Proof. apply hmac_length. Qed.

(** The verification accepts the proof of the right password. *)
Lemma verifyClientFinal_honest password salt iterations user cn nonce sf :
  44 ∉ nonce ->
  verifyClientFinal (clientFirstBare user cn) sf
    (clientFinalMessage password salt iterations user cn nonce sf) nonce (js "n,,")
    (k_storedKey (deriveScramKeys password salt iterations))
    (k_serverKey (deriveScramKeys password salt iterations))
  = VerdictOk (js "v=" ++ base64Encode (hmacStr (k_serverKey (deriveScramKeys password salt iterations))
                                          (authMessageOf user cn nonce sf))).
Proof.
  intros Hn. unfold verifyClientFinal, clientFinalMessage.
  set (ck := clientKeyOf password salt iterations).
  set (auth := authMessageOf user cn nonce sf).
  set (proof := xorKey ck (hmacStr (sha256 ck) auth)).
  assert (Hpb : is_bytes proof) by (apply xorKey_bytes; apply hmac_bytes).
  rewrite lastIndexOfStr_last; [|done|by apply lit_notin|by apply base64Encode_chars].
  rewrite take_app_length.
  replace (drop _ _) with (base64Encode proof)
    by (rewrite <- drop_drop, drop_app_length; done).
  unfold clientFinalBare at 1.
  rewrite splitOn_app by (by apply lit_notin).
  rewrite splitOn_notin by (rewrite not_elem_of_app; split; [by apply lit_notin|done]).
  change (js "c=" ++ base64Encode (utf8Encode (js "n,,")))
    with (99 :: 61 :: base64Encode (utf8Encode (js "n,,"))).
  change (js "r=" ++ nonce) with (114 :: 61 :: nonce). rewrite parseAttrs_two by done.
  change (attrGet (js "c") _) with (Some (base64Encode (utf8Encode (js "n,,")))).
  change (attrGet (js "r") _) with (Some nonce). cbv iota. rewrite !seqb_refl. cbn [negb].
  destruct (base64_roundtrip proof Hpb) as [Hs Hd]. rewrite bufferFromBase64_strict, Hd by done.
  assert (Hl : (length proof =? KEY_LEN)%nat = true) by (apply Nat.eqb_eq, xorKey_length).
  rewrite Hl. cbn [negb]. change (k_storedKey (deriveScramKeys password salt iterations)) with (sha256 ck).
  fold (authMessageOf user cn nonce sf). fold auth.
  assert (Hx : xorKey proof (hmacStr (sha256 ck) auth) = ck)
    by (apply xorKey_involutive, clientKey_length).
  rewrite Hx, seqb_refl. done.
Qed.
End Client.

(** ** Properties *)

Section Properties.
Context {C : NodeCrypto} {U : UnicodeData}.

Lemma js_cons_ne c t (l : jsstr) : js (String c t) ++ l <> [].
Proof. done. Qed.

(** The three calls in sequence, on messages that parse and verify. *)
Lemma exchange_accepts rnd cf pcf secret keys m v :
  parseClientFirst cf = Some pcf -> v <> [] ->
  let sf := buildServerFirst (cf_clientNonce pcf) (serverNonce rnd) (sk_salt keys) (sk_iterations keys) in
  verifyClientFinal (cf_bare pcf) sf m (cf_clientNonce pcf ++ serverNonce rnd) (cf_gs2Header pcf)
    (sk_storedKey keys) (sk_serverKey keys) = VerdictOk v ->
  let '(s1, r1) := start rnd cf (newSession secret) in
  let '(s2, r2) := provideKeys (Some keys) s1 in
  let '(s3, r3) := final m s2 in
  r1 = NeedLookup (cf_username pcf) /\ r2 = NeedSend sf /\ r3 = NeedDone (cf_username pcf) v.
Proof.
  intros Hp Hv sf Hf. unfold start. cbn [newSession ss_state]. rewrite Hp.
  unfold provideKeys, final. cbn. fold sf. rewrite Hf. by destruct v.
Qed.

(** Completeness of the exchange: a client of RFC 5802 that knows the password the
    stored keys were derived from is accepted, for every user name (escaped as a
    saslname), client nonce, server randomness, salt and iteration count; the lookup
    is for that user, and the final message carries the server's signature over the
    same authentication message. *)
Theorem scram_honest_accepted password salt iterations user cn rnd secret :
  cn <> [] -> forallb isNonceChar cn = true -> is_bytes rnd ->
  let '(s1, r1) := start rnd (clientFirstMessage user cn) (newSession secret) in
  let '(s2, r2) := provideKeys (Some (storedKeysOf password salt iterations)) s1 in
  let nonce := cn ++ serverNonce rnd in
  let sf := buildServerFirst cn (serverNonce rnd) salt iterations in
  let '(s3, r3) := final (clientFinalMessage password salt iterations user cn nonce sf) s2 in
  r1 = NeedLookup user /\ r2 = NeedSend sf /\
  r3 = NeedDone user (js "v=" ++ base64Encode
         (hmacStr (k_serverKey (deriveScramKeys password salt iterations)) (authMessageOf user cn nonce sf))).
Proof.
  intros Hne Hn Hr.
  assert (Hc : 44 ∉ cn ++ serverNonce rnd).
  { rewrite not_elem_of_app. split; [by apply nonce_no_comma|by apply base64Encode_chars]. }
  exact (exchange_accepts rnd _ _ secret (storedKeysOf password salt iterations) _ _
    (parseClientFirst_honest user cn Hne Hn) (js_cons_ne _ _ _)
    (verifyClientFinal_honest password salt iterations user cn _ _ Hc)).
Qed.

(** C6: Soundness of the exchange: a session reports success only for the user whose
    keys were looked up, only on a final message that repeats the nonce of this session
    and the GS2 header of its first message, and whose proof opens the stored key over
    exactly the messages of this exchange; and it answers no second attempt. *)
Theorem scram_done_sound rnd cf secret s1 u0 keys s2 sf m s3 u msg :
  start rnd cf (newSession secret) = (s1, NeedLookup u0) ->
  provideKeys keys s1 = (s2, NeedSend sf) ->
  final m s2 = (s3, NeedDone u msg) ->
  let k := match keys with Some k => k | None => fakeKeys u0 secret end in
  u = u0 /\
  (exists pcf body proof64 attrs,
     parseClientFirst cf = Some pcf /\ cf_username pcf = u /\
     m = body ++ js ",p=" ++ proof64 /\
     parseAttrs (splitOn 44 body) [] = Some attrs /\
     attrGet (js "r") attrs = Some (cf_clientNonce pcf ++ serverNonce rnd) /\
     attrGet (js "c") attrs = Some (base64Encode (utf8Encode (cf_gs2Header pcf))) /\
     let auth := cf_bare pcf ++ js "," ++ sf ++ js "," ++ body in
     sha256 (xorKey (bufferFromBase64 proof64) (hmacStr (sk_storedKey k) auth)) = sk_storedKey k /\
     msg = js "v=" ++ base64Encode (hmacStr (sk_serverKey k) auth)) /\
  (forall m', snd (final m' s3) = NeedFailed (match u with [] => None | _ => Some u end)).
Proof.
  unfold start. cbn [newSession ss_state].
  destruct (parseClientFirst cf) as [pcf|] eqn:Ecf; [|done]. intros [= <- <-].
  unfold provideKeys. cbn. intros [= <- <-]. unfold final. cbn.
  set (k := match keys with Some _ => _ | None => _ end).
  destruct (verifyClientFinal _ _ _ _ _ _ _) as [[|c v]|] eqn:Ev; try done.
  intros [= <- <- <-]. split; [done|]. split; [|intros m'; cbn; by destruct (cf_username pcf)].
  revert Ev. unfold verifyClientFinal.
  destruct (lastIndexOfStr (js ",p=") m) as [i|] eqn:Ei; [|done].
  destruct (parseAttrs _ []) as [attrs|] eqn:Ea; [|done].
  destruct (attrGet (js "c") attrs) as [vc|] eqn:Ec; [|done].
  destruct (seqb_spec vc (base64Encode (utf8Encode (cf_gs2Header pcf)))) as [->|]; [|done]. cbn [negb].
  destruct (attrGet (js "r") attrs) as [vr|] eqn:Er; [|done].
  destruct (seqb_spec vr (cf_clientNonce pcf ++ serverNonce rnd)) as [->|]; [|done]. cbn [negb].
  destruct (length _ =? KEY_LEN)%nat; [|done]. cbn [negb].
  match goal with |- context [sha256 ?x === ?y] => destruct (seqb_spec (sha256 x) y) as [Hsha|] end;
    [|done].
  cbn [negb]. intros [= <- <-].
  exists pcf, (take i m), (drop (i + 3) m), attrs. split; [done|]. split; [done|].
  split; [|by repeat split].
  enough (H : forall i, lastIndexOfStr (js ",p=") m = Some i -> m = take i m ++ js ",p=" ++ drop (i + 3) m)
    by (by apply H).
  clear. induction m as [|x m IH]; cbn [lastIndexOfStr]; [done|]. intros i.
  destruct (lastIndexOfStr (js ",p=") m) as [j|].
  - intros [= <-]. cbn. f_equal. by apply IH.
  - destruct (startsWith (js ",p=") (x :: m)) eqn:E; [|done]. intros [= <-].
    change (js ",p=") with [44; 112; 61] in *. destruct m as [|y [|z m]]; cbn [startsWith] in E;
      bool_hyps; try done. by subst.
Qed.
End Properties.

(** A toy runtime, on which the hypotheses of the class hold. *)
Definition toyDigest (bs : bytes) : bytes :=
  map (fun i => (fold_left Z.add bs 7 * 31 + Z.of_nat i) mod 256) (seq 0 32).

Lemma toyDigest_length d : length (toyDigest d) = 32%nat.
Proof. unfold toyDigest. by rewrite length_map, length_seq. Qed.

Lemma toyDigest_bytes d : is_bytes (toyDigest d).
Proof.
  apply List.Forall_forall. intros x Hx. apply in_map_iff in Hx as (i & <- & _).
  unfold is_byte. pose proof (Z.mod_pos_bound (fold_left Z.add d 7 * 31 + Z.of_nat i) 256). lia.
Qed.

Definition toyCrypto : NodeCrypto := {|
  hmacSha256 := fun k d => toyDigest (k ++ d);
  sha256 := toyDigest;
  pbkdf2Sha256 := fun p s n => p ++ s ++ [n];
  bufferFromBase64 := base64Decode;
  hmac_length := fun k d => toyDigest_length (k ++ d);
  hmac_bytes := fun k d => toyDigest_bytes (k ++ d);
  sha256_length := toyDigest_length;
  bufferFromBase64_strict := fun s _ => eq_refl
|}.

Definition toyMessage : jsstr :=
  @clientFinalMessage toyCrypto latinUnicode (js "pw") [1; 2] 4096 (js "a,b") (js "xyz")
    (js "xyz" ++ serverNonce [1; 2; 3]) (buildServerFirst (js "xyz") (serverNonce [1; 2; 3]) [1; 2] 4096).

Definition toyStart := start [1; 2; 3] (clientFirstMessage (js "a,b") (js "xyz")) (newSession [9]).
Definition toyKeys := @storedKeysOf toyCrypto latinUnicode (js "pw") [1; 2] 4096.
Definition toyProvide := @provideKeys toyCrypto (Some toyKeys) toyStart.1.
Definition toyFinal := @final toyCrypto toyMessage toyProvide.1.

Lemma scram_honest_accepted_witness :
  toyStart.2 = NeedLookup (js "a,b") /\
  exists v, toyFinal.2 = NeedDone (js "a,b") v.
Proof.
  pose proof (@scram_honest_accepted toyCrypto latinUnicode (js "pw") [1; 2] 4096 (js "a,b") (js "xyz")
    [1; 2; 3] [9] ltac:(done) ltac:(done) ltac:(repeat constructor; unfold is_byte; lia)) as H.
  change (start [1; 2; 3] _ _) with toyStart in H.
  destruct toyStart as [s1 r1] eqn:E1. unfold toyFinal, toyProvide. rewrite E1. cbn [fst snd].
  change (storedKeysOf _ _ _) with toyKeys in H.
  destruct (provideKeys (Some toyKeys) s1) as [s2 r2]. cbn [fst] in *.
  change (clientFinalMessage _ _ _ _ _ _ _) with toyMessage in H.
  destruct (final toyMessage s2) as [s3 r3]. destruct H as (H1 & _ & H3). cbn. eauto.
Defined.

Definition toyServerFirst : jsstr := match toyProvide.2 with NeedSend m => m | _ => [] end.
Definition toyServerFinal : jsstr := match toyFinal.2 with NeedDone _ m => m | _ => [] end.

Lemma toyStart_eq :
  start [1; 2; 3] (clientFirstMessage (js "a,b") (js "xyz")) (newSession [9]) = (toyStart.1, NeedLookup (js "a,b")).
Proof. apply injective_projections; [reflexivity|vm_compute; reflexivity]. Qed.
Lemma toyProvide_eq :
  @provideKeys toyCrypto (Some toyKeys) toyStart.1 = (toyProvide.1, NeedSend toyServerFirst).
Proof. apply injective_projections; [reflexivity|vm_compute; reflexivity]. Qed.
Lemma toyFinal_eq :
  @final toyCrypto toyMessage toyProvide.1 = (toyFinal.1, NeedDone (js "a,b") toyServerFinal).
Proof. apply injective_projections; [reflexivity|vm_compute; reflexivity]. Qed.

Lemma scram_done_sound_witness :
  js "a,b" = js "a,b" /\
  (forall m', snd (@final toyCrypto m' toyFinal.1) = NeedFailed (Some (js "a,b"))).
Proof.
  destruct (@scram_done_sound toyCrypto [1; 2; 3] (clientFirstMessage (js "a,b") (js "xyz")) [9]
    toyStart.1 (js "a,b") (Some toyKeys) toyProvide.1 toyServerFirst toyMessage toyFinal.1 (js "a,b")
    toyServerFinal toyStart_eq toyProvide_eq toyFinal_eq)
    as (H1 & _ & H3).
  split; [exact H1|exact H3].
Defined.
