(* ===== verification/JsNumber.v ===== *)
(** * [Number(string)] and IEEE double rounding

    The conversion the engines apply to client-supplied numbers (SIZE=, BDAT, POP3
    message numbers): the StringNumericLiteral grammar, and rounding of the exact value
    to the nearest double, ties to even, with overflow to infinity and underflow to 0. *)

From S2P Require Import Prelude JsString.

(** What the engines ask of a number: whether it is finite and an integer, and which; of a fraction,
    the integer below it. *)
Inductive JsNum := NumNaN | NumInf (negative : bool) | NumFrac (floor : Z) | NumInt (z : Z).

(** The integer nearest to [a / b], ties to even. *)
Definition roundHalfEven (a b : Z) : Z :=
  let q := a / b in
  let r := a mod b in
  if 2 * r <? b then q else if b <? 2 * r then q + 1 else if Z.even q then q else q + 1.

(** The double nearest to [p / q], for [0 <= p] and [0 < q]. *)
Definition toDouble (p q : Z) : JsNum :=
  if p =? 0 then NumInt 0
  else
    let k0 := Z.log2 p - Z.log2 q in
    let below := if 0 <=? k0 then p <? q * 2 ^ k0 else p * 2 ^ (- k0) <? q in
    let e := if below then k0 - 1 else k0 in
    let k := Z.max (e - 52) (-1074) in
    if 0 <=? k then
      let z := roundHalfEven p (q * 2 ^ k) * 2 ^ k in
      if 2 ^ 1024 <=? z then NumInf false else NumInt z
    else
      let n := roundHalfEven (p * 2 ^ (- k)) q in
      if n mod 2 ^ (- k) =? 0 then NumInt (n / 2 ^ (- k)) else NumFrac (n / 2 ^ (- k)).

(** The result of an integer operation on doubles, for results that are far from
    overflow. *)
Definition dbl (z : Z) : Z :=
  match toDouble (Z.abs z) 1 with NumInt n => Z.sgn z * n | _ => z end.

Fixpoint spanDigits (s : jsstr) : jsstr * jsstr :=
  match s with
  | c :: s' => if isDigit c then let '(d, r) := spanDigits s' in (c :: d, r) else ([], s)
  | [] => ([], [])
  end.

(** Mantissa digits [m] with [f] digits after the point, times [10 ^ e].  The value is
    at least [10 ^ (log2 v / 4 + e10)] and below [10 ^ (len m + e10)], so the two cuts
    are far outside the range of doubles. *)
Definition decimalValue (m : jsstr) (f e : Z) : JsNum :=
  let v := digitsVal m in
  let e10 := e - f in
  if v =? 0 then NumInt 0
  else if 400 <? Z.log2 v / 4 + e10 then NumInf false
  else if len m + e10 <? -400 then NumInt 0
  else if 0 <=? e10 then toDouble (v * 10 ^ e10) 1
  else toDouble v (10 ^ (- e10)).

Definition parseExponent (s : jsstr) : option Z :=
  match s with
  | [] => Some 0
  | c :: s' =>
      if (c =? 101) || (c =? 69) then
        match s' with
        | 45 :: d => if isDigits d then Some (- digitsVal d) else None
        | 43 :: d => if isDigits d then Some (digitsVal d) else None
        | d => if isDigits d then Some (digitsVal d) else None
        end
      else None
  end.

(** The digits after a decimal point, if there is one. *)
Definition fractionPart (s : jsstr) : jsstr * jsstr :=
  match s with
  | c :: r => if c =? 46 then spanDigits r else ([], s)
  | [] => ([], [])
  end.

Definition parseDecimal (s : jsstr) : JsNum :=
  if s === js "Infinity" then NumInf false
  else
    let '(ip, r1) := spanDigits s in
    let '(fp, r2) := fractionPart r1 in
    match ip ++ fp, parseExponent r2 with
    | [], _ | _, None => NumNaN
    | m, Some e => decimalValue m (len fp) e
    end.

Definition digitIn (base c : Z) : option Z :=
  let v := if isDigit c then c - 48
           else if (97 <=? c) && (c <=? 102) then c - 87
           else if (65 <=? c) && (c <=? 70) then c - 55 else 99 in
  if v <? base then Some v else None.

Fixpoint radixVal (base : Z) (acc : Z) (s : jsstr) : option Z :=
  match s with
  | [] => Some acc
  | c :: s' => match digitIn base c with Some v => radixVal base (acc * base + v) s' | None => None end
  end.

Definition parseRadix (base : Z) (s : jsstr) : JsNum :=
  match s with
  | [] => NumNaN
  | _ => match radixVal base 0 s with Some v => toDouble v 1 | None => NumNaN end
  end.

Definition negateNum (n : JsNum) : JsNum :=
  match n with NumInt z => NumInt (- z) | NumFrac f => NumFrac (- f - 1) | NumInf b => NumInf (negb b) | NumNaN => n end.

(** [n <= m] for an integer [m] *)
Definition numLe (n : JsNum) (m : Z) : bool :=
  match n with NumNaN => false | NumInf neg => neg | NumFrac f => f <? m | NumInt z => z <=? m end.

(** [Number.isFinite(n)] *)
Definition isFinite (n : JsNum) : bool := match n with NumFrac _ | NumInt _ => true | _ => false end.

(** [Number(s)] *)
Definition jsNumber (s : jsstr) : JsNum :=
  match trim s with
  | [] => NumInt 0
  | 48 :: c :: r =>
      if (c =? 120) || (c =? 88) then parseRadix 16 r
      else if (c =? 111) || (c =? 79) then parseRadix 8 r
      else if (c =? 98) || (c =? 66) then parseRadix 2 r
      else parseDecimal (48 :: c :: r)
  | 45 :: r => negateNum (parseDecimal r)
  | 43 :: r => parseDecimal r
  | t => parseDecimal t
  end.

#[global] Arguments jsNumber : simpl never.
#[global] Arguments toDouble : simpl never.
#[global] Arguments dbl : simpl never.

(** ** Lemmas *)

Lemma roundHalfEven_exact a b : 0 < b -> roundHalfEven (a * b) b = a.
Proof.
  intros Hb. unfold roundHalfEven. rewrite Z.div_mul, Z.mod_mul by lia.
  rewrite (proj2 (Z.ltb_lt (2 * 0) b)) by lia. done.
Qed.

(** Integers up to [2 ^ 53] are doubles. *)
Lemma toDouble_int p : 0 <= p <= 2 ^ 53 -> toDouble p 1 = NumInt p.
Proof.
  intros Hp. unfold toDouble. destruct (Z.eqb_spec p 0) as [->|Hne]; [done|].
  change (Z.log2 1) with 0. rewrite Z.sub_0_r.
  assert (Hl : 0 <= Z.log2 p) by apply Z.log2_nonneg.
  rewrite (proj2 (Z.leb_le 0 (Z.log2 p))) by done.
  destruct (Z.log2_spec p) as [Hlo _]; [lia|].
  rewrite (proj2 (Z.ltb_ge p (1 * 2 ^ Z.log2 p))) by lia.
  assert (Hl53 : Z.log2 p <= 53) by (change 53 with (Z.log2 (2 ^ 53)); apply Z.log2_le_mono; lia).
  destruct (Z.leb_spec 0 (Z.max (Z.log2 p - 52) (-1074))) as [Hk|Hk].
  - assert (Hcase : Z.log2 p = 52 \/ Z.log2 p = 53) by lia.
    destruct Hcase as [E|E]; rewrite E.
    + change (Z.max (52 - 52) (-1074)) with 0.
      assert (Hx : roundHalfEven p (1 * 2 ^ 0) * 2 ^ 0 = p).
      { change (2 ^ 0) with 1. rewrite !Z.mul_1_r. transitivity (roundHalfEven (p * 1) 1);
          [by rewrite Z.mul_1_r|]. by apply roundHalfEven_exact. }
      rewrite Hx, (proj2 (Z.leb_gt (2 ^ 1024) p)); [done|].
      eapply Z.le_lt_trans; [apply Hp|]. apply Z.pow_lt_mono_r; lia.
    + assert (p = 2 ^ 53) as -> by (rewrite E in Hlo; lia). done.
  - set (k := Z.max (Z.log2 p - 52) (-1074)) in *.
    assert (H2 : 0 < 2 ^ (- k)) by (apply Z.pow_pos_nonneg; lia).
    rewrite <- (Z.mul_1_r (p * 2 ^ (- k))). rewrite roundHalfEven_exact by lia.
    rewrite Z.mod_mul, Z.div_mul by lia. done.
Qed.

Lemma dbl_small z : 0 <= z <= 2 ^ 53 -> dbl z = z.
Proof.
  intros Hz. unfold dbl. rewrite Z.abs_eq, toDouble_int by lia.
  destruct (Z.eq_dec z 0) as [->|]; [done|]. rewrite Z.sgn_pos by lia. lia.
Qed.

Lemma spanDigits_all s : forallb isDigit s = true -> spanDigits s = (s, []).
Proof.
  induction s as [|c s IH]; [done|]. cbn. intros [Hc Hs]%andb_true_iff. rewrite Hc. by rewrite IH.
Qed.

(** *** Signs and large values *)

Lemma roundHalfEven_ge a b : 0 < b -> a / b <= roundHalfEven a b.
Proof. intros Hb. unfold roundHalfEven. repeat case_match; lia. Qed.

Lemma roundHalfEven_nonneg a b : 0 <= a -> 0 < b -> 0 <= roundHalfEven a b.
Proof.
  intros Ha Hb. pose proof (roundHalfEven_ge a b Hb). pose proof (Z.div_pos a b Ha Hb). lia.
Qed.

Lemma toDouble_nonneg p q z : 0 <= p -> 0 < q -> toDouble p q = NumInt z -> 0 <= z.
Proof.
  intros Hp Hq. unfold toDouble. destruct (p =? 0); [intros [= <-]; lia|].
  set (k := Z.max _ _). destruct (Z.leb_spec 0 k).
  - destruct (2 ^ 1024 <=? _); [discriminate|]. intros [= <-].
    assert (0 < 2 ^ k) by (apply Z.pow_pos_nonneg; lia).
    apply Z.mul_nonneg_nonneg; [|lia]. apply roundHalfEven_nonneg; nia.
  - destruct (_ mod _ =? 0); [|discriminate]. intros [= <-].
    assert (0 < 2 ^ (- k)) by (apply Z.pow_pos_nonneg; lia).
    apply Z.div_pos; [|done]. apply roundHalfEven_nonneg; nia.
Qed.

Lemma dbl_nonneg z : 0 <= z -> 0 <= dbl z.
Proof.
  intros Hz. unfold dbl. destruct (toDouble (Z.abs z) 1) as [| | |n] eqn:E; try done.
  apply toDouble_nonneg in E; [|lia..]. destruct (Z.sgn_spec z) as [(?&->)|[(?&->)|(?&->)]]; lia.
Qed.

(** A result too large to be exact stays above [2 ^ 53]. *)
Lemma dbl_large z : 2 ^ 53 < z -> 2 ^ 53 <= dbl z.
Proof.
  intros Hz. unfold dbl. rewrite Z.abs_eq by lia.
  destruct (toDouble z 1) as [| | |n] eqn:E; try lia.
  rewrite Z.sgn_pos by lia. revert E. unfold toDouble.
  rewrite (proj2 (Z.eqb_neq z 0)) by lia. change (Z.log2 1) with 0. rewrite Z.sub_0_r.
  assert (Hl : 53 <= Z.log2 z) by (change 53 with (Z.log2 (2 ^ 53)); apply Z.log2_le_mono; lia).
  rewrite (proj2 (Z.leb_le 0 (Z.log2 z))) by lia.
  destruct (Z.log2_spec z) as [Hlo _]; [lia|].
  rewrite (proj2 (Z.ltb_ge z (1 * 2 ^ Z.log2 z))) by lia.
  rewrite Z.max_l by lia. set (k := Z.log2 z - 52).
  rewrite (proj2 (Z.leb_le 0 k)) by lia.
  destruct (2 ^ 1024 <=? _); [discriminate|]. intros [= <-]. rewrite !Z.mul_1_l.
  assert (0 < 2 ^ k) by (apply Z.pow_pos_nonneg; lia).
  assert (Hz' : 2 ^ 52 * 2 ^ k <= z).
  { rewrite <- Z.pow_add_r by lia. replace (52 + k) with (Z.log2 z) by lia. lia. }
  assert (Hq : 2 ^ 52 <= z / 2 ^ k) by (apply Z.div_le_lower_bound; lia).
  pose proof (roundHalfEven_ge z (2 ^ k) ltac:(lia)).
  assert (2 <= 2 ^ k) by (change 2 with (2 ^ 1) at 1; apply Z.pow_le_mono_r; lia).
  nia.
Qed.

(** A sum accepted against a limit below [2 ^ 53] was exact. *)
Lemma dbl_le z m : 0 <= z -> m < 2 ^ 53 -> dbl z <= m -> z <= m.
Proof.
  intros Hz Hm H. destruct (Z.le_gt_cases z (2 ^ 53)).
  - rewrite dbl_small in H; lia.
  - pose proof (dbl_large z). lia.
Qed.

Lemma spanDigits_digits s d r : spanDigits s = (d, r) -> forallb isDigit d = true.
Proof.
  revert d r; induction s as [|c s IH]; cbn; intros d r; [by intros [= <- <-]|].
  destruct (isDigit c) eqn:E; [|by intros [= <- <-]].
  destruct (spanDigits s) as [d' r'] eqn:Es. intros [= <- <-]. cbn. rewrite E. by eapply IH.
Qed.

Lemma digitsVal_nonneg s : forallb isDigit s = true -> 0 <= digitsVal s.
Proof.
  intros H. induction s as [|c s IH] using rev_ind; [done|].
  rewrite forallb_app in H. bool_hyps. rewrite digitsVal_snoc.
  match goal with Hc : forallb isDigit [c] = true |- _ => cbn in Hc; unfold isDigit in Hc end.
  bool_hyps. specialize (IH ltac:(done)). lia.
Qed.

Lemma parseDecimal_nonneg s z : parseDecimal s = NumInt z -> 0 <= z.
Proof.
  unfold parseDecimal. destruct (s === _); [done|].
  destruct (spanDigits s) as [ip r1] eqn:E1.
  destruct (fractionPart r1) as [fp r2] eqn:E2.
  assert (Hf : forallb isDigit fp = true).
  { revert E2. unfold fractionPart. destruct r1 as [|c r]; [by intros [= <- <-]|].
    destruct (c =? 46); [by apply spanDigits_digits|by intros [= <- <-]]. }
  apply spanDigits_digits in E1 as Hi.
  assert (Hm : 0 <= digitsVal (ip ++ fp)) by (apply digitsVal_nonneg; by rewrite forallb_app, Hi, Hf).
  destruct (ip ++ fp) as [|c m]; [done|]. destruct (parseExponent r2) as [e|]; [|done].
  unfold decimalValue. destruct (_ =? 0); [intros [= <-]; lia|]. destruct (400 <? _); [done|].
  destruct (_ <? -400); [intros [= <-]; lia|]. destruct (Z.leb_spec 0 (e - len fp)).
  - apply toDouble_nonneg; [|lia]. apply Z.mul_nonneg_nonneg; [done|]. apply Z.pow_nonneg. lia.
  - apply toDouble_nonneg; [done|]. apply Z.pow_pos_nonneg; lia.
Qed.

Lemma trimStart_subset c s : c ∈ trimStart s -> c ∈ s.
Proof. induction s as [|x s IH]; cbn; [done|]. destruct (isWs x); set_solver. Qed.

Lemma trim_subset c s : c ∈ trim s -> c ∈ s.
Proof.
  intros H. apply trimStart_subset. unfold trim, trimEnd in H.
  apply list_elem_of_In, in_rev, list_elem_of_In, trimStart_subset in H.
  by apply list_elem_of_In, in_rev, list_elem_of_In in H.
Qed.

Lemma isDigits_elem s c : isDigits s = true -> c ∈ s -> 48 <= c <= 57.
Proof.
  unfold isDigits. destruct s as [|x s]; [done|]. intros H Hc.
  rewrite forallb_forall in H. apply list_elem_of_In, H in Hc. unfold isDigit in Hc. bool_hyps. lia.
Qed.

(** A string of digits is no negative number. *)
Lemma jsNumber_digits_nonneg s z : isDigits s = true -> jsNumber s = NumInt z -> 0 <= z.
Proof.
  intros Hd. unfold jsNumber.
  assert (Hall : forall c, c ∈ trim s -> 48 <= c <= 57)
    by (intros c Hc; eapply isDigits_elem; [done|by apply trim_subset]).
  destruct (trim s) as [|x t]; [intros [= <-]; lia|].
  assert (Hx : 48 <= x <= 57) by (apply Hall; set_solver).
  assert (Hy : forall y r, t = y :: r -> 48 <= y <= 57) by (intros y r ->; apply Hall; set_solver).
  intros H. repeat case_match; try lia; try (by eapply parseDecimal_nonneg);
    repeat match goal with E : _ || _ = true |- _ => apply orb_true_iff in E as [?|?] end; bool_hyps; subst;
    specialize (Hy _ _ eq_refl); lia.
Qed.

Lemma spanDigits_split s d r : spanDigits s = (d, r) -> s = d ++ r.
Proof.
  revert d r; induction s as [|c s IH]; intros d r; cbn -[isDigit]; [by intros [= <- <-]|].
  destruct (isDigit c); [|by intros [= <- <-]]. destruct (spanDigits s) as [d' r'].
  intros [= <- <-]. cbn. f_equal. by apply IH.
Qed.

(** A printed number is read up to the next unit that is no digit. *)
Lemma spanDigits_number n x r :
  0 <= n -> isDigit x = false -> spanDigits (numToString n ++ x :: r) = (numToString n, x :: r).
Proof.
  intros Hn Hc. assert (Hd : forallb isDigit (numToString n) = true).
  { pose proof (numToString_digits n Hn) as Hd. unfold isDigits in Hd. by destruct (numToString n). }
  revert Hd. induction (numToString n) as [|d ds IH]; cbn -[isDigit]; [by rewrite Hc|].
  intros [-> Hds]%andb_true_iff. by rewrite IH.
Qed.

(** ** Printed numbers are read back *)

Lemma trimStart_digits s : forallb isDigit s = true -> trimStart s = s.
Proof.
  destruct s as [|c s]; cbn -[isDigit isWs]; [done|]. intros H. bool_hyps.
  assert (Hw : isWs c = false); [|by rewrite Hw].
  unfold isDigit in *. bool_hyps. assert (Hc : c ∈ map Z.of_nat (seq 48 10)).
  { apply list_elem_of_fmap. exists (Z.to_nat c). split; [lia|]. apply elem_of_seq. lia. }
  assert (Hall : forallb (fun c => negb (isWs c)) (map Z.of_nat (seq 48 10)) = true) by (vm_compute; reflexivity).
  rewrite forallb_forall in Hall. apply list_elem_of_In, Hall in Hc. by apply negb_true_iff in Hc.
Qed.

Lemma trim_digits s : forallb isDigit s = true -> trim s = s.
Proof.
  intros H. unfold trim, trimEnd. rewrite (trimStart_digits s) by done. rewrite (trimStart_digits (rev s)); [apply rev_involutive|].
  apply forallb_forall. intros c Hc. rewrite <- in_rev in Hc. rewrite forallb_forall in H. auto.
Qed.

Lemma parseDecimal_digits s : isDigits s = true -> parseDecimal s = decimalValue s 0 0.
Proof.
  intros H. unfold parseDecimal. destruct (seqb_spec s (js "Infinity")) as [->|_]; [done|].
  assert (Hd : forallb isDigit s = true) by (unfold isDigits in H; by destruct s).
  rewrite spanDigits_all by done. cbn -[decimalValue]. rewrite app_nil_r. by destruct s.
Qed.

Lemma jsNumber_digits s : isDigits s = true -> jsNumber s = decimalValue s 0 0.
Proof.
  intros H. assert (Hd : forallb isDigit s = true) by (unfold isDigits in H; by destruct s).
  rewrite <- parseDecimal_digits by done. unfold jsNumber. rewrite trim_digits by done.
  destruct s as [|x t]; [done|]. assert (Hx : 48 <= x <= 57) by (eapply isDigits_elem; [done|set_solver]).
  assert (Hy : forall y r, t = y :: r -> 48 <= y <= 57) by (intros y r ->; eapply isDigits_elem; [done|set_solver]).
  repeat case_match; try lia; try done;
    repeat match goal with E : _ || _ = true |- _ => apply orb_true_iff in E as [?|?] end; bool_hyps; subst;
    specialize (Hy _ _ eq_refl); lia.
Qed.

Lemma jsNumber_numToString n : 0 <= n <= 2 ^ 53 -> jsNumber (numToString n) = NumInt n.
Proof.
  intros Hn. rewrite jsNumber_digits by (apply numToString_digits; lia). unfold decimalValue. rewrite numToString_val by lia.
  destruct (Z.eqb_spec n 0) as [->|]; [done|]. rewrite Z.sub_diag, Z.add_0_r.
  assert (Hl : Z.log2 n <= 53) by (change 53 with (Z.log2 (2 ^ 53)); apply Z.log2_le_mono; lia).
  assert (Hq : Z.log2 n / 4 <= 53 / 4) by (apply Z.div_le_mono; lia). change (53 / 4) with 13 in Hq.
  rewrite (proj2 (Z.ltb_ge _ _)) by lia. pose proof (len_nonneg (numToString n)). rewrite (proj2 (Z.ltb_ge _ _)) by lia.
  change (0 <=? 0) with true. cbv iota. rewrite Z.pow_0_r, Z.mul_1_r. by apply toDouble_int.
Qed.
