(* ===== verification/Loop.v ===== *)
(** * While loops with output

    The engines' parsers are [while] loops that consume a buffer and push actions: a
    condition, a body that may [break], and the actions of the iterations in order.
    [Loop] is the loop as a relation, without any bound; [whileFuel] runs it with a
    bound on the iterations, and is the loop as soon as a measure decreases.  Computations
    that throw, and association lists, are at the end. *)

From S2P Require Import Prelude.

Section While.
Context {St A : Type} (cond : St -> bool) (body : St -> St * list A * bool).

(** [body] returns the new state, the actions, and whether the loop goes on. *)
Inductive Loop : St -> list A -> St -> Prop :=
| loop_stop s : cond s = false -> Loop s [] s
| loop_break s s' a : cond s = true -> body s = (s', a, false) -> Loop s a s'
| loop_next s s1 a b s2 :
    cond s = true -> body s = (s1, a, true) -> Loop s1 b s2 -> Loop s (a ++ b) s2.

Fixpoint whileFuel (fuel : nat) (s : St) : St * list A :=
  match fuel with
  | O => (s, [])
  | S f =>
      if cond s then
        let '(s1, a, continue) := body s in
        if continue then let '(s2, b) := whileFuel f s1 in (s2, a ++ b) else (s1, a)
      else (s, [])
  end.

Lemma whileFuel_loop (measure : St -> nat) fuel s :
  (forall s s1 a, cond s = true -> body s = (s1, a, true) -> (measure s1 < measure s)%nat) ->
  (measure s < fuel)%nat -> Loop s (snd (whileFuel fuel s)) (fst (whileFuel fuel s)).
Proof.
  intros Hm. revert s; induction fuel as [|f IH]; intros s Hf; [lia|]. cbn [whileFuel].
  destruct (cond s) eqn:Ec; [|by apply loop_stop].
  destruct (body s) as [[s1 a] []] eqn:Eb; [|by eapply loop_break].
  specialize (IH s1). destruct (whileFuel f s1) as [s2 b]. cbn in *.
  eapply loop_next; [done..|]. apply IH. specialize (Hm _ _ _ Ec Eb). lia.
Qed.

Lemma While_det s a s1 b s2 : Loop s a s1 -> Loop s b s2 -> a = b /\ s1 = s2.
Proof.
  intros H. revert b s2. induction H as [s Hc|s s' a Hc Hb|s s1 a b s2 Hc Hb HL IH];
    intros b' s2' H'; inversion H'; subst; try congruence; try (split; congruence).
  assert (s1 = s3 /\ a = a0) as [-> ->] by (split; congruence).
  match goal with HL' : Loop s3 ?x s2' |- _ => destruct (IH _ _ HL') as [-> ->] end. done.
Qed.

(** An invariant of the iterations, with what each adds to the actions. *)
Lemma Loop_invariant (P : St -> Prop) (Q : St -> list A -> St -> Prop) :
  (forall s, P s -> Q s [] s) ->
  (forall s1 a s2 b s3, Q s1 a s2 -> Q s2 b s3 -> Q s1 (a ++ b) s3) ->
  (forall s s' a c, P s -> cond s = true -> body s = (s', a, c) -> P s' /\ Q s a s') ->
  forall s a s', Loop s a s' -> P s -> P s' /\ Q s a s'.
Proof.
  intros Hnil Happ Hbody s a s'. induction 1 as [s Hc|s s' a Hc Hb|s s1 a b s2 Hc Hb HL IH]; intros HP.
  - auto.
  - eauto.
  - destruct (Hbody _ _ _ _ HP Hc Hb) as [HP1 HQ1]. destruct (IH HP1) as [HP2 HQ2]. eauto.
Qed.

(** Where the loop ends: the condition fails, or the last iteration broke out. *)
Lemma Loop_end s a s' :
  Loop s a s' -> cond s' = false \/ exists t b, cond t = true /\ body t = (s', b, false).
Proof. induction 1; eauto 10. Qed.
End While.

(** ** JavaScript maps with string keys, in insertion order *)

Section Assoc.
Context {V : Type}.

Fixpoint mapGet (k : jsstr) (m : list (jsstr * V)) : option V :=
  match m with
  | [] => None
  | (k', v) :: m' => if k' === k then Some v else mapGet k m'
  end.

Fixpoint mapSet (k : jsstr) (v : V) (m : list (jsstr * V)) : list (jsstr * V) :=
  match m with
  | [] => [(k, v)]
  | (k', v') :: m' => if k' === k then (k', v) :: m' else (k', v') :: mapSet k v m'
  end.

Lemma mapGet_set k k' v m : mapGet k (mapSet k' v m) = if k' === k then Some v else mapGet k m.
Proof.
  induction m as [|[k0 v0] m IH]; cbn; [done|].
  destruct (seqb_spec k0 k') as [->|Hne]; cbn.
  - by destruct (k' === k).
  - rewrite IH. destruct (seqb_spec k0 k) as [->|]; [|done].
    destruct (seqb_spec k' k); [congruence|done].
Qed.

Lemma mapGet_elem k (m : list (jsstr * V)) v : mapGet k m = Some v -> (k, v) ∈ m.
Proof. induction m as [|[k' v'] m IH]; cbn; [done|]. destruct (seqb_spec k' k) as [->|]; [intros [= ->]; left|right; auto]. Qed.
End Assoc.

(** * Computations that throw, or run out of fuel

    A function of the source that throws is a function to [Result]: a value, an error, or
    [Fuel], which is no behaviour of the source and which each parser is proved never to give. *)

Inductive Result (E A : Type) := Ok (a : A) | Err (e : E) | Fuel.
Arguments Ok {E A} a.
Arguments Err {E A} e.
Arguments Fuel {E A}.

Definition bindRes {E A B} (r : Result E A) (f : A -> Result E B) : Result E B :=
  match r with Ok a => f a | Err e => Err e | Fuel => Fuel end.

Notation "'let*' x := r 'in' k" := (bindRes r (fun x => k))
  (at level 200, x pattern, r at level 100, k at level 200) : js_scope.

(** A result that is not [Fuel], and satisfies [Q] when it is a value. *)
Definition okRes {E A} (r : Result E A) (Q : A -> Prop) : Prop :=
  match r with Ok a => Q a | Err _ => True | Fuel => False end.

Section Lemmas.
Context {E A B : Type}.

Lemma okRes_bind (r : Result E A) (f : A -> Result E B) (Q : A -> Prop) (R : B -> Prop) :
  okRes r Q -> (forall a, Q a -> okRes (f a) R) -> okRes (bindRes r f) R.
Proof. destruct r; cbn; auto. Qed.

Lemma okRes_impl (r : Result E A) (Q R : A -> Prop) : okRes r Q -> (forall a, Q a -> R a) -> okRes r R.
Proof. destruct r; cbn; auto. Qed.

Lemma bindRes_ok (r : Result E A) (f : A -> Result E B) b :
  bindRes r f = Ok b -> exists a, r = Ok a /\ f a = Ok b.
Proof. destruct r; cbn; [eauto | done | done]. Qed.
End Lemmas.
