(* ===== verification/SmtpParams.v ===== *)
(** * SMTP command arguments (packages/proto-smtp/src/engine.ts)

    The parsers of MAIL FROM and RCPT TO with the SIZE, BODY, SMTPUTF8 and DSN
    (RFC 3461) parameters, and the xtext decoder. *)

From S2P Require Import Prelude JsString JsNumber Loop.

Definition splitVerb (line : jsstr) : jsstr * jsstr :=
  match indexOf SP line with
  | None => (toUpperCase line, [])
  | Some i => (toUpperCase (take i line), trim (drop (S i) line))
  end.

Definition splitParam (token : jsstr) : jsstr * option jsstr :=
  match indexOf 61 token with
  | None => (token, None)
  | Some eq => (take eq token, Some (drop (S eq) token))
  end.

Record ParamSyntaxError := mkParamError { pe_code : Z; pe_enhanced : jsstr; pe_message : jsstr }.

Definition paramError {A} (code : Z) (enhanced message : jsstr) : A + ParamSyntaxError :=
  inr {| pe_code := code; pe_enhanced := enhanced; pe_message := message |}.

Definition error501 {A} (message : string) : A + ParamSyntaxError :=
  paramError 501 (js "5.5.4") (js message).

Inductive DsnRet := RetFull | RetHdrs.
Inductive BodyKind := Body8BITMIME | Body7BIT.

Record ParsedMailFrom := mkMailFrom {
  mf_address : jsstr; mf_size : option Z; mf_body : option BodyKind; mf_smtputf8 : bool;
  mf_ret : option DsnRet; mf_envid : option jsstr
}.

Definition hexVal (c : Z) : option Z :=
  if isDigit c then Some (c - 48)
  else if (65 <=? c) && (c <=? 70) then Some (c - 55)
  else if (97 <=? c) && (c <=? 102) then Some (c - 87)
  else None.

Fixpoint decodeXtext (raw : jsstr) : option jsstr :=
  match raw with
  | [] => Some []
  | ch :: raw' =>
      if negb (ch =? 43) then
        if (ch <? 33) || (126 <? ch) || (ch =? 61) then None
        else cons ch <$> decodeXtext raw'
      else
        match raw' with
        | h1 :: h2 :: raw'' =>
            match hexVal h1, hexVal h2 with
            | Some v1, Some v2 =>
                let code := v1 * 16 + v2 in
                if (code <? 0x20) || (code =? 0x7f) then None
                else cons code <$> decodeXtext raw''
            | _, _ => None
            end
        | _ => None
        end
  end.

(** The two expressions [^from:] and [^to:], blanks, the address in angle brackets,
    blanks, and the rest of the line; the rest has no line terminator. *)
Definition matchPath (keyword rest : jsstr) : option (jsstr * jsstr) :=
  if startsWithI keyword rest then
    match trimStart (drop (length keyword) rest) with
    | 60 :: r =>
        match indexOf 62 r with
        | None => None
        | Some i =>
            let params := trimStart (drop (S i) r) in
            if existsb isLineTerminator params then None else Some (take i r, params)
        end
    | _ => None
    end
  else None.

Fixpoint mailFromParams (tokens : list jsstr) (parsed : ParsedMailFrom) : ParsedMailFrom + ParamSyntaxError :=
  match tokens with
  | [] => inl parsed
  | token :: tokens' =>
      let '(rawKey, rawVal) := splitParam token in
      let key := toUpperCase rawKey in
      if key === js "SIZE" then
        match jsNumber <$> rawVal with
        | Some (NumInt n) =>
            if n <? 0 then error501 "Invalid SIZE parameter"
            else mailFromParams tokens' (parsed <| mf_size := Some n |>)
        | _ => error501 "Invalid SIZE parameter"
        end
      else if key === js "BODY" then
        let v := toUpperCase (default [] rawVal) in
        if v === js "8BITMIME" then mailFromParams tokens' (parsed <| mf_body := Some Body8BITMIME |>)
        else if v === js "7BIT" then mailFromParams tokens' (parsed <| mf_body := Some Body7BIT |>)
        else error501 "Invalid BODY parameter"
      else if key === js "SMTPUTF8" then mailFromParams tokens' (parsed <| mf_smtputf8 := true |>)
      else if key === js "RET" then
        let v := toUpperCase (default [] rawVal) in
        if v === js "FULL" then mailFromParams tokens' (parsed <| mf_ret := Some RetFull |>)
        else if v === js "HDRS" then mailFromParams tokens' (parsed <| mf_ret := Some RetHdrs |>)
        else error501 "Invalid RET parameter"
      else if key === js "ENVID" then
        match rawVal ≫= decodeXtext with
        | None => error501 "Invalid ENVID parameter"
        | Some v =>
            if (len v =? 0) || (100 <? len v) then error501 "Invalid ENVID parameter"
            else mailFromParams tokens' (parsed <| mf_envid := Some v |>)
        end
      else paramError 504 (js "5.5.4") (js "Unrecognized MAIL FROM parameter: " ++ key)
  end.

Definition parseMailFromArgs (rest : jsstr) : ParsedMailFrom + ParamSyntaxError :=
  match matchPath (js "from:") rest with
  | None => error501 "Syntax: MAIL FROM:<address> [params]"
  | Some (address, m2) =>
      let paramsPart := trim m2 in
      let parsed := {| mf_address := address; mf_size := None; mf_body := None; mf_smtputf8 := false;
                       mf_ret := None; mf_envid := None |} in
      if 0 <? len paramsPart then mailFromParams (splitWs paramsPart) parsed else inl parsed
  end.

Record RcptDsn := mkRcptDsn { rd_notify : option jsstr; rd_orcpt : option jsstr }.
Record ParsedRcptTo := mkRcptTo { rt_address : jsstr; rt_notify : option jsstr; rt_orcpt : option jsstr }.

(** [[...new Set(parts)]]: first occurrences, in order *)
Fixpoint dedupe (seen parts : list jsstr) : list jsstr :=
  match parts with
  | [] => []
  | x :: parts' =>
      if existsb (fun y => y === x) seen then dedupe seen parts' else x :: dedupe (seen ++ [x]) parts'
  end.

Definition knownNotify (x : jsstr) : bool :=
  (x === js "NEVER") || (x === js "SUCCESS") || (x === js "FAILURE") || (x === js "DELAY").

Definition parseNotify (rawVal : option jsstr) : jsstr + ParamSyntaxError :=
  let parts := List.filter (fun x => 0 <? len x) (splitOn 44 (toUpperCase (default [] rawVal))) in
  if len parts =? 0 then error501 "Invalid NOTIFY parameter"
  else if existsb (fun x => negb (knownNotify x)) parts then error501 "Invalid NOTIFY parameter"
  else if existsb (fun x => x === js "NEVER") parts && (1 <? len parts)
  then error501 "NOTIFY=NEVER cannot be combined"
  else inl (joinWith [44] (dedupe [] parts)).

Definition parseOrcpt (rawVal : option jsstr) : jsstr + ParamSyntaxError :=
  let raw := default [] rawVal in
  match indexOf 59 raw with
  | None | Some O => error501 "Invalid ORCPT parameter"
  | Some semi =>
      match decodeXtext (drop (S semi) raw) with
      | None => error501 "Invalid ORCPT parameter"
      | Some decoded =>
          if (len decoded =? 0) || (300 <? len decoded) then error501 "Invalid ORCPT parameter"
          else inl (toLowerCase (take semi raw) ++ js ";" ++ decoded)
      end
  end.

Fixpoint rcptToParams (tokens : list jsstr) (value : ParsedRcptTo) : ParsedRcptTo + ParamSyntaxError :=
  match tokens with
  | [] => inl value
  | token :: tokens' =>
      let '(rawKey, rawVal) := splitParam token in
      let key := toUpperCase rawKey in
      if key === js "NOTIFY" then
        match parseNotify rawVal with
        | inr e => inr e
        | inl v => rcptToParams tokens' (value <| rt_notify := Some v |>)
        end
      else if key === js "ORCPT" then
        match parseOrcpt rawVal with
        | inr e => inr e
        | inl v => rcptToParams tokens' (value <| rt_orcpt := Some v |>)
        end
      else paramError 504 (js "5.5.4") (js "Unrecognized RCPT TO parameter: " ++ key)
  end.

Definition parseRcptToArgs (rest : jsstr) : ParsedRcptTo + ParamSyntaxError :=
  match matchPath (js "to:") rest with
  | None => error501 "Syntax: RCPT TO:<address> [params]"
  | Some (address, m2) =>
      if len address =? 0 then paramError 501 (js "5.1.3") (js "Bad recipient address syntax")
      else
        let value := {| rt_address := address; rt_notify := None; rt_orcpt := None |} in
        let paramsPart := trim m2 in
        if 0 <? len paramsPart then rcptToParams (splitWs paramsPart) value else inl value
  end.

#[global] Arguments parseMailFromArgs : simpl never.
#[global] Arguments parseRcptToArgs : simpl never.
#[global] Arguments splitVerb : simpl never.

(** ** Lemmas *)

(** The characters a DSN value may contain once decoded. *)
Definition isHeaderSafe (c : Z) : Prop := 0x20 <= c /\ c <> 0x7f.

Lemma hexVal_range c v : hexVal c = Some v -> 0 <= v < 16.
Proof.
  unfold hexVal, isDigit. repeat case_inner; intros [= <-]; bool_hyps; lia.
Qed.

Lemma decodeXtext_safe raw out : decodeXtext raw = Some out -> Forall isHeaderSafe out.
Proof.
  remember (length raw) as n eqn:En. assert (Hn : (length raw <= n)%nat) by lia. clear En.
  revert raw out Hn. induction n as [|n IH]; intros [|ch raw] out Hn;
    try (intros [= <-]; constructor); [simpl in Hn; lia|]. cbn [decodeXtext].
  destruct (negb (ch =? 43)).
  - destruct (_ || _) eqn:Er; [done|]. bool_hyps.
    intros (o & Ho & ->)%fmap_Some. constructor; [unfold isHeaderSafe; lia|].
    apply (IH raw); [simpl in *; lia|done].
  - destruct raw as [|h1 [|h2 raw]]; try done.
    destruct (hexVal h1) eqn:E1; [|done]. destruct (hexVal h2) eqn:E2; [|done].
    destruct (_ || _) eqn:Er; [done|]. bool_hyps.
    intros (o & Ho & ->)%fmap_Some. constructor; [unfold isHeaderSafe; lia|].
    apply (IH raw); [simpl in *; lia|done].
Qed.

Lemma mailFromParams_envid tokens p0 p :
  mailFromParams tokens p0 = inl p ->
  (forall v, mf_envid p0 = Some v -> Forall isHeaderSafe v /\ len v <= 100) ->
  forall v, mf_envid p = Some v -> Forall isHeaderSafe v /\ len v <= 100.
Proof.
  revert p0; induction tokens as [|t tokens IH]; intros p0; cbn [mailFromParams].
  { by intros [= <-]. }
  destruct (splitParam t) as [rawKey rawVal].
  repeat (case_inner; try done); intros Hp H0; try (by eapply IH).
  eapply IH; [exact Hp|]. cbn. intros v [= <-].
  match goal with H : (rawVal ≫= decodeXtext) = Some _ |- _ => apply bind_Some in H as (x & _ & Hx) end.
  bool_hyps. split; [by eapply decodeXtext_safe|lia].
Qed.

(** ** Tokens hold no white space *)

Definition noWs (s : jsstr) : Prop := Forall (fun c => isWs c = false) s.

Lemma splitWsAux_noWs inWs acc s : noWs acc -> Forall noWs (splitWsAux inWs acc s).
Proof.
  unfold noWs. revert inWs acc; induction s as [|c s IH]; intros inWs acc Ha; cbn [splitWsAux].
  { constructor; [by apply Forall_rev|done]. }
  destruct (isWs c) eqn:E; [destruct inWs|]; [by apply IH| |apply IH; by constructor].
  constructor; [by apply Forall_rev|]. apply IH. constructor.
Qed.

Lemma splitParam_noWs t k v : splitParam t = (k, Some v) -> noWs t -> noWs v.
Proof.
  unfold splitParam, noWs. case_match; [|done]. intros [= <- <-] Hn. by apply Forall_drop.
Qed.

Lemma toLowerCase_ctl c s : 0 <= c < 0x20 -> c ∈ toLowerCase s -> c ∈ s.
Proof.
  intros Hc Hin. unfold toLowerCase in Hin. apply list_elem_of_In, in_flat_map in Hin as (x & Hx & Hin).
  apply list_elem_of_In in Hx, Hin. assert (c = x) as ->; [|done].
  unfold lowerUnit in Hin. repeat case_inner_in Hin; bool_hyps; rewrite ?elem_of_cons, elem_of_nil in Hin; lia.
Qed.

(** A value that cannot break out of a header line. *)
Definition no_line_break (s : jsstr) : Prop := CR ∉ s /\ LF ∉ s.

Lemma noWs_no_line_break s : noWs s -> no_line_break s.
Proof.
  unfold noWs. rewrite Forall_forall. intros H. split; intros Hin; by apply H in Hin.
Qed.

Lemma safe_no_line_break s : Forall isHeaderSafe s -> no_line_break s.
Proof.
  rewrite Forall_forall. unfold isHeaderSafe.
  intros H. split; intros Hin; apply H in Hin; unfold CR, LF in *; lia.
Qed.

Lemma parseOrcpt_no_line_break rawVal v :
  (forall w, rawVal = Some w -> noWs w) -> parseOrcpt rawVal = inl v -> no_line_break v.
Proof.
  intros Hw. unfold parseOrcpt. destruct (indexOf 59 _) as [[|i]|] eqn:Ei; try done.
  destruct (decodeXtext _) as [d|] eqn:Ed; [|done]. case_match; [done|]. intros [= <-].
  apply decodeXtext_safe, safe_no_line_break in Ed as [Hcr Hlf].
  assert (Hraw : no_line_break (take (S i) (default [] rawVal))).
  { apply noWs_no_line_break. unfold noWs. apply Forall_take.
    destruct rawVal as [w|]; [by apply (Hw w)|constructor]. }
  destruct Hraw as [H1 H2].
  split; rewrite not_elem_of_app, not_elem_of_cons; (split; [|by split]);
    intros Hin; apply toLowerCase_ctl in Hin; try done; unfold CR, LF; lia.
Qed.

Lemma rcptToParams_orcpt tokens p0 p :
  Forall noWs tokens -> rcptToParams tokens p0 = inl p ->
  (forall v, rt_orcpt p0 = Some v -> no_line_break v) ->
  forall v, rt_orcpt p = Some v -> no_line_break v.
Proof.
  intros Ht. revert p0; induction Ht as [|t tokens Ht Hts IH]; intros p0; cbn [rcptToParams].
  { by intros [= <-]. }
  destruct (splitParam t) as [rawKey rawVal] eqn:Es.
  repeat (case_inner; try done); intros Hp H0; try (by eapply IH).
  eapply IH; [exact Hp|]. cbn. intros v [= <-].
  eapply parseOrcpt_no_line_break; [|eassumption]. intros w ->. by eapply splitParam_noWs.
Qed.

(** ** xtext encoding, the sender's side of RFC 3461 *)

Definition hexDigit (v : Z) : Z := if v <? 10 then 48 + v else 55 + v.

Definition encodeXtext (s : jsstr) : jsstr :=
  flat_map (fun c => if (c <? 33) || (126 <? c) || (c =? 43) || (c =? 61)
                     then [43; hexDigit (c / 16); hexDigit (c mod 16)] else [c]) s.

Lemma hexVal_digit v : 0 <= v < 16 -> hexVal (hexDigit v) = Some v.
Proof.
  intros Hv. unfold hexVal, hexDigit, isDigit. destruct (Z.ltb_spec v 10).
  - rewrite (proj2 (Z.leb_le 48 (48 + v))), (proj2 (Z.leb_le (48 + v) 57)) by lia. cbn. f_equal. lia.
  - rewrite (proj2 (Z.leb_le 48 (55 + v))), (proj2 (Z.leb_gt (55 + v) 57)) by lia. cbn [andb].
    rewrite (proj2 (Z.leb_le 65 (55 + v))), (proj2 (Z.leb_le (55 + v) 70)) by lia. cbn. f_equal. lia.
Qed.

(** ** Properties *)

(** Xtext round trip: every value of header-safe Latin-1 characters survives the
    sender's xtext encoding and the server's decoding unchanged. *)
Theorem xtext_roundtrip s :
  Forall (fun c => isHeaderSafe c /\ c < 256) s -> decodeXtext (encodeXtext s) = Some s.
Proof.
  unfold isHeaderSafe. induction 1 as [|c s [[Hc H7f] H256] Hs IH]; [done|].
  unfold encodeXtext. cbn [flat_map]. fold (encodeXtext s).
  destruct ((c <? 33) || (126 <? c) || (c =? 43) || (c =? 61)) eqn:E.
  - cbn [app decodeXtext]. cbn [Z.eqb Pos.eqb negb].
    pose proof (Z.div_mod c 16 ltac:(lia)). pose proof (Z.mod_pos_bound c 16 ltac:(lia)).
    assert (0 <= c / 16 < 16) by (split; [apply Z.div_pos|apply Z.div_lt_upper_bound]; lia).
    rewrite !hexVal_digit by lia. replace (c / 16 * 16 + c mod 16) with c by lia.
    rewrite (proj2 (Z.ltb_ge c 0x20)), (proj2 (Z.eqb_neq c 0x7f)) by lia. cbn [orb].
    by rewrite IH.
  - bool_hyps. cbn [app decodeXtext]. rewrite (proj2 (Z.eqb_neq c 43)) by lia. cbn [negb].
    rewrite (proj2 (Z.ltb_ge c 33)), (proj2 (Z.ltb_ge 126 c)), (proj2 (Z.eqb_neq c 61)) by lia.
    cbn [orb]. by rewrite IH.
Qed.

(** No header injection through the DSN parameters: whatever the client sends, an
    accepted ENVID has no control character and at most 100 characters, and an accepted
    ORCPT holds neither CR nor LF, so neither can start a new line in the headers of a
    delivery notification. *)
Theorem dsn_params_no_injection rest :
  (forall p v, parseMailFromArgs rest = inl p -> mf_envid p = Some v ->
     Forall isHeaderSafe v /\ len v <= 100) /\
  (forall p v, parseRcptToArgs rest = inl p -> rt_orcpt p = Some v -> no_line_break v).
Proof.
  split; intros p v.
  - unfold parseMailFromArgs. destruct (matchPath _ rest) as [[a m2]|]; [|done].
    case_match; [|by intros [= <-]]. intros Hp. by apply (mailFromParams_envid _ _ _ Hp).
  - unfold parseRcptToArgs. destruct (matchPath _ rest) as [[a m2]|]; [|done].
    case_match; [done|]. case_match; [|by intros [= <-]]. intros Hp.
    eapply rcptToParams_orcpt; [|exact Hp|done]. apply splitWsAux_noWs. constructor.
Qed.

Lemma xtext_roundtrip_witness : decodeXtext (encodeXtext (js "a+b=c d")) = Some (js "a+b=c d").
Proof.
  apply (xtext_roundtrip (js "a+b=c d")). change (js "a+b=c d") with [97; 43; 98; 61; 99; 32; 100].
  unfold isHeaderSafe. repeat (constructor; [lia|]). constructor.
Defined.
