(* ===== verification/Smtp.v ===== *)
(** * The SMTP engine (packages/proto-smtp/src/engine.ts)

    A byte-stream state machine.  [feed] and the result methods are functions from the
    engine's fields to the new fields and the emitted actions ([None] where the source
    throws).  The fields that live for one mail transaction are grouped in [Tx].  SCRAM
    sessions are used through the interface [ScramServer]. *)

From S2P Require Import Prelude JsString JsNumber Loop Limits Text Sasl Scram SmtpParams.

Definition MAX_DATA_LINE : Z := 1024 * 1024.

(** ** Data *)

Inductive Profile := Relay | Submission.

(** [SmtpEngineOptions] after the constructor's defaults; [nonces] is the randomness
    the SCRAM sessions of the connection draw, in order. *)
Record SmtpConfig := mkConfig {
  hostname : jsstr;
  maxSizeBytes : Z;
  tlsAvailable : bool;
  profile : Profile;
  authOffered : bool;
  allowInsecureAuth : bool;
  scramDecoySecret : bytes;
  scramOffered : bool;
  nonces : nat -> bytes
}.

Record SmtpDsnParams := mkDsn {
  ds_ret : option DsnRet; ds_envid : option jsstr; ds_perRcpt : option (list (jsstr * RcptDsn))
}.

Record Envelope := mkEnvelope {
  e_mailFrom : jsstr; e_heloName : jsstr; e_rcptTo : list jsstr; e_raw : bytes;
  e_authenticatedAs : option jsstr; e_dsn : option SmtpDsnParams
}.

Inductive SmtpAction :=
| AReply (text : jsstr)
| AStartTls
| ARcpt (address : jsstr)
| AAuth (user pass : jsstr)
| AScramKeys (user : jsstr)
| AAuthVerified (user : jsstr)
| AAuthFailed (user : option jsstr)
| ADeliver (env : Envelope)
| AClose.

Inductive RcptOutcome :=
| RcptOk
| RcptFail (code : Z) (enhanced message : jsstr).

Inductive DeliverOutcome :=
| DeliverOk (queuedId : option jsstr)
| DeliverFail (code : Z) (enhanced message : jsstr).

Inductive ConnState := StInit | StGreeted | StMail | StRcpt | StData | StBdat.
Inductive Awaiting := WNone | WRcpt | WDeliver | WTls | WAuth | WScramKeys.
Inductive OAuthMech := XOAUTH2 | OAUTHBEARER.
Inductive ScramStage := StageKeys | StageFinal.

#[global] Instance ConnState_eq_dec : EqDecision ConnState.
Proof. solve_decision. Defined.
#[global] Instance Awaiting_eq_dec : EqDecision Awaiting.
Proof. solve_decision. Defined.

Record MailDsn := mkMailDsn { md_ret : option DsnRet; md_envid : option jsstr }.

(** The fields reset with a transaction. *)
Record Tx := mkTx {
  mailFrom : option jsstr;
  rcptTo : list jsstr;
  rcptDsn : list (jsstr * RcptDsn);
  mailDsn : MailDsn;
  bdatRemaining : Z;
  bdatLast : bool;
  pendingRcptAddress : option jsstr;
  dataChunks : list bytes;
  dataSize : Z;
  dataOverflow : bool
}.

Definition noTx : Tx :=
  {| mailFrom := None; rcptTo := []; rcptDsn := []; mailDsn := {| md_ret := None; md_envid := None |};
     bdatRemaining := 0; bdatLast := false; pendingRcptAddress := None;
     dataChunks := []; dataSize := 0; dataOverflow := false |}.

Section Engine.
Context {SS : ScramServer} (cfg : SmtpConfig).

Inductive AuthContinuation :=
| CPlain
| CLoginUser
| CLoginPass (user : jsstr)
| COAuth (mechanism : OAuthMech)
| CScram (session : ScramSession) (stage : ScramStage)
| CScramServerFinal (session : ScramSession) (username : jsstr).

Record Smtp := mkSmtp {
  buffer : bytes;
  state : ConnState;
  isTls : bool;
  awaiting : Awaiting;
  closed : bool;
  heloName : jsstr;
  tx : Tx;
  rcptCount : Z;
  errorCount : Z;
  pendingOverflow : bool;
  authenticatedAs : option jsstr;
  authContinuation : option AuthContinuation;
  pendingAuthUser : option jsstr;
  nonceIdx : nat
}.

Definition initial : Smtp :=
  {| buffer := []; state := StInit; isTls := false; awaiting := WNone; closed := false; heloName := [];
     tx := noTx; rcptCount := 0; errorCount := 0; pendingOverflow := false; authenticatedAs := None;
     authContinuation := None; pendingAuthUser := None; nonceIdx := 0 |}.

(** ** Replies *)

Definition reply (code : Z) (enhanced message : jsstr) : SmtpAction :=
  AReply (numToString code ++ [SP] ++ enhanced ++ [SP] ++ message ++ crlf).

Definition sreply (code : Z) (enhanced message : string) : SmtpAction := reply code (js enhanced) (js message).

Definition rawReply (line : jsstr) : SmtpAction := AReply (line ++ crlf).

Definition greeting : list SmtpAction := [rawReply (js "220 " ++ hostname cfg ++ js " ESMTP ready")].

Definition resetTransaction (s : Smtp) : Smtp :=
  s <| tx := noTx |> <| state ::= fun st => match st with StInit => StInit | _ => StGreeted end |>.

(** [scramFailedAction(step)] *)
Definition scramFailedAction (step : ScramStep) : SmtpAction :=
  AAuthFailed (match step with NeedFailed (Some ((_ :: _) as u)) => Some u | _ => None end).

(** ** Authentication *)

Definition authAllowed (s : Smtp) : bool := authOffered cfg && (isTls s || allowInsecureAuth cfg).

Definition finishPlainAuth (b64 : jsstr) (s : Smtp) : Smtp * list SmtpAction :=
  match decodeSaslBase64 b64 with
  | None => (s, [sreply 501 "5.5.2" "Invalid base64 encoding"])
  | Some bs =>
      match parseSaslPlain bs with
      | None => (s, [sreply 501 "5.5.2" "Invalid PLAIN authentication response"])
      | Some creds =>
          (s <| pendingAuthUser := Some (pl_user creds) |> <| awaiting := WAuth |>,
           [AAuth (pl_user creds) (pl_pass creds)])
      end
  end.

Definition mechName (m : OAuthMech) : jsstr :=
  match m with XOAUTH2 => js "XOAUTH2" | OAUTHBEARER => js "OAUTHBEARER" end.

Definition finishOAuthAuth (mechanism : OAuthMech) (b64 : jsstr) (s : Smtp) : Smtp * list SmtpAction :=
  match decodeSaslBase64 b64 with
  | None => (s, [sreply 501 "5.5.2" "Invalid base64 encoding"])
  | Some bs =>
      match parseSaslOAuth (mechName mechanism) (utf8Decode bs) with
      | None =>
          (s, [reply 501 (js "5.5.2")
                 (js "Invalid " ++ mechName mechanism ++ js " authentication response")])
      | Some creds =>
          (s <| pendingAuthUser := Some (oa_user creds) |> <| awaiting := WAuth |>,
           [AAuth (oa_user creds) (oa_token creds)])
      end
  end.

Definition authInvalid : SmtpAction := sreply 535 "5.7.8" "Authentication credentials invalid".

Definition beginScram (session : ScramSession) (b64 : jsstr) (s : Smtp) : Smtp * list SmtpAction :=
  match decodeSaslBase64 b64 with
  | None => (s <| authContinuation := None |>, [sreply 501 "5.5.2" "Invalid base64 encoding"])
  | Some decoded =>
      let '(session', step) := scramStart (nonces cfg (nonceIdx s)) (utf8Decode decoded) session in
      let s := s <| nonceIdx ::= S |> in
      match step with
      | NeedLookup username =>
          (s <| authContinuation := Some (CScram session' StageKeys) |> <| awaiting := WScramKeys |>,
           [AScramKeys username])
      | _ => (s <| authContinuation := None |>, [scramFailedAction step; authInvalid])
      end
  end.

Definition handleAuth (rest : jsstr) (s : Smtp) : Smtp * list SmtpAction :=
  if negb (authAllowed s) then (s, [sreply 502 "5.5.1" "Command not implemented"])
  else match authenticatedAs s with
  | Some _ => (s, [sreply 503 "5.5.1" "Already authenticated"])
  | None =>
      let '(mechanism, initialResponse) := splitVerb rest in
      if mechanism === js "PLAIN" then
        if 0 <? len initialResponse then finishPlainAuth initialResponse s
        else (s <| authContinuation := Some CPlain |>, [rawReply (js "334")])
      else if mechanism === js "LOGIN" then
        if 0 <? len initialResponse then
          match decodeSaslBase64 initialResponse with
          | None => (s, [sreply 501 "5.5.2" "Invalid base64 encoding"])
          | Some decoded =>
              (s <| authContinuation := Some (CLoginPass (utf8Decode decoded)) |>,
               [rawReply (js "334 UGFzc3dvcmQ6")])
          end
        else (s <| authContinuation := Some CLoginUser |>, [rawReply (js "334 VXNlcm5hbWU6")])
      else if mechanism === js "SCRAM-SHA-256" then
        if negb (scramOffered cfg) then (s, [sreply 504 "5.5.4" "Unrecognized authentication type"])
        else
          let session := scramNew (scramDecoySecret cfg) in
          if 0 <? len initialResponse then beginScram session initialResponse s
          else (s <| authContinuation := Some (CScram session StageKeys) |>, [rawReply (js "334 ")])
      else if mechanism === js "XOAUTH2" then
        if 0 <? len initialResponse then finishOAuthAuth XOAUTH2 initialResponse s
        else (s <| authContinuation := Some (COAuth XOAUTH2) |>, [rawReply (js "334 ")])
      else if mechanism === js "OAUTHBEARER" then
        if 0 <? len initialResponse then finishOAuthAuth OAUTHBEARER initialResponse s
        else (s <| authContinuation := Some (COAuth OAUTHBEARER) |>, [rawReply (js "334 ")])
      else (s, [sreply 504 "5.5.4" "Unrecognized authentication type"])
  end.

(** The body of [handleAuthContinuationLine] once the line is decoded and is no
    cancellation. *)
Definition continueAuth (cont : AuthContinuation) (line : jsstr) (s : Smtp) : Smtp * list SmtpAction :=
  match cont with
  | CPlain => finishPlainAuth line (s <| authContinuation := None |>)
  | COAuth mechanism => finishOAuthAuth mechanism line (s <| authContinuation := None |>)
  | CScram session StageKeys => beginScram session line s
  | CScramServerFinal _ username =>
      (s <| authContinuation := None |> <| awaiting := WAuth |> <| pendingAuthUser := Some username |>,
       [AAuthVerified username])
  | CScram session StageFinal =>
      match decodeSaslBase64 line with
      | None => (s <| authContinuation := None |>, [sreply 501 "5.5.2" "Invalid base64 encoding"])
      | Some decoded =>
          let '(session', step) := scramFinal (utf8Decode decoded) session in
          match step with
          | NeedDone username message =>
              (s <| authContinuation := Some (CScramServerFinal session' username) |>,
               [rawReply (js "334 " ++ base64Encode (utf8Encode message))])
          | _ => (s <| authContinuation := None |>, [scramFailedAction step; authInvalid])
          end
      end
  | CLoginUser =>
      match decodeSaslBase64 line with
      | None => (s <| authContinuation := None |>, [sreply 501 "5.5.2" "Invalid base64 encoding"])
      | Some decoded =>
          (s <| authContinuation := Some (CLoginPass (utf8Decode decoded)) |>,
           [rawReply (js "334 UGFzc3dvcmQ6")])
      end
  | CLoginPass user =>
      match decodeSaslBase64 line with
      | None => (s <| authContinuation := None |>, [sreply 501 "5.5.2" "Invalid base64 encoding"])
      | Some decoded =>
          (s <| authContinuation := None |> <| pendingAuthUser := Some user |> <| awaiting := WAuth |>,
           [AAuth user (utf8Decode decoded)])
      end
  end.

Definition handleAuthContinuationLine (lineBytes : bytes) (s : Smtp) : Smtp * list SmtpAction :=
  if MAX_COMMAND_LINE <? len lineBytes then
    (s <| authContinuation := None |>, [sreply 501 "5.5.2" "Line too long"])
  else
    let line := trim (utf8Decode lineBytes) in
    if line === js "*" then
      (s <| authContinuation := None |>, [sreply 501 "5.7.0" "Authentication cancelled"])
    else match authContinuation s with
         | None => (s, [])
         | Some cont => continueAuth cont line s
         end.

(** ** Commands *)

(** The lines of the EHLO reply, the last one still with its dash. *)
Definition ehloLines (rest : jsstr) (s : Smtp) : list jsstr :=
  [js "250-" ++ hostname cfg ++ js " Hello " ++ rest;
   js "250-SIZE " ++ numToString (maxSizeBytes cfg);
   js "250-LIMITS RCPTMAX=" ++ numToString MAX_RCPT_PER_SESSION;
   js "250-8BITMIME"; js "250-PIPELINING"; js "250-ENHANCEDSTATUSCODES"; js "250-SMTPUTF8";
   js "250-CHUNKING"; js "250-DSN"]
  ++ (if tlsAvailable cfg && negb (isTls s) then [js "250-STARTTLS"] else [])
  ++ (if authAllowed s then
        [js "250-AUTH " ++ (if scramOffered cfg then js "SCRAM-SHA-256 PLAIN LOGIN XOAUTH2 OAUTHBEARER"
                            else js "PLAIN LOGIN XOAUTH2 OAUTHBEARER")]
      else []).

(** The last line loses its dash, and every line gets its CRLF. *)
Definition multiline (lines : list jsstr) : jsstr :=
  flat_map (fun l => l ++ crlf)
    (removelast lines ++ [js "250 " ++ drop 4 (List.last lines [])]).

Definition handleEhlo (rest : jsstr) (s : Smtp) : Smtp * list SmtpAction :=
  if len rest =? 0 then (s, [sreply 501 "5.5.4" "Syntax: EHLO hostname"])
  else
    let s := (resetTransaction s) <| state := StGreeted |> <| heloName := rest |> in
    (s, [AReply (multiline (ehloLines rest s))]).

Definition handleHelo (rest : jsstr) (s : Smtp) : Smtp * list SmtpAction :=
  if len rest =? 0 then (s, [sreply 501 "5.5.4" "Syntax: HELO hostname"])
  else
    ((resetTransaction s) <| state := StGreeted |> <| heloName := rest |>,
     [rawReply (js "250 " ++ hostname cfg ++ js " Hello " ++ rest)]).

Definition handleMail (rest : jsstr) (s : Smtp) : Smtp * list SmtpAction :=
  if decide (state s = StInit) then (s, [sreply 503 "5.5.1" "Send HELO/EHLO first"])
  else if (match profile cfg with Submission => true | Relay => false end)
          && (match authenticatedAs s with None => true | Some _ => false end)
  then (s, [sreply 530 "5.7.0" "Authentication required"])
  else if decide (state s <> StGreeted) then (s, [sreply 503 "5.5.1" "Sender already specified"])
  else match parseMailFromArgs rest with
  | inr e => (s, [reply (pe_code e) (pe_enhanced e) (pe_message e)])
  | inl parsed =>
      if (match mf_size parsed with Some n => maxSizeBytes cfg <? n | None => false end)
      then (s, [sreply 552 "5.3.4" "Message size exceeds fixed maximum message size"])
      else
        (s <| tx ::= fun t => t <| mailFrom := Some (mf_address parsed) |>
               <| mailDsn := {| md_ret := mf_ret parsed; md_envid := mf_envid parsed |} |>
               <| rcptTo := [] |> |>
           <| state := StMail |>,
         [sreply 250 "2.1.0" "OK"])
  end.

Definition handleRcpt (rest : jsstr) (s : Smtp) : Smtp * list SmtpAction :=
  if decide (state s <> StMail /\ state s <> StRcpt) then (s, [sreply 503 "5.5.1" "Need MAIL before RCPT"])
  else match parseRcptToArgs rest with
  | inr e => (s, [reply (pe_code e) (pe_enhanced e) (pe_message e)])
  | inl parsed =>
      if MAX_RCPT_PER_SESSION <=? rcptCount s then (s, [sreply 452 "4.5.3" "Too many recipients"])
      else
        let dsn := match rt_notify parsed, rt_orcpt parsed with
                   | None, None => rcptDsn (tx s)
                   | n, o => mapSet (rt_address parsed) {| rd_notify := n; rd_orcpt := o |} (rcptDsn (tx s))
                   end in
        (s <| rcptCount ::= Z.add 1 |>
           <| tx ::= fun t => t <| pendingRcptAddress := Some (rt_address parsed) |> <| rcptDsn := dsn |> |>
           <| awaiting := WRcpt |>,
         [ARcpt (rt_address parsed)])
  end.

Definition bdatSyntax : SmtpAction := sreply 501 "5.5.4" "Syntax: BDAT <bytes> [LAST]".

Definition handleBdat (rest : jsstr) (s : Smtp) : Smtp * list SmtpAction :=
  if decide (state s <> StRcpt /\ state s <> StBdat) then (s, [sreply 503 "5.5.1" "Need RCPT before BDAT"])
  else
    let parts := splitWs (trim rest) in
    let first := default [] (head parts) in
    match (if isDigits first then jsNumber first else NumNaN) with
    | NumInt n =>
        let last := toUpperCase (default [] (parts !! 1%nat)) === js "LAST" in
        if (2 <? len parts) || ((len parts =? 2) && negb last) then (s, [bdatSyntax])
        else
          (s <| tx ::= fun t => t <| dataOverflow ::= orb (maxSizeBytes cfg <? dbl (dataSize t + n)) |>
                 <| bdatRemaining := n |> <| bdatLast := last |> |>
             <| state := StBdat |>, [])
    | _ => (s, [bdatSyntax])
    end.

Definition handleData (rest : jsstr) (s : Smtp) : Smtp * list SmtpAction :=
  if 0 <? len rest then (s, [sreply 501 "5.5.4" "Syntax: DATA"])
  else if decide (state s <> StRcpt) then (s, [sreply 503 "5.5.1" "Need RCPT before DATA"])
  else (s <| state := StData |>, [rawReply (js "354 Start mail input; end with <CRLF>.<CRLF>")]).

Definition handleVrfy (rest : jsstr) (s : Smtp) : Smtp * list SmtpAction :=
  (s, [if len (trim rest) =? 0 then sreply 501 "5.5.4" "Syntax: VRFY address"
       else sreply 252 "2.1.5" "Cannot VRFY user, but will accept message"]).

Definition handleStartTls (s : Smtp) : Smtp * list SmtpAction :=
  if negb (tlsAvailable cfg) then (s, [sreply 502 "5.5.1" "Command not implemented"])
  else if isTls s then (s, [sreply 503 "5.5.1" "Already using TLS"])
  else (s <| buffer := [] |> <| awaiting := WTls |>,
        [sreply 220 "2.0.0" "Ready to start TLS"; AStartTls]).

Definition handleVerb (verb rest : jsstr) (s : Smtp) : Smtp * list SmtpAction :=
  if verb === js "EHLO" then handleEhlo rest s
  else if verb === js "HELO" then handleHelo rest s
  else if verb === js "MAIL" then handleMail rest s
  else if verb === js "RCPT" then handleRcpt rest s
  else if verb === js "DATA" then handleData rest s
  else if verb === js "BDAT" then handleBdat rest s
  else if verb === js "RSET" then (resetTransaction s, [sreply 250 "2.1.5" "OK"])
  else if verb === js "NOOP" then (s, [sreply 250 "2.0.0" "OK"])
  else if verb === js "QUIT" then (s <| closed := true |>, [sreply 221 "2.0.0" "Bye"; AClose])
  else if verb === js "VRFY" then handleVrfy rest s
  else if verb === js "EXPN" then (s, [sreply 502 "5.5.1" "Command not implemented"])
  else if verb === js "HELP" then (s, [sreply 214 "2.0.0" "See RFC 5321"])
  else if verb === js "STARTTLS" then handleStartTls s
  else if verb === js "AUTH" then handleAuth rest s
  else (s, [sreply 500 "5.5.1" "Command unrecognized"]).

Definition handleCommandLine (lineBytes : bytes) (s : Smtp) : Smtp * list SmtpAction :=
  if MAX_COMMAND_LINE <? len lineBytes then (s, [sreply 550 "5.5.2" "Line too long"])
  else
    let line := utf8Decode lineBytes in
    if len (trim line) =? 0 then (s, [sreply 500 "5.5.1" "Command unrecognized"])
    else let '(verb, rest) := splitVerb line in handleVerb verb rest s.

(** ** Message bodies *)

(** The DSN parameters of the accepted recipients, by address. *)
Definition perRcptOf (t : Tx) : list (jsstr * RcptDsn) :=
  fold_left (fun m r => match mapGet r (rcptDsn t) with Some d => mapSet r d m | None => m end)
    (rcptTo t) [].

Definition dsnOf (t : Tx) : option SmtpDsnParams :=
  let perRcpt := perRcptOf t in
  match md_ret (mailDsn t), md_envid (mailDsn t), perRcpt with
  | None, None, [] => None
  | ret, envid, p => Some {| ds_ret := ret; ds_envid := envid;
                             ds_perRcpt := match p with [] => None | _ => Some p end |}
  end.

Definition finishData (s : Smtp) : Smtp * list SmtpAction :=
  if dataOverflow (tx s) then
    (resetTransaction s, [sreply 552 "5.3.4" "Message size exceeds fixed maximum message size"])
  else
    (s <| tx ::= fun t => t <| dataChunks := [] |> <| dataSize := 0 |> |> <| awaiting := WDeliver |>,
     [ADeliver {| e_mailFrom := default [] (mailFrom (tx s)); e_heloName := heloName s;
                  e_rcptTo := rcptTo (tx s); e_raw := concat (dataChunks (tx s));
                  e_authenticatedAs := authenticatedAs s; e_dsn := dsnOf (tx s) |}]).

(** The result of an iteration: new state, actions, and whether the loop goes on. *)
Abbreviation Iteration := (Smtp * list SmtpAction * bool)%type.

Definition continuing (r : Smtp * list SmtpAction) : Iteration := (r.1, r.2, true).

(** Takes what the buffer holds of the chunk; an overflowing message is read but not
    kept. *)
Definition bdatRead (s : Smtp) : Smtp :=
  let t := tx s in
  let n := if bdatRemaining t <=? len (buffer s) then Z.to_nat (bdatRemaining t) else length (buffer s) in
  s <| buffer := drop n (buffer s) |>
    <| tx := {| mailFrom := mailFrom t; rcptTo := rcptTo t; rcptDsn := rcptDsn t; mailDsn := mailDsn t;
                bdatRemaining := dbl (bdatRemaining t - Z.of_nat n); bdatLast := bdatLast t;
                pendingRcptAddress := pendingRcptAddress t;
                dataChunks := if dataOverflow t then dataChunks t
                              else dataChunks t ++ [take n (buffer s)];
                dataSize := if dataOverflow t then dataSize t else dataSize t + Z.of_nat n;
                dataOverflow := dataOverflow t |} |>.

(** The end of a chunk. *)
Definition bdatEnd (s : Smtp) : Iteration :=
  if dataOverflow (tx s) then
    ((resetTransaction s) <| state := StGreeted |>, [sreply 552 "5.3.4" "Message size exceeds limit"], true)
  else if negb (bdatLast (tx s)) then
    (s <| state := StRcpt |>,
     [reply 250 (js "2.0.0") (numToString (dataSize (tx s)) ++ js " octets received")], true)
  else continuing (finishData s).

Definition pumpBdat (s : Smtp) : Iteration :=
  if 0 <? bdatRemaining (tx s) then
    if len (buffer s) =? 0 then (s, [], false)
    else
      let s := bdatRead s in
      if 0 <? bdatRemaining (tx s) then (s, [], false) else bdatEnd s
  else bdatEnd s.

Definition guardDataBuffer (s : Smtp) : Smtp :=
  if negb (MAX_DATA_LINE <? len (buffer s)) && negb (maxSizeBytes cfg <? dataSize (tx s) + len (buffer s)) then s
  else
    s <| tx ::= fun t => t <| dataOverflow := true |> <| dataChunks := [] |> <| dataSize := 0 |> |>
      <| buffer := match last (buffer s) with Some c => if c =? CR then [CR] else [] | None => [] end |>.

(** A line of the message body. *)
Definition handleDataLine (line : bytes) (s : Smtp) : Smtp * list SmtpAction :=
  if line === [DOT] then finishData s
  else if dataOverflow (tx s) then (s, [])
  else
    let content := match line with c :: r => if c =? DOT then r else line | [] => line end in
    let lineTotal := len content + 2 in
    if maxSizeBytes cfg <? dataSize (tx s) + lineTotal then
      (s <| tx ::= fun t => t <| dataOverflow := true |> <| dataChunks := [] |> |>, [])
    else
      (s <| tx ::= fun t => t <| dataChunks ::= fun cs => cs ++ [content; crlf] |>
                              <| dataSize ::= Z.add lineTotal |> |>, []).

Definition pumpDataLine (s : Smtp) : Iteration :=
  match indexOfCRLF (buffer s) with
  | None => (guardDataBuffer s, [], false)
  | Some idx => continuing (handleDataLine (take idx (buffer s)) (s <| buffer ::= drop (idx + 2) |>))
  end.

(** ** The loop *)

Definition running (s : Smtp) : bool :=
  match awaiting s with WNone => negb (closed s) | _ => false end.

(** A line-oriented iteration: [tooLong] when no CRLF came within the limit. *)
Definition pumpLine (tooLong : Smtp -> Smtp * list SmtpAction)
    (handle : bytes -> Smtp -> Smtp * list SmtpAction) (s : Smtp) : Iteration :=
  match indexOfCRLF (buffer s) with
  | None =>
      if MAX_COMMAND_LINE <? len (buffer s)
      then let '(s', a) := tooLong s in (s' <| buffer := [] |>, a, false)
      else (s, [], false)
  | Some idx => continuing (handle (take idx (buffer s)) (s <| buffer ::= drop (idx + 2) |>))
  end.

Definition pumpBody (s : Smtp) : Iteration :=
  match authContinuation s with
  | Some _ =>
      pumpLine (fun s => (s <| authContinuation := None |>, [sreply 501 "5.5.2" "Line too long"]))
        handleAuthContinuationLine s
  | None =>
      match state s with
      | StData => pumpDataLine s
      | StBdat => pumpBdat s
      | _ => pumpLine (fun s => (s, [sreply 550 "5.5.2" "Line too long"])) handleCommandLine s
      end
  end.

(** Every iteration that goes on shortens the buffer or leaves a BDAT chunk. *)
Definition pumpMeasure (s : Smtp) : nat :=
  2 * length (buffer s) + match state s with StBdat => 1 | _ => 0 end.

Definition pump (s : Smtp) : Smtp * list SmtpAction :=
  if pendingOverflow s then
    (s <| pendingOverflow := false |> <| closed := true |> <| buffer := [] |>,
     [sreply 421 "4.7.0" "Too much pipelined data, closing connection"; AClose])
  else whileFuel running pumpBody (S (S (pumpMeasure s))) s.

(** ** Public methods *)

Definition isErrorReply (a : SmtpAction) : bool :=
  match a with AReply (c :: _) => (c =? 52) || (c =? 53) | _ => false end.

Definition countErrors (acts : list SmtpAction) : Z := len (filter (fun a => isErrorReply a = true) acts).

Definition guardErrors (r : Smtp * list SmtpAction) : Smtp * list SmtpAction :=
  let '(s, actions) := r in
  if closed s then (s, actions)
  else
    let s := s <| errorCount ::= fun n => n + countErrors actions |> in
    if errorCount s <=? MAX_SMTP_ERRORS_PER_SESSION then (s, actions)
    else (s <| closed := true |> <| buffer := [] |>,
          actions ++ [sreply 421 "4.7.0" "Too many errors, closing connection"; AClose]).

Definition feed (chunk : bytes) (s : Smtp) : Smtp * list SmtpAction :=
  if closed s then (s, [])
  else if decide (awaiting s <> WNone) then
    if MAX_PIPELINE_PENDING_BYTES <? len (buffer s) + len chunk then (s <| pendingOverflow := true |>, [])
    else (s <| buffer ::= fun b => b ++ chunk |>, [])
  else guardErrors (pump (s <| buffer ::= fun b => b ++ chunk |>)).

(** Resuming after a backend call: the reply, then what was pipelined. *)
Definition resume (pre : list SmtpAction) (s : Smtp) : Smtp * list SmtpAction :=
  let '(s, b) := pump s in guardErrors (s, pre ++ b).

Definition rcptResult (outcome : RcptOutcome) (s : Smtp) : option (Smtp * list SmtpAction) :=
  match awaiting s with
  | WRcpt =>
      let address := default [] (pendingRcptAddress (tx s)) in
      let s := s <| tx ::= fun t => t <| pendingRcptAddress := None |> |> <| awaiting := WNone |> in
      Some (match outcome with
            | RcptOk =>
                resume [reply 250 (js "2.1.5") (address ++ js " OK")]
                  (s <| tx ::= fun t => t <| rcptTo ::= fun l => l ++ [address] |> |> <| state := StRcpt |>)
            | RcptFail code enhanced message => resume [reply code enhanced message] s
            end)
  | _ => None
  end.

Definition deliveryReply (outcome : DeliverOutcome) : SmtpAction :=
  match outcome with
  | DeliverOk (Some id) => reply 250 (js "2.6.0") (js "queued as " ++ id)
  | DeliverOk None => reply 250 (js "2.6.0") (js "OK")
  | DeliverFail code enhanced message => reply code enhanced message
  end.

Definition deliveryResult (outcome : DeliverOutcome) (s : Smtp) : option (Smtp * list SmtpAction) :=
  match awaiting s with
  | WDeliver => Some (resume [deliveryReply outcome] (resetTransaction (s <| awaiting := WNone |>)))
  | _ => None
  end.

Definition authResult (ok : bool) (s : Smtp) : option (Smtp * list SmtpAction) :=
  match awaiting s with
  | WAuth =>
      let user := pendingAuthUser s in
      let s := s <| pendingAuthUser := None |> <| awaiting := WNone |> in
      Some (if ok then resume [sreply 235 "2.7.0" "Authentication successful"] (s <| authenticatedAs := user |>)
            else resume [authInvalid] s)
  | _ => None
  end.

Definition scramKeysResult (keys : option ScramStoredKeys) (s : Smtp) : option (Smtp * list SmtpAction) :=
  match awaiting s with
  | WScramKeys =>
      let s := s <| awaiting := WNone |> in
      Some (match authContinuation s with
            | Some (CScram session _) | Some (CScramServerFinal session _) =>
                let '(session', step) := scramProvideKeys keys session in
                match step with
                | NeedSend message =>
                    resume [rawReply (js "334 " ++ base64Encode (utf8Encode message))]
                      (s <| authContinuation := Some (CScram session' StageFinal) |>)
                | _ => resume [scramFailedAction step; authInvalid] (s <| authContinuation := None |>)
                end
            | _ => resume [] s
            end)
  | _ => None
  end.

Definition tlsUpgraded (s : Smtp) : Smtp :=
  {| buffer := []; state := StInit; isTls := true; awaiting := WNone; closed := closed s;
     heloName := heloName s;
     tx := {| mailFrom := None; rcptTo := []; rcptDsn := rcptDsn (tx s); mailDsn := mailDsn (tx s);
              bdatRemaining := bdatRemaining (tx s); bdatLast := bdatLast (tx s);
              pendingRcptAddress := None; dataChunks := []; dataSize := 0; dataOverflow := false |};
     rcptCount := rcptCount s; errorCount := errorCount s; pendingOverflow := false;
     authenticatedAs := None; authContinuation := None; pendingAuthUser := None;
     nonceIdx := nonceIdx s |}.
End Engine.

Arguments resetTransaction : simpl never.
Arguments finishPlainAuth : simpl never.
Arguments finishOAuthAuth : simpl never.
Arguments beginScram : simpl never.
Arguments continueAuth : simpl never.
Arguments handleAuth : simpl never.
Arguments handleVerb : simpl never.
Arguments handleCommandLine : simpl never.
Arguments handleAuthContinuationLine : simpl never.
Arguments handleDataLine : simpl never.
Arguments finishData : simpl never.
Arguments guardDataBuffer : simpl never.
Arguments pumpBody : simpl never.
Arguments pumpBdat : simpl never.
Arguments bdatRead : simpl never.
Arguments bdatEnd : simpl never.
Arguments pump : simpl never.
Arguments guardErrors : simpl never.
Arguments resume : simpl never.
Arguments countErrors : simpl never.
Arguments reply : simpl never.
Arguments sreply : simpl never.
Arguments rawReply : simpl never.
Arguments dsnOf : simpl never.
Arguments multiline : simpl never.

(** ** Termination *)

Section Termination.
Context {SS : ScramServer} (cfg : SmtpConfig).

(** The measure only counts while the loop condition holds. *)
Definition loopMeasure (s : Smtp) : nat := if running s then S (pumpMeasure s) else 0.

Definition shorter (s s' : Smtp) : Prop := (length (buffer s') <= length (buffer s))%nat.

Ltac open_handlers :=
  unfold handleAuthContinuationLine, continueAuth, handleCommandLine, handleVerb, handleEhlo, handleHelo,
    handleMail, handleRcpt, handleBdat, handleData, handleVrfy, handleStartTls, handleAuth,
    finishPlainAuth, finishOAuthAuth, beginScram, handleDataLine, finishData, resetTransaction.

Lemma authLine_shorter line s : shorter s (fst (handleAuthContinuationLine cfg line s)).
Proof.
  unfold shorter. open_handlers. repeat (case_inner; cbn; try lia).
Qed.

Lemma commandLine_shorter line s : shorter s (fst (handleCommandLine cfg line s)).
Proof.
  unfold shorter. open_handlers. repeat (case_inner; cbn; try lia).
Qed.

Lemma dataLine_shorter line s : shorter s (fst (handleDataLine cfg line s)).
Proof.
  unfold shorter. open_handlers. repeat (case_inner; cbn; try lia).
Qed.

Lemma pumpLine_measure tooLong handle s s1 a :
  (forall l s, shorter s (fst (handle l s))) ->
  running s = true -> pumpLine tooLong handle s = (s1, a, true) -> (loopMeasure s1 < loopMeasure s)%nat.
Proof.
  intros Hsh Hr. unfold pumpLine. destruct (indexOfCRLF (buffer s)) as [idx|] eqn:Ei.
  - intros [= <- <-]. apply indexOfCRLF_lt in Ei.
    pose proof (Hsh (take idx (buffer s)) (s <| buffer ::= drop (idx + 2) |>)) as H.
    unfold shorter in H. cbn in H. rewrite length_drop in H.
    unfold loopMeasure. rewrite Hr. unfold pumpMeasure. repeat case_match; lia.
  - destruct (_ <? _); [destruct (tooLong s)|]; done.
Qed.

Lemma finishData_buffer s : buffer (fst (finishData s)) = buffer s.
Proof. unfold finishData, resetTransaction. by destruct (dataOverflow (tx s)). Qed.

Lemma bdatRead_frame s :
  (length (buffer (bdatRead s)) <= length (buffer s))%nat /\ state (bdatRead s) = state s /\
  running (bdatRead s) = running s /\ awaiting (bdatRead s) = awaiting s /\
  errorCount (bdatRead s) = errorCount s.
Proof. unfold bdatRead. split; [|done]. cbn. rewrite length_drop. lia. Qed.

Lemma bdatEnd_measure s s1 a :
  state s = StBdat -> bdatEnd s = (s1, a, true) ->
  (length (buffer s1) <= length (buffer s))%nat /\ (state s1 <> StBdat \/ running s1 = false).
Proof.
  intros Hs. unfold bdatEnd, continuing, finishData.
  repeat case_inner; intros [= <- <-]; unfold resetTransaction, running; cbn; rewrite ?Hs; auto.
Qed.

Lemma pumpBdat_measure s s1 a :
  running s = true -> state s = StBdat -> pumpBdat s = (s1, a, true) -> (loopMeasure s1 < loopMeasure s)%nat.
Proof.
  intros Hr Hs. unfold pumpBdat, loopMeasure. rewrite Hr. unfold pumpMeasure. rewrite Hs.
  destruct (bdatRead_frame s) as (H1 & H2 & H3 & _).
  assert (Hend : forall x, (length (buffer x) <= length (buffer s))%nat -> state x = StBdat ->
    bdatEnd x = (s1, a, true) ->
    ((if running s1 then S (2 * length (buffer s1) + match state s1 with StBdat => 1 | _ => 0 end) else 0)
     < S (2 * length (buffer s) + 1))%nat).
  { intros x Hx Hsx He. destruct (bdatEnd_measure x s1 a Hsx He) as [Hb Hst].
    destruct (running s1); [|lia]. destruct Hst as [Hst|?]; [|done]. destruct (state s1); try done; lia. }
  destruct (0 <? bdatRemaining (tx s)); [|by apply Hend].
  destruct (_ =? 0); [done|]. cbn zeta. destruct (0 <? _); [done|]. apply Hend; [lia|congruence].
Qed.

Lemma pumpBody_measure s s1 a :
  running s = true -> pumpBody cfg s = (s1, a, true) -> (loopMeasure s1 < loopMeasure s)%nat.
Proof.
  intros Hr. unfold pumpBody. destruct (authContinuation s).
  { apply pumpLine_measure; [apply authLine_shorter|done]. }
  destruct (state s) eqn:Es;
    try (apply pumpLine_measure; [apply commandLine_shorter|done]).
  - unfold pumpDataLine. intros H. eapply (pumpLine_measure (fun s => (s, []))); [apply dataLine_shorter|done|].
    unfold pumpLine. destruct (indexOfCRLF (buffer s)); [exact H|done].
  - by apply pumpBdat_measure.
Qed.

(** The bound of [pump] is enough. *)
Lemma whileFuel_pump s :
  let r := whileFuel running (pumpBody cfg) (S (S (pumpMeasure s))) s in
  Loop running (pumpBody cfg) s (snd r) (fst r).
Proof.
  apply (whileFuel_loop running (pumpBody cfg) loopMeasure); [apply pumpBody_measure|].
  unfold loopMeasure. destruct (running s); lia.
Qed.
End Termination.

(** ** What a connection's trace establishes

    [Ghost] is computed from the trace alone: the address under verification, the
    recipients the backend accepted, the user whose SCRAM keys were last asked for, the
    user last sent for verification, the one the backend confirmed, and whether TLS is
    up. *)

Record Ghost := mkGhost {
  g_pending : option jsstr;
  g_accepted : list jsstr;
  g_lookup : option jsstr;
  g_authPending : option jsstr;
  g_auth : option jsstr;
  g_tls : bool
}.

Definition ghost0 : Ghost :=
  {| g_pending := None; g_accepted := []; g_lookup := None; g_authPending := None; g_auth := None;
     g_tls := false |}.

Definition track (G : Ghost) (a : SmtpAction) : Ghost :=
  match a with
  | ARcpt r => G <| g_pending := Some r |>
  | AScramKeys u => G <| g_lookup := Some u |>
  | AAuth u _ | AAuthVerified u => G <| g_authPending := Some u |>
  | _ => G
  end.

Definition trackAll (G : Ghost) (acts : list SmtpAction) : Ghost := fold_left track acts G.

Inductive Event :=
| EvFeed (chunk : bytes)
| EvRcpt (outcome : RcptOutcome)
| EvDelivery (outcome : DeliverOutcome)
| EvAuth (ok : bool)
| EvKeys (keys : option ScramStoredKeys)
| EvTls.

(** The event comes before the actions it causes. *)
Definition trackEvent (G : Ghost) (e : Event) : Ghost :=
  match e with
  | EvRcpt RcptOk => G <| g_accepted ::= fun l => l ++ option_list (g_pending G) |>
  | EvAuth true => G <| g_auth := g_authPending G |>
  | EvTls => G <| g_auth := None |> <| g_tls := true |>
  | _ => G
  end.

Definition trackStep (G : Ghost) (x : Event * list SmtpAction) : Ghost :=
  trackAll (trackEvent G x.1) x.2.

(** What each action may be, given the trace before it. *)
Definition actionOk (cfg : SmtpConfig) (G : Ghost) (a : SmtpAction) : Prop :=
  match a with
  | ADeliver env =>
      e_rcptTo env <> [] /\ e_rcptTo env ⊆ g_accepted G /\ len (e_raw env) <= maxSizeBytes cfg /\
      e_authenticatedAs env = g_auth G /\ (profile cfg = Submission -> is_Some (e_authenticatedAs env))
  | AAuth _ _ | AScramKeys _ => authOffered cfg && (g_tls G || allowInsecureAuth cfg) = true
  | AAuthVerified u =>
      authOffered cfg && (g_tls G || allowInsecureAuth cfg) = true /\ g_lookup G = Some u
  | _ => True
  end.

Fixpoint actsOk (cfg : SmtpConfig) (G : Ghost) (acts : list SmtpAction) : Prop :=
  match acts with
  | [] => True
  | a :: r => actionOk cfg G a /\ actsOk cfg (track G a) r
  end.

Lemma actsOk_app cfg G a b : actsOk cfg G (a ++ b) <-> actsOk cfg G a /\ actsOk cfg (trackAll G a) b.
Proof.
  revert G; induction a as [|x a IH]; intros G; cbn; [tauto|]. rewrite IH.
  change (trackAll G (x :: a)) with (trackAll (track G x) a). tauto.
Qed.

Lemma trackAll_app G a b : trackAll G (a ++ b) = trackAll (trackAll G a) b.
Proof. apply fold_left_app. Qed.

Arguments trackAll : simpl never.

Section Invariant.
Context {SS : ScramServer} (cfg : SmtpConfig).

Definition inTx (st : ConnState) : bool :=
  match st with StMail | StRcpt | StData | StBdat => true | _ => false end.
Definition hasRcpt (st : ConnState) : bool :=
  match st with StRcpt | StData | StBdat => true | _ => false end.

(** The transaction half of the invariant, over the fields it concerns. *)
Record InvTx (gp : option jsstr) (ga : list jsstr) (st : ConnState) (w : Awaiting) (n : Z) (t : Tx) : Prop := {
  it_count : len (rcptTo t) + len (option_list (pendingRcptAddress t)) <= n <= MAX_RCPT_PER_SESSION;
  it_pending : w = WRcpt <-> is_Some (pendingRcptAddress t);
  it_pending_state : w = WRcpt -> st = StMail \/ st = StRcpt;
  it_ghost : forall a, pendingRcptAddress t = Some a -> gp = Some a;
  it_accepted : rcptTo t ⊆ ga;
  it_rcpt : hasRcpt st = true -> rcptTo t <> [];
  it_mail : inTx st = true <-> is_Some (mailFrom t);
  it_idle : inTx st = false -> rcptTo t = [];
  it_deliver : w = WDeliver -> hasRcpt st = true;
  it_size : 0 <= dataSize t;
  it_chunks : dataOverflow t = false ->
    len (concat (dataChunks t)) = dataSize t /\ dataSize t <= maxSizeBytes cfg;
  it_bdat : 0 <= bdatRemaining t;
  it_bdat_size : st = StBdat -> dataOverflow t = false ->
    dataSize t + bdatRemaining t <= maxSizeBytes cfg
}.

(** The continuation of an exchange is about the user whose keys were asked for. *)
Definition bound (lk : option jsstr) (w : Awaiting) (c : option AuthContinuation) : Prop :=
  match c with
  | Some (CScram session StageFinal) => lk = Some (scramUser session)
  | Some (CScram session StageKeys) => w = WScramKeys -> lk = Some (scramUser session)
  | Some (CScramServerFinal _ u) => lk = Some u
  | _ => True
  end.

(** The authentication half. *)
Record InvAuth (lk gap ga : option jsstr) (gt : bool) (w : Awaiting) (tls : bool) (auth : option jsstr)
    (c : option AuthContinuation) (pu : option jsstr) : Prop := {
  ia_tls : tls = gt;
  ia_auth : auth = ga;
  ia_pending : w = WAuth -> pu = gap /\ is_Some pu;
  ia_allowed : is_Some c \/ w = WAuth \/ w = WScramKeys ->
    authOffered cfg && (gt || allowInsecureAuth cfg) = true;
  ia_keys : w = WScramKeys -> exists session, c = Some (CScram session StageKeys);
  ia_bound : bound lk w c
}.

Definition submission (auth : option jsstr) (st : ConnState) : Prop :=
  profile cfg = Submission -> inTx st = true -> is_Some auth.

Record Inv (G : Ghost) (s : Smtp) : Prop := {
  inv_tx : InvTx (g_pending G) (g_accepted G) (state s) (awaiting s) (rcptCount s) (tx s);
  inv_auth : InvAuth (g_lookup G) (g_authPending G) (g_auth G) (g_tls G) (awaiting s) (isTls s)
               (authenticatedAs s) (authContinuation s) (pendingAuthUser s);
  inv_sub : submission (authenticatedAs s) (state s)
}.

(** What a handler has to establish. *)
Definition Good (G : Ghost) (r : Smtp * list SmtpAction) : Prop :=
  actsOk cfg G r.2 /\ Inv (trackAll G r.2) r.1.

Context (max_range : 0 <= maxSizeBytes cfg < 2 ^ 53).

Lemma smtp_running_inv (s : Smtp) : running s = true -> awaiting s = WNone /\ closed s = false.
Proof. unfold running. destruct (awaiting s); try done. by rewrite negb_true_iff. Qed.

(** Replies and closings carry no obligation. *)
Definition silent (a : SmtpAction) : bool :=
  match a with AReply _ | AClose | AStartTls | AAuthFailed _ => true | _ => false end.

Lemma silent_acts G acts :
  forallb silent acts = true -> actsOk cfg G acts /\ trackAll G acts = G.
Proof.
  induction acts as [|x acts IH]; [done|]. cbn [forallb]. intros [Hx Ha]%andb_true_iff.
  destruct (IH Ha) as [H1 H2]. by destruct x.
Qed.

Lemma Good_silent G s acts : Inv G s -> forallb silent acts = true -> Good G (s, acts).
Proof.
  intros HI Hs. unfold Good. cbn. destruct (silent_acts G acts Hs) as [H ->]. done.
Qed.

Lemma Good_reply G s a : Inv G s -> silent a = true -> Good G (s, [a]).
Proof. intros HI Ha. apply Good_silent; [done|]. cbn. by rewrite Ha. Qed.

(** *** The transaction half under the updates the handlers make *)

Lemma InvTx_none gp ga st w n :
  inTx st = false -> w <> WRcpt -> w <> WDeliver -> 0 <= n <= MAX_RCPT_PER_SESSION ->
  InvTx gp ga st w n noTx.
Proof.
  intros Hst Hw1 Hw2 Hn. constructor; cbn; rewrite ?Hst; try done.
  all: first [set_solver|by destruct st|by split; [|intros [? ?]]].
Qed.

Lemma InvTx_count gp ga st w n t : InvTx gp ga st w n t -> 0 <= n <= MAX_RCPT_PER_SESSION.
Proof.
  intros [H _ _ _ _ _ _ _ _ _ _ _ _].
  pose proof (len_nonneg (rcptTo t)). pose proof (len_nonneg (option_list (pendingRcptAddress t))). lia.
Qed.

(** Waiting for something that is not about the transaction. *)
Lemma InvTx_await gp ga st w n t :
  InvTx gp ga st WNone n t -> w <> WRcpt -> w <> WDeliver -> InvTx gp ga st w n t.
Proof.
  intros [H1 H2 H3 H4 H5 H6 H7 H8 H9 H10 H11 H12 H13] Hw1 Hw2. constructor; try done.
  split; [done|]. intros Hp. by apply H2 in Hp.
Qed.

Lemma InvTx_no_pending gp ga st w n t :
  InvTx gp ga st w n t -> w <> WRcpt -> pendingRcptAddress t = None.
Proof.
  intros [_ H _ _ _ _ _ _ _ _ _ _ _] Hw. destruct (pendingRcptAddress t) eqn:E; [|done].
  exfalso. apply Hw, H. eauto.
Qed.

Lemma smtp_Inv_reset G s st :
  Inv G s -> awaiting s = WNone -> inTx st = false ->
  Inv G (s <| tx := noTx |> <| state := st |>).
Proof.
  intros [Ht Ha Hs] Hw Hst. constructor; cbn; [|done|].
  - rewrite Hw. apply InvTx_none; [done..|]. by eapply InvTx_count.
  - intros _ H. congruence.
Qed.

Lemma Inv_resetTransaction G s : Inv G s -> awaiting s = WNone -> Inv G (resetTransaction s).
Proof.
  intros HI Hw. unfold resetTransaction.
  change (Inv G (s <| tx := noTx |> <| state := match state s with StInit => StInit | _ => StGreeted end |>)).
  apply smtp_Inv_reset; [done..|]. by destruct (state s).
Qed.

Lemma smtp_Inv_buffer G s b : Inv G s -> Inv G (s <| buffer := b |>).
Proof. by intros [Ht Ha Hs]. Qed.

Lemma Inv_closed G s : Inv G s -> Inv G (s <| closed := true |>).
Proof. by intros [Ht Ha Hs]. Qed.

Lemma smtp_Inv_errors G s f : Inv G s -> Inv G (s <| errorCount ::= f |>).
Proof. by intros [Ht Ha Hs]. Qed.

Lemma smtp_Inv_helo G s name : Inv G s -> Inv G (s <| heloName := name |>).
Proof. by intros [Ht Ha Hs]. Qed.

Lemma Inv_nonce G s f : Inv G s -> Inv G (s <| nonceIdx ::= f |>).
Proof. by intros [Ht Ha Hs]. Qed.

Lemma Inv_overflow G s b : Inv G s -> Inv G (s <| pendingOverflow := b |>).
Proof. by intros [Ht Ha Hs]. Qed.

(** *** The authentication half *)

Lemma Inv_no_cont G s : Inv G s -> awaiting s = WNone -> Inv G (s <| authContinuation := None |>).
Proof.
  intros [Ht [H1 H2 H3 H4 H5 H6] Hs] Hw. constructor; cbn; try done. constructor; try done.
  - intros [[? ?]|[?|?]]; [done|congruence..].
  - congruence.
Qed.

(** A new continuation, on a line where authentication is allowed. *)
Lemma Inv_cont G s c :
  Inv G s -> awaiting s = WNone -> authAllowed cfg s = true ->
  bound (g_lookup G) WNone (Some c) -> Inv G (s <| authContinuation := Some c |>).
Proof.
  intros [Ht [H1 H2 H3 H4 H5 H6] Hs] Hw Hal Hb. constructor; cbn; try done. rewrite Hw.
  constructor; try done. intros _. by rewrite <- H1.
Qed.

Lemma authAllowed_inv G s :
  Inv G s -> is_Some (authContinuation s) -> authAllowed cfg s = true.
Proof.
  intros [_ [H1 _ _ H4 _ _] _] Hc. unfold authAllowed. rewrite H1. apply H4. by left.
Qed.

(** Credentials go to the backend. *)
Lemma Good_auth G s u p :
  Inv G s -> awaiting s = WNone -> authAllowed cfg s = true -> authContinuation s = None ->
  Good G (s <| pendingAuthUser := Some u |> <| awaiting := WAuth |>, [AAuth u p]).
Proof.
  intros [Ht [H1 H2 H3 H4 H5 H6] Hs] Hw Hal Hc. unfold authAllowed in Hal. rewrite H1 in Hal.
  split; [done|]. constructor; cbn; [|constructor; rewrite ?Hc; try done; eauto|done].
  rewrite Hw in Ht. by apply InvTx_await.
Qed.

Lemma finishPlainAuth_good G b64 s :
  Inv G s -> awaiting s = WNone -> authAllowed cfg s = true -> authContinuation s = None ->
  Good G (finishPlainAuth b64 s).
Proof.
  intros HI Hw Hal Hc. unfold finishPlainAuth.
  repeat case_match; try (by apply Good_reply). by apply Good_auth.
Qed.

Lemma finishOAuthAuth_good G m b64 s :
  Inv G s -> awaiting s = WNone -> authAllowed cfg s = true -> authContinuation s = None ->
  Good G (finishOAuthAuth m b64 s).
Proof.
  intros HI Hw Hal Hc. unfold finishOAuthAuth.
  repeat case_match; try (by apply Good_reply). by apply Good_auth.
Qed.

Lemma beginScram_good G session b64 s :
  Inv G s -> awaiting s = WNone -> authAllowed cfg s = true -> Good G (beginScram cfg session b64 s).
Proof.
  intros HI Hw Hal. unfold beginScram.
  destruct (decodeSaslBase64 b64) as [d|]; [|apply Good_reply; [by apply Inv_no_cont|done]].
  destruct (scramStart _ _ session) as [session' step] eqn:E.
  destruct step as [u|m|u m|u];
    try (apply Good_silent; [|done]; apply (Inv_no_cont G (s <| nonceIdx ::= S |>)); [by apply Inv_nonce|done]).
  apply scramStart_lookup in E.
  destruct HI as [Ht [H1 H2 H3 H4 H5 H6] Hs]. unfold authAllowed in Hal. rewrite H1 in Hal.
  split; [done|]. constructor; cbn; [|constructor; try done; eauto|done].
  - rewrite Hw in Ht. by apply InvTx_await.
  - cbn. intros _. by rewrite E.
Qed.

Lemma handleAuth_good G rest s :
  Inv G s -> awaiting s = WNone -> authContinuation s = None -> Good G (handleAuth cfg rest s).
Proof.
  intros HI Hw Hc. unfold handleAuth. destruct (authAllowed cfg s) eqn:Hal; cbn [negb]; [|by apply Good_reply].
  destruct (authenticatedAs s); [by apply Good_reply|]. destruct (splitVerb rest) as [m ir].
  repeat case_inner; try (by apply Good_reply);
    first [by apply finishPlainAuth_good|by apply finishOAuthAuth_good|by apply beginScram_good
          |apply Good_reply; [by apply Inv_cont|done]].
Qed.

(** The end of a SCRAM exchange: the verified user is the one looked up. *)
Lemma Good_verified G s session u :
  Inv G s -> awaiting s = WNone -> authContinuation s = Some (CScramServerFinal session u) ->
  Good G (s <| authContinuation := None |> <| awaiting := WAuth |> <| pendingAuthUser := Some u |>,
          [AAuthVerified u]).
Proof.
  intros [Ht [H1 H2 H3 H4 H5 H6] Hs] Hw Hc. rewrite Hc in *. cbn in H6.
  assert (Hal : authOffered cfg && (g_tls G || allowInsecureAuth cfg) = true) by (apply H4; eauto).
  split; [done|]. constructor; cbn; [|constructor; try done; eauto|done].
  rewrite Hw in Ht. by apply InvTx_await.
Qed.

Lemma continueAuth_good G c line s :
  Inv G s -> awaiting s = WNone -> authContinuation s = Some c -> Good G (continueAuth cfg c line s).
Proof.
  intros HI Hw Hc. assert (Hal : authAllowed cfg s = true) by (eapply authAllowed_inv; eauto).
  assert (Hn : Inv G (s <| authContinuation := None |>)) by (by apply Inv_no_cont).
  unfold continueAuth. destruct c as [| |user|m|session [|]|session u].
  - by apply finishPlainAuth_good.
  - destruct (decodeSaslBase64 line); apply Good_reply; try done. by apply Inv_cont.
  - destruct (decodeSaslBase64 line); [|by apply Good_reply].
    by apply (Good_auth G (s <| authContinuation := None |>)).
  - by apply finishOAuthAuth_good.
  - by apply beginScram_good.
  - destruct (decodeSaslBase64 line); [|by apply Good_reply].
    destruct (scramFinal _ session) as [session' step] eqn:E.
    destruct step as [u|msg|u msg|u]; try (by apply Good_silent).
    apply Good_reply; [|done]. apply Inv_cont; try done. cbn.
    apply scramFinal_done in E as [-> _]. destruct HI as [_ [_ _ _ _ _ Hb] _]. rewrite Hc in Hb. exact Hb.
  - by apply (Good_verified G s session).
Qed.

Lemma handleAuthContinuationLine_good G line s :
  Inv G s -> awaiting s = WNone -> Good G (handleAuthContinuationLine cfg line s).
Proof.
  intros HI Hw. assert (Hn : Inv G (s <| authContinuation := None |>)) by (by apply Inv_no_cont).
  unfold handleAuthContinuationLine. repeat case_match; try (by apply Good_reply).
  - by apply continueAuth_good.
  - by apply Good_silent.
Qed.

(** *** Commands *)

Lemma Inv_greet G s name :
  Inv G s -> awaiting s = WNone -> Inv G ((resetTransaction s) <| state := StGreeted |> <| heloName := name |>).
Proof. intros HI Hw. exact (smtp_Inv_helo G _ name (smtp_Inv_reset G s StGreeted HI Hw eq_refl)). Qed.

Lemma handleMail_good G rest s :
  Inv G s -> awaiting s = WNone -> Good G (handleMail cfg rest s).
Proof.
  intros HI Hw. unfold handleMail.
  destruct (decide (state s = StInit)); [by apply Good_reply|].
  destruct (_ && match authenticatedAs s with None => true | Some _ => false end) eqn:Ep; [by apply Good_reply|].
  destruct (decide (state s <> StGreeted)) as [|Hst]; [by apply Good_reply|].
  destruct (parseMailFromArgs rest) as [p|e]; [|by apply Good_reply].
  destruct (match mf_size p with Some _ => _ | None => _ end); [by apply Good_reply|].
  apply Good_reply; [|done]. apply dec_stable in Hst. destruct HI as [Ht Ha Hs].
  constructor; cbn; [|done|].
  - pose proof (InvTx_no_pending _ _ _ _ _ _ Ht ltac:(by rewrite Hw)) as Hp.
    pose proof (InvTx_count _ _ _ _ _ _ Ht) as Hn.
    destruct Ht as [H1 H2 H3 H4 H5 H6 H7 H8 H9 H10 H11 H12 H13].
    constructor; cbn; try done; rewrite ?Hp, ?Hw; try done.
    all: first [set_solver|split; [eauto|done]].
  - intros Hprof _. destruct (profile cfg); [done|]. cbn in Ep. by destruct (authenticatedAs s).
Qed.

Lemma handleRcpt_good G rest s :
  Inv G s -> awaiting s = WNone -> Good G (handleRcpt rest s).
Proof.
  intros HI Hw. unfold handleRcpt.
  destruct (decide (state s <> StMail /\ state s <> StRcpt)) as [|Hst]; [by apply Good_reply|].
  destruct (parseRcptToArgs rest) as [p|e]; [|by apply Good_reply].
  destruct (Z.leb_spec MAX_RCPT_PER_SESSION (rcptCount s)); [by apply Good_reply|].
  split; [done|]. destruct HI as [Ht Ha Hs].
  assert (Hst' : state s = StMail \/ state s = StRcpt)
    by (destruct (decide (state s = StMail)), (decide (state s = StRcpt)); tauto).
  pose proof (InvTx_no_pending _ _ _ _ _ _ Ht ltac:(by rewrite Hw)) as Hp. rewrite Hw in *.
  destruct Ht as [H1 H2 H3 H4 H5 H6 H7 H8 H9 H10 H11 H12 H13].
  constructor; cbn; [|destruct Ha; constructor; cbn; try done|done].
  - constructor; cbn; try done.
    all: first [by split; eauto|rewrite Hp in H1; unfold len at 2 in H1; unfold len at 2; cbn in *; lia].
  - intros [?|[?|?]]; [by apply ia_allowed0; left|done..].
  - unfold bound in *. by destruct (authContinuation s) as [[| | | |? []|]|].
Qed.

Lemma handleData_good G rest s :
  Inv G s -> awaiting s = WNone -> Good G (handleData rest s).
Proof.
  intros HI Hw. unfold handleData. destruct (0 <? len rest); [by apply Good_reply|].
  destruct (decide (state s <> StRcpt)) as [|Hst]; [by apply Good_reply|]. apply dec_stable in Hst.
  apply Good_reply; [|done]. destruct HI as [Ht Ha Hs]. constructor; cbn; [|done|].
  - rewrite Hst in Ht. destruct Ht as [H1 H2 H3 H4 H5 H6 H7 H8 H9 H10 H11 H12 H13].
    constructor; cbn; try done. rewrite Hw. done.
  - intros Hp _. apply Hs; [done|]. by rewrite Hst.
Qed.

Lemma handleBdat_good G rest s :
  Inv G s -> awaiting s = WNone -> Good G (handleBdat cfg rest s).
Proof.
  intros HI Hw. unfold handleBdat.
  destruct (decide (state s <> StRcpt /\ state s <> StBdat)) as [|Hst]; [by apply Good_reply|].
  assert (Hst' : hasRcpt (state s) = true /\ inTx (state s) = true)
    by (destruct (state s); try done; exfalso; apply Hst; split; congruence).
  destruct (isDigits _) eqn:Ed; [|by apply Good_reply].
  destruct (jsNumber _) as [| | |n] eqn:En; try (by apply Good_reply).
  pose proof (jsNumber_digits_nonneg _ _ Ed En) as Hn.
  case_match; [by apply Good_reply|]. apply Good_silent; [|done].
  destruct HI as [Ht Ha Hs]. destruct Hst' as [Hr Hi]. constructor; cbn; [|done|].
  - destruct Ht as [H1 H2 H3 H4 H5 H6 H7 H8 H9 H10 H11 H12 H13]. rewrite Hw in *.
    constructor; cbn; try done.
    + intros _. auto.
    + split; [intros _; by apply H7|done].
    + intros [_ Ho]%orb_false_iff. auto.
    + intros _ [Hlt Ho]%orb_false_iff. apply Z.ltb_ge in Hlt.
      apply dbl_le in Hlt; [done|lia|lia].
  - intros Hp _. by apply Hs.
Qed.

Lemma Good_startTls G s :
  Inv G s -> awaiting s = WNone -> Good G (handleStartTls cfg s).
Proof.
  intros HI Hw. unfold handleStartTls. repeat case_inner; try (by apply Good_reply).
  apply Good_silent; [|done]. destruct HI as [Ht Ha Hs]. rewrite Hw in *.
  constructor; cbn; [by apply InvTx_await| |done].
  destruct Ha as [H1 H2 H3 H4 H5 H6]. constructor; try done.
  - intros [?|[?|?]]; [by apply H4; left|done..].
  - unfold bound in *. by destruct (authContinuation s) as [[| | | |? []|]|].
Qed.

Lemma handleVerb_good G verb rest s :
  Inv G s -> awaiting s = WNone -> authContinuation s = None -> Good G (handleVerb cfg verb rest s).
Proof.
  intros HI Hw Hc. unfold handleVerb, handleEhlo, handleHelo, handleVrfy.
  repeat case_inner;
    first [by apply Good_reply|by apply handleMail_good|by apply handleRcpt_good|by apply handleData_good
          |by apply handleBdat_good|by apply Good_startTls|by apply handleAuth_good
          |apply Good_reply; [by apply Inv_greet|done]|apply Good_reply; [by apply Inv_resetTransaction|done]
          |apply Good_silent; [by apply Inv_closed|done]].
Qed.

Lemma handleCommandLine_good G line s :
  Inv G s -> awaiting s = WNone -> authContinuation s = None -> Good G (handleCommandLine cfg line s).
Proof.
  intros HI Hw Hc. unfold handleCommandLine. repeat case_match; try (by apply Good_reply).
  by apply handleVerb_good.
Qed.

(** *** Message bodies *)

(** A change of the message fields only. *)
Lemma Inv_body G s st t :
  Inv G s -> hasRcpt (state s) = true -> hasRcpt st = true ->
  mailFrom t = mailFrom (tx s) -> rcptTo t = rcptTo (tx s) ->
  pendingRcptAddress t = pendingRcptAddress (tx s) ->
  0 <= dataSize t -> 0 <= bdatRemaining t -> awaiting s = WNone ->
  (dataOverflow t = false -> len (concat (dataChunks t)) = dataSize t /\ dataSize t <= maxSizeBytes cfg) ->
  (st = StBdat -> dataOverflow t = false -> dataSize t + bdatRemaining t <= maxSizeBytes cfg) ->
  Inv G (s <| tx := t |> <| state := st |>).
Proof.
  intros [Ht Ha Hs] Hst Hst' Em Er Ep Hd Hb Hw Hc Hbd.
  assert (Hi : forall x, hasRcpt x = true -> inTx x = true) by (by intros []).
  constructor; cbn; [|done|].
  - destruct Ht as [H1 H2 H3 H4 H5 H6 H7 H8 H9 H10 H11 H12 H13]. rewrite Hw in *.
    constructor; rewrite ?Em, ?Er, ?Ep; try done; auto.
    + split; [intros _; apply H7; auto|auto].
    + rewrite (Hi _ Hst'). done.
  - intros Hp _. apply Hs; [done|]. auto.
Qed.

Lemma concat_snoc_len (cs : list bytes) c : len (concat (cs ++ [c])) = len (concat cs) + len c.
Proof. rewrite concat_app, len_app. cbn. by rewrite app_nil_r. Qed.

Lemma finishData_good G s :
  Inv G s -> awaiting s = WNone -> hasRcpt (state s) = true -> Good G (finishData s).
Proof.
  intros HI Hw Hst. unfold finishData. destruct (dataOverflow (tx s)) eqn:Eo.
  { apply Good_reply; [by apply Inv_resetTransaction|done]. }
  destruct HI as [Ht Ha Hs]. pose proof Ht as [H1 H2 H3 H4 H5 H6 H7 H8 H9 H10 H11 H12 H13].
  destruct (H11 Eo) as [Hc Hm]. split.
  - split; [|done]. cbn. split; [auto|]. split; [done|]. split; [lia|]. split; [by destruct Ha|].
    intros Hp. apply Hs; [done|]. by destruct (state s).
  - rewrite Hw in *. constructor; cbn.
    + constructor; cbn; try done.
      * split; [done|]. intros Hp. by apply H2 in Hp.
      * intros _. unfold len. cbn. lia.
      * intros Hb _. specialize (H13 Hb Eo). lia.
    + destruct Ha as [A1 A2 A3 A4 A5 A6]. constructor; try done.
      * intros [?|[?|?]]; [by apply A4; left|done..].
      * unfold bound in *. by destruct (authContinuation s) as [[| | | |? []|]|].
    + done.
Qed.

Lemma handleDataLine_good G line s :
  Inv G s -> awaiting s = WNone -> state s = StData -> Good G (handleDataLine cfg line s).
Proof.
  intros HI Hw Hst. assert (Hr : hasRcpt (state s) = true) by (by rewrite Hst).
  unfold handleDataLine. destruct (line === [DOT]); [by apply finishData_good|].
  destruct (dataOverflow (tx s)) eqn:Eo; [by apply Good_silent|].
  set (content := match line with [] => _ | _ => _ end).
  pose proof HI as [[_ _ _ _ _ _ _ _ _ H10 H11 H12 _] _ _]. destruct (H11 Eo) as [Hc Hm].
  assert (Heq : forall t, s <| tx := t |> = s <| tx := t |> <| state := StData |>)
    by (intros t; rewrite <- Hst; by destruct s).
  pose proof (len_nonneg content).
  destruct (Z.ltb_spec (maxSizeBytes cfg) (dataSize (tx s) + (len content + 2)));
    (apply Good_silent; [|done]);
    match goal with |- Inv G (s <| tx ::= ?f |>) => change (Inv G (s <| tx := f (tx s) |>)) end; rewrite Heq.
  - by apply Inv_body.
  - apply Inv_body; cbn; try done; [lia|].
    intros _. change [content; crlf] with ([content] ++ [crlf]). rewrite app_assoc, !concat_snoc_len.
    change (len crlf) with 2. lia.
Qed.

Lemma guardDataBuffer_good G s :
  Inv G s -> awaiting s = WNone -> state s = StData -> Inv G (guardDataBuffer cfg s).
Proof.
  intros HI Hw Hst. unfold guardDataBuffer. destruct (_ && _); [done|].
  assert (Hr : hasRcpt (state s) = true) by (by rewrite Hst).
  pose proof HI as [[_ _ _ _ _ _ _ _ _ H10 H11 H12 _] _ _].
  set (t := (tx s) <| dataOverflow := true |> <| dataChunks := [] |> <| dataSize := 0 |>).
  pose proof (Inv_body G s StData t HI Hr eq_refl eq_refl eq_refl eq_refl ltac:(cbn; lia) H12 Hw
    ltac:(done) ltac:(done)) as H.
  rewrite <- Hst in H.
  match goal with |- Inv G (_ <| buffer := ?b |>) => apply (smtp_Inv_buffer G _ b) in H end. exact H.
Qed.

Lemma bdatRead_good G s :
  Inv G s -> awaiting s = WNone -> state s = StBdat -> 0 < bdatRemaining (tx s) -> Inv G (bdatRead s).
Proof.
  intros HI Hw Hst Hpos. assert (Hr : hasRcpt (state s) = true) by (by rewrite Hst).
  pose proof HI as [[_ _ _ _ _ _ _ _ _ H10 H11 H12 H13] _ _]. unfold bdatRead.
  set (n := if bdatRemaining (tx s) <=? len (buffer s) then _ else _).
  assert (Hn : Z.of_nat n = Z.min (bdatRemaining (tx s)) (len (buffer s)) /\ (n <= length (buffer s))%nat).
  { subst n. destruct (Z.leb_spec (bdatRemaining (tx s)) (len (buffer s))); unfold len in *; lia. }
  clearbody n. destruct Hn as [Hn Hnl]. pose proof (len_nonneg (buffer s)).
  assert (Hd : 0 <= dbl (bdatRemaining (tx s) - Z.of_nat n)) by (apply dbl_nonneg; lia).
  match goal with |- Inv G (s <| buffer := ?b |> <| tx := ?t |>) =>
    enough (HB : Inv G (s <| tx := t |> <| state := StBdat |>))
      by (apply (smtp_Inv_buffer G _ b) in HB; rewrite <- Hst in HB; exact HB) end.
  destruct (dataOverflow (tx s)) eqn:Eo; apply Inv_body; cbn; try done; try lia; try congruence.
  - intros _. rewrite concat_snoc_len. destruct (H11 eq_refl) as [Hc Hm].
    specialize (H13 Hst eq_refl). unfold len at 2. rewrite length_take. lia.
  - intros _ _. specialize (H13 Hst eq_refl). rewrite dbl_small by lia. lia.
Qed.

Lemma bdatEnd_good G s s1 a c :
  Inv G s -> awaiting s = WNone -> state s = StBdat -> bdatEnd s = (s1, a, c) -> Good G (s1, a).
Proof.
  intros HI Hw Hst. assert (Hr : hasRcpt (state s) = true) by (by rewrite Hst).
  unfold bdatEnd. destruct (dataOverflow (tx s)) eqn:Eo.
  { intros [= <- <- _]. apply Good_reply; [|done]. exact (smtp_Inv_reset G s StGreeted HI Hw eq_refl). }
  destruct (negb (bdatLast (tx s))).
  - intros [= <- <- _]. apply Good_reply; [|done].
    pose proof HI as [[_ _ _ _ _ _ _ _ _ H10 H11 H12 H13] _ _]. by apply (Inv_body G s StRcpt (tx s)).
  - pose proof (finishData_good G s HI Hw Hr) as HG. unfold continuing.
    destruct (finishData s). by intros [= <- <- _].
Qed.

Lemma pumpBdat_good G s s1 a c :
  Inv G s -> awaiting s = WNone -> state s = StBdat -> pumpBdat s = (s1, a, c) -> Good G (s1, a).
Proof.
  intros HI Hw Hst. unfold pumpBdat. destruct (bdatRead_frame s) as (_ & H2 & _ & H4 & _).
  destruct (Z.ltb_spec 0 (bdatRemaining (tx s))) as [Hpos|]; [|by apply bdatEnd_good].
  pose proof (bdatRead_good G s HI Hw Hst Hpos) as HR.
  destruct (_ =? 0); [intros [= <- <- _]; by apply Good_silent|]. cbn zeta.
  destruct (0 <? bdatRemaining (tx (bdatRead s))); [intros [= <- <- _]; by apply Good_silent|].
  apply bdatEnd_good; [done|congruence..].
Qed.

(** *** The loop and the entry points *)

Lemma pumpLine_good G tooLong handle s s1 a c :
  Inv G s -> awaiting s = WNone ->
  (Good G (tooLong s)) ->
  (forall l b, Good G (handle l (s <| buffer := b |>))) ->
  pumpLine tooLong handle s = (s1, a, c) -> Good G (s1, a).
Proof.
  intros HI Hw Ht Hh. unfold pumpLine, continuing. destruct (indexOfCRLF (buffer s)) as [idx|].
  - specialize (Hh (take idx (buffer s)) (drop (idx + 2) (buffer s))).
    change (s <| buffer ::= drop (idx + 2) |>) with (s <| buffer := drop (idx + 2) (buffer s) |>).
    destruct (handle _ _). by intros [= <- <- _].
  - destruct (_ <? _); [|intros [= <- <- _]; by apply Good_silent].
    destruct (tooLong s) as [s' a']. intros [= <- <- _].
    destruct Ht as [H1 H2]. split; [done|]. by apply smtp_Inv_buffer.
Qed.

Lemma pumpBody_good G s s1 a c :
  Inv G s -> awaiting s = WNone -> pumpBody cfg s = (s1, a, c) -> Good G (s1, a).
Proof.
  intros HI Hw. unfold pumpBody. destruct (authContinuation s) eqn:Ec.
  - apply pumpLine_good; [done..| |].
    + apply Good_reply; [by apply Inv_no_cont|done].
    + intros l b. apply handleAuthContinuationLine_good; [by apply smtp_Inv_buffer|done].
  - destruct (state s) eqn:Es;
      try (apply pumpLine_good; [done..|by apply Good_reply|];
           intros l b; apply handleCommandLine_good; [by apply smtp_Inv_buffer|done..]).
    + unfold pumpDataLine, continuing. destruct (indexOfCRLF (buffer s)) as [idx|].
      * pose proof (handleDataLine_good G (take idx (buffer s))
          (s <| buffer := drop (idx + 2) (buffer s) |>) (smtp_Inv_buffer _ _ _ HI) Hw Es) as HG.
        change (s <| buffer ::= drop (idx + 2) |>) with (s <| buffer := drop (idx + 2) (buffer s) |>).
        destruct (handleDataLine _ _ _). by intros [= <- <- _].
      * intros [= <- <- _]. apply Good_silent; [by apply guardDataBuffer_good|done].
    + by apply pumpBdat_good.
Qed.

Lemma Loop_good G s a s' : Loop running (pumpBody cfg) s a s' -> Inv G s -> Good G (s', a).
Proof.
  intros HL. revert G. induction HL as [s Hc|s s' a Hc Hb|s s1 a b s2 Hc Hb HL IH]; intros G HI.
  - by apply Good_silent.
  - apply smtp_running_inv in Hc as [Hw _]. by eapply pumpBody_good.
  - apply smtp_running_inv in Hc as [Hw _]. destruct (pumpBody_good _ _ _ _ _ HI Hw Hb) as [H1 H2].
    destruct (IH _ H2) as [H3 H4]. cbn in *. split; cbn.
    + by apply actsOk_app.
    + by rewrite trackAll_app.
Qed.

Lemma pump_good G s : Inv G s -> Good G (pump cfg s).
Proof.
  intros HI. unfold pump. destruct (pendingOverflow s).
  - apply Good_silent; [|done]. by apply (smtp_Inv_buffer G _ []), Inv_closed, Inv_overflow.
  - pose proof (whileFuel_pump cfg s) as HL. cbn zeta in HL. destruct (whileFuel _ _ _ s) as [s' a].
    by apply (Loop_good G s).
Qed.

Lemma guardErrors_good G r : Good G r -> Good G (guardErrors r).
Proof.
  destruct r as [s a]. intros [H1 H2]. unfold guardErrors. destruct (closed s); [done|].
  cbn. destruct (_ <=? _).
  - split; [done|]. by apply smtp_Inv_errors.
  - split; cbn in *.
    + apply actsOk_app. split; [done|]. by apply silent_acts.
    + rewrite trackAll_app. destruct (silent_acts (trackAll G a)
        [sreply 421 "4.7.0" "Too many errors, closing connection"; AClose] eq_refl) as [_ ->].
      apply (smtp_Inv_buffer _ _ []), Inv_closed. by apply smtp_Inv_errors.
Qed.

Lemma resume_good G pre s : Inv G s -> forallb silent pre = true -> Good G (resume cfg pre s).
Proof.
  intros HI Hs. unfold resume. pose proof (pump_good G s HI) as [H1 H2].
  destruct (pump cfg s) as [s' b]. apply guardErrors_good. cbn in *.
  destruct (silent_acts G pre Hs) as [H3 H4].
  split; cbn; [by rewrite actsOk_app, H4|by rewrite trackAll_app, H4].
Qed.

Definition step (e : Event) (s : Smtp) : option (Smtp * list SmtpAction) :=
  match e with
  | EvFeed chunk => Some (feed cfg chunk s)
  | EvRcpt outcome => rcptResult cfg outcome s
  | EvDelivery outcome => deliveryResult cfg outcome s
  | EvAuth ok => authResult cfg ok s
  | EvKeys keys => scramKeysResult cfg keys s
  | EvTls => Some (tlsUpgraded s, [])
  end.

(** Back to reading, after a wait that was not about a recipient. *)
Lemma InvTx_resume gp ga st w n t : InvTx gp ga st w n t -> w <> WRcpt -> InvTx gp ga st WNone n t.
Proof.
  intros Ht Hw. pose proof (InvTx_no_pending _ _ _ _ _ _ Ht Hw) as Hp.
  destruct Ht as [I1 I2 I3 I4 I5 I6 I7 I8 I9 I10 I11 I12 I13]. constructor; try done.
  rewrite Hp. split; [done|]. by intros [? ?].
Qed.

Lemma rcptResult_good G outcome s r :
  Inv G s -> rcptResult cfg outcome s = Some r -> Good (trackEvent G (EvRcpt outcome)) r.
Proof.
  intros [Ht Ha Hs]. unfold rcptResult. destruct (awaiting s) eqn:Hw; try done.
  destruct Ht as [I1 I2 I3 I4 I5 I6 I7 I8 I9 I10 I11 I12 I13].
  destruct (proj1 I2 eq_refl) as [addr Hp]. rewrite Hp in *.
  assert (Ha' : forall lk, lk = g_lookup G -> InvAuth lk (g_authPending G) (g_auth G) (g_tls G) WNone (isTls s)
            (authenticatedAs s) (authContinuation s) (pendingAuthUser s)).
  { intros lk ->. destruct Ha as [A1 A2 A3 A4 A5 A6]. constructor; try done.
    - intros [?|[?|?]]; [by apply A4; left|done..].
    - unfold bound in *. by destruct (authContinuation s) as [[| | | |? []|]|]. }
  assert (Hin : inTx (state s) = true) by (destruct (I3 eq_refl) as [-> | ->]; done).
  destruct outcome as [|code enhanced message]; intros [= <-]; apply resume_good; try done.
  - constructor; cbn; [|by apply Ha'|intros Hsub _; by apply Hs].
    constructor; cbn; try done.
    all: first [by rewrite (I4 _ eq_refl); set_solver|by intros _; destruct (rcptTo (tx s))
               |by split; [intros _; apply I7|]|by split; [|intros [? ?]]
               |by rewrite len_app; unfold len at 2 3; unfold len at 2 in I1; cbn in *; lia].
  - constructor; cbn; [|by apply Ha'|done]. constructor; cbn; try done.
    all: first [by split; [|intros [? ?]]|by unfold len at 2; unfold len at 2 in I1; cbn in *; lia].
Qed.

Lemma deliveryResult_good G outcome s r :
  Inv G s -> deliveryResult cfg outcome s = Some r -> Good G r.
Proof.
  intros HI. unfold deliveryResult. destruct (awaiting s) eqn:Hw; try done. intros [= <-].
  apply resume_good; [|by destruct outcome as [[]|]]. apply Inv_resetTransaction; [|done].
  destruct HI as [Ht Ha Hs]. rewrite Hw in *. constructor; cbn; [by eapply InvTx_resume| |done].
  destruct Ha as [A1 A2 A3 A4 A5 A6]. constructor; try done.
  - intros [?|[?|?]]; [by apply A4; left|done..].
  - unfold bound in *. by destruct (authContinuation s) as [[| | | |? []|]|].
Qed.

Lemma authResult_good G ok s r :
  Inv G s -> authResult cfg ok s = Some r -> Good (trackEvent G (EvAuth ok)) r.
Proof.
  intros [Ht Ha Hs]. unfold authResult. destruct (awaiting s) eqn:Hw; try done. rewrite ?Hw in *.
  destruct Ha as [A1 A2 A3 A4 A5 A6]. destruct (A3 eq_refl) as [Ep Hp].
  assert (Hb : bound (g_lookup G) WNone (authContinuation s)).
  { unfold bound in *. by destruct (authContinuation s) as [[| | | |? []|]|]. }
  destruct ok; intros [= <-]; apply resume_good; try done; constructor; cbn; try done;
    first [by eapply InvTx_resume|by intros _ _
          |constructor; try done; intros [?|[?|?]]; [by apply A4; left|done..]].
Qed.

Lemma scramKeysResult_good G keys s r :
  Inv G s -> scramKeysResult cfg keys s = Some r -> Good G r.
Proof.
  intros [Ht Ha Hs]. unfold scramKeysResult. destruct (awaiting s) eqn:Hw; try done. cbn.
  destruct Ha as [A1 A2 A3 A4 A5 A6]. destruct (A5 eq_refl) as [session Ec]. rewrite Ec in *. cbn in A6.
  specialize (A6 eq_refl). pose proof (scramProvideKeys_user keys session) as Hu.
  destruct (scramProvideKeys keys session) as [session' st]. cbn in Hu.
  assert (Hal : authOffered cfg && (g_tls G || allowInsecureAuth cfg) = true) by (apply A4; eauto).
  destruct st as [u|m|u m|u]; intros [= <-]; apply resume_good; try done;
    (constructor; cbn; [by eapply InvTx_resume| |done]); constructor; cbn; try done; congruence.
Qed.

Lemma tlsUpgraded_good G s : Inv G s -> Inv (trackEvent G EvTls) (tlsUpgraded s).
Proof.
  intros [Ht Ha Hs]. pose proof (InvTx_count _ _ _ _ _ _ Ht).
  destruct Ht as [I1 I2 I3 I4 I5 I6 I7 I8 I9 I10 I11 I12 I13].
  constructor; cbn; [| |done]; constructor; cbn; try done;
    first [set_solver|by split; [|intros [? ?]]|by intros [[? ?]|[?|?]]|by intros _; unfold len; cbn; lia].
Qed.

Lemma step_good G e s r : Inv G s -> step e s = Some r -> Good (trackEvent G e) r.
Proof.
  intros HI. destruct e as [chunk|o|o|ok|k|]; cbn.
  - intros [= <-]. unfold feed. destruct (closed s); [by apply Good_silent|].
    destruct (decide _).
    + destruct (_ <? _); (apply Good_silent; [|done]);
        [by apply Inv_overflow|by apply (smtp_Inv_buffer G s (buffer s ++ chunk))].
    + apply guardErrors_good, pump_good. by apply (smtp_Inv_buffer G s (buffer s ++ chunk)).
  - by apply rcptResult_good.
  - by apply deliveryResult_good.
  - by apply authResult_good.
  - by apply scramKeysResult_good.
  - intros [= <-]. split; [done|]. by apply tlsUpgraded_good.
Qed.

Lemma smtp_Inv_initial : Inv ghost0 initial.
Proof.
  constructor; cbn; [| |done].
  - by apply InvTx_none.
  - constructor; try done. by intros [[? ?]|[?|?]].
Qed.
End Invariant.

(** ** Sessions *)

Inductive Session {SS : ScramServer} (cfg : SmtpConfig) : list (Event * list SmtpAction) -> Smtp -> Prop :=
| session_start : Session cfg [] initial
| session_step tr s e s' acts :
    Session cfg tr s -> step cfg e s = Some (s', acts) -> Session cfg (tr ++ [(e, acts)]) s'.

Definition ghostOf (tr : list (Event * list SmtpAction)) : Ghost := fold_left trackStep tr ghost0.

Lemma Session_good {SS : ScramServer} cfg tr s :
  0 <= maxSizeBytes cfg < 2 ^ 53 -> Session cfg tr s -> Inv cfg (ghostOf tr) s.
Proof.
  intros Hm. induction 1 as [|tr s e s' acts HS IH Hstep]; [by apply smtp_Inv_initial|].
  unfold ghostOf in *. rewrite fold_left_app. cbn.
  by apply (step_good cfg Hm _ _ _ _ IH) in Hstep as [_ H].
Qed.

(** ** Bounds between two calls *)

Section Resting.
Context {SS : ScramServer} (cfg : SmtpConfig).

Ltac open_handlers :=
  unfold handleAuthContinuationLine, continueAuth, handleCommandLine, handleVerb, handleEhlo, handleHelo,
    handleMail, handleRcpt, handleBdat, handleData, handleVrfy, handleStartTls, handleAuth,
    finishPlainAuth, finishOAuthAuth, beginScram, handleDataLine, finishData, resetTransaction.

Lemma authLine_errorCount line s :
  errorCount (fst (handleAuthContinuationLine cfg line s)) = errorCount s.
Proof. open_handlers. repeat (case_inner; cbn; try done). Qed.

Lemma commandLine_errorCount line s : errorCount (fst (handleCommandLine cfg line s)) = errorCount s.
Proof. open_handlers. repeat (case_inner; cbn; try done). Qed.

Lemma dataLine_errorCount line s : errorCount (fst (handleDataLine cfg line s)) = errorCount s.
Proof. open_handlers. repeat (case_inner; cbn; try done). Qed.

Lemma pumpLine_errorCount tooLong handle s s1 a c :
  errorCount (fst (tooLong s)) = errorCount s ->
  (forall l s, errorCount (fst (handle l s)) = errorCount s) ->
  pumpLine tooLong handle s = (s1, a, c) -> errorCount s1 = errorCount s.
Proof.
  intros Ht Hh. unfold pumpLine, continuing. destruct (indexOfCRLF (buffer s)).
  - intros [= <- _ _]. by rewrite Hh.
  - destruct (_ <? _); [|by intros [= <- _ _]]. destruct (tooLong s). by intros [= <- _ _].
Qed.

Lemma pumpBody_errorCount s s1 a c : pumpBody cfg s = (s1, a, c) -> errorCount s1 = errorCount s.
Proof.
  unfold pumpBody. destruct (authContinuation s).
  { apply pumpLine_errorCount; [done|apply authLine_errorCount]. }
  destruct (state s); try (apply pumpLine_errorCount; [done|apply commandLine_errorCount]).
  - unfold pumpDataLine, continuing. destruct (indexOfCRLF (buffer s)).
    + intros [= <- _ _]. by rewrite dataLine_errorCount.
    + intros [= <- _ _]. unfold guardDataBuffer. by destruct (_ && _).
  - assert (He : forall x s1 a c, bdatEnd x = (s1, a, c) -> errorCount s1 = errorCount x).
    { intros x s2 a2 c2. unfold bdatEnd, continuing, finishData, resetTransaction.
      repeat (case_inner; cbn); by intros [= <- _ _]. }
    destruct (bdatRead_frame s) as (_ & _ & _ & _ & Hb). unfold pumpBdat.
    repeat case_match; intros H'; try (by injection H' as <- _ _); apply He in H'; congruence.
Qed.

(** An iteration that breaks out leaves no complete line. *)
Definition drained (s : Smtp) : Prop := no_crlf (buffer s) /\ len (buffer s) <= MAX_DATA_LINE.

Lemma drained_nil s : buffer s = [] -> drained s.
Proof. intros E. unfold drained. by rewrite E. Qed.

Lemma pumpLine_break tooLong handle s s1 a :
  pumpLine tooLong handle s = (s1, a, false) -> drained s1.
Proof.
  unfold pumpLine. destruct (indexOfCRLF (buffer s)) eqn:E; [done|].
  destruct (Z.ltb_spec MAX_COMMAND_LINE (len (buffer s))).
  - destruct (tooLong s). intros [= <- _]. by apply drained_nil.
  - intros [= <- _]. split; [done|]. unfold MAX_COMMAND_LINE, MAX_DATA_LINE in *. lia.
Qed.

Lemma pumpBody_break s s1 a : pumpBody cfg s = (s1, a, false) -> drained s1.
Proof.
  unfold pumpBody. destruct (authContinuation s); [apply pumpLine_break|].
  destruct (state s); try apply pumpLine_break.
  - unfold pumpDataLine, continuing. destruct (indexOfCRLF (buffer s)) eqn:E; [done|].
    intros [= <- _]. unfold guardDataBuffer.
    destruct (Z.ltb_spec MAX_DATA_LINE (len (buffer s))); cbn [negb andb].
    2: destruct (_ <? _); cbn [negb andb]; [|by split; [|lia]].
    all: unfold drained; cbn; destruct (last (buffer s)) as [c|]; [destruct (c =? CR)|]; done.
  - assert (He : forall x s1 a, bdatEnd x = (s1, a, false) -> False).
    { intros x s2 a2. unfold bdatEnd, continuing. repeat case_inner; done. }
    unfold pumpBdat. destruct (Z.ltb_spec 0 (bdatRemaining (tx s))) as [Hp|]; [|by intros ?%He].
    destruct (Z.eqb_spec (len (buffer s)) 0) as [E0|E0]; [intros [= <- _]; by apply drained_nil, len_zero|].
    cbn zeta. destruct (0 <? _) eqn:E1; [|by intros ?%He]. intros [= <- _]. apply drained_nil.
    unfold bdatRead in *. cbn in *. destruct (Z.leb_spec (bdatRemaining (tx s)) (len (buffer s))).
    + exfalso. rewrite Z2Nat.id, Z.sub_diag in E1 by lia. done.
    + by rewrite drop_all.
Qed.

Record Resting (s : Smtp) : Prop := {
  rest_errors : errorCount s <= MAX_SMTP_ERRORS_PER_SESSION;
  rest_idle : awaiting s = WNone -> drained s
}.

Lemma pump_resting s s1 a :
  pump cfg s = (s1, a) -> closed s1 = false -> errorCount s1 = errorCount s /\ (awaiting s1 = WNone -> drained s1).
Proof.
  unfold pump. destruct (pendingOverflow s); [by intros [= <- _]|].
  pose proof (whileFuel_pump cfg s) as HL. cbn zeta in HL. destruct (whileFuel _ _ _ s) as [s' a'].
  intros [= <- <-] Hc. cbn in HL. split.
  - apply (Loop_invariant running (pumpBody cfg) (fun x => errorCount x = errorCount s) (fun _ _ _ => True))
      in HL as [H _]; try done.
    intros x x' b c Hx _ Hb%pumpBody_errorCount. split; [congruence|done].
  - intros Hw. destruct (Loop_end _ _ _ _ _ HL) as [Hr|(t & b & _ & Hb)].
    + unfold running in Hr. rewrite Hw, Hc in Hr. done.
    + by apply pumpBody_break in Hb.
Qed.

Lemma guardErrors_resting s a s' a' :
  guardErrors (s, a) = (s', a') -> (closed s = false -> awaiting s = WNone -> drained s) ->
  closed s' = false -> Resting s'.
Proof.
  unfold guardErrors. destruct (closed s) eqn:Ec; [intros [= <- _] _; congruence|]. cbn.
  destruct (Z.leb_spec (errorCount s + countErrors a) MAX_SMTP_ERRORS_PER_SESSION);
    intros [= <- _]; [|done]. intros Hd _. constructor; [done|]. intros Hw. by apply Hd.
Qed.

Lemma resume_resting pre s s' a' : resume cfg pre s = (s', a') -> closed s' = false -> Resting s'.
Proof.
  unfold resume. destruct (pump cfg s) as [s1 b] eqn:Ep. intros Hg.
  eapply guardErrors_resting; [exact Hg|]. intros Hc. by apply (pump_resting _ _ _ Ep).
Qed.

Lemma smtp_step_resting e s s' acts :
  (closed s = false -> Resting s) -> step cfg e s = Some (s', acts) -> closed s' = false -> Resting s'.
Proof.
  intros HR. destruct e as [chunk|o|o|ok|k|]; cbn.
  - unfold feed. destruct (closed s) eqn:Ec; [intros [= <- _]; congruence|]. destruct (HR eq_refl) as [R1 R2].
    destruct (decide (awaiting s <> WNone)) as [Hw|Hw].
    + destruct (_ <? _); intros [= <- _] _; constructor; done.
    + destruct (pump cfg _) as [s1 b] eqn:Ep. intros [= Hg]. eapply guardErrors_resting; [exact Hg|].
      intros Hc. by apply (pump_resting _ _ _ Ep).
  - unfold rcptResult. destruct (awaiting s); try done. destruct o; intros [= Hres]; by eapply resume_resting.
  - unfold deliveryResult. destruct (awaiting s); try done. intros [= Hres]. by eapply resume_resting.
  - unfold authResult. destruct (awaiting s); try done. destruct ok; intros [= Hres]; by eapply resume_resting.
  - unfold scramKeysResult. destruct (awaiting s); try done.
    repeat (case_match; try done); intros [= Hres]; by eapply resume_resting.
  - intros [= <- _] Hc. destruct (HR Hc) as [R1 R2]. constructor; [done|]. intros _. by apply drained_nil.
Qed.

Lemma smtp_Session_resting tr s : Session cfg tr s -> closed s = false -> Resting s.
Proof.
  induction 1 as [|tr s e s' acts HS IH Hstep]; [|by eapply smtp_step_resting].
  intros _. constructor; [done|]. intros _. by apply drained_nil.
Qed.
End Resting.

(** ** Feeding an idle engine *)

Section Feeding.
Context {SS : ScramServer} (cfg : SmtpConfig).

(** Reading commands or a body, with nothing buffered. *)
Record Idle (st : ConnState) (s : Smtp) : Prop := {
  idle_open : closed s = false;
  idle_await : awaiting s = WNone;
  idle_state : state s = st;
  idle_buffer : buffer s = [];
  idle_over : pendingOverflow s = false;
  idle_cont : authContinuation s = None
}.

Definition withBuf (b : bytes) (s : Smtp) : Smtp := s <| buffer := b |>.

Lemma loop_pump_eq s a s' :
  pendingOverflow s = false -> Loop running (pumpBody cfg) s a s' -> pump cfg s = (s', a).
Proof.
  intros Ho HL. unfold pump. rewrite Ho. pose proof (whileFuel_pump cfg s) as HL'. cbn zeta in HL'.
  destruct (whileFuel _ _ _ s) as [s1 b]. cbn in HL'.
  destruct (While_det _ _ _ _ _ _ _ HL HL') as [-> ->]. done.
Qed.

(** A call that stays within the error limit. *)
Lemma feed_idle st c s a s' :
  Idle st s -> Loop running (pumpBody cfg) (withBuf c s) a s' -> closed s' = false ->
  errorCount s' + countErrors a <= MAX_SMTP_ERRORS_PER_SESSION ->
  feed cfg c s = (s' <| errorCount := errorCount s' + countErrors a |>, a).
Proof.
  intros [H1 H2 H3 H4 H5 H6] HL Hc He. unfold feed. rewrite H1.
  destruct (decide _) as [Hd|_]; [by destruct Hd|].
  change (s <| buffer ::= fun b => b ++ c |>) with (withBuf (buffer s ++ c) s). rewrite H4. cbn [app].
  rewrite (loop_pump_eq (withBuf c s) a s') by done. unfold guardErrors. rewrite Hc. cbn.
  by rewrite (proj2 (Z.leb_le _ _) He).
Qed.

(** *** DATA *)

(** What a body line does to the transaction. *)
Definition absorb (t : Tx) (l : bytes) : Tx :=
  if dataOverflow t then t
  else if maxSizeBytes cfg <? dataSize t + (len l + 2) then t <| dataOverflow := true |> <| dataChunks := [] |>
  else t <| dataChunks ::= fun cs => cs ++ [l; crlf] |> <| dataSize ::= Z.add (len l + 2) |>.

Definition withTx (t : Tx) (s : Smtp) : Smtp := s <| tx := t |>.

Lemma unstuff_smtp l :
  match stuffLine l with c :: r => if c =? DOT then r else stuffLine l | [] => stuffLine l end = l.
Proof.
  unfold stuffLine. destruct l as [|x l]; [done|]. cbn [startsWith].
  destruct (Z.eqb_spec DOT x) as [<-|Hx]; cbn [andb]; [done|].
  by rewrite (proj2 (Z.eqb_neq x DOT)) by congruence.
Qed.

Lemma handleDataLine_stuffed l s :
  handleDataLine cfg (stuffLine l) s = (withTx (absorb (tx s) l) s, []).
Proof.
  unfold handleDataLine. rewrite (proj2 (seqb_neq _ _) (stuffLine_not_dot l)), unstuff_smtp.
  unfold absorb, withTx. destruct (dataOverflow (tx s)); [by destruct s|]. by destruct (_ <? _).
Qed.

Lemma Loop_data ls rest s a s' :
  running s = true -> authContinuation s = None -> state s = StData -> Forall no_crlf ls ->
  Loop running (pumpBody cfg) (withBuf ([DOT] ++ crlf ++ rest) (withTx (fold_left absorb ls (tx s)) s)) a s' ->
  Loop running (pumpBody cfg) (withBuf (stuffedBody ls ++ rest) s) a s'.
Proof.
  intros Hr Hc Hs Hls. revert s Hr Hc Hs. induction Hls as [|l ls Hl Hls IH]; intros s Hr Hc Hs HL.
  - cbn in HL. by destruct s.
  - change a with ([] ++ a).
    apply (loop_next running (pumpBody cfg) _ (withBuf (stuffedBody ls ++ rest) (withTx (absorb (tx s) l) s)));
      [done| |by apply IH].
    unfold pumpBody. cbn. rewrite Hc, Hs. unfold pumpDataLine. cbn. rewrite stuffedBody_cons.
    rewrite indexOfCRLF_line by (by apply stuffLine_no_crlf).
    rewrite take_line. unfold continuing.
    match goal with |- context [(withBuf ?b s) <| buffer ::= drop ?n |>] =>
      change ((withBuf b s) <| buffer ::= drop n |>) with (withBuf (drop n b) s) end.
    by rewrite drop_line, handleDataLine_stuffed.
Qed.

(** A transaction with more of its message. *)
Definition addData (cs : list bytes) (n : Z) (t : Tx) : Tx :=
  {| mailFrom := mailFrom t; rcptTo := rcptTo t; rcptDsn := rcptDsn t; mailDsn := mailDsn t;
     bdatRemaining := bdatRemaining t; bdatLast := bdatLast t;
     pendingRcptAddress := pendingRcptAddress t; dataChunks := dataChunks t ++ cs;
     dataSize := dataSize t + n; dataOverflow := dataOverflow t |}.

Lemma addData_nil t : addData [] 0 t = t.
Proof. destruct t. unfold addData. cbn. by rewrite app_nil_r, Z.add_0_r. Qed.

Lemma addData_add cs n cs' n' t : addData cs' n' (addData cs n t) = addData (cs ++ cs') (n + n') t.
Proof. unfold addData. cbn. by rewrite <- app_assoc, <- Z.add_assoc. Qed.

Lemma bodyOf_cons_len l ls : len (bodyOf (l :: ls)) = len l + 2 + len (bodyOf ls).
Proof. unfold bodyOf. cbn [flat_map]. rewrite !len_app. change (len crlf) with 2. lia. Qed.

Lemma absorb_fits ls t :
  dataOverflow t = false -> 0 <= dataSize t -> dataSize t + len (bodyOf ls) <= maxSizeBytes cfg ->
  fold_left absorb ls t = addData (flat_map (fun l => [l; crlf]) ls) (len (bodyOf ls)) t.
Proof.
  revert t; induction ls as [|l ls IH]; intros t Ho Hs Hf; [by rewrite addData_nil|].
  rewrite bodyOf_cons_len in *. pose proof (len_nonneg (bodyOf ls)). pose proof (len_nonneg l). cbn [fold_left].
  assert (Ha : absorb t l = addData [l; crlf] (len l + 2) t).
  { unfold absorb. rewrite Ho, (proj2 (Z.ltb_ge _ _)) by lia. unfold addData. by rewrite (Z.add_comm (dataSize t)). }
  rewrite Ha, IH; [|done|cbn; lia|cbn; lia]. by rewrite addData_add.
Qed.

Lemma absorb_overflow ls t :
  dataOverflow t = true \/ maxSizeBytes cfg < dataSize t + len (bodyOf ls) /\ dataSize t <= maxSizeBytes cfg ->
  dataOverflow (fold_left absorb ls t) = true.
Proof.
  revert t; induction ls as [|l ls IH]; intros t H; cbn [fold_left].
  { destruct H as [?|[H1 H2]]; [done|]. change (len (bodyOf [])) with 0 in H1. lia. }
  apply IH. unfold absorb. destruct (dataOverflow t) eqn:Eo; [by left|].
  destruct H as [?|[H1 H2]]; [done|].
  destruct (Z.ltb_spec (maxSizeBytes cfg) (dataSize t + (len l + 2))); [by left|]. right. cbn.
  rewrite bodyOf_cons_len in *. lia.
Qed.

Lemma concat_lines ls : concat (flat_map (fun l => [l; crlf]) ls) = bodyOf ls.
Proof.
  induction ls as [|l ls IH]; [done|]. unfold bodyOf in *. cbn [flat_map app concat].
  rewrite IH. by rewrite app_assoc.
Qed.

(** The terminator, with nothing pipelined after it. *)
Lemma Loop_end_data s s1 a :
  running s = true -> authContinuation s = None -> state s = StData ->
  finishData (withBuf [] s) = (s1, a) ->
  (running s1 = false \/ authContinuation s1 = None /\ state s1 = StGreeted) ->
  Loop running (pumpBody cfg) (withBuf ([DOT] ++ crlf) s) a s1.
Proof.
  intros Hr Hc Hs Hf Hend. rewrite <- (app_nil_r a).
  eapply loop_next; [exact Hr| |].
  - unfold pumpBody. cbn. rewrite Hc, Hs. unfold pumpDataLine, continuing. cbn.
    change ((withBuf _ s) <| buffer ::= drop 3 |>) with (withBuf [] s).
    unfold handleDataLine. cbn [seqb]. cbn. rewrite Hf. done.
  - assert (Hb : buffer s1 = []).
    { pose proof (finishData_buffer (withBuf [] s)) as H. by rewrite Hf in H. }
    destruct Hend as [Hend|[Hc1 Hs1]]; [by apply loop_stop|].
    destruct (running s1) eqn:Er; [|by apply loop_stop].
    apply loop_break; [done|]. cbn [fst]. unfold pumpBody, pumpLine. by rewrite Hc1, Hs1, Hb.
Qed.

(** *** BDAT *)

(** The transaction once the bytes [d] have been read. *)
Definition readInto (d : bytes) (t : Tx) : Tx :=
  {| mailFrom := mailFrom t; rcptTo := rcptTo t; rcptDsn := rcptDsn t; mailDsn := mailDsn t;
     bdatRemaining := bdatRemaining t - len d; bdatLast := bdatLast t;
     pendingRcptAddress := pendingRcptAddress t;
     dataChunks := if dataOverflow t then dataChunks t else dataChunks t ++ [d];
     dataSize := if dataOverflow t then dataSize t else dataSize t + len d;
     dataOverflow := dataOverflow t |}.

Lemma bdatRead_eq d rest s :
  bdatRemaining (tx s) <= 2 ^ 53 -> len d <= bdatRemaining (tx s) ->
  (rest = [] \/ len d = bdatRemaining (tx s)) ->
  bdatRead (withBuf (d ++ rest) s) = withBuf rest (withTx (readInto d (tx s)) s).
Proof.
  intros Hm Hd Hrest. unfold bdatRead. cbn [buffer withBuf].
  change (buffer (withBuf (d ++ rest) s)) with (d ++ rest). change (tx (withBuf (d ++ rest) s)) with (tx s).
  set (n := if bdatRemaining (tx s) <=? len (d ++ rest) then _ else _).
  assert (Hn : n = length d).
  { subst n. rewrite len_app. pose proof (len_nonneg rest). unfold len in *.
    destruct (Z.leb_spec (bdatRemaining (tx s)) (Z.of_nat (length d) + Z.of_nat (length rest))).
    - destruct Hrest as [->|Heq]; [cbn in *|]; lia.
    - destruct Hrest as [->|Heq]; [by rewrite app_nil_r|lia]. }
  rewrite Hn, drop_app_length, take_app_length. change (Z.of_nat (length d)) with (len d).
  pose proof (len_nonneg d). rewrite dbl_small by lia. done.
Qed.
End Feeding.

(** ** Properties *)

Section Properties.
Context {SS : ScramServer} (cfg : SmtpConfig).

Lemma track_accepted G acts :
  g_accepted (trackAll G acts) = g_accepted G /\ g_auth (trackAll G acts) = g_auth G /\
  g_tls (trackAll G acts) = g_tls G.
Proof.
  revert G; induction acts as [|a acts IH]; intros G; [done|].
  change (trackAll G (a :: acts)) with (trackAll (track G a) acts).
  destruct (IH (track G a)) as (-> & -> & ->). by destruct a.
Qed.

Lemma actsOk_split G pre a post : actsOk cfg G (pre ++ a :: post) -> actionOk cfg (trackAll G pre) a.
Proof. intros [_ [H _]]%actsOk_app. done. Qed.

(** C1: A message is handed to the backend only for recipients the backend accepted on
    this connection, never for none, never above the advertised size, and under exactly
    the identity the backend last confirmed since TLS was started; on a submission port
    there is such an identity. *)
Theorem smtp_deliver_safe tr s e s' acts env :
  0 <= maxSizeBytes cfg < 2 ^ 53 -> Session cfg tr s -> step cfg e s = Some (s', acts) ->
  ADeliver env ∈ acts ->
  let G := trackEvent (ghostOf tr) e in
  e_rcptTo env <> [] /\ e_rcptTo env ⊆ g_accepted G /\ len (e_raw env) <= maxSizeBytes cfg /\
  e_authenticatedAs env = g_auth G /\ (profile cfg = Submission -> is_Some (e_authenticatedAs env)).
Proof.
  intros Hm HS Hstep Hin. apply (Session_good cfg tr s Hm) in HS.
  destruct (step_good cfg Hm _ _ _ _ HS Hstep) as [Hok _]. cbn in Hok.
  apply list_elem_of_split in Hin as (pre & post & ->). apply actsOk_split in Hok. cbn in Hok.
  destruct (track_accepted (trackEvent (ghostOf tr) e) pre) as (E1 & E2 & _).
  rewrite E1, E2 in Hok. exact Hok.
Qed.

(** C9: Credentials are never accepted in the clear: the engine asks the backend about a
    password, a token or SCRAM keys, or reports a verified SCRAM user, only when AUTH is
    offered and the connection is under TLS (or the configuration waives that). *)
Theorem smtp_auth_gated tr s e s' acts a :
  0 <= maxSizeBytes cfg < 2 ^ 53 -> Session cfg tr s -> step cfg e s = Some (s', acts) -> a ∈ acts ->
  match a with AAuth _ _ | AScramKeys _ | AAuthVerified _ => true | _ => false end = true ->
  authOffered cfg && (g_tls (trackEvent (ghostOf tr) e) || allowInsecureAuth cfg) = true.
Proof.
  intros Hm HS Hstep Hin Ha. apply (Session_good cfg tr s Hm) in HS.
  destruct (step_good cfg Hm _ _ _ _ HS Hstep) as [Hok _]. cbn in Hok.
  apply list_elem_of_split in Hin as (pre & post & ->). apply actsOk_split in Hok.
  destruct (track_accepted (trackEvent (ghostOf tr) e) pre) as (_ & _ & Ht).
  destruct a; try done; cbn in Hok; rewrite Ht in Hok; try done. by destruct Hok.
Qed.

(** A SCRAM success is for the account whose keys were used: whenever the engine
    reports a verified user, the last keys it asked the backend for on this connection
    were that user's. *)
Theorem smtp_scram_binding tr s e s' pre u post :
  0 <= maxSizeBytes cfg < 2 ^ 53 -> Session cfg tr s ->
  step cfg e s = Some (s', pre ++ AAuthVerified u :: post) ->
  g_lookup (trackAll (trackEvent (ghostOf tr) e) pre) = Some u.
Proof.
  intros Hm HS Hstep. apply (Session_good cfg tr s Hm) in HS.
  destruct (step_good cfg Hm _ _ _ _ HS Hstep) as [Hok _]. by apply actsOk_split in Hok as [_ H].
Qed.

(** C7: Invariant of every SMTP connection, whatever the client sends and however the
    backend answers: the recipient counter bounds the recipients and never passes the
    session limit, recipients exist only inside a transaction, DATA and BDAT only with
    recipients, the collected message has the counted size and fits the limit; and
    while the connection is open at most the allowed number of errors was answered, and
    an engine that is not waiting for the backend holds no complete line and at most
    one megabyte. *)
Theorem smtp_session_invariant tr s :
  0 <= maxSizeBytes cfg < 2 ^ 53 -> Session cfg tr s ->
  Inv cfg (ghostOf tr) s /\ (closed s = false -> Resting s).
Proof.
  intros Hm HS. split; [by apply Session_good|by apply (smtp_Session_resting cfg tr)].
Qed.

(** The command loop terminates and is the one of the source: outside the pipeline
    overflow, which closes the connection, [pump] returns exactly the result of the
    [while] loop's relation, which has no bound on the iterations. *)
Theorem smtp_pump_total s :
  pendingOverflow s = false ->
  Loop running (pumpBody cfg) s (snd (pump cfg s)) (fst (pump cfg s)) /\
  (forall a s', Loop running (pumpBody cfg) s a s' -> pump cfg s = (s', a)).
Proof.
  intros Ho. split; [|intros a s'; by apply loop_pump_eq].
  unfold pump. rewrite Ho. apply (whileFuel_pump cfg s).
Qed.

(** DATA transparency: a dot-stuffed message sent with its terminator is handed to
    the backend byte for byte, with the transaction's envelope, when it is within the
    size limit; otherwise it is refused with 552 and the transaction is reset. *)
Theorem smtp_data_roundtrip ls s :
  Idle StData s -> dataChunks (tx s) = [] -> dataSize (tx s) = 0 -> dataOverflow (tx s) = false ->
  0 <= maxSizeBytes cfg -> errorCount s < MAX_SMTP_ERRORS_PER_SESSION -> Forall no_crlf ls ->
  feed cfg (stuffedBody ls) s =
  if len (bodyOf ls) <=? maxSizeBytes cfg then
    (s <| awaiting := WDeliver |>,
     [ADeliver {| e_mailFrom := default [] (mailFrom (tx s)); e_heloName := heloName s;
                  e_rcptTo := rcptTo (tx s); e_raw := bodyOf ls;
                  e_authenticatedAs := authenticatedAs s; e_dsn := dsnOf (tx s) |}])
  else ((resetTransaction s) <| errorCount ::= fun n => n + 1 |>,
        [sreply 552 "5.3.4" "Message size exceeds fixed maximum message size"]).
Proof.
  intros HI Hdc Hds Hdo Hm He Hls. pose proof HI as [H1 H2 H3 H4 H5 H6].
  assert (Hr : running s = true) by (unfold running; by rewrite H2, H1).
  pose proof (fun a s' => Loop_data cfg ls [] s a s' Hr H6 H3 Hls) as HB. rewrite !app_nil_r in HB.
  set (t := fold_left (absorb cfg) ls (tx s)) in *.
  pose proof (Loop_end_data cfg (withTx t s)) as HE. unfold finishData in HE.
  change (tx (withBuf [] (withTx t s))) with t in HE.
  destruct (Z.leb_spec (len (bodyOf ls)) (maxSizeBytes cfg)) as [Hle|Hgt].
  - assert (Ht : t = addData (flat_map (fun l => [l; crlf]) ls) (len (bodyOf ls)) (tx s))
      by (apply absorb_fits; [done|lia|lia]).
    assert (Hto : dataOverflow t = false) by (by rewrite Ht). rewrite Hto in HE.
    erewrite (feed_idle cfg StData _ s); [|done|apply HB, HE; [done..|reflexivity|by left]|done|].
    + change (countErrors _) with 0. rewrite Z.add_0_r. f_equal.
      * rewrite Ht. unfold withBuf, withTx, addData. destruct s as [? ? ? ? ? ? tx0 ? ? ? ? ? ? ?].
        destruct tx0. cbn in *. by subst.
      * rewrite Ht. cbn [dataChunks addData]. rewrite Hdc. cbn [app]. by rewrite concat_lines.
    + cbn. change (countErrors _) with 0. lia.
  - assert (Hto : dataOverflow t = true) by (apply absorb_overflow; right; lia). rewrite Hto in HE.
    erewrite (feed_idle cfg StData _ s); [|done|apply HB, HE; [done..|reflexivity|]|done|].
    + change (countErrors _) with 1. f_equal. unfold resetTransaction, withBuf, withTx. destruct s.
      cbn in *. by subst.
    + right. unfold resetTransaction. cbn. by rewrite H3.
    + change (countErrors _) with 1. unfold resetTransaction. cbn. lia.
Qed.

(** BDAT exactness: a chunk is read by its length alone, whatever bytes it holds.
    A part of it changes nothing but the collected data; the last byte of a LAST chunk
    hands over exactly the bytes collected and leaves everything after it for the next
    command; an overflowing chunk is read to its end before it is refused, so the
    connection stays in step. *)
Theorem smtp_bdat_exact d rest s :
  Idle StBdat s -> 0 < len d <= bdatRemaining (tx s) -> bdatRemaining (tx s) <= 2 ^ 53 ->
  errorCount s < MAX_SMTP_ERRORS_PER_SESSION ->
  (len d < bdatRemaining (tx s) -> feed cfg d s = (withTx (readInto d (tx s)) s, [])) /\
  (len d = bdatRemaining (tx s) -> dataOverflow (tx s) = false -> bdatLast (tx s) = true ->
     exists s', feed cfg (d ++ rest) s =
       (s', [ADeliver {| e_mailFrom := default [] (mailFrom (tx s)); e_heloName := heloName s;
                         e_rcptTo := rcptTo (tx s); e_raw := concat (dataChunks (tx s)) ++ d;
                         e_authenticatedAs := authenticatedAs s; e_dsn := dsnOf (tx s) |}])
       /\ buffer s' = rest /\ awaiting s' = WDeliver) /\
  (len d = bdatRemaining (tx s) -> dataOverflow (tx s) = true ->
     feed cfg d s = ((resetTransaction s) <| errorCount ::= fun n => n + 1 |>,
                     [sreply 552 "5.3.4" "Message size exceeds limit"])).
Proof.
  intros HI Hd Hm He. pose proof HI as [H1 H2 H3 H4 H5 H6].
  assert (Hr : forall b t, running (withBuf b (withTx t s)) = true)
    by (intros b t; unfold running; cbn; by rewrite H2, H1).
  assert (Hstep : forall r, (r = [] \/ len d = bdatRemaining (tx s)) ->
    pumpBody cfg (withBuf (d ++ r) s) =
    if 0 <? bdatRemaining (tx s) - len d then (withBuf r (withTx (readInto d (tx s)) s), [], false)
    else bdatEnd (withBuf r (withTx (readInto d (tx s)) s))).
  { intros r Hrest. unfold pumpBody. cbn -[Z.ltb Z.eqb]. rewrite H6, H3. unfold pumpBdat.
    rewrite bdatRead_eq by (done || lia). cbn -[Z.ltb Z.eqb bdatEnd].
    rewrite (proj2 (Z.ltb_lt 0 (bdatRemaining (tx s)))) by lia.
    rewrite len_app, (proj2 (Z.eqb_neq (len d + len r) 0)) by (pose proof (len_nonneg r); lia). done. }
  split; [|split].
  - intros Hlt. specialize (Hstep [] (or_introl eq_refl)). rewrite app_nil_r in Hstep.
    rewrite (proj2 (Z.ltb_lt _ _)) in Hstep by lia.
    erewrite (feed_idle cfg StBdat d s); [|done|eapply loop_break; [exact (Hr d (tx s))|exact Hstep]|done|].
    + change (countErrors _) with 0. rewrite Z.add_0_r. unfold withBuf, withTx. destruct s.
      cbn in *. by subst.
    + change (countErrors _) with 0. cbn. lia.
  - intros Heq Ho Hl. specialize (Hstep rest (or_intror Heq)).
    rewrite (proj2 (Z.ltb_ge _ _)) in Hstep by lia.
    unfold bdatEnd, continuing, finishData in Hstep. cbn in Hstep. rewrite Ho, Hl in Hstep. cbn in Hstep.
    rewrite concat_app in Hstep. cbn [concat] in Hstep. rewrite app_nil_r in Hstep.
    eexists. split; [|split].
    + erewrite (feed_idle cfg StBdat _ s);
        [|done|eapply loop_next; [exact (Hr (d ++ rest) (tx s))|exact Hstep|by apply loop_stop]|done|].
      * rewrite app_nil_r. reflexivity.
      * change (countErrors _) with 0. cbn. lia.
    + done.
    + done.
  - intros Heq Ho. specialize (Hstep [] (or_introl eq_refl)). rewrite app_nil_r in Hstep.
    rewrite (proj2 (Z.ltb_ge _ _)) in Hstep by lia.
    unfold bdatEnd in Hstep. cbn in Hstep. rewrite Ho in Hstep.
    match type of Hstep with _ = (?x, ?b, true) =>
      assert (HL : Loop running (pumpBody cfg) (withBuf d s) (b ++ []) x) end.
    { eapply loop_next; [exact (Hr d (tx s))|exact Hstep|].
      apply loop_break; [exact (Hr [] (tx s))|]. unfold pumpBody, resetTransaction. cbn.
      by rewrite H6. }
    rewrite (feed_idle cfg StBdat d s _ _ HI HL); [|done|].
    + change (countErrors _) with 1. rewrite app_nil_r. f_equal.
      unfold resetTransaction, withBuf, withTx. destruct s. cbn in *. by subst.
    + change (countErrors _) with 1. unfold resetTransaction. cbn. lia.
Qed.

(** Losing step on an oversized message: when the size limit is passed in the middle
    of a line, the engine drops the part of the line it has, and takes the rest of that
    same line for a new one.  A line that ends in a dot then counts as the end of the
    message: the message is refused, and whatever follows in the body is read as
    commands. *)
Theorem smtp_data_long_line_desync p s :
  Idle StData s -> no_crlf p -> last p <> Some CR ->
  MAX_DATA_LINE < len p \/ maxSizeBytes cfg < dataSize (tx s) + len p ->
  errorCount s < MAX_SMTP_ERRORS_PER_SESSION ->
  snd (feed cfg p s) = [] /\
  snd (feed cfg ([DOT] ++ crlf) (fst (feed cfg p s)))
    = [sreply 552 "5.3.4" "Message size exceeds fixed maximum message size"] /\
  state (fst (feed cfg ([DOT] ++ crlf) (fst (feed cfg p s)))) = StGreeted.
Proof.
  intros HI Hp Hl Hbig He. pose proof HI as [H1 H2 H3 H4 H5 H6].
  set (t := (tx s) <| dataOverflow := true |> <| dataChunks := [] |> <| dataSize := 0 |>).
  assert (Hr : forall b t, running (withBuf b (withTx t s)) = true)
    by (intros b x; unfold running; cbn; by rewrite H2, H1).
  assert (HL : Loop running (pumpBody cfg) (withBuf p s) [] (withBuf [] (withTx t s))).
  { apply loop_break; [exact (Hr p (tx s))|]. unfold pumpBody. cbn. rewrite H6, H3.
    unfold pumpDataLine. cbn. rewrite Hp. unfold guardDataBuffer. cbn -[Z.ltb Z.eqb].
    destruct (Z.ltb_spec MAX_DATA_LINE (len p)), (Z.ltb_spec (maxSizeBytes cfg) (dataSize (tx s) + len p));
      cbn [negb andb]; try lia;
      (destruct (last p) as [c|]; [destruct (Z.eqb_spec c CR); [congruence|]|]); done. }
  rewrite (feed_idle cfg StData p s _ _ HI HL); [|done|change (countErrors []) with 0; cbn; lia].
  split; [done|]. cbn [fst]. change (countErrors []) with 0. rewrite Z.add_0_r.
  set (s1 := withBuf [] (withTx t s)).
  assert (HI1 : Idle StData s1) by (by constructor).
  change (s1 <| errorCount := _ |>) with s1.
  pose proof (Loop_end_data cfg s1 (resetTransaction (withBuf [] s1))
    [sreply 552 "5.3.4" "Message size exceeds fixed maximum message size"] (Hr [] t) H6 H3 eq_refl) as HE.
  rewrite (feed_idle cfg StData _ s1 _ _ HI1 (HE ltac:(right; unfold resetTransaction; cbn; by rewrite H3)));
    [|done|change (countErrors _) with 1; unfold resetTransaction; cbn; lia].
  split; [done|]. unfold resetTransaction. cbn. by rewrite H3.
Qed.
End Properties.

(** ** A scripted connection, on which the hypotheses above hold *)

#[local] Existing Instance toyCrypto.

Fixpoint run (cfg : SmtpConfig) (evs : list Event) (tr : list (Event * list SmtpAction)) (s : Smtp)
    : option (list (Event * list SmtpAction) * Smtp) :=
  match evs with
  | [] => Some (tr, s)
  | e :: evs =>
      match step cfg e s with
      | Some (s', acts) => run cfg evs (tr ++ [(e, acts)]) s'
      | None => None
      end
  end.

Lemma smtp_run_session cfg evs tr s tr' s' :
  Session cfg tr s -> run cfg evs tr s = Some (tr', s') -> Session cfg tr' s'.
Proof.
  revert tr s; induction evs as [|e evs IH]; intros tr s HS; cbn; [by intros [= <- <-]|].
  destruct (step cfg e s) as [[s1 acts]|] eqn:E; [|done].
  intros H. eapply IH; [|exact H]. by eapply session_step.
Qed.

Definition cfg0 : SmtpConfig :=
  {| hostname := js "mx"; maxSizeBytes := 100; tlsAvailable := true; profile := Submission;
     authOffered := true; allowInsecureAuth := false; scramDecoySecret := [9]; scramOffered := true;
     nonces := fun n => [Z.of_nat n] |}.

Definition cmd (s : string) : bytes := js s ++ crlf.

Definition b64line (s : jsstr) : bytes := base64Encode (utf8Encode s) ++ crlf.

(** TLS, then PLAIN. *)
Definition scriptTls : list Event := [EvFeed (cmd "EHLO c" ++ cmd "STARTTLS"); EvTls; EvFeed (cmd "EHLO c")].

Definition scriptLogin : list Event :=
  scriptTls ++ [EvFeed (js "AUTH PLAIN " ++ b64line ([0] ++ js "kim" ++ [0] ++ js "pw")); EvAuth true].

(** A recipient accepted, and the start of the next command already pipelined. *)
Definition scriptRcpt (next : string) : list Event :=
  scriptLogin ++ [EvFeed (cmd "MAIL FROM:<a@x> SIZE=5" ++ cmd "RCPT TO:<b@y>" ++ js next); EvRcpt RcptOk].

Definition scriptData : list Event := scriptRcpt "DA" ++ [EvFeed (cmd "TA")].
Definition scriptBdat : list Event := scriptRcpt "BD" ++ [EvFeed (cmd "AT 3 LAST")].

(** TLS, then SCRAM up to the empty response that closes the exchange. *)
Definition scriptScram : list Event :=
  scriptTls ++
  [EvFeed (js "AUTH SCRAM-SHA-256 " ++ b64line (clientFirstMessage (js "a,b") (js "xyz")));
   EvKeys (Some toyKeys);
   EvFeed (b64line (@clientFinalMessage toyCrypto Saslprep.latinUnicode (js "pw") [1; 2] 4096 (js "a,b") (js "xyz")
     (js "xyz" ++ serverNonce [0]) (buildServerFirst (js "xyz") (serverNonce [0]) [1; 2] 4096)))].

Definition ran (evs : list Event) : list (Event * list SmtpAction) * Smtp :=
  default ([], initial) (run cfg0 evs [] initial).

Lemma ran_session evs :
  bool_decide (is_Some (run cfg0 evs [] initial)) = true -> Session cfg0 (ran evs).1 (ran evs).2.
Proof.
  intros H%bool_decide_eq_true. unfold ran. destruct (run cfg0 evs [] initial) as [[tr s]|] eqn:E.
  - apply (smtp_run_session cfg0 evs [] initial); [constructor|done].
  - by destruct H.
Qed.

Lemma feed_step s c acts :
  snd (feed cfg0 c s) = acts -> step cfg0 (EvFeed c) s = Some (fst (feed cfg0 c s), acts).
Proof. intros <-. cbn. by destruct (feed cfg0 c s). Qed.

Definition env0 : Envelope :=
  {| e_mailFrom := js "a@x"; e_heloName := js "c"; e_rcptTo := [js "b@y"]; e_raw := cmd "hi";
     e_authenticatedAs := Some (js "kim"); e_dsn := None |}.

Lemma smtp_deliver_safe_witness :
  e_rcptTo env0 <> [] /\ e_rcptTo env0 ⊆ [js "b@y"] /\ len (e_raw env0) <= 100 /\
  e_authenticatedAs env0 = Some (js "kim") /\ (Submission = Submission -> is_Some (e_authenticatedAs env0)).
Proof.
  apply (smtp_deliver_safe cfg0 (ran scriptData).1 (ran scriptData).2 (EvFeed (cmd "hi" ++ cmd "."))
    (fst (feed cfg0 (cmd "hi" ++ cmd ".") (ran scriptData).2)) [ADeliver env0] env0).
  - cbn. lia.
  - apply ran_session. vm_compute. reflexivity.
  - apply feed_step. vm_compute. reflexivity.
  - by left.
Defined.

Definition scramDone : list (Event * list SmtpAction) * Smtp := ran scriptScram.

Lemma smtp_auth_gated_witness :
  authOffered cfg0 && (g_tls (trackEvent (ghostOf scramDone.1) (EvFeed crlf)) || allowInsecureAuth cfg0) = true.
Proof.
  apply (smtp_auth_gated cfg0 scramDone.1 scramDone.2 (EvFeed crlf) (fst (feed cfg0 crlf scramDone.2))
    [AAuthVerified (js "a,b")] (AAuthVerified (js "a,b"))).
  - cbn. lia.
  - apply ran_session. vm_compute. reflexivity.
  - apply feed_step. vm_compute. reflexivity.
  - by left.
  - reflexivity.
Defined.

Lemma smtp_scram_binding_witness :
  g_lookup (trackAll (trackEvent (ghostOf scramDone.1) (EvFeed crlf)) []) = Some (js "a,b").
Proof.
  apply (smtp_scram_binding cfg0 scramDone.1 scramDone.2 (EvFeed crlf) (fst (feed cfg0 crlf scramDone.2))
    [] (js "a,b") []).
  - cbn. lia.
  - apply ran_session. vm_compute. reflexivity.
  - apply feed_step. vm_compute. reflexivity.
Defined.

Lemma smtp_session_invariant_witness :
  Inv cfg0 (ghostOf scramDone.1) scramDone.2 /\ (closed scramDone.2 = false -> Resting scramDone.2).
Proof.
  apply (smtp_session_invariant cfg0 scramDone.1 scramDone.2).
  - cbn. lia.
  - apply ran_session. vm_compute. reflexivity.
Defined.

Lemma smtp_pump_total_witness :
  Loop running (pumpBody cfg0) (ran scriptData).2 (snd (pump cfg0 (ran scriptData).2))
    (fst (pump cfg0 (ran scriptData).2)) /\
  (forall a s', Loop running (pumpBody cfg0) (ran scriptData).2 a s' -> pump cfg0 (ran scriptData).2 = (s', a)).
Proof. apply (smtp_pump_total cfg0 (ran scriptData).2). vm_compute. reflexivity. Defined.

(** [Idle], as a computation. *)
Definition idleb (st : ConnState) (s : Smtp) : bool :=
  negb (closed s) && bool_decide (awaiting s = WNone) && bool_decide (state s = st)
  && (match buffer s with [] => true | _ => false end) && negb (pendingOverflow s)
  && (match authContinuation s with None => true | Some _ => false end).

Lemma idleb_idle st s : idleb st s = true -> Idle st s.
Proof.
  unfold idleb. intros H. bool_hyps. constructor; try done; try (by eapply bool_decide_eq_true).
  - by destruct (buffer s).
  - by destruct (authContinuation s).
Qed.

Lemma scriptData_idle : Idle StData (ran scriptData).2.
Proof. apply idleb_idle. vm_compute. reflexivity. Qed.

Lemma scriptBdat_idle : Idle StBdat (ran scriptBdat).2.
Proof. apply idleb_idle. vm_compute. reflexivity. Qed.

Lemma smtp_data_roundtrip_witness :
  snd (feed cfg0 (stuffedBody [js ".hi"]) (ran scriptData).2)
  = [ADeliver (env0 <| e_raw := cmd ".hi" |>)].
Proof.
  rewrite (smtp_data_roundtrip cfg0 [js ".hi"] (ran scriptData).2).
  - vm_compute. reflexivity.
  - apply scriptData_idle.
  - vm_compute. reflexivity.
  - vm_compute. reflexivity.
  - vm_compute. reflexivity.
  - cbn. lia.
  - vm_compute. reflexivity.
  - by repeat constructor.
Defined.

Lemma smtp_bdat_exact_witness :
  exists s', feed cfg0 ([13; 10; 46] ++ js "QU") (ran scriptBdat).2
    = (s', [ADeliver (env0 <| e_raw := [13; 10; 46] |>)]) /\ buffer s' = js "QU" /\ awaiting s' = WDeliver.
Proof.
  refine (proj1 (proj2 (smtp_bdat_exact cfg0 [13; 10; 46] (js "QU") (ran scriptBdat).2 _ _ _ _)) _ _ _).
  - apply scriptBdat_idle.
  - vm_compute. split; congruence.
  - vm_compute. congruence.
  - vm_compute. reflexivity.
  - vm_compute. reflexivity.
  - vm_compute. reflexivity.
  - vm_compute. reflexivity.
Defined.

Lemma smtp_data_long_line_desync_witness :
  snd (feed cfg0 (replicate 101 65) (ran scriptData).2) = [] /\
  snd (feed cfg0 ([DOT] ++ crlf) (fst (feed cfg0 (replicate 101 65) (ran scriptData).2)))
    = [sreply 552 "5.3.4" "Message size exceeds fixed maximum message size"] /\
  state (fst (feed cfg0 ([DOT] ++ crlf) (fst (feed cfg0 (replicate 101 65) (ran scriptData).2)))) = StGreeted.
Proof.
  apply (smtp_data_long_line_desync cfg0 (replicate 101 65) (ran scriptData).2).
  - apply scriptData_idle.
  - vm_compute. reflexivity.
  - vm_compute. congruence.
  - right. vm_compute. reflexivity.
  - vm_compute. reflexivity.
Defined.
