(* ===== verification/Pop3.v ===== *)
(** * The POP3 engine (packages/proto-pop3/src/engine.ts)

    The state machine of RFC 1939 with SASL, STLS and SCRAM.  Backend calls are actions;
    their results come back through the [...Result] functions ([None] where the source
    throws).  [R] is the type of the backend's opaque message references.  The fields of
    the class are split in two records: [Conn], what the command handlers work on, and
    [Pop3], which adds the decoder and the input buffer only [feed] and [drain] touch. *)

From S2P Require Import Prelude JsString JsNumber Loop Limits Text Sasl Scram.

(** ** Data *)

(** [Pop3EngineOptions] after the constructor's defaults; [nonces] is the randomness the
    SCRAM sessions of the connection draw, in order. *)
Record Pop3Config := mkPop3Config {
  hostname : jsstr;
  initiallySecure : bool;
  tlsAvailable : bool;
  scramOffered : bool;
  scramDecoySecret : bytes;
  allowInsecureAuth : bool;
  nonces : nat -> bytes
}.

Inductive Pop3State := AUTHORIZATION | TRANSACTION.
Inductive SaslMech := PLAIN | XOAUTH2 | OAUTHBEARER.
Inductive ScramStage := StClientFirst | StClientFinal | StServerFinal.
Inductive RetrieveMode := ModeRetr | ModeTop (lines : JsNum).
Inductive Pending :=
| PAuth | PScramKeys | POpenMaildrop | PRetrieve (msgnum : Z) (mode : RetrieveMode) | PCommit.

#[global] Instance Pop3State_eq_dec : EqDecision Pop3State.
Proof. solve_decision. Defined.
#[global] Instance SaslMech_eq_dec : EqDecision SaslMech.
Proof. solve_decision. Defined.

Definition saslName (m : SaslMech) : jsstr :=
  match m with PLAIN => js "PLAIN" | XOAUTH2 => js "XOAUTH2" | OAUTHBEARER => js "OAUTHBEARER" end.

(** ** Byte-level helpers of RETR and TOP *)

(** [end -= 1] when the line ends in CR. *)
Definition stripCr (line : bytes) : bytes :=
  if endsWith1 CR line then removelast line else line.

(** [acc] is the line read so far, [bytes.subarray(start, i)]. *)
Fixpoint splitLinesFrom (acc : bytes) (bs : bytes) : list bytes :=
  match bs with
  | [] => match acc with [] => [] | _ => [acc] end
  | b :: bs' =>
      if b =? LF then stripCr acc :: splitLinesFrom [] bs' else splitLinesFrom (acc ++ [b]) bs'
  end.

Definition splitLines (bs : bytes) : list bytes := splitLinesFrom [] bs.

Definition TERMINATOR : bytes := DOT :: crlf.

Definition buildMultilineBinary (statusLine : jsstr) (bodyLines : list bytes) : bytes :=
  utf8Encode (statusLine ++ crlf) ++ flat_map (fun l => stuffLine l ++ crlf) bodyLines ++ TERMINATOR.

Definition buildTextMultiline (statusLine : jsstr) (lines : list jsstr) : jsstr :=
  joinWith crlf (statusLine :: map (fun l => if startsWith [DOT] l then DOT :: l else l) lines ++ [[DOT]]).

(** [l.slice(0, count)] for a count that may be above every array length. *)
Definition sliceTo {A} (count : JsNum) (l : list A) : list A :=
  match count with NumInt n => if len l <=? n then l else take (Z.to_nat n) l | _ => l end.

(** [lines.findIndex((l) => l.length === 0)] *)
Fixpoint findBlank (lines : list bytes) : option nat :=
  match lines with
  | [] => None
  | [] :: _ => Some O
  | _ :: ls => S <$> findBlank ls
  end.

(** The lines TOP sends: the header, the blank line, and [count] lines of the body. *)
Definition topLines (allLines : list bytes) (count : JsNum) : list bytes :=
  let blankIdx := default (length allLines) (findBlank allLines) in
  take blankIdx allLines
  ++ (if (blankIdx <? length allLines)%nat then [] :: sliceTo count (drop (S blankIdx) allLines) else []).

Definition buildTopBytes (fullBytes : bytes) (bodyLineCount : JsNum) : bytes :=
  buildMultilineBinary (js "+OK top of message follows") (topLines (splitLines fullBytes) bodyLineCount).

Section Engine.
Context {SS : ScramServer} {R : Type} (cfg : Pop3Config).

Record Pop3EngineMessage := mkMessage { uidl : jsstr; sizeBytes : Z; ref : R }.
Record SessionMessage := mkSessionMessage { msg : Pop3EngineMessage; msgnum : Z; deleted : bool }.

Inductive Pop3Action :=
| AReply (text : jsstr)
| AReplyBinary (bs : bytes)
| AClose
| AStartTls
| AAuth (user pass : jsstr)
| AScramKeys (user : jsstr)
| AAuthVerified (user : jsstr)
| AAuthFailed (user : option jsstr)
| AOpenMaildrop
| ARetrieve (num : Z)
| ACommitDeletions (ms : list Pop3EngineMessage).

Inductive AwaitingSasl :=
| SaslLine (mechanism : SaslMech)
| SaslScram (session : ScramSession) (stage : ScramStage) (username : option jsstr).

Record Conn := mkConn {
  state : Pop3State;
  secure : bool;
  awaitingTls : bool;
  pending : option Pending;
  closed : bool;
  username : option jsstr;
  messages : list SessionMessage;
  awaitingSasl : option AwaitingSasl;
  nonceIdx : nat
}.

Record Pop3 := mkPop3 { decoder : TextDecoder; buffer : jsstr; conn : Conn }.

Definition initialConn : Conn :=
  {| state := AUTHORIZATION; secure := initiallySecure cfg; awaitingTls := false; pending := None;
     closed := false; username := None; messages := []; awaitingSasl := None; nonceIdx := 0 |}.

Definition initial : Pop3 := {| decoder := newTextDecoder; buffer := []; conn := initialConn |}.

(** ** Replies *)

Definition reply (t : string) : Pop3Action := AReply (js t).

Definition badSequence : Pop3Action := reply "-ERR bad sequence of commands".
Definition authFailedReply : Pop3Action := reply "-ERR [AUTH] authentication failed".
Definition unsupportedMech : Pop3Action := reply "-ERR [AUTH] unsupported SASL mechanism".

Definition authAllowed (s : Conn) : bool := secure s || allowInsecureAuth cfg.

Definition insecureAuthRejected : list Pop3Action :=
  [reply "-ERR [AUTH] TLS required for authentication (use implicit TLS, port 995)"].

Definition greeting : list Pop3Action := [AReply (js "+OK " ++ hostname cfg ++ js " POP3 server ready")].

Definition signingOff : list Pop3Action :=
  [AReply (js "+OK " ++ hostname cfg ++ js " POP3 server signing off"); AClose].

Definition scramFailedAction (step : ScramStep) : Pop3Action :=
  AAuthFailed (match step with NeedFailed (Some ((_ :: _) as u)) => Some u | _ => None end).

(** [messages.reduce((s, m) => s + m.sizeBytes, 0)] *)
Definition totalSize (ms : list SessionMessage) : Z :=
  fold_left (fun t m => dbl (t + sizeBytes (msg m))) ms 0.

Definition maildropReply (ms : list SessionMessage) : Pop3Action :=
  AReply (js "+OK maildrop has " ++ numToString (len ms) ++ js " messages ("
          ++ numToString (totalSize ms) ++ js " octets)").

(** ** SASL *)

(** The SCRAM half of [handleSaslData]. *)
Definition handleScramData (session : ScramSession) (stage : ScramStage) (user : option jsstr)
    (data : jsstr) (s : Conn) : Conn * list Pop3Action :=
  match stage with
  | StServerFinal =>
      (s <| awaitingSasl := None |> <| username := Some (default [] user) |> <| pending := Some PAuth |>,
       [AAuthVerified (default [] user)])
  | _ =>
      match decodeSaslBase64 data with
      | None => (s <| awaitingSasl := None |>, [reply "-ERR [AUTH] invalid base64"])
      | Some bs =>
          let text := utf8Decode bs in
          match stage with
          | StClientFirst =>
              let '(session', step) := scramStart (nonces cfg (nonceIdx s)) text session in
              let s := s <| nonceIdx ::= S |> in
              match step with
              | NeedLookup u =>
                  (s <| awaitingSasl := Some (SaslScram session' StClientFinal user) |>
                     <| pending := Some PScramKeys |>, [AScramKeys u])
              | _ => (s <| awaitingSasl := None |>, [scramFailedAction step; authFailedReply])
              end
          | _ =>
              let '(session', fin) := scramFinal text session in
              match fin with
              | NeedDone u message =>
                  (s <| awaitingSasl := Some (SaslScram session' StServerFinal (Some u)) |>,
                   [AReply (js "+ " ++ base64Encode (utf8Encode message))])
              | _ => (s <| awaitingSasl := None |>, [scramFailedAction fin; authFailedReply])
              end
          end
      end
  end.

(** The other mechanisms: one line of base64. *)
Definition handleSaslLine (mechanism : SaslMech) (data : jsstr) (s : Conn) : Conn * list Pop3Action :=
  let s := s <| awaitingSasl := None |> in
  match decodeSaslBase64 data with
  | None => (s, [reply "-ERR [AUTH] invalid base64"])
  | Some bs =>
      match mechanism with
      | PLAIN =>
          match parseSaslPlain bs with
          | None => (s, [reply "-ERR [AUTH] malformed PLAIN response"])
          | Some creds =>
              (s <| username := Some (pl_user creds) |> <| pending := Some PAuth |>,
               [AAuth (pl_user creds) (pl_pass creds)])
          end
      | _ =>
          match parseSaslOAuth (saslName mechanism) (utf8Decode bs) with
          | None => (s, [AReply (js "-ERR [AUTH] malformed " ++ saslName mechanism ++ js " response")])
          | Some creds =>
              (s <| username := Some (oa_user creds) |> <| pending := Some PAuth |>,
               [AAuth (oa_user creds) (oa_token creds)])
          end
      end
  end.

Definition handleSaslData (sasl : AwaitingSasl) (data : jsstr) (s : Conn) : Conn * list Pop3Action :=
  if data === js "*" then
    (s <| awaitingSasl := None |>, [reply "-ERR [AUTH] authentication cancelled"])
  else match sasl with
       | SaslScram session stage user => handleScramData session stage user data s
       | SaslLine mechanism => handleSaslLine mechanism data s
       end.

(** [this.awaitingSasl = sasl], then the initial response if there is one. *)
Definition beginSasl (sasl : AwaitingSasl) (ir : jsstr) (s : Conn) : Conn * list Pop3Action :=
  let s := s <| awaitingSasl := Some sasl |> in
  if 0 <? len ir then handleSaslData sasl ir s else (s, [reply "+ "]).

(** The verb before the first space, upper case, and the trimmed rest. *)
Definition splitVerb (trimmed : jsstr) : jsstr * jsstr :=
  match indexOf SP trimmed with
  | None => (toUpperCase trimmed, [])
  | Some i => (toUpperCase (take i trimmed), trim (drop (S i) trimmed))
  end.

Definition cmdAuth (rest : jsstr) (s : Conn) : Conn * list Pop3Action :=
  if decide (state s <> AUTHORIZATION) then (s, [badSequence])
  else if negb (authAllowed s) then (s, insecureAuthRejected)
  else if len rest =? 0 then
    (s, [AReply (buildTextMultiline (js "+OK")
           ((if scramOffered cfg then [js "SCRAM-SHA-256"] else [])
            ++ [js "PLAIN"; js "XOAUTH2"; js "OAUTHBEARER"]))])
  else
    let '(mech, ir) := splitVerb rest in
    if mech === js "SCRAM-SHA-256" then
      if negb (scramOffered cfg) then (s, [unsupportedMech])
      else beginSasl (SaslScram (scramNew (scramDecoySecret cfg)) StClientFirst None) ir s
    else if mech === js "PLAIN" then beginSasl (SaslLine PLAIN) ir s
    else if mech === js "XOAUTH2" then beginSasl (SaslLine XOAUTH2) ir s
    else if mech === js "OAUTHBEARER" then beginSasl (SaslLine OAUTHBEARER) ir s
    else (s, [unsupportedMech]).

(** ** Commands *)

Definition starttlsOffered (s : Conn) : bool := tlsAvailable cfg && negb (secure s).

Definition cmdStls (s : Conn) : Conn * list Pop3Action :=
  if secure s then (s, [reply "-ERR TLS already active"])
  else if negb (starttlsOffered s) then (s, [reply "-ERR STLS not available"])
  else if decide (state s <> AUTHORIZATION) then (s, [badSequence])
  else (s <| awaitingTls := true |>, [reply "+OK Begin TLS negotiation"; AStartTls]).

Definition cmdCapa (s : Conn) : Conn * list Pop3Action :=
  let caps :=
    (if starttlsOffered s then [js "STLS"] else [])
    ++ (if authAllowed s then [js "USER"] else [])
    ++ [js "TOP"; js "UIDL"; js "RESP-CODES"; js "AUTH-RESP-CODE"; js "PIPELINING"]
    ++ (if authAllowed s then
          [if scramOffered cfg then js "SASL SCRAM-SHA-256 PLAIN XOAUTH2 OAUTHBEARER"
           else js "SASL PLAIN XOAUTH2 OAUTHBEARER"]
        else [])
    ++ [js "IMPLEMENTATION ionosphere"] in
  (s, [AReply (buildTextMultiline (js "+OK Capability list follows") caps)]).

Definition cmdUser (name : jsstr) (s : Conn) : Conn * list Pop3Action :=
  if decide (state s <> AUTHORIZATION) then (s, [badSequence])
  else if negb (authAllowed s) then (s, insecureAuthRejected)
  else if len name =? 0 then (s, [reply "-ERR missing username"])
  else (s <| username := Some name |>, [reply "+OK"]).

Definition cmdPass (pass : jsstr) (s : Conn) : Conn * list Pop3Action :=
  if decide (state s <> AUTHORIZATION) then (s, [badSequence])
  else if negb (authAllowed s) then (s, insecureAuthRejected)
  else match username s with
  | None | Some [] => (s, [badSequence])
  | Some user =>
      if len pass =? 0 then (s, [reply "-ERR missing password"])
      else (s <| pending := Some PAuth |>, [AAuth user pass])
  end.

Definition active (s : Conn) : list SessionMessage := filter (fun m => deleted m = false) (messages s).

Definition cmdStat (s : Conn) : Conn * list Pop3Action :=
  (s, [AReply (js "+OK " ++ numToString (len (active s)) ++ [SP] ++ numToString (totalSize (active s)))]).

Definition parseNonNegativeInt (t : jsstr) : option JsNum :=
  if isDigits t then Some (jsNumber t) else None.

(** [this.messages.find((m) => m.msgnum === n)] *)
Definition findMessage (n : JsNum) (ms : list SessionMessage) : option SessionMessage :=
  match n with NumInt k => List.find (fun m => msgnum m =? k) ms | _ => None end.

Definition getActiveMessage (arg : jsstr) (s : Conn) : SessionMessage + jsstr :=
  match parseNonNegativeInt arg with
  | None => inr (js "-ERR invalid message number")
  | Some n =>
      match findMessage n (messages s) with
      | None => inr (js "-ERR no such message")
      | Some m => if deleted m then inr (js "-ERR message deleted") else inl m
      end
  end.

Definition cmdList (arg : jsstr) (s : Conn) : Conn * list Pop3Action :=
  if 0 <? len arg then
    match getActiveMessage arg s with
    | inr t => (s, [AReply t])
    | inl m => (s, [AReply (js "+OK " ++ numToString (msgnum m) ++ [SP] ++ numToString (sizeBytes (msg m)))])
    end
  else
    (s, [AReply (buildTextMultiline
           (js "+OK " ++ numToString (len (active s)) ++ js " messages ("
            ++ numToString (totalSize (active s)) ++ js " octets)")
           (map (fun m => numToString (msgnum m) ++ [SP] ++ numToString (sizeBytes (msg m))) (active s)))]).

Definition cmdUidl (arg : jsstr) (s : Conn) : Conn * list Pop3Action :=
  if 0 <? len arg then
    match getActiveMessage arg s with
    | inr t => (s, [AReply t])
    | inl m => (s, [AReply (js "+OK " ++ numToString (msgnum m) ++ [SP] ++ uidl (msg m))])
    end
  else
    (s, [AReply (buildTextMultiline (js "+OK")
           (map (fun m => numToString (msgnum m) ++ [SP] ++ uidl (msg m)) (active s)))]).

Definition cmdRetr (arg : jsstr) (s : Conn) : Conn * list Pop3Action :=
  match getActiveMessage arg s with
  | inr t => (s, [AReply t])
  | inl m => (s <| pending := Some (PRetrieve (msgnum m) ModeRetr) |>, [ARetrieve (msgnum m)])
  end.

(** [r.msg.deleted = true] on the first message with the number. *)
Fixpoint markDeleted (k : Z) (ms : list SessionMessage) : list SessionMessage :=
  match ms with
  | [] => []
  | m :: ms' => if msgnum m =? k then m <| deleted := true |> :: ms' else m :: markDeleted k ms'
  end.

Definition cmdDele (arg : jsstr) (s : Conn) : Conn * list Pop3Action :=
  match getActiveMessage arg s with
  | inr t => (s, [AReply t])
  | inl m => (s <| messages ::= markDeleted (msgnum m) |>,
              [AReply (js "+OK message " ++ numToString (msgnum m) ++ js " deleted")])
  end.

Definition cmdRset (s : Conn) : Conn * list Pop3Action :=
  let s := s <| messages ::= map (fun m => m <| deleted := false |>) |> in
  (s, [maildropReply (messages s)]).

Definition cmdTop (rest : jsstr) (s : Conn) : Conn * list Pop3Action :=
  match filter (fun p => p <> []) (splitWs rest) with
  | [msgArg; linesArg] =>
      match getActiveMessage msgArg s with
      | inr t => (s, [AReply t])
      | inl m =>
          match parseNonNegativeInt linesArg with
          | None => (s, [reply "-ERR invalid arguments"])
          | Some lineCount =>
              (s <| pending := Some (PRetrieve (msgnum m) (ModeTop lineCount)) |>, [ARetrieve (msgnum m)])
          end
      end
  | _ => (s, [reply "-ERR invalid arguments"])
  end.

Definition cmdQuit (s : Conn) : Conn * list Pop3Action :=
  if decide (state s = AUTHORIZATION) then (s <| closed := true |>, signingOff)
  else (s <| pending := Some PCommit |>,
        [ACommitDeletions (map msg (filter (fun m => deleted m = true) (messages s)))]).

Definition requireTransaction (fn : Conn -> Conn * list Pop3Action) (s : Conn) : Conn * list Pop3Action :=
  if decide (state s <> TRANSACTION) then (s, [badSequence]) else fn s.

Definition handleVerb (verb rest : jsstr) (s : Conn) : Conn * list Pop3Action :=
  if verb === js "CAPA" then cmdCapa s
  else if verb === js "QUIT" then cmdQuit s
  else if verb === js "USER" then cmdUser rest s
  else if verb === js "PASS" then cmdPass rest s
  else if verb === js "STLS" then cmdStls s
  else if verb === js "AUTH" then cmdAuth rest s
  else if verb === js "APOP" then (s, [reply "-ERR APOP not supported"])
  else if verb === js "NOOP" then requireTransaction (fun s => (s, [reply "+OK"])) s
  else if verb === js "STAT" then requireTransaction cmdStat s
  else if verb === js "LIST" then requireTransaction (cmdList rest) s
  else if verb === js "RETR" then requireTransaction (cmdRetr rest) s
  else if verb === js "DELE" then requireTransaction (cmdDele rest) s
  else if verb === js "RSET" then requireTransaction cmdRset s
  else if verb === js "TOP" then requireTransaction (cmdTop rest) s
  else if verb === js "UIDL" then requireTransaction (cmdUidl rest) s
  else (s, [reply "-ERR unknown command"]).

Definition handleLine (line : jsstr) (s : Conn) : Conn * list Pop3Action :=
  let trimmed := trim line in
  if len trimmed =? 0 then (s, [reply "-ERR unknown command"])
  else let '(verb, rest) := splitVerb trimmed in handleVerb verb rest s.

(** ** The input loop *)

Definition guardBuffer (s : Pop3) : Pop3 * list Pop3Action :=
  let limit := match pending (conn s) with None => MAX_COMMAND_LINE | Some _ => MAX_PIPELINE_PENDING_BYTES end in
  if len (buffer s) <=? limit then (s, [])
  else (s <| buffer := [] |> <| conn ::= fun c => c <| closed := true |> |>,
        [reply "-ERR line too long, closing connection"; AClose]).

Definition running (s : Pop3) : bool :=
  match pending (conn s) with None => negb (closed (conn s)) | Some _ => false end.

(** A line goes to the SASL exchange that is waiting for it, or is a command. *)
Definition dispatch (line : jsstr) (c : Conn) : Conn * list Pop3Action :=
  match awaitingSasl c with Some sasl => handleSaslData sasl line c | None => handleLine line c end.

Definition drainBody (s : Pop3) : Pop3 * list Pop3Action * bool :=
  match indexOf LF (buffer s) with
  | None => (s, [], false)
  | Some idx =>
      let '(c, acts) := dispatch (stripCr (take idx (buffer s))) (conn s) in
      ({| decoder := decoder s; buffer := drop (S idx) (buffer s); conn := c |}, acts, true)
  end.

Definition drain (s : Pop3) : Pop3 * list Pop3Action :=
  let '(s1, a) := whileFuel running drainBody (S (length (buffer s))) s in
  if closed (conn s1) then (s1, a)
  else let '(s2, b) := guardBuffer s1 in (s2, a ++ b).

(** ** Public methods *)

Definition feed (chunk : bytes) (s : Pop3) : Pop3 * list Pop3Action :=
  if awaitingTls (conn s) then (s, [])
  else if closed (conn s) then (s, [])
  else
    let '(d, text) := decodeStream (decoder s) chunk in
    drain {| decoder := d; buffer := buffer s ++ text; conn := conn s |}.

(** The reply of a backend call, then what was pipelined. *)
Definition resume (pre : list Pop3Action) (c : Conn) (s : Pop3) : Pop3 * list Pop3Action :=
  let '(s', a) := drain (s <| conn := c |>) in (s', pre ++ a).

Definition scramKeysResult (keys : option ScramStoredKeys) (s : Pop3) : option (Pop3 * list Pop3Action) :=
  match pending (conn s) with
  | Some PScramKeys =>
      let c := (conn s) <| pending := None |> in
      Some (match awaitingSasl c with
            | Some (SaslScram session stage user) =>
                let '(session', step) := scramProvideKeys keys session in
                match step with
                | NeedSend message =>
                    resume [AReply (js "+ " ++ base64Encode (utf8Encode message))]
                      (c <| awaitingSasl := Some (SaslScram session' stage user) |>) s
                | _ => resume [scramFailedAction step; authFailedReply] (c <| awaitingSasl := None |>) s
                end
            | _ => resume [] c s
            end)
  | _ => None
  end.

Definition authResult (ok : bool) (s : Pop3) : option (Pop3 * list Pop3Action) :=
  match pending (conn s) with
  | Some PAuth =>
      Some (if ok then (s <| conn ::= fun c => c <| pending := Some POpenMaildrop |> |>, [AOpenMaildrop])
            else resume [authFailedReply] ((conn s) <| pending := None |> <| username := None |>) s)
  | _ => None
  end.

Inductive OpenResult :=
| OpenOk (ms : list Pop3EngineMessage)
| OpenFail (inUse : bool).

(** [result.messages.map((m, i) => ({ ...m, msgnum: i + 1, deleted: false }))] *)
Definition numbered (ms : list Pop3EngineMessage) : list SessionMessage :=
  imap (fun i m => {| msg := m; msgnum := Z.of_nat i + 1; deleted := false |}) ms.

Definition openMaildropResult (result : OpenResult) (s : Pop3) : option (Pop3 * list Pop3Action) :=
  match pending (conn s) with
  | Some POpenMaildrop =>
      let c := (conn s) <| pending := None |> in
      Some (match result with
            | OpenFail _ => resume [reply "-ERR [IN-USE] maildrop locked"] (c <| username := None |>) s
            | OpenOk ms =>
                let c := c <| messages := numbered ms |> <| state := TRANSACTION |> in
                resume [maildropReply (messages c)] c s
            end)
  | _ => None
  end.

Definition retrieveReply (m : SessionMessage) (mode : RetrieveMode) (bs : bytes) : bytes :=
  match mode with
  | ModeRetr => buildMultilineBinary (js "+OK " ++ numToString (sizeBytes (msg m)) ++ js " octets") (splitLines bs)
  | ModeTop lines => buildTopBytes bs lines
  end.

Definition retrieveResult (result : option bytes) (s : Pop3) : option (Pop3 * list Pop3Action) :=
  match pending (conn s) with
  | Some (PRetrieve num mode) =>
      let c := (conn s) <| pending := None |> in
      Some (match result with
            | None => resume [reply "-ERR [SYS/TEMP] failed to retrieve message"] c s
            | Some bs =>
                match findMessage (NumInt num) (messages c) with
                | None => resume [reply "-ERR [SYS/TEMP] internal error"] c s
                | Some m => resume [AReplyBinary (retrieveReply m mode bs)] c s
                end
            end)
  | _ => None
  end.

Definition commitDeletionsResult (ok : bool) (s : Pop3) : option (Pop3 * list Pop3Action) :=
  match pending (conn s) with
  | Some PCommit =>
      Some (s <| conn ::= fun c => c <| pending := None |> <| closed := true |> |>,
            if ok then signingOff
            else [reply "-ERR [SYS/TEMP] failed to commit deletions"; AClose])
  | _ => None
  end.

Definition tlsEstablished (s : Pop3) : Pop3 :=
  s <| conn ::= fun c => c <| secure := true |> <| awaitingTls := false |> <| username := None |> |>.
End Engine.

Arguments handleScramData : simpl never.
Arguments handleSaslLine : simpl never.
Arguments handleSaslData : simpl never.
Arguments handleVerb : simpl never.
Arguments handleLine : simpl never.
Arguments dispatch : simpl never.
Arguments getActiveMessage : simpl never.
Arguments maildropReply : simpl never.
Arguments buildTextMultiline : simpl never.
Arguments guardBuffer : simpl never.
Arguments drain : simpl never.
Arguments resume : simpl never.
Arguments findMessage : simpl never.
Arguments numbered : simpl never.
Arguments retrieveReply : simpl never.

(** ** Termination of the loop *)

Section Termination.
Context {SS : ScramServer} {R : Type} (cfg : Pop3Config).
Implicit Types s : Pop3 (R := R).

Lemma drainBody_buffer s s1 a :
  drainBody cfg s = (s1, a, true) -> (length (buffer s1) < length (buffer s))%nat.
Proof.
  unfold drainBody. destruct (indexOf LF (buffer s)) as [idx|] eqn:Ei; [|done].
  destruct (dispatch _ _ _) as [c acts]. intros [= <- <-]. apply indexOf_lt in Ei. cbn.
  rewrite length_drop. lia.
Qed.

(** The bound of [drain] is enough: its loop is the loop of the source. *)
Lemma drain_loop s :
  let r := whileFuel running (drainBody cfg) (S (length (buffer s))) s in
  Loop running (drainBody cfg) s (snd r) (fst r).
Proof.
  apply (whileFuel_loop running (drainBody cfg) (fun s => length (buffer s))); [|lia].
  intros s0 s1 a _. apply drainBody_buffer.
Qed.

(** [drain] as the source has it: the unbounded loop, then the guard. *)
Lemma drain_inv s s' a :
  drain cfg s = (s', a) ->
  exists s1 a1, Loop running (drainBody cfg) s a1 s1 /\
    if closed (conn s1) then s' = s1 /\ a = a1
    else s' = fst (guardBuffer s1) /\ a = a1 ++ snd (guardBuffer s1).
Proof.
  unfold drain. pose proof (drain_loop s) as HL. destruct (whileFuel _ _ _ _) as [s1 a1]. cbn in HL.
  intros H. exists s1, a1. split; [done|]. destruct (closed (conn s1)); [by simplify_eq|].
  destruct (guardBuffer s1). by simplify_eq.
Qed.

Lemma drain_intro s s1 a1 :
  Loop running (drainBody cfg) s a1 s1 ->
  drain cfg s = if closed (conn s1) then (s1, a1)
                else (fst (guardBuffer s1), a1 ++ snd (guardBuffer s1)).
Proof.
  intros HL. unfold drain. pose proof (drain_loop s) as HL'.
  destruct (whileFuel _ _ _ _) as [s2 a2]. cbn in HL'.
  destruct (While_det _ _ _ _ _ _ _ HL HL') as [-> ->].
  by destruct (closed (conn s2)), (guardBuffer s2).
Qed.
End Termination.

(** ** What a connection's trace establishes

    [Ghost] is computed from the trace alone: whether TLS is up, the user whose SCRAM
    keys were last asked for, whether the backend confirmed the credentials, the
    maildrop it opened, and the numbers whose deletion was confirmed to the client
    since the maildrop was last announced. *)

Section Trace.
Context {R : Type}.

Record Ghost := mkGhost {
  g_tls : bool;
  g_lookup : option jsstr;
  g_authed : bool;
  g_drop : option (list (Pop3EngineMessage (R := R)));
  g_del : list Z
}.

Definition ghost0 (cfg : Pop3Config) : Ghost :=
  {| g_tls := initiallySecure cfg; g_lookup := None; g_authed := false; g_drop := None; g_del := [] |}.

(** What the client reads in a reply. *)
Definition trackReply (G : Ghost) (t : jsstr) : Ghost :=
  if startsWith (js "+OK maildrop has ") t then G <| g_del := [] |>
  else if startsWith (js "+OK message ") t then
    G <| g_del ::= cons (digitsVal (spanDigits (drop 12 t)).1) |>
  else G.

Definition track (G : Ghost) (a : Pop3Action (R := R)) : Ghost :=
  match a with
  | AReply t => trackReply G t
  | AScramKeys u => G <| g_lookup := Some u |>
  | _ => G
  end.

Definition trackAll (G : Ghost) (acts : list Pop3Action) : Ghost := fold_left track acts G.

Inductive Event :=
| EvFeed (chunk : bytes)
| EvKeys (keys : option ScramStoredKeys)
| EvAuth (ok : bool)
| EvOpen (result : OpenResult (R := R))
| EvRetrieve (result : option bytes)
| EvCommit (ok : bool)
| EvTls.

(** The event comes before the actions it causes. *)
Definition trackEvent (G : Ghost) (e : Event) : Ghost :=
  match e with
  | EvAuth ok => G <| g_authed := ok |>
  | EvOpen (OpenOk ms) => G <| g_drop := Some ms |>
  | EvOpen (OpenFail _) => G <| g_authed := false |>
  | EvTls => G <| g_tls := true |>
  | _ => G
  end.

(** The messages of the maildrop with the given numbers, in maildrop order; the first
    has number [k]. *)
Fixpoint pick (k : Z) (ms : list Pop3EngineMessage) (del : list Z) : list (Pop3EngineMessage (R := R)) :=
  match ms with
  | [] => []
  | m :: ms' => (if bool_decide (k ∈ del) then [m] else []) ++ pick (k + 1) ms' del
  end.

Definition authLine (cfg : Pop3Config) (G : Ghost) : Prop := g_tls G || allowInsecureAuth cfg = true.

(** What each action may be, given the trace before it. *)
Definition actionOk (cfg : Pop3Config) (G : Ghost) (a : Pop3Action) : Prop :=
  match a with
  | AAuth _ _ | AScramKeys _ => authLine cfg G
  | AAuthVerified u => authLine cfg G /\ g_lookup G = Some u
  | AOpenMaildrop => g_authed G = true
  | ARetrieve n =>
      g_authed G = true /\ exists ms, g_drop G = Some ms /\ 1 <= n <= len ms /\ n ∉ g_del G
  | ACommitDeletions l => g_authed G = true /\ exists ms, g_drop G = Some ms /\ l = pick 1 ms (g_del G)
  | _ => True
  end.

Fixpoint actsOk (cfg : Pop3Config) (G : Ghost) (acts : list Pop3Action) : Prop :=
  match acts with
  | [] => True
  | a :: r => actionOk cfg G a /\ actsOk cfg (track G a) r
  end.

Lemma pop3_actsOk_app cfg G a b : actsOk cfg G (a ++ b) <-> actsOk cfg G a /\ actsOk cfg (trackAll G a) b.
Proof.
  revert G; induction a as [|x a IH]; intros G; cbn; [tauto|]. rewrite IH.
  change (trackAll G (x :: a)) with (trackAll (track G x) a). tauto.
Qed.

Lemma pop3_trackAll_app G a b : trackAll G (a ++ b) = trackAll (trackAll G a) b.
Proof. apply fold_left_app. Qed.

(** The table of the session, from the maildrop and the deleted numbers. *)
Fixpoint marked (k : Z) (ms : list Pop3EngineMessage) (del : list Z) : list (SessionMessage (R := R)) :=
  match ms with
  | [] => []
  | m :: ms' => {| msg := m; msgnum := k; deleted := bool_decide (k ∈ del) |} :: marked (k + 1) ms' del
  end.

Lemma marked_numbered ms : numbered ms = marked 1 ms [].
Proof.
  unfold numbered.
  enough (H : forall n, imap ((fun i m => {| msg := m; msgnum := Z.of_nat i + 1; deleted := false |}) ∘ Nat.add n) ms
                = marked (Z.of_nat n + 1) ms []) by exact (H 0%nat).
  induction ms as [|m ms IH]; intros n; [done|]. cbn. f_equal.
  - f_equal. lia.
  - replace (Z.of_nat n + 1 + 1) with (Z.of_nat (S n) + 1) by lia. rewrite <- IH.
    apply imap_ext. intros i x _. cbn. f_equal. lia.
Qed.

Lemma marked_undelete k ms del : map (fun m => m <| deleted := false |>) (marked k ms del) = marked k ms [].
Proof. revert k; induction ms as [|m ms IH]; intros k; [done|]. cbn. by rewrite IH. Qed.

Lemma marked_pick k ms del :
  map msg (filter (fun m => deleted m = true) (marked k ms del)) = pick k ms del.
Proof.
  revert k; induction ms as [|m ms IH]; intros k; [done|]. cbn. unfold filter in *. cbn.
  destruct (decide _) as [H|H]; cbn in H; rewrite <- IH.
  - by rewrite H.
  - destruct (bool_decide (k ∈ del)); done.
Qed.

Lemma marked_other k j ms del : j < k -> marked k ms (j :: del) = marked k ms del.
Proof.
  revert k; induction ms as [|m ms IH]; intros k Hk; [done|]. cbn. f_equal; [|apply IH; lia].
  f_equal. apply bool_decide_ext. set_solver by lia.
Qed.

Lemma marked_find k n ms del m :
  List.find (fun m => msgnum m =? n) (marked k ms del) = Some m ->
  msgnum m = n /\ k <= n < k + len ms /\ deleted m = bool_decide (n ∈ del).
Proof.
  revert k; induction ms as [|x ms IH]; intros k; [done|]. cbn. rewrite len_cons.
  destruct (Z.eqb_spec k n) as [->|Hne].
  - intros [= <-]. pose proof (len_nonneg ms). cbn. split; [done|]. split; [lia|done].
  - intros H%IH. destruct H as (? & ? & ?). split; [done|]. split; [lia|done].
Qed.

Lemma marked_delete k n ms del :
  k <= n -> markDeleted n (marked k ms del) = marked k ms (n :: del).
Proof.
  revert k; induction ms as [|x ms IH]; intros k Hk; [done|]. cbn.
  destruct (Z.eqb_spec k n) as [->|Hne].
  - rewrite marked_other by lia. f_equal. unfold set. cbn. f_equal. symmetry. apply bool_decide_eq_true. set_solver.
  - rewrite IH by lia. f_equal. f_equal. apply bool_decide_ext. set_solver.
Qed.

Lemma marked_len k ms del : len (marked k ms del) = len ms.
Proof. revert k; induction ms as [|m ms IH]; intros k; [done|]. cbn. by rewrite !len_cons, IH. Qed.
End Trace.

Arguments trackAll : simpl never.
Arguments trackReply : simpl never.

(** ** The invariant *)

Section Invariant.
Context {SS : ScramServer} {R : Type} (cfg : Pop3Config).
Implicit Types (s : Pop3 (R := R)) (c : Conn (R := R)) (G : Ghost (R := R)).

(** A SCRAM exchange is about the user whose keys were asked for. *)
Definition bound (lk : option jsstr) (sasl : option AwaitingSasl) : Prop :=
  match sasl with
  | Some (SaslScram _ StClientFirst u) => u = None
  | Some (SaslScram session StClientFinal _) => lk = Some (scramUser session)
  | Some (SaslScram _ StServerFinal u) => lk = u /\ is_Some u
  | _ => True
  end.

Record Inv G c : Prop := {
  i_tls : secure c = g_tls G;
  i_sasl : is_Some (awaitingSasl c) ->
    state c = AUTHORIZATION /\ authLine cfg G /\ (pending c = None \/ pending c = Some PScramKeys);
  i_keys : pending c = Some PScramKeys ->
    exists session, awaitingSasl c = Some (SaslScram session StClientFinal None);
  i_bound : bound (g_lookup G) (awaitingSasl c);
  i_auth : pending c = Some PAuth -> state c = AUTHORIZATION;
  i_open : pending c = Some POpenMaildrop -> state c = AUTHORIZATION /\ g_authed G = true;
  i_trans : state c = TRANSACTION -> g_authed G = true /\ is_Some (g_drop G);
  i_msgs : closed c = false -> messages c = marked 1 (default [] (g_drop G)) (g_del G)
}.

Definition Good G (r : Conn * list Pop3Action) : Prop :=
  actsOk cfg G r.2 /\ Inv (trackAll G r.2) r.1.

(** Actions that carry no obligation and no information. *)
Definition neutral (a : Pop3Action (R := R)) : bool :=
  match a with
  | AReply t => negb (startsWith (js "+OK m") t)
  | AReplyBinary _ | AClose | AStartTls | AAuthFailed _ => true
  | _ => false
  end.

Lemma startsWith_shorter p q (t : jsstr) : startsWith p t = false -> startsWith (p ++ q) t = false.
Proof.
  revert t; induction p as [|x p IH]; intros [|y t]; cbn; try done.
  destruct (x =? y); [apply IH|done].
Qed.

Lemma neutral_track G t : startsWith (js "+OK m") t = false -> trackReply G t = G.
Proof.
  intros H. unfold trackReply.
  change (js "+OK maildrop has ") with (js "+OK m" ++ js "aildrop has ").
  change (js "+OK message ") with (js "+OK m" ++ js "essage ").
  by rewrite !startsWith_shorter.
Qed.

Lemma neutral_acts G acts : forallb neutral acts = true -> actsOk cfg G acts /\ trackAll G acts = G.
Proof.
  revert G; induction acts as [|x acts IH]; intros G; [done|]. cbn [forallb].
  intros [Hx Ha]%andb_true_iff. destruct (IH G Ha) as [H1 H2].
  assert (Ht : track G x = G).
  { destruct x; cbn in Hx |- *; try done. apply negb_true_iff in Hx. by apply neutral_track. }
  cbn [actsOk]. change (trackAll G (x :: acts)) with (trackAll (track G x) acts). rewrite Ht.
  split; [|done]. split; [|done]. by destruct x.
Qed.

Lemma Good_neutral G c acts : Inv G c -> forallb neutral acts = true -> Good G (c, acts).
Proof. intros HI Hn. unfold Good. cbn. destruct (neutral_acts G acts Hn) as [H ->]. done. Qed.

Lemma neutral_number n t : 0 <= n -> neutral (AReply (js "+OK " ++ numToString n ++ t)) = true.
Proof.
  intros Hn. pose proof (numToString_digits n Hn) as Hd.
  destruct (numToString n) as [|d ds]; [done|].
  change (negb (startsWith [109] (d :: ds ++ t)) = true). cbn -[Z.eqb].
  assert (48 <= d <= 57) by (apply (isDigits_elem (d :: ds)); [done|left]).
  rewrite (proj2 (Z.eqb_neq 109 d)) by lia. done.
Qed.

Lemma multiline_shape st lines : exists r, buildTextMultiline st lines = st ++ crlf ++ r.
Proof.
  unfold buildTextMultiline. destruct (map _ lines) as [|x l]; cbn; eauto.
Qed.

(** *** The handlers *)

Lemma Inv_no_sasl G c : Inv G c -> pending c = None -> Inv G (c <| awaitingSasl := None |>).
Proof.
  intros [H1 H2 H3 H4 H5 H6 H7 H8] Hp. constructor; cbn; try done. by rewrite Hp.
Qed.

Lemma pop3_Inv_nonce G c f : Inv G c -> Inv G (c <| nonceIdx ::= f |>).
Proof. by intros [H1 H2 H3 H4 H5 H6 H7 H8]. Qed.

Lemma Inv_username G c u : Inv G c -> Inv G (c <| username := u |>).
Proof. by intros [H1 H2 H3 H4 H5 H6 H7 H8]. Qed.

Lemma pop3_Inv_closed G c : Inv G c -> Inv G (c <| closed := true |>).
Proof. by intros [H1 H2 H3 H4 H5 H6 H7 H8]. Qed.

(** A backend call that is about the maildrop or about nothing. *)
Lemma Inv_pending G c p :
  Inv G c -> awaitingSasl c = None ->
  match p with PScramKeys | POpenMaildrop => False | PAuth => state c = AUTHORIZATION | _ => True end ->
  Inv G (c <| pending := Some p |>).
Proof.
  intros [H1 H2 H3 H4 H5 H6 H7 H8] Hs Hp. constructor; cbn; rewrite ?Hs; try done.
  all: by destruct p.
Qed.

Lemma pop3_Good_auth G c u p :
  Inv G c -> awaitingSasl c = None -> state c = AUTHORIZATION -> authLine cfg G ->
  Good G (c <| pending := Some PAuth |>, [AAuth u p]).
Proof. intros HI Hs Hst Ha. split; [done|]. by apply (Inv_pending G c PAuth). Qed.

Lemma authAllowed_line G c : Inv G c -> authAllowed cfg c = true -> authLine cfg G.
Proof. intros [H1 _ _ _ _ _ _ _]. unfold authAllowed, authLine. by rewrite H1. Qed.

Lemma handleSaslLine_good G c m data :
  Inv G c -> pending c = None -> state c = AUTHORIZATION -> authLine cfg G ->
  Good G (handleSaslLine m data c).
Proof.
  intros HI Hp Hst Ha. pose proof (Inv_no_sasl G c HI Hp) as HI'. unfold handleSaslLine.
  repeat case_match; first [by apply Good_neutral|by apply pop3_Good_auth; [apply Inv_username|..]].
Qed.

Lemma Inv_sasl G c sasl :
  Inv G c -> pending c = None -> state c = AUTHORIZATION -> authLine cfg G ->
  bound (g_lookup G) (Some sasl) -> Inv G (c <| awaitingSasl := Some sasl |>).
Proof.
  intros [H1 H2 H3 H4 H5 H6 H7 H8] Hp Hst Ha Hb. constructor; cbn; try done; [auto|by rewrite Hp].
Qed.

Lemma scramStart_good G c session text :
  Inv G c -> pending c = None -> state c = AUTHORIZATION -> authLine cfg G ->
  Good G (let '(session', step) := scramStart (nonces cfg (nonceIdx c)) text session in
          let c := c <| nonceIdx ::= S |> in
          match step with
          | NeedLookup u =>
              (c <| awaitingSasl := Some (SaslScram session' StClientFinal None) |>
                 <| pending := Some PScramKeys |>, [AScramKeys u])
          | _ => (c <| awaitingSasl := None |>, [scramFailedAction step; authFailedReply])
          end).
Proof.
  intros HI Hp Hst Ha. pose proof (Inv_no_sasl _ _ (pop3_Inv_nonce G c S HI) Hp) as HI'.
  destruct (scramStart _ _ _) as [session' step] eqn:E.
  destruct step as [u| | |]; try by apply Good_neutral.
  apply scramStart_lookup in E. destruct HI as [H1 H2 H3 H4 H5 H6 H7 H8].
  split; [done|]. constructor; cbn; try done; eauto. by rewrite E.
Qed.

Lemma scramFinal_good G c session text :
  Inv G c -> pending c = None -> state c = AUTHORIZATION -> authLine cfg G ->
  g_lookup G = Some (scramUser session) ->
  Good G (let '(session', fin) := scramFinal text session in
          match fin with
          | NeedDone u message =>
              (c <| awaitingSasl := Some (SaslScram session' StServerFinal (Some u)) |>,
               [AReply (js "+ " ++ base64Encode (utf8Encode message))])
          | _ => (c <| awaitingSasl := None |>, [scramFailedAction fin; authFailedReply])
          end).
Proof.
  intros HI Hp Hst Ha Hl. pose proof (Inv_no_sasl G c HI Hp) as HI'.
  destruct (scramFinal _ _) as [session' fin] eqn:E.
  destruct fin as [| |u message|]; try by apply Good_neutral.
  apply scramFinal_done in E as [-> _]. apply Good_neutral; [|done]. apply Inv_sasl; cbn; eauto.
Qed.

Lemma handleScramData_good G c session stage user data :
  Inv G c -> pending c = None -> state c = AUTHORIZATION -> authLine cfg G ->
  bound (g_lookup G) (Some (SaslScram session stage user)) ->
  Good G (handleScramData cfg session stage user data c).
Proof.
  intros HI Hp Hst Ha Hb. pose proof (Inv_no_sasl G c HI Hp) as HI'.
  unfold handleScramData. destruct stage.
  - destruct (decodeSaslBase64 data); [|by apply Good_neutral]. rewrite Hb.
    by apply scramStart_good.
  - destruct (decodeSaslBase64 data); [|by apply Good_neutral]. by apply scramFinal_good.
  - destruct Hb as [Hl [u ->]]. split; [done|]. cbn.
    apply (Inv_pending _ _ PAuth); [by apply Inv_username|done..].
Qed.

Lemma handleSaslData_good G c sasl data :
  Inv G c -> pending c = None -> awaitingSasl c = Some sasl -> Good G (handleSaslData cfg sasl data c).
Proof.
  intros HI Hp Hs. pose proof (Inv_no_sasl G c HI Hp) as HI'.
  destruct (i_sasl _ _ HI) as (Hst & Ha & _); [by rewrite Hs|]. pose proof (i_bound _ _ HI) as Hb.
  rewrite Hs in Hb. unfold handleSaslData. destruct (data === _); [by apply Good_neutral|].
  destruct sasl; [by apply handleSaslLine_good|by apply handleScramData_good].
Qed.

Lemma beginSasl_good G c sasl ir :
  Inv G c -> pending c = None -> state c = AUTHORIZATION -> authLine cfg G ->
  bound (g_lookup G) (Some sasl) -> Good G (beginSasl cfg sasl ir c).
Proof.
  intros HI Hp Hst Ha Hb. pose proof (Inv_sasl G c sasl HI Hp Hst Ha Hb) as HI'. unfold beginSasl.
  destruct (0 <? len ir); [by apply handleSaslData_good|by apply Good_neutral].
Qed.

Lemma cmdAuth_good G c rest : Inv G c -> pending c = None -> Good G (cmdAuth cfg rest c).
Proof.
  intros HI Hp. unfold cmdAuth.
  destruct (decide (state c <> AUTHORIZATION)) as [|Hst%dec_stable]; [by apply Good_neutral|].
  destruct (authAllowed cfg c) eqn:Ha; cbn [negb]; [|by apply Good_neutral].
  apply (authAllowed_line G c HI) in Ha. destruct (_ =? 0).
  { apply Good_neutral; [done|].
    match goal with |- context [buildTextMultiline ?st ?l] => destruct (multiline_shape st l) as [r ->] end. done. }
  destruct (splitVerb rest) as [mech ir].
  repeat case_match; first [by apply Good_neutral|by apply beginSasl_good].
Qed.

Lemma getActiveMessage_ok G c arg m :
  Inv G c -> closed c = false -> getActiveMessage arg c = inl m ->
  1 <= msgnum m <= len (default [] (g_drop G)) /\ msgnum m ∉ g_del G.
Proof.
  intros HI Hc. unfold getActiveMessage, findMessage. rewrite (i_msgs _ _ HI Hc).
  repeat case_match; try done. intros [= <-].
  match goal with H : List.find _ _ = Some _ |- _ => apply marked_find in H as (? & ? & Hd) end.
  subst. split; [lia|]. match goal with H : deleted _ = false |- _ => rewrite Hd in H end.
  by eapply bool_decide_eq_false_1.
Qed.

Lemma getActiveMessage_error arg c t : getActiveMessage arg c = inr t -> neutral (AReply t) = true.
Proof. unfold getActiveMessage. repeat case_match; try done; by intros [= <-]. Qed.

(** Case analysis on the message argument of a command. *)
Ltac message_arg HI :=
  match goal with
  | |- context [getActiveMessage ?arg ?c] =>
      let m := fresh "m" in let E := fresh "Em" in
      destruct (getActiveMessage arg c) as [m|] eqn:E;
      [apply (getActiveMessage_ok _ _ _ _ HI) in E; [|done]
      |apply Good_neutral; [done|]; cbn [forallb]; by rewrite (getActiveMessage_error _ _ _ E)]
  end.

Lemma retrieve_good G c n mode :
  Inv G c -> awaitingSasl c = None -> state c = TRANSACTION ->
  1 <= n <= len (default [] (g_drop G)) /\ n ∉ g_del G ->
  Good G (c <| pending := Some (PRetrieve n mode) |>, [ARetrieve n]).
Proof.
  intros HI Hs Hst Hn. destruct (i_trans _ _ HI Hst) as [Ha [ms Hms]]. rewrite Hms in Hn. split.
  - cbn. split; [|done]. split; [done|]. by exists ms.
  - by apply (Inv_pending G c (PRetrieve n mode)).
Qed.

Lemma cmdRetr_good G c arg :
  Inv G c -> closed c = false -> awaitingSasl c = None -> state c = TRANSACTION -> Good G (cmdRetr arg c).
Proof. intros HI Hc Hs Hst. unfold cmdRetr. message_arg HI. by apply retrieve_good. Qed.

Lemma cmdTop_good G c rest :
  Inv G c -> closed c = false -> awaitingSasl c = None -> state c = TRANSACTION -> Good G (cmdTop rest c).
Proof.
  intros HI Hc Hs Hst. unfold cmdTop.
  destruct (filter _ _) as [|a [|b [|? ?]]]; try by apply Good_neutral.
  message_arg HI. destruct (parseNonNegativeInt b); [by apply retrieve_good|by apply Good_neutral].
Qed.


Lemma track_deleted G n :
  0 <= n -> trackReply G (js "+OK message " ++ numToString n ++ js " deleted") = G <| g_del ::= cons n |>.
Proof.
  intros Hn. unfold trackReply.
  assert (startsWith (js "+OK maildrop has ") (js "+OK message " ++ numToString n ++ js " deleted") = false)
    as -> by reflexivity.
  rewrite startsWith_app. change 12%nat with (length (js "+OK message ")). rewrite drop_app_length.
  change (js " deleted") with (32 :: js "deleted"). rewrite spanDigits_number by done. cbn [fst].
  by rewrite numToString_val.
Qed.

Lemma cmdDele_good G c arg :
  Inv G c -> closed c = false -> Good G (cmdDele arg c).
Proof.
  intros HI Hc. unfold cmdDele. message_arg HI. split; [done|].
  change (trackAll G _) with (trackReply G (js "+OK message " ++ numToString (msgnum m) ++ js " deleted")).
  rewrite track_deleted by lia. destruct HI as [H1 H2 H3 H4 H5 H6 H7 H8].
  constructor; cbn; try done. intros _. rewrite (H8 Hc). apply marked_delete. lia.
Qed.

Lemma track_maildrop G ms : trackAll G [maildropReply ms] = G <| g_del := [] |>.
Proof. unfold trackAll, maildropReply. cbn. unfold trackReply. by rewrite startsWith_app. Qed.

Lemma cmdRset_good G c : Inv G c -> closed c = false -> Good G (cmdRset c).
Proof.
  intros HI Hc. unfold cmdRset. split; [done|]. cbn [fst snd]. rewrite track_maildrop.
  destruct HI as [H1 H2 H3 H4 H5 H6 H7 H8].
  constructor; cbn; try done. intros _. rewrite (H8 Hc). apply marked_undelete.
Qed.

Lemma cmdQuit_good G c :
  Inv G c -> awaitingSasl c = None -> closed c = false -> Good G (cmdQuit cfg c).
Proof.
  intros HI Hs Hc. unfold cmdQuit. destruct (decide (state c = AUTHORIZATION)) as [|Hst].
  - split; [done|]. unfold signingOff. cbn [fst snd]. unfold trackAll. cbn.
    destruct HI as [H1 H2 H3 H4 H5 H6 H7 H8].
    unfold trackReply. repeat case_match; by constructor.
  - destruct (state c) eqn:Est; [done|]. destruct (i_trans _ _ HI Est) as [Ha [ms Hms]].
    split; [|by apply (Inv_pending G c PCommit)]. cbn. split; [|done]. split; [done|]. exists ms.
    split; [done|]. rewrite (i_msgs _ _ HI Hc), Hms. apply marked_pick.
Qed.

(** A command that only reports. *)
Lemma cmdList_good G c arg : Inv G c -> closed c = false -> Good G (cmdList arg c).
Proof.
  intros HI Hc. unfold cmdList. destruct (0 <? len arg).
  - message_arg HI. apply Good_neutral; [done|]. cbn [forallb]. rewrite neutral_number by lia. done.
  - apply Good_neutral; [done|]. cbn [forallb].
    match goal with |- context [buildTextMultiline ?st ?l] => destruct (multiline_shape st l) as [r ->] end.
    rewrite <- !app_assoc, neutral_number by apply len_nonneg. done.
Qed.

Lemma cmdUidl_good G c arg : Inv G c -> closed c = false -> Good G (cmdUidl arg c).
Proof.
  intros HI Hc. unfold cmdUidl. destruct (0 <? len arg).
  - message_arg HI. apply Good_neutral; [done|]. cbn [forallb]. rewrite neutral_number by lia. done.
  - apply Good_neutral; [done|]. cbn [forallb].
    match goal with |- context [buildTextMultiline ?st ?l] => destruct (multiline_shape st l) as [r ->] end.
    done.
Qed.

Lemma cmdStat_good G c : Inv G c -> Good G (cmdStat c).
Proof.
  intros HI. apply Good_neutral; [done|]. cbn [forallb]. by rewrite neutral_number by apply len_nonneg.
Qed.

Lemma cmdCapa_good G c : Inv G c -> Good G (cmdCapa cfg c).
Proof.
  intros HI. apply Good_neutral; [done|]. cbn [forallb].
  match goal with |- context [buildTextMultiline ?st ?l] => destruct (multiline_shape st l) as [r ->] end.
  done.
Qed.

Lemma cmdUser_good G c name : Inv G c -> Good G (cmdUser cfg name c).
Proof. intros HI. unfold cmdUser. repeat case_match; apply Good_neutral; try done. by apply Inv_username. Qed.

Lemma cmdPass_good G c pass :
  Inv G c -> awaitingSasl c = None -> Good G (cmdPass cfg pass c).
Proof.
  intros HI Hs. unfold cmdPass.
  destruct (decide (state c <> AUTHORIZATION)) as [|Hst%dec_stable]; [by apply Good_neutral|].
  destruct (authAllowed cfg c) eqn:Ha; cbn [negb]; [|by apply Good_neutral].
  apply (authAllowed_line G c HI) in Ha.
  repeat case_match; first [by apply Good_neutral|by apply pop3_Good_auth].
Qed.

Lemma cmdStls_good G c : Inv G c -> Good G (cmdStls cfg c).
Proof.
  intros HI. unfold cmdStls. repeat case_match; apply Good_neutral; try done.
  by destruct HI.
Qed.

Lemma requireTransaction_good G c fn :
  Inv G c -> (state c = TRANSACTION -> Good G (fn c)) -> Good G (requireTransaction fn c).
Proof.
  intros HI Hf. unfold requireTransaction.
  destruct (decide (state c <> TRANSACTION)) as [|Hst%dec_stable]; [by apply Good_neutral|auto].
Qed.

Lemma pop3_handleVerb_good G c verb rest :
  Inv G c -> pending c = None -> awaitingSasl c = None -> closed c = false ->
  Good G (handleVerb cfg verb rest c).
Proof.
  intros HI Hp Hs Hc. unfold handleVerb.
  repeat case_match; try apply requireTransaction_good; try intros Hst;
    auto using cmdCapa_good, cmdQuit_good, cmdUser_good, cmdPass_good, cmdStls_good, cmdAuth_good,
      cmdStat_good, cmdList_good, cmdRetr_good, cmdDele_good, cmdRset_good, cmdTop_good, cmdUidl_good,
      Good_neutral.
Qed.

Lemma dispatch_good G c line :
  Inv G c -> pending c = None -> closed c = false -> Good G (dispatch cfg line c).
Proof.
  intros HI Hp Hc. unfold dispatch. destruct (awaitingSasl c) as [sasl|] eqn:Hs.
  - by apply handleSaslData_good.
  - unfold handleLine. destruct (_ =? 0); [by apply Good_neutral|].
    destruct (splitVerb _). by apply pop3_handleVerb_good.
Qed.
End Invariant.

(** ** Sessions *)

Section Sessions.
Context {SS : ScramServer} {R : Type} (cfg : Pop3Config).
Implicit Types (s : Pop3 (R := R)) (c : Conn (R := R)) (G : Ghost (R := R)).

(** The same for the whole engine. *)
Definition GoodS G (r : Pop3 * list Pop3Action) : Prop :=
  actsOk cfg G r.2 /\ Inv cfg (trackAll G r.2) (conn r.1).

Lemma GoodS_nil G s : Inv cfg G (conn s) -> GoodS G (s, []).
Proof. intros HI. split; [done|exact HI]. Qed.

Lemma GoodS_app G s a r :
  actsOk cfg G a -> GoodS (trackAll G a) r -> GoodS G (r.1, a ++ r.2).
Proof.
  intros Ha [Hb HI]. split; cbn [fst snd]; [by apply pop3_actsOk_app|]. by rewrite pop3_trackAll_app.
Qed.

Lemma guardBuffer_good G s : Inv cfg G (conn s) -> GoodS G (guardBuffer s).
Proof.
  intros HI. unfold guardBuffer. destruct (_ <=? _); [by apply GoodS_nil|].
  apply (Good_neutral cfg G ((conn s) <| closed := true |>)); [by apply pop3_Inv_closed|done].
Qed.

Lemma pop3_loop_good s a s' :
  Loop running (drainBody cfg) s a s' ->
  forall G, Inv cfg G (conn s) -> actsOk cfg G a /\ Inv cfg (trackAll G a) (conn s').
Proof.
  intros HL.
  apply (Loop_invariant running (drainBody cfg) (fun _ => True)
    (fun s a s' => forall G, Inv cfg G (conn s) -> actsOk cfg G a /\ Inv cfg (trackAll G a) (conn s')) ) in HL;
    [by apply HL|done|..|done].
  - intros s1 a1 s2 a2 s3 H1 H2 G HI. destruct (H1 G HI) as [Ha HI2]. destruct (H2 _ HI2) as [Hb HI3].
    rewrite pop3_actsOk_app, pop3_trackAll_app. done.
  - intros s0 s1 a0 go _ Hr. split; [done|]. intros G HI. revert H. unfold drainBody.
    destruct (indexOf LF (buffer s0)) as [idx|]; [|intros [= <- <- _]; by apply GoodS_nil].
    unfold running in Hr. destruct (pending (conn s0)) eqn:Hp; [done|]. apply negb_true_iff in Hr.
    pose proof (dispatch_good cfg G (conn s0) (stripCr (take idx (buffer s0))) HI Hp Hr) as [H1 H2].
    destruct (dispatch _ _ _) as [c acts]. by intros [= <- <- _].
Qed.

Lemma drain_good G s : Inv cfg G (conn s) -> GoodS G (drain cfg s).
Proof.
  intros HI. destruct (drain cfg s) as [s' a] eqn:E. destruct (drain_inv cfg _ _ _ E) as (s1 & a1 & HL & H).
  destruct (pop3_loop_good _ _ _ HL G HI) as [Ha HI1].
  destruct (closed (conn s1)); destruct H as [-> ->]; [by split|].
  apply (GoodS_app G s1 a1); [done|]. by apply guardBuffer_good.
Qed.

Lemma pop3_resume_good G pre c s :
  actsOk cfg G pre -> Inv cfg (trackAll G pre) c -> GoodS G (resume cfg pre c s).
Proof.
  intros Ha HI. unfold resume. pose proof (drain_good (trackAll G pre) (s <| conn := c |>) HI) as Hd.
  destruct (drain _ _) as [s' b]. by apply (GoodS_app G s pre) in Hd.
Qed.

(** A neutral reply before what was pipelined. *)
Lemma resume_neutral G pre c s :
  Inv cfg G c -> forallb neutral pre = true -> GoodS G (resume cfg pre c s).
Proof. intros HI Hn. destruct (neutral_acts cfg G pre Hn) as [Ha Ht]. apply pop3_resume_good; [done|]. by rewrite Ht. Qed.

Definition step (e : Event (R := R)) s : option (Pop3 * list Pop3Action) :=
  match e with
  | EvFeed chunk => Some (feed cfg chunk s)
  | EvKeys keys => scramKeysResult cfg keys s
  | EvAuth ok => authResult cfg ok s
  | EvOpen result => openMaildropResult cfg result s
  | EvRetrieve result => retrieveResult cfg result s
  | EvCommit ok => commitDeletionsResult cfg ok s
  | EvTls => Some (tlsEstablished s, [])
  end.

(** The traces of a connection: each step's event with the actions it caused. *)
Inductive Session : list (Event * list Pop3Action) -> Pop3 -> Prop :=
| session_start : Session [] (initial cfg)
| session_step tr s e s' acts :
    Session tr s -> step e s = Some (s', acts) -> Session (tr ++ [(e, acts)]) s'.

Definition trackStep G (x : Event * list Pop3Action) : Ghost := trackAll (trackEvent G x.1) x.2.

Definition ghostOf (tr : list (Event * list Pop3Action)) : Ghost := fold_left trackStep tr (ghost0 cfg).

Lemma pop3_ghostOf_snoc tr e acts : ghostOf (tr ++ [(e, acts)]) = trackAll (trackEvent (ghostOf tr) e) acts.
Proof. unfold ghostOf. by rewrite fold_left_app. Qed.

Lemma pop3_scramKeysResult_good G keys s r :
  Inv cfg G (conn s) -> scramKeysResult cfg keys s = Some r -> GoodS G r.
Proof.
  intros HI. unfold scramKeysResult. destruct (pending (conn s)) as [[]|] eqn:Hp; try done.
  intros [= <-]. destruct (i_keys _ _ _ HI Hp) as [session Hs].
  destruct (i_sasl _ _ _ HI) as (Hst & Hl & _); [by rewrite Hs|].
  pose proof (i_bound _ _ _ HI) as Hb. rewrite Hs in Hb. cbn. rewrite Hs.
  assert (HI' : Inv cfg G ((conn s) <| pending := None |> <| awaitingSasl := None |>)).
  { destruct HI as [H1 H2 H3 H4 H5 H6 H7 H8]. constructor; cbn; done. }
  destruct (scramProvideKeys keys session) as [session' st] eqn:E.
  destruct st; try by apply resume_neutral.
  apply resume_neutral; [|done]. apply (Inv_sasl cfg G _ _ HI'); [done..|].
  cbn in *. pose proof (scramProvideKeys_user keys session) as Hu. rewrite E in Hu. cbn in Hu. by rewrite Hu.
Qed.

Lemma pop3_authResult_good G ok s r :
  Inv cfg G (conn s) -> authResult cfg ok s = Some r -> GoodS (G <| g_authed := ok |>) r.
Proof.
  intros [H1 H2 H3 H4 H5 H6 H7 H8]. unfold authResult.
  destruct (pending (conn s)) as [[]|] eqn:Hp; try done. intros [= <-]. specialize (H5 eq_refl).
  assert (Hs : awaitingSasl (conn s) = None).
  { destruct (awaitingSasl (conn s)); [|done]. destruct H2 as (_ & _ & [?|?]); by eauto. }
  rewrite Hs in *. destruct ok.
  - split; [done|]. constructor; cbn; rewrite ?Hs; try done. by rewrite H5.
  - apply resume_neutral; [|done]. constructor; cbn; rewrite ?Hs; try done. by rewrite H5.
Qed.

Lemma openMaildropResult_good G result s r :
  Inv cfg G (conn s) -> openMaildropResult cfg result s = Some r ->
  GoodS (trackEvent G (EvOpen result)) r.
Proof.
  intros [H1 H2 H3 H4 H5 H6 H7 H8]. unfold openMaildropResult.
  destruct (pending (conn s)) as [[]|] eqn:Hp; try done. intros [= <-].
  destruct (H6 eq_refl) as [Hst Ha].
  assert (Hs : awaitingSasl (conn s) = None).
  { destruct (awaitingSasl (conn s)); [|done]. destruct H2 as (_ & _ & [?|?]); by eauto. }
  rewrite Hs in *. destruct result as [ms|inUse].
  - apply pop3_resume_good; [done|]. rewrite track_maildrop.
    constructor; cbn; rewrite ?Hs; try done. intros _. apply marked_numbered.
  - apply resume_neutral; [|done]. constructor; cbn; rewrite ?Hs; try done. by rewrite Hst.
Qed.

Lemma Inv_resume G c :
  Inv cfg G c -> pending c <> Some PScramKeys -> Inv cfg G (c <| pending := None |>).
Proof.
  intros [H1 H2 H3 H4 H5 H6 H7 H8] Hp. constructor; cbn; try done. intros Hs.
  destruct (H2 Hs) as (? & ? & _). auto.
Qed.

Lemma retrieveResult_good G result s r :
  Inv cfg G (conn s) -> retrieveResult cfg result s = Some r -> GoodS G r.
Proof.
  intros HI. unfold retrieveResult. destruct (pending (conn s)) as [[]|] eqn:Hp; try done. intros [= <-].
  assert (HI' := Inv_resume _ _ HI). rewrite Hp in HI'.
  repeat case_match; apply resume_neutral; auto.
Qed.

Lemma commitDeletionsResult_good G ok s r :
  Inv cfg G (conn s) -> commitDeletionsResult cfg ok s = Some r -> GoodS G r.
Proof.
  intros HI. unfold commitDeletionsResult. destruct (pending (conn s)) as [[]|] eqn:Hp; try done. intros [= <-].
  assert (HI' : Inv cfg G ((conn s) <| pending := None |> <| closed := true |>)).
  { apply pop3_Inv_closed, Inv_resume; [done|]. by rewrite Hp. }
  destruct ok; [|by apply (Good_neutral cfg G _ [_; _])].
  split; [done|]. destruct HI' as [H1 H2 H3 H4 H5 H6 H7 H8]. unfold signingOff, trackAll. cbn.
  unfold trackReply. repeat case_match; by constructor.
Qed.

Lemma pop3_step_good G e s s' acts :
  Inv cfg G (conn s) -> step e s = Some (s', acts) -> GoodS (trackEvent G e) (s', acts).
Proof.
  intros HI. destruct e; cbn [step trackEvent].
  - intros [= E]. rewrite <- E. clear E. unfold feed.
    repeat case_match; try by apply GoodS_nil. by apply drain_good.
  - by apply pop3_scramKeysResult_good.
  - by apply pop3_authResult_good.
  - by apply openMaildropResult_good.
  - by apply retrieveResult_good.
  - by apply commitDeletionsResult_good.
  - intros [= <- <-]. apply GoodS_nil. destruct HI as [H1 H2 H3 H4 H5 H6 H7 H8].
    constructor; cbn; try done. intros Hs. destruct (H2 Hs) as (? & ? & ?). done.
Qed.

Lemma pop3_Session_inv tr s : Session tr s -> Inv cfg (ghostOf tr) (conn s).
Proof.
  induction 1 as [|tr s e s' acts HS IH Hstep]; [constructor; cbn; done|].
  rewrite pop3_ghostOf_snoc. by apply (pop3_step_good _ _ _ _ _ IH Hstep).
Qed.

(** *** Between calls *)

(** A partial line within the limit, or, while a backend call is out, pipelined input
    within the larger one. *)
Definition Resting s : Prop :=
  match pending (conn s) with
  | None => LF ∉ buffer s /\ len (buffer s) <= MAX_COMMAND_LINE
  | Some _ => len (buffer s) <= MAX_PIPELINE_PENDING_BYTES
  end.

Lemma drain_resting s s' a : drain cfg s = (s', a) -> closed (conn s') = false -> Resting s'.
Proof.
  intros E Hc. destruct (drain_inv cfg _ _ _ E) as (s1 & a1 & HL & H).
  destruct (closed (conn s1)) eqn:Ec; destruct H as [-> ->]; [congruence|].
  unfold guardBuffer in *. unfold Resting. apply Loop_end in HL.
  assert (HLF : pending (conn s1) = None -> LF ∉ buffer s1).
  { intros Hp. destruct HL as [HL|(t & b & _ & HL)].
    - unfold running in HL. rewrite Hp, Ec in HL. done.
    - unfold drainBody in HL. destruct (indexOf LF (buffer t)) eqn:Ei; [by destruct (dispatch _ _ _)|].
      simplify_eq. by apply indexOf_None. }
  destruct (_ <=? _) eqn:El; [|done]. bool_hyps. cbn. destruct (pending (conn s1)); auto.
Qed.

Lemma pop3_resume_resting pre c s s' a :
  resume cfg pre c s = (s', a) -> closed (conn s') = false -> Resting s'.
Proof. unfold resume. destruct (drain _ _) as [s1 b] eqn:E. intros [= <- <-]. by eapply drain_resting. Qed.

Lemma pop3_step_resting e s s' acts :
  (closed (conn s) = false -> Resting s) -> step e s = Some (s', acts) -> closed (conn s') = false -> Resting s'.
Proof.
  intros HR. destruct e; cbn [step].
  - intros [= E] Hc. revert E. unfold feed. repeat case_match; try (intros [= <- <-]; auto; congruence).
    intros E. by eapply drain_resting.
  - unfold scramKeysResult. repeat case_match; try done; intros [= E]; by eapply pop3_resume_resting.
  - unfold authResult. destruct (pending (conn s)) as [[]|] eqn:Hp; try done. destruct ok.
    + intros [= <- <-]. cbn. intros Hc. specialize (HR Hc). unfold Resting in *. by rewrite Hp in HR.
    + intros [= E]. by eapply pop3_resume_resting.
  - unfold openMaildropResult. repeat case_match; try done; intros [= E]; by eapply pop3_resume_resting.
  - unfold retrieveResult. repeat case_match; try done; intros [= E]; by eapply pop3_resume_resting.
  - unfold commitDeletionsResult. repeat case_match; try done; by intros [= <- <-].
  - intros [= <- <-]. exact HR.
Qed.

Lemma pop3_Session_resting tr s : Session tr s -> closed (conn s) = false -> Resting s.
Proof.
  induction 1 as [|tr s e s' acts HS IH Hstep]; [|by eapply pop3_step_resting].
  intros _. split; [apply not_elem_of_nil|done].
Qed.

(** *** Segmentation *)

(** The state with another decoder and more input. *)
Definition extend d (t : jsstr) s : Pop3 := {| decoder := d; buffer := buffer s ++ t; conn := conn s |}.

Lemma drainBody_extend d t s s1 a :
  drainBody cfg s = (s1, a, true) -> drainBody cfg (extend d t s) = (extend d t s1, a, true).
Proof.
  unfold drainBody. cbn. destruct (indexOf LF (buffer s)) as [idx|] eqn:Ei; [|done].
  rewrite (indexOf_app_l _ _ t _ Ei). apply indexOf_lt in Ei.
  rewrite take_app_le, drop_app_le by lia.
  destruct (dispatch _ _ _) as [c acts]. by intros [= <- <-].
Qed.

Lemma loop_extend s a s1 d t b s2 :
  Loop running (drainBody cfg) s a s1 ->
  Loop running (drainBody cfg) (extend d t s1) b s2 ->
  Loop running (drainBody cfg) (extend d t s) (a ++ b) s2.
Proof.
  induction 1 as [s Hc|s s' a Hc Hb|s s0 a a' s3 Hc Hb HL IH]; intros H2; [done|..].
  - unfold drainBody in Hb. destruct (indexOf LF (buffer s)); [by destruct (dispatch _ _ _)|].
    by simplify_eq.
  - rewrite <- app_assoc. eapply loop_next; [exact Hc|by apply drainBody_extend|auto].
Qed.

Lemma loop_decoder s a s1 : Loop running (drainBody cfg) s a s1 -> decoder s1 = decoder s.
Proof.
  induction 1 as [s Hc|s s' a Hc Hb|s s0 a a' s3 Hc Hb HL IH]; [done|..]; [|rewrite IH];
    unfold drainBody in Hb; destruct (indexOf LF (buffer s)); try (destruct (dispatch _ _ _));
    by simplify_eq.
Qed.

Lemma drain_extend s s1 a d t :
  drain cfg s = (s1, a) -> closed (conn s1) = false ->
  drain cfg (extend d t s) = (let '(s2, b) := drain cfg (extend d t s1) in (s2, a ++ b)) /\
  decoder s1 = decoder s.
Proof.
  intros E Hc. destruct (drain_inv cfg _ _ _ E) as (s0 & a0 & HL & H).
  assert (s1 = s0 /\ a = a0) as [-> ->].
  { destruct (closed (conn s0)); [done|]. destruct H as [-> ->]. revert Hc. unfold guardBuffer.
    destruct (_ <=? _); cbn; [by rewrite app_nil_r|done]. }
  split; [|by eapply loop_decoder]. pose proof (drain_loop cfg (extend d t s0)) as HL2.
  rewrite (drain_intro cfg _ _ _ HL2), (drain_intro cfg _ _ _ (loop_extend _ _ _ _ _ _ _ HL HL2)).
  set (r := whileFuel _ _ _ _). destruct (closed (conn r.1)); [done|]. by rewrite <- app_assoc.
Qed.
End Sessions.

(** ** What a client reads of a multi-line reply

    The client's side of RFC 1939: lines end in CRLF, a lone dot ends the reply, and a
    leading dot is removed.  [None] when the reply is not complete. *)

Fixpoint readBody (fuel : nat) (bs : bytes) : option (list bytes * bytes) :=
  match fuel with
  | O => None
  | S f =>
      match indexOfCRLF bs with
      | None => None
      | Some i =>
          let line := take i bs in
          let rest := drop (i + 2) bs in
          if line === [DOT] then Some ([], rest)
          else
            '(ls, r) ← readBody f rest;
            Some ((match line with c :: l => if c =? DOT then l else line | [] => [] end) :: ls, r)
      end
  end.

(** The status line, the lines of the body, and what follows the reply. *)
Definition readMultiline (bs : bytes) : option (bytes * list bytes * bytes) :=
  i ← indexOfCRLF bs;
  '(ls, r) ← readBody (S (length bs)) (drop (i + 2) bs);
  Some (take i bs, ls, r).

Lemma no_lf_no_crlf l : LF ∉ l -> no_crlf l.
Proof.
  unfold no_crlf. induction l as [|x l IH]; [done|]. intros [Hx Hl]%not_elem_of_cons. cbn -[Z.eqb].
  destruct l as [|y l]; [by rewrite andb_false_r|].
  apply not_elem_of_cons in Hl as [Hy Hl].
  rewrite (proj2 (Z.eqb_neq y LF)) by congruence. rewrite andb_false_r, IH; [done|].
  by apply not_elem_of_cons.
Qed.

Lemma stripCr_no_lf l : LF ∉ l -> LF ∉ stripCr l.
Proof.
  unfold stripCr. destruct (endsWith1 CR l); [|done]. intros H Hin. apply H.
  destruct (exists_last (l := l)) as (l' & x & ->); [by intros ->|]. rewrite removelast_last in Hin.
  apply elem_of_app. by left.
Qed.

Lemma splitLines_no_lf bs : Forall (fun l => LF ∉ l) (splitLines bs).
Proof.
  unfold splitLines. enough (H : forall acc, LF ∉ acc -> Forall (fun l => LF ∉ l) (splitLinesFrom acc bs))
    by (apply H, not_elem_of_nil).
  induction bs as [|b bs IH]; intros acc Ha; cbn -[Z.eqb]; [destruct acc; by repeat constructor|].
  destruct (Z.eqb_spec b LF).
  - constructor; [by apply stripCr_no_lf|]. apply IH, not_elem_of_nil.
  - apply IH. rewrite elem_of_app, list_elem_of_singleton. by intros [?|?].
Qed.

Lemma splitLinesFrom_line acc l rest :
  LF ∉ l -> splitLinesFrom acc (l ++ LF :: rest) = stripCr (acc ++ l) :: splitLinesFrom [] rest.
Proof.
  revert acc; induction l as [|x l IH]; intros acc; cbn -[Z.eqb]; [by rewrite app_nil_r|].
  intros [Hx Hl]%not_elem_of_cons. rewrite (proj2 (Z.eqb_neq x LF)) by congruence.
  by rewrite IH, <- app_assoc.
Qed.

Lemma stripCr_snoc l : stripCr (l ++ [CR]) = l.
Proof. unfold stripCr, endsWith1. rewrite last_snoc, Z.eqb_refl. apply removelast_last. Qed.

(** A message of CRLF-terminated lines is split into its lines. *)
Lemma splitLines_body ls : Forall (fun l => LF ∉ l) ls -> splitLines (bodyOf ls) = ls.
Proof.
  unfold splitLines. induction 1 as [|l ls Hl Hls IH]; [done|].
  assert (bodyOf (l :: ls) = (l ++ [CR]) ++ LF :: bodyOf ls) as ->
    by (unfold bodyOf; cbn [flat_map]; by rewrite <- !app_assoc).
  rewrite splitLinesFrom_line, app_nil_l, stripCr_snoc, IH; [done|].
  rewrite elem_of_app, list_elem_of_singleton. by intros [?|?].
Qed.

Lemma undot_stuffLine l :
  match stuffLine l with c :: r => if c =? DOT then r else stuffLine l | [] => [] end = l.
Proof.
  unfold stuffLine. destruct l as [|x l]; [done|]. cbn [startsWith].
  destruct (Z.eqb_spec DOT x) as [<-|Hx]; cbn [andb]; [done|]. by rewrite (proj2 (Z.eqb_neq x DOT)).
Qed.

Lemma readBody_stuffed ls fuel rest :
  Forall (fun l => LF ∉ l) ls -> (length ls < fuel)%nat ->
  readBody fuel (flat_map (fun l => stuffLine l ++ crlf) ls ++ TERMINATOR ++ rest) = Some (ls, rest).
Proof.
  intros Hls. revert fuel; induction Hls as [|l ls Hl Hls IH]; intros [|fuel] Hf; cbn in Hf; try lia; [done|].
  cbn [flat_map readBody]. rewrite <- !app_assoc.
  rewrite indexOfCRLF_line by (by apply stuffLine_no_crlf, no_lf_no_crlf).
  rewrite take_line, drop_line. rewrite (proj2 (seqb_neq _ _) (stuffLine_not_dot l)).
  rewrite (IH fuel) by lia. cbn [mbind option_bind]. by rewrite undot_stuffLine.
Qed.

Lemma flat_map_length_le (ls : list bytes) :
  (length ls <= length (flat_map (fun l => stuffLine l ++ crlf) ls))%nat.
Proof. induction ls as [|l ls IH]; [done|]. cbn [flat_map length]. rewrite !length_app. cbn. lia. Qed.

Lemma readMultiline_build st ls rest :
  no_crlf (utf8Encode st) -> utf8Encode (st ++ crlf) = utf8Encode st ++ crlf ->
  Forall (fun l => LF ∉ l) ls ->
  readMultiline (buildMultilineBinary st ls ++ rest) = Some (utf8Encode st, ls, rest).
Proof.
  intros Hst He Hls. unfold readMultiline, buildMultilineBinary. rewrite He, <- !app_assoc.
  rewrite indexOfCRLF_line by done. cbn [mbind option_bind]. rewrite drop_line, take_line.
  rewrite readBody_stuffed; [done..|]. rewrite !length_app. pose proof (flat_map_length_le ls). lia.
Qed.

(** ** Properties *)

Section Properties.
Context {SS : ScramServer} {R : Type} (cfg : Pop3Config).
Implicit Types (s : Pop3 (R := R)) (tr : list (Event (R := R) * list (Pop3Action (R := R)))).

Lemma actsOk_middle G pre a post : actsOk (R := R) cfg G (pre ++ a :: post) -> actionOk cfg (trackAll G pre) a.
Proof. rewrite pop3_actsOk_app. by intros (_ & H & _). Qed.

(** C2: QUIT hands the backend exactly the messages the client was told are deleted.
    Whenever [commitDeletions] is emitted, the backend has confirmed the credentials
    and opened a maildrop, and the action lists, in maildrop order, the messages whose
    numbers appeared in a [+OK message n deleted] reply sent since the maildrop was
    last announced (on opening, or by RSET): nothing unconfirmed is removed and nothing
    confirmed is kept. *)
Theorem pop3_commit_confirmed tr s e s' pre l post :
  Session cfg tr s -> step cfg e s = Some (s', pre ++ ACommitDeletions l :: post) ->
  let G := trackAll (trackEvent (ghostOf cfg tr) e) pre in
  g_authed G = true /\ exists ms, g_drop G = Some ms /\ l = pick 1 ms (g_del G).
Proof.
  intros HS Hstep. destruct (pop3_step_good cfg _ _ _ _ _ (pop3_Session_inv cfg _ _ HS) Hstep) as [Ha _].
  exact (actsOk_middle _ _ _ _ Ha).
Qed.

(** C8: Credentials only travel on a protected line, and the maildrop is only reached
    through the backend's approval.  A password, a token or a SCRAM exchange reaches
    the backend only on a TLS line or when insecure authentication was enabled; a
    verified SCRAM user is the one whose keys were looked up; the maildrop is opened
    only after the backend accepted the credentials; and RETR and TOP ask only for
    messages of the opened maildrop that are not marked deleted. *)
Theorem pop3_auth_gated tr s e s' pre a post :
  Session cfg tr s -> step cfg e s = Some (s', pre ++ a :: post) ->
  let G := trackAll (trackEvent (ghostOf cfg tr) e) pre in
  match a with
  | AAuth _ _ | AScramKeys _ => g_tls G || allowInsecureAuth cfg = true
  | AAuthVerified u => g_tls G || allowInsecureAuth cfg = true /\ g_lookup G = Some u
  | AOpenMaildrop => g_authed G = true
  | ARetrieve n =>
      g_authed G = true /\ exists ms, g_drop G = Some ms /\ 1 <= n <= len ms /\ n ∉ g_del G
  | _ => True
  end.
Proof.
  intros HS Hstep. destruct (pop3_step_good cfg _ _ _ _ _ (pop3_Session_inv cfg _ _ HS) Hstep) as [Ha _].
  apply actsOk_middle in Ha. by destruct a.
Qed.

(** The input loop ends and the buffer stays bounded: [drain] runs the unbounded
    loop of the source to its end and then applies the guard, and between calls an open
    connection holds at most one incomplete line of at most 4096 characters, or, while
    a backend call is outstanding, at most 1 MiB of pipelined input. *)
Theorem pop3_buffer_bounded tr s :
  Session cfg tr s ->
  (closed (conn s) = false ->
   match pending (conn s) with
   | None => LF ∉ buffer s /\ len (buffer s) <= MAX_COMMAND_LINE
   | Some _ => len (buffer s) <= MAX_PIPELINE_PENDING_BYTES
   end) /\
  (forall a s1, Loop running (drainBody cfg) s a s1 <->
     whileFuel running (drainBody cfg) (S (length (buffer s))) s = (s1, a)).
Proof.
  intros HS. split; [by apply (pop3_Session_resting cfg tr)|]. intros a s1.
  pose proof (drain_loop cfg s) as HL. split.
  - intros HL'. destruct (While_det _ _ _ _ _ _ _ HL' HL) as [-> ->]. apply surjective_pairing.
  - intros E. by rewrite E in HL.
Qed.

(** The replies do not depend on how the network cuts the byte stream, even inside
    a UTF-8 character: feeding two chunks gives the same state and the same actions as
    feeding their concatenation, as long as the first chunk neither closes the
    connection nor starts TLS. *)
Theorem pop3_feed_segmentation c1 c2 s :
  awaitingTls (conn s) = false -> closed (conn s) = false ->
  awaitingTls (conn (fst (feed cfg c1 s))) = false -> closed (conn (fst (feed cfg c1 s))) = false ->
  feed cfg (c1 ++ c2) s =
  (let '(s1, a1) := feed cfg c1 s in let '(s2, a2) := feed cfg c2 s1 in (s2, a1 ++ a2)).
Proof.
  intros Ht Hc. unfold feed. rewrite Ht, Hc, decodeStream_app.
  destruct (decodeStream (decoder s) c1) as [d1 t1] eqn:E1.
  destruct (decodeStream d1 c2) as [d2 t2] eqn:E2.
  destruct (drain cfg {| decoder := d1; buffer := buffer s ++ t1; conn := conn s |}) as [s1 a1] eqn:Ed.
  cbn [fst]. intros Ht1 Hc1. rewrite Ht1, Hc1.
  destruct (drain_extend cfg _ _ _ d2 t2 Ed Hc1) as [Hx Hd]. cbn in Hd. rewrite Hd, E2.
  unfold extend in Hx. cbn [buffer conn] in Hx. by rewrite <- app_assoc in Hx.
Qed.

Lemma numToString_ascii n : 0 <= n -> is_ascii (numToString n).
Proof.
  intros Hn. apply Forall_forall. intros x Hx.
  pose proof (isDigits_elem _ _ (numToString_digits n Hn) Hx). lia.
Qed.

Lemma ascii_js_app p (t : jsstr) : forallb (fun c => (0 <=? c) && (c <? 128)) p = true -> is_ascii t -> is_ascii (p ++ t).
Proof.
  intros Hp Ht. apply Forall_app. split; [|done]. apply Forall_forall. intros x Hx.
  rewrite forallb_forall in Hp. apply list_elem_of_In, Hp in Hx. bool_hyps. lia.
Qed.

(** The status line and the lines that answer a retrieval. *)
Definition retrieveStatus (m : SessionMessage (R := R)) (mode : RetrieveMode) : jsstr :=
  match mode with
  | ModeRetr => js "+OK " ++ numToString (sizeBytes (msg m)) ++ js " octets"
  | ModeTop _ => js "+OK top of message follows"
  end.

Definition retrieveLines (mode : RetrieveMode) (ls : list bytes) : list bytes :=
  match mode with ModeRetr => ls | ModeTop n => topLines ls n end.

Lemma retrieveReply_build m mode bs :
  retrieveReply m mode bs = buildMultilineBinary (retrieveStatus m mode) (retrieveLines mode (splitLines bs)).
Proof. by destruct mode. Qed.

Lemma retrieveStatus_ascii m mode :
  0 <= sizeBytes (msg m) -> is_ascii (retrieveStatus m mode) /\ LF ∉ retrieveStatus m mode.
Proof.
  intros Hn. destruct mode; cbn [retrieveStatus].
  - split.
    + apply ascii_js_app; [done|]. apply Forall_app. split; [by apply numToString_ascii|].
      rewrite <- (app_nil_r (js " octets")). apply ascii_js_app; [done|constructor].
    + rewrite !elem_of_app. intros [H|[H|H]].
      * revert H. by apply lit_notin.
      * pose proof (isDigits_elem _ _ (numToString_digits _ Hn) H). unfold LF in *. lia.
      * revert H. by apply lit_notin.
  - split; [|by apply lit_notin]. rewrite <- (app_nil_r (js _)). apply ascii_js_app; [done|constructor].
Qed.

Lemma sliceTo_prefix {A} n (l : list A) : exists k, sliceTo n l = take k l.
Proof.
  destruct n; cbn [sliceTo]; try (exists (length l); symmetry; by apply take_ge).
  case_match; eauto. exists (length l). symmetry. by apply take_ge.
Qed.

Lemma findBlank_spec ls i : findBlank ls = Some i -> ls !! i = Some [].
Proof.
  revert i; induction ls as [|[|x l] ls IH]; intros i; cbn; [done|by intros [= <-]|].
  intros (j & Hj & ->)%fmap_Some. by apply IH.
Qed.

(** TOP sends a prefix of the message's lines. *)
Lemma topLines_prefix ls n : exists k, topLines ls n = take k ls.
Proof.
  unfold topLines. destruct (findBlank ls) as [i|] eqn:Ei;
    [change (default (length ls) (Some i)) with i|change (default (length ls) None) with (length ls)].
  - apply findBlank_spec in Ei as Hi. pose proof (lookup_lt_Some _ _ _ Hi) as Hlt.
    rewrite (proj2 (Nat.ltb_lt _ _) Hlt). destruct (sliceTo_prefix n (drop (S i) ls)) as [k ->].
    exists (S i + k)%nat. rewrite <- (take_drop_middle ls i [] Hi) at 3.
    rewrite take_app, length_take, (take_ge (take i ls)) by (rewrite length_take; lia).
    replace (S i + k - i `min` length ls)%nat with (S k) by lia. done.
  - rewrite Nat.ltb_irrefl, app_nil_r, take_ge by done. exists (length ls). by rewrite take_ge.
Qed.

Lemma retrieveLines_no_lf mode bs : Forall (fun l => LF ∉ l) (retrieveLines mode (splitLines bs)).
Proof.
  destruct mode as [|n]; [apply splitLines_no_lf|]. cbn. destruct (topLines_prefix (splitLines bs) n) as [k ->].
  apply Forall_take, splitLines_no_lf.
Qed.

Lemma findBlank_header h b : Forall (fun l => l <> []) h -> findBlank (h ++ [] :: b) = Some (length h).
Proof. induction 1 as [|[|x l] h Hx Hh IH]; cbn; [done..|]. by rewrite IH. Qed.

Lemma topLines_header h b n :
  Forall (fun l => l <> []) h -> topLines (h ++ [] :: b) (NumInt n) = h ++ [] :: take (Z.to_nat n) b.
Proof.
  intros Hh. unfold topLines. rewrite findBlank_header by done.
  change (default _ (Some (length h))) with (length h).
  rewrite (proj2 (Nat.ltb_lt _ _)) by (rewrite length_app; cbn; lia).
  rewrite take_app_length, drop_app_ge by lia. replace (S (length h) - length h)%nat with 1%nat by lia.
  change (drop 1 ([] :: b)) with b. cbn [sliceTo].
  destruct (Z.leb_spec (len b) n); [|done]. rewrite take_ge; [done|]. unfold len in *. lia.
Qed.

(** A retrieved message survives the byte-stuffed transfer.  The reply to RETR is
    read back by a client of RFC 1939 as exactly the lines of the stored message (for a
    message of CRLF-terminated lines, those lines), and the reply to [TOP num n] as its
    header, the blank line and the first [n] lines of its body; the client finds the
    end of the reply, whatever follows it, and dots at the start of lines come back
    unchanged. *)
Theorem pop3_retrieve_roundtrip s num mode m body s' acts :
  pending (conn s) = Some (PRetrieve num mode) ->
  findMessage (NumInt num) (messages (conn s)) = Some m -> 0 <= sizeBytes (msg m) ->
  retrieveResult cfg (Some body) s = Some (s', acts) ->
  exists bs post lines, acts = AReplyBinary bs :: post /\
    (forall rest, readMultiline (bs ++ rest) = Some (retrieveStatus m mode, lines, rest)) /\
    (mode = ModeRetr -> lines = splitLines body) /\
    (forall n h b, mode = ModeTop (NumInt n) -> Forall (fun l => l <> []) h ->
       splitLines body = h ++ [] :: b -> lines = h ++ [] :: take (Z.to_nat n) b) /\
    (forall ls, Forall (fun l => LF ∉ l) ls -> body = bodyOf ls -> splitLines body = ls).
Proof.
  intros Hp Hm Hn. unfold retrieveResult. rewrite Hp. cbn. rewrite Hm. intros [= E].
  unfold resume in E. destruct (drain _ _) as [s1 b]. simplify_eq.
  destruct (retrieveStatus_ascii m mode Hn) as [Ha Hl].
  eexists _, _, (retrieveLines mode (splitLines body)). split; [done|]. split; [|split; [|split]].
  - intros rest. rewrite retrieveReply_build, readMultiline_build; rewrite ?utf8Encode_ascii; try done.
    + by apply no_lf_no_crlf.
    + apply Forall_app. split; [done|]. repeat constructor; unfold CR, LF; lia.
    + apply retrieveLines_no_lf.
  - by intros ->.
  - intros n h b' -> Hh Hs. cbn. rewrite Hs. by apply topLines_header.
  - intros ls Hls ->. by apply splitLines_body.
Qed.

(** The connection after STLS and the handshake, when [p] followed the STLS line. *)
Definition afterStls (p : bytes) : Pop3 (R := R) :=
  tlsEstablished (fst (feed cfg (js "STLS" ++ crlf ++ p) (initial cfg))).

Definition stlsConn : Conn (R := R) :=
  {| state := AUTHORIZATION; secure := true; awaitingTls := false; pending := None; closed := false;
     username := None; messages := []; awaitingSasl := None; nonceIdx := 0 |}.

Lemma running_conn s : pending (conn s) = None -> closed (conn s) = false -> running s = true.
Proof. unfold running. by intros -> ->. Qed.

(** One line, and nothing after it. *)
Lemma drain_line d line rest c :
  LF ∉ line -> LF ∉ rest -> len rest <= MAX_COMMAND_LINE -> pending c = None -> closed c = false ->
  let r := dispatch cfg line c in
  pending r.1 = None \/ rest = [] ->
  drain cfg {| decoder := d; buffer := line ++ crlf ++ rest; conn := c |}
    = ({| decoder := d; buffer := rest; conn := r.1 |} : Pop3 (R := R), r.2).
Proof.
  intros Hl Hr Hlen Hp Hc r Hend.
  set (s := {| decoder := d; buffer := line ++ crlf ++ rest; conn := c |}).
  assert (Hb : drainBody cfg s = ({| decoder := d; buffer := rest; conn := r.1 |}, r.2, true)).
  { unfold drainBody, s. cbn [buffer conn decoder].
    replace (line ++ crlf ++ rest) with ((line ++ [CR]) ++ LF :: rest) by (by rewrite <- app_assoc).
    rewrite indexOf_app_notin by (rewrite elem_of_app, list_elem_of_singleton; by intros [?|?]).
    rewrite take_app_length, drop_after, stripCr_snoc. fold r. by destruct r. }
  assert (HL : Loop running (drainBody cfg) s r.2 {| decoder := d; buffer := rest; conn := r.1 |}).
  { rewrite <- (app_nil_r r.2). eapply loop_next; [by apply running_conn|exact Hb|].
    destruct (running ({| decoder := d; buffer := rest; conn := r.1 |} : Pop3 (R := R))) eqn:Er; [|by apply loop_stop]. apply loop_break; [done|].
    unfold drainBody. cbn [buffer]. by rewrite (proj2 (indexOf_None LF rest) Hr). }
  rewrite (drain_intro cfg _ _ _ HL). cbn [conn]. destruct (closed r.1); [done|].
  unfold guardBuffer. cbn [buffer conn].
  assert (len rest <= match pending r.1 with Some _ => MAX_PIPELINE_PENDING_BYTES | None => MAX_COMMAND_LINE end) as H.
  { destruct Hend as [-> | ->]; [done|]. destruct (pending r.1); by vm_compute. }
  apply Z.leb_le in H. rewrite H. by rewrite app_nil_r.
Qed.

(** What a client sends in clear right behind STLS is executed after the handshake.
    The bytes [p] that arrive in the same chunk as the STLS command, without a line
    ending, stay in the input buffer; [tlsEstablished] does not drop them, and the
    first line ending received over TLS completes them to a command of the protected
    session. *)
Theorem pop3_stls_buffer_survives p :
  initiallySecure cfg = false -> tlsAvailable cfg = true ->
  is_ascii p -> LF ∉ p -> len p <= MAX_COMMAND_LINE ->
  snd (feed cfg (js "STLS" ++ crlf ++ p) (initial cfg : Pop3 (R := R)))
    = [reply "+OK Begin TLS negotiation"; AStartTls] /\
  conn (afterStls p) = stlsConn /\ buffer (afterStls p) = p /\
  feed cfg crlf (afterStls p)
    = ({| decoder := decoder (afterStls p); buffer := []; conn := fst (handleLine cfg p stlsConn) |},
       snd (handleLine cfg p stlsConn)).
Proof.
  intros Hs Ht Ha Hl Hp.
  assert (Hfeed : feed cfg (js "STLS" ++ crlf ++ p) (initial cfg : Pop3 (R := R))
    = ({| decoder := {| td_state := utf8Init; td_bomSeen := true |}; buffer := p;
          conn := (initialConn cfg) <| awaitingTls := true |> |},
       [reply "+OK Begin TLS negotiation"; AStartTls])).
  { unfold feed. cbn [awaitingTls closed conn initial initialConn decoder buffer]. unfold newTextDecoder.
    rewrite decodeStream_ascii; [|by apply ascii_js_app; [done|apply ascii_js_app]|done].
    rewrite app_nil_l.
    assert (Hd : dispatch cfg (js "STLS") (initialConn cfg : Conn (R := R))
      = ((initialConn cfg) <| awaitingTls := true |>, [reply "+OK Begin TLS negotiation"; AStartTls])).
    { change (dispatch cfg (js "STLS") (initialConn cfg : Conn (R := R))) with (cmdStls cfg (initialConn cfg : Conn (R := R))).
      unfold cmdStls, starttlsOffered. cbn. by rewrite Hs, Ht. }
    rewrite drain_line; rewrite ?Hd; try done; [by apply lit_notin|by left]. }
  assert (Haft : afterStls p = {| decoder := {| td_state := utf8Init; td_bomSeen := true |}; buffer := p;
                                  conn := stlsConn |}).
  { unfold afterStls. by rewrite Hfeed. }
  rewrite Haft, Hfeed. split; [done|]. split; [done|]. split; [done|].
  unfold feed. cbn [awaitingTls closed conn decoder buffer stlsConn].
  rewrite decodeStream_ascii; [|by repeat constructor|done].
  change (p ++ crlf) with (p ++ crlf ++ []).
  rewrite drain_line; try done; [|by right]. apply not_elem_of_nil.
Qed.
End Properties.

(** ** A scripted connection, on which the hypotheses above hold *)

#[local] Existing Instance toyCrypto.

(** References are numbers here. *)
Abbreviation Ev := (Event (R := Z)).
Abbreviation Act := (Pop3Action (R := Z)).

Fixpoint run (cfg : Pop3Config) (evs : list Ev) (tr : list (Ev * list Act)) (s : Pop3 (R := Z))
    : option (list (Ev * list Act) * Pop3 (R := Z)) :=
  match evs with
  | [] => Some (tr, s)
  | e :: evs =>
      match step cfg e s with
      | Some (s', acts) => run cfg evs (tr ++ [(e, acts)]) s'
      | None => None
      end
  end.

Lemma pop3_run_session cfg evs tr s tr' s' :
  Session cfg tr s -> run cfg evs tr s = Some (tr', s') -> Session cfg tr' s'.
Proof.
  revert tr s; induction evs as [|e evs IH]; intros tr s HS; cbn; [by intros [= <- <-]|].
  destruct (step cfg e s) as [[s1 acts]|] eqn:E; [|done].
  intros H. eapply IH; [|exact H]. by eapply session_step.
Qed.

Definition cfg0 : Pop3Config :=
  {| hostname := js "pop"; initiallySecure := false; tlsAvailable := true; scramOffered := true;
     scramDecoySecret := [9]; allowInsecureAuth := false; nonces := fun n => [Z.of_nat n] |}.

Definition cmd (s : string) : bytes := js s ++ crlf.

Definition maildrop0 : list (Pop3EngineMessage (R := Z)) :=
  [{| uidl := js "u1"; sizeBytes := 10; ref := 1 |}; {| uidl := js "u2"; sizeBytes := 20; ref := 2 |}].

(** STLS, USER and PASS, the maildrop opened, and the second message deleted. *)
Definition script0 : list Ev :=
  [EvFeed (cmd "STLS"); EvTls; EvFeed (cmd "USER kim" ++ cmd "PASS pw" ++ js "DELE "); EvAuth true;
   EvOpen (OpenOk maildrop0); EvFeed (cmd "2" ++ js "TO")].

Definition ran (evs : list Ev) : list (Ev * list Act) * Pop3 (R := Z) :=
  default ([], initial cfg0) (run cfg0 evs [] (initial cfg0)).

Lemma pop3_ran_session evs :
  bool_decide (is_Some (run cfg0 evs [] (initial cfg0))) = true -> Session cfg0 (ran evs).1 (ran evs).2.
Proof.
  intros H%bool_decide_eq_true. unfold ran. destruct (run cfg0 evs [] (initial cfg0)) as [[tr s]|] eqn:E.
  - apply (pop3_run_session cfg0 evs [] (initial cfg0)); [constructor|done].
  - by destruct H.
Qed.

Lemma pop3_feed_step s c acts :
  snd (feed cfg0 c s) = acts -> step (R := Z) cfg0 (EvFeed c) s = Some (fst (feed cfg0 c s), acts).
Proof. intros <-. cbn. by destruct (feed cfg0 c s). Qed.

Lemma pop3_commit_confirmed_witness :
  let evs := script0 ++ [EvFeed (cmd "P 1 0")] ++ [EvRetrieve None] in
  let G := trackAll (trackEvent (ghostOf cfg0 (ran evs).1) (EvFeed (cmd "QUIT"))) [] in
  g_authed G = true /\
  exists ms, g_drop G = Some ms /\ [{| uidl := js "u2"; sizeBytes := 20; ref := 2 |}] = pick 1 ms (g_del G).
Proof.
  intros evs.
  apply (pop3_commit_confirmed cfg0 (ran evs).1 (ran evs).2 (EvFeed (cmd "QUIT"))
    (fst (feed cfg0 (cmd "QUIT") (ran evs).2)) []
    [{| uidl := js "u2"; sizeBytes := 20; ref := 2 |}] []).
  - apply pop3_ran_session. vm_compute. reflexivity.
  - apply pop3_feed_step. vm_compute. reflexivity.
Defined.

Lemma pop3_auth_gated_witness :
  let G := trackAll (trackEvent (ghostOf cfg0 (ran script0).1) (EvFeed (cmd "P 1 0"))) [] in
  g_authed G = true /\ exists ms, g_drop G = Some ms /\ 1 <= 1 <= len ms /\ 1 ∉ g_del G.
Proof.
  apply (pop3_auth_gated cfg0 (ran script0).1 (ran script0).2 (EvFeed (cmd "P 1 0"))
    (fst (feed cfg0 (cmd "P 1 0") (ran script0).2)) [] (ARetrieve 1) []).
  - apply pop3_ran_session. vm_compute. reflexivity.
  - apply pop3_feed_step. vm_compute. reflexivity.
Defined.

Lemma pop3_buffer_bounded_witness :
  LF ∉ js "TO" /\ len (js "TO") <= MAX_COMMAND_LINE.
Proof.
  pose proof (proj1 (pop3_buffer_bounded cfg0 (ran script0).1 (ran script0).2
    (pop3_ran_session script0 ltac:(vm_compute; reflexivity)))) as H.
  specialize (H ltac:(vm_compute; reflexivity)).
  assert (Hp : pending (conn (ran script0).2) = None) by (vm_compute; reflexivity).
  assert (Hb : buffer (ran script0).2 = js "TO") by (vm_compute; reflexivity).
  rewrite Hp, Hb in H. exact H.
Defined.

Lemma pop3_feed_segmentation_witness :
  feed cfg0 (js "P 1" ++ cmd " 0") (ran script0).2 =
  (let '(s1, a1) := feed cfg0 (js "P 1") (ran script0).2 in
   let '(s2, a2) := feed cfg0 (cmd " 0") s1 in (s2, a1 ++ a2)).
Proof.
  apply (pop3_feed_segmentation cfg0 (js "P 1") (cmd " 0") (ran script0).2); vm_compute; reflexivity.
Defined.

Definition retrieving : Pop3 (R := Z) := (ran (script0 ++ [EvFeed (cmd "P 1 1")])).2.
Definition message0 : bytes := bodyOf [js "S: x"; []; js ".a"; js "b"].

Lemma pop3_retrieve_roundtrip_witness :
  exists bs post lines,
    snd (default (retrieving, []) (retrieveResult cfg0 (Some message0) retrieving)) = AReplyBinary bs :: post /\
    (forall rest, readMultiline (bs ++ rest) = Some (js "+OK top of message follows", lines, rest)) /\
    lines = [js "S: x"; []; js ".a"].
Proof.
  destruct (pop3_retrieve_roundtrip cfg0 retrieving 1 (ModeTop (NumInt 1))
    {| msg := {| uidl := js "u1"; sizeBytes := 10; ref := 1 |}; msgnum := 1; deleted := false |} message0
    (fst (default (retrieving, []) (retrieveResult cfg0 (Some message0) retrieving)))
    (snd (default (retrieving, []) (retrieveResult cfg0 (Some message0) retrieving))))
    as (bs & post & lines & H1 & H2 & _ & H3 & _).
  - vm_compute. reflexivity.
  - vm_compute. reflexivity.
  - vm_compute. congruence.
  - unfold retrieveResult. assert (pending (conn retrieving) = Some (PRetrieve 1 (ModeTop (NumInt 1)))) as ->
      by (vm_compute; reflexivity). cbn. by destruct (findMessage _ _), (resume _ _ _ _).
  - exists bs, post, lines. split; [done|]. split; [exact H2|].
    apply (H3 1 [js "S: x"] [js ".a"; js "b"]); [done|by repeat constructor|by vm_compute].
Defined.

(** The name sent in clear behind STLS becomes the user of the protected session. *)
Lemma pop3_stls_buffer_survives_witness :
  username (conn (fst (feed cfg0 crlf (afterStls (R := Z) cfg0 (js "USER mallory"))))) = Some (js "mallory").
Proof.
  destruct (pop3_stls_buffer_survives (R := Z) cfg0 (js "USER mallory")) as (_ & _ & _ & ->).
  - reflexivity.
  - reflexivity.
  - rewrite <- (app_nil_r (js _)). apply ascii_js_app; [reflexivity|constructor].
  - by apply lit_notin.
  - by vm_compute.
  - vm_compute. reflexivity.
Defined.
