(* ===== verification/Srs.v ===== *)
(** * The Sender Rewriting Scheme (packages/srs/src/srs.ts)

    Forwarded mail gets an envelope sender of the forwarder's own domain, signed and
    dated, so that bounces come back and can be mapped to the original sender.  HMAC is
    the class [NodeCrypto]; the clock is an argument in milliseconds. *)

From S2P Require Import Prelude JsString Text Sasl Scram.

Definition B32 : jsstr := js "ABCDEFGHIJKLMNOPQRSTUVWXYZ234567".
Definition TS_PRECISION_DAYS : Z := 1024.
Definition MS_PER_DAY : Z := 86400000.
Definition HASH_LEN : nat := 12.
Definition DEFAULT_MAX_AGE_DAYS : Z := 21.
Definition EQ : Z := 61.
Definition AT : Z := 64.

(** ** Base32 *)

(** One unit of [normalizeB32]: upper case, or [None] outside the alphabet. *)
Definition normalizeUnit (u : Z) : option Z :=
  let c := if (97 <=? u) && (u <=? 122) then u - 32 else u in
  let isAlpha := (65 <=? c) && (c <=? 90) in
  let isDigit := (50 <=? c) && (c <=? 55) in
  if negb isAlpha && negb isDigit then None else Some c.

Fixpoint normalizeB32 (s : jsstr) : option jsstr :=
  match s with
  | [] => Some []
  | u :: s' => c ← normalizeUnit u; r ← normalizeB32 s'; Some (c :: r)
  end.

(** [B32[i]!] *)
Definition b32Char (i : Z) : Z := nth (Z.to_nat i) B32 0.

(** The inner [while (bits >= 5)]; [true] when the function returned. *)
Fixpoint b32While (fuel : nat) (l : nat) (acc bits : Z) (out : jsstr) : Z * jsstr * bool :=
  match fuel with
  | O => (bits, out, false)
  | S f =>
      if 5 <=? bits then
        let bits := bits - 5 in
        let out := out ++ [b32Char (Z.land (Z.shiftr acc bits) 31)] in
        if (length out =? l)%nat then (bits, out, true) else b32While f l acc bits out
      else (bits, out, false)
  end.

(** The loop over the bytes.  [bits] is below 5 between bytes, so the inner loop runs
    at most twice. *)
Fixpoint b32Loop (l : nat) (bs : bytes) (acc bits : Z) (out : jsstr) : jsstr :=
  match bs with
  | [] => out
  | b :: bs' =>
      let acc := Z.lor (Z.shiftl acc 8) b in
      let '(bits, out, returned) := b32While 3 l acc (bits + 8) out in
      if returned then out else b32Loop l bs' (Z.land acc (Z.shiftl 1 bits - 1)) bits out
  end.

Definition base32Encode (bs : bytes) (l : nat) : jsstr := b32Loop l bs 0 0 [].

(** ** Timestamps *)

(** [Math.floor(nowMs / MS_PER_DAY) % TS_PRECISION_DAYS] *)
Definition stampOf (nowMs : Z) : Z := Z.rem (nowMs / MS_PER_DAY) TS_PRECISION_DAYS.

Definition encodeTimestamp (nowMs : Z) : jsstr :=
  let days := stampOf nowMs in [b32Char (Z.land (Z.shiftr days 5) 31); b32Char (Z.land days 31)].

Definition timestampAgeDays (ts : jsstr) (nowMs : Z) : option Z :=
  if negb (len ts =? 2) then None
  else match normalizeB32 ts with
  | Some [a; b] =>
      match indexOf a B32, indexOf b B32 with
      | Some hi, Some lo =>
          let stamped := Z.lor (Z.shiftl (Z.of_nat hi) 5) (Z.of_nat lo) in
          let age := stampOf nowMs - stamped in
          Some (if age <? 0 then age + TS_PRECISION_DAYS else age)
      | _, _ => None
      end
  | _ => None
  end.

Inductive Reason := NotSrs | BadFormat | BadHash | Expired.
Inductive SrsReverseResult := ROk (address : jsstr) | RFail (reason : Reason).

(** [checkAge]: [None] is "ok". *)
Definition checkAge (ts : jsstr) (nowMs maxAgeDays : Z) : option Reason :=
  match timestampAgeDays ts nowMs with
  | None => Some BadFormat
  | Some age => if maxAgeDays <? age then Some Expired else None
  end.

(** ** Addresses *)

Definition splitAddress (addr : jsstr) : option (jsstr * jsstr) :=
  match lastIndexOf AT addr with
  | None | Some O => None
  | Some at_ => if (at_ =? length addr - 1)%nat then None else Some (take at_ addr, drop (S at_) addr)
  end.

(** [/^SRS0=/i], [/^SRS1=/i] *)
Definition isSrs0 (local : jsstr) : bool := startsWithI (js "SRS0=") local.
Definition isSrs1 (local : jsstr) : bool := startsWithI (js "SRS1=") local.

Definition isSrsAddress (addr : jsstr) : bool :=
  match splitAddress addr with Some (local, _) => isSrs0 local || isSrs1 local | None => false end.

Section Srs.
Context {C : NodeCrypto}.

Definition computeHash (secret data : jsstr) : jsstr :=
  base32Encode (hmacSha256 (utf8Encode secret) (utf8Encode (toLowerCase data))) HASH_LEN.

Definition hashEquals (expected actual : jsstr) : bool :=
  if negb (len actual =? len expected) then false
  else match normalizeB32 actual with None => false | Some norm => expected === norm end.

(** The part of a rewritten address that is signed together with the forwarder. *)
Definition signed (tag secret forwarderDomain payload : jsstr) : jsstr :=
  tag ++ computeHash secret (forwarderDomain ++ [EQ] ++ payload) ++ [EQ] ++ payload ++ [AT] ++ forwarderDomain.

(** [None] where the source throws. *)
Definition srsForward (secret : jsstr) (nowMs : Z) (origSender forwarderDomain : jsstr) : option jsstr :=
  match splitAddress origSender with
  | None => None
  | Some (local, domain) =>
      Some (if isSrs1 local then
              let rest := match indexOf EQ (drop 5 local) with
                          | Some i => drop (5 + i + 1) local
                          | None => local
                          end in
              signed (js "SRS1=") secret forwarderDomain rest
            else if isSrs0 local then
              signed (js "SRS1=") secret forwarderDomain
                (encodeTimestamp nowMs ++ [EQ] ++ domain ++ [EQ] ++ drop 5 local)
            else
              signed (js "SRS0=") secret forwarderDomain
                (encodeTimestamp nowMs ++ [EQ] ++ domain ++ [EQ] ++ local))
  end.

Definition reverse0 (secret : jsstr) (nowMs maxAge : Z) (local forwarderDomain : jsstr) : SrsReverseResult :=
  match splitOn EQ (drop 5 local) with
  | hash :: ts :: origDomain :: ((_ :: _) as localRest) =>
      let origLocal := joinWith [EQ] localRest in
      let payload := ts ++ [EQ] ++ origDomain ++ [EQ] ++ origLocal in
      if negb (hashEquals (computeHash secret (forwarderDomain ++ [EQ] ++ payload)) hash) then RFail BadHash
      else match checkAge ts nowMs maxAge with
           | Some r => RFail r
           | None => ROk (origLocal ++ [AT] ++ origDomain)
           end
  | _ => RFail BadFormat
  end.

Definition reverse1 (secret : jsstr) (nowMs maxAge : Z) (local forwarderDomain : jsstr) : SrsReverseResult :=
  let rest := drop 5 local in
  match indexOf EQ rest with
  | None => RFail BadFormat
  | Some eq =>
      let hash := take eq rest in
      let payload := drop (S eq) rest in
      if negb (hashEquals (computeHash secret (forwarderDomain ++ [EQ] ++ payload)) hash) then RFail BadHash
      else match splitOn EQ payload with
      | ts :: srsDomain :: ((_ :: _) as gutsRest) =>
          let guts := joinWith [EQ] gutsRest in
          match checkAge ts nowMs maxAge with
          | Some r => RFail r
          | None =>
              match splitOn EQ guts with
              | _ :: ts0 :: _ :: _ :: _ =>
                  match checkAge ts0 nowMs maxAge with
                  | Some r => RFail r
                  | None => ROk (js "SRS0=" ++ guts ++ [AT] ++ srsDomain)
                  end
              | _ => RFail BadFormat
              end
          end
      | _ => RFail BadFormat
      end
  end.

Definition srsReverse (secret : jsstr) (nowMs maxAge : Z) (srsAddress : jsstr) : SrsReverseResult :=
  match splitAddress srsAddress with
  | None => RFail BadFormat
  | Some (local, forwarderDomain) =>
      if isSrs0 local then reverse0 secret nowMs maxAge local forwarderDomain
      else if isSrs1 local then reverse1 secret nowMs maxAge local forwarderDomain
      else RFail NotSrs
  end.
End Srs.

Arguments computeHash : simpl never.
Arguments encodeTimestamp : simpl never.
Arguments checkAge : simpl never.
Arguments stampOf : simpl never.

(** ** Base32 *)

(** A text of letters of the alphabet. *)
Definition isB32 (s : jsstr) : Prop := Forall (fun c => exists i, 0 <= i < 32 /\ c = b32Char i) s.

(** A property of the 32 letters, by computation. *)
Lemma b32Char_all (P : Z -> bool) i :
  forallb P (seqZ 0 32) = true -> 0 <= i < 32 -> P i = true.
Proof. intros H Hi. rewrite forallb_forall in H. apply H, list_elem_of_In, elem_of_seqZ. lia. Qed.

Lemma land31 x : 0 <= Z.land x 31 < 32.
Proof. change 31 with (Z.ones 5). rewrite Z.land_ones by lia. apply Z.mod_pos_bound. lia. Qed.

Lemma isB32_snoc out i : isB32 out -> 0 <= i < 32 -> isB32 (out ++ [b32Char i]).
Proof. intros H Hi. apply Forall_app. split; [done|]. repeat constructor. eauto. Qed.

Lemma b32While_spec fuel l acc bits out bits' out' ret :
  b32While fuel l acc bits out = (bits', out', ret) -> isB32 out -> (length out < l)%nat -> 0 <= bits ->
  bits < 5 * Z.of_nat fuel ->
  isB32 out' /\ (if ret then length out' = l
                 else (length out' < l)%nat /\ 0 <= bits' < 5 /\ 5 * len out' + bits' = 5 * len out + bits).
Proof.
  revert bits out; induction fuel as [|fuel IH]; intros bits out; [lia|]. cbn [b32While].
  destruct (Z.leb_spec 5 bits) as [Hb|Hb].
  - set (out1 := out ++ [b32Char _]). intros E Ho Hl H0 Hf.
    assert (isB32 out1) by (apply isB32_snoc; [done|apply land31]).
    assert (Hl1 : length out1 = S (length out)) by (unfold out1; rewrite length_app; cbn; lia).
    destruct (Nat.eqb_spec (length out1) l); [by simplify_eq|].
    apply IH in E; [|done|lia|lia|lia]. destruct E as [H1 H2]. split; [done|].
    destruct ret; [done|]. destruct H2 as (? & ? & He). split; [done|]. split; [done|].
    rewrite He. unfold len. rewrite Hl1. lia.
  - intros [= <- <- <-] Ho Hl H0 _. split; [done|]. split; [done|]. lia.
Qed.

Lemma b32Loop_spec l bs acc bits out :
  isB32 out -> (length out < l)%nat -> 0 <= bits < 5 -> 5 * Z.of_nat l <= 5 * len out + bits + 8 * len bs ->
  isB32 (b32Loop l bs acc bits out) /\ length (b32Loop l bs acc bits out) = l.
Proof.
  revert acc bits out; induction bs as [|b bs IH]; intros acc bits out Ho Hl Hb Hlen.
  - unfold len in Hlen. cbn in Hlen. lia.
  - rewrite len_cons in Hlen. cbn [b32Loop].
    destruct (b32While _ _ _ _ _) as [[bits' out'] ret] eqn:E.
    apply b32While_spec in E; [|done|done|lia|lia]. destruct E as [H1 H2].
    destruct ret; [done|]. destruct H2 as (? & ? & He). apply IH; try done. lia.
Qed.

Lemma computeHash_ok {C : NodeCrypto} secret data :
  isB32 (computeHash secret data) /\ length (computeHash secret data) = HASH_LEN.
Proof.
  apply b32Loop_spec; [constructor|unfold HASH_LEN; cbn; lia|lia|].
  unfold len. rewrite hmac_length. unfold HASH_LEN. cbn. lia.
Qed.

(** What the proofs need of each letter. *)
Definition letterOk (i : Z) : bool :=
  let c := b32Char i in
  bool_decide (normalizeUnit c = Some c) && bool_decide (indexOf c B32 = Some (Z.to_nat i))
  && negb (c =? EQ) && negb (c =? AT)
  && match lowerUnit c with
     | [u] => bool_decide (normalizeUnit u = Some c) && negb (u =? EQ) && negb (u =? AT)
     | _ => false
     end.

Lemma letterOk_all i : 0 <= i < 32 -> letterOk i = true.
Proof. apply b32Char_all. by vm_compute. Qed.

Lemma letter_facts i :
  0 <= i < 32 ->
  normalizeUnit (b32Char i) = Some (b32Char i) /\ indexOf (b32Char i) B32 = Some (Z.to_nat i) /\
  b32Char i <> EQ /\ b32Char i <> AT /\
  exists u, lowerUnit (b32Char i) = [u] /\ normalizeUnit u = Some (b32Char i) /\ u <> EQ /\ u <> AT.
Proof.
  intros Hi. pose proof (letterOk_all i Hi) as H. unfold letterOk in H. bool_hyps.
  repeat match goal with H : bool_decide _ = true |- _ => apply bool_decide_eq_true in H end.
  destruct (lowerUnit (b32Char i)) as [|u [|? ?]]; try done. bool_hyps.
  repeat match goal with H : bool_decide _ = true |- _ => apply bool_decide_eq_true in H end.
  eauto 10.
Qed.

Lemma normalizeB32_ok s : isB32 s -> normalizeB32 s = Some s /\ normalizeB32 (toLowerCase s) = Some s.
Proof.
  induction 1 as [|c s (i & Hi & ->) Hs [IH1 IH2]]; [done|].
  destruct (letter_facts i Hi) as (H1 & _ & _ & _ & u & Hu & H2 & _).
  unfold toLowerCase in *. cbn [flat_map]. rewrite Hu. cbn [app normalizeB32].
  by rewrite H1, H2, IH1, IH2.
Qed.

(** No separator of the scheme occurs in a base32 text, nor in its lower-case form. *)
Lemma isB32_clean s c :
  isB32 s -> c = EQ \/ c = AT -> c ∉ s /\ c ∉ toLowerCase s /\ length (toLowerCase s) = length s.
Proof.
  intros Hs Hc. induction Hs as [|x s (i & Hi & ->) Hs (IH1 & IH2 & IH3)].
  - repeat split; apply not_elem_of_nil.
  - destruct (letter_facts i Hi) as (_ & _ & He & Ha & u & Hu & _ & Hue & Hua).
    unfold toLowerCase in *. cbn [flat_map]. rewrite Hu. cbn [app length].
    rewrite !not_elem_of_cons. destruct Hc as [-> | ->]; auto with lia.
Qed.

Lemma hashEquals_ok h h' : normalizeB32 h' = Some h -> length h' = length h -> hashEquals h h' = true.
Proof.
  intros Hn Hl. unfold hashEquals, len. rewrite Hl, Z.eqb_refl, Hn. apply seqb_refl.
Qed.

(** ** Timestamps *)

Definition dayOf (t : Z) : Z := t / MS_PER_DAY.

Lemma stampOf_mod t : 0 <= t -> stampOf t = dayOf t mod TS_PRECISION_DAYS.
Proof. intros Ht. apply Z.rem_mod_nonneg; [by apply Z.div_pos|done]. Qed.

(** The age of a stamp, in days modulo the period of 1024 days. *)
Definition ageDays (t now : Z) : Z := (dayOf now - dayOf t) mod TS_PRECISION_DAYS.

Lemma stamp_split d : 0 <= d < 1024 -> Z.lor (Z.shiftl (Z.land (Z.shiftr d 5) 31) 5) (Z.land d 31) = d.
Proof.
  intros Hd. apply Z.bits_inj'. intros n Hn. rewrite Z.lor_spec, Z.shiftl_spec, !Z.land_spec by done.
  change 31 with (Z.ones 5). destruct (Z.lt_ge_cases n 5).
  - rewrite !(Z.testbit_neg_r _ (n - 5)), Z.ones_spec_low by lia. by rewrite andb_true_r.
  - rewrite Z.shiftr_spec, (Z.ones_spec_high 5 n) by lia. rewrite andb_false_r, orb_false_r.
    replace (n - 5 + 5) with n by lia. destruct (Z.lt_ge_cases n 10).
    + rewrite Z.ones_spec_low by lia. by rewrite andb_true_r.
    + rewrite (Z.bits_above_log2 d n); [done|lia|].
      destruct (Z.eq_dec d 0) as [->|]; [cbn; lia|].
      apply Z.log2_lt_pow2; [lia|]. apply (Z.lt_le_trans _ (2 ^ 10)); [cbn; lia|].
      apply Z.pow_le_mono_r; lia.
Qed.

Lemma encodeTimestamp_b32 t : isB32 (encodeTimestamp t).
Proof. repeat constructor; eexists; (split; [apply land31|done]). Qed.

Lemma timestampAge_ok ts t now :
  0 <= t -> 0 <= now -> normalizeB32 ts = Some (encodeTimestamp t) -> length ts = 2%nat ->
  timestampAgeDays ts now = Some (ageDays t now).
Proof.
  intros Ht Hnow Hn Hl. unfold timestampAgeDays, len. rewrite Hl, Hn. cbn [negb Z.eqb Z.of_nat Pos.eqb Pos.of_succ_nat Pos.succ].
  unfold encodeTimestamp.
  destruct (letter_facts _ (land31 (Z.shiftr (stampOf t) 5))) as (_ & -> & _).
  destruct (letter_facts _ (land31 (stampOf t))) as (_ & -> & _).
  rewrite !Z2Nat.id by apply land31.
  pose proof (stampOf_mod t Ht) as Et. pose proof (stampOf_mod now Hnow) as En.
  assert (Hs : 0 <= stampOf t < 1024) by (rewrite Et; by apply Z.mod_pos_bound).
  assert (Hs' : 0 <= stampOf now < 1024) by (rewrite En; by apply Z.mod_pos_bound).
  rewrite stamp_split by done. f_equal. unfold ageDays. rewrite Zminus_mod, <- Et, <- En.
  unfold TS_PRECISION_DAYS. destruct (Z.ltb_spec (stampOf now - stampOf t) 0).
  - rewrite <- (Z.mod_small (stampOf now - stampOf t + 1024) 1024) by lia.
    by rewrite <- (Z_mod_plus_full (stampOf now - stampOf t) 1 1024).
  - by rewrite Z.mod_small by lia.
Qed.

Definition verdict (t now maxAge : Z) : option Reason :=
  if maxAge <? ageDays t now then Some Expired else None.

Lemma checkAge_ok ts t now maxAge :
  0 <= t -> 0 <= now -> ts = encodeTimestamp t \/ ts = toLowerCase (encodeTimestamp t) ->
  checkAge ts now maxAge = verdict t now maxAge.
Proof.
  intros Ht Hn Hts. unfold checkAge. pose proof (encodeTimestamp_b32 t) as Hb.
  destruct (normalizeB32_ok _ Hb) as [N1 N2]. destruct (isB32_clean _ EQ Hb (or_introl eq_refl)) as (_ & _ & Hl).
  rewrite (timestampAge_ok ts t now); [done|done|done|by destruct Hts as [-> | ->]|].
  destruct Hts as [-> | ->]; [done|by rewrite Hl].
Qed.

(** ** Addresses *)

Lemma splitAddress_app local domain :
  local <> [] -> domain <> [] -> AT ∉ domain -> splitAddress (local ++ [AT] ++ domain) = Some (local, domain).
Proof.
  intros Hl Hd Ha. unfold splitAddress. cbn [app]. rewrite lastIndexOf_app by done.
  destruct local as [|x l]; [done|]. destruct domain as [|y d]; [done|].
  rewrite (proj2 (Nat.eqb_neq _ _)) by (rewrite length_app; cbn; lia).
  rewrite drop_after, take_app_length. done.
Qed.

Lemma splitAddress_inv addr local domain :
  splitAddress addr = Some (local, domain) ->
  addr = local ++ [AT] ++ domain /\ local <> [] /\ domain <> [] /\ AT ∉ domain.
Proof.
  unfold splitAddress. destruct (lastIndexOf AT addr) as [i|] eqn:Ei; [|done].
  destruct (lastIndexOf_Some _ _ _ Ei) as (a & b & -> & Hb & ->).
  destruct a as [|x a]; [done|]. cbn [length]. destruct (Nat.eqb_spec (S (length a)) (length ((x :: a) ++ AT :: b) - 1)) as [|Hne]; [done|].
  change (S (length a)) with (length (x :: a)). rewrite take_app_length, drop_after. intros [= <- <-].
  split; [done|]. split; [done|]. split; [|done]. intros ->. apply Hne. rewrite length_app. cbn. lia.
Qed.

(** ** Rewriting and reversing *)

Section Reverse.
Context {C : NodeCrypto}.

Lemma startsWithI_length p s : startsWithI p s = true -> (length p <= length s)%nat.
Proof.
  revert s; induction p as [|x p IH]; intros [|y s]; cbn; try done; [lia|].
  intros [_ H]%andb_true_iff. apply IH in H. lia.
Qed.

(** Reversing an address of the first form, in whatever case the signature and the date
    are written. *)
Lemma reverse0_parts secret now maxAge tag hash ts domain local fwd :
  length tag = 5%nat -> EQ ∉ hash -> EQ ∉ ts -> EQ ∉ domain ->
  normalizeB32 hash = Some (computeHash secret (fwd ++ [EQ] ++ ts ++ [EQ] ++ domain ++ [EQ] ++ local)) ->
  length hash = HASH_LEN ->
  reverse0 secret now maxAge (tag ++ hash ++ [EQ] ++ ts ++ [EQ] ++ domain ++ [EQ] ++ local) fwd
    = match checkAge ts now maxAge with Some r => RFail r | None => ROk (local ++ [AT] ++ domain) end.
Proof.
  intros Ht Hh Hts Hd Hn Hl. unfold reverse0. rewrite <- Ht, drop_app_length. cbn [app].
  rewrite !splitOn_app by done. pose proof (splitOn_ne EQ local) as Hne.
  destruct (splitOn EQ local) as [|x r] eqn:Es; [done|].
  rewrite <- Es, join_split. cbn [app] in Hn. 
  rewrite (hashEquals_ok _ _ Hn); [done|]. by rewrite (proj2 (computeHash_ok _ _)).
Qed.

(** The same for the second form. *)
Lemma reverse1_parts secret now maxAge tag hash ts domain guts fwd :
  length tag = 5%nat -> EQ ∉ hash -> EQ ∉ ts -> EQ ∉ domain ->
  normalizeB32 hash = Some (computeHash secret (fwd ++ [EQ] ++ ts ++ [EQ] ++ domain ++ [EQ] ++ guts)) ->
  length hash = HASH_LEN ->
  reverse1 secret now maxAge (tag ++ hash ++ [EQ] ++ ts ++ [EQ] ++ domain ++ [EQ] ++ guts) fwd
    = match checkAge ts now maxAge with
      | Some r => RFail r
      | None =>
          match splitOn EQ guts with
          | _ :: ts0 :: _ :: _ :: _ =>
              match checkAge ts0 now maxAge with
              | Some r => RFail r
              | None => ROk (js "SRS0=" ++ guts ++ [AT] ++ domain)
              end
          | _ => RFail BadFormat
          end
      end.
Proof.
  intros Ht Hh Hts Hd Hn Hl. unfold reverse1. rewrite <- Ht, drop_app_length. cbn [app].
  rewrite indexOf_app_notin, take_app_length, drop_after by done. cbn [app] in Hn.
  rewrite (hashEquals_ok _ _ Hn) by (by rewrite (proj2 (computeHash_ok _ _))). cbn [negb].
  rewrite !splitOn_app by done. pose proof (splitOn_ne EQ guts) as Hne.
  destruct (splitOn EQ guts) as [|x r] eqn:Es; [done|]. rewrite <- Es, join_split. by rewrite Es.
Qed.
End Reverse.

(** ** Lower-casing, as the receiving pipeline does *)

Lemma lowerUnit_ascii c :
  0 <= c < 128 -> exists d, lowerUnit c = [d] /\ lowerUnit d = [d] /\ (d = c \/ 97 <= d <= 122).
Proof.
  intros Hc. unfold lowerUnit at 1.
  destruct (Z.leb_spec 65 c), (Z.leb_spec c 90); cbn [andb];
    [exists (c + 32)|exists c..]; (split; [|split]);
    try (unfold lowerUnit;
         repeat match goal with
         | |- context [?a <=? ?b] => destruct (Z.leb_spec a b); try lia
         | |- context [?a =? ?b] => destruct (Z.eqb_spec a b); try lia
         end; done); lia.
Qed.

Lemma lower_ascii s :
  is_ascii s -> toLowerCase (toLowerCase s) = toLowerCase s /\
                (forall c, ~ 97 <= c <= 122 -> c ∉ s -> c ∉ toLowerCase s) /\ (toLowerCase s = [] -> s = []).
Proof.
  induction 1 as [|x s Hx Hs (IH1 & IH2 & IH3)]; [done|].
  destruct (lowerUnit_ascii x Hx) as (d & Hd & Hdd & Hor).
  unfold toLowerCase in *. cbn [flat_map]. rewrite Hd. cbn [app flat_map]. rewrite Hdd, IH1.
  split; [done|]. split; [|done]. intros c Hc [Hcx Hcs]%not_elem_of_cons. apply not_elem_of_cons.
  split; [|by apply IH2]. destruct Hor as [->|]; [done|lia].
Qed.

Lemma isB32_ascii s : isB32 s -> is_ascii s.
Proof.
  induction 1 as [|c s (i & Hi & ->) Hs IH]; constructor; [|done].
  pose proof (b32Char_all (fun i => (0 <=? b32Char i) && (b32Char i <? 128)) i eq_refl Hi) as H.
  cbv beta in H. bool_hyps. lia.
Qed.

Section Theorems.
Context {C : NodeCrypto}.

Lemma computeHash_lower secret data : is_ascii data -> computeHash secret (toLowerCase data) = computeHash secret data.
Proof. intros H. unfold computeHash. by rewrite (proj1 (lower_ascii _ H)). Qed.

Lemma ascii_payload fwd t domain local :
  is_ascii fwd -> is_ascii domain -> is_ascii local ->
  is_ascii (fwd ++ [EQ] ++ encodeTimestamp t ++ [EQ] ++ domain ++ [EQ] ++ local).
Proof.
  intros. repeat (apply Forall_app; split); try done; try (repeat constructor; unfold EQ; lia).
  apply isB32_ascii, encodeTimestamp_b32.
Qed.

(** What the hash and the stamp of an address offer to the lemmas above. *)
Lemma hash_parts secret data :
  EQ ∉ computeHash secret data /\ EQ ∉ toLowerCase (computeHash secret data) /\
  normalizeB32 (computeHash secret data) = Some (computeHash secret data) /\
  normalizeB32 (toLowerCase (computeHash secret data)) = Some (computeHash secret data) /\
  length (toLowerCase (computeHash secret data)) = HASH_LEN.
Proof.
  destruct (computeHash_ok secret data) as [Hb Hl].
  destruct (isB32_clean _ EQ Hb (or_introl eq_refl)) as (H1 & H2 & H3).
  destruct (normalizeB32_ok _ Hb) as [H4 H5]. repeat split; try done. by rewrite H3.
Qed.

Lemma stamp_parts t : EQ ∉ encodeTimestamp t /\ EQ ∉ toLowerCase (encodeTimestamp t).
Proof.
  destruct (isB32_clean _ EQ (encodeTimestamp_b32 t) (or_introl eq_refl)) as (H1 & H2 & _). done.
Qed.

(** [signed] in the shape of the parts. *)
Lemma signed_split tag secret fwd payload :
  tag <> [] -> fwd <> [] -> AT ∉ fwd ->
  splitAddress (signed tag secret fwd payload)
    = Some (tag ++ computeHash secret (fwd ++ [EQ] ++ payload) ++ [EQ] ++ payload, fwd).
Proof.
  intros Ht Hf Ha. unfold signed.
  rewrite <- (splitAddress_app (tag ++ computeHash secret (fwd ++ [EQ] ++ payload) ++ [EQ] ++ payload) fwd);
    [|by destruct tag|done..].
  by rewrite <- !app_assoc.
Qed.

Lemma signed_lower tag secret fwd payload :
  toLowerCase (signed tag secret fwd payload)
    = (toLowerCase tag ++ toLowerCase (computeHash secret (fwd ++ [EQ] ++ payload)) ++ [EQ] ++ toLowerCase payload)
      ++ [AT] ++ toLowerCase fwd.
Proof. unfold signed. rewrite !toLowerCase_app. rewrite <- !app_assoc. done. Qed.

Definition outcome (t now maxAge : Z) (addr : jsstr) : SrsReverseResult :=
  match verdict t now maxAge with Some r => RFail r | None => ROk addr end.

(** The address as it was written. *)
Lemma srs_roundtrip_core secret orig fwd t now maxAge local domain :
  splitAddress orig = Some (local, domain) -> isSrsAddress orig = false -> EQ ∉ domain ->
  fwd <> [] -> AT ∉ fwd -> 0 <= t -> 0 <= now ->
  exists srs, srsForward secret t orig fwd = Some srs /\
    srsReverse secret now maxAge srs = outcome t now maxAge orig.
Proof.
  intros Hs Hn He Hf Ha Ht Hnow. unfold isSrsAddress in Hn. unfold srsForward. rewrite Hs in *.
  apply orb_false_iff in Hn as [H0 H1]. rewrite H0, H1. eexists. split; [done|].
  destruct (splitAddress_inv _ _ _ Hs) as (-> & Hlo & Hdo & Had).
  set (payload := encodeTimestamp t ++ [EQ] ++ domain ++ [EQ] ++ local).
  destruct (hash_parts secret (fwd ++ [EQ] ++ payload)) as (HP1 & HP2 & HP3 & HP4 & HP5).
  destruct (stamp_parts t) as [HT1 HT2]. unfold outcome.
  unfold srsReverse. rewrite signed_split by done. unfold isSrs0 at 1. rewrite startsWithI_app.
  unfold payload at 2. rewrite reverse0_parts; try done; [|by apply computeHash_ok].
  by rewrite (checkAge_ok _ t) by auto.
Qed.

(** The address lower-cased. *)
Lemma srs_roundtrip_lower secret fwd t now maxAge local domain :
  is_ascii local -> is_ascii domain -> is_ascii fwd -> EQ ∉ domain -> fwd <> [] -> AT ∉ fwd -> 0 <= t -> 0 <= now ->
  srsReverse secret now maxAge
    (toLowerCase (signed (js "SRS0=") secret fwd (encodeTimestamp t ++ [EQ] ++ domain ++ [EQ] ++ local)))
  = outcome t now maxAge (toLowerCase (local ++ [AT] ++ domain)).
Proof.
  intros Hal Had' Haf He Hf Ha Ht Hnow.
  set (payload := encodeTimestamp t ++ [EQ] ++ domain ++ [EQ] ++ local).
  destruct (hash_parts secret (fwd ++ [EQ] ++ payload)) as (HP1 & HP2 & HP3 & HP4 & HP5).
  destruct (stamp_parts t) as [HT1 HT2]. unfold outcome, srsReverse. rewrite signed_lower.
  destruct (lower_ascii _ Haf) as (_ & Hfc & Hfn). destruct (lower_ascii _ Had') as (_ & Hdc & _).
  rewrite splitAddress_app; [|done|by intros ?%Hfn|by apply Hfc; [unfold AT; lia|]].
  change (toLowerCase (js "SRS0=")) with (js "srs0=").
  assert (isSrs0 (js "srs0=" ++ toLowerCase (computeHash secret (fwd ++ [EQ] ++ payload)) ++ [EQ] ++
    toLowerCase payload) = true) as -> by reflexivity.
  assert (Hp : toLowerCase payload = toLowerCase (encodeTimestamp t) ++ [EQ] ++ toLowerCase domain ++ [EQ]
                 ++ toLowerCase local) by (unfold payload; by rewrite !toLowerCase_app).
  assert (Hd : computeHash secret (toLowerCase fwd ++ [EQ] ++ toLowerCase payload)
               = computeHash secret (fwd ++ [EQ] ++ payload)).
  { rewrite <- (computeHash_lower secret (fwd ++ [EQ] ++ payload)) by (by apply ascii_payload).
    by rewrite !toLowerCase_app. }
  rewrite Hp in *. rewrite reverse0_parts; try done; [|by apply Hdc; [unfold EQ; lia|]|by rewrite Hd].
  rewrite (checkAge_ok _ t) by auto. by rewrite !toLowerCase_app.
Qed.

(** A rewritten sender maps back to the original one, exactly as long as it is
    young.  For an ordinary sender, the forwarder's SRS0 address is recognised as such,
    and reversing it at a later time gives the original sender if its age in days,
    modulo the 1024 days a stamp can express, is at most [maxAge], and "expired"
    otherwise; the same holds, up to the case of the letters, when the address comes
    back lower-cased, as the delivery pipeline does with every recipient. *)
Theorem srs_roundtrip secret orig fwd t now maxAge local domain :
  splitAddress orig = Some (local, domain) -> isSrsAddress orig = false -> EQ ∉ domain ->
  fwd <> [] -> AT ∉ fwd -> 0 <= t -> 0 <= now ->
  exists srs, srsForward secret t orig fwd = Some srs /\ isSrsAddress srs = true /\
    srsReverse secret now maxAge srs = outcome t now maxAge orig /\
    (is_ascii orig -> is_ascii fwd ->
     srsReverse secret now maxAge (toLowerCase srs) = outcome t now maxAge (toLowerCase orig)).
Proof.
  intros Hs Hn He Hf Ha Ht Hnow.
  destruct (srs_roundtrip_core secret orig fwd t now maxAge local domain) as (srs & E & Hr); try done.
  exists srs. split; [done|]. unfold isSrsAddress in Hn. unfold srsForward in E. rewrite Hs in *.
  apply orb_false_iff in Hn as [H0 H1]. rewrite H0, H1 in E. injection E as <-. split; [|split; [done|]].
  - unfold isSrsAddress. rewrite signed_split by done. apply orb_true_iff. left. apply startsWithI_app.
  - destruct (splitAddress_inv _ _ _ Hs) as (-> & Hlo & Hdo & Had).
    intros [Hal [_ Had']%Forall_app]%Forall_app Haf. by apply srs_roundtrip_lower.
Qed.

(** The SRS0 local part a first rewriting gives, without its tag. *)
Definition gutsOf (secret fwd : jsstr) (t : Z) (local domain : jsstr) : jsstr :=
  let payload := encodeTimestamp t ++ [EQ] ++ domain ++ [EQ] ++ local in
  computeHash secret (fwd ++ [EQ] ++ payload) ++ [EQ] ++ payload.

Lemma gutsOf_fields secret fwd t local domain :
  EQ ∉ domain ->
  exists h r rs, splitOn EQ (gutsOf secret fwd t local domain) = h :: encodeTimestamp t :: domain :: r :: rs.
Proof.
  intros He. unfold gutsOf. destruct (hash_parts secret (fwd ++ [EQ] ++ encodeTimestamp t ++ [EQ] ++ domain ++ [EQ] ++ local)) as (H1 & _).
  destruct (stamp_parts t) as [H2 _]. cbn [app] in *. rewrite !splitOn_app by done.
  pose proof (splitOn_ne EQ local). destruct (splitOn EQ local) as [|r rs]; [done|]. eauto.
Qed.

(** The verdict on a chain: the stamp of the promotion, then the original one. *)
Definition chainOutcome (t0 t1 now maxAge : Z) (addr : jsstr) : SrsReverseResult :=
  match verdict t1 now maxAge with Some r => RFail r | None => outcome t0 now maxAge addr end.

(** Reversing an SRS1 address built over [gutsOf], whichever secret signed it. *)
Lemma reverse_chain secret k0 fwd0 fwd t0 t1 local domain now maxAge :
  EQ ∉ domain -> EQ ∉ fwd0 -> fwd <> [] -> AT ∉ fwd -> 0 <= t0 -> 0 <= t1 -> 0 <= now ->
  srsReverse secret now maxAge
    (signed (js "SRS1=") secret fwd (encodeTimestamp t1 ++ [EQ] ++ fwd0 ++ [EQ] ++ gutsOf k0 fwd0 t0 local domain))
  = chainOutcome t0 t1 now maxAge (js "SRS0=" ++ gutsOf k0 fwd0 t0 local domain ++ [AT] ++ fwd0).
Proof.
  intros He Hf0 Hf Ha Ht0 Ht1 Hn. unfold srsReverse. rewrite signed_split by done.
  set (guts := gutsOf k0 fwd0 t0 local domain).
  set (payload := encodeTimestamp t1 ++ [EQ] ++ fwd0 ++ [EQ] ++ guts).
  assert (isSrs0 (js "SRS1=" ++ computeHash secret (fwd ++ [EQ] ++ payload) ++ [EQ] ++ payload) = false)
    as -> by reflexivity.
  unfold isSrs1. rewrite startsWithI_app.
  destruct (hash_parts secret (fwd ++ [EQ] ++ payload)) as (HP1 & _ & HP3 & _).
  destruct (stamp_parts t1) as [HT _]. unfold payload at 2.
  rewrite reverse1_parts; try done; [|by apply computeHash_ok].
  rewrite (checkAge_ok _ t1) by auto. unfold chainOutcome. destruct (verdict t1 now maxAge); [done|].
  destruct (gutsOf_fields k0 fwd0 t0 local domain He) as (h & r & rs & Hs). unfold guts at 1. rewrite Hs.
  by rewrite (checkAge_ok _ t0) by auto.
Qed.

(** Forwarding again never makes an expired address valid.  An ordinary sender
    rewritten at [t0], promoted to SRS1 by a second forwarder at [t1] and re-signed by a
    third at [t2] is mapped back by the second or the third to the first forwarder's
    address, which the first forwarder in turn maps to the sender, exactly when both
    the stamp of [t1] and the one of [t0] are young; the time [t2] of the last
    forwarding has no influence. *)
Theorem srs_chain_expiry k0 k1 k2 orig fwd0 fwd1 fwd2 t0 t1 t2 now maxAge local domain :
  splitAddress orig = Some (local, domain) -> isSrsAddress orig = false -> EQ ∉ domain ->
  fwd0 <> [] -> AT ∉ fwd0 -> EQ ∉ fwd0 -> fwd1 <> [] -> AT ∉ fwd1 -> fwd2 <> [] -> AT ∉ fwd2 ->
  0 <= t0 -> 0 <= t1 -> 0 <= now ->
  exists s0 s1 s2, srsForward k0 t0 orig fwd0 = Some s0 /\ srsForward k1 t1 s0 fwd1 = Some s1 /\
    srsForward k2 t2 s1 fwd2 = Some s2 /\
    srsReverse k1 now maxAge s1 = chainOutcome t0 t1 now maxAge s0 /\
    srsReverse k2 now maxAge s2 = chainOutcome t0 t1 now maxAge s0 /\
    srsReverse k0 now maxAge s0 = outcome t0 now maxAge orig.
Proof.
  intros Hs Hn He Hf0 Ha0 He0 Hf1 Ha1 Hf2 Ha2 Ht0 Ht1 Hnow.
  set (guts := gutsOf k0 fwd0 t0 local domain).
  set (payload1 := encodeTimestamp t1 ++ [EQ] ++ fwd0 ++ [EQ] ++ guts).
  assert (E0 : srsForward k0 t0 orig fwd0 = Some (js "SRS0=" ++ guts ++ [AT] ++ fwd0)).
  { unfold isSrsAddress in Hn. unfold srsForward. rewrite Hs in *.
    apply orb_false_iff in Hn as [H0 H1]. rewrite H0, H1. unfold signed, guts, gutsOf. by rewrite <- !app_assoc. }
  assert (E1 : srsForward k1 t1 (js "SRS0=" ++ guts ++ [AT] ++ fwd0) fwd1
               = Some (signed (js "SRS1=") k1 fwd1 payload1)).
  { unfold srsForward. rewrite (app_assoc (js _) guts), splitAddress_app by done.
    assert (isSrs1 (js "SRS0=" ++ guts) = false) as -> by reflexivity.
    unfold isSrs0. rewrite startsWithI_app. done. }
  assert (E2 : srsForward k2 t2 (signed (js "SRS1=") k1 fwd1 payload1) fwd2
               = Some (signed (js "SRS1=") k2 fwd2 payload1)).
  { unfold srsForward. rewrite signed_split by done. unfold isSrs1. rewrite startsWithI_app.
    destruct (hash_parts k1 (fwd1 ++ [EQ] ++ payload1)) as (HP1 & _).
    set (h := computeHash k1 _) in *.
    change (drop 5 (js "SRS1=" ++ h ++ [EQ] ++ payload1)) with (h ++ EQ :: payload1).
    rewrite indexOf_app_notin by done. do 2 f_equal.
    replace (5 + length h + 1)%nat with (5 + S (length h))%nat by lia.
    rewrite <- drop_drop. change (drop 5 (js "SRS1=" ++ h ++ [EQ] ++ payload1)) with (h ++ EQ :: payload1).
    apply drop_after. }
  eexists _, _, _. split; [exact E0|]. split; [exact E1|]. split; [exact E2|].
  split; [by apply reverse_chain|]. split; [by apply reverse_chain|].
  destruct (srs_roundtrip_core k0 orig fwd0 t0 now maxAge local domain) as (s & Es & Hr); try done.
  rewrite E0 in Es. by simplify_eq.
Qed.
End Theorems.

(** Concrete addresses. *)
Lemma srs_roundtrip_witness :
  exists srs, @srsForward toyCrypto (js "k") 0 (js "a=b@x.org") (js "f.net") = Some srs /\
    isSrsAddress srs = true /\
    @srsReverse toyCrypto (js "k") (3 * MS_PER_DAY) 21 srs = ROk (js "a=b@x.org") /\
    (is_ascii (js "a=b@x.org") -> is_ascii (js "f.net") ->
     @srsReverse toyCrypto (js "k") (3 * MS_PER_DAY) 21 (toLowerCase srs) = ROk (js "a=b@x.org")).
Proof.
  apply (@srs_roundtrip toyCrypto (js "k") (js "a=b@x.org") (js "f.net") 0 (3 * MS_PER_DAY) 21 (js "a=b") (js "x.org"));
    first [reflexivity|by apply lit_notin|done].
Defined.

Lemma srs_chain_expiry_witness :
  exists s0 s1 s2, @srsForward toyCrypto (js "k") 0 (js "a@x.org") (js "f.net") = Some s0 /\
    @srsForward toyCrypto (js "l") MS_PER_DAY s0 (js "g.net") = Some s1 /\
    @srsForward toyCrypto (js "m") (30 * MS_PER_DAY) s1 (js "h.net") = Some s2 /\
    @srsReverse toyCrypto (js "l") (22 * MS_PER_DAY) 21 s1 = RFail Expired /\
    @srsReverse toyCrypto (js "m") (22 * MS_PER_DAY) 21 s2 = RFail Expired /\
    @srsReverse toyCrypto (js "k") (22 * MS_PER_DAY) 21 s0 = RFail Expired.
Proof.
  apply (@srs_chain_expiry toyCrypto (js "k") (js "l") (js "m") (js "a@x.org") (js "f.net") (js "g.net") (js "h.net")
    0 MS_PER_DAY (30 * MS_PER_DAY) (22 * MS_PER_DAY) 21 (js "a") (js "x.org"));
    first [reflexivity|by apply lit_notin|done].
Defined.
