(* ===== verification/Net.v ===== *)
(** * Client addresses as throttle keys (packages/core/src/auth-throttle.ts)

    node:net's [isIP] is the class [NodeNet]. *)

From S2P Require Import Prelude JsString JsNumber.

Class NodeNet := { isIP : jsstr -> Z }.

Definition UNKNOWN : jsstr := js "unknown".
Definition COLON : Z := 58.

(** ** Hexadecimal groups *)

(** [/^[0-9a-f]{1,4}$/.test(p)] *)
Definition isHexChar (c : Z) : bool := isDigit c || ((97 <=? c) && (c <=? 102)).
Definition isHextet (p : jsstr) : bool :=
  match p with [] => false | _ => (length p <=? 4)%nat && forallb isHexChar p end.

Definition hexVal (c : Z) : Z := if isDigit c then c - 48 else c - 87.
Definition hexChar (v : Z) : Z := if v <? 10 then 48 + v else 87 + v.

(** [parseInt(p, 16)] on a hextet *)
Definition parseHex (p : jsstr) : Z := fold_left (fun n c => n * 16 + hexVal c) p 0.

(** [n.toString(16)] for [0 <= n < 65536] *)
Definition toHex (n : Z) : jsstr :=
  if n <? 16 then [hexChar n]
  else if n <? 256 then [hexChar (n / 16); hexChar (n mod 16)]
  else if n <? 4096 then [hexChar (n / 256); hexChar (n / 16 mod 16); hexChar (n mod 16)]
  else [hexChar (n / 4096); hexChar (n / 256 mod 16); hexChar (n / 16 mod 16); hexChar (n mod 16)].

(** ** Parsing *)

(** [s.split("::")] *)
Fixpoint splitDouble (acc : jsstr) (s : jsstr) : list jsstr :=
  match s with
  | [] => [acc]
  | c :: s' =>
      match s' with
      | d :: s'' => if (c =? COLON) && (d =? COLON) then acc :: splitDouble [] s'' else splitDouble (acc ++ [c]) s'
      | [] => splitDouble (acc ++ [c]) s'
      end
  end.

(** One [(\d{1,3})] group: the digits run up to the next unit that is no digit. *)
Definition digitGroup (s : jsstr) : option (Z * jsstr) :=
  let '(d, r) := spanDigits s in
  if ((length d =? 0) || (4 <=? length d))%nat then None else Some (digitsVal d, r).

(** A group followed by the dot. *)
Definition dottedGroup (s : jsstr) : option (Z * jsstr) :=
  match digitGroup s with Some (n, c :: r) => if c =? DOT then Some (n, r) else None | _ => None end.

(** [\d{1,3}\.\d{1,3}\.\d{1,3}\.\d{1,3}$] at the start of [s]: the four numbers. *)
Definition dottedAt (s : jsstr) : option (Z * Z * Z * Z) :=
  '(a, s) ← dottedGroup s; '(b, s) ← dottedGroup s; '(c, s) ← dottedGroup s;
  match digitGroup s with Some (d, []) => Some (a, b, c, d) | _ => None end.

(** The leftmost match, with the text before it. *)
Fixpoint dottedTail (before s : jsstr) : option (jsstr * (Z * Z * Z * Z)) :=
  match dottedAt s with
  | Some q => Some (before, q)
  | None => match s with [] => None | c :: s' => dottedTail (before ++ [c]) s' end
  end.

(** [((a << 8) | b).toString(16)] *)
Definition pairHex (a b : Z) : jsstr := toHex (Z.lor (Z.shiftl a 8) b).

Definition splitNonempty (s : jsstr) : list jsstr := match s with [] => [] | _ => splitOn COLON s end.

(** The hextets of the text once a dotted tail is replaced. *)
Definition hextetsOf (s : jsstr) : option (list jsstr) :=
  let parts :=
    match splitDouble [] s with
    | [one] => let head := splitNonempty one in if (length head =? 8)%nat then Some head else None
    | [h; t] =>
        let head := splitNonempty h in
        let tail := splitNonempty t in
        if (8 <? length head + length tail)%nat then None
        else Some (head ++ replicate (8 - length head - length tail) (js "0") ++ tail)
    | _ => None
    end in
  ps ← parts;
  if forallb isHextet ps then
    let out := map (fun p => toHex (parseHex p)) ps in
    if (length out =? 8)%nat then Some out else None
  else None.

Definition expandIpv6 (addr : jsstr) : option (list jsstr) :=
  let s := toLowerCase addr in
  match dottedTail [] s with
  | Some (before, (a, b, c, d)) =>
      if (255 <? a) || (255 <? b) || (255 <? c) || (255 <? d) then None
      else hextetsOf (before ++ pairHex a b ++ [COLON] ++ pairHex c d)
  | None => hextetsOf s
  end.

Definition stripBrackets (addr : jsstr) : jsstr :=
  if startsWith (js "[") addr && endsWith1 93 addr then removelast (drop 1 addr) else addr.

Definition stripZone (addr : jsstr) : jsstr :=
  match indexOf 37 addr with None => addr | Some i => take i addr end.

Section Keys.
Context {N : NodeNet}.

Definition ipv4Of (addr : jsstr) : option jsstr :=
  if isIP addr =? 4 then Some addr
  else if negb (isIP addr =? 6) then None
  else
    h ← expandIpv6 addr;
    match h with
    | h0 :: h1 :: h2 :: h3 :: h4 :: h5 :: h6 :: h7 :: _ =>
        if (h0 === js "0") && (h1 === js "0") && (h2 === js "0") && (h3 === js "0") && (h4 === js "0")
           && (h5 === js "ffff")
        then
          let hi := parseHex h6 in
          let lo := parseHex h7 in
          Some (numToString (Z.shiftr hi 8) ++ [DOT] ++ numToString (Z.land hi 255) ++ [DOT]
                ++ numToString (Z.shiftr lo 8) ++ [DOT] ++ numToString (Z.land lo 255))
        else None
    | _ => None
    end.

Definition throttleKeyOf (addr : option jsstr) : jsstr :=
  let raw := trim (default [] addr) in
  if len raw =? 0 then UNKNOWN
  else
    let bare := stripZone (stripBrackets raw) in
    match ipv4Of bare with
    | Some v4 => v4
    | None =>
        if negb (isIP bare =? 6) then UNKNOWN
        else match expandIpv6 bare with
             | None => UNKNOWN
             | Some hextets => joinWith [COLON] (take 4 hextets) ++ js "::/64"
             end
    end.

(** [/^::ffff:(\d+\.\d+\.\d+\.\d+)$/i.exec(ip)]: the dotted part. *)
Fixpoint dottedNumbers (groups : nat) (s : jsstr) : bool :=
  let '(d, r) := spanDigits s in
  match d with
  | [] => false
  | _ =>
      match groups, r with
      | O, [] => true
      | S n, c :: r' => (c =? DOT) && dottedNumbers n r'
      | _, _ => false
      end
  end.

Definition normalizeIp (ip : option jsstr) : jsstr :=
  match ip with
  | None | Some [] => UNKNOWN
  | Some ip =>
      if startsWithI (js "::ffff:") ip && dottedNumbers 3 (drop 7 ip) then drop 7 ip else ip
  end.

Definition isLoopback (addr : jsstr) : bool :=
  (addr === js "127.0.0.1") || (addr === js "::1") || (addr === js "::ffff:127.0.0.1").

(** The header is a string or not; [None] is an absent header or an array. *)
Definition claimedForwardedFor (forwardedFor : option jsstr) : option jsstr :=
  h ← forwardedFor;
  match trim (default [] (head (splitOn 44 h))) with [] => None | first => Some first end.

Definition clientIpOf (forwardedFor remoteAddress : option jsstr) (trustPeer : jsstr -> bool) : jsstr :=
  let peer := default [] remoteAddress in
  let fallback := normalizeIp (match peer with [] => None | _ => Some peer end) in
  if trustPeer peer then
    match claimedForwardedFor forwardedFor with
    | Some claimed =>
        let bare := stripZone (stripBrackets claimed) in
        if negb (isIP bare =? 0) then normalizeIp (Some bare) else fallback
    | None => fallback
    end
  else fallback.
End Keys.

Arguments toHex : simpl never.
Arguments parseHex : simpl never.
Arguments isHextet : simpl never.

(** ** Lemmas: hexadecimal *)

Definition isWord (v : Z) : Prop := 0 <= v < 65536.

Lemma hexChar_ok v : 0 <= v < 16 -> isHexChar (hexChar v) = true /\ hexVal (hexChar v) = v.
Proof.
  intros Hv. unfold isHexChar, hexVal, hexChar, isDigit. destruct (Z.ltb_spec v 10).
  - destruct (Z.leb_spec 48 (48 + v)), (Z.leb_spec (48 + v) 57); cbn; lia.
  - destruct (Z.leb_spec 48 (87 + v)), (Z.leb_spec (87 + v) 57), (Z.leb_spec 97 (87 + v)),
      (Z.leb_spec (87 + v) 102); cbn; lia.
Qed.

(** Reads the digits of a number back. *)
Ltac hex_digits :=
  repeat match goal with
  | |- context [hexVal (hexChar ?x)] => rewrite (proj2 (hexChar_ok x ltac:(Z.div_mod_to_equations; lia)))
  | |- context [isHexChar (hexChar ?x)] => rewrite (proj1 (hexChar_ok x ltac:(Z.div_mod_to_equations; lia)))
  end.

Lemma toHex_ok v : isWord v -> isHextet (toHex v) = true /\ parseHex (toHex v) = v.
Proof.
  intros Hv. unfold isWord in Hv. unfold toHex.
  repeat case_match; bool_hyps; unfold isHextet, parseHex; cbn [length forallb fold_left Nat.leb];
    hex_digits; (split; [done|]); Z.div_mod_to_equations; lia.
Qed.

Lemma isHextet_chars p : isHextet p = true -> p <> [] /\ forall c, c ∈ p -> isHexChar c = true.
Proof.
  unfold isHextet. destruct p as [|x p]; [done|]. intros [_ H]%andb_true_iff. split; [done|].
  rewrite forallb_forall in H. intros c Hc. by apply H, list_elem_of_In.
Qed.

(** Hexadecimal text is lower case and has no separator. *)
Lemma isHexChar_facts c :
  isHexChar c = true -> lowerUnit c = [c] /\ c <> COLON /\ c <> DOT /\ c <> 37 /\ c <> 91 /\ isWs c = false.
Proof.
  unfold isHexChar, isDigit. intros H.
  assert (48 <= c <= 57 \/ 97 <= c <= 102) as Hc.
  { destruct (Z.leb_spec 48 c), (Z.leb_spec c 57), (Z.leb_spec 97 c), (Z.leb_spec c 102); cbn in H; try done; lia. }
  clear H. unfold COLON, DOT. repeat split; try lia; unfold lowerUnit, isWs, isLineTerminator;
  repeat match goal with
         | |- context [?a <=? ?b] => destruct (Z.leb_spec a b); try lia
         | |- context [?a =? ?b] => destruct (Z.eqb_spec a b); try lia
         end; done.
Qed.

(** ** Lemmas: written addresses *)

Definition hexText (vs : list Z) : jsstr := joinWith [COLON] (map toHex vs).

(** The textual forms of an IPv6 address: all groups, a run of zeros written as a
    double colon, and the mapped form with a dotted tail. *)
Definition dotted (a b c d : Z) : jsstr :=
  numToString a ++ [DOT] ++ numToString b ++ [DOT] ++ numToString c ++ [DOT] ++ numToString d.

Inductive Writes : list Z -> jsstr -> Prop :=
| write_full vs : length vs = 8%nat -> Writes vs (hexText vs)
| write_compressed hd tl :
    (length hd + length tl <= 8)%nat ->
    Writes (hd ++ replicate (8 - length hd - length tl) 0 ++ tl) (hexText hd ++ [COLON; COLON] ++ hexText tl)
| write_mapped a b c d :
    0 <= a < 256 -> 0 <= b < 256 -> 0 <= c < 256 -> 0 <= d < 256 ->
    Writes [0; 0; 0; 0; 0; 65535; a * 256 + b; c * 256 + d] (js "::ffff:" ++ dotted a b c d).

(** The units such a text consists of. *)
Definition addrChar (c : Z) : bool := isHexChar c || (c =? COLON).

Lemma hexText_chars vs c : Forall isWord vs -> c ∈ hexText vs -> addrChar c = true.
Proof.
  unfold hexText, addrChar. induction 1 as [|v vs Hv Hvs IH]; [by intros ?%not_elem_of_nil|].
  destruct (isHextet_chars _ (proj1 (toHex_ok v Hv))) as [_ Hc]. cbn [map]. destruct vs as [|w vs].
  - cbn [map joinWith]. intros H. by rewrite (Hc _ H).
  - change (joinWith [COLON] (toHex v :: map toHex (w :: vs)))
      with (toHex v ++ [COLON] ++ joinWith [COLON] (map toHex (w :: vs))).
    rewrite !elem_of_app, list_elem_of_singleton. intros [H|[->|H]]; [by rewrite (Hc _ H)|done|auto].
Qed.

Lemma splitNonempty_hexText vs : Forall isWord vs -> splitNonempty (hexText vs) = map toHex vs.
Proof.
  intros H. destruct vs as [|v vs]; [done|].
  assert (Hs : splitOn COLON (hexText (v :: vs)) = map toHex (v :: vs)).
  { apply split_join; [done|]. apply Forall_map. eapply Forall_impl; [exact H|]. intros w Hw Hin.
    destruct (isHextet_chars _ (proj1 (toHex_ok w Hw))) as [_ Hc]. apply Hc, isHexChar_facts in Hin. by destruct Hin as (_ & ? & _). }
  unfold splitNonempty. destruct (hexText (v :: vs)) eqn:E; [|done].
  exfalso. cbn in Hs. destruct (isHextet_chars _ (proj1 (toHex_ok v (Forall_inv H)))) as [Hne _]. by simplify_eq.
Qed.

Lemma splitDouble_plain acc p rest : COLON ∉ p -> splitDouble acc (p ++ rest) = splitDouble (acc ++ p) rest.
Proof.
  revert acc; induction p as [|x p IH]; intros acc; [by rewrite app_nil_r|].
  intros [Hx Hp]%not_elem_of_cons. cbn [app splitDouble].
  assert (x =? COLON = false) as -> by (apply Z.eqb_neq; congruence). cbn [andb].
  assert (splitDouble (acc ++ [x]) (p ++ rest) = splitDouble (acc ++ x :: p) rest) as E
    by (rewrite IH by done; by rewrite <- app_assoc).
  by destruct (p ++ rest).
Qed.

Lemma toHex_no_colon v : isWord v -> COLON ∉ toHex v.
Proof.
  intros Hv Hin. destruct (isHextet_chars _ (proj1 (toHex_ok v Hv))) as [_ Hc].
  apply Hc, isHexChar_facts in Hin. by destruct Hin as (_ & ? & _).
Qed.

Lemma splitDouble_hexText acc vs rest :
  Forall isWord vs -> splitDouble acc (hexText vs ++ rest) = splitDouble (acc ++ hexText vs) rest.
Proof.
  intros H. revert acc; induction H as [|v vs Hv Hvs IH]; intros acc; [by rewrite app_nil_r|].
  unfold hexText in *. cbn [map]. destruct vs as [|w vs]; [by apply splitDouble_plain, toHex_no_colon|].
  change (joinWith [COLON] (toHex v :: map toHex (w :: vs)))
    with (toHex v ++ COLON :: joinWith [COLON] (map toHex (w :: vs))).
  set (r := joinWith [COLON] (map toHex (w :: vs))) in *.
  assert (exists x r', r = x :: r' /\ x <> COLON) as (x & r' & Hr & Hx).
  { destruct (isHextet_chars _ (proj1 (toHex_ok w (Forall_inv Hvs)))) as [Hne _].
    pose proof (toHex_no_colon w (Forall_inv Hvs)) as Hc. unfold r. cbn [map].
    destruct (toHex w) as [|x t]; [done|]. apply not_elem_of_cons in Hc as [Hc _].
    exists x. destruct (map toHex vs); cbn; eauto. }
  rewrite <- app_assoc, splitDouble_plain by (by apply toHex_no_colon).
  cbn [app splitDouble]. rewrite Hr at 1. cbn [app].
  assert (x =? COLON = false) as -> by (by apply Z.eqb_neq). rewrite andb_false_r.
  rewrite IH. by rewrite <- !app_assoc.
Qed.

Lemma map_toHex_normal vs : Forall isWord vs -> map (fun p => toHex (parseHex p)) (map toHex vs) = map toHex vs.
Proof. induction 1 as [|v vs Hv Hvs IH]; [done|]. cbn. by rewrite IH, (proj2 (toHex_ok v Hv)). Qed.

Lemma map_toHex_hextets vs : Forall isWord vs -> forallb isHextet (map toHex vs) = true.
Proof. induction 1 as [|v vs Hv Hvs IH]; [done|]. cbn. by rewrite (proj1 (toHex_ok v Hv)). Qed.

Lemma hextetsOf_full vs : Forall isWord vs -> length vs = 8%nat -> hextetsOf (hexText vs) = Some (map toHex vs).
Proof.
  intros H Hl. unfold hextetsOf. rewrite <- (app_nil_r (hexText vs)), splitDouble_hexText by done.
  cbn [splitDouble app]. rewrite splitNonempty_hexText, length_map, Hl by done. cbn.
  by rewrite map_toHex_hextets, map_toHex_normal, length_map, Hl.
Qed.

Lemma hextetsOf_compressed hd tl :
  Forall isWord hd -> Forall isWord tl -> (length hd + length tl <= 8)%nat ->
  hextetsOf (hexText hd ++ [COLON; COLON] ++ hexText tl)
    = Some (map toHex (hd ++ replicate (8 - length hd - length tl) 0 ++ tl)).
Proof.
  intros Hh Ht Hl. unfold hextetsOf. rewrite splitDouble_hexText by done.
  cbn [splitDouble app Z.eqb andb COLON Pos.eqb].
  rewrite <- (app_nil_r (hexText tl)), splitDouble_hexText by done. cbn [splitDouble app].
  rewrite !splitNonempty_hexText, !length_map by done.
  assert ((8 <? length hd + length tl)%nat = false) as -> by (apply Nat.ltb_ge; lia).
  set (vs := hd ++ replicate (8 - length hd - length tl) 0 ++ tl).
  assert (map toHex hd ++ replicate (8 - length hd - length tl) (js "0") ++ map toHex tl = map toHex vs) as ->.
  { unfold vs. rewrite !map_app. do 2 f_equal. symmetry. apply (fmap_replicate toHex). }
  assert (Hw : Forall isWord vs).
  { repeat (apply Forall_app; split); try done. apply Forall_replicate. unfold isWord. lia. }
  cbn [mbind option_bind]. rewrite map_toHex_hextets, map_toHex_normal, length_map by done.
  assert (length vs = 8%nat) as -> by (unfold vs; rewrite !length_app, length_replicate; lia). done.
Qed.

Lemma dottedTail_none b s : DOT ∉ s -> dottedTail b s = None.
Proof.
  revert b; induction s as [|c s IH]; intros b Hd; [done|].
  assert (dottedAt (c :: s) = None) as E.
  { unfold dottedAt, dottedGroup, digitGroup. destruct (spanDigits (c :: s)) as [d r] eqn:Es.
    apply spanDigits_split in Es. destruct (_ || _)%nat; [done|]. destruct r as [|x r]; [done|].
    destruct (Z.eqb_spec x DOT) as [->|]; [|done]. exfalso. apply Hd. rewrite Es. set_solver. }
  cbn [dottedTail]. rewrite E. apply IH. set_solver.
Qed.

Lemma lower_units s : (forall c, c ∈ s -> lowerUnit c = [c]) -> toLowerCase s = s.
Proof.
  unfold toLowerCase. induction s as [|c s IH]; intros H; [done|]. cbn [flat_map].
  rewrite (H c) by left. rewrite IH; [done|]. intros d Hd. apply H. by right.
Qed.

Lemma addrChar_facts c :
  addrChar c = true -> lowerUnit c = [c] /\ c <> DOT /\ c <> 37 /\ c <> 91 /\ isWs c = false.
Proof.
  unfold addrChar. destruct (isHexChar c) eqn:E; cbn [orb].
  - intros _. apply isHexChar_facts in E. tauto.
  - intros ->%Z.eqb_eq. done.
Qed.

(** ** Written addresses are expanded to their groups *)

Lemma expand_plain s :
  (forall c, c ∈ s -> addrChar c = true) -> expandIpv6 s = hextetsOf s.
Proof.
  intros H. unfold expandIpv6. rewrite lower_units by (intros c Hc; by apply addrChar_facts, H).
  rewrite dottedTail_none; [done|]. intros Hd. apply H, addrChar_facts in Hd. tauto.
Qed.

Lemma octet_length n : 0 <= n < 256 -> length (numToString n) = 1%nat \/ length (numToString n) = 2%nat \/ length (numToString n) = 3%nat.
Proof.
  intros Hn.
  assert (H : forallb (fun n => let l := length (numToString n) in (1 <=? l)%nat && (l <=? 3)%nat) (seqZ 0 256) = true)
    by (by vm_compute).
  rewrite forallb_forall in H. specialize (H n). cbv zeta in H. rewrite andb_true_iff, !Nat.leb_le in H.
  assert (In n (seqZ 0 256)) as Hin by (apply list_elem_of_In, elem_of_seqZ; lia). specialize (H Hin). lia.
Qed.

Lemma digitGroup_number n c r :
  0 <= n < 256 -> isDigit c = false -> digitGroup (numToString n ++ c :: r) = Some (n, c :: r).
Proof.
  intros Hn Hc. unfold digitGroup. rewrite spanDigits_number by (done || lia).
  destruct (octet_length n Hn) as [->|[-> | ->]]; cbn; by rewrite numToString_val by lia.
Qed.

Lemma dottedAt_dotted a b c d :
  0 <= a < 256 -> 0 <= b < 256 -> 0 <= c < 256 -> 0 <= d < 256 -> dottedAt (dotted a b c d) = Some (a, b, c, d).
Proof.
  intros Ha Hb Hc Hd. unfold dottedAt, dotted, dottedGroup. cbn [app].
  rewrite digitGroup_number by done. cbn. rewrite digitGroup_number by done. cbn.
  rewrite digitGroup_number by done. cbn.
  unfold digitGroup.
  assert (forallb isDigit (numToString d) = true) as Hd'.
  { pose proof (numToString_digits d ltac:(lia)) as H. unfold isDigits in H. by destruct (numToString d). }
  rewrite spanDigits_all by done.
  destruct (octet_length d Hd) as [->|[-> | ->]]; cbn; by rewrite numToString_val by lia.
Qed.

Lemma dotted_head a b c d : 0 <= a < 256 -> exists x r, dotted a b c d = x :: r /\ isDigit x = true.
Proof.
  intros Ha. unfold dotted. pose proof (numToString_digits a ltac:(lia)) as H.
  destruct (numToString a) as [|x r]; [done|]. unfold isDigits in H. cbn [forallb] in H. apply andb_true_iff in H as [H _].
  eexists _, _. done.
Qed.

Lemma dotted_lower a b c d :
  0 <= a < 256 -> 0 <= b < 256 -> 0 <= c < 256 -> 0 <= d < 256 ->
  forall u, u ∈ dotted a b c d -> (48 <= u <= 57 \/ u = DOT).
Proof.
  intros Ha Hb Hc Hd u. unfold dotted. rewrite !elem_of_app, !list_elem_of_singleton.
  assert (Hn : forall n, 0 <= n < 256 -> u ∈ numToString n -> 48 <= u <= 57)
    by (intros n Hn; apply isDigits_elem, numToString_digits; lia).
  intros [H|[H|[H|[H|[H|[H|H]]]]]]; eauto.
Qed.

Lemma pairHex_word a b : 0 <= a < 256 -> 0 <= b < 256 -> pairHex a b = toHex (a * 256 + b).
Proof.
  intros Ha Hb. unfold pairHex. f_equal. apply (lor_shiftl_add a b 8); lia.
Qed.

Lemma Writes_words vs t : Writes vs t -> length vs = 8%nat.
Proof. destruct 1; [done| |done]. rewrite !length_app, length_replicate. lia. Qed.

Lemma expand_mapped a b c d :
  0 <= a < 256 -> 0 <= b < 256 -> 0 <= c < 256 -> 0 <= d < 256 ->
  expandIpv6 (js "::ffff:" ++ dotted a b c d)
    = Some (map toHex [0; 0; 0; 0; 0; 65535; a * 256 + b; c * 256 + d]).
Proof.
  intros Ha Hb Hc Hd. unfold expandIpv6. rewrite lower_units.
  2: { intros u [H|H]%elem_of_app.
       - apply (addrChar_facts u). revert u H. apply Forall_forall. by repeat constructor.
       - destruct (dotted_lower a b c d Ha Hb Hc Hd u H) as [H'| ->]; [|done]. apply isHexChar_facts.
         unfold isHexChar, isDigit. destruct (Z.leb_spec 48 u), (Z.leb_spec u 57); lia || done. }
  destruct (dotted_head a b c d Ha) as (x & r & Hx & Hdx).
  assert (Ht : dottedTail [] (js "::ffff:" ++ dotted a b c d) = Some (js "::ffff:", (a, b, c, d))).
  { pose proof (dottedAt_dotted a b c d Ha Hb Hc Hd) as Ed. rewrite Hx in *.
    change (js "::ffff:" ++ x :: r) with (58 :: 58 :: 102 :: 102 :: 102 :: 102 :: 58 :: x :: r).
    do 7 (cbn [dottedTail]; assert (forall q, isDigit q = false -> forall z, dottedAt (q :: z) = None) as Hq
      by (intros q Hq z; unfold dottedAt, dottedGroup, digitGroup; cbn -[isDigit]; by rewrite Hq);
      rewrite Hq by done; clear Hq). cbn [dottedTail]. by rewrite Ed. }
  rewrite Ht.
  repeat match goal with |- context [255 <? ?x] => destruct (Z.ltb_spec 255 x); [lia|] end. cbn [orb].
  rewrite !pairHex_word by done.
  change (js "::ffff:" ++ toHex (a * 256 + b) ++ [COLON] ++ toHex (c * 256 + d))
    with (hexText [] ++ [COLON; COLON] ++ hexText [65535; a * 256 + b; c * 256 + d]).
  rewrite hextetsOf_compressed; [done|constructor|repeat constructor; unfold isWord; lia|cbn; lia].
Qed.

Lemma expand_writes vs t : Writes vs t -> Forall isWord vs -> expandIpv6 t = Some (map toHex vs).
Proof.
  destruct 1 as [vs Hl|hd tl Hl|a b c d Ha Hb Hc Hd]; intros Hw.
  - rewrite expand_plain by (intros c Hc; by eapply hexText_chars). by apply hextetsOf_full.
  - apply Forall_app in Hw as [Hh [_ Ht]%Forall_app]. rewrite expand_plain; [by apply hextetsOf_compressed|].
    intros c. rewrite !elem_of_app. intros [H|[H|H]]; [by apply (hexText_chars hd)| |by apply (hexText_chars tl)].
    assert (c = COLON) as -> by set_solver. done.
  - by apply expand_mapped.
Qed.

(** Nothing is trimmed or stripped from such a text. *)
Lemma trimStart_id s : (forall c, c ∈ s -> isWs c = false) -> trimStart s = s.
Proof. destruct s as [|c s]; [done|]. intros H. cbn [trimStart]. by rewrite (H c) by left. Qed.

Lemma trim_id s : (forall c, c ∈ s -> isWs c = false) -> trim s = s.
Proof.
  intros H. unfold trim, trimEnd. rewrite (trimStart_id s H), trimStart_id; [apply rev_involutive|].
  intros c Hc. apply H. by rewrite list_elem_of_In, in_rev, <- list_elem_of_In.
Qed.

Definition bareChar (c : Z) : Prop := isWs c = false /\ c <> 37 /\ c <> 91.

Lemma bare_text t :
  (forall c, c ∈ t -> bareChar c) -> trim t = t /\ stripZone (stripBrackets t) = t.
Proof.
  intros H. split; [apply trim_id; intros c Hc; by apply H|].
  assert (stripBrackets t = t) as ->.
  { unfold stripBrackets. destruct t as [|c t]; [done|]. cbn [startsWith js]. 
    destruct (H c) as (_ & _ & Hb); [left|]. change (js "[") with [91]. cbn [startsWith].
    by rewrite (proj2 (Z.eqb_neq 91 c)) by congruence. }
  unfold stripZone. rewrite (proj2 (indexOf_None 37 t)); [done|]. intros Hin. by apply H in Hin as (_ & ? & _).
Qed.

Lemma writes_bare vs t : Writes vs t -> Forall isWord vs -> t <> [] /\ forall c, c ∈ t -> bareChar c.
Proof.
  intros HW Hw. assert (Hx : forall us c, Forall isWord us -> c ∈ hexText us -> bareChar c).
  { intros us c Hus Hc. apply (hexText_chars us c Hus), addrChar_facts in Hc. unfold bareChar. tauto. }
  destruct HW as [vs Hl|hd tl Hl|a b c d Ha Hb Hc Hd].
  - split; [|eauto]. intros E. pose proof (splitNonempty_hexText vs Hw) as Hs. rewrite E in Hs.
    destruct vs; [done|]. done.
  - split; [by destruct (hexText hd)|]. apply Forall_app in Hw as [Hh [_ Ht]%Forall_app]. intros c.
    rewrite !elem_of_app. intros [H|[H|H]]; [eauto| |eauto]. assert (c = COLON) as -> by set_solver. done.
  - split; [done|]. intros u [H|H]%elem_of_app.
    + revert u H. apply Forall_forall. by repeat constructor.
    + destruct (dotted_lower a b c d Ha Hb Hc Hd u H) as [H'| ->]; [|done].
      destruct (isHexChar_facts u) as (_ & _ & _ & ? & ? & ?); [|done].
      unfold isHexChar, isDigit. destruct (Z.leb_spec 48 u), (Z.leb_spec u 57); lia || done.
Qed.

Section KeyTheorem.
Context {N : NodeNet}.

(** The IPv4 address a mapped IPv6 address stands for. *)
Definition mappedOf (vs : list Z) : option jsstr :=
  if take 6 vs === [0; 0; 0; 0; 0; 65535] then
    let hi := nth 6 vs 0 in
    let lo := nth 7 vs 0 in
    Some (dotted (hi / 256) (hi mod 256) (lo / 256) (lo mod 256))
  else None.

Lemma toHex_inj v w : isWord v -> isWord w -> toHex v = toHex w -> v = w.
Proof. intros Hv Hw E. rewrite <- (proj2 (toHex_ok v Hv)), <- (proj2 (toHex_ok w Hw)). by rewrite E. Qed.

Lemma toHex_eqb v w lit : isWord v -> isWord w -> toHex w = lit -> (toHex v === lit) = (v =? w).
Proof.
  intros Hv Hw <-. destruct (Z.eqb_spec v w) as [->|Hne]; [apply seqb_refl|].
  apply seqb_neq. intros E. by apply Hne, toHex_inj.
Qed.

Lemma word_bytes v : isWord v -> Z.shiftr v 8 = v / 256 /\ Z.land v 255 = v mod 256.
Proof.
  intros Hv. split; [by rewrite Z.shiftr_div_pow2|]. change 255 with (Z.ones 8). by rewrite Z.land_ones.
Qed.

Lemma ipv4Of_writes vs t :
  Writes vs t -> Forall isWord vs -> isIP t = 6 -> ipv4Of t = mappedOf vs.
Proof.
  intros HW Hw Hip. unfold ipv4Of. rewrite Hip, (expand_writes vs t HW Hw). cbn [Z.eqb Pos.eqb negb mbind option_bind].
  pose proof (Writes_words _ _ HW) as Hl.
  destruct vs as [|v0 [|v1 [|v2 [|v3 [|v4 [|v5 [|v6 [|v7 [|? ?]]]]]]]]]; try done. cbn [map].
  repeat match goal with H : Forall isWord (_ :: _) |- _ => apply Forall_cons in H as [? H] end.
  rewrite !(toHex_eqb _ 0 (js "0")), (toHex_eqb _ 65535 (js "ffff")) by (done || (unfold isWord; lia)).
  rewrite (proj2 (toHex_ok v6 ltac:(done))), (proj2 (toHex_ok v7 ltac:(done))).
  destruct (word_bytes v6) as [-> ->]; [done|]. destruct (word_bytes v7) as [-> ->]; [done|].
  unfold mappedOf. cbn [take seqb nth]. rewrite andb_true_r, <- !andb_assoc. by case_match.
Qed.

(** Every way of writing an address falls into the bucket of what it costs: an IPv6
    address, written in full, with a double colon or with a dotted tail, is counted
    under the first four groups (its /64), so changing the lower half or the spelling
    never gives a new bucket; an IPv4-mapped address is counted under the dotted IPv4
    address itself. *)
Theorem throttleKeyOf_prefix vs t :
  Writes vs t -> Forall isWord vs -> isIP t = 6 ->
  throttleKeyOf (Some t)
    = match mappedOf vs with Some v4 => v4 | None => hexText (take 4 vs) ++ js "::/64" end.
Proof.
  intros HW Hw Hip. destruct (writes_bare _ _ HW Hw) as [Hne Hb]. destruct (bare_text t Hb) as [Ht Hs].
  unfold throttleKeyOf. change (default [] (Some t)) with t. rewrite Ht, Hs.
  assert (len t =? 0 = false) as -> by (apply Z.eqb_neq; by intros ?%len_zero).
  rewrite (ipv4Of_writes vs t) by done. destruct (mappedOf vs); [done|]. rewrite Hip. cbn [Z.eqb Pos.eqb negb].
  rewrite (expand_writes vs t) by done. unfold hexText. by rewrite firstn_map.
Qed.
End KeyTheorem.

(** A reading of [isIP] on texts of hexadecimal digits, dots and colons. *)
#[local] Instance toyNet : NodeNet :=
  {| isIP := fun t => if bool_decide (COLON ∈ t) then 6 else if bool_decide (DOT ∈ t) then 4 else 0 |}.

Lemma throttleKeyOf_prefix_witness :
  throttleKeyOf (Some (js "2001:db8::1:2")) = js "2001:db8:0:0::/64" /\
  throttleKeyOf (Some (js "::ffff:10.0.0.1")) = js "10.0.0.1".
Proof.
  split.
  - refine (eq_trans (throttleKeyOf_prefix ([8193; 3512] ++ replicate 4 0 ++ [1; 2]) (js "2001:db8::1:2") _ _ _) _).
    + apply (write_compressed [8193; 3512] [1; 2]). cbn. lia.
    + repeat constructor; unfold isWord; lia.
    + vm_compute. reflexivity.
    + vm_compute. reflexivity.
  - refine (eq_trans (throttleKeyOf_prefix [0; 0; 0; 0; 0; 65535; 2560; 1] (js "::ffff:10.0.0.1") _ _ _) _).
    + apply (write_mapped 10 0 0 1); lia.
    + repeat constructor; unfold isWord; lia.
    + vm_compute. reflexivity.
    + vm_compute. reflexivity.
Defined.
