(* ===== verification/Throttle.v ===== *)
(** * Authentication throttle and connection limit
      (packages/core/src/auth-throttle.ts, peer-limit.ts)

    The JavaScript maps are [gmap]s: their order is never observed.  The store several
    servers share is the class [SharedThrottleStore]; an operation that throws returns
    [None] (reads) or [false] (writes).  Times are integers in milliseconds.  Every
    method runs without interruption here: the counters of the process are updated
    before its first [await].  Log lines are left out. *)

From S2P Require Import Prelude JsString Net.

(** ** Counters *)

Record ThrottleCounter := mkCounter { fails : Z; lastFailAt : Z }.

Record ThrottlePolicy := mkPolicy {
  freeFailures : Z; baseDelayMs : Z; maxDelayMs : Z; resetAfterMs : Z
}.

Definition defaultPolicy : ThrottlePolicy :=
  {| freeFailures := 5; baseDelayMs := 1000; maxDelayMs := 15 * 60000; resetAfterMs := 15 * 60000 |}.

Definition SHARED_SWEEP_INTERVAL_MS : Z := 10 * 60000.
Definition SHARED_ERROR_LOG_INTERVAL_MS : Z := 60000.
Definition READ_MEMO_MS : Z := 30000.
Definition MAX_READ_MEMO : nat := 100 * 100.
Definition MAX_BLOCK_CACHE : nat := 100 * 100.
Definition IP_PREFIX : jsstr := js "ip|".
Definition ACCOUNT_PREFIX : jsstr := js "account|".
Definition MAX_ACCOUNT_KEY_LEN : nat := 254.

#[global] Arguments MAX_READ_MEMO : simpl never.
#[global] Arguments MAX_BLOCK_CACHE : simpl never.

Definition blockedUntil (c : option ThrottleCounter) (now : Z) (p : ThrottlePolicy) : Z :=
  match c with
  | None => 0
  | Some c =>
      if fails c <? freeFailures p then 0
      else if resetAfterMs p <=? now - lastFailAt c then 0
      else
        let exp := Z.min (fails c - freeFailures p) 30 in
        let delay := Z.min (baseDelayMs p * 2 ^ exp) (maxDelayMs p) in
        let until := lastFailAt c + delay in
        if now <? until then until else 0
  end.

(** [Math.max(1, Math.ceil(ms / 1000))] *)
Definition waitSeconds (ms : Z) : Z := Z.max 1 (- (- ms / 1000)).

(** ** The shared store *)

Class SharedThrottleStore := {
  Store : Type;
  sh_read : list jsstr -> Store -> option (gmap jsstr ThrottleCounter);
  sh_recordFailure : jsstr -> Z -> Z -> Store -> Store * bool;
  sh_clear : list jsstr -> Store -> Store * bool;
  sh_sweep : Z -> Store -> Store * bool
}.

Record AuthSubject := mkSubject { s_ip : option jsstr; s_account : option jsstr }.

Definition accountKeyOf (account : option jsstr) : option jsstr :=
  match toLowerCase (trim (default [] account)) with
  | [] => None
  | s => Some (if (MAX_ACCOUNT_KEY_LEN <? length s)%nat then take MAX_ACCOUNT_KEY_LEN s else s)
  end.

(** The buckets of a subject: its address prefix and its account. *)
Definition axesOf {N : NodeNet} (subject : AuthSubject) : list jsstr :=
  match s_ip subject with Some ip => [IP_PREFIX ++ throttleKeyOf (Some ip)] | None => [] end
  ++ match accountKeyOf (s_account subject) with Some a => [ACCOUNT_PREFIX ++ a] | None => [] end.

Record Throttle := mkThrottle {
  local : gmap jsstr ThrottleCounter;
  readMemo : gmap jsstr (Z * bool);
  blockCache : gmap jsstr Z;
  unsynced : gmap jsstr Z;
  lastLocalSweep : Z;
  lastSharedSweep : Z;
  lastSharedErrorLog : Z
}.

Definition newThrottle : Throttle :=
  {| local := ∅; readMemo := ∅; blockCache := ∅; unsynced := ∅;
     lastLocalSweep := 0; lastSharedSweep := 0; lastSharedErrorLog := 0 |}.

Section Throttle.
Context {N : NodeNet} {Sh : SharedThrottleStore} (policy : ThrottlePolicy).

Definition sharedFailed (now : Z) (t : Throttle) : Throttle :=
  if now - lastSharedErrorLog t <? SHARED_ERROR_LOG_INTERVAL_MS then t else t <| lastSharedErrorLog := now |>.

Definition readShared (keys : list jsstr) (now : Z) (sh : option Store) (t : Throttle)
    : Throttle * option (gmap jsstr ThrottleCounter) :=
  match sh with
  | None => (t, None)
  | Some st =>
      match sh_read keys st with
      | Some got =>
          let memo := if (MAX_READ_MEMO <=? size (readMemo t))%nat then ∅ else readMemo t in
          (t <| readMemo := fold_left (fun m k => <[k := (now, bool_decide (is_Some (got !! k)))]> m) keys memo |>,
           Some got)
      | None => (sharedFailed now t, None)
      end
  end.

Definition isUnsynced (key : jsstr) (now : Z) (t : Throttle) : Throttle * bool :=
  match unsynced t !! key with
  | None => (t, false)
  | Some u => if now <? u then (t, true) else (t <| unsynced ::= delete key |>, false)
  end.

(** The first loop of [retryAfterSeconds]: the latest cached block, dropping those that
    are over. *)
Fixpoint cachedBlock (axes : list jsstr) (now : Z) (cached : Z) (t : Throttle) : Throttle * Z :=
  match axes with
  | [] => (t, cached)
  | k :: axes' =>
      match blockCache t !! k with
      | None => cachedBlock axes' now cached t
      | Some u =>
          if now <? u then cachedBlock axes' now (Z.max cached u) t
          else cachedBlock axes' now cached (t <| blockCache ::= delete k |>)
      end
  end.

(** How long one bucket blocks. *)
Definition bucketUntil (shared : option (gmap jsstr ThrottleCounter)) (k : jsstr) (now : Z) (t : Throttle)
    : Throttle * Z :=
  let own := blockedUntil (local t !! k) now policy in
  match shared with
  | None => (t, own)
  | Some got =>
      let '(t, stale) := isUnsynced k now t in
      let theirs := blockedUntil (got !! k) now policy in
      (t, if stale then Z.max own theirs else theirs)
  end.

Definition cacheBlock (k : jsstr) (u : Z) (t : Throttle) : Throttle :=
  t <| blockCache ::= fun m => <[k := u]> (if (MAX_BLOCK_CACHE <=? size m)%nat then ∅ else m) |>.

(** The second loop. *)
Fixpoint blockLoop (axes : list jsstr) (shared : option (gmap jsstr ThrottleCounter)) (now until : Z)
    (t : Throttle) : Throttle * Z :=
  match axes with
  | [] => (t, until)
  | k :: axes' =>
      let '(t, u) := bucketUntil shared k now t in
      let t := if now <? u then cacheBlock k u t else t in
      blockLoop axes' shared now (Z.max until u) t
  end.

Definition retryAfterSeconds (subject : AuthSubject) (now : Z) (sh : option Store) (t : Throttle)
    : Throttle * Z :=
  match axesOf subject with
  | [] => (t, 0)
  | axes =>
      let '(t, cached) := cachedBlock axes now 0 t in
      if now <? cached then (t, waitSeconds (cached - now))
      else
        let '(t, shared) := readShared axes now sh t in
        let '(t, until) := blockLoop axes shared now 0 t in
        (t, if now <? until then waitSeconds (until - now) else 0)
  end.

Definition blocked (subject : AuthSubject) (now : Z) (sh : option Store) (t : Throttle) : Throttle * bool :=
  let '(t, s) := retryAfterSeconds subject now sh t in (t, 0 <? s).

(** The next counter of a bucket. *)
Definition nextCounter (prev : option ThrottleCounter) (now : Z) : ThrottleCounter :=
  match prev with
  | None => {| fails := 1; lastFailAt := now |}
  | Some c =>
      if resetAfterMs policy <=? now - lastFailAt c then {| fails := 1; lastFailAt := now |}
      else {| fails := fails c + 1; lastFailAt := now |}
  end.

Definition recordLocal (now : Z) (t : Throttle) (k : jsstr) : Throttle :=
  t <| local ::= fun m => <[k := nextCounter (m !! k) now]> m |> <| readMemo ::= delete k |>.

Definition sweepLocal (now : Z) (t : Throttle) : Throttle :=
  if now - lastLocalSweep t <? resetAfterMs policy then t
  else
    {| local := filter (fun kc => ~ resetAfterMs policy <= now - lastFailAt kc.2) (local t);
       readMemo := filter (fun km => ~ READ_MEMO_MS <= now - km.2.1) (readMemo t);
       blockCache := filter (fun ku => ~ ku.2 <= now) (blockCache t);
       unsynced := filter (fun ku => ~ ku.2 <= now) (unsynced t);
       lastLocalSweep := now; lastSharedSweep := lastSharedSweep t; lastSharedErrorLog := lastSharedErrorLog t |}.

(** The write to the shared store for one bucket; a failed one marks the bucket. *)
Definition recordShared (now : Z) (ts : Throttle * Store) (k : jsstr) : Throttle * Store :=
  let '(t, st) := ts in
  let '(st, ok) := sh_recordFailure k now (now - resetAfterMs policy) st in
  if ok then (t, st)
  else
    (sharedFailed now
       (t <| unsynced ::= fun m => <[k := now + resetAfterMs policy]>
                                     (if (MAX_BLOCK_CACHE <=? size m)%nat then ∅ else m) |>), st).

Definition sweepShared (now : Z) (ts : Throttle * Store) : Throttle * Store :=
  let '(t, st) := ts in
  if SHARED_SWEEP_INTERVAL_MS <=? now - lastSharedSweep t then
    let t := t <| lastSharedSweep := now |> in
    let '(st, ok) := sh_sweep (now - resetAfterMs policy) st in
    (if ok then t else sharedFailed now t, st)
  else (t, st).

Definition recordFailure (subject : AuthSubject) (now : Z) (sh : option Store) (t : Throttle)
    : Throttle * option Store :=
  let axes := axesOf subject in
  let t := sweepLocal now (fold_left (recordLocal now) axes t) in
  match sh, axes with
  | Some st, _ :: _ =>
      let '(t, st) := sweepShared now (fold_left (recordShared now) axes (t, st)) in (t, Some st)
  | _, _ => (t, sh)
  end.

Definition forget (t : Throttle) (k : jsstr) : Throttle :=
  t <| local ::= delete k |> <| blockCache ::= delete k |> <| unsynced ::= delete k |>.

(** The bucket was read as absent a moment ago: nothing to clear. *)
Definition knownAbsent (now : Z) (t : Throttle) (k : jsstr) : bool :=
  match readMemo t !! k with Some (at_, present) => negb present && (now - at_ <? READ_MEMO_MS) | None => false end.

Definition clear (subject : AuthSubject) (now : Z) (sh : option Store) (t : Throttle)
    : Throttle * option Store :=
  let axes := axesOf subject in
  let t := fold_left forget axes t in
  match sh, axes with
  | Some st, _ :: _ =>
      match filter (fun k => knownAbsent now t k = false) axes with
      | [] => (t, sh)
      | toClear =>
          let '(st, ok) := sh_clear toClear st in
          if ok then (t <| readMemo ::= fun m => fold_left (fun m k => <[k := (now, false)]> m) toClear m |>, Some st)
          else (sharedFailed now t, Some st)
      end
  | _, _ => (t, sh)
  end.
End Throttle.

Arguments blockedUntil : simpl never.
Arguments waitSeconds : simpl never.
Arguments axesOf : simpl never.
Arguments nextCounter : simpl never.

(** ** What the store promises when the database answers

    [table] is the content of the store.  A counter may only restart once the last
    failure is at least as old as the given time. *)
Class ReliableStore (Sh : SharedThrottleStore) := {
  table : Store -> gmap jsstr ThrottleCounter;
  read_law : forall ks st, (length ks <= 2)%nat ->
    exists got, sh_read ks st = Some got /\ forall k, k ∈ ks -> got !! k = table st !! k;
  record_law : forall k now before st, exists st',
    sh_recordFailure k now before st = (st', true) /\
    (forall k', k' <> k -> table st' !! k' = table st !! k') /\
    exists c', table st' !! k = Some c' /\ lastFailAt c' = now /\
      ((forall c, table st !! k = Some c -> 1 <= fails c) -> 1 <= fails c') /\
      forall c, table st !! k = Some c -> before < lastFailAt c -> fails c + 1 <= fails c';
  clear_law : forall ks st, exists st',
    sh_clear ks st = (st', true) /\ table st' ⊆ table st /\
    (forall k, k ∉ ks -> table st' !! k = table st !! k);
  sweep_law : forall before st, exists st',
    sh_sweep before st = (st', true) /\ table st' ⊆ table st /\
    forall k c, table st !! k = Some c -> before <= lastFailAt c -> table st' !! k = Some c
}.

(** *** The table [auth_failures] (packages/store/src/auth-failures.ts) *)

(** [UPDATE ... SET fails = CASE WHEN last_fail_at <= ? THEN 1 ELSE fails + 1 END]: the
    new table and the number of changed rows. *)
Definition dbUpdate (k : jsstr) (now before : Z) (m : gmap jsstr ThrottleCounter)
    : gmap jsstr ThrottleCounter * nat :=
  match m !! k with
  | None => (m, 0%nat)
  | Some c => (<[k := {| fails := if lastFailAt c <=? before then 1 else fails c + 1; lastFailAt := now |}]> m, 1%nat)
  end.

Definition dbInsertIgnore (k : jsstr) (now : Z) (m : gmap jsstr ThrottleCounter)
    : gmap jsstr ThrottleCounter * nat :=
  match m !! k with
  | None => (<[k := {| fails := 1; lastFailAt := now |}]> m, 1%nat)
  | Some _ => (m, 0%nat)
  end.

Definition dbRecordFailure (k : jsstr) (now before : Z) (m : gmap jsstr ThrottleCounter)
    : gmap jsstr ThrottleCounter * bool :=
  match dbUpdate k now before m with
  | (m, S _) => (m, true)
  | (m, O) =>
      match dbInsertIgnore k now m with
      | (m, S _) => (m, true)
      | (m, O) => ((dbUpdate k now before m).1, true)
      end
  end.

Definition MAX_READ_BUCKETS : nat := 8.

(** [SELECT ... WHERE bucket IN (...)] *)
Definition dbRead (ks : list jsstr) (m : gmap jsstr ThrottleCounter) : option (gmap jsstr ThrottleCounter) :=
  if (MAX_READ_BUCKETS <? length ks)%nat then None else Some (filter (fun kc => kc.1 ∈ ks) m).

Definition dbClear (ks : list jsstr) (m : gmap jsstr ThrottleCounter) : gmap jsstr ThrottleCounter * bool :=
  (filter (fun kc => kc.1 ∉ ks) m, true).

Definition dbSweep (before : Z) (m : gmap jsstr ThrottleCounter) : gmap jsstr ThrottleCounter * bool :=
  (filter (fun kc => ~ lastFailAt kc.2 < before) m, true).

Definition dbStore : SharedThrottleStore :=
  {| Store := gmap jsstr ThrottleCounter; sh_read := dbRead; sh_recordFailure := dbRecordFailure;
     sh_clear := dbClear; sh_sweep := dbSweep |}.

Lemma dbRecordFailure_eq k now before m :
  dbRecordFailure k now before m
    = (<[k := {| fails := match m !! k with
                          | Some c => if lastFailAt c <=? before then 1 else fails c + 1
                          | None => 1
                          end; lastFailAt := now |}]> m, true).
Proof.
  unfold dbRecordFailure, dbUpdate, dbInsertIgnore. destruct (m !! k) as [c|] eqn:E; [done|]. by rewrite E.
Qed.

#[global] Instance dbStore_reliable : ReliableStore dbStore.
Proof.
  refine {| table := fun m : @Store dbStore => (m : gmap jsstr ThrottleCounter) |}.
  - intros ks st Hl. cbn. unfold dbRead, MAX_READ_BUCKETS.
    assert ((8 <? length ks)%nat = false) as -> by (apply Nat.ltb_ge; lia).
    eexists. split; [done|]. intros k Hk. apply option_eq. intros c.
    rewrite map_lookup_filter_Some. cbn. tauto.
  - intros k now before st. cbn. change (gmap jsstr ThrottleCounter) in st. rewrite dbRecordFailure_eq.
    eexists. split; [done|]. split; [intros k' Hk; by rewrite lookup_insert_ne by congruence|].
    eexists. rewrite lookup_insert_eq. split; [done|]. split; [done|]. cbn.
    destruct (st !! k) as [c|]; [|done]. split; [intros H; specialize (H c eq_refl); case_match; lia|].
    intros c0 [= <-] Hb. by rewrite (proj2 (Z.leb_gt _ _)).
  - intros ks st. eexists. split; [done|]. cbn. split; [apply map_filter_subseteq|].
    intros k Hk. apply option_eq. intros c. rewrite map_lookup_filter_Some. cbn. tauto.
  - intros before st. eexists. split; [done|]. cbn. split; [apply map_filter_subseteq|].
    intros k c Hk Hb. apply map_lookup_filter_Some. cbn. split; [done|lia].
Defined.

(** ** Counters compared *)

Section Theory.
Context {N : NodeNet} (policy : ThrottlePolicy).

(** A sensible policy: the default one is. *)
Record PolicyOk : Prop := {
  po_base : 0 <= baseDelayMs policy;
  po_max : 0 <= maxDelayMs policy <= resetAfterMs policy
}.

Definition isBlocked (c : option ThrottleCounter) (now : Z) : Prop := now < blockedUntil c now policy.

(** The counter no longer matters. *)
Definition stale (c : ThrottleCounter) (now : Z) : Prop := resetAfterMs policy <= now - lastFailAt c.

#[global] Instance stale_dec c now : Decision (stale c now).
Proof. unfold stale. apply _. Defined.

Definition delayOf (c : ThrottleCounter) : Z :=
  Z.min (baseDelayMs policy * 2 ^ Z.min (fails c - freeFailures policy) 30) (maxDelayMs policy).

Lemma isBlocked_spec c now :
  0 <= now ->
  isBlocked (Some c) now <->
  freeFailures policy <= fails c /\ ~ stale c now /\ now < lastFailAt c + delayOf c.
Proof.
  intros Hn. unfold isBlocked, blockedUntil, stale, delayOf.
  destruct (Z.ltb_spec (fails c) (freeFailures policy)); [lia|].
  destruct (Z.leb_spec (resetAfterMs policy) (now - lastFailAt c)); [lia|]. cbv zeta.
  destruct (Z.ltb_spec now (lastFailAt c + Z.min (baseDelayMs policy * 2 ^ Z.min (fails c - freeFailures policy) 30)
    (maxDelayMs policy))); lia.
Qed.

Lemma isBlocked_value c now :
  isBlocked c now -> 0 <= now ->
  exists c', c = Some c' /\ blockedUntil c now policy = lastFailAt c' + delayOf c'.
Proof.
  unfold isBlocked, blockedUntil, delayOf. destruct c as [c|]; [|lia]. intros H Hn. exists c. split; [done|].
  revert H. repeat case_match; bool_hyps; lia.
Qed.

Lemma not_blocked_none now : 0 <= now -> ~ isBlocked None now.
Proof. unfold isBlocked, blockedUntil. lia. Qed.

(** More failures, or later ones, never block less. *)
Definition atLeast (c c' : ThrottleCounter) : Prop := fails c <= fails c' /\ lastFailAt c <= lastFailAt c'.

Lemma delayOf_mono c c' : PolicyOk -> fails c <= fails c' -> freeFailures policy <= fails c -> delayOf c <= delayOf c'.
Proof.
  intros [Hb Hm] Hf Hfree. unfold delayOf. apply Z.min_le_compat_r, Z.mul_le_mono_nonneg_l; [done|].
  apply Z.pow_le_mono_r; lia.
Qed.

Lemma isBlocked_mono c c' now :
  PolicyOk -> 0 <= now -> atLeast c c' -> isBlocked (Some c) now -> isBlocked (Some c') now.
Proof.
  intros Hp Hn [Hf Hl]. rewrite !isBlocked_spec by done. intros (H1 & H2 & H3).
  pose proof (delayOf_mono c c' Hp Hf H1). unfold stale in *. lia.
Qed.

Lemma nextCounter_atLeast c c' now :
  atLeast c c' -> 1 <= fails c' ->
  atLeast (nextCounter policy (Some c) now) (nextCounter policy (Some c') now).
Proof.
  unfold atLeast, nextCounter. intros [Hf Hl] H1.
  destruct (Z.leb_spec (resetAfterMs policy) (now - lastFailAt c)),
    (Z.leb_spec (resetAfterMs policy) (now - lastFailAt c')); cbn; lia.
Qed.
End Theory.

(** ** Histories *)

Inductive Op := OFail (s : AuthSubject) | OClear (s : AuthSubject) | OCheck (s : AuthSubject).

Section Histories.
Context {N : NodeNet} {Sh : SharedThrottleStore} (policy : ThrottlePolicy).

Definition apply (op : Op) (now : Z) (sh : option Store) (t : Throttle) : Throttle * option Store :=
  match op with
  | OFail s => recordFailure policy s now sh t
  | OClear s => clear s now sh t
  | OCheck s => ((retryAfterSeconds policy s now sh t).1, sh)
  end.

(** The counter of a bucket, from the history alone. *)
Definition specOp (k : jsstr) (c : option ThrottleCounter) (e : Z * Op) : option ThrottleCounter :=
  match e.2 with
  | OFail s => if decide (k ∈ axesOf s) then Some (nextCounter policy c e.1) else c
  | OClear s => if decide (k ∈ axesOf s) then None else c
  | OCheck _ => c
  end.

Definition specOf (k : jsstr) (hist : list (Z * Op)) : option ThrottleCounter :=
  fold_left (specOp k) hist None.

Lemma specOf_snoc k hist e : specOf k (hist ++ [e]) = specOp k (specOf k hist) e.
Proof. unfold specOf. by rewrite fold_left_app. Qed.

Lemma axesOf_NoDup s : NoDup (axesOf s).
Proof.
  unfold axesOf. destruct (s_ip s), (accountKeyOf (s_account s)); cbn [app];
    [apply NoDup_cons; split; [|apply NoDup_singleton]|apply NoDup_singleton..|apply NoDup_nil_2].
  rewrite list_elem_of_singleton. done.
Qed.

Lemma axesOf_length s : (length (axesOf s) <= 2)%nat.
Proof. unfold axesOf. destruct (s_ip s), (accountKeyOf (s_account s)); cbn; lia. Qed.

(** *** What each part does to the counters of the process *)

Lemma sharedFailed_local now t :
  local (sharedFailed now t) = local t /\ blockCache (sharedFailed now t) = blockCache t /\
  unsynced (sharedFailed now t) = unsynced t.
Proof. unfold sharedFailed. by destruct (_ <? _). Qed.

Lemma readShared_local keys now sh t :
  local (readShared keys now sh t).1 = local t /\ blockCache (readShared keys now sh t).1 = blockCache t /\
  unsynced (readShared keys now sh t).1 = unsynced t.
Proof. unfold readShared. repeat case_match; cbn; auto using sharedFailed_local. Qed.

Lemma cachedBlock_local axes now u t :
  local (cachedBlock axes now u t).1 = local t /\ unsynced (cachedBlock axes now u t).1 = unsynced t.
Proof.
  revert u t; induction axes as [|k axes IH]; intros u t; [done|]. cbn [cachedBlock].
  repeat case_match; [apply IH| |apply IH]. by destruct (IH u (t <| blockCache ::= delete k |>)) as [-> ->].
Qed.

Lemma bucketUntil_local shared k now t :
  local (bucketUntil policy shared k now t).1 = local t /\
  blockCache (bucketUntil policy shared k now t).1 = blockCache t.
Proof. unfold bucketUntil, isUnsynced. by repeat case_match; simplify_eq. Qed.

Lemma blockLoop_local axes shared now u t : local (blockLoop policy axes shared now u t).1 = local t.
Proof.
  revert u t; induction axes as [|k axes IH]; intros u t; [done|]. cbn [blockLoop].
  destruct (bucketUntil policy shared k now t) as [t1 v] eqn:E.
  pose proof (bucketUntil_local shared k now t) as [H _]. rewrite E in H. cbn in H.
  rewrite IH. by destruct (_ <? _).
Qed.

Lemma retry_local s now sh t : local (retryAfterSeconds policy s now sh t).1 = local t.
Proof.
  unfold retryAfterSeconds. destruct (axesOf s) as [|a axes]; [done|].
  destruct (cachedBlock (a :: axes) now 0 t) as [t1 u] eqn:E1.
  pose proof (cachedBlock_local (a :: axes) now 0 t) as [H1 _]. rewrite E1 in H1. cbn in H1.
  destruct (_ <? _); [done|]. destruct (readShared (a :: axes) now sh t1) as [t2 g] eqn:E2.
  pose proof (readShared_local (a :: axes) now sh t1) as [H2 _]. rewrite E2 in H2. cbn in H2.
  destruct (blockLoop policy (a :: axes) g now 0 t2) as [t3 v] eqn:E3.
  pose proof (blockLoop_local (a :: axes) g now 0 t2) as H3. rewrite E3 in H3. cbn in H3. cbn. congruence.
Qed.

Lemma recordLocal_fold now axes t k :
  NoDup axes ->
  local (fold_left (recordLocal policy now) axes t) !! k
    = if decide (k ∈ axes) then Some (nextCounter policy (local t !! k) now) else local t !! k.
Proof.
  revert t; induction axes as [|a axes IH]; intros t Hnd; cbn [fold_left].
  { rewrite decide_False; [done|apply not_elem_of_nil]. }
  apply NoDup_cons in Hnd as [Ha Hnd]. rewrite IH by done. unfold recordLocal. cbn.
  destruct (decide (k = a)) as [->|Hk].
  - rewrite (decide_False (P := a ∈ axes)) by done. rewrite lookup_insert_eq, decide_True; [done|left].
  - rewrite lookup_insert_ne by congruence.
    destruct (decide (k ∈ axes)), (decide (k ∈ a :: axes)); try done; set_solver.
Qed.

Lemma sweepLocal_lookup now t k :
  local (sweepLocal policy now t) !! k = local t !! k \/
  (local (sweepLocal policy now t) !! k = None /\ exists c, local t !! k = Some c /\ stale policy c now).
Proof.
  unfold sweepLocal. destruct (_ <? _); [by left|]. cbn.
  destruct (local t !! k) as [c|] eqn:E.
  - destruct (decide (stale policy c now)) as [Hs|Hs].
    + right. split; [|by exists c]. apply map_lookup_filter_None. right. intros x Hx. simplify_eq. unfold stale in Hs. cbn. lia.
    + left. apply map_lookup_filter_Some. split; [done|]. exact Hs.
  - left. apply map_lookup_filter_None. by left.
Qed.

Lemma recordShared_local now axes ts :
  local (fold_left (recordShared policy now) axes ts).1 = local ts.1 /\
  blockCache (fold_left (recordShared policy now) axes ts).1 = blockCache ts.1.
Proof.
  revert ts; induction axes as [|a axes IH]; intros ts; [done|]. cbn [fold_left].
  destruct (IH (recordShared policy now ts a)) as [-> ->]. unfold recordShared. destruct ts as [t st].
  destruct (sh_recordFailure _ _ _ _) as [st' []]; [done|]. cbn.
  destruct (sharedFailed_local now (t <| unsynced ::= fun m => <[a := now + resetAfterMs policy]>
                                     (if (MAX_BLOCK_CACHE <=? size m)%nat then ∅ else m) |>)) as (-> & -> & _). done.
Qed.

Lemma sweepShared_local now ts :
  local (sweepShared policy now ts).1 = local ts.1 /\ blockCache (sweepShared policy now ts).1 = blockCache ts.1.
Proof.
  unfold sweepShared. destruct ts as [t st]. destruct (_ <=? _); [|done].
  destruct (sh_sweep _ _) as [st' []]; [done|]. cbn.
  by destruct (sharedFailed_local now (t <| lastSharedSweep := now |>)) as (-> & -> & _).
Qed.

Lemma recordFailure_local s now sh t :
  let t1 := sweepLocal policy now (fold_left (recordLocal policy now) (axesOf s) t) in
  local (recordFailure policy s now sh t).1 = local t1 /\
  blockCache (recordFailure policy s now sh t).1 = blockCache t1.
Proof.
  intros t1. unfold recordFailure. fold t1. destruct sh as [st|]; [|by destruct (axesOf s)].
  destruct (axesOf s) as [|a axes] eqn:Ea; [done|].
  destruct (sweepShared _ _ _) as [t2 st2] eqn:E.
  pose proof (sweepShared_local now (fold_left (recordShared policy now) (a :: axes) (t1, st))) as [H1 H2].
  rewrite E in *. cbn [fst] in *. rewrite H1, H2. apply recordShared_local.
Qed.

Lemma forget_fold axes t k :
  local (fold_left forget axes t) !! k = (if decide (k ∈ axes) then None else local t !! k) /\
  blockCache (fold_left forget axes t) !! k = (if decide (k ∈ axes) then None else blockCache t !! k).
Proof.
  revert t; induction axes as [|a axes IH]; intros t; cbn [fold_left].
  { rewrite !decide_False by apply not_elem_of_nil. done. }
  destruct (IH (forget t a)) as [-> ->]. unfold forget. cbn.
  destruct (decide (k = a)) as [->|Hk].
  - rewrite !lookup_delete_eq. rewrite !(decide_True (P := a ∈ a :: axes)) by left. by destruct (decide _).
  - rewrite !lookup_delete_ne by congruence.
    destruct (decide (k ∈ axes)), (decide (k ∈ a :: axes)); try done; set_solver.
Qed.

Lemma clear_local s now sh t :
  local (clear s now sh t).1 = local (fold_left forget (axesOf s) t) /\
  blockCache (clear s now sh t).1 = blockCache (fold_left forget (axesOf s) t).
Proof.
  unfold clear. generalize (fold_left forget (axesOf s) t). intros t1. destruct sh as [st|]; [|by destruct (axesOf s)].
  destruct (axesOf s) as [|a axes]; [done|]. destruct (filter _ _) as [|b ks]; [done|].
  destruct (sh_clear _ _) as [st' []]; [done|]. cbn. by destruct (sharedFailed_local now t1) as (-> & -> & _).
Qed.

(** *** The counters of a process follow its history *)

Definition Follows (hist : list (Z * Op)) (now : Z) (t : Throttle) : Prop :=
  forall k, local t !! k = specOf k hist \/
    (local t !! k = None /\ exists c, specOf k hist = Some c /\ stale policy c now).

Lemma stale_later c now now' : stale policy c now -> now <= now' -> stale policy c now'.
Proof. unfold stale. lia. Qed.

Lemma nextCounter_stale c now : stale policy c now -> nextCounter policy (Some c) now = nextCounter policy None now.
Proof. intros H. unfold nextCounter. by rewrite (proj2 (Z.leb_le _ _) H). Qed.

Lemma apply_follows hist now op now' sh t :
  Follows hist now t -> now <= now' -> Follows (hist ++ [(now', op)]) now' (apply op now' sh t).1.
Proof.
  intros HF Hn k. rewrite specOf_snoc. unfold specOp. cbn [fst snd].
  assert (HF' : local t !! k = specOf k hist \/
    (local t !! k = None /\ exists c, specOf k hist = Some c /\ stale policy c now')).
  { destruct (HF k) as [H|(H & c & Hc & Hs)]; [by left|right]. eauto using stale_later. }
  destruct op as [s|s|s]; cbn [apply fst].
  - destruct (recordFailure_local s now' sh t) as [-> _].
    set (t1 := fold_left _ _ t). assert (H1 : local t1 !! k
      = if decide (k ∈ axesOf s) then Some (nextCounter policy (local t !! k) now') else local t !! k)
      by (apply recordLocal_fold, axesOf_NoDup).
    assert (H2 : local t1 !! k = (if decide (k ∈ axesOf s) then Some (nextCounter policy (specOf k hist) now')
                                  else specOf k hist) \/
      (local t1 !! k = None /\ k ∉ axesOf s /\ exists c, specOf k hist = Some c /\ stale policy c now')).
    { rewrite H1. destruct (decide (k ∈ axesOf s)).
      - left. destruct HF' as [->|(-> & c & -> & Hs)]; [done|]. by rewrite nextCounter_stale.
      - destruct HF' as [->|(-> & c & -> & Hs)]; [by left|right; eauto 10]. }
    destruct (sweepLocal_lookup now' t1 k) as [->|(-> & c & Hc & Hs)].
    + destruct H2 as [->|(-> & Hk & c & -> & Hs)]; [by left|right]. rewrite decide_False by done. eauto.
    + right. split; [done|]. destruct H2 as [H2|(H2 & _)]; [|congruence]. rewrite <- H2. eauto.
  - destruct (clear_local s now' sh t) as [-> _]. destruct (forget_fold (axesOf s) t k) as [-> _].
    destruct (decide (k ∈ axesOf s)); [by left|done].
  - rewrite retry_local. done.
Qed.

(** Own blocks are seen through [Follows]. *)
Lemma follows_blocked hist now t k now' :
  Follows hist now t -> now <= now' -> 0 <= now' ->
  isBlocked policy (specOf k hist) now' <-> isBlocked policy (local t !! k) now'.
Proof.
  intros HF Hn H0. destruct (HF k) as [->|(-> & c & -> & Hs)]; [done|].
  split; [|by intros H%not_blocked_none]. rewrite isBlocked_spec by done. intros (_ & Hns & _).
  by destruct Hns; apply (stale_later c now).
Qed.

(** *** The answer *)

Lemma waitSeconds_pos ms : 0 < waitSeconds ms.
Proof. unfold waitSeconds. lia. Qed.

Lemma cachedBlock_ge axes now u t : u <= (cachedBlock axes now u t).2.
Proof.
  revert u t; induction axes as [|k axes IH]; intros u t; [done|]. cbn [cachedBlock].
  repeat case_match; try apply IH. etransitivity; [|apply IH]. lia.
Qed.

Lemma blockLoop_ge axes shared now u t :
  u <= (blockLoop policy axes shared now u t).2.
Proof.
  revert u t; induction axes as [|k axes IH]; intros u t; [done|]. cbn [blockLoop].
  destruct (bucketUntil _ _ _ _ _) as [t1 v]. etransitivity; [|apply IH]. lia.
Qed.

Lemma isUnsynced_frame k k' now t : k <> k' ->
  unsynced (isUnsynced k now t).1 !! k' = unsynced t !! k'.
Proof.
  intros Hk. unfold isUnsynced. repeat case_match; try done. cbn. by rewrite lookup_delete_ne.
Qed.

(** Every bucket takes part in the maximum; [P] is what its contribution may rely on. *)
Lemma blockLoop_member axes shared now u t k :
  NoDup axes -> k ∈ axes ->
  exists t', local t' = local t /\ unsynced t' !! k = unsynced t !! k /\
    (bucketUntil policy shared k now t').2 <= (blockLoop policy axes shared now u t).2.
Proof.
  revert u t; induction axes as [|a axes IH]; intros u t Hnd Hk; [by apply not_elem_of_nil in Hk|].
  apply NoDup_cons in Hnd as [Ha Hnd]. cbn [blockLoop].
  destruct (bucketUntil policy shared a now t) as [t1 v] eqn:E.
  set (t2 := if now <? v then cacheBlock a v t1 else t1).
  apply elem_of_cons in Hk as [->|Hk].
  - exists t. split; [done|]. split; [done|]. rewrite E. cbn [snd].
    etransitivity; [|apply blockLoop_ge]. lia.
  - destruct (IH (Z.max u v) t2 Hnd Hk) as (t' & H1 & H2 & H3). exists t'.
    pose proof (bucketUntil_local shared a now t) as [Hl _]. rewrite E in Hl. cbn [fst] in Hl.
    assert (local t2 = local t1 /\ unsynced t2 = unsynced t1) as [Hl2 Hu2] by (unfold t2; by destruct (_ <? _)).
    split; [congruence|]. split; [|done]. rewrite H2, Hu2.
    unfold bucketUntil in E. destruct shared as [got|]; [|by simplify_eq].
    destruct (isUnsynced a now t) as [t3 b] eqn:E3. simplify_eq.
    rewrite <- (isUnsynced_frame a k now t) by congruence. by rewrite E3.
Qed.

(** If some bucket blocks, whatever the other parts say, the answer is positive. *)
Lemma retry_blocked s now sh t k :
  k ∈ axesOf s ->
  (forall t', local t' = local t -> unsynced t' !! k = unsynced t !! k ->
     now < (bucketUntil policy (readShared (axesOf s) now sh t').2 k now t').2) ->
  0 < (retryAfterSeconds policy s now sh t).2.
Proof.
  intros Hk Hb. unfold retryAfterSeconds. pose proof (axesOf_NoDup s) as Hnd.
  destruct (axesOf s) as [|a axes]; [by apply not_elem_of_nil in Hk|].
  destruct (cachedBlock (a :: axes) now 0 t) as [t1 u] eqn:E1.
  pose proof (cachedBlock_local (a :: axes) now 0 t) as [H1 H1']. rewrite E1 in *. cbn [fst] in *.
  destruct (_ <? _); [apply waitSeconds_pos|].
  destruct (readShared (a :: axes) now sh t1) as [t2 g] eqn:E2.
  pose proof (readShared_local (a :: axes) now sh t1) as (H2 & _ & H2'). rewrite E2 in *. cbn [fst] in *.
  destruct (blockLoop_member (a :: axes) g now 0 t2 k Hnd Hk) as (t' & Hl & Hu & Hle).
  assert (Hg : forall t0, (readShared (a :: axes) now sh t0).2 = g).
  { intros t0. replace g with (readShared (a :: axes) now sh t1).2 by (by rewrite E2).
    unfold readShared. destruct sh as [st|]; [|done]. by destruct (sh_read (a :: axes) st). }
  specialize (Hb t'). rewrite Hg in Hb. destruct (blockLoop policy (a :: axes) g now 0 t2) as [t3 v]. cbn [snd] in *.
  assert (Hv : now < v) by (eapply Z.lt_le_trans; [|exact Hle]; apply Hb; congruence).
  apply Z.ltb_lt in Hv as ->. apply waitSeconds_pos.
Qed.
End Histories.

(** ** One process

    The histories of a process, whatever the shared store answers: it may be another
    store at every call. *)
Section Process.
Context {N : NodeNet} {Sh : SharedThrottleStore} (policy : ThrottlePolicy).

Inductive Run : list (Z * Op) -> Z -> Throttle -> Prop :=
| run_start : Run [] 0 newThrottle
| run_op hist now t op now' sh t' sh' :
    Run hist now t -> now <= now' -> apply policy op now' sh t = (t', sh') ->
    Run (hist ++ [(now', op)]) now' t'.

(** The same without a shared store. *)
Inductive RunAlone : list (Z * Op) -> Z -> Throttle -> Prop :=
| alone_start : RunAlone [] 0 newThrottle
| alone_op hist now t op now' t' sh' :
    RunAlone hist now t -> now <= now' -> apply policy op now' None t = (t', sh') ->
    RunAlone (hist ++ [(now', op)]) now' t'.

Lemma Run_follows hist now t : Run hist now t -> Follows policy hist now t.
Proof.
  induction 1 as [|hist now t op now' sh t' sh' HR IH Hn E]; [by left|].
  pose proof (apply_follows policy hist now op now' sh t IH Hn) as H. by rewrite E in H.
Qed.

Lemma RunAlone_run hist now t : RunAlone hist now t -> Run hist now t.
Proof. induction 1; econstructor; eauto. Qed.

Lemma RunAlone_time hist now t : RunAlone hist now t -> 0 <= now.
Proof. induction 1; lia. Qed.

(** *** The cache of blocks *)

Definition CacheOk (hist : list (Z * Op)) (now : Z) (t : Throttle) : Prop :=
  forall k u, blockCache t !! k = Some u -> now < u ->
  exists c, specOf policy k hist = Some c /\ freeFailures policy <= fails c /\ u <= lastFailAt c + delayOf policy c.

(** No failure is in the future. *)
Definition PastOk (hist : list (Z * Op)) (now : Z) : Prop :=
  forall k c, specOf policy k hist = Some c -> lastFailAt c <= now.

Lemma specOp_past hist now op now' : PastOk hist now -> now <= now' -> PastOk (hist ++ [(now', op)]) now'.
Proof.
  intros HP Hn k c. rewrite specOf_snoc. unfold specOp. cbn [fst snd].
  destruct op as [s|s|s]; try destruct (decide (k ∈ axesOf s)); try done.
  { intros [= <-]. unfold nextCounter. repeat case_match; cbn; lia. }
  all: intros H; apply HP in H; lia.
Qed.

Lemma cached_blocked c u now :
  PolicyOk policy -> 0 <= now -> freeFailures policy <= fails c -> u <= lastFailAt c + delayOf policy c -> now < u ->
  isBlocked policy (Some c) now.
Proof.
  intros [Hb Hm] Hn Hf Hu Hlt. apply isBlocked_spec; [done|]. split; [done|]. split; [|lia].
  unfold stale, delayOf in *. lia.
Qed.

Lemma cachedBlock_cache axes now u t k v :
  blockCache (cachedBlock axes now u t).1 !! k = Some v -> blockCache t !! k = Some v.
Proof.
  revert u t; induction axes as [|a axes IH]; intros u t; [done|]. cbn [cachedBlock].
  repeat case_match; try apply IH. intros Hx%IH. revert Hx. cbn.
  destruct (decide (a = k)) as [->|]; [by rewrite lookup_delete_eq|by rewrite lookup_delete_ne].
Qed.

(** A cached block that lies ahead is one of the cache's entries. *)
Lemma cachedBlock_value axes now u t :
  now < (cachedBlock axes now u t).2 ->
  (cachedBlock axes now u t).2 = u \/ exists k, k ∈ axes /\ blockCache t !! k = Some (cachedBlock axes now u t).2.
Proof.
  revert u t; induction axes as [|a axes IH]; intros u t; [by left|]. cbn [cachedBlock].
  destruct (blockCache t !! a) as [w|] eqn:E; [destruct (Z.ltb_spec now w)|].
  - intros H'. destruct (IH _ _ H') as [->|(k & Hk & Hc)].
    + destruct (Z.max_spec u w) as [[_ ->]|[_ ->]]; [right; exists a; split; [left|done]|by left].
    + right. exists k. split; [by right|done].
  - intros H'. destruct (IH _ _ H') as [->|(k & Hk & Hc)]; [by left|right]. exists k. split; [by right|].
    revert Hc. cbn. destruct (decide (a = k)) as [->|]; [by rewrite lookup_delete_eq|by rewrite lookup_delete_ne].
  - intros H'. destruct (IH _ _ H') as [->|(k & Hk & Hc)]; [by left|right]. exists k. split; [by right|done].
Qed.

Lemma blockLoop_cache axes now u t k v :
  blockCache (blockLoop policy axes None now u t).1 !! k = Some v ->
  blockCache t !! k = Some v \/ (k ∈ axes /\ v = blockedUntil (local t !! k) now policy /\ now < v).
Proof.
  revert u t; induction axes as [|a axes IH]; intros u t; [by left|]. cbn [blockLoop bucketUntil].
  set (w := blockedUntil (local t !! a) now policy). destruct (Z.ltb_spec now w) as [Hw|Hw].
  - intros H%IH. destruct H as [H|(H1 & H2 & H3)]; [|right; split; [by right|done]].
    unfold cacheBlock in H. cbn in H. destruct (decide (a = k)) as [->|Hne].
    + rewrite lookup_insert_eq in H. simplify_eq. right. split; [left|done].
    + rewrite lookup_insert_ne in H by done. left. by destruct (_ <=? _)%nat.
  - intros H%IH. destruct H as [H|(H1 & H2 & H3)]; [by left|right; split; [by right|done]].
Qed.

(** A positive maximum is reached by some bucket. *)
Lemma blockLoop_value axes now u t :
  (blockLoop policy axes None now u t).2 = u \/
  exists k, k ∈ axes /\ (blockLoop policy axes None now u t).2 = blockedUntil (local t !! k) now policy.
Proof.
  revert u t; induction axes as [|a axes IH]; intros u t; [by left|]. cbn [blockLoop bucketUntil].
  set (w := blockedUntil (local t !! a) now policy). set (t1 := if now <? w then cacheBlock a w t else t).
  assert (Hl : local t1 = local t) by (unfold t1; by destruct (_ <? _)).
  destruct (IH (Z.max u w) t1) as [->|(k & Hk & ->)].
  - destruct (Z.max_spec u w) as [[_ ->]|[_ ->]]; [right; exists a; split; [left|done]|by left].
  - right. exists k. rewrite Hl. split; [by right|done].
Qed.

Lemma retry_cache s now t k v :
  blockCache (retryAfterSeconds policy s now None t).1 !! k = Some v ->
  blockCache t !! k = Some v \/ (v = blockedUntil (local t !! k) now policy /\ now < v).
Proof.
  unfold retryAfterSeconds. destruct (axesOf s) as [|a axes]; [by left|].
  destruct (cachedBlock (a :: axes) now 0 t) as [t1 u] eqn:E1.
  assert (Hc : blockCache t1 !! k = Some v -> blockCache t !! k = Some v).
  { intros H. apply (cachedBlock_cache (a :: axes) now 0). by rewrite E1. }
  pose proof (cachedBlock_local (a :: axes) now 0 t) as [Hl _]. rewrite E1 in Hl. cbn [fst] in Hl.
  destruct (_ <? _); [by left; apply Hc|]. cbn [readShared].
  pose proof (blockLoop_cache (a :: axes) now 0 t1 k v) as HB.
  destruct (blockLoop policy (a :: axes) None now 0 t1) as [t2 w]. cbn [fst] in *.
  intros H%HB. rewrite Hl in H. destruct H as [H|(_ & H)]; [left; by apply Hc|by right].
Qed.

Lemma recordLocal_cache now axes t : blockCache (fold_left (recordLocal policy now) axes t) = blockCache t.
Proof. revert t; induction axes as [|a axes IH]; intros t; [done|]. cbn [fold_left]. by rewrite IH. Qed.

Lemma sweepLocal_cache now t k v :
  blockCache (sweepLocal policy now t) !! k = Some v -> blockCache t !! k = Some v.
Proof.
  unfold sweepLocal. destruct (_ <? _); [done|]. cbn. by intros [H _]%map_lookup_filter_Some.
Qed.

Lemma apply_cache hist now op now' t :
  PolicyOk policy -> 0 <= now -> Follows policy hist now t -> CacheOk hist now t -> PastOk hist now -> now <= now' ->
  CacheOk (hist ++ [(now', op)]) now' (apply policy op now' None t).1.
Proof.
  intros Hp H0 HF HC HP Hn k v Hv Hlt.
  assert (Hold : blockCache t !! k = Some v -> exists c, specOf policy k hist = Some c /\
    freeFailures policy <= fails c /\ v <= lastFailAt c + delayOf policy c) by (intros H; apply HC; [done|lia]).
  rewrite specOf_snoc. unfold specOp. cbn [fst snd].
  destruct op as [s|s|s]; cbn [apply fst] in Hv.
  - destruct (recordFailure_local policy s now' None t) as [_ E]. rewrite E in Hv.
    apply sweepLocal_cache in Hv. rewrite recordLocal_cache in Hv. destruct (Hold Hv) as (c & Hc & Hf & Hu).
    destruct (decide (k ∈ axesOf s)); [|eauto]. eexists. split; [done|]. rewrite Hc.
    destruct (proj1 (isBlocked_spec policy c now' ltac:(lia)) (cached_blocked c v now' Hp ltac:(lia) Hf Hu Hlt))
      as (_ & Hns & _). unfold nextCounter, stale in *. rewrite (proj2 (Z.leb_gt _ _)) by lia. cbn. split; [lia|].
    pose proof (delayOf_mono policy c {| fails := fails c + 1; lastFailAt := now' |} Hp ltac:(cbn; lia) Hf).
    pose proof (HP k c Hc). lia.
  - destruct (clear_local s now' None t) as [_ E]. rewrite E in Hv.
    destruct (forget_fold (axesOf s) t k) as [_ Ef]. rewrite Ef in Hv.
    destruct (decide (k ∈ axesOf s)); [done|]. auto.
  - apply retry_cache in Hv as [Hv|[Hv Hlt']]; [auto|].
    assert (Hb : isBlocked policy (local t !! k) now') by (unfold isBlocked; by rewrite <- Hv).
    destruct (isBlocked_value policy _ _ Hb ltac:(lia)) as (c & Hc & Hval).
    destruct (HF k) as [Hk|(Hk & _)]; [|congruence]. exists c. rewrite <- Hk, Hc. split; [done|].
    rewrite Hc in Hb. apply isBlocked_spec in Hb; [|lia]. split; [tauto|]. rewrite Hv, Hval. lia.
Qed.

Lemma RunAlone_inv hist now t :
  PolicyOk policy -> RunAlone hist now t -> CacheOk hist now t /\ PastOk hist now.
Proof.
  intros Hp. induction 1 as [|hist now t op now' t' sh' HR [IH1 IH2] Hn E]; [done|]. split; [|by apply (specOp_past _ now)].
  pose proof (RunAlone_time _ _ _ HR). pose proof (Run_follows _ _ _ (RunAlone_run _ _ _ HR)) as HF.
  pose proof (apply_cache hist now op now' t Hp ltac:(done) HF IH1 IH2 Hn) as HC. by rewrite E in HC.
Qed.
End Process.

(** ** Several servers over one reliable store *)

Section Servers.
Context {N : NodeNet} {Sh : SharedThrottleStore} {RS : ReliableStore Sh} (policy : ThrottlePolicy).

Inductive Servers : list (Z * Op) -> Z -> list Throttle -> Store -> Prop :=
| servers_start n st : table st = ∅ -> Servers [] 0 (replicate n newThrottle) st
| servers_op hist now ts st i t op now' t' st' :
    Servers hist now ts st -> now <= now' -> ts !! i = Some t ->
    apply policy op now' (Some st) t = (t', Some st') ->
    Servers (hist ++ [(now', op)]) now' (<[i := t']> ts) st'.

(** The table is never behind the history of all servers. *)
Definition Covers (hist : list (Z * Op)) (now : Z) (m : gmap jsstr ThrottleCounter) : Prop :=
  (forall k c, m !! k = Some c -> 1 <= fails c) /\
  forall k c, specOf policy k hist = Some c ->
    stale policy c now \/ exists c', m !! k = Some c' /\ atLeast c c'.

Definition positive (m : gmap jsstr ThrottleCounter) : Prop := forall k c, m !! k = Some c -> 1 <= fails c.

(** All buckets of a failure are written. *)
Lemma recordShared_table now axes t st :
  NoDup axes -> positive (table st) ->
  let st' := (fold_left (recordShared policy now) axes (t, st)).2 in
  positive (table st') /\
  (forall k, k ∉ axes -> table st' !! k = table st !! k) /\
  (forall k, k ∈ axes -> exists c', table st' !! k = Some c' /\ lastFailAt c' = now /\ 1 <= fails c' /\
     forall c, table st !! k = Some c -> now - resetAfterMs policy < lastFailAt c -> fails c + 1 <= fails c').
Proof.
  revert t st; induction axes as [|a axes IH]; intros t st Hnd Hpos; cbn [fold_left].
  { cbn. split; [done|]. split; [done|]. by intros k ?%not_elem_of_nil. }
  apply NoDup_cons in Hnd as [Ha Hnd]. cbn [recordShared].
  destruct (record_law a now (now - resetAfterMs policy) st) as (st1 & E & Hother & c' & Hc' & Hl & H1 & Hge).
  rewrite E. assert (Hpos1 : positive (table st1)).
  { intros k c. destruct (decide (k = a)) as [->|Hk]; [|rewrite Hother by done; apply Hpos].
    rewrite Hc'. intros [= <-]. apply H1. intros c0. apply Hpos. }
  destruct (IH t st1 Hnd Hpos1) as (HP & HO & HI). split; [done|]. split.
  - intros k [Hka Hk]%not_elem_of_cons. by rewrite HO, Hother.
  - intros k [->|Hk]%elem_of_cons.
    + exists c'. rewrite HO by done. split; [done|]. split; [done|]. split; [|done].
      apply H1. intros c0. apply Hpos.
    + destruct (HI k Hk) as (d & Hd & Hdl & Hd1 & Hdge). exists d. rewrite Hother in Hdge by congruence. done.
Qed.

Lemma sweepShared_table now t st :
  let st' := (sweepShared policy now (t, st)).2 in
  table st' ⊆ table st /\
  forall k c, table st !! k = Some c -> now - resetAfterMs policy <= lastFailAt c -> table st' !! k = Some c.
Proof.
  unfold sweepShared. destruct (_ <=? _); [|done].
  destruct (sweep_law (now - resetAfterMs policy) st) as (st' & E & Hs & Hk). by rewrite E.
Qed.

Lemma positive_subset m m' : m' ⊆ m -> positive m -> positive m'.
Proof. intros Hs Hp k c Hk. apply (Hp k). by eapply lookup_weaken. Qed.

Lemma fail_covers hist now now' s t st t' st' :
  Covers hist now (table st) -> now <= now' -> recordFailure policy s now' (Some st) t = (t', Some st') ->
  Covers (hist ++ [(now', OFail s)]) now' (table st').
Proof.
  intros [Hpos Hcov] Hn. unfold recordFailure. set (t1 := sweepLocal _ _ _).
  assert (Hold : forall k c, specOf policy k hist = Some c -> ~ stale policy c now' ->
    exists c', table st !! k = Some c' /\ atLeast c c').
  { intros k c Hk Hs. destruct (Hcov k c Hk) as [H|H]; [|done]. destruct Hs. by apply (stale_later policy c now). }
  destruct (axesOf s) as [|a axes] eqn:Ea.
  { intros [= _ <-]. split; [done|]. intros k c. rewrite specOf_snoc. unfold specOp. cbn [fst snd].
    rewrite Ea, decide_False by apply not_elem_of_nil. intros Hk.
    destruct (decide (stale policy c now')) as [|Hs]; [by left|right; auto]. }
  rewrite <- Ea. pose proof (recordShared_table now' (axesOf s) t1 st (axesOf_NoDup s) Hpos) as (HP & HO & HI).
  destruct (fold_left (recordShared policy now') (axesOf s) (t1, st)) as [t2 st2]. cbn [snd] in *.
  pose proof (sweepShared_table now' t2 st2) as [Hsub Hkeep].
  destruct (sweepShared policy now' (t2, st2)) as [t3 st3]. cbn [snd] in *. intros [= <- <-].
  split; [by eapply positive_subset|]. intros k c. rewrite specOf_snoc. unfold specOp. cbn [fst snd].
  destruct (decide (k ∈ axesOf s)) as [Hk|Hk].
  - intros [= <-]. destruct (HI k Hk) as (c' & Hc' & Hl & H1 & Hge).
    destruct (Z.le_gt_cases (resetAfterMs policy) 0) as [Hneg|Hres].
    { left. unfold stale, nextCounter. repeat case_match; cbn; lia. }
    right. exists c'. split; [apply Hkeep; [done|lia]|]. unfold atLeast, nextCounter.
    destruct (specOf policy k hist) as [c|] eqn:Es; [|cbn; lia].
    destruct (Z.leb_spec (resetAfterMs policy) (now' - lastFailAt c)) as [|Hns]; [cbn; lia|]. cbn.
    destruct (Hold k c Es) as (c0 & Hc0 & [Hf0 Hl0]); [unfold stale; lia|].
    specialize (Hge c0 Hc0 ltac:(lia)). lia.
  - intros Hs. destruct (decide (stale policy c now')) as [|Hns]; [by left|right].
    destruct (Hold k c Hs Hns) as (c0 & Hc0 & [Hf0 Hl0]). exists c0. split; [|done].
    apply Hkeep; [by rewrite HO|]. unfold stale in Hns. lia.
Qed.

Lemma clear_covers hist now now' s t st t' st' :
  Covers hist now (table st) -> now <= now' -> clear s now' (Some st) t = (t', Some st') ->
  Covers (hist ++ [(now', OClear s)]) now' (table st').
Proof.
  intros [Hpos Hcov] Hn E.
  assert (Ht : table st' ⊆ table st /\ forall k, k ∉ axesOf s -> table st' !! k = table st !! k).
  { revert E. unfold clear. set (t1 := fold_left _ _ _). clearbody t1.
    destruct (axesOf s) as [|a axes]; [by intros [= _ <-]|].
    destruct (filter _ (a :: axes)) as [|b ks] eqn:Ef; [by intros [= _ <-]|].
    destruct (clear_law (b :: ks) st) as (st1 & E & Hsub & Hkeep). rewrite E. intros [= _ <-].
    split; [done|]. intros k Hk. apply Hkeep. rewrite <- Ef, list_elem_of_filter. tauto. }
  destruct Ht as [Hsub Hkeep]. split; [by eapply positive_subset|].
  intros k c. rewrite specOf_snoc. unfold specOp. cbn [fst snd].
  destruct (decide (k ∈ axesOf s)) as [|Hk]; [done|]. intros Hs.
  destruct (Hcov k c Hs) as [H|H]; [left; by apply (stale_later policy c now)|right]. by rewrite Hkeep.
Qed.

Lemma Servers_covers hist now ts st : Servers hist now ts st -> Covers hist now (table st).
Proof.
  induction 1 as [n st E|hist now ts st i t op now' t' st' HS IH Hn Hi E].
  { split; [|done]. intros k c. by rewrite E, lookup_empty. }
  destruct op as [s|s|s]; cbn [apply] in E.
  - by apply (fail_covers hist now now' s t st t').
  - by apply (clear_covers hist now now' s t st t').
  - injection E as _ <-. destruct IH as [Hpos Hcov]. split; [done|]. intros k c. rewrite specOf_snoc. cbn.
    intros Hs. destruct (Hcov k c Hs) as [H|H]; [left; by apply (stale_later policy c now)|by right].
Qed.
End Servers.

(** ** Properties *)

Section Properties.
Context {N : NodeNet} (policy : ThrottlePolicy).

(** C4: The servers enforce one limit together.  Over a shared store that answers,
    whatever server counted the failures of an address prefix or an account, every
    server refuses the next attempt as long as the common history blocks it: failures
    spread over servers are not multiplied, and neither the local caches, the skipped
    clearing writes nor the clean-up of the store ever make a server forget a block. *)
Theorem throttle_shared_limit {Sh : SharedThrottleStore} {RS : ReliableStore Sh} hist now ts st i t s k now' :
  PolicyOk policy -> Servers policy hist now ts st -> ts !! i = Some t -> now <= now' -> 0 <= now' ->
  k ∈ axesOf s -> isBlocked policy (specOf policy k hist) now' ->
  0 < (retryAfterSeconds policy s now' (Some st) t).2.
Proof.
  intros Hp HS Hi Hn H0 Hk Hb. apply (retry_blocked policy s now' (Some st) t k Hk). intros t' _ _.
  destruct (read_law (axesOf s) st (axesOf_length s)) as (got & Er & Hgot).
  cbn [readShared]. rewrite Er. cbn [snd]. unfold bucketUntil.
  assert (Ht : now' < blockedUntil (got !! k) now' policy).
  { rewrite (Hgot k Hk). destruct (specOf policy k hist) as [c|] eqn:Es; [|by apply not_blocked_none in Hb].
    destruct (proj2 (Servers_covers policy hist now ts st HS) k c Es) as [Hst|(c' & Hc' & Hle)].
    - apply isBlocked_spec in Hb as (_ & Hns & _); [|done]. destruct Hns. by apply (stale_later policy c now).
    - rewrite Hc'. by apply (isBlocked_mono policy c). }
  destruct (isUnsynced k now' t') as [t2 []]; cbn; lia.
Qed.

(** The throttle fails closed.  Whatever the shared store answered so far, when it
    cannot be read, or when the bucket is marked because a write was lost, the
    process's own history decides: a subject whose own failures block it is refused. *)
Theorem throttle_fail_closed {Sh : SharedThrottleStore} hist now t s k now' sh :
  Run policy hist now t -> now <= now' -> 0 <= now' ->
  k ∈ axesOf s -> isBlocked policy (specOf policy k hist) now' ->
  match sh with
  | None => True
  | Some st => sh_read (axesOf s) st = None \/ exists u, unsynced t !! k = Some u /\ now' < u
  end ->
  0 < (retryAfterSeconds policy s now' sh t).2.
Proof.
  intros HR Hn H0 Hk Hb Hsh. pose proof (Run_follows policy _ _ _ HR) as HF.
  apply (follows_blocked policy hist now t k now') in Hb; [|done..].
  apply (retry_blocked policy s now' sh t k Hk). intros t' Hl Hu.
  unfold isBlocked in Hb. rewrite <- Hl in Hb. unfold readShared, bucketUntil.
  destruct sh as [st|]; [|done]. destruct Hsh as [->|(u & Hu' & Hlt)]; [done|].
  destruct (sh_read (axesOf s) st) as [got|]; [|done]. cbn [snd].
  unfold isUnsynced. rewrite Hu, Hu', (proj2 (Z.ltb_lt _ _) Hlt). cbn. lia.
Qed.

(** The longest wait the policy can ask for. *)
Definition maxWait : Z := waitSeconds (maxDelayMs policy).

Lemma waitSeconds_mono a b : a <= b -> waitSeconds a <= waitSeconds b.
Proof. intros H. unfold waitSeconds. pose proof (Z.div_le_mono (- b) (- a) 1000). lia. Qed.

(** Alone, the throttle is exactly its policy.  Without a shared store an attempt is
    refused if and only if one of its two buckets, computed from the history of
    failures and successes alone, is blocked: sweeping and caching are invisible.  No
    refusal asks for a longer wait than the policy's maximal delay, so there is no
    permanent lock. *)
Theorem throttle_alone_exact {Sh : SharedThrottleStore} hist now t s now' :
  PolicyOk policy -> RunAlone policy hist now t -> now <= now' ->
  let r := (retryAfterSeconds policy s now' None t).2 in
  (0 < r <-> exists k, k ∈ axesOf s /\ isBlocked policy (specOf policy k hist) now') /\ r <= maxWait.
Proof.
  intros Hp HR Hn. pose proof (RunAlone_time policy _ _ _ HR) as H0.
  pose proof (RunAlone_run policy _ _ _ HR) as HRun. pose proof (Run_follows policy _ _ _ HRun) as HF.
  destruct (RunAlone_inv policy _ _ _ Hp HR) as [HC HP].
  assert (Hbound : forall k u, isBlocked policy (specOf policy k hist) now' ->
    (forall c, specOf policy k hist = Some c -> u <= lastFailAt c + delayOf policy c) ->
    waitSeconds (u - now') <= maxWait).
  { intros k u Hb Hu. destruct (specOf policy k hist) as [c|] eqn:Es; [|by apply not_blocked_none in Hb; [|lia]].
    specialize (Hu c eq_refl). pose proof (HP k c Es). apply waitSeconds_mono. unfold delayOf in Hu. lia. }
  cbv zeta.
  enough (Hr : (0 < (retryAfterSeconds policy s now' None t).2 ->
      (exists k, k ∈ axesOf s /\ isBlocked policy (specOf policy k hist) now')) /\
      (retryAfterSeconds policy s now' None t).2 <= maxWait).
  { destruct Hr as [H1 H2]. split; [|done]. split; [done|]. intros (k & Hk & Hb).
    apply (retry_blocked policy s now' None t k Hk). intros t' Hl _. cbn. rewrite Hl.
    apply (follows_blocked policy hist now t k now') in Hb; done || lia. }
  pose proof (waitSeconds_pos (maxDelayMs policy)) as Hpos. fold maxWait in Hpos.
  unfold retryAfterSeconds. destruct (axesOf s) as [|a axes]; [cbn; lia|].
  pose proof (cachedBlock_value (a :: axes) now' 0 t) as Hv.
  pose proof (cachedBlock_local (a :: axes) now' 0 t) as [Hl _].
  destruct (cachedBlock (a :: axes) now' 0 t) as [t1 u]. cbn [fst snd] in *.
  destruct (Z.ltb_spec now' u) as [Hlt|_].
  - destruct (Hv Hlt) as [->|(k & Hk & Hc)]; [lia|].
    destruct (HC k u Hc ltac:(lia)) as (c & Hs & Hf & Hu).
    assert (Hb : isBlocked policy (specOf policy k hist) now')
      by (rewrite Hs; apply (cached_blocked policy c u now' Hp); lia || done).
    split; [by eauto|]. cbn [snd]. apply (Hbound k u Hb). intros c' Hc'. simplify_eq. done.
  - cbn [readShared]. pose proof (blockLoop_value policy (a :: axes) now' 0 t1) as Hbv.
    destruct (blockLoop policy (a :: axes) None now' 0 t1) as [t2 v]. cbn [snd] in *.
    destruct (Z.ltb_spec now' v) as [Hlt|_]; [|lia].
    destruct Hbv as [->|(k & Hk & ->)]; [lia|]. rewrite Hl in *.
    assert (Hb : isBlocked policy (specOf policy k hist) now')
      by (apply (follows_blocked policy hist now t k now'); done || lia).
    split; [by eauto|]. apply (Hbound k _ Hb). intros c Hc.
    destruct (isBlocked_value policy (local t !! k) now' Hlt ltac:(lia)) as (c' & Hc' & ->).
    destruct (HF k) as [Hk'|(Hk' & _)]; [|congruence]. rewrite Hk', Hc in Hc'. simplify_eq. done.
Qed.
End Properties.

(** ** Concrete histories, on which the hypotheses above hold *)

#[local] Instance plainNet : NodeNet := {| isIP := fun t => if bool_decide (COLON ∈ t) then 6 else 4 |}.

Definition kim : AuthSubject := {| s_ip := Some (js "10.0.0.1"); s_account := Some (js "Kim ") |}.
Definition kimKey : jsstr := js "account|kim".

Lemma defaultPolicy_ok : PolicyOk defaultPolicy.
Proof. constructor; cbn; lia. Qed.

Lemma alone_next {Sh : SharedThrottleStore} hist now t op now' :
  RunAlone defaultPolicy hist now t -> now <= now' ->
  RunAlone defaultPolicy (hist ++ [(now', op)]) now' (apply defaultPolicy op now' None t).1.
Proof. intros HR Hn. eapply alone_op; [done..|apply surjective_pairing]. Qed.

#[local] Existing Instance dbStore.

(** Five failures, the last at time 4. *)
Definition fiveFailures : list (Z * Op) := map (fun n => (n, OFail kim)) [0; 1; 2; 3; 4].

Definition aloneFive : Throttle :=
  fold_left (fun t e => (apply defaultPolicy e.2 e.1 None t).1) fiveFailures newThrottle.

Lemma aloneFive_run : RunAlone defaultPolicy fiveFailures 4 aloneFive.
Proof.
  refine (alone_next [(0, OFail kim); (1, OFail kim); (2, OFail kim); (3, OFail kim)] 3 _ _ _ _ _); [|done].
  refine (alone_next [(0, OFail kim); (1, OFail kim); (2, OFail kim)] 2 _ _ _ _ _); [|done].
  refine (alone_next [(0, OFail kim); (1, OFail kim)] 1 _ _ _ _ _); [|done].
  refine (alone_next [(0, OFail kim)] 0 _ _ _ _ _); [|done].
  refine (alone_next [] 0 _ _ _ (alone_start _) _); done.
Qed.

Lemma kimKey_axis : kimKey ∈ axesOf kim.
Proof. vm_compute. right. left. Qed.

Lemma throttle_alone_exact_witness :
  let r := (retryAfterSeconds defaultPolicy kim 100 None aloneFive).2 in
  (0 < r <-> exists k, k ∈ axesOf kim /\ isBlocked defaultPolicy (specOf defaultPolicy k fiveFailures) 100) /\
  r <= 900.
Proof.
  apply (throttle_alone_exact defaultPolicy fiveFailures 4 aloneFive kim 100).
  - apply defaultPolicy_ok.
  - apply aloneFive_run.
  - lia.
Defined.

Lemma throttle_fail_closed_witness : 0 < (retryAfterSeconds defaultPolicy kim 100 None aloneFive).2.
Proof.
  apply (throttle_fail_closed defaultPolicy fiveFailures 4 aloneFive kim kimKey 100 None).
  - apply RunAlone_run, aloneFive_run.
  - lia.
  - lia.
  - apply kimKey_axis.
  - vm_compute. reflexivity.
  - exact I.
Defined.

(** Two servers that see three and two of the failures. *)
Definition serverOf (n : Z) : nat := if n <? 3 then 0 else 1.

Definition serverStep (x : list Throttle * gmap jsstr ThrottleCounter) (e : Z * Op)
    : list Throttle * gmap jsstr ThrottleCounter :=
  let '(ts, st) := x in
  let i := serverOf e.1 in
  let r := apply defaultPolicy e.2 e.1 (Some st) (default newThrottle (ts !! i)) in
  (<[i := r.1]> ts, default st r.2).

Lemma apply_store {Sh : SharedThrottleStore} op now st t :
  (apply defaultPolicy op now (Some st) t).2 = Some (default st (apply defaultPolicy op now (Some st) t).2).
Proof.
  destruct op as [s|s|s]; cbn [apply]; [| |done].
  - unfold recordFailure. destruct (axesOf s); [done|]. by destruct (sweepShared _ _ _).
  - unfold clear. destruct (axesOf s); [done|]. destruct (filter _ _); [done|]. by destruct (sh_clear _ _) as [? []].
Qed.

Lemma serverStep_ok hist now ts st op now' :
  Servers defaultPolicy hist now ts st -> now <= now' -> is_Some (ts !! serverOf now') ->
  Servers defaultPolicy (hist ++ [(now', op)]) now' (serverStep (ts, st) (now', op)).1
    (serverStep (ts, st) (now', op)).2.
Proof.
  intros HS Hn [t Ht]. unfold serverStep. cbn [fst snd]. rewrite Ht.
  eapply servers_op; [done..|]. apply injective_projections; [done|]. exact (apply_store (Sh := dbStore) op now' st t).
Qed.

Definition twoServers : list Throttle * gmap jsstr ThrottleCounter :=
  fold_left serverStep fiveFailures (replicate 2 newThrottle, ∅).

Lemma twoServers_ok : Servers defaultPolicy fiveFailures 4 twoServers.1 twoServers.2.
Proof.
  unfold twoServers, fiveFailures. cbn [map fold_left].
  set (x0 := (replicate 2 newThrottle, ∅)).
  assert (H0 : Servers defaultPolicy [] 0 x0.1 x0.2) by (by apply servers_start).
  assert (H1 := serverStep_ok [] 0 x0.1 x0.2 (OFail kim) 0 H0 ltac:(lia) ltac:(vm_compute; eauto)).
  set (x1 := serverStep (x0.1, x0.2) (0, OFail kim)) in H1.
  assert (H2 := serverStep_ok _ 0 x1.1 x1.2 (OFail kim) 1 H1 ltac:(lia) ltac:(vm_compute; eauto)).
  set (x2 := serverStep (x1.1, x1.2) (1, OFail kim)) in H2.
  assert (H3 := serverStep_ok _ 1 x2.1 x2.2 (OFail kim) 2 H2 ltac:(lia) ltac:(vm_compute; eauto)).
  set (x3 := serverStep (x2.1, x2.2) (2, OFail kim)) in H3.
  assert (H4 := serverStep_ok _ 2 x3.1 x3.2 (OFail kim) 3 H3 ltac:(lia) ltac:(vm_compute; eauto)).
  set (x4 := serverStep (x3.1, x3.2) (3, OFail kim)) in H4.
  assert (H5 := serverStep_ok _ 3 x4.1 x4.2 (OFail kim) 4 H4 ltac:(lia) ltac:(vm_compute; eauto)).
  rewrite <- !surjective_pairing in H5. exact H5.
Qed.

Lemma throttle_shared_limit_witness :
  0 < (retryAfterSeconds (Sh := dbStore) defaultPolicy kim 100 (Some twoServers.2) (nth 1 twoServers.1 newThrottle)).2.
Proof.
  apply (throttle_shared_limit (Sh := dbStore) defaultPolicy fiveFailures 4 twoServers.1 twoServers.2 1
    (nth 1 twoServers.1 newThrottle) kim kimKey 100).
  - apply defaultPolicy_ok.
  - apply twoServers_ok.
  - vm_compute. reflexivity.
  - lia.
  - lia.
  - apply kimKey_axis.
  - vm_compute. reflexivity.
Defined.
