(* ===== verification/PeerLimit.v ===== *)
(** * Connections per peer (packages/core/src/peer-limit.ts)

    The number of simultaneous connections of an address prefix is limited.  [rejects]
    counts the calls of the [onReject] hook; the log lines are left out. *)

From S2P Require Import Prelude JsString Net.

Definition DEFAULT_MAX_CONNECTIONS_PER_PEER : Z := 64.

(** The fields of [PeerConnectionLimiter]; [limit] is the option the constructor got. *)
Record Limiter := mkLimiter { counts : gmap jsstr Z; saturated : gset jsstr; rejects : nat }.

Definition newLimiter : Limiter := {| counts := ∅; saturated := ∅; rejects := 0 |}.

Section Limiter.
Context {N : NodeNet} (limitOption : option Z).

Definition limit : Z := Z.max 1 (default DEFAULT_MAX_CONNECTIONS_PER_PEER limitOption).

Definition tryAcquire (address : option jsstr) (s : Limiter) : Limiter * bool :=
  let key := throttleKeyOf address in
  let cur := default 0 (counts s !! key) in
  if limit <=? cur then
    (s <| rejects ::= S |> <| saturated ::= fun x => {[key]} ∪ x |>, false)
  else (s <| counts ::= fun m => <[key := cur + 1]> m |>, true).

Definition release (address : option jsstr) (s : Limiter) : Limiter :=
  let key := throttleKeyOf address in
  match counts s !! key with
  | None => s
  | Some cur =>
      let s := if cur <=? 1 then s <| counts ::= delete key |>
               else s <| counts ::= fun m => <[key := cur - 1]> m |> in
      if cur - 1 <=? limit / 2 then s <| saturated ::= fun x => x ∖ {[key]} |> else s
  end.

Definition countFor (address : option jsstr) (s : Limiter) : Z := default 0 (counts s !! throttleKeyOf address).

Definition sizeOf (s : Limiter) : nat := size (counts s).

(** ** Sessions

    The listeners call [tryAcquire] when a connection comes in and [release] once when
    an admitted one ends; [open] are the addresses of the admitted connections that
    have not ended. *)
Inductive Listening : list (option jsstr) -> Limiter -> Prop :=
| listen_start : Listening [] newLimiter
| listen_accept open s a s' :
    Listening open s -> tryAcquire a s = (s', true) -> Listening (a :: open) s'
| listen_refuse open s a s' :
    Listening open s -> tryAcquire a s = (s', false) -> Listening open s'
| listen_close before a after s :
    Listening (before ++ a :: after) s -> Listening (before ++ after) (release a s).

(** The open connections of a prefix. *)
Definition openOf (key : jsstr) (open : list (option jsstr)) : Z :=
  len (filter (fun a => throttleKeyOf a = key) open).

Record Counted (open : list (option jsstr)) (s : Limiter) : Prop := {
  c_counts : forall key, counts s !! key = (if openOf key open =? 0 then None else Some (openOf key open));
  c_limit : forall key, openOf key open <= limit;
  c_saturated : forall key, key ∈ saturated s -> limit / 2 < openOf key open
}.

Lemma openOf_app key a b : openOf key (a ++ b) = openOf key a + openOf key b.
Proof. unfold openOf. by rewrite filter_app, len_app. Qed.

Lemma openOf_cons key a open :
  openOf key (a :: open) = (if decide (throttleKeyOf a = key) then 1 else 0) + openOf key open.
Proof. unfold openOf. rewrite filter_cons. destruct (decide _); [by rewrite len_cons|done]. Qed.

Lemma openOf_nonneg key open : 0 <= openOf key open.
Proof. apply len_nonneg. Qed.

Lemma Counted_count open s key : Counted open s -> default 0 (counts s !! key) = openOf key open.
Proof. intros [H _ _]. rewrite H. destruct (Z.eqb_spec (openOf key open) 0); cbn; lia. Qed.

Lemma tryAcquire_counted open s a s' ok :
  Counted open s -> tryAcquire a s = (s', ok) -> Counted (if ok then a :: open else open) s'.
Proof.
  intros HC. pose proof (Counted_count open s (throttleKeyOf a) HC) as Hcur. destruct HC as [H1 H2 H3].
  unfold tryAcquire. rewrite Hcur. destruct (Z.leb_spec limit (openOf (throttleKeyOf a) open)) as [Hl|Hl];
    intros [= <- <-]; constructor; cbn; try done.
  - intros key [->%elem_of_singleton|Hk]%elem_of_union; [|auto].
    assert (1 <= limit) by (unfold limit; lia). Z.div_mod_to_equations. lia.
  - intros key. rewrite openOf_cons. pose proof (openOf_nonneg key open).
    destruct (decide (throttleKeyOf a = key)) as [<-|Hne].
    + rewrite lookup_insert_eq, (proj2 (Z.eqb_neq _ _)) by lia. f_equal. lia.
    + rewrite lookup_insert_ne by done. apply H1.
  - intros key. rewrite openOf_cons. specialize (H2 key). destruct (decide _) as [<-|]; lia.
  - intros key Hk. rewrite openOf_cons. specialize (H3 key Hk). destruct (decide _); lia.
Qed.

Lemma release_counted before a after s :
  Counted (before ++ a :: after) s -> Counted (before ++ after) (release a s).
Proof.
  intros [H1 H2 H3].
  assert (Ho : forall key, openOf key (before ++ a :: after)
    = (if decide (throttleKeyOf a = key) then 1 else 0) + openOf key (before ++ after)).
  { intros key. rewrite !openOf_app, openOf_cons. lia. }
  pose proof (openOf_nonneg (throttleKeyOf a) (before ++ after)) as Hn.
  unfold release. rewrite H1, Ho, decide_True by done.
  rewrite (proj2 (Z.eqb_neq (1 + _) 0)) by lia.
  set (n := openOf (throttleKeyOf a) (before ++ after)) in *.
  replace (1 + n - 1) with n by lia.
  set (s1 := if 1 + n <=? 1 then s <| counts ::= delete (throttleKeyOf a) |>
             else s <| counts ::= fun m => <[throttleKeyOf a := n]> m |>).
  assert (Hs1 : saturated s1 = saturated s) by (unfold s1; by destruct (_ <=? _)).
  assert (Hc1 : forall key, counts s1 !! key
    = (if openOf key (before ++ after) =? 0 then None else Some (openOf key (before ++ after)))).
  { intros key. unfold s1. destruct (decide (throttleKeyOf a = key)) as [<-|Hne].
    - fold n. destruct (Z.leb_spec (1 + n) 1), (Z.eqb_spec n 0); try lia; cbn;
        [apply lookup_delete_eq|apply lookup_insert_eq].
    - specialize (H1 key). rewrite Ho, decide_False in H1 by done. cbn in H1.
      destruct (_ <=? 1); cbn; [by rewrite lookup_delete_ne|by rewrite lookup_insert_ne]. }
  assert (Hl1 : forall key, openOf key (before ++ after) <= limit).
  { intros key. specialize (H2 key). rewrite Ho in H2. destruct (decide _); lia. }
  assert (Hsat : forall key, key ∈ saturated s -> key <> throttleKeyOf a \/ limit / 2 < n ->
    limit / 2 < openOf key (before ++ after)).
  { intros key Hk Hor. specialize (H3 key Hk). rewrite Ho in H3.
    destruct (decide (throttleKeyOf a = key)) as [<-|]; [|lia]. destruct Hor; [done|exact H]. }
  destruct (Z.leb_spec n (limit / 2)) as [Hle|Hgt]; constructor; cbn; try done.
  - intros key [Hk Hne]%elem_of_difference. rewrite Hs1 in Hk. apply Hsat; [done|left]. set_solver.
  - intros key Hk. rewrite Hs1 in Hk. apply Hsat; [done|by right].
Qed.

Lemma Listening_counted open s : Listening open s -> Counted open s.
Proof.
  induction 1 as [|open s a s' HL IH E|open s a s' HL IH E|before a after s HL IH].
  - constructor; [done| |set_solver]. intros key. change (openOf key []) with 0. unfold limit. lia.
  - by apply (tryAcquire_counted open s a s' true).
  - by apply (tryAcquire_counted open s a s' false).
  - by apply release_counted.
Qed.

(** The limiter counts exactly the open connections.  In every history of admitted,
    refused and ended connections, the counter of a prefix is the number of its open
    connections and never exceeds the limit; a prefix without open connections has no
    entry, so the map does not grow with the addresses seen; a new connection is
    admitted exactly when its prefix is below the limit, whatever the others do; and
    only prefixes above half the limit are remembered as saturated. *)
Theorem peer_limit_exact open s :
  Listening open s ->
  (forall a, countFor a s = openOf (throttleKeyOf a) open /\ countFor a s <= limit) /\
  (forall key, is_Some (counts s !! key) <-> 0 < openOf key open) /\
  (forall a, snd (tryAcquire a s) = true <-> openOf (throttleKeyOf a) open < limit) /\
  (forall key, key ∈ saturated s -> limit / 2 < openOf key open).
Proof.
  intros HL. pose proof (Listening_counted open s HL) as HC. split; [|split; [|split]].
  - intros a. unfold countFor. rewrite (Counted_count open s _ HC). split; [done|]. apply (c_limit _ _ HC).
  - intros key. rewrite (c_counts _ _ HC). pose proof (openOf_nonneg key open).
    destruct (Z.eqb_spec (openOf key open) 0) as [E|E]; [rewrite E|].
    + split; [by intros [? ?]|lia].
    + split; [lia|eauto].
  - intros a. unfold tryAcquire. rewrite (Counted_count open s _ HC).
    destruct (Z.leb_spec limit (openOf (throttleKeyOf a) open)); cbn; split; (done || lia).
  - apply (c_saturated _ _ HC).
Qed.
End Limiter.

(** Two connections of one prefix under a limit of two, and a third refused. *)
#[local] Instance anyNet : NodeNet := {| isIP := fun t => if bool_decide (COLON ∈ t) then 6 else 4 |}.

Definition peerA : option jsstr := Some (js "2001:db8::1").
Definition peerB : option jsstr := Some (js "2001:db8::2").

Definition limiter2 : Limiter := (tryAcquire (Some 2) peerB (tryAcquire (Some 2) peerA newLimiter).1).1.

Lemma peer_limit_exact_witness :
  snd (tryAcquire (Some 2) peerB limiter2) = false.
Proof.
  destruct (peer_limit_exact (Some 2) [peerB; peerA] limiter2) as (_ & _ & H & _).
  - eapply listen_accept; [eapply listen_accept; [apply listen_start|]|];
      (apply injective_projections; [reflexivity|vm_compute; reflexivity]).
  - apply not_true_is_false. rewrite H. vm_compute. congruence.
Defined.
