(* ===== verification/Regex.v ===== *)
(** * The linear-time regular expressions of Sieve (packages/core/src/regex.ts)

    The parser, the compiler to instructions and the Pike machine that runs them.  The
    parser's position is the rest of the pattern; recursion that is not structural takes
    fuel, with a theorem that the fuel given suffices. *)

From S2P Require Import Prelude JsString JsNumber Loop.

Definition MAX_PATTERN_CHARS : Z := 4096.
Definition MAX_PROGRAM_SIZE : Z := 20000.
Definition MAX_REPEAT : Z := 1000.

#[global] Arguments MAX_PROGRAM_SIZE : simpl never.

Inductive RegexSyntaxError :=
| PatternTooLong | Unexpected | RepeatTooLarge | BoundsOutOfOrder | GroupExtension | UnclosedGroup
| TrailingBackslash | Backreference | UnmatchedParen | UnclosedClass | NegatedShorthandInClass
| RangeOutOfOrder | TooComplex.

(** ** Abstract syntax *)

Inductive Node :=
| Empty
| Char (ch : Z)
| Any
| Class_ (negate : bool) (ranges : list (Z * Z))
| Bol
| Eol
| Cat (parts : list Node)
| Alt (parts : list Node)
| Repeat (node : Node) (min : nat) (max : option nat)
| Group (node : Node) (index : nat).

(** ** Parsing *)

(** [Fuel] is no behaviour of the source: see [parse_ok]. *)
Abbreviation Res := (Result RegexSyntaxError).

Record ParserState := mkState { rest : jsstr; groups : nat }.

(** [SHORTHAND[esc]] *)
Definition shorthand (esc : Z) : option (bool * list (Z * Z)) :=
  let digit := [(48, 57)] in
  let word := [(48, 57); (65, 90); (95, 95); (97, 122)] in
  let space := [(9, 13); (32, 32)] in
  if esc =? 100 then Some (false, digit)
  else if esc =? 68 then Some (true, digit)
  else if esc =? 119 then Some (false, word)
  else if esc =? 87 then Some (true, word)
  else if esc =? 115 then Some (false, space)
  else if esc =? 83 then Some (true, space)
  else None.

(** [CONTROL_ESCAPES[esc] ?? esc] *)
Definition controlEscape (esc : Z) : Z :=
  if esc =? 110 then 10
  else if esc =? 114 then 13
  else if esc =? 116 then 9
  else if esc =? 102 then 12
  else if esc =? 118 then 11
  else if esc =? 48 then 0
  else esc.

Definition headIs (c : Z) (l : jsstr) : bool := match l with x :: _ => x =? c | [] => false end.

(** The body of a [{n}], [{n,}] or [{n,m}]: digits, then perhaps a comma and more digits. *)
Definition boundsBody (body : jsstr) : option (Z * option Z) :=
  match spanDigits body with
  | ([], _) => None
  | (d, []) => Some (digitsVal d, Some (digitsVal d))
  | (d, c :: r) =>
      if negb (c =? 44) then None
      else match spanDigits r with
           | (d2, []) => Some (digitsVal d, match d2 with [] => None | _ => Some (digitsVal d2) end)
           | _ => None
           end
  end.

(** [None] is "no repetition syntax"; [rest] is at the opening brace. *)
Definition parseBounds (st : ParserState) : Res (option (nat * option nat * ParserState)) :=
  match indexOf 125 (rest st) with
  | None => Ok None
  | Some close =>
      match boundsBody (drop 1 (take close (rest st))) with
      | None => Ok None
      | Some (min, max) =>
          if (MAX_REPEAT <? min) || (match max with Some m => MAX_REPEAT <? m | None => false end)
          then Err RepeatTooLarge
          else if (match max with Some m => m <? min | None => false end) then Err BoundsOutOfOrder
          else Ok (Some (Z.to_nat min, Z.to_nat <$> max, st <| rest ::= drop (S close) |>))
      end
  end.

(** One bound of a range in a class, and the rest. *)
Definition classUnit (s : jsstr) : Res (Z * jsstr) :=
  match s with
  | [] => Err UnclosedClass
  | c :: r =>
      if c =? 92 then match r with [] => Err TrailingBackslash | e :: r' => Ok (controlEscape e, r') end
      else Ok (c, r)
  end.

(** The loop of [parseClass], up to and including the closing bracket. *)
Fixpoint classLoop (fuel : nat) (ranges : list (Z * Z)) (s : jsstr) : Res (list (Z * Z) * jsstr) :=
  match fuel with
  | O => Fuel
  | S f =>
      match s with
      | [] => Err UnclosedClass
      | c :: r =>
          if c =? 93 then Ok (ranges, r)
          else
            let short := if c =? 92 then match r with e :: r' => (fun x => (x, r')) <$> shorthand e | [] => None end
                         else None in
            match short with
            | Some ((true, _), _) => Err NegatedShorthandInClass
            | Some ((false, rs), r') => classLoop f (ranges ++ rs) r'
            | None =>
                let* (lo, r) := classUnit s in
                match r with
                | d :: ((h :: _) as r') =>
                    if (d =? 45) && negb (h =? 93) then
                      let* (hi, r'') := classUnit r' in
                      if hi <? lo then Err RangeOutOfOrder else classLoop f (ranges ++ [(lo, hi)]) r''
                    else classLoop f (ranges ++ [(lo, lo)]) r
                | _ => classLoop f (ranges ++ [(lo, lo)]) r
                end
            end
      end
  end.

(** [rest] is at the opening bracket. *)
Definition parseClass (st : ParserState) : Res (Node * ParserState) :=
  let s := drop 1 (rest st) in
  let '(negate, s) := if headIs 94 s then (true, drop 1 s) else (false, s) in
  let '(ranges, s) := if headIs 93 s then ([(93, 93)], drop 1 s) else ([], s) in
  let* (ranges, s) := classLoop (S (length s)) ranges s in
  Ok (Class_ negate ranges, st <| rest := s |>).

(** The atoms other than groups and classes. *)
Definition parseEscape (st : ParserState) (s : jsstr) : Res (Node * ParserState) :=
  match s with
  | [] => Err TrailingBackslash
  | esc :: r =>
      if (49 <=? esc) && (esc <=? 57) then Err Backreference
      else match shorthand esc with
           | Some (negate, ranges) => Ok (Class_ negate ranges, st <| rest := r |>)
           | None => Ok (Char (controlEscape esc), st <| rest := r |>)
           end
  end.

Fixpoint parseAlternation (fuel : nat) (st : ParserState) : Res (Node * ParserState) :=
  match fuel with
  | O => Fuel
  | S f =>
      let* (first, st) := parseConcat f [] st in
      let* (parts, st) := alternatives f [first] st in
      Ok (match parts with [p] => p | _ => Alt parts end, st)
  end
(** The loop over the bars. *)
with alternatives (fuel : nat) (parts : list Node) (st : ParserState) : Res (list Node * ParserState) :=
  match fuel with
  | O => Fuel
  | S f =>
      if headIs 124 (rest st) then
        let* (p, st) := parseConcat f [] (st <| rest ::= drop 1 |>) in
        alternatives f (parts ++ [p]) st
      else Ok (parts, st)
  end
(** The loop over the factors; [parts] are those read so far. *)
with parseConcat (fuel : nat) (parts : list Node) (st : ParserState) : Res (Node * ParserState) :=
  match fuel with
  | O => Fuel
  | S f =>
      match rest st with
      | c :: _ =>
          if (c =? 124) || (c =? 41)
          then Ok (match parts with [] => Empty | [p] => p | _ => Cat parts end, st)
          else
            let* (atom, st) := parseAtom f st in
            let* (p, st) := repeats f atom st in
            parseConcat f (parts ++ [p]) st
      | [] => Ok (match parts with [] => Empty | [p] => p | _ => Cat parts end, st)
      end
  end
(** The loop of [parseRepeat]. *)
with repeats (fuel : nat) (node : Node) (st : ParserState) : Res (Node * ParserState) :=
  match fuel with
  | O => Fuel
  | S f =>
      if headIs 42 (rest st) then repeats f (Repeat node 0 None) (st <| rest ::= drop 1 |>)
      else if headIs 43 (rest st) then repeats f (Repeat node 1 None) (st <| rest ::= drop 1 |>)
      else if headIs 63 (rest st) then repeats f (Repeat node 0 (Some 1%nat)) (st <| rest ::= drop 1 |>)
      else if headIs 123 (rest st) then
        let* b := parseBounds st in
        match b with
        | None => Ok (node, st)
        | Some (min, max, st) => repeats f (Repeat node min max) st
        end
      else Ok (node, st)
  end
with parseAtom (fuel : nat) (st : ParserState) : Res (Node * ParserState) :=
  match fuel with
  | O => Fuel
  | S f =>
      match rest st with
      | [] => Ok (Empty, st)
      | c :: r =>
          if c =? 40 then
            if headIs 63 r then Err GroupExtension
            else
              let index := S (groups st) in
              let* (inner, st) := parseAlternation f {| rest := r; groups := index |} in
              if headIs 41 (rest st) then Ok (Group inner index, st <| rest ::= drop 1 |>) else Err UnclosedGroup
          else if c =? 91 then parseClass st
          else if c =? 46 then Ok (Any, st <| rest := r |>)
          else if c =? 94 then Ok (Bol, st <| rest := r |>)
          else if c =? 36 then Ok (Eol, st <| rest := r |>)
          else if c =? 92 then parseEscape st r
          else if c =? 41 then Err UnmatchedParen
          else Ok (Char c, st <| rest := r |>)
      end
  end.

(** ** Compilation *)

Inductive Inst :=
| IChar (ch : Z)
| IAny
| IClass (negate : bool) (ranges : list (Z * Z))
| IBol
| IEol
| ISplit (a b : nat)
| IJmp (to : nat)
| ISave (slot : nat)
| IMatch.

Record CompiledRegex := mkRegex { prog : list Inst; reGroups : nat; caseInsensitive : bool }.

(** [None] where [emit] throws. *)
Definition emit (p : list Inst) (i : Inst) : option (list Inst) :=
  if MAX_PROGRAM_SIZE <=? len p then None else Some (p ++ [i]).

(** [prog[sp].b = ...], [prog[j].to = ...] *)
Definition patch (p : list Inst) (at_ : nat) (i : Inst) : list Inst := <[at_ := i]> p.

(** [f] applied [n] times. *)
Fixpoint times (n : nat) (f : list Inst -> option (list Inst)) (p : list Inst) : option (list Inst) :=
  match n with O => Some p | S n' => p ← f p; times n' f p end.

(** The loop over the optional copies of [x{n,m}]: the program and the splits. *)
Fixpoint optionals (n : nat) (f : list Inst -> option (list Inst)) (p : list Inst) (splits : list nat)
    : option (list Inst * list nat) :=
  match n with
  | O => Some (p, splits)
  | S n' =>
      let sp := length p in
      p ← emit p (ISplit (S sp) 0);
      p ← f p;
      optionals n' f p (splits ++ [sp])
  end.

(** The loop over the factors of a concatenation. *)
Definition catLoop (f : Node -> list Inst -> option (list Inst)) :=
  fix go (l : list Node) (p : list Inst) : option (list Inst) :=
  match l with
  | [] => Some p
  | x :: l' => p ← f x p; go l' p
  end.

(** The loop over the alternatives: the program and the jumps to the end. *)
Definition altLoop (f : Node -> list Inst -> option (list Inst)) :=
  fix go (l : list Node) (p : list Inst) (jumps : list nat) : option (list Inst * list nat) :=
  match l with
  | [] => Some (p, jumps)
  | [x] => p ← f x p; Some (p, jumps)
  | x :: l' =>
      let sp := length p in
      p ← emit p (ISplit (S sp) 0);
      p ← f x p;
      let j := length p in
      p ← emit p (IJmp 0);
      go l' (patch p sp (ISplit (S sp) (length p))) (jumps ++ [j])
  end.

Definition charCode (ci : bool) (ch : Z) : Z := if ci then default ch (head (toLowerCase [ch])) else ch.

Section Compile.
Context (ci : bool).

Fixpoint compileNode (node : Node) (p : list Inst) : option (list Inst) :=
  match node with
  | Empty => Some p
  | Char ch => emit p (IChar (charCode ci ch))
  | Any => emit p IAny
  | Class_ negate ranges => emit p (IClass negate ranges)
  | Bol => emit p IBol
  | Eol => emit p IEol
  | Cat parts => catLoop compileNode parts p
  | Alt parts =>
      r ← altLoop compileNode parts p [];
      let '(p, jumps) := r in
      Some (fold_left (fun p' j => patch p' j (IJmp (length p))) jumps p)
  | Group node index =>
      p ← emit p (ISave (index * 2));
      p ← compileNode node p;
      emit p (ISave (index * 2 + 1))
  | Repeat node min max =>
      p ← times min (compileNode node) p;
      match max with
      | None =>
          let start := length p in
          p ← emit p (ISplit (S start) 0);
          p ← compileNode node p;
          p ← emit p (IJmp start);
          Some (patch p start (ISplit (S start) (length p)))
      | Some m =>
          r ← optionals (m - min) (compileNode node) p [];
          let '(p, splits) := r in
          Some (fold_left (fun p' sp => patch p' sp (ISplit (S sp) (length p))) splits p)
      end
  end.
End Compile.

(** Enough for the recursion of the parser: every call but one in three reads a unit. *)
Definition parseFuel (pattern : jsstr) : nat := 4 * length pattern + 8.

Definition compileRegex (pattern : jsstr) (ci : bool) : Res CompiledRegex :=
  if MAX_PATTERN_CHARS <? len pattern then Err PatternTooLong
  else
    let* (ast, st) := parseAlternation (parseFuel pattern) {| rest := pattern; groups := 0 |} in
    match rest st with
    | _ :: _ => Err Unexpected
    | [] =>
        match (p ← emit [] (ISave 0); p ← compileNode ci ast p; p ← emit p (ISave 1); emit p IMatch) with
        | None => Err TooComplex
        | Some p => Ok {| prog := p; reGroups := groups st; caseInsensitive := ci |}
        end
    end.

(** ** Execution *)

(** [inClass]: the ranges are tried in order, [negate] flips the answer. *)
Definition inClass (negate : bool) (ranges : list (Z * Z)) (code : Z) : bool :=
  xorb negate (existsb (fun '(lo, hi) => (lo <=? code) && (code <=? hi)) ranges).

(** [copy[slot] = pos]: writing past the end extends the array. *)
Definition setSlot (slots : list Z) (slot : nat) (v : Z) : list Z :=
  if decide (slot < length slots)%nat then <[slot := v]> slots
  else slots ++ replicate (slot - length slots) (-1) ++ [v].

Record Thread := mkThread { pc : nat; slots : list Z }.

(** Whether a thread at this instruction reads the unit [ch]; [None] is the end of the input. *)
Definition reads (i : Inst) (ch : option Z) : bool :=
  match ch with
  | None => false
  | Some c => match i with
              | IChar x => x =? c
              | IAny => true
              | IClass negate ranges => inClass negate ranges c
              | _ => false
              end
  end.

Section Machine.
Context (P : list Inst) (hay : jsstr).

(** The list and the program counters marked with the generation.  [None] is the [TypeError]
    of [re.prog[pc]] undefined, or no fuel left: see [addThread_spec]. *)
Fixpoint addThread (fuel : nat) (acc : list Thread * gset nat) (q : nat) (sl : list Z) (pos : nat)
    : option (list Thread * gset nat) :=
  match fuel with
  | O => None
  | S f =>
      let '(l, seen) := acc in
      if decide (q ∈ seen) then Some acc
      else
        let seen := {[q]} ∪ seen in
        match P !! q with
        | None => None
        | Some (IJmp to) => addThread f (l, seen) to sl pos
        | Some (ISplit a b) => acc ← addThread f (l, seen) a sl pos; addThread f acc b sl pos
        | Some (ISave slot) => addThread f (l, seen) (S q) (setSlot sl slot (Z.of_nat pos)) pos
        | Some IBol => if decide (pos = 0%nat) then addThread f (l, seen) (S q) sl pos else Some (l, seen)
        | Some IEol => if decide (pos = length hay) then addThread f (l, seen) (S q) sl pos else Some (l, seen)
        | Some _ => Some (l ++ [mkThread q sl], seen)
        end
  end.

(** Enough for one call: each nested call marks one more instruction. *)
Definition threadFuel : nat := S (length P).

(** The loop over [clist]: the next list and marks, and [best] when a thread matches. *)
Fixpoint stepThreads (clist : list Thread) (next : list Thread * gset nat) (pos : nat)
    : option ((list Thread * gset nat) * option (list Z)) :=
  match clist with
  | [] => Some (next, None)
  | th :: rest =>
      match P !! pc th with
      | None => None
      | Some IMatch => Some (next, Some (slots th))
      | Some i =>
          if reads i (hay !! pos) then
            next ← addThread threadFuel next (S (pc th)) (slots th) (S pos);
            stepThreads rest next pos
          else stepThreads rest next pos
      end
  end.

(** A new starting point enters only while nothing has matched. *)
Definition startThread (slotCount : nat) (cur : list Thread * gset nat) (best : option (list Z)) (pos : nat)
    : option (list Thread * gset nat) :=
  match best with
  | None => addThread threadFuel cur 0 (replicate slotCount (-1)) pos
  | Some _ => Some cur
  end.

(** The loop over the positions; [n] are left. *)
Fixpoint positions (n : nat) (slotCount : nat) (cur : list Thread * gset nat) (best : option (list Z))
    (pos : nat) : option (option (list Z)) :=
  match n with
  | O => Some best
  | S n' =>
      cur ← startThread slotCount cur best pos;
      match cur.1, best with
      | [], Some _ => Some best
      | _, _ =>
          r ← stepThreads cur.1 ([], ∅) pos;
          positions n' slotCount r.1 (match r.2 with Some b => Some b | None => best end) (S pos)
      end
  end.
End Machine.

Record RegexMatch := mkMatch { matched : bool; captures : list jsstr }.

(** [best[g * 2]], [best[g * 2 + 1]] and the part of the input between them. *)
Definition capture (input : jsstr) (best : list Z) (g : nat) : jsstr :=
  let s := default (-1) (best !! (g * 2)%nat) in
  let e := default (-1) (best !! (g * 2 + 1)%nat) in
  if (0 <=? s) && (s <=? e) then take (Z.to_nat (e - s)) (drop (Z.to_nat s) input) else [].

(** [None] is the [TypeError] no compiled pattern gives: see [execRegex_total]. *)
Definition execRegex (re : CompiledRegex) (input : jsstr) : option RegexMatch :=
  let hay := if caseInsensitive re then toLowerCase input else input in
  best ← positions (prog re) hay (S (length hay)) ((reGroups re + 1) * 2) ([], ∅) None 0;
  Some (match best with
        | None => mkMatch false []
        | Some b => mkMatch true (map (capture input b) (seq 1 (reGroups re)))
        end).

Definition regexMatch (pattern input : jsstr) (ci : bool) : Res (option RegexMatch) :=
  let* re := compileRegex pattern ci in Ok (execRegex re input).
