(* ===== verification/RegexMachine.v ===== *)
(** * The Pike machine explores exactly the reachable configurations

    [addThread] is a depth-first closure under the instructions that read nothing; the lists
    the machine scans hold every program counter once, and a run matches exactly when some
    configuration of [IMatch] is reachable from a start of the program. *)

From S2P Require Import Prelude JsString Regex.

(** Where control can go next, on any input. *)
Definition succs (q : nat) (i : Inst) : list nat :=
  match i with
  | IJmp to => [to]
  | ISplit a b => [a; b]
  | IMatch => []
  | _ => [S q]
  end.

#[global] Instance Inst_eq_dec : EqDecision Inst.
Proof. solve_decision. Defined.

Section Machine.
Context (P : list Inst) (hay : jsstr).

(** The moves at [pos] that read nothing. *)
Definition esuccs (pos q : nat) (i : Inst) : list nat :=
  match i with
  | IJmp to => [to]
  | ISplit a b => [a; b]
  | ISave _ => [S q]
  | IBol => if decide (pos = 0%nat) then [S q] else []
  | IEol => if decide (pos = length hay) then [S q] else []
  | _ => []
  end.

Definition leaf (i : Inst) : bool :=
  match i with IChar _ | IAny | IClass _ _ | IMatch => true | _ => false end.

Definition estep (pos q q' : nat) : Prop := exists i, P !! q = Some i /\ q' ∈ esuccs pos q i.
Definition leafAt (q : nat) : Prop := exists i, P !! q = Some i /\ leaf i = true.

(** Control never leaves the program. *)
Definition wfProg : Prop := forall q i q', P !! q = Some i -> q' ∈ succs q i -> (q' < length P)%nat.

Definition pcs (l : list Thread) : list nat := map pc l.

(** [b] is [a] with the closure of [qs] added. *)
Record Grow (pos : nat) (qs : list nat) (a b : list Thread * gset nat) : Prop := {
  g_sub : a.2 ⊆ b.2;
  g_range : forall q, q ∈ b.2 -> q ∈ a.2 \/ (q < length P)%nat;
  g_qs : forall q, q ∈ qs -> q ∈ b.2;
  g_new : exists new, b.1 = a.1 ++ new /\ NoDup (pcs new) /\
      (forall q, q ∈ pcs new <-> (q ∈ b.2 /\ q ∉ a.2 /\ leafAt q));
  g_closed : forall q q', q ∈ b.2 -> q ∉ a.2 -> estep pos q q' -> q' ∈ b.2;
  g_reach : forall q, q ∈ b.2 -> q ∉ a.2 -> exists q0, q0 ∈ qs /\ rtc (estep pos) q0 q }.

Lemma Grow_refl pos qs a : (forall q, q ∈ qs -> q ∈ a.2) -> Grow pos qs a a.
Proof.
  intros H. split; try done; try (intros; done); try (by left).
  exists []. rewrite app_nil_r. split_and!; [done | constructor |].
  intros q. split; [intros Hq; inversion Hq | tauto].
Qed.

Lemma Grow_trans pos qs1 qs2 a b c :
  Grow pos qs1 a b -> Grow pos qs2 b c -> Grow pos (qs1 ++ qs2) a c.
Proof.
  intros [s1 r1 h1 [n1 (e1 & d1 & m1)] c1 p1] [s2 r2 h2 [n2 (e2 & d2 & m2)] c2 p2].
  assert (Hdec : forall q, q ∈ b.2 \/ q ∉ b.2) by (intros q; destruct (decide (q ∈ b.2)); tauto).
  split.
  - set_solver.
  - intros q Hq. destruct (r2 q Hq) as [Hb|?]; [|by right]. apply r1, Hb.
  - intros q [Hq|Hq]%elem_of_app; [apply s2, h1, Hq | apply h2, Hq].
  - exists (n1 ++ n2). rewrite e2, e1, <- app_assoc. split; [done|]. unfold pcs in *. rewrite map_app. split.
    + apply NoDup_app. split_and!; [done | | done]. intros q H1 H2. apply m1 in H1. apply m2 in H2. naive_solver.
    + intros q. rewrite elem_of_app, m1, m2. split; [intros [?|?]; set_solver|].
      intros (Hc & Ha & Hl). destruct (Hdec q); [left | right]; done.
  - intros q q' Hq Ha He. destruct (Hdec q) as [Hb|Hb]; [|by eapply c2]. eapply s2, c1; done.
  - intros q Hq Ha. destruct (Hdec q) as [Hb|Hb].
    + destruct (p1 q Hb Ha) as (q0 & H0 & Hr). exists q0. split; [apply elem_of_app; by left | done].
    + destruct (p2 q Hq Hb) as (q0 & H0 & Hr). exists q0. split; [apply elem_of_app; by right | done].
Qed.

Lemma Grow_node pos q i l seen c :
  P !! q = Some i -> leaf i = false -> q ∉ seen ->
  Grow pos (esuccs pos q i) (l, {[q]} ∪ seen) c -> Grow pos [q] (l, seen) c.
Proof.
  intros Hi Hl Hq [s r h [n (e & d & m)] cl p]. cbn [fst snd] in *.
  assert (Hnl : ~ leafAt q) by (intros (i' & H1 & H2); simplify_eq; congruence).
  split; cbn [fst snd].
  - set_solver.
  - intros x Hx. destruct (r x Hx) as [[->%elem_of_singleton|?]%elem_of_union|?]; [right | by left | by right].
    by eapply lookup_lt_Some.
  - intros x ->%list_elem_of_singleton. set_solver.
  - exists n. split_and!; [done | done |]. intros x. rewrite m. split; [set_solver|].
    intros (H1 & H2 & H3). split_and!; [done | | done]. intros [->%elem_of_singleton|?]%elem_of_union; done.
  - intros x x' Hx Hn He. destruct (decide (x = q)) as [->|]; [|eapply cl; set_solver].
    destruct He as (i' & H1 & H2). simplify_eq. by apply h.
  - intros x Hx Hn. destruct (decide (x = q)) as [->|Hne]; [exists q; split; [set_solver | constructor]|].
    destruct (p x Hx) as (q0 & H1 & H2); [set_solver|]. exists q. split; [set_solver|].
    eapply rtc_l; [|done]. by exists i.
Qed.

Lemma Grow_leaf pos q i l seen sl :
  P !! q = Some i -> leaf i = true -> q ∉ seen ->
  Grow pos [q] (l, seen) (l ++ [mkThread q sl], {[q]} ∪ seen).
Proof.
  intros Hi Hl Hq. split; cbn [fst snd].
  - set_solver.
  - intros x [->%elem_of_singleton|?]%elem_of_union; [right; by eapply lookup_lt_Some | by left].
  - set_solver.
  - exists [mkThread q sl]. cbn. split_and!; [done | apply NoDup_singleton |].
    intros x. rewrite list_elem_of_singleton. split; [intros ->; split_and!; [set_solver | done | by exists i]|].
    set_solver.
  - intros x x' Hx Hn (i' & H1 & H2). assert (x = q) as -> by set_solver. simplify_eq.
    destruct i; try done; inversion H2.
  - intros x Hx Hn. assert (x = q) as -> by set_solver. exists q. split; [set_solver | constructor].
Qed.

Definition unseen (seen : gset nat) : nat := size ((set_seq 0 (length P) : gset nat) ∖ seen).

Lemma unseen_le (s1 s2 : gset nat) : s1 ⊆ s2 -> (unseen s2 <= unseen s1)%nat.
Proof. intros H. unfold unseen. apply subseteq_size. set_solver. Qed.

Lemma unseen_lt (q : nat) (seen : gset nat) :
  (q < length P)%nat -> q ∉ seen -> (unseen ({[q]} ∪ seen) < unseen seen)%nat.
Proof.
  intros Hq Hn. unfold unseen. apply subset_size. split; [set_solver|]. intros H.
  specialize (H q). rewrite !elem_of_difference, elem_of_set_seq in H. set_solver by lia.
Qed.

Lemma unseen_fuel seen : (unseen seen < threadFuel P)%nat.
Proof.
  unfold unseen, threadFuel.
  assert (H : (size ((set_seq 0 (length P) : gset nat) ∖ seen) <= size (set_seq 0 (length P) : gset nat))%nat)
    by (apply subseteq_size; set_solver).
  rewrite size_set_seq in H. lia.
Qed.

(** With [wfProg] and enough fuel [addThread] answers, and adds the closure. *)
Lemma addThread_spec (Hwf : wfProg) fuel : forall l seen q sl pos,
  (q < length P)%nat -> (unseen seen < fuel)%nat ->
  exists b, addThread P hay fuel (l, seen) q sl pos = Some b /\ Grow pos [q] (l, seen) b.
Proof.
  induction fuel as [|f IH]; intros l seen q sl pos Hq Hf; [lia|]. cbn [addThread].
  destruct (decide (q ∈ seen)) as [Hs|Hs]; [eexists; split; [done | apply Grow_refl; set_solver]|].
  destruct (lookup_lt_is_Some_2 P q Hq) as (i & Hi). rewrite Hi.
  pose proof (unseen_lt q seen Hq Hs) as Hlt.
  assert (Hone : forall q' sl, q' ∈ succs q i -> exists b,
      addThread P hay f (l, {[q]} ∪ seen) q' sl pos = Some b /\ Grow pos [q'] (l, {[q]} ∪ seen) b).
  { intros q' sl' Hin. apply IH; [by eapply Hwf | lia]. }
  assert (Hstop : leaf i = false -> esuccs pos q i = [] -> Grow pos [q] (l, seen) (l, {[q]} ∪ seen)).
  { intros H1 H2. eapply Grow_node; try done. rewrite H2. apply Grow_refl. set_solver. }
  assert (Hgo : forall q' sl, leaf i = false -> esuccs pos q i = [q'] -> q' ∈ succs q i -> exists b,
      addThread P hay f (l, {[q]} ∪ seen) q' sl pos = Some b /\ Grow pos [q] (l, seen) b).
  { intros q' sl' H1 H2 H3. destruct (Hone q' sl' H3) as (b & Hb & Hg). exists b. split; [done|].
    eapply Grow_node; try done. by rewrite H2. }
  destruct i; try (eexists; split; [done | by eapply Grow_leaf]).
  - cbn [esuccs] in *. destruct (decide (pos = 0%nat)); [apply Hgo; [done | done | set_solver] | eauto].
  - cbn [esuccs] in *. destruct (decide (pos = length hay)); [apply Hgo; [done | done | set_solver] | eauto].
  - destruct (Hone a sl) as (b1 & Hb1 & Hg1); [set_solver|]. rewrite Hb1. cbn.
    destruct b1 as [l1 s1]. pose proof (g_sub _ _ _ _ Hg1) as Hsub. cbn in Hsub.
    destruct (IH l1 s1 b sl pos) as (b2 & Hb2 & Hg2).
    { eapply Hwf; [done | set_solver]. }
    { pose proof (unseen_le _ _ Hsub). lia. }
    exists b2. split; [done|]. eapply Grow_node; try done. by eapply (Grow_trans _ [a] [b]).
  - apply Hgo; [done | done | set_solver].
  - apply Hgo; [done | done | set_solver].
Qed.
(** ** Configurations *)

Definition readsAt (pos q : nat) : Prop := exists i, P !! q = Some i /\ reads i (hay !! pos) = true.

(** One move of one thread: a program counter and a position. *)
Definition step (c c' : nat * nat) : Prop :=
  (c'.2 = c.2 /\ estep c.2 c.1 c'.1) \/ (c'.2 = S c.2 /\ c'.1 = S c.1 /\ readsAt c.2 c.1).

Definition Reach (pos q : nat) : Prop := exists i, (i <= pos)%nat /\ rtc step (0%nat, i) (q, pos).
Definition PreReach (pos q : nat) : Prop := exists i, (i < pos)%nat /\ rtc step (0%nat, i) (q, pos).

Lemma esteps_steps pos q q' : rtc (estep pos) q q' -> rtc step (q, pos) (q', pos).
Proof. induction 1 as [|x y z H _ IH]; [constructor|]. apply rtc_l with (y, pos); [by left | done]. Qed.

Lemma steps_mono c c' : rtc step c c' -> (c.2 <= c'.2)%nat.
Proof. induction 1 as [|x y z [[H _]|(H & _)] _ IH]; lia. Qed.

(** The last unit read splits a run. *)
Lemma steps_last c q pos : rtc step c (q, pos) -> (c.2 < pos)%nat ->
  exists q1, rtc step c (q1, Nat.pred pos) /\ readsAt (Nat.pred pos) q1 /\ rtc (estep pos) (S q1) q.
Proof.
  intros H. remember (q, pos) as c' eqn:Hc. revert q pos Hc. revert c' H.
  refine (rtc_ind_r _ c _ _); [intros q pos -> Hlt; cbn in Hlt; lia|].
  intros y z Hr Hs IH q pos -> Hlt.
  destruct y as [q2 p2]. destruct Hs as [[Hp He]|(Hp & Hq & Hrd)]; cbn in Hp; subst.
  - destruct (IH _ _ eq_refl Hlt) as (q1 & H1 & H2 & H3). exists q1. split_and!; [done | done |].
    eapply rtc_r; [done|]. exact He.
  - cbn in Hq. subst q. exists q2. cbn. split_and!; [done | done | constructor].
Qed.

Lemma steps_same q q' pos : rtc step (q, pos) (q', pos) -> rtc (estep pos) q q'.
Proof.
  intros H. remember (q, pos) as c eqn:Hc. remember (q', pos) as c' eqn:Hc'. revert q Hc.
  induction H as [x|x y z Hs Hr IH]; intros q ->; [simplify_eq; constructor|]. subst z.
  destruct y as [q2 p2]. pose proof (steps_mono _ _ Hr) as Hm. cbn in Hm.
  destruct Hs as [[Hp He]|(Hp & _)]; cbn in Hp; [|lia]. subst. eapply rtc_l; [exact He | by apply IH].
Qed.

Lemma PreReach_S pos q : PreReach (S pos) q <->
  exists q1, Reach pos q1 /\ readsAt pos q1 /\ rtc (estep (S pos)) (S q1) q.
Proof.
  split.
  - intros (i & Hi & Hr). destruct (steps_last _ _ _ Hr) as (q1 & H1 & H2 & H3); [cbn; lia|].
    exists q1. split_and!; [|done..]. exists i. split; [lia | done].
  - intros (q1 & (i & Hi & Hr) & Hrd & He). exists i. split; [lia|].
    etransitivity; [exact Hr|]. apply rtc_l with (S q1, S pos); [by right|]. by apply esteps_steps.
Qed.

(** The list and the marks are closed and agree. *)
Record Closed (pos : nat) (a : list Thread * gset nat) : Prop := {
  cl_range : forall q, q ∈ a.2 -> (q < length P)%nat;
  cl_closed : forall q q', q ∈ a.2 -> estep pos q q' -> q' ∈ a.2;
  cl_list : forall q, q ∈ pcs a.1 <-> (q ∈ a.2 /\ leafAt q);
  cl_nodup : NoDup (pcs a.1) }.

Lemma Closed_empty pos : Closed pos ([], ∅).
Proof. split; cbn; try set_solver. constructor. Qed.

Lemma Closed_grow pos qs a b : Closed pos a -> Grow pos qs a b -> Closed pos b.
Proof.
  intros [r c m d] [s1 r1 h1 [n1 (e1 & d1 & m1)] c1 p1]. split.
  - intros q Hq. destruct (r1 q Hq); auto.
  - intros q q' Hq He. destruct (decide (q ∈ a.2)); [eapply s1, c | eapply c1]; done.
  - intros q. rewrite e1. unfold pcs in *. rewrite map_app, elem_of_app, m, m1.
    destruct (decide (q ∈ a.2)); set_solver.
  - rewrite e1. unfold pcs in *. rewrite map_app. apply NoDup_app. split_and!; [done | | done].
    intros q H1 H2. apply m in H1. apply m1 in H2. tauto.
Qed.

(** The marks of a closed list under a closure of [qs] are what the esteps reach. *)
Lemma Closed_rtc pos a q q' : Closed pos a -> q ∈ a.2 -> rtc (estep pos) q q' -> q' ∈ a.2.
Proof. intros Hc Hq Hr. induction Hr as [|x y z He _ IH]; [done|]. apply IH. by eapply cl_closed. Qed.

Lemma Closed_threads pos a : Closed pos a ->
  Forall (fun th => exists i, P !! pc th = Some i) a.1.
Proof.
  intros [r c m d]. apply Forall_forall. intros th Hth. apply lookup_lt_is_Some_2, r.
  apply (m (pc th)). unfold pcs. apply list_elem_of_In, in_map. by apply list_elem_of_In.
Qed.

(** The counters that read the unit at [pos], moved on. *)
Definition nexts (pos : nat) (l : list Thread) : list nat :=
  map S (filter (fun q => match P !! q with Some i => reads i (hay !! pos) | None => false end = true) (pcs l)).

Lemma nexts_elem pos l q : q ∈ nexts pos l <-> exists q1, q = S q1 /\ q1 ∈ pcs l /\ readsAt pos q1.
Proof.
  unfold nexts, readsAt. rewrite list_elem_of_fmap. split.
  - intros (q1 & -> & H). apply list_elem_of_filter in H as [H1 H2]. exists q1. split_and!; [done | done |].
    destruct (P !! q1) as [i|]; [by exists i | done].
  - intros (q1 & -> & H & i & Hi & Hr). exists q1. split; [done|]. apply list_elem_of_filter. by rewrite Hi.
Qed.

Lemma stepThreads_spec (Hwf : wfProg) pos l : forall next,
  Forall (fun th => exists i, P !! pc th = Some i) l ->
  exists r qs, stepThreads P hay l next pos = Some r /\ Grow (S pos) qs next r.1 /\
    (r.2 = None <-> Forall (fun q => P !! q <> Some IMatch) (pcs l)) /\
    (r.2 = None -> qs = nexts pos l).
Proof.
  induction l as [|th l IH]; intros next Hl; cbn [stepThreads].
  - exists (next, None), []. split_and!; [done | by apply Grow_refl; set_solver | | done].
    split; [constructor | done].
  - inversion_clear Hl as [|? ? (i & Hi) Hl']. rewrite Hi. cbn [pcs map].
    destruct (decide (i = IMatch)) as [->|Hne].
    { exists (next, Some (slots th)), []. split_and!; [done | by apply Grow_refl; set_solver | | done].
      split; [done|]. intros Hf. inversion_clear Hf. done. }
    assert (Hcase : exists next' qs', (if reads i (hay !! pos)
               then addThread P hay (threadFuel P) next (S (pc th)) (slots th) (S pos) else Some next) = Some next' /\
               Grow (S pos) qs' next next' /\ qs' ++ nexts pos l = nexts pos (th :: l)).
    { unfold nexts. cbn [pcs map]. destruct (reads i (hay !! pos)) eqn:Hr.
      - destruct (addThread_spec Hwf (threadFuel P) next.1 next.2 (S (pc th)) (slots th) (S pos)) as (b & Hb & Hg).
        + eapply Hwf; [exact Hi|]. destruct i, (hay !! pos); try done; set_solver.
        + apply unseen_fuel.
        + destruct next. exists b, [S (pc th)]. split_and!; [done | done |].
          rewrite filter_cons_True by (by rewrite Hi). done.
      - exists next, []. split_and!; [done | apply Grow_refl; set_solver |].
        rewrite filter_cons_False by (rewrite Hi; congruence). done. }
    destruct Hcase as (next' & qs' & Hadd & Hg & Hqs).
    destruct (IH next' Hl') as (r & qs & Hr & Hg2 & Hnone & Heq).
    exists r, (qs' ++ qs). split_and!.
    + destruct i; try done; destruct (reads _ _); cbn in *; by simplify_option_eq.
    + by eapply Grow_trans.
    + rewrite Hnone. split; [intros; constructor; [rewrite Hi; congruence | done] | intros Hf; by inversion_clear Hf].
    + intros Hn. by rewrite (Heq Hn).
Qed.
(** ** The loop over the positions *)

Definition Hit (pos : nat) : Prop := exists q, Reach pos q /\ P !! q = Some IMatch.

(** What holds when the loop reaches [pos]. *)
Record Head (pos : nat) (cur : list Thread * gset nat) (best : option (list Z)) : Prop := {
  hd_closed : Closed pos cur;
  hd_none : best = None -> (forall q, q ∈ cur.2 <-> PreReach pos q) /\ (forall p, (p < pos)%nat -> ~ Hit p);
  hd_some : is_Some best -> exists p, (p < pos)%nat /\ Hit p }.

Lemma Head_start : Head 0 ([], ∅) None.
Proof.
  split; [apply Closed_empty | | by intros [? ?]]. intros _. split; [|lia].
  intros q. split; [set_solver | intros (i & Hi & _); lia].
Qed.

Section Loop.
Context (Hwf : wfProg) (Hpos : (0 < length P)%nat) (slotCount : nat).

Lemma startThread_spec pos cur best : Head pos cur best ->
  exists cur', startThread P hay slotCount cur best pos = Some cur' /\ Closed pos cur' /\
    (best = None -> forall q, q ∈ cur'.2 <-> Reach pos q).
Proof.
  intros [Hc Hn _]. destruct best as [b|]; cbn [startThread]; [by exists cur|].
  destruct (addThread_spec Hwf (threadFuel P) cur.1 cur.2 0 (replicate slotCount (-1)) pos Hpos) as (c & Hadd & Hg);
    [apply unseen_fuel|].
  destruct cur as [l seen]. exists c. pose proof (Closed_grow _ _ _ _ Hc Hg) as Hc'. split_and!; [done | done |].
  intros _ q. destruct (Hn eq_refl) as [Hq _]. cbn [snd] in Hq. split.
  - intros Hin. destruct (decide (q ∈ seen)) as [Hs|Hs].
    + apply Hq in Hs as (i & Hi & Hr). exists i. split; [lia | done].
    + destruct (g_reach _ _ _ _ Hg q Hin Hs) as (q0 & ->%list_elem_of_singleton & Hr).
      exists pos. split; [lia | by apply esteps_steps].
  - intros (i & Hi & Hr). destruct (decide (i = pos)) as [->|].
    + eapply Closed_rtc; [done | apply (g_qs _ _ _ _ Hg 0%nat); set_solver | by apply steps_same].
    + apply (g_sub _ _ _ _ Hg), Hq. exists i. split; [lia | done].
Qed.

Lemma iteration pos cur best cur' : Head pos cur best ->
  startThread P hay slotCount cur best pos = Some cur' ->
  exists r, stepThreads P hay cur'.1 ([], ∅) pos = Some r /\
    Head (S pos) r.1 (match r.2 with Some b => Some b | None => best end).
Proof.
  intros Hh Hst. destruct (startThread_spec _ _ _ Hh) as (c & Hc1 & Hc & Hall). simplify_eq.
  destruct (stepThreads_spec Hwf pos cur'.1 ([], ∅) (Closed_threads _ _ Hc)) as (r & qs & Hr & Hg & Hnone & Hqs).
  exists r. split; [done|]. pose proof (Closed_grow _ _ _ _ (Closed_empty _) Hg) as Hc'. split; [done | |].
  - intros Hb. destruct r as [nx [b|]]; [done|]. cbn [fst snd] in *. subst best.
    specialize (Hall eq_refl). specialize (Hqs eq_refl). subst qs. pose proof (proj1 Hnone eq_refl) as Hno.
    destruct (hd_none _ _ _ Hh eq_refl) as [_ Hbefore]. split.
    + intros q. rewrite PreReach_S. split.
      * intros Hin. destruct (g_reach _ _ _ _ Hg q Hin) as (q0 & H0 & H1); [set_solver|].
        apply nexts_elem in H0 as (q1 & -> & Hin1 & Hrd). exists q1. split_and!; [|done..].
        apply Hall. by apply (cl_list _ _ Hc) in Hin1 as [? _].
      * intros (q1 & Hre & Hrd & He). eapply Closed_rtc; [done | | done].
        apply (g_qs _ _ _ _ Hg), nexts_elem. exists q1. split_and!; [done | | done].
        apply (cl_list _ _ Hc). split; [by apply Hall|]. destruct Hrd as (i & Hi & Hrd). exists i. split; [done|].
        destruct i, (hay !! pos); done.
    + intros p Hp (q & Hre & Hm). destruct (decide (p = pos)) as [->|]; [|by apply (Hbefore p); [lia | exists q]].
      rewrite Forall_forall in Hno. apply (Hno q); [|done]. apply (cl_list _ _ Hc). split; [by apply Hall | by exists IMatch].
  - intros Hs. destruct best as [b|].
    { destruct (hd_some _ _ _ Hh) as (p & Hp & Hit); [done|]. exists p. split; [lia | done]. }
    exists pos. split; [lia|]. destruct r as [nx [b|]]; [|by destruct Hs]. cbn [fst snd] in *.
    destruct (decide (Exists (fun q => P !! q = Some IMatch) (pcs cur'.1))) as [He|He].
    + apply Exists_exists in He as (q & Hq & Hm). exists q. split; [|done]. apply Hall; [done|].
      by apply (cl_list _ _ Hc) in Hq as [? _].
    + exfalso. apply not_Exists_Forall in He; [|intros ?; apply _]. by apply Hnone in He.
Qed.

Lemma positions_spec n : forall pos cur best, Head pos cur best -> (pos + n = S (length hay))%nat ->
  exists best', positions P hay n slotCount cur best pos = Some best' /\
    (is_Some best' <-> exists p, (p <= length hay)%nat /\ Hit p).
Proof.
  induction n as [|n IH]; intros pos cur best Hh Hn; cbn [positions].
  - exists best. split; [done|]. destruct best as [b|].
    + split; [|by eexists]. intros Hs. destruct (hd_some _ _ _ Hh Hs) as (p & ? & ?). exists p. split; [lia | done].
    + split; [by intros [? ?]|]. intros (p & Hp & Hit). destruct (hd_none _ _ _ Hh eq_refl) as [_ Hb].
      exfalso. apply (Hb p); [lia | done].
  - destruct (startThread_spec _ _ _ Hh) as (cur' & Hst & _). rewrite Hst. cbn [mbind option_bind].
    destruct (iteration _ _ _ _ Hh Hst) as (r & Hr & Hh').
    assert (Hgo : exists best', (r ← stepThreads P hay cur'.1 ([], ∅) pos;
        positions P hay n slotCount r.1 (match r.2 with Some b => Some b | None => best end) (S pos)) = Some best' /\
        (is_Some best' <-> exists p, (p <= length hay)%nat /\ Hit p)).
    { rewrite Hr. apply IH; [done | lia]. }
    destruct cur' as [[|th l] seen], best as [b|]; cbn [fst snd] in *; try exact Hgo.
    exists (Some b). split; [done|]. split; [|by eexists]. intros Hs.
    destruct (hd_some _ _ _ Hh Hs) as (p & ? & ?). exists p. split; [lia | done].
Qed.
End Loop.
End Machine.
