(* ===== verification/RegexSem.v ===== *)
(** * What the patterns of regex.ts mean, and that the machine decides it

    [Matches] says on which spans of the input a syntax tree matches; [Compiled] says that a
    program holds the code of a tree.  The compiler gives code of the tree, the code realises
    the meaning, and so a compiled pattern matches exactly the inputs with a matching span. *)

From S2P Require Import Prelude JsString JsNumber Regex RegexMachine.

Notation span := (nat -> nat -> Prop).

(** The spans that follow one another. *)
Fixpoint chain (Rs : list span) (i j : nat) : Prop :=
  match Rs with
  | [] => i = j
  | R :: Rs' => exists k, R i k /\ chain Rs' k j
  end.

Section Meaning.
Context (ci : bool) (hay : jsstr).

Fixpoint Matches (node : Node) (i j : nat) : Prop :=
  match node with
  | Empty => i = j
  | Char ch => hay !! i = Some (charCode ci ch) /\ j = S i
  | Any => is_Some (hay !! i) /\ j = S i
  | Class_ negate ranges => (exists c, hay !! i = Some c /\ inClass negate ranges c = true) /\ j = S i
  | Bol => i = 0%nat /\ j = i
  | Eol => i = length hay /\ j = i
  | Cat parts => chain (map Matches parts) i j
  | Alt parts => Exists (fun M : span => M i j) (map Matches parts)
  | Repeat n min max =>
      exists k, (min <= k)%nat /\ (match max with Some m => (k <= m)%nat | None => True end) /\
           chain (replicate k (Matches n)) i j
  | Group n _ => Matches n i j
  end.
End Meaning.

(** The trees the parser builds. *)
Fixpoint wfNode (node : Node) : bool :=
  match node with
  | Cat parts => forallb wfNode parts
  | Alt parts => negb (match parts with [] => true | _ => false end) && forallb wfNode parts
  | Repeat n min max => wfNode n && (match max with Some m => (min <=? m)%nat | None => true end)
  | Group n _ => wfNode n
  | _ => true
  end.

Section NodeInd.
Context (Q : Node -> Prop).
Context (HEmpty : Q Empty) (HChar : forall c, Q (Char c)) (HAny : Q Any) (HClass : forall n r, Q (Class_ n r))
  (HBol : Q Bol) (HEol : Q Eol) (HCat : forall l, Forall Q l -> Q (Cat l)) (HAlt : forall l, Forall Q l -> Q (Alt l))
  (HRepeat : forall n a b, Q n -> Q (Repeat n a b)) (HGroup : forall n k, Q n -> Q (Group n k)).

Fixpoint Node_ind' (node : Node) : Q node :=
  let all := fix all (l : list Node) : Forall Q l :=
    match l with [] => Forall_nil_2 Q | x :: l' => Forall_cons_2 Q x l' (Node_ind' x) (all l') end in
  match node with
  | Empty => HEmpty
  | Char c => HChar c
  | Any => HAny
  | Class_ n r => HClass n r
  | Bol => HBol
  | Eol => HEol
  | Cat l => HCat l (all l)
  | Alt l => HAlt l (all l)
  | Repeat n a b => HRepeat n a b (Node_ind' n)
  | Group n k => HGroup n k (Node_ind' n)
  end.
End NodeInd.

(** ** Code in a program *)

Section Code.
Context (P : list Inst).

(** All but the last alternative: a split, the code, a jump to the end. *)
Fixpoint alts (E : nat) (Cs : list span) (s e : nat) : Prop :=
  match Cs with
  | [] => False
  | [C] => C s e
  | C :: Cs' => exists j, P !! s = Some (ISplit (S s) (S j)) /\ C (S s) j /\ P !! j = Some (IJmp E) /\ alts E Cs' (S j) e
  end.

Definition star (C : span) (s e : nat) : Prop :=
  exists j, P !! s = Some (ISplit (S s) e) /\ C (S s) j /\ P !! j = Some (IJmp s) /\ e = S j.

Fixpoint opts (E n : nat) (C : span) (s e : nat) : Prop :=
  match n with
  | O => s = e
  | S n' => exists m, P !! s = Some (ISplit (S s) E) /\ C (S s) m /\ opts E n' C m e
  end.

Fixpoint Compiled (ci : bool) (node : Node) (s e : nat) : Prop :=
  match node with
  | Empty => s = e
  | Char ch => P !! s = Some (IChar (charCode ci ch)) /\ e = S s
  | Any => P !! s = Some IAny /\ e = S s
  | Class_ negate ranges => P !! s = Some (IClass negate ranges) /\ e = S s
  | Bol => P !! s = Some IBol /\ e = S s
  | Eol => P !! s = Some IEol /\ e = S s
  | Cat parts => chain (map (Compiled ci) parts) s e
  | Alt parts => alts e (map (Compiled ci) parts) s e
  | Group n index =>
      exists m, P !! s = Some (ISave (index * 2)) /\ Compiled ci n (S s) m /\
           P !! m = Some (ISave (index * 2 + 1)) /\ e = S m
  | Repeat n min max =>
      exists m, chain (replicate min (Compiled ci n)) s m /\
           match max with
           | None => star (Compiled ci n) m e
           | Some mx => opts e (mx - min) (Compiled ci n) m e
           end
  end.
End Code.

(** ** The code realises the meaning *)

Section Realise.
Context (P : list Inst) (hay : jsstr).

Notation step := (step P hay).

(** Code [C] entered at its start leaves at its end exactly over the spans of [M], stays inside
    meanwhile, and holds no [IMatch]. *)
Record Realises (M C : span) : Prop := {
  r_le : forall s e, C s e -> (s <= e)%nat;
  r_inside : forall s e q i q', C s e -> (s <= q < e)%nat -> P !! q = Some i -> q' ∈ succs q i ->
      (s <= q' <= e)%nat;
  r_nomatch : forall s e q, C s e -> (s <= q < e)%nat -> P !! q <> Some IMatch;
  r_defined : forall s e q, C s e -> (s <= q < e)%nat -> is_Some (P !! q);
  r_sound : forall s e n i t j, C s e -> nsteps step n (s, i) (t, j) -> ~ (s <= t < e)%nat ->
      exists n' k, (n' <= n)%nat /\ M i k /\ nsteps step n' (e, k) (t, j);
  r_complete : forall s e i k, C s e -> M i k -> rtc step (s, i) (e, k) }.

Lemma step_inv q i c c' : P !! q = Some i -> step (q, c) c' ->
  (c'.2 = c /\ c'.1 ∈ esuccs hay c q i) \/ (c' = (S q, S c) /\ reads i (hay !! c) = true).
Proof.
  intros Hi. destruct c' as [q' p']. intros [[H1 (i' & H2 & H3)]|(H1 & H2 & i' & H3 & H4)]; cbn in *; simplify_eq.
  - by left.
  - by right.
Qed.

Lemma estep_step q i pos q' : P !! q = Some i -> q' ∈ esuccs hay pos q i -> step (q, pos) (q', pos).
Proof. intros H1 H2. left. split; [done | by exists i]. Qed.

Lemma first_step n s i t j : nsteps step n (s, i) (t, j) -> t <> s ->
  exists n' c, n = S n' /\ step (s, i) c /\ nsteps step n' c (t, j).
Proof. intros H Hne. inversion H; simplify_eq. eauto 10. Qed.

(** Code of one instruction [x]. *)
Lemma Realises_one x (M : span) :
  x <> IMatch -> succs 0 x = [1%nat] ->
  (forall q, succs q x = [S q]) ->
  (forall q i c', P !! q = Some x -> step (q, i) c' <-> exists k, M i k /\ c' = (S q, k)) ->
  Realises M (fun s e => P !! s = Some x /\ e = S s).
Proof.
  intros Hm _ Hsu Hst. split.
  - intros s e [_ ->]. lia.
  - intros s e q i q' [Hx ->] Hq Hi Hin. assert (q = s) as -> by lia. simplify_eq. rewrite Hsu in Hin. set_solver by lia.
  - intros s e q [Hx ->] Hq. assert (q = s) as -> by lia. congruence.
  - intros s e q [Hx ->] Hq. assert (q = s) as -> by lia. by eexists.
  - intros s e n i t j [Hx ->] Hn Ht. destruct (first_step _ _ _ _ _ Hn) as (n' & c & -> & Hs & Hr); [lia|].
    apply Hst in Hs as (k & Hk & ->); [|done]. exists n', k. split_and!; [lia | done | done].
  - intros s e i k [Hx ->] HM. apply rtc_once, Hst; [done | eauto].
Qed.

(** An instruction that reads one unit satisfying [p]. *)
Lemma Realises_reads x (p : Z -> bool) (M : span) :
  (forall q, esuccs hay q q x = [] /\ forall pos, esuccs hay pos q x = []) -> (forall q, succs q x = [S q]) -> x <> IMatch ->
  (forall o, reads x o = match o with Some c => p c | None => false end) ->
  (forall i j, M i j <-> (exists c, hay !! i = Some c /\ p c = true) /\ j = S i) ->
  Realises M (fun s e => P !! s = Some x /\ e = S s).
Proof.
  intros He Hsu Hm Hr HM. apply Realises_one; [done | apply Hsu | done |]. intros q i c' Hx. split.
  - intros Hs. destruct (step_inv _ _ _ _ Hx Hs) as [[_ H]|[-> H]].
    + rewrite (proj2 (He q)) in H. set_solver.
    + rewrite Hr in H. destruct (hay !! i) as [c|] eqn:Hc; [|done]. exists (S i). split; [|done]. apply HM. eauto.
  - intros (k & Hk & ->). apply HM in Hk as [(c & Hc & Hp) ->]. right. split_and!; [done | done |].
    exists x. cbn. rewrite Hr, Hc. done.
Qed.

(** An instruction that tests the position. *)
Lemma Realises_tests x (p : nat -> Prop) `{forall i, Decision (p i)} (M : span) :
  (forall pos q, esuccs hay pos q x = if decide (p pos) then [S q] else []) -> (forall q, succs q x = [S q]) -> x <> IMatch ->
  (forall o, reads x o = false) ->
  (forall i j, M i j <-> p i /\ j = i) ->
  Realises M (fun s e => P !! s = Some x /\ e = S s).
Proof.
  intros He Hsu Hm Hr HM. apply Realises_one; [done | apply Hsu | done |]. intros q i c' Hx. split.
  - intros Hs. destruct (step_inv _ _ _ _ Hx Hs) as [[Hc H']|[_ H']]; [|by rewrite Hr in H'].
    rewrite He in H'. destruct (decide (p i)) as [Hp|]; [|set_solver]. destruct c' as [q' i']. cbn in *.
    apply list_elem_of_singleton in H'. subst. exists i. split; [by apply HM | done].
  - intros (k & Hk & ->). apply HM in Hk as [Hp ->]. eapply estep_step; [done|]. rewrite He.
    destruct (decide (p i)); [set_solver | done].
Qed.

Lemma Realises_empty : Realises (fun i j => i = j) (fun s e => s = e).
Proof.
  split; try (intros; subst; lia).
  - intros s e n i t j -> Hn _. exists n, i. done.
  - intros s e i k -> ->. constructor.
Qed.

Lemma Realises_seq M C M' C' : Realises M C -> Realises M' C' ->
  Realises (fun i j => exists k, M i k /\ M' k j) (fun s e => exists m, C s m /\ C' m e).
Proof.
  intros [l1 i1 n1 d1 s1 c1] [l2 i2 n2 d2 s2 c2]. split.
  - intros s e (m & H1 & H2). apply l1 in H1. apply l2 in H2. lia.
  - intros s e q i q' (m & H1 & H2) Hq Hi Hin. pose proof (l1 _ _ H1). pose proof (l2 _ _ H2).
    destruct (decide (q < m)%nat) as [Hlt|].
    + assert (Hb : (s <= q' <= m)%nat) by (apply (i1 s m q i q'); (done || lia)). lia.
    + assert (Hb : (m <= q' <= e)%nat) by (apply (i2 m e q i q'); (done || lia)). lia.
  - intros s e q (m & H1 & H2) Hq. destruct (decide (q < m)%nat); [apply (n1 s m) | apply (n2 m e)]; (done || lia).
  - intros s e q (m & H1 & H2) Hq. destruct (decide (q < m)%nat); [apply (d1 s m) | apply (d2 m e)]; (done || lia).
  - intros s e n i t j (m & H1 & H2) Hn Ht. pose proof (l1 _ _ H1). pose proof (l2 _ _ H2).
    destruct (s1 _ _ _ _ _ _ H1 Hn) as (n' & k & Hle & HM & Hn'); [lia|].
    destruct (s2 _ _ _ _ _ _ H2 Hn') as (n'' & k' & Hle' & HM' & Hn''); [lia|].
    exists n'', k'. split_and!; [lia | eauto | done].
  - intros s e i k (m & H1 & H2) (x & H3 & H4). etransitivity; eauto.
Qed.

Lemma Realises_ext M C M' C' : (forall i j, M i j <-> M' i j) -> (forall s e, C' s e -> C s e) ->
  Realises M C -> Realises M' C'.
Proof.
  intros HM HC [l1 i1 n1 d1 s1 c1]. split.
  - eauto.
  - intros s e q i q' ?%HC. eauto.
  - intros s e q ?%HC. eauto.
  - intros s e q ?%HC. eauto.
  - intros s e n i t j ?%HC Hn Ht. destruct (s1 s e n i t j) as (n' & k & ? & ?%HM & ?); eauto.
  - intros s e i k ?%HC ?%HM. eauto.
Qed.

Lemma Realises_chain Ms Cs : Forall2 Realises Ms Cs -> Realises (chain Ms) (chain Cs).
Proof.
  induction 1 as [|M C Ms Cs H _ IH]; [apply Realises_empty|]. cbn [chain].
  eapply Realises_ext; [| |apply (Realises_seq M C _ _ H IH)]; done.
Qed.
Lemma step_split q a b pos c' : P !! q = Some (ISplit a b) -> step (q, pos) c' <-> c' = (a, pos) \/ c' = (b, pos).
Proof.
  intros Hi. split.
  - intros Hs. destruct (step_inv _ _ _ _ Hi Hs) as [[H1 H2]|[_ H2]].
    + destruct c' as [q' p']. cbn in *. subst. rewrite elem_of_cons, list_elem_of_singleton in H2.
      destruct H2 as [->| ->]; auto.
    + by destruct (hay !! pos).
  - intros [->| ->]; eapply estep_step; [done | cbn; set_solver | done | cbn; set_solver].
Qed.

Lemma step_jmp q to pos c' : P !! q = Some (IJmp to) -> step (q, pos) c' <-> c' = (to, pos).
Proof.
  intros Hi. split.
  - intros Hs. destruct (step_inv _ _ _ _ Hi Hs) as [[H1 H2]|[_ H2]].
    + destruct c' as [q' p']. cbn in *. subst. apply list_elem_of_singleton in H2. by subst.
    + by destruct (hay !! pos).
  - intros ->. eapply estep_step; [done | cbn; set_solver].
Qed.

(** The shape shared by the branches: a split at [s], the body from [S s] to [j], and what
    comes at [j] and after. *)
Section Branch.
Context (M C : span) (HC : Realises M C).

Lemma branch_sound s j b n i t x : P !! s = Some (ISplit (S s) b) -> C (S s) j ->
  nsteps step n (s, i) (t, x) -> ~ (s <= t < j)%nat -> (s < j)%nat ->
  exists n', (n' < n)%nat /\ (nsteps step n' (b, i) (t, x) \/ exists k, M i k /\ nsteps step n' (j, k) (t, x)).
Proof.
  intros Hs Hc Hn Ht Hlt. destruct (first_step _ _ _ _ _ Hn) as (n1 & c & -> & Hst & Hr); [lia|].
  apply (step_split _ _ _ _ _ Hs) in Hst as [->| ->]; [|exists n1; split; [lia | by left]].
  destruct (r_sound _ _ HC _ _ _ _ _ _ Hc Hr) as (n2 & k & Hle & HM & Hn2); [lia|].
  exists n2. split; [lia|]. right. eauto.
Qed.

Lemma branch_enter s j b i k : P !! s = Some (ISplit (S s) b) -> C (S s) j -> M i k ->
  rtc step (s, i) (j, k).
Proof.
  intros Hs Hc HM. eapply rtc_l; [apply (step_split _ _ _ _ _ Hs); by left|]. by eapply r_complete.
Qed.

Lemma branch_skip s b i : P !! s = Some (ISplit (S s) b) -> rtc step (s, i) (b, i).
Proof. intros Hs. apply rtc_once, (step_split _ _ _ _ _ Hs). by right. Qed.

Lemma branch_inside s j b q i q' : P !! s = Some (ISplit (S s) b) -> C (S s) j ->
  (s <= q < j)%nat -> P !! q = Some i -> q' ∈ succs q i -> (s <= q' <= j)%nat \/ q' = b.
Proof.
  intros Hs Hc Hq Hi Hin. pose proof (r_le _ _ HC _ _ Hc). destruct (decide (q = s)) as [->|].
  - simplify_eq. cbn in Hin. rewrite elem_of_cons, list_elem_of_singleton in Hin. destruct Hin as [->| ->]; [left; lia | by right].
  - left. pose proof (r_inside _ _ HC _ _ q i q' Hc) as Hb. destruct Hb; [lia | done | done |]. lia.
Qed.

Lemma branch_defined s j b q : P !! s = Some (ISplit (S s) b) -> C (S s) j ->
  (s <= q < j)%nat -> is_Some (P !! q) /\ P !! q <> Some IMatch.
Proof.
  intros Hs Hc Hq. destruct (decide (q = s)) as [->|]; [rewrite Hs; by split; [eexists|]|].
  split; [eapply (r_defined _ _ HC) | eapply (r_nomatch _ _ HC)]; try done; lia.
Qed.

Lemma Realises_star : Realises (fun i j => exists k, chain (replicate k M) i j) (star P C).
Proof.
  split.
  - intros s e (j & Hs & Hc & Hj & ->). pose proof (r_le _ _ HC _ _ Hc). lia.
  - intros s e q i q' (j & Hs & Hc & Hj & ->) Hq Hi Hin. pose proof (r_le _ _ HC _ _ Hc).
    destruct (decide (q = j)) as [->|].
    + simplify_eq. cbn in Hin. apply list_elem_of_singleton in Hin. lia.
    + destruct (branch_inside s j (S j) q i q') as [?| ->]; try done; lia.
  - intros s e q (j & Hs & Hc & Hj & ->) Hq. destruct (decide (q = j)) as [->|]; [congruence|].
    apply (branch_defined s j (S j)); [done | done | lia].
  - intros s e q (j & Hs & Hc & Hj & ->) Hq. destruct (decide (q = j)) as [->|]; [by eexists|].
    apply (branch_defined s j (S j)); [done | done | lia].
  - intros s e n i t x (j & Hs & Hc & Hj & ->) Hn Ht. pose proof (r_le _ _ HC _ _ Hc) as Hle.
    revert i Hn. induction (lt_wf n) as [n _ IH]. intros i Hn.
    destruct (branch_sound _ _ _ _ _ _ _ Hs Hc Hn) as (n1 & Hlt & [Hr|(k & HM & Hr)]); [lia | lia | |].
    + exists n1, i. split_and!; [lia | by exists 0%nat | done].
    + destruct (first_step _ _ _ _ _ Hr) as (n2 & c & -> & Hst & Hr2); [lia|].
      apply (step_jmp _ _ _ _ Hj) in Hst as ->.
      destruct (IH n2 ltac:(lia) k Hr2) as (n3 & k' & Hle3 & (K & HK) & Hr3).
      exists n3, k'. split_and!; [lia | | done]. exists (S K), k. done.
  - intros s e i k (j & Hs & Hc & Hj & ->) (K & HK). revert i HK.
    induction K as [|K IH]; intros i HK; [cbn in HK; subst; by apply branch_skip|].
    destruct HK as (k1 & HM & HK). etransitivity; [by eapply branch_enter|].
    eapply rtc_l; [by apply (step_jmp _ _ _ _ Hj) | by apply IH].
Qed.

Lemma opts_le n : forall E s e, opts P E n C s e -> (s <= e)%nat.
Proof.
  induction n as [|n IH]; intros E s e; cbn; [lia|]. intros (m & Hs & Hc & Ho).
  pose proof (r_le _ _ HC _ _ Hc). apply IH in Ho. lia.
Qed.

Lemma Realises_opts n :
  Realises (fun i j => exists k, (k <= n)%nat /\ chain (replicate k M) i j) (fun s e => opts P e n C s e).
Proof.
  induction n as [|n IH].
  { eapply Realises_ext; [| |apply Realises_empty]; [|done]. intros i j. split; [intros ->; exists 0%nat; done|].
    intros (k & Hk & Hch). assert (k = 0%nat) as -> by lia. done. }
  split.
  - intros s e. apply opts_le.
  - intros s e q i q' (m & Hs & Hc & Ho) Hq Hi Hin. pose proof (r_le _ _ HC _ _ Hc). pose proof (opts_le _ _ _ _ Ho).
    destruct (decide (q < m)%nat).
    + destruct (branch_inside s m e q i q') as [?| ->]; try done; lia.
    + pose proof (r_inside _ _ IH _ _ q i q' Ho) as Hb. destruct Hb; [lia | done | done |]. lia.
  - intros s e q (m & Hs & Hc & Ho) Hq. destruct (decide (q < m)%nat).
    + apply (branch_defined s m e); [done | done | lia].
    + eapply (r_nomatch _ _ IH); [exact Ho | lia].
  - intros s e q (m & Hs & Hc & Ho) Hq. destruct (decide (q < m)%nat).
    + apply (branch_defined s m e); [done | done | lia].
    + eapply (r_defined _ _ IH); [exact Ho | lia].
  - intros s e x i t j (m & Hs & Hc & Ho) Hn Ht. pose proof (r_le _ _ HC _ _ Hc). pose proof (opts_le _ _ _ _ Ho).
    destruct (branch_sound _ _ _ _ _ _ _ Hs Hc Hn) as (n1 & Hlt & [Hr|(k & HM & Hr)]); [lia | lia | |].
    + exists n1, i. split_and!; [lia | exists 0%nat; split; [lia | done] | done].
    + destruct (r_sound _ _ IH _ _ _ _ _ _ Ho Hr) as (n2 & k' & Hle & (K & HK & Hch) & Hr2); [lia|].
      exists n2, k'. split_and!; [lia | | done]. exists (S K). split; [lia | by exists k].
  - intros s e i k (m & Hs & Hc & Ho) (K & HK & Hch). destruct K as [|K].
    + cbn in Hch. subst. by apply branch_skip.
    + destruct Hch as (k1 & HM & Hch). etransitivity; [by eapply branch_enter|].
      eapply (r_complete _ _ IH); [done|]. exists K. split; [lia | done].
Qed.

Lemma Realises_alt_cons M' C' : Realises M' C' ->
  Realises (fun i j => M i j \/ M' i j)
    (fun s e => exists j, P !! s = Some (ISplit (S s) (S j)) /\ C (S s) j /\ P !! j = Some (IJmp e) /\ C' (S j) e).
Proof.
  intros IH. split.
  - intros s e (j & Hs & Hc & Hj & Ho). apply (r_le _ _ HC) in Hc. apply (r_le _ _ IH) in Ho. lia.
  - intros s e q i q' (j & Hs & Hc & Hj & Ho) Hq Hi Hin. pose proof (r_le _ _ HC _ _ Hc). pose proof (r_le _ _ IH _ _ Ho).
    destruct (decide (q < j)%nat); [|destruct (decide (q = j)) as [->|]].
    + destruct (branch_inside s j (S j) q i q') as [?| ->]; try done; lia.
    + simplify_eq. cbn in Hin. apply list_elem_of_singleton in Hin. lia.
    + pose proof (r_inside _ _ IH _ _ q i q' Ho) as Hb. destruct Hb; [lia | done | done |]. lia.
  - intros s e q (j & Hs & Hc & Hj & Ho) Hq. destruct (decide (q < j)%nat); [|destruct (decide (q = j)) as [->|]].
    + apply (branch_defined s j (S j)); [done | done | lia].
    + congruence.
    + eapply (r_nomatch _ _ IH); [exact Ho | lia].
  - intros s e q (j & Hs & Hc & Hj & Ho) Hq. destruct (decide (q < j)%nat); [|destruct (decide (q = j)) as [->|]].
    + apply (branch_defined s j (S j)); [done | done | lia].
    + by eexists.
    + eapply (r_defined _ _ IH); [exact Ho | lia].
  - intros s e x i t z (j & Hs & Hc & Hj & Ho) Hn Ht. pose proof (r_le _ _ HC _ _ Hc). pose proof (r_le _ _ IH _ _ Ho).
    destruct (branch_sound _ _ _ _ _ _ _ Hs Hc Hn) as (n1 & Hlt & [Hr|(k & HM & Hr)]); [lia | lia | |].
    + destruct (r_sound _ _ IH _ _ _ _ _ _ Ho Hr) as (n2 & k' & Hle & HM & Hr2); [lia|].
      exists n2, k'. split_and!; [lia | by right | done].
    + destruct (first_step _ _ _ _ _ Hr) as (n2 & c & -> & Hst & Hr2); [lia|].
      apply (step_jmp _ _ _ _ Hj) in Hst as ->. exists n2, k. split_and!; [lia | by left | done].
  - intros s e i k (j & Hs & Hc & Hj & Ho) [HM|HM].
    + etransitivity; [by eapply branch_enter|]. by apply rtc_once, (step_jmp _ _ _ _ Hj).
    + etransitivity; [by apply (branch_skip s (S j))|]. by eapply (r_complete _ _ IH).
Qed.
End Branch.

Lemma Realises_alts Ms Cs : Forall2 Realises Ms Cs -> Cs <> [] ->
  Realises (fun i j => Exists (fun M : span => M i j) Ms) (fun s e => alts P e Cs s e).
Proof.
  induction 1 as [|M C Ms Cs H Hall IH]; [done|]. intros _. destruct Hall as [|M' C' Ms Cs H' Hall].
  - eapply Realises_ext; [| |exact H]; [|done]. intros i j. rewrite Exists_cons, Exists_nil. tauto.
  - eapply Realises_ext; [| |eapply (Realises_alt_cons M C H), IH; done]; [|done].
    intros i j. by rewrite (Exists_cons _ M).
Qed.

Lemma Realises_save slot : Realises (fun i j => i = j) (fun s e => P !! s = Some (ISave slot) /\ e = S s).
Proof. eapply (Realises_tests _ (fun _ => True)); try done; [by intros [c|] | naive_solver]. Qed.

Lemma chain_app Rs Rs' i j : chain (Rs ++ Rs') i j <-> exists k, chain Rs i k /\ chain Rs' k j.
Proof.
  revert i. induction Rs as [|R Rs IH]; intros i; cbn [chain app]; [naive_solver|].
  setoid_rewrite IH. naive_solver.
Qed.

Lemma Forall2_map_wf ci (l : list Node) :
  Forall (fun n => wfNode n = true -> Realises (Matches ci hay n) (Compiled P ci n)) l -> forallb wfNode l = true ->
  Forall2 Realises (map (Matches ci hay) l) (map (Compiled P ci) l).
Proof. induction 1; cbn; intros; bool_hyps; constructor; auto. Qed.

Lemma Forall2_replicate M C k : Realises M C -> Forall2 Realises (replicate k M) (replicate k C).
Proof. intros H. induction k; cbn; constructor; done. Qed.

(** The code of a tree realises its meaning. *)
Lemma Compiled_realises ci node : wfNode node = true -> Realises (Matches ci hay node) (Compiled P ci node).
Proof.
  induction node using Node_ind'; intros Hwf; cbn [Matches Compiled wfNode] in *.
  - apply Realises_empty.
  - eapply (Realises_reads _ (fun x => charCode ci c =? x)); try done. intros i j. split.
    + intros [-> ->]. split; [|done]. eexists. split; [done | by apply Z.eqb_eq].
    + intros [(x & -> & ->%Z.eqb_eq) ->]. done.
  - eapply (Realises_reads _ (fun x => true)); try done. intros i j. unfold is_Some. naive_solver.
  - by eapply (Realises_reads _ (inClass n r)).
  - eapply (Realises_tests _ (fun i => i = 0%nat)); try done. by intros [c|].
  - eapply (Realises_tests _ (fun i => i = length hay)); try done. by intros [c|].
  - by apply Realises_chain, Forall2_map_wf.
  - bool_hyps. eapply Realises_alts; [by apply Forall2_map_wf | by destruct l].
  - apply andb_true_iff in Hwf as [Hn Hb]. specialize (IHnode Hn). destruct b as [m|].
    + apply Nat.leb_le in Hb. eapply Realises_ext; [| |exact (Realises_seq _ _ _ _
        (Realises_chain _ _ (Forall2_replicate _ _ a IHnode)) (Realises_opts _ _ IHnode (m - a)))]; [|done].
      intros i j. split.
      * intros (k & H1 & K & HK & H2). exists (a + K)%nat. split_and!; [lia | lia |].
        rewrite replicate_add. apply chain_app. eauto.
      * intros (k & H1 & H2 & H3). replace k with (a + (k - a))%nat in H3 by lia.
        rewrite replicate_add in H3. apply chain_app in H3 as (x & Hx1 & Hx2). exists x. split; [done|].
        exists (k - a)%nat. split; [lia | done].
    + eapply Realises_ext; [| |exact (Realises_seq _ _ _ _
        (Realises_chain _ _ (Forall2_replicate _ _ a IHnode)) (Realises_star _ _ IHnode))]; [|done].
      intros i j. split.
      * intros (k & H1 & K & H2). exists (a + K)%nat. split_and!; [lia | done |].
        rewrite replicate_add. apply chain_app. eauto.
      * intros (k & H1 & H2 & H3). replace k with (a + (k - a))%nat in H3 by lia.
        rewrite replicate_add in H3. apply chain_app in H3 as (x & Hx1 & Hx2). eauto.
  - eapply Realises_ext; [| |apply (Realises_seq _ _ _ _ (Realises_save (k * 2))
      (Realises_seq _ _ _ _ (IHnode Hwf) (Realises_save (k * 2 + 1))))].
    + intros i j. naive_solver.
    + intros s e (m & H1 & H2 & H3 & ->). exists (S s). split; [done|]. exists m. done.
Qed.
End Realise.

(** ** The compiler gives code *)

Section Compiler.
Context (ci : bool).

(** [P] holds the instructions of [p] from [a] up. *)
Definition agree (P p : list Inst) (a : nat) : Prop := forall k, (a <= k < length p)%nat -> P !! k = p !! k.

(** Compiling with [f] appends code [C]. *)
Definition Emits (f : list Inst -> option (list Inst)) (C : list Inst -> span) : Prop :=
  forall p p', f p = Some p' ->
    (length p <= length p')%nat /\ (forall k, (k < length p)%nat -> p' !! k = p !! k) /\
    (forall P, agree P p' (length p) -> C P (length p) (length p')).

Lemma agree_weaken P p a b : (a <= b)%nat -> agree P p a -> agree P p b.
Proof. intros Hle H k Hk. apply H. lia. Qed.

Lemma emit_inv p i p' : emit p i = Some p' -> p' = p ++ [i] /\ len p < MAX_PROGRAM_SIZE.
Proof. unfold emit. destruct (Z.leb_spec MAX_PROGRAM_SIZE (len p)); intros; simplify_eq. done. Qed.

Lemma lookup_snoc {A} (l : list A) x k : (k < length l)%nat -> (l ++ [x]) !! k = l !! k.
Proof. intros H. by rewrite lookup_app_l. Qed.

Lemma Emits_emit i : Emits (fun p => emit p i) (fun P s e => P !! s = Some i /\ e = S s).
Proof.
  intros p p' Hp. apply emit_inv in Hp as [-> _]. rewrite length_app. cbn. split_and!; [lia | |].
  - intros k Hk. by apply lookup_snoc.
  - intros P HP. split; [|lia]. rewrite HP; [by apply list_lookup_middle | rewrite length_app; cbn; lia].
Qed.

Lemma Emits_seq f g C C' : Emits f C -> Emits g C' ->
  Emits (fun p => p ← f p; g p) (fun P s e => exists m, C P s m /\ C' P m e).
Proof.
  intros Hf Hg p p' Hp. destruct (f p) as [p1|] eqn:H1; [|done]. cbn in Hp.
  destruct (Hf _ _ H1) as (l1 & k1 & c1). destruct (Hg _ _ Hp) as (l2 & k2 & c2).
  split_and!; [lia | intros k Hk; rewrite k2 by lia; by apply k1 |].
  intros P HP. exists (length p1). split; [apply c1 | apply c2; by eapply agree_weaken; [|done]].
  intros k Hk. rewrite HP by lia. apply k2. lia.
Qed.

Lemma Emits_ext f g (C C' : list Inst -> span) : (forall p, g p = f p) -> (forall P s e, C P s e -> C' P s e) -> Emits f C -> Emits g C'.
Proof. intros He HC Hf p p'. rewrite He. intros Hp. destruct (Hf _ _ Hp) as (?&?&?). split_and!; auto. Qed.

Lemma Emits_times n f C : Emits f C -> Emits (times n f) (fun P => chain (replicate n (C P))).
Proof.
  intros Hf. induction n as [|n IH]; cbn [times replicate chain].
  - intros p p' [= ->]. split_and!; [lia | done | done].
  - by apply Emits_seq.
Qed.

(** Rewriting the instructions at [at_] to what [P] wants, when [P] agrees elsewhere. *)
Lemma lookup_patch p a i k : (a < length p)%nat -> patch p a i !! k = if decide (k = a) then Some i else p !! k.
Proof.
  intros Ha. unfold patch. destruct (decide (k = a)) as [->|]; [by rewrite list_lookup_insert_eq|].
  by rewrite list_lookup_insert_ne.
Qed.

Lemma length_patch p a i : length (patch p a i) = length p.
Proof. apply length_insert. Qed.

(** Patching a list of places. *)
Lemma patches_spec (i : nat -> Inst) js : forall p, Forall (fun j => (j < length p)%nat) js ->
  length (fold_left (fun p' j => patch p' j (i j)) js p) = length p /\
  forall k, fold_left (fun p' j => patch p' j (i j)) js p !! k = if decide (k ∈ js) then Some (i k) else p !! k.
Proof.
  induction js as [|j js IH]; intros p Hjs; [split; [done|]; intros k; rewrite decide_False by set_solver; done|].
  inversion_clear Hjs as [|? ? Hj Hjs']. cbn [fold_left]. destruct (IH (patch p j (i j))) as [IHl IHk].
  { eapply Forall_impl; [done|]. intros x. by rewrite length_patch. }
  rewrite length_patch in IHl. split; [done|]. intros k. rewrite IHk, lookup_patch by done.
  destruct (decide (k ∈ js)), (decide (k ∈ j :: js)), (decide (k = j)); subst; set_solver.
Qed.

Lemma Emits_star f C : Emits f C ->
  Emits (fun p => let start := length p in p ← emit p (ISplit (S start) 0); p ← f p; p ← emit p (IJmp start);
            Some (patch p start (ISplit (S start) (length p)))) (fun P => star P (C P)).
Proof.
  intros Hf p p' Hp. cbn zeta in Hp.
  destruct (emit p _) as [p1|] eqn:H1; [|done]. cbn in Hp. apply emit_inv in H1 as [-> _].
  destruct (f _) as [p2|] eqn:H2; [|done]. cbn in Hp. destruct (Hf _ _ H2) as (l2 & k2 & c2).
  destruct (emit p2 _) as [p3|] eqn:H3; [|done]. cbn in Hp. apply emit_inv in H3 as [-> _].
  injection Hp as <-. rewrite length_app in *. cbn in *.
  assert (Hl : (length p < length (p2 ++ [IJmp (length p)]))%nat) by (rewrite length_app; cbn; lia).
  rewrite length_patch, length_app. cbn. split_and!; [lia | |].
  - intros k Hk. rewrite lookup_patch by done. rewrite decide_False by lia.
    rewrite lookup_snoc, k2 by lia. by apply lookup_snoc.
  - intros P HP. assert (HP' : forall k, (length p <= k < S (length p2))%nat ->
        P !! k = patch (p2 ++ [IJmp (length p)]) (length p) (ISplit (S (length p)) (length p2 + 1)) !! k).
    { intros k Hk. rewrite <- HP; [done|]. rewrite length_patch, length_app. cbn. lia. }
    exists (length p2). split_and!; [| | |lia].
    + rewrite HP' by lia. rewrite lookup_patch by done. by rewrite decide_True by done.
    + replace (S (length p)) with (length p + 1)%nat by lia. apply c2. intros k Hk.
      rewrite HP' by lia. rewrite lookup_patch by done. rewrite decide_False by lia. apply lookup_snoc. lia.
    + rewrite HP' by lia. rewrite lookup_patch by done. rewrite decide_False by lia. by apply list_lookup_middle.
Qed.

(** [P] holds [p] from [a] up, but for the places [js], which hold [i]. *)
Definition agreeBut (P p : list Inst) (a : nat) (js : list nat) (i : nat -> Inst) : Prop :=
  (forall k, (a <= k < length p)%nat -> k ∉ js -> P !! k = p !! k) /\ (forall j, j ∈ js -> P !! j = Some (i j)).

(** Code emitted with places to patch: [js] are those of this run. *)
Definition EmitsBut (p p' : list Inst) (js : list nat) (i : nat -> nat -> Inst) (C : list Inst -> nat -> span) : Prop :=
  (length p <= length p')%nat /\ (forall k, (k < length p)%nat -> p' !! k = p !! k) /\
  Forall (fun j => (length p <= j < length p')%nat) js /\
  (forall P E, agreeBut P p' (length p) js (i E) -> C P E (length p) (length p')).

(** Patching them gives the code with the end known. *)
Lemma EmitsBut_patch p p' js i C : EmitsBut p p' js i C ->
  let q := fold_left (fun p'' j => patch p'' j (i (length p') j)) js p' in
  (length p <= length q)%nat /\ (forall k, (k < length p)%nat -> q !! k = p !! k) /\
  (forall P, agree P q (length p) -> C P (length q) (length p) (length q)).
Proof.
  intros (Hl & Hk & Hjs & HC) q.
  destruct (patches_spec (i (length p')) js p') as [Hlq Hq]; [eapply Forall_impl; [done | cbn; lia]|].
  fold q in Hlq, Hq. rewrite Forall_forall in Hjs. split_and!; [lia | |].
  - intros k Hlt. rewrite Hq, decide_False; [by apply Hk|]. intros Hin. apply Hjs in Hin. lia.
  - intros P HP. rewrite Hlq. apply HC. split.
    + intros k Hlt Hn. rewrite HP by lia. by rewrite Hq, decide_False.
    + intros j Hj. pose proof (Hjs _ Hj). rewrite HP by lia. by rewrite Hq, decide_True.
Qed.

Lemma optionals_spec f C : Emits f C -> forall n p splits p' splits',
  optionals n f p splits = Some (p', splits') ->
  exists new, splits' = splits ++ new /\
    EmitsBut p p' new (fun E j => ISplit (S j) E) (fun P E => opts P E n (C P)).
Proof.
  intros Hf. induction n as [|n IH]; intros p splits p' splits' Hp; cbn [optionals] in Hp.
  { injection Hp as <- <-. exists []. rewrite app_nil_r. split; [done|]. split_and!; [lia | done | constructor | done]. }
  destruct (emit p _) as [p1|] eqn:H1; [|done]. cbn in Hp. apply emit_inv in H1 as [-> _].
  destruct (f _) as [p2|] eqn:H2; [|done]. cbn in Hp. destruct (Hf _ _ H2) as (l2 & k2 & c2).
  rewrite length_app in *. cbn in *.
  destruct (IH _ _ _ _ Hp) as (new & -> & l3 & k3 & j3 & c3). exists (length p :: new).
  rewrite <- app_assoc. split; [done|]. rewrite Forall_forall in j3. split_and!.
  - lia.
  - intros k Hk. rewrite k3, k2 by lia. by apply lookup_snoc.
  - constructor; [lia|]. apply Forall_forall. intros j Hj%j3. lia.
  - intros P E [Ha Hb]. exists (length p2). split_and!.
    + apply Hb. set_solver.
    + replace (S (length p)) with (length p + 1)%nat by lia. apply c2. intros k Hk.
      rewrite Ha; [apply k3; lia | lia |]. intros [->|Hin%j3]%elem_of_cons; lia.
    + apply c3. split; [|intros j Hj; apply Hb; set_solver]. intros k Hk Hn. apply Ha; [lia|].
      intros [->|Hin]%elem_of_cons; [lia | done].
Qed.

Lemma altLoop_spec (f : Node -> list Inst -> option (list Inst)) (C : Node -> list Inst -> span) l :
  Forall (fun x => Emits (f x) (C x)) l -> l <> [] -> forall p jumps p' jumps',
  altLoop f l p jumps = Some (p', jumps') ->
  exists new, jumps' = jumps ++ new /\
    EmitsBut p p' new (fun E _ => IJmp E) (fun P E => alts P E (map (fun x => C x P) l)).
Proof.
  induction 1 as [|x l Hx Hl IH]; [done|]. intros _ p jumps p' jumps' Hp. destruct l as [|y l].
  { cbn in Hp. destruct (f x p) as [p1|] eqn:H1; [|done]. cbn in Hp. injection Hp as <- <-.
    exists []. rewrite app_nil_r. split; [done|]. destruct (Hx _ _ H1) as (l1 & k1 & c1).
    split_and!; [done | done | constructor |]. intros P E [Ha _]. apply c1. intros k Hk. apply Ha; [lia | set_solver]. }
  change (altLoop f (x :: y :: l) p jumps) with
    (p1 ← emit p (ISplit (S (length p)) 0); p2 ← f x p1; p3 ← emit p2 (IJmp 0);
     altLoop f (y :: l) (patch p3 (length p) (ISplit (S (length p)) (length p3))) (jumps ++ [length p2])) in Hp.
  destruct (emit p _) as [p1|] eqn:H1; [|done]. cbn [mbind option_bind] in Hp. apply emit_inv in H1 as [-> _].
  destruct (f x _) as [p2|] eqn:H2; [|done]. cbn [mbind option_bind] in Hp. destruct (Hx _ _ H2) as (l2 & k2 & c2).
  destruct (emit p2 _) as [p3|] eqn:H3; [|done]. cbn [mbind option_bind] in Hp. apply emit_inv in H3 as [-> _].
  rewrite length_app in *. cbn [length] in *.
  destruct (IH ltac:(done) _ _ _ _ Hp) as (new & -> & l3 & k3 & j3 & c3).
  rewrite length_patch, length_app in *. cbn [length] in *.
  assert (Hkeep : forall k, (k < length p2 + 1)%nat ->
      p' !! k = if decide (k = length p) then Some (ISplit (S (length p)) (length p2 + 1)) else (p2 ++ [IJmp 0]) !! k).
  { intros k Hk. rewrite k3 by lia. apply lookup_patch. rewrite length_app. cbn. lia. }
  exists (length p2 :: new). rewrite <- app_assoc. split; [done|]. rewrite Forall_forall in j3. split_and!.
  - lia.
  - intros k Hk. rewrite Hkeep, decide_False, lookup_snoc, k2 by lia. by apply lookup_snoc.
  - constructor; [lia|]. apply Forall_forall. intros j Hj%j3. lia.
  - intros P E [Ha Hb]. exists (length p2). split_and!.
    + rewrite Ha; [|lia|]; [|intros [?|Hin%j3]%elem_of_cons; lia]. rewrite Hkeep, decide_True by lia. do 2 f_equal. lia.
    + replace (S (length p)) with (length p + 1)%nat by lia. apply c2. intros k Hk.
      rewrite Ha; [|lia|]; [|intros [->|Hin%j3]%elem_of_cons; lia]. rewrite Hkeep, decide_False by lia. apply lookup_snoc. lia.
    + apply Hb. set_solver.
    + replace (S (length p2)) with (length p2 + 1)%nat by lia. apply c3.
      split; [|intros j Hj; apply Hb; set_solver].
      intros k Hk Hn. apply Ha; [lia|]. intros [->|Hin]%elem_of_cons; [lia | done].
Qed.

Lemma compileNode_spec node : wfNode node = true -> Emits (compileNode ci node) (fun P => Compiled P ci node).
Proof.
  induction node using Node_ind'; intros Hwf; cbn [compileNode Compiled wfNode] in *; try apply Emits_emit.
  - intros p p' [= ->]. split_and!; [lia | done | done].
  - revert Hwf. induction H as [|x l Hx Hl IH]; cbn; intros Hwf.
    + intros p p' [= ->]. split_and!; [lia | done | done].
    + bool_hyps. apply Emits_seq; auto.
  - apply andb_true_iff in Hwf as [Hne Hwf]. intros p p' Hp.
    destruct (altLoop _ _ _ _) as [[p1 js]|] eqn:H1; [|done]. cbn in Hp. injection Hp as <-.
    assert (Hall : Forall (fun x => Emits (compileNode ci x) (fun P => Compiled P ci x)) l).
    { apply Forall_forall. intros x Hx. rewrite Forall_forall in H. apply H; [done|].
      rewrite forallb_forall in Hwf. by apply Hwf, list_elem_of_In. }
    destruct (altLoop_spec _ (fun x P => Compiled P ci x) l Hall ltac:(by destruct l) _ _ _ _ H1) as (new & -> & He).
    exact (EmitsBut_patch _ _ _ _ _ He).
  - apply andb_true_iff in Hwf as [Hn Hb]. specialize (IHnode Hn). destruct b as [m|].
    + apply (Emits_seq (times a (compileNode ci node))
        (fun p => r ← optionals (m - a) (compileNode ci node) p [];
           let '(p0, splits) := r in Some (fold_left (fun p' sp => patch p' sp (ISplit (S sp) (length p0))) splits p0))
        (fun P => chain (replicate a (Compiled P ci node))) (fun P s e => opts P e (m - a) (Compiled P ci node) s e)).
      * by apply Emits_times.
      * intros p p' Hp. destruct (optionals _ _ _ _) as [[p1 js]|] eqn:H1; [|done]. cbn in Hp. injection Hp as <-.
        eapply optionals_spec in H1 as (new & -> & He); [|done]. exact (EmitsBut_patch _ _ _ _ _ He).
    + apply (Emits_seq (times a (compileNode ci node)) _
        (fun P => chain (replicate a (Compiled P ci node))) (fun P => star P (Compiled P ci node))).
      * by apply Emits_times.
      * by apply Emits_star.
  - eapply Emits_ext; [done | | apply (Emits_seq (fun p => emit p (ISave (k * 2))) _ _ _ (Emits_emit _)
      (Emits_seq _ (fun p => emit p (ISave (k * 2 + 1))) _ _ (IHnode Hwf) (Emits_emit _)))].
    cbn. intros P s e (m & [H1 ->] & m' & H2 & H3 & ->). exists m'. done.
Qed.
End Compiler.
