(* ===== verification/RegexSpec.v ===== *)
(** * The contract of regex.ts

    The parser's fuel suffices and the trees it builds are well formed; with the compiler's
    and the machine's correctness this gives the claims on [compileRegex] and [execRegex]. *)

From S2P Require Import Prelude JsString JsNumber Loop Regex RegexMachine RegexSem.

(** ** The parser *)

Lemma headIs_drop c l : headIs c l = true -> (length (drop 1 l) < length l)%nat.
Proof. destruct l; cbn; [done|]. rewrite drop_0. lia. Qed.

Lemma classUnit_ok s : okRes (classUnit s) (fun r => (length r.2 < length s)%nat).
Proof. destruct s as [|c [|e r]]; cbn; [done | |]; destruct (c =? 92); cbn; lia. Qed.

Lemma classLoop_ok fuel : forall ranges s, (length s < fuel)%nat ->
  okRes (classLoop fuel ranges s) (fun r => (length r.2 <= length s)%nat).
Proof.
  induction fuel as [|f IH]; intros ranges s Hf; [lia|]. cbn [classLoop].
  destruct s as [|c r]; [done|]. destruct (c =? 93); [cbn; lia|].
  set (short := if c =? 92 then _ else _).
  assert (Hs : match short with Some (_, r') => (length r' < length (c :: r))%nat | None => True end).
  { subst short. destruct (c =? 92); [|done]. destruct r as [|e r]; [done|]. destruct (shorthand e); cbn; [lia | done]. }
  assert (Hgo : forall rs s', (length s' < length (c :: r))%nat ->
      okRes (classLoop f rs s') (fun r' => (length r'.2 <= length (c :: r))%nat)).
  { intros rs s' Hlt. eapply okRes_impl; [apply IH; lia|]. intros a Ha. cbn in *. lia. }
  destruct short as [[[[] rs] r']|]; [done | by apply Hgo |].
  eapply okRes_bind; [apply classUnit_ok|]. intros [lo r1] H1. cbn [snd] in H1.
  destruct r1 as [|d [|h r2]]; [apply Hgo; lia.. |].
  destruct ((d =? 45) && negb (h =? 93)); [|by apply Hgo].
  eapply okRes_bind; [apply classUnit_ok|]. intros [hi r3] H3. cbn [snd] in H3.
  destruct (hi <? lo); [done|]. apply Hgo. cbn in *. lia.
Qed.

(** What each parser promises of its tree and of what is left to read. *)
Definition reads_on (strict : bool) (st : ParserState) (r : Node * ParserState) : Prop :=
  wfNode r.1 = true /\ (length (rest r.2) <= length (rest st))%nat /\
  (strict = true -> (length (rest r.2) < length (rest st))%nat).

Lemma parseClass_ok st : rest st <> [] -> okRes (parseClass st) (reads_on true st).
Proof.
  intros Hne. unfold parseClass. destruct st as [[|c s] g]; [done|]. cbn [rest drop].
  rewrite drop_0. cbn [rest].
  assert (Hstep : forall (x : list (Z * Z)) (n : bool) s0, (length s0 <= length s)%nat ->
      okRes (let* (ranges, s') := classLoop (S (length s0)) x s0 in Ok (Class_ n ranges, {| rest := c :: s; groups := g |} <| rest := s' |>))
        (reads_on true {| rest := c :: s; groups := g |})).
  { intros x n s0 Hle. eapply okRes_bind; [apply classLoop_ok; lia|]. intros [rs s'] Hs. cbn in *.
    split_and!; cbn; [done | lia | lia]. }
  assert (Hd : forall l : jsstr, (length (drop 1 l) <= length l)%nat) by (intros l; rewrite length_drop; lia).
  pose proof (Hd s). pose proof (Hd (drop 1 s)).
  destruct (headIs 94 s); [destruct (headIs 93 (drop 1 s)) | destruct (headIs 93 s)]; apply Hstep; try done; lia.
Qed.

Lemma parseEscape_ok st c s : rest st = c :: s -> okRes (parseEscape st s) (reads_on true st).
Proof.
  intros Hr. unfold parseEscape. destruct s as [|e r]; [done|]. destruct (_ && _); [done|].
  destruct (shorthand e) as [[n rs]|]; split_and!; cbn; rewrite ?Hr; cbn; (done || lia).
Qed.

Lemma parseBounds_ok st : headIs 123 (rest st) = true -> okRes (parseBounds st) (fun b =>
  match b with
  | None => True
  | Some (min, max, st') => match max with Some m => (min <=? m)%nat | None => true end = true /\
                            (length (rest st') < length (rest st))%nat
  end).
Proof.
  intros Hh. unfold parseBounds. destruct (indexOf 125 (rest st)) as [close|]; [|done].
  destruct (boundsBody _) as [[min max]|]; [|done]. destruct (_ || _); [done|].
  destruct max as [m|]; cbn.
  - destruct (Z.ltb_spec m min); [done|]. cbn. split; [apply Nat.leb_le; lia|].
    rewrite length_drop. destruct (rest st); [done | cbn; lia].
  - split; [done|]. rewrite length_drop. destruct (rest st); [done | cbn; lia].
Qed.

Lemma forallb_snoc {A} (f : A -> bool) l x : forallb f l = true -> f x = true -> forallb f (l ++ [x]) = true.
Proof. intros H1 H2. by rewrite forallb_app, H1; cbn; rewrite H2. Qed.

Lemma repeats_ok fuel : forall node st, (length (rest st) < fuel)%nat -> wfNode node = true ->
  okRes (repeats fuel node st) (reads_on false st).
Proof.
  induction fuel as [|f IH]; intros node st Hf Hn; [lia|]. cbn [repeats].
  assert (Hgo : forall node' st', wfNode node' = true -> (length (rest st') < length (rest st))%nat ->
      okRes (repeats f node' st') (reads_on false st)).
  { intros node' st' Hn' Hlt. eapply okRes_impl; [apply IH; [lia | done]|]. intros r (H1 & H2 & _).
    split_and!; [done | lia | done]. }
  assert (Hd : forall c, headIs c (rest st) = true -> (length (rest (st <| rest ::= drop 1 |>)) < length (rest st))%nat)
    by (intros c Hc; apply headIs_drop with c, Hc).
  destruct (headIs 42 (rest st)) eqn:H42; [apply Hgo; [cbn; by rewrite Hn | by eapply Hd]|].
  destruct (headIs 43 (rest st)) eqn:H43; [apply Hgo; [cbn; by rewrite Hn | by eapply Hd]|].
  destruct (headIs 63 (rest st)) eqn:H63; [apply Hgo; [cbn; by rewrite Hn | by eapply Hd]|].
  destruct (headIs 123 (rest st)) eqn:H123; [|by split_and!].
  eapply okRes_bind; [by apply parseBounds_ok|]. intros [[[min max] st']|] Hb; [|by split_and!].
  destruct Hb as [Hb1 Hb2]. apply Hgo; [|done]. cbn [wfNode]. by rewrite Hn, Hb1.
Qed.

Lemma parse_ok fuel :
  (forall st, (3 * length (rest st) + 3 <= fuel)%nat -> okRes (parseAlternation fuel st) (reads_on false st)) /\
  (forall parts st, (3 * length (rest st) + 2 <= fuel)%nat -> forallb wfNode parts = true -> parts <> [] ->
     okRes (alternatives fuel parts st) (fun r => forallb wfNode r.1 = true /\ r.1 <> [] /\
       (length (rest r.2) <= length (rest st))%nat)) /\
  (forall parts st, (3 * length (rest st) + 2 <= fuel)%nat -> forallb wfNode parts = true ->
     okRes (parseConcat fuel parts st) (reads_on false st)) /\
  (forall st, (3 * length (rest st) + 1 <= fuel)%nat ->
     okRes (parseAtom fuel st) (reads_on (match rest st with [] => false | _ => true end) st)).
Proof.
  induction fuel as [|f (IHA & IHB & IHC & IHT)]; [split_and!; intros; lia|]. split_and!.
  - intros st Hf. cbn [parseAlternation]. eapply okRes_bind; [apply (IHC []); [lia | done]|].
    intros [first st1] (W1 & L1 & _). cbn [fst snd] in *.
    eapply okRes_bind; [apply (IHB [first]); [lia | cbn; by rewrite W1 | done]|].
    intros [parts st2] (W2 & N2 & L2). cbn [fst snd] in *.
    split_and!; cbn [fst snd]; [|lia|done]. destruct parts as [|p [|p' ps]]; [done | cbn in W2; by bool_hyps |].
    cbn [wfNode]. by rewrite W2.
  - intros parts st Hf Hw Hne. cbn [alternatives]. destruct (headIs 124 (rest st)) eqn:Hh; [|by split_and!].
    pose proof (headIs_drop _ _ Hh) as Hd.
    eapply okRes_bind; [apply (IHC []); [cbn in *; lia | done]|]. intros [p st1] (W1 & L1 & _). cbn in W1, L1, Hd.
    eapply okRes_impl; [apply IHB; [lia | by apply forallb_snoc | by destruct parts]|].
    intros r (H1 & H2 & H3). split_and!; [done | done | lia].
  - intros parts st Hf Hw. cbn [parseConcat].
    assert (Hend : okRes (E := RegexSyntaxError) (Ok (match parts with [] => Empty | [p] => p | _ => Cat parts end, st)) (reads_on false st)).
    { split_and!; [|cbn; lia | done]. destruct parts as [|p [|p' ps]]; [done | cbn in Hw; by bool_hyps | done]. }
    destruct (rest st) as [|c r] eqn:Hr; [exact Hend|]. destruct (_ || _); [exact Hend|].
    eapply okRes_bind; [apply IHT; rewrite Hr; cbn in *; lia|]. rewrite Hr. intros [atom st1] (W1 & L1 & S1).
    specialize (S1 eq_refl). rewrite Hr in *. cbn [fst snd length] in *.
    eapply okRes_bind; [apply repeats_ok; [lia | done]|]. intros [p st2] (W2 & L2 & _). cbn [fst snd] in *.
    eapply okRes_impl; [apply IHC; [lia | by apply forallb_snoc]|].
    intros x (H1 & H2 & _). split_and!; [done | rewrite Hr; cbn; lia | done].
  - intros st Hf. cbn [parseAtom]. destruct (rest st) as [|c r] eqn:Hr; [by split_and!|].
    assert (Hone : forall n, wfNode n = true -> okRes (E := RegexSyntaxError) (Ok (n, st <| rest := r |>)) (reads_on true st)).
    { intros n Hn. split_and!; cbn; rewrite ?Hr; cbn; (done || lia). }
    destruct (c =? 40).
    { destruct (headIs 63 r); [done|].
      eapply okRes_bind; [apply IHA; cbn in *; lia|]. intros [inner st1] (W1 & L1 & _). cbn [fst snd rest] in *.
      destruct (headIs 41 (rest st1)) eqn:H41; [|done]. apply headIs_drop in H41.
      cbn in H41. split_and!; cbn; rewrite ?Hr; cbn [length]; (done || lia). }
    destruct (c =? 91); [apply parseClass_ok; congruence|].
    destruct (c =? 46); [by apply Hone|]. destruct (c =? 94); [by apply Hone|]. destruct (c =? 36); [by apply Hone|].
    destruct (c =? 92); [by eapply parseEscape_ok|]. destruct (c =? 41); [done | by apply Hone].
Qed.

(** ** Compiled patterns *)

(** The program of a compiled pattern. *)
Record ProgramOf (ci : bool) (ast : Node) (P : list Inst) (e : nat) : Prop := {
  po_wf : wfNode ast = true;
  po_first : P !! 0%nat = Some (ISave 0);
  po_body : Compiled P ci ast 1 e;
  po_second : P !! e = Some (ISave 1);
  po_match : P !! S e = Some IMatch;
  po_length : length P = S (S e);
  po_bound : len P <= MAX_PROGRAM_SIZE }.

Lemma parse_pattern pattern :
  okRes (parseAlternation (parseFuel pattern) {| rest := pattern; groups := 0 |})
    (reads_on false {| rest := pattern; groups := 0 |}).
Proof. apply parse_ok. unfold parseFuel. cbn. lia. Qed.

Lemma compileRegex_inv pattern ci re : compileRegex pattern ci = Ok re ->
  exists ast st e, parseAlternation (parseFuel pattern) {| rest := pattern; groups := 0 |} = Ok (ast, st) /\
    rest st = [] /\ reGroups re = groups st /\ caseInsensitive re = ci /\ ProgramOf ci ast (prog re) e.
Proof.
  unfold compileRegex. destruct (_ <? _); [done|]. pose proof (parse_pattern pattern) as Hok.
  destruct (parseAlternation _ _) as [[ast st]|?|]; cbn [bindRes]; [|done..].
  destruct Hok as (Hwf & _). cbn [fst] in Hwf.
  destruct (rest st) eqn:Hrest; [|done].
  destruct (emit [] (ISave 0)) as [p1|] eqn:H1; [|done]. cbn [mbind option_bind].
  destruct (compileNode ci ast p1) as [p2|] eqn:H2; [|done]. cbn [mbind option_bind].
  destruct (emit p2 (ISave 1)) as [p3|] eqn:H3; [|done]. cbn [mbind option_bind].
  destruct (emit p3 IMatch) as [p4|] eqn:H4; [|done]. intros [= <-].
  apply emit_inv in H1 as [-> _], H3 as [-> _], H4 as [-> Hb].
  destruct (compileNode_spec ci ast Hwf _ _ H2) as (l2 & k2 & c2). cbn [app length] in *.
  exists ast, st, (length p2). split_and!; try done. split; cbn [prog].
  - done.
  - rewrite <- app_assoc, lookup_app_l by lia. by rewrite k2 by lia.
  - apply c2. intros k Hk. rewrite <- app_assoc. apply lookup_app_l. lia.
  - rewrite <- app_assoc. by apply list_lookup_middle.
  - rewrite lookup_app_r by (rewrite length_app; cbn; lia). rewrite length_app. cbn. by rewrite Nat.sub_diag || replace (_ - _)%nat with 0%nat by lia.
  - rewrite !length_app. cbn. lia.
  - unfold len in *. rewrite !length_app in *. cbn in *. lia.
Qed.

Section Program.
Context (ci : bool) (ast : Node) (P : list Inst) (e : nat) (hay : jsstr) (HP : ProgramOf ci ast P e).

Lemma program_realises : Realises P hay (Matches ci hay ast) (Compiled P ci ast).
Proof. apply Compiled_realises, (po_wf _ _ _ _ HP). Qed.

Lemma program_wf : wfProg P.
Proof.
  intros q i q' Hi Hin. pose proof (lookup_lt_Some _ _ _ Hi) as Hlt. destruct HP. rewrite po_length0 in *.
  pose proof (r_le _ _ _ _ program_realises _ _ po_body0).
  destruct (decide (q = 0%nat)) as [->|]; [simplify_eq; set_solver by lia|].
  destruct (decide (q = e)) as [->|]; [simplify_eq; set_solver by lia|].
  destruct (decide (q = S e)) as [->|]; [simplify_eq; set_solver by lia|].
  pose proof (r_inside _ _ _ _ program_realises 1%nat e q i q' po_body0) as Hb. destruct Hb; [lia | done | done | lia].
Qed.

Lemma program_match q : P !! q = Some IMatch -> q = S e.
Proof.
  intros Hq. pose proof (lookup_lt_Some _ _ _ Hq) as Hlt. destruct HP. rewrite po_length0 in *.
  destruct (decide (q = 0%nat)) as [->|]; [simplify_eq|].
  destruct (decide (q = e)) as [->|]; [simplify_eq|].
  destruct (decide (q = S e)) as [->|]; [done|]. exfalso.
  apply (r_nomatch _ _ _ _ program_realises 1%nat e q po_body0); [lia | done].
Qed.

Lemma step_save q slot pos c' : P !! q = Some (ISave slot) -> step P hay (q, pos) c' <-> c' = (S q, pos).
Proof.
  intros Hi. split.
  - intros Hs. destruct (step_inv _ _ _ _ _ _ Hi Hs) as [[H1 H2]|[_ H2]].
    + destruct c' as [q' p']. cbn in *. subst. apply list_elem_of_singleton in H2. by subst.
    + by destruct (hay !! pos).
  - intros ->. eapply estep_step; [done | cbn; set_solver].
Qed.

Lemma Hit_matches pos : Hit P hay pos <-> exists i, Matches ci hay ast i pos.
Proof.
  pose proof program_realises as HR. destruct HP. pose proof (r_le _ _ _ _ HR _ _ po_body0) as Hle. split.
  - intros (q & (i & Hi & Hr) & Hm). apply program_match in Hm as ->. exists i.
    apply rtc_nsteps_1 in Hr as (n & Hn). destruct (first_step _ _ _ _ _ _ _ Hn) as (n1 & c & -> & Hs & Hr1); [lia|].
    apply (step_save _ _ _ _ po_first0) in Hs as ->.
    destruct (r_sound _ _ _ _ HR _ _ _ _ _ _ po_body0 Hr1) as (n2 & k & _ & HM & Hr2); [lia|].
    destruct (first_step _ _ _ _ _ _ _ Hr2) as (n3 & c & -> & Hs & Hr3); [lia|].
    apply (step_save _ _ _ _ po_second0) in Hs as ->.
    inversion Hr3 as [|? ? c' ? Hst]; simplify_eq; [done|].
    destruct (step_inv _ _ _ _ _ _ po_match0 Hst) as [[_ Hx]|[_ Hx]]; [set_solver | by destruct (hay !! k)].
  - intros (i & HM). exists (S e). split; [|done].
    assert (Hr : rtc (step P hay) (0%nat, i) (S e, pos)).
    { eapply rtc_l; [by apply (step_save _ _ _ _ po_first0)|].
      etransitivity; [by eapply (r_complete _ _ _ _ HR)|]. apply rtc_once, (step_save _ _ _ _ po_second0). done. }
    exists i. split; [|done]. apply steps_mono in Hr. exact Hr.
Qed.
End Program.

(** C3: a compiled pattern always gets an answer, and the answer is a match exactly when the
    syntax tree matches some span of the (case-folded) input. *)
Theorem regex_match_correct (pattern input : jsstr) (ci : bool) (re : CompiledRegex) :
  compileRegex pattern ci = Ok re ->
  exists ast st m,
    parseAlternation (parseFuel pattern) {| rest := pattern; groups := 0 |} = Ok (ast, st) /\
    execRegex re input = Some m /\
    (matched m = true <->
     exists i j, (j <= length (if ci then toLowerCase input else input))%nat /\
            Matches ci (if ci then toLowerCase input else input) ast i j).
Proof.
  intros Hc. destruct (compileRegex_inv _ _ _ Hc) as (ast & st & e & Hp & _ & Hg & Hci & HP).
  exists ast, st. unfold execRegex. rewrite Hci. set (hay := if ci then _ else _).
  destruct (positions_spec (prog re) hay (program_wf _ _ _ _ hay HP) ltac:(rewrite (po_length _ _ _ _ HP); lia)
    ((reGroups re + 1) * 2) (S (length hay)) 0 ([], ∅) None (Head_start _ _) eq_refl) as (best & -> & Hbest).
  cbn [mbind option_bind]. eexists. split_and!; [done | done |].
  assert (Hm : is_Some best <-> exists i j, (j <= length hay)%nat /\ Matches ci hay ast i j).
  { rewrite Hbest. setoid_rewrite (Hit_matches _ _ _ _ hay HP). naive_solver. }
  rewrite <- Hm. destruct best; cbn; split; try done; by intros [? ?].
Qed.

Lemma regex_match_correct_witness :
  exists re, compileRegex (js "^a(b|c)+$") true = Ok re /\
    exists ast st m,
      parseAlternation (parseFuel (js "^a(b|c)+$")) {| rest := js "^a(b|c)+$"; groups := 0 |} = Ok (ast, st) /\
      execRegex re (js "ABCB") = Some m /\
      (matched m = true <->
       exists i j, (j <= length (toLowerCase (js "ABCB")))%nat /\ Matches true (toLowerCase (js "ABCB")) ast i j).
Proof.
  eexists. split; [vm_compute; reflexivity|].
  apply (regex_match_correct (js "^a(b|c)+$") (js "ABCB") true). vm_compute. reflexivity.
Defined.

(** A compiled pattern answers on every input. *)
Lemma execRegex_total pattern ci re input : compileRegex pattern ci = Ok re -> exists m, execRegex re input = Some m.
Proof.
  intros Hc. destruct (compileRegex_inv _ _ _ Hc) as (ast & st & e & Hp & _ & Hg & Hci & HP). unfold execRegex.
  set (hay := if caseInsensitive re then _ else _).
  destruct (positions_spec (prog re) hay (program_wf _ _ _ _ hay HP) ltac:(rewrite (po_length _ _ _ _ HP); lia)
    ((reGroups re + 1) * 2) (S (length hay)) 0 ([], ∅) None (Head_start _ _) eq_refl) as (best & -> & _).
  cbn [mbind option_bind]. eauto.
Qed.

Lemma compileRegex_total pattern ci : compileRegex pattern ci <> Fuel.
Proof.
  unfold compileRegex. destruct (_ <? _); [done|]. pose proof (parse_pattern pattern) as Hok.
  destruct (parseAlternation _ _) as [[ast st]|?|]; cbn [bindRes]; [|done | exact (fun _ => Hok)].
  destruct (rest st); [|done]. by case_match.
Qed.

(** On any pattern and input [regexMatch] throws a [RegexSyntaxError] or answers: the parser
    and the closure of [addThread] terminate within their measure, and no instruction read is
    undefined. *)
Theorem regex_total (pattern input : jsstr) (ci : bool) :
  (exists err, regexMatch pattern input ci = Err err) \/ (exists m, regexMatch pattern input ci = Ok (Some m)).
Proof.
  unfold regexMatch. pose proof (compileRegex_total pattern ci).
  destruct (compileRegex pattern ci) as [re|err|] eqn:Hc; cbn [bindRes]; [|by left; eauto|done].
  right. destruct (execRegex_total _ _ _ input Hc) as [m ->]. eauto.
Qed.

(** The lists the loop of [execRegex] scans: the states at its head, position by position. *)
Inductive Scanned (P : list Inst) (hay : jsstr) (slotCount : nat)
    : nat -> list Thread * gset nat -> option (list Z) -> Prop :=
| scan_start : Scanned P hay slotCount 0 ([], ∅) None
| scan_next pos cur best cur' r :
    Scanned P hay slotCount pos cur best ->
    startThread P hay slotCount cur best pos = Some cur' ->
    stepThreads P hay cur'.1 ([], ∅) pos = Some r ->
    Scanned P hay slotCount (S pos) r.1 (match r.2 with Some b => Some b | None => best end).

Lemma Scanned_head P hay slotCount pos cur best : wfProg P -> (0 < length P)%nat ->
  Scanned P hay slotCount pos cur best -> Head P hay pos cur best.
Proof.
  intros Hwf H0. induction 1 as [|pos cur best cur' r _ IH Hst Hr]; [apply Head_start|].
  destruct (iteration _ _ Hwf H0 slotCount _ _ _ _ IH Hst) as (r' & Hr' & Hh). by simplify_eq.
Qed.

(** Whatever the pattern and the input, the list of threads scanned at a position holds each
    program counter at most once, so at most one thread per instruction and never more than
    [MAX_PROGRAM_SIZE]: the work per unit of input is bounded, which is why no pattern is
    exponential. *)
Theorem regex_threads_bounded (pattern input : jsstr) (ci : bool) (re : CompiledRegex) (slotCount pos : nat)
    (cur cur' : list Thread * gset nat) (best : option (list Z)) :
  compileRegex pattern ci = Ok re ->
  let hay := if caseInsensitive re then toLowerCase input else input in
  Scanned (prog re) hay slotCount pos cur best ->
  startThread (prog re) hay slotCount cur best pos = Some cur' ->
  NoDup (pcs cur'.1) /\ (length cur'.1 <= length (prog re))%nat /\ len (prog re) <= MAX_PROGRAM_SIZE.
Proof.
  intros Hc hay Hsc Hst. destruct (compileRegex_inv _ _ _ Hc) as (ast & st & e & Hp & _ & Hg & Hci & HP).
  assert (H0 : (0 < length (prog re))%nat) by (rewrite (po_length _ _ _ _ HP); lia).
  pose proof (program_wf _ _ _ _ hay HP) as Hwf.
  destruct (startThread_spec _ _ Hwf H0 slotCount _ _ _ (Scanned_head _ _ _ _ _ _ Hwf H0 Hsc)) as (c & Hc' & Hcl & _).
  simplify_eq. split_and!; [apply (cl_nodup _ _ _ _ Hcl) | | apply (po_bound _ _ _ _ HP)].
  transitivity (length (pcs cur'.1)); [unfold pcs; by rewrite length_map|].
  transitivity (length (seq 0 (length (prog re)))); [|by rewrite length_seq].
  apply submseteq_length, NoDup_submseteq; [apply (cl_nodup _ _ _ _ Hcl)|].
  intros q Hq. apply (cl_list _ _ _ _ Hcl) in Hq as [Hq _]. apply (cl_range _ _ _ _ Hcl) in Hq.
  apply elem_of_seq. lia.
Qed.

Lemma regex_threads_bounded_witness :
  exists re cur', compileRegex (js "(a+)+b") false = Ok re /\
    startThread (prog re) (js "aaaa") 4 ([], ∅) None 0 = Some cur' /\
    NoDup (pcs cur'.1) /\ (length cur'.1 <= length (prog re))%nat /\ len (prog re) <= MAX_PROGRAM_SIZE.
Proof.
  eexists. eexists. split; [vm_compute; reflexivity|]. split; [vm_compute; reflexivity|].
  apply (regex_threads_bounded (js "(a+)+b") (js "aaaa") false _ 4 0 ([], ∅) _ None);
    [vm_compute; reflexivity | apply scan_start | vm_compute; reflexivity].
Defined.

(** ** Case folding *)

Lemma lowerUnit_not_upper c x : x ∈ lowerUnit c -> ~ (65 <= x <= 90).
Proof.
  unfold lowerUnit. repeat case_match; bool_hyps; rewrite ?elem_of_cons, ?elem_of_nil; intros Hx Hr;
    try (destruct Hx as [->|[->|[]]]; lia); try (destruct Hx as [->|[]]; lia).
Qed.

(** Compiled without regard to case, as Sieve always compiles a [:regex] key, the class [[A-Z]]
    matches no input at all: the input is folded to lower case and the ranges of a class are not. *)
Theorem regex_ci_class_never_matches (input : jsstr) :
  exists m, regexMatch (js "[A-Z]") input true = Ok (Some m) /\ matched m = false.
Proof.
  unfold regexMatch. destruct (compileRegex (js "[A-Z]") true) as [re|?|] eqn:Hc; [|vm_compute in Hc; done..].
  cbn [bindRes]. destruct (compileRegex_inv _ _ _ Hc) as (ast & st & e & Hp & _ & Hg & Hci & HP).
  unfold execRegex. rewrite Hci. set (hay := toLowerCase input).
  destruct (positions_spec (prog re) hay (program_wf _ _ _ _ hay HP) ltac:(rewrite (po_length _ _ _ _ HP); lia)
    ((reGroups re + 1) * 2) (S (length hay)) 0 ([], ∅) None (Head_start _ _) eq_refl) as (best & -> & Hbest).
  cbn [mbind option_bind]. eexists. split; [done|]. destruct best as [b|]; [|done]. exfalso.
  destruct Hbest as [(p & _ & Hit) _]; [by eexists|]. apply (Hit_matches _ _ _ _ hay HP) in Hit as (i & HM).
  vm_compute in Hp. simplify_eq. cbn in HM. destruct HM as [(c & Hc' & Hin) _].
  apply list_elem_of_lookup_2 in Hc'. unfold hay, toLowerCase in Hc'. apply list_elem_of_In, in_flat_map in Hc' as (x & _ & Hx).
  apply list_elem_of_In, lowerUnit_not_upper in Hx. cbn in Hin. rewrite orb_false_r in Hin. bool_hyps. lia.
Qed.
