(* ===== verification/ImapReader.v ===== *)
(** * The logical lines of IMAP (packages/proto-imap/src/reader.ts)

    A command is text interleaved with literals of announced length.  The reader assembles
    them from the chunks of the connection.  Decoding as latin1 keeps every byte as the unit
    of the same number, so text and bytes are the same lists here. *)

From S2P Require Import Prelude JsString JsNumber Limits Loop.

(** ** Data *)

Inductive LinePart := PText (text : jsstr) | PLiteral (data : bytes).

Inductive ReaderEvent :=
| RContinue (size : Z)
| RLine (parts : list LinePart)
| RError (message : jsstr).

Record ReaderOptions := mkOptions { maxLineBytes : Z; maxNonSyncLiteralBytes : Z }.

Definition DEFAULT_MAX_LITERAL : Z := MAX_MESSAGE_BYTES.
Definition DEFAULT_MAX_LINE : Z := MAX_IMAP_LINE_BYTES.
Definition DEFAULT_MAX_NONSYNC : Z := 4096.

Record Reader := mkReader {
  maxLiteralBytes : Z;
  buffer : bytes;
  parts : list LinePart;
  textLen : Z;
  literalRemaining : option Z;
  literalChunks : list bytes;
  discarding : option jsstr
}.

(** ** Operations *)

Section Reader.
Context (opts : ReaderOptions).

Definition newReader (maxLiteral : Z) : Reader :=
  {| maxLiteralBytes := maxLiteral; buffer := []; parts := []; textLen := 0; literalRemaining := None;
     literalChunks := []; discarding := None |}.

(** A literal announced at the end of a line: the text before it, its size, and whether the
    client sends it unasked.  Digits hold no brace, so only the last one can open it. *)
Definition matchLiteralTail (line : jsstr) : option (jsstr * Z * bool) :=
  match lastIndexOf 123 line with
  | None => None
  | Some i =>
      match spanDigits (drop (S i) line) with
      | ([], _) => None
      | (d, r) =>
          match (if r === [125] then Some false else if r === [43; 125] then Some true else None) with
          | None => None
          | Some nonSync =>
              if digitsVal d <=? 9007199254740991 then Some (take i line, digitsVal d, nonSync) else None
          end
      end
  end.

Definition setMaxLiteralBytes (n : Z) (s : Reader) : Reader := s <| maxLiteralBytes := n |>.

(** Whether the literal is complete. *)
Definition consumeLiteral (s : Reader) : Reader * bool :=
  match literalRemaining s with
  | None => (s, true)
  | Some remaining =>
      let n := Z.min remaining (len (buffer s)) in
      let s1 :=
        if 0 <? n then
          s <| literalChunks ::= fun cs => match discarding s with
                                           | None => cs ++ [take (Z.to_nat n) (buffer s)]
                                           | Some _ => cs end |>
            <| buffer ::= drop (Z.to_nat n) |> <| literalRemaining := Some (remaining - n) |>
        else s in
      if decide (literalRemaining s1 = Some 0) then
        (s1 <| parts ::= fun ps => match discarding s with
                                   | None => ps ++ [PLiteral (concat (literalChunks s1))]
                                   | Some _ => ps end |>
            <| literalChunks := [] |> <| literalRemaining := None |>, true)
      else (s1, false)
  end.

(** No end of line yet: too long a line is dropped from here on. *)
Definition partialLine (s : Reader) : Reader :=
  match discarding s with
  | None =>
      if maxLineBytes opts <? textLen s + len (buffer s) then
        s <| discarding := Some (js "line too long") |> <| buffer := [] |> <| textLen := 0 |> <| parts := [] |>
      else s
  | Some _ => s <| buffer := [] |>
  end.

(** The end of a line that is being dropped. *)
Definition discardLine (message text : jsstr) (s : Reader) : Reader * option ReaderEvent :=
  match matchLiteralTail text with
  | Some (_, size, true) => (s <| literalRemaining := Some size |>, None)
  | _ => (s <| discarding := None |> <| textLen := 0 |> <| parts := [] |>, Some (RError message))
  end.

(** The end of a line that is kept. *)
Definition acceptLine (text : jsstr) (s : Reader) : Reader * option ReaderEvent :=
  let reset s := s <| parts := [] |> <| textLen := 0 |> in
  if maxLineBytes opts <? textLen s + len text then (reset s, Some (RError (js "line too long")))
  else match matchLiteralTail text with
  | None =>
      (reset s, Some (RLine (parts s ++ (if (0 <? len text) || (0 <? len (parts s)) then [PText text] else []))))
  | Some (before, size, nonSync) =>
      let s := s <| parts ::= fun ps => ps ++ [PText before] |> <| textLen ::= Z.add (len before) |> in
      let cap := if nonSync then Z.min (maxLiteralBytes s) (maxNonSyncLiteralBytes opts) else maxLiteralBytes s in
      if cap <? size then
        if nonSync then (s <| discarding := Some (js "literal too large") |> <| literalRemaining := Some size |>, None)
        else (reset s, Some (RError (js "literal too large")))
      else (s <| literalRemaining := Some size |>, if nonSync then None else Some (RContinue size))
  end.

(** [None] waits for more input; [Some None] changes only the state. *)
Definition consumeLine (s : Reader) : Reader * option (option ReaderEvent) :=
  match indexOf LF (buffer s) with
  | None => (partialLine s, None)
  | Some idx =>
      let l := take idx (buffer s) in
      let text := if endsWith1 CR l then take (idx - 1) l else l in
      let s := s <| buffer ::= drop (S idx) |> in
      let '(s, ev) := match discarding s with
                      | Some message => discardLine message text s
                      | None => acceptLine text s
                      end in
      (s, Some ev)
  end.

(** One turn of the loop of [feed]. *)
Definition feedBody (s : Reader) : Reader * list ReaderEvent * bool :=
  match literalRemaining s with
  | Some _ => let '(s, complete) := consumeLiteral s in (s, [], complete)
  | None =>
      match consumeLine s with
      | (s, None) => (s, [], false)
      | (s, Some ev) => (s, option_list ev, true)
      end
  end.

(** What decreases from turn to turn. *)
Definition feedMeasure (s : Reader) : nat :=
  2 * length (buffer s) + match literalRemaining s with Some _ => 1 | None => 0 end.

Definition feed (chunk : bytes) (s : Reader) : Reader * list ReaderEvent :=
  let s := s <| buffer ::= fun b => b ++ chunk |> in
  whileFuel (fun _ => true) feedBody (S (feedMeasure s)) s.
End Reader.

Definition opts0 : ReaderOptions := {| maxLineBytes := DEFAULT_MAX_LINE; maxNonSyncLiteralBytes := DEFAULT_MAX_NONSYNC |}.

Example reader_example :
  snd (feed opts0 (js "a LOGIN {3}" ++ crlf ++ js "bob {4+}" ++ crlf ++ js "pass" ++ crlf) (newReader 8192))
  = [RContinue 3; RLine [PText (js "a LOGIN "); PLiteral (js "bob"); PText (js " "); PLiteral (js "pass"); PText []]].
Proof. vm_compute. reflexivity. Qed.

(** ** The loop *)

Section Facts.
Context (opts : ReaderOptions).
Notation body := (feedBody opts).
Notation Run := (Loop (fun _ => true) body).

Lemma matchLiteralTail_size text b n x : matchLiteralTail text = Some (b, n, x) ->
  0 <= n /\ len b <= len text.
Proof.
  unfold matchLiteralTail. destruct (lastIndexOf 123 text) as [i|]; [|done].
  destruct (spanDigits (drop (S i) text)) as [[|d0 d] r] eqn:Hs; [done|].
  destruct (if r === [125] then _ else _) as [ns|]; [|done]. case_match; [|done]. intros [= <- <- <-].
  split; [apply digitsVal_nonneg; by eapply spanDigits_digits|]. unfold len. rewrite length_take. lia.
Qed.

Lemma consumeLine_next s s1 ev : literalRemaining s = None -> consumeLine opts s = (s1, Some ev) ->
  (length (buffer s1) < length (buffer s))%nat.
Proof.
  unfold consumeLine. destruct (indexOf LF (buffer s)) as [idx|] eqn:Hi; [|done]. intros _.
  set (text := if endsWith1 CR _ then _ else _).
  assert (Hd : (length (drop (S idx) (buffer s)) < length (buffer s))%nat).
  { rewrite length_drop. apply indexOf_lt in Hi. lia. }
  cbn. destruct (discarding s).
  - unfold discardLine. destruct (matchLiteralTail text) as [[[? ?] []]|]; intros [= <- <-]; exact Hd.
  - unfold acceptLine. cbn. repeat case_match; intros; simplify_eq; exact Hd.
Qed.

Lemma feedBody_measure s s1 a : body s = (s1, a, true) -> (feedMeasure s1 < feedMeasure s)%nat.
Proof.
  unfold feedBody. destruct (literalRemaining s) as [r|] eqn:Hr.
  - unfold consumeLiteral. rewrite Hr. case_decide as Hd; [|by intros [= ? ? ?]]. intros [= <- <-].
    unfold feedMeasure. rewrite Hr. cbn. case_match; cbn; rewrite ?length_drop; lia.
  - destruct (consumeLine opts s) as [s2 [ev|]] eqn:Hc; [|done]. intros [= <- <-].
    apply consumeLine_next in Hc; [|done]. unfold feedMeasure. rewrite Hr. case_match; lia.
Qed.

(** [feed] is the unbounded loop on the buffer with the chunk. *)
Lemma feed_run chunk s : Run (s <| buffer ::= fun b => b ++ chunk |>) (snd (feed opts chunk s)) (fst (feed opts chunk s)).
Proof.
  unfold feed. apply (whileFuel_loop _ _ feedMeasure); [|lia]. intros s0 s1 a _. apply feedBody_measure.
Qed.

Lemma feed_unique chunk s a s' : Run (s <| buffer ::= fun b => b ++ chunk |>) a s' -> feed opts chunk s = (s', a).
Proof.
  intros H. destruct (While_det _ _ _ _ _ _ _ (feed_run chunk s) H) as [<- <-]. by destruct (feed opts chunk s).
Qed.

(** ** What is kept in memory *)

Definition chunksLen (cs : list bytes) : Z := len (concat cs).
Definition textOf (p : LinePart) : Z := match p with PText t => len t | PLiteral _ => 0 end.
Definition textSum (ps : list LinePart) : Z := fold_right Z.add 0 (map textOf ps).

Arguments textSum : simpl never.
Arguments chunksLen : simpl never.

Lemma textSum_one p : textSum [p] = textOf p.
Proof. unfold textSum. cbn. lia. Qed.

Lemma textSum_app a b : textSum (a ++ b) = textSum a + textSum b.
Proof. unfold textSum. rewrite map_app. induction a; cbn in *; lia. Qed.

(** Holds at every turn, for a limit [M] on the literals. *)
Record Inv (M : Z) (s : Reader) : Prop := {
  i_max : maxLiteralBytes s <= M;
  i_text : textLen s = textSum (parts s);
  i_line : 0 <= textLen s <= maxLineBytes opts;
  i_lit : match literalRemaining s with
          | None => literalChunks s = []
          | Some r => 0 <= r /\ (discarding s = None -> chunksLen (literalChunks s) + r <= M) /\
                      (discarding s <> None -> literalChunks s = [])
          end }.

(** Holds when [feed] returns. *)
Definition Rests (s : Reader) : Prop :=
  match literalRemaining s with
  | Some _ => buffer s = []
  | None => match discarding s with
            | None => textLen s + len (buffer s) <= maxLineBytes opts
            | Some _ => buffer s = []
            end
  end.

Context (M : Z) (HM : 0 <= maxLineBytes opts).

Lemma consumeLiteral_inv s : Inv M s -> is_Some (literalRemaining s) ->
  Inv M (consumeLiteral s).1 /\
  ((consumeLiteral s).2 = false -> Rests (consumeLiteral s).1).
Proof.
  intros [Hm Ht Hl Hr] [r Er]. unfold consumeLiteral. rewrite Er in *. destruct Hr as (Hr0 & Hr1 & Hr2).
  pose proof (len_nonneg (buffer s)) as Hb.
  destruct (Z.ltb_spec 0 (Z.min r (len (buffer s)))) as [Hn|Hn].
  - cbn. case_decide as Hd.
    + split; [|done]. split; cbn; try done. destruct (discarding s); [done|]. rewrite textSum_app, textSum_one. cbn. lia.
    + split.
      * split; cbn; try done. split_and!; [lia | |intros Hx; destruct (discarding s); [auto | done]].
        intros Hx. rewrite Hx in *. unfold chunksLen, len in *. rewrite concat_app, length_app. cbn.
        rewrite app_nil_r, length_take. specialize (Hr1 eq_refl). lia.
      * intros _. unfold Rests. cbn. apply nil_length_inv. rewrite length_drop.
        assert (r - Z.min r (len (buffer s)) <> 0) by congruence. unfold len in *. lia.
  - case_decide as Hd.
    + cbn. split; [|done]. split; cbn; try done. destruct (discarding s); [done|]. rewrite textSum_app, textSum_one. cbn. lia.
    + cbn [fst snd]. split; [split; try done; by rewrite Er|]. intros _. unfold Rests. rewrite Er.
      apply nil_length_inv. rewrite Er in Hd. assert (r <> 0) by congruence. unfold len in *. lia.
Qed.

Lemma consumeLine_inv s : Inv M s -> literalRemaining s = None ->
  Inv M (consumeLine opts s).1 /\ ((consumeLine opts s).2 = None -> Rests (consumeLine opts s).1).
Proof.
  intros [Hm Ht Hl Hr] Er. rewrite Er in Hr. unfold consumeLine.
  destruct (indexOf LF (buffer s)) as [idx|] eqn:Hi.
  2: { cbn. unfold partialLine. destruct (discarding s) as [msg|] eqn:Ed.
    - split; [|intros _; unfold Rests; cbn; by rewrite Er, Ed]. split; cbn; rewrite ?Er, ?Ed; done.
    - destruct (Z.ltb_spec (maxLineBytes opts) (textLen s + len (buffer s))).
      + split; [|intros _; unfold Rests; cbn; by rewrite Er]. split; cbn; rewrite ?Er; (done || lia).
      + split; [split; rewrite ?Er, ?Ed; try done|]. intros _. unfold Rests. by rewrite Er, Ed. }
  set (text := if endsWith1 CR _ then _ else _). cbn.
  destruct (discarding s) as [msg|] eqn:Ed.
  - unfold discardLine. destruct (matchLiteralTail text) as [[[b n] []]|] eqn:Et; cbn; (split; [|done]);
      split; cbn; rewrite ?Er, ?Ed; try done; try lia.
    apply matchLiteralTail_size in Et as [? _]. done.
  - unfold acceptLine. cbn.
    destruct (Z.ltb_spec (maxLineBytes opts) (textLen s + len text)).
    { cbn. split; [|done]. split; cbn; rewrite ?Er; (done || lia). }
    destruct (matchLiteralTail text) as [[[b n] ns]|] eqn:Et.
    2: { cbn. split; [|done]. split; cbn; rewrite ?Er; (done || lia). }
    apply matchLiteralTail_size in Et as [Hn Hb]. pose proof (len_nonneg b).
    destruct (Z.ltb_spec (if ns then Z.min (maxLiteralBytes s) (maxNonSyncLiteralBytes opts) else maxLiteralBytes s) n).
    + destruct ns; cbn; (split; [|done]); split; cbn; rewrite ?Er; try done; try lia; rewrite ?textSum_app, ?textSum_one; cbn; try lia.
    + destruct ns; cbn; (split; [|done]); (split; cbn; rewrite ?Er, ?Ed; try done;
        [rewrite textSum_app, textSum_one; cbn; lia | lia | rewrite Hr; unfold chunksLen, len in *; cbn; split_and!; try done; lia]).
Qed.

Lemma feedBody_inv s s1 a go : Inv M s -> body s = (s1, a, go) -> Inv M s1 /\ (go = false -> Rests s1).
Proof.
  intros HI. unfold feedBody. destruct (literalRemaining s) as [r|] eqn:Er.
  - destruct (consumeLiteral_inv s HI) as [H1 H2]; [by rewrite Er|]. destruct (consumeLiteral s). intros [= <- <- <-]. done.
  - destruct (consumeLine_inv s HI Er) as [H1 H2]. destruct (consumeLine opts s) as [s2 [ev|]]; intros [= <- <- <-]; split; auto; done.
Qed.

Lemma feed_inv chunk s : Inv M s -> Inv M (fst (feed opts chunk s)) /\ Rests (fst (feed opts chunk s)).
Proof.
  intros HI. pose proof (feed_run chunk s) as HL. remember (feed opts chunk s) as r. clear Heqr. destruct r as [s' ev]. cbn in *.
  assert (HI0 : Inv M (s <| buffer ::= fun b => b ++ chunk |>)) by (destruct HI; by split).
  revert HL HI0. generalize (s <| buffer ::= fun b => b ++ chunk |>). intros s0 HL. induction HL as [|s0 s1 a _ Hb|s0 s1 a b s2 _ Hb _ IH]; intros HI0.
  - done.
  - destruct (feedBody_inv _ _ _ _ HI0 Hb). auto.
  - destruct (feedBody_inv _ _ _ _ HI0 Hb). auto.
Qed.
End Facts.

(** ** Reachable states *)

(** The calls the engine makes: [feed], and [setMaxLiteralBytes] up to [M]. *)
Inductive Reached (opts : ReaderOptions) (M : Z) : Reader -> Prop :=
| reached_new n : n <= M -> Reached opts M (newReader n)
| reached_feed s chunk : Reached opts M s -> Reached opts M (fst (feed opts chunk s))
| reached_limit s n : Reached opts M s -> n <= M -> Reached opts M (setMaxLiteralBytes n s).

Lemma Reached_inv opts M s : 0 <= maxLineBytes opts -> Reached opts M s -> Inv opts M s /\ Rests opts s.
Proof.
  intros HM. induction 1 as [n Hn|s chunk _ [IH _]|s n _ [IH1 IH2] Hn].
  - split; [split; cbn; (done || lia)|]. unfold Rests, len. cbn. lia.
  - by apply feed_inv.
  - split; [|exact IH2]. destruct IH1. by split.
Qed.

(** However a client cuts its input, the reader holds between two calls at most a line of
    unread bytes, at most a line of text in the parts of the command, and at most one literal's
    limit in an unfinished literal; what it is dropping it does not hold. *)
Theorem imap_reader_bounded (opts : ReaderOptions) (M : Z) (s : Reader) :
  0 <= maxLineBytes opts -> 0 <= M -> Reached opts M s ->
  len (buffer s) <= maxLineBytes opts /\ textSum (parts s) <= maxLineBytes opts /\
  chunksLen (literalChunks s) <= M /\
  (discarding s <> None -> buffer s = [] /\ literalChunks s = []).
Proof.
  intros HM H0 Hr. destruct (Reached_inv _ _ _ HM Hr) as [[Hm Ht Hl Hlit] Hrest]. unfold Rests in Hrest.
  pose proof (len_nonneg (buffer s)) as Hb.
  destruct (literalRemaining s) as [r|].
  - destruct Hlit as (Hr0 & Hr1 & Hr2). rewrite Hrest. change (len []) with 0. split_and!; [lia | lia | | auto].
    destruct (discarding s); [rewrite (Hr2 ltac:(done)); unfold chunksLen, len; cbn; lia | specialize (Hr1 eq_refl); lia].
  - rewrite Hlit. unfold chunksLen, len in *. cbn [concat length].
    destruct (discarding s); [rewrite Hrest; cbn [length]|]; split_and!; try done; lia.
Qed.

Lemma imap_reader_bounded_witness :
  let s := fst (feed opts0 (js "a LOGIN {3}" ++ crlf ++ js "bo") (newReader 8192)) in
  len (buffer s) <= 65536 /\ textSum (parts s) <= 65536 /\ chunksLen (literalChunks s) <= 8192 /\
  (discarding s <> None -> buffer s = [] /\ literalChunks s = []).
Proof.
  apply (imap_reader_bounded opts0 8192); [vm_compute; discriminate | lia|].
  apply reached_feed, reached_new. lia.
Defined.

(** ** What a client sends *)

(** [{n}] or [{n+}] *)
Definition announce (n : Z) (nonSync : bool) : jsstr :=
  [123] ++ numToString n ++ (if nonSync then [43; 125] else [125]).

Lemma announce_no_brace n (ns : bool) : 0 <= n -> 123 ∉ numToString n ++ (if ns then [43; 125] else [125]).
Proof.
  intros Hn Hin. apply elem_of_app in Hin as [Hin|Hin].
  - apply (isDigits_elem _ _ (numToString_digits n Hn)) in Hin. lia.
  - destruct ns; set_solver.
Qed.

Lemma announce_no_lf n ns : 0 <= n -> LF ∉ announce n ns.
Proof.
  intros Hn Hin. unfold announce in Hin. rewrite !elem_of_app in Hin. destruct Hin as [Hin|[Hin|Hin]].
  - unfold LF in Hin. set_solver.
  - apply (isDigits_elem _ _ (numToString_digits n Hn)) in Hin. unfold LF in Hin. lia.
  - unfold LF in Hin. destruct ns; set_solver.
Qed.

Lemma matchLiteralTail_announce before n ns : 0 <= n <= 9007199254740991 ->
  matchLiteralTail (before ++ announce n ns) = Some (before, n, ns).
Proof.
  intros Hn. unfold matchLiteralTail, announce. cbn [app].
  rewrite lastIndexOf_app by (apply announce_no_brace; lia).
  rewrite drop_after, take_app_length.
  assert (Hne : numToString n <> []).
  { pose proof (numToString_digits n ltac:(lia)) as H. by destruct (numToString n). }
  destruct ns; rewrite spanDigits_number by (done || lia); destruct (numToString n) as [|d ds] eqn:Hd; try done; rewrite <- Hd; cbn -[digitsVal];
    rewrite numToString_val by lia; destruct (Z.leb_spec n 9007199254740991); (done || lia).
Qed.

Section Client.
Context (opts : ReaderOptions).
Notation Run := (Loop (fun _ => true) (feedBody opts)).

(** A whole line in front of the buffer. *)
Lemma feedBody_line text rest s : literalRemaining s = None -> discarding s = None -> LF ∉ text ->
  buffer s = text ++ crlf ++ rest ->
  feedBody opts s = (let '(s', ev) := acceptLine opts text (s <| buffer := rest |>) in (s', option_list ev, true)).
Proof.
  intros Hl Hd Hn Hb. unfold feedBody. rewrite Hl. unfold consumeLine. rewrite Hb. unfold crlf. cbn [app].
  replace (text ++ CR :: LF :: rest) with ((text ++ [CR]) ++ LF :: rest) by (by rewrite <- app_assoc).
  rewrite indexOf_app_notin by (unfold LF, CR in *; set_solver). rewrite take_app_length.
  assert (He : endsWith1 CR (text ++ [CR]) = true) by (unfold endsWith1; by rewrite last_snoc).
  rewrite He. rewrite length_app. cbn [length].
  replace (length text + 1 - 1)%nat with (length text) by lia. rewrite take_app_length.
  assert (Hdrop : drop (S (length text + 1)) (buffer s) = rest).
  { rewrite Hb. unfold crlf. replace (text ++ [CR; LF] ++ rest) with ((text ++ [CR]) ++ LF :: rest) by (by rewrite <- app_assoc).
    replace (S (length text + 1)) with (S (length (text ++ [CR]))) by (rewrite length_app; cbn; lia). by rewrite drop_after. }
  assert (Hs : s <| buffer ::= drop (S (length text + 1)) |> = s <| buffer := rest |>) by (rewrite <- Hdrop; by destruct s).
  rewrite Hs. cbn [discarding]. change (discarding (s <| buffer := rest |>)) with (discarding s). rewrite Hd. by destruct (acceptLine _ _ _).
Qed.

(** A whole literal in front of the buffer. *)
Lemma feedBody_literal data rest s : literalRemaining s = Some (len data) -> discarding s = None ->
  literalChunks s = [] -> buffer s = data ++ rest ->
  feedBody opts s = (s <| buffer := rest |> <| parts := parts s ++ [PLiteral data] |> <| literalRemaining := None |>, [], true).
Proof.
  intros Hl Hd Hc Hb. unfold feedBody. rewrite Hl. unfold consumeLiteral. rewrite Hl, Hb. destruct s; cbn in *. subst.
  assert (Hmin : Z.min (len data) (len (data ++ rest)) = len data) by (unfold len; rewrite length_app; lia).
  rewrite Hmin. destruct (Z.ltb_spec 0 (len data)) as [Hlt|Hge]; cbn.
  - replace (len data - len data) with 0 by lia. rewrite decide_True by done.
    unfold len. rewrite Nat2Z.id.
    rewrite take_app_length, app_nil_r.
    transitivity ({| maxLiteralBytes := maxLiteralBytes0; buffer := drop (length data) (data ++ rest);
      parts := parts0 ++ [PLiteral data]; textLen := textLen0; literalRemaining := None; literalChunks := [];
      discarding := None |}, [] : list ReaderEvent, true); [reflexivity|]. by rewrite drop_app_length.
  - destruct data; [|unfold len in Hge; cbn in Hge; lia]. cbn. done.
Qed.

(** A literal of a command: the text before it, its bytes, whether it is sent unasked. *)
Record Piece := mkPiece { before : jsstr; content : bytes; unasked : bool }.
Record Command := mkCommand { pieces : list Piece; lastText : jsstr }.

Definition pieceLine (p : Piece) : jsstr := before p ++ announce (len (content p)) (unasked p).
Definition pieceWire (p : Piece) : bytes := pieceLine p ++ crlf ++ content p.
Definition commandWire (c : Command) : bytes := flat_map pieceWire (pieces c) ++ lastText c ++ crlf.

Definition pieceParts (p : Piece) : list LinePart := [PText (before p); PLiteral (content p)].
Definition pieceEvents (p : Piece) : list ReaderEvent := if unasked p then [] else [RContinue (len (content p))].
(** What the reader should say of it. *)
Definition commandEvents (c : Command) : list ReaderEvent :=
  flat_map pieceEvents (pieces c) ++
  [RLine (flat_map pieceParts (pieces c) ++
          (if (0 <? len (lastText c)) || (0 <? len (pieces c)) then [PText (lastText c)] else []))].

(** Within the limits, for a literal limit [m]. *)
Definition pieceOk (m : Z) (p : Piece) : Prop :=
  LF ∉ before p /\ len (content p) <= 9007199254740991 /\
  len (content p) <= (if unasked p then Z.min m (maxNonSyncLiteralBytes opts) else m).
(** Each line of the command fits behind the text before it. *)
Fixpoint fitsLine (t : Z) (ps : list Piece) : Prop :=
  match ps with
  | [] => True
  | p :: ps' => t + len (pieceLine p) <= maxLineBytes opts /\ fitsLine (t + len (before p)) ps'
  end.
Definition beforeTotal (ps : list Piece) : Z := fold_right Z.add 0 (map (fun p => len (before p)) ps).
Definition commandOk (m : Z) (c : Command) : Prop :=
  Forall (pieceOk m) (pieces c) /\ LF ∉ lastText c /\ matchLiteralTail (lastText c) = None /\
  fitsLine 0 (pieces c) /\ beforeTotal (pieces c) + len (lastText c) <= maxLineBytes opts.

Lemma pieces_run m ps : forall s rest a s',
  Forall (pieceOk m) ps -> maxLiteralBytes s = m -> literalRemaining s = None -> discarding s = None ->
  literalChunks s = [] -> fitsLine (textLen s) ps ->
  Run (s <| buffer := rest |> <| parts := parts s ++ flat_map pieceParts ps |>
         <| textLen := textLen s + beforeTotal ps |>) a s' ->
  Run (s <| buffer := flat_map pieceWire ps ++ rest |>) (flat_map pieceEvents ps ++ a) s'.
Proof.
  induction ps as [|p ps IH]; intros s rest a s' Hok Hm Hl Hd Hc Hlen Hrun.
  { cbn in *. rewrite app_nil_r, Z.add_0_r in Hrun. by destruct s. }
  inversion_clear Hok as [|? ? (Hlf & Hsafe & Hcap) Hok']. cbn [flat_map]. rewrite <- !app_assoc.
  destruct Hlen as [Hline Hlen].
  pose proof (len_nonneg (content p)) as Hn.
  set (s1 := s <| buffer := content p ++ flat_map pieceWire ps ++ rest |> <| parts := parts s ++ [PText (before p)] |>
               <| textLen := len (before p) + textLen s |> <| literalRemaining := Some (len (content p)) |>).
  eapply (loop_next _ _ _ s1); [done | |].
  - rewrite (feedBody_line (pieceLine p) (content p ++ flat_map pieceWire ps ++ rest)).
    + unfold acceptLine. cbn.
      rewrite (proj2 (Z.ltb_ge _ _)) by lia. unfold pieceLine.
      rewrite matchLiteralTail_announce by lia. cbn. rewrite Hm.
      rewrite (proj2 (Z.ltb_ge _ _)) by done. unfold s1, pieceEvents. destruct (unasked p); done.
    + done.
    + done.
    + unfold pieceLine. pose proof (announce_no_lf (len (content p)) (unasked p) Hn). set_solver.
    + cbn. unfold pieceWire. by rewrite <- !app_assoc.
  - change (flat_map pieceEvents ps ++ a) with ([] ++ (flat_map pieceEvents ps ++ a)).
    eapply (loop_next _ _ _ (s1 <| buffer := flat_map pieceWire ps ++ rest |> <| parts := parts s1 ++ [PLiteral (content p)] |>
        <| literalRemaining := None |>) [] (flat_map pieceEvents ps ++ a)); [done | by apply feedBody_literal |].
    set (s2 := s1 <| parts := parts s1 ++ [PLiteral (content p)] |> <| literalRemaining := None |>).
    match goal with |- Run ?x _ _ => replace x with (s2 <| buffer := flat_map pieceWire ps ++ rest |>) by (by destruct s) end.
    apply IH; try done.
    + change (textLen s2) with (len (before p) + textLen s). by rewrite Z.add_comm.
    + assert (Hfin : s2 <| buffer := rest |> <| parts := parts s2 ++ flat_map pieceParts ps |>
          <| textLen := textLen s2 + beforeTotal ps |> =
        s <| buffer := rest |> <| parts := parts s ++ flat_map pieceParts (p :: ps) |>
          <| textLen := textLen s + beforeTotal (p :: ps) |>); [|by rewrite Hfin].
      unfold s2, s1. destruct s; cbn in *; subst. rewrite <- !app_assoc. cbn [app].
      replace (len (before p) + textLen0 + beforeTotal ps) with (textLen0 + beforeTotal (p :: ps)) by (cbn; unfold beforeTotal; lia).
      reflexivity.
Qed.

(** Between two commands. *)
Definition Idle (s : Reader) : Prop :=
  parts s = [] /\ textLen s = 0 /\ literalRemaining s = None /\ discarding s = None /\ literalChunks s = [].

Lemma command_run c s rest b s' :
  Idle s -> commandOk (maxLiteralBytes s) c -> Run (s <| buffer := rest |>) b s' ->
  Run (s <| buffer := commandWire c ++ rest |>) (commandEvents c ++ b) s'.
Proof.
  intros (Hp & Ht & Hl & Hd & Hc) (Hok & Hlf & Htail & Hfit & Htot) Hrun. unfold commandWire, commandEvents.
  rewrite <- !app_assoc. pose proof (len_nonneg (lastText c)) as Hn.
  apply (pieces_run (maxLiteralBytes s)); try done; [by rewrite Ht|].
  eapply (loop_next _ _ _ (s <| buffer := rest |>)); [done | | exact Hrun].
  rewrite (feedBody_line (lastText c) rest); [|done..].
  unfold acceptLine. cbn. rewrite Ht, Hp. cbn [app]. rewrite (proj2 (Z.ltb_ge _ _)) by lia. rewrite Htail. cbn.
  assert (Hlen : (0 <? len (flat_map pieceParts (pieces c))) = (0 <? len (pieces c))) by (by destruct (pieces c)).
  rewrite Hlen. destruct s; cbn in *; subst. done.
Qed.

(** Commands a client sends within the limits, text and literals as the protocol writes them, are
    read back as exactly their parts, with one continuation asked for each literal that waits for
    it and no other event, and leave the reader ready for the next one. *)
Lemma imap_reader_commands (s : Reader) (cs : list Command) :
  Idle s -> buffer s = [] -> 0 <= maxLineBytes opts -> Forall (commandOk (maxLiteralBytes s)) cs ->
  feed opts (flat_map commandWire cs) s = (s, flat_map commandEvents cs).
Proof.
  intros Hi Hb HM Hok. apply feed_unique.
  assert (Hs : s <| buffer ::= fun b => b ++ flat_map commandWire cs |> = s <| buffer := flat_map commandWire cs |>)
    by (destruct s; cbn in *; by subst).
  rewrite Hs. clear Hs. induction Hok as [|c cs Hc _ IH]; cbn [flat_map]; [|by apply command_run].
  assert (Hs : s <| buffer := [] |> = s) by (destruct s; cbn in *; by subst). rewrite Hs.
  apply loop_break; [done|]. destruct Hi as (Hp & Ht & Hl & Hd & Hc). unfold feedBody, consumeLine, partialLine.
  rewrite Hl, Hb. cbn. rewrite Hd, Ht. change (len []) with 0. by rewrite (proj2 (Z.ltb_ge _ _)) by lia.
Qed.


(** A line that is too long and arrives whole is refused at once, even when it announces a literal
    that the client sends unasked: the bytes of the literal are then read as commands.  (A line
    that is being dropped when its end arrives does skip them.) *)
Lemma imap_reader_overlong_literal (s : Reader) (text cmd : jsstr) :
  Idle s -> buffer s = [] -> LF ∉ text -> LF ∉ cmd -> cmd <> [] -> matchLiteralTail cmd = None ->
  let p := mkPiece text (cmd ++ crlf) true in
  maxLineBytes opts < len (pieceLine p) -> len cmd <= maxLineBytes opts ->
  feed opts (pieceWire p) s = (s, [RError (js "line too long"); RLine [PText cmd]]).
Proof.
  intros (Hp & Ht & Hl & Hd & Hc) Hb Hlf Hlf' Hne Htail p Hlong Hshort. apply feed_unique.
  assert (Hn : 0 <= len (content p)) by apply len_nonneg. pose proof (len_nonneg cmd) as Hn0.
  apply (loop_next _ _ _ (s <| buffer := cmd ++ crlf |>) [RError (js "line too long")] [RLine [PText cmd]]); [done | |].
  - rewrite (feedBody_line (pieceLine p) (cmd ++ crlf)).
    + unfold acceptLine. cbn -[pieceLine]. rewrite Ht. rewrite (proj2 (Z.ltb_lt _ _)) by lia. by destruct s; cbn in *; subst.
    + done.
    + done.
    + unfold pieceLine. pose proof (announce_no_lf (len (content p)) (unasked p) Hn). set_solver.
    + cbn -[pieceLine crlf]. rewrite Hb. unfold pieceWire. done.
  - change ([RLine [PText cmd]]) with ([RLine [PText cmd]] ++ []). apply (loop_next _ _ _ s); [done | |].
    + rewrite (feedBody_line cmd []); [|done|done|done|done].
      unfold acceptLine. cbn. rewrite Ht, Hp. rewrite (proj2 (Z.ltb_ge _ _)) by lia. rewrite Htail. cbn.
      rewrite (proj2 (Z.ltb_lt 0 (len cmd))) by (destruct cmd; [done | unfold len; cbn; lia]).
      destruct s; cbn in *; subst. done.
    + apply loop_break; [done|]. unfold feedBody, consumeLine, partialLine.
      rewrite Hl, Hb. cbn. rewrite Hd, Ht. change (len []) with 0. by rewrite (proj2 (Z.ltb_ge _ _)) by lia.
Qed.
End Client.

(** ** Literals without end *)

(** The bytes of the literals a state holds. *)
Definition literalsHeld (s : Reader) : Z :=
  fold_right Z.add 0 (map (fun p => match p with PLiteral d => len d | PText _ => 0 end) (parts s)).

(** A literal of 4096 bytes sent unasked, with no text before it. *)
Definition bulk : Piece := mkPiece [] (replicate 4096 120) true.

Lemma bulk_ok n : Forall (pieceOk opts0 MAX_PREAUTH_LITERAL_BYTES) (replicate n bulk) /\
  fitsLine opts0 0 (replicate n bulk) /\ beforeTotal (replicate n bulk) = 0 /\
  flat_map pieceEvents (replicate n bulk) = [].
Proof.
  assert (Hp : pieceOk opts0 MAX_PREAUTH_LITERAL_BYTES bulk) by (split_and!; [cbn; set_solver | by vm_compute..]).
  assert (Hl : 0 + len (pieceLine bulk) <= maxLineBytes opts0) by (by vm_compute).
  induction n as [|n (IH1 & IH2 & IH3 & IH4)]; [by repeat split|].
  split_and!; [by constructor | split; [exact Hl | exact IH2] | change (0 + beforeTotal (replicate n bulk) = 0); lia | exact IH4].
Qed.

(** No limit is put on the literals of one command together.  Literals of 4096 bytes sent unasked
    on a connection that has not authenticated, with no text between them, are all kept: after [n]
    of them the reader holds [n * 4096] bytes, has said nothing, and still waits for the end of
    the command. *)
Theorem imap_reader_literals_unbounded (n : nat) :
  let r := feed opts0 (flat_map pieceWire (replicate n bulk)) (newReader MAX_PREAUTH_LITERAL_BYTES) in
  snd r = [] /\ literalsHeld (fst r) = Z.of_nat n * 4096.
Proof.
  set (s := newReader MAX_PREAUTH_LITERAL_BYTES). intros r.
  destruct (bulk_ok n) as (Hok & Hfit & Hbt & Hev).
  assert (Hrun : r = (s <| parts := flat_map pieceParts (replicate n bulk) |>, flat_map pieceEvents (replicate n bulk) ++ [])).
  { apply feed_unique.
    replace (s <| buffer ::= fun b => b ++ flat_map pieceWire (replicate n bulk) |>)
      with (s <| buffer := flat_map pieceWire (replicate n bulk) ++ [] |>) by (by rewrite app_nil_r).
    apply (pieces_run opts0 MAX_PREAUTH_LITERAL_BYTES); try done.
    rewrite Hbt. apply loop_break; [done | reflexivity]. }
  rewrite Hrun, Hev. split; [done|]. unfold literalsHeld. cbn [fst parts]. clear.
  change (parts (s <| parts := flat_map pieceParts (replicate n bulk) |>)) with (flat_map pieceParts (replicate n bulk)).
  induction n as [|n IH]; [done|]. cbn [replicate flat_map map app pieceParts fold_right] in *. rewrite IH.
  change (len (content bulk)) with 4096. lia.
Qed.

(** ** The cuts of the input do not matter *)

(** States that differ only in how the bytes of an unfinished literal are cut. *)
Definition flatten (s : Reader) : Reader := s <| literalChunks := [concat (literalChunks s)] |>.
Definition same (s t : Reader) : Prop := flatten s = flatten t.

#[global] Instance same_equivalence : Equivalence same.
Proof. split; unfold same; [intros ? | intros ? ? | intros ? ? ?]; congruence. Qed.

Lemma same_inv s t : same s t ->
  maxLiteralBytes s = maxLiteralBytes t /\ buffer s = buffer t /\ parts s = parts t /\ textLen s = textLen t /\
  literalRemaining s = literalRemaining t /\ concat (literalChunks s) = concat (literalChunks t) /\
  discarding s = discarding t.
Proof. destruct s, t. intros [= -> -> -> -> -> He ->]. cbn. by split_and!. Qed.

Lemma same_intro s t :
  maxLiteralBytes s = maxLiteralBytes t -> buffer s = buffer t -> parts s = parts t -> textLen s = textLen t ->
  literalRemaining s = literalRemaining t -> concat (literalChunks s) = concat (literalChunks t) ->
  discarding s = discarding t -> same s t.
Proof. destruct s, t. unfold same, flatten. cbn. intros -> -> -> -> -> He ->. cbn. rewrite He. done. Qed.

Definition ext (d : bytes) (s : Reader) : Reader := s <| buffer ::= fun b => b ++ d |>.

Section Cuts.
Context (opts : ReaderOptions).
Notation body := (feedBody opts).
Notation Run := (Loop (fun _ => true) body).

(** Two results that agree up to [same]. *)
Definition sameStep (x y : Reader * list ReaderEvent * bool) : Prop :=
  same x.1.1 y.1.1 /\ x.1.2 = y.1.2 /\ x.2 = y.2.

(** The operations on whole lines only look at the fields they change, and not at the chunks. *)
Lemma acceptLine_chunks text s cs : acceptLine opts text (s <| literalChunks := cs |>) =
  ((acceptLine opts text s).1 <| literalChunks := cs |>, (acceptLine opts text s).2).
Proof. unfold acceptLine. cbn. by repeat case_match. Qed.

Lemma discardLine_chunks msg text s cs : discardLine msg text (s <| literalChunks := cs |>) =
  ((discardLine msg text s).1 <| literalChunks := cs |>, (discardLine msg text s).2).
Proof. unfold discardLine. by repeat case_match. Qed.

Lemma acceptLine_buffer text s b : acceptLine opts text (s <| buffer := b |>) =
  ((acceptLine opts text s).1 <| buffer := b |>, (acceptLine opts text s).2).
Proof. unfold acceptLine. cbn. by repeat case_match. Qed.

Lemma discardLine_buffer msg text s b : discardLine msg text (s <| buffer := b |>) =
  ((discardLine msg text s).1 <| buffer := b |>, (discardLine msg text s).2).
Proof. unfold discardLine. by repeat case_match. Qed.

Lemma consumeLine_chunks s cs : consumeLine opts (s <| literalChunks := cs |>) =
  ((consumeLine opts s).1 <| literalChunks := cs |>, (consumeLine opts s).2).
Proof.
  unfold consumeLine. cbn. destruct (indexOf LF (buffer s)) as [idx|].
  - destruct (discarding s) as [msg|].
    + set (text := if endsWith1 CR _ then _ else _).
      change (s <| literalChunks := cs |> <| buffer ::= drop (S idx) |>) with (s <| buffer ::= drop (S idx) |> <| literalChunks := cs |>).
      rewrite discardLine_chunks. by destruct (discardLine _ _ _).
    + set (text := if endsWith1 CR _ then _ else _).
      change (s <| literalChunks := cs |> <| buffer ::= drop (S idx) |>) with (s <| buffer ::= drop (S idx) |> <| literalChunks := cs |>).
      rewrite acceptLine_chunks. by destruct (acceptLine _ _ _).
  - unfold partialLine. cbn. by repeat case_match.
Qed.

(** One turn does not depend on the cuts. *)
Lemma feedBody_same s t : same s t -> sameStep (body s) (body t).
Proof.
  intros Hst. pose proof (same_inv _ _ Hst) as (Hm & Hb & Hp & Hx & Hl & Hc & Hd).
  unfold feedBody. rewrite <- Hl. destruct (literalRemaining s) as [r|] eqn:Er.
  - unfold consumeLiteral. rewrite <- Hl, Er, <- Hb, <- Hd.
    destruct (0 <? Z.min r (len (buffer s))); cbn.
    + case_decide; (split_and!; cbn; [|done|done]); apply same_intro; cbn; try done; try congruence.
      all: destruct (discarding s); rewrite ?concat_app; congruence.
    + rewrite <- Hl, Er. case_decide; (split_and!; cbn; [|done|done]); [|done].
      apply same_intro; cbn; try done. destruct (discarding s); congruence.
  - assert (Ht : t = s <| literalChunks := literalChunks t |>) by (destruct s, t; cbn in *; subst; done).
    rewrite Ht, consumeLine_chunks. destruct (consumeLine opts s) as [s1 [ev|]] eqn:Ec; (split_and!; cbn; [|done|done]).
    all: assert (Hk : literalChunks s1 = literalChunks s).
    all: try (apply same_intro; cbn; congruence).
    all: pose proof (consumeLine_chunks s (literalChunks s)) as Hfix; rewrite Ec in Hfix;
      assert (Hs : s <| literalChunks := literalChunks s |> = s) by (by destruct s); rewrite Hs, Ec in Hfix; cbn in Hfix;
      injection Hfix as ->; done.
Qed.

Lemma Run_same s a s' : Run s a s' -> forall t, same s t -> exists t', Run t a t' /\ same s' t'.
Proof.
  induction 1 as [|s s1 a _ Hb|s s1 a b s2 _ Hb _ IH]; intros t Hst; [done| |];
    pose proof (feedBody_same _ _ Hst) as (H2 & H3 & H4); rewrite Hb in *;
    destruct (body t) as [[t1 a'] go] eqn:Ht; cbn in *; subst.
  - exists t1. split; [by apply loop_break | done].
  - destruct (IH _ H2) as (t2 & Hr2 & Hs2). exists t2. split; [by eapply loop_next | done].
Qed.

Lemma Run_sameStep s t a s' : sameStep (body s) (body t) -> Run s a s' -> exists t', Run t a t' /\ same s' t'.
Proof.
  intros (H1 & H2 & H3) HR. destruct (body t) as [[t1 b] go] eqn:Ht.
  inversion HR as [|? ? ? _ Hb|? s1 ? b' ? _ Hb Hrest]; [done| |]; subst; rewrite Hb in *; cbn in *; subst.
  - exists t1. split; [by apply loop_break | done].
  - destruct (Run_same _ _ _ Hrest _ H1) as (t2 & Hr2 & Hs2). exists t2. split; [by eapply loop_next | done].
Qed.

(** A turn that goes on does not see what comes later. *)
Lemma feedBody_ext d s s1 a : body s = (s1, a, true) -> body (ext d s) = (ext d s1, a, true).
Proof.
  unfold feedBody, ext. cbn. destruct (literalRemaining s) as [r|] eqn:Er.
  - unfold consumeLiteral. cbn. rewrite Er. pose proof (len_nonneg (buffer s)) as Hb. pose proof (len_nonneg d) as Hd0.
    assert (Hlen : len (buffer s ++ d) = len (buffer s) + len d) by (unfold len; rewrite length_app; lia).
    destruct (Z.ltb_spec 0 (Z.min r (len (buffer s)))) as [Hn|Hn]; cbn.
    + case_decide as Hd; [|done]. intros [= <- <-]. assert (Hr : r = Z.min r (len (buffer s))) by (injection Hd; lia).
      rewrite Hlen. replace (Z.min r (len (buffer s) + len d)) with r by lia.
      replace (Z.min r (len (buffer s))) with r by lia. rewrite (proj2 (Z.ltb_lt _ _)) by lia. cbn.
      rewrite decide_True by (f_equal; lia).
      assert (Ht : take (Z.to_nat r) (buffer s ++ d) = take (Z.to_nat r) (buffer s)) by (apply take_app_le; unfold len in *; lia).
      assert (Hdr : drop (Z.to_nat r) (buffer s ++ d) = drop (Z.to_nat r) (buffer s) ++ d)
        by (apply drop_app_le; unfold len in *; lia).
      rewrite Ht. destruct s; cbn in *. f_equal; f_equal. unfold set; cbn. by rewrite Hdr.
    + rewrite Er. case_decide as Hd; [|done]. injection Hd as ->. intros [= <- <-].
      rewrite Hlen. replace (Z.min 0 _) with 0 by lia. cbn. rewrite Er. rewrite decide_True by done. by destruct s.
  - unfold consumeLine. cbn. destruct (indexOf LF (buffer s)) as [idx|] eqn:Hi; [|done].
    rewrite (indexOf_app_l _ _ _ _ Hi). apply indexOf_lt in Hi.
    rewrite take_app_le by lia. set (text := if endsWith1 CR _ then _ else _).
    assert (Hdr : drop (S idx) (buffer s ++ d) = drop (S idx) (buffer s) ++ d) by (apply drop_app_le; lia).
    assert (Hs : s <| buffer ::= fun b => b ++ d |> <| buffer ::= drop (S idx) |> = s <| buffer := drop (S idx) (buffer s) ++ d |>)
      by (rewrite <- Hdr; by destruct s).
    assert (Hs' : s <| buffer ::= drop (S idx) |> = s <| buffer := drop (S idx) (buffer s) |>) by (by destruct s).
    rewrite Hs, Hs'. cbn. destruct (discarding s).
    + rewrite !discardLine_buffer. destruct (discardLine _ _ _) as [s2 ev]. cbn. intros [= <- <-]. by destruct s2.
    + rewrite !acceptLine_buffer. destruct (acceptLine _ _ _) as [s2 ev]. cbn. intros [= <- <-]. by destruct s2.
Qed.

(** A turn that waits, and does not drop a line, goes on as if all had come at once. *)
Lemma feedBody_wait M d s s1 a : Inv opts M s -> body s = (s1, a, false) ->
  discarding s1 = None \/ literalRemaining s1 <> None ->
  a = [] /\ sameStep (body (ext d s1)) (body (ext d s)).
Proof.
  intros HI. unfold feedBody at 1. destruct (literalRemaining s) as [r|] eqn:Er.
  - pose proof (i_lit _ _ _ HI) as Hlit. rewrite Er in Hlit. destruct Hlit as (Hr0 & _).
    unfold consumeLiteral at 1. rewrite Er. pose proof (len_nonneg (buffer s)) as Hb. pose proof (len_nonneg d) as Hd0.
    destruct (Z.ltb_spec 0 (Z.min r (len (buffer s)))) as [Hn|Hn]; cbn.
    2: { rewrite Er. case_decide; [done|]. intros [= <- <-] _. split; [done|]. by repeat split. }
    case_decide as Hd; [done|]. intros [= <- <-] _. split; [done|].
    assert (Hr : len (buffer s) < r) by (assert (r - Z.min r (len (buffer s)) <> 0) by congruence; lia).
    replace (Z.min r (len (buffer s))) with (len (buffer s)) by lia.
    assert (Hdrop : drop (Z.to_nat (len (buffer s))) (buffer s) = []) by (apply drop_ge; unfold len; lia).
    assert (Htake : take (Z.to_nat (len (buffer s))) (buffer s) = buffer s) by (apply take_ge; unfold len; lia).
    assert (Hlen : len (buffer s ++ d) = len (buffer s) + len d) by (unfold len; rewrite length_app; lia).
    unfold feedBody, ext, consumeLiteral. cbn. rewrite Er, Hdrop, Htake, Hlen. cbn [app].
    set (m := Z.min (r - len (buffer s)) (len d)).
    replace (Z.min r (len (buffer s) + len d)) with (len (buffer s) + m) by (unfold m; lia).
    rewrite (proj2 (Z.ltb_lt 0 (len (buffer s) + m))) by (unfold m; lia). cbn.
    assert (Hm0 : 0 <= m) by (unfold m; lia).
    assert (Hnat : Z.to_nat (len (buffer s) + m) = (length (buffer s) + Z.to_nat m)%nat) by (unfold len; lia).
    assert (Hta : take (Z.to_nat (len (buffer s) + m)) (buffer s ++ d) = buffer s ++ take (Z.to_nat m) d).
    { rewrite Hnat, take_app_ge by lia. do 2 f_equal. lia. }
    assert (Hdra : drop (Z.to_nat (len (buffer s) + m)) (buffer s ++ d) = drop (Z.to_nat m) d).
    { rewrite Hnat, drop_app_ge by lia. f_equal. lia. }
    rewrite Hta. destruct (Z.ltb_spec 0 m) as [Hm|Hm]; cbn.
    + replace (r - len (buffer s) - m) with (r - (len (buffer s) + m)) by lia.
      case_decide; (split_and!; cbn; [|done|done]); apply same_intro; cbn; try done; rewrite ?Hdrop, ?Hdra; try done.
      all: destruct (discarding s); rewrite ?concat_app; cbn; rewrite ?app_nil_r, <- ?app_assoc; done.
    + assert (m = 0) as Hm1 by lia. assert (d = []) as -> by (apply nil_length_inv; unfold m, len in *; lia).
      rewrite Hm1, Z.add_0_r. cbn.
      case_decide; (split_and!; cbn; [|done|done]); apply same_intro; cbn; try done; rewrite ?Hdrop, ?app_nil_r, ?Hdrop; try done.
      all: destruct (discarding s); rewrite ?concat_app; cbn; rewrite ?app_nil_r, <- ?app_assoc; done.
  - unfold consumeLine. destruct (indexOf LF (buffer s)) as [idx|] eqn:Hi.
    { destruct (discarding _) as [?|]; [destruct (discardLine _ _ _) | destruct (acceptLine _ _ _)]; done. }
    intros [= <- <-] Hcalm. split; [done|]. unfold partialLine in *.
    destruct (discarding s) eqn:Ed; [destruct Hcalm as [H|H]; [cbn in H; congruence | cbn in H; congruence]|].
    destruct (_ <? _); [destruct Hcalm as [H|H]; cbn in H; congruence|]. by repeat split.
Qed.

Lemma Run_cut M d s a s1 b s2 : 0 <= maxLineBytes opts -> Inv opts M s -> Run s a s1 ->
  discarding s1 = None \/ literalRemaining s1 <> None -> Run (ext d s1) b s2 ->
  exists s2', Run (ext d s) (a ++ b) s2' /\ same s2 s2'.
Proof.
  intros HM HI HR Hcalm Hb. induction HR as [|s s1 a _ Hs|s s0 a a' s1 _ Hs HR IH]; [done| |].
  - destruct (feedBody_wait M d _ _ _ HI Hs Hcalm) as [-> Hstep]. cbn [app]. by eapply Run_sameStep.
  - destruct (feedBody_inv opts M HM _ _ _ _ HI Hs) as [HI0 _]. destruct (IH HI0 Hcalm Hb) as (s2' & Hr & Hsame).
    exists s2'. split; [|done]. rewrite <- app_assoc. eapply loop_next; [done | by apply feedBody_ext | done].
Qed.

(** C39: how the connection cuts the input does not matter: feeding [a] and then [b] gives the events
    of feeding both at once, and the same state up to the cuts of an unfinished literal, for every
    cut at which the reader is not dropping a line that was too long.  (At such a cut the claim
    would be wrong: [imap_reader_cut_at_limit].) *)
Theorem imap_reader_segmentation (M : Z) (s : Reader) (a b : bytes) :
  0 <= maxLineBytes opts -> Reached opts M s ->
  let r1 := feed opts a s in
  let r2 := feed opts b (fst r1) in
  discarding (fst r1) = None \/ literalRemaining (fst r1) <> None ->
  snd (feed opts (a ++ b) s) = snd r1 ++ snd r2 /\ same (fst r2) (fst (feed opts (a ++ b) s)).
Proof.
  intros HM Hre r1 r2 Hcalm. destruct (Reached_inv _ _ _ HM Hre) as [HI _].
  assert (HI' : Inv opts M (ext a s)) by (destruct HI; by split).
  destruct (Run_cut M b (ext a s) _ _ _ _ HM HI' (feed_run opts a s) Hcalm (feed_run opts b (fst r1))) as (s2 & Hr & Hs).
  assert (He : ext b (ext a s) = s <| buffer ::= fun x => x ++ (a ++ b) |>) by (unfold ext, set; destruct s; cbn; by rewrite <- app_assoc).
  rewrite He in Hr. apply feed_unique in Hr. rewrite Hr. done.
Qed.
End Cuts.

Lemma imap_reader_segmentation_witness :
  let r1 := feed opts0 (js "a LOGIN {3}" ++ crlf ++ js "bo") (newReader 8192) in
  let r2 := feed opts0 (js "b {4}" ++ crlf) (fst r1) in
  snd r2 = [RContinue 4] /\
  snd (feed opts0 ((js "a LOGIN {3}" ++ crlf ++ js "bo") ++ js "b {4}" ++ crlf) (newReader 8192)) = snd r1 ++ snd r2 /\
  same (fst r2) (fst (feed opts0 ((js "a LOGIN {3}" ++ crlf ++ js "bo") ++ js "b {4}" ++ crlf) (newReader 8192))).
Proof.
  split; [vm_compute; reflexivity|].
  apply (imap_reader_segmentation opts0 8192); [done | apply reached_new; lia | left; vm_compute; reflexivity].
Defined.

(** Gap: the check of a line that is not complete counts its carriage return.  A line of just the limit is
    dropped when the connection cuts it in front of its line feed, and read when it comes at once. *)
Example imap_reader_cut_at_limit :
  let opts := {| maxLineBytes := 6; maxNonSyncLiteralBytes := 0 |} in
  snd (feed opts (js "a NOOP" ++ crlf) (newReader 0)) = [RLine [PText (js "a NOOP")]] /\
  let r := feed opts (js "a NOOP" ++ [CR]) (newReader 0) in
  snd r ++ snd (feed opts [LF] (fst r)) = [RError (js "line too long")].
Proof. vm_compute. done. Qed.
