(* ===== verification/ImapParser.v ===== *)
(** * The arguments of an IMAP command (packages/proto-imap/src/parser.ts)

    A logical line is a tree of atoms, quoted strings, literals and lists.  The cursor of the
    source walks the characters of the text parts and takes a literal whole; here it is what is
    left of that sequence. *)

From S2P Require Import Prelude JsString Loop ImapReader.

Inductive ImapValue :=
| VAtom (value : jsstr)
| VQuoted (value : jsstr)
| VLiteral (data : bytes)
| VList (items : list ImapValue).

Record ParsedCommand := mkParsed { tag : jsstr; name : jsstr; args : list ImapValue }.

Inductive ImapParseError :=
| LiteralBoundary | Unterminated | InvalidEscape | ExpectedAtom | UnterminatedList | UnexpectedEnd
| MissingTag | InvalidTag | MissingName.

(** ** The cursor *)

Abbreviation Cursor := (list (Z + bytes)).
Abbreviation Parsed := (fun A => Result ImapParseError (A * Cursor)).

Definition cursorOf (p : LinePart) : Cursor :=
  match p with PText t => map inl t | PLiteral d => [inr d] end.
Definition newCursor (parts : list LinePart) : Cursor := flat_map cursorOf parts.

(** The brace stands for a literal. *)
Definition peek (cur : Cursor) : option Z :=
  match cur with [] => None | inl c :: _ => Some c | inr _ :: _ => Some 123 end.

Definition atLiteral (cur : Cursor) : bool := match cur with inr _ :: _ => true | _ => false end.

(** The character read is [None] at the end. *)
Definition nextChar (cur : Cursor) : Parsed (option Z) :=
  match cur with
  | [] => Ok (None, [])
  | inl c :: r => Ok (Some c, r)
  | inr _ :: _ => Err LiteralBoundary
  end.

Fixpoint skipSpaces (cur : Cursor) : Cursor :=
  match cur with
  | inl c :: r => if c =? SP then skipSpaces r else cur
  | _ => cur
  end.

(** ** Values *)

Definition isAtomChar (c : Z) : bool :=
  negb ((c <=? 0x1f) || (c =? 0x7f)) &&
  negb (bool_decide (c ∈ [40; 41; 123; 32; 34; 92])).

(** The loop of [parseQuoted], after the opening quote. *)
Fixpoint quotedLoop (out : jsstr) (cur : Cursor) : Parsed ImapValue :=
  match cur with
  | [] => Err Unterminated
  | inr _ :: _ => Err LiteralBoundary
  | inl c :: r =>
      if c =? 34 then Ok (VQuoted out, r)
      else if c =? 92 then
        match r with
        | inr _ :: _ => Err LiteralBoundary
        | inl e :: r' => if (e =? 34) || (e =? 92) then quotedLoop (out ++ [e]) r' else Err InvalidEscape
        | [] => Err InvalidEscape
        end
      else quotedLoop (out ++ [c]) r
  end.

Fixpoint atomLoop (out : jsstr) (cur : Cursor) : jsstr * Cursor :=
  match cur with
  | inl c :: r => if isAtomChar c then atomLoop (out ++ [c]) r else (out, cur)
  | _ => (out, cur)
  end.

Definition parseAtomText (cur : Cursor) : Parsed jsstr :=
  match atomLoop [] cur with
  | ([], _) => Err ExpectedAtom
  | r => Ok r
  end.

Definition parseAtom (cur : Cursor) : Parsed ImapValue :=
  let* (a, r) := parseAtomText cur in Ok (VAtom a, r).

Fixpoint parseValue (fuel : nat) (cur : Cursor) : Parsed ImapValue :=
  match fuel with
  | O => Fuel
  | S f =>
      match cur with
      | inr d :: r => Ok (VLiteral d, r)
      | [] => Err UnexpectedEnd
      | inl c :: r =>
          if c =? 34 then quotedLoop [] r
          else if c =? 40 then listLoop f [] r
          else if c =? 92 then let* (a, r) := parseAtomText r in Ok (VAtom (92 :: a), r)
          else parseAtom cur
      end
  end
(** The loop of [parseList], after the opening parenthesis. *)
with listLoop (fuel : nat) (items : list ImapValue) (cur : Cursor) : Parsed ImapValue :=
  match fuel with
  | O => Fuel
  | S f =>
      match skipSpaces cur with
      | inr d :: r => listLoop f (items ++ [VLiteral d]) r
      | [] => Err UnterminatedList
      | inl c :: r =>
          if c =? 41 then Ok (VList items, r)
          else let* (v, r) := parseValue f (skipSpaces cur) in listLoop f (items ++ [v]) r
      end
  end.

(** Enough for [n] characters and literals: see [parseValue_ok]. *)
Definition valueFuel (n : nat) : nat := 2 * n + 2.

Fixpoint valuesLoop (fuel : nat) (values : list ImapValue) (cur : Cursor) : Result ImapParseError (list ImapValue) :=
  match fuel with
  | O => Fuel
  | S f =>
      match skipSpaces cur with
      | [] => Ok values
      | cur => let* (v, r) := parseValue (valueFuel (length cur)) cur in valuesLoop f (values ++ [v]) r
      end
  end.

Definition parseValues (parts : list LinePart) : Result ImapParseError (list ImapValue) :=
  let cur := newCursor parts in valuesLoop (S (length cur)) [] cur.

Definition parseCommand (parts : list LinePart) : Result ImapParseError ParsedCommand :=
  let* values := parseValues parts in
  match values with
  | VAtom t :: rest =>
      if existsb (fun c => (c =? 43) || (c =? 42) || (c =? 37)) t then Err InvalidTag
      else match rest with
           | VAtom n :: args => Ok {| tag := t; name := toUpperCase n; args := args |}
           | _ => Err MissingName
           end
  | _ => Err MissingTag
  end.

Definition valueText (v : ImapValue) : option jsstr :=
  match v with
  | VAtom s | VQuoted s => Some s
  | VLiteral d => Some d
  | VList _ => None
  end.

Example parse_example :
  parseCommand [PText (js "a1 append (x \Seen) "); PLiteral [1; 2]; PText (js " (y)")]
  = Ok {| tag := js "a1"; name := js "APPEND";
          args := [VList [VAtom (js "x"); VAtom (js "\Seen")]; VLiteral [1; 2]; VList [VAtom (js "y")]] |}.
Proof. vm_compute. reflexivity. Qed.

(** ** The parser ends *)

Lemma skipSpaces_le cur : (length (skipSpaces cur) <= length cur)%nat.
Proof. induction cur as [|[c|d] cur IH]; cbn; [lia | case_match; cbn; lia | lia]. Qed.

Lemma quotedLoop_ok cur : forall out, okRes (quotedLoop out cur) (fun r => (length r.2 <= length cur)%nat).
Proof.
  enough (H : forall n cur out, (length cur <= n)%nat -> okRes (quotedLoop out cur) (fun r => (length r.2 <= length cur)%nat))
    by (intros out; by eapply H).
  clear. induction n as [|n IH]; intros cur out Hn; (destruct cur as [|[c|d] r]; [done | | done]); cbn in Hn; [lia|].
  cbn [quotedLoop]. case_match; [cbn; lia|]. case_match.
  - destruct r as [|[e|d] r]; [done | | done]. case_match; [|done]. cbn in Hn.
    eapply okRes_impl; [apply IH; lia|]. cbn. lia.
  - eapply okRes_impl; [apply IH; lia|]. cbn. lia.
Qed.

Lemma atomLoop_spec cur : forall out, exists a, (atomLoop out cur).1 = out ++ a /\
  length cur = (length a + length (atomLoop out cur).2)%nat.
Proof.
  induction cur as [|[c|d] cur IH]; intros out; cbn; [exists []; by rewrite app_nil_r | | exists []; by rewrite app_nil_r].
  case_match; [|exists []; by rewrite app_nil_r].
  destruct (IH (out ++ [c])) as (a & Ha & Hl). exists (c :: a). rewrite Ha, <- app_assoc. split; [done | cbn; lia].
Qed.

Lemma parseAtomText_ok cur : okRes (parseAtomText cur) (fun r => (length r.2 < length cur)%nat).
Proof.
  unfold parseAtomText. destruct (atomLoop_spec cur []) as (a & Ha & Hl).
  destruct (atomLoop [] cur) as [[|c s] r]; cbn in *; [done|]. subst. cbn in Hl. lia.
Qed.

Lemma parseValue_ok fuel :
  (forall cur, (2 * length cur + 1 <= fuel)%nat -> okRes (parseValue fuel cur) (fun r => (length r.2 < length cur)%nat)) /\
  (forall items cur, (2 * length cur + 2 <= fuel)%nat ->
     okRes (listLoop fuel items cur) (fun r => (length r.2 <= length cur)%nat)).
Proof.
  induction fuel as [|f [IHV IHL]]; [split; intros; lia|]. split.
  - intros cur Hf. cbn [parseValue]. destruct cur as [|[c|d] r]; [done | | cbn; lia]. cbn in Hf.
    case_match; [eapply okRes_impl; [apply quotedLoop_ok|]; cbn; lia|].
    case_match; [eapply okRes_impl; [apply IHL; lia|]; cbn; lia|].
    case_match; [eapply okRes_bind; [apply parseAtomText_ok|]; intros [a r']; cbn; lia|].
    eapply okRes_bind; [apply parseAtomText_ok|]. intros [a r']. done.
  - intros items cur Hf. cbn [listLoop]. pose proof (skipSpaces_le cur) as Hs.
    destruct (skipSpaces cur) as [|[c|d] r] eqn:Hc; [done | |].
    + case_match; [cbn in *; lia|]. eapply okRes_bind; [apply IHV; cbn in *; lia|]. intros [v r'] Hr. cbn in Hr.
      eapply okRes_impl; [apply IHL; cbn in *; lia|]. cbn in *. lia.
    + cbn in Hs. eapply okRes_impl; [apply IHL; lia|]. cbn. lia.
Qed.

Lemma valuesLoop_ok fuel : forall values cur, (length cur < fuel)%nat -> okRes (valuesLoop fuel values cur) (fun _ => True).
Proof.
  induction fuel as [|f IH]; intros values cur Hf; [lia|]. cbn [valuesLoop]. pose proof (skipSpaces_le cur) as Hs.
  destruct (skipSpaces cur) as [|x r] eqn:Hc; [done|].
  eapply okRes_bind; [apply parseValue_ok; unfold valueFuel; lia|]. intros [v r'] Hr. cbn in Hr.
  apply IH. cbn in Hs. lia.
Qed.

(** Every logical line is parsed or refused: the parser ends on all of them. *)
Theorem imap_parse_total (parts : list LinePart) :
  (exists c, parseCommand parts = Ok c) \/ (exists e, parseCommand parts = Err e).
Proof.
  unfold parseCommand, parseValues. pose proof (valuesLoop_ok (S (length (newCursor parts))) [] (newCursor parts) ltac:(lia)) as Hok.
  destruct (valuesLoop _ _ _) as [vs|e|]; cbn [bindRes]; [| by right; eexists | by exfalso].
  destruct vs as [|[t|?|?|?] rest]; try (right; by eexists). case_match; [right; by eexists|].
  destruct rest as [|[n|?|?|?] rest]; try (right; by eexists). left. by eexists.
Qed.

(** ** What a client writes *)

(** The values of the protocol: atoms, flags, and the rest as it is. *)
Definition isAtom (a : jsstr) : Prop := a <> [] /\ Forall (fun c => isAtomChar c = true) a.

Fixpoint wfValue (v : ImapValue) : Prop :=
  match v with
  | VAtom a => isAtom a \/ (exists b, a = 92 :: b /\ isAtom b)
  | VQuoted s => True
  | VLiteral d => True
  | VList items => (fix all (l : list ImapValue) : Prop := match l with [] => True | x :: l' => wfValue x /\ all l' end) items
  end.

Definition escapeQuoted (s : jsstr) : jsstr := flat_map (fun c => if (c =? 34) || (c =? 92) then [92; c] else [c]) s.

(** Items with a space between them. *)
Definition spaced (printed : list Cursor) : Cursor :=
  match printed with
  | [] => []
  | p :: ps => p ++ flat_map (fun q => inl SP :: q) ps
  end.

Fixpoint printValue (v : ImapValue) : Cursor :=
  match v with
  | VAtom a => map inl a
  | VQuoted s => inl 34 :: map inl (escapeQuoted s) ++ [inl 34]
  | VLiteral d => [inr d]
  | VList items => inl 40 :: spaced (map printValue items) ++ [inl 41]
  end.

Section ValueInd.
Context (Q : ImapValue -> Prop) (HA : forall a, Q (VAtom a)) (HQ : forall s, Q (VQuoted s)) (HL : forall d, Q (VLiteral d))
  (HLs : forall l, Forall Q l -> Q (VList l)).

Fixpoint ImapValue_ind' (v : ImapValue) : Q v :=
  match v with
  | VAtom a => HA a
  | VQuoted s => HQ s
  | VLiteral d => HL d
  | VList l => HLs l ((fix all (l : list ImapValue) : Forall Q l :=
      match l with [] => Forall_nil_2 Q | x :: l' => Forall_cons_2 Q x l' (ImapValue_ind' x) (all l') end) l)
  end.
End ValueInd.

(** Where an atom ends. *)
Definition delimited (cur : Cursor) : Prop := match cur with inl c :: _ => isAtomChar c = false | _ => True end.

Lemma atomLoop_print a : forall out rest, Forall (fun c => isAtomChar c = true) a -> delimited rest ->
  atomLoop out (map inl a ++ rest) = (out ++ a, rest).
Proof.
  induction a as [|c a IH]; intros out rest Ha Hd; cbn.
  - rewrite app_nil_r. destruct rest as [|[c|d] r]; cbn in *; [done | by rewrite Hd | done].
  - inversion_clear Ha as [|? ? Hc Ha']. rewrite Hc, IH by done. by rewrite <- app_assoc.
Qed.

Lemma parseAtomText_print a rest : isAtom a -> delimited rest -> parseAtomText (map inl a ++ rest) = Ok (a, rest).
Proof.
  intros [Hne Ha] Hd. unfold parseAtomText. rewrite atomLoop_print by done. by destruct a.
Qed.

Lemma quotedLoop_print s : forall out rest,
  quotedLoop out (map inl (escapeQuoted s) ++ inl 34 :: rest) = Ok (VQuoted (out ++ s), rest).
Proof.
  induction s as [|c s IH]; intros out rest; cbn; [by rewrite app_nil_r|].
  destruct ((c =? 34) || (c =? 92)) eqn:Hc.
  - cbn. rewrite Hc, IH, <- app_assoc. done.
  - cbn. apply orb_false_iff in Hc as [-> ->]. rewrite IH, <- app_assoc. done.
Qed.

(** The first character of a printed value: neither space nor closing parenthesis. *)
Lemma isAtomChar_not c : isAtomChar c = true -> c <> 34 /\ c <> 40 /\ c <> 92 /\ c <> 32 /\ c <> 41.
Proof.
  unfold isAtomChar. intros [_ H]%andb_true_iff. apply negb_true_iff, bool_decide_eq_false in H. set_solver.
Qed.

Lemma printValue_head v : wfValue v ->
  match printValue v with inl c :: _ => c <> 32 /\ c <> 41 | inr _ :: _ => True | [] => False end.
Proof.
  destruct v as [a|s|d|l]; cbn; try done. intros [[Hne Ha]|(b & -> & _)]; [|done].
  destruct a as [|c a]; [done|]. inversion_clear Ha as [|? ? Hc _]. cbn. apply isAtomChar_not in Hc. tauto.
Qed.

Lemma skipSpaces_print v rest : wfValue v -> skipSpaces (printValue v ++ rest) = printValue v ++ rest.
Proof.
  intros Hv. pose proof (printValue_head v Hv) as Hh. destruct (printValue v) as [|[c|d] r]; [done | | done].
  cbn. unfold SP. destruct (Z.eqb_spec c 32); [lia | done].
Qed.

(** A printed value parses back, whatever follows it. *)
Definition Parses (v : ImapValue) : Prop := forall fuel rest,
  (2 * length (printValue v ++ rest) + 1 <= fuel)%nat -> delimited rest ->
  parseValue fuel (printValue v ++ rest) = Ok (v, rest).

Lemma listLoop_item f items x R : wfValue x -> Parses x -> delimited R ->
  (2 * length (printValue x ++ R) + 1 <= f)%nat ->
  listLoop (S f) items (printValue x ++ R) = listLoop f (items ++ [x]) R.
Proof.
  intros Hw Hp Hd Hf. pose proof (printValue_head x Hw) as Hh. cbn [listLoop]. rewrite skipSpaces_print by done.
  destruct (printValue x ++ R) as [|[c|d] r] eqn:Hc.
  - by destruct (printValue x).
  - rewrite <- Hc, Hp; [|by rewrite Hc|done].
    destruct (printValue x) as [|[c'|d'] r']; [done | | done]. cbn in Hc. injection Hc as -> _.
    destruct (Z.eqb_spec c 41); [lia | done].
  - destruct x as [a|s|d'|l]; cbn in Hc; try done; [|by simplify_eq].
    destruct a; [by destruct Hw as [[? _]|(b & ? & _)] | done].
Qed.

(** The rest of a list: the items with a space before each, and the parenthesis. *)
Definition closing (l : list ImapValue) (rest : Cursor) : Cursor :=
  flat_map (fun q => inl SP :: q) (map printValue l) ++ inl 41 :: rest.

Lemma closing_delimited l rest : delimited (closing l rest).
Proof. by destruct l. Qed.

Lemma closing_cons x l rest : closing (x :: l) rest = inl SP :: printValue x ++ closing l rest.
Proof. unfold closing. cbn. by rewrite <- app_assoc. Qed.

Lemma listLoop_closing l : Forall wfValue l -> Forall Parses l -> forall f items rest,
  (2 * length (closing l rest) + 2 <= f)%nat -> listLoop f items (closing l rest) = Ok (VList (items ++ l), rest).
Proof.
  intros Hw Hp. induction Hw as [|x l Hx Hl IH]; intros f items rest Hf; (destruct f as [|f]; [lia|]).
  - by rewrite app_nil_r.
  - inversion_clear Hp as [|? ? Hpx Hpl]. rewrite closing_cons in *.
    assert (Hsp : forall y, listLoop (S f) items (inl SP :: y) = listLoop (S f) items y) by done.
    rewrite Hsp. cbn [length] in Hf.
    rewrite listLoop_item; [|done|done|apply closing_delimited|lia].
    rewrite (IH Hpl); [by rewrite <- app_assoc|]. rewrite length_app in Hf. lia.
Qed.

Lemma spaced_closing x l rest :
  spaced (map printValue (x :: l)) ++ inl 41 :: rest = printValue x ++ closing l rest.
Proof. cbn. by rewrite <- app_assoc. Qed.

Lemma wfValue_list l : wfValue (VList l) <-> Forall wfValue l.
Proof. cbn. induction l as [|x l IH]; [done|]. rewrite Forall_cons, IH. done. Qed.

Lemma parseValue_print v : wfValue v -> Parses v.
Proof.
  induction v as [a|s|d|l IH] using ImapValue_ind'; intros Hw fuel rest Hf Hd; (destruct fuel as [|f]; [lia|]).
  - cbn [parseValue printValue]. destruct Hw as [Ha|(b & -> & Hb)].
    + destruct a as [|c a0]; [by destruct Ha|]. cbn [map app]. destruct Ha as [Hne Ha].
      pose proof Ha as Ha'. inversion_clear Ha' as [|? ? Hc _]. apply isAtomChar_not in Hc as (H1 & H2 & H3 & _).
      rewrite (proj2 (Z.eqb_neq c 34)), (proj2 (Z.eqb_neq c 40)), (proj2 (Z.eqb_neq c 92)) by done.
      unfold parseAtom. change (inl c :: map inl a0 ++ rest) with (map (inl (B := bytes)) (c :: a0) ++ rest).
      rewrite parseAtomText_print; [done | by split | done].
    + cbn -[parseAtomText]. by rewrite parseAtomText_print.
  - cbn. rewrite <- app_assoc. apply (quotedLoop_print s []).
  - done.
  - cbn [parseValue printValue app]. apply wfValue_list in Hw. rewrite <- app_assoc. cbn [app].
    assert (Hp : Forall Parses l).
    { rewrite Forall_forall in *. auto. }
    destruct l as [|x l].
    + cbn in Hf. destruct f; [lia|]. done.
    + rewrite spaced_closing. cbn [printValue app length] in Hf. rewrite <- app_assoc in Hf. cbn [app] in Hf.
      rewrite spaced_closing in Hf.
      inversion_clear Hw as [|? ? Hx Hl]. inversion_clear Hp as [|? ? Hpx Hpl].
      destruct f as [|f]; [lia|]. rewrite length_app in Hf.
      rewrite listLoop_item; [|done|done|apply closing_delimited|rewrite length_app; lia].
      rewrite (listLoop_closing l Hl Hpl); [done|]. pose proof (printValue_head x Hx).
      destruct (printValue x); [done|]. cbn [length] in Hf. lia.
Qed.

Lemma valuesLoop_print l : Forall wfValue l -> forall f values,
  let cur := flat_map (fun q => inl SP :: q) (map printValue l) in
  (length cur < f)%nat -> valuesLoop f values cur = Ok (values ++ l).
Proof.
  induction 1 as [|x l Hx Hl IH]; intros f values cur Hf; (destruct f as [|f]; [cbn in *; lia|]).
  - by rewrite app_nil_r.
  - cbn in cur. subst cur. cbn [length app] in Hf. rewrite length_app in Hf.
    set (R := flat_map _ (map printValue l)) in *.
    cbn [valuesLoop]. cbn [app]. change (skipSpaces (inl SP :: printValue x ++ R)) with (skipSpaces (printValue x ++ R)).
    rewrite skipSpaces_print by done. pose proof (printValue_head x Hx) as Hh.
    destruct (printValue x ++ R) as [|y r] eqn:Hc; [by destruct (printValue x)|]. rewrite <- Hc.
    rewrite (parseValue_print x Hx); [|unfold valueFuel; lia | unfold R; by destruct l].
    cbn [bindRes]. unfold R in *. rewrite IH by lia. by rewrite <- app_assoc.
Qed.

(** ** Commands through the reader and the parser *)

(** The characters of a printed command, cut at its literals. *)
Fixpoint piecesOf (nonSync : bool) (text : jsstr) (cur : Cursor) : Command :=
  match cur with
  | [] => mkCommand [] text
  | inl c :: r => piecesOf nonSync (text ++ [c]) r
  | inr d :: r => let c := piecesOf nonSync [] r in mkCommand (mkPiece text d nonSync :: pieces c) (lastText c)
  end.

Definition commandParts (c : Command) : list LinePart :=
  flat_map pieceParts (pieces c) ++ (if (0 <? len (lastText c)) || (0 <? len (pieces c)) then [PText (lastText c)] else []).

Lemma newCursor_app a b : newCursor (a ++ b) = newCursor a ++ newCursor b.
Proof. apply flat_map_app. Qed.

Lemma commandParts_cursor c : newCursor (commandParts c) = newCursor (flat_map pieceParts (pieces c)) ++ map inl (lastText c).
Proof.
  unfold commandParts. rewrite newCursor_app. f_equal. destruct (lastText c) as [|x t]; [by case_match|].
  rewrite (proj2 (Z.ltb_lt 0 (len (x :: t)))) by (unfold len; cbn; lia). cbn [orb newCursor flat_map cursorOf]. by rewrite app_nil_r.
Qed.

Lemma piecesOf_cursor ns cur : forall text, newCursor (commandParts (piecesOf ns text cur)) = map inl text ++ cur.
Proof.
  induction cur as [|[c|d] cur IH]; intros text; cbn [piecesOf].
  - rewrite commandParts_cursor. cbn. by rewrite app_nil_r.
  - rewrite IH, map_app, <- app_assoc. done.
  - specialize (IH []). rewrite commandParts_cursor in IH |- *. cbn [pieces lastText flat_map].
    rewrite newCursor_app, <- app_assoc, IH. cbn. by rewrite <- app_assoc.
Qed.

(** A command of the protocol as a client writes it: tag, name and arguments with spaces. *)
Definition printCommand (t n : jsstr) (vs : list ImapValue) : Cursor :=
  spaced (map printValue (VAtom t :: VAtom n :: vs)).

Definition isTag (t : jsstr) : Prop := isAtom t /\ 43 ∉ t /\ 42 ∉ t /\ 37 ∉ t.

Lemma parseCommand_print ns t n vs :
  isTag t -> isAtom n -> Forall wfValue vs ->
  parseCommand (commandParts (piecesOf ns [] (printCommand t n vs)))
  = Ok {| tag := t; name := toUpperCase n; args := vs |}.
Proof.
  intros (Ht & H43 & H42 & H37) Hn Hvs. unfold parseCommand, parseValues. rewrite piecesOf_cursor. cbn [map app].
  assert (Hall : Forall wfValue (VAtom t :: VAtom n :: vs)) by (constructor; [by left|]; constructor; [by left | done]).
  assert (Hrun : valuesLoop (S (length (printCommand t n vs))) [] (printCommand t n vs) = Ok (VAtom t :: VAtom n :: vs)).
  { unfold printCommand. cbn [map spaced]. set (R := flat_map _ _). cbn [valuesLoop].
    rewrite skipSpaces_print by (by left). pose proof (printValue_head (VAtom t) ltac:(by left)) as Hh.
    destruct (printValue (VAtom t) ++ R) as [|y r] eqn:Hc; [by destruct (printValue (VAtom t))|]. rewrite <- Hc.
    rewrite (parseValue_print (VAtom t)); [|by left | unfold valueFuel; lia | done]. cbn [bindRes app].
    change R with (flat_map (fun q => inl SP :: q) (map printValue (VAtom n :: vs))).
    rewrite valuesLoop_print; [done | by inversion Hall |].
    change (flat_map (fun q => inl SP :: q) (map printValue (VAtom n :: vs))) with R. rewrite length_app.
    destruct (printValue (VAtom t)); [done | cbn; lia]. }
  rewrite Hrun. cbn [bindRes].
  destruct (existsb _ t) eqn:He; [|done]. apply existsb_exists in He as (c & Hc & Hx). apply list_elem_of_In in Hc.
  apply orb_true_iff in Hx as [Hx|Hx]; [apply orb_true_iff in Hx as [Hx|Hx]|]; apply Z.eqb_eq in Hx; by subst.
Qed.

(** C33: a command written by a client, with any tag, name and arguments of the grammar, atoms,
    flags, quoted strings, literals and nested lists, goes through the reader and the parser
    unchanged: fed to an idle reader it gives the continuations its literals wait for and one
    logical line, which parses back to the same tree. *)
Theorem imap_command_roundtrip (opts : ReaderOptions) (s : Reader) (ns : bool) (t n : jsstr) (vs : list ImapValue) :
  Idle s -> buffer s = [] -> 0 <= maxLineBytes opts ->
  isTag t -> isAtom n -> Forall wfValue vs ->
  let c := piecesOf ns [] (printCommand t n vs) in
  commandOk opts (maxLiteralBytes s) c ->
  exists parts,
    feed opts (commandWire c) s = (s, flat_map pieceEvents (pieces c) ++ [RLine parts]) /\
    parseCommand parts = Ok {| tag := t; name := toUpperCase n; args := vs |}.
Proof.
  intros Hi Hb HM Ht Hn Hvs c Hc. exists (commandParts c). split; [|by apply parseCommand_print].
  pose proof (imap_reader_commands opts s [c] Hi Hb HM) as Hf. cbn [flat_map] in Hf. rewrite !app_nil_r in Hf.
  apply Hf. by constructor.
Qed.

Lemma imap_command_roundtrip_witness :
  let vs := [VList [VAtom (js "\Seen"); VQuoted (js "a")]; VLiteral [0; 13; 10]] in
  let c := piecesOf false [] (printCommand (js "a1") (js "append") vs) in
  exists parts,
    feed opts0 (commandWire c) (newReader 8192) = (newReader 8192, flat_map pieceEvents (pieces c) ++ [RLine parts]) /\
    parseCommand parts = Ok {| tag := js "a1"; name := toUpperCase (js "append"); args := vs |}.
Proof.
  apply (imap_command_roundtrip opts0 (newReader 8192) false (js "a1") (js "append")
    [VList [VAtom (js "\Seen"); VQuoted (js "a")]; VLiteral [0; 13; 10]]).
  - by split_and!.
  - done.
  - done.
  - split_and!; [split; [done | by repeat constructor] | cbn; set_solver..].
  - split; [done | by repeat constructor].
  - constructor; [|by constructor]. split; [|done]. right. exists (js "Seen"). split; [done|]. split; [done | by repeat constructor].
  - split_and!; [repeat constructor; cbn; unfold LF; try (by vm_compute); set_solver | cbn; unfold LF; set_solver | by vm_compute | by vm_compute | by vm_compute].
Defined.
