(* ===== verification/MaildropLock.v ===== *)
(** * Exclusive maildrops (packages/store/src/maildrop-lock.ts, packages/core/src/maildrop-lock.ts)

    The lock of a POP3 session is a row of [maildrop_locks] with an owner and an expiry.  Every
    call is one or two SQL statements; servers share the table, so the statements of their calls
    interleave in any order.  A statement is atomic, the database being what it is; the clock
    reading of a call is its argument. *)

From S2P Require Import Prelude JsString Limits.

(** ** The table and the statements *)

Record LockRow := mkRow { owner : jsstr; expiresAt : Z }.
Abbreviation Locks := (gmap jsstr LockRow).

Definition DEFAULT_TTL_MS : Z := POP3_IDLE_TIMEOUT_MS * 2.
Definition REFRESH_DIVISOR : Z := 3.

Section Lock.
Context (ttlMs : Z).

Definition refreshIntervalMs : Z := Z.max 1 (ttlMs / REFRESH_DIVISOR).

(** The insert of [acquire]: whether a row was written. *)
Definition tryInsert (accountId o : jsstr) (now : Z) (t : Locks) : Locks * bool :=
  match t !! accountId with
  | None => (<[accountId := mkRow o (now + ttlMs)]> t, true)
  | Some _ => (t, false)
  end.

(** The guarded update of [acquire]. *)
Definition trySteal (accountId o : jsstr) (now : Z) (t : Locks) : Locks * bool :=
  match t !! accountId with
  | Some r => if expiresAt r <=? now then (<[accountId := mkRow o (now + ttlMs)]> t, true) else (t, false)
  | None => (t, false)
  end.

Definition acquire (accountId o : jsstr) (now : Z) (t : Locks) : Locks * bool :=
  let '(t, inserted) := tryInsert accountId o now t in
  if inserted then (t, true) else trySteal accountId o now t.

Definition refresh (accountId o : jsstr) (now : Z) (t : Locks) : Locks * bool :=
  match t !! accountId with
  | Some r => if owner r === o then (<[accountId := mkRow o (now + ttlMs)]> t, true) else (t, false)
  | None => (t, false)
  end.

Definition release (accountId o : jsstr) (t : Locks) : Locks :=
  match t !! accountId with
  | Some r => if owner r === o then delete accountId t else t
  | None => t
  end.

(** The rows that stay, and how many were deleted. *)
Definition sweepExpired (now graceMs : Z) (t : Locks) : Locks * Z :=
  let t' := filter (fun kv => now - graceMs < expiresAt kv.2) t in (t', Z.of_nat (size t) - Z.of_nat (size t')).

(** ** Interleaved statements *)

Inductive Stmt :=
| SInsert (accountId o : jsstr) (now : Z)
| SSteal (accountId o : jsstr) (now : Z)
| SRefresh (accountId o : jsstr) (now : Z)
| SRelease (accountId o : jsstr)
| SSweep (now graceMs : Z).

(** The clock reading of a statement. *)
Definition clockOf (s : Stmt) : option Z :=
  match s with
  | SInsert _ _ now | SSteal _ _ now | SRefresh _ _ now | SSweep now _ => Some now
  | SRelease _ _ => None
  end.

(** What the sessions were told: the leases of which an [acquire] or [refresh] said yes, until the
    session gives it back or a [refresh] says no. *)
Abbreviation Leases := (gmap (jsstr * jsstr) Z).

Definition told (accountId o : jsstr) (yes : bool) (until : Z) (keep : bool) (l : Leases) : Leases :=
  if yes then <[(accountId, o) := until]> l else if keep then l else delete (accountId, o) l.

Definition exec (s : Stmt) (st : Locks * Leases) : Locks * Leases :=
  let '(t, l) := st in
  match s with
  | SInsert a o now => let '(t', ok) := tryInsert a o now t in (t', told a o ok (now + ttlMs) true l)
  | SSteal a o now => let '(t', ok) := trySteal a o now t in (t', told a o ok (now + ttlMs) true l)
  | SRefresh a o now => let '(t', ok) := refresh a o now t in (t', told a o ok (now + ttlMs) false l)
  | SRelease a o => (release a o t, delete (a, o) l)
  | SSweep now graceMs => ((sweepExpired now graceMs t).1, l)
  end.

Definition execAll (ss : list Stmt) (st : Locks * Leases) : Locks * Leases := fold_left (fun st s => exec s st) ss st.

(** A lease is the one of the row, or it has run out by a clock reading already made. *)
Definition Backed (until : Z) (st : Locks * Leases) : Prop :=
  forall a o e, st.2 !! (a, o) = Some e -> st.1 !! a = Some (mkRow o e) \/ e <= until.

Definition fair (until : Z) (s : Stmt) : Prop :=
  (match clockOf s with Some now => now <= until | None => True end) /\
  (match s with SSweep _ graceMs => 0 <= graceMs | _ => True end).

Lemma Backed_told until a o n t t' l :
  Backed until (t, l) -> n = mkRow o (expiresAt n) -> t' = <[a := n]> t ->
  (forall o' e, l !! (a, o') = Some e -> o' = o \/ e <= until) ->
  Backed until (t', <[(a, o) := expiresAt n]> l).
Proof.
  intros HB Hn -> Hold a' o' e. cbn. destruct (decide ((a, o) = (a', o'))) as [[= -> ->]|Hne].
  - rewrite lookup_insert_eq. intros [= <-]. left. by rewrite lookup_insert_eq, <- Hn.
  - rewrite lookup_insert_ne by done. intros He. destruct (decide (a = a')) as [->|].
    + right. destruct (Hold _ _ He) as [->|]; done.
    + rewrite lookup_insert_ne by done. by apply HB.
Qed.

Lemma exec_backed until s st : fair until s -> Backed until st -> Backed until (exec s st).
Proof.
  destruct st as [t l]. intros [Hc Hg] HB. destruct s as [a o now|a o now|a o now|a o|now g]; cbn [exec clockOf] in *.
  - unfold tryInsert. destruct (t !! a) eqn:Ha; [done|]. cbn.
    apply (Backed_told until a o (mkRow o (now + ttlMs)) t); try done.
    intros o' e He. right. destruct (HB a o' e He) as [Hx|]; [cbn in Hx; congruence | done].
  - unfold trySteal. destruct (t !! a) as [r|] eqn:Ha; [|done]. destruct (Z.leb_spec (expiresAt r) now); [|done]. cbn.
    apply (Backed_told until a o (mkRow o (now + ttlMs)) t); try done.
    intros o' e He. right. destruct (HB a o' e He) as [Hx|]; [|done]. cbn in Hx. rewrite Ha in Hx. simplify_eq. cbn in *. lia.
  - unfold refresh. destruct (t !! a) as [r|] eqn:Ha.
    + destruct (seqb_spec (owner r) o) as [<-|Hne]; cbn.
      * apply (Backed_told until a (owner r) (mkRow (owner r) (now + ttlMs)) t); try done.
        intros o' e He. destruct (HB a o' e He) as [Hx|]; [|by right]. cbn in Hx. rewrite Ha in Hx. simplify_eq. by left.
      * intros a' o' e. cbn. intros [_ He]%lookup_delete_Some. by apply HB.
    + intros a' o' e. cbn. intros [_ He]%lookup_delete_Some. by apply HB.
  - intros a' o' e. cbn. intros [Hne He]%lookup_delete_Some. destruct (HB a' o' e He) as [Hx|]; [|by right]. left. cbn in Hx.
    unfold release. destruct (t !! a) as [r|] eqn:Ha; [|done].
    destruct (seqb_spec (owner r) o) as [<-|]; [|done].
    destruct (decide (a = a')) as [->|]; [simplify_eq; done | by rewrite lookup_delete_ne].
  - intros a' o' e He. cbn in *. destruct (HB a' o' e He) as [Hx|]; [|by right]. cbn in Hx.
    destruct (decide (now - g < e)) as [Hlt|Hge].
    + left. unfold sweepExpired. cbn. apply map_lookup_filter_Some. done.
    + right. lia.
Qed.

(** Whatever statements of whatever servers interleave in whatever order, two sessions never
    hold the same maildrop: of the leases the lock has granted and not taken back, at most one is
    still running at a time [until] that no clock reading has passed. *)
Theorem maildrop_exclusive (ss : list Stmt) (until : Z) (a o1 o2 : jsstr) (e1 e2 : Z) :
  Forall (fair until) ss ->
  let leases := snd (execAll ss (∅, ∅)) in
  leases !! (a, o1) = Some e1 -> leases !! (a, o2) = Some e2 -> until < e1 -> until < e2 -> o1 = o2.
Proof.
  intros Hss leases H1 H2 L1 L2.
  assert (HB : Backed until (execAll ss (∅, ∅))).
  { unfold execAll. assert (H0 : Backed until (∅, ∅)) by (intros ? ? ? H; cbn in H; by rewrite lookup_empty in H).
    revert H0. generalize (∅ : Locks, ∅ : Leases). clear -Hss. induction Hss as [|s ss Hs _ IH]; cbn; [done|].
    intros st H0. apply IH, exec_backed; done. }
  destruct (HB _ _ _ H1) as [R1|]; [|lia]. destruct (HB _ _ _ H2) as [R2|]; [|lia]. by rewrite R1 in R2; simplify_eq.
Qed.

(** [acquire] on its own says yes exactly when no running lease is in the way, so a lease that a
    crashed server left behind blocks the account no longer than its expiry; [refresh] says yes
    exactly to the owner of the row, so a session that lost its lease cannot commit deletions. *)
Theorem maildrop_acquire_exact (a o : jsstr) (now : Z) (t : Locks) :
  (snd (acquire a o now t) = true <-> match t !! a with Some r => expiresAt r <= now | None => True end) /\
  (snd (acquire a o now t) = true -> fst (acquire a o now t) !! a = Some (mkRow o (now + ttlMs))) /\
  (snd (refresh a o now t) = true <-> exists e, t !! a = Some (mkRow o e)) /\
  (forall o', o' <> o -> release a o (<[a := mkRow o' now]> t) = <[a := mkRow o' now]> t).
Proof.
  split_and!.
  - unfold acquire, tryInsert, trySteal. destruct (t !! a) as [r|] eqn:Ha; cbn; [|done]. rewrite Ha.
    destruct (Z.leb_spec (expiresAt r) now); cbn; split; (done || lia).
  - unfold acquire, tryInsert, trySteal. destruct (t !! a) as [r|] eqn:Ha; cbn; [|by rewrite lookup_insert_eq]. rewrite Ha.
    destruct (expiresAt r <=? now); cbn; [by rewrite lookup_insert_eq | done].
  - unfold refresh. destruct (t !! a) as [[w e]|]; cbn; [|split; [done | by intros [? ?]]].
    destruct (seqb_spec w o) as [->|Hne]; cbn; split; try done; [by eexists | intros [? [=]]; done].
  - intros o' Hne. unfold release. rewrite lookup_insert_eq. cbn. destruct (seqb_spec o' o); [done|done].
Qed.
End Lock.

Lemma maildrop_exclusive_witness :
  let a := js "acct" in let x := js "x" in let y := js "y" in
  let ss := [SInsert a x 0; SInsert a y 3; SSteal a y 3; SInsert a y 12; SSteal a y 12; SRefresh a x 13] in
  snd (execAll 10 ss (∅, ∅)) !! (a, y) = Some 22 /\ snd (execAll 10 ss (∅, ∅)) !! (a, x) = None /\ y = y.
Proof.
  intros a x y ss. split; [vm_compute; reflexivity|]. split; [vm_compute; reflexivity|].
  apply (maildrop_exclusive 10 ss 13 a y y 22 22); [|vm_compute; reflexivity|vm_compute; reflexivity|lia|lia].
  repeat constructor; cbn; lia.
Defined.

(** ** The lock within one process (packages/proto-pop3/src/server.ts) *)

Definition ipAcquire (accountId o : jsstr) (owners : gmap jsstr jsstr) : gmap jsstr jsstr * bool :=
  match owners !! accountId with Some _ => (owners, false) | None => (<[accountId := o]> owners, true) end.
Definition ipRefresh (accountId o : jsstr) (owners : gmap jsstr jsstr) : bool :=
  match owners !! accountId with Some w => w === o | None => false end.
Definition ipRelease (accountId o : jsstr) (owners : gmap jsstr jsstr) : gmap jsstr jsstr :=
  match owners !! accountId with Some w => if w === o then delete accountId owners else owners | None => owners end.

(** Forgetting the expiries, a lock table that has no expired row behaves as the lock within one process. *)
Definition ownersOf (t : Locks) : gmap jsstr jsstr := owner <$> t.

Lemma inprocess_refines (ttl : Z) (a o : jsstr) (now : Z) (t : Locks) :
  (forall r, t !! a = Some r -> now < expiresAt r) ->
  ownersOf (fst (acquire ttl a o now t)) = fst (ipAcquire a o (ownersOf t)) /\
  snd (acquire ttl a o now t) = snd (ipAcquire a o (ownersOf t)) /\
  snd (refresh ttl a o now t) = ipRefresh a o (ownersOf t) /\
  ownersOf (release a o t) = ipRelease a o (ownersOf t).
Proof.
  intros Hl. unfold ownersOf, acquire, tryInsert, trySteal, ipAcquire, refresh, ipRefresh, release, ipRelease.
  rewrite lookup_fmap. destruct (t !! a) as [r|] eqn:Ha; cbn.
  - rewrite Ha. specialize (Hl r eq_refl). rewrite (proj2 (Z.leb_gt _ _)) by done. cbn.
    destruct (owner r === o); cbn; split_and!; try done. by rewrite fmap_delete.
  - rewrite fmap_insert. done.
Qed.
