(* ===== verification/Dns.v ===== *)
(** * The DNS wire format (packages/dns/src/wire.ts)

    Encoder and decoder of messages.  The encoder never compresses names; the decoder follows
    compression pointers, within a bound on its steps. *)

From S2P Require Import Prelude JsString JsNumber Text Loop Net.

(** ** Data *)

Definition RR_A : Z := 1.
Definition RR_NS : Z := 2.
Definition RR_CNAME : Z := 5.
Definition RR_SOA : Z := 6.
Definition RR_PTR : Z := 12.
Definition RR_MX : Z := 15.
Definition RR_TXT : Z := 16.
Definition RR_AAAA : Z := 28.
Definition RR_DS : Z := 43.
Definition RR_RRSIG : Z := 46.
Definition RR_DNSKEY : Z := 48.
Definition RR_TLSA : Z := 52.
Definition RRClass_IN : Z := 1.

Record Soa := mkSoa { mname : jsstr; rname : jsstr; serial : Z; soaRefresh : Z; soaRetry : Z; soaExpire : Z; minimum : Z }.
Record Rrsig := mkRrsig {
  typeCovered : Z; sigAlgorithm : Z; sigLabels : Z; originalTtl : Z; expiration : Z; inception : Z; sigKeyTag : Z;
  signerName : jsstr; signature : bytes; rdataPrefix : bytes }.

Inductive RData :=
| DA (address : jsstr)
| DAAAA (address : jsstr)
| DNS (target : jsstr)
| DCNAME (target : jsstr)
| DPTR (target : jsstr)
| DMX (preference : Z) (exchange : jsstr)
| DTXT (text : jsstr) (chunks : list jsstr)
| DSOA (soa : Soa)
| DDS (keyTag algorithm digestType : Z) (digest : bytes)
| DDNSKEY (flags protocol algorithm : Z) (publicKey : bytes)
| DRRSIG (sig : Rrsig)
| DTLSA (usage selector matchingType : Z) (data : bytes)
| DUNKNOWN (type : Z) (data : bytes).

Record DnsQuestion := mkQuestion { q_name : jsstr; q_type : Z; q_class : Z }.
Record DnsRecord := mkRecord { r_name : jsstr; r_type : Z; r_class : Z; ttl : Z; rdata : RData }.
Record DnsHeader := mkHeader {
  id : Z; qr : bool; opcode : Z; aa : bool; tc : bool; rd : bool; ra : bool; rcode : Z }.
Record DnsMessage := mkMessage {
  header : DnsHeader; questions : list DnsQuestion;
  answers : list DnsRecord; authorities : list DnsRecord; additionals : list DnsRecord }.

Inductive DnsWireError :=
| EmptyLabel | LabelTooLong | BadIpv4 | BadIpv6 | TxtTooLong
| OutOfBuffer | NameLoop | NameRange | PointerRange | UnknownLabel | LabelRange | RdataLength.

Abbreviation Wire := (Result DnsWireError).

(** ** Encoding *)

Definition u8 (n : Z) : bytes := [Z.land n 255].
Definition u16 (n : Z) : bytes := [Z.land (Z.shiftr n 8) 255; Z.land n 255].
Definition u32 (n : Z) : bytes :=
  [Z.land (Z.shiftr n 24) 255; Z.land (Z.shiftr n 16) 255; Z.land (Z.shiftr n 8) 255; Z.land n 255].

(** [n.replace(/\.$/, "")] *)
Definition stripDot (n : jsstr) : jsstr := if endsWith1 DOT n then removelast n else n.

Fixpoint encodeLabels (labels : list jsstr) : Wire bytes :=
  match labels with
  | [] => Ok []
  | l :: ls =>
      let b := utf8Encode l in
      if len b =? 0 then Err EmptyLabel
      else if 63 <? len b then Err LabelTooLong
      else let* r := encodeLabels ls in Ok (u8 (len b) ++ b ++ r)
  end.

(** [ByteWriter.name] *)
Definition encodeName (n : jsstr) : Wire bytes :=
  let trimmed := stripDot n in
  match trimmed with
  | [] => Ok (u8 0)
  | _ => let* b := encodeLabels (splitOn DOT trimmed) in Ok (b ++ u8 0)
  end.

Definition octet (p : jsstr) : option Z :=
  match jsNumber p with NumInt n => if (0 <=? n) && (n <=? 255) then Some n else None | _ => None end.

Definition parseIpv4 (s : jsstr) : Wire bytes :=
  match splitOn DOT s with
  | [a; b; c; d] =>
      match octet a, octet b, octet c, octet d with
      | Some a, Some b, Some c, Some d => Ok [a; b; c; d]
      | _, _, _, _ => Err BadIpv4
      end
  | _ => Err BadIpv4
  end.

(** The longest run of hexadecimal digits, and its value. *)
Fixpoint hexPrefix (acc : option Z) (s : jsstr) : option Z :=
  match s with
  | c :: s' => match digitIn 16 c with Some v => hexPrefix (Some (default 0 acc * 16 + v)) s' | None => acc end
  | [] => acc
  end.

(** [parseInt(s, 16)]; [None] is NaN. *)
Definition parseInt16 (s : jsstr) : option Z :=
  let t := trimStart s in
  let '(neg, t) := match t with 45 :: r => (true, r) | 43 :: r => (false, r) | _ => (false, t) end in
  let t := match t with 48 :: c :: r => if (c =? 120) || (c =? 88) then r else t | _ => t end in
  (fun v => if neg then - v else v) <$> hexPrefix None t.

Definition ipv6Groups (s : jsstr) : Wire (list jsstr) :=
  match splitDouble [] s with
  | [one] => let head := splitNonempty one in if (length head =? 8)%nat then Ok head else Err BadIpv6
  | [h; t] =>
      let head := splitNonempty h in
      let tail := splitNonempty t in
      if (8 <? length head + length tail)%nat then Err BadIpv6
      else Ok (head ++ replicate (8 - length head - length tail) (js "0") ++ tail)
  | _ => Err BadIpv6
  end.

Fixpoint ipv6Bytes (groups : list jsstr) : Wire bytes :=
  match groups with
  | [] => Ok []
  | g :: gs =>
      match parseInt16 g with
      | Some v => if (v <? 0) || (0xffff <? v) then Err BadIpv6
                  else let* r := ipv6Bytes gs in Ok (u16 v ++ r)
      | None => Err BadIpv6
      end
  end.

Definition parseIpv6 (s : jsstr) : Wire bytes :=
  let* groups := ipv6Groups s in
  if (length groups =? 8)%nat then ipv6Bytes groups else Err BadIpv6.

Fixpoint encodeChunks (chunks : list jsstr) : Wire bytes :=
  match chunks with
  | [] => Ok []
  | c :: cs =>
      let b := utf8Encode c in
      if 255 <? len b then Err TxtTooLong
      else let* r := encodeChunks cs in Ok (u8 (len b) ++ b ++ r)
  end.

(** The record data behind its length; [None] for the kinds the switch has no case for, which
    write nothing at all. *)
Definition rdataBytes (d : RData) : Wire (option bytes) :=
  match d with
  | DA a => let* b := parseIpv4 a in Ok (Some b)
  | DAAAA a => let* b := parseIpv6 a in Ok (Some b)
  | DNS t | DCNAME t | DPTR t => let* b := encodeName t in Ok (Some b)
  | DMX p x => let* b := encodeName x in Ok (Some (u16 p ++ b))
  | DTXT _ chunks => let* b := encodeChunks chunks in Ok (Some b)
  | DSOA s =>
      let* m := encodeName (mname s) in
      let* r := encodeName (rname s) in
      Ok (Some (m ++ r ++ u32 (serial s) ++ u32 (soaRefresh s) ++ u32 (soaRetry s) ++ u32 (soaExpire s) ++ u32 (minimum s)))
  | DUNKNOWN _ data => Ok (Some (map (fun x => Z.land x 255) data))
  | DDS _ _ _ _ | DDNSKEY _ _ _ _ | DRRSIG _ | DTLSA _ _ _ _ => Ok None
  end.

Definition encodeRdata (d : RData) : Wire bytes :=
  let* b := rdataBytes d in
  Ok (match b with Some b => u16 (len b) ++ b | None => [] end).

Definition encodeRecord (r : DnsRecord) : Wire bytes :=
  let* n := encodeName (r_name r) in
  let* d := encodeRdata (rdata r) in
  Ok (n ++ u16 (r_type r) ++ u16 (r_class r) ++ u32 (ttl r) ++ d).

Definition encodeQuestion (q : DnsQuestion) : Wire bytes :=
  let* n := encodeName (q_name q) in Ok (n ++ u16 (q_type q) ++ u16 (q_class q)).

Fixpoint encodeAll {A} (f : A -> Wire bytes) (l : list A) : Wire bytes :=
  match l with
  | [] => Ok []
  | x :: l' => let* a := f x in let* b := encodeAll f l' in Ok (a ++ b)
  end.

Definition bit (b : bool) (v : Z) : Z := if b then v else 0.

Definition headerFlags (h : DnsHeader) : Z :=
  Z.lor (bit (qr h) 0x8000) (Z.lor (Z.shiftl (Z.land (opcode h) 0x0f) 11) (Z.lor (bit (aa h) 0x0400)
    (Z.lor (bit (tc h) 0x0200) (Z.lor (bit (rd h) 0x0100) (Z.lor (bit (ra h) 0x0080) (Z.land (rcode h) 0x0f)))))).

Definition encodeMessage (msg : DnsMessage) : Wire bytes :=
  let* qs := encodeAll encodeQuestion (questions msg) in
  let* an := encodeAll encodeRecord (answers msg) in
  let* ns := encodeAll encodeRecord (authorities msg) in
  let* ar := encodeAll encodeRecord (additionals msg) in
  Ok (u16 (id (header msg)) ++ u16 (headerFlags (header msg)) ++ u16 (len (questions msg)) ++ u16 (len (answers msg)) ++
      u16 (len (authorities msg)) ++ u16 (len (additionals msg)) ++ qs ++ an ++ ns ++ ar).

Definition EDNS_UDP_SIZE : Z := 4096.

(** The OPT pseudo record with the DO bit. *)
Definition optRecord : bytes := [0] ++ u16 41 ++ u16 EDNS_UDP_SIZE ++ [0; 0; 0x80; 0] ++ u16 0.

Definition encodeQuery (qid : Z) (n : jsstr) (type : Z) (rdBit dnssecOk : bool) : Wire bytes :=
  let* base := encodeMessage
    {| header := {| id := qid; qr := false; opcode := 0; aa := false; tc := false; rd := rdBit; ra := false; rcode := 0 |};
       questions := [{| q_name := n; q_type := type; q_class := RRClass_IN |}];
       answers := []; authorities := []; additionals := [] |} in
  if negb dnssecOk then Ok base
  else
    let out := base ++ optRecord in
    let arcount := Z.lor (Z.shiftl (default 0 (out !! 10%nat)) 8) (default 0 (out !! 11%nat)) + 1 in
    Ok (<[11%nat := Z.land arcount 255]> (<[10%nat := Z.land (Z.shiftr arcount 8) 255]> out)).

(** ** Decoding *)

Definition MAX_NAME_STEPS : nat := 128.

Section Reader.
Context (view : bytes).
Abbreviation Read := (fun A => Wire (A * Z)).

(** [this.view[i]] *)
Definition at_ (i : Z) : Z := default 0 (view !! Z.to_nat i).

Definition ensure {A} (off n : Z) (k : Wire A) : Wire A := if len view <? off + n then Err OutOfBuffer else k.

Definition r8 (off : Z) : Read Z := ensure off 1 (Ok (at_ off, off + 1)).
Definition r16 (off : Z) : Read Z := ensure off 2 (Ok (Z.lor (Z.shiftl (at_ off) 8) (at_ (off + 1)), off + 2)).
Definition r32 (off : Z) : Read Z :=
  ensure off 4 (Ok (at_ off * 0x1000000 +
    Z.lor (Z.lor (Z.shiftl (at_ (off + 1)) 16) (Z.shiftl (at_ (off + 2)) 8)) (at_ (off + 3)), off + 4)).

(** [this.view.subarray(from, to)] for positions that are not negative *)
Definition rangeBytes (from to : Z) : bytes := take (Z.to_nat (to - from)) (drop (Z.to_nat from) view).
Definition rbytes (n off : Z) : Read bytes := ensure off n (Ok (rangeBytes off (off + n), off + n)).

(** The loop of [name]: the labels so far, the position, and where reading goes on once a pointer
    was followed. *)
Fixpoint nameLoop (steps : nat) (labels : list jsstr) (pos : Z) (next : option Z) : Read (list jsstr) :=
  match steps with
  | O => Err NameLoop
  | S k =>
      if len view <=? pos then Err NameRange
      else
        let l := at_ pos in
        if l =? 0 then Ok (labels, default (pos + 1) next)
        else if Z.land l 0xc0 =? 0xc0 then
          if len view <=? pos + 1 then Err PointerRange
          else nameLoop k labels (Z.lor (Z.shiftl (Z.land l 0x3f) 8) (at_ (pos + 1))) (Some (default (pos + 2) next))
        else if negb (Z.land l 0xc0 =? 0) then Err UnknownLabel
        else if len view <? pos + 1 + l then Err LabelRange
        else nameLoop k (labels ++ [utf8Decode (rangeBytes (pos + 1) (pos + 1 + l))]) (pos + 1 + l) next
  end.

Definition rname_ (off : Z) : Read jsstr :=
  let* (labels, next) := nameLoop (S MAX_NAME_STEPS) [] off None in Ok (joinWith [DOT] labels, next).

Definition formatIpv4 (b : bytes) : jsstr := joinWith [DOT] (map numToString (take 4 b)).

Fixpoint groupsOf (b : bytes) : list Z :=
  match b with x :: y :: r => Z.lor (Z.shiftl x 8) y :: groupsOf r | _ => [] end.

(** The longest run of zero groups: its start and length; the first of the longest. *)
Fixpoint zeroRun (i : nat) (cur best : nat * nat) (gs : list Z) : nat * nat :=
  match gs with
  | [] => best
  | g :: gs' =>
      if g =? 0 then
        let cur := match cur with (_, O) => (i, 1%nat) | (s, n) => (s, S n) end in
        zeroRun (S i) cur (if (best.2 <? cur.2)%nat then cur else best) gs'
      else zeroRun (S i) (0%nat, 0%nat) best gs'
  end.

Definition hexJoin (gs : list Z) : jsstr := joinWith [COLON] (map toHex gs).

Definition formatIpv6 (b : bytes) : jsstr :=
  let groups := groupsOf (take 16 b) in
  let '(bestStart, bestLen) := zeroRun 0 (0%nat, 0%nat) (0%nat, 0%nat) groups in
  if (bestLen <? 2)%nat then hexJoin groups
  else hexJoin (take bestStart groups) ++ [COLON; COLON] ++ hexJoin (drop (bestStart + bestLen) groups).

(** The loop over the character strings of a TXT record. *)
Fixpoint txtLoop (fuel : nat) (chunks : list jsstr) (off end_ : Z) : Wire (list jsstr) :=
  if off <? end_ then
    match fuel with
    | O => Fuel
    | S f =>
        let* (l, off) := r8 off in
        let* (b, off) := rbytes l off in
        txtLoop f (chunks ++ [utf8Decode b]) off end_
    end
  else Ok chunks.

Definition decodeRdata (type rdlength off : Z) : Read RData :=
  let end_ := off + rdlength in
  if type =? RR_DS then
    if rdlength <? 5 then Err RdataLength
    else
      let* (keyTag, off) := r16 off in
      let* (algorithm, off) := r8 off in
      let* (digestType, off) := r8 off in
      let* (digest, off) := rbytes (end_ - off) off in
      Ok (DDS keyTag algorithm digestType digest, off)
  else if type =? RR_DNSKEY then
    if rdlength <? 5 then Err RdataLength
    else
      let* (flags, off) := r16 off in
      let* (protocol, off) := r8 off in
      let* (algorithm, off) := r8 off in
      let* (publicKey, off) := rbytes (end_ - off) off in
      Ok (DDNSKEY flags protocol algorithm publicKey, off)
  else if type =? RR_RRSIG then
    if rdlength <? 18 then Err RdataLength
    else
      let start := off in
      let* (tcov, off) := r16 off in
      let* (alg, off) := r8 off in
      let* (lab, off) := r8 off in
      let* (ottl, off) := r32 off in
      let* (expi, off) := r32 off in
      let* (inc, off) := r32 off in
      let* (tag, off) := r16 off in
      let* (signer, off) := rname_ off in
      let prefixEnd := off in
      let* (sig, off) := rbytes (end_ - off) off in
      Ok (DRRSIG {| typeCovered := tcov; sigAlgorithm := alg; sigLabels := lab; originalTtl := ottl; expiration := expi;
                    inception := inc; sigKeyTag := tag; signerName := signer; signature := sig;
                    rdataPrefix := rangeBytes start prefixEnd |}, off)
  else if type =? RR_TLSA then
    if rdlength <? 4 then Err RdataLength
    else
      let* (usage, off) := r8 off in
      let* (selector, off) := r8 off in
      let* (matchingType, off) := r8 off in
      let* (data, off) := rbytes (end_ - off) off in
      Ok (DTLSA usage selector matchingType data, off)
  else if type =? RR_A then
    let* (b, off) := rbytes rdlength off in
    if negb (len b =? 4) then Err RdataLength else Ok (DA (formatIpv4 b), off)
  else if type =? RR_AAAA then
    let* (b, off) := rbytes rdlength off in
    if negb (len b =? 16) then Err RdataLength else Ok (DAAAA (formatIpv6 b), off)
  else if type =? RR_NS then let* (t, _) := rname_ off in Ok (DNS t, end_)
  else if type =? RR_CNAME then let* (t, _) := rname_ off in Ok (DCNAME t, end_)
  else if type =? RR_PTR then let* (t, _) := rname_ off in Ok (DPTR t, end_)
  else if type =? RR_MX then
    let* (preference, off) := r16 off in
    let* (exchange, _) := rname_ off in
    Ok (DMX preference exchange, end_)
  else if type =? RR_TXT then
    let* chunks := txtLoop (Z.to_nat rdlength) [] off end_ in
    Ok (DTXT (concat chunks) chunks, end_)
  else if type =? RR_SOA then
    let* (m, off) := rname_ off in
    let* (r, off) := rname_ off in
    let* (ser, off) := r32 off in
    let* (rfr, off) := r32 off in
    let* (rty, off) := r32 off in
    let* (exp, off) := r32 off in
    let* (mini, _) := r32 off in
    Ok (DSOA {| mname := m; rname := r; serial := ser; soaRefresh := rfr; soaRetry := rty; soaExpire := exp;
                minimum := mini |}, end_)
  else
    let* (data, off) := rbytes rdlength off in
    Ok (DUNKNOWN type data, off).

Definition decodeRecord (off : Z) : Read DnsRecord :=
  let* (n, off) := rname_ off in
  let* (type, off) := r16 off in
  let* (cls, off) := r16 off in
  let* (t, off) := r32 off in
  let* (rdlength, off) := r16 off in
  let* (d, off) := decodeRdata type rdlength off in
  Ok ({| r_name := n; r_type := type; r_class := cls; ttl := t; rdata := d |}, off).

Definition decodeQuestion (off : Z) : Read DnsQuestion :=
  let* (n, off) := rname_ off in
  let* (type, off) := r16 off in
  let* (cls, off) := r16 off in
  Ok ({| q_name := n; q_type := type; q_class := cls |}, off).

Fixpoint decodeMany {A} (f : Z -> Read A) (n : nat) (off : Z) : Read (list A) :=
  match n with
  | O => Ok ([], off)
  | S n' => let* (x, off) := f off in let* (xs, off) := decodeMany f n' off in Ok (x :: xs, off)
  end.

Definition headerOf (mid flags : Z) : DnsHeader :=
  {| id := mid; qr := negb (Z.land flags 0x8000 =? 0); opcode := Z.land (Z.shiftr flags 11) 0x0f;
     aa := negb (Z.land flags 0x0400 =? 0); tc := negb (Z.land flags 0x0200 =? 0); rd := negb (Z.land flags 0x0100 =? 0);
     ra := negb (Z.land flags 0x0080 =? 0); rcode := Z.land flags 0x0f |}.

Definition decodeMessage : Wire DnsMessage :=
  let* (mid, off) := r16 0 in
  let* (flags, off) := r16 off in
  let* (qd, off) := r16 off in
  let* (an, off) := r16 off in
  let* (ns, off) := r16 off in
  let* (ar, off) := r16 off in
  let* (qs, off) := decodeMany decodeQuestion (Z.to_nat qd) off in
  let* (ans, off) := decodeMany decodeRecord (Z.to_nat an) off in
  let* (nss, off) := decodeMany decodeRecord (Z.to_nat ns) off in
  let* (ars, off) := decodeMany decodeRecord (Z.to_nat ar) off in
  Ok {| header := headerOf mid flags; questions := qs; answers := ans; authorities := nss; additionals := ars |}.
End Reader.

(** [(byte >> 4).toString(16), (byte & 0x0f).toString(16)] of each byte *)
Definition nibbles (b : bytes) : list jsstr := flat_map (fun x => [toHex (Z.shiftr x 4); toHex (Z.land x 15)]) b.

Definition ptrQueryName (ip : jsstr) : option jsstr :=
  if existsb (Z.eqb COLON) ip then
    match parseIpv6 ip with
    | Ok b => Some (joinWith [DOT] (rev (nibbles b)) ++ js ".ip6.arpa")
    | _ => None
    end
  else
    let parts := splitOn DOT ip in
    if negb (length parts =? 4)%nat then None
    else if forallb (fun p => match octet p with Some _ => true | None => false end) parts
    then Some (joinWith [DOT] (rev parts) ++ js ".in-addr.arpa")
    else None.
