(* ===== verification/DnsSpec.v ===== *)
(** * Round trip and bounds of the DNS wire format

    A message that encodes is decoded to the same message, with names and addresses in the form
    the decoder writes; a name read from any bytes, pointers included, is bounded. *)

From S2P Require Import Prelude JsString JsNumber Text Loop Net Dns.

(** ** Fields *)

Lemma u16_value n : 0 <= n < 65536 ->
  Z.lor (Z.shiftl (Z.land (Z.shiftr n 8) 255) 8) (Z.land n 255) = n.
Proof.
  intros Hn. rewrite !land_255, Z.shiftr_div_pow2 by lia. change (2 ^ 8) with 256.
  pose proof (Z.mod_pos_bound n 256 ltac:(lia)). rewrite lor_shiftl_add by (change (2 ^ 8) with 256; lia).
  change (2 ^ 8) with 256. rewrite (Z.mod_small (n / 256)); [|split; [apply Z.div_pos; lia | apply Z.div_lt_upper_bound; lia]].
  pose proof (Z.div_mod n 256 ltac:(lia)). lia.
Qed.

Lemma u32_value n : 0 <= n < 4294967296 ->
  Z.land (Z.shiftr n 24) 255 * 0x1000000 +
  Z.lor (Z.lor (Z.shiftl (Z.land (Z.shiftr n 16) 255) 16) (Z.shiftl (Z.land (Z.shiftr n 8) 255) 8)) (Z.land n 255) = n.
Proof.
  intros Hn. rewrite !land_255, !Z.shiftr_div_pow2 by lia. change (2 ^ 8) with 256. change (2 ^ 16) with 65536. change (2 ^ 24) with 16777216.
  assert (Hb : forall x, 0 <= x mod 256 < 256) by (intros; apply Z.mod_pos_bound; lia).
  rewrite (Z.shiftl_mul_pow2 _ 8) by lia. change (2 ^ 8) with 256.
  pose proof (Hb (n / 256)). pose proof (Hb n). pose proof (Hb (n / 65536)).
  rewrite (lor_shiftl_add _ (n / 256 mod 256 * 256) 16) by (change (2 ^ 16) with 65536; lia). change (2 ^ 16) with 65536.
  replace (n / 65536 mod 256 * 65536 + n / 256 mod 256 * 256) with (Z.shiftl (n / 65536 mod 256 * 256 + n / 256 mod 256) 8)
    by (rewrite Z.shiftl_mul_pow2 by lia; change (2 ^ 8) with 256; lia).
  rewrite lor_shiftl_add by (change (2 ^ 8) with 256; lia). change (2 ^ 8) with 256.
  rewrite (Z.mod_small (n / 16777216)); [|split; [apply Z.div_pos; lia | apply Z.div_lt_upper_bound; lia]].
  pose proof (Z.div_mod n 256 ltac:(lia)). pose proof (Z.div_mod (n / 256) 256 ltac:(lia)). pose proof (Z.div_mod (n / 65536) 256 ltac:(lia)).
  assert (n / 256 / 256 = n / 65536) by (rewrite Z.div_div by lia; done).
  assert (n / 65536 / 256 = n / 16777216) by (rewrite Z.div_div by lia; done). lia.
Qed.

(** ** Reading what was written *)

Section At.
Context (view : bytes).

(** [d] stands at [off]. *)
Definition At (off : Z) (d : bytes) : Prop :=
  0 <= off /\ off + len d <= len view /\ rangeBytes view off (off + len d) = d.

Lemma rangeBytes_take off n : rangeBytes view off (off + n) = take (Z.to_nat n) (drop (Z.to_nat off) view).
Proof. unfold rangeBytes. do 2 f_equal. lia. Qed.

Lemma At_app off a b : At off (a ++ b) -> At off a /\ At (off + len a) b.
Proof.
  intros (H0 & Hl & Hr). pose proof (len_nonneg a). pose proof (len_nonneg b). rewrite len_app in *.
  rewrite rangeBytes_take in Hr.
  assert (Hlen : Z.to_nat (len a + len b) = (length a + length b)%nat) by (unfold len; lia). rewrite Hlen in Hr.
  assert (Ha : take (length a) (drop (Z.to_nat off) view) = a).
  { rewrite <- (take_app_length a b) at 2. rewrite <- Hr, take_take. f_equal. lia. }
  unfold At. rewrite !rangeBytes_take. split_and!; try lia.
  - unfold len. by rewrite Nat2Z.id.
  - replace (Z.to_nat (off + len a)) with (Z.to_nat off + length a)%nat by (unfold len; lia).
    rewrite <- drop_drop. unfold len. rewrite Nat2Z.id.
    rewrite <- (drop_app_length a b) at 2. rewrite <- Hr. rewrite skipn_firstn_comm. f_equal. lia.
Qed.

Lemma At_at off x d : At off (x :: d) -> at_ view off = x.
Proof.
  intros (H0 & Hl & Hr). rewrite rangeBytes_take in Hr. unfold at_.
  destruct (drop (Z.to_nat off) view) as [|y r] eqn:Hd; [by rewrite take_nil in Hr|].
  pose proof (lookup_drop view (Z.to_nat off) 0) as Hlk. rewrite Hd, Nat.add_0_r in Hlk. cbn in Hlk. rewrite <- Hlk. cbn.
  unfold len in Hr. cbn [length] in Hr. rewrite Nat2Z.id in Hr. cbn in Hr. congruence.
Qed.

Lemma At_ensure {A} off d (k : Wire A) : At off d -> ensure view off (len d) k = k.
Proof. intros (_ & Hl & _). unfold ensure. by rewrite (proj2 (Z.ltb_ge _ _)). Qed.

Lemma At_r8 off n : 0 <= n < 256 -> At off (u8 n) -> r8 view off = Ok (n, off + len (u8 n)).
Proof.
  intros Hn H. unfold r8. change 1 with (len (u8 n)) at 1. rewrite (At_ensure off (u8 n)) by done.
  rewrite (At_at off (Z.land n 255) []) by done. by rewrite land_255, Z.mod_small.
Qed.

Lemma At_r16 off n : 0 <= n < 65536 -> At off (u16 n) -> r16 view off = Ok (n, off + len (u16 n)).
Proof.
  intros Hn H. unfold r16. change 2 with (len (u16 n)) at 1. rewrite (At_ensure off (u16 n)) by done.
  unfold u16 in H. rewrite (At_at off (Z.land (Z.shiftr n 8) 255) [Z.land n 255]) by done.
  apply (At_app off [_] [_]) in H as [_ H]. change (len [Z.land (Z.shiftr n 8) 255]) with 1 in H.
  rewrite (At_at _ _ _ H). by rewrite u16_value.
Qed.

Lemma At_r32 off n : 0 <= n < 4294967296 -> At off (u32 n) -> r32 view off = Ok (n, off + len (u32 n)).
Proof.
  intros Hn H. unfold r32. change 4 with (len (u32 n)) at 1. rewrite (At_ensure off (u32 n)) by done. unfold u32 in H.
  pose proof (At_at _ _ _ H) as H0. apply (At_app off [_] [_; _; _]) in H as [_ H].
  change (off + len [Z.land (Z.shiftr n 24) 255]) with (off + 1) in H.
  pose proof (At_at _ _ _ H) as H1. apply (At_app (off + 1) [_] [_; _]) in H as [_ H].
  change (off + 1 + len [Z.land (Z.shiftr n 16) 255]) with (off + 1 + 1) in H.
  pose proof (At_at _ _ _ H) as H2. apply (At_app (off + 1 + 1) [_] [_]) in H as [_ H].
  change (off + 1 + 1 + len [Z.land (Z.shiftr n 8) 255]) with (off + 1 + 1 + 1) in H. pose proof (At_at _ _ _ H) as H3.
  replace (off + 2) with (off + 1 + 1) by lia. replace (off + 3) with (off + 1 + 1 + 1) by lia.
  rewrite H0, H1, H2, H3. by rewrite u32_value.
Qed.

Lemma At_rbytes off d : At off d -> rbytes view (len d) off = Ok (d, off + len d).
Proof. intros H. unfold rbytes. rewrite (At_ensure off d) by done. destruct H as (_ & _ & ->). done. Qed.

(** ** Names *)

(** A label the decoder gives back: no lone surrogate and no leading byte order mark. *)
Definition plainText (l : jsstr) : bool := wellFormed l && negb (match l with c :: _ => c =? BOM | [] => false end).

Lemma plainText_decode l : plainText l = true -> utf8Decode (utf8Encode l) = l.
Proof.
  unfold plainText. intros H. bool_hyps. apply utf8Decode_encode; [done|]. intros s' ->. by rewrite Z.eqb_refl in *.
Qed.

Lemma label_bits l : 0 < l <= 63 -> (l =? 0) = false /\ (Z.land l 0xc0 =? 0xc0) = false /\ (Z.land l 0xc0 =? 0) = true.
Proof.
  intros H. assert (Hl : Z.land l 0xc0 = 0).
  { apply Z.bits_inj'. intros n Hn. rewrite Z.land_spec, Z.bits_0. destruct (Z.lt_ge_cases n 6).
    - replace (Z.testbit 0xc0 n) with false; [apply andb_false_r|].
      assert (n = 0 \/ n = 1 \/ n = 2 \/ n = 3 \/ n = 4 \/ n = 5) as H' by lia. by destruct H' as [->|[->|[->|[->|[->| ->]]]]].
    - rewrite (Z.bits_above_log2 l n); [done|lia|]. apply (Z.le_lt_trans _ 5); [|lia].
      apply Z.lt_succ_r, Z.log2_lt_pow2; cbn; lia. }
  rewrite Hl. split_and!; [apply Z.eqb_neq; lia|done|done].
Qed.

Lemma At_labels ls b steps acc off :
  encodeLabels ls = Ok b -> forallb plainText ls = true -> (length ls < steps)%nat -> At off (b ++ u8 0) ->
  nameLoop view steps acc off None = Ok (acc ++ ls, off + len b + 1).
Proof.
  revert b steps acc off. induction ls as [|l ls IH]; intros b steps acc off He Hp Hs H; cbn [encodeLabels] in He; cbv zeta in He.
  - simplify_eq. destruct steps as [|k]; [cbn in Hs; lia|]. cbn [nameLoop].
    pose proof H as (H0 & Hl & _). change (len ([] ++ u8 0)) with 1 in Hl.
    rewrite (proj2 (Z.leb_gt _ _)) by lia. rewrite (At_at off 0 []) by done. cbn -[len]. rewrite app_nil_r. do 2 f_equal. change (len (@nil Z)) with 0. lia.
  - cbn in Hp. apply andb_true_iff in Hp as [Hp Hps].
    destruct (Z.eqb_spec (len (utf8Encode l)) 0); [done|]. destruct (Z.ltb_spec 63 (len (utf8Encode l))); [done|].
    apply bindRes_ok in He as (r & Hr & He). assert (b = u8 (len (utf8Encode l)) ++ utf8Encode l ++ r) as -> by congruence. clear He. rewrite <- !app_assoc in H.
    pose proof (len_nonneg (utf8Encode l)). destruct steps as [|k]; [lia|]. cbn [nameLoop].
    pose proof H as (Hoff & Hl & _). rewrite !len_app in Hl. pose proof (len_nonneg r). change (len (u8 0)) with 1 in Hl.
    change (len (u8 (len (utf8Encode l)))) with 1 in Hl.
    rewrite (proj2 (Z.leb_gt _ _)) by lia.
    apply At_app in H as [Hu H]. apply At_app in H as [Ht H]. change (len (u8 (len (utf8Encode l)))) with 1 in *.
    rewrite (At_at off _ [] Hu). rewrite land_255, Z.mod_small by lia.
    destruct (label_bits (len (utf8Encode l)) ltac:(lia)) as (-> & -> & ->). cbn [negb].
    rewrite (proj2 (Z.ltb_ge _ _)) by lia. destruct Ht as (_ & _ & ->). rewrite plainText_decode by done.
    rewrite (IH r) by (done || (cbn in Hs; lia)). rewrite <- app_assoc. cbn [app]. do 2 f_equal. rewrite !len_app.
    change (len (u8 (len (utf8Encode l)))) with 1. lia.
Qed.

(** A name that is written and read back: at most [MAX_NAME_STEPS] labels of plain text. *)
Definition plainName (n : jsstr) : bool :=
  let labels := splitOn DOT (stripDot n) in forallb plainText labels && (length labels <=? MAX_NAME_STEPS)%nat.

Lemma At_name n b off :
  encodeName n = Ok b -> plainName n = true -> At off b -> rname_ view off = Ok (stripDot n, off + len b).
Proof.
  intros He Hp H. unfold plainName in Hp. apply andb_true_iff in Hp as [Hp Hlen]. apply Nat.leb_le in Hlen. unfold rname_, encodeName in *.
  destruct (stripDot n) as [|c t] eqn:Hn.
  - simplify_eq. rewrite (At_labels [] []) by (done || (cbn; unfold MAX_NAME_STEPS; lia)). cbn -[len]. do 2 f_equal. change (len (u8 0)) with 1. change (len (@nil Z)) with 0. lia.
  - apply bindRes_ok in He as (r & Hr & He). simplify_eq. rewrite (At_labels _ r) by (done || lia). cbn [bindRes app].
    rewrite join_split. do 2 f_equal. rewrite len_app. change (len (u8 0)) with 1. lia.
Qed.

(** ** Record data *)

Lemma At_chunks cs b fuel acc off :
  encodeChunks cs = Ok b -> forallb plainText cs = true -> (length cs <= fuel)%nat -> At off b ->
  txtLoop view fuel acc off (off + len b) = Ok (acc ++ cs).
Proof.
  revert b fuel acc off. induction cs as [|c cs IH]; intros b fuel acc off He Hp Hf H; cbn [encodeChunks] in He; cbv zeta in He.
  - simplify_eq. rewrite app_nil_r. change (len (@nil Z)) with 0. destruct fuel; cbn; by rewrite (proj2 (Z.ltb_ge _ _)) by lia.
  - cbn in Hp. apply andb_true_iff in Hp as [Hp Hps]. destruct (Z.ltb_spec 255 (len (utf8Encode c))); [done|].
    apply bindRes_ok in He as (r & Hr & He).
    assert (b = u8 (len (utf8Encode c)) ++ utf8Encode c ++ r) as -> by congruence. clear He.
    pose proof (len_nonneg (utf8Encode c)). pose proof (len_nonneg r). destruct fuel as [|k]; [cbn in Hf; lia|]. cbn [txtLoop].
    rewrite !len_app. change (len (u8 (len (utf8Encode c)))) with 1. rewrite (proj2 (Z.ltb_lt _ _)) by lia.
    apply At_app in H as [Hu H]. apply At_app in H as [Ht H].
    rewrite (At_r8 _ (len (utf8Encode c)) ltac:(lia) Hu). cbn [bindRes]. rewrite (At_rbytes _ _ Ht). cbn [bindRes]. rewrite plainText_decode by done.
    change (len (u8 (len (utf8Encode c)))) with 1 in *.
    replace (off + (1 + (len (utf8Encode c) + len r))) with (off + 1 + len (utf8Encode c) + len r) by lia.
    rewrite (IH r) by (done || (cbn in Hf; lia)). by rewrite <- app_assoc.
Qed.

Lemma encodeChunks_length cs b : encodeChunks cs = Ok b -> (length cs <= length b)%nat.
Proof.
  revert b. induction cs as [|c cs IH]; intros b He; cbn [encodeChunks] in He; cbv zeta in He; [cbn; lia|].
  destruct (255 <? _); [done|]. apply bindRes_ok in He as (r & Hr & He). simplify_eq. cbn. rewrite length_app.
  specialize (IH _ Hr). lia.
Qed.
End At.

(** The type code a record of this data has. *)
Definition typeOf (d : RData) : Z :=
  match d with
  | DA _ => RR_A | DAAAA _ => RR_AAAA | DNS _ => RR_NS | DCNAME _ => RR_CNAME | DPTR _ => RR_PTR
  | DMX _ _ => RR_MX | DTXT _ _ => RR_TXT | DSOA _ => RR_SOA | DDS _ _ _ _ => RR_DS | DDNSKEY _ _ _ _ => RR_DNSKEY
  | DRRSIG _ => RR_RRSIG | DTLSA _ _ _ _ => RR_TLSA | DUNKNOWN t _ => t
  end.

Definition knownTypes : list Z :=
  [RR_A; RR_NS; RR_CNAME; RR_SOA; RR_PTR; RR_MX; RR_TXT; RR_AAAA; RR_DS; RR_RRSIG; RR_DNSKEY; RR_TLSA].

Definition isU16 (n : Z) : bool := (0 <=? n) && (n <? 65536).
Definition isU32 (n : Z) : bool := (0 <=? n) && (n <? 4294967296).

(** Data whose fields fit the wire, of the kinds the encoder has a case for. *)
Definition plainRdata (d : RData) : bool :=
  match rdataBytes d with Ok (Some b) => len b <? 65536 | _ => false end &&
  match d with
  | DNS t | DCNAME t | DPTR t => plainName t
  | DMX p x => isU16 p && plainName x
  | DTXT _ cs => forallb plainText cs
  | DSOA s => plainName (mname s) && plainName (rname s) && isU32 (serial s) && isU32 (soaRefresh s) &&
              isU32 (soaRetry s) && isU32 (soaExpire s) && isU32 (minimum s)
  | DUNKNOWN t data => negb (existsb (Z.eqb t) knownTypes) && forallb (fun x => (0 <=? x) && (x <? 256)) data
  | _ => true
  end.

(** The data as the decoder writes it: names without the final dot, addresses in the form of
    [formatIpv4] and [formatIpv6], the text of a TXT record the chunks put together. *)
Definition canonRdata (d : RData) : RData :=
  match d with
  | DA a => match parseIpv4 a with Ok b => DA (formatIpv4 b) | _ => d end
  | DAAAA a => match parseIpv6 a with Ok b => DAAAA (formatIpv6 b) | _ => d end
  | DNS t => DNS (stripDot t)
  | DCNAME t => DCNAME (stripDot t)
  | DPTR t => DPTR (stripDot t)
  | DMX p x => DMX p (stripDot x)
  | DTXT _ cs => DTXT (concat cs) cs
  | DSOA s => DSOA {| mname := stripDot (mname s); rname := stripDot (rname s); serial := serial s; soaRefresh := soaRefresh s;
                      soaRetry := soaRetry s; soaExpire := soaExpire s; minimum := minimum s |}
  | _ => d
  end.

Lemma isU16_range n : isU16 n = true -> 0 <= n < 65536.
Proof. unfold isU16. intros H. bool_hyps. lia. Qed.
Lemma isU32_range n : isU32 n = true -> 0 <= n < 4294967296.
Proof. unfold isU32. intros H. bool_hyps. lia. Qed.

#[local] Hint Resolve isU16_range isU32_range : wire.

(** Reads the field whose bytes stand where [H] says. *)
Ltac rd_at H :=
  match type of H with
  | At ?v ?o (u16 ?n) => rewrite (At_r16 v o n) by eauto with wire
  | At ?v ?o (u32 ?n) => rewrite (At_r32 v o n) by eauto with wire
  | At ?v ?o ?b => match goal with Hn : encodeName ?n = Ok b |- _ => rewrite (At_name v n b o Hn) by done end
  end; cbn [bindRes].

(** The same for the first of several fields. *)
Ltac rd_field H := let H1 := fresh "Hf" in apply At_app in H as [H1 H]; rd_at H1.

Lemma parseIpv4_len s b : parseIpv4 s = Ok b -> len b = 4.
Proof.
  unfold parseIpv4. intros H. repeat (case_match; try done). by simplify_eq.
Qed.

Lemma ipv6Bytes_len gs b : ipv6Bytes gs = Ok b -> len b = 2 * len gs.
Proof.
  revert b. induction gs as [|g gs IH]; intros b H; cbn in H; [by simplify_eq|].
  destruct (parseInt16 g); [|done]. destruct (_ || _); [done|]. apply bindRes_ok in H as (r & Hr & H). simplify_eq.
  apply IH in Hr. unfold len in *. cbn [length]. lia.
Qed.

Lemma parseIpv6_len s b : parseIpv6 s = Ok b -> len b = 16.
Proof.
  unfold parseIpv6. intros H. apply bindRes_ok in H as (gs & _ & H). destruct (Nat.eqb_spec (length gs) 8) as [E|]; [|done].
  apply ipv6Bytes_len in H. rewrite H. unfold len. rewrite E. done.
Qed.

Lemma landBytes_id data : forallb (fun x => (0 <=? x) && (x <? 256)) data = true -> map (fun x => Z.land x 255) data = data.
Proof.
  induction data as [|x data IH]; cbn; [done|]. intros H. bool_hyps. rewrite IH by done. rewrite land_255, Z.mod_small by lia. done.
Qed.

Lemma decode_unknown view t rdlength off : existsb (Z.eqb t) knownTypes = false ->
  decodeRdata view t rdlength off = (let* (data, off) := rbytes view rdlength off in Ok (DUNKNOWN t data, off))%js.
Proof.
  intros H. cbn [existsb knownTypes] in H. rewrite !orb_false_iff in H. unfold decodeRdata.
  destruct H as (Ha & Hb & Hc & Hd & He & Hf & Hg & Hh & Hi & Hj & Hk & Hl & _).
  by rewrite Ha, Hb, Hc, Hd, He, Hf, Hg, Hh, Hi, Hj, Hk, Hl.
Qed.

(** Takes the branch of [decodeRdata] of a constant type. *)
Ltac rdata_kind :=
  unfold decodeRdata; cbn [typeOf];
  repeat match goal with
  | |- context [?a =? ?b] => let v := eval vm_compute in (a =? b) in
      match v with true => idtac | false => idtac end; change (a =? b) with v; cbv iota
  end.

Lemma At_rdata view d b off :
  rdataBytes d = Ok (Some b) -> plainRdata d = true -> At view off b ->
  decodeRdata view (typeOf d) (len b) off = Ok (canonRdata d, off + len b).
Proof.
  intros He Hp H. unfold plainRdata in Hp. rewrite He in Hp. apply andb_true_iff in Hp as [_ Hp].
  destruct d as [a|a|t|t|t|p x|txt cs|s|? ? ? ?|? ? ? ?|?|? ? ? ?|t data]; cbn [rdataBytes] in He; try done; cbn [canonRdata].
  1-5: apply bindRes_ok in He as (r & Hr & He); assert (b = r) as -> by congruence; rdata_kind.
  - rewrite (At_rbytes _ _ _ H), Hr. cbn [bindRes]. by rewrite (parseIpv4_len _ _ Hr).
  - rewrite (At_rbytes _ _ _ H), Hr. cbn [bindRes]. by rewrite (parseIpv6_len _ _ Hr).
  - by rd_at H.
  - by rd_at H.
  - by rd_at H.
  - apply bindRes_ok in He as (r & Hr & He). assert (b = u16 p ++ r) as -> by congruence. clear He. bool_hyps. rdata_kind.
    rd_field H. by rd_at H.
  - apply bindRes_ok in He as (r & Hr & He). assert (b = r) as -> by congruence. clear He. rdata_kind.
    rewrite (At_chunks view cs r) by (done || (unfold len; rewrite Nat2Z.id; by apply encodeChunks_length)). done.
  - apply bindRes_ok in He as (m & Hm & He). apply bindRes_ok in He as (r & Hr & He).
    match type of He with Ok (Some ?w) = _ => assert (b = w) as -> by congruence end. clear He. bool_hyps. rdata_kind.
    do 6 rd_field H. by rd_at H.
  - bool_hyps. assert (b = data) as -> by (rewrite landBytes_id in He by done; congruence). cbn [typeOf].
    rewrite decode_unknown by done. by rewrite (At_rbytes _ _ _ H).
Qed.

(** ** Messages *)

Definition plainQuestion (q : DnsQuestion) : bool := plainName (q_name q) && isU16 (q_type q) && isU16 (q_class q).
Definition plainRecord (r : DnsRecord) : bool :=
  plainName (r_name r) && (r_type r =? typeOf (rdata r)) && isU16 (r_type r) && isU16 (r_class r) && isU32 (ttl r) &&
  plainRdata (rdata r).
Definition plainHeader (h : DnsHeader) : bool :=
  isU16 (id h) && (0 <=? opcode h) && (opcode h <? 16) && (0 <=? rcode h) && (rcode h <? 16).
Definition plainMessage (m : DnsMessage) : bool :=
  plainHeader (header m) && forallb plainQuestion (questions m) && forallb plainRecord (answers m) &&
  forallb plainRecord (authorities m) && forallb plainRecord (additionals m) &&
  isU16 (len (questions m)) && isU16 (len (answers m)) && isU16 (len (authorities m)) && isU16 (len (additionals m)).

Definition canonQuestion (q : DnsQuestion) : DnsQuestion :=
  {| q_name := stripDot (q_name q); q_type := q_type q; q_class := q_class q |}.
Definition canonRecord (r : DnsRecord) : DnsRecord :=
  {| r_name := stripDot (r_name r); r_type := r_type r; r_class := r_class r; ttl := ttl r; rdata := canonRdata (rdata r) |}.
Definition canonMessage (m : DnsMessage) : DnsMessage :=
  {| header := header m; questions := map canonQuestion (questions m); answers := map canonRecord (answers m);
     authorities := map canonRecord (authorities m); additionals := map canonRecord (additionals m) |}.

Section Messages.
Context (view : bytes).

Lemma At_question q b off :
  encodeQuestion q = Ok b -> plainQuestion q = true -> At view off b ->
  decodeQuestion view off = Ok (canonQuestion q, off + len b).
Proof.
  unfold encodeQuestion, plainQuestion, decodeQuestion. intros He Hp H. bool_hyps. apply bindRes_ok in He as (n & Hn & He).
  match type of He with Ok ?w = _ => assert (b = w) as -> by congruence end. clear He.
  do 2 rd_field H. rd_at H. rewrite !len_app. do 2 f_equal. lia.
Qed.

Lemma At_record r b off :
  encodeRecord r = Ok b -> plainRecord r = true -> At view off b ->
  decodeRecord view off = Ok (canonRecord r, off + len b).
Proof.
  unfold encodeRecord, plainRecord, decodeRecord. intros He Hp H. bool_hyps.
  apply bindRes_ok in He as (n & Hn & He). apply bindRes_ok in He as (d & Hd & He). unfold encodeRdata in Hd.
  apply bindRes_ok in Hd as (ob & Hob & Hd).
  assert (Hs : exists w, ob = Some w /\ len w < 65536).
  { unfold plainRdata in *. rewrite Hob in *. destruct ob as [w|]; bool_hyps; [|done]. exists w. split; [done|lia]. }
  destruct Hs as (w & -> & Hw). match type of He with Ok ?x = _ => assert (b = x) as -> by congruence end.
  assert (d = u16 (len w) ++ w) as -> by congruence. clear He Hd. pose proof (len_nonneg w).
  do 4 rd_field H. apply At_app in H as [Hl H]. rewrite (At_r16 view _ (len w)) by (done || lia). cbn [bindRes].
  match goal with Ht : r_type r = _ |- _ => rewrite Ht at 1 end. rewrite (At_rdata view (rdata r) w) by done. cbn [bindRes].
  rewrite !len_app. do 2 f_equal. lia.
Qed.

Lemma At_all {A} (enc : A -> Wire bytes) (dec : Z -> Wire (A * Z)) (plain : A -> bool) (canon : A -> A) l b off :
  (forall x w o, enc x = Ok w -> plain x = true -> At view o w -> dec o = Ok (canon x, o + len w)) ->
  encodeAll enc l = Ok b -> forallb plain l = true -> At view off b ->
  decodeMany dec (length l) off = Ok (map canon l, off + len b).
Proof.
  intros Hd. revert b off. induction l as [|x l IH]; intros b off He Hp H; cbn [encodeAll] in He.
  - simplify_eq. cbn -[len]. change (len (@nil Z)) with 0. by rewrite Z.add_0_r.
  - cbn in Hp. bool_hyps. apply bindRes_ok in He as (w & Hw & He). apply bindRes_ok in He as (r & Hr & He).
    match type of He with Ok ?x = _ => assert (b = x) as -> by congruence end. clear He.
    apply At_app in H as [Hx H]. cbn [decodeMany length]. rewrite (Hd x w) by done. cbn [bindRes].
    rewrite (IH r) by done. cbn -[len]. rewrite len_app. do 2 f_equal. lia.
Qed.
End Messages.

(** The header of each of the 8192 combinations of flags, operation and response codes. *)
Definition flagsOk (op rc : Z) (f : bool * bool * bool * bool * bool) : bool :=
  let '(qr, aa, tc, rd, ra) := f in
  let h := {| id := 0; qr := qr; opcode := op; aa := aa; tc := tc; rd := rd; ra := ra; rcode := rc |} in
  let h' := headerOf 0 (headerFlags h) in
  isU16 (headerFlags h) && eqb (Dns.qr h') qr && (opcode h' =? op) && eqb (Dns.aa h') aa && eqb (Dns.tc h') tc &&
  eqb (Dns.rd h') rd && eqb (Dns.ra h') ra && (rcode h' =? rc).

Lemma flags_checked : forallb (fun op => forallb (fun rc =>
    forallb (fun a => forallb (fun b => forallb (fun c => forallb (fun d => forallb (fun e =>
      flagsOk (Z.of_nat op) (Z.of_nat rc) (a, b, c, d, e)) [true; false]) [true; false]) [true; false]) [true; false])
      [true; false]) (seq 0 16)) (seq 0 16) = true.
Proof. vm_compute. reflexivity. Qed.

Lemma headerFlags_roundtrip h : plainHeader h = true -> isU16 (headerFlags h) = true /\ headerOf (id h) (headerFlags h) = h.
Proof.
  unfold plainHeader. destruct h as [i a op b c d e rc]. cbn [id opcode rcode]. intros H. bool_hyps.
  pose proof flags_checked as Hc. rewrite forallb_forall in Hc.
  specialize (Hc (Z.to_nat op) ltac:(apply in_seq; lia)). rewrite forallb_forall in Hc.
  specialize (Hc (Z.to_nat rc) ltac:(apply in_seq; lia)). rewrite !Z2Nat.id in Hc by lia.
  assert (Hf : flagsOk op rc (a, b, c, d, e) = true).
  { cbn [forallb] in Hc. bool_hyps. by destruct a, b, c, d, e. }
  unfold flagsOk in Hf. cbv zeta in Hf. unfold headerFlags in *. cbn [qr opcode aa tc rd ra rcode] in *.
  bool_hyps. split; [done|]. unfold headerOf in *. cbn [qr opcode aa tc rd ra rcode] in *.
  rewrite !eqb_true_iff in *. congruence.
Qed.

(** C35: a message that encodes is decoded from its bytes to the same message, in the decoder's
    form: the header with every flag, the four sections with their records in order, each name
    without its final dot, each address written anew from its octets.  The conditions are that the
    numbers fit their fields, that names have at most 128 labels of text without lone surrogates
    or a leading byte order mark, and that the data is of a kind the encoder writes. *)
Theorem dns_message_roundtrip m b :
  encodeMessage m = Ok b -> plainMessage m = true -> decodeMessage b = Ok (canonMessage m).
Proof.
  unfold encodeMessage, plainMessage, decodeMessage. intros He Hp. bool_hyps.
  apply bindRes_ok in He as (qs & Hqs & He). apply bindRes_ok in He as (an & Han & He).
  apply bindRes_ok in He as (ns & Hns & He). apply bindRes_ok in He as (ar & Har & He).
  match type of He with Ok ?w = _ => assert (b = w) as Hb by congruence end. clear He.
  assert (HA : At b 0 b).
  { unfold At, rangeBytes. split_and!; [lia|lia|]. unfold len. rewrite drop_0, take_ge; [done|lia]. }
  rewrite Hb in HA at 2. clear Hb.
  destruct (headerFlags_roundtrip (header m)) as [Hf Hh]; [done|].
  assert (0 <= id (header m) < 65536) by (unfold plainHeader in *; bool_hyps; eauto with wire).
  do 6 rd_field HA. unfold len. rewrite !Nat2Z.id. fold (@len Z).
  apply At_app in HA as [Hq HA]. apply At_app in HA as [Ha HA]. apply At_app in HA as [Hn HA].
  rewrite (At_all b encodeQuestion (decodeQuestion b) plainQuestion canonQuestion _ qs) by eauto using At_question. cbn [bindRes].
  rewrite (At_all b encodeRecord (decodeRecord b) plainRecord canonRecord _ an) by eauto using At_record. cbn [bindRes].
  rewrite (At_all b encodeRecord (decodeRecord b) plainRecord canonRecord _ ns) by eauto using At_record. cbn [bindRes].
  rewrite (At_all b encodeRecord (decodeRecord b) plainRecord canonRecord _ ar) by eauto using At_record. cbn [bindRes].
  by rewrite Hh.
Qed.

(** An MX answer with its address and a text record. *)
Definition mxAnswer : DnsMessage :=
  {| header := {| id := 0xbeef; qr := true; opcode := 0; aa := true; tc := false; rd := true; ra := true; rcode := 0 |};
     questions := [{| q_name := js "example.org."; q_type := RR_MX; q_class := RRClass_IN |}];
     answers := [{| r_name := js "example.org."; r_type := RR_MX; r_class := RRClass_IN; ttl := 300; rdata := DMX 10 (js "mx.example.org") |}];
     authorities := [];
     additionals := [{| r_name := js "mx.example.org"; r_type := RR_AAAA; r_class := RRClass_IN; ttl := 60; rdata := DAAAA (js "2001:0DB8:0:0::25") |};
                     {| r_name := js "example.org"; r_type := RR_TXT; r_class := RRClass_IN; ttl := 60; rdata := DTXT [] [js "v=spf1 "; js "mx -all"] |}] |}.

Lemma dns_message_roundtrip_witness : exists b,
  encodeMessage mxAnswer = Ok b /\ plainMessage mxAnswer = true /\ decodeMessage b = Ok (canonMessage mxAnswer) /\
  rdata <$> additionals (canonMessage mxAnswer) !! 0%nat = Some (DAAAA (js "2001:db8::25")).
Proof.
  destruct (encodeMessage mxAnswer) as [b|e|] eqn:He; [|vm_compute in He; discriminate He|vm_compute in He; discriminate He].
  exists b. assert (Hp : plainMessage mxAnswer = true) by (vm_compute; reflexivity).
  split; [reflexivity|]. split; [exact Hp|]. split; [exact (dns_message_roundtrip mxAnswer b He Hp)|]. vm_compute. reflexivity.
Defined.

(** ** Arbitrary input *)

Section Bounds.
Context (view : bytes) (Hview : is_bytes view).

Lemma at_byte i : 0 <= at_ view i < 256.
Proof.
  unfold at_. destruct (view !! Z.to_nat i) as [x|] eqn:Hx; cbn; [|lia].
  pose proof (proj1 (Forall_lookup _ _) Hview _ _ Hx) as Hb. unfold is_byte in Hb. lia.
Qed.

(** A label is the text of a slice of at most 63 bytes. *)
Definition shortLabel (l : jsstr) : Prop := exists from to, to - from <= 63 /\ l = utf8Decode (rangeBytes view from to).

(** Where reading goes on: after [off], inside the buffer. *)
Definition nextOk (off pos : Z) (next : option Z) : Prop :=
  match next with None => off <= pos | Some p => off < p <= len view end.

Lemma label_63 l : Z.land l 0xc0 = 0 -> 0 <= l < 256 -> l <= 63.
Proof.
  intros H Hl. destruct (Z.le_gt_cases l 63); [done|]. exfalso.
  assert (Hc : forallb (fun n => negb (Z.land (Z.of_nat n) 0xc0 =? 0)) (seq 64 192) = true) by (vm_compute; reflexivity).
  rewrite forallb_forall in Hc. specialize (Hc (Z.to_nat l) ltac:(apply in_seq; lia)).
  rewrite Z2Nat.id, H in Hc by lia. done.
Qed.

Lemma nameLoop_bounds off steps acc pos next :
  Forall shortLabel acc -> nextOk off pos next -> 0 <= off ->
  okRes (nameLoop view steps acc pos next) (fun r =>
    off < r.2 <= len view /\ Forall shortLabel r.1 /\ (length r.1 < length acc + steps)%nat).
Proof.
  revert acc pos next. induction steps as [|k IH]; intros acc pos next Ha Hn H0; cbn [nameLoop]; [done|].
  destruct (Z.leb_spec (len view) pos); [done|]. pose proof (at_byte pos) as Hl.
  destruct (Z.eqb_spec (at_ view pos) 0); [cbn; split_and!; [|..|lia]; try done; destruct next; cbn in *; lia|].
  destruct (Z.land (at_ view pos) 0xc0 =? 0xc0) eqn:Hp.
  { destruct (Z.leb_spec (len view) (pos + 1)); [done|].
    eapply okRes_impl; [apply IH; [done| |done]|]; [destruct next; cbn in *; lia|]. cbn. intros r (Hr & Hf & Hs). split_and!; [..|lia]; done || lia. }
  destruct (Z.eqb_spec (Z.land (at_ view pos) 0xc0) 0) as [Hz|]; [|done]. cbn [negb].
  destruct (Z.ltb_spec (len view) (pos + 1 + at_ view pos)); [done|].
  pose proof (label_63 _ Hz ltac:(lia)).
  eapply okRes_impl; [apply IH; [| |done]|].
  - apply Forall_app. split; [done|]. constructor; [|constructor]. exists (pos + 1), (pos + 1 + at_ view pos). split; [lia|done].
  - destruct next; cbn in *; lia.
  - cbn. intros r (Hr & Hf & Hs). rewrite length_app in Hs. cbn in Hs. split_and!; [..|lia]; done || lia.
Qed.

(** ** Reads from arbitrary bytes *)

Lemma ensure_ok {A} off n (k : Wire A) Q : (off + n <= len view -> okRes k Q) -> okRes (ensure view off n k) Q.
Proof. unfold ensure. intros H. destruct (Z.ltb_spec (len view) (off + n)); [done|]. apply H. lia. Qed.

Lemma r8_ok off : okRes (r8 view off) (fun r => r.2 = off + 1 /\ off + 1 <= len view /\ 0 <= r.1).
Proof. apply ensure_ok. intros H. cbn. pose proof (at_byte off). split_and!; lia. Qed.

Lemma r16_ok off : okRes (r16 view off) (fun r => r.2 = off + 2 /\ off + 2 <= len view /\ 0 <= r.1).
Proof.
  apply ensure_ok. intros H. cbn. split_and!; try lia. pose proof (at_byte off). pose proof (at_byte (off + 1)).
  apply Z.lor_nonneg. rewrite Z.shiftl_nonneg. lia.
Qed.

Lemma r32_ok off : okRes (r32 view off) (fun r => r.2 = off + 4 /\ off + 4 <= len view).
Proof. apply ensure_ok. intros H. cbn. split; lia. Qed.

Lemma rbytes_ok n off : okRes (rbytes view n off) (fun r => r.2 = off + n).
Proof. apply ensure_ok. done. Qed.

Lemma rname_ok off : 0 <= off -> okRes (rname_ view off) (fun r =>
  off < r.2 <= len view /\ exists labels, r.1 = joinWith [DOT] labels /\ (length labels <= MAX_NAME_STEPS)%nat /\ Forall shortLabel labels).
Proof.
  intros H. unfold rname_. eapply okRes_bind; [apply (nameLoop_bounds off); cbn; [constructor|lia|lia]|].
  intros [labels next] (Hn & Hf & Hl). cbn in *. split; [done|]. exists labels. split_and!; [done|lia|done].
Qed.

(** One read of a decoder: the goal is left for its continuation. *)
Ltac rd_step :=
  first [eapply okRes_bind; [first [apply r8_ok | apply r16_ok | apply r32_ok | apply rbytes_ok | apply rname_ok; lia]|];
         let x := fresh "x" in let o := fresh "o" in intros [x o] ?; cbn [fst snd] in *; cbv beta iota; destruct_and?
        | done ].

Lemma txtLoop_ok fuel acc off end_ : (Z.to_nat (end_ - off) <= fuel)%nat -> okRes (txtLoop view fuel acc off end_) (fun _ => True).
Proof.
  revert acc off. induction fuel as [|k IH]; intros acc off H; cbn [txtLoop]; destruct (Z.ltb_spec off end_); try done; [lia|].
  rd_step. rd_step. apply IH. lia.
Qed.

Lemma decodeRdata_ok type rdlength off : 0 <= off -> 0 <= rdlength ->
  okRes (decodeRdata view type rdlength off) (fun r => r.2 = off + rdlength).
Proof.
  intros H0 H. unfold decodeRdata.
  repeat match goal with |- context [if ?a =? ?b then _ else _] => destruct (a =? b) end;
    try (destruct (rdlength <? _); [done|]); repeat rd_step; cbn; try lia.
  - destruct (negb _); [done|]. cbn. lia.
  - destruct (negb _); [done|]. cbn. lia.
  - eapply okRes_bind; [apply txtLoop_ok; lia|]. done.
Qed.

Lemma decodeRecord_ok off : 0 <= off -> okRes (decodeRecord view off) (fun r => off + 11 <= r.2 /\ off + 11 <= len view).
Proof.
  intros H. unfold decodeRecord. do 5 rd_step. eapply okRes_bind; [apply decodeRdata_ok; lia|].
  intros [d o'] Ho. cbn in *. lia.
Qed.

Lemma decodeQuestion_ok off : 0 <= off -> okRes (decodeQuestion view off) (fun r => off + 5 <= r.2 /\ off + 5 <= len view).
Proof. intros H. unfold decodeQuestion. repeat rd_step. cbn. lia. Qed.

Lemma decodeMany_ok {A} (f : Z -> Wire (A * Z)) c n e off :
  (forall o, 0 <= o -> okRes (f o) (fun r => o + c <= r.2 /\ o + c <= len view)) ->
  0 <= c -> 0 <= e <= off -> e <= len view ->
  okRes (decodeMany f n off) (fun r => e + c * len r.1 <= r.2 /\ e + c * len r.1 <= len view).
Proof.
  intros Hf Hc. revert e off. induction n as [|n IH]; intros e off He Hl; cbn [decodeMany]; [unfold len in *; cbn; lia|].
  eapply okRes_bind; [apply Hf; lia|]. intros [x o] Ho. cbn [fst snd] in Ho.
  eapply okRes_bind; [apply (IH (e + c) o); lia|]. intros [xs o'] Ho'. cbn [fst snd] in *. cbn.
  unfold len in *. cbn [length]. lia.
Qed.

Lemma decodeMessage_ok : okRes (decodeMessage view) (fun m =>
  12 + 5 * len (questions m) + 11 * (len (answers m) + len (authorities m) + len (additionals m)) <= len view).
Proof.
  unfold decodeMessage. do 6 rd_step.
  eapply okRes_bind; [apply (decodeMany_ok _ 5 _ 12); [apply decodeQuestion_ok|lia|lia|lia]|].
  intros [qs e1] Hq; cbn [fst snd] in Hq; cbv beta iota. pose proof (len_nonneg qs).
  eapply okRes_bind; [apply (decodeMany_ok _ 11 _ (12 + 5 * len qs)); [apply decodeRecord_ok|lia|lia|lia]|].
  intros [an e2] Ha; cbn [fst snd] in Ha; cbv beta iota. pose proof (len_nonneg an).
  eapply okRes_bind; [apply (decodeMany_ok _ 11 _ (12 + 5 * len qs + 11 * len an)); [apply decodeRecord_ok|lia|lia|lia]|].
  intros [ns e3] Hn; cbn [fst snd] in Hn; cbv beta iota. pose proof (len_nonneg ns).
  eapply okRes_bind; [apply (decodeMany_ok _ 11 _ (12 + 5 * len qs + 11 * len an + 11 * len ns)); [apply decodeRecord_ok|lia|lia|lia]|].
  intros [ar e4] Hr; cbn [fst snd] in Hr; cbv beta iota. cbn [okRes questions answers authorities additionals]. lia.
Qed.
End Bounds.

(** Decoding any bytes ends, with a message or an error, however its compression pointers
    loop; a message it gives has no more entries than the buffer has room for their fixed
    fields, whatever the counts of the header promise. *)
Theorem dns_decode_total view : is_bytes view ->
  decodeMessage view <> Fuel /\
  forall m, decodeMessage view = Ok m ->
    12 + 5 * len (questions m) + 11 * (len (answers m) + len (authorities m) + len (additionals m)) <= len view.
Proof.
  intros H. pose proof (decodeMessage_ok view H) as Hm. destruct (decodeMessage view) as [m|e|]; cbn in Hm; [|done|done].
  split; [done|]. intros m' [= <-]. exact Hm.
Qed.

(** A name read from any bytes, its pointers followed, has at most 128 labels, each the text
    of a slice of at most 63 bytes, and reading goes on behind the name and inside the buffer. *)
Theorem dns_name_bounded view off n next : is_bytes view -> 0 <= off ->
  rname_ view off = Ok (n, next) ->
  off < next <= len view /\
  exists labels, n = joinWith [DOT] labels /\ (length labels <= MAX_NAME_STEPS)%nat /\ Forall (shortLabel view) labels.
Proof. intros Hv H0 Hr. pose proof (rname_ok view Hv off H0) as H. by rewrite Hr in H. Qed.

(** Twelve bytes of header, then [mail.example] and a name that points into it. *)
Definition pointerView : bytes := replicate 12 0 ++ [4; 109; 97; 105; 108; 7; 101; 120; 97; 109; 112; 108; 101; 0] ++ [3; 102; 116; 112; 192; 17].

Lemma pointerView_bytes : is_bytes pointerView.
Proof. unfold is_bytes. repeat constructor; cbn; lia. Defined.

Lemma dns_name_bounded_witness :
  rname_ pointerView 26 = Ok (js "ftp.example", 32) /\ 26 < 32 <= len pointerView.
Proof.
  assert (H : rname_ pointerView 26 = Ok (js "ftp.example", 32)) by (vm_compute; reflexivity).
  split; [exact H|]. exact (proj1 (dns_name_bounded pointerView 26 _ _ pointerView_bytes ltac:(lia) H)).
Defined.

(** A name that points to itself. *)
Definition loopView : bytes := [0; 1; 0; 0; 0; 1; 0; 0; 0; 0; 0; 0; 192; 12; 0; 1; 0; 1].

Lemma dns_decode_total_witness : decodeMessage loopView = Err NameLoop /\ decodeMessage loopView <> Fuel.
Proof.
  split; [vm_compute; reflexivity|]. refine (proj1 (dns_decode_total loopView _)). unfold is_bytes. repeat constructor; cbn; lia.
Defined.
