(* ===== verification/ManageSieve.v ===== *)
(** * The ManageSieve engine (packages/proto-managesieve/src/engine.ts)

    The state machine of RFC 5804 on top of the IMAP line reader and the SASL and SCRAM code it
    shares with the other protocols.  The adapter feeds bytes, performs the actions and answers
    each request of the engine with one of the [...Result] calls; lines that arrive while a
    request is open are queued. *)

From S2P Require Import Prelude JsString Text Sasl Scram JsNumber ImapReader.

(** ** Data *)

(** [ManageSieveEngineOptions] after the constructor's defaults; [nonces] is the randomness the
    SCRAM sessions draw. *)
Record Config := mkConfig {
  hostname : jsstr;
  initiallySecure : bool;
  allowInsecureAuth : bool;
  tlsAvailable : bool;
  scramOffered : bool;
  scramDecoySecret : bytes;
  maxScriptBytes : Z;
  nonces : nat -> bytes
}.

Inductive SaslMech := PLAIN | SCRAM_SHA_256.
Inductive ScramStage := ClientFirst | ClientFinal | ServerFinal.

Inductive Pending :=
| PAuth (sasl : SaslMech)
| PScramKeys
| PAuthLine (sasl : SaslMech)
| PPutScript (name : jsstr)
| PCheckScript
| PList
| PGet (name : jsstr)
| POp.

Inductive Action :=
| AReply (text : jsstr)
| AReplyBytes (bs : bytes)
| AClose
| AStartTls
| AAuth (user pass : jsstr)
| AScramKeys (user : jsstr)
| AAuthVerified (user : jsstr)
| AAuthFailed (user : option jsstr)
| APutScript (name content : jsstr)
| ACheckScript (content : jsstr)
| AListScripts
| AGetScript (name : jsstr)
| ADeleteScript (name : jsstr)
| ARenameScript (from to : jsstr)
| ASetActive (name : jsstr).

(** A word of a command: its text, and the bytes of a literal. *)
Record Value := mkValue { v_text : jsstr; v_bytes : option bytes }.

Inductive OpResult := OpOk | OpFail (code : option jsstr) (message : jsstr).

Definition SUPPORTED_EXTENSION_LIST : list jsstr :=
  map js ["fileinto"; "envelope"; "imap4flags"; "copy"; "reject"; "ereject"; "vacation"; "mailbox"; "subaddress"; "body";
          "relational"; "date"; "spamtest"; "comparator-i;ascii-numeric"; "include"; "variables"; "regex"]%string.

Definition QUOTE : Z := 34.
Definition BACKSLASH : Z := 92.

(** [""] on the line *)
Definition emptyQuoted : jsstr := [QUOTE; QUOTE].

Definition quoted (s : jsstr) : jsstr := [QUOTE] ++ s ++ [QUOTE].

(** A backslash before each backslash and each quote. *)
Definition escape (s : jsstr) : jsstr := flat_map (fun c => if (c =? BACKSLASH) || (c =? QUOTE) then [BACKSLASH; c] else [c]) s.
#[global] Arguments escape : simpl never.

Definition quote (s : jsstr) : jsstr := quoted (escape s).

(** A status word and a quoted text. *)
Definition status (word text : string) : Action := AReply (js word ++ [SP] ++ quoted (js text)).
Definition no (text : string) : Action := status "NO" text.
Definition ok (text : string) : Action := status "OK" text.

Definition CAP_LINES (authAllowed starttlsOffered scramOffered : bool) : list jsstr :=
  [quoted (js "IMPLEMENTATION") ++ [SP] ++ quoted (js "ionosphere ManageSieve");
   quoted (js "SIEVE") ++ [SP] ++ quoted (joinWith [SP] SUPPORTED_EXTENSION_LIST);
   quoted (js "VERSION") ++ [SP] ++ quoted (js "1.0")] ++
  (if starttlsOffered then [quoted (js "STARTTLS")] else []) ++
  [quoted (js "SASL") ++ [SP] ++
   (if authAllowed then quoted (js (if scramOffered then "SCRAM-SHA-256 PLAIN" else "PLAIN")) else emptyQuoted)].

(** ** Words of a line *)

Inductive WordState := Between | InQuoted (val : jsstr) | InAtom (val : jsstr).

Definition isBlank (c : Z) : bool := (c =? SP) || (c =? 9).

(** The loop of [parseParts] over a piece of text. *)
Fixpoint textWords (st : WordState) (s : jsstr) : list jsstr :=
  match st, s with
  | Between, [] => []
  | InQuoted v, [] | InAtom v, [] => [v]
  | Between, c :: r =>
      if isBlank c then textWords Between r
      else if c =? QUOTE then textWords (InQuoted []) r
      else textWords (InAtom [c]) r
  | InQuoted v, c :: r =>
      if c =? QUOTE then v :: textWords Between r
      else if c =? BACKSLASH then
        match r with [] => [v] | e :: r' => textWords (InQuoted (v ++ [e])) r' end
      else textWords (InQuoted (v ++ [c])) r
  | InAtom v, c :: r => if isBlank c then v :: textWords Between r else textWords (InAtom (v ++ [c])) r
  end.

Definition partValues (p : LinePart) : list Value :=
  match p with
  | PLiteral bs => [{| v_text := utf8Decode bs; v_bytes := Some bs |}]
  | PText s => map (fun t => {| v_text := t; v_bytes := None |}) (textWords Between s)
  end.

Definition parseParts (parts : list LinePart) : list Value := flat_map partValues parts.

(** [values[i]?.text] *)
Definition textAt (values : list Value) (i : nat) : option jsstr := v_text <$> values !! i.

(** ** The engine *)

Section Engine.
Context {SS : ScramServer} (cfg : Config).

Record Scram := mkScram { session : ScramSession; stage : ScramStage; username : option jsstr }.

Record Engine := mkEngine {
  secure : bool;
  scram : option Scram;
  reader : Reader;
  authed : bool;
  closed : bool;
  awaitingTls : bool;
  pending : option Pending;
  queued : list (list LinePart);
  nonceIdx : nat
}.

Definition initial : Engine :=
  {| secure := initiallySecure cfg; scram := None; reader := newReader (maxScriptBytes cfg); authed := false; closed := false;
     awaitingTls := false; pending := None; queued := []; nonceIdx := 0 |}.

Definition authAllowed (s : Engine) : bool := secure s || allowInsecureAuth cfg.
Definition starttlsOffered (s : Engine) : bool := tlsAvailable cfg && negb (secure s).

Definition capabilities (s : Engine) : list Action :=
  map AReply (CAP_LINES (authAllowed s) (starttlsOffered s) (scramOffered cfg)).

Definition greeting (s : Engine) : list Action :=
  capabilities s ++ [AReply (js "OK " ++ quoted (hostname cfg ++ js " ManageSieve ready"))].

Definition tlsUpgraded (s : Engine) : Engine * list Action :=
  let s := s <| secure := true |> <| awaitingTls := false |> <| authed := false |> <| pending := None |>
             <| queued := [] |> <| reader := newReader (maxScriptBytes cfg) |> in
  (s, capabilities s ++ [ok "TLS negotiated"]).

(** ** SASL *)

Definition scramFailedAction (step : ScramStep) : Action :=
  AAuthFailed (match step with NeedFailed (Some ((_ :: _) as u)) => Some u | _ => None end).

(** [{n+}] and the base64 of a message *)
Definition literalReply (message : jsstr) : Action :=
  let b64 := base64Encode (utf8Encode message) in
  AReply ([123] ++ numToString (len b64) ++ [43; 125] ++ crlf ++ b64).

Definition handleScramLine (b64 : jsstr) (s : Engine) : Engine * list Action :=
  match scram s with
  | None => (s, [no "authentication failed"])
  | Some sc =>
      match stage sc with
      | ServerFinal =>
          (s <| scram := None |> <| pending := Some (PAuth SCRAM_SHA_256) |>, [AAuthVerified (default [] (username sc))])
      | st =>
          match decodeSaslBase64 b64 with
          | None => (s <| scram := None |>, [no "invalid base64"])
          | Some bs =>
              let text := utf8Decode bs in
              match st with
              | ClientFirst =>
                  let '(session', step) := scramStart (nonces cfg (nonceIdx s)) text (session sc) in
                  let s := s <| nonceIdx ::= S |> in
                  match step with
                  | NeedLookup u =>
                      (s <| scram := Some (mkScram session' ClientFinal (username sc)) |> <| pending := Some PScramKeys |>,
                       [AScramKeys u])
                  | _ => (s <| scram := None |>, [scramFailedAction step; no "authentication failed"])
                  end
              | _ =>
                  let '(session', fin) := scramFinal text (session sc) in
                  match fin with
                  | NeedDone u message =>
                      (s <| scram := Some (mkScram session' ServerFinal (Some u)) |>
                         <| pending := Some (PAuthLine SCRAM_SHA_256) |>, [literalReply message])
                  | _ => (s <| scram := None |>, [scramFailedAction fin; no "authentication failed"])
                  end
              end
          end
      end
  end.

Definition decodePlain (b64 : jsstr) (s : Engine) : Engine * list Action :=
  match decodeSaslBase64 b64 with
  | None => (s, [no "invalid base64"])
  | Some bs =>
      match parseSaslPlain bs with
      | None => (s, [no "malformed PLAIN"])
      | Some creds => (s <| pending := Some (PAuth PLAIN) |>, [AAuth (pl_user creds) (pl_pass creds)])
      end
  end.

Definition cmdAuthenticate (values : list Value) (s : Engine) : Engine * list Action :=
  if authed s then (s, [no "already authenticated"])
  else if negb (authAllowed s) then (s, [no "TLS required before AUTHENTICATE"])
  else
    let mech := toUpperCase (default [] (textAt values 1)) in
    if mech === js "SCRAM-SHA-256" then
      if negb (scramOffered cfg) then (s, [no "unsupported SASL mechanism"])
      else
        let s := s <| scram := Some (mkScram (scramNew (scramDecoySecret cfg)) ClientFirst None) |> in
        match textAt values 2 with
        | Some ir => handleScramLine ir s
        | None => (s <| pending := Some (PAuthLine SCRAM_SHA_256) |>, [AReply emptyQuoted])
        end
    else if negb (mech === js "PLAIN") then (s, [no "unsupported SASL mechanism"])
    else
      match textAt values 2 with
      | Some ir => decodePlain ir s
      | None => (s <| pending := Some (PAuthLine PLAIN) |>, [AReply emptyQuoted])
      end.

Definition pendingNone (s : Engine) : bool := match pending s with None => true | Some _ => false end.

Definition cmdStartTls (s : Engine) : Engine * list Action :=
  if secure s then (s, [no "TLS already active"])
  else if negb (tlsAvailable cfg) then (s, [no "STARTTLS not available"])
  else if negb (pendingNone s) then (s, [no "STARTTLS not allowed mid-command"])
  else (s <| awaitingTls := true |> <| queued := [] |>, [ok "Begin TLS negotiation now"; AStartTls]).

(** ** Commands *)

(** The commands of an authenticated session. *)
Definition handleScript (cmd : jsstr) (values : list Value) (s : Engine) : Engine * list Action :=
  if cmd === js "PUTSCRIPT" then
    match textAt values 1, textAt values 2 with
    | Some name, Some content => (s <| pending := Some (PPutScript name) |>, [APutScript name content])
    | _, _ => (s, [no "PUTSCRIPT needs name and script"])
    end
  else if cmd === js "CHECKSCRIPT" then
    match textAt values 1 with
    | Some content => (s <| pending := Some PCheckScript |>, [ACheckScript content])
    | None => (s, [no "CHECKSCRIPT needs script"])
    end
  else if cmd === js "LISTSCRIPTS" then (s <| pending := Some PList |>, [AListScripts])
  else if cmd === js "SETACTIVE" then
    (s <| pending := Some POp |>, [ASetActive (default [] (textAt values 1))])
  else if cmd === js "GETSCRIPT" then
    match textAt values 1 with
    | Some name => (s <| pending := Some (PGet name) |>, [AGetScript name])
    | None => (s, [no "GETSCRIPT needs name"])
    end
  else if cmd === js "DELETESCRIPT" then
    match textAt values 1 with
    | Some name => (s <| pending := Some POp |>, [ADeleteScript name])
    | None => (s, [no "DELETESCRIPT needs name"])
    end
  else if cmd === js "RENAMESCRIPT" then
    match textAt values 1, textAt values 2 with
    | Some from, Some to => (s <| pending := Some POp |>, [ARenameScript from to])
    | _, _ => (s, [no "RENAMESCRIPT needs old and new name"])
    end
  else if cmd === js "HAVESPACE" then
    let size := jsNumber (default (js "0") (textAt values 2)) in
    if isFinite size && numLe size (maxScriptBytes cfg) then (s, [AReply (js "OK")])
    else (s, [AReply (js "NO (QUOTA/MAXSIZE) " ++ quoted (js "script too large"))])
  else (s, [no "unknown command"]).

Definition handleLine (parts : list LinePart) (s : Engine) : Engine * list Action :=
  match parseParts parts with
  | [] => (s, [no "empty command"])
  | (v :: _) as values =>
      let cmd := toUpperCase (v_text v) in
      if cmd === js "LOGOUT" then (s <| closed := true |>, [ok "bye"; AClose])
      else if cmd === js "NOOP" then (s, [ok "NOOP completed"])
      else if cmd === js "CAPABILITY" then (s, capabilities s ++ [AReply (js "OK")])
      else if cmd === js "AUTHENTICATE" then cmdAuthenticate values s
      else if cmd === js "STARTTLS" then cmdStartTls s
      else if negb (authed s) then (s, [no "Authenticate first"])
      else handleScript cmd values s
  end.

(** ** Lines that waited *)

(** No line is added to the queue here, so its length bounds the iterations. *)
Fixpoint drainLoop (fuel : nat) (s : Engine) : Engine * list Action :=
  match fuel, queued s with
  | S f, parts :: rest =>
      if pendingNone s && negb (closed s) && negb (awaitingTls s) then
        let '(s, a) := handleLine parts (s <| queued := rest |>) in
        let '(s, b) := drainLoop f s in (s, a ++ b)
      else (s, [])
  | _, _ => (s, [])
  end.

Definition drain (s : Engine) : Engine * list Action := drainLoop (length (queued s)) s.

(** The replies [pre], then what was queued. *)
Definition resume (pre : list Action) (s : Engine) : Engine * list Action :=
  let '(s, a) := drain s in (s, pre ++ a).

(** ** Input *)

Definition handleAuthLine (sasl : SaslMech) (parts : list LinePart) (s : Engine) : Engine * list Action :=
  let s := s <| pending := None |> in
  let b64 := default [] (textAt (parseParts parts) 0) in
  if b64 === [42] then resume [no "authentication aborted"] (s <| scram := None |>)
  else match sasl with SCRAM_SHA_256 => handleScramLine b64 s | PLAIN => decodePlain b64 s end.

Definition onEvent (ev : ReaderEvent) (s : Engine) : Engine * list Action :=
  match ev with
  | RContinue _ => (s, [AReply (js "OK")])
  | RError message => (s, [AReply (js "NO " ++ quoted message)])
  | RLine parts =>
      match pending s with
      | Some (PAuthLine sasl) => handleAuthLine sasl parts s
      | Some _ => (s <| queued ::= fun q => q ++ [parts] |>, [])
      | None => handleLine parts s
      end
  end.

Fixpoint onEvents (evs : list ReaderEvent) (s : Engine) : Engine * list Action :=
  match evs with
  | [] => (s, [])
  | ev :: evs' =>
      let '(s, a) := onEvent ev s in
      if closed s || awaitingTls s then (s, a)
      else let '(s, b) := onEvents evs' s in (s, a ++ b)
  end.

Definition feed (chunk : bytes) (s : Engine) : Engine * list Action :=
  if closed s then (s, [])
  else if awaitingTls s then (s, [])
  else let '(r, evs) := ImapReader.feed opts0 chunk (reader s) in onEvents evs (s <| reader := r |>).

(** ** Answers of the backend; [None] is the thrown order error *)

Definition authResult (r : bool) (s : Engine) : option (Engine * list Action) :=
  match pending s with
  | Some (PAuth _) | Some (PAuthLine _) =>
      let s := s <| pending := None |> in
      Some (if r then resume [ok "authenticated"] (s <| authed := true |>) else resume [no "authentication failed"] s)
  | _ => None
  end.

Definition opReply (r : OpResult) : Action :=
  match r with
  | OpOk => AReply (js "OK")
  | OpFail code message =>
      AReply (js "NO " ++ (match code with Some ((_ :: _) as c) => [40] ++ c ++ js ") " | _ => [] end) ++ quote message)
  end.

Definition opResult (r : OpResult) (s : Engine) : option (Engine * list Action) :=
  match pending s with
  | Some (PPutScript _) | Some PCheckScript | Some POp => Some (resume [opReply r] (s <| pending := None |>))
  | _ => None
  end.

Definition listResult (scripts : list (jsstr * bool)) (s : Engine) : option (Engine * list Action) :=
  match pending s with
  | Some PList =>
      Some (resume (map (fun x : jsstr * bool => AReply (quote x.1 ++ (if x.2 then js " ACTIVE" else []))) scripts ++ [AReply (js "OK")])
              (s <| pending := None |>))
  | _ => None
  end.

(** The content behind its length, then the status. *)
Definition getReply (content : jsstr) : bytes :=
  let bs := utf8Encode content in
  utf8Encode ([123] ++ numToString (len bs) ++ [125] ++ crlf) ++ bs ++ utf8Encode (crlf ++ js "OK" ++ crlf).

Definition getResult (r : option jsstr) (s : Engine) : option (Engine * list Action) :=
  match pending s with
  | Some (PGet _) =>
      let s := s <| pending := None |> in
      Some (match r with
            | None => resume [no "script not found"] s
            | Some content => resume [AReplyBytes (getReply content)] s
            end)
  | _ => None
  end.

Definition scramKeysResult (keys : option ScramStoredKeys) (s : Engine) : option (Engine * list Action) :=
  match pending s with
  | Some PScramKeys =>
      Some (match scram s with
            | None => resume [] (s <| pending := None |>)
            | Some sc =>
                let '(session', step) := scramProvideKeys keys (session sc) in
                match step with
                | NeedSend message =>
                    resume [literalReply message]
                      (s <| scram := Some (mkScram session' (stage sc) (username sc)) |>
                         <| pending := Some (PAuthLine SCRAM_SHA_256) |>)
                | _ => resume [scramFailedAction step; no "authentication failed"] (s <| scram := None |> <| pending := None |>)
                end
            end)
  | _ => None
  end.
End Engine.

#[global] Instance SaslMech_eq : EqDecision SaslMech.
Proof. solve_decision. Defined.
#[global] Instance Action_eq : EqDecision Action.
Proof. solve_decision. Defined.

Lemma bool_decide_iff' (P Q : Prop) `{!Decision P, !Decision Q} : bool_decide P = bool_decide Q -> (P <-> Q).
Proof. intros H. by rewrite <- (bool_decide_eq_true P), <- (bool_decide_eq_true Q), H. Qed.

(** ** What a session may do *)

(** The requests the engine makes of its adapter. *)
Inductive Request := RqAuth | RqKeys | RqOp | RqList | RqGet.

(** What the trace of a connection says: whether TLS is up, whether the backend has authenticated
    the user on this line, whose keys were asked for last, and the request that is open. *)
Record Ghost := mkGhost { g_tls : bool; g_authed : bool; g_lookup : option jsstr; g_open : option Request }.

Definition requestOf (a : Action) : option Request :=
  match a with
  | AAuth _ _ | AAuthVerified _ => Some RqAuth
  | AScramKeys _ => Some RqKeys
  | APutScript _ _ | ACheckScript _ | ADeleteScript _ | ARenameScript _ _ | ASetActive _ => Some RqOp
  | AListScripts => Some RqList
  | AGetScript _ => Some RqGet
  | _ => None
  end.

Definition track (G : Ghost) (a : Action) : Ghost :=
  let G := match a with AScramKeys u => G <| g_lookup := Some u |> | _ => G end in
  match requestOf a with Some r => G <| g_open := Some r |> | None => G end.

Definition trackAll (G : Ghost) (acts : list Action) : Ghost := fold_left track acts G.

Inductive Event :=
| EvFeed (chunk : bytes)
| EvKeys (keys : option ScramStoredKeys)
| EvAuth (r : bool)
| EvOp (r : OpResult)
| EvList (scripts : list (jsstr * bool))
| EvGet (r : option jsstr)
| EvTls.

(** The event comes before the actions it causes. *)
Definition trackEvent (G : Ghost) (e : Event) : Ghost :=
  match e with
  | EvFeed _ => G
  | EvAuth r => G <| g_authed := r |> <| g_open := None |>
  | EvTls => G <| g_tls := true |> <| g_authed := false |> <| g_open := None |>
  | _ => G <| g_open := None |>
  end.

Definition authLine (cfg : Config) (G : Ghost) : Prop := g_tls G || allowInsecureAuth cfg = true.

(** What each action may be, given the trace before it: a request is made only when none is open;
    credentials are taken only on a line that is allowed to carry them; only keys that were asked
    for lead to a verified user; scripts are touched only after the backend has said yes. *)
Definition actionOk (cfg : Config) (G : Ghost) (a : Action) : Prop :=
  (requestOf a <> None -> g_open G = None) /\
  match a with
  | AAuth _ _ | AScramKeys _ => authLine cfg G /\ g_authed G = false
  | AAuthVerified u => authLine cfg G /\ g_authed G = false /\ g_lookup G = Some u
  | _ => match requestOf a with Some _ => authLine cfg G /\ g_authed G = true | None => True end
  end.

Fixpoint actsOk (cfg : Config) (G : Ghost) (acts : list Action) : Prop :=
  match acts with
  | [] => True
  | a :: r => actionOk cfg G a /\ actsOk cfg (track G a) r
  end.

Section Invariant.
Context {SS : ScramServer} (cfg : Config).

Lemma ms_actsOk_app G a b : actsOk cfg G (a ++ b) <-> actsOk cfg G a /\ actsOk cfg (trackAll G a) b.
Proof.
  revert G; induction a as [|x a IH]; intros G; cbn; [tauto|]. rewrite IH.
  change (trackAll G (x :: a)) with (trackAll (track G x) a). tauto.
Qed.

Definition openOf (p : option Pending) : option Request :=
  match p with
  | Some (PAuth _) => Some RqAuth
  | Some PScramKeys => Some RqKeys
  | Some (PPutScript _) | Some PCheckScript | Some POp => Some RqOp
  | Some PList => Some RqList
  | Some (PGet _) => Some RqGet
  | Some (PAuthLine _) | None => None
  end.

Definition authPending (p : option Pending) : bool :=
  match p with Some (PAuth _) | Some PScramKeys | Some (PAuthLine _) => true | _ => false end.

(** An exchange that has reached [stage] is about the user whose keys were asked for. *)
Definition scramFor (G : Ghost) (sc : Scram) : Prop :=
  match stage sc with
  | ClientFirst => True
  | ClientFinal => g_lookup G = Some (scramUser (session sc))
  | ServerFinal => g_lookup G = username sc /\ username sc <> None
  end.

(** The exchange a pending state waits for. *)
Definition scramOk (G : Ghost) (p : option Pending) (sc : option Scram) : Prop :=
  match p with
  | Some PScramKeys => exists x, sc = Some x /\ stage x = ClientFinal /\ scramFor G x
  | Some (PAuthLine SCRAM_SHA_256) => exists x, sc = Some x /\ scramFor G x
  | _ => sc = None
  end.

Record Inv (G : Ghost) (s : Engine) : Prop := {
  inv_tls : g_tls G = secure s;
  inv_authed : g_authed G = authed s;
  inv_open : g_open G = openOf (pending s);
  inv_scram : scramOk G (pending s) (scram s);
  inv_line : authPending (pending s) = true -> authAllowed cfg s = true /\ authed s = false;
  inv_allowed : authed s = true -> authAllowed cfg s = true;
  inv_tlsWait : awaitingTls s = true -> pending s = None /\ queued s = []
}.

Definition Good (G : Ghost) (r : Engine * list Action) : Prop := actsOk cfg G r.2 /\ Inv (trackAll G r.2) r.1.

Lemma Good_seq G (r : Engine * list Action) (k : Engine -> Engine * list Action) :
  Good G r -> (forall G', Inv G' r.1 -> Good G' (k r.1)) ->
  Good G (let '(s, a) := r in let '(s', b) := k s in (s', a ++ b)).
Proof.
  intros [Ha Hi] Hk. destruct r as [s a]. specialize (Hk _ Hi). cbn in *. destruct (k s) as [s' b]. destruct Hk as [Hb Hi'].
  cbn in *. split; cbn [fst snd]; [by apply ms_actsOk_app|]. unfold trackAll in *. by rewrite fold_left_app.
Qed.

(** Actions that are no requests. *)
Lemma Good_quiet G s acts : Forall (fun a => requestOf a = None) acts -> Inv G s -> Good G (s, acts).
Proof.
  intros Hq HI. enough (H : actsOk cfg G acts /\ trackAll G acts = G) by (split; cbn [fst snd]; [tauto|by rewrite (proj2 H)]).
  induction Hq as [|a acts Ha Hq IH]; [done|]. change (trackAll G (a :: acts)) with (trackAll (track G a) acts). cbn [actsOk].
  assert (Ht : track G a = G) by (unfold track; rewrite Ha; by destruct a).
  rewrite Ht. split; [|tauto]. split; [|tauto]. unfold actionOk. rewrite Ha. split; [done|]. by destruct a.
Qed.

Ltac quiet := apply Good_quiet; [repeat constructor|].

Lemma capabilities_quiet s : Forall (fun a => requestOf a = None) (capabilities cfg s).
Proof. unfold capabilities. apply Forall_forall. intros a Ha. apply list_elem_of_fmap in Ha as (l & -> & _). done. Qed.

(** Changes of fields the invariant does not read. *)
Lemma Inv_reader G s r : Inv G s -> Inv G (s <| reader := r |>).
Proof. by intros []. Qed.
Lemma ms_Inv_nonce G s f : Inv G s -> Inv G (s <| nonceIdx ::= f |>).
Proof. by intros []. Qed.
Lemma ms_Inv_closed G s : Inv G s -> Inv G (s <| closed := true |>).
Proof. by intros []. Qed.
Lemma Inv_queue G s f : pending s <> None \/ awaitingTls s = false -> Inv G s -> Inv G (s <| queued ::= f |>).
Proof.
  intros H []. split; cbn; try done. intros Hw. destruct H as [H|H]; [|congruence]. naive_solver.
Qed.

(** ** The handlers keep the invariant *)

(** A line may be handled. *)
Definition Ready (s : Engine) : Prop := pending s = None /\ awaitingTls s = false.

Lemma Inv_no_scram G s : Inv G s -> pending s = None -> scram s = None.
Proof. intros HI Hp. pose proof (inv_scram _ _ HI) as H. by rewrite Hp in H. Qed.

(** A request of an authenticated session. *)
Lemma Good_script G s a p r :
  Inv G s -> Ready s -> authed s = true -> requestOf a = Some r -> openOf (Some p) = Some r -> authPending (Some p) = false ->
  Good G (s <| pending := Some p |>, [a]).
Proof.
  intros HI [Hp Hw] Ha Hr Ho Hn. pose proof (Inv_no_scram _ _ HI Hp) as Hs. pose proof (inv_allowed _ _ HI Ha) as Hl.
  destruct HI as [H1 H2 H3 H4 H5 H6 H7]. rewrite Hp in H3. unfold authAllowed in Hl.
  assert (Hk : forall u, a <> AScramKeys u) by (intros u ->; simplify_eq/=; by destruct p).
  split; cbn [fst snd actsOk].
  - split; [|done]. split; [by rewrite H3|]. rewrite Hr.
    assert (authLine cfg G /\ g_authed G = true) by (unfold authLine; rewrite H1, H2; done).
    destruct a; simplify_eq/=; try done; by destruct p.
  - change (trackAll G [a]) with (track G a).
    assert (Ht : track G a = G <| g_open := Some r |>) by (unfold track; rewrite Hr; destruct a; try done; by destruct (Hk user)).
    rewrite Ht. split; cbn; try done; try (by rewrite Ho).
    + by destruct p.
    + intros Hx. change (authPending (Some p) = true) in Hx. congruence.
    + by rewrite Hw.
Qed.

(** Starting to authenticate. *)
Lemma Good_authenticate G s a p sc r :
  Inv G s -> Ready s -> authAllowed cfg s = true -> authed s = false ->
  requestOf a = openOf (Some p) -> requestOf a = Some r -> authPending (Some p) = true ->
  (forall u, a = AAuthVerified u -> g_lookup G = Some u) -> (r = RqAuth \/ exists u, a = AScramKeys u) ->
  scramOk (track G a) (Some p) sc ->
  Good G (s <| scram := sc |> <| pending := Some p |>, [a]).
Proof.
  intros HI [Hp Hw] Hl Ha Ho Hr Hn Hv Hk Hs. destruct HI as [H1 H2 H3 H4 H5 H6 H7]. rewrite Hp in H3.
  assert (HL : authLine cfg G) by (unfold authLine; rewrite H1; done). rewrite Ha in H2.
  split; cbn [fst snd actsOk].
  - split; [|done]. split; [by rewrite H3|].
    destruct a; simplify_eq/=; try done; try (by destruct Hk as [|[? ?]]); naive_solver.
  - change (trackAll G [a]) with (track G a).
    assert (Ht : g_tls (track G a) = g_tls G /\ g_authed (track G a) = g_authed G /\ g_open (track G a) = requestOf a)
      by (unfold track; rewrite Hr; by destruct a).
    destruct Ht as (Ht1 & Ht2 & Ht3). revert Hs Ht1 Ht2 Ht3. generalize (track G a). intros G' Hs Ht1 Ht2 Ht3.
    split; cbn; try done; try congruence.
    by rewrite Ht3, Ho.
Qed.

Lemma decodePlain_Good G s b64 :
  Inv G s -> Ready s -> authAllowed cfg s = true -> authed s = false -> Good G (decodePlain b64 s).
Proof.
  intros HI HR Hl Ha. unfold decodePlain. destruct (decodeSaslBase64 b64) as [bs|]; [|by quiet].
  destruct (parseSaslPlain bs) as [creds|]; [|by quiet].
  replace (s <| pending := Some (PAuth PLAIN) |>) with (s <| scram := None |> <| pending := Some (PAuth PLAIN) |>)
    by (rewrite <- (Inv_no_scram _ _ HI (proj1 HR)); by destruct s).
  eapply Good_authenticate; try done. by left.
Qed.

(** Waiting for a line of the exchange. *)
Lemma Inv_authLine G s m sc :
  Inv G s -> Ready s -> authAllowed cfg s = true -> authed s = false -> scramOk G (Some (PAuthLine m)) sc ->
  Inv G (s <| scram := sc |> <| pending := Some (PAuthLine m) |>).
Proof.
  intros HI [Hp Hw] Hl Ha Hs. destruct HI as [H1 H2 H3 H4 H5 H6 H7]. rewrite Hp in H3.
  split; cbn; try done. by rewrite Hw.
Qed.

Lemma Inv_scram_none G s : Inv G s -> pending s = None -> Inv G (s <| scram := None |>).
Proof. intros [] Hp. split; cbn; try done. by rewrite Hp. Qed.

Lemma Good_eq G r r' : Good G r' -> r = r' -> Good G r.
Proof. by intros ? ->. Qed.

Lemma handleScramLine_Good G s b64 sc :
  Inv G s -> Ready s -> authAllowed cfg s = true -> authed s = false -> scramFor G sc ->
  Good G (handleScramLine cfg b64 (s <| scram := Some sc |>)).
Proof.
  intros HI HR Hl Ha Hsc. pose proof (Inv_scram_none _ _ HI (proj1 HR)) as HN.
  destruct sc as [ses st un]. unfold scramFor in Hsc. cbn in Hsc.
  assert (Hbad : forall acts, Forall (fun a => requestOf a = None) acts ->
            Good G (s <| scram := Some (mkScram ses st un) |> <| scram := None |>, acts))
    by (intros acts Hq; by apply Good_quiet).
  unfold handleScramLine. change (scram (s <| scram := Some ?x |>)) with (Some x). cbv iota beta.
  destruct st; cbn [stage session username].
  - destruct (decodeSaslBase64 b64) as [bs|]; [|apply Hbad; repeat constructor].
    destruct (scramStart _ _ _) as [ses' step] eqn:E.
    assert (HN' : Inv G (s <| nonceIdx ::= S |> <| scram := None |>)) by (apply Inv_scram_none; [by apply ms_Inv_nonce|apply HR]).
    destruct step as [u|m|u m|u]; try (apply Good_quiet; [repeat constructor|exact HN']).
    eapply Good_eq; [apply (Good_authenticate G (s <| nonceIdx ::= S |>) (AScramKeys u) PScramKeys (Some (mkScram ses' ClientFinal un)) RqKeys)
                    |by destruct s]; try done; [by apply ms_Inv_nonce|right; eauto|].
    eexists. split; [done|]. split; [done|]. cbn. by rewrite (scramStart_lookup _ _ _ _ _ E).
  - destruct (decodeSaslBase64 b64) as [bs|]; [|apply Hbad; repeat constructor].
    destruct (scramFinal _ _) as [ses' step] eqn:E.
    destruct step as [u|m|u m|u]; try (apply Hbad; repeat constructor).
    assert (HA : Inv G (s <| scram := Some (mkScram ses' ServerFinal (Some u)) |> <| pending := Some (PAuthLine SCRAM_SHA_256) |>));
      [apply Inv_authLine; try done | by apply Good_quiet; [repeat constructor|]].
    eexists. split; [done|]. cbn. apply scramFinal_done in E as [-> _]. done.
  - destruct Hsc as [Hg Hu]. destruct un as [u|]; [|done]. cbn [default].
    eapply Good_eq; [apply (Good_authenticate G s (AAuthVerified u) (PAuth SCRAM_SHA_256) None RqAuth)|by destruct s]; try done; [|by left].
    intros u' [= <-]. done.
Qed.

Lemma cmdAuthenticate_Good G s values : Inv G s -> Ready s -> Good G (cmdAuthenticate cfg values s).
Proof.
  intros HI HR. unfold cmdAuthenticate. destruct (authed s) eqn:Ha; [by quiet|].
  destruct (authAllowed cfg s) eqn:Hl; [|by quiet]. cbn [negb].
  destruct (_ === _).
  - destruct (scramOffered cfg); [|by quiet]. cbn [negb]. destruct (textAt values 2).
    + by apply handleScramLine_Good.
    + quiet. apply Inv_authLine; try done. eexists. split; [done|]. done.
  - destruct (negb _); [by quiet|]. destruct (textAt values 2); [by apply decodePlain_Good|]. quiet.
    replace (s <| pending := Some (PAuthLine PLAIN) |>) with (s <| scram := None |> <| pending := Some (PAuthLine PLAIN) |>)
      by (rewrite <- (Inv_no_scram _ _ HI (proj1 HR)); by destruct s).
    by apply Inv_authLine.
Qed.

Lemma cmdStartTls_Good G s : Inv G s -> Good G (cmdStartTls cfg s).
Proof.
  intros HI. unfold cmdStartTls. destruct (secure s) eqn:Hs; [by quiet|]. destruct (tlsAvailable cfg); [|by quiet].
  unfold pendingNone. destruct (pending s) eqn:Hp; [by quiet|]. cbn [negb]. quiet.
  destruct HI as [H1 H2 H3 H4 H5 H6 H7]. split; cbn; try done.
Qed.

Lemma handleScript_Good G s cmd values : Inv G s -> Ready s -> authed s = true -> Good G (handleScript cfg cmd values s).
Proof.
  intros HI HR Ha. unfold handleScript.
  repeat (destruct (cmd === _);
    [repeat match goal with |- context [match textAt values ?i with _ => _ end] => destruct (textAt values i) end;
     try (by quiet); try (by eapply Good_script)|]); [|by quiet].
  destruct (isFinite _ && _); by quiet.
Qed.

Lemma handleLine_Good G s parts : Inv G s -> Ready s -> Good G (handleLine cfg parts s).
Proof.
  intros HI HR. unfold handleLine. destruct (parseParts parts) as [|v vs]; [by quiet|].
  destruct (_ === _); [quiet; by apply ms_Inv_closed|]. destruct (_ === _); [by quiet|].
  destruct (_ === _); [apply Good_quiet; [apply Forall_app; split; [apply capabilities_quiet|by repeat constructor]|done]|].
  destruct (_ === _); [by apply cmdAuthenticate_Good|]. destruct (_ === _); [by apply cmdStartTls_Good|].
  destruct (authed s) eqn:Ha; [by apply handleScript_Good|by quiet].
Qed.

Lemma drainLoop_Good fuel G s : Inv G s -> Good G (drainLoop cfg fuel s).
Proof.
  revert G s. induction fuel as [|f IH]; intros G s HI; cbn [drainLoop]; [by quiet|].
  destruct (queued s) as [|parts rest] eqn:Hq; [by quiet|]. unfold pendingNone.
  destruct (pending s) eqn:Hp; [by quiet|]. destruct (closed s); [by quiet|]. destruct (awaitingTls s) eqn:Hw; [by quiet|]. cbn [negb andb].
  apply (Good_seq G _ (drainLoop cfg f)); [|intros; by apply IH].
  apply handleLine_Good; [|done]. apply (Inv_queue G s (fun _ => rest)); auto.
Qed.

Lemma resume_Good G s pre : Forall (fun a => requestOf a = None) pre -> Inv G s -> Good G (resume cfg pre s).
Proof.
  intros Hq HI. apply (Good_seq G (s, pre) (drain cfg)); [by apply Good_quiet|]. intros G' HI'. by apply drainLoop_Good.
Qed.

Lemma handleAuthLine_Good G s m parts :
  Inv G s -> pending s = Some (PAuthLine m) -> Good G (handleAuthLine cfg m parts s).
Proof.
  intros HI Hp. assert (Hl : authAllowed cfg s = true /\ authed s = false) by (apply (inv_line _ _ HI); by rewrite Hp).
  destruct Hl as [Hl Ha]. assert (Hw : awaitingTls s = false).
  { destruct (awaitingTls s) eqn:E; [|done]. destruct (inv_tlsWait _ _ HI E). congruence. }
  pose proof (inv_scram _ _ HI) as Hsc. rewrite Hp in Hsc.
  assert (HN : Inv G (s <| pending := None |> <| scram := None |>)).
  { destruct HI as [H1 H2 H3 H4 H5 H6 H7]. rewrite Hp in H3. split; cbn; try done. by rewrite Hw. }
  unfold handleAuthLine. destruct (_ === _); [apply resume_Good; [repeat constructor|exact HN]|].
  destruct m; cbn in Hsc.
  - replace (s <| pending := None |>) with (s <| pending := None |> <| scram := None |>) by (rewrite <- Hsc; by destruct s).
    by apply decodePlain_Good.
  - destruct Hsc as (x & Hx & Hf).
    replace (s <| pending := None |>) with (s <| pending := None |> <| scram := None |> <| scram := Some x |>)
      by (rewrite <- Hx; by destruct s).
    by apply handleScramLine_Good.
Qed.

Lemma onEvent_Good G s ev : Inv G s -> awaitingTls s = false -> Good G (onEvent cfg ev s).
Proof.
  intros HI Hw. destruct ev as [n|parts|m]; cbn [onEvent]; try (by quiet).
  destruct (pending s) as [p|] eqn:Hp; [|by apply handleLine_Good].
  destruct p; try (by apply handleAuthLine_Good); quiet; apply Inv_queue; auto.
Qed.

Lemma onEvents_Good evs G s : Inv G s -> awaitingTls s = false -> Good G (onEvents cfg evs s).
Proof.
  revert G s. induction evs as [|ev evs IH]; intros G s HI Hw; cbn [onEvents]; [by quiet|].
  pose proof (onEvent_Good G s ev HI Hw) as Hg. destruct (onEvent cfg ev s) as [s1 a].
  destruct (closed s1); [done|]. destruct (awaitingTls s1) eqn:Hw1; [done|]. cbn [orb].
  apply (Good_seq G (s1, a) (onEvents cfg evs)); [done|]. intros G' HI'. by apply IH.
Qed.

Lemma feed_Good G s chunk : Inv G s -> Good G (feed cfg chunk s).
Proof.
  intros HI. unfold feed. destruct (closed s); [by quiet|]. destruct (awaitingTls s) eqn:Hw; [by quiet|].
  destruct (ImapReader.feed _ _ _) as [r evs]. apply onEvents_Good; [by apply Inv_reader|done].
Qed.

(** ** Sessions *)

Definition step (e : Event) (s : Engine) : option (Engine * list Action) :=
  match e with
  | EvFeed chunk => Some (feed cfg chunk s)
  | EvKeys keys => scramKeysResult cfg keys s
  | EvAuth r => authResult cfg r s
  | EvOp r => opResult cfg r s
  | EvList scripts => listResult cfg scripts s
  | EvGet r => getResult cfg r s
  | EvTls => Some (tlsUpgraded cfg s)
  end.

(** The adapter answers the request that is open, and reports TLS when it was told to start it. *)
Definition answers (e : Event) (s : Engine) : Prop :=
  match e with
  | EvAuth _ => openOf (pending s) = Some RqAuth
  | EvTls => awaitingTls s = true
  | _ => True
  end.

(** A connection so far: the events with the actions each caused, last event first. *)
Inductive Session : list (Event * list Action) -> Engine -> Prop :=
| session_start : Session [] (initial cfg)
| session_step tr s e s' acts :
    Session tr s -> answers e s -> step e s = Some (s', acts) -> Session ((e, acts) :: tr) s'.

Definition ghost0 : Ghost := {| g_tls := initiallySecure cfg; g_authed := false; g_lookup := None; g_open := None |}.
Definition trackStep (x : Event * list Action) (G : Ghost) : Ghost := trackAll (trackEvent G x.1) x.2.
Definition ghostOf (tr : list (Event * list Action)) : Ghost := fold_right trackStep ghost0 tr.

(** An answer closes the request. *)
Lemma Inv_answer G s : Inv G s -> authPending (pending s) = false -> awaitingTls s = false ->
  Inv (G <| g_open := None |>) (s <| pending := None |>).
Proof.
  intros HI Hn Hw. destruct HI as [H1 H2 H3 H4 H5 H6 H7]. split; cbn; try done; [|by rewrite Hw].
  by destruct (pending s) as [[]|].
Qed.

Lemma awaiting_none G s p : Inv G s -> pending s = Some p -> awaitingTls s = false.
Proof. intros HI Hp. destruct (awaitingTls s) eqn:E; [|done]. destruct (inv_tlsWait _ _ HI E). congruence. Qed.

Lemma authResult_Good G s r x : Inv G s -> openOf (pending s) = Some RqAuth -> authResult cfg r s = Some x ->
  Good (trackEvent G (EvAuth r)) x.
Proof.
  intros HI Ho Hx. unfold authResult in Hx. destruct (pending s) as [[]|] eqn:Hp; simplify_eq/=.
  pose proof (awaiting_none _ _ _ HI Hp) as Hw. destruct HI as [H1 H2 H3 H4 H5 H6 H7]. rewrite Hp in H4, H5. cbn in H4, H5.
  destruct (H5 eq_refl) as [Hl Ha].
  destruct r; apply resume_Good; try (by repeat constructor); split; cbn; try done; try congruence; by rewrite Hw.
Qed.

Lemma scramKeysResult_Good G s keys x : Inv G s -> scramKeysResult cfg keys s = Some x -> Good (trackEvent G (EvKeys keys)) x.
Proof.
  intros HI Hx. unfold scramKeysResult in Hx. destruct (pending s) as [[]|] eqn:Hp; simplify_eq/=.
  pose proof (awaiting_none _ _ _ HI Hp) as Hw. destruct HI as [H1 H2 H3 H4 H5 H6 H7]. rewrite Hp in H4, H5. cbn in H4, H5.
  destruct (H5 eq_refl) as [Hl Ha]. destruct H4 as (sc & Hsc & Hst & Hf). rewrite Hsc.
  destruct (scramProvideKeys keys (session sc)) as [ses' stp] eqn:E.
  assert (Hn : Inv (G <| g_open := None |>) (s <| scram := None |> <| pending := None |>)).
  { split; cbn; try done. by rewrite Hw. }
  destruct stp; try (apply resume_Good; [by repeat constructor|exact Hn]).
  apply resume_Good; [by repeat constructor|].
  split; cbn; try done; [|by rewrite Hw].
  eexists. split; [done|]. unfold scramFor in *. rewrite Hst in *. cbn.
  pose proof (scramProvideKeys_user keys (session sc)) as Hu. rewrite E in Hu. cbn in Hu. by rewrite Hu.
Qed.

Lemma step_Good G s e x : Inv G s -> answers e s -> step e s = Some x -> Good (trackEvent G e) x.
Proof.
  intros HI He Hx. destruct e as [c|k|r|r|l|r|]; cbn [step] in Hx.
  - simplify_eq. by apply feed_Good.
  - by eapply scramKeysResult_Good.
  - by eapply authResult_Good.
  - unfold opResult in Hx. destruct (pending s) as [p|] eqn:Hp; [|done]. pose proof (awaiting_none _ _ _ HI Hp) as Hw.
    assert (HA : authPending (pending s) = false) by (rewrite Hp; by destruct p).
    pose proof (Inv_answer _ _ HI HA Hw). destruct p; simplify_eq/=; (apply resume_Good; [|done]); repeat constructor; by destruct r.
  - unfold listResult in Hx. destruct (pending s) as [[]|] eqn:Hp; simplify_eq/=. pose proof (awaiting_none _ _ _ HI Hp) as Hw.
    apply resume_Good; [|apply Inv_answer; [done|by rewrite Hp|done]].
    apply Forall_app. split; [|by repeat constructor]. apply Forall_forall. intros a Ha. by apply list_elem_of_fmap in Ha as (y & -> & _).
  - unfold getResult in Hx. destruct (pending s) as [[]|] eqn:Hp; simplify_eq/=. pose proof (awaiting_none _ _ _ HI Hp) as Hw.
    destruct r; (apply resume_Good; [by repeat constructor|apply Inv_answer; [done|by rewrite Hp|done]]).
  - simplify_eq. unfold tlsUpgraded. apply Good_quiet; [apply Forall_app; split; [apply capabilities_quiet|by repeat constructor]|].
    cbn in He. destruct (inv_tlsWait _ _ HI He) as [Hp _]. pose proof (Inv_no_scram _ _ HI Hp) as Hs. destruct HI. split; cbn; done.
Qed.

Lemma Session_Inv tr s : Session tr s -> Inv (ghostOf tr) s.
Proof.
  induction 1 as [|tr s e s' acts HS IH He Hst]; [by split|]. exact (proj2 (step_Good _ _ _ _ IH He Hst)).
Qed.
End Invariant.

Section Properties.
Context {SS : ScramServer} (cfg : Config).

(** C31: on every connection, however it is fed and answered, each action respects the trace before
    it: one request is open at a time; credentials are asked for or checked only under TLS or where
    the configuration allows it, and never once the user is authenticated; a user is reported
    verified only when the keys last asked for were that user's; and a script is listed, read,
    checked, stored, renamed, deleted or activated only when the backend has authenticated the
    user since TLS came up. *)
Theorem managesieve_gated tr e acts s :
  Session cfg ((e, acts) :: tr) s -> actsOk cfg (trackEvent (ghostOf cfg tr) e) acts.
Proof.
  intros H. inversion H; subst. refine (proj1 (step_Good cfg _ _ _ (s, acts) (Session_Inv cfg _ _ _) _ _)); done.
Qed.

(** Nothing sent in the clear survives STARTTLS: while TLS is being negotiated bytes that
    arrive cause no action and no change, and afterwards the engine is a new one on a secure line,
    but for the randomness it has drawn. *)
Theorem managesieve_starttls_clean tr s chunk :
  Session cfg tr s -> awaitingTls s = true -> closed s = false ->
  feed cfg chunk s = (s, []) /\
  (tlsUpgraded cfg s).1 = (initial cfg) <| secure := true |> <| nonceIdx := nonceIdx s |>.
Proof.
  intros HS Hw Hc. pose proof (Session_Inv cfg _ _ HS) as HI. split; [by unfold feed; rewrite Hc, Hw|].
  destruct (inv_tlsWait cfg _ _ HI Hw) as [Hp Hq]. pose proof (Inv_no_scram cfg _ _ HI Hp) as Hs.
  unfold tlsUpgraded, initial. cbn. destruct s; cbn in *. by subst.
Qed.

(** The words of the SASL line of a capability reply. *)
Definition advertised (acts : list Action) : list jsstr :=
  flat_map (fun a => match a with
                     | AReply t => if startsWith (quoted (js "SASL") ++ [SP; QUOTE]) t then splitOn SP (removelast (drop 8 t)) else []
                     | _ => []
                     end) acts.

Definition mechName (m : SaslMech) : jsstr := js (match m with PLAIN => "PLAIN" | SCRAM_SHA_256 => "SCRAM-SHA-256" end).

(** [AUTHENTICATE "m"] *)
Definition authenticateWith (m : SaslMech) : list Value := [mkValue (js "AUTHENTICATE") None; mkValue (mechName m) None].

(** What the engine advertises is what it does: between commands STARTTLS is among the
    capabilities exactly when the command would start TLS, and a mechanism is on the SASL line
    exactly when AUTHENTICATE would start it. *)
Theorem managesieve_advertised_accepted s :
  pending s = None ->
  (AReply (quoted (js "STARTTLS")) ∈ capabilities cfg s <-> AStartTls ∈ (cmdStartTls cfg s).2) /\
  (authed s = false -> forall m,
    mechName m ∈ advertised (capabilities cfg s) <->
    pending (cmdAuthenticate cfg (authenticateWith m) s).1 = Some (PAuthLine m)).
Proof.
  intros Hp. split.
  - refine (bool_decide_iff' _ _ _). unfold capabilities, cmdStartTls, pendingNone, starttlsOffered. rewrite Hp.
    generalize (authAllowed cfg s). intros b. destruct (secure s), (tlsAvailable cfg), b, (scramOffered cfg); vm_compute; reflexivity.
  - intros Ha m. unfold cmdAuthenticate, capabilities. rewrite Ha.
    generalize (starttlsOffered cfg s). intros b.
    assert (Hm : textAt (authenticateWith m) 1 = Some (mechName m) /\ toUpperCase (mechName m) = mechName m) by (by destruct m).
    destruct Hm as [-> Hm]. change (default [] (Some (mechName m))) with (mechName m). rewrite Hm. change (textAt (authenticateWith m) 2) with (@None jsstr).
    assert (Hn : (mechName m === js "SCRAM-SHA-256") = (match m with SCRAM_SHA_256 => true | PLAIN => false end) /\
                 (mechName m === js "PLAIN") = (match m with SCRAM_SHA_256 => false | PLAIN => true end)) by (by destruct m).
    destruct Hn as [-> ->].
    assert (Hadv : forall al so, bool_decide (mechName m ∈ advertised (map AReply (CAP_LINES al b so))) =
                                 al && (match m with SCRAM_SHA_256 => false | PLAIN => true end || so))
      by (intros [] []; destruct b, m; vm_compute; reflexivity).
    rewrite <- (bool_decide_eq_true (_ ∈ _)), Hadv.
    destruct (authAllowed cfg s), (scramOffered cfg), m; cbn; try rewrite Hp; split; congruence.
Qed.

(** ** Storing a script *)

(** A word in quotes is read back. *)
Lemma textWords_quoted v t r :
  textWords (InQuoted v) (escape t ++ QUOTE :: r) =
  (v ++ t) :: textWords Between r.
Proof.
  unfold escape. revert v. induction t as [|c t IH]; intros v; cbn [flat_map app]; [cbn; by rewrite app_nil_r|].
  destruct (c =? BACKSLASH) eqn:E1; [|destruct (c =? QUOTE) eqn:E2]; cbn [orb app textWords].
  - cbn. rewrite IH, <- app_assoc. done.
  - cbn. rewrite IH, <- app_assoc. done.
  - rewrite E2, E1, IH, <- app_assoc. done.
Qed.

(** [PUTSCRIPT "name" ] and a literal *)
Definition putScriptCommand (name : jsstr) (script : bytes) (unasked : bool) : Command :=
  mkCommand [mkPiece (js "PUTSCRIPT " ++ quote name ++ [SP]) script unasked] [].

Lemma putScript_values name script ua :
  parseParts (pieceParts (mkPiece (js "PUTSCRIPT " ++ quote name ++ [SP]) script ua) ++ [PText []]) =
  [mkValue (js "PUTSCRIPT") None; mkValue name None; mkValue (utf8Decode script) (Some script)].
Proof.
  unfold parseParts. cbn [pieceParts flat_map app before content partValues]. 
  enough (H : textWords Between (js "PUTSCRIPT " ++ quote name ++ [SP]) = [js "PUTSCRIPT"; name]) by (by rewrite H).
  unfold quote, quoted. rewrite <- !app_assoc.
  let x := eval vm_compute in (js "PUTSCRIPT ") in change (js "PUTSCRIPT ") with x. cbn.
  by rewrite (textWords_quoted [] name [SP]).
Qed.

(** An authenticated client that stores a script, with any name and any bytes, sent at once
    where the script is small enough and after the continuation otherwise, has exactly that name
    and the text of those bytes handed to the backend, and the engine then waits for the answer. *)
Theorem managesieve_putscript_exact s name script unasked :
  authed s = true -> pending s = None -> closed s = false -> awaitingTls s = false ->
  Idle (reader s) -> buffer (reader s) = [] ->
  commandOk opts0 (maxLiteralBytes (reader s)) (putScriptCommand name script unasked) ->
  feed cfg (commandWire (putScriptCommand name script unasked)) s =
    (s <| pending := Some (PPutScript name) |>,
     (if unasked then [] else [AReply (js "OK")]) ++ [APutScript name (utf8Decode script)]).
Proof.
  intros Ha Hp Hc Hw Hi Hb Hok. unfold feed. rewrite Hc, Hw.
  pose proof (imap_reader_commands opts0 (reader s) [putScriptCommand name script unasked] Hi Hb ltac:(done) ltac:(by constructor)) as Hr.
  cbn [flat_map] in Hr. rewrite app_nil_r in Hr. rewrite Hr. clear Hr.
  assert (Hs : s <| reader := reader s |> = s) by (by destruct s). rewrite Hs.
  unfold commandEvents, putScriptCommand. cbn [pieces lastText flat_map]. rewrite !app_nil_r. change (_ || _) with true. cbv iota.
  assert (Hl : onEvent cfg (RLine (pieceParts (mkPiece (js "PUTSCRIPT " ++ quote name ++ [SP]) script unasked) ++ [PText []])) s =
               (s <| pending := Some (PPutScript name) |>, [APutScript name (utf8Decode script)])).
  { cbn [onEvent]. rewrite Hp. unfold handleLine. rewrite putScript_values. cbv zeta. cbn [v_text]. rewrite Ha. reflexivity. }
  revert Hl. generalize (pieceParts (mkPiece (js "PUTSCRIPT " ++ quote name ++ [SP]) script unasked) ++ [PText []]). intros ps Hl.
  unfold pieceEvents. cbn [ImapReader.unasked content]. destruct unasked; cbn [app onEvents].
  - rewrite Hl. cbn. by rewrite Hc, Hw.
  - change (onEvent cfg (RContinue (len script)) s) with (s, [AReply (js "OK")]). cbv beta iota. rewrite Hc, Hw. cbn [orb]. rewrite Hl. cbn. by rewrite Hc, Hw.
Qed.
End Properties.

(** ** Concrete sessions *)

#[local] Existing Instance toyCrypto.

Definition answersb (e : Event) (s : Engine) : bool :=
  match e with
  | EvAuth _ => match openOf (pending s) with Some RqAuth => true | _ => false end
  | EvTls => awaitingTls s
  | _ => true
  end.

(** Runs the events; the trace has the last event first. *)
Fixpoint run (cfg : Config) (evs : list Event) (tr : list (Event * list Action)) (s : Engine) : option (list (Event * list Action) * Engine) :=
  match evs with
  | [] => Some (tr, s)
  | e :: evs =>
      if answersb e s then
        match step cfg e s with Some (s', acts) => run cfg evs ((e, acts) :: tr) s' | None => None end
      else None
  end.

Lemma ms_run_session cfg evs tr s tr' s' : Session cfg tr s -> run cfg evs tr s = Some (tr', s') -> Session cfg tr' s'.
Proof.
  revert tr s; induction evs as [|e evs IH]; intros tr s HS; cbn; [by intros [= <- <-]|].
  destruct (answersb e s) eqn:Ea; [|done]. destruct (step cfg e s) as [[s1 acts]|] eqn:E; [|done].
  intros H. eapply IH; [|exact H]. eapply session_step; [done| |done].
  destruct e; cbn in *; try done. by destruct (openOf (pending s)) as [[]|].
Qed.

Definition cfg0 : Config :=
  {| hostname := js "sieve"; initiallySecure := false; allowInsecureAuth := false; tlsAvailable := true; scramOffered := true;
     scramDecoySecret := [9]; maxScriptBytes := 1024 * 1024; nonces := fun n => [Z.of_nat n] |}.

Definition line (s : string) : bytes := js s ++ crlf.

Definition ran (evs : list Event) : list (Event * list Action) * Engine :=
  default ([], initial cfg0) (run cfg0 evs [] (initial cfg0)).

Lemma ms_ran_session evs : bool_decide (is_Some (run cfg0 evs [] (initial cfg0))) = true -> Session cfg0 (ran evs).1 (ran evs).2.
Proof.
  intros H%bool_decide_eq_true. unfold ran. destruct (run cfg0 evs [] (initial cfg0)) as [[tr s]|] eqn:E.
  - by apply (ms_run_session cfg0 evs [] (initial cfg0)); [constructor|].
  - by destruct H.
Qed.

(** STARTTLS, then PLAIN with its initial response, accepted. *)
Definition login0 : list Event :=
  [EvFeed (line "STARTTLS"); EvTls;
   EvFeed (js "AUTHENTICATE PLAIN " ++ base64Encode ([0] ++ js "kim" ++ [0] ++ js "pw") ++ crlf); EvAuth true].

Lemma managesieve_gated_witness :
  actsOk cfg0 (trackEvent (ghostOf cfg0 (ran login0).1) (EvFeed (line "LISTSCRIPTS"))) [AListScripts].
Proof.
  apply (managesieve_gated cfg0 (ran login0).1 (EvFeed (line "LISTSCRIPTS")) [AListScripts] (ran (login0 ++ [EvFeed (line "LISTSCRIPTS")])).2).
  replace ((EvFeed (line "LISTSCRIPTS"), [AListScripts]) :: (ran login0).1) with (ran (login0 ++ [EvFeed (line "LISTSCRIPTS")])).1
    by (vm_compute; reflexivity).
  apply ms_ran_session. vm_compute. reflexivity.
Defined.

(** Commands sent behind STARTTLS in one segment. *)
Lemma managesieve_starttls_clean_witness :
  let s := (ran [EvFeed (line "STARTTLS" ++ line "LOGOUT")]).2 in
  awaitingTls s = true /\ feed cfg0 (line "LOGOUT") s = (s, []).
Proof.
  intros s. assert (Hw : awaitingTls s = true) by (vm_compute; reflexivity). split; [exact Hw|].
  refine (proj1 (managesieve_starttls_clean cfg0 (ran [EvFeed (line "STARTTLS" ++ line "LOGOUT")]).1 s (line "LOGOUT") _ Hw _)).
  - apply ms_ran_session. vm_compute. reflexivity.
  - vm_compute. reflexivity.
Defined.

Lemma managesieve_advertised_accepted_witness :
  AReply (quoted (js "STARTTLS")) ∈ capabilities cfg0 (initial cfg0) <-> AStartTls ∈ (cmdStartTls cfg0 (initial cfg0)).2.
Proof. exact (proj1 (managesieve_advertised_accepted cfg0 (initial cfg0) eq_refl)). Defined.

Lemma managesieve_putscript_exact_witness :
  let s := (ran login0).2 in
  (feed cfg0 (commandWire (putScriptCommand (js "main") (js "keep;") true)) s).2 = [APutScript (js "main") (js "keep;")].
Proof.
  intros s. pose proof (managesieve_putscript_exact cfg0 s (js "main") (js "keep;") true) as H.
  rewrite H; [vm_compute; reflexivity|vm_compute; reflexivity..| | |].
  - split_and!; vm_compute; reflexivity.
  - vm_compute. reflexivity.
  - unfold commandOk, pieceOk. cbn [pieces putScriptCommand]. split_and!.
    + constructor; [|constructor]. split_and!; [|vm_compute; discriminate..]. apply (bool_decide_unpack _). vm_compute. exact I.
    + apply (bool_decide_unpack _). vm_compute. exact I.
    + vm_compute. reflexivity.
    + split; [vm_compute; discriminate|done].
    + vm_compute. discriminate.
Defined.

(** ** Two gaps *)

(** The reader keeps its own limit for literals sent unasked, the only form the protocol gives the
    client: a script of 5000 bytes, for which HAVESPACE says there is room, cannot be stored. *)
Lemma managesieve_large_script_refused :
  let s := (ran login0).2 in
  (feed cfg0 (line "HAVESPACE a 5000") s).2 = [AReply (js "OK")] /\
  (feed cfg0 (commandWire (putScriptCommand (js "a") (replicate 5000 120) true)) s).2 = [no "literal too large"].
Proof. split; vm_compute; reflexivity. Qed.

(** A SCRAM exchange during which a command is pipelined, ended by a line that is no base64. *)
Definition stalled : list Event :=
  [EvFeed (line "STARTTLS"); EvTls;
   EvFeed (js "AUTHENTICATE SCRAM-SHA-256 " ++ base64Encode (js "n,,n=kim,r=abc") ++ crlf);
   EvFeed (line "NOOP"); EvKeys None; EvFeed (line "?"); EvFeed (line "CAPABILITY")].

(** The refusal does not go back to the queue: no request is open, the later CAPABILITY is
    answered, and the earlier NOOP still waits. *)
Lemma managesieve_queue_stalls :
  let r := ran stalled in
  pending r.2 = None /\ closed r.2 = false /\ queued r.2 = [[PText (js "NOOP")]] /\
  (forall e acts, (e, acts) ∈ r.1 -> ok "NOOP completed" ∉ acts) /\
  snd <$> head r.1 = Some (capabilities cfg0 r.2 ++ [AReply (js "OK")]).
Proof.
  intros r. split_and!; try (vm_compute; reflexivity).
  intros e acts H. assert (Hall : forallb (fun x : Event * list Action => bool_decide (ok "NOOP completed" ∉ x.2)) r.1 = true)
    by (vm_compute; reflexivity).
  rewrite forallb_forall in Hall. apply list_elem_of_In in H. specialize (Hall _ H). by apply bool_decide_eq_true in Hall.
Qed.
