(* ===== verification/Sieve.v ===== *)
(** * Sieve scripts: lexer and parser (packages/sieve/src/lexer.ts, parser.ts, ast.ts)

    A script becomes a list of tokens and then a list of commands.  Positions, which only appear
    in the text of errors, are left out.  A number token carries its number; the source carries the
    decimal text of the number and converts it back, which for every number is the identity. *)

From S2P Require Import Prelude JsString JsNumber Loop.

(** ** Tokens *)

Inductive Token :=
| TIdentifier (name : jsstr)
| TTag (name : jsstr)
| TNumber (value : JsNum)
| TString (value : jsstr)
| TPunct (c : Z).

Inductive SieveSyntaxError :=
| UnterminatedComment | EmptyTag | UnterminatedString | UnterminatedText | UnexpectedCharacter
| UnexpectedEnd | Unexpected | NoBlock (name : jsstr) | TooDeep.

Abbreviation Parse := (Result SieveSyntaxError).

(** [/[A-Za-z_]/] *)
Definition isIdentStart (c : Z) : bool :=
  ((65 <=? c) && (c <=? 90)) || ((97 <=? c) && (c <=? 122)) || (c =? 95).
(** [/[A-Za-z0-9_.]/] *)
Definition isIdentChar (c : Z) : bool := isIdentStart c || isDigit c || (c =? 46).

Definition isSpace (c : Z) : bool := (c =? 32) || (c =? 9) || (c =? 13) || (c =? 10).
Definition PUNCTUATION : jsstr := js "(){}[],;".
Definition isPunct (c : Z) : bool := existsb (Z.eqb c) PUNCTUATION.

Fixpoint spanWhile (p : Z -> bool) (s : jsstr) : jsstr * jsstr :=
  match s with
  | c :: r => if p c then let '(a, b) := spanWhile p r in (c :: a, b) else ([], s)
  | [] => ([], [])
  end.

(** The text behind the end of a block comment. *)
Fixpoint blockEnd (s : jsstr) : option jsstr :=
  match s with
  | [] => None
  | c :: r => if (c =? 42) && startsWith [47] r then Some (drop 1 r) else blockEnd r
  end.

(** [Number(num) * mult] for decimal digits and a power of two *)
Definition mulNum (n : JsNum) (mult : Z) : JsNum :=
  match n with NumInt z => if 2 ^ 1024 <=? z * mult then NumInf false else NumInt (z * mult) | _ => n end.

(** The unit after a number, and the text behind it. *)
Definition unitOf (s : jsstr) : Z * jsstr :=
  match s with
  | c :: r =>
      if (c =? 75) || (c =? 107) then (1024, r)
      else if (c =? 77) || (c =? 109) then (1024 * 1024, r)
      else if (c =? 71) || (c =? 103) then (1024 * 1024 * 1024, r)
      else (1, s)
  | [] => (1, s)
  end.

(** A quoted string behind its opening quote. *)
Fixpoint quotedString (out s : jsstr) : option (jsstr * jsstr) :=
  match s with
  | [] => None
  | c :: r =>
      if c =? 34 then Some (out, r)
      else if c =? 92 then match r with [] => None | e :: r' => quotedString (out ++ [e]) r' end
      else quotedString (out ++ [c]) r
  end.

Definition stripCr (line : jsstr) : jsstr := if endsWith1 CR line then removelast line else line.

(** A line of a multi-line text: the dot that protects a dot goes. *)
Definition unstuff (trimmed : jsstr) : jsstr := (if startsWith [46; 46] trimmed then drop 1 trimmed else trimmed) ++ crlf.

(** The lines of a multi-line text; [line] is what was read of the current one. *)
Fixpoint textLines (out line s : jsstr) : option (jsstr * jsstr) :=
  match s with
  | [] => if stripCr line === [46] then Some (out, []) else None
  | c :: r =>
      if c =? LF then
        if stripCr line === [46] then Some (out, r)
        else match r with [] => None | _ => textLines (out ++ unstuff (stripCr line)) [] r end
      else textLines out (line ++ [c]) r
  end.

Inductive LexStep := Skip (rest : jsstr) | Tok (t : Token) (rest : jsstr) | LexErr (e : SieveSyntaxError).

(** One iteration of [tokenize] on the text that is left, [c :: r]. *)
Definition lexOne (c : Z) (r : jsstr) : LexStep :=
  if isSpace c then Skip r
  else if c =? 35 then Skip (spanWhile (fun x => negb (x =? LF)) r).2
  else if (c =? 47) && startsWith [42] r then
    match blockEnd (drop 1 r) with Some rest => Skip rest | None => LexErr UnterminatedComment end
  else if isPunct c then Tok (TPunct c) r
  else if c =? 58 then
    match spanWhile isIdentChar r with
    | ([], _) => LexErr EmptyTag
    | (name, rest) => Tok (TTag name) rest
    end
  else if isDigit c then
    let '(num, rest) := spanWhile isDigit (c :: r) in
    let '(mult, rest) := unitOf rest in
    Tok (TNumber (mulNum (jsNumber num) mult)) rest
  else if c =? 34 then
    match quotedString [] r with Some (v, rest) => Tok (TString v) rest | None => LexErr UnterminatedString end
  else if startsWith (js "text:") (c :: r) then
    match textLines [] [] (drop 1 (spanWhile (fun x => negb (x =? LF)) (drop 4 r)).2) with
    | Some (v, rest) => Tok (TString v) rest
    | None => LexErr UnterminatedText
    end
  else if isIdentStart c then
    let '(name, rest) := spanWhile isIdentChar (c :: r) in Tok (TIdentifier name) rest
  else LexErr UnexpectedCharacter.

Fixpoint lexLoop (fuel : nat) (s : jsstr) : Parse (list Token) :=
  match s with
  | [] => Ok []
  | c :: r =>
      match fuel with
      | O => Fuel
      | S f =>
          match lexOne c r with
          | Skip rest => lexLoop f rest
          | Tok t rest => let* ts := lexLoop f rest in Ok (t :: ts)
          | LexErr e => Err e
          end
      end
  end.

Definition tokenize (src : jsstr) : Parse (list Token) := lexLoop (length src) src.

(** ** Syntax trees *)

Inductive SieveArg := ATag (name : jsstr) | AStrings (values : list jsstr) | ANumber (value : JsNum).

Inductive SieveTest := Test (name : jsstr) (args : list SieveArg) (tests : list SieveTest).
Inductive SieveCommand := Command (name : jsstr) (args : list SieveArg) (test : option SieveTest) (block : option (list SieveCommand)).

(** ** Parsing *)

Definition oneOf (names : list string) (n : jsstr) : bool := existsb (fun x => n === js x) names.

Definition CONTROL_WITH_TEST := oneOf ["if"; "elsif"]%string.
Definition CONTROL_WITH_BLOCK := oneOf ["if"; "elsif"; "else"]%string.
Definition TEST_WITH_SUBTESTS := oneOf ["allof"; "anyof"]%string.
Definition TEST_WITH_SUBTEST := oneOf ["not"]%string.

Definition MAX_BLOCK_DEPTH : nat := 64.

Abbreviation Read := (fun A => Parse (A * list Token)).

Definition expectPunct (c : Z) (toks : list Token) : Parse (list Token) :=
  match toks with
  | [] => Err UnexpectedEnd
  | TPunct d :: r => if d =? c then Ok r else Err Unexpected
  | _ :: _ => Err Unexpected
  end.

Definition expectIdentifier (toks : list Token) : Read jsstr :=
  match toks with
  | [] => Err UnexpectedEnd
  | TIdentifier n :: r => Ok (n, r)
  | _ :: _ => Err Unexpected
  end.

Definition expectString (toks : list Token) : Read jsstr :=
  match toks with
  | [] => Err UnexpectedEnd
  | TString v :: r => Ok (v, r)
  | _ :: _ => Err Unexpected
  end.

(** [this.peek()?.type === c] *)
Definition peekIs (c : Z) (toks : list Token) : bool :=
  match toks with TPunct d :: _ => d =? c | _ => false end.

(** The strings of a list after the first. *)
Fixpoint moreStrings (fuel : nat) (out : list jsstr) (toks : list Token) : Read (list jsstr) :=
  if peekIs 44 toks then
    match fuel with
    | O => Fuel
    | S f => let* (v, toks) := expectString (drop 1 toks) in moreStrings f (out ++ [v]) toks
    end
  else Ok (out, toks).

Definition parseStringList (toks : list Token) : Read (list jsstr) :=
  let* toks := expectPunct 91 toks in
  let* (out, toks) :=
    if peekIs 93 toks then Ok ([], toks)
    else let* (v, toks) := expectString toks in moreStrings (length toks) [v] toks in
  let* toks := expectPunct 93 toks in
  Ok (out, toks).

Fixpoint argsLoop (fuel : nat) (args : list SieveArg) (toks : list Token) : Read (list SieveArg) :=
  match fuel with
  | O => Fuel
  | S f =>
      match toks with
      | TTag n :: r => argsLoop f (args ++ [ATag n]) r
      | TNumber v :: r => argsLoop f (args ++ [ANumber v]) r
      | TString v :: r => argsLoop f (args ++ [AStrings [v]]) r
      | TPunct c :: _ =>
          if c =? 91 then let* (vs, toks) := parseStringList toks in argsLoop f (args ++ [AStrings vs]) toks
          else Ok (args, toks)
      | _ => Ok (args, toks)
      end
  end.

Definition parseArgs (toks : list Token) : Read (list SieveArg) := argsLoop (S (length toks)) [] toks.

Fixpoint parseTest (fuel : nat) (toks : list Token) : Read SieveTest :=
  match fuel with
  | O => Fuel
  | S f =>
      let* (name, toks) := expectIdentifier toks in
      if TEST_WITH_SUBTESTS name then
        let* toks := expectPunct 40 toks in
        let* (tests, toks) := if peekIs 41 toks then Ok ([], toks) else testItems f [] toks in
        let* toks := expectPunct 41 toks in
        Ok (Test name [] tests, toks)
      else if TEST_WITH_SUBTEST name then
        let* (inner, toks) := parseTest f toks in Ok (Test name [] [inner], toks)
      else let* (args, toks) := parseArgs toks in Ok (Test name args [], toks)
  end
(** The tests of a list, at least one. *)
with testItems (fuel : nat) (out : list SieveTest) (toks : list Token) : Read (list SieveTest) :=
  match fuel with
  | O => Fuel
  | S f =>
      let* (t, toks) := parseTest f toks in
      if peekIs 44 toks then testItems f (out ++ [t]) (drop 1 toks) else Ok (out ++ [t], toks)
  end.

Definition testFuel (toks : list Token) : nat := 2 * length toks + 1.

Fixpoint parseCommands (fuel depth : nat) (cmds : list SieveCommand) (toks : list Token) : Read (list SieveCommand) :=
  match fuel with
  | O => Fuel
  | S f =>
      match toks with
      | [] => Ok (cmds, toks)
      | _ :: _ =>
          if peekIs 125 toks then Ok (cmds, toks)
          else let* (c, toks) := parseCommand f depth toks in parseCommands f depth (cmds ++ [c]) toks
      end
  end
with parseCommand (fuel depth : nat) (toks : list Token) : Read SieveCommand :=
  match fuel with
  | O => Fuel
  | S f =>
      let* (name, toks) := expectIdentifier toks in
      let* (args, toks) := parseArgs toks in
      let* (test, toks) :=
        if CONTROL_WITH_TEST name then let* (t, toks) := parseTest (testFuel toks) toks in Ok (Some t, toks)
        else Ok (None, toks) in
      if peekIs 123 toks then
        if negb (CONTROL_WITH_BLOCK name) then Err (NoBlock name)
        else if (MAX_BLOCK_DEPTH <? S depth)%nat then Err TooDeep
        else
          let* (block, toks) := parseCommands f (S depth) [] (drop 1 toks) in
          let* toks := expectPunct 125 toks in
          Ok (Command name args test (Some block), toks)
      else let* toks := expectPunct 59 toks in Ok (Command name args test None, toks)
  end.

Definition parseSieve (src : jsstr) : Parse (list SieveCommand) :=
  let* toks := tokenize src in
  let* (cmds, _) := parseCommands (2 * length toks + 2) 0 [] toks in Ok cmds.

(** ** Termination *)

Lemma spanWhile_length p s : (length (spanWhile p s).2 <= length s)%nat.
Proof. induction s as [|c r IH]; cbn; [lia|]. destruct (p c); [|cbn; lia]. destruct (spanWhile p r). cbn in *. lia. Qed.

Lemma blockEnd_length s rest : blockEnd s = Some rest -> (length rest <= length s)%nat.
Proof.
  induction s as [|c r IH]; cbn; [done|]. destruct (_ && _); [intros [= <-]; rewrite length_drop; lia|]. intros H. specialize (IH H). lia.
Qed.

Lemma quotedString_length s : forall out v rest, quotedString out s = Some (v, rest) -> (length rest <= length s)%nat.
Proof.
  remember (length s) as n eqn:E. assert (Hn : (length s <= n)%nat) by lia. clear E. revert s Hn.
  induction n as [|n IH]; intros s Hn out v rest H; destruct s as [|c r]; cbn in *; try done; [lia|].
  destruct (c =? 34); [simplify_eq; lia|]. destruct (c =? 92).
  - destruct r as [|e r]; [done|]. cbn in Hn. specialize (IH r ltac:(lia) _ _ _ H). lia.
  - specialize (IH r ltac:(lia) _ _ _ H). lia.
Qed.

Lemma textLines_length s : forall out line v rest, textLines out line s = Some (v, rest) -> (length rest <= length s)%nat.
Proof.
  induction s as [|c r IH]; intros out line v rest H; cbn in H; [destruct (_ === _); simplify_eq; cbn; lia|].
  cbn [length]. destruct (c =? LF).
  - destruct (_ === _); [simplify_eq; lia|]. destruct r as [|x r]; [done|]. specialize (IH _ _ _ _ H). lia.
  - specialize (IH _ _ _ _ H). lia.
Qed.

Lemma unitOf_length s : (length (unitOf s).2 <= length s)%nat.
Proof. destruct s as [|c r]; cbn; [lia|]. repeat (destruct (_ || _)); cbn; lia. Qed.

(** Each iteration reads something. *)
Lemma lexOne_shorter c r :
  match lexOne c r with Skip rest | Tok _ rest => (length rest <= length r)%nat | LexErr _ => True end.
Proof.
  unfold lexOne. destruct (isSpace c); [lia|]. destruct (c =? 35); [apply spanWhile_length|].
  destruct (_ && _).
  { destruct (blockEnd _) eqn:E; [|done]. apply blockEnd_length in E. rewrite length_drop in E. lia. }
  destruct (isPunct c); [lia|]. destruct (c =? 58).
  { pose proof (spanWhile_length isIdentChar r) as H. by destruct (spanWhile isIdentChar r) as [[|]]. }
  destruct (isDigit c) eqn:Hd.
  { cbn [spanWhile]. rewrite Hd. pose proof (spanWhile_length isDigit r) as H. destruct (spanWhile isDigit r) as [a b].
    pose proof (unitOf_length b). destruct (unitOf b). cbn in *. lia. }
  destruct (c =? 34).
  { destruct (quotedString [] r) as [[v rest]|] eqn:E; [|done]. by apply quotedString_length in E. }
  destruct (startsWith _ _).
  { destruct (textLines _ _ _) as [[v rest]|] eqn:E; [|done]. apply textLines_length in E.
    pose proof (spanWhile_length (fun x => negb (x =? LF)) (drop 4 r)) as H. rewrite !length_drop in *. lia. }
  destruct (isIdentStart c) eqn:Hi; [|done]. cbn [spanWhile].
  assert (Hc : isIdentChar c = true) by (unfold isIdentChar; by rewrite Hi). rewrite Hc.
  pose proof (spanWhile_length isIdentChar r) as H. by destruct (spanWhile isIdentChar r).
Qed.

Lemma lexLoop_ok fuel s : (length s <= fuel)%nat -> okRes (lexLoop fuel s) (fun _ => True).
Proof.
  revert s. induction fuel as [|f IH]; intros s H; destruct s as [|c r]; cbn [lexLoop]; try done; [cbn in H; lia|].
  pose proof (lexOne_shorter c r) as Hs. cbn in H. destruct (lexOne c r); [apply IH; lia| |done].
  eapply okRes_bind; [apply IH; lia|done].
Qed.

(** A reader ends, and leaves fewer tokens. *)
Abbreviation shrinks := (fun r toks => okRes r (fun x => (length x.2 < length toks)%nat)).

Lemma expectPunct_ok c toks : okRes (expectPunct c toks) (fun r => (length r < length toks)%nat).
Proof. destruct toks as [|[]]; cbn; try done. destruct (_ =? _); cbn; [lia|done]. Qed.
Lemma expectIdentifier_ok toks : shrinks (expectIdentifier toks) toks.
Proof. destruct toks as [|[]]; cbn; try done. lia. Qed.
Lemma expectString_ok toks : shrinks (expectString toks) toks.
Proof. destruct toks as [|[]]; cbn; try done. lia. Qed.

Lemma peekIs_cons c toks : peekIs c toks = true -> toks = TPunct c :: drop 1 toks.
Proof. destruct toks as [|[]]; cbn; try done. intros ->%Z.eqb_eq. done. Qed.

Lemma peekIs_length c toks : peekIs c toks = true -> length toks = S (length (drop 1 toks)).
Proof. intros H%peekIs_cons. by rewrite H at 1. Qed.

Lemma moreStrings_ok fuel out toks : (length toks <= fuel)%nat ->
  okRes (moreStrings fuel out toks) (fun x => (length x.2 <= length toks)%nat).
Proof.
  revert out toks. induction fuel as [|f IH]; intros out toks H; cbn [moreStrings]; destruct (peekIs 44 toks) eqn:E; try (cbn; lia).
  - apply peekIs_length in E. lia.
  - apply peekIs_length in E. eapply okRes_bind; [apply expectString_ok|]. intros [v t] Ht. cbn in Ht.
    eapply okRes_impl; [apply IH; lia|]. cbn. lia.
Qed.

Lemma parseStringList_ok toks : shrinks (parseStringList toks) toks.
Proof.
  unfold parseStringList. eapply okRes_bind; [apply expectPunct_ok|]. intros t Ht.
  eapply (okRes_bind _ _ (fun x => (length x.2 <= length t)%nat)).
  - destruct (peekIs 93 t); [cbn; lia|]. eapply okRes_bind; [apply expectString_ok|]. intros [v t'] Ht'. cbn in Ht'.
    eapply okRes_impl; [apply moreStrings_ok; lia|]. cbn. lia.
  - intros [out t'] Ht'. cbn in Ht'. eapply okRes_bind; [apply expectPunct_ok|]. intros t2 H2. cbn in *. lia.
Qed.

Lemma argsLoop_ok fuel args toks : (length toks < fuel)%nat ->
  okRes (argsLoop fuel args toks) (fun x => (length x.2 <= length toks)%nat).
Proof.
  revert args toks. induction fuel as [|f IH]; intros args toks H; [lia|]. cbn [argsLoop].
  destruct toks as [|[n|n|v|v|c] r]; cbn in H; try (cbn; lia);
    try (eapply okRes_impl; [apply IH; lia|]; cbn; lia).
  destruct (c =? 91); [|cbn; lia]. eapply okRes_bind; [apply parseStringList_ok|]. intros [vs t] Ht. cbn [snd] in Ht.
  eapply okRes_impl; [apply IH; cbn in Ht; lia|]. cbn in *. lia.
Qed.

Lemma parseArgs_ok toks : okRes (parseArgs toks) (fun x => (length x.2 <= length toks)%nat).
Proof. apply argsLoop_ok. lia. Qed.

Lemma parseTest_ok fuel :
  (forall toks, (2 * length toks < fuel)%nat -> shrinks (parseTest fuel toks) toks) /\
  (forall out toks, (2 * length toks + 1 < fuel)%nat -> shrinks (testItems fuel out toks) toks).
Proof.
  induction fuel as [|f [IHt IHi]]; [split; intros; lia|]. split.
  - intros toks H. cbn [parseTest]. eapply okRes_bind; [apply expectIdentifier_ok|]. intros [name t] Ht. cbn in Ht.
    destruct (TEST_WITH_SUBTESTS name).
    + eapply okRes_bind; [apply expectPunct_ok|]. intros t2 H2. cbn beta in H2.
      eapply (okRes_bind _ _ (fun x => (length x.2 <= length t2)%nat)).
      * destruct (peekIs 41 t2); [cbn; lia|]. eapply okRes_impl; [apply IHi; lia|]. cbn. lia.
      * intros [ts t3] H3. cbn in H3. eapply okRes_bind; [apply expectPunct_ok|]. intros t4 H4. cbn in *. lia.
    + destruct (TEST_WITH_SUBTEST name).
      * eapply okRes_bind; [apply IHt; lia|]. intros [x t2] H2. cbn in *. lia.
      * eapply okRes_bind; [apply parseArgs_ok|]. intros [x t2] H2. cbn in *. lia.
  - intros out toks H. cbn [testItems]. eapply okRes_bind; [apply IHt; lia|]. intros [x t] Ht. cbn in Ht.
    destruct (peekIs 44 t) eqn:E; [|cbn; lia]. apply peekIs_length in E. eapply okRes_impl; [apply IHi; lia|]. cbn. lia.
Qed.

(** How deep blocks are nested in a command. *)
Fixpoint depthOf (c : SieveCommand) : nat :=
  match c with
  | Command _ _ _ None => 0
  | Command _ _ _ (Some b) => S (fold_right Nat.max 0%nat (map depthOf b))
  end.
Definition depthAll (cs : list SieveCommand) : nat := fold_right Nat.max 0%nat (map depthOf cs).

Lemma depthAll_app a b : depthAll (a ++ b) = Nat.max (depthAll a) (depthAll b).
Proof. unfold depthAll. induction a as [|x a IH]; cbn; [lia|]. rewrite IH. lia. Qed.

Lemma parseCommands_ok fuel :
  (forall depth cmds toks, (2 * length toks + 1 < fuel)%nat -> (depthAll cmds + depth <= MAX_BLOCK_DEPTH)%nat ->
     okRes (parseCommands fuel depth cmds toks) (fun x =>
       (length x.2 <= length toks)%nat /\ (depthAll x.1 + depth <= MAX_BLOCK_DEPTH)%nat)) /\
  (forall depth toks, (2 * length toks < fuel)%nat -> (depth <= MAX_BLOCK_DEPTH)%nat ->
     okRes (parseCommand fuel depth toks) (fun x =>
       (length x.2 < length toks)%nat /\ (depthOf x.1 + depth <= MAX_BLOCK_DEPTH)%nat)).
Proof.
  induction fuel as [|f [IHs IHc]]; [split; intros; lia|]. split.
  - intros depth cmds toks H Hd. cbn [parseCommands]. destruct toks as [|t0 r]; [done|].
    destruct (peekIs 125 (t0 :: r)); [done|]. eapply okRes_bind; [apply IHc; lia|]. intros [c t] [Ht Hc]. cbn in Ht, Hc.
    eapply okRes_impl; [apply IHs; [cbn in *; lia|]|].
    + rewrite depthAll_app. cbn. lia.
    + cbn. lia.
  - intros depth toks H Hd. cbn [parseCommand]. eapply okRes_bind; [apply expectIdentifier_ok|]. intros [name t] Ht. cbn in Ht.
    eapply okRes_bind; [apply parseArgs_ok|]. intros [args t1] H1. cbn in H1.
    eapply (okRes_bind _ _ (fun x => (length x.2 <= length t1)%nat)).
    { destruct (CONTROL_WITH_TEST name); [|cbn; lia].
      eapply okRes_bind; [apply parseTest_ok; unfold testFuel; lia|]. intros [x t2] H2. cbn in *. lia. }
    intros [test t2] H2. cbn in H2. destruct (peekIs 123 t2) eqn:E.
    + destruct (CONTROL_WITH_BLOCK name); [|done]. cbn [negb]. destruct (Nat.ltb_spec MAX_BLOCK_DEPTH (S depth)); [done|].
      apply peekIs_length in E. eapply okRes_bind; [apply IHs; [lia|cbn; lia]|]. intros [b t3] [H3 Hb]. cbn in H3, Hb.
      eapply okRes_bind; [apply expectPunct_ok|]. intros t4 H4. cbn in H4 |- *. unfold depthAll in Hb. split; lia.
    + eapply okRes_bind; [apply expectPunct_ok|]. intros t3 H3. cbn in H3 |- *. split; lia.
Qed.

Lemma parseSieve_ok src : okRes (parseSieve src) (fun cmds => (depthAll cmds <= MAX_BLOCK_DEPTH)%nat).
Proof.
  unfold parseSieve. eapply okRes_bind; [by apply lexLoop_ok|]. intros toks _.
  eapply okRes_bind; [apply parseCommands_ok; [lia|cbn; unfold MAX_BLOCK_DEPTH; lia]|]. intros [cmds t] [_ Hd]. cbn [fst] in Hd. change (depthAll cmds <= MAX_BLOCK_DEPTH)%nat. lia.
Qed.

(** Every text is a script or a syntax error: lexer and parser end on every input, and a script
    that parses nests its blocks at most 64 deep. *)
Theorem sieve_parse_total src :
  parseSieve src <> Fuel /\ (forall cmds, parseSieve src = Ok cmds -> Forall (fun c => (depthOf c <= MAX_BLOCK_DEPTH)%nat) cmds).
Proof.
  pose proof (parseSieve_ok src) as H. destruct (parseSieve src) as [cmds|e|]; cbn in H; [|done|done].
  split; [done|]. intros cmds' [= <-]. unfold depthAll in H. induction cmds as [|c cmds IH]; [done|]. cbn in H.
  constructor; [lia|apply IH; lia].
Qed.

(** ** Writing scripts *)

Definition escape (s : jsstr) : jsstr := flat_map (fun c => if (c =? 34) || (c =? 92) then [92; c] else [c]) s.

Definition printToken (t : Token) : jsstr :=
  match t with
  | TIdentifier n => n
  | TTag n => 58 :: n
  | TNumber v => match v with NumInt z => numToString z | _ => [] end
  | TString v => [34] ++ escape v ++ [34]
  | TPunct c => [c]
  end.
Definition printTokens (ts : list Token) : jsstr := flat_map (fun t => printToken t ++ [SP]) ts.

Definition isName (n : jsstr) : bool := match n with c :: _ => isIdentStart c | [] => false end && forallb isIdentChar n.

(** Tokens that can be written. *)
Definition wfToken (t : Token) : bool :=
  match t with
  | TIdentifier n => isName n
  | TTag n => negb (n === []) && forallb isIdentChar n
  | TNumber v => match v with NumInt z => (0 <=? z) && (z <=? 2 ^ 53) | _ => false end
  | TString _ => true
  | TPunct c => isPunct c
  end.

Lemma lexLoop_fuel f g s : (length s <= f)%nat -> (length s <= g)%nat -> lexLoop f s = lexLoop g s.
Proof.
  revert g s. induction f as [|f IH]; intros g s Hf Hg; destruct s as [|c r]; cbn in Hf; try lia.
  - by destruct g.
  - by destruct g.
  - destruct g as [|g]; cbn in Hg; [lia|]. cbn [lexLoop]. pose proof (lexOne_shorter c r) as Hs.
    destruct (lexOne c r); [apply IH; lia| |done]. by rewrite (IH g) by lia.
Qed.

Lemma tokenize_cons c r : tokenize (c :: r) =
  match lexOne c r with
  | Skip rest => tokenize rest
  | Tok t rest => let* ts := tokenize rest in Ok (t :: ts)
  | LexErr e => Err e
  end%js.
Proof.
  unfold tokenize. cbn [lexLoop length]. pose proof (lexOne_shorter c r) as Hs.
  destruct (lexOne c r) as [rest|t rest|e]; [apply lexLoop_fuel; lia| |done]. by rewrite (lexLoop_fuel (length r) (length rest)) by lia.
Qed.

Lemma spanWhile_app p a c r : forallb p a = true -> p c = false -> spanWhile p (a ++ c :: r) = (a, c :: r).
Proof.
  intros Ha Hc. induction a as [|x a IH]; cbn; [by rewrite Hc|]. cbn in Ha. apply andb_true_iff in Ha as [Hx Ha].
  by rewrite Hx, (IH Ha).
Qed.

Lemma quotedString_escape v r : forall out, quotedString out (escape v ++ 34 :: r) = Some (out ++ v, r).
Proof.
  unfold escape. induction v as [|c v IH]; intros out; cbn [flat_map app]; [cbn; by rewrite app_nil_r|].
  destruct (c =? 34) eqn:E1; [|destruct (c =? 92) eqn:E2]; cbn [orb app].
  - cbn. by rewrite IH, <- app_assoc.
  - cbn. by rewrite IH, <- app_assoc.
  - cbn [quotedString]. by rewrite E1, E2, IH, <- app_assoc.
Qed.

Lemma isIdentChar_facts c : isIdentChar c = true ->
  isSpace c = false /\ (c =? 35) = false /\ (c =? 47) = false /\ isPunct c = false /\ (c =? 58) = false /\ (c =? 34) = false.
Proof.
  intros H. assert (Hr : 46 <= c <= 122) by (unfold isIdentChar, isIdentStart, isDigit in H; repeat (apply orb_true_iff in H as [H|H]); bool_hyps; lia).
  assert (Hall : forallb (fun c => negb (isIdentChar c) || (negb (isSpace c) && negb (c =? 35) && negb (c =? 47) && negb (isPunct c) && negb (c =? 58) && negb (c =? 34)))
                   (map Z.of_nat (seq 46 77)) = true) by (vm_compute; reflexivity).
  rewrite forallb_forall in Hall. specialize (Hall c). rewrite H in Hall. cbn [negb orb] in Hall.
  assert (Hin : In c (map Z.of_nat (seq 46 77))) by (apply in_map_iff; exists (Z.to_nat c); split; [lia|apply in_seq; lia]).
  specialize (Hall Hin). rewrite !andb_true_iff, !negb_true_iff in Hall. tauto.
Qed.

Lemma startsWith_text n r : forallb isIdentChar n = true -> startsWith (js "text:") (n ++ SP :: r) = false.
Proof.
  intros H. let x := eval vm_compute in (js "text:") in change (js "text:") with x.
  assert (H58 : forall c, isIdentChar c = true -> (58 =? c) = false).
  { intros c Hc. apply isIdentChar_facts in Hc as (_ & _ & _ & _ & Hc & _). by rewrite Z.eqb_sym. }
  do 5 (destruct n as [|?c n]; cbn [app startsWith forallb] in *;
        [by repeat (rewrite ?andb_false_r; cbn; try (destruct (_ =? _)))|apply andb_true_iff in H as [? H]]).
  rewrite (H58 c3) by done. by rewrite !andb_false_r.
Qed.

Lemma lexOne_name n r : isName n = true ->
  exists c n', n = c :: n' /\ lexOne c (n' ++ SP :: r) = Tok (TIdentifier n) (SP :: r).
Proof.
  unfold isName. destruct n as [|c n']; [done|]. intros [Hs Ha]%andb_true_iff. exists c, n'. split; [done|].
  assert (Hc : isIdentChar c = true) by (unfold isIdentChar; by rewrite Hs).
  destruct (isIdentChar_facts c Hc) as (H1 & H2 & H3 & H4 & H5 & H6). unfold lexOne. rewrite H1, H2, H3, H4, H5, H6. cbn [andb].
  assert (Hd : isDigit c = false).
  { unfold isIdentStart in Hs. unfold isDigit. repeat (apply orb_true_iff in Hs as [Hs|Hs]); bool_hyps; apply andb_false_iff; lia. }
  rewrite Hd. change (c :: n' ++ SP :: r) with ((c :: n') ++ SP :: r). rewrite startsWith_text by done. rewrite Hs.
  by rewrite spanWhile_app.
Qed.

Lemma lexOne_token t r : wfToken t = true ->
  exists c n', printToken t = c :: n' /\ lexOne c (n' ++ SP :: r) = Tok t (SP :: r).
Proof.
  destruct t as [n|n|v|v|c]; cbn [wfToken printToken]; intros H.
  - by apply lexOne_name.
  - exists 58, n. split; [done|]. apply andb_true_iff in H as [Hn Ha]. unfold lexOne.
    change (isSpace 58) with false. change (isPunct 58) with false. cbn -[spanWhile]. rewrite spanWhile_app by done.
    by destruct n.
  - destruct v as [| | |z]; try done. bool_hyps. assert (Hd : isDigits (numToString z) = true) by (apply numToString_digits; lia).
    destruct (numToString z) as [|c n'] eqn:Hz; [done|]. exists c, n'. split; [done|].
    assert (Hc : isDigit c = true) by (unfold isDigits in Hd; cbn in Hd; by apply andb_true_iff in Hd as [? _]).
    assert (Hi : isIdentChar c = true) by (unfold isIdentChar; by rewrite Hc, orb_true_r).
    destruct (isIdentChar_facts c Hi) as (H1 & H2 & H3 & H4 & H5 & _). unfold lexOne. rewrite H1, H2, H3, H4, H5, Hc. cbn [andb].
    change (c :: n' ++ SP :: r) with ((c :: n') ++ SP :: r). rewrite spanWhile_app by done.
    change (unitOf (SP :: r)) with (1, SP :: r). cbv beta iota. rewrite <- Hz, jsNumber_numToString by lia.
    cbn [mulNum]. rewrite Z.mul_1_r, (proj2 (Z.leb_gt _ _)); [done|].
    apply (Z.le_lt_trans _ (2 ^ 53)); [lia|]. apply Z.pow_lt_mono_r; lia.
  - exists 34, (escape v ++ [34]). split; [done|]. unfold lexOne. cbn -[quotedString escape].
    rewrite <- app_assoc. cbn [app]. by rewrite quotedString_escape.
  - exists c, []. split; [done|]. cbn [app]. unfold lexOne.
    assert (Hc : existsb (Z.eqb c) PUNCTUATION = true) by done. apply existsb_exists in Hc as (d & Hd & ->%Z.eqb_eq).
    assert (Hall : forallb (fun c => negb (isSpace c) && negb (c =? 35) && negb (c =? 47)) PUNCTUATION = true) by (vm_compute; reflexivity).
    rewrite forallb_forall in Hall. apply Hall in Hd.
    rewrite !andb_true_iff, !negb_true_iff in Hd. destruct Hd as [[-> ->] ->]. cbn [andb]. by rewrite H.
Qed.

Lemma tokenize_print ts : forallb wfToken ts = true -> forall s, tokenize (printTokens ts ++ s) = (let* r := tokenize s in Ok (ts ++ r))%js.
Proof.
  intros H s. induction ts as [|t ts IH]; cbn [printTokens flat_map app]; [by destruct (tokenize s)|].
  cbn in H. apply andb_true_iff in H as [Ht H]. rewrite <- !app_assoc. cbn [app].
  destruct (lexOne_token t (printTokens ts ++ s) Ht) as (c & n' & -> & Hl). cbn [app]. rewrite tokenize_cons.
  unfold printTokens in Hl. rewrite Hl. rewrite tokenize_cons. change (lexOne SP _) with (Skip (flat_map (fun t => printToken t ++ [SP]) ts ++ s)). cbv beta iota.
  fold (printTokens ts). rewrite (IH H). by destruct (tokenize s).
Qed.

(** ** Writing trees *)

(** Pieces with commas between them. *)
Fixpoint separated (l : list (list Token)) : list Token :=
  match l with
  | [] => []
  | [x] => x
  | x :: r => x ++ TPunct 44 :: separated r
  end.

Definition argTokens (a : SieveArg) : list Token :=
  match a with
  | ATag n => [TTag n]
  | ANumber v => [TNumber v]
  | AStrings [v] => [TString v]
  | AStrings vs => TPunct 91 :: separated (map (fun v => [TString v]) vs) ++ [TPunct 93]
  end.

Fixpoint testTokens (t : SieveTest) : list Token :=
  match t with
  | Test name args tests =>
      TIdentifier name ::
      (if TEST_WITH_SUBTESTS name then TPunct 40 :: separated (map testTokens tests) ++ [TPunct 41]
       else flat_map argTokens args ++ flat_map testTokens tests)
  end.

Fixpoint commandTokens (c : SieveCommand) : list Token :=
  match c with
  | Command name args test block =>
      TIdentifier name :: flat_map argTokens args ++ (match test with Some t => testTokens t | None => [] end) ++
      (match block with Some b => TPunct 123 :: flat_map commandTokens b ++ [TPunct 125] | None => [TPunct 59] end)
  end.

Definition printScript (cs : list SieveCommand) : jsstr := printTokens (flat_map commandTokens cs).

(** Trees that can be written: names and numbers of the grammar, sub-tests under the tests that
    take them, a condition exactly where one is read, blocks only where one may stand. *)
Definition wfArg (a : SieveArg) : bool :=
  match a with ATag n => wfToken (TTag n) | ANumber v => wfToken (TNumber v) | AStrings _ => true end.

Fixpoint wfTest (t : SieveTest) : bool :=
  match t with
  | Test name args tests =>
      isName name && forallb wfTest tests &&
      (if TEST_WITH_SUBTESTS name then match args with [] => true | _ => false end
       else if TEST_WITH_SUBTEST name then match args, tests with [], [_] => true | _, _ => false end
       else forallb wfArg args && match tests with [] => true | _ => false end)
  end.

Fixpoint wfCommand (c : SieveCommand) : bool :=
  match c with
  | Command name args test block =>
      isName name && forallb wfArg args &&
      eqb (CONTROL_WITH_TEST name) (match test with Some _ => true | None => false end) &&
      match test with Some t => wfTest t | None => true end &&
      match block with Some b => CONTROL_WITH_BLOCK name && forallb wfCommand b | None => true end
  end.

(** ** Reading them back *)

(** What ends a list of arguments. *)
Definition stops (toks : list Token) : Prop :=
  match toks with [] | TIdentifier _ :: _ => True | TPunct c :: _ => c <> 91 | _ => False end.

Lemma moreStrings_print vs : forall fuel out rest, (length vs <= fuel)%nat -> peekIs 44 rest = false ->
  moreStrings fuel out (flat_map (fun v => [TPunct 44; TString v]) vs ++ rest) = Ok (out ++ vs, rest).
Proof.
  induction vs as [|v vs IH]; intros fuel out rest Hf Hr.
  - rewrite app_nil_r. destruct fuel; cbn [moreStrings flat_map app]; by rewrite Hr.
  - cbn in Hf. destruct fuel as [|f]; [lia|]. cbn. rewrite IH by (done || lia). by rewrite <- app_assoc.
Qed.

Lemma separated_strings v vs : separated (map (fun v => [TString v]) (v :: vs)) = TString v :: flat_map (fun v => [TPunct 44; TString v]) vs.
Proof.
  revert v. induction vs as [|w vs IH]; intros v; [done|]. specialize (IH w). cbn in *. by rewrite IH.
Qed.

Lemma parseStringList_print vs rest :
  parseStringList (TPunct 91 :: separated (map (fun v => [TString v]) vs) ++ TPunct 93 :: rest) = Ok (vs, rest).
Proof.
  unfold parseStringList. cbn [expectPunct Z.eqb Pos.eqb bindRes]. change (91 =? 91) with true. cbv iota. cbn [bindRes].
  destruct vs as [|v vs]; [done|]. rewrite separated_strings. cbn [app peekIs expectString bindRes].
  rewrite (moreStrings_print vs) by (done || (rewrite length_app; enough (length vs <= length (flat_map (fun v => [TPunct 44; TString v]) vs))%nat by lia;
    clear; induction vs; cbn in *; lia)). done.
Qed.

Lemma argTokens_nonempty a : (0 < length (argTokens a))%nat.
Proof. destruct a as [|[|v [|]]|]; cbn; lia. Qed.

Lemma argsLoop_print args : forall fuel acc rest, (length (flat_map argTokens args) < fuel)%nat -> stops rest ->
  argsLoop fuel acc (flat_map argTokens args ++ rest) = Ok (acc ++ args, rest).
Proof.
  induction args as [|a args IH]; intros fuel acc rest Hf Hs.
  - rewrite app_nil_r. destruct fuel as [|f]; [lia|]. cbn [flat_map app argsLoop].
    destruct rest as [|[] r]; try done. cbn in Hs. by rewrite (proj2 (Z.eqb_neq _ _)).
  - cbn [flat_map] in *. rewrite length_app in Hf. pose proof (argTokens_nonempty a). destruct fuel as [|f]; [lia|].
    replace (acc ++ a :: args) with ((acc ++ [a]) ++ args) by (by rewrite <- app_assoc).
    destruct a as [n|vs|v]; try (cbn; apply IH; [cbn in Hf; lia|done]).
    assert (Hone : forall v, vs = [v] -> argsLoop (S f) acc ((argTokens (AStrings vs) ++ flat_map argTokens args) ++ rest) = Ok ((acc ++ [AStrings vs]) ++ args, rest)).
    { intros v ->. cbn. apply IH; [cbn in Hf; lia|done]. }
    assert (Hd : (exists v, vs = [v]) \/ ~ (exists v, vs = [v])) by (destruct vs as [|v [|]]; [right|left|right]; naive_solver).
    destruct Hd as [[v Hv]|Hn]; [by apply (Hone v)|].
    assert (Hv : argTokens (AStrings vs) = TPunct 91 :: separated (map (fun v => [TString v]) vs) ++ [TPunct 93]).
    { destruct vs as [|v [|]]; try done. by destruct Hn; exists v. }
    rewrite Hv, <- app_assoc. cbn [app]. rewrite <- app_assoc. cbn [app argsLoop]. change (91 =? 91) with true. cbv iota.
    rewrite parseStringList_print. cbn [bindRes]. apply IH; [lia|done].
Qed.

Lemma parseArgs_print args rest : stops rest -> parseArgs (flat_map argTokens args ++ rest) = Ok (args, rest).
Proof. intros H. unfold parseArgs. apply argsLoop_print; [rewrite length_app; lia|done]. Qed.

Lemma separated_cons x y l : separated (x :: y :: l) = x ++ TPunct 44 :: separated (y :: l).
Proof. done. Qed.

Lemma testTokens_head t : exists n r, testTokens t = TIdentifier n :: r.
Proof. destruct t. cbn. eauto. Qed.

Lemma separated_head t ts rest : exists n r, separated (map testTokens (t :: ts)) ++ rest = TIdentifier n :: r.
Proof.
  destruct (testTokens_head t) as (n & r & H). destruct ts as [|t' ts]; cbn [map separated]; rewrite H; cbn; eauto.
Qed.

Lemma parseTest_print fuel :
  (forall t rest, wfTest t = true -> stops rest -> (2 * length (testTokens t) < fuel)%nat ->
     parseTest fuel (testTokens t ++ rest) = Ok (t, rest)) /\
  (forall ts t out rest, forallb wfTest (t :: ts) = true -> stops rest -> peekIs 44 rest = false ->
     (2 * length (separated (map testTokens (t :: ts))) + 1 < fuel)%nat ->
     testItems fuel out (separated (map testTokens (t :: ts)) ++ rest) = Ok (out ++ t :: ts, rest)).
Proof.
  induction fuel as [|f [IHt IHi]]; [split; intros; lia|]. split.
  - intros [name args tests] rest Hw Hs Hf. cbn [wfTest] in Hw. apply andb_true_iff in Hw as [Hw Hsh]. apply andb_true_iff in Hw as [Hn Ht].
    cbn [testTokens] in *. cbn [app parseTest expectIdentifier bindRes]. destruct (TEST_WITH_SUBTESTS name) eqn:E1.
    + destruct args; [|done]. cbn [app expectPunct]. change (40 =? 40) with true. cbv iota. cbn [bindRes].
      rewrite <- app_assoc. cbn [app]. cbn [length] in Hf. rewrite length_app in Hf.
      destruct tests as [|t ts]; [done|].
      assert (Hp : peekIs 41 (separated (map testTokens (t :: ts)) ++ TPunct 41 :: rest) = false)
        by (destruct (separated_head t ts (TPunct 41 :: rest)) as (n & r & ->); done).
      rewrite Hp. rewrite IHi by (done || lia). done.
    + destruct (TEST_WITH_SUBTEST name) eqn:E2.
      * destruct args; [|done]. destruct tests as [|t [|]]; try done. cbn in Ht. apply andb_true_iff in Ht as [Ht _].
        cbn [flat_map app]. rewrite app_nil_r. cbn [flat_map app length] in Hf. rewrite app_nil_r in Hf. rewrite IHt by (done || lia). done.
      * apply andb_true_iff in Hsh as [Ha Hsh]. destruct tests; [|done]. cbn [flat_map]. rewrite app_nil_r.
        rewrite parseArgs_print by done. done.
  - intros ts t out rest Hw Hs Hr Hf. cbn in Hw. apply andb_true_iff in Hw as [Ht Hts]. cbn [testItems].
    destruct ts as [|t' ts].
    + cbn [map separated] in Hf |- *. rewrite IHt by (done || lia). cbn [bindRes]. by rewrite Hr.
    + cbn [map] in Hf |- *. rewrite separated_cons in Hf |- *. rewrite length_app in Hf. cbn [length] in Hf. rewrite <- app_assoc. cbn [app].
      rewrite IHt by (done || lia). cbn [bindRes peekIs drop]. change (44 =? 44) with true. cbv iota.
      change (testTokens t' :: map testTokens ts) with (map testTokens (t' :: ts)) in Hf |- *.
      rewrite drop_0, IHi by (done || lia). by rewrite <- app_assoc.
Qed.

Lemma parseCommands_print fuel :
  (forall c depth rest, wfCommand c = true -> (depthOf c + depth <= MAX_BLOCK_DEPTH)%nat -> (2 * length (commandTokens c) < fuel)%nat ->
     parseCommand fuel depth (commandTokens c ++ rest) = Ok (c, rest)) /\
  (forall cs depth out rest, forallb wfCommand cs = true -> (depthAll cs + depth <= MAX_BLOCK_DEPTH)%nat ->
     (match rest with [] => True | _ => peekIs 125 rest = true end) ->
     (2 * length (flat_map commandTokens cs) + 1 < fuel)%nat ->
     parseCommands fuel depth out (flat_map commandTokens cs ++ rest) = Ok (out ++ cs, rest)).
Proof.
  induction fuel as [|f [IHc IHs]]; [split; intros; lia|]. split.
  - intros [name args test block] depth rest Hw Hd Hf. cbn [wfCommand] in Hw. rewrite !andb_true_iff in Hw.
    destruct Hw as [[[[Hn Ha] Hct] Ht] Hb]. apply eqb_prop in Hct. cbn [commandTokens] in *. cbn [app length] in *.
    rewrite !length_app in Hf. cbn [parseCommand expectIdentifier bindRes]. rewrite <- !app_assoc.
    set (tail := match block with Some b => TPunct 123 :: flat_map commandTokens b ++ [TPunct 125] | None => [TPunct 59] end) in *.
    assert (Htail : stops (tail ++ rest)) by (unfold tail; by destruct block).
    rewrite parseArgs_print by (destruct test as [t|]; [destruct (testTokens_head t) as (n & r & ->); done|done]).
    cbn [bindRes]. rewrite Hct.
    assert (Hmid : (if match test with Some _ => true | None => false end
               then let* (t, toks) := parseTest (testFuel (match test with Some t => testTokens t | None => [] end ++ tail ++ rest))
                                        (match test with Some t => testTokens t | None => [] end ++ tail ++ rest) in Ok (Some t, toks)
               else Ok (None, match test with Some t => testTokens t | None => [] end ++ tail ++ rest))%js = Ok (test, tail ++ rest)).
    { destruct test as [t|]; [|done]. rewrite (proj1 (parseTest_print _)); [done|done|done|]. unfold testFuel. rewrite length_app. lia. }
    rewrite Hmid. cbn [bindRes]. unfold tail in *. destruct block as [b|].
    + apply andb_true_iff in Hb as [Hcb Hb]. cbn [app peekIs]. change (123 =? 123) with true. cbv iota. rewrite Hcb. cbn [negb].
      cbn [depthOf] in Hd. rewrite (proj2 (Nat.ltb_ge _ _)) by lia. cbn [drop]. rewrite <- app_assoc. cbn [length] in Hf. rewrite length_app in Hf.
      rewrite drop_0, IHs; [done|done|unfold depthAll; lia|done|lia].
    + cbn [app peekIs]. change (59 =? 123) with false. cbv iota. done.
  - intros cs depth out rest Hw Hd Hr Hf. cbn [parseCommands]. destruct cs as [|c cs].
    + rewrite app_nil_r. cbn [flat_map app]. destruct rest; [done|]. by rewrite Hr.
    + cbn [flat_map forallb] in *. apply andb_true_iff in Hw as [Hc Hcs]. rewrite length_app in Hf. rewrite <- app_assoc.
      assert (Hh : exists n r, commandTokens c = TIdentifier n :: r) by (destruct c; cbn; eauto). destruct Hh as (n & r & Hh).
      unfold depthAll in Hd. cbn [map fold_right] in Hd. fold (depthAll cs) in Hd.
      assert (Hstep : parseCommand f depth (commandTokens c ++ flat_map commandTokens cs ++ rest) = Ok (c, flat_map commandTokens cs ++ rest))
        by (apply IHc; [done|lia|lia]).
      rewrite Hh in *. cbn [app] in *. cbn [peekIs]. rewrite Hstep. cbn [bindRes].
      rewrite IHs; [by rewrite <- app_assoc|done|lia|done|cbn in Hf; lia].
Qed.

(** ** Whole scripts *)

Section Induction.
Context (P : SieveTest -> Prop) (HP : forall n a ts, Forall P ts -> P (Test n a ts)).
Fixpoint SieveTest_ind' (t : SieveTest) : P t :=
  match t with
  | Test n a ts => HP n a ts ((fix all (ts : list SieveTest) : Forall P ts := match ts with [] => Forall_nil_2 P | t :: ts => Forall_cons_2 P t ts (SieveTest_ind' t) (all ts) end) ts)
  end.

Context (Q : SieveCommand -> Prop) (HQ : forall n a t b, match b with Some b => Forall Q b | None => True end -> Q (Command n a t b)).
Fixpoint SieveCommand_ind' (c : SieveCommand) : Q c :=
  match c with
  | Command n a t None => HQ n a t None I
  | Command n a t (Some b) =>
      HQ n a t (Some b) ((fix all (b : list SieveCommand) : Forall Q b := match b with [] => Forall_nil_2 Q | c :: b => Forall_cons_2 Q c b (SieveCommand_ind' c) (all b) end) b)
  end.
End Induction.

Lemma separated_wf l : forallb (forallb wfToken) l = true -> forallb wfToken (separated l) = true.
Proof.
  induction l as [|x [|y l] IH]; intros H; [done|cbn in *; by apply andb_true_iff in H as [? _]|].
  cbn [forallb] in H. apply andb_true_iff in H as [Hx H]. rewrite separated_cons, forallb_app, Hx. cbn [andb forallb]. by rewrite IH.
Qed.

Lemma argTokens_wf args : forallb wfArg args = true -> forallb wfToken (flat_map argTokens args) = true.
Proof.
  induction args as [|a args IH]; [done|]. cbn [forallb flat_map]. intros [Ha H]%andb_true_iff. rewrite forallb_app, IH, andb_true_r by done.
  destruct a as [n|[|v [|w vs]]|z]; cbn [argTokens wfArg] in *; try done; try (cbn [forallb]; by rewrite Ha).
  cbn [forallb]. change (wfToken (TPunct 91)) with true. cbn [andb]. rewrite forallb_app, separated_wf; [done|].
  apply forallb_forall. intros x Hx. apply in_map_iff in Hx as (y & <- & _). done.
Qed.

Lemma flat_map_wf {A} (f : A -> list Token) l : Forall (fun x => forallb wfToken (f x) = true) l -> forallb wfToken (flat_map f l) = true.
Proof. induction 1 as [|x l Hx _ IH]; [done|]. cbn. by rewrite forallb_app, Hx, IH. Qed.

Lemma testTokens_wf t : wfTest t = true -> forallb wfToken (testTokens t) = true.
Proof.
  induction t as [name args tests IH] using SieveTest_ind'. cbn [wfTest testTokens]. rewrite !andb_true_iff. intros [[Hn Ht] Hs].
  assert (Hall : Forall (fun t => forallb wfToken (testTokens t) = true) tests).
  { rewrite forallb_forall in Ht. rewrite Forall_forall in IH |- *. intros x Hx. apply IH; [done|]. apply Ht. by apply list_elem_of_In. }
  cbn [forallb wfToken]. rewrite Hn. cbn [andb]. destruct (TEST_WITH_SUBTESTS name).
  - cbn [forallb]. change (wfToken (TPunct 40)) with true. cbn [andb]. rewrite forallb_app, separated_wf; [done|].
    apply forallb_forall. intros x Hx. apply in_map_iff in Hx as (y & <- & Hy). rewrite Forall_forall in Hall. apply Hall. by apply list_elem_of_In.
  - rewrite forallb_app, (flat_map_wf testTokens tests) by done. destruct (TEST_WITH_SUBTEST name); [by destruct args|].
    apply andb_true_iff in Hs as [Ha _]. by rewrite argTokens_wf.
Qed.

Lemma commandTokens_wf c : wfCommand c = true -> forallb wfToken (commandTokens c) = true.
Proof.
  induction c as [name args test block IH] using SieveCommand_ind'. cbn [wfCommand commandTokens]. rewrite !andb_true_iff.
  intros [[[[Hn Ha] _] Ht] Hb]. cbn [forallb wfToken]. rewrite Hn. cbn [andb]. rewrite !forallb_app, argTokens_wf by done.
  assert (Hx : forallb wfToken (match test with Some t => testTokens t | None => [] end) = true)
    by (destruct test; [by apply testTokens_wf|done]). rewrite Hx. cbn [andb].
  destruct block as [b|]; [|done]. apply andb_true_iff in Hb as [_ Hb]. cbn [forallb]. change (wfToken (TPunct 123)) with true. cbn [andb].
  rewrite forallb_app, flat_map_wf; [done|]. rewrite forallb_forall in Hb. rewrite Forall_forall in IH |- *.
  intros x Hx'. apply IH; [done|]. apply Hb. by apply list_elem_of_In.
Qed.

Definition wfScript (cs : list SieveCommand) : bool := forallb wfCommand cs && (depthAll cs <=? MAX_BLOCK_DEPTH)%nat.

Lemma scriptTokens_wf cs : forallb wfCommand cs = true -> forallb wfToken (flat_map commandTokens cs) = true.
Proof.
  intros H. apply flat_map_wf. rewrite forallb_forall in H. apply Forall_forall. intros c Hc. apply commandTokens_wf, H. by apply list_elem_of_In.
Qed.

(** A written script, with [s] behind it where the parser stops. *)
Lemma parseSieve_print cs s toks :
  wfScript cs = true -> tokenize s = Ok toks -> (match toks with [] => True | _ => peekIs 125 toks = true end) ->
  parseSieve (printScript cs ++ s) = Ok cs.
Proof.
  unfold wfScript. intros [Hw Hd]%andb_true_iff Hs Hp. apply Nat.leb_le in Hd. unfold parseSieve, printScript.
  rewrite tokenize_print by (by apply scriptTokens_wf). rewrite Hs. cbn [bindRes].
  rewrite (proj2 (parseCommands_print _)); [done|done|lia|done|]. rewrite length_app. lia.
Qed.

(** C32: writing a script and parsing the text gives the script back, for every tree of the grammar
    whose blocks are nested at most 64 deep: tags, numbers, strings with any characters in them,
    lists of strings, tests within tests, blocks within blocks. *)
Theorem sieve_roundtrip cs : wfScript cs = true -> parseSieve (printScript cs) = Ok cs.
Proof.
  intros H. rewrite <- (app_nil_r (printScript cs)). by apply (parseSieve_print cs [] []).
Qed.

(** A script with a condition, a list of strings and a number. *)
Definition script0 : list SieveCommand :=
  [Command (js "require") [AStrings [js "fileinto"; js "copy"]] None None;
   Command (js "if") [] (Some (Test (js "anyof") [] [Test (js "not") [] [Test (js "exists") [AStrings [js "X"]] []];
                                                     Test (js "size") [ATag (js "over"); ANumber (NumInt 102400)] []]))
     (Some [Command (js "fileinto") [ATag (js "copy"); AStrings [[34; 92; 0x1F4]]] None None; Command (js "stop") [] None None])].

Lemma sieve_roundtrip_witness : parseSieve (printScript script0) = Ok script0.
Proof. apply sieve_roundtrip. vm_compute. reflexivity. Defined.

(** ** Two gaps *)

(** A closing brace that closes nothing ends the script: what follows it is dropped without an
    error, as long as it can be cut into tokens. *)
Lemma sieve_stray_brace cs junk toks :
  wfScript cs = true -> tokenize junk = Ok toks -> parseSieve (printScript cs ++ 125 :: junk) = Ok cs.
Proof.
  intros Hw Hj. apply (parseSieve_print cs (125 :: junk) (TPunct 125 :: toks)); [done| |done].
  rewrite tokenize_cons. change (lexOne 125 junk) with (Tok (TPunct 125) junk). cbv beta iota. by rewrite Hj.
Qed.

Definition nots (n : nat) : SieveTest := Nat.iter n (fun t => Test (js "not") [] [t]) (Test (js "true") [] []).

(** The limit on nesting counts blocks only: tests nest as deep as the text is long. *)
Lemma sieve_tests_unbounded n :
  parseSieve (printScript [Command (js "if") [] (Some (nots n)) (Some [])]) = Ok [Command (js "if") [] (Some (nots n)) (Some [])].
Proof.
  rewrite <- (app_nil_r (printScript _)). apply (parseSieve_print _ [] []); [|done|done].
  assert (H : wfTest (nots n) = true) 
    by (induction n as [|n IH]; [done|]; change (nots (S n)) with (Test (js "not") [] [nots n]); cbn [wfTest forallb]; by rewrite IH).
  unfold wfScript. cbn [forallb wfCommand]. by rewrite H.
Qed.
