(* ===== verification/DnsCache.v ===== *)
(** * The DNS cache (packages/dns/src/cache.ts)

    Entries in a Map in insertion order, first out when there are too many.  The clock reading of
    a call is its argument. *)

From S2P Require Import Prelude JsString Loop Dns.

Record DnsCacheEntry := mkEntry { records : list DnsRecord; negative : bool; expiresAt : Z }.
Record DnsCacheOptions := mkCacheOptions { maxEntries : Z; maxTtlSec : Z; defaultNegativeTtlSec : Z }.

Definition defaultOptions : DnsCacheOptions := {| maxEntries := 4096; maxTtlSec := 86400; defaultNegativeTtlSec := 300 |}.

Abbreviation Cache := (list (jsstr * DnsCacheEntry)).

Definition keyOf (name : jsstr) (type : Z) : jsstr := numToString type ++ [58] ++ stripDot (toLowerCase name).

(** [map.delete(key)] *)
Definition without (key : jsstr) (m : Cache) : Cache := filter (fun p => (p.1 === key) = false) m.

Section Cache.
Context (opts : DnsCacheOptions).

Definition get (now : Z) (name : jsstr) (type : Z) (m : Cache) : Cache * option DnsCacheEntry :=
  let key := keyOf name type in
  match mapGet key m with
  | None => (m, None)
  | Some e => if expiresAt e <=? now then (without key m, None) else (m, Some e)
  end.

Definition store (key : jsstr) (e : DnsCacheEntry) (m : Cache) : Cache :=
  let m := without key m ++ [(key, e)] in
  if maxEntries opts <? len m then drop 1 m else m.

Fixpoint minTtl (t : Z) (rs : list DnsRecord) : Z := match rs with [] => t | r :: rs' => minTtl (Z.min t (ttl r)) rs' end.

(** The entry a positive answer makes, if any. *)
Definition positiveEntry (now : Z) (rs : list DnsRecord) : option DnsCacheEntry :=
  match rs with
  | [] => None
  | r :: rs' =>
      let t := minTtl (ttl r) rs' in
      if t <=? 0 then None
      else Some {| records := rs; negative := false; expiresAt := now + Z.min t (maxTtlSec opts) * 1000 |}
  end.

Definition negativeEntry (now : Z) (soaMinimumSec : option Z) : DnsCacheEntry :=
  let base := match soaMinimumSec with Some s => if 0 <? s then s else defaultNegativeTtlSec opts | None => defaultNegativeTtlSec opts end in
  {| records := []; negative := true; expiresAt := now + Z.min base (maxTtlSec opts) * 1000 |}.

Definition setPositive (now : Z) (name : jsstr) (type : Z) (rs : list DnsRecord) (m : Cache) : Cache :=
  match positiveEntry now rs with Some e => store (keyOf name type) e m | None => m end.

Definition setNegative (now : Z) (name : jsstr) (type : Z) (soaMinimumSec : option Z) (m : Cache) : Cache :=
  store (keyOf name type) (negativeEntry now soaMinimumSec) m.

Definition size (m : Cache) : Z := len m.
Definition clear (m : Cache) : Cache := [].

(** ** Use *)

Inductive Op :=
| OpGet (now : Z) (name : jsstr) (type : Z)
| OpPositive (now : Z) (name : jsstr) (type : Z) (rs : list DnsRecord)
| OpNegative (now : Z) (name : jsstr) (type : Z) (soaMinimumSec : option Z)
| OpClear.

Definition apply (m : Cache) (o : Op) : Cache :=
  match o with
  | OpGet now n t => (get now n t m).1
  | OpPositive now n t rs => setPositive now n t rs m
  | OpNegative now n t s => setNegative now n t s m
  | OpClear => clear m
  end.
Definition run (ops : list Op) : Cache := fold_left apply ops [].

(** What an operation stores, and when. *)
Definition storeOf (o : Op) : option (jsstr * DnsCacheEntry * Z) :=
  match o with
  | OpPositive now n t rs => (fun e => (keyOf n t, e, now)) <$> positiveEntry now rs
  | OpNegative now n t s => Some (keyOf n t, negativeEntry now s, now)
  | _ => None
  end.

(** The last thing stored under a key since the cache was cleared. *)
Definition lastStore (key : jsstr) (ops : list Op) : option (DnsCacheEntry * Z) :=
  fold_left (fun acc o =>
    match o with
    | OpClear => None
    | _ => match storeOf o with Some (k, e, now) => if k === key then Some (e, now) else acc | None => acc end
    end) ops None.

Lemma mapGet_without k key m : mapGet k (without key m) = if key === k then None else mapGet k m.
Proof.
  unfold without. induction m as [|[k' e] m IH]; [by destruct (key === k)|]. rewrite filter_cons. cbn [fst mapGet].
  destruct (decide ((k' === key) = false)) as [E|E]; cbn [mapGet]; rewrite IH; clear IH.
  - destruct (seqb_spec k' k) as [->|]; [|done]. destruct (seqb_spec key k) as [->|]; [|done]. by rewrite seqb_refl in E.
  - destruct (seqb_spec k' key) as [->|]; [|done]. by destruct (key === k).
Qed.

Lemma without_keys key m : map fst (without key m) = filter (fun k => (k === key) = false) (map fst m).
Proof.
  unfold without. induction m as [|[k e] m IH]; [done|]. rewrite filter_cons. cbn [map fst]. rewrite filter_cons.
  destruct (decide ((k === key) = false)); cbn [map fst]; by rewrite IH.
Qed.

Lemma mapGet_app k (a b : Cache) : mapGet k (a ++ b) = match mapGet k a with Some e => Some e | None => mapGet k b end.
Proof. induction a as [|[k' e] a IH]; cbn; [done|]. by destruct (_ === _). Qed.

Lemma mapGet_key k (m : Cache) e : mapGet k m = Some e -> k ∈ map fst m.
Proof.
  induction m as [|[k' e'] m IH]; cbn; [done|]. destruct (seqb_spec k' k) as [->|]; [set_solver|]. intros H. specialize (IH H). set_solver.
Qed.

Lemma mapGet_drop k (m : Cache) e : NoDup (map fst m) -> mapGet k (drop 1 m) = Some e -> mapGet k m = Some e.
Proof.
  destruct m as [|[k' e'] m]; [done|]. cbn. rewrite drop_0. intros Hn H. inversion Hn as [|? ? Hk _]; subst.
  apply mapGet_key in H as Hin. destruct (seqb_spec k' k) as [->|]; done.
Qed.

(** One entry per key, no more entries than allowed, each the last stored under its key. *)
Record Inv (ops : list Op) (m : Cache) : Prop := {
  inv_keys : NoDup (map fst m);
  inv_size : len m <= maxEntries opts;
  inv_last : forall k e, mapGet k m = Some e -> exists t, lastStore k ops = Some (e, t)
}.

Lemma lastStore_snoc k ops o : lastStore k (ops ++ [o]) =
  match o with
  | OpClear => None
  | _ => match storeOf o with Some (key, e, now) => if key === k then Some (e, now) else lastStore k ops | None => lastStore k ops end
  end.
Proof. unfold lastStore. by rewrite fold_left_app. Qed.

Lemma without_len key m : len (without key m) <= len m.
Proof. unfold without, len. pose proof (length_filter (fun p : jsstr * DnsCacheEntry => (p.1 === key) = false) m). lia. Qed.

Lemma Inv_without ops m key : Inv ops m -> Inv ops (without key m).
Proof.
  intros []. split.
  - rewrite without_keys. by apply NoDup_filter.
  - pose proof (without_len key m). lia.
  - intros k e H. rewrite mapGet_without in H. destruct (_ === _); [done|]. eauto.
Qed.

Lemma store_Inv ops m o key e now : 0 <= maxEntries opts -> Inv ops m -> storeOf o = Some (key, e, now) ->
  Inv (ops ++ [o]) (store key e m).
Proof.
  intros H0 HI Ho. pose proof (Inv_without _ _ key HI) as [Hk Hs Hl].
  assert (Hk' : NoDup (map fst (without key m ++ [(key, e)]))).
  { rewrite map_app. apply NoDup_app. split_and!; [done| |apply NoDup_singleton].
    intros x Hx ->%list_elem_of_singleton. rewrite without_keys in Hx. apply list_elem_of_filter in Hx as [Hx _]. by rewrite seqb_refl in Hx. }
  assert (Hl' : forall k e', mapGet k (without key m ++ [(key, e)]) = Some e' -> exists t, lastStore k (ops ++ [o]) = Some (e', t)).
  { intros k e' H. rewrite lastStore_snoc. rewrite mapGet_app in H.
    assert (Hst : match o with OpClear => None | _ => match storeOf o with Some (key, e, now) => if key === k then Some (e, now) else lastStore k ops | None => lastStore k ops end end
            = if key === k then Some (e, now) else lastStore k ops) by (rewrite Ho; by destruct o).
    rewrite Hst. destruct (mapGet k (without key m)) as [e2|] eqn:E.
    - simplify_eq. rewrite mapGet_without in E. destruct (key === k); [done|]. by apply (inv_last _ _ HI).
    - cbn in H. destruct (key === k); [|done]. simplify_eq. eauto. }
  assert (Hlen : len (without key m ++ [(key, e)]) <= maxEntries opts + 1) by (rewrite len_app; unfold len at 2; cbn; lia).
  unfold store. destruct (Z.ltb_spec (maxEntries opts) (len (without key m ++ [(key, e)]))).
  - split.
    + rewrite <- skipn_map. rewrite <- (take_drop 1 (map fst _)) in Hk'. by apply NoDup_app in Hk' as (_ & _ & ?).
    + unfold len in *. rewrite length_drop. lia.
    + intros k e' Hd. apply Hl'. by apply mapGet_drop.
  - by split.
Qed.

Lemma apply_Inv ops m o : 0 <= maxEntries opts -> Inv ops m -> Inv (ops ++ [o]) (apply m o).
Proof.
  intros H0 HI. assert (Hsame : forall m', storeOf o = None -> o <> OpClear -> Inv ops m' -> Inv (ops ++ [o]) m').
  { intros m' Ho Hc []. split; try done. intros k e Hk. rewrite lastStore_snoc, Ho. destruct o; try done; eauto. }
  destruct o as [now n t|now n t rs|now n t s|]; cbn [apply].
  - apply Hsame; try done. unfold get. destruct (mapGet _ m); [|done]. destruct (_ <=? _); [by apply Inv_without|done].
  - unfold setPositive. destruct (positiveEntry now rs) as [e|] eqn:E.
    + apply (store_Inv _ _ _ _ _ now); try done. cbn. by rewrite E.
    + apply Hsame; try done. cbn. by rewrite E.
  - by apply (store_Inv _ _ _ _ _ now).
  - split; [constructor|unfold len; cbn; lia|done].
Qed.

Lemma run_Inv ops : 0 <= maxEntries opts -> Inv ops (run ops).
Proof.
  intros H0. unfold run. induction ops as [|o ops IH] using rev_ind; [by split; [constructor|unfold len; cbn; lia|]|].
  rewrite fold_left_app. by apply apply_Inv.
Qed.

Lemma minTtl_le t rs : minTtl t rs <= t /\ Forall (fun r => minTtl t rs <= ttl r) rs.
Proof.
  revert t. induction rs as [|r rs IH]; intros t; cbn; [split; [lia|done]|]. destruct (IH (Z.min t (ttl r))) as [H1 H2].
  split; [lia|]. constructor; [lia|done].
Qed.

(** No entry outlives the time-to-live it was stored with. *)
Lemma storeOf_expiry o key e now : storeOf o = Some (key, e, now) ->
  expiresAt e <= now + maxTtlSec opts * 1000 /\ Forall (fun r => expiresAt e <= now + ttl r * 1000) (records e).
Proof.
  destruct o as [|now' n t rs|now' n t s|]; cbn; intros H; try done.
  - destruct rs as [|r rs]; [done|]. unfold positiveEntry in H. destruct (_ <=? 0); [done|]. cbn in H. simplify_eq. cbn [expiresAt records].
    destruct (minTtl_le (ttl r) rs) as [H1 H2]. split; [lia|]. constructor; [lia|]. eapply Forall_impl; [exact H2|]. cbn. lia.
  - simplify_eq. cbn. split; [lia|constructor].
Qed.

Lemma lastStore_storeOf k ops e t : lastStore k ops = Some (e, t) -> exists o, o ∈ ops /\ storeOf o = Some (k, e, t).
Proof.
  induction ops as [|o ops IH] using rev_ind; [done|]. rewrite lastStore_snoc. intros H.
  assert (Hd : (lastStore k ops = Some (e, t)) \/ storeOf o = Some (k, e, t)).
  { destruct (storeOf o) as [[[key e'] now]|] eqn:E; destruct o; try done; try (by left);
      destruct (seqb_spec key k); simplify_eq; auto. }
  destruct Hd as [Hd|Hd]; [|exists o; set_solver]. destruct (IH Hd) as (o' & Hin & Ho). exists o'. set_solver.
Qed.

(** Whatever the cache went through, what it answers is the last thing stored for that name and
    type, in any spelling of the name's case and final dot, is not expired, and was stored no longer
    ago than the shortest time-to-live of its records and than the limit; and it never holds more
    entries than it may. *)
Theorem dns_cache_fresh ops now name type m e :
  0 <= maxEntries opts -> get now name type (run ops) = (m, Some e) ->
  size m <= maxEntries opts /\
  exists t, lastStore (keyOf name type) ops = Some (e, t) /\ now < expiresAt e /\
    now < t + maxTtlSec opts * 1000 /\ Forall (fun r => now < t + ttl r * 1000) (records e).
Proof.
  intros H0 Hg. pose proof (run_Inv ops H0) as [_ Hs Hl]. unfold get in Hg. destruct (mapGet _ _) as [e'|] eqn:E; [|done].
  destruct (Z.leb_spec (expiresAt e') now) as [|Hexp]; [done|]. simplify_eq. split; [exact Hs|].
  destruct (Hl _ _ E) as [t Ht]. exists t. apply lastStore_storeOf in Ht as Ho. destruct Ho as (o & _ & Ho).
  apply storeOf_expiry in Ho as [H1 H2]. split_and!; [done|done|lia|]. eapply Forall_impl; [exact H2|]. cbn. lia.
Qed.
End Cache.

Definition record0 : DnsRecord := {| r_name := js "mx.example"; r_type := RR_A; r_class := RRClass_IN; ttl := 60; rdata := DA (js "192.0.2.1") |}.

Lemma dns_cache_fresh_witness :
  let ops := [OpPositive 1000 (js "MX.example.") RR_A [record0]; OpNegative 1000 (js "other.example") RR_A None] in
  exists e, get 50000 (js "mx.example") RR_A (run defaultOptions ops) = (run defaultOptions ops, Some e) /\ 50000 < expiresAt e.
Proof.
  intros ops. set (e := {| records := [record0]; negative := false; expiresAt := 1000 + 60 * 1000 |}).
  assert (H : get 50000 (js "mx.example") RR_A (run defaultOptions ops) = (run defaultOptions ops, Some e)) by (vm_compute; reflexivity).
  exists e. split; [exact H|].
  destruct (dns_cache_fresh defaultOptions ops 50000 (js "mx.example") RR_A (run defaultOptions ops) e ltac:(vm_compute; discriminate) H)
    as (_ & t & _ & Hx & _). exact Hx.
Defined.
