(* ===== verification/SieveVars.v ===== *)
(** * Sieve variables (packages/sieve/src/variables.ts)

    The variables of RFC 5229: their names, the modifiers of [set] in their fixed order, the store,
    and the expansion of [${name}] at the time a string is used.  The theorems say that expansion
    never reads its own output again, and that a value quoted by [:quotewildcard] matches itself
    and nothing else. *)

From S2P Require Import Prelude JsString JsNumber Loop Glob.

(** ** Names *)

Definition isNameStart (c : Z) : bool :=
  ((65 <=? c) && (c <=? 90)) || ((97 <=? c) && (c <=? 122)) || (c =? 95).

Definition isNameChar (c : Z) : bool := isNameStart c || isDigit c.

(** [[A-Za-z_][A-Za-z0-9_]*] *)
Definition isNamePart (s : jsstr) : bool :=
  match s with c :: r => isNameStart c && forallb isNameChar r | [] => false end.

(** [VAR_NAME]: such parts, separated by dots. *)
Definition isValidVariableName (name : jsstr) : bool := forallb isNamePart (splitOn DOT name).

(** ** Modifiers *)

Inductive Modifier := MLower | MUpper | MLowerfirst | MUpperfirst | MQuotewildcard | MLength.

#[global] Instance Modifier_eq_dec : EqDecision Modifier.
Proof. solve_decision. Defined.

Definition MODIFIER_ORDER : list Modifier :=
  [MLower; MUpper; MLowerfirst; MUpperfirst; MQuotewildcard; MLength].

Definition modifierName (m : Modifier) : jsstr :=
  match m with
  | MLower => js "lower"
  | MUpper => js "upper"
  | MLowerfirst => js "lowerfirst"
  | MUpperfirst => js "upperfirst"
  | MQuotewildcard => js "quotewildcard"
  | MLength => js "length"
  end.

(** [isModifier]: the modifier of that name, if there is one. *)
Definition isModifier (name : jsstr) : option Modifier :=
  find (fun m => modifierName m === name) MODIFIER_ORDER.

(** [v.replace(/[\\*?]/g, (c) => `\\${c}`)] *)
Definition quoteWildcards (v : jsstr) : jsstr :=
  flat_map (fun c => if (c =? 92) || (c =? 42) || (c =? 63) then [92; c] else [c]) v.

(** The body of the [switch]. *)
Definition applyModifier (m : Modifier) (v : jsstr) : jsstr :=
  match m with
  | MLower => toLowerCase v
  | MUpper => toUpperCase v
  | MLowerfirst => match v with [] => v | c :: r => toLowerCase [c] ++ r end
  | MUpperfirst => match v with [] => v | c :: r => toUpperCase [c] ++ r end
  | MQuotewildcard => quoteWildcards v
  | MLength => numToString (len v)
  end.

(** The modifiers present, in the order of [MODIFIER_ORDER] whatever the order of [mods]. *)
Definition applyModifiers (value : jsstr) (mods : list Modifier) : jsstr :=
  fold_left (fun v m => if bool_decide (m ∈ mods) then applyModifier m v else v) MODIFIER_ORDER value.

(** ** The store *)

Record SieveVariables := mkVars { vars : list (jsstr * jsstr); matches : list jsstr }.

Definition newVariables : SieveVariables := {| vars := []; matches := [] |}.

Definition setVar (name value : jsstr) (s : SieveVariables) : SieveVariables :=
  {| vars := mapSet (toLowerCase name) value (vars s); matches := matches s |}.

Definition setMatches (whole : jsstr) (captures : list jsstr) (s : SieveVariables) : SieveVariables :=
  {| vars := vars s; matches := whole :: captures |}.

(** [this.matches[Number(lower)] ?? ""] for a string of digits. *)
Definition getMatch (lower : jsstr) (s : SieveVariables) : jsstr :=
  match jsNumber lower with
  | NumInt z => if z <? len (matches s) then default [] (matches s !! Z.to_nat z) else []
  | _ => []
  end.

Definition getVar (name : jsstr) (s : SieveVariables) : jsstr :=
  let lower := toLowerCase name in
  if isDigits lower then getMatch lower s else default [] (mapGet lower (vars s)).

(** ** Expansion *)

Definition OPEN : jsstr := js "${".
Definition CLOSE : Z := 125.

(** What [${name}] becomes: a value for a name of the grammar, itself for any other. *)
Definition expandName (s : SieveVariables) (name : jsstr) : jsstr :=
  if isDigits name || isValidVariableName name then getVar name s else OPEN ++ name ++ [CLOSE].

(** The loop of [expand] on the text from [i] on. *)
Fixpoint expandLoop (fuel : nat) (s : SieveVariables) (text : jsstr) : jsstr :=
  match fuel with
  | O => []
  | S f =>
      match text with
      | [] => []
      | _ =>
          match indexOfStr OPEN text with
          | None => text
          | Some start =>
              let inner := drop (start + 2) text in
              match indexOf CLOSE inner with
              | None => text
              | Some e => take start text ++ expandName s (take e inner) ++ expandLoop f s (drop (S e) inner)
              end
          end
      end
  end.

Definition expand (s : SieveVariables) (text : jsstr) : jsstr :=
  if negb (includes OPEN text) then text else expandLoop (S (length text)) s text.

(** ** Expansion reads each character once *)

(** A text as [expand] sees it: literal pieces, each followed by a reference, and a tail. *)
Definition Template : Type := list (jsstr * jsstr) * jsstr.

Definition render (t : Template) : jsstr :=
  flat_map (fun p => p.1 ++ OPEN ++ p.2 ++ [CLOSE]) t.1 ++ t.2.

(** The literal before a reference has no [${], the reference has no brace inside. *)
Definition wfPiece (p : jsstr * jsstr) : Prop := includes OPEN p.1 = false /\ CLOSE ∉ p.2.

(** No reference is closed in the tail. *)
Definition inert (tail : jsstr) : Prop :=
  match indexOfStr OPEN tail with None => True | Some i => CLOSE ∉ drop (i + 2) tail end.

Definition wfTemplate (t : Template) : Prop := Forall wfPiece t.1 /\ inert t.2.

(** Each reference replaced once; nothing of a value is looked at. *)
Definition subst (s : SieveVariables) (t : Template) : jsstr :=
  flat_map (fun p => p.1 ++ expandName s p.2) t.1 ++ t.2.

Lemma take_no_open text i : indexOfStr OPEN text = Some i -> includes OPEN (take i text) = false.
Proof.
  intros Hi. unfold includes. destruct (indexOfStr OPEN (take i text)) as [j|] eqn:Hj; [|done].
  destruct (indexOfStr_Some _ _ _ Hi) as [_ Hfirst]. destruct (indexOfStr_Some _ _ _ Hj) as [Hs _].
  pose proof (indexOfStr_lt _ _ _ Hj) as Hlt. rewrite length_take in Hlt. change (length OPEN) with 2%nat in *.
  assert (Hlt' : (j < i)%nat) by lia. specialize (Hfirst j Hlt').
  assert (Hd : drop j text = OPEN ++ drop (j + 2) (take i text) ++ drop i text).
  { rewrite <- (take_drop i text) at 1. rewrite drop_app_le by (rewrite length_take; lia).
    rewrite Hs at 1. rewrite drop_app_length' by (rewrite !length_take; lia). by rewrite <- app_assoc. }
  by rewrite Hd, startsWith_app in Hfirst.
Qed.

Lemma expandLoop_template fuel text : (length text < fuel)%nat ->
  exists t, wfTemplate t /\ text = render t /\ forall s, expandLoop fuel s text = subst s t.
Proof.
  revert text. induction fuel as [|f IH]; intros text Hf; [lia|].
  destruct text as [|c text']; [exists ([], []); split; [split; [constructor|done]|done]|].
  set (text := c :: text') in *. cbn [expandLoop]. fold text. change (match text with [] => _ | _ => ?x end) with x.
  destruct (indexOfStr OPEN text) as [start|] eqn:Hs;
    [|exists ([], text); split; [split; [constructor|]; unfold inert; cbn [snd]; by rewrite Hs|done]].
  destruct (indexOf CLOSE (drop (start + 2) text)) as [e|] eqn:He;
    [|exists ([], text); split; [split; [constructor|]; unfold inert; cbn [snd]; rewrite Hs; by apply indexOf_None|done]].
  destruct (indexOf_Some _ _ _ He) as [Hin Hn]. pose proof (indexOf_lt _ _ _ He) as Hel.
  set (inner := drop (start + 2) text) in *.
  assert (Hl : (length (drop (S e) inner) < f)%nat) by (unfold inner in *; rewrite !length_drop in *; lia).
  destruct (IH _ Hl) as (t & [Hp Ht] & Hr & Hx).
  exists ((take start text, take e inner) :: t.1, t.2). split; [|split].
  - split; [constructor; [split; [by apply take_no_open|done]|done]|done].
  - destruct (indexOfStr_Some _ _ _ Hs) as [Htext _]. unfold render in *. cbn [flat_map fst snd]. rewrite <- !app_assoc.
    rewrite <- Hr. cbn [app]. rewrite <- Hin. exact Htext.
  - intros s. rewrite Hx. unfold subst. cbn [flat_map fst snd]. by rewrite <- !app_assoc.
Qed.

(** Expansion is one pass.  Every text is cut, whatever the variables hold, into literal pieces
    and references [${name}] (a name reaches up to the first closing brace) and a tail without a
    closed reference; its expansion is these pieces with each reference replaced by the value of
    its variable, or left as it is when the name is none.  So a value that itself contains [${...}]
    is never expanded again. *)
Theorem sieve_expand_once text :
  exists t, wfTemplate t /\ text = render t /\ forall s, expand s text = subst s t.
Proof.
  unfold expand. destruct (includes OPEN text) eqn:E; cbn [negb].
  - apply expandLoop_template. lia.
  - exists ([], text). split; [|done]. split; [constructor|]. unfold inert, includes in *. cbn [snd]. by destruct (indexOfStr OPEN text).
Qed.

(** The value of a capture that looks like a reference stays as it is. *)
Example expand_capture_literal :
  expand (setMatches (js "s") [js "${secret}"] (setVar (js "SECRET") (js "x") newVariables)) (js "[${1}] ${Secret} ${no name}")
  = js "[${secret}] x ${no name}".
Proof. vm_compute. reflexivity. Qed.

(** ** Quoted values in patterns *)

(** No escape is open at the end of the pattern. *)
Fixpoint closedPattern (p : jsstr) : bool :=
  match p with
  | [] => true
  | c :: r => if c =? 92 then match r with [] => false | _ :: r' => closedPattern r' end else closedPattern r
  end.

Abbreviation SIEVE := SIEVE_MATCH_SYNTAX.

Lemma closedPattern_ind (P : jsstr -> Prop) :
  P [] -> (forall c p, closedPattern p = true -> P p -> P (92 :: c :: p)) ->
  (forall c p, c <> 92 -> closedPattern p = true -> P p -> P (c :: p)) -> forall p, closedPattern p = true -> P p.
Proof.
  intros H0 H1 H2 p. induction p as [p IH] using (induction_ltof1 _ (@length Z)). unfold ltof in IH.
  destruct p as [|c p]; [done|]. cbn [closedPattern]. destruct (Z.eqb_spec c 92) as [->|Hc].
  - destruct p as [|d p]; [done|]. intros H. apply H1; [done|]. apply IH; [cbn; lia|done].
  - intros H. apply H2; [done..|]. apply IH; [cbn; lia|done].
Qed.

(** What a pattern that starts with [c] matches, by the kind of [c]. *)
Lemma Pat_escaped_iff c p v :
  Pat SIEVE (92 :: c :: p) v <-> exists h v', v = h :: v' /\ litEq SIEVE c h = true /\ Pat SIEVE p v'.
Proof.
  split; [|intros (h & v' & -> & Hl & Hp); by apply pat_escaped].
  inversion 1; subst; simpl in *; try congruence; eauto 6.
Qed.

Ltac unit_kinds := simpl; try first [done | by apply Z.eqb_eq | by apply Z.eqb_neq].

Lemma Pat_plain_app c p q v : c <> 92 ->
  (forall w, Pat SIEVE (p ++ q) w <-> exists a b, w = a ++ b /\ Pat SIEVE p a /\ Pat SIEVE q b) ->
  Pat SIEVE (c :: p ++ q) v <-> exists a b, v = a ++ b /\ Pat SIEVE (c :: p) a /\ Pat SIEVE q b.
Proof.
  intros Hc Hpq. split.
  - inversion 1; subst; simpl in *; bool_hyps; try congruence;
      match goal with Hp : Pat _ (p ++ q) _ |- _ => apply Hpq in Hp as (a & b & -> & Ha & Hb) end.
    + exists (w ++ a), b. rewrite <- app_assoc. split; [done|]. split; [|done]. by apply (pat_star SIEVE).
    + exists (h :: a), b. split; [done|]. split; [|done]. apply (pat_single SIEVE); unit_kinds.
    + exists (h :: a), b. split; [done|]. split; [|done]. apply (pat_literal SIEVE); unit_kinds.
  - intros (a & b & -> & Ha & Hb). inversion Ha; subst; simpl in *; bool_hyps; try congruence; rewrite <- ?app_assoc.
    + apply (pat_star SIEVE); [done|]. apply Hpq. eauto.
    + apply (pat_single SIEVE); unit_kinds. apply Hpq. eauto.
    + apply (pat_literal SIEVE); unit_kinds. apply Hpq. eauto.
Qed.

(** A pattern in two parts matches a value in two parts. *)
Lemma Pat_app p q v : closedPattern p = true ->
  Pat SIEVE (p ++ q) v <-> exists a b, v = a ++ b /\ Pat SIEVE p a /\ Pat SIEVE q b.
Proof.
  intros Hp. revert v. pattern p. apply closedPattern_ind; [| | |done]; clear p Hp.
  - intros v. split; [intros H; exists [], v; split; [done|]; split; [constructor|done]|].
    intros (a & b & -> & Ha & Hb). by inversion Ha.
  - intros c p _ IH v. cbn [app]. rewrite Pat_escaped_iff. split.
    + intros (h & v' & -> & Hl & Hv). apply IH in Hv as (a & b & -> & Ha & Hb). exists (h :: a), b. split; [done|].
      split; [|done]. by apply pat_escaped.
    + intros (a & b & -> & Ha & Hb). apply Pat_escaped_iff in Ha as (h & v' & -> & Hl & Hv).
      exists h, (v' ++ b). split; [done|]. split; [done|]. apply IH. eauto.
  - intros c p Hc _ IH v. apply Pat_plain_app; done.
Qed.

(** Lower-casing neither makes nor removes one of the three special characters, and a letter in
    lower case stays as it is. *)
Lemma lowerUnit_special c : c = 92 \/ c = 42 \/ c = 63 -> lowerUnit c = [c].
Proof. by intros [->|[->| ->]]. Qed.

Lemma lowerUnit_plain c : c <> 92 -> c <> 42 -> c <> 63 ->
  Forall (fun x => x <> 92 /\ x <> 42 /\ x <> 63 /\ lowerUnit x = [x]) (lowerUnit c).
Proof.
  intros H1 H2 H3. unfold lowerUnit at 2.
  repeat (case_match; bool_hyps); repeat constructor; try lia; unfold lowerUnit; repeat (case_match; bool_hyps); try done; lia.
Qed.

Lemma litEq_fixed c h : lowerUnit c = [c] -> litEq SIEVE c h = (h =? c).
Proof. intros H. unfold litEq. cbn [caseInsensitive SIEVE_MATCH_SYNTAX toLowerCase flat_map]. by rewrite H. Qed.

Lemma Pat_literals l p v :
  Forall (fun x => x <> 92 /\ x <> 42 /\ x <> 63 /\ lowerUnit x = [x]) l ->
  Pat SIEVE (l ++ p) v <-> exists v', v = l ++ v' /\ Pat SIEVE p v'.
Proof.
  intros Hl. revert v. induction Hl as [|c l (H1 & H2 & H3 & Hc) _ IH]; intros v; [split; [eauto|by intros (? & -> & ?)]|].
  cbn [app]. split.
  - inversion 1; subst; simpl in *; bool_hyps; try congruence.
    rewrite (litEq_fixed c) in * by done. bool_hyps. subst.
    match goal with Hp : Pat _ (l ++ p) _ |- _ => apply IH in Hp as (v' & -> & ?) end. eauto.
  - intros (v' & -> & Hp). apply (pat_literal SIEVE); unit_kinds; [rewrite litEq_fixed by done; apply Z.eqb_refl|].
    apply IH. eauto.
Qed.

(** A quoted value matches itself, case aside, and nothing else. *)
Lemma Pat_quoted w v : Pat SIEVE (toLowerCase (quoteWildcards w)) v <-> v = toLowerCase w.
Proof.
  revert v. induction w as [|c w IH]; intros v; [split; [by inversion 1|by intros ->; constructor]|].
  change (toLowerCase (c :: w)) with (lowerUnit c ++ toLowerCase w). unfold quoteWildcards. cbn [flat_map].
  fold (quoteWildcards w). destruct (_ || _) eqn:E.
  - assert (Hs : lowerUnit c = [c]) by (apply lowerUnit_special; rewrite !orb_true_iff, !Z.eqb_eq in E; tauto).
    change (toLowerCase ([92; c] ++ quoteWildcards w)) with (92 :: lowerUnit c ++ toLowerCase (quoteWildcards w)).
    rewrite Hs. cbn [app]. rewrite Pat_escaped_iff. setoid_rewrite litEq_fixed; [|done]. setoid_rewrite IH. split.
    + intros (h & v' & -> & ->%Z.eqb_eq & ->). done.
    + intros ->. exists c, (toLowerCase w). by rewrite Z.eqb_refl.
  - bool_hyps. rewrite toLowerCase_app. change (toLowerCase [c]) with (lowerUnit c ++ []). rewrite app_nil_r.
    rewrite Pat_literals by (by apply lowerUnit_plain). setoid_rewrite IH. split; [by intros (? & -> & ->)|eauto].
Qed.

(** Lower-casing keeps escapes closed. *)
Lemma closedPattern_units l p : Forall (fun x => x <> 92) l -> closedPattern (l ++ p) = closedPattern p.
Proof. induction 1 as [|x l Hx _ IH]; [done|]. cbn. by rewrite (proj2 (Z.eqb_neq x 92)). Qed.

Lemma lowerUnit_no_escape c : c <> 92 -> Forall (fun x => x <> 92) (lowerUnit c).
Proof. intros H. unfold lowerUnit. repeat (case_match; bool_hyps); repeat constructor; lia. Qed.

Lemma closedPattern_lower p : closedPattern p = true -> closedPattern (toLowerCase p) = true.
Proof.
  intros Hp. pattern p. apply closedPattern_ind; [done| | |done]; clear p Hp.
  - intros c p _ IH. change (toLowerCase (92 :: c :: p)) with (92 :: lowerUnit c ++ toLowerCase p).
    destruct (Z.eqb_spec c 92) as [->|Hc]; [done|]. pose proof (lowerUnit_no_escape c Hc) as Hl.
    destruct (lowerUnit c) as [|x l] eqn:E; [by apply lowerUnit_ne in E|]. cbn. inversion Hl; subst. by rewrite closedPattern_units.
  - intros c p Hc _ IH. change (toLowerCase (c :: p)) with (lowerUnit c ++ toLowerCase p).
    rewrite closedPattern_units by (by apply lowerUnit_no_escape). done.
Qed.

(** [:quotewildcard] keeps a variable's value from becoming part of the pattern.  Where a script
    puts a quoted value [w] between two parts of a [:matches] key (the first not ending in an open
    escape), a header value matches exactly when it is [w] itself, case aside, between a match of
    the first part and a match of the second, whatever stars, question marks and backslashes the
    sender put into [w]. *)
Theorem sieve_quotewildcard_literal p w q v :
  closedPattern p = true ->
  matched (globCaptures (toLowerCase (p ++ applyModifiers w [MQuotewildcard] ++ q)) v SIEVE) = true <->
  exists a b, hayOf SIEVE v = a ++ toLowerCase w ++ b /\ Pat SIEVE (toLowerCase p) a /\ Pat SIEVE (toLowerCase q) b.
Proof.
  intros Hp. rewrite globCaptures_matched, globMatch_meaning.
  change (applyModifiers w [MQuotewildcard]) with (quoteWildcards w).
  rewrite !toLowerCase_app, Pat_app by (by apply closedPattern_lower).
  assert (Hq : closedPattern (quoteWildcards w) = true).
  { clear. induction w as [|c w IH]; [done|]. unfold quoteWildcards. cbn [flat_map]. destruct (_ || _) eqn:E; cbn; [done|].
    bool_hyps. by rewrite (proj2 (Z.eqb_neq c 92)). }
  setoid_rewrite Pat_app; [|by apply closedPattern_lower]. setoid_rewrite Pat_quoted. split.
  - intros (a & b & Hv & Ha & a' & b' & -> & -> & Hb). eauto.
  - intros (a & b & Hv & Ha & Hb). exists a, (toLowerCase w ++ b). split; [done|]. split; [done|]. eauto 6.
Qed.

Lemma sieve_quotewildcard_literal_witness :
  matched (globCaptures (toLowerCase (js "[" ++ applyModifiers (js "*A?") [MQuotewildcard] ++ js "]*")) (js "[*a?] x") SIEVE) = true /\
  ~ exists a b, hayOf SIEVE (js "[xyz]") = a ++ toLowerCase (js "*A?") ++ b /\ Pat SIEVE (toLowerCase (js "[")) a /\ Pat SIEVE (toLowerCase (js "]*")) b.
Proof.
  split; [vm_compute; reflexivity|].
  rewrite <- (sieve_quotewildcard_literal (js "[") (js "*A?") (js "]*") (js "[xyz]")) by reflexivity. vm_compute. discriminate.
Defined.
