(* ===== verification/JsDate.v ===== *)
(** * The UTC methods of JavaScript's [Date]

    Time values, days and the Gregorian calendar as ECMAScript defines them (section Time Values and
    Time Range): a time value is a number of milliseconds, or NaN beyond 100 million days around
    1970.  The year is found by an estimate and one correction; [civil_dayFromCivil] shows that year,
    month and day are the ones of the day number, and [dayFromCivil_civil] that they determine it. *)

From S2P Require Import Prelude JsString.

(** ** Days and years *)

Definition msPerDay : Z := 86400000.

(** [DayFromYear(y)]: the day number of 1 January. *)
Definition dayFromYear (y : Z) : Z :=
  365 * (y - 1970) + (y - 1969) / 4 - (y - 1901) / 100 + (y - 1601) / 400.

(** [YearFromTime(t)], by the day. *)
Definition yearFromDay (d : Z) : Z :=
  let y := 1970 + 400 * d / 146097 in
  if d <? dayFromYear y then y - 1 else if dayFromYear (y + 1) <=? d then y + 1 else y.

Definition inLeapYear (y : Z) : bool := (y mod 4 =? 0) && (negb (y mod 100 =? 0) || (y mod 400 =? 0)).

(** The day of the year on which month [m] (0 for January) starts; month 12 ends the year. *)
Definition monthStart (leap : bool) (m : Z) : Z :=
  let l := if leap then 1 else 0 in
  match m with
  | 0 => 0 | 1 => 31 | 2 => 59 + l | 3 => 90 + l | 4 => 120 + l | 5 => 151 + l | 6 => 181 + l
  | 7 => 212 + l | 8 => 243 + l | 9 => 273 + l | 10 => 304 + l | 11 => 334 + l | _ => 365 + l
  end.

(** [MonthFromTime], by the day of the year. *)
Definition monthOf (leap : bool) (doy : Z) : Z :=
  default 0 (find (fun m => monthStart leap m <=? doy) [11; 10; 9; 8; 7; 6; 5; 4; 3; 2; 1; 0]).

(** ** Time values *)

(** [TimeClip]: the time value of [new Date(t)] for an integer [t]; [None] is NaN. *)
Definition newDate (t : Z) : option Z := if Z.abs t <=? 8640000000000000 then Some t else None.

Definition day (t : Z) : Z := t / msPerDay.

Definition utcFullYear (t : Z) : Z := yearFromDay (day t).
Definition utcMonth (t : Z) : Z :=
  monthOf (inLeapYear (utcFullYear t)) (day t - dayFromYear (utcFullYear t)).
Definition utcDate (t : Z) : Z :=
  day t - dayFromYear (utcFullYear t) - monthStart (inLeapYear (utcFullYear t)) (utcMonth t) + 1.
Definition utcDay (t : Z) : Z := (day t + 4) mod 7.
Definition utcHours (t : Z) : Z := t / 3600000 mod 24.
Definition utcMinutes (t : Z) : Z := t / 60000 mod 60.
Definition utcSeconds (t : Z) : Z := t / 1000 mod 60.

(** The day number of a date of the calendar. *)
Definition dayFromCivil (y m d : Z) : Z := dayFromYear y + monthStart (inLeapYear y) m + d - 1.

(** ** The calendar is exact *)

Ltac zdiv := Z.to_euclidean_division_equations; lia.

Lemma dayFromYear_succ y : dayFromYear (y + 1) = dayFromYear y + (if inLeapYear y then 366 else 365).
Proof.
  unfold dayFromYear, inLeapYear.
  destruct (Z.eqb_spec (y mod 4) 0), (Z.eqb_spec (y mod 100) 0), (Z.eqb_spec (y mod 400) 0); cbn [andb orb negb]; zdiv.
Qed.

Lemma yearFromDay_spec d : dayFromYear (yearFromDay d) <= d < dayFromYear (yearFromDay d + 1).
Proof.
  unfold yearFromDay. set (y := 1970 + 400 * d / 146097).
  assert (Hy : dayFromYear (y - 1) <= d < dayFromYear (y + 1 + 1)) by (unfold dayFromYear, y; zdiv).
  destruct (Z.ltb_spec d (dayFromYear y)); [replace (y - 1 + 1) with y by lia; lia|].
  destruct (Z.leb_spec (dayFromYear (y + 1)) d); lia.
Qed.

Lemma dayFromYear_mono a b : a <= b -> dayFromYear a <= dayFromYear b.
Proof. intros H. unfold dayFromYear. zdiv. Qed.

Lemma yearFromDay_unique d y : dayFromYear y <= d < dayFromYear (y + 1) -> yearFromDay d = y.
Proof.
  intros H. pose proof (yearFromDay_spec d) as Hs.
  destruct (Z.lt_trichotomy (yearFromDay d) y) as [Hlt|[?|Hgt]]; [|done|].
  - pose proof (dayFromYear_mono (yearFromDay d + 1) y ltac:(lia)). lia.
  - pose proof (dayFromYear_mono (y + 1) (yearFromDay d) ltac:(lia)). lia.
Qed.

Lemma monthStart_mono leap a b : 0 <= a -> a < b -> b <= 12 -> monthStart leap a < monthStart leap b.
Proof.
  intros Ha Hb Hc. set (ms := [0; 1; 2; 3; 4; 5; 6; 7; 8; 9; 10; 11; 12]).
  assert (Hcheck : forallb (fun a => forallb (fun b => negb (a <? b) || (monthStart leap a <? monthStart leap b)) ms) ms = true)
    by (destruct leap; vm_compute; reflexivity).
  rewrite forallb_forall in Hcheck. specialize (Hcheck a ltac:(cbn; lia)).
  rewrite forallb_forall in Hcheck. specialize (Hcheck b ltac:(cbn; lia)).
  rewrite (proj2 (Z.ltb_lt a b)) in Hcheck by done. by apply Z.ltb_lt.
Qed.

(** Evaluates [monthStart] at a literal month. *)
Ltac month_cases leap :=
  unfold monthStart in *; destruct leap; cbn in *;
  repeat match goal with |- context [match ?a + 1 with _ => _ end] => let v := eval vm_compute in (a + 1) in change (a + 1) with v end;
  cbn; lia.

Lemma monthOf_spec leap doy : 0 <= doy < monthStart leap 12 ->
  0 <= monthOf leap doy <= 11 /\ monthStart leap (monthOf leap doy) <= doy < monthStart leap (monthOf leap doy + 1).
Proof.
  intros Hd. unfold monthOf. cbn [find].
  repeat match goal with
  | |- context [default 0 (if ?a <=? ?b then _ else _)] => destruct (Z.leb_spec a b); [month_cases leap|]
  end.
  month_cases leap.
Qed.

Lemma monthOf_unique leap doy m : 0 <= m <= 11 -> monthStart leap m <= doy < monthStart leap (m + 1) -> monthOf leap doy = m.
Proof.
  intros Hm Hd.
  assert (Hr : 0 <= doy < monthStart leap 12).
  { split; [destruct (Z.eq_dec m 0) as [->|]; [cbn in Hd; lia|]; pose proof (monthStart_mono leap 0 m); cbn in *; lia|].
    destruct (Z.eq_dec m 11) as [->|]; [exact (proj2 Hd)|]. pose proof (monthStart_mono leap (m + 1) 12). lia. }
  destruct (monthOf_spec leap doy Hr) as [Ho Hs].
  destruct (Z.lt_trichotomy (monthOf leap doy) m) as [Hlt|[?|Hgt]]; [|done|].
  - destruct (Z.eq_dec (monthOf leap doy + 1) m) as [E|]; [rewrite E in Hs; lia|].
    pose proof (monthStart_mono leap (monthOf leap doy + 1) m). lia.
  - destruct (Z.eq_dec (m + 1) (monthOf leap doy)) as [E|]; [rewrite E in Hd; lia|].
    pose proof (monthStart_mono leap (m + 1) (monthOf leap doy)). lia.
Qed.

(** The length of a month. *)
Definition daysInMonth (y m : Z) : Z := monthStart (inLeapYear y) (m + 1) - monthStart (inLeapYear y) m.

Lemma dayOfYear_range t :
  0 <= day t - dayFromYear (utcFullYear t) < monthStart (inLeapYear (utcFullYear t)) 12.
Proof.
  pose proof (yearFromDay_spec (day t)) as H. fold (utcFullYear t) in H. rewrite dayFromYear_succ in H.
  unfold monthStart. destruct (inLeapYear _); lia.
Qed.

Lemma utcMonth_range t : 0 <= utcMonth t <= 11.
Proof. apply (monthOf_spec _ _ (dayOfYear_range t)). Qed.

Lemma utcDate_range t : 1 <= utcDate t <= daysInMonth (utcFullYear t) (utcMonth t).
Proof. destruct (monthOf_spec _ _ (dayOfYear_range t)) as [_ H]. fold (utcMonth t) in H. unfold utcDate, daysInMonth. lia. Qed.

Lemma daysInMonth_le y m : 0 <= m <= 11 -> daysInMonth y m <= 31.
Proof.
  intros H. unfold daysInMonth. assert (Hm : m = 0 \/ m = 1 \/ m = 2 \/ m = 3 \/ m = 4 \/ m = 5 \/ m = 6 \/ m = 7 \/ m = 8 \/ m = 9 \/ m = 10 \/ m = 11) by lia.
  repeat (destruct Hm as [->|Hm]; [month_cases (inLeapYear y)|]); subst; month_cases (inLeapYear y).
Qed.

(** Year, month and day name the day. *)
Lemma dayFromCivil_civil t : dayFromCivil (utcFullYear t) (utcMonth t) (utcDate t) = day t.
Proof. unfold dayFromCivil, utcDate. lia. Qed.

(** Every date of the calendar is the date of its day. *)
Lemma civil_dayFromCivil y m d t :
  0 <= m <= 11 -> 1 <= d <= daysInMonth y m -> day t = dayFromCivil y m d ->
  utcFullYear t = y /\ utcMonth t = m /\ utcDate t = d.
Proof.
  intros Hm Hd Ht. unfold dayFromCivil, daysInMonth in *.
  assert (H0 : 0 <= monthStart (inLeapYear y) m)
    by (destruct (Z.eq_dec m 0) as [->|]; [done|]; pose proof (monthStart_mono (inLeapYear y) 0 m); cbn in *; lia).
  assert (H12 : monthStart (inLeapYear y) (m + 1) <= monthStart (inLeapYear y) 12)
    by (destruct (Z.eq_dec m 11) as [->|]; [reflexivity|]; pose proof (monthStart_mono (inLeapYear y) (m + 1) 12); lia).
  assert (Hy : utcFullYear t = y).
  { apply yearFromDay_unique. rewrite dayFromYear_succ. unfold monthStart in H12 at 2. destruct (inLeapYear y); lia. }
  assert (Hmo : utcMonth t = m) by (unfold utcMonth; rewrite Hy; apply monthOf_unique; [done|lia]).
  split; [done|]. split; [done|]. unfold utcDate. rewrite Hmo, Hy. lia.
Qed.

(** Hours, minutes and seconds name the second of the day. *)
Lemma time_of_day t : t / 1000 = day t * 86400 + utcHours t * 3600 + utcMinutes t * 60 + utcSeconds t.
Proof. unfold day, utcHours, utcMinutes, utcSeconds, msPerDay. zdiv. Qed.

Lemma utcHours_range t : 0 <= utcHours t < 24.
Proof. apply Z.mod_pos_bound. lia. Qed.
Lemma utcMinutes_range t : 0 <= utcMinutes t < 60.
Proof. apply Z.mod_pos_bound. lia. Qed.
Lemma utcSeconds_range t : 0 <= utcSeconds t < 60.
Proof. apply Z.mod_pos_bound. lia. Qed.
