(* ===== verification/SieveDate.v ===== *)
(** * Date parts of Sieve (packages/sieve/src/date-parts.ts)

    The parts of a date that the tests [date] and [currentdate] of RFC 5260 compare, computed in UTC
    on the time shifted by the zone.  [Date.parse] reads the dates of headers in a format the
    language leaves to the implementation, so it is a parameter. *)

From S2P Require Import Prelude JsString JsDate.

(** [Date.parse]: a time value, or NaN. *)
Class DateParse := { dateParse : jsstr -> option Z }.

Inductive DatePart :=
| PYear | PMonth | PDay | PDate | PJulian | PHour | PMinute | PSecond | PTime | PIso8601 | PStd11 | PZone | PWeekday.

#[global] Instance DatePart_eq_dec : EqDecision DatePart.
Proof. solve_decision. Defined.

Definition DATE_PARTS : list (jsstr * DatePart) :=
  [(js "year", PYear); (js "month", PMonth); (js "day", PDay); (js "date", PDate); (js "julian", PJulian);
   (js "hour", PHour); (js "minute", PMinute); (js "second", PSecond); (js "time", PTime);
   (js "iso8601", PIso8601); (js "std11", PStd11); (js "zone", PZone); (js "weekday", PWeekday)].

Definition isDatePart (s : jsstr) : option DatePart :=
  snd <$> find (fun p => p.1 === s) DATE_PARTS.

(** ** Printing numbers; [None] is NaN *)

Definition showNum (n : option Z) : jsstr := match n with Some z => numToString z | None => js "NaN" end.

Definition pad (n : option Z) : jsstr := padStart0 2 (showNum (Z.abs <$> n)).

(** [String(y).padStart(4, "0")] *)
Definition pad4 (n : option Z) : jsstr := padStart0 4 (showNum n).

Definition MONTHS : list jsstr :=
  map js ["Jan"; "Feb"; "Mar"; "Apr"; "May"; "Jun"; "Jul"; "Aug"; "Sep"; "Oct"; "Nov"; "Dec"]%string.
Definition DAYS : list jsstr := map js ["Sun"; "Mon"; "Tue"; "Wed"; "Thu"; "Fri"; "Sat"]%string.

(** [names[n]!] in a template string. *)
Definition nameOf (names : list jsstr) (n : option Z) : jsstr :=
  default (js "undefined") (n ≫= fun z => names !! Z.to_nat z).

(** ** Zones *)

(** [/^([+-])(\d{2})(\d{2})$/] on the trimmed text. *)
Definition parseZoneOffset (zone : jsstr) : option Z :=
  match trim zone with
  | [sign; a; b; c; d] =>
      if ((sign =? 43) || (sign =? 45)) && forallb isDigit [a; b; c; d] then
        let minutes := digitsVal [a; b] * 60 + digitsVal [c; d] in
        Some (if sign =? 45 then - minutes else minutes)
      else None
  | _ => None
  end.

Definition formatZone (offsetMinutes : Z) : jsstr :=
  let sign := if offsetMinutes <? 0 then 45 else 43 in
  let abs := Z.abs offsetMinutes in
  sign :: pad (Some (abs / 60)) ++ pad (Some (abs mod 60)).

(** ** Parts *)

Definition dateString (d : option Z) : jsstr :=
  pad4 (utcFullYear <$> d) ++ [45] ++ pad (Z.add 1 <$> (utcMonth <$> d)) ++ [45] ++ pad (utcDate <$> d).

Definition timeString (d : option Z) : jsstr :=
  pad (utcHours <$> d) ++ [58] ++ pad (utcMinutes <$> d) ++ [58] ++ pad (utcSeconds <$> d).

Definition datePartOf (ms offsetMinutes : Z) (part : DatePart) : jsstr :=
  let d := newDate (ms + offsetMinutes * 60000) in
  match part with
  | PYear => pad4 (utcFullYear <$> d)
  | PMonth => pad (Z.add 1 <$> (utcMonth <$> d))
  | PDay => pad (utcDate <$> d)
  | PDate => dateString d
  | PJulian => showNum ((fun t => day t + 40587) <$> d)
  | PHour => pad (utcHours <$> d)
  | PMinute => pad (utcMinutes <$> d)
  | PSecond => pad (utcSeconds <$> d)
  | PTime => timeString d
  | PIso8601 =>
      dateString d ++ js "T" ++ timeString d ++
      (if offsetMinutes =? 0 then js "Z" else take 3 (formatZone offsetMinutes) ++ [58] ++ drop 3 (formatZone offsetMinutes))
  | PStd11 =>
      nameOf DAYS (utcDay <$> d) ++ js ", " ++ showNum (utcDate <$> d) ++ [SP] ++ nameOf MONTHS (utcMonth <$> d) ++ [SP]
        ++ showNum (utcFullYear <$> d) ++ [SP] ++ timeString d ++ [SP] ++ formatZone offsetMinutes
  | PZone => formatZone offsetMinutes
  | PWeekday => showNum (utcDay <$> d)
  end.

(** ** Dates of headers *)

Record HeaderDate := mkHeaderDate { hd_ms : Z; hd_offset : Z }.

Section Parse.
Context `{DateParse}.

(** [/([+-]\d{4})\s*$/] on a trimmed text looks at its last five units. *)
Definition parseHeaderDate (value : jsstr) : option HeaderDate :=
  let text := trim value in
  ms ← dateParse text;
  Some {| hd_ms := ms; hd_offset := default 0 (parseZoneOffset (drop (length text - 5) text)) |}.
End Parse.

Example iso8601_example : datePartOf 1735689599000 540 PIso8601 = js "2025-01-01T08:59:59+09:00".
Proof. vm_compute. reflexivity. Qed.
Example std11_example : datePartOf 951782400000 (-330) PStd11 = js "Mon, 28 Feb 2000 18:30:00 -0530".
Proof. vm_compute. reflexivity. Qed.

(** ** Zones are read back *)

Lemma pad2_digits n : 0 <= n < 100 ->
  exists a b, pad (Some n) = [a; b] /\ isDigit a = true /\ isDigit b = true /\ digitsVal [a; b] = n.
Proof.
  intros Hn. unfold pad. cbn [fmap option_fmap option_map showNum]. rewrite Z.abs_eq by lia.
  pose proof (padStart0_length 2 n ltac:(lia) ltac:(lia)) as Hl. pose proof (padStart0_digits 2 n ltac:(lia)) as Hd.
  pose proof (digitsVal_pad 2 (numToString n)) as Hv. rewrite numToString_val in Hv by lia.
  destruct (padStart0 2 (numToString n)) as [|a [|b [|? ?]]]; try done. cbn [forallb] in Hd.
  apply andb_true_iff in Hd as [Ha [Hb _]%andb_true_iff]. eauto 8.
Qed.

Lemma isDigit_not_ws c : isDigit c = true -> isWs c = false.
Proof. unfold isDigit, isWs. intros H. bool_hyps. repeat (apply orb_false_iff; split); try (apply andb_false_iff); lia. Qed.

(** Printing an offset below a hundred hours and reading it gives the offset. *)
Lemma zone_roundtrip off : Z.abs off < 6000 -> parseZoneOffset (formatZone off) = Some off.
Proof.
  intros Ho. unfold formatZone.
  destruct (pad2_digits (Z.abs off / 60)) as (a & b & Hab & Ha & Hb & Hv); [split; [apply Z.div_pos; lia|apply Z.div_lt_upper_bound; lia]|].
  destruct (pad2_digits (Z.abs off mod 60)) as (c & d & Hcd & Hc & Hd & Hw); [pose proof (Z.mod_pos_bound (Z.abs off) 60); lia|].
  rewrite Hab, Hcd. cbn [app]. unfold parseZoneOffset.
  assert (Ht : forall s, isWs s = false -> trim [s; a; b; c; d] = [s; a; b; c; d]).
  { intros s Hs. unfold trim, trimEnd. cbn [trimStart]. rewrite Hs. cbn [rev app trimStart]. by rewrite (isDigit_not_ws d). }
  rewrite Ht by (by destruct (off <? 0)). cbn [forallb]. rewrite Ha, Hb, Hc, Hd, Hv, Hw.
  pose proof (Z.div_mod (Z.abs off) 60 ltac:(lia)). destruct (Z.ltb_spec off 0); cbn; f_equal; lia.
Qed.

(** ** Comparing parts as strings compares times *)

Lemma strLt_pad a b r r' : 0 <= a < 100 -> 0 <= b < 100 ->
  strLt (pad (Some a) ++ r) (pad (Some b) ++ r') = (a <? b) || ((a =? b) && strLt r r').
Proof.
  intros Ha Hb. destruct (pad2_digits a Ha) as (x & y & -> & Hx & Hy & Hv). destruct (pad2_digits b Hb) as (x' & y' & -> & Hx' & Hy' & Hv').
  rewrite strLt_app by done. destruct (strLt_digits [x; y] [x'; y']) as [-> ->]; [cbn; by rewrite Hx, Hy|cbn; by rewrite Hx', Hy'|done|].
  by rewrite Hv, Hv'.
Qed.

Lemma strLt_pad4 a b r r' : 0 <= a < 10000 -> 0 <= b < 10000 ->
  strLt (pad4 (Some a) ++ r) (pad4 (Some b) ++ r') = (a <? b) || ((a =? b) && strLt r r').
Proof.
  intros Ha Hb. unfold pad4, showNum.
  rewrite strLt_app by (rewrite !padStart0_length by lia; done).
  destruct (strLt_digits (padStart0 4 (numToString a)) (padStart0 4 (numToString b))) as [-> ->];
    [apply padStart0_digits; lia|apply padStart0_digits; lia|rewrite !padStart0_length by lia; done|].
  by rewrite !digitsVal_pad, !numToString_val by lia.
Qed.

Lemma strLt_sep c r r' : strLt (c :: r) (c :: r') = strLt r r'.
Proof. cbn. by rewrite Z.ltb_irrefl, Z.eqb_refl. Qed.

Lemma year_order t u : utcFullYear t < utcFullYear u -> day t < day u.
Proof.
  intros H. pose proof (yearFromDay_spec (day t)) as Ht. pose proof (yearFromDay_spec (day u)) as Hu.
  fold (utcFullYear t) in Ht. fold (utcFullYear u) in Hu. pose proof (dayFromYear_mono (utcFullYear t + 1) (utcFullYear u)). lia.
Qed.

Lemma month_order t u : utcFullYear t = utcFullYear u -> utcMonth t < utcMonth u -> day t < day u.
Proof.
  intros Hy Hm. rewrite <- (dayFromCivil_civil t), <- (dayFromCivil_civil u). unfold dayFromCivil. rewrite <- Hy.
  pose proof (utcDate_range t) as Hd. pose proof (utcDate_range u). pose proof (utcMonth_range t). pose proof (utcMonth_range u).
  unfold daysInMonth in Hd. destruct (Z.eq_dec (utcMonth t + 1) (utcMonth u)) as [<-|]; [lia|].
  pose proof (monthStart_mono (inLeapYear (utcFullYear t)) (utcMonth t + 1) (utcMonth u)). lia.
Qed.

(** A time whose year is printed with four digits. *)
Definition fourDigitYear (t : Z) : Prop := newDate t = Some t /\ 0 <= utcFullYear t <= 9999.

Lemma strLt_date t u r r' : fourDigitYear t -> fourDigitYear u ->
  strLt (dateString (newDate t) ++ r) (dateString (newDate u) ++ r') = (day t <? day u) || ((day t =? day u) && strLt r r').
Proof.
  intros [-> Ht] [-> Hu]. unfold dateString. cbn [fmap option_fmap option_map]. rewrite <- !app_assoc.
  pose proof (utcMonth_range t). pose proof (utcMonth_range u). pose proof (utcDate_range t). pose proof (utcDate_range u).
  pose proof (daysInMonth_le (utcFullYear t) (utcMonth t)). pose proof (daysInMonth_le (utcFullYear u) (utcMonth u)).
  rewrite strLt_pad4 by lia. cbn [app]. rewrite strLt_sep, strLt_pad by lia. cbn [app]. rewrite strLt_sep, strLt_pad by lia.
  pose proof (year_order t u) as Hy. pose proof (year_order u t) as Hy'. pose proof (month_order t u) as Hm. pose proof (month_order u t) as Hm'.
  pose proof (dayFromCivil_civil t) as Ct. pose proof (dayFromCivil_civil u) as Cu. unfold dayFromCivil in Ct, Cu.
  apply eq_true_iff_eq. repeat rewrite ?orb_true_iff, ?andb_true_iff. rewrite !Z.ltb_lt, !Z.eqb_eq.
  destruct (Z.lt_trichotomy (utcFullYear t) (utcFullYear u)) as [?|[Ey|?]]; [split; intros; try lia; left; lia| |split; intros; lia].
  rewrite Ey in Ct. destruct (Z.lt_trichotomy (utcMonth t) (utcMonth u)) as [?|[Em|?]]; [split; intros; try lia; left; lia| |split; intros; lia].
  rewrite Em in Ct. assert (Hd : day t < day u <-> utcDate t < utcDate u) by lia. assert (He : day t = day u <-> utcDate t = utcDate u) by lia.
  rewrite Hd, He, Ey, Em. pose proof (Z.lt_irrefl (utcFullYear u)). pose proof (Z.lt_irrefl (1 + utcMonth u)).
  pose proof (eq_refl (utcFullYear u)). pose proof (eq_refl (1 + utcMonth u)). tauto.
Qed.

Lemma strLt_time t u r r' :
  strLt (timeString (Some t) ++ r) (timeString (Some u) ++ r') =
  (t / 1000 mod 86400 <? u / 1000 mod 86400) || ((t / 1000 mod 86400 =? u / 1000 mod 86400) && strLt r r').
Proof.
  assert (Hs : forall x, x / 1000 mod 86400 = utcHours x * 3600 + utcMinutes x * 60 + utcSeconds x)
    by (intros x; unfold utcHours, utcMinutes, utcSeconds; zdiv).
  unfold timeString. cbn [fmap option_fmap option_map]. rewrite <- !app_assoc, !Hs.
  pose proof (utcHours_range t). pose proof (utcHours_range u). pose proof (utcMinutes_range t). pose proof (utcMinutes_range u).
  pose proof (utcSeconds_range t). pose proof (utcSeconds_range u).
  rewrite strLt_pad by lia. cbn [app]. rewrite strLt_sep, strLt_pad by lia. cbn [app]. rewrite strLt_sep, strLt_pad by lia.
  apply eq_true_iff_eq. repeat rewrite ?orb_true_iff, ?andb_true_iff. rewrite !Z.ltb_lt, !Z.eqb_eq.
  assert (Hlt : utcHours t * 3600 + utcMinutes t * 60 + utcSeconds t < utcHours u * 3600 + utcMinutes u * 60 + utcSeconds u <->
    utcHours t < utcHours u \/ utcHours t = utcHours u /\ (utcMinutes t < utcMinutes u \/ utcMinutes t = utcMinutes u /\ utcSeconds t < utcSeconds u)) by lia.
  assert (Heq : utcHours t * 3600 + utcMinutes t * 60 + utcSeconds t = utcHours u * 3600 + utcMinutes u * 60 + utcSeconds u <->
    utcHours t = utcHours u /\ utcMinutes t = utcMinutes u /\ utcSeconds t = utcSeconds u) by lia.
  rewrite Hlt, Heq. tauto.
Qed.

(** The parts of a date that scripts compare as strings compare as times do.  In one zone, for
    years of four digits, the string of [date] is smaller exactly when the day is earlier, and the
    string of [iso8601] exactly when the second is earlier; [julian] is the day number. *)
Theorem sieve_date_order ms1 ms2 off :
  let t := ms1 + off * 60000 in let u := ms2 + off * 60000 in
  fourDigitYear t -> fourDigitYear u ->
  strLt (datePartOf ms1 off PDate) (datePartOf ms2 off PDate) = (day t <? day u) /\
  strLt (datePartOf ms1 off PIso8601) (datePartOf ms2 off PIso8601) = (t / 1000 <? u / 1000) /\
  datePartOf ms1 off PJulian = numToString (day t + 40587).
Proof.
  intros t u Ht Hu. unfold datePartOf. fold t u. split; [|split; [|by rewrite (proj1 Ht)]].
  - rewrite <- (app_nil_r (dateString (newDate t))), <- (app_nil_r (dateString (newDate u))), strLt_date by done.
    cbn [strLt]. by rewrite andb_false_r, orb_false_r.
  - rewrite strLt_date by done. rewrite (proj1 Ht), (proj1 Hu). change (js "T") with [84]. cbn [app].
    rewrite strLt_sep, strLt_time. set (z := if off =? 0 then _ else _).
    assert (Hz : strLt z z = false) by (clear; induction z as [|c z IH]; [done|]; by rewrite strLt_sep).
    rewrite Hz, andb_false_r, orb_false_r. apply eq_true_iff_eq. rewrite orb_true_iff, andb_true_iff, !Z.ltb_lt, Z.eqb_eq.
    unfold day, msPerDay. zdiv.
Qed.

Lemma sieve_date_order_witness :
  strLt (datePartOf 1735689599000 0 PIso8601) (datePartOf 1735689600000 0 PIso8601) = true.
Proof.
  assert (Ht : fourDigitYear (1735689599000 + 0 * 60000)) by (vm_compute; intuition discriminate).
  assert (Hu : fourDigitYear (1735689600000 + 0 * 60000)) by (vm_compute; intuition discriminate).
  destruct (sieve_date_order 1735689599000 1735689600000 0 Ht Hu) as (_ & -> & _). reflexivity.
Defined.
