(* ===== verification/SieveRun.v ===== *)
(** * The Sieve interpreter (packages/sieve/src/interpret.ts)

    A script is parsed and run against the environment of a message; the result says where the
    message goes.  Tests may set the match variables and read the clock, so they pass the state on;
    every error aborts the run, so an error carries no state.  [include] runs another script of the
    same account on the same state: its nesting is the only recursion that does not follow the
    tree, and [runLevel] counts it. *)

From S2P Require Import Prelude JsString JsNumber Loop Glob Regex ManageSieve Sieve SieveVars SieveDate.

(** ** Environment, result and state *)

Record SieveEnv := mkEnv {
  headers : list (jsstr * list jsstr);
  envelopeFrom : jsstr;
  envelopeTo : list jsstr;
  size : Z;
  mailboxes : option (list jsstr);
  subaddressDelimiter : option jsstr;
  bodyText : option jsstr;
  bodyRaw : option jsstr;
  bodyParts : option (list (jsstr * jsstr));
  spamScore : option Z;
  now : option Z;
  scripts : option (list (jsstr * jsstr))
}.

Record VacationRequest := mkVacation {
  reason : jsstr;
  days : Z;
  subject : option jsstr;
  from : option jsstr;
  addresses : list jsstr;
  handle : option jsstr;
  mime : bool
}.

Record SieveResult := mkResult {
  keep : bool;
  fileinto : list jsstr;
  fileintoCreate : list jsstr;
  redirect : list jsstr;
  flags : list jsstr;
  discarded : bool;
  reject : option jsstr;
  vacation : option VacationRequest
}.

(** [ExecState.result]; its field [keep] is never read. *)
Record ExecResult := mkExec {
  x_fileinto : list jsstr;
  x_fileintoCreate : list jsstr;
  x_redirect : list jsstr;
  x_flags : list jsstr;
  x_canceledImplicit : bool;
  x_explicitKeep : bool;
  x_reject : option jsstr;
  x_vacation : option VacationRequest
}.

(** [ExecState]; [clock] is the stream of what [Date.now()] answers. *)
Record ExecState := mkState {
  result : ExecResult;
  stopped : bool;
  returned : bool;
  included : list jsstr;
  depth : nat;
  st_vars : SieveVariables;
  varsEnabled : bool;
  clock : nat -> Z
}.

Definition MAX_INCLUDE_DEPTH : nat := 3.

(** What the code throws.  [TypeError] stands for an access to a part of the tree that is not
    there; no parsed script gives it. *)
Inductive SieveError :=
| SyntaxFailure (e : SieveSyntaxError)
| UnsupportedExtension (ext : jsstr)
| SetWithoutVariables
| UnknownModifier (name : jsstr)
| SetArguments
| InvalidVariableName (name : jsstr)
| IncludeName
| IncludeGlobal
| IncludeNotFound (name : jsstr)
| IncludeTooDeep
| ReasonMissing (cmd : jsstr)
| FileintoMailbox
| RedirectAddress
| VacationDays
| UnknownCommand (name : jsstr)
| SizeNumber
| SizeOverUnder
| MailboxName
| KeyMissing (test : jsstr)
| UnknownDatePart (name : option jsstr)
| InvalidZone (zone : jsstr)
| UnknownRelation (rel : jsstr)
| InvalidRegex (e : RegexSyntaxError)
| UnknownTest (name : jsstr)
| TypeError.

Abbreviation Run := (Result SieveError).

(** ** Arguments *)

Definition isTag (name : jsstr) (a : SieveArg) : bool := match a with ATag n => n === name | _ => false end.

Definition hasTag (args : list SieveArg) (name : jsstr) : bool := existsb (isTag name) args.

(** The argument right behind the first tag of that name. *)
Fixpoint tagNext (args : list SieveArg) (name : jsstr) : option SieveArg :=
  match args with
  | [] => None
  | a :: r => if isTag name a then head r else tagNext r name
  end.

Definition tagString (args : list SieveArg) (name : jsstr) : option jsstr :=
  match tagNext args name with Some (AStrings (v :: _)) => Some v | _ => None end.

Definition tagStrings (args : list SieveArg) (name : jsstr) : list jsstr :=
  match tagNext args name with Some (AStrings vs) => vs | _ => [] end.

Definition tagNumber (args : list SieveArg) (name : jsstr) : option JsNum :=
  match tagNext args name with Some (ANumber n) => Some n | _ => None end.

(** The [strings] arguments in order. *)
Definition stringArgs (args : list SieveArg) : list (list jsstr) :=
  omap (fun a => match a with AStrings vs => Some vs | _ => None end) args.

Definition firstStrings (args : list SieveArg) : list jsstr := default [] (head (stringArgs args)).

Definition firstNumber (args : list SieveArg) : option JsNum :=
  head (omap (fun a => match a with ANumber n => Some n | _ => None end) args).

(** Positional arguments: a tag of [valueTags] takes the string list or number behind it. *)
Fixpoint positionalStringGroups (args : list SieveArg) (valueTags : list jsstr) : list (list jsstr) :=
  match args with
  | [] => []
  | ATag n :: r =>
      if existsb (seqb n) valueTags then
        match r with
        | (AStrings _ | ANumber _) :: r' => positionalStringGroups r' valueTags
        | _ => positionalStringGroups r valueTags
        end
      else positionalStringGroups r valueTags
  | AStrings vs :: r => vs :: positionalStringGroups r valueTags
  | ANumber _ :: r => positionalStringGroups r valueTags
  end.

Definition positionalStrings (args : list SieveArg) (valueTags : list jsstr) : list jsstr :=
  concat (positionalStringGroups args valueTags).

Definition VACATION_VALUE_TAGS : list jsstr := map js ["days"; "subject"; "from"; "addresses"; "handle"]%string.
Definition DEFAULT_VACATION_DAYS : Z := 7.
Definition TEST_VALUE_TAGS : list jsstr := map js ["comparator"; "value"; "count"]%string.
Definition BODY_VALUE_TAGS : list jsstr := map js ["comparator"; "content"; "value"; "count"]%string.
Definition DATE_VALUE_TAGS : list jsstr := map js ["comparator"; "zone"; "value"; "count"]%string.

Definition flagArgs (args : list SieveArg) : list jsstr :=
  flat_map (fun s => filter (fun x => x <> []) (splitWs s)) (concat (stringArgs args)).

(** [Set.add] and [Set.delete] on a set kept in order of insertion. *)
Definition setAdd (l : list jsstr) (x : jsstr) : list jsstr := if bool_decide (x ∈ l) then l else l ++ [x].
Definition setDelete (l : list jsstr) (x : jsstr) : list jsstr := filter (fun y => y <> x) l.

(** [[...new Set(l)]] *)
Definition uniq (l : list jsstr) : list jsstr := fold_left setAdd l [].

(** ** Addresses *)

Inductive AddressPart := APAll | APLocalpart | APDomain | APUser | APDetail.

Definition addressPart (args : list SieveArg) : AddressPart :=
  if hasTag args (js "localpart") then APLocalpart
  else if hasTag args (js "domain") then APDomain
  else if hasTag args (js "user") then APUser
  else if hasTag args (js "detail") then APDetail
  else APAll.

(** The regular expression for an address in angle brackets: from the first [<] to the next [>]. *)
Definition angleAddr (part : jsstr) : option jsstr :=
  i ← indexOf 60 part;
  let inner := drop (S i) part in
  j ← indexOf 62 inner;
  Some (take j inner).

Definition extractAddresses (header : jsstr) : list jsstr :=
  filter (fun addr => 64 ∈ addr)
    (map (fun part => trim (default part (angleAddr part))) (splitOn 44 header)).

Definition addrPart (addr : jsstr) (part : AddressPart) (delimiter : jsstr) : jsstr :=
  match part, lastIndexOf 64 addr with
  | APAll, _ | _, None => addr
  | APDomain, Some at_ => drop (S at_) addr
  | APLocalpart, Some at_ => take at_ addr
  | (APUser | APDetail) as p, Some at_ =>
      let local := take at_ addr in
      match (match delimiter with [] => None | _ => indexOfStr delimiter local end), p with
      | None, APUser => local
      | None, _ => []
      | Some idx, APUser => take idx local
      | Some idx, _ => drop (idx + length delimiter) local
      end
  end.

(** ** Matching *)

Inductive Relation := RGt | RGe | RLt | RLe | REq | RNe.

Inductive MatchKind := MIs | MContains | MMatches | MRegex | MValue (rel : Relation) | MCount (rel : Relation).

Definition RELATIONS : list (jsstr * Relation) :=
  [(js "gt", RGt); (js "ge", RGe); (js "lt", RLt); (js "le", RLe); (js "eq", REq); (js "ne", RNe)].

(** One round of the loop over [value] and [count]. *)
Definition relationalKind (args : list SieveArg) (tag : jsstr) (mk : Relation -> MatchKind) (otherwise : Run MatchKind) : Run MatchKind :=
  match tagString args tag with
  | None => otherwise
  | Some rel =>
      match mapGet (toLowerCase rel) RELATIONS with
      | Some r => Ok (mk r)
      | None => Err (UnknownRelation rel)
      end
  end.

Definition matchType (args : list SieveArg) : Run MatchKind :=
  if hasTag args (js "contains") then Ok MContains
  else if hasTag args (js "matches") then Ok MMatches
  else if hasTag args (js "regex") then Ok MRegex
  else relationalKind args (js "value") MValue (relationalKind args (js "count") MCount (Ok MIs)).

Definition isNumericComparator (args : list SieveArg) : bool :=
  toLowerCase (default [] (tagString args (js "comparator"))) === js "i;ascii-numeric".

(** [/^\d/.test(s) ? Number.parseInt(s, 10) : Infinity] on the trimmed text; [None] is infinity. *)
Definition asciiNumber (s : jsstr) : option Z :=
  match trim s with
  | c :: _ as t =>
      if isDigit c then match decimalValue (spanDigits t).1 0 0 with NumInt z => Some z | _ => None end else None
  | [] => None
  end.

(** The sign of the comparison. *)
Definition compareNumbers (a b : option Z) : Z :=
  match a, b with
  | Some x, Some y => if x =? y then 0 else if x <? y then -1 else 1
  | Some _, None => -1
  | None, Some _ => 1
  | None, None => 0
  end.

Definition compareStrings (a b : jsstr) : Z := if a === b then 0 else if strLt a b then -1 else 1.

Definition relate (rel : Relation) (a b : jsstr) (numeric : bool) : bool :=
  let c := if numeric then compareNumbers (asciiNumber a) (asciiNumber b) else compareStrings a b in
  match rel with
  | RGt => 0 <? c
  | RGe => 0 <=? c
  | RLt => c <? 0
  | RLe => c <=? 0
  | REq => c =? 0
  | RNe => negb (c =? 0)
  end.

(** What [vars.setMatches] is called with, if it is. *)
Abbreviation Capture := (option (jsstr * list jsstr)).

(** The first pair of a value and a key for which [f] answers. *)
Definition firstPair {A} (f : jsstr -> A -> option (list jsstr)) (values : list jsstr) (keys : list A) : Capture :=
  head (omap (fun v => c ← head (omap (f v) keys); Some (v, c)) values).

Definition globPair (v k : jsstr) : option (list jsstr) :=
  let r := globCaptures (toLowerCase k) v SIEVE_MATCH_SYNTAX in
  if Glob.matched r then Some (Glob.captures r) else None.

(** [keys.map((k) => compileRegex(k, { caseInsensitive: true }))], its errors as [SieveError]. *)
Fixpoint compileAll (keys : list jsstr) : Run (list CompiledRegex) :=
  match keys with
  | [] => Ok []
  | k :: ks =>
      match compileRegex k true with
      | Ok re => let* res := compileAll ks in Ok (re :: res)
      | Err e => Err (InvalidRegex e)
      | Fuel => Fuel
      end
  end.

Fixpoint regexKeys (v : jsstr) (res : list CompiledRegex) : Run (option (list jsstr)) :=
  match res with
  | [] => Ok None
  | re :: res' =>
      match execRegex re v with
      | None => Err TypeError
      | Some m => if Regex.matched m then Ok (Some (Regex.captures m)) else regexKeys v res'
      end
  end.

Fixpoint regexValues (values : list jsstr) (res : list CompiledRegex) : Run Capture :=
  match values with
  | [] => Ok None
  | v :: values' =>
      let* r := regexKeys v res in
      match r with Some caps => Ok (Some (v, caps)) | None => regexValues values' res end
  end.

Definition isSome {A} (o : option A) : bool := match o with Some _ => true | None => false end.

(** [anyMatch]; [useVars] is [vars !== undefined]. *)
Definition anyMatch (values keys : list jsstr) (kind : MatchKind) (numeric useVars : bool) : Run (bool * Capture) :=
  match kind with
  | MCount rel => Ok (existsb (fun k => relate rel (numToString (len values)) k true) keys, None)
  | MValue rel =>
      let fold s := if numeric then s else toLowerCase s in
      Ok (existsb (fun v => existsb (fun k => relate rel (fold v) (fold k) numeric) keys) values, None)
  | MRegex =>
      let* res := compileAll keys in
      let* r := regexValues values res in
      Ok (isSome r, if useVars then r else None)
  | MMatches =>
      if useVars then let r := firstPair globPair values keys in Ok (isSome r, r)
      else Ok (existsb (fun v => existsb (fun k => compileGlob (toLowerCase k) SIEVE_MATCH_SYNTAX (toLowerCase v)) keys) values, None)
  | MIs => Ok (existsb (fun v => existsb (fun k => toLowerCase v === toLowerCase k) keys) values, None)
  | MContains => Ok (existsb (fun v => existsb (fun k => includes (toLowerCase k) (toLowerCase v)) keys) values, None)
  end.

(** ** Tests on their expanded arguments *)

Section Tests.
Context `{DateParse} (env : SieveEnv).

Definition header (name : jsstr) : list jsstr := default [] (mapGet (toLowerCase name) (headers env)).

Definition delimiter : jsstr := default (js "+") (subaddressDelimiter env).

(** A test that compares: the values of its own, then [anyMatch]. *)
Definition compareTest (args : list SieveArg) (values keys : list jsstr) (match_ : MatchKind) (useVars : bool) : Run (bool * Capture) :=
  anyMatch values keys match_ (isNumericComparator args) useVars.

Definition existsTest (args : list SieveArg) : bool := forallb (fun nm => 0 <? len (header nm)) (firstStrings args).

(** [env.size > limit] and [env.size < limit] *)
Definition numBelow (n : JsNum) (m : Z) : bool :=
  match n with NumNaN => false | NumInf neg => neg | NumFrac f => f <? m | NumInt z => z <? m end.
Definition numAbove (n : JsNum) (m : Z) : bool :=
  match n with NumNaN => false | NumInf neg => negb neg | NumFrac f => m <=? f | NumInt z => m <? z end.

Definition sizeTest (args : list SieveArg) : Run bool :=
  match firstNumber args with
  | None => Err SizeNumber
  | Some limit =>
      if hasTag args (js "over") then Ok (numBelow limit (size env))
      else if hasTag args (js "under") then Ok (numAbove limit (size env))
      else Err SizeOverUnder
  end.

Definition headerTest (args : list SieveArg) (useVars : bool) : Run (bool * Capture) :=
  let* match_ := matchType args in
  let strs := positionalStringGroups args TEST_VALUE_TAGS in
  let names := default [] (strs !! 0%nat) in
  let keys := default [] (strs !! 1%nat) in
  compareTest args (flat_map header names) keys match_ useVars.

Definition addressTest (args : list SieveArg) (useVars : bool) : Run (bool * Capture) :=
  let* match_ := matchType args in
  let part := addressPart args in
  let strs := positionalStringGroups args TEST_VALUE_TAGS in
  let names := default [] (strs !! 0%nat) in
  let keys := default [] (strs !! 1%nat) in
  let values := flat_map (fun nm => flat_map (fun h => map (fun a => addrPart a part delimiter) (extractAddresses h)) (header nm)) names in
  compareTest args values keys match_ useVars.

Definition envelopeTest (args : list SieveArg) (useVars : bool) : Run (bool * Capture) :=
  let* match_ := matchType args in
  let part := addressPart args in
  let strs := positionalStringGroups args TEST_VALUE_TAGS in
  let fields := map toLowerCase (default [] (strs !! 0%nat)) in
  let keys := default [] (strs !! 1%nat) in
  let values := flat_map (fun f =>
    if f === js "from" then [addrPart (envelopeFrom env) part delimiter]
    else if f === js "to" then map (fun t => addrPart t part delimiter) (envelopeTo env)
    else []) fields in
  compareTest args values keys match_ useVars.

Definition mailboxexistsTest (args : list SieveArg) : Run bool :=
  match concat (stringArgs args) with
  | [] => Err MailboxName
  | names => Ok (forallb (fun n => bool_decide (n ∈ default [] (mailboxes env))) names)
  end.

Definition bodyValues (args : list SieveArg) : list jsstr :=
  if hasTag args (js "raw") then [default [] (bodyRaw env)]
  else if hasTag args (js "content") then
    let wanted := map toLowerCase (tagStrings args (js "content")) in
    map snd (List.filter (fun p => existsb (fun w => (w === []) || startsWith w (toLowerCase p.1)) wanted) (default [] (bodyParts env)))
  else [default [] (bodyText env)].

Definition bodyTest (args : list SieveArg) (useVars : bool) : Run (bool * Capture) :=
  let* match_ := matchType args in
  match positionalStrings args BODY_VALUE_TAGS with
  | [] => Err (KeyMissing (js "body"))
  | keys => compareTest args (bodyValues args) keys match_ useVars
  end.

Definition zoneOffsetArg (args : list SieveArg) : Run Z :=
  match tagString args (js "zone") with
  | None => Ok 0
  | Some z => match parseZoneOffset z with Some off => Ok off | None => Err (InvalidZone z) end
  end.

(** [date] and [currentdate]; [tick] is what [Date.now()] answers. *)
Definition dateTest (isHeaderDate : bool) (args : list SieveArg) (tick : Z) (useVars : bool) : Run (bool * Capture) :=
  let* match_ := matchType args in
  let pos := positionalStrings args DATE_VALUE_TAGS in
  let partName := toLowerCase <$> (pos !! (if isHeaderDate then 1 else 0)%nat) in
  let keys := drop (if isHeaderDate then 2 else 1) pos in
  match partName ≫= isDatePart with
  | None => Err (UnknownDatePart partName)
  | Some part =>
      match keys with
      | [] => Err (KeyMissing (if isHeaderDate then js "date" else js "currentdate"))
      | _ =>
          if isHeaderDate then
            match head (header (default [] (head pos))) ≫= parseHeaderDate with
            | None => Ok (false, None)
            | Some d =>
                let* offset := if hasTag args (js "originalzone") then Ok (hd_offset d) else zoneOffsetArg args in
                compareTest args [datePartOf (hd_ms d) offset part] keys match_ useVars
            end
          else
            let* offset := zoneOffsetArg args in
            compareTest args [datePartOf (default tick (now env)) offset part] keys match_ useVars
      end
  end.

(** [String(Math.round(((score - 1) / 9) * 100))]: no quotient by nine is near a half. *)
Definition percentScore (score : Z) : Z := (200 * (score - 1) + 9) / 18.

Definition spamtestTest (args : list SieveArg) (useVars : bool) : Run (bool * Capture) :=
  let* match_ := matchType args in
  match positionalStrings args TEST_VALUE_TAGS with
  | [] => Err (KeyMissing (js "spamtest"))
  | keys =>
      let value := match spamScore env with
                   | None => js "0"
                   | Some score => if hasTag args (js "percent") then numToString (percentScore score) else numToString score
                   end in
      anyMatch [value] keys match_ true useVars
  end.

Definition stringTest (args : list SieveArg) (useVars : bool) : Run (bool * Capture) :=
  let* match_ := matchType args in
  let groups := positionalStringGroups args TEST_VALUE_TAGS in
  match default [] (groups !! 1%nat) with
  | [] => Err (KeyMissing (js "string"))
  | keys => compareTest args (default [] (groups !! 0%nat)) keys match_ useVars
  end.

(** The tests of [evalExpandedTest] without tests inside. *)
Definition leafTest (name : jsstr) (args : list SieveArg) (tick : Z) (useVars : bool) : Run (bool * Capture) :=
  let plain (r : Run bool) : Run (bool * Capture) := let* b := r in Ok (b, None) in
  if name === js "true" then Ok (true, None)
  else if name === js "false" then Ok (false, None)
  else if name === js "exists" then Ok (existsTest args, None)
  else if name === js "size" then plain (sizeTest args)
  else if name === js "header" then headerTest args useVars
  else if name === js "address" then addressTest args useVars
  else if name === js "envelope" then envelopeTest args useVars
  else if name === js "mailboxexists" then plain (mailboxexistsTest args)
  else if name === js "body" then bodyTest args useVars
  else if name === js "date" then dateTest true args tick useVars
  else if name === js "currentdate" then dateTest false args tick useVars
  else if name === js "spamtest" then spamtestTest args useVars
  else if name === js "string" then stringTest args useVars
  else Err (UnknownTest name).
End Tests.

(** ** Evaluation *)

(** [withExpanded] *)
Definition withExpanded (args : list SieveArg) (st : ExecState) : list SieveArg :=
  if negb (varsEnabled st) then args
  else map (fun a => match a with AStrings vs => AStrings (map (expand (st_vars st)) vs) | _ => a end) args.

Definition recordCapture (c : Capture) (st : ExecState) : ExecState :=
  match c with Some (whole, caps) => st <| st_vars := setMatches whole caps (st_vars st) |> | None => st end.

(** [tests.every(eval)] and [tests.some(eval)]: they stop at the first test that decides. *)
Section Lists.
Context (eval : SieveTest -> ExecState -> Run (bool * ExecState)).

Fixpoint everyTest (tests : list SieveTest) (st : ExecState) : Run (bool * ExecState) :=
  match tests with
  | [] => Ok (true, st)
  | t :: ts => let* r := eval t st in if r.1 then everyTest ts r.2 else Ok r
  end.

Fixpoint someTest (tests : list SieveTest) (st : ExecState) : Run (bool * ExecState) :=
  match tests with
  | [] => Ok (false, st)
  | t :: ts => let* r := eval t st in if r.1 then Ok r else someTest ts r.2
  end.
End Lists.

Section Eval.
Context `{DateParse} (env : SieveEnv).

(** [Date.now()] is read by [currentdate] when the environment has no time. *)
Definition readClock (name : jsstr) (st : ExecState) : ExecState :=
  if (name === js "currentdate") && negb (isSome (now env)) then st <| clock := fun n => clock st (S n) |> else st.

Fixpoint evalTest (t : SieveTest) (st : ExecState) : Run (bool * ExecState) :=
  match t with
  | Test name args tests =>
      if name === js "not" then
        match tests with
        | t0 :: _ => let* r := evalTest t0 st in Ok (negb r.1, r.2)
        | [] => Err TypeError
        end
      else if name === js "allof" then everyTest evalTest tests st
      else if name === js "anyof" then someTest evalTest tests st
      else
        let* r := leafTest env name (withExpanded args st) (clock st 0%nat) (varsEnabled st) in
        Ok (r.1, recordCapture r.2 (readClock name st))
  end.

(** ** Actions *)

Definition onResult (f : ExecResult -> ExecResult) (st : ExecState) : ExecState := st <| result := f (result st) |>.

Fixpoint requireExts (exts : list jsstr) (st : ExecState) : Run ExecState :=
  match exts with
  | [] => Ok st
  | e :: es =>
      if existsb (seqb e) SUPPORTED_EXTENSION_LIST
      then requireExts es (if e === js "variables" then st <| varsEnabled := true |> else st)
      else Err (UnsupportedExtension e)
  end.

Fixpoint setModifiers (args : list SieveArg) : Run (list Modifier) :=
  match args with
  | [] => Ok []
  | ATag n :: r =>
      match isModifier n with
      | None => Err (UnknownModifier n)
      | Some m => let* ms := setModifiers r in Ok (m :: ms)
      end
  | _ :: r => setModifiers r
  end.

Definition doSet (args : list SieveArg) (st : ExecState) : Run ExecState :=
  if negb (varsEnabled st) then Err SetWithoutVariables
  else
    let* mods := setModifiers args in
    match positionalStrings args [] with
    | name :: value :: _ =>
        if isValidVariableName name then Ok (st <| st_vars := setVar name (applyModifiers value mods) (st_vars st) |>)
        else Err (InvalidVariableName name)
    | _ => Err SetArguments
    end.

Section Include.
(** Running the commands of an included script. *)
Context (run : list SieveCommand -> ExecState -> Run ExecState).

Definition doInclude (args : list SieveArg) (st : ExecState) : Run ExecState :=
  match positionalStrings args [] with
  | [] => Err IncludeName
  | name :: _ =>
      let optional := hasTag args (js "optional") in
      if hasTag args (js "global") then (if optional then Ok st else Err IncludeGlobal)
      else if hasTag args (js "once") && bool_decide (name ∈ included st) then Ok st
      else match scripts env ≫= mapGet name with
      | None => if optional then Ok st else Err (IncludeNotFound name)
      | Some src =>
          if (MAX_INCLUDE_DEPTH <=? depth st)%nat then Err IncludeTooDeep
          else
            let outerReturned := returned st in
            match parseSieve src with
            | Err e => Err (SyntaxFailure e)
            | Fuel => Fuel
            | Ok cmds =>
                let* st' := run cmds (st <| included := setAdd (included st) name |> <| depth := S (depth st) |> <| returned := false |>) in
                Ok (st' <| depth := pred (depth st') |> <| returned := outerReturned |>)
            end
      end
  end.

Definition doReturn (st : ExecState) : ExecState :=
  if (0 <? depth st)%nat then st <| returned := true |> else st <| stopped := true |>.

Definition doReject (name : jsstr) (args : list SieveArg) (st : ExecState) : Run ExecState :=
  match firstStrings args with
  | [] => Err (ReasonMissing name)
  | reason :: _ => Ok (onResult (fun r => r <| x_reject := Some reason |> <| x_canceledImplicit := true |>) st)
  end.

(** [if (!target)]: no string, or the empty string. *)
Definition doFileinto (args : list SieveArg) (st : ExecState) : Run ExecState :=
  match default [] (head (firstStrings args)) with
  | [] => Err FileintoMailbox
  | target =>
      Ok (onResult (fun r =>
        r <| x_fileinto := x_fileinto r ++ [target] |>
          <| x_fileintoCreate := if hasTag args (js "create") then x_fileintoCreate r ++ [target] else x_fileintoCreate r |>
          <| x_canceledImplicit := if hasTag args (js "copy") then x_canceledImplicit r else true |>) st)
  end.

Definition doRedirect (args : list SieveArg) (st : ExecState) : Run ExecState :=
  match default [] (head (firstStrings args)) with
  | [] => Err RedirectAddress
  | addr =>
      Ok (onResult (fun r =>
        r <| x_redirect := x_redirect r ++ [addr] |>
          <| x_canceledImplicit := if hasTag args (js "copy") then x_canceledImplicit r else true |>) st)
  end.

(** The days of [:days], an integer from 1 on. *)
Definition vacationDays (args : list SieveArg) : Run Z :=
  match tagNumber args (js "days") with
  | None => Ok DEFAULT_VACATION_DAYS
  | Some (NumInt d) => if d <? 1 then Err VacationDays else Ok d
  | Some _ => Err VacationDays
  end.

Definition doVacation (args : list SieveArg) (st : ExecState) : Run ExecState :=
  if isSome (x_vacation (result st)) then Ok st
  else match positionalStrings args VACATION_VALUE_TAGS with
  | [] => Err (ReasonMissing (js "vacation"))
  | reason :: _ =>
      let* days := vacationDays args in
      let request := {|
        reason := reason; days := days;
        subject := tagString args (js "subject"); from := tagString args (js "from");
        addresses := tagStrings args (js "addresses"); handle := tagString args (js "handle");
        mime := hasTag args (js "mime") |} in
      Ok (onResult (fun r => r <| x_vacation := Some request |>) st)
  end.

Definition doFlags (f : list jsstr -> list jsstr) (st : ExecState) : ExecState :=
  onResult (fun r => r <| x_flags := f (x_flags r) |>) st.

Definition execAction (name : jsstr) (rawArgs : list SieveArg) (st : ExecState) : Run ExecState :=
  let args := withExpanded rawArgs st in
  if name === js "require" then requireExts (firstStrings args) st
  else if name === js "set" then doSet args st
  else if name === js "stop" then Ok (st <| stopped := true |>)
  else if name === js "include" then doInclude args st
  else if name === js "return" then Ok (doReturn st)
  else if (name === js "reject") || (name === js "ereject") then doReject name args st
  else if name === js "keep" then Ok (onResult (fun r => r <| x_explicitKeep := true |>) st)
  else if name === js "discard" then Ok (onResult (fun r => r <| x_canceledImplicit := true |>) st)
  else if name === js "fileinto" then doFileinto args st
  else if name === js "redirect" then doRedirect args st
  else if name === js "vacation" then doVacation args st
  else if name === js "setflag" then Ok (doFlags (fun _ => fold_left setAdd (flagArgs args) []) st)
  else if name === js "addflag" then Ok (doFlags (fun fl => fold_left setAdd (flagArgs args) fl) st)
  else if name === js "removeflag" then Ok (doFlags (fun fl => fold_left setDelete (flagArgs args) fl) st)
  else Err (UnknownCommand name).

(** ** Blocks *)

(** The loop of [execBlock]; [prev] is [prevMatched]. *)
Section Loop.
Context (exec : SieveCommand -> bool -> ExecState -> Run (bool * ExecState)).
Fixpoint blockLoop (cmds : list SieveCommand) (prev : bool) (st : ExecState) : Run ExecState :=
  match cmds with
  | [] => Ok st
  | c :: cs =>
      if stopped st || returned st then Ok st
      else let* r := exec c prev st in blockLoop cs r.1 r.2
  end.
End Loop.

(** One command: the new [prevMatched] and state. *)
Fixpoint execCommand (c : SieveCommand) (prev : bool) (st : ExecState) : Run (bool * ExecState) :=
  match c with
  | Command name args test block =>
      let body st := match block with Some b => blockLoop execCommand b false st | None => Ok st end in
      let cond :=
        match test with
        | None => Err TypeError
        | Some t =>
            let* r := evalTest t st in
            if r.1 then let* st' := body r.2 in Ok (true, st') else Ok (false, r.2)
        end in
      if name === js "if" then cond
      else if name === js "elsif" then (if prev then Ok (prev, st) else cond)
      else if name === js "else" then
        if prev then Ok (false, st) else let* st' := body st in Ok (false, st')
      else let* st' := execAction name args st in Ok (false, st')
  end.

Definition execBlock (cmds : list SieveCommand) (st : ExecState) : Run ExecState := blockLoop execCommand cmds false st.
End Include.

(** Blocks with at most [n] scripts running inside one another. *)
Fixpoint runLevel (n : nat) (cmds : list SieveCommand) (st : ExecState) : Run ExecState :=
  match n with
  | O => Fuel
  | S n' => execBlock (runLevel n') cmds st
  end.

(** ** Whole scripts *)

Definition initResult : ExecResult :=
  {| x_fileinto := []; x_fileintoCreate := []; x_redirect := []; x_flags := []; x_canceledImplicit := false;
     x_explicitKeep := false; x_reject := None; x_vacation := None |}.

Definition initState (clk : nat -> Z) : ExecState :=
  {| result := initResult; stopped := false; returned := false; included := []; depth := 0;
     st_vars := newVariables; varsEnabled := false; clock := clk |}.

(** The end of [runSieve]. *)
Definition finish (r : ExecResult) : SieveResult :=
  match x_reject r with
  | Some why =>
      {| keep := false; fileinto := []; fileintoCreate := []; redirect := []; flags := []; discarded := false;
         reject := Some why; vacation := None |}
  | None =>
      let keep := x_explicitKeep r || negb (x_canceledImplicit r) in
      {| keep := keep; fileinto := uniq (x_fileinto r); fileintoCreate := uniq (x_fileintoCreate r);
         redirect := uniq (x_redirect r); flags := x_flags r;
         discarded := negb keep && (len (x_fileinto r) =? 0) && (len (x_redirect r) =? 0);
         reject := None; vacation := x_vacation r |}
  end.

Definition runSieve (src : jsstr) (clk : nat -> Z) : Run SieveResult :=
  match parseSieve src with
  | Err e => Err (SyntaxFailure e)
  | Fuel => Fuel
  | Ok cmds =>
      let* st := runLevel (S MAX_INCLUDE_DEPTH) cmds (initState clk) in
      Ok (finish (result st))
  end.
End Eval.
