(* ===== verification/SieveSpec.v ===== *)
(** * What running a Sieve script guarantees

    Properties of [SieveRun]: every script ends; no message is lost unless the script discards it;
    a chain of conditions runs the first branch that holds; asking for variables does not change
    what [:matches] matches. *)

From S2P Require Import Prelude JsString JsNumber Loop Glob Regex RegexSpec ManageSieve Sieve SieveVars SieveDate SieveRun.

(** ** Parsed trees have the parts the interpreter reads *)

Fixpoint okTest (t : SieveTest) : bool :=
  match t with Test name _ tests => (negb (name === js "not") || (0 <? length tests)%nat) && forallb okTest tests end.

Fixpoint okCommand (c : SieveCommand) : bool :=
  match c with
  | Command name _ test block =>
      match test with Some t => okTest t | None => negb (CONTROL_WITH_TEST name) end
      && match block with Some b => forallb okCommand b | None => true end
  end.

Lemma parseTest_shape fuel :
  (forall toks t r, parseTest fuel toks = Ok (t, r) -> okTest t = true) /\
  (forall out toks ts r, testItems fuel out toks = Ok (ts, r) -> forallb okTest out = true -> forallb okTest ts = true).
Proof.
  induction fuel as [|f [IHt IHi]]; [done|]. split.
  - intros toks t r. cbn [parseTest]. intros ([name t1] & _ & H)%bindRes_ok. destruct (TEST_WITH_SUBTESTS name) eqn:Es.
    + apply bindRes_ok in H as (t2 & _ & H). apply bindRes_ok in H as ([ts t3] & Hts & H).
      apply bindRes_ok in H as (t4 & _ & [= <- <-]). cbn [okTest].
      assert (Hn : (name === js "not") = false).
      { destruct (seqb_spec name (js "not")) as [->|]; [|done]. vm_compute in Es. done. }
      rewrite Hn. cbn [negb orb andb]. destruct (peekIs 41 t2); [injection Hts as <- <-; done|]. by eapply IHi.
    + destruct (TEST_WITH_SUBTEST name) eqn:En.
      * apply bindRes_ok in H as ([inner t2] & Hi & [= <- <-]). cbn [okTest forallb length]. rewrite (IHt _ _ _ Hi).
        by rewrite orb_true_r.
      * apply bindRes_ok in H as ([args t2] & _ & [= <- <-]). cbn [okTest forallb]. rewrite andb_true_r.
        unfold TEST_WITH_SUBTEST, oneOf in En. cbn [existsb] in En. rewrite orb_false_r in En. by rewrite En.
  - intros out toks ts r. cbn [testItems]. intros ([t t1] & Ht & H)%bindRes_ok Ho. apply IHt in Ht.
    assert (Ho' : forallb okTest (out ++ [t]) = true) by (rewrite forallb_app; cbn; by rewrite Ho, Ht).
    destruct (peekIs 44 t1); [by eapply IHi|]. by injection H as <- <-.
Qed.

Lemma parseCommands_shape fuel :
  (forall d cmds toks cs r, parseCommands fuel d cmds toks = Ok (cs, r) -> forallb okCommand cmds = true -> forallb okCommand cs = true) /\
  (forall d toks c r, parseCommand fuel d toks = Ok (c, r) -> okCommand c = true).
Proof.
  induction fuel as [|f [IHs IHc]]; [done|]. split.
  - intros d cmds toks cs r. cbn [parseCommands]. destruct toks as [|t0 toks]; [by intros [= <- <-]|].
    destruct (peekIs 125 (t0 :: toks)); [by intros [= <- <-]|]. intros ([c t] & Hc & H)%bindRes_ok Ho.
    eapply IHs; [exact H|]. rewrite forallb_app, Ho. cbn. by rewrite (IHc _ _ _ _ Hc).
  - intros d toks c r. cbn [parseCommand]. intros ([name t] & _ & H)%bindRes_ok. apply bindRes_ok in H as ([args t1] & _ & H).
    apply bindRes_ok in H as ([test t2] & Ht & H).
    assert (Hok : match test with Some t => okTest t | None => negb (CONTROL_WITH_TEST name) end = true).
    { destruct (CONTROL_WITH_TEST name); [|by injection Ht as <- <-].
      apply bindRes_ok in Ht as ([x t3] & Hx & [= <- <-]). by eapply parseTest_shape. }
    destruct (peekIs 123 t2).
    + destruct (CONTROL_WITH_BLOCK name); [|done]. cbn [negb] in H. destruct (_ <? _)%nat; [done|].
      apply bindRes_ok in H as ([b t3] & Hb & H). apply bindRes_ok in H as (t4 & _ & [= <- <-]).
      cbn [okCommand]. rewrite Hok. by eapply IHs.
    + apply bindRes_ok in H as (t3 & _ & [= <- <-]). cbn [okCommand]. by rewrite Hok.
Qed.

Lemma parseSieve_shape src cmds : parseSieve src = Ok cmds -> forallb okCommand cmds = true.
Proof.
  unfold parseSieve. intros (toks & _ & H)%bindRes_ok. apply bindRes_ok in H as ([cs r] & Hc & [= <-]).
  by eapply parseCommands_shape.
Qed.

(** ** A logic for runs

    [fine r Q]: the run ends with a value in [Q] or with an error of the script, never out of fuel
    and never on a missing part of the tree. *)
Definition fine {A} (r : Run A) (Q : A -> Prop) : Prop :=
  match r with Ok a => Q a | Err e => e <> TypeError | Fuel => False end.

Lemma fine_bind {A B} (r : Run A) (f : A -> Run B) Q R : fine r Q -> (forall a, Q a -> fine (f a) R) -> fine (bindRes r f) R.
Proof. destruct r; cbn; auto. Qed.

Lemma fine_impl {A} (r : Run A) (Q R : A -> Prop) : fine r Q -> (forall a, Q a -> R a) -> fine r R.
Proof. destruct r; cbn; auto. Qed.

Lemma compileAll_fine keys : fine (compileAll keys) (Forall (fun re => forall v, exists m, execRegex re v = Some m)).
Proof.
  induction keys as [|k ks IH]; [constructor|]. cbn [compileAll]. pose proof (compileRegex_total k true).
  destruct (compileRegex k true) as [re|e|] eqn:E; [|done|done]. eapply fine_bind; [exact IH|].
  intros res Hres. cbn. constructor; [|done]. intros v. by eapply execRegex_total.
Qed.

Lemma regexKeys_fine v res : Forall (fun re => forall v, exists m, execRegex re v = Some m) res -> fine (regexKeys v res) (fun _ => True).
Proof.
  induction 1 as [|re res Hre _ IH]; [done|]. cbn [regexKeys]. destruct (Hre v) as [m ->]. by destruct (Regex.matched m).
Qed.

Lemma regexValues_fine values res :
  Forall (fun re => forall v, exists m, execRegex re v = Some m) res -> fine (regexValues values res) (fun _ => True).
Proof.
  intros Hres. induction values as [|v vs IH]; [done|]. cbn [regexValues]. eapply fine_bind; [by apply regexKeys_fine|].
  intros [caps|] _; done.
Qed.

Lemma anyMatch_fine values keys kind numeric useVars : fine (anyMatch values keys kind numeric useVars) (fun _ => True).
Proof.
  destruct kind; cbn [anyMatch]; try done; [by destruct useVars|].
  eapply fine_bind; [apply compileAll_fine|]. intros res Hres. eapply fine_bind; [by apply regexValues_fine|]. done.
Qed.

Lemma matchType_fine args : fine (matchType args) (fun _ => True).
Proof. unfold matchType, relationalKind. repeat case_match; done. Qed.

Lemma zoneOffsetArg_fine args : fine (zoneOffsetArg args) (fun _ => True).
Proof. unfold zoneOffsetArg. repeat case_match; done. Qed.

Create HintDb fine.
#[export] Hint Resolve anyMatch_fine matchType_fine zoneOffsetArg_fine : fine.

(** Steps through binds and cases of a run. *)
Ltac fine_step :=
  match goal with
  | |- fine (bindRes (Ok _) _) _ => cbn [bindRes]
  | |- fine (bindRes _ _) _ => eapply fine_bind; [solve [eauto with fine]|intros]
  | |- fine (match ?x with _ => _ end) _ => let E := fresh "E" in destruct x eqn:E
  | |- fine (if ?x then _ else _) _ => let E := fresh "E" in destruct x eqn:E
  | |- fine (Ok _) _ => exact I
  | |- fine (Err _) _ => discriminate
  | |- fine (anyMatch _ _ _ _ _) _ => apply anyMatch_fine
  end.

Section Spec.
Context `{DateParse} (env : SieveEnv).

Lemma leafTest_fine name args tick useVars : fine (leafTest env name args tick useVars) (fun _ => True).
Proof.
  unfold leafTest, headerTest, addressTest, envelopeTest, bodyTest, dateTest, spamtestTest, stringTest, compareTest.
  repeat (case_match; [try done|]); try done; cbv zeta; repeat fine_step.
  all: try (unfold sizeTest, mailboxexistsTest; repeat case_match; done).
Qed.

(** Tests change the match variables and the clock only. *)
Definition sameControl (st st' : ExecState) : Prop :=
  result st' = result st /\ stopped st' = stopped st /\ returned st' = returned st /\
  included st' = included st /\ depth st' = depth st /\ varsEnabled st' = varsEnabled st.

Lemma sameControl_refl st : sameControl st st.
Proof. repeat split. Qed.

Lemma sameControl_trans a b c : sameControl a b -> sameControl b c -> sameControl a c.
Proof. unfold sameControl. intuition congruence. Qed.

Lemma evalTest_fine t : okTest t = true -> forall st, fine (evalTest env t st) (fun r => sameControl st r.2).
Proof.
  induction t as [name args tests IH] using SieveTest_ind'. cbn [okTest]. intros [Hn Hs]%andb_true_iff st. cbn [evalTest].
  assert (Hall : Forall (fun t => forall st, fine (evalTest env t st) (fun r => sameControl st r.2)) tests).
  { rewrite forallb_forall in Hs. rewrite Forall_forall in IH |- *. intros t Ht. apply IH; [done|]. apply Hs. by apply list_elem_of_In. }
  clear IH Hs. destruct (name === js "not") eqn:E1.
  { destruct Hall as [|t0 ts Ht0 _]; [done|]. eapply fine_bind; [apply Ht0|]. intros [b st'] Hr. done. }
  clear Hn. destruct (name === js "allof") eqn:E2.
  { revert st. induction Hall as [|t ts Ht _ IH]; intros st; [apply sameControl_refl|]. cbn [everyTest].
    eapply fine_bind; [apply Ht|]. intros [[] st'] Hr; [|done]. cbn [fst snd] in *. eapply fine_impl; [apply IH|].
    intros r Hr'. by eapply sameControl_trans. }
  destruct (name === js "anyof") eqn:E3.
  { revert st. induction Hall as [|t ts Ht _ IH]; intros st; [apply sameControl_refl|]. cbn [someTest].
    eapply fine_bind; [apply Ht|]. intros [[] st'] Hr; [done|]. cbn [fst snd] in *. eapply fine_impl; [apply IH|].
    intros r Hr'. by eapply sameControl_trans. }
  eapply fine_bind; [apply leafTest_fine|]. intros [b [[w c]|]] _; unfold fine, readClock, recordCapture; cbn [fst snd]; destruct (_ && _); repeat split.
Qed.

(** ** Runs keep a property of results, and their depth

    [Keeps P] relates the states around a run: the depth is as before, and a property of results
    that every allowed action keeps still holds.  Scripts may be restricted to commands that
    satisfy [allowed]. *)
Section Invariant.
Context (P : ExecResult -> Prop) (allowed : jsstr -> bool).

(** Every command of the tree is allowed. *)
Fixpoint onlyAllowed (c : SieveCommand) : bool :=
  match c with Command name _ _ block => allowed name && match block with Some b => forallb onlyAllowed b | None => true end end.

Definition Keeps (st st' : ExecState) : Prop := depth st' = depth st /\ (P (result st) -> P (result st')).

Lemma Keeps_refl st : Keeps st st.
Proof. by split. Qed.

Lemma Keeps_trans a b c : Keeps a b -> Keeps b c -> Keeps a c.
Proof. intros [? ?] [? ?]. split; [congruence|auto]. Qed.

Lemma sameControl_Keeps st st' : sameControl st st' -> Keeps st st'.
Proof. intros (H1 & _ & _ & _ & H2 & _). split; [done|]. by rewrite H1. Qed.

(** The scripts of the account are restricted too. *)
Context (Hscripts : forall name src cmds, scripts env ≫= mapGet name = Some src -> parseSieve src = Ok cmds -> forallb onlyAllowed cmds = true).

(** What an instance proves: each action other than [include] keeps the property. *)
Context (Hact : forall run name args st st', allowed name = true -> (name === js "include") = false ->
  execAction env run name args st = Ok st' -> P (result st) -> P (result st')).

(** A runner of included scripts with [n] levels left. *)
Definition goodRun (run : list SieveCommand -> ExecState -> Run ExecState) (n : nat) : Prop :=
  forall cmds st, forallb okCommand cmds = true -> forallb onlyAllowed cmds = true ->
    (depth st <= MAX_INCLUDE_DEPTH < depth st + n)%nat -> fine (run cmds st) (Keeps st).

Lemma requireExts_depth exts st : fine (requireExts exts st) (fun st' => depth st' = depth st).
Proof.
  revert st. induction exts as [|e es IH]; intros st; [done|]. cbn [requireExts]. destruct (existsb _ _); [|done].
  eapply fine_impl; [apply IH|]. cbn beta. intros st' ->. by destruct (e === _).
Qed.

Lemma setModifiers_fine args : fine (setModifiers args) (fun _ => True).
Proof.
  induction args as [|[n|vs|x] args IH]; cbn [setModifiers]; try done. destruct (isModifier n); [|done].
  eapply fine_bind; [exact IH|]. done.
Qed.

Lemma vacationDays_fine args : fine (vacationDays args) (fun _ => True).
Proof. unfold vacationDays. repeat case_match; done. Qed.

Lemma plainAction_depth run name args st : (name === js "include") = false ->
  fine (execAction env run name args st) (fun st' => depth st' = depth st).
Proof.
  intros Hi. unfold execAction. rewrite Hi. repeat (case_match; [try done|]); try done.
  - apply requireExts_depth.
  - unfold doSet. case_match; [done|]. eapply fine_bind; [apply setModifiers_fine|]. intros. repeat case_match; done.
  - unfold fine, doReturn. by case_match.
  - unfold doReject. by case_match.
  - unfold doFileinto. by case_match.
  - unfold doRedirect. by case_match.
  - unfold doVacation. case_match; [done|]. case_match; [done|]. eapply fine_bind; [apply vacationDays_fine|]. done.
Qed.

Lemma doInclude_fine run n args st : goodRun run n -> (MAX_INCLUDE_DEPTH < depth st + S n)%nat ->
  fine (doInclude env run args st) (Keeps st).
Proof.
  intros Hrun Hd. unfold doInclude. destruct (positionalStrings args []) as [|name ?]; [done|]. cbv zeta.
  destruct (hasTag args (js "global")); [destruct (hasTag args _); [apply Keeps_refl|done]|].
  destruct (_ && _); [apply Keeps_refl|]. destruct (scripts env ≫= mapGet name) as [src|] eqn:Es; [|destruct (hasTag args _); [apply Keeps_refl|done]].
  destruct (_ <=? _)%nat eqn:Ed; [done|]. apply Nat.leb_gt in Ed. pose proof (parseSieve_ok src) as Hp.
  destruct (parseSieve src) as [cmds|e|] eqn:Ep; [|done|done]. eapply fine_bind.
  - apply Hrun; [by eapply parseSieve_shape|by eapply Hscripts|cbn; lia].
  - intros st' [Hdep HP]. split; [cbn in *; lia|exact HP].
Qed.

Lemma execAction_fine run n name args st : goodRun run n -> (MAX_INCLUDE_DEPTH < depth st + S n)%nat -> allowed name = true ->
  fine (execAction env run name args st) (Keeps st).
Proof.
  intros Hrun Hd Ha. destruct (name === js "include") eqn:Hi.
  - apply seqb_eq in Hi as ->. by apply (doInclude_fine run n).
  - pose proof (plainAction_depth run name args st Hi) as Hp. destruct (execAction env run name args st) as [st'|e|] eqn:E; [|done|done].
    cbn in Hp |- *. split; [done|]. by eapply Hact.
Qed.

Lemma blockLoop_fine exec n : 
  forall cmds, Forall (fun c => forall prev st, (MAX_INCLUDE_DEPTH < depth st + n)%nat -> fine (exec c prev st) (fun r => Keeps st r.2)) cmds ->
  forall prev st, (MAX_INCLUDE_DEPTH < depth st + n)%nat -> fine (blockLoop exec cmds prev st) (Keeps st).
Proof.
  induction 1 as [|c cs Hc _ IH]; intros prev st Hd; [apply Keeps_refl|]. cbn [blockLoop].
  destruct (_ || _); [apply Keeps_refl|]. eapply fine_bind; [by apply Hc|]. intros [b st'] HK. cbn [fst snd] in *.
  eapply fine_impl; [apply IH; rewrite (proj1 HK); done|]. intros st''. by apply Keeps_trans.
Qed.

Lemma execCommand_fine run n c : goodRun run n -> okCommand c = true -> onlyAllowed c = true ->
  forall prev st, (MAX_INCLUDE_DEPTH < depth st + S n)%nat -> fine (execCommand env run c prev st) (fun r => Keeps st r.2).
Proof.
  intros Hrun. induction c as [name args test block IH] using SieveCommand_ind'. cbn [okCommand onlyAllowed].
  intros [Ht Hb]%andb_true_iff [Ha Hab]%andb_true_iff prev st Hd. cbn [execCommand].
  set (body := fun s : ExecState => match block with Some b => blockLoop (execCommand env run) b false s | None => Ok s end).
  assert (Hbody : forall s, depth s = depth st -> fine (body s) (Keeps s)).
  { intros s Hs. unfold body. destruct block as [b|]; [|apply Keeps_refl]. eapply (blockLoop_fine _ (S n)); [|lia].
    rewrite forallb_forall in Hb, Hab. rewrite Forall_forall in IH |- *. intros c Hc prev' s' Hs'.
    apply IH; [done| | |done]; [apply Hb|apply Hab]; by apply list_elem_of_In. }
  assert (Hcond : CONTROL_WITH_TEST name = true -> fine (match test with None => Err TypeError | Some t =>
            let* r := evalTest env t st in if r.1 then let* st' := body r.2 in Ok (true, st') else Ok (false, r.2) end)
          (fun r => Keeps st r.2)).
  { intros Hn. destruct test as [t|]; [|by rewrite Hn in Ht]. eapply fine_bind; [by apply evalTest_fine|].
    intros [[] st'] Hs; cbn [fst snd] in *; apply sameControl_Keeps in Hs; [|done].
    eapply fine_bind; [apply Hbody, Hs|]. intros st'' HK. by eapply Keeps_trans. }
  destruct (name === js "if") eqn:E1; [apply Hcond; unfold CONTROL_WITH_TEST, oneOf; cbn [existsb]; by rewrite E1|].
  destruct (name === js "elsif") eqn:E2.
  { destruct prev; [apply Keeps_refl|]. apply Hcond. unfold CONTROL_WITH_TEST, oneOf. cbn [existsb]. by rewrite E2, orb_true_r. }
  destruct (name === js "else") eqn:E3.
  { destruct prev; [apply Keeps_refl|]. eapply fine_bind; [by apply Hbody|]. done. }
  eapply fine_bind; [by apply (execAction_fine run n)|]. done.
Qed.

Lemma runLevel_good n : goodRun (runLevel env n) n.
Proof.
  induction n as [|n IH]; intros cmds st Hok Hall Hd; [lia|]. cbn [runLevel]. apply (blockLoop_fine _ (S n)); [|lia].
  rewrite forallb_forall in Hok, Hall. rewrite Forall_forall. intros c Hc prev st' Hd'.
  apply (execCommand_fine _ n); [done|apply Hok; by apply list_elem_of_In|apply Hall; by apply list_elem_of_In|done].
Qed.

(** A whole script. *)
Lemma runSieve_fine src clk :
  P initResult -> (forall cmds, parseSieve src = Ok cmds -> forallb onlyAllowed cmds = true) ->
  fine (runSieve env src clk) (fun r => exists x, P x /\ r = finish x).
Proof.
  intros HP Hall. unfold runSieve. pose proof (parseSieve_ok src) as Hp.
  destruct (parseSieve src) as [cmds|e|] eqn:Ep; [|done|done].
  eapply fine_bind; [apply (runLevel_good (S MAX_INCLUDE_DEPTH)); [by eapply parseSieve_shape|by apply Hall|cbn; lia]|].
  intros st [_ HK]. exists (result st). split; [|done]. by apply HK.
Qed.
End Invariant.
End Spec.

(** ** Termination *)

(** C38: every script ends.  Whatever the script, the scripts it includes (themselves, each other, or
    in a circle), the message and the clock, [runSieve] gives a result or a script error: the depth
    limit of [include] bounds the recursion, the regular expressions answer, and no part of a parsed
    tree that the interpreter reads is missing. *)
Theorem sieve_run_total `{DateParse} env src clk :
  (exists r, runSieve env src clk = Ok r) \/ (exists e, runSieve env src clk = Err e /\ e <> TypeError).
Proof.
  assert (Htrue : forall c, onlyAllowed (fun _ => true) c = true).
  { induction c as [name args test block IH] using SieveCommand_ind'. cbn [onlyAllowed]. destruct block as [b|]; [|done].
    apply forallb_forall. intros x Hx. rewrite Forall_forall in IH. apply IH. by apply list_elem_of_In. }
  assert (Hall : forall cs, forallb (onlyAllowed (fun _ => true)) cs = true) by (intros cs; apply forallb_forall; eauto).
  pose proof (runSieve_fine env (fun _ => True) (fun _ => true) ltac:(eauto) ltac:(done) src clk I ltac:(eauto)) as Hf.
  destruct (runSieve env src clk) as [r|e|]; [eauto|eauto|done].
Qed.

(** ** No message is lost *)

(** The implicit keep is cancelled only by an action that puts the message somewhere. *)
Definition placed (r : ExecResult) : Prop :=
  x_canceledImplicit r = true -> x_fileinto r <> [] \/ x_redirect r <> [] \/ x_reject r <> None.

Definition noDiscard : SieveCommand -> bool := onlyAllowed (fun name => negb (name === js "discard")).

Lemma app_ne {A} (l : list A) x : l ++ [x] <> [].
Proof. by destruct l. Qed.

Lemma requireExts_result exts st st' : requireExts exts st = Ok st' -> result st' = result st.
Proof.
  revert st. induction exts as [|e es IH]; intros st; cbn [requireExts]; [by intros [= <-]|]. destruct (existsb _ _); [|done].
  intros ->%IH. by destruct (e === _).
Qed.

Lemma action_placed `{DateParse} env run name args st st' :
  negb (name === js "discard") = true -> (name === js "include") = false ->
  execAction env run name args st = Ok st' -> placed (result st) -> placed (result st').
Proof.
  intros Hd Hi. apply negb_true_iff in Hd. unfold execAction. rewrite Hi, Hd. intros Hx HP.
  repeat (case_match; [|]); try (injection Hx as <-; exact HP); try done.
  - by rewrite (requireExts_result _ _ _ Hx).
  - unfold doSet in Hx. case_match; [done|]. apply bindRes_ok in Hx as (mods & _ & Hx). repeat case_match; try done; by injection Hx as <-.
  - injection Hx as <-. unfold doReturn. by case_match.
  - unfold doReject in Hx. case_match; [done|]. injection Hx as <-. intros _. right; right. discriminate.
  - unfold doFileinto in Hx. case_match; [done|]. injection Hx as <-. intros _. left. apply app_ne.
  - unfold doRedirect in Hx. case_match; [done|]. injection Hx as <-. intros _. right; left. apply app_ne.
  - unfold doVacation in Hx. case_match; [by injection Hx as <-|]. case_match; [done|].
    apply bindRes_ok in Hx as (d & _ & [= <-]). exact HP.
Qed.

Lemma uniq_ne l : l <> [] -> uniq l <> [].
Proof.
  destruct l as [|x l]; [done|]. intros _. unfold uniq. cbn [fold_left]. change (setAdd [] x) with [x].
  assert (Hk : forall acc, acc <> [] -> fold_left setAdd l acc <> []); [|by apply Hk].
  induction l as [|y l IH]; intros acc Ha; [done|]. cbn [fold_left]. apply IH. unfold setAdd. case_match; [done|apply app_ne].
Qed.

(** C26: mail does not vanish.  Unless a script that runs contains the command [discard], a run never
    discards: the result keeps the message, files it, redirects it or rejects it, with no way to
    cancel the implicit keep without doing one of these; and a rejected message is not also kept,
    filed, redirected, flagged or answered. *)
Theorem sieve_no_loss `{DateParse} env src clk r :
  (forall cmds, parseSieve src = Ok cmds -> forallb noDiscard cmds = true) ->
  (forall name s cmds, scripts env ≫= mapGet name = Some s -> parseSieve s = Ok cmds -> forallb noDiscard cmds = true) ->
  runSieve env src clk = Ok r ->
  discarded r = false /\
  (keep r = true \/ fileinto r <> [] \/ redirect r <> [] \/ reject r <> None) /\
  (reject r <> None -> keep r = false /\ fileinto r = [] /\ redirect r = [] /\ flags r = [] /\ vacation r = None).
Proof.
  intros Hsrc Hscr Hr.
  pose proof (runSieve_fine env placed (fun name => negb (name === js "discard")) Hscr (action_placed env) src clk) as Hf.
  rewrite Hr in Hf. destruct Hf as (x & Hx & ->); [done|exact Hsrc|].
  unfold finish, placed in *. destruct (x_reject x) as [why|]; cbn [discarded keep fileinto redirect reject flags vacation].
  { split; [done|]. split; [right; right; right; discriminate|done]. }
  destruct (x_explicitKeep x || negb (x_canceledImplicit x)) eqn:Ek; [split; [done|]; split; [by left|done]|].
  apply orb_false_iff in Ek as [_ Ek%negb_false_iff]. destruct (Hx Ek) as [Hn|[Hn|Hn]]; [| |done].
  - split; [|split; [right; left; by apply uniq_ne|done]]. destruct (x_fileinto x); [done|]. done.
  - split; [|split; [right; right; left; by apply uniq_ne|done]]. destruct (x_redirect x); [done|]. by rewrite andb_false_r.
Qed.

(** An environment without [Date.parse]: a message with a subject, and a script to include. *)
Definition noDates : DateParse := {| dateParse := fun _ => None |}.
Definition action0 (name : string) (args : list SieveArg) : SieveCommand := Command (js name) args None None.
Definition rules0 : list SieveCommand :=
  [Command (js "if") [] (Some (Test (js "envelope") [ATag (js "detail"); AStrings [js "to"]; AStrings [js "news"]] []))
     (Some [action0 "fileinto" [AStrings [js "News"]]; action0 "return" []]);
   action0 "keep" []].
Definition script1 : list SieveCommand :=
  [action0 "require" [AStrings [js "fileinto"; js "include"]]; action0 "include" [AStrings [js "rules"]]; action0 "addflag" [AStrings [js "x y"]]].
Definition env0 : SieveEnv :=
  {| headers := [(js "subject", [js "Re: Lunch"])]; envelopeFrom := js "a@example.org"; envelopeTo := [js "b+news@example.net"]; size := 1200;
     mailboxes := None; subaddressDelimiter := None; bodyText := None; bodyRaw := None; bodyParts := None; spamScore := Some 3;
     now := None; scripts := Some [(js "rules", printScript rules0)] |}.

Lemma sieve_no_loss_witness :
  exists r, runSieve (H := noDates) env0 (printScript script1) (fun _ => 0) = Ok r /\
    fileinto r = [js "News"] /\ flags r = [js "x"; js "y"] /\ discarded r = false.
Proof.
  eexists. split; [vm_compute; reflexivity|]. split; [reflexivity|]. split; [reflexivity|].
  apply (sieve_no_loss (H := noDates) env0 (printScript script1) (fun _ => 0)).
  - vm_compute. intros cmds [= <-]. reflexivity.
  - intros name s cmds. cbn [scripts env0 mbind option_bind mapGet]. destruct (_ === name); [|done].
    intros [= <-]. vm_compute. intros [= <-]. reflexivity.
  - vm_compute. reflexivity.
Defined.

(** ** Chains of conditions *)

Section Chain.
Context `{DateParse} (env : SieveEnv) (run : list SieveCommand -> ExecState -> Run ExecState).

Definition Branch : Type := SieveTest * list SieveCommand.

(** [if], [elsif]..., [else] as commands. *)
Definition chainCommands (first : Branch) (others : list Branch) (otherwise : option (list SieveCommand)) : list SieveCommand :=
  Command (js "if") [] (Some first.1) (Some first.2)
    :: map (fun b => Command (js "elsif") [] (Some b.1) (Some b.2)) others
    ++ match otherwise with Some b => [Command (js "else") [] None (Some b)] | None => [] end.

(** Its meaning: the tests in order, up to the first that holds. *)
Fixpoint chainMeaning (branches : list Branch) (otherwise : option (list SieveCommand)) (st : ExecState) : Run ExecState :=
  match branches with
  | [] => match otherwise with Some b => execBlock env run b st | None => Ok st end
  | (t, b) :: bs => let* r := evalTest env t st in if r.1 then execBlock env run b r.2 else chainMeaning bs otherwise r.2
  end.

(** A command that does not continue a chain. *)
Definition startsFresh (cmds : list SieveCommand) : bool :=
  match cmds with Command name _ _ _ :: _ => negb (name === js "elsif") && negb (name === js "else") | [] => true end.

Lemma blockLoop_fresh cmds prev st : startsFresh cmds = true ->
  blockLoop (execCommand env run) cmds prev st = blockLoop (execCommand env run) cmds false st.
Proof.
  destruct cmds as [|[name args test block] cs]; [done|]. cbn [startsFresh]. intros [H1 H2]%andb_true_iff.
  apply negb_true_iff in H1, H2. cbn [blockLoop execCommand]. by rewrite H1, H2.
Qed.

Lemma blockLoop_stopped cmds prev st : stopped st || returned st = true -> blockLoop (execCommand env run) cmds prev st = Ok st.
Proof. destruct cmds; [done|]. cbn [blockLoop]. by intros ->. Qed.

Abbreviation loop := (blockLoop (execCommand env run)).
Abbreviation elses := (fun otherwise : option (list SieveCommand) => match otherwise with Some b => [Command (js "else") [] None (Some b)] | None => [] end).

(** Once a branch has run, the rest of the chain is skipped. *)
Lemma chain_skip others otherwise rest st : startsFresh rest = true ->
  loop (map (fun b : Branch => Command (js "elsif") [] (Some b.1) (Some b.2)) others ++ elses otherwise ++ rest) true st = loop rest false st.
Proof.
  intros Hr. destruct (stopped st || returned st) eqn:Es; [by rewrite !blockLoop_stopped|].
  induction others as [|b others IH]; cbn [map app].
  - destruct otherwise; cbn [app]; [|by apply blockLoop_fresh]. cbn [blockLoop]. rewrite Es. done.
  - cbn [blockLoop]. rewrite Es. exact IH.
Qed.

Lemma evalTest_control t st r : okTest t = true -> evalTest env t st = Ok r -> sameControl st r.2.
Proof. intros Ht Hr. pose proof (evalTest_fine env t Ht st) as Hf. by rewrite Hr in Hf. Qed.

Lemma chain_rest others otherwise rest st :
  startsFresh rest = true -> forallb (fun b => okTest b.1) others = true -> stopped st || returned st = false ->
  loop (map (fun b : Branch => Command (js "elsif") [] (Some b.1) (Some b.2)) others ++ elses otherwise ++ rest) false st
  = let* st' := chainMeaning others otherwise st in loop rest false st'.
Proof.
  intros Hr. revert st. induction others as [|[t b] others IH]; intros st Hok Hs; cbn [map app chainMeaning].
  - destruct otherwise as [b|]; cbn [app bindRes]; [|by apply blockLoop_fresh]. cbn [blockLoop]. rewrite Hs.
    cbn [execCommand]. change (js "else" === js "if") with false. change (js "else" === js "elsif") with false.
    change (js "else" === js "else") with true. cbv iota. unfold execBlock. by destruct (blockLoop _ b false st).
  - cbn [blockLoop forallb] in *. apply andb_true_iff in Hok as [Ht Hok]. rewrite Hs.
    cbn [execCommand fst snd]. change (js "elsif" === js "if") with false. change (js "elsif" === js "elsif") with true. cbv iota.
    destruct (evalTest env t st) as [[[] st']|e|] eqn:Et; cbn [bindRes fst snd]; [| |done|done].
    + unfold execBlock. destruct (blockLoop _ b false st') as [st''|e|]; cbn [bindRes fst snd]; [|done|done]. by apply chain_skip.
    + apply evalTest_control in Et as (_ & E1 & E2 & _); [|done]. cbn [snd] in *. apply IH; [done|]. by rewrite E1, E2.
Qed.
End Chain.

(** Conditions run one branch.  A chain [if], [elsif], ..., [else] followed by commands that do
    not continue it does what its reading says: the tests are evaluated in order up to the first
    that holds, that block alone runs ([else] when none holds), and the commands after the chain go
    on from there. *)
Theorem sieve_if_chain `{DateParse} env run first others otherwise rest st :
  startsFresh rest = true -> forallb (fun b => okTest b.1) (first :: others) = true -> stopped st || returned st = false ->
  execBlock env run (chainCommands first others otherwise ++ rest) st
  = (let* st' := chainMeaning env run (first :: others) otherwise st in execBlock env run rest st')%js.
Proof.
  intros Hr Hok Hs. destruct first as [t b]. unfold chainCommands. cbn [app forallb fst snd chainMeaning] in *.
  apply andb_true_iff in Hok as [Ht Hok]. rewrite <- app_assoc. unfold execBlock at 1. cbn [blockLoop]. rewrite Hs.
  cbn [execCommand fst snd]. change (js "if" === js "if") with true. cbv iota.
  destruct (evalTest env t st) as [[[] st']|e|] eqn:Et; cbn [bindRes fst snd]; [| |done|done].
  - unfold execBlock. destruct (blockLoop _ b false st') as [st''|e|]; cbn [bindRes fst snd]; [|done|done]. exact (chain_skip env run others otherwise rest st'' Hr).
  - apply evalTest_control in Et as (_ & E1 & E2 & _); [|done]. cbn [snd] in *.
    exact (chain_rest env run others otherwise rest st' Hr Hok ltac:(by rewrite E1, E2)).
Qed.

Definition yes : SieveTest := Test (js "true") [] [].

Lemma sieve_if_chain_witness :
  execBlock (H := noDates) env0 (fun _ _ => Fuel)
    (chainCommands (Test (js "not") [] [yes], [action0 "discard" []]) [(yes, [action0 "keep" []])] (Some [action0 "stop" []]) ++ [action0 "addflag" [AStrings [js "f"]]])
    (initState (fun _ => 0))
  = execBlock (H := noDates) env0 (fun _ _ => Fuel) [action0 "keep" []; action0 "addflag" [AStrings [js "f"]]] (initState (fun _ => 0)).
Proof.
  rewrite (sieve_if_chain (H := noDates) env0 (fun _ _ => Fuel) (Test (js "not") [] [yes], [action0 "discard" []]) [(yes, [action0 "keep" []])]
    (Some [action0 "stop" []]) [action0 "addflag" [AStrings [js "f"]]] (initState (fun _ => 0))) by reflexivity.
  vm_compute. reflexivity.
Defined.


(** ** [:matches] with and without variables *)

Lemma lowerUnit_idem c : flat_map lowerUnit (lowerUnit c) = lowerUnit c.
Proof.
  destruct (decide (c = 92 \/ c = 42 \/ c = 63)) as [Hs|Hs]; [by rewrite (lowerUnit_special c Hs); cbn; rewrite (lowerUnit_special c Hs)|].
  pose proof (lowerUnit_plain c ltac:(tauto) ltac:(tauto) ltac:(tauto)) as Hf. induction Hf as [|x l (_ & _ & _ & Hx) _ IH]; [done|].
  cbn [flat_map]. by rewrite Hx, IH.
Qed.

Lemma toLowerCase_idem s : toLowerCase (toLowerCase s) = toLowerCase s.
Proof. induction s as [|c s IH]; [done|]. unfold toLowerCase in *. cbn [flat_map]. by rewrite flat_map_app, lowerUnit_idem, IH. Qed.

(** The two ways to match a value agree when its lower case has its length. *)
Lemma matches_agree k v : length (toLowerCase v) = length v ->
  isSome (globPair v k) = compileGlob (toLowerCase k) SIEVE_MATCH_SYNTAX (toLowerCase v).
Proof.
  intros Hv. unfold globPair. cbv zeta. change (compileGlob ?p ?x ?y) with (globMatch p y x). rewrite globCaptures_matched.
  assert (Hh : hayOf SIEVE_MATCH_SYNTAX v = hayOf SIEVE_MATCH_SYNTAX (toLowerCase v)).
  { unfold hayOf. cbn [caseInsensitive SIEVE_MATCH_SYNTAX]. rewrite toLowerCase_idem. by rewrite !take_ge by lia. }
  assert (Hm : globMatch (toLowerCase k) v SIEVE_MATCH_SYNTAX = globMatch (toLowerCase k) (toLowerCase v) SIEVE_MATCH_SYNTAX)
    by (apply eq_true_iff_eq; by rewrite !globMatch_meaning, Hh).
  rewrite Hm. destruct (globMatch (toLowerCase k) (toLowerCase v) SIEVE_MATCH_SYNTAX); reflexivity.
Qed.

Lemma isSome_head_omap {A B} (f : A -> option B) l : isSome (head (omap f l)) = existsb (fun x => isSome (f x)) l.
Proof. induction l as [|x l IH]; [done|]. cbn. by destruct (f x). Qed.

Lemma existsb_eq {A} (f g : A -> bool) l : (forall x, x ∈ l -> f x = g x) -> existsb f l = existsb g l.
Proof. induction l as [|x l IH]; intros Hfg; [done|]. cbn. rewrite Hfg, IH by set_solver. done. Qed.

(** A script that asks for [variables] matches the same messages.  On values whose lower case has
    as many units (all but those with U+0130), the capturing matcher that [:matches] uses with
    variables gives the answer of the plain matcher, for all keys; and when it answers yes it
    records a match. *)
Theorem sieve_matches_variables values keys numeric :
  Forall (fun v => length (toLowerCase v) = length v) values ->
  exists b c, anyMatch values keys MMatches numeric true = Ok (b, c) /\
    anyMatch values keys MMatches numeric false = Ok (b, None) /\ isSome c = b.
Proof.
  intros Hv. cbn [anyMatch]. eexists _, _. split; [reflexivity|]. split; [|done]. f_equal. f_equal.
  unfold firstPair. rewrite isSome_head_omap. apply existsb_eq. intros v Hin. rewrite Forall_forall in Hv. specialize (Hv v Hin).
  rewrite <- (existsb_eq (fun k => isSome (globPair v k))) by (intros; by apply matches_agree).
  rewrite <- isSome_head_omap. by destruct (head _).
Qed.

Lemma sieve_matches_variables_witness :
  exists b c, anyMatch [js "Re: Lunch"] [js "fwd:*"; js "re:*"] MMatches false true = Ok (b, c) /\
    anyMatch [js "Re: Lunch"] [js "fwd:*"; js "re:*"] MMatches false false = Ok (b, None) /\ isSome c = b.
Proof. apply (sieve_matches_variables [js "Re: Lunch"] [js "fwd:*"; js "re:*"] false). repeat constructor. Defined.

(** ** Gaps *)

(** On a value with U+0130, whose lower case is longer, the answer of [:matches] depends on whether
    the script has asked for [variables]. *)
Lemma sieve_matches_dotted_I :
  anyMatch [[304; 120]] [js "*x"] MMatches false false = Ok (true, None) /\
  anyMatch [[304; 120]] [js "*x"] MMatches false true = Ok (false, None).
Proof. vm_compute. done. Qed.

(** An [else] behind a command that is no condition runs its block. *)
Lemma sieve_stray_else :
  exists r, runSieve (H := noDates) env0 (printScript [action0 "keep" []; Command (js "else") [] None (Some [action0 "redirect" [AStrings [js "x@y"]]])]) (fun _ => 0) = Ok r /\
    redirect r = [js "x@y"].
Proof. eexists. split; [vm_compute; reflexivity|]. reflexivity. Qed.
