(* ===== verification/Hash.v ===== *)
(** * Hashes as text (packages/core/src/hash.ts) *)

From S2P Require Import Prelude JsString Text Scram Net.

(** [digest("hex")] *)
Definition hex (bs : bytes) : jsstr := flat_map (fun b => [hexChar (b / 16); hexChar (b mod 16)]) bs.

Section Hash.
Context `{NodeCrypto}.

(** Of a string: [update] hashes its UTF-8. *)
Definition sha256hex (data : jsstr) : jsstr := hex (sha256 (utf8Encode data)).

Definition sha256hex32 (data : jsstr) : jsstr := take 32 (sha256hex data).
End Hash.
