(* ===== verification/Greylist.v ===== *)
(** * Greylisting (packages/spam/src/greylist.ts)

    A first sight of a triple (address, sender, recipient) is deferred; a retry after the delay is
    accepted.  The table keeps one number per triple, the expiry, from which the time of the first
    sight is computed back.  A check is up to three SQL statements; checks of several servers and
    connections interleave between statements, so a check is a small machine ([stepCall]) and a
    server a set of such machines over one table. *)

From S2P Require Import Prelude JsString Scram Net Hash.

(** ** Data *)

Record GreylistInput := mkInput { ip : jsstr; mailFrom : jsstr; rcpt : jsstr; spfPass : bool }.

Record GreylistOptions := mkOptions { delayMs : Z; expireMs : Z }.

Definition DEFAULT_DELAY_MS : Z := 60000.
Definition DEFAULT_EXPIRE_MS : Z := 36 * 60 * 60 * 1000.
Definition defaultOptions : GreylistOptions := {| delayMs := DEFAULT_DELAY_MS; expireMs := DEFAULT_EXPIRE_MS |}.

Inductive GreylistResult := Accept | Defer (retryAfterMs : Z).

(** The rows of [dedup_tracking] of the greylist's scope: the expiry of each key. *)
Abbreviation Table := (gmap jsstr Z).

Definition normalizeAddress (addr : jsstr) : jsstr := toLowerCase (trim addr).

Section Key.
Context `{NodeCrypto}.

Definition tripleKeyHash (ip mailFrom rcpt : jsstr) : jsstr :=
  sha256hex32 (ip ++ [124] ++ normalizeAddress mailFrom ++ [124] ++ normalizeAddress rcpt).
End Key.

(** ** Statements *)

(** [INSERT OR IGNORE]: whether a row was written. *)
Definition insertIgnore (k : jsstr) (expiresAt : Z) (t : Table) : Table * bool :=
  match t !! k with None => (<[k := expiresAt]> t, true) | Some _ => (t, false) end.

(** [UPDATE ... SET expires_at = ? WHERE ... key_hash = ?] *)
Definition updateExpiry (k : jsstr) (expiresAt : Z) (t : Table) : Table :=
  match t !! k with None => t | Some _ => <[k := expiresAt]> t end.

Section Check.
Context (opts : GreylistOptions).

(** What the row read says: the answer, and whether the expiry is written anew. *)
Definition judge (now expiresAt : Z) : GreylistResult * bool :=
  if expiresAt <? now then (Defer (delayMs opts), true)
  else
    let firstSeen := expiresAt - expireMs opts in
    let elapsed := now - firstSeen in
    if delayMs opts <=? elapsed then (Accept, true) else (Defer (firstSeen + delayMs opts - now), false).

(** A check of one triple: its key, whether SPF passed, the clock reading. *)
Record Call := mkCall { c_key : jsstr; c_spf : bool; c_now : Z }.

(** Where a check stands. *)
Inductive Phase := AtInsert | AtSelect | AtUpdate (r : GreylistResult) | Done (r : GreylistResult).

(** One statement of [checkGreylist]. *)
Definition stepCall (c : Call) (p : Phase) (t : Table) : Phase * Table :=
  match p with
  | AtInsert =>
      if c_spf c then (Done Accept, t)
      else let '(t', inserted) := insertIgnore (c_key c) (c_now c + expireMs opts) t in
           if inserted then (Done (Defer (delayMs opts)), t') else (AtSelect, t')
  | AtSelect =>
      match t !! c_key c with
      | None => (Done (Defer (delayMs opts)), t)
      | Some expiresAt =>
          let '(r, write) := judge (c_now c) expiresAt in
          (if write then AtUpdate r else Done r, t)
      end
  | AtUpdate r => (Done r, updateExpiry (c_key c) (c_now c + expireMs opts) t)
  | Done r => (Done r, t)
  end.

(** The whole check, undisturbed: at most three statements. *)
Definition runCall (c : Call) (t : Table) : Phase * Table :=
  let '(p, t) := stepCall c AtInsert t in
  let '(p, t) := stepCall c p t in
  stepCall c p t.

Section Input.
Context `{NodeCrypto}.

Definition callOf (input : GreylistInput) (now : Z) : Call :=
  {| c_key := tripleKeyHash (ip input) (mailFrom input) (rcpt input); c_spf := spfPass input; c_now := now |}.

Definition checkGreylist (input : GreylistInput) (now : Z) (t : Table) : Phase * Table := runCall (callOf input now) t.
End Input.

(** ** Many checks at once *)

(** Checks under way and finished, over one table. *)
Record System := mkSystem { table : Table; calls : list (Call * Phase) }.

Inductive Step : System -> System -> Prop :=
| step_arrive s c : Step s {| table := table s; calls := calls s ++ [(c, AtInsert)] |}
| step_statement s i c p :
    calls s !! i = Some (c, p) ->
    Step s {| table := (stepCall c p (table s)).2; calls := <[i := (c, (stepCall c p (table s)).1)]> (calls s) |}
| step_delete s k : Step s {| table := delete k (table s); calls := calls s |}.

Definition start : System := {| table := ∅; calls := [] |}.

Inductive Reachable : System -> Prop :=
| reach_start : Reachable start
| reach_step s s' : Reachable s -> Step s s' -> Reachable s'.

(** ** An accepted triple has been seen before *)

(** [c] was preceded by a check of its triple, a delay earlier at least and an expiry at most. *)
Definition seenBefore (s : System) (c : Call) : Prop :=
  exists c' p', (c', p') ∈ calls s /\ c_key c' = c_key c /\ c_now c' + delayMs opts <= c_now c <= c_now c' + expireMs opts.

Record Inv (s : System) : Prop := {
  inv_rows : forall k e, table s !! k = Some e -> exists c p, (c, p) ∈ calls s /\ c_key c = k /\ e = c_now c + expireMs opts;
  inv_accept : forall c p, (c, p) ∈ calls s -> c_spf c = false -> p = AtUpdate Accept \/ p = Done Accept -> seenBefore s c
}.

(** The calls of a later system, whatever their phase. *)
Definition keepsCalls (s s' : System) : Prop := forall c p, (c, p) ∈ calls s -> exists p', (c, p') ∈ calls s'.

Lemma seenBefore_keeps s s' c : keepsCalls s s' -> seenBefore s c -> seenBefore s' c.
Proof. intros Hk (c' & p' & Hin & H). destruct (Hk _ _ Hin) as [p'' Hin']. exists c', p''. done. Qed.

Lemma insert_keeps (l : list (Call * Phase)) i c p p' c0 p0 :
  l !! i = Some (c, p) -> (c0, p0) ∈ l -> exists q, (c0, q) ∈ <[i := (c, p')]> l.
Proof.
  intros Hi [j Hj]%list_elem_of_lookup. destruct (decide (i = j)) as [<-|Hne].
  - simplify_eq. exists p'. apply list_elem_of_lookup. exists i. apply list_lookup_insert_eq. by eapply lookup_lt_Some.
  - exists p0. apply list_elem_of_lookup. exists j. by rewrite list_lookup_insert_ne.
Qed.

Lemma stepCall_table c p t k e : (stepCall c p t).2 !! k = Some e -> t !! k = Some e \/ (k = c_key c /\ e = c_now c + expireMs opts).
Proof.
  unfold stepCall, insertIgnore, updateExpiry. intros H. destruct p as [| |r|r]; [| | |by left].
  - destruct (c_spf c); [by left|]. destruct (t !! c_key c) eqn:E; [by left|]. cbn in H.
    apply lookup_insert_Some in H as [[<- <-]|[_ H]]; auto.
  - destruct (t !! c_key c); [|by left]. left. by destruct (judge _ _).
  - destruct (t !! c_key c); [|by left]. cbn in H. apply lookup_insert_Some in H as [[<- <-]|[_ H]]; auto.
Qed.

(** A check comes to accept by the row it has read. *)
Lemma stepCall_accept c p t : c_spf c = false ->
  (stepCall c p t).1 = AtUpdate Accept \/ (stepCall c p t).1 = Done Accept ->
  (p = AtUpdate Accept \/ p = Done Accept) \/
  exists e, t !! c_key c = Some e /\ c_now c <= e /\ e - expireMs opts + delayMs opts <= c_now c.
Proof.
  intros Hs. unfold stepCall, insertIgnore. destruct p as [| |r|r].
  - rewrite Hs. destruct (t !! c_key c); cbn; intros [?|?]; discriminate.
  - destruct (t !! c_key c) as [e|] eqn:E; [|cbn; intros [?|?]; discriminate]. unfold judge.
    destruct (Z.ltb_spec e (c_now c)); [cbn; intros [?|?]; discriminate|]. cbv zeta.
    destruct (Z.leb_spec (delayMs opts) (c_now c - (e - expireMs opts))); [|cbn; intros [?|?]; discriminate].
    intros _. right. exists e. split; [done|]. split; lia.
  - cbn. intros [?|[= ->]]; [discriminate|]. left. by left.
  - cbn. intros [?|[= ->]]; [discriminate|]. left. by right.
Qed.

Lemma Inv_step s s' : Inv s -> Step s s' -> Inv s'.
Proof.
  intros [Hr Ha] Hstep.
  assert (Hk : keepsCalls s s').
  { destruct Hstep as [s c|s i c p Hi|s k]; intros c0 p0 Hin; cbn; [exists p0; set_solver|by eapply insert_keeps|eauto]. }
  assert (Hrow : forall k e, table s' !! k = Some e -> exists c p, (c, p) ∈ calls s' /\ c_key c = k /\ e = c_now c + expireMs opts).
  { intros k e He. assert (Hold : table s !! k = Some e -> exists c p, (c, p) ∈ calls s' /\ c_key c = k /\ e = c_now c + expireMs opts).
    { intros (c & p & Hin & Hc)%Hr. destruct (Hk _ _ Hin) as [p' Hin']. exists c, p'. done. }
    destruct Hstep as [s c|s i c p Hi|s k']; cbn in He; [by apply Hold| |apply Hold; by eapply lookup_delete_Some].
    apply stepCall_table in He as [He|[-> ->]]; [by apply Hold|].
    destruct (Hk c p) as [p' Hin]; [by eapply list_elem_of_lookup_2|]. exists c, p'. done. }
  split; [exact Hrow|]. intros c0 p0 Hin Hs Hp. destruct Hstep as [s c|s i c p Hi|s k]; cbn in *.
  - apply elem_of_app in Hin as [Hin|Hin%list_elem_of_singleton]; [|simplify_eq; by destruct Hp].
    eapply seenBefore_keeps; [exact Hk|by eapply Ha].
  - apply list_elem_of_lookup in Hin as [j Hj]. destruct (decide (i = j)) as [<-|Hne].
    + rewrite list_lookup_insert_eq in Hj by (by eapply lookup_lt_Some). injection Hj as <- <-.
      destruct (stepCall_accept c p (table s) Hs Hp) as [Hold|(e & He & H1 & H2)].
      * eapply seenBefore_keeps; [exact Hk|]. eapply Ha; [by eapply list_elem_of_lookup_2|done|done].
      * destruct (Hr _ _ He) as (c' & p' & Hin & Hc & ->). destruct (Hk _ _ Hin) as [p'' Hin'].
        exists c', p''. split; [done|]. split; [done|]. lia.
    + rewrite list_lookup_insert_ne in Hj by done. eapply seenBefore_keeps; [exact Hk|].
      eapply Ha; [by eapply list_elem_of_lookup_2|done|done].
  - eapply seenBefore_keeps; [exact Hk|by eapply Ha].
Qed.

Lemma Inv_reachable s : Reachable s -> Inv s.
Proof.
  induction 1 as [|s s' _ IH Hstep]; [|by eapply Inv_step].
  split; [intros k e; cbn; by rewrite lookup_empty|]. intros c p Hin. by apply not_elem_of_nil in Hin.
Qed.

(** ** A retry is accepted *)

(** Checks one after the other. *)
Definition runCalls (cs : list Call) (t : Table) : Table := fold_left (fun t c => (runCall c t).2) cs t.

(** A check that leaves the row of a pending triple as it is. *)
Definition harmless (k : jsstr) (t0 : Z) (c : Call) : Prop :=
  c_spf c = true \/ c_key c <> k \/ t0 <= c_now c < t0 + delayMs opts.

Lemma runCall_other c t k : c_key c <> k -> (runCall c t).2 !! k = t !! k.
Proof.
  intros Hk. unfold runCall.
  assert (Hstep : forall p t, (stepCall c p t).2 !! k = t !! k).
  { intros p t'. unfold stepCall, insertIgnore, updateExpiry. destruct p as [| |r|r].
    - destruct (c_spf c); [done|]. destruct (t' !! c_key c); [done|]. cbn. by apply lookup_insert_ne.
    - destruct (t' !! c_key c); [|done]. by destruct (judge _ _).
    - destruct (t' !! c_key c); [|done]. cbn. by apply lookup_insert_ne.
    - done. }
  destruct (stepCall c AtInsert t) as [p1 t1] eqn:E1. destruct (stepCall c p1 t1) as [p2 t2] eqn:E2.
  rewrite Hstep, <- (Hstep AtInsert t), E1. cbn. by rewrite <- (Hstep p1 t1), E2.
Qed.

(** On a row that exists a check does what the row says. *)
Lemma runCall_row c t e : c_spf c = false -> t !! c_key c = Some e ->
  runCall c t = (let '(r, write) := judge (c_now c) e in (Done r, if write then <[c_key c := c_now c + expireMs opts]> t else t)).
Proof.
  intros Hs He. unfold runCall.
  assert (E1 : stepCall c AtInsert t = (AtSelect, t)) by (unfold stepCall, insertIgnore; by rewrite Hs, He).
  rewrite E1. cbn [stepCall]. rewrite He.
  destruct (judge (c_now c) e) as [r []]; cbn; [unfold updateExpiry; by rewrite He|done].
Qed.

Lemma runCall_spf c t : c_spf c = true -> runCall c t = (Done Accept, t).
Proof.
  intros Hs. unfold runCall. assert (E1 : stepCall c AtInsert t = (Done Accept, t)) by (unfold stepCall; by rewrite Hs). by rewrite E1.
Qed.

Lemma harmless_keeps k t0 c t : delayMs opts <= expireMs opts -> harmless k t0 c ->
  t !! k = Some (t0 + expireMs opts) -> (runCall c t).2 !! k = Some (t0 + expireMs opts).
Proof.
  intros Hd [Hs|[Hk|Hn]] Ht; [by rewrite runCall_spf|by rewrite runCall_other|].
  destruct (c_spf c) eqn:Hs; [by rewrite runCall_spf|].
  destruct (decide (c_key c = k)) as [<-|Hk]; [|by rewrite runCall_other].
  rewrite (runCall_row c t _ Hs Ht). unfold judge. rewrite (proj2 (Z.ltb_ge _ _)) by lia. cbv zeta.
  rewrite (proj2 (Z.leb_gt _ _)) by lia. exact Ht.
Qed.
End Check.

(** No triple passes at first sight.  However the statements of any number of checks, by any
    number of servers, with any clock readings, and deletions of rows interleave: a check that is
    accepted without SPF comes at least the delay, and at most the expiry, after another check of
    the same triple. *)
Theorem greylist_accept_seen opts s c :
  Reachable opts s -> (c, Done Accept) ∈ calls s -> c_spf c = false -> seenBefore opts s c.
Proof. intros Hr Hin Hs. eapply inv_accept; [by apply Inv_reachable|exact Hin|done|by right]. Qed.

(** An honest sender gets through.  When a triple is seen for the first time at [t0] it is
    deferred; then, whatever other triples are checked and however often the sender comes back too
    early, the answer to an early retry names the exact time that is left, and the first retry from
    [t0] plus the delay on, before the expiry, is accepted. *)
Theorem greylist_retry_accepted opts t k t0 cs now :
  0 <= delayMs opts <= expireMs opts -> t !! k = None -> Forall (harmless opts k t0) cs ->
  t0 <= now <= t0 + expireMs opts ->
  let first := mkCall k false t0 in
  let again := mkCall k false now in
  (runCall opts first t).1 = Done (Defer (delayMs opts)) /\
  (runCall opts again (runCalls opts cs (runCall opts first t).2)).1
  = Done (if t0 + delayMs opts <=? now then Accept else Defer (t0 + delayMs opts - now)).
Proof.
  intros Hd Ht Hcs Hnow first again.
  assert (Hfirst : runCall opts first t = (Done (Defer (delayMs opts)), <[k := t0 + expireMs opts]> t))
    by (unfold runCall; cbn [stepCall c_spf c_key c_now first]; unfold insertIgnore; by rewrite Ht).
  rewrite Hfirst. split; [done|]. cbn [snd].
  assert (Hrow : runCalls opts cs (<[k := t0 + expireMs opts]> t) !! k = Some (t0 + expireMs opts)).
  { assert (H0 : <[k := t0 + expireMs opts]> t !! k = Some (t0 + expireMs opts)) by apply lookup_insert_eq. revert H0.
    generalize (<[k := t0 + expireMs opts]> t). clear Hfirst Ht. induction Hcs as [|c cs Hc _ IH]; intros t' H0; [done|].
    cbn [runCalls fold_left]. apply IH. by apply harmless_keeps; [lia|..]. }
  rewrite (runCall_row opts again _ _ eq_refl Hrow). unfold judge. cbn [c_now again].
  rewrite (proj2 (Z.ltb_ge _ _)) by lia. cbv zeta.
  destruct (Z.leb_spec (t0 + delayMs opts) now).
  - rewrite (proj2 (Z.leb_le _ _)) by lia. done.
  - rewrite (proj2 (Z.leb_gt _ _)) by lia. cbn [fst]. do 2 f_equal. lia.
Qed.

Lemma greylist_accept_seen_witness :
  exists s c, Reachable defaultOptions s /\ (c, Done Accept) ∈ calls s /\ seenBefore defaultOptions s c.
Proof.
  set (c1 := mkCall (js "k") false 1000). set (c2 := mkCall (js "k") false 70000).
  assert (Hr : exists s, Reachable defaultOptions s /\ calls s = [(c1, Done (Defer 60000)); (c2, Done Accept)]).
  { eexists. split.
    - eapply reach_step; [eapply reach_step; [eapply reach_step; [eapply reach_step; [eapply reach_step; [eapply reach_step; [constructor|]|]|]|]|]|].
      + apply (step_arrive _ _ c1).
      + apply (step_statement _ _ 0 c1 AtInsert). reflexivity.
      + apply (step_arrive _ _ c2).
      + apply (step_statement _ _ 1 c2 AtInsert). reflexivity.
      + apply (step_statement _ _ 1 c2 AtSelect). reflexivity.
      + apply (step_statement _ _ 1 c2 (AtUpdate Accept)). reflexivity.
    - vm_compute. reflexivity. }
  destruct Hr as (s & Hr & Hc). exists s, c2. split; [done|].
  assert (Hin : (c2, Done Accept) ∈ calls s) by (rewrite Hc; set_solver). split; [done|].
  exact (greylist_accept_seen defaultOptions s c2 Hr Hin eq_refl).
Defined.

Lemma greylist_retry_accepted_witness :
  (runCall defaultOptions (mkCall (js "k") false 61000)
     (runCalls defaultOptions [mkCall (js "k") false 30000; mkCall (js "other") false 40000]
        (runCall defaultOptions (mkCall (js "k") false 1000) ∅).2)).1 = Done Accept.
Proof.
  apply (greylist_retry_accepted defaultOptions ∅ (js "k") 1000 [mkCall (js "k") false 30000; mkCall (js "other") false 40000] 61000).
  - vm_compute. intuition discriminate.
  - reflexivity.
  - apply Forall_cons_2; [right; right; vm_compute; intuition discriminate|].
    apply Forall_cons_2; [right; left; discriminate|apply Forall_nil_2].
  - vm_compute. intuition discriminate.
Defined.

(** The price of the single column: the refresh of an accepted check moves the computed first sight,
    so the next message of the same triple within the delay is deferred again. *)
Lemma greylist_refresh_defers opts t k e now d :
  0 <= d < delayMs opts -> delayMs opts <= expireMs opts -> t !! k = Some e -> (runCall opts (mkCall k false now) t).1 = Done Accept ->
  (runCall opts (mkCall k false (now + d)) (runCall opts (mkCall k false now) t).2).1 = Done (Defer (delayMs opts - d)).
Proof.
  intros Hd He Ht. rewrite (runCall_row opts (mkCall k false now) t e eq_refl Ht). cbn [c_now c_key].
  destruct (judge opts now e) as [r w] eqn:Ej. cbn [fst snd]. intros [= ->].
  assert (w = true) as -> by (unfold judge in Ej; repeat case_match; simplify_eq; done).
  rewrite (runCall_row opts (mkCall k false (now + d)) _ (now + expireMs opts) eq_refl (lookup_insert_eq _ _ _)).
  unfold judge. cbn [c_now]. rewrite (proj2 (Z.ltb_ge _ _)) by lia. cbv zeta. rewrite (proj2 (Z.leb_gt _ _)) by lia. cbn [fst]. do 2 f_equal. lia.
Qed.
