(* ===== verification/MimeEncoding.v ===== *)
(** * Transfer encodings, character sets and encoded words (packages/mime/src/encoding.ts)

    The decoders take any input and never fail.  A text here is a binary string, one unit per byte.
    Labels that [decodeBytesWithCharset] does not treat itself go to the platform's [TextDecoder],
    a parameter. *)

From S2P Require Import Prelude JsString JsNumber Loop Text Net.

(** ** Base64 *)

(** A number after a 32-bit operation. *)
Definition toInt32 (z : Z) : Z := (z + 2147483648) mod 4294967296 - 2147483648.

(** The loop of [base64Decode]: the bits that form no byte yet and their number. *)
Fixpoint base64Loop (text : jsstr) (acc bits : Z) : bytes :=
  match text with
  | [] => []
  | c :: text' =>
      match b64Val c with
      | None => base64Loop text' acc bits
      | Some v =>
          let acc := toInt32 (Z.lor (toInt32 (Z.shiftl acc 6)) v) in
          let bits := bits + 6 in
          if 8 <=? bits then Z.land (Z.shiftr acc (bits - 8)) 255 :: base64Loop text' acc (bits - 8)
          else base64Loop text' acc bits
      end
  end.

Definition base64Decode (text : jsstr) : bytes := base64Loop text 0 0.

(** ** Quoted-printable *)

(** [/^[0-9A-Fa-f]{2}$/.test(next2)] and its value. *)
Definition hexDigit (c : Z) : option Z :=
  if isDigit c then Some (c - 48)
  else if (65 <=? c) && (c <=? 70) then Some (c - 55)
  else if (97 <=? c) && (c <=? 102) then Some (c - 87)
  else None.

Definition hexPair (s : jsstr) : option Z :=
  match s with
  | a :: b :: _ => match hexDigit a, hexDigit b with Some x, Some y => Some (x * 16 + y) | _, _ => None end
  | _ => None
  end.

Fixpoint qpLoop (fuel : nat) (text : jsstr) : bytes :=
  match fuel, text with
  | S f, c :: r =>
      if c =? 61 then
        if startsWith crlf r then qpLoop f (drop 2 r)
        else if startsWith [LF] r then qpLoop f (drop 1 r)
        else match hexPair r with
             | Some b => b :: qpLoop f (drop 2 r)
             | None => 61 :: qpLoop f r
             end
      else c mod 256 :: qpLoop f r
  | _, _ => []
  end.

Definition quotedPrintableDecode (text : jsstr) : bytes := qpLoop (length text) text.

(** The Q encoding of headers, where an underscore is a space. *)
Fixpoint qLoop (fuel : nat) (text : jsstr) : bytes :=
  match fuel, text with
  | S f, c :: r =>
      match (if c =? 61 then hexPair r else None) with
      | Some b => b :: qLoop f (drop 2 r)
      | None => c mod 256 :: qLoop f r
      end
  | _, _ => []
  end.

Definition qEncodingDecode (text : jsstr) : bytes :=
  let withSpaces := map (fun c => if c =? 95 then SP else c) text in
  qLoop (length withSpaces) withSpaces.

(** ** Character sets *)

(** [new TextDecoder(label, { fatal: false }).decode]; [None] when the label is not known. *)
Class TextDecoders := { textDecoder : jsstr -> option (bytes -> jsstr) }.

(** [new TextDecoder("utf-8", { fatal: true }).decode]: an input that is no UTF-8 is exactly one that
    the replacing decoder does not give back. *)
Definition utf8Fatal (bs : bytes) : option jsstr :=
  let '(st, cs) := utf8Run utf8Init bs in
  match u_needed st with
  | O => if flat_map utf8Scalar cs === bs then Some (utf8Decode bs) else None
  | S _ => None
  end.

(** [.replace(/^(quote)(.-star)(quote)$/, "$1")]: quotes around a text without line ends. *)
Definition unquote (s : jsstr) : jsstr :=
  match s with
  | 34 :: r =>
      if endsWith1 34 r && forallb (fun c => negb (isLineTerminator c)) (removelast r) then removelast r else s
  | _ => s
  end.

Definition ALIASES : list (jsstr * jsstr) :=
  [(js "cp949", js "euc-kr"); (js "ks_c_5601-1987", js "euc-kr"); (js "ksc5601", js "euc-kr");
   (js "euckr", js "euc-kr"); (js "windows-949", js "euc-kr")].

Section Charset.
Context `{TextDecoders}.

Definition decodeBytesWithCharset (bs : bytes) (charsetRaw : option jsstr) : jsstr :=
  let cs := (fun c => unquote (toLowerCase (trim c))) <$> charsetRaw in
  let oneOf (l : list jsstr) := match cs with Some c => existsb (seqb c) l | None => false end in
  let fallback := default bs (utf8Fatal bs) in
  if oneOf [js "utf-8"; js "utf8"] then utf8Decode bs
  else if oneOf [js "us-ascii"; js "iso-8859-1"; js "latin1"] then bs
  else
    match cs with
    | None => fallback
    | Some c =>
        match default c (mapGet c ALIASES) with
        | [] => fallback
        | label => match textDecoder label with Some d => d bs | None => fallback end
        end
    end.

(** ** Encoded words *)

(** [[^?\s]+] *)
Fixpoint spanCharset (s : jsstr) : jsstr * jsstr :=
  match s with
  | c :: r => if (c =? 63) || isWs c then ([], s) else let '(a, b) := spanCharset r in (c :: a, b)
  | [] => ([], [])
  end.

(** [[^?]] any number of times *)
Fixpoint spanText (s : jsstr) : jsstr * jsstr :=
  match s with
  | c :: r => if c =? 63 then ([], s) else let '(a, b) := spanText r in (c :: a, b)
  | [] => ([], [])
  end.

Record EncodedWord := mkWord { w_charset : jsstr; w_enc : Z; w_text : jsstr }.

Definition isEncLetter (e : Z) : bool := (e =? 98) || (e =? 66) || (e =? 113) || (e =? 81).

(** [ENCODED_WORD] at the head of a text: the word and what follows it. *)
Definition matchWord (s : jsstr) : option (EncodedWord * jsstr) :=
  match s with
  | 61 :: 63 :: r =>
      let '(cs, r) := spanCharset r in
      match cs, r with
      | _ :: _, 63 :: e :: 63 :: r =>
          if isEncLetter e then
            let '(t, r) := spanText r in
            match r with 63 :: 61 :: r => Some (mkWord cs e t, r) | _ => None end
          else None
      | _, _ => None
      end
  | _ => None
  end.

Definition wordText (w : EncodedWord) : jsstr := js "=?" ++ w_charset w ++ [63; w_enc w; 63] ++ w_text w ++ js "?=".

Definition isBlank (c : Z) : bool := (c =? 32) || (c =? 9).

Fixpoint dropBlanks (s : jsstr) : jsstr :=
  match s with c :: r => if isBlank c then dropBlanks r else s | [] => [] end.

(** [input.replace(ENCODED_WORD_GAP, "$1")]: blanks between two words go. *)
Fixpoint collapseGaps (fuel : nat) (s : jsstr) : jsstr :=
  match fuel, s with
  | S f, c :: r =>
      match matchWord s with
      | Some (w, b :: t) =>
          if isBlank b && (match matchWord (dropBlanks t) with Some _ => true | None => false end)
          then wordText w ++ collapseGaps f (dropBlanks t)
          else c :: collapseGaps f r
      | _ => c :: collapseGaps f r
      end
  | _, _ => []
  end.

Definition decodeWord (w : EncodedWord) : jsstr :=
  let bs := if (w_enc w =? 98) || (w_enc w =? 66) then base64Decode (w_text w) else qEncodingDecode (w_text w) in
  decodeBytesWithCharset bs (Some (w_charset w)).

Fixpoint replaceWords (fuel : nat) (s : jsstr) : jsstr :=
  match fuel, s with
  | S f, c :: r =>
      match matchWord s with
      | Some (w, rest) => decodeWord w ++ replaceWords f rest
      | None => c :: replaceWords f r
      end
  | _, _ => []
  end.

Definition decodeEncodedWords (input : jsstr) : jsstr :=
  let collapsed := collapseGaps (length input) input in
  replaceWords (length collapsed) collapsed.

(** [decodeTextPart] *)
Definition decodeTextPart (bodyText cte : jsstr) (charset : option jsstr) : jsstr :=
  let bs := if cte === js "base64" then base64Decode bodyText
            else if cte === js "quoted-printable" then quotedPrintableDecode bodyText
            else map (fun c => c mod 256) bodyText in
  decodeBytesWithCharset bs charset.
End Charset.

Example encoded_words_example :
  decodeEncodedWords (H := {| textDecoder := fun _ => None |}) (js "Re: =?UTF-8?B?w6k=?= =?iso-8859-1?q?=E9_x?= y") = js "Re: " ++ [233; 233; 32; 120] ++ js " y".
Proof. vm_compute. reflexivity. Qed.

(** ** Base64 is read through any wrapping *)

Lemma toInt32_mod z : exists k, toInt32 z = z + k * 4294967296.
Proof. unfold toInt32. exists (- ((z + 2147483648) / 4294967296)). pose proof (Z.div_mod (z + 2147483648) 4294967296). lia. Qed.

(** The accumulator takes six more bits, up to multiples of the word. *)
Lemma acc_step acc v : 0 <= v < 64 ->
  exists k, toInt32 (Z.lor (toInt32 (Z.shiftl acc 6)) v) = acc * 64 + v + k * 4294967296.
Proof.
  intros Hv. destruct (toInt32_mod (Z.shiftl acc 6)) as [k1 ->]. rewrite Z.shiftl_mul_pow2 by lia. change (2 ^ 6) with 64.
  replace (acc * 64 + k1 * 4294967296) with (Z.shiftl (acc + k1 * 67108864) 6) by (rewrite Z.shiftl_mul_pow2 by lia; change (2 ^ 6) with 64; lia).
  rewrite lor_shiftl_add by (change (2 ^ 6) with 64; lia). destruct (toInt32_mod ((acc + k1 * 67108864) * 2 ^ 6 + v)) as [k2 ->].
  exists (k1 + k2). change (2 ^ 6) with 64. lia.
Qed.

(** Only the characters of the alphabet count. *)
Lemma base64Loop_alphabet t u acc bits : omap b64Val t = omap b64Val u -> base64Loop t acc bits = base64Loop u acc bits.
Proof.
  revert u acc bits. induction t as [|c t IH]; intros u acc bits H; cbn in H.
  - induction u as [|d u IHu]; [done|]. cbn in H |- *. destruct (b64Val d); [done|]. by apply IHu.
  - destruct (b64Val c) as [v|] eqn:Ec; cbn [base64Loop]; rewrite Ec; [|by apply IH].
    induction u as [|d u IHu]; cbn in H; [done|]. cbn [base64Loop]. destruct (b64Val d) as [w|] eqn:Ed; [|by apply IHu].
    injection H as <- H. cbv zeta. destruct (8 <=? bits + 6); [f_equal|]; by apply IH.
Qed.

Lemma b64Val_range c v : b64Val c = Some v -> 0 <= v < 64.
Proof. unfold b64Val. intros H. repeat case_match; simplify_eq; bool_hyps; lia. Qed.

(** The byte that [bits] bits of the accumulator give. *)
Lemma base64Loop_step c v text acc bits : b64Val c = Some v ->
  exists acc' k, acc' = acc * 64 + v + k * 4294967296 /\
  base64Loop (c :: text) acc bits =
    if 8 <=? bits + 6 then (acc' / 2 ^ (bits - 2)) mod 256 :: base64Loop text acc' (bits - 2) else base64Loop text acc' (bits + 6).
Proof.
  intros Hc. destruct (acc_step acc v (b64Val_range _ _ Hc)) as [k Hk]. exists (acc * 64 + v + k * 4294967296), k. split; [done|].
  cbn [base64Loop]. rewrite Hc. cbv zeta. rewrite Hk. destruct (Z.leb_spec 8 (bits + 6)); [|done].
  replace (bits + 6 - 8) with (bits - 2) by lia. by rewrite land_255, Z.shiftr_div_pow2 by lia.
Qed.

(** Four characters give three bytes, whatever is above them in the accumulator; the first two and
    three give the first one and two. *)
Lemma base64Loop_group a b c d x y z w text acc :
  b64Val a = Some x -> b64Val b = Some y -> b64Val c = Some z -> b64Val d = Some w ->
  (base64Loop [a; b] acc 0 = [x * 4 + y / 16]) /\
  (base64Loop [a; b; c] acc 0 = [x * 4 + y / 16; y mod 16 * 16 + z / 4]) /\
  exists acc', base64Loop (a :: b :: c :: d :: text) acc 0 = x * 4 + y / 16 :: y mod 16 * 16 + z / 4 :: z mod 4 * 64 + w :: base64Loop text acc' 0.
Proof.
  intros Ha Hb Hc Hd. pose proof (b64Val_range _ _ Ha). pose proof (b64Val_range _ _ Hb). pose proof (b64Val_range _ _ Hc). pose proof (b64Val_range _ _ Hd).
  assert (S1 : forall t, exists k, base64Loop (a :: t) acc 0 = base64Loop t (acc * 64 + x + k * 4294967296) 6)
    by (intros t; destruct (base64Loop_step a x t acc 0 Ha) as (acc1 & k & -> & ->); by exists k).
  assert (S2 : forall t m, exists k, base64Loop (b :: t) (m * 64 + x) 6 = x * 4 + y / 16 :: base64Loop t ((m * 64 + x) * 64 + y + k * 4294967296) 4).
  { intros t m. destruct (base64Loop_step b y t (m * 64 + x) 6 Hb) as (acc2 & k & -> & ->). exists k.
    change (8 <=? 6 + 6) with true. change (6 - 2) with 4. change (2 ^ 4) with 16. cbv iota. f_equal. Z.to_euclidean_division_equations. lia. }
  assert (S3 : forall t m, exists k, base64Loop (c :: t) (m * 64 + y) 4 = y mod 16 * 16 + z / 4 :: base64Loop t ((m * 64 + y) * 64 + z + k * 4294967296) 2).
  { intros t m. destruct (base64Loop_step c z t (m * 64 + y) 4 Hc) as (acc2 & k & -> & ->). exists k.
    change (8 <=? 4 + 6) with true. change (4 - 2) with 2. change (2 ^ 2) with 4. cbv iota. f_equal. Z.to_euclidean_division_equations. lia. }
  assert (S4 : forall t m, exists acc', base64Loop (d :: t) (m * 64 + z) 2 = z mod 4 * 64 + w :: base64Loop t acc' 0).
  { intros t m. destruct (base64Loop_step d w t (m * 64 + z) 2 Hd) as (acc2 & k & -> & ->). eexists.
    change (8 <=? 2 + 6) with true. change (2 - 2) with 0. change (2 ^ 0) with 1. cbv iota. f_equal. Z.to_euclidean_division_equations. lia. }
  assert (E1 : forall k, acc * 64 + x + k * 4294967296 = (acc + k * 67108864) * 64 + x) by lia.
  assert (E2 : forall m k, (m * 64 + x) * 64 + y + k * 4294967296 = (m * 64 + x + k * 67108864) * 64 + y) by lia.
  assert (E3 : forall m k, (m * 64 + y) * 64 + z + k * 4294967296 = (m * 64 + y + k * 67108864) * 64 + z) by lia.
  split; [|split].
  - destruct (S1 [b]) as [k1 ->]. rewrite E1. destruct (S2 [] (acc + k1 * 67108864)) as [k2 ->]. done.
  - destruct (S1 [b; c]) as [k1 ->]. rewrite E1. destruct (S2 [c] (acc + k1 * 67108864)) as [k2 ->]. rewrite E2.
    destruct (S3 [] ((acc + k1 * 67108864) * 64 + x + k2 * 67108864)) as [k3 ->]. done.
  - destruct (S1 (b :: c :: d :: text)) as [k1 ->]. rewrite E1. destruct (S2 (c :: d :: text) (acc + k1 * 67108864)) as [k2 ->]. rewrite E2.
    destruct (S3 (d :: text) ((acc + k1 * 67108864) * 64 + x + k2 * 67108864)) as [k3 ->]. rewrite E3.
    edestruct S4 as [acc' ->]. eauto.
Qed.

Lemma b64Char_val v : 0 <= v < 64 -> b64Val (b64Char v) = Some v.
Proof. apply b64Val_char. Qed.

Lemma base64Loop_encode bs : is_bytes bs -> forall acc, base64Loop (base64Encode bs) acc 0 = bs.
Proof.
  induction bs as [bs IH] using (induction_ltof1 _ (@length Z)). unfold ltof in IH. intros Hb acc.
  assert (HP : b64Val PAD = None) by reflexivity.
  destruct bs as [|a [|b [|c bs]]]; cbn [base64Encode]; [done| | |].
  - inversion Hb; subst. unfold is_byte in *. rewrite (base64Loop_alphabet _ [b64Char (a / 4); b64Char (a mod 4 * 16)])
      by (cbn [omap list_omap]; rewrite ?HP; rewrite !b64Char_val by (Z.to_euclidean_division_equations; lia); done).
    destruct (base64Loop_group (b64Char (a / 4)) (b64Char (a mod 4 * 16)) 65 65 (a / 4) (a mod 4 * 16) 0 0 [] acc) as [-> _];
      try (apply b64Char_val; Z.to_euclidean_division_equations; lia); try done. f_equal. Z.to_euclidean_division_equations; lia.
  - apply Forall_cons in Hb as [Ha Hb]. apply Forall_cons in Hb as [Hb _]. unfold is_byte in *.
    rewrite (base64Loop_alphabet _ [b64Char (a / 4); b64Char (a mod 4 * 16 + b / 16); b64Char (b mod 16 * 4)])
      by (cbn [omap list_omap]; rewrite ?HP; rewrite !b64Char_val by (Z.to_euclidean_division_equations; lia); done).
    destruct (base64Loop_group (b64Char (a / 4)) (b64Char (a mod 4 * 16 + b / 16)) (b64Char (b mod 16 * 4)) 65 (a / 4) (a mod 4 * 16 + b / 16) (b mod 16 * 4) 0 [] acc) as (_ & -> & _);
      try (apply b64Char_val; Z.to_euclidean_division_equations; lia); try done. f_equal; [|f_equal]; Z.to_euclidean_division_equations; lia.
  - apply Forall_cons in Hb as [Ha Hb]. apply Forall_cons in Hb as [Hb Hc]. apply Forall_cons in Hc as [Hc Hbs]. unfold is_byte in *.
    destruct (base64Loop_group (b64Char (a / 4)) (b64Char (a mod 4 * 16 + b / 16)) (b64Char (b mod 16 * 4 + c / 64)) (b64Char (c mod 64))
      (a / 4) (a mod 4 * 16 + b / 16) (b mod 16 * 4 + c / 64) (c mod 64) (base64Encode bs) acc) as (_ & _ & acc' & ->);
      try (apply b64Char_val; Z.to_euclidean_division_equations; lia).
    rewrite IH by (cbn; [lia|done] || (cbn; lia) || done). f_equal; [|f_equal; [|f_equal]]; Z.to_euclidean_division_equations; lia.
Qed.

(** An attachment in base64 is decoded to the bytes it encodes, however it is wrapped: line
    ends, spaces, missing or extra padding and any other characters outside the alphabet between
    the letters make no difference. *)
Theorem mime_base64_roundtrip bs text :
  is_bytes bs -> omap b64Val text = omap b64Val (base64Encode bs) -> base64Decode text = bs.
Proof. intros Hb Ht. unfold base64Decode. rewrite (base64Loop_alphabet _ _ _ _ Ht). by apply base64Loop_encode. Qed.

Lemma mime_base64_roundtrip_witness : base64Decode (js "SGV" ++ crlf ++ js " sbG8") = js "Hello".
Proof. apply mime_base64_roundtrip; [repeat (constructor; [split; vm_compute; [discriminate|reflexivity]|]); constructor|vm_compute; reflexivity]. Defined.

(** ** Quoted-printable *)

(** A text that encodes bytes by the rules of RFC 2045, with soft line breaks anywhere: a byte is
    itself (but for the equals sign) or an escape with two hexadecimal digits of either case. *)
Inductive QpText : jsstr -> bytes -> Prop :=
| qp_nil : QpText [] []
| qp_literal b t bs : is_byte b -> b <> 61 -> QpText t bs -> QpText (b :: t) (b :: bs)
| qp_escape a b x y t bs : hexDigit a = Some x -> hexDigit b = Some y -> QpText t bs -> QpText (61 :: a :: b :: t) (x * 16 + y :: bs)
| qp_soft t bs : QpText t bs -> QpText (61 :: crlf ++ t) bs.

Lemma hexDigit_no_newline a x : hexDigit a = Some x -> a <> CR /\ a <> LF.
Proof. unfold hexDigit, isDigit, CR, LF. intros H. repeat case_match; simplify_eq; bool_hyps; lia. Qed.

Lemma qpLoop_text t bs : QpText t bs -> forall fuel, (length t <= fuel)%nat -> qpLoop fuel t = bs.
Proof.
  induction 1 as [|b t bs Hb Hne _ IH|a b x y t bs Ha Hb _ IH|t bs _ IH]; intros [|f] Hf; try (cbn in Hf; lia); cbn [qpLoop]; try done.
  - rewrite (proj2 (Z.eqb_neq b 61)) by done. unfold is_byte in Hb. rewrite Z.mod_small by lia. f_equal. apply IH. cbn in Hf. lia.
  - rewrite Z.eqb_refl. destruct (hexDigit_no_newline _ _ Ha) as [H1 H2].
    unfold crlf. cbn [startsWith]. rewrite !(proj2 (Z.eqb_neq _ a)) by congruence. cbn [andb hexPair]. rewrite Ha, Hb.
    cbn [drop]. f_equal. apply IH. cbn in Hf. lia.
  - rewrite Z.eqb_refl. change (startsWith crlf (crlf ++ t)) with true. cbv iota. change (drop 2 (crlf ++ t)) with t. apply IH. cbn in Hf. lia.
Qed.

(** A quoted-printable body is decoded to the bytes it encodes, for every encoding that the
    standard allows. *)
Theorem mime_qp_roundtrip text bs : QpText text bs -> quotedPrintableDecode text = bs.
Proof. intros H. by apply qpLoop_text. Qed.

Lemma mime_qp_roundtrip_witness : quotedPrintableDecode (js "a=3D=e9" ++ 61 :: crlf ++ js "b") = [97; 61; 233; 98].
Proof.
  apply mime_qp_roundtrip. apply qp_literal; [split; vm_compute; [discriminate|reflexivity]|discriminate|].
  apply (qp_escape 51 68 3 13); [reflexivity..|]. apply (qp_escape 101 57 14 9); [reflexivity..|]. apply (qp_soft (js "b")).
  apply qp_literal; [split; vm_compute; [discriminate|reflexivity]|discriminate|constructor].
Defined.
