(* ===== verification/MimeHeaders.v ===== *)
(** * Header blocks (packages/mime/src/headers.ts)

    Where the header ends, its physical lines, and the records they form: a record is a line and the
    folded lines behind it, with its raw text and its unfolded text.  The text of a message is a
    binary string, one unit per byte (binary.ts). *)

From S2P Require Import Prelude JsString Loop MimeEncoding.

Definition TAB : Z := 9.

(** The longest run at the head of a text, and the rest. *)
Fixpoint spanChars (p : Z -> bool) (s : jsstr) : jsstr * jsstr :=
  match s with
  | c :: r => if p c then let '(a, b) := spanChars p r in (c :: a, b) else ([], s)
  | [] => ([], [])
  end.

(** ** Header and body *)

Definition CRLFCRLF : jsstr := [13; 10; 13; 10].
Definition LFLF : jsstr := [10; 10].
Definition CRCR : jsstr := [13; 13].

(** One round of the loop over the separators: the earliest so far and its length. *)
Definition earlier (str : jsstr) (best : option (nat * nat)) (sep : jsstr) : option (nat * nat) :=
  match indexOfStr sep str, best with
  | None, _ => best
  | Some idx, None => Some (idx, length sep)
  | Some idx, Some (b, _) => if (idx <? b)%nat then Some (idx, length sep) else best
  end.

Definition splitHeaderBody (str : jsstr) : jsstr * jsstr :=
  match fold_left (earlier str) [CRLFCRLF; LFLF; CRCR] None with
  | None => (str, [])
  | Some (idx, n) => (take idx str, drop (idx + n) str)
  end.

(** ** Lines and records *)

Definition isNewline (c : Z) : bool := (c =? CR) || (c =? LF).

(** The content of the first line and what is left from its end on. *)
Fixpoint spanLine (s : jsstr) : jsstr * jsstr :=
  match s with
  | c :: r => if isNewline c then ([], s) else let '(l, t) := spanLine r in (c :: l, t)
  | [] => ([], [])
  end.

(** The end of line at the head of a text: CRLF, or one unit, or none at the end. *)
Definition eolOf (s : jsstr) : jsstr * jsstr :=
  match s with
  | 13 :: 10 :: r => ([13; 10], r)
  | c :: r => ([c], r)
  | [] => ([], [])
  end.

(** The iterations of the loop of [splitHeaderRecords]: content and end of each line. *)
Fixpoint physicalLines (fuel : nat) (s : jsstr) : list (jsstr * jsstr) :=
  match fuel, s with
  | S f, _ :: _ =>
      let '(content, t) := spanLine s in
      let '(eol, rest) := eolOf t in
      (content, eol) :: physicalLines f rest
  | _, _ => []
  end.

Record HeaderRecord := mkRecord { raw : jsstr; unfolded : jsstr; name : option jsstr }.

Definition isFolded (content : jsstr) : bool := startsWith [SP] content || startsWith [TAB] content.

(** Appends a line to the records so far: to the last one, or as a new one. *)
Definition pushLine (parts : list (jsstr * jsstr)) (line : jsstr * jsstr) : list (jsstr * jsstr) :=
  let '(content, eol) := line in
  match last parts with
  | Some (r, u) =>
      if isFolded content then removelast parts ++ [(r ++ content ++ eol, u ++ content)]
      else parts ++ [(content ++ eol, content)]
  | None => parts ++ [(content ++ eol, content)]
  end.

(** [FIELD_NAME_RE]: printable ASCII but the colon. *)
Definition isFieldNameChar (c : Z) : bool := (33 <=? c) && (c <=? 126) && negb (c =? 58).
Definition isFieldName (s : jsstr) : bool := match s with [] => false | _ => forallb isFieldNameChar s end.

Definition headerFieldName (unfolded : jsstr) : option jsstr :=
  match indexOf 58 unfolded with
  | None | Some O => None
  | Some colonIdx =>
      let n := toLowerCase (trim (take colonIdx unfolded)) in
      if isFieldName n then Some n else None
  end.

Definition toRecord (p : jsstr * jsstr) : HeaderRecord :=
  {| raw := p.1; unfolded := p.2; name := headerFieldName p.2 |}.

Definition splitHeaderRecords (headerText : jsstr) : list HeaderRecord :=
  map toRecord (fold_left pushLine (physicalLines (length headerText) headerText) []).

(** ** The map of headers *)

Section Parse.
Context `{TextDecoders}.

(** The value of a record: behind the colon. *)
Definition recordValue (u : jsstr) : jsstr :=
  decodeEncodedWords (trim (match indexOf 58 u with Some i => drop (S i) u | None => u end)).

Definition addRecord (headers : list (jsstr * list jsstr)) (r : HeaderRecord) : list (jsstr * list jsstr) :=
  match name r with
  | None => headers
  | Some n => mapSet n (default [] (mapGet n headers) ++ [recordValue (unfolded r)]) headers
  end.

Definition parseHeaders (headerText : jsstr) : list (jsstr * list jsstr) :=
  fold_left addRecord (splitHeaderRecords headerText) [].
End Parse.

Definition firstHeader (headers : list (jsstr * list jsstr)) (n : jsstr) : option jsstr := mapGet n headers ≫= head.

(** ** Lines, again *)

Lemma spanLine_spec s : spanLine s = (take (length (spanLine s).1) s, drop (length (spanLine s).1) s)
  /\ Forall (fun c => isNewline c = false) (spanLine s).1
  /\ match (spanLine s).2 with c :: _ => isNewline c = true | [] => True end.
Proof.
  induction s as [|c s (Hs & Hf & Hn)]; [done|]. cbn [spanLine]. destruct (isNewline c) eqn:E; [by rewrite drop_0|].
  destruct (spanLine s) as [l t]. cbn [fst snd length] in *. injection Hs as E1 E2. split; [|split; [by constructor|done]].
  cbn. by rewrite <- E1, <- E2.
Qed.

(** The text of a line is its content, its end, and the rest. *)
Lemma spanLine_app s : s = (spanLine s).1 ++ (spanLine s).2.
Proof. destruct (spanLine_spec s) as [H _]. rewrite H. cbn [fst snd]. by rewrite take_drop. Qed.

Lemma eolOf_app s : s = (eolOf s).1 ++ (eolOf s).2.
Proof. destruct s as [|c [|d r]]; try done; cbn; repeat case_match; done. Qed.

Lemma spanLine_content c t : Forall (fun x => isNewline x = false) c -> match t with x :: _ => isNewline x = true | [] => True end ->
  spanLine (c ++ t) = (c, t).
Proof.
  intros Hc Ht. induction Hc as [|x c Hx _ IH]; cbn [app spanLine]; [destruct t; [done|]; cbn; by rewrite Ht|]. by rewrite Hx, IH.
Qed.

Lemma eolOf_shorter c s : (length (eolOf (c :: s)).2 <= length s)%nat.
Proof. destruct s as [|d s]; cbn; repeat case_match; cbn; lia. Qed.

Lemma line_shorter c s : (length (eolOf (spanLine (c :: s)).2).2 <= length s)%nat.
Proof.
  pose proof (spanLine_app (c :: s)) as H. apply (f_equal length) in H. rewrite length_app in H. cbn [length] in H.
  destruct (spanLine (c :: s)) as [l t]. cbn [fst snd] in *. destruct t as [|d t]; [cbn; lia|].
  pose proof (eolOf_shorter d t). cbn [length] in H. lia.
Qed.

Lemma physicalLines_fuel f g s : (length s <= f)%nat -> (length s <= g)%nat -> physicalLines f s = physicalLines g s.
Proof.
  revert g s. induction f as [|f IH]; intros [|g] [|c s] Hf Hg; try done; try (cbn in *; lia). cbn [physicalLines].
  pose proof (line_shorter c s). destruct (spanLine (c :: s)) as [l t]. cbn [fst snd] in *.
  destruct (eolOf t) as [e r]. cbn [snd] in *. f_equal. apply IH; cbn in *; lia.
Qed.

(** The lines of a text. *)
Definition linesOf (s : jsstr) : list (jsstr * jsstr) := physicalLines (length s) s.

Lemma linesOf_cons c s : linesOf (c :: s) =
  ((spanLine (c :: s)).1, (eolOf (spanLine (c :: s)).2).1) :: linesOf (eolOf (spanLine (c :: s)).2).2.
Proof.
  unfold linesOf. cbn [length physicalLines]. pose proof (line_shorter c s). destruct (spanLine (c :: s)) as [l t]. cbn [fst snd] in *.
  destruct (eolOf t) as [e r]. cbn [fst snd] in *. f_equal. apply physicalLines_fuel; lia.
Qed.

Lemma linesOf_concat s : concat (map (fun l => l.1 ++ l.2) (linesOf s)) = s.
Proof.
  induction s as [s IH] using (induction_ltof1 _ (@length Z)). unfold ltof in IH. destruct s as [|c s]; [done|].
  rewrite linesOf_cons. cbn [map concat fst snd]. rewrite IH by (pose proof (line_shorter c s); cbn [length]; lia).
  rewrite <- app_assoc, <- eolOf_app, <- spanLine_app. done.
Qed.

(** The raw texts of the records give the header back, byte for byte. *)
Lemma pushLine_raw parts line : concat (map fst (pushLine parts line)) = concat (map fst parts) ++ line.1 ++ line.2.
Proof.
  destruct line as [c e]. unfold pushLine. destruct (last parts) as [[r u]|] eqn:El.
  - apply last_Some in El as [l ->]. destruct (isFolded c).
    + rewrite removelast_last, !map_app, !concat_app. cbn. by rewrite !app_nil_r, <- !app_assoc.
    + rewrite (map_app _ (l ++ _)), concat_app. cbn. by rewrite app_nil_r.
  - rewrite map_app, concat_app. cbn. by rewrite app_nil_r.
Qed.

Lemma pushLines_raw lines parts :
  concat (map fst (fold_left pushLine lines parts)) = concat (map fst parts) ++ concat (map (fun l => l.1 ++ l.2) lines).
Proof.
  revert parts. induction lines as [|l ls IH]; intros parts; cbn [fold_left map concat]; [by rewrite app_nil_r|].
  by rewrite IH, pushLine_raw, <- !app_assoc.
Qed.

(** Splitting a header into records loses nothing: the raw texts of the records, one after the
    other, are the header, whatever line ends it mixes. *)
Theorem mime_records_lossless headerText : concat (map raw (splitHeaderRecords headerText)) = headerText.
Proof.
  unfold splitHeaderRecords. rewrite map_map. cbn [raw toRecord].
  change (fun x : jsstr * jsstr => x.1) with (@fst jsstr jsstr). fold (linesOf headerText).
  rewrite pushLines_raw. cbn. apply linesOf_concat.
Qed.

(** ** Records as groups of lines *)

Abbreviation Line := (jsstr * jsstr)%type.

Definition printLines (ls : list Line) : jsstr := concat (map (fun l => l.1 ++ l.2) ls).

(** The lines of each record. *)
Definition pushGroup (gs : list (list Line)) (l : Line) : list (list Line) :=
  match last gs with
  | Some g => if isFolded l.1 then removelast gs ++ [g ++ [l]] else gs ++ [[l]]
  | None => gs ++ [[l]]
  end.

Definition groups (ls : list Line) : list (list Line) := fold_left pushGroup ls [].

Definition partOf (g : list Line) : jsstr * jsstr := (printLines g, concat (map fst g)).

Lemma partOf_snoc g c e : partOf (g ++ [(c, e)]) = ((partOf g).1 ++ c ++ e, (partOf g).2 ++ c).
Proof. unfold partOf, printLines. rewrite !map_app, !concat_app. cbn. by rewrite !app_nil_r. Qed.

Lemma pushLine_group gs l : map partOf (pushGroup gs l) = pushLine (map partOf gs) l.
Proof.
  destruct l as [c e]. unfold pushGroup, pushLine. destruct (last gs) as [g|] eqn:El.
  - apply last_Some in El as [gs' ->]. rewrite map_app. cbn [map]. rewrite last_snoc. cbn [fst].
    destruct (partOf g) as [r u] eqn:Eg. destruct (isFolded c).
    + rewrite !removelast_last, map_app. cbn [map]. by rewrite partOf_snoc, Eg.
    + rewrite !map_app. cbn [map]. rewrite Eg. do 2 f_equal. by apply (partOf_snoc []).
  - apply last_None in El as ->. cbn [map app last]. do 2 f_equal. by apply (partOf_snoc []).
Qed.

Lemma pushLines_group ls gs : map partOf (fold_left pushGroup ls gs) = fold_left pushLine ls (map partOf gs).
Proof. revert gs. induction ls as [|l ls IH]; intros gs; [done|]. cbn [fold_left]. by rewrite IH, pushLine_group. Qed.

Lemma records_groups s : splitHeaderRecords s = map (fun g => toRecord (partOf g)) (groups (linesOf s)).
Proof. unfold splitHeaderRecords. fold (linesOf s). rewrite <- (pushLines_group _ []). by rewrite map_map. Qed.

(** Only the last group grows. *)
Lemma pushGroups_last ls gs g : fold_left pushGroup ls (gs ++ [g]) = gs ++ fold_left pushGroup ls [g].
Proof.
  revert gs g. induction ls as [|l ls IH]; intros gs g; [done|]. cbn [fold_left]. unfold pushGroup at 2 4. rewrite last_snoc. cbn [last].
  destruct (isFolded l.1); [rewrite removelast_last; apply IH|]. rewrite (IH (gs ++ [g])), (IH [g]). by rewrite <- app_assoc.
Qed.

(** A line that is not folded starts a new group. *)
Lemma groups_app ls l ls' : isFolded l.1 = false -> groups (ls ++ l :: ls') = groups ls ++ groups (l :: ls').
Proof.
  intros Hl. unfold groups. rewrite fold_left_app. cbn [fold_left]. set (gs := fold_left pushGroup ls []).
  assert (Hp : pushGroup gs l = gs ++ [[l]]) by (unfold pushGroup; rewrite Hl; by destruct (last gs)).
  rewrite Hp, pushGroups_last. done.
Qed.

(** A well-formed list of groups: folded lines follow the first of each, and the first line of a
    group that has one before it is not folded. *)
Definition isGroup (g : list Line) : Prop := match g with [] => False | _ :: r => Forall (fun l => isFolded l.1 = true) r end.
Definition startsPlain (g : list Line) : Prop := match g with [] => False | l :: _ => isFolded l.1 = false end.

Lemma pushGroups_folded r gs g : Forall (fun l => isFolded l.1 = true) r -> fold_left pushGroup r (gs ++ [g]) = gs ++ [g ++ r].
Proof.
  intros Hr. revert g. induction Hr as [|l r Hl _ IH]; intros g; [by rewrite app_nil_r|]. cbn [fold_left]. unfold pushGroup at 2.
  rewrite last_snoc, Hl, removelast_last, IH. by rewrite <- app_assoc.
Qed.

Lemma groups_concat g gs : isGroup g -> Forall isGroup gs -> Forall startsPlain gs -> groups (g ++ concat gs) = g :: gs.
Proof.
  intros Hg Hgs. revert g Hg. induction Hgs as [|g' gs Hg' _ IH]; intros g Hg Hp.
  - cbn. rewrite app_nil_r. destruct g as [|l r]; [done|]. unfold groups. cbn [fold_left]. change (pushGroup [] l) with ([] ++ [[l]]).
    by rewrite pushGroups_folded.
  - apply Forall_cons in Hp as [Hp Hps]. destruct g' as [|l' r']; [done|]. cbn [concat app]. rewrite groups_app by exact Hp.
    change (l' :: r' ++ concat gs) with ((l' :: r') ++ concat gs). rewrite IH by done.
    destruct g as [|l r]; [done|]. unfold groups. cbn [fold_left]. change (pushGroup [] l) with ([] ++ [[l]]). by rewrite pushGroups_folded.
Qed.

(** The groups of any lines are well-formed, and their lines are the lines. *)
Lemma groups_wf ls : match groups ls with [] => ls = [] | g :: gs => isGroup g /\ Forall isGroup gs /\ Forall startsPlain gs end
  /\ concat (groups ls) = ls.
Proof.
  unfold groups. induction ls as [|l ls [IH IHc]] using rev_ind; [done|]. rewrite fold_left_app. cbn [fold_left].
  destruct (fold_left pushGroup ls []) as [|g gs] eqn:E.
  - subst. cbn. repeat constructor.
  - destruct IH as (Hg & Hgs & Hp). unfold pushGroup. destruct (last (g :: gs)) as [h|] eqn:El; [|by apply last_None in El].
    apply last_Some in El as [l' El]. destruct (isFolded l.1) eqn:Ef.
    + rewrite El in *. rewrite removelast_last. split.
      * destruct l' as [|g0 l']; cbn in El |- *; injection El as -> ->.
        { split; [|by split; constructor]. destruct h as [|x r]; [done|]. cbn in Hg |- *. apply Forall_app. split; [done|by repeat constructor]. }
        split; [done|]. apply Forall_app in Hgs as [H1 H2], Hp as [H3 H4]. apply Forall_cons in H2 as [H2 _], H4 as [H4 _].
        split; apply Forall_app; (split; [done|]); constructor; try constructor; destruct h as [|x r]; try done.
        cbn in H2 |- *. apply Forall_app. split; [done|by repeat constructor].
      * rewrite !concat_app in *. cbn in *. rewrite !app_nil_r in *. by rewrite app_assoc, IHc.
    + split.
      * cbn. split; [done|]. split; apply Forall_app; (split; [done|]); repeat constructor. done.
      * rewrite concat_app, IHc. done.
Qed.

(** ** Texts made of lines *)

Definition startsLF (s : jsstr) : bool := match s with c :: _ => c =? LF | [] => false end.

Definition lineOK (l : Line) : Prop :=
  Forall (fun c => isNewline c = false) l.1 /\ (l.2 = crlf \/ l.2 = [LF] \/ l.2 = [CR] \/ l.2 = []) /\ (l.1 <> [] \/ l.2 <> []).

(** Every line but the last has an end, and none but the first starts with a line feed. *)
Fixpoint wfLines (first : bool) (ls : list Line) : Prop :=
  match ls with
  | [] => True
  | l :: r => lineOK l /\ (first = false -> startsLF (l.1 ++ l.2) = false) /\ (r <> [] -> l.2 <> []) /\ wfLines false r
  end.

Lemma wfLines_mono ls : wfLines false ls -> wfLines true ls.
Proof. destruct ls; [done|]. intros (H1 & _ & H3 & H4). repeat split; try done; apply H1. Qed.

Lemma wfLines_sublist b ls ls' : ls' `sublist_of` ls -> wfLines b ls -> wfLines b ls'.
Proof.
  intros Hs. revert b. induction Hs as [|l ls' ls Hs IH|l ls' ls Hs IH]; intros b; [done| |].
  - intros (H1 & H2 & H3 & H4). split; [done|]. split; [done|]. split; [|by apply IH]. intros Hn. apply H3. intros ->. by apply sublist_nil_r in Hs.
  - intros (_ & _ & _ & H4). apply IH. destruct b; [by apply wfLines_mono|done].
Qed.

Lemma printLines_cons c e ls : printLines ((c, e) :: ls) = c ++ e ++ printLines ls.
Proof. unfold printLines. cbn. by rewrite <- app_assoc. Qed.

Lemma eolOf_end e s : (e = crlf \/ e = [LF] \/ e = [CR] \/ e = []) -> (s <> [] -> e <> []) -> (e = [CR] -> startsLF s = false) -> eolOf (e ++ s) = (e, s).
Proof.
  intros [->|[->|[->| ->]]] Hn Hcr; [done|by destruct s| |destruct s; [done|by destruct Hn]].
  destruct s as [|c s]; [done|]. specialize (Hcr eq_refl). cbn in Hcr |- *. apply Z.eqb_neq in Hcr. unfold LF in Hcr. repeat case_match; try done; lia.
Qed.

(** A line is cut off as it is written. *)
Lemma linesOf_line c e s : lineOK (c, e) -> (s <> [] -> e <> []) -> (e = [CR] -> startsLF s = false) ->
  linesOf (c ++ e ++ s) = (c, e) :: linesOf s.
Proof.
  intros (Hc & He & Hn) Hs Hcr. cbn [fst snd] in *.
  assert (Hsp : spanLine (c ++ e ++ s) = (c, e ++ s)).
  { apply spanLine_content; [done|]. destruct He as [->|[->|[->| ->]]]; try done. destruct s; [done|]. by destruct Hs. }
  destruct (c ++ e ++ s) as [|x t] eqn:E; [apply app_eq_nil in E as [-> [-> _]%app_eq_nil]; by destruct Hn|].
  rewrite linesOf_cons, Hsp. cbn [fst snd]. by rewrite eolOf_end.
Qed.

Lemma startsLF_printLines l ls : lineOK l -> startsLF (printLines (l :: ls)) = startsLF (l.1 ++ l.2).
Proof. destruct l as [[|x c] e]; intros (_ & _ & Hn); rewrite printLines_cons; [|done]. destruct e; [by destruct Hn|done]. Qed.

Lemma printLines_ne l ls : lineOK l -> printLines (l :: ls) <> [].
Proof. destruct l as [c e]. intros (_ & _ & Hn) H. rewrite printLines_cons in H. apply app_eq_nil in H as [-> [-> _]%app_eq_nil]. by destruct Hn. Qed.

Lemma wfLines_ok b l ls : wfLines b (l :: ls) -> lineOK l.
Proof. by intros [? _]. Qed.

Lemma linesOf_print b ls : wfLines b ls -> linesOf (printLines ls) = ls.
Proof.
  revert b. induction ls as [|[c e] ls IH]; intros b; [done|]. intros (H1 & H2 & H3 & H4). rewrite printLines_cons.
  rewrite linesOf_line; [by rewrite (IH _ H4)|done| |].
  - intros Hn. apply H3. by intros ->.
  - intros _. destruct ls as [|l ls]; [done|]. rewrite startsLF_printLines by (by eapply wfLines_ok). by apply H4.
Qed.

Lemma lineOK_span s : s <> [] -> lineOK ((spanLine s).1, (eolOf (spanLine s).2).1).
Proof.
  intros Hs. destruct (spanLine_spec s) as (_ & Hf & Hn). pose proof (spanLine_app s) as Ha.
  destruct (spanLine s) as [c t]. cbn [fst snd] in *. split; [done|]. cbn [fst snd].
  destruct t as [|x [|y t]]; [split; [auto|left; by rewrite app_nil_r in Ha; congruence]| |];
    unfold isNewline, CR, LF, crlf in *; apply orb_true_iff in Hn as [->%Z.eqb_eq| ->%Z.eqb_eq]; cbn;
    try (split; [tauto|right; done]); repeat case_match; cbn; split; try tauto; right; done.
Qed.

Lemma indexOfStr_None p s j : indexOfStr p s = None -> startsWith p (drop j s) = false.
Proof.
  revert j. induction s as [|x s IH]; intros j; cbn [indexOfStr].
  - rewrite drop_nil. by destruct (startsWith p []).
  - destruct (startsWith p (x :: s)) eqn:E; [done|]. intros H%fmap_None. destruct j; [done|]. cbn [drop]. by apply IH.
Qed.

Lemma indexOfStr_first p s j : startsWith p (drop j s) = true -> (j <= length s)%nat -> exists i, indexOfStr p s = Some i /\ (i <= j)%nat.
Proof.
  revert j. induction s as [|x s IH]; intros j Hj Hl; cbn [indexOfStr].
  - rewrite drop_nil in Hj. rewrite Hj. eexists. split; [done|lia].
  - destruct (startsWith p (x :: s)) eqn:E; [eexists; split; [done|lia]|]. destruct j as [|j]; [by rewrite drop_0, E in Hj|].
    destruct (IH j) as (i & -> & Hi); [done|cbn in Hl; lia|]. exists (S i). split; [done|lia].
Qed.

Lemma drop_plus_app {A} (a b : list A) n : drop (length a + n) (a ++ b) = drop n b.
Proof. rewrite drop_app_ge by lia. f_equal. lia. Qed.

(** The lines of a text without two line feeds in a row are well-formed. *)
Lemma linesOf_wf b s : indexOfStr LFLF s = None -> (b = false -> startsLF s = false) -> wfLines b (linesOf s).
Proof.
  revert b. induction s as [s IH] using (induction_ltof1 _ (@length Z)). unfold ltof in IH. intros b Hno Hb.
  destruct s as [|x s]; [done|]. rewrite linesOf_cons. pose proof (line_shorter x s) as Hsh.
  pose proof (lineOK_span (x :: s) ltac:(done)) as Hok. pose proof (spanLine_app (x :: s)) as Ha.
  destruct (spanLine (x :: s)) as [c t] eqn:Esp. cbn [fst snd] in *. pose proof (eolOf_app t) as Ht.
  destruct (eolOf t) as [e r] eqn:Ee. cbn [fst snd] in *. subst t.
  assert (Hr : startsLF r = false).
  { destruct r as [|y r']; [done|]. cbn [startsLF]. apply Z.eqb_neq. intros ->. destruct Hok as (_ & He & _). cbn [snd] in He. destruct He as [->|[->|[->| ->]]].
    - pose proof (indexOfStr_None LFLF (x :: s) (length c + 1) Hno) as Hf. rewrite Ha, drop_plus_app in Hf. vm_compute in Hf. discriminate Hf.
    - pose proof (indexOfStr_None LFLF (x :: s) (length c + 0) Hno) as Hf. rewrite Ha, drop_plus_app in Hf. vm_compute in Hf. discriminate Hf.
    - cbn in Ee. injection Ee as Ee. done.
    - cbn in Ee. repeat case_match; simplify_eq. }
  cbn [wfLines fst snd]. split; [done|]. split; [|split].
  - intros Hf. specialize (Hb Hf). rewrite Ha in Hb. destruct c; [|done]. destruct e; [|done]. by destruct Hok as (_ & _ & [?|?]).
  - intros Hn He. subst e. assert (r = []) as -> by (destruct r; [done|]; cbn in Ee; repeat case_match; simplify_eq). done.
  - apply IH; [cbn [length]; lia| |done]. destruct (indexOfStr LFLF r) as [i|] eqn:Ei; [|done].
    destruct (indexOfStr_Some _ _ _ Ei) as [Hi _]. pose proof (indexOfStr_None LFLF (x :: s) (length (c ++ e) + i) Hno) as Hf.
    rewrite Ha, app_assoc, drop_plus_app in Hf. rewrite Hi in Hf at 1.
    rewrite drop_app_length' in Hf by (rewrite length_take; pose proof (indexOfStr_lt _ _ _ Ei); lia). done.
Qed.

(** ** Where the header ends *)

Definition SEPARATORS : list jsstr := [CRLFCRLF; LFLF; CRCR].

Lemma separator_cases sep : sep ∈ SEPARATORS -> sep = CRLFCRLF \/ sep = LFLF \/ sep = CRCR.
Proof. unfold SEPARATORS. rewrite !elem_of_cons, elem_of_nil. tauto. Qed.

Definition atSeparator (s : jsstr) : Prop := exists sep, sep ∈ SEPARATORS /\ startsWith sep s = true.

Lemma earlier_fold str seps best :
  (forall b n, best = Some (b, n) -> exists sep, sep ∈ SEPARATORS /\ n = length sep /\ startsWith sep (drop b str) = true) ->
  (forall sep, sep ∈ seps -> sep ∈ SEPARATORS) ->
  match fold_left (earlier str) seps best with
  | None => best = None /\ forall sep, sep ∈ seps -> indexOfStr sep str = None
  | Some (idx, n) =>
      (exists sep, sep ∈ SEPARATORS /\ n = length sep /\ startsWith sep (drop idx str) = true) /\
      (forall b m, best = Some (b, m) -> (idx <= b)%nat) /\
      (forall sep j, sep ∈ seps -> indexOfStr sep str = Some j -> (idx <= j)%nat)
  end.
Proof.
  revert best. induction seps as [|sep seps IH]; intros best Hb Hs; cbn [fold_left].
  - destruct best as [[b n]|]; [|split; [done|set_solver]]. split; [by apply Hb|]. split; [intros ? ? [= <- <-]; lia|set_solver].
  - assert (Hb' : forall b n, earlier str best sep = Some (b, n) -> exists sep, sep ∈ SEPARATORS /\ n = length sep /\ startsWith sep (drop b str) = true).
    { intros b n. unfold earlier. destruct (indexOfStr sep str) as [i|] eqn:Ei; [|by apply Hb].
      assert (Hi : exists sep0, sep0 ∈ SEPARATORS /\ length sep = length sep0 /\ startsWith sep0 (drop i str) = true).
      { exists sep. split; [apply Hs; set_solver|]. split; [done|]. destruct (indexOfStr_Some _ _ _ Ei) as [Hx _]. rewrite Hx.
        rewrite drop_app_length' by (rewrite length_take; pose proof (indexOfStr_lt _ _ _ Ei); lia). apply startsWith_app. }
      destruct best as [[b0 n0]|]; [destruct (i <? b0)%nat|]; intros [= <- <-]; [done|by apply Hb|done]. }
    specialize (IH (earlier str best sep) Hb' ltac:(set_solver)).
    destruct (fold_left (earlier str) seps (earlier str best sep)) as [[idx n]|].
    + destruct IH as (H1 & H2 & H3). split; [done|].
      assert (Hfirst : (forall b m, best = Some (b, m) -> (idx <= b)%nat) /\ (forall j, indexOfStr sep str = Some j -> (idx <= j)%nat)).
      { unfold earlier in H2. destruct (indexOfStr sep str) as [i|]; destruct best as [[b0 n0]|];
          try destruct (Nat.ltb_spec i b0); (split; [intros b m [= <- <-]|intros j [= <-]]); specialize (H2 _ _ eq_refl); lia. }
      split; [apply Hfirst|]. intros sep' j [->|Hin]%elem_of_cons Hj; [by apply Hfirst|by eapply H3].
    + destruct IH as [H1 H2]. unfold earlier in H1. destruct (indexOfStr sep str) as [i|] eqn:Ei;
        [destruct best as [[b0 n0]|]; [destruct (i <? b0)%nat|]; done|].
      split; [done|]. intros sep' [->|Hin]%elem_of_cons; [done|by apply H2].
Qed.

(** The header is what stands before the first separator. *)
Lemma splitHeaderBody_spec str :
  (splitHeaderBody str = (str, []) /\ forall sep, sep ∈ SEPARATORS -> indexOfStr sep str = None) \/
  exists idx n, splitHeaderBody str = (take idx str, drop (idx + n) str) /\ atSeparator (drop idx str) /\ (idx <= length str)%nat /\
    forall j, atSeparator (drop j str) -> (j <= length str)%nat -> (idx <= j)%nat.
Proof.
  unfold splitHeaderBody. fold SEPARATORS. pose proof (earlier_fold str SEPARATORS None ltac:(done) ltac:(done)) as H.
  destruct (fold_left _ _ _) as [[idx n]|]; [right|left; by destruct H].
  destruct H as ((sep & Hs & -> & Hat) & _ & Hmin). exists idx, (length sep). split; [done|]. split; [by exists sep|].
  assert (Hfirst : forall j, atSeparator (drop j str) -> (j <= length str)%nat -> (idx <= j)%nat).
  { intros j (sep' & Hs' & Hat') Hj. destruct (indexOfStr_first _ _ _ Hat' Hj) as (i & Hi & Hij). specialize (Hmin _ _ Hs' Hi). lia. }
  split; [|done]. destruct (Nat.le_gt_cases idx (length str)) as [|Hgt]; [done|]. rewrite drop_ge in Hat by lia.
  by apply separator_cases in Hs as [->|[->| ->]].
Qed.

Lemma atSeparator_newline s : atSeparator s -> exists x t, s = x :: t /\ isNewline x = true.
Proof.
  intros (sep & Hs & Hat). destruct s as [|x t].
  - by apply separator_cases in Hs as [->|[->| ->]].
  - exists x, t. split; [done|]. unfold isNewline, CR, LF.
    apply separator_cases in Hs as [->|[->| ->]]; unfold CRLFCRLF, LFLF, CRCR in Hat; cbn [startsWith] in Hat; apply andb_true_iff in Hat as [<-%Z.eqb_eq _]; done.
Qed.

(** The unit behind the end of a line at a separator is a newline again. *)
Lemma atSeparator_after e s : (e = crlf \/ e = [LF] \/ e = [CR]) -> atSeparator (e ++ s) -> exists x t, s = x :: t /\ isNewline x = true.
Proof.
  intros He (sep & Hs & Hat). apply separator_cases in Hs.
  unfold CRLFCRLF, LFLF, CRCR, crlf, CR, LF in *.
  destruct He as [->|[->| ->]]; destruct Hs as [->|[->| ->]]; cbn [app startsWith] in Hat;
    repeat (apply andb_true_iff in Hat as [? Hat]); bool_hyps; try done;
    destruct s as [|x s]; cbn [startsWith] in Hat; try done; repeat (apply andb_true_iff in Hat as [? Hat]);
    exists x, s; (split; [done|]); unfold isNewline, CR, LF; bool_hyps; subst; done.
Qed.

(** Cutting a text of lines at a separator leaves whole lines, and the line behind the cut is not
    folded. *)
Lemma cut_lines ls rest : forall b n, wfLines b ls -> (n <= length (printLines ls))%nat -> atSeparator (drop n (printLines ls ++ rest)) ->
  exists m, map fst (linesOf (take n (printLines ls))) = map fst (take m ls) /\
    match ls !! m with Some l => isFolded l.1 = false | None => True end.
Proof.
  induction ls as [|[c e] ls IH]; intros b n Hwf Hn Hat; [exists 0%nat; cbn in *; by replace n with 0%nat by lia|].
  rewrite printLines_cons in *. pose proof Hwf as (Hok & _ & Hend & Hwf'). cbn [fst snd] in *.
  pose proof Hok as (Hc & He & Hne). cbn [fst snd] in *.
  (* the first content of the rest is empty when the rest starts with a newline *)
  assert (Hnext : forall x t, printLines ls ++ rest = x :: t -> isNewline x = true -> match ls !! 0%nat with Some l => isFolded l.1 = false | None => True end).
  { intros x t Hx Hnl. destruct ls as [|[c1 e1] ls]; [done|]. cbn. rewrite printLines_cons in Hx. destruct Hwf' as ((Hc1 & _) & _). cbn [fst] in Hc1.
    destruct c1 as [|y c1]; [done|]. cbn in Hx. injection Hx as -> _. apply Forall_cons in Hc1 as [Hy _]. congruence. }
  assert (Hc0 : (n < length c)%nat -> False).
  { intros Hlt. destruct (atSeparator_newline _ Hat) as (x & t & Hx & Hnl). rewrite <- app_assoc, drop_app_le in Hx by lia.
    rewrite Forall_forall in Hc. rewrite (Hc x) in Hnl; [done|]. apply list_elem_of_lookup. exists n.
    rewrite <- (Nat.add_0_r n), <- lookup_drop. destruct (drop n c) as [|y d] eqn:Ed; [apply (f_equal length) in Ed; rewrite length_drop in Ed; cbn in Ed; lia|].
    cbn in Hx. injection Hx as -> _. done. }
  destruct (decide (n = length c)) as [->|Hnc].
  { rewrite take_app_length. rewrite <- app_assoc, drop_app_length in Hat. destruct c as [|x c]; [exists 0%nat; done|].
    exists 1%nat. split; [|change (((x :: c, e) :: ls) !! 1%nat) with (ls !! 0%nat)].
    - assert (Hl : linesOf (x :: c) = [(x :: c, [])]).
      { pose proof (linesOf_line (x :: c) [] []) as Hl. rewrite !app_nil_r in Hl. apply Hl; [|done|done]. split; [done|]. split; [auto|by left]. }
      rewrite Hl. done.
    - destruct ls as [|l ls]; [done|]. destruct He as [He|[He|[He|He]]]; [| | |by destruct (Hend ltac:(done))];
        rewrite <- app_assoc in Hat; destruct (atSeparator_after e _ ltac:(tauto) Hat) as (y & t & Hy & Hnl); by eapply Hnext. }
  destruct (decide (n = S (length c) /\ e = crlf)) as [[-> ->]|Hcr].
  { exists 1%nat. replace (take (S (length c)) (c ++ crlf ++ printLines ls)) with (c ++ [CR])
      by (rewrite take_app_ge by lia; by replace (S (length c) - length c)%nat with 1%nat by lia).
    split.
    - rewrite <- (app_nil_r [CR]), (linesOf_line c [CR] []); [done| |done|done]. split; [done|]. split; [auto|by right].
    - change (((c, crlf) :: ls) !! 1%nat) with (ls !! 0%nat). replace (S (length c)) with (length c + 1)%nat in Hat by lia.
      rewrite <- app_assoc, drop_plus_app in Hat. cbn in Hat.
      destruct (atSeparator_after [LF] (printLines ls ++ rest) ltac:(auto) Hat) as (y & t & Hy & Hnl). by eapply Hnext. }
  assert (Hlen : (length (c ++ e) <= n)%nat).
  { rewrite length_app. destruct He as [->|[->|[->| ->]]]; cbn; try lia. assert (n <> S (length c)) by tauto. lia. }
  set (k := (n - length (c ++ e))%nat). assert (Hk : n = (length (c ++ e) + k)%nat) by (unfold k; lia).
  rewrite (app_assoc c e), <- app_assoc, Hk, drop_plus_app in Hat.
  assert (Hk' : (k <= length (printLines ls))%nat) by (rewrite !length_app in *; lia).
  destruct (IH false k Hwf' Hk' Hat) as (m & Hm & Hf). exists (S m). split; [|done].
  assert (Htake : take n (c ++ e ++ printLines ls) = c ++ e ++ take k (printLines ls)).
  { rewrite app_assoc, Hk, take_app_ge by lia. rewrite <- app_assoc. do 3 f_equal. lia. }
  rewrite Htake, linesOf_line; [cbn [map take fst]; by rewrite Hm|done| |].
  - intros Hn0. apply Hend. intros ->. apply Hn0. cbn. by rewrite take_nil.
  - intros ->. destruct ls as [|l ls]; [cbn; by rewrite take_nil|]. destruct k; [done|].
    pose proof (startsLF_printLines l ls (wfLines_ok _ _ _ Hwf')) as Hs. destruct Hwf' as (_ & Hlf & _). rewrite (Hlf eq_refl) in Hs.
    by destruct (printLines (l :: ls)).
Qed.
