(* ===== verification/InboundAuth.v ===== *)
(** * Forged result headers of incoming mail (apps/server/src/inbound-auth.ts)

    A receiving server deletes the result headers that claim to be its own before it adds its own.
    The message is a binary string. *)

From S2P Require Import Prelude JsString JsDate SieveDate MimeHeaders.

(** ** Host identities *)

Fixpoint dropDots (s : jsstr) : jsstr := match s with c :: r => if c =? DOT then dropDots r else s | [] => [] end.

(** [id.trim().toLowerCase().replace(/\.+$/, "")] *)
Definition normalizeHostId (id : jsstr) : jsstr := rev (dropDots (rev (toLowerCase (trim id)))).

(** Comments in parentheses replaced by a space. *)
Fixpoint stripParens (fuel : nat) (s : jsstr) : jsstr :=
  match fuel, s with
  | S f, c :: r =>
      if c =? 40 then
        match indexOf 41 r with
        | Some j => SP :: stripParens f (drop (S j) r)
        | None => c :: stripParens f r
        end
      else c :: stripParens f r
  | _, _ => []
  end.

Definition afterColon (field : jsstr) : jsstr := match indexOf 58 field with Some i => drop (S i) field | None => field end.

Definition authservIdOf (field : jsstr) : jsstr :=
  let value := afterColon field in
  let withoutComments := stripParens (length value) value in
  normalizeHostId (default [] (head (splitOn 59 withoutComments))).

(** ** Removing fields *)

Definition stripHeaderFields (text fieldName : jsstr) (isOurs : jsstr -> bool) : jsstr :=
  let headerText := (splitHeaderBody text).1 in
  let rest := drop (length headerText) text in
  let ours r := bool_decide (name r = Some fieldName) && isOurs (unfolded r) in
  let records := splitHeaderRecords headerText in
  if existsb ours records then concat (map raw (List.filter (fun r => negb (ours r)) records)) ++ rest else text.

Definition stripForgedAuthResults (text authservId : jsstr) : jsstr :=
  let ours := normalizeHostId authservId in
  match ours with
  | [] => text
  | _ => stripHeaderFields text (js "authentication-results") (fun field => authservIdOf field === ours)
  end.

(** [[^;\s] and quote]+ *)
Definition isReceiverChar (c : Z) : bool := negb ((c =? 34) || (c =? 59) || isWs c).
Definition isCommentChar (c : Z) : bool := negb (isWs c || (c =? 58) || (c =? 40) || (c =? 41)).

(** [receiver\s*=\s*(quote)?(name)(quote)?] at the head of a text. *)
Definition receiverAt (s : jsstr) : option jsstr :=
  if startsWithI (js "receiver") s then
    match trimStart (drop 8 s) with
    | 61 :: r =>
        let r := trimStart r in
        let r := match r with 34 :: r' => r' | _ => r end in
        match (spanChars isReceiverChar r).1 with [] => None | id => Some id end
    | _ => None
    end
  else None.

(** The first place, behind the start, a semicolon or white space, where it stands. *)
Fixpoint findReceiver (boundary : bool) (s : jsstr) : option jsstr :=
  match (if boundary then receiverAt s else None), s with
  | Some id, _ => Some id
  | None, c :: r => findReceiver ((c =? 59) || isWs c) r
  | None, [] => None
  end.

(** The name at the head of a comment: behind the parenthesis, before a colon. *)
Fixpoint findComment (s : jsstr) : option jsstr :=
  match s with
  | [] => None
  | c :: r =>
      let here :=
        if c =? 40 then
          let '(id, t) := spanChars isCommentChar (trimStart r) in
          match id, trimStart t with _ :: _, 58 :: _ => Some id | _, _ => None end
        else None in
      match here with Some id => Some id | None => findComment r end
  end.

Definition receivedSpfReceiverId (field : jsstr) : option jsstr :=
  match findReceiver true field with
  | Some id => Some (normalizeHostId id)
  | None => normalizeHostId <$> findComment field
  end.

Definition receivedSpfShouldStrip (field ours : jsstr) : bool :=
  match receivedSpfReceiverId field with None => true | Some id => id === ours end.

Definition stripForgedReceivedSpf (text receiver : jsstr) : jsstr :=
  let ours := normalizeHostId receiver in
  match ours with
  | [] => text
  | _ => stripHeaderFields text (js "received-spf") (fun field => receivedSpfShouldStrip field ours)
  end.

(** ** What the header holds afterwards *)

(** The lines of some of the groups are lines of the whole. *)
Lemma concat_filter_sublist {A} (f : list A -> bool) gs : concat (List.filter f gs) `sublist_of` concat gs.
Proof.
  induction gs as [|g gs IH]; [done|]. cbn [List.filter concat]. destruct (f g); cbn [concat]; [by apply sublist_app|].
  by apply sublist_app_l with (k := g) || (apply (sublist_app [] g); [apply sublist_nil_l|done]).
Qed.

Lemma groups_filter f ls : groups (concat (List.filter f (groups ls))) = List.filter f (groups ls).
Proof.
  destruct (groups_wf ls) as [Hwf _]. destruct (groups ls) as [|g gs]; [done|]. destruct Hwf as (Hg & Hgs & Hp).
  assert (Hf : forall P l, Forall P l -> Forall P (List.filter f l)).
  { intros P l. induction 1 as [|x l Hx _ IH]; cbn; [constructor|]. destruct (f x); [by constructor|done]. }
  cbn [List.filter]. destruct (f g); [cbn [concat]; by apply groups_concat; [|apply Hf..]|].
  pose proof (Hf _ _ Hgs) as H1. pose proof (Hf _ _ Hp) as H2. destruct (List.filter f gs) as [|g' gs']; [done|].
  apply Forall_cons in H1 as [H1 H1'], H2 as [_ H2']. cbn [concat]. by apply groups_concat.
Qed.

(** The unfolded texts depend on the contents of the lines only. *)
Lemma groups_contents ls ls' : map fst ls = map fst ls' ->
  map (fun g => concat (map fst g)) (groups ls) = map (fun g => concat (map fst g)) (groups ls').
Proof.
  unfold groups. revert ls'. induction ls as [|l ls IH] using rev_ind; intros ls' Hl.
  - by destruct ls'.
  - destruct ls' as [|l' ls' _] using rev_ind; [rewrite map_app in Hl; by destruct ls|].
    rewrite !map_app in Hl. apply app_inj_tail in Hl as [Hl He]. rewrite !fold_left_app. cbn [fold_left]. specialize (IH _ Hl).
    set (gs := fold_left pushGroup ls []) in *. set (gs' := fold_left pushGroup ls' []) in *. clearbody gs gs'.
    unfold pushGroup. rewrite He. destruct (last gs) as [g|] eqn:Eg, (last gs') as [g'|] eqn:Eg'.
    + apply last_Some in Eg as [k ->], Eg' as [k' ->]. rewrite !map_app in IH. cbn in IH. apply app_inj_tail in IH as [IH1 IH2].
      destruct (isFolded l'.1); [rewrite !removelast_last, !map_app|rewrite !map_app]; cbn; rewrite ?map_app, ?concat_app; cbn; rewrite ?app_nil_r; congruence.
    + apply last_Some in Eg as [k ->]. apply last_None in Eg' as ->. rewrite map_app in IH. by destruct (map _ k).
    + apply last_None in Eg as ->. apply last_Some in Eg' as [k ->]. rewrite map_app in IH. by destruct (map _ k).
    + rewrite !map_app. cbn. rewrite !app_nil_r. congruence.
Qed.

(** The test of a record looks at its name and its unfolded text. *)
Definition oursOf (fieldName : jsstr) (isOurs : jsstr -> bool) (r : HeaderRecord) : bool :=
  bool_decide (name r = Some fieldName) && isOurs (unfolded r).

Lemma oursOf_unfolded n f r r' : unfolded r = unfolded r' -> name r = name r' -> oursOf n f r = oursOf n f r'.
Proof. unfold oursOf. by intros -> ->. Qed.

Lemma filter_map {A B} (g : A -> B) f l : List.filter f (map g l) = map g (List.filter (fun x => f (g x)) l).
Proof. induction l as [|x l IH]; [done|]. cbn. destruct (f (g x)); cbn; by rewrite IH. Qed.

Lemma printLines_concat gs : concat (map printLines gs) = printLines (concat gs).
Proof. unfold printLines. induction gs as [|g gs IH]; [done|]. cbn. by rewrite map_app, concat_app, IH. Qed.

(** A header holds no empty line. *)
Lemma header_noLFLF text : indexOfStr LFLF (splitHeaderBody text).1 = None.
Proof.
  destruct (splitHeaderBody_spec text) as [[-> H]|(idx & n & -> & Hat & Hle & Hmin)]; cbn [fst]; [apply H; unfold SEPARATORS; set_solver|].
  destruct (indexOfStr LFLF (take idx text)) as [i|] eqn:Ei; [|done]. exfalso.
  pose proof (indexOfStr_lt _ _ _ Ei) as Hlt. destruct (indexOfStr_Some _ _ _ Ei) as [Hs _].
  rewrite length_take in Hlt. cbn in Hlt. enough (idx <= i)%nat by lia. apply Hmin; [|lia]. exists LFLF. split; [unfold SEPARATORS; set_solver|].
  rewrite <- (take_drop idx text), drop_app_le by (rewrite length_take; lia). rewrite Hs at 1.
  rewrite drop_app_length' by (rewrite length_take, length_take; lia). rewrite <- app_assoc. apply startsWith_app.
Qed.

(** What follows the header is nothing or stands at a separator. *)
Lemma header_rest text : exists rest, text = (splitHeaderBody text).1 ++ rest /\ (rest = [] \/ atSeparator rest).
Proof.
  destruct (splitHeaderBody_spec text) as [[-> H]|(idx & n & -> & Hat & Hle & Hmin)]; cbn [fst].
  - exists []. rewrite app_nil_r. auto.
  - exists (drop idx text). rewrite take_drop. auto.
Qed.

(** The header of a text whose header was replaced by other whole lines is a cut of these. *)
Lemma header_cut ls rest b : wfLines b ls -> rest = [] \/ atSeparator rest ->
  exists m, map fst (linesOf (splitHeaderBody (printLines ls ++ rest)).1) = map fst (take m ls) /\
    match ls !! m with Some l => isFolded l.1 = false | None => True end.
Proof.
  intros Hwf Hr. destruct (splitHeaderBody_spec (printLines ls ++ rest)) as [[-> H]|(idx & n & -> & Hat & Hle & Hmin)]; cbn [fst].
  - destruct Hr as [->|(sep & Hsep & Hs)].
    + exists (length ls). rewrite app_nil_r, (linesOf_print _ _ Hwf), take_ge by lia. by rewrite lookup_ge_None_2.
    + exfalso. pose proof (indexOfStr_None _ _ (length (printLines ls)) (H _ Hsep)) as Hf. by rewrite drop_app_length, Hs in Hf.
  - assert (Hidx : (idx <= length (printLines ls))%nat).
    { destruct Hr as [->|Hr]; [by rewrite app_nil_r in Hle|]. apply Hmin; [by rewrite drop_app_length|rewrite length_app; lia]. }
    rewrite take_app_le by done. by eapply cut_lines.
Qed.

(** Cutting before a line that starts a group keeps whole groups. *)
Lemma groups_take ls m : match ls !! m with Some l => isFolded l.1 = false | None => True end ->
  exists gs, groups ls = groups (take m ls) ++ gs.
Proof.
  intros Hm. destruct (ls !! m) as [l|] eqn:El.
  - exists (groups (l :: drop (S m) ls)). rewrite <- groups_app by done. by rewrite take_drop_middle.
  - exists []. rewrite app_nil_r, take_ge; [done|]. by apply lookup_ge_None.
Qed.

Section Strip.
Context (fieldName : jsstr) (isOurs : jsstr -> bool).
Abbreviation ours := (oursOf fieldName isOurs).
Abbreviation recordOf := (fun g => toRecord (partOf g)).

Lemma existsb_keep gs : existsb ours (map recordOf gs) = false -> List.filter (fun g => negb (ours (recordOf g))) gs = gs.
Proof.
  induction gs as [|g gs IH]; [done|]. cbn [map existsb List.filter]. intros [H1 H2]%orb_false_iff. rewrite H1. cbn. by rewrite IH.
Qed.

(** The stripped text is made of lines of the header, in whole groups, and of what followed it. *)
Lemma strip_lines text : exists ls rest, stripHeaderFields text fieldName isOurs = printLines ls ++ rest
  /\ wfLines true ls /\ (rest = [] \/ atSeparator rest)
  /\ groups ls = List.filter (fun g => negb (ours (recordOf g))) (groups (linesOf (splitHeaderBody text).1)).
Proof.
  destruct (header_rest text) as (rest & Htext & Hrest). set (H := (splitHeaderBody text).1) in *.
  pose proof (linesOf_wf true H (header_noLFLF text) ltac:(done)) as Hwf. set (keep g := negb (ours (recordOf g))).
  exists (concat (List.filter keep (groups (linesOf H)))), rest. split; [|split; [|split; [done|apply groups_filter]]].
  - unfold stripHeaderFields. fold H. rewrite records_groups. change (fun r => bool_decide _ && _) with ours.
    rewrite filter_map, map_map, <- printLines_concat. fold keep. rewrite Htext at 1. rewrite drop_app_length.
    destruct (existsb _ _) eqn:E; [done|]. rewrite Htext. f_equal. unfold keep. rewrite existsb_keep by done.
    rewrite printLines_concat. destruct (groups_wf (linesOf H)) as [_ ->]. symmetry. apply linesOf_concat.
  - eapply wfLines_sublist; [apply concat_filter_sublist|]. by destruct (groups_wf (linesOf H)) as [_ ->].
Qed.

(** The header of the stripped text, read again, holds records that stood in the header before, and
    none that is to be removed. *)
Lemma strip_records text r : r ∈ splitHeaderRecords (splitHeaderBody (stripHeaderFields text fieldName isOurs)).1 ->
  ours r = false /\ exists r', r' ∈ splitHeaderRecords (splitHeaderBody text).1 /\ unfolded r' = unfolded r /\ name r' = name r.
Proof.
  destruct (strip_lines text) as (ls & rest & -> & Hwf & Hrest & Hg). destruct (header_cut ls rest true Hwf Hrest) as (m & Hm & Hf).
  destruct (groups_take ls m Hf) as (gs & Hgs). rewrite !records_groups. intros (g & -> & Hin)%list_elem_of_fmap.
  apply groups_contents in Hm. assert (Hu : concat (map fst g) ∈ map (fun g => concat (map fst g)) (groups (take m ls)))
    by (rewrite <- Hm; by apply (list_elem_of_fmap_2 (fun g : list Line => concat (map fst g)))).
  apply list_elem_of_fmap in Hu as (g' & Hu & Hin').
  assert (Hk : In g' (List.filter (fun g => negb (ours (recordOf g))) (groups (linesOf (splitHeaderBody text).1))))
    by (rewrite <- Hg, Hgs; apply in_or_app; left; by apply list_elem_of_In).
  apply filter_In in Hk as [Hk1 Hk2%negb_true_iff]. apply list_elem_of_In in Hk1. split.
  - rewrite <- Hk2. apply oursOf_unfolded; unfold partOf, toRecord; cbn [unfolded name snd]; by rewrite Hu.
  - exists (recordOf g'). split; [by apply (list_elem_of_fmap_2 recordOf)|]. unfold partOf, toRecord; cbn [unfolded name snd]. by rewrite Hu.
Qed.
End Strip.

(** The two strips as the delivery runs them. *)
Definition stripForged (text host : jsstr) : jsstr := stripForgedReceivedSpf (stripForgedAuthResults text host) host.

(** The records of the header, as the parser of messages reads it. *)
Definition headerRecords (text : jsstr) : list HeaderRecord := splitHeaderRecords (splitHeaderBody text).1.

(** The header of a message after both strips, split again the way the parser of messages splits it
    (so a cut the removal itself moves is counted), has no Authentication-Results field of our
    identity, and no Received-SPF field of that receiver or of no receiver at all. *)
Lemma stripForged_none text host r : normalizeHostId host <> [] -> r ∈ headerRecords (stripForged text host) ->
  (name r = Some (js "authentication-results") -> authservIdOf (unfolded r) <> normalizeHostId host) /\
  (name r = Some (js "received-spf") -> exists id, receivedSpfReceiverId (unfolded r) = Some id /\ id <> normalizeHostId host).
Proof.
  intros Hh Hr. unfold stripForged, stripForgedReceivedSpf, stripForgedAuthResults, headerRecords in Hr.
  destruct (normalizeHostId host) as [|c h] eqn:E; [done|].
  apply strip_records in Hr as [Hs (r' & Hr' & Hu & Hn)]. apply strip_records in Hr' as [Ha _].
  unfold oursOf in Hs, Ha. rewrite Hu, Hn in Ha. split; intros Hname.
  - intros Ho. rewrite Hname, Ho in Ha. rewrite bool_decide_true in Ha by done. by rewrite seqb_refl in Ha.
  - rewrite Hname, bool_decide_true in Hs by done. unfold receivedSpfShouldStrip in Hs. cbn [andb] in Hs.
    destruct (receivedSpfReceiverId (unfolded r)) as [id|]; [|done]. exists id. split; [done|]. intros ->. by rewrite seqb_refl in Hs.
Qed.
