(* ===== verification/Trace.v ===== *)
(** * Trace and result headers (packages/core/src/received.ts, packages/mail-auth/src/authres.ts,
      apps/server/src/inbound-auth.ts, apps/server/src/backend.ts)

    The headers a receiving server puts in front of a message, made of values the sender chose:
    the guard these pass through, the three builders, and how the result reads once it is in front
    of the message. *)

From S2P Require Import Prelude JsString JsDate SieveDate Text MimeHeaders InboundAuth.

(** ** Guarded values *)

Definition isControl (c : Z) : bool := (c <? 32) || (c =? 127).

Definition headerSafeTokenMax (value : option jsstr) (maxLen : Z) : option jsstr :=
  match value with
  | None => None
  | Some value =>
      let v := trim value in
      if (len v =? 0) || (maxLen <? len v) then None
      else if existsb isControl v then None
      else if existsb (fun c => (c =? 40) || (c =? 41)) v then None
      else if existsb (fun c => (c =? 34) || (c =? 92)) v then None
      else Some v
  end.

Definition headerSafeToken (value : option jsstr) : option jsstr := headerSafeTokenMax value 255.

(** ** Received *)

Inductive ReceivedTransport := Esmtp | Lmtp.

Record TlsInfo := mkTlsInfo { protocol : option jsstr; cipher : option jsstr }.

(** [date] is the time value, [None] the one of an invalid date. *)
Record ReceivedInfo := mkReceived {
  transport : ReceivedTransport; heloName : option jsstr; clientIp : option jsstr; by_ : jsstr; id : option jsstr;
  forRecipient : option jsstr; tls : option TlsInfo; authenticated : bool; date : option Z }.

Definition withKeyword (t : ReceivedTransport) (tls authenticated : bool) : jsstr :=
  (match t with Lmtp => js "LMTP" | Esmtp => js "ESMTP" end) ++ (if tls then js "S" else []) ++ (if authenticated then js "A" else []).

Definition pad2 (n : option Z) : jsstr :=
  match n with Some z => if z <? 10 then 48 :: numToString z else numToString z | None => js "NaN" end.

(** [Date.prototype.getTimezoneOffset], in minutes: the zone of the server. *)
Class LocalZone := { getTimezoneOffset : Z -> Z }.

Section Builders.
Context `{LocalZone}.

(** The local fields are the UTC fields of the shifted time. *)
Definition rfc5322Date (d : option Z) : jsstr :=
  let offsetMin := (fun t => - getTimezoneOffset t) <$> d in
  let local := (fun t => t - getTimezoneOffset t * 60000) <$> d in
  let sign := match offsetMin with Some o => if o <? 0 then 45 else 43 | None => 43 end in
  let abs := Z.abs <$> offsetMin in
  nameOf DAYS (utcDay <$> local) ++ js ", " ++ showNum (utcDate <$> local) ++ [SP] ++ nameOf MONTHS (utcMonth <$> local) ++ [SP] ++
  showNum (utcFullYear <$> local) ++ [SP] ++
  pad2 (utcHours <$> local) ++ [58] ++ pad2 (utcMinutes <$> local) ++ [58] ++ pad2 (utcSeconds <$> local) ++ [SP] ++
  sign :: pad2 ((fun a => a / 60) <$> abs) ++ pad2 ((fun a => a mod 60) <$> abs).

(** A fold: a line end and a tab. *)
Definition FOLD : jsstr := [13; 10; 9].

(** The clauses of the header, in order; the values are guarded already. *)
Definition fromClause (helo ip : option jsstr) : list jsstr :=
  match helo, ip with
  | Some h, Some i => [js "from " ++ h ++ js " ([" ++ i ++ js "])"]
  | Some h, None => [js "from " ++ h]
  | None, Some i => [js "from [" ++ i ++ js "]"]
  | None, None => []
  end.

Definition tlsClause (version cipher : option jsstr) : list jsstr :=
  match version, cipher with
  | None, None => []
  | _, _ =>
      let bits := (match version with Some v => [js "version=" ++ v] | None => [] end) ++
                  (match cipher with Some c => [js "cipher=" ++ c] | None => [] end) in
      [40 :: joinWith [SP] bits ++ [41]]
  end.

Definition buildReceivedHeader (info : ReceivedInfo) : jsstr :=
  let helo := headerSafeToken (heloName info) in
  let ip := headerSafeTokenMax (clientIp info) 64 in
  let by_ := default (js "localhost") (headerSafeToken (Some (by_ info))) in
  let id := headerSafeTokenMax (id info) 64 in
  let rcpt := headerSafeTokenMax (forRecipient info) 320 in
  let tlsVersion := headerSafeTokenMax (tls info ≫= protocol) 32 in
  let tlsCipher := headerSafeTokenMax (tls info ≫= cipher) 64 in
  let parts :=
    fromClause helo ip ++
    [js "by " ++ by_] ++
    [js "with " ++ withKeyword (transport info) (bool_decide (is_Some (tls info))) (authenticated info)] ++
    (match id with Some i => [js "id " ++ i] | None => [] end) ++
    tlsClause tlsVersion tlsCipher ++
    (match rcpt with Some r => [js "for <" ++ r ++ js ">"] | None => [] end) in
  js "Received: " ++ joinWith FOLD parts ++ js ";" ++ FOLD ++ rfc5322Date (date info).
End Builders.

(** ** Received-SPF *)

Inductive SpfResultValue := SpfNone | SpfNeutral | SpfPass | SpfFail | SpfSoftfail | SpfTemperror | SpfPermerror.

Definition spfResultName (r : SpfResultValue) : jsstr :=
  match r with
  | SpfNone => js "none" | SpfNeutral => js "neutral" | SpfPass => js "pass" | SpfFail => js "fail"
  | SpfSoftfail => js "softfail" | SpfTemperror => js "temperror" | SpfPermerror => js "permerror"
  end.

Record ReceivedSpfInput := mkReceivedSpf {
  s_result : SpfResultValue; s_receiver : jsstr; s_clientIp : jsstr; s_heloName : jsstr; s_mailFrom : jsstr; s_domain : jsstr }.

Definition spfComment (input : ReceivedSpfInput) (sender ip : jsstr) : jsstr :=
  s_receiver input ++ js ": " ++
  match s_result input with
  | SpfPass => js "domain of " ++ sender ++ js " designates " ++ ip ++ js " as permitted sender"
  | SpfFail => js "domain of " ++ sender ++ js " does not designate " ++ ip ++ js " as permitted sender"
  | SpfSoftfail => js "transitioning domain of " ++ sender ++ js " does not designate " ++ ip ++ js " as permitted sender"
  | SpfNeutral => ip ++ js " is neither permitted nor denied by domain of " ++ sender
  | SpfNone => sender ++ js " does not designate permitted sender hosts"
  | SpfTemperror => js "error in processing during lookup of " ++ sender
  | SpfPermerror => js "permanent error in processing during lookup of " ++ sender
  end.

Definition buildReceivedSpf (input : ReceivedSpfInput) : jsstr :=
  let receiver := default (js "localhost") (headerSafeToken (Some (s_receiver input))) in
  let ip := headerSafeTokenMax (Some (s_clientIp input)) 64 in
  let helo := headerSafeToken (Some (s_heloName input)) in
  let from := headerSafeTokenMax (Some (s_mailFrom input)) 320 in
  let identity := match s_mailFrom input with [] => js "helo" | _ => js "mailfrom" end in
  let sender :=
    match from, headerSafeToken (Some (s_domain input)), helo with
    | Some f, _, _ => f | None, Some d, _ => d | None, None, Some h => h | None, None, None => js "unknown"
    end in
  let pairs :=
    [js "receiver=" ++ receiver] ++
    (match ip with Some i => [js "client-ip=" ++ i] | None => [] end) ++
    [js "envelope-from=" ++ [34] ++ default (js "<>") from ++ [34]] ++
    (match helo with Some h => [js "helo=" ++ h] | None => [] end) ++
    [js "identity=" ++ identity] in
  js "Received-SPF: " ++ spfResultName (s_result input) ++ js " (" ++ spfComment input sender (default (js "unknown") ip) ++ js ")" ++
  FOLD ++ joinWith (js "; ") pairs.

(** ** Authentication-Results *)

Inductive DkimVerifyOutcome := DkimPass | DkimFail | DkimTemperror | DkimPermerror.
Inductive DmarcResultValue := DmarcNone | DmarcPass | DmarcFail | DmarcTemperror | DmarcPermerror.

Definition dkimOutcomeName (r : DkimVerifyOutcome) : jsstr :=
  match r with DkimPass => js "pass" | DkimFail => js "fail" | DkimTemperror => js "temperror" | DkimPermerror => js "permerror" end.
Definition dmarcResultName (r : DmarcResultValue) : jsstr :=
  match r with
  | DmarcNone => js "none" | DmarcPass => js "pass" | DmarcFail => js "fail" | DmarcTemperror => js "temperror" | DmarcPermerror => js "permerror"
  end.

Record AuthResultsSpfInput := mkArSpf { ars_result : SpfResultValue; ars_domain : jsstr; ars_helo : bool }.
Record DkimVerifyResult := mkDkim { d_result : DkimVerifyOutcome; d_domain : jsstr; d_selector : jsstr; d_algorithm : option jsstr }.
Record AuthResultsDmarcInput := mkArDmarc { ard_result : DmarcResultValue; ard_fromDomain : jsstr }.

Record AuthResultsInput := mkAr {
  ar_spf : option AuthResultsSpfInput; ar_dkim : option (list DkimVerifyResult); ar_dmarc : option AuthResultsDmarcInput }.

Definition spfClause (spf : AuthResultsSpfInput) : jsstr :=
  js "spf=" ++ spfResultName (ars_result spf) ++ [SP] ++ (if ars_helo spf then js "smtp.helo" else js "smtp.mailfrom") ++ js "=" ++ ars_domain spf.

(** An empty text counts as absent. *)
Definition whenSet (prefix v : jsstr) : list jsstr := match v with [] => [] | _ => [prefix ++ v] end.

Definition dkimClause (d : DkimVerifyResult) : jsstr :=
  joinWith [SP] ([js "dkim=" ++ dkimOutcomeName (d_result d)] ++ whenSet (js "header.d=") (d_domain d) ++
    whenSet (js "header.s=") (d_selector d) ++ whenSet (js "header.a=") (default [] (d_algorithm d))).

Definition dmarcClause (d : AuthResultsDmarcInput) : jsstr :=
  js "dmarc=" ++ dmarcResultName (ard_result d) ++ js " header.from=" ++ ard_fromDomain d.

Definition arClauses (input : AuthResultsInput) : list jsstr :=
  (match ar_spf input with Some s => [spfClause s] | None => [] end) ++
  (match ar_dkim input with Some [] => [js "dkim=none"] | Some ds => map dkimClause ds | None => [] end) ++
  (match ar_dmarc input with Some d => [dmarcClause d] | None => [] end).

Definition buildAuthenticationResults (authservId : jsstr) (input : AuthResultsInput) : jsstr :=
  match arClauses input with
  | [] => authservId ++ js "; none"
  | clauses => authservId ++ js "; " ++ joinWith (js "; ") clauses
  end.

Definition SPF_CODE (r : SpfResultValue) : Z :=
  match r with SpfNone => 0 | SpfPass => 1 | SpfFail => 2 | SpfSoftfail => 3 | SpfNeutral => 4 | SpfTemperror => 5 | SpfPermerror => 6 end.
Definition DKIM_CODE (r : DkimVerifyOutcome) : Z := match r with DkimPass => 1 | DkimFail => 2 | DkimTemperror => 5 | DkimPermerror => 6 end.
Definition DMARC_CODE (r : DmarcResultValue) : Z :=
  match r with DmarcNone => 0 | DmarcPass => 1 | DmarcFail => 2 | DmarcTemperror => 5 | DmarcPermerror => 6 end.

Record StorageCodes := mkCodes { c_spf : option Z; c_dkim : Z; c_dmarc : Z }.

(** For DKIM, [None] is the outcome "none": no signature. *)
Definition mapToStorageCodes (spf : option SpfResultValue) (dkim : option DkimVerifyOutcome) (dmarc : DmarcResultValue) : StorageCodes :=
  {| c_spf := SPF_CODE <$> spf; c_dkim := match dkim with None => 0 | Some d => DKIM_CODE d end; c_dmarc := DMARC_CODE dmarc |}.

(** ** In front of the message *)

Definition prependHeaderBytes (raw : bytes) (headerLine : jsstr) : bytes := utf8Encode (headerLine ++ crlf) ++ raw.

Definition prependAuthResults (authResults : jsstr) (raw : bytes) : bytes :=
  utf8Encode (js "Authentication-Results: " ++ authResults ++ crlf) ++ raw.

(** ** Texts of one line *)

Definition oneLine (s : jsstr) : Prop := Forall (fun c => isNewline c = false) s.

Create HintDb oneline.

Lemma oneLine_app a b : oneLine a -> oneLine b -> oneLine (a ++ b).
Proof. intros. by apply Forall_app. Qed.

Lemma oneLine_cons c s : isNewline c = false -> oneLine s -> oneLine (c :: s).
Proof. by constructor. Qed.

Lemma oneLine_join sep ls : oneLine sep -> Forall oneLine ls -> oneLine (joinWith sep ls).
Proof.
  intros Hs Hl. induction Hl as [|x l Hx Hl IH]; [constructor|]. destruct l; cbn in *; [done|]. apply oneLine_app; [done|]. by apply oneLine_app.
Qed.

Lemma oneLine_digits s : Forall (fun c => isDigit c = true) s -> oneLine s.
Proof.
  intros Hd. unfold oneLine. eapply Forall_impl; [exact Hd|]. cbn. intros c Hc. unfold isDigit, isNewline, CR, LF in *.
  apply andb_true_iff in Hc as [Hc%Z.leb_le _]. apply orb_false_iff. split; apply Z.eqb_neq; lia.
Qed.

Lemma oneLine_numToString n : oneLine (numToString n).
Proof. unfold numToString. destruct (n <? 0); [apply oneLine_cons; [done|]|]; by apply oneLine_digits, decDigits_digits. Qed.

#[export] Hint Resolve oneLine_app oneLine_cons oneLine_join oneLine_numToString : oneline.
#[export] Hint Extern 1 (oneLine (js _)) => by vm_compute; repeat constructor : oneline.
#[export] Hint Extern 1 (oneLine []) => constructor : oneline.

Lemma oneLine_safe v m w : headerSafeTokenMax v m = Some w -> oneLine w.
Proof.
  unfold headerSafeTokenMax. destruct v as [v|]; [|done]. case_match; [done|]. destruct (existsb isControl (trim v)) eqn:E; [done|].
  case_match; [done|]. case_match; [done|]. intros [= <-]. apply Forall_forall. intros c Hc%list_elem_of_In.
  destruct (isNewline c) eqn:En; [|done]. rewrite <- E. symmetry. apply existsb_exists. exists c. split; [done|].
  unfold isNewline, isControl, CR, LF in *. apply orb_true_iff in En as [->%Z.eqb_eq| ->%Z.eqb_eq]; done.
Qed.

(** ** Reading a header that was put in front *)

Definition startsNewline (s : jsstr) : bool := match s with c :: _ => isNewline c | [] => false end.

Lemma atSeparator_line c text j : oneLine c -> startsNewline text = false -> atSeparator (drop j (c ++ crlf ++ text)) ->
  exists k, j = (length (c ++ crlf) + k)%nat /\ atSeparator (drop k text).
Proof.
  intros Hc Ht Hat.
  assert (Hnext : forall e, e = crlf \/ e = [LF] -> atSeparator (e ++ text) -> False).
  { intros e He Hs. destruct (atSeparator_after e text ltac:(tauto) Hs) as (x & t & -> & Hx). cbn in Ht. congruence. }
  destruct (Nat.lt_trichotomy j (length c)) as [Hlt|[->|Hgt]].
  - exfalso. destruct (atSeparator_newline _ Hat) as (x & t & Hx & Hnl). rewrite drop_app_le in Hx by lia.
    destruct (drop j c) as [|y d] eqn:Ed; [apply (f_equal length) in Ed; rewrite length_drop in Ed; cbn in Ed; lia|].
    injection Hx as -> _. assert (Hin : x ∈ take j c ++ drop j c) by (rewrite Ed; set_solver). rewrite take_drop in Hin.
    unfold oneLine in Hc. rewrite Forall_forall in Hc. rewrite (Hc _ Hin) in Hnl. done.
  - exfalso. rewrite drop_app_length in Hat. by eapply Hnext; [left|].
  - destruct (decide (j = S (length c))) as [->|].
    + exfalso. replace (S (length c)) with (length c + 1)%nat in Hat by lia. rewrite drop_plus_app in Hat. by eapply (Hnext [LF]); [right|].
    + exists (j - length (c ++ crlf))%nat. rewrite length_app. cbn [length crlf]. split; [lia|].
      replace j with (length (c ++ crlf) + (j - length (c ++ crlf)))%nat in Hat by (rewrite length_app; cbn; lia).
      rewrite app_assoc, drop_plus_app in Hat. by rewrite length_app in Hat.
Qed.

(** A line in front of a text that does not start with a line end moves the end of the header by its
    length. *)
Lemma splitHeaderBody_line c text : oneLine c -> startsNewline text = false ->
  (splitHeaderBody (c ++ crlf ++ text)).1 = c ++ crlf ++ (splitHeaderBody text).1.
Proof.
  intros Hc Ht. destruct (splitHeaderBody_spec text) as [[-> H2]|(i2 & n2 & -> & Hat2 & Hle2 & Hmin2)];
    destruct (splitHeaderBody_spec (c ++ crlf ++ text)) as [[-> H1]|(i1 & n1 & -> & Hat1 & Hle1 & Hmin1)]; cbn [fst]; [done| | |].
  - exfalso. destruct (atSeparator_line _ _ _ Hc Ht Hat1) as (k & -> & sep & Hs & Hk). by rewrite (indexOfStr_None _ _ _ (H2 _ Hs)) in Hk.
  - exfalso. destruct Hat2 as (sep & Hs & Hk). pose proof (indexOfStr_None _ _ (length (c ++ crlf) + i2) (H1 _ Hs)) as Hf.
    by rewrite app_assoc, drop_plus_app, Hk in Hf.
  - destruct (atSeparator_line _ _ _ Hc Ht Hat1) as (k & -> & Hk).
    assert (Hk2 : (i2 <= k)%nat) by (apply Hmin2; [done|]; rewrite app_assoc, (length_app (c ++ crlf)) in Hle1; lia).
    assert (Hk1 : (length (c ++ crlf) + k <= length (c ++ crlf) + i2)%nat).
    { apply Hmin1; [by rewrite app_assoc, drop_plus_app|]. rewrite app_assoc, (length_app (c ++ crlf)). lia. }
    replace k with i2 by lia. rewrite !app_assoc. rewrite take_app_ge by lia. do 2 f_equal. lia.
Qed.

(** The lines of a folded header, each with its end. *)
Fixpoint foldLines (p : jsstr) (ps : list jsstr) : list Line :=
  match ps with [] => [(p, crlf)] | q :: qs => (p, crlf) :: foldLines (TAB :: q) qs end.

Lemma foldLines_print p ps : printLines (foldLines p ps) = joinWith FOLD (p :: ps) ++ crlf.
Proof.
  revert p. induction ps as [|q ps IH]; intros p; cbn [foldLines]; rewrite printLines_cons; [done|]. rewrite IH.
  change (joinWith FOLD (p :: q :: ps)) with (p ++ FOLD ++ joinWith FOLD (q :: ps)). destruct ps; cbn [joinWith]; by rewrite <- !app_assoc.
Qed.

Lemma foldLines_unfolded p ps : concat (map fst (foldLines p ps)) = p ++ flat_map (cons TAB) ps.
Proof. revert p. induction ps as [|q ps IH]; intros p; cbn; [by rewrite app_nil_r|]. by rewrite IH. Qed.

Lemma foldLines_group p ps : isGroup (foldLines p ps).
Proof.
  assert (Hf : forall ps q, Forall (fun l => isFolded l.1 = true) (foldLines (TAB :: q) ps))
    by (clear; induction ps as [|q' ps IH]; intros q; repeat constructor; apply IH).
  destruct ps as [|q ps]; cbn; [constructor|apply Hf].
Qed.

(** Every line has its end, and the next one does not start with a line feed. *)
Lemma linesOf_fold p ps text : oneLine p -> Forall oneLine ps -> linesOf (printLines (foldLines p ps) ++ text) = foldLines p ps ++ linesOf text.
Proof.
  intros Hp Hps. revert p Hp. induction Hps as [|q ps Hq Hps IH]; intros p Hp; cbn [foldLines]; rewrite printLines_cons, <- !app_assoc.
  - rewrite linesOf_line; [done| |done|done]. split; [done|]. split; [auto|by right].
  - rewrite linesOf_line; [cbn [app]; f_equal; apply IH; by apply oneLine_cons| |done|done]. split; [done|]. split; [auto|by right].
Qed.

Lemma splitHeaderBody_fold p ps text : oneLine p -> Forall oneLine ps -> startsNewline text = false ->
  (splitHeaderBody (printLines (foldLines p ps) ++ text)).1 = printLines (foldLines p ps) ++ (splitHeaderBody text).1.
Proof.
  intros Hp Hps Ht. revert p Hp. induction Hps as [|q ps Hq Hps IH]; intros p Hp; cbn [foldLines]; rewrite printLines_cons, <- !app_assoc.
  - rewrite !app_nil_l. by apply splitHeaderBody_line.
  - rewrite splitHeaderBody_line; [|done|]; [do 2 f_equal; apply IH; by apply oneLine_cons|].
    destruct ps; cbn [foldLines]; by rewrite printLines_cons.
Qed.

(** A text that goes on a header: not a fold, not a line end. *)
Definition startsField (s : jsstr) : bool := match s with c :: _ => negb ((c =? SP) || (c =? TAB) || isNewline c) | [] => true end.

Lemma startsField_header text : startsField text = true -> startsNewline text = false /\
  match linesOf (splitHeaderBody text).1 with l :: _ => isFolded l.1 = false | [] => True end.
Proof.
  intros Hs. assert (Ht : startsNewline text = false).
  { destruct text as [|c t]; [done|]. cbn in *. destruct (isNewline c); [|done]. by rewrite orb_true_r in Hs. }
  split; [done|]. destruct (header_rest text) as (rest & He & _). destruct (splitHeaderBody text).1 as [|c h]; [done|].
  rewrite linesOf_cons. rewrite He in Hs, Ht. cbn in Hs, Ht. cbn [spanLine]. rewrite Ht. destruct (spanLine h) as [l t]. cbn [fst].
  unfold isFolded. cbn [startsWith]. rewrite negb_true_iff, !orb_false_iff in Hs. destruct Hs as [[H1 H2] _].
  by rewrite (Z.eqb_sym SP), (Z.eqb_sym TAB), H1, H2.
Qed.

(** A header in front of a message is one record before those of the message. *)
Lemma prepend_records p ps text : oneLine p -> Forall oneLine ps -> startsField text = true ->
  headerRecords (joinWith FOLD (p :: ps) ++ crlf ++ text) =
  toRecord (joinWith FOLD (p :: ps) ++ crlf, p ++ flat_map (cons TAB) ps) :: headerRecords text.
Proof.
  intros Hp Hps Ht. destruct (startsField_header _ Ht) as [Hn Hl]. unfold headerRecords.
  rewrite app_assoc, <- foldLines_print, splitHeaderBody_fold, !records_groups, linesOf_fold by done.
  assert (Hg : toRecord (printLines (foldLines p ps), p ++ flat_map (cons TAB) ps) = toRecord (partOf (foldLines p ps)))
    by (unfold partOf; by rewrite foldLines_unfolded).
  rewrite Hg. assert (Hone : groups (foldLines p ps) = [foldLines p ps]).
  { rewrite <- (app_nil_r (foldLines p ps)) at 1. change (@nil Line) with (concat (@nil (list Line))). apply groups_concat; [apply foldLines_group|constructor..]. }
  destruct (linesOf (splitHeaderBody text).1) as [|l ls]; [by rewrite app_nil_r, Hone|]. by rewrite groups_app, Hone by done.
Qed.

(** ** Encoding *)

(** Bytes beyond ASCII are no line ends. *)
Lemma utf8Scalar_line c : isNewline c = false -> oneLine (utf8Scalar c).
Proof.
  intros Hn. unfold utf8Scalar.
  assert (Hb : forall b, 128 <= b -> isNewline b = false) by (intros b Hb; unfold isNewline, CR, LF; apply orb_false_iff; split; apply Z.eqb_neq; lia).
  destruct (Z.ltb_spec c 0x80); [by repeat constructor|].
  repeat case_match; repeat apply oneLine_cons; try constructor; apply Hb; Z.to_euclidean_division_equations; lia.
Qed.

Lemma scalars_line s : oneLine s -> oneLine (scalars s).
Proof.
  induction s as [s IH] using (induction_ltof1 _ (@length Z)). unfold ltof in IH. destruct s as [|u s]; [done|].
  intros [Hu Hs]%Forall_cons. pose proof (IH s ltac:(cbn; lia) Hs) as IH1. cbn [scalars].
  destruct (isHigh u) eqn:Eh; [|destruct (isLow u); by apply oneLine_cons].
  destruct s as [|v s]; [by repeat constructor|]. destruct (isLow v) eqn:El; [|by apply oneLine_cons].
  apply Forall_cons in Hs as [_ Hs]. apply oneLine_cons; [|by apply IH; [cbn; lia|]].
  unfold isHigh, isLow, isNewline, CR, LF in *. rewrite !andb_true_iff, !Z.leb_le in *. apply orb_false_iff. split; apply Z.eqb_neq; lia.
Qed.

Lemma utf8Encode_line s : oneLine s -> oneLine (utf8Encode s).
Proof.
  intros Hs%scalars_line. unfold utf8Encode. induction Hs as [|c l Hc _ IH]; [constructor|]. cbn. apply oneLine_app; [by apply utf8Scalar_line|done].
Qed.

Lemma utf8Encode_fold p ps : utf8Encode (joinWith FOLD (p :: ps) ++ crlf) = joinWith FOLD (map utf8Encode (p :: ps)) ++ crlf.
Proof.
  revert p. induction ps as [|q ps IH]; intros p; [cbn [joinWith map]; unfold crlf, CR, LF; by rewrite utf8Encode_app_ascii, utf8Encode_cons_ascii by lia|].
  change (joinWith FOLD (p :: q :: ps)) with (p ++ 13 :: 10 :: 9 :: joinWith FOLD (q :: ps)).
  change (joinWith FOLD (map utf8Encode (p :: q :: ps))) with (utf8Encode p ++ 13 :: 10 :: 9 :: joinWith FOLD (map utf8Encode (q :: ps))).
  rewrite <- !app_assoc. cbn [app]. rewrite utf8Encode_app_ascii by lia.
  by rewrite !utf8Encode_cons_ascii, IH by lia.
Qed.

Lemma headerFieldName_colon n x : 58 ∉ n -> n <> [] -> headerFieldName (n ++ 58 :: x) =
  if isFieldName (toLowerCase (trim n)) then Some (toLowerCase (trim n)) else None.
Proof.
  intros Hn Hne. unfold headerFieldName. rewrite indexOf_app_notin by done.
  rewrite take_app_length. by destruct n.
Qed.

(** ** One header, one record *)

(** A field of a name, folded or not. *)
Definition isField (n hd : jsstr) : Prop :=
  exists p ps, hd = joinWith FOLD ((n ++ 58 :: p) :: ps) /\ oneLine p /\ Forall oneLine ps.

Lemma isField_folded n pre ls post d : ls <> [] -> Forall oneLine (pre :: post :: d :: ls) ->
  isField n ((n ++ 58 :: pre) ++ joinWith FOLD ls ++ post ++ FOLD ++ d).
Proof.
  intros Hne Hf. repeat (apply Forall_cons in Hf as [? Hf]).
  enough (He : exists p ps, joinWith FOLD ls ++ post ++ FOLD ++ d = joinWith FOLD (p :: ps) /\ oneLine p /\ Forall oneLine ps).
  { destruct He as (p & ps & -> & Hp & Hps). exists (pre ++ p), ps. split; [|split; [by apply oneLine_app|done]].
    destruct ps; cbn [joinWith]; rewrite <- !app_assoc; cbn [app]; by rewrite <- ?app_assoc. }
  destruct ls as [|p ls]; [done|]. apply Forall_cons in Hf as [Hp Hl]. clear Hne. revert p Hp. induction Hl as [|q ls Hq Hl IH]; intros p Hp.
  - exists (p ++ post), [d]. cbn [joinWith]. rewrite <- app_assoc. split; [done|]. split; [by apply oneLine_app|by repeat constructor].
  - destruct (IH q Hq) as (p' & ps & He & Hp' & Hps). exists p, (p' :: ps). split; [|split; [done|by constructor]].
    change (joinWith FOLD (p :: q :: ls)) with (p ++ FOLD ++ joinWith FOLD (q :: ls)). rewrite <- !app_assoc, He. done.
Qed.

(** A name a field can have, and the name it is found by. *)
Definition fieldNameOK (n key : jsstr) : bool := isFieldName n && isFieldName (toLowerCase (trim n)) && (toLowerCase (trim n) === key).

Lemma isFieldName_chars n : isFieldName n = true -> is_ascii n /\ oneLine n /\ 58 ∉ n /\ n <> [] /\ startsField n = true.
Proof.
  intros Hn. assert (Hf : Forall (fun c => 33 <= c <= 126 /\ c <> 58) n).
  { destruct n; [done|]. unfold isFieldName in Hn. rewrite forallb_forall in Hn. apply Forall_forall. intros c Hc%list_elem_of_In.
    specialize (Hn _ Hc). unfold isFieldNameChar in Hn. rewrite !andb_true_iff, !Z.leb_le, negb_true_iff, Z.eqb_neq in Hn. lia. }
  assert (Hnl : forall c, 33 <= c <= 126 /\ c <> 58 -> (c =? SP) || (c =? TAB) || isNewline c = false)
    by (intros c Hc; unfold isNewline, SP, TAB, CR, LF; rewrite !orb_false_iff, !Z.eqb_neq; lia).
  repeat split.
  - eapply Forall_impl; [exact Hf|]. cbn. lia.
  - eapply Forall_impl; [exact Hf|]. cbn. intros c Hc%Hnl. by apply orb_false_iff in Hc as [_ Hc].
  - intros Hin. rewrite Forall_forall in Hf. by apply (Hf _ Hin).
  - by intros ->.
  - destruct Hf as [|c l Hc]; [done|]. cbn. by rewrite (Hnl _ Hc).
Qed.

(** A field in front of the header of a message is one record in front of its records. *)
Lemma prepend_field n key hd text own h : isField n hd -> fieldNameOK n key = true -> startsField text = true -> headerRecords text = own ++ h ->
  startsField (prependHeaderBytes text hd) = true /\
  exists r, headerRecords (prependHeaderBytes text hd) = (r :: own) ++ h /\ name r = Some key /\ raw r = utf8Encode (hd ++ crlf).
Proof.
  intros (p & ps & -> & Hp & Hps) Hok Ht Hh. unfold fieldNameOK in Hok. apply andb_true_iff in Hok as [[Hn Hl]%andb_true_iff <-%seqb_eq].
  destruct (isFieldName_chars _ Hn) as (Ha & Ho & Hc & Hne & Hs). unfold prependHeaderBytes. rewrite utf8Encode_fold. cbn [map].
  rewrite utf8Encode_prefix, utf8Encode_cons_ascii by (done || lia). split.
  - destruct n; [done|]. by destruct ps.
  - rewrite <- app_assoc, prepend_records; [|by auto using utf8Encode_line with oneline| |done].
    + eexists. split; [cbn [app]; by rewrite Hh|]. split; [|done].
      cbn [name toRecord fst snd]. rewrite <- app_assoc. cbn [app]. rewrite headerFieldName_colon, Hl by done. done.
    + apply Forall_map. eapply Forall_impl; [exact Hps|]. apply utf8Encode_line.
Qed.

Lemma oneLine_default v m d : oneLine d -> oneLine (default d (headerSafeTokenMax v m)).
Proof. intros Hd. destruct (headerSafeTokenMax v m) as [w|] eqn:E; [by eapply oneLine_safe|done]. Qed.

Lemma oneLine_nameOf names n : Forall oneLine names -> oneLine (nameOf names n).
Proof.
  intros Hn. unfold nameOf. destruct n as [z|]; [|by vm_compute; repeat constructor]. cbn.
  destruct (names !! Z.to_nat z) eqn:E; [|by vm_compute; repeat constructor]. cbn. by eapply Forall_lookup_1.
Qed.

Lemma oneLine_showNum n : oneLine (showNum n).
Proof. destruct n; [apply oneLine_numToString|by vm_compute; repeat constructor]. Qed.

Lemma oneLine_pad2 n : oneLine (pad2 n).
Proof. destruct n as [z|]; [|by vm_compute; repeat constructor]. cbn. destruct (z <? 10); auto with oneline. Qed.

#[export] Hint Resolve oneLine_default oneLine_nameOf oneLine_showNum oneLine_pad2 oneLine_safe : oneline.
#[export] Hint Extern 1 (Forall oneLine DAYS) => by vm_compute; repeat constructor : oneline.
#[export] Hint Extern 1 (Forall oneLine MONTHS) => by vm_compute; repeat constructor : oneline.

Lemma oneLine_date `{LocalZone} d : oneLine (rfc5322Date d).
Proof. unfold rfc5322Date. repeat apply oneLine_app; auto 8 with oneline. apply oneLine_cons; [by repeat case_match|auto with oneline]. Qed.

Lemma oneLines_cons x l : oneLine x -> Forall oneLine l -> Forall oneLine (x :: l).
Proof. by constructor. Qed.

Lemma oneLines_app a b : Forall oneLine a -> Forall oneLine b -> Forall oneLine (a ++ b).
Proof. intros. by apply Forall_app. Qed.

Lemma oneLines_nil : Forall oneLine [].
Proof. constructor. Qed.

#[export] Hint Resolve oneLines_cons oneLines_app oneLines_nil oneLine_date : oneline.

Lemma oneLine_keyword t a b : oneLine (withKeyword t a b).
Proof. destruct t, a, b; vm_compute; repeat constructor. Qed.

#[export] Hint Resolve oneLine_keyword : oneline.

(** Case analysis on the guarded values, then the hints. *)
Ltac guarded :=
  unfold headerSafeToken;
  repeat match goal with
  | |- context [match headerSafeTokenMax ?v ?m with _ => _ end] =>
      let E := fresh in destruct (headerSafeTokenMax v m) eqn:E; [apply oneLine_safe in E|]
  end; eauto 20 with oneline.

Lemma received_isField `{LocalZone} info : isField (js "Received") (buildReceivedHeader info).
Proof.
  unfold buildReceivedHeader, fromClause, tlsClause. change (js "Received: ") with (js "Received" ++ 58 :: [SP]).
  apply isField_folded; [repeat case_match; done|].
  repeat (apply oneLines_cons; [auto with oneline|]). repeat apply oneLines_app; guarded.
Qed.

Lemma oneLine_comment input sender ip : oneLine (s_receiver input) -> oneLine sender -> oneLine ip -> oneLine (spfComment input sender ip).
Proof. intros Hr Hs Hi. unfold spfComment. repeat apply oneLine_app; try done; [auto with oneline|]. destruct (s_result input); eauto 8 with oneline. Qed.

(** A field of a value and one fold. *)
Lemma isField_two n a b c e d : Forall oneLine [a; b; c; e; d] -> isField n ((n ++ 58 :: [SP]) ++ a ++ b ++ c ++ e ++ FOLD ++ d).
Proof.
  intros Hf. repeat (apply Forall_cons in Hf as [? Hf]). exists (SP :: a ++ b ++ c ++ e), [d].
  split; [cbn [joinWith]; rewrite <- !app_assoc; cbn [app]; by rewrite <- !app_assoc|]. auto 8 with oneline.
Qed.

Lemma receivedSpf_isField input : oneLine (s_receiver input) -> isField (js "Received-SPF") (buildReceivedSpf input).
Proof.
  intros Hr. unfold buildReceivedSpf. cbv zeta. change (js "Received-SPF: ") with (js "Received-SPF" ++ 58 :: [SP]). apply isField_two.
  apply oneLines_cons; [by destruct (s_result input); vm_compute; repeat constructor|].
  apply oneLines_cons; [auto with oneline|]. apply oneLines_cons; [apply oneLine_comment; [done| |auto with oneline]; guarded|].
  apply oneLines_cons; [auto with oneline|]. apply oneLines_cons; [|auto with oneline]. apply oneLine_join; [auto with oneline|].
  assert (Hid : oneLine (match s_mailFrom input with [] => js "helo" | _ => js "mailfrom" end)) by (case_match; auto with oneline).
  repeat apply oneLines_app; guarded.
Qed.

(** ** The headers of a stored message (prepareInbound) *)

(** What the authentication of a message gave: the value of the result header, and the input of
    Received-SPF if SPF was evaluated. *)
Record AuthOutcome := mkAuth { a_results : jsstr; a_spf : option ReceivedSpfInput }.

Section Stored.
Context `{LocalZone}.

(** Without a resolver there is no outcome.  The rest of [prepareInbound] leaves these bytes alone. *)
Definition storedMessage (raw : bytes) (authservId : jsstr) (auth : option AuthOutcome) (info : ReceivedInfo) : bytes :=
  let stored := stripForged raw authservId in
  let stored := match auth with Some a => prependAuthResults (a_results a) stored | None => stored end in
  let stored := prependHeaderBytes stored (buildReceivedHeader info) in
  match auth ≫= a_spf with Some s => prependHeaderBytes stored (buildReceivedSpf s) | None => stored end.

Definition ownNames (auth : option AuthOutcome) : list (option jsstr) :=
  (match auth ≫= a_spf with Some _ => [Some (js "received-spf")] | None => [] end) ++ [Some (js "received")] ++
  (match auth with Some _ => [Some (js "authentication-results")] | None => [] end).

(** The headers of the outcome are texts of one line. *)
Definition oneLineOutcome (a : AuthOutcome) : Prop :=
  oneLine (a_results a) /\ match a_spf a with Some s => oneLine (s_receiver s) | None => True end.

Lemma prependAuthResults_bytes ar raw : prependAuthResults ar raw = prependHeaderBytes raw (js "Authentication-Results: " ++ ar).
Proof. unfold prependAuthResults, prependHeaderBytes. by rewrite <- app_assoc. Qed.

(** The fields of the server stand in front, each as one record. *)
Lemma stored_records raw host auth info : (forall a, auth = Some a -> oneLineOutcome a) -> startsField (stripForged raw host) = true ->
  exists own, headerRecords (storedMessage raw host auth info) = own ++ headerRecords (stripForged raw host) /\ map name own = ownNames auth.
Proof.
  intros Ha Ht. unfold storedMessage, ownNames. set (s0 := stripForged raw host) in *. pose proof (received_isField info) as Hrec.
  destruct auth as [a|]; cbn [mbind option_bind].
  - destruct (Ha _ eq_refl) as [Har Hspf]. rewrite prependAuthResults_bytes.
    assert (Hf : isField (js "Authentication-Results") (js "Authentication-Results: " ++ a_results a))
      by (exists (SP :: a_results a), []; split; [done|]; auto with oneline).
    destruct (prepend_field _ (js "authentication-results") _ _ [] _ Hf eq_refl Ht eq_refl) as (H1 & r1 & E1 & N1 & _).
    destruct (prepend_field _ (js "received") _ _ _ _ Hrec eq_refl H1 E1) as (H2 & r2 & E2 & N2 & _).
    destruct (a_spf a) as [s|]; [|exists [r2; r1]; cbn [map app]; by rewrite E2, N1, N2].
    destruct (prepend_field _ (js "received-spf") _ _ _ _ (receivedSpf_isField s Hspf) eq_refl H2 E2) as (_ & r3 & E3 & N3 & _).
    exists [r3; r2; r1]. cbn [map app]. by rewrite E3, N1, N2, N3.
  - destruct (prepend_field _ (js "received") _ _ [] _ Hrec eq_refl Ht eq_refl) as (_ & r & E & N & _). exists [r]. cbn [map app]. by rewrite E, N.
Qed.

End Stored.

(** ** Examples *)

Definition UTC : LocalZone := {| getTimezoneOffset := fun _ => 0 |}.

Definition exampleInfo : ReceivedInfo :=
  {| transport := Esmtp; heloName := Some (js "evil" ++ crlf ++ js "Bcc: x@y"); clientIp := Some (js "192.0.2.7"); by_ := js "mx.test"; id := Some (js "01X");
     forRecipient := None; tls := None; authenticated := false; date := Some 0 |}.

Definition exampleAuth : AuthOutcome :=
  {| a_results := js "mx.test; spf=fail smtp.mailfrom=evil.test; dkim=none; dmarc=fail header.from=bank.test";
     a_spf := Some {| s_result := SpfFail; s_receiver := js "mx.test"; s_clientIp := js "192.0.2.7"; s_heloName := js "evil"; s_mailFrom := js "a@evil.test";
                      s_domain := js "evil.test" |} |}.

(** A message that claims to have passed, in a second field and behind a fold. *)
Definition exampleRaw : bytes :=
  js "From: ceo@bank.test" ++ crlf ++ js "Authentication-Results:" ++ crlf ++ js " MX.test.; dmarc=pass" ++ crlf ++
  js "Received-SPF: pass" ++ crlf ++ js "Subject: hi" ++ crlf ++ crlf ++ js "body".


Example storedMessage_names :
  map name (headerRecords (storedMessage (H := UTC) exampleRaw (js "mx.test") (Some exampleAuth) exampleInfo)) =
  [Some (js "received-spf"); Some (js "received"); Some (js "authentication-results"); Some (js "from"); Some (js "subject")].
Proof. vm_compute. reflexivity. Qed.

(** ** Where the code falls short *)

(** A message whose first line is a fold continues the result header the server puts in front: its
    text reads as part of our own verdict. *)
Definition foldedRaw : bytes := js " ; dmarc=pass header.from=bank.test" ++ crlf ++ js "From: ceo@bank.test" ++ crlf ++ crlf.

Lemma inbound_fold_forges :
  map unfolded (headerRecords (prependAuthResults (js "mx.test; dmarc=fail header.from=bank.test") (stripForged foldedRaw (js "mx.test")))) =
  [js "Authentication-Results: mx.test; dmarc=fail header.from=bank.test ; dmarc=pass header.from=bank.test"; js "From: ceo@bank.test"].
Proof. vm_compute. reflexivity. Qed.

(** The name a client gives in HELO goes into the result header unguarded. *)
Lemma authres_helo_forges :
  buildAuthenticationResults (js "mx.test")
    {| ar_spf := Some {| ars_result := SpfNone; ars_domain := js "x;dmarc=pass"; ars_helo := true |}; ar_dkim := None; ar_dmarc := None |} =
  js "mx.test; spf=none smtp.helo=x;dmarc=pass".
Proof. vm_compute. reflexivity. Qed.

(** Removing the last field of a header moves a line end into the body; removing the one in front of
    another line end cuts the header short. *)
Lemma strip_moves_body :
  splitHeaderBody (stripForgedAuthResults (js "A: 1" ++ crlf ++ js "Authentication-Results: mx.test; x" ++ crlf ++ crlf ++ js "body") (js "mx.test")) =
  (js "A: 1", crlf ++ js "body").
Proof. vm_compute. reflexivity. Qed.
