(* ===== verification/MimeAddress.v ===== *)
(** * Address lists (packages/mime/src/address.ts)

    The practical parser of From, To, Cc and the like: entries separated at the top level, groups,
    comments, display names.  Whatever the header holds, it gives a bounded list of normalised
    addresses. *)

From S2P Require Import Prelude JsString.

Definition MAX_ADDRESSES_PER_HEADER : nat := 256.

Definition QUOTE : Z := 34.
Definition BACKSLASH : Z := 92.

Record ParsedAddress := mkAddress { a_name : option jsstr; email : jsstr }.

(** ** Entries *)

(** The quote at [ch] ends a quoted text unless a backslash stands before it. *)
Definition closesQuote (prev ch : Z) : bool := (ch =? QUOTE) && negb (prev =? BACKSLASH).

(** The loop of [splitAddressEntries]: the unit before, the flags, the text so far. *)
Fixpoint splitEntries (prev : Z) (inQuotes : bool) (angleDepth : nat) (inGroup : bool) (current s : jsstr) : list jsstr :=
  match s with
  | [] => match trim current with [] => [] | _ => [current] end
  | ch :: r =>
      let keep := current ++ [ch] in
      if inQuotes then splitEntries ch (negb (closesQuote prev ch)) angleDepth inGroup keep r
      else if ch =? QUOTE then splitEntries ch true angleDepth inGroup keep r
      else if ch =? 60 then splitEntries ch false (S angleDepth) inGroup keep r
      else if ch =? 62 then splitEntries ch false (pred angleDepth) inGroup keep r
      else if (ch =? 58) && (angleDepth =? 0)%nat && negb inGroup then splitEntries ch false angleDepth true keep r
      else if (ch =? 59) && inGroup then keep :: splitEntries ch false angleDepth false [] r
      else if (ch =? 44) && (angleDepth =? 0)%nat && negb inGroup then current :: splitEntries ch false angleDepth inGroup [] r
      else splitEntries ch false angleDepth inGroup keep r
  end.

Definition nonEmpty (s : jsstr) : bool := match s with [] => false | _ => true end.

Definition splitAddressEntries (input : jsstr) : list jsstr :=
  List.filter nonEmpty (map trim (splitEntries 0 false 0 false [] input)).

Fixpoint topLevelColon (prev : Z) (inQuotes : bool) (angleDepth : nat) (s : jsstr) : option nat :=
  match s with
  | [] => None
  | ch :: r =>
      if inQuotes then S <$> topLevelColon ch (negb (closesQuote prev ch)) angleDepth r
      else if ch =? QUOTE then S <$> topLevelColon ch true angleDepth r
      else if ch =? 60 then S <$> topLevelColon ch false (S angleDepth) r
      else if ch =? 62 then S <$> topLevelColon ch false (pred angleDepth) r
      else if (ch =? 58) && (angleDepth =? 0)%nat then Some O
      else S <$> topLevelColon ch false angleDepth r
  end.

Definition findTopLevelColon (s : jsstr) : option nat := topLevelColon 0 false 0 s.

(** ** One mailbox *)

Fixpoint stripCommentsLoop (prev : Z) (inQuotes : bool) (depth : nat) (s : jsstr) : jsstr :=
  match s with
  | [] => []
  | ch :: r =>
      if negb inQuotes && (ch =? QUOTE) then ch :: stripCommentsLoop ch true depth r
      else if inQuotes then ch :: stripCommentsLoop ch (negb (closesQuote prev ch)) depth r
      else if ch =? 40 then stripCommentsLoop ch false (S depth) r
      else if ch =? 41 then stripCommentsLoop ch false (pred depth) r
      else if (0 <? depth)%nat then stripCommentsLoop ch false depth r
      else ch :: stripCommentsLoop ch false depth r
  end.

Definition stripComments (s : jsstr) : jsstr := stripCommentsLoop 0 false 0 s.

(** The text between the quotes of a text that is quoted as a whole and has no line ends. *)
Definition quotedText (s : jsstr) : option jsstr :=
  match s with
  | 34 :: r =>
      match rev r with
      | 34 :: m => if forallb (fun c => negb (isLineTerminator c)) m then Some (rev m) else None
      | _ => None
      end
  | _ => None
  end.

(** A backslash and a unit that is no line end give the unit. *)
Fixpoint unescape (s : jsstr) : jsstr :=
  match s with
  | 92 :: ((c :: r) as t) => if isLineTerminator c then 92 :: unescape t else c :: unescape r
  | c :: r => c :: unescape r
  | [] => []
  end.

Definition extractDisplayName (namePart : jsstr) : option jsstr :=
  match trim namePart with
  | [] => None
  | s =>
      let s := match quotedText s with Some m => unescape m | None => s end in
      match trim s with [] => None | s => Some s end
  end.

(** White space and the delimiters of an address list. *)
Definition isDelimiter (c : Z) : bool :=
  isWs c || (c =? 60) || (c =? 62) || (c =? 44) || (c =? 59) || (c =? 58) || (c =? QUOTE).

Definition normalizeEmail (addr : jsstr) : option jsstr :=
  let s := trim addr in
  match lastIndexOf 64 s with
  | None | Some O => None
  | Some at_ =>
      if (at_ =? length s - 1)%nat then None
      else
        let local := take at_ s in
        let domain := drop (S at_) s in
        if existsb isDelimiter local || existsb isDelimiter domain then None
        else Some (toLowerCase local ++ [64] ++ toLowerCase domain)
  end.

(** The name and the address of a text that ends in angle brackets: the last bracket opens, and the
    one that closes is followed by white space only. *)
Definition angleMatch (entry : jsstr) : option (jsstr * jsstr) :=
  match lastIndexOf 60 entry with
  | None => None
  | Some i =>
      let rest := drop (S i) entry in
      match indexOf 62 rest with
      | Some j =>
          if forallb (fun c => negb (isLineTerminator c)) (take i entry) && forallb isWs (drop (S j) rest)
          then Some (take i entry, take j rest) else None
      | None => None
      end
  end.

Definition parseSingleMailbox (raw : jsstr) : option ParsedAddress :=
  match trim (stripComments raw) with
  | [] => None
  | entry =>
      match angleMatch entry with
      | Some (n, addr) =>
          match normalizeEmail addr with Some e => Some {| a_name := extractDisplayName n; email := e |} | None => None end
      | None => match normalizeEmail entry with Some e => Some {| a_name := None; email := e |} | None => None end
      end
  end.

Definition toList {A} (o : option A) : list A := match o with Some a => [a] | None => [] end.

Definition parseSingleOrGroup (entry : jsstr) : list ParsedAddress :=
  match findTopLevelColon entry with
  | None => toList (parseSingleMailbox entry)
  | Some colonIdx =>
      let inner := trim (drop (S colonIdx) entry) in
      let inner := if endsWith1 59 inner then take (length inner - 1) inner else inner in
      match trim inner with
      | [] => []
      | _ => flat_map (fun m => toList (parseSingleMailbox (trim m))) (splitOn 44 inner)
      end
  end.

(** The two loops with their early return. *)
Fixpoint pushAddresses (out new : list ParsedAddress) : list ParsedAddress * bool :=
  match new with
  | [] => (out, false)
  | a :: r => let out := out ++ [a] in if (MAX_ADDRESSES_PER_HEADER <=? length out)%nat then (out, true) else pushAddresses out r
  end.

Fixpoint addressLoop (out : list ParsedAddress) (entries : list jsstr) : list ParsedAddress :=
  match entries with
  | [] => out
  | e :: r => let '(out, done) := pushAddresses out (parseSingleOrGroup e) in if done then out else addressLoop out r
  end.

Definition parseAddressList (raw : option jsstr) : list ParsedAddress :=
  match raw with None | Some [] => [] | Some raw => addressLoop [] (splitAddressEntries raw) end.

Definition emails (raw : jsstr) : list jsstr := map email (parseAddressList (Some raw)).

Example parse_ex1 : parseAddressList (Some (js "Kim <A@B.Example>, team: x@y, (note) z@w;, <bad>, q@r")) =
  [mkAddress (Some (js "Kim")) (js "a@b.example"); mkAddress None (js "x@y"); mkAddress None (js "z@w"); mkAddress None (js "q@r")].
Proof. vm_compute. reflexivity. Qed.

(** ** Addresses are well-formed *)

(** A local part and a domain around the last at sign, both there, in lower case, without white space
    or a delimiter of address lists. *)
Definition wfEmail (e : jsstr) : Prop := exists l d,
  e = l ++ 64 :: d /\ l <> [] /\ d <> [] /\ 64 ∉ d /\ Forall (fun c => isDelimiter c = false /\ ~ (65 <= c <= 90)) (l ++ d).

Lemma lowerUnit_address c x : isDelimiter c = false -> x ∈ lowerUnit c -> isDelimiter x = false /\ ~ (65 <= x <= 90) /\ (x = 64 -> c = 64).
Proof.
  intros Hc Hx. unfold lowerUnit in Hx.
  destruct ((65 <=? c) && (c <=? 90)) eqn:E1; [|destruct ((192 <=? c) && (c <=? 222) && negb (c =? 215)) eqn:E2;
    [|destruct (c =? 304) eqn:E3; [|destruct (c =? 8490) eqn:E4; [|destruct (c =? 8491) eqn:E5]]]];
    rewrite ?elem_of_cons, ?elem_of_nil in Hx.
  all: rewrite ?andb_true_iff, ?andb_false_iff, ?Z.leb_le, ?Z.leb_gt in *.
  - assert (x = c + 32) as -> by tauto. split; [|lia]. unfold isDelimiter, isWs, QUOTE.
    rewrite !orb_false_iff, !andb_false_iff, !Z.eqb_neq, !Z.leb_gt. lia.
  - assert (x = c + 32) as -> by tauto. split; [|lia]. unfold isDelimiter, isWs, QUOTE.
    rewrite !orb_false_iff, !andb_false_iff, !Z.eqb_neq, !Z.leb_gt. lia.
  - destruct Hx as [->|[->|[]]]; (split; [done|lia]).
  - destruct Hx as [->|[]]; (split; [done|lia]).
  - destruct Hx as [->|[]]; (split; [done|lia]).
  - destruct Hx as [->|[]]; split; [done|]. split; [|done]. lia.
Qed.

Lemma lower_address s : existsb isDelimiter s = false ->
  Forall (fun c => isDelimiter c = false /\ ~ (65 <= c <= 90)) (toLowerCase s) /\ (64 ∉ s -> 64 ∉ toLowerCase s) /\ (s <> [] -> toLowerCase s <> []).
Proof.
  unfold toLowerCase. induction s as [|c s IH]; [by repeat split; [constructor|..]|]. cbn [existsb flat_map]. intros [Hc Hs]%orb_false_iff.
  destruct (IH Hs) as (H1 & H2 & _). split; [|split].
  - apply Forall_app. split; [|done]. apply Forall_forall. intros x Hx. by destruct (lowerUnit_address c x Hc Hx) as (? & ? & _).
  - intros [Hn Hn']%not_elem_of_cons [Hx|Hx]%elem_of_app; [|by apply H2]. apply Hn. symmetry. by destruct (lowerUnit_address c 64 Hc Hx) as (_ & _ & ->).
  - intros _ He. apply app_eq_nil in He as [He _]. unfold lowerUnit in He. by repeat case_match.
Qed.

Lemma normalizeEmail_wf addr e : normalizeEmail addr = Some e -> wfEmail e.
Proof.
  unfold normalizeEmail. destruct (lastIndexOf 64 (trim addr)) as [i|] eqn:Ei; [|done].
  destruct (lastIndexOf_Some _ _ _ Ei) as (a & b & Hs & Hb & ->). rewrite Hs. destruct a as [|x a]; [done|].
  rewrite length_app. cbn [length]. destruct (Nat.eqb_spec (S (length a)) (S (length a) + S (length b) - 1)); [done|].
  change (S (length a)) with (length (x :: a)). rewrite take_app_length, drop_after.
  destruct (existsb isDelimiter (x :: a)) eqn:Ea, (existsb isDelimiter b) eqn:Eb; try done. cbn [orb]. intros [= <-].
  destruct (lower_address _ Ea) as (H1 & _ & H2), (lower_address _ Eb) as (H3 & H4 & H5).
  eexists _, _. split; [done|]. split; [by apply H2|]. split; [apply H5; intros ->; cbn in *; lia|]. split; [by apply H4|by apply Forall_app].
Qed.

Lemma parseSingleMailbox_wf raw a : parseSingleMailbox raw = Some a -> wfEmail (email a).
Proof.
  unfold parseSingleMailbox. destruct (trim (stripComments raw)) as [|c s]; [done|].
  destruct (angleMatch (c :: s)) as [[n addr]|]; (destruct (normalizeEmail _) as [e|] eqn:E; [|done]);
    intros [= <-]; by eapply normalizeEmail_wf.
Qed.

Lemma parseSingleOrGroup_wf entry : Forall (fun a => wfEmail (email a)) (parseSingleOrGroup entry).
Proof.
  assert (H1 : forall s, Forall (fun a => wfEmail (email a)) (toList (parseSingleMailbox s))).
  { intros s. destruct (parseSingleMailbox s) eqn:E; cbn; repeat constructor. by eapply parseSingleMailbox_wf. }
  unfold parseSingleOrGroup. destruct (findTopLevelColon entry); [|apply H1]. set (inner := if endsWith1 59 _ then _ else _).
  destruct (trim inner); [constructor|]. induction (splitOn 44 inner) as [|m ms IH]; [constructor|]. cbn. by apply Forall_app.
Qed.

Lemma pushAddresses_spec new out : let '(out', full) := pushAddresses out new in
  (length out < MAX_ADDRESSES_PER_HEADER -> length out' <= MAX_ADDRESSES_PER_HEADER /\ (full = false -> length out' < MAX_ADDRESSES_PER_HEADER))%nat /\
  (Forall (fun a => wfEmail (email a)) (out ++ new) -> Forall (fun a => wfEmail (email a)) out').
Proof.
  revert out. induction new as [|a r IH]; intros out; cbn [pushAddresses]; [rewrite app_nil_r; split; [lia|done]|].
  destruct (Nat.leb_spec MAX_ADDRESSES_PER_HEADER (length (out ++ [a]))) as [Hle|Hgt].
  - rewrite length_app in *. cbn in *. split; [split; [lia|done]|]. rewrite (app_assoc out [a] r : out ++ a :: r = _). by intros [? _]%Forall_app.
  - specialize (IH (out ++ [a])). destruct (pushAddresses (out ++ [a]) r) as [out' full]. rewrite <- app_assoc in IH.
    split; [intros _; by apply IH|by apply IH].
Qed.

(** C40: The addresses of a header, whatever it holds, are few and well-formed: at most 256, each a
    local part and a domain that are not empty, in lower case, around the last at sign, without white
    space, line ends, quotes or the delimiters of address lists. *)
Theorem mime_addresses_wf raw :
  (length (parseAddressList raw) <= MAX_ADDRESSES_PER_HEADER)%nat /\ Forall (fun a => wfEmail (email a)) (parseAddressList raw).
Proof.
  assert (Hloop : forall es out, (length out < MAX_ADDRESSES_PER_HEADER)%nat -> Forall (fun a => wfEmail (email a)) out ->
    (length (addressLoop out es) <= MAX_ADDRESSES_PER_HEADER)%nat /\ Forall (fun a => wfEmail (email a)) (addressLoop out es)).
  { induction es as [|e es IH]; intros out Hl Hf; cbn [addressLoop]; [split; [lia|done]|].
    pose proof (pushAddresses_spec (parseSingleOrGroup e) out) as Hp. destruct (pushAddresses out (parseSingleOrGroup e)) as [out' full].
    destruct Hp as [H1 H2]. destruct (H1 Hl) as [H3 H4]. assert (Hf' : Forall (fun a => wfEmail (email a)) out')
      by (apply H2, Forall_app; split; [done|apply parseSingleOrGroup_wf]).
    destruct full; [done|]. apply IH; [by apply H4|done]. }
  destruct raw as [[|c s]|]; cbn [parseAddressList]; try (split; [cbn; lia|constructor]). apply Hloop; [cbn; unfold MAX_ADDRESSES_PER_HEADER; lia|constructor].
Qed.
