(* ===== verification/MimeFields.v ===== *)
(** * Message ids, subjects and dates (packages/mime/src/ids.ts, subject.ts, date.ts) *)

From S2P Require Import Prelude JsString JsDate SieveDate Scram Hash MimeHeaders Trace.

(** ** Message ids *)

Definition MAX_THREAD_REFS : nat := 64.

Definition notAngle (c : Z) : bool := negb ((c =? 60) || (c =? 62)).

(** [/<([^<>]+)>/]: the first match, and what follows it. *)
Fixpoint findAngle (s : jsstr) : option (jsstr * jsstr) :=
  match s with
  | [] => None
  | c :: r =>
      let here := if c =? 60 then match spanChars notAngle r with ((_ :: _) as m, 62 :: t) => Some (m, t) | _ => None end else None in
      match here with Some x => Some x | None => findAngle r end
  end.

Definition extractMsgId (raw : jsstr) : option jsstr :=
  match findAngle raw with
  | Some (m, _) => Some (trim m)
  | None => match trim raw with [] => None | t => Some t end
  end.

Fixpoint msgIdLoop (fuel : nat) (s : jsstr) : list jsstr :=
  match fuel with
  | O => []
  | S f => match findAngle s with Some (m, t) => trim m :: msgIdLoop f t | None => [] end
  end.

Definition extractMsgIdList (raw : option jsstr) : list jsstr :=
  match raw with Some s => msgIdLoop (length s) s | None => [] end.

Section Refs.
Context `{NodeCrypto}.

(** The set [seen] holds the hashes that were pushed. *)
Fixpoint refLoop (hashes ids : list jsstr) : list jsstr :=
  match ids with
  | [] => hashes
  | id :: r =>
      let h := sha256hex32 id in
      if existsb (fun x => x === h) hashes then refLoop hashes r
      else
        let hashes := hashes ++ [h] in
        if (MAX_THREAD_REFS <=? length hashes)%nat then hashes else refLoop hashes r
  end.

Definition computeThreadRefHashes (messageId : option jsstr) (inReplyTo references : list jsstr) : list jsstr :=
  let ids := (match messageId with Some m => [m] | None => [] end) ++ inReplyTo ++ references in
  refLoop [] (List.filter (fun v => match v with [] => false | _ => true end) ids).
End Refs.

(** ** Subjects *)

Definition MAX_LEN : nat := 190.

Definition PREFIXES : list jsstr := [js "re"; js "fw"; js "fwd"; js "aw"; js "antwort"].

(** The counter of [Re[2]:]. *)
Definition dropCounter (s : jsstr) : jsstr :=
  match s with
  | 91 :: r => match spanChars isDigit r with (_ :: _, 93 :: t) => t | _ => s end
  | _ => s
  end.

Definition afterKeyword (k s : jsstr) : option jsstr :=
  if startsWithI k s then
    match trimStart (dropCounter (drop (length k) s)) with 58 :: r => Some (trimStart r) | _ => None end
  else None.

Fixpoint firstSome {A B} (f : A -> option B) (l : list A) : option B :=
  match l with [] => None | x :: r => match f x with Some y => Some y | None => firstSome f r end end.

(** One match of [PREFIX_RE] at the head: what follows it. *)
Definition matchPrefix (s : jsstr) : option jsstr := firstSome (fun k => afterKeyword k (trimStart s)) PREFIXES.

Fixpoint dropPrefixes (fuel : nat) (s : jsstr) : jsstr :=
  match fuel with
  | O => s
  | S f => match matchPrefix s with Some r => dropPrefixes f r | None => s end
  end.

(** [s.replace(/\s+/g, " ")] *)
Fixpoint collapseWs (inWs : bool) (s : jsstr) : jsstr :=
  match s with
  | [] => []
  | c :: r => if isWs c then (if inWs then collapseWs true r else SP :: collapseWs true r) else c :: collapseWs false r
  end.

Definition computeSubjectBase (subject : jsstr) : jsstr :=
  take MAX_LEN (trim (collapseWs false (dropPrefixes (length subject) subject))).

(** ** Dates *)

Definition isAlpha (c : Z) : bool := ((65 <=? c) && (c <=? 90)) || ((97 <=? c) && (c <=? 122)).

Definition MONTH_KEYS : list jsstr :=
  map js ["jan"; "feb"; "mar"; "apr"; "may"; "jun"; "jul"; "aug"; "sep"; "oct"; "nov"; "dec"]%string.

Fixpoint indexIn (k : jsstr) (l : list jsstr) : option Z :=
  match l with [] => None | x :: r => if x === k then Some 0 else Z.succ <$> indexIn k r end.

Definition OBS_ZONES : list (jsstr * Z) :=
  [(js "ut", 0); (js "gmt", 0); (js "est", -5 * 60); (js "edt", -4 * 60); (js "cst", -6 * 60); (js "cdt", -5 * 60);
   (js "mst", -7 * 60); (js "mdt", -6 * 60); (js "pst", -8 * 60); (js "pdt", -7 * 60)].

(** A run of units of a class, of a length between bounds. *)
Definition spanN (p : Z -> bool) (lo hi : nat) (s : jsstr) : option (jsstr * jsstr) :=
  let '(a, t) := spanChars p s in
  if (lo <=? length a)%nat && (length a <=? hi)%nat then Some (a, t) else None.

(** At least one unit of white space. *)
Definition skipWs1 (s : jsstr) : option jsstr := match s with c :: _ => if isWs c then Some (trimStart s) else None | [] => None end.

Definition expect (c : Z) (s : jsstr) : option jsstr := match s with x :: r => if x =? c then Some r else None | [] => None end.

(** [(?:[A-Za-z]{3,9}\s*,\s* )?] *)
Definition skipWeekday (s : jsstr) : option jsstr :=
  match s with
  | c :: _ =>
      if isAlpha c then
        match spanN isAlpha 3 9 s with
        | Some (_, t) => trimStart <$> expect 44 (trimStart t)
        | None => None
        end
      else Some s
  | [] => Some s
  end.

Definition skipComment (s : jsstr) : option jsstr :=
  match s with
  | 40 :: r => match indexOf 41 r with Some j => Some (drop (S j) r) | None => None end
  | _ => Some s
  end.

(** The zone that ends the text, if there is one. *)
Definition matchZone (s : jsstr) : option (option jsstr) :=
  match s with
  | [] => Some None
  | c :: r =>
      if (c =? 43) || (c =? 45) then
        match spanN isDigit 4 4 r with Some (d, t) => if forallb isWs t then Some (Some (c :: d)) else None | None => None end
      else match spanN isAlpha 1 5 s with Some (z, t) => if forallb isWs t then Some (Some z) else None | None => None end
  end.

Record DateMatch := mkDateMatch {
  dayS : jsstr; monS : jsstr; yearS : jsstr; hS : jsstr; minS : jsstr; secS : option jsstr; zoneS : option jsstr }.

(** [DATE_RE] on a trimmed text.  Each run is maximal: what follows it in the expression starts with
    a unit the run cannot hold. *)
Definition matchDate (s : jsstr) : option DateMatch :=
  s ← skipWeekday s;
  '(d, s) ← spanN isDigit 1 2 s;
  s ← skipWs1 s;
  '(mon, s) ← (let '(a, t) := spanChars isAlpha s in if (3 <=? length a)%nat then Some (a, t) else None);
  s ← skipWs1 s;
  '(y, s) ← spanN isDigit 2 4 s;
  s ← skipWs1 s;
  '(h, s) ← spanN isDigit 1 2 s;
  s ← expect 58 s;
  '(mi, s) ← spanN isDigit 2 2 s;
  '(sec, s) ← (match s with
               | 58 :: r => '(x, t) ← spanN isDigit 2 2 r; Some (Some x, t)
               | _ => Some (None, s)
               end);
  s ← skipComment (trimStart s);
  z ← matchZone (trimStart s);
  Some {| dayS := d; monS := mon; yearS := y; hS := h; minS := mi; secS := sec; zoneS := z |}.

(** [Date.UTC]: a year below 100 counts from 1900. *)
Definition dateUTC (year mon d h mi s : Z) : Z :=
  let year := if (0 <=? year) && (year <=? 99) then 1900 + year else year in
  dayFromCivil year mon d * msPerDay + h * 3600000 + mi * 60000 + s * 1000.

Definition zoneMinutes (z : jsstr) : Z :=
  match z with
  | sign :: r =>
      if (sign =? 43) || (sign =? 45) then
        (if sign =? 45 then -1 else 1) * (digitsVal (take 2 r) * 60 + digitsVal (drop 2 r))
      else default 0 (snd <$> find (fun p => p.1 === toLowerCase z) OBS_ZONES)
  | [] => 0
  end.

Definition fullYear (yearS : jsstr) : Z :=
  let year := digitsVal yearS in
  if (length yearS =? 2)%nat then year + (if year <? 50 then 2000 else 1900)
  else if (length yearS =? 3)%nat then year + 1900 else year.

Definition parseDate (raw : option jsstr) : option Z :=
  match raw with
  | None | Some [] => None
  | Some raw =>
      match matchDate (trim raw) with
      | None => None
      | Some m =>
          match indexIn (toLowerCase (take 3 (monS m))) MONTH_KEYS with
          | None => None
          | Some mon =>
              let sec := match secS m with Some x => digitsVal x | None => 0 end in
              let offsetMin := match zoneS m with Some z => zoneMinutes z | None => 0 end in
              match newDate (dateUTC (fullYear (yearS m)) mon (digitsVal (dayS m)) (digitsVal (hS m)) (digitsVal (minS m)) sec) with
              | None => None
              | Some ms => Some (ms - offsetMin * 60000)
              end
          end
      end
  end.

Example parseDate_ex1 : parseDate (Some (js "Tue, 28 Jul 2026 06:12:03 +0900")) = Some 1785186723000.
Proof. vm_compute. reflexivity. Qed.

Example parseDate_ex2 : parseDate (Some (js "1 Jan 70 00:00 (x) EST")) = Some 18000000.
Proof. vm_compute. reflexivity. Qed.

(** ** A printed date is read back *)

Lemma spanChars_app p a b : Forall (fun c => p c = true) a -> match b with c :: _ => p c = false | [] => True end -> spanChars p (a ++ b) = (a, b).
Proof.
  intros Ha Hb. induction Ha as [|x a Hx _ IH]; cbn [app spanChars]; [|by rewrite Hx, IH]. destruct b; [done|]. cbn. by rewrite Hb.
Qed.

Lemma spanN_app p lo hi a b : Forall (fun c => p c = true) a -> match b with c :: _ => p c = false | [] => True end ->
  (lo <= length a <= hi)%nat -> spanN p lo hi (a ++ b) = Some (a, b).
Proof.
  intros Ha Hb Hl. unfold spanN. rewrite spanChars_app by done.
  rewrite (proj2 (Nat.leb_le _ _)), (proj2 (Nat.leb_le _ _)) by lia. done.
Qed.

Abbreviation digits := (Forall (fun c => isDigit c = true)).
Abbreviation letters := (Forall (fun c => isAlpha c = true)).

Lemma isDigit_range c : isDigit c = true -> 48 <= c <= 57.
Proof. unfold isDigit. intros H. bool_hyps. lia. Qed.

Lemma isAlpha_not_ws c : isAlpha c = true -> isWs c = false.
Proof. unfold isAlpha, isWs. intros H%orb_true_iff. rewrite !andb_true_iff, !Z.leb_le in H. rewrite !orb_false_iff, !andb_false_iff, !Z.eqb_neq, !Z.leb_gt. lia. Qed.

Lemma isDigit_not_alpha c : isDigit c = true -> isAlpha c = false.
Proof. intros H%isDigit_range. unfold isAlpha. rewrite orb_false_iff, !andb_false_iff, !Z.leb_gt. lia. Qed.

Lemma trimStart_head c s : isWs c = false -> trimStart (c :: s) = c :: s.
Proof. intros H. cbn. by rewrite H. Qed.

(** A space and then a text that does not start with one. *)
Lemma skipWs1_sp c s : isWs c = false -> skipWs1 (SP :: c :: s) = Some (c :: s).
Proof. intros H. unfold skipWs1. change (isWs SP) with true. cbn [trimStart]. change (isWs SP) with true. by rewrite H. Qed.

Lemma skipWs1_run p x s : x <> [] -> Forall (fun c => p c = true) x -> (forall c, p c = true -> isWs c = false) -> skipWs1 (SP :: x ++ s) = Some (x ++ s).
Proof. intros Hx Hf Hp. destruct Hf as [|c x Hc _]; [done|]. cbn [app]. apply skipWs1_sp. by apply Hp. Qed.

Lemma matchDate_print w dd mm yy h mi s sign zz :
  letters w -> length w = 3%nat -> digits dd -> (1 <= length dd <= 2)%nat -> letters mm -> length mm = 3%nat -> digits yy -> length yy = 4%nat ->
  digits h -> length h = 2%nat -> digits mi -> length mi = 2%nat -> digits s -> length s = 2%nat -> sign = 43 \/ sign = 45 -> digits zz -> length zz = 4%nat ->
  matchDate (w ++ 44 :: SP :: dd ++ SP :: mm ++ SP :: yy ++ SP :: h ++ 58 :: mi ++ 58 :: s ++ SP :: sign :: zz) =
  Some {| dayS := dd; monS := mm; yearS := yy; hS := h; minS := mi; secS := Some s; zoneS := Some (sign :: zz) |}.
Proof.
  intros Hw Lw Hdd Ldd Hmm Lmm Hyy Lyy Hh Lh Hmi Lmi Hs Ls Hsign Hzz Lzz.
  assert (Hne : forall (l : jsstr) n, length l = S n -> l <> []) by (by intros [|] ? ?).
  unfold matchDate.
  assert (E1 : forall r, skipWeekday (w ++ 44 :: SP :: dd ++ r) = Some (dd ++ r)).
  { intros r. destruct w as [|c w]; [done|]. unfold skipWeekday. cbn [app]. inversion Hw as [|? ? Hc _]; subst. rewrite Hc.
    change (c :: w ++ ?x) with ((c :: w) ++ x). rewrite spanN_app by (done || lia). cbn [trimStart]. change (isWs 44) with false.
    cbn [expect]. change (44 =? 44) with true. cbn [fmap option_fmap option_map]. destruct dd as [|x d]; [cbn in Ldd; lia|]. inversion Hdd; subst.
    cbn [app trimStart]. change (isWs SP) with true. cbn. by rewrite isDigit_not_ws. }
  rewrite E1. cbn [mbind option_bind]. rewrite spanN_app by (done || lia). cbn [mbind option_bind].
  rewrite (skipWs1_run isAlpha) by (eauto using isAlpha_not_ws). cbn [mbind option_bind].
  rewrite (spanChars_app isAlpha) by done. rewrite Lmm. cbn [Nat.leb mbind option_bind].
  rewrite (skipWs1_run isDigit) by (eauto using isDigit_not_ws). cbn [mbind option_bind].
  rewrite spanN_app by (done || lia). cbn [mbind option_bind].
  rewrite (skipWs1_run isDigit) by (eauto using isDigit_not_ws). cbn [mbind option_bind].
  rewrite spanN_app by (done || lia). cbn [mbind option_bind expect]. change (58 =? 58) with true. cbn [mbind option_bind].
  rewrite spanN_app by (done || lia). cbn [mbind option_bind]. rewrite spanN_app by (done || lia). cbn [mbind option_bind].
  assert (Hws : isWs sign = false) by (by destruct Hsign as [->| ->]).
  cbn [trimStart]. change (isWs SP) with true. cbn iota. rewrite Hws.
  assert (Hsk : skipComment (sign :: zz) = Some (sign :: zz)) by (by destruct Hsign as [->| ->]). rewrite Hsk. cbn [mbind option_bind].
  rewrite trimStart_head by done. unfold matchZone.
  assert (Hsg : (sign =? 43) || (sign =? 45) = true) by (by destruct Hsign as [->| ->]). rewrite Hsg.
  rewrite <- (app_nil_r zz) at 1. rewrite spanN_app by (done || lia). done.
Qed.

(** A check on every number of an interval. *)
Lemma check_range (p : Z -> bool) lo n : forallb p (seqZ lo n) = true -> forall k, lo <= k < lo + n -> p k = true.
Proof. intros H k Hk. rewrite forallb_forall in H. apply H, list_elem_of_In, elem_of_seqZ. lia. Qed.

Definition isPrinted (p : Z -> bool) (lo hi : nat) (v : Z) (s : jsstr) : bool :=
  forallb p s && (lo <=? length s)%nat && (length s <=? hi)%nat && (digitsVal s =? v).

Lemma isPrinted_spec lo hi v s : isPrinted isDigit lo hi v s = true -> digits s /\ (lo <= length s <= hi)%nat /\ digitsVal s = v.
Proof.
  unfold isPrinted. rewrite !andb_true_iff, !Nat.leb_le, Z.eqb_eq, forallb_forall. intros [[[H1 H2] H3] H4].
  split; [apply Forall_forall; intros c Hc%list_elem_of_In; auto|]. auto.
Qed.

Lemma pad2_printed n : 0 <= n < 100 -> isPrinted isDigit 2 2 n (pad2 (Some n)) = true.
Proof. apply (check_range (fun n => isPrinted isDigit 2 2 n (pad2 (Some n))) 0 100). vm_compute. reflexivity. Qed.

Lemma date_printed n : 1 <= n <= 31 -> isPrinted isDigit 1 2 n (numToString n) = true.
Proof. intros H. apply (check_range (fun n => isPrinted isDigit 1 2 n (numToString n)) 1 31); [vm_compute; reflexivity|lia]. Qed.

Lemma year_printed n : 1000 <= n <= 9999 -> isPrinted isDigit 4 4 n (numToString n) = true.
Proof. intros H. apply (check_range (fun n => isPrinted isDigit 4 4 n (numToString n)) 1000 9000); [vm_compute; reflexivity|lia]. Qed.

Definition isName (s : jsstr) : bool := forallb isAlpha s && (length s =? 3)%nat.

Lemma isName_spec s : isName s = true -> letters s /\ length s = 3%nat.
Proof. unfold isName. rewrite andb_true_iff, Nat.eqb_eq, forallb_forall. intros [H1 H2]. split; [|done]. apply Forall_forall. intros c Hc%list_elem_of_In. auto. Qed.

Lemma day_name n : 0 <= n < 7 -> isName (nameOf DAYS (Some n)) = true.
Proof. apply (check_range (fun n => isName (nameOf DAYS (Some n))) 0 7). vm_compute. reflexivity. Qed.

Lemma month_name n : 0 <= n <= 11 -> isName (nameOf MONTHS (Some n)) = true /\ indexIn (toLowerCase (take 3 (nameOf MONTHS (Some n)))) MONTH_KEYS = Some n.
Proof.
  intros H. pose proof (check_range (fun n => isName (nameOf MONTHS (Some n)) && bool_decide (indexIn (toLowerCase (take 3 (nameOf MONTHS (Some n)))) MONTH_KEYS = Some n)) 0 12) as Hc.
  specialize (Hc ltac:(vm_compute; reflexivity) n ltac:(lia)). cbn beta in Hc. apply andb_true_iff in Hc as [H1 H2]. split; [done|]. by apply bool_decide_eq_true in H2.
Qed.

Section Dates.
Context `{LocalZone}.

(** The pieces of a printed date. *)
Lemma rfc5322Date_pieces t (l := t - getTimezoneOffset t * 60000) (a := Z.abs (getTimezoneOffset t)) :
  rfc5322Date (Some t) =
  nameOf DAYS (Some (utcDay l)) ++ 44 :: SP :: numToString (utcDate l) ++ SP :: nameOf MONTHS (Some (utcMonth l)) ++ SP :: numToString (utcFullYear l) ++
  SP :: pad2 (Some (utcHours l)) ++ 58 :: pad2 (Some (utcMinutes l)) ++ 58 :: pad2 (Some (utcSeconds l)) ++
  SP :: (if - getTimezoneOffset t <? 0 then 45 else 43) :: pad2 (Some (a / 60)) ++ pad2 (Some (a mod 60)).
Proof.
  unfold rfc5322Date. cbn [fmap option_fmap option_map showNum]. rewrite Z.abs_opp. fold l a. reflexivity.
Qed.

(** The fields of a time give the time back, to the second. *)
Lemma dateUTC_fields l : 1000 <= utcFullYear l <= 9999 ->
  dateUTC (utcFullYear l) (utcMonth l) (utcDate l) (utcHours l) (utcMinutes l) (utcSeconds l) = l / 1000 * 1000 /\ newDate (l / 1000 * 1000) = Some (l / 1000 * 1000).
Proof.
  intros Hy. pose proof (time_of_day l) as Ht. pose proof (dayFromCivil_civil l) as Hd. unfold dateUTC.
  destruct (Z.leb_spec (utcFullYear l) 99); [lia|]. rewrite andb_false_r, Hd. split; [unfold msPerDay; lia|].
  unfold newDate. assert (Hb : dayFromYear 1000 <= day l < dayFromYear 10000).
  { pose proof (yearFromDay_spec (day l)) as Hs. unfold utcFullYear in Hy. pose proof (dayFromYear_mono 1000 _ (proj1 Hy)).
    pose proof (dayFromYear_mono (yearFromDay (day l) + 1) 10000 ltac:(lia)). lia. }
  vm_compute (dayFromYear 1000) in Hb. vm_compute (dayFromYear 10000) in Hb.
  pose proof (utcHours_range l). pose proof (utcMinutes_range l). pose proof (utcSeconds_range l).
  destruct (Z.leb_spec (Z.abs (l / 1000 * 1000)) 8640000000000000); [done|lia].
Qed.

Lemma trim_ends c s d : isWs c = false -> isWs d = false -> trim (c :: s ++ [d]) = c :: s ++ [d].
Proof.
  intros Hc Hd. unfold trim, trimEnd. cbn [trimStart]. rewrite Hc. cbn [rev]. rewrite rev_app_distr. cbn [rev app trimStart]. rewrite Hd.
  change (d :: rev s ++ [c]) with ((d :: rev s) ++ [c]). rewrite rev_app_distr. cbn. by rewrite rev_involutive.
Qed.

Lemma trim_ends_run text z : match text with c :: _ => isAlpha c = true | [] => False end -> digits z -> z <> [] -> z `suffix_of` text -> trim text = text.
Proof.
  intros Hc Hz Hnz [m Hm]. destruct z as [|d z _] using rev_ind; [done|]. apply Forall_app in Hz as [_ Hd%Forall_inv].
  rewrite app_assoc in Hm. destruct text as [|c text]; [done|]. destruct (m ++ z) as [|c' t] eqn:Et.
  - injection Hm as -> ->. by rewrite isDigit_not_alpha in Hc.
  - injection Hm as -> ->. apply trim_ends; [by apply isAlpha_not_ws|by apply isDigit_not_ws].
Qed.

Lemma two_digits n : 0 <= n < 100 -> digits (pad2 (Some n)) /\ length (pad2 (Some n)) = 2%nat /\ digitsVal (pad2 (Some n)) = n.
Proof. intros (H1 & H2 & H3)%pad2_printed%isPrinted_spec. split; [done|]. split; [lia|done]. Qed.

(** What the expression finds in a printed date. *)
Lemma rfc5322Date_match t (l := t - getTimezoneOffset t * 60000) (a := Z.abs (getTimezoneOffset t)) : a < 6000 -> 1000 <= utcFullYear l <= 9999 ->
  trim (rfc5322Date (Some t)) = rfc5322Date (Some t) /\ rfc5322Date (Some t) <> [] /\
  matchDate (rfc5322Date (Some t)) = Some {|
    dayS := numToString (utcDate l); monS := nameOf MONTHS (Some (utcMonth l)); yearS := numToString (utcFullYear l); hS := pad2 (Some (utcHours l));
    minS := pad2 (Some (utcMinutes l)); secS := Some (pad2 (Some (utcSeconds l)));
    zoneS := Some ((if - getTimezoneOffset t <? 0 then 45 else 43) :: pad2 (Some (a / 60)) ++ pad2 (Some (a mod 60))) |}.
Proof.
  intros Hz Hy. rewrite rfc5322Date_pieces. fold l a. set (sign := if - getTimezoneOffset t <? 0 then 45 else 43).
  assert (Hsign : sign = 43 \/ sign = 45) by (unfold sign; destruct (_ <? _); auto). clearbody sign.
  destruct (isName_spec _ (day_name (utcDay l) ltac:(apply Z.mod_pos_bound; lia))) as [W1 W2].
  pose proof (utcMonth_range l) as Hmo. destruct (month_name _ Hmo) as [[M1 M2]%isName_spec _].
  pose proof (utcDate_range l) as Hda. pose proof (daysInMonth_le (utcFullYear l) _ Hmo) as Hdim.
  destruct (isPrinted_spec _ _ _ _ (date_printed (utcDate l) ltac:(lia))) as (D1 & D2 & _).
  destruct (isPrinted_spec _ _ _ _ (year_printed (utcFullYear l) Hy)) as (Y1 & Y2 & _).
  destruct (two_digits (utcHours l) ltac:(pose proof (utcHours_range l); lia)) as (T1 & T2 & _).
  destruct (two_digits (utcMinutes l) ltac:(pose proof (utcMinutes_range l); lia)) as (T3 & T4 & _).
  destruct (two_digits (utcSeconds l) ltac:(pose proof (utcSeconds_range l); lia)) as (T5 & T6 & _).
  destruct (two_digits (a / 60) ltac:(unfold a in *; split; [apply Z.div_pos; lia|apply Z.div_lt_upper_bound; lia])) as (A1 & A2 & _).
  destruct (two_digits (a mod 60) ltac:(pose proof (Z.mod_pos_bound a 60); lia)) as (B1 & B2 & _).
  split; [|split; [intros Hn%app_eq_nil; by destruct Hn as [Hn _]; rewrite Hn in W2|]].
  - apply (trim_ends_run _ (pad2 (Some (a mod 60)))); [|done|by intros E; rewrite E in B2|].
    + destruct W1 as [|c w Hc _]; [done|]. exact Hc.
    + clear. repeat (apply suffix_app_r || apply suffix_cons_r || done).
  - apply matchDate_print; try done; try lia; [by apply Forall_app|rewrite length_app; lia].
Qed.

Lemma zoneMinutes_print off a b : 0 <= a < 100 -> 0 <= b < 100 ->
  zoneMinutes ((if off <? 0 then 45 else 43) :: pad2 (Some a) ++ pad2 (Some b)) = (if off <? 0 then -1 else 1) * (a * 60 + b).
Proof.
  intros Ha Hb. destruct (two_digits a Ha) as (_ & L1 & V1), (two_digits b Hb) as (_ & _ & V2). unfold zoneMinutes.
  rewrite <- L1, take_app_length, drop_app_length, V1, V2. by destruct (off <? 0).
Qed.

(** The time of a date whose fields are known. *)
Lemma parseDate_fields raw m mon ms : raw <> [] -> matchDate (trim raw) = Some m ->
  indexIn (toLowerCase (take 3 (monS m))) MONTH_KEYS = Some mon ->
  newDate (dateUTC (fullYear (yearS m)) mon (digitsVal (dayS m)) (digitsVal (hS m)) (digitsVal (minS m)) (match secS m with Some x => digitsVal x | None => 0 end)) = Some ms ->
  parseDate (Some raw) = Some (ms - (match zoneS m with Some z => zoneMinutes z | None => 0 end) * 60000).
Proof. intros Hne Hm Hmon Hms. unfold parseDate. destruct raw; [done|]. rewrite Hm, Hmon. cbv zeta. by rewrite Hms. Qed.

Lemma printed_fields l : 1000 <= utcFullYear l <= 9999 ->
  fullYear (numToString (utcFullYear l)) = utcFullYear l /\ digitsVal (numToString (utcDate l)) = utcDate l /\ digitsVal (pad2 (Some (utcHours l))) = utcHours l /\
  digitsVal (pad2 (Some (utcMinutes l))) = utcMinutes l /\ digitsVal (pad2 (Some (utcSeconds l))) = utcSeconds l.
Proof.
  intros Hy. pose proof (utcDate_range l) as Hda. pose proof (daysInMonth_le (utcFullYear l) _ (utcMonth_range l)) as Hdim.
  destruct (isPrinted_spec _ _ _ _ (date_printed (utcDate l) ltac:(lia))) as (_ & _ & D).
  destruct (isPrinted_spec _ _ _ _ (year_printed (utcFullYear l) Hy)) as (_ & Y2 & Y3).
  destruct (two_digits (utcHours l) ltac:(pose proof (utcHours_range l); lia)) as (_ & _ & T1).
  destruct (two_digits (utcMinutes l) ltac:(pose proof (utcMinutes_range l); lia)) as (_ & _ & T2).
  destruct (two_digits (utcSeconds l) ltac:(pose proof (utcSeconds_range l); lia)) as (_ & _ & T3).
  repeat split; try done. unfold fullYear. rewrite Y3, (proj2 (Nat.eqb_neq _ 2)), (proj2 (Nat.eqb_neq _ 3)) by lia. done.
Qed.

Lemma zone_shift t o : Z.abs o < 6000 ->
  (t - o * 60000) / 1000 * 1000 - zoneMinutes ((if - o <? 0 then 45 else 43) :: pad2 (Some (Z.abs o / 60)) ++ pad2 (Some (Z.abs o mod 60))) * 60000 = t / 1000 * 1000.
Proof.
  intros Ho. pose proof (Z.mod_pos_bound (Z.abs o) 60 ltac:(lia)) as Hm60. pose proof (Z.div_pos (Z.abs o) 60 ltac:(lia) ltac:(lia)) as Hd0.
  pose proof (Z.div_lt_upper_bound (Z.abs o) 60 100 ltac:(lia) ltac:(lia)) as Hd1.
  rewrite zoneMinutes_print by lia. rewrite (Z.mul_comm _ 60), <- Z.div_mod by lia. clear Hm60 Hd0 Hd1.
  destruct (Z.ltb_spec (- o) 0); zdiv.
Qed.

(** A date the server writes is the date it reads.  The text of a time in the zone of the server,
    parsed, is that time cut to the second: whatever the zone, as long as its offset is below a
    hundred hours and the year has four digits there. *)
Theorem mime_date_roundtrip t : Z.abs (getTimezoneOffset t) < 6000 -> 1000 <= utcFullYear (t - getTimezoneOffset t * 60000) <= 9999 ->
  parseDate (Some (rfc5322Date (Some t))) = Some (t / 1000 * 1000).
Proof.
  intros Hz Hy. destruct (rfc5322Date_match t Hz Hy) as (Ht & Hne & Hm). destruct (printed_fields _ Hy) as (F1 & F2 & F3 & F4 & F5).
  destruct (dateUTC_fields _ Hy) as [U1 U2]. destruct (month_name _ (utcMonth_range (t - getTimezoneOffset t * 60000))) as [_ Hmon].
  rewrite <- Ht in Hm. rewrite (parseDate_fields _ _ _ ((t - getTimezoneOffset t * 60000) / 1000 * 1000) Hne Hm Hmon);
    cbn [dayS monS yearS hS minS secS zoneS] in *; [f_equal; by apply zone_shift|]. by rewrite F1, F2, F3, F4, F5, U1.
Qed.
End Dates.

Definition KST : LocalZone := {| getTimezoneOffset := fun _ => -540 |}.

Lemma mime_date_roundtrip_witness : parseDate (Some (rfc5322Date (H := KST) (Some 1785186723456))) = Some (1785186723456 / 1000 * 1000).
Proof. apply (mime_date_roundtrip (H := KST) 1785186723456); vm_compute; [reflexivity|split; discriminate]. Defined.

(** ** Where the code falls short *)

(** A comment behind the zone, as mailers write it, makes the date unreadable. *)
Lemma date_trailing_comment :
  parseDate (Some (js "Tue, 28 Jul 2026 06:12:03 +0000")) = Some 1785219123000 /\
  parseDate (Some (js "Tue, 28 Jul 2026 06:12:03 +0000 (UTC)")) = None.
Proof. vm_compute. by split. Qed.

Example extractMsgIdList_ex : extractMsgIdList (Some (js "<a@b> x <> <c<d@e>")) = [js "a@b"; js "d@e"] /\ extractMsgId (js "no brackets ") = Some (js "no brackets").
Proof. vm_compute. by split. Qed.

Example computeSubjectBase_ex : computeSubjectBase (js " RE[2]: fwd:  Antwort : a   b ") = js "a b".
Proof. vm_compute. reflexivity. Qed.
