(* ===== verification/MimeHtml.v ===== *)
(** * Text out of HTML (packages/mime/src/html.ts)

    The preview of a message without a plain part: raw-text elements go with their content, tags and
    entities go next.  The scan looks for tags in the lower-cased text and cuts the text itself by the
    same indices. *)

From S2P Require Import Prelude JsString Text MimeEncoding MimeHeaders MimeFields.

(** ** Entities *)

(** A method of [Object.prototype], which an object literal inherits, printed. *)
Definition nativeText (n : jsstr) : jsstr := js "function " ++ n ++ js "() { [native code] }".

Definition INHERITED : list (jsstr * jsstr) :=
  (js "constructor", nativeText (js "Object")) ::
  map (fun n => (js n, nativeText (js n)))
    ["hasOwnProperty"; "isPrototypeOf"; "propertyIsEnumerable"; "toLocaleString"; "toString"; "valueOf"]%string.

(** [NAMED_ENTITIES[ent]], with what the object inherits under names of letters. *)
Definition NAMED_ENTITIES : list (jsstr * jsstr) :=
  [(js "amp", js "&"); (js "lt", js "<"); (js "gt", js ">"); (js "quot", [34]); (js "apos", [39]); (js "nbsp", js " ")] ++ INHERITED.

Definition lookupKey {A} (k : jsstr) (l : list (jsstr * A)) : option A := snd <$> find (fun p => p.1 === k) l.

Definition isHexDigit (c : Z) : bool := match hexDigit c with Some _ => true | None => false end.

(** [Number.parseInt(s, radix)] on digits of base 16, or up to the first unit that is no digit. *)
Definition parseHex (s : jsstr) : Z := fold_left (fun n c => n * 16 + default 0 (hexDigit c)) s 0.
Definition parseDec (s : jsstr) : option Z := match (spanChars isDigit s).1 with [] => None | d => Some (digitsVal d) end.

(** The value of a numeric reference, behind the [#]. *)
Definition numericCode (ent : jsstr) : option Z :=
  match ent with
  | 120 :: h | 88 :: h => Some (parseHex h)
  | _ => parseDec ent
  end.

(** An entity behind the ampersand: its text, and what follows the semicolon. *)
Definition matchEntity (s : jsstr) : option (jsstr * jsstr) :=
  match s with
  | 35 :: r =>
      let '(x, r') := match r with 120 :: t => ([120], t) | _ => ([], r) end in
      match spanChars isHexDigit r' with
      | ((_ :: _) as d, 59 :: t) => Some (35 :: x ++ d, t)
      | _ => None
      end
  | _ => match spanChars isAlpha s with ((_ :: _) as n, 59 :: t) => Some (n, t) | _ => None end
  end.

Definition entityText (ent : jsstr) : jsstr :=
  let whole := 38 :: ent ++ [59] in
  match ent with
  | 35 :: r =>
      match numericCode r with
      | Some code => if 0x10FFFF <? code then whole else unitsOf code
      | None => whole
      end
  | _ => default whole (lookupKey ent NAMED_ENTITIES)
  end.

Fixpoint decodeEntities (fuel : nat) (s : jsstr) : jsstr :=
  match fuel, s with
  | S f, 38 :: r =>
      match matchEntity r with
      | Some (ent, t) => entityText ent ++ decodeEntities f t
      | None => 38 :: decodeEntities f r
      end
  | S f, c :: r => c :: decodeEntities f r
  | _, _ => []
  end.

Definition decodeHtmlEntities (s : jsstr) : jsstr := decodeEntities (length s) s.

(** ** Raw-text elements *)

Definition RAW_TEXT_TAGS : list jsstr := [js "script"; js "style"].

Definition indexFrom (p s : jsstr) (i : nat) : option nat := (fun j => (i + j)%nat) <$> indexOfStr p (drop i s).

(** [CLOSE_TAIL] at a place: where it ends. *)
Definition closeTail (lower : jsstr) (i : nat) : option nat :=
  match trimStart (drop i lower) with
  | 62 :: t => Some (length lower - length t)%nat
  | _ => None
  end.

Fixpoint rawTextEnd (fuel : nat) (lower tag : jsstr) (at_ : nat) : option nat :=
  match fuel with
  | O => None
  | S f =>
      let close := js "</" ++ tag in
      match indexFrom close lower at_ with
      | None => None
      | Some idx =>
          match closeTail lower (idx + length close) with
          | Some e => Some e
          | None => rawTextEnd f lower tag (idx + length close)
          end
      end
  end.

Definition findRawTextEnd (lower tag : jsstr) (from : nat) : option nat := rawTextEnd (S (length lower)) lower tag from.

(** [s.slice(a, b)] for [a <= b], and empty otherwise. *)
Definition slice (s : jsstr) (a b : nat) : jsstr := take (b - a) (drop a s).

Definition rawTagAt (lower : jsstr) (lt : nat) : option jsstr := find (fun t => startsWith t (drop (S lt) lower)) RAW_TEXT_TAGS.

(** The loop: [exhausted] holds the tags no block of which ends any more. *)
Fixpoint rawBlocks (fuel : nat) (html lower : jsstr) (exhausted : list jsstr) (plain i : nat) : jsstr :=
  match fuel with
  | O => drop plain html
  | S f =>
      match indexFrom [60] lower i with
      | None => drop plain html
      | Some lt =>
          match rawTagAt lower lt with
          | None => rawBlocks f html lower exhausted plain (S lt)
          | Some tag =>
              if existsb (fun t => t === tag) exhausted then rawBlocks f html lower exhausted plain (S lt)
              else match findRawTextEnd lower tag lt with
                   | None => rawBlocks f html lower (tag :: exhausted) plain (S lt)
                   | Some e => slice html plain lt ++ [SP] ++ rawBlocks f html lower exhausted e e
                   end
          end
      end
  end.

Definition removeRawTextBlocks (html : jsstr) : jsstr :=
  let lower := toLowerCase html in rawBlocks (S (length lower)) html lower [] 0 0.

(** ** Tags *)

Fixpoint tagLoop (fuel : nat) (html : jsstr) (plain i : nat) : jsstr :=
  match fuel with
  | O => drop plain html
  | S f =>
      match indexFrom [60] html i with
      | None => drop plain html
      | Some lt =>
          match indexFrom [62] html (S lt) with
          | None => drop plain html
          | Some gt => slice html plain lt ++ [SP] ++ tagLoop f html (S gt) (S gt)
          end
      end
  end.

Definition removeTags (html : jsstr) : jsstr := tagLoop (S (length html)) html 0 0.

Definition stripHtml (html : jsstr) : jsstr :=
  trim (collapseWs false (decodeHtmlEntities (removeTags (removeRawTextBlocks html)))).

Example stripHtml_ex1 : stripHtml (js "<p>a &lt;b&#x3e;</p><SCRIPT>x</script ><b>c</b> </scriptX<style>d</style>e <f") = js "a <b> c </scriptX e <f".
Proof. vm_compute. reflexivity. Qed.

(** ** Remembering that a tag is exhausted changes nothing *)

(** The same scan without the memory. *)
Fixpoint rawBlocksRef (fuel : nat) (html lower : jsstr) (plain i : nat) : jsstr :=
  match fuel with
  | O => drop plain html
  | S f =>
      match indexFrom [60] lower i with
      | None => drop plain html
      | Some lt =>
          match rawTagAt lower lt ≫= fun tag => findRawTextEnd lower tag lt with
          | None => rawBlocksRef f html lower plain (S lt)
          | Some e => slice html plain lt ++ [SP] ++ rawBlocksRef f html lower e e
          end
      end
  end.

Definition occurs (p s : jsstr) (j : nat) : Prop := startsWith p (drop j s) = true.

Lemma indexFrom_None p s i : p <> [] -> indexFrom p s i = None -> forall j, (i <= j)%nat -> ~ occurs p s j.
Proof.
  intros Hp H%fmap_None j Hj Ho. unfold occurs in Ho. pose proof (indexOfStr_None _ _ (j - i) H) as Hf.
  rewrite drop_drop in Hf. replace (i + (j - i))%nat with j in Hf by lia. congruence.
Qed.

Lemma indexFrom_Some p s i k : p <> [] -> indexFrom p s i = Some k -> (i <= k)%nat /\ (k + length p <= length s)%nat /\ occurs p s k /\ forall j, (i <= j < k)%nat -> ~ occurs p s j.
Proof.
  intros Hp (m & Hm & ->)%fmap_Some. destruct (indexOfStr_Some _ _ _ Hm) as [He _]. pose proof (indexOfStr_lt _ _ _ Hm) as Hl.
  rewrite length_drop in Hl. assert (0 < length p)%nat by (destruct p; cbn; [done|lia]). split; [lia|]. split; [lia|]. split.
  - unfold occurs. rewrite <- drop_drop, He. rewrite drop_app_length' by (rewrite length_take, length_drop; lia). apply startsWith_app.
  - intros j Hj Ho. unfold occurs in Ho. replace j with (i + (j - i))%nat in Ho by lia. rewrite <- drop_drop in Ho.
    destruct (indexOfStr_first p (drop i s) (j - i) Ho) as (x & Hx & Hle); [rewrite length_drop; lia|]. rewrite Hm in Hx. injection Hx as <-. lia.
Qed.

(** Two closing tags do not overlap. *)
Lemma occurs_apart q s k j : 60 ∉ q -> occurs (60 :: q) s k -> occurs (60 :: q) s j -> (k < j)%nat -> (k + S (length q) <= j)%nat.
Proof.
  intros Hq Hk Hj Hlt. destruct (Nat.le_gt_cases (k + S (length q)) j) as [|Hgt]; [done|]. exfalso.
  unfold occurs in *. apply startsWith_split in Hk, Hj. cbn [length] in Hk, Hj.
  assert (H1 : s !! j = Some 60) by (rewrite <- (Nat.add_0_r j), <- lookup_drop, Hj; done).
  assert (H2 : s !! j = q !! (j - k - 1)%nat).
  { replace j with (k + S (j - k - 1))%nat at 1 by lia. rewrite <- lookup_drop, Hk.
    change ((60 :: q) ++ ?x) with (60 :: q ++ x). change ((60 :: ?y) !! S ?n) with (y !! n). rewrite lookup_app_l by lia. done. }
  rewrite H1 in H2. apply Hq. apply list_elem_of_lookup. eauto.
Qed.

Section Ends.
Context (lower tag : jsstr) (Htag : 60 ∉ tag).
Abbreviation close := (js "</" ++ tag).

Lemma rawTextEnd_None fuel at_ : (length lower < fuel + at_)%nat -> rawTextEnd fuel lower tag at_ = None <->
  forall j, (at_ <= j)%nat -> occurs close lower j -> closeTail lower (j + length close) = None.
Proof.
  revert at_. induction fuel as [|f IH]; intros at_ Hf.
  - cbn. split; [|done]. intros _ j Hj Ho. unfold occurs in Ho. rewrite drop_ge in Ho by lia. done.
  - cbn [rawTextEnd]. destruct (indexFrom close lower at_) as [idx|] eqn:E.
    + destruct (indexFrom_Some close lower _ _ ltac:(done) E) as (H1 & H2 & H3 & H4).
      destruct (closeTail lower (idx + length close)) as [e|] eqn:Ec; [split; [done|]; intros H; by rewrite (H idx) in Ec|].
      assert (Hc2 : length close = S (S (length tag))) by done. rewrite IH by lia. split.
      * intros H j Hj Ho. destruct (Nat.lt_trichotomy j idx) as [Hlt|[->|Hgt]]; [by destruct (H4 j)|done|].
        apply H; [|done]. rewrite Hc2. apply (occurs_apart (47 :: tag) lower); [set_solver|done..].
      * intros H j Hj. apply H. lia.
    + split; [|done]. intros _ j Hj Ho. by destruct (indexFrom_None close lower _ ltac:(done) E j Hj).
Qed.

Lemma findRawTextEnd_mono i j : (i <= j)%nat -> findRawTextEnd lower tag i = None -> findRawTextEnd lower tag j = None.
Proof.
  intros Hij. unfold findRawTextEnd. rewrite !rawTextEnd_None by lia. intros H k Hk. apply H. lia.
Qed.
End Ends.

Lemma trimStart_length s : (length (trimStart s) <= length s)%nat.
Proof. induction s as [|c s IH]; [done|]. cbn. destruct (isWs c); cbn; lia. Qed.

Lemma closeTail_ge lower i e : closeTail lower i = Some e -> (i <= e)%nat.
Proof.
  unfold closeTail. intros H. pose proof (trimStart_length (drop i lower)) as Hl. rewrite length_drop in Hl.
  destruct (trimStart (drop i lower)) as [|c t]; [done|]. repeat case_match; try done. injection H as <-. cbn in Hl. lia.
Qed.

Lemma rawTextEnd_ge fuel lower tag i e : rawTextEnd fuel lower tag i = Some e -> (i <= e)%nat.
Proof.
  revert i. induction fuel as [|f IH]; intros i; [done|]. cbn [rawTextEnd]. destruct (indexFrom _ lower i) as [idx|] eqn:E; [|done].
  destruct (indexFrom_Some (js "</" ++ tag) lower _ _ ltac:(done) E) as (H1 & _). destruct (closeTail _ _) as [e'|] eqn:Ec.
  - intros [= <-]. apply closeTail_ge in Ec. lia.
  - intros H%IH. lia.
Qed.

Lemma rawTag_plain lower lt tag : rawTagAt lower lt = Some tag -> 60 ∉ tag.
Proof.
  unfold rawTagAt. intros [H _]%find_some. cbn in H. destruct H as [<-|[<-|[]]]; vm_compute; set_solver.
Qed.

(** The scan that remembers which tags are exhausted, and so stays linear, gives the text the scan
    without the memory gives. *)
Theorem html_memory_exact fuel html lower plain i : rawBlocks fuel html lower [] plain i = rawBlocksRef fuel html lower plain i.
Proof.
  enough (H : forall exhausted, Forall (fun t => 60 ∉ t /\ findRawTextEnd lower t i = None) exhausted ->
    rawBlocks fuel html lower exhausted plain i = rawBlocksRef fuel html lower plain i) by (apply H; constructor).
  revert plain i. induction fuel as [|f IH]; intros plain i ex Hex; [done|]. cbn [rawBlocks rawBlocksRef].
  destruct (indexFrom [60] lower i) as [lt|] eqn:Elt; [|done]. destruct (indexFrom_Some [60] _ _ _ ltac:(done) Elt) as (Hle & _).
  assert (Hmono : forall k, (i <= k)%nat -> Forall (fun t => 60 ∉ t /\ findRawTextEnd lower t k = None) ex).
  { intros k Hk. eapply Forall_impl; [exact Hex|]. cbn. intros t [H1 H2]. split; [done|]. by eapply findRawTextEnd_mono. }
  destruct (rawTagAt lower lt) as [tag|] eqn:Etag; cbn [mbind option_bind]; [|apply IH, Hmono; lia].
  pose proof (rawTag_plain _ _ _ Etag) as Hplain. destruct (existsb (fun t => t === tag) ex) eqn:Eex.
  - apply existsb_exists in Eex as (t & Hin%list_elem_of_In & ->%seqb_eq). pose proof (Hmono lt Hle) as Hlt. rewrite Forall_forall in Hlt.
    destruct (Hlt _ Hin) as [_ ->]. apply IH, Hmono. lia.
  - destruct (findRawTextEnd lower tag lt) as [e|] eqn:Ee.
    + do 2 f_equal. apply IH, Hmono. apply rawTextEnd_ge in Ee. lia.
    + apply IH. constructor; [|apply Hmono; lia]. split; [done|]. eapply findRawTextEnd_mono; [done| |done]. lia.
Qed.

(** ** Where the code falls short *)

(** A name the table inherits is not a named entity. *)
Lemma html_entity_inherits : stripHtml (js "&constructor;") = js "function Object() { [native code] }".
Proof. vm_compute. reflexivity. Qed.

(** A letter whose lower case is longer (U+0130) shifts the indices: the content of the element shows. *)
Lemma html_script_leaks : stripHtml (replicate 12 304 ++ js "<script>secret</script>") = replicate 12 304 ++ js " secr".
Proof. vm_compute. reflexivity. Qed.
