(* ===== verification/MimeBody.v ===== *)
(** * Content types and the body of a message (packages/mime/src/headers.ts, body.ts)

    Parameters of Content-Type and Content-Disposition with the continuations of RFC 2231, and the
    walk over the parts of a message that finds its text and whether it has an attachment, under one
    budget of parts for the whole tree. *)

From S2P Require Import Prelude JsString Loop Text MimeEncoding MimeHeaders MimeFields MimeHtml.

Definition MAX_MIME_PARTS : Z := 1024.
Definition MAX_MIME_DEPTH : nat := 20.

(** ** Parameters *)

Fixpoint semicolonLoop (prev : Z) (inQuotes : bool) (current s : jsstr) : list jsstr :=
  match s with
  | [] => [current]
  | ch :: r =>
      if inQuotes then semicolonLoop ch (negb ((ch =? 34) && negb (prev =? 92))) (current ++ [ch]) r
      else if ch =? 34 then semicolonLoop ch true (current ++ [ch]) r
      else if ch =? 59 then current :: semicolonLoop ch false [] r
      else semicolonLoop ch false (current ++ [ch]) r
  end.

Definition splitTopLevelSemicolon (s : jsstr) : list jsstr := semicolonLoop 0 false [] s.

(** A key with a star, digits and a star behind its base: the base, the index and whether the value is
    encoded. *)
Definition matchExtended (key : jsstr) : option (jsstr * Z * bool) :=
  match indexOf 42 key with
  | None | Some O => None
  | Some i =>
      let '(d, t) := spanChars isDigit (drop (S i) key) in
      let index := match d with [] => 0 | _ => digitsVal d end in
      match t with
      | [] => Some (take i key, index, false)
      | [42] => Some (take i key, index, true)
      | _ => None
      end
  end.

(** A value without its quotes: the quoted text at its head, or one quote at either end dropped. *)
Definition paramValue (val : jsstr) : jsstr :=
  match val with
  | 34 :: r => match indexOf 34 r with Some j => take j r | None => r end
  | _ => if endsWith1 34 val then removelast val else val
  end.

Record Piece := mkPiece { p_value : jsstr; p_encoded : bool }.

(** Parameters so far, and the pieces of continued ones by index. *)
Abbreviation Params := (list (jsstr * jsstr)).
Abbreviation Continuations := (list (jsstr * list (Z * Piece))).

(** [key in params]: set before, or inherited from [Object.prototype] under a lower-case name. *)
Definition inParams (key : jsstr) (params : Params) : bool :=
  (key === js "constructor") || (key === js "__proto__") || match mapGet key params with Some _ => true | None => false end.

Definition addParam (key val : jsstr) (params : Params) : Params := if inParams key params then params else params ++ [(key, val)].

Fixpoint pieceGet (i : Z) (l : list (Z * Piece)) : option Piece :=
  match l with [] => None | (k, p) :: r => if k =? i then Some p else pieceGet i r end.

(** [list.set(index, piece)]; the order of the pieces does not matter. *)
Definition pieceSet (i : Z) (p : Piece) (l : list (Z * Piece)) : list (Z * Piece) := (i, p) :: List.filter (fun x => negb (x.1 =? i)) l.

Definition addPart (st : Params * Continuations) (part : jsstr) : Params * Continuations :=
  let '(params, continuations) := st in
  let p := trim part in
  match indexOf 61 p with
  | None => st
  | Some eq =>
      let key := toLowerCase (trim (take eq p)) in
      let val := paramValue (trim (drop (S eq) p)) in
      match matchExtended key with
      | Some (base, index, encoded) =>
          (params, mapSet base (pieceSet index {| p_value := val; p_encoded := encoded |} (default [] (mapGet base continuations))) continuations)
      | None => (addParam key val params, continuations)
      end
  end.

(** The pieces 0, 1, 2, ... as long as they are there. *)
Fixpoint joinPieces (fuel : nat) (i : Z) (pieces : list (Z * Piece)) : jsstr * bool :=
  match fuel with
  | O => ([], false)
  | S f =>
      match pieceGet i pieces with
      | None => ([], false)
      | Some p => let '(j, e) := joinPieces f (i + 1) pieces in (p_value p ++ j, p_encoded p || e)
      end
  end.

(** The charset before the first quote mark, and the text behind the second one. *)
Definition matchCharset (s : jsstr) : option (jsstr * jsstr) :=
  match indexOf 39 s with
  | None => None
  | Some i =>
      let r := drop (S i) s in
      match indexOf 39 r with
      | None => None
      | Some j => let t := drop (S j) r in if forallb (fun c => negb (isLineTerminator c)) t then Some (take i s, t) else None
      end
  end.

Fixpoint percentDecode (fuel : nat) (s : jsstr) : jsstr :=
  match fuel, s with
  | S f, 37 :: r => match hexPair r with Some b => b :: percentDecode f (drop 2 r) | None => 37 :: percentDecode f r end
  | S f, c :: r => c :: percentDecode f r
  | _, _ => []
  end.

Record ContentTypeInfo := mkCt { ct_type : jsstr; ct_subtype : jsstr; ct_params : Params }.
Record ContentDispositionInfo := mkCd { cd_type : jsstr; cd_filename : option jsstr }.

Section Params.
Context `{TextDecoders}.

Definition extendedValue (joined : jsstr) : jsstr :=
  let '(charset, encoded) := match matchCharset joined with Some (c, e) => (Some c, e) | None => (None, joined) end in
  decodeBytesWithCharset (map (fun c => c mod 256) (percentDecode (length encoded) encoded)) charset.

Definition addContinuation (params : Params) (c : jsstr * list (Z * Piece)) : Params :=
  let '(key, pieces) := c in
  let '(joined, extended) := joinPieces (length pieces) 0 pieces in
  match joined with
  | [] => params
  | _ => addParam key (if extended then extendedValue joined else joined) params
  end.

Definition splitHeaderParams (raw : jsstr) : jsstr * Params :=
  let parts := splitTopLevelSemicolon raw in
  let '(params, continuations) := fold_left addPart (tail parts) ([], []) in
  (trim (default [] (head parts)), fold_left addContinuation continuations params).

Definition parseContentType (raw : option jsstr) : ContentTypeInfo :=
  match raw with
  | None | Some [] => {| ct_type := js "text"; ct_subtype := js "plain"; ct_params := [] |}
  | Some raw =>
      let '(mainValue, params) := splitHeaderParams raw in
      let plain := {| ct_type := js "text"; ct_subtype := js "plain"; ct_params := params |} in
      match indexOf 47 mainValue with
      | None => plain
      | Some slash =>
          match toLowerCase (trim (take slash mainValue)), toLowerCase (trim (drop (S slash) mainValue)) with
          | (_ :: _) as type, (_ :: _) as subtype => {| ct_type := type; ct_subtype := subtype; ct_params := params |}
          | _, _ => plain
          end
      end
  end.

Definition parseContentDisposition (raw : option jsstr) : option ContentDispositionInfo :=
  match raw with
  | None | Some [] => None
  | Some raw =>
      let '(mainValue, params) := splitHeaderParams raw in
      Some {| cd_type := toLowerCase (trim mainValue); cd_filename := mapGet (js "filename") params |}
  end.
End Params.

(** ** The parts of a multipart body *)

Fixpoint validMarker (fuel : nat) (s marker : jsstr) (pos : nat) : option nat :=
  match fuel with
  | O => None
  | S f =>
      match indexFrom marker s pos with
      | None => None
      | Some O => Some O
      | Some (S k as idx) => if bool_decide (s !! k = Some LF) then Some idx else validMarker f s marker (idx + length marker)
      end
  end.

Definition findValidMarker (s marker : jsstr) (from : nat) : option nat := validMarker (S (length s)) s marker from.

Definition skipUnit (c : Z) (s : jsstr) (i : nat) : nat := if bool_decide (s !! i = Some c) then S i else i.

(** [.replace(/\r?\n$/, "")] *)
Definition dropLastEol (s : jsstr) : jsstr :=
  match rev s with
  | 10 :: 13 :: r => rev r
  | 10 :: r => rev r
  | _ => s
  end.

Fixpoint partLoop (fuel : nat) (bodyText marker : jsstr) (maxParts : Z) (parts : list jsstr) (idx : option nat) : list jsstr :=
  match fuel, idx with
  | S f, Some i =>
      if len parts <? maxParts then
        let e := (i + length marker)%nat in
        let closing := slice bodyText e (e + 2) === js "--" in
        if closing then parts
        else
          let e := skipUnit LF bodyText (skipUnit CR bodyText e) in
          let nextIdx := findValidMarker bodyText marker e in
          let partEnd := default (length bodyText) nextIdx in
          partLoop f bodyText marker maxParts (parts ++ [dropLastEol (slice bodyText e partEnd)]) nextIdx
      else parts
  | _, _ => parts
  end.

Definition splitMultipart (bodyText boundary : jsstr) (maxParts : Z) : list jsstr :=
  let marker := js "--" ++ boundary in
  partLoop (S (length bodyText)) bodyText marker maxParts [] (findValidMarker bodyText marker 0).

(** ** The walk *)

Record WalkState := mkWalk {
  textPlain : option jsstr; textHtmlStripped : option jsstr; hasAttachment : bool; remaining : Z; exceeded : bool }.

Definition exceed (st : WalkState) : WalkState :=
  {| textPlain := textPlain st; textHtmlStripped := textHtmlStripped st; hasAttachment := hasAttachment st; remaining := remaining st; exceeded := true |}.

Section Walk.
Context `{TextDecoders}.

Abbreviation Headers := (list (jsstr * list jsstr)).

(** A part that is no multipart. *)
Definition walkLeaf (ct : ContentTypeInfo) (headers : Headers) (bodyText : jsstr) (st : WalkState) : WalkState :=
  let disposition := parseContentDisposition (firstHeader headers (js "content-disposition")) in
  let filled o := match o with Some (_ :: _) => true | _ => false end in
  let hasFilename := filled (disposition ≫= cd_filename) || filled (mapGet (js "name") (ct_params ct)) in
  let attached := match disposition with Some d => cd_type d === js "attachment" | None => false end
                  || (negb (ct_type ct === js "text") && hasFilename) in
  let cte := toLowerCase (trim (default (js "7bit") (firstHeader headers (js "content-transfer-encoding")))) in
  let text := decodeTextPart bodyText cte (mapGet (js "charset") (ct_params ct)) in
  let isText sub := (ct_type ct === js "text") && (ct_subtype ct === js sub) in
  let plainHere := isText "plain"%string && bool_decide (textPlain st = None) in
  let htmlHere := isText "html"%string && bool_decide (textHtmlStripped st = None) in
  {| textPlain := if plainHere then Some text else textPlain st;
     textHtmlStripped := if negb plainHere && htmlHere then Some (stripHtml text) else textHtmlStripped st;
     hasAttachment := attached || hasAttachment st; remaining := remaining st; exceeded := exceeded st |}.

(** [levels] is what the depth leaves: none when the depth is beyond [MAX_MIME_DEPTH]. *)
Fixpoint walkEntity (levels : nat) (headers : Headers) (bodyText : jsstr) (st : WalkState) : WalkState :=
  match levels with
  | O => st
  | S l =>
      if exceeded st then st
      else
        let st := {| textPlain := textPlain st; textHtmlStripped := textHtmlStripped st; hasAttachment := hasAttachment st;
                     remaining := remaining st - 1; exceeded := remaining st - 1 <? 0 |} in
        if exceeded st then st
        else
          let ct := parseContentType (firstHeader headers (js "content-type")) in
          if ct_type ct === js "multipart" then
            match mapGet (js "boundary") (ct_params ct) with
            | None | Some [] => st
            | Some boundary =>
                let parts := splitMultipart bodyText boundary (remaining st + 1) in
                if remaining st <? len parts then exceed st
                else fold_left (fun st partStr =>
                       if exceeded st then st
                       else let '(headerText, partBody) := splitHeaderBody partStr in walkEntity l (parseHeaders headerText) partBody st) parts st
            end
          else walkLeaf ct headers bodyText st
  end.

Definition initialWalk : WalkState :=
  {| textPlain := None; textHtmlStripped := None; hasAttachment := false; remaining := MAX_MIME_PARTS; exceeded := false |}.

Definition extractBody (headers : Headers) (bodyText : jsstr) : option jsstr * bool :=
  match headers, bodyText with
  | [], [] => (None, false)
  | _, _ =>
      let st := walkEntity (S MAX_MIME_DEPTH) headers bodyText initialWalk in
      if exceeded st then (None, false)
      else (match textPlain st with Some t => Some t | None => textHtmlStripped st end, hasAttachment st)
  end.
End Walk.

Definition computePreview (text : jsstr) : jsstr := take 200 (trim (collapseWs false text)).

(** ** Examples *)

(** No label beyond the ones the code handles itself. *)
Definition noDecoders : TextDecoders := {| textDecoder := fun _ => None |}.

Definition exampleMultipart : jsstr :=
  js "pre" ++ crlf ++ js "--B" ++ crlf ++ js "Content-Type: text/html" ++ crlf ++ crlf ++ js "<b>hi</b>" ++ crlf ++
  js "--B" ++ crlf ++ js "Content-Type: application/pdf; name*0*=utf-8''a%20; name*1=b" ++ crlf ++ crlf ++ js "x" ++ crlf ++ js "--B--" ++ crlf.

Example extractBody_ex : extractBody (H := noDecoders) [(js "content-type", [js "multipart/mixed; boundary=" ++ [34] ++ js "B" ++ [34]])] exampleMultipart = (Some (js "hi"), true).
Proof. vm_compute. reflexivity. Qed.
