(* ===== verification/MimeStructure.v ===== *)
(** * The tree of parts with byte offsets (packages/mime/src/structure.ts)

    What IMAP's BODYSTRUCTURE and BODY[section] and JMAP read: the parts of a message as ranges of its
    bytes.  The searches are bounded to the range of the part, and one budget of parts serves the
    whole tree; a message that exceeds it is one part of plain text. *)

From S2P Require Import Prelude JsString Loop Text MimeEncoding MimeHeaders MimeFields MimeHtml MimeBody.

Record MimeDisposition := mkDisposition { md_type : jsstr; md_params : Params }.

Inductive MimePartInfo := mkPart {
  start : nat; bodyStart : nat; end_ : nat; type : jsstr; subtype : jsstr; params : Params; contentId : option jsstr; description : option jsstr;
  encoding : jsstr; disposition : option MimeDisposition; size : Z; lines : Z; children : list MimePartInfo }.

(** ** Searching within a range *)

Definition indexOfWithin (bin needle : jsstr) (from end_ : nat) : option nat :=
  if (end_ <=? from)%nat then None
  else
    let scanEnd := Nat.min (end_ + length needle - 1) (length bin) in
    let idx :=
      if ((scanEnd - from) * 2 <? length bin - from)%nat
      then (fun found => (from + found)%nat) <$> indexOfStr needle (slice bin from scanEnd)
      else indexFrom needle bin from in
    match idx with
    | Some i => if (end_ <=? i)%nat then None else Some i
    | None => None
    end.

(** Where the header of the range ends and its body starts. *)
Definition findBodyStart (bin : jsstr) (from end_ : nat) : nat * nat :=
  let crlf := indexOfWithin bin CRLFCRLF from end_ in
  let lf := indexOfWithin bin LFLF from end_ in
  let sep :=
    match crlf, lf with
    | None, None => None
    | Some c, None => Some (c, 4%nat)
    | None, Some l => Some (l, 2%nat)
    | Some c, Some l => if (l <? c)%nat then Some (l, 2%nat) else Some (c, 4%nat)
    end in
  match sep with
  | None => (end_, end_)
  | Some (s, n) => (s, Nat.min (s + n) end_)
  end.

Definition countLines (bin : jsstr) (from end_ : nat) : Z := len (List.filter (fun c => c =? LF) (slice bin from end_)).

(** ** Ranges of the parts *)

(** The end of a part in front of a boundary: the line end belongs to the boundary. *)
Definition dropUnit (c : Z) (bin : jsstr) (partStart partEnd : nat) : nat :=
  if (partStart <? partEnd)%nat && bool_decide (bin !! (partEnd - 1)%nat = Some c) then (partEnd - 1)%nat else partEnd.

Definition partRange (bin : jsstr) (partStart idx : nat) : nat * nat :=
  (partStart, dropUnit CR bin partStart (dropUnit LF bin partStart idx)).

(** What the loop does behind its last iteration: the rest of the range is the last part. *)
Definition lastRange (end_ : nat) (maxRanges : Z) (ranges : list (nat * nat)) (partStart : option nat) : list (nat * nat) :=
  match partStart with
  | Some s => if (s <? end_)%nat && (len ranges <? maxRanges) then ranges ++ [(s, end_)] else ranges
  | None => ranges
  end.

Fixpoint rangeLoop (fuel : nat) (bin delim : jsstr) (from end_ : nat) (maxRanges : Z) (ranges : list (nat * nat)) (partStart : option nat) (cursor : nat) : list (nat * nat) :=
  match fuel with
  | O => lastRange end_ maxRanges ranges partStart
  | S f =>
      if (cursor <? end_)%nat && (len ranges <? maxRanges) then
        match indexOfWithin bin delim cursor end_ with
        | None => lastRange end_ maxRanges ranges partStart
        | Some idx =>
            let atLineStart := (idx =? from)%nat || bool_decide (bin !! (idx - 1)%nat = Some LF) in
            let afterIdx := (idx + length delim)%nat in
            if negb atLineStart then rangeLoop f bin delim from end_ maxRanges ranges partStart afterIdx
            else
              let isFinal := startsWith (js "--") (drop afterIdx bin) in
              let ranges := match partStart with Some s => ranges ++ [partRange bin s idx] | None => ranges end in
              if isFinal then ranges
              else match indexOfWithin bin [LF] afterIdx end_ with
                   | None => ranges
                   | Some nl => rangeLoop f bin delim from end_ maxRanges ranges (Some (S nl)) (S nl)
                   end
        end
      else lastRange end_ maxRanges ranges partStart
  end.

Definition splitParts (bin boundary : jsstr) (from end_ : nat) (maxRanges : Z) : list (nat * nat) :=
  rangeLoop (S (length bin)) bin (js "--" ++ boundary) from end_ maxRanges [] None from.

(** ** The tree *)

Record PartBudget := mkBudget { b_remaining : Z; b_exceeded : bool }.

Section Structure.
Context `{TextDecoders}.

(** The part of a range, without children. *)
Definition leafPart (bin : jsstr) (start end_ : nat) : MimePartInfo :=
  let '(headerEnd, bodyStart) := findBodyStart bin start end_ in
  let headers := parseHeaders (slice bin start headerEnd) in
  let ct := parseContentType (firstHeader headers (js "content-type")) in
  let disposition :=
    match parseContentDisposition (firstHeader headers (js "content-disposition")) with
    | Some {| cd_type := (_ :: _) as t; cd_filename := f |} =>
        Some {| md_type := t; md_params := match f with Some n => [(js "filename", n)] | None => [] end |}
    | _ => None
    end in
  let encoding := toLowerCase (trim (default (js "7bit") (firstHeader headers (js "content-transfer-encoding")))) in
  {| start := start; bodyStart := bodyStart; end_ := end_; type := ct_type ct; subtype := ct_subtype ct; params := ct_params ct;
     contentId := firstHeader headers (js "content-id"); description := firstHeader headers (js "content-description");
     encoding := match encoding with [] => js "7bit" | e => e end; disposition := disposition;
     size := Z.of_nat end_ - Z.of_nat bodyStart; lines := countLines bin bodyStart end_; children := [] |}.

Definition withChildren (p : MimePartInfo) (cs : list MimePartInfo) : MimePartInfo :=
  {| start := start p; bodyStart := bodyStart p; end_ := end_ p; type := type p; subtype := subtype p; params := params p; contentId := contentId p;
     description := description p; encoding := encoding p; disposition := disposition p; size := size p; lines := lines p; children := cs |}.

(** The loop over the ranges, which stops when the budget is exceeded. *)
Fixpoint parseRanges (parse : nat -> nat -> PartBudget -> MimePartInfo * PartBudget) (ranges : list (nat * nat)) (budget : PartBudget) : list MimePartInfo * PartBudget :=
  match ranges with
  | [] => ([], budget)
  | (s, e) :: r =>
      if b_exceeded budget then ([], budget)
      else
        let '(p, budget) := parse s e budget in
        let '(ps, budget) := parseRanges parse r budget in
        (p :: ps, budget)
  end.

(** [levels] is [MAX_MIME_DEPTH] less the depth. *)
Fixpoint parseRange (levels : nat) (bin : jsstr) (start end_ : nat) (budget : PartBudget) : MimePartInfo * PartBudget :=
  let remaining := b_remaining budget - 1 in
  let budget := {| b_remaining := remaining; b_exceeded := b_exceeded budget || (remaining <? 0) |} in
  let part := leafPart bin start end_ in
  match levels with
  | O => (part, budget)
  | S l =>
      if b_exceeded budget then (part, budget)
      else if type part === js "multipart" then
        match mapGet (js "boundary") (params part) with
        | None | Some [] => (part, budget)
        | Some boundary =>
            let ranges := splitParts bin boundary (bodyStart part) end_ (remaining + 1) in
            let budget := {| b_remaining := remaining; b_exceeded := b_exceeded budget || (remaining <? len ranges) |} in
            let '(cs, budget) := parseRanges (parseRange l bin) ranges budget in
            (withChildren part cs, budget)
        end
      else if (type part === js "message") && (subtype part === js "rfc822") then
        let '(c, budget) := parseRange l bin (bodyStart part) end_ budget in
        (withChildren part [c], budget)
      else (part, budget)
  end.

Definition collapsedPart (bin : jsstr) : MimePartInfo :=
  {| start := 0; bodyStart := 0; end_ := length bin; type := js "text"; subtype := js "plain"; params := []; contentId := None; description := None;
     encoding := js "7bit"; disposition := None; size := len bin; lines := countLines bin 0 (length bin); children := [] |}.

(** The bytes of the message are the units of the binary string. *)
Definition parseStructure (raw : bytes) : MimePartInfo :=
  let '(root, budget) := parseRange MAX_MIME_DEPTH raw 0 (length raw) {| b_remaining := MAX_MIME_PARTS; b_exceeded := false |} in
  if b_exceeded budget then collapsedPart raw else root.
End Structure.

(** ** The bounded search *)

Lemma startsWith_take p s n : startsWith p (take n s) = startsWith p s && (length p <=? n)%nat.
Proof.
  revert s n. induction p as [|x p IH]; intros s n; [done|]. destruct s as [|y s]; [by rewrite take_nil|]. destruct n as [|n]; cbn [take startsWith length]; [by rewrite andb_false_r|].
  rewrite IH. cbn. by rewrite andb_assoc.
Qed.

Lemma occurs_slice p s a b j : p <> [] -> occurs p (slice s a b) j <-> occurs p s (a + j) /\ (a + j + length p <= b)%nat.
Proof.
  intros Hp. assert (0 < length p)%nat by (destruct p; cbn; [done|lia]). unfold occurs, slice.
  rewrite skipn_firstn_comm, drop_drop, startsWith_take, andb_true_iff, Nat.leb_le. split; intros [H1 H2]; (split; [done|lia]).
Qed.

(** An index from one end on, by what it means. *)
Lemma indexFrom_unique p s i k : p <> [] -> (i <= k)%nat -> occurs p s k -> (k <= length s)%nat -> (forall j, (i <= j < k)%nat -> ~ occurs p s j) -> indexFrom p s i = Some k.
Proof.
  intros Hp Hi Hk Hl Hmin. destruct (indexFrom p s i) as [m|] eqn:E.
  - destruct (indexFrom_Some p s i m Hp E) as (H1 & H2 & H3 & H4). destruct (Nat.lt_trichotomy m k) as [Hlt|[->|Hgt]]; [|done|].
    + by destruct (Hmin m).
    + by destruct (H4 k).
  - by destruct (indexFrom_None p s i Hp E k Hi).
Qed.

Lemma occurs_length p s j : p <> [] -> occurs p s j -> (j + length p <= length s)%nat.
Proof.
  intros Hp Ho. unfold occurs in Ho. apply startsWith_split in Ho. apply (f_equal length) in Ho. rewrite length_app, length_drop in Ho.
  destruct p; [done|]. cbn [length] in *. lia.
Qed.

(** The search that copies the range when the range is small finds what the search of the whole text
    finds, cut to the range. *)
Lemma indexOfWithin_exact bin needle from e : needle <> [] -> (from <= length bin)%nat ->
  indexOfWithin bin needle from e = match indexFrom needle bin from with Some i => if (i <? e)%nat then Some i else None | None => None end.
Proof.
  intros Hn Hf. assert (Hlen : (0 < length needle)%nat) by (destruct needle; cbn; [done|lia]). unfold indexOfWithin.
  destruct (Nat.leb_spec e from) as [Hle|Hlt].
  { destruct (indexFrom needle bin from) as [i|] eqn:E; [|done]. destruct (indexFrom_Some _ _ _ _ Hn E) as (H1 & _).
    destruct (Nat.ltb_spec i e); [lia|done]. }
  set (scanEnd := Nat.min (e + length needle - 1) (length bin)). destruct (_ <? _)%nat; [|by destruct (indexFrom needle bin from) as [i|]; [destruct (Nat.leb_spec e i), (Nat.ltb_spec i e); (done || lia)|]].
  destruct (indexFrom needle (slice bin from scanEnd) 0) as [m|] eqn:Em.
  - pose proof (indexFrom_Some _ _ _ _ Hn Em) as (_ & _ & Ho & Hmin). unfold indexFrom in Em. rewrite drop_0 in Em. apply fmap_Some in Em as (m' & Hm' & ->). rewrite Hm'. cbn [fmap option_fmap option_map].
    apply occurs_slice in Ho as [Ho Hb]; [|done]. cbn [Nat.add] in *.
    rewrite (indexFrom_unique needle bin from (from + m')); [|done|lia|done|apply occurs_length in Ho; [lia|done]|].
    + destruct (Nat.leb_spec e (from + m')), (Nat.ltb_spec (from + m') e); (done || lia).
    + intros j Hj Hoj. apply (Hmin (j - from)%nat); [lia|]. apply occurs_slice; [done|]. replace (from + (j - from))%nat with j by lia. split; [done|lia].
  - unfold indexFrom in Em. rewrite drop_0 in Em. apply fmap_None in Em as Em'. rewrite Em'. cbn [fmap option_fmap option_map].
    destruct (indexFrom needle bin from) as [i|] eqn:E; [|done]. destruct (Nat.ltb_spec i e); [|done]. exfalso.
    destruct (indexFrom_Some _ _ _ _ Hn E) as (H1 & H2 & H3 & _).
    assert (Em2 : indexFrom needle (slice bin from scanEnd) 0 = None) by (unfold indexFrom; by rewrite drop_0, Em').
    apply (indexFrom_None _ _ _ Hn Em2 (i - from)%nat ltac:(lia)). apply occurs_slice; [done|]. replace (from + (i - from))%nat with i by lia. split; [done|lia].
Qed.

Lemma indexOfWithin_range bin needle from e i : needle <> [] -> (from <= length bin)%nat -> indexOfWithin bin needle from e = Some i ->
  (from <= i < e)%nat /\ (i + length needle <= length bin)%nat.
Proof.
  intros Hn Hf. rewrite indexOfWithin_exact by done. destruct (indexFrom needle bin from) as [k|] eqn:E; [|done].
  destruct (indexFrom_Some _ _ _ _ Hn E) as (H1 & H2 & _). destruct (Nat.ltb_spec k e); [|done]. intros [= ->]. lia.
Qed.

(** ** Ranges one behind the other *)

Fixpoint chain (lo hi : nat) (rs : list (nat * nat)) : Prop :=
  match rs with [] => (lo <= hi)%nat | (s, e) :: r => (lo <= s <= e)%nat /\ chain e hi r end.

Lemma chain_le lo hi rs : chain lo hi rs -> (lo <= hi)%nat.
Proof. revert lo. induction rs as [|[s e] rs IH]; intros lo; [done|]. intros [H1 H2%IH]. lia. Qed.

Lemma chain_mono lo hi hi' rs : (hi <= hi')%nat -> chain lo hi rs -> chain lo hi' rs.
Proof. intros Hh. revert lo. induction rs as [|[s e] rs IH]; intros lo; cbn; [lia|]. intros [H1 H2]. split; [done|by apply IH]. Qed.

Lemma chain_snoc lo hi rs s e : chain lo s rs -> (s <= e <= hi)%nat -> chain lo hi (rs ++ [(s, e)]).
Proof. intros Hc He. revert lo Hc. induction rs as [|[s' e'] rs IH]; intros lo; cbn; [lia|]. intros [H1 H2]. split; [done|by apply IH]. Qed.

Lemma dropUnit_range c bin s e : (s <= e)%nat -> (s <= dropUnit c bin s e <= e)%nat.
Proof. intros H. unfold dropUnit. destruct (Nat.ltb_spec s e); cbn [andb]; [|lia]. destruct (bool_decide _); lia. Qed.

Lemma partRange_snoc lo hi rs bin s idx : chain lo s rs -> (s <= idx <= hi)%nat -> chain lo hi (rs ++ [partRange bin s idx]).
Proof.
  intros Hc Hi. pose proof (dropUnit_range LF bin s idx ltac:(lia)) as H1. pose proof (dropUnit_range CR bin s _ (proj1 H1)) as H2.
  apply chain_snoc; [done|lia].
Qed.

Lemma lastRange_chain lo e mx rs ps cursor : chain lo (default cursor ps) rs -> (default cursor ps <= e)%nat -> chain lo e (lastRange e mx rs ps).
Proof.
  intros Hc He. unfold lastRange. destruct ps as [s|]; cbn in *; [|by eapply chain_mono].
  destruct (_ && _); [by apply chain_snoc|by eapply chain_mono].
Qed.

Section Ranges.
Context (bin delim : jsstr) (Hdelim : delim <> []) (from e : nat) (mx : Z) (He : (e <= length bin)%nat).

Lemma rangeLoop_chain fuel rs ps cursor : chain from (default cursor ps) rs -> (default cursor ps <= cursor)%nat -> (default cursor ps <= e)%nat ->
  (cursor <= length bin)%nat -> chain from e (rangeLoop fuel bin delim from e mx rs ps cursor).
Proof.
  revert rs ps cursor. induction fuel as [|f IH]; intros rs ps cursor Hc Hp Hpe Hl; cbn [rangeLoop]; [by eapply lastRange_chain|].
  destruct ((cursor <? e)%nat && (len rs <? mx)); [|by eapply lastRange_chain].
  destruct (indexOfWithin bin delim cursor e) as [idx|] eqn:Ei; [|by eapply lastRange_chain].
  destruct (indexOfWithin_range _ _ _ _ _ Hdelim Hl Ei) as [H1 H2].
  destruct (negb _).
  { destruct ps as [s|]; cbn [from_option id] in *; [apply IH; cbn [from_option id]; lia || done|].
    destruct (Nat.le_gt_cases (idx + length delim) e).
    - apply IH; cbn [from_option id]; try lia. eapply chain_mono; [|done]. lia.
    - (* the loop ends *) destruct f as [|f']; cbn [rangeLoop].
      + unfold lastRange. eapply chain_mono; [|done]. lia.
      + destruct (Nat.ltb_spec (idx + length delim) e); [lia|]. cbn [andb]. unfold lastRange. eapply chain_mono; [|done]. lia. }
  assert (Hrs : chain from (Nat.min idx e) (match ps with Some s => rs ++ [partRange bin s idx] | None => rs end)).
  { destruct ps as [s|]; cbn [from_option id] in *; [apply partRange_snoc; [done|lia]|]. eapply chain_mono; [|done]. lia. }
  destruct (startsWith _ _); [eapply chain_mono; [|done]; lia|].
  destruct (indexOfWithin bin [LF] (idx + length delim) e) as [nl|] eqn:En; [|eapply chain_mono; [|done]; lia].
  destruct (indexOfWithin_range _ [LF] _ _ _ ltac:(done) H2 En) as [H3 H4]. cbn [length] in H4.
  apply IH; cbn [from_option id]; try lia. eapply chain_mono; [|done]. lia.
Qed.
End Ranges.

Lemma splitParts_chain bin boundary from e mx : (from <= e <= length bin)%nat -> chain from e (splitParts bin boundary from e mx).
Proof. intros H. unfold splitParts. apply rangeLoop_chain; cbn; (done || lia). Qed.

(** ** The tree is well-formed *)

(** Body and children lie in the range of the part, the children one behind the other, and so on
    down. *)
Fixpoint wfPart (p : MimePartInfo) : Prop :=
  match p with
  | mkPart s b e _ _ _ _ _ _ _ sz _ cs =>
      (s <= b <= e)%nat /\ sz = Z.of_nat e - Z.of_nat b /\ chain b e (map (fun c => (start c, end_ c)) cs) /\
      (fix all l := match l with [] => True | c :: r => wfPart c /\ all r end) cs
  end.

Fixpoint countParts (p : MimePartInfo) : Z :=
  match p with mkPart _ _ _ _ _ _ _ _ _ _ _ _ cs => 1 + (fix sum l := match l with [] => 0 | c :: r => countParts c + sum r end) cs end.

Fixpoint depthOf (p : MimePartInfo) : nat :=
  match p with mkPart _ _ _ _ _ _ _ _ _ _ _ _ cs => (fix deepest l := match l with [] => O | c :: r => Nat.max (S (depthOf c)) (deepest r) end) cs end.

Definition wfParts (l : list MimePartInfo) : Prop := (fix all l := match l with [] => True | c :: r => wfPart c /\ all r end) l.
Definition countAll (l : list MimePartInfo) : Z := (fix sum l := match l with [] => 0 | c :: r => countParts c + sum r end) l.
Definition deepestOf (l : list MimePartInfo) : nat := (fix deepest l := match l with [] => O | c :: r => Nat.max (S (depthOf c)) (deepest r) end) l.

(** What a parse of a range promises. *)
Definition parsed (levels s e : nat) (b : PartBudget) (r : MimePartInfo * PartBudget) : Prop :=
  let '(p, b') := r in
  wfPart p /\ start p = s /\ end_ p = e /\ (depthOf p <= levels)%nat /\
  (b_exceeded b' = false -> b_exceeded b = false /\ b_remaining b' = b_remaining b - countParts p /\ 0 <= b_remaining b').

Section Tree.
Context `{TextDecoders}.

Lemma findBodyStart_range bin s e : (s <= e <= length bin)%nat -> (s <= (findBodyStart bin s e).2 <= e)%nat.
Proof.
  intros Hs. unfold findBodyStart.
  destruct (indexOfWithin bin CRLFCRLF s e) as [c|] eqn:Ec; destruct (indexOfWithin bin LFLF s e) as [l|] eqn:El;
    try (apply indexOfWithin_range in Ec as [? _]; [|done|lia]); try (apply indexOfWithin_range in El as [? _]; [|done|lia]);
    [destruct (l <? c)%nat| | |]; cbn [snd]; lia.
Qed.

Lemma leafPart_wf bin s e : (s <= e <= length bin)%nat ->
  let p := leafPart bin s e in start p = s /\ end_ p = e /\ children p = [] /\ (s <= bodyStart p <= e)%nat /\ size p = Z.of_nat e - Z.of_nat (bodyStart p).
Proof.
  intros Hs. pose proof (findBodyStart_range bin s e Hs) as Hb. unfold leafPart. destruct (findBodyStart bin s e) as [he bs]. cbn in *. done.
Qed.

Lemma withChildren_wf p cs : (start p <= bodyStart p <= end_ p)%nat -> size p = Z.of_nat (end_ p) - Z.of_nat (bodyStart p) ->
  chain (bodyStart p) (end_ p) (map (fun c => (start c, end_ c)) cs) -> wfParts cs ->
  wfPart (withChildren p cs) /\ countParts (withChildren p cs) = 1 + countAll cs /\ depthOf (withChildren p cs) = deepestOf cs.
Proof. intros H1 H2 H3 H4. done. Qed.

Lemma withChildren_id p : children p = [] -> withChildren p [] = p.
Proof. destruct p. cbn. by intros ->. Qed.

Lemma parseRanges_spec parse levels (bin : jsstr) rs b lo hi :
  (forall s e b, (s <= e <= length bin)%nat -> parsed levels s e b (parse s e b)) -> chain lo hi rs -> (hi <= length bin)%nat -> 0 <= b_remaining b ->
  let '(cs, b') := parseRanges parse rs b in
  wfParts cs /\ chain lo hi (map (fun c => (start c, end_ c)) cs) /\ (deepestOf cs <= S levels)%nat /\
  (b_exceeded b' = false -> b_exceeded b = false /\ b_remaining b' = b_remaining b - countAll cs /\ 0 <= b_remaining b').
Proof.
  intros Hparse. revert lo b. induction rs as [|[s e] rs IH]; intros lo b Hc Hh Hb; cbn [parseRanges].
  { cbn in *. repeat split; try done; lia. }
  destruct (b_exceeded b) eqn:Eb.
  { cbn. repeat split; try done; try lia; try congruence. by apply chain_le in Hc. }
  destruct Hc as [Hs Hc]. pose proof (chain_le _ _ _ Hc) as Hle. specialize (Hparse s e b ltac:(lia)).
  destruct (parse s e b) as [p b1]. destruct Hparse as (W & Ss & Se & D & B).
  destruct (b_exceeded b1) eqn:Eb1.
  - (* the loop stops behind this part *)
    assert (Hstop : parseRanges parse rs b1 = ([], b1)) by (destruct rs as [|[? ?] ?]; cbn; [done|by rewrite Eb1]). rewrite Hstop.
    cbn [map chain wfParts deepestOf countAll]. rewrite Ss, Se. split; [by split|]. split; [split; [lia|by apply chain_le in Hc]|]. split; [lia|]. congruence.
  - destruct (B eq_refl) as (_ & B2 & B3). specialize (IH e b1 Hc Hh B3). destruct (parseRanges parse rs b1) as [ps b2].
    destruct IH as (I1 & I2 & I3 & I4). cbn [map chain wfParts deepestOf countAll]. rewrite Ss, Se.
    split; [by split|]. split; [split; [lia|done]|]. split; [fold (deepestOf ps); lia|]. intros Hx. destruct (I4 Hx) as (_ & J2 & J3).
    split; [done|]. fold (countAll ps). lia.
Qed.
(** A part without children, under a budget that counts it. *)
Lemma leaf_parsed levels bin s e b : (s <= e <= length bin)%nat ->
  parsed levels s e b (leafPart bin s e, {| b_remaining := b_remaining b - 1; b_exceeded := b_exceeded b || (b_remaining b - 1 <? 0) |}).
Proof.
  intros Hs. pose proof (leafPart_wf bin s e Hs) as (H1 & H2 & H3 & H4 & H5). cbn [parsed].
  pose proof (withChildren_wf (leafPart bin s e) []) as Hw. rewrite (withChildren_id _ H3), H1, H2 in Hw. cbn [map chain wfParts countAll deepestOf] in Hw.
  destruct Hw as (W & C & D); [done|done|lia|done|]. rewrite C, D. repeat split; try done; try lia; cbn [b_exceeded b_remaining] in *;
    (destruct (b_exceeded b); [done|]); cbn [orb] in *; apply Z.ltb_ge in H0; lia || done.
Qed.

Lemma parseRange_spec levels bin s e b : (s <= e <= length bin)%nat -> parsed levels s e b (parseRange levels bin s e b).
Proof.
  revert s e b. induction levels as [|l IH]; intros s e b Hs; pose proof (leaf_parsed 0 bin s e b Hs) as Hleaf; cbn [parseRange]; [done|].
  pose proof (leaf_parsed (S l) bin s e b Hs) as HleafS. set (part := leafPart bin s e) in *. set (b1 := {| b_remaining := b_remaining b - 1; b_exceeded := _ |}) in *.
  destruct (b_exceeded b1) eqn:Eb1; [done|]. destruct (leafPart_wf bin s e Hs) as (P1 & P2 & P3 & P4 & P5). fold part in P1, P2, P3, P4, P5.
  destruct Hleaf as (_ & _ & _ & _ & Hb). destruct (Hb Eb1) as (B1 & B2 & B3). cbn [b_remaining b1] in B3.
  destruct (type part === js "multipart").
  - destruct (mapGet (js "boundary") (params part)) as [[|c boundary]|]; [done| |done].
    set (ranges := splitParts bin (c :: boundary) (bodyStart part) e (b_remaining b - 1 + 1)).
    set (b2 := {| b_remaining := b_remaining b - 1; b_exceeded := _ |}).
    pose proof (splitParts_chain bin (c :: boundary) (bodyStart part) e (b_remaining b - 1 + 1) ltac:(lia)) as Hc. fold ranges in Hc.
    pose proof (parseRanges_spec (parseRange l bin) l bin ranges b2 _ _ IH Hc ltac:(lia) B3) as Hr.
    destruct (parseRanges (parseRange l bin) ranges b2) as [cs b']. destruct Hr as (R1 & R2 & R3 & R4).
    destruct (withChildren_wf part cs) as (W & C & D); [lia|by rewrite P2|by rewrite P2|done|].
    split; [done|]. split; [done|]. split; [done|]. split; [by rewrite D|]. intros Hx. destruct (R4 Hx) as (_ & Q2 & Q3). cbn [b_remaining b2] in Q2.
    rewrite C. split; [done|]. lia.
  - destruct ((type part === js "message") && _); [|done].
    specialize (IH (bodyStart part) e b1 ltac:(lia)). destruct (parseRange l bin (bodyStart part) e b1) as [p b']. destruct IH as (I1 & I2 & I3 & I4 & I5).
    destruct (withChildren_wf part [p]) as (W & C & D); [lia|by rewrite P2|cbn; rewrite I2, I3, P2; lia|done|].
    split; [done|]. split; [done|]. split; [done|]. split; [rewrite D; cbn; lia|]. intros Hx. destruct (I5 Hx) as (_ & Q2 & Q3). cbn [b_remaining b1] in Q2.
    rewrite C. cbn [countAll]. split; [done|]. lia.
Qed.

Lemma structure_root raw : wfPart (parseStructure raw) /\ start (parseStructure raw) = 0%nat /\ end_ (parseStructure raw) = length raw.
Proof.
  unfold parseStructure. pose proof (parseRange_spec MAX_MIME_DEPTH raw 0 (length raw) {| b_remaining := MAX_MIME_PARTS; b_exceeded := false |} ltac:(lia)) as Hp.
  destruct (parseRange _ _ _ _ _) as [root b]. destruct Hp as (H1 & H2 & H3 & _). destruct (b_exceeded b); [|done].
  cbn. unfold len. repeat split; lia.
Qed.

(** C36: the tree of parts is a tree of ranges of the message, whatever the message: the root is the
    whole of it; in every part the body lies behind the header and the children lie in the body, one
    behind the other without overlap, and the size is the length of the body; there are at most 1024
    parts and at most 20 levels below the root. *)
Theorem mime_structure_tree raw (p := parseStructure raw) :
  wfPart p /\ start p = 0%nat /\ end_ p = length raw /\ countParts p <= MAX_MIME_PARTS /\ (depthOf p <= MAX_MIME_DEPTH)%nat.
Proof.
  unfold p, parseStructure. pose proof (parseRange_spec MAX_MIME_DEPTH raw 0 (length raw) {| b_remaining := MAX_MIME_PARTS; b_exceeded := false |} ltac:(lia)) as Hp.
  destruct (parseRange _ _ _ _ _) as [root b]. destruct Hp as (H1 & H2 & H3 & H4 & H5). destruct (b_exceeded b) eqn:Eb.
  - cbn. unfold MAX_MIME_PARTS, MAX_MIME_DEPTH, len. repeat split; lia.
  - destruct (H5 eq_refl) as (_ & H6 & H7). cbn in H6. repeat split; try done. lia.
Qed.
End Tree.

(** ** Examples *)

Definition typesOf (p : MimePartInfo) : list jsstr := map (fun c => type c ++ [47] ++ subtype c) (children p).

Example parseStructure_ex :
  typesOf (parseStructure (H := noDecoders) (js "Content-Type: multipart/mixed; boundary=B" ++ crlf ++ crlf ++ exampleMultipart)) = [js "text/html"; js "application/pdf"].
Proof. vm_compute. reflexivity. Qed.

(** ** Where the code falls short *)

(** The walk over the body and the tree of parts read the same message differently: the first knows
    a header that ends in two carriage returns, *)
Definition crMessage : bytes := js "Subject: x" ++ [CR; CR] ++ js "body".

Lemma body_structure_cr :
  (splitHeaderBody crMessage).2 = js "body" /\ size (parseStructure (H := noDecoders) crMessage) = 0.
Proof. vm_compute. by split. Qed.

(** and starts a part right behind the boundary, the second behind the line of the boundary. *)
Definition blankBoundary : bytes := js "--B " ++ [LF; LF] ++ js "Content-Disposition: attachment" ++ [LF; LF] ++ js "x" ++ [LF] ++ js "--B--".

Lemma body_structure_boundary :
  (extractBody (H := noDecoders) [(js "content-type", [js "multipart/mixed; boundary=B"])] blankBoundary).2 = false /\
  map (fun c => md_type <$> disposition c) (children (parseStructure (H := noDecoders) (js "Content-Type: multipart/mixed; boundary=B" ++ [LF; LF] ++ blankBoundary)))
    = [Some (js "attachment")].
Proof. vm_compute. by split. Qed.
