(* ===== verification/JmapBody.v ===== *)
(** * The body of a message for JMAP (packages/mime/src/jmap-body.ts)

    The tree of parts as EmailBodyPart objects with ids in document order, the split of its leaves
    into text, HTML and attachments, and the decoded values of the parts that are shown. *)

From S2P Require Import Prelude JsString Loop Text MimeEncoding MimeHeaders MimeFields MimeHtml MimeBody MimeStructure.

(** The members that are always null (blobId, language, location) are left out. *)
Inductive EmailBodyPart := mkBodyPart {
  partId : option jsstr; e_size : Z; e_name : option jsstr; e_type : jsstr; e_charset : option jsstr; e_disposition : option jsstr; e_cid : option jsstr;
  subParts : option (list EmailBodyPart) }.

Record JmapBodyValue := mkBodyValue { value : jsstr; isTruncated : bool }.

Record Leaf := mkLeaf { l_part : EmailBodyPart; l_info : MimePartInfo }.

Record JmapBody := mkJmapBody {
  bodyStructure : EmailBodyPart; textBody : list EmailBodyPart; htmlBody : list EmailBodyPart; attachments : list EmailBodyPart;
  bodyValues : list (jsstr * JmapBodyValue) }.

Definition partOfInfo (info : MimePartInfo) (id : option jsstr) (subs : option (list EmailBodyPart)) : EmailBodyPart :=
  let isMultipart := type info === js "multipart" in
  {| partId := id; e_size := if isMultipart then 0 else size info;
     e_name := match disposition info ≫= (fun d => mapGet (js "filename") (md_params d)) with Some n => Some n | None => mapGet (js "name") (params info) end;
     e_type := type info ++ [47] ++ subtype info; e_charset := if isMultipart then None else mapGet (js "charset") (params info);
     e_disposition := md_type <$> disposition info; e_cid := contentId info; subParts := subs |}.

(** The closure [map]: the counter and the leaves so far are threaded. *)
Fixpoint mapPart (info : MimePartInfo) (counter : Z) (leaves : list Leaf) {struct info} : EmailBodyPart * Z * list Leaf :=
  match info with
  | mkPart _ _ _ t _ _ _ _ _ _ _ _ cs =>
      if t === js "multipart" then
        let '(subs, counter, leaves) :=
          (fix go cs counter leaves :=
             match cs with
             | [] => ([], counter, leaves)
             | c :: r =>
                 let '(p, counter, leaves) := mapPart c counter leaves in
                 let '(ps, counter, leaves) := go r counter leaves in (p :: ps, counter, leaves)
             end) cs counter leaves in
        (partOfInfo info None (Some subs), counter, leaves)
      else
        let part := partOfInfo info (Some (numToString (counter + 1))) None in
        (part, counter + 1, leaves ++ [{| l_part := part; l_info := info |}])
  end.

Inductive LeafClass := CText | CHtml | CAttachment.

Definition classify (l : Leaf) : LeafClass :=
  let info := l_info l in
  let isText := type info === js "text" in
  let dispositionIs d := match e_disposition (l_part l) with Some x => x === d | None => false end in
  let isAttachment := dispositionIs (js "attachment") || (negb isText && negb (dispositionIs (js "inline")) && negb (type info === js "multipart")) in
  if isAttachment then CAttachment
  else if isText && (subtype info === js "html") then CHtml
  else if isText then CText
  else CAttachment.

Definition isClass (c : LeafClass) (l : Leaf) : bool :=
  match classify l, c with CText, CText | CHtml, CHtml | CAttachment, CAttachment => true | _, _ => false end.

Section Body.
Context `{TextDecoders}.

Definition decodeLeaf (bin : bytes) (maxBodyValueBytes : Z) (l : Leaf) : JmapBodyValue :=
  let info := l_info l in
  let v := decodeTextPart (slice bin (bodyStart info) (end_ info)) (encoding info) (e_charset (l_part l)) in
  if (0 <? maxBodyValueBytes) && (maxBodyValueBytes <? len v) then {| value := take (Z.to_nat maxBodyValueBytes) v; isTruncated := true |}
  else {| value := v; isTruncated := false |}.

(** [decodeInto] on parts given with their leaves. *)
Definition decodeInto (bin : bytes) (maxBytes : Z) (values : list (jsstr * JmapBodyValue)) (ls : list Leaf) : list (jsstr * JmapBodyValue) :=
  fold_left (fun vs l =>
    match partId (l_part l) with
    | None => vs
    | Some id => match mapGet id vs with Some _ => vs | None => vs ++ [(id, decodeLeaf bin maxBytes l)] end
    end) ls values.

Definition extractJmapBody (raw : bytes) (maxBodyValueBytes : Z) : JmapBody :=
  let '(root, _, leaves) := mapPart (parseStructure raw) 0 [] in
  let text := List.filter (isClass CText) leaves in
  let html := List.filter (isClass CHtml) leaves in
  let effText := match text with [] => html | _ => text end in
  let effHtml := match html with [] => text | _ => html end in
  {| bodyStructure := root; textBody := map l_part effText; htmlBody := map l_part effHtml;
     attachments := map l_part (List.filter (isClass CAttachment) leaves);
     bodyValues := decodeInto raw maxBodyValueBytes (decodeInto raw maxBodyValueBytes [] effText) effHtml |}.
End Body.

Definition jmapExample : bytes := js "Content-Type: multipart/mixed; boundary=B" ++ crlf ++ crlf ++ exampleMultipart.

Example extractJmapBody_ex :
  let b := extractJmapBody (H := noDecoders) jmapExample 5 in
  map partId (textBody b) = [Some (js "1")] /\ map e_type (attachments b) = [js "application/pdf"] /\
  map e_name (attachments b) = [Some (js "a b")] /\ bodyValues b = [(js "1", {| value := js "<b>hi"; isTruncated := true |})].
Proof. vm_compute. repeat split. Qed.

Section Helpers.
Context `{TextDecoders}.

Definition partHeaders (raw : bytes) (part : MimePartInfo) : list (jsstr * list jsstr) := parseHeaders (slice raw (start part) (bodyStart part)).

Definition contentTypeName (raw : bytes) : option jsstr :=
  let structure := parseStructure raw in firstHeader (partHeaders raw structure) (js "content-type").
End Helpers.

(** ** Every part that is shown has a value *)

(** A leaf carries an id. *)
Definition hasId (l : Leaf) : Prop := exists id, partId (l_part l) = Some id.

Lemma mapPart_ids : forall info counter leaves, Forall hasId leaves -> Forall hasId (mapPart info counter leaves).2.
Proof.
  fix IH 1. intros [s b e t st ps cid d en di sz ln cs] counter leaves Hl. cbn [mapPart]. destruct (t === js "multipart").
  - assert (Hgo : forall counter leaves, Forall hasId leaves ->
      Forall hasId ((fix go cs counter leaves := match cs with [] => ([], counter, leaves)
        | c :: r => let '(p, counter, leaves) := mapPart c counter leaves in let '(ps, counter, leaves) := go r counter leaves in (p :: ps, counter, leaves) end) cs counter leaves).2).
    { clear Hl counter leaves. induction cs as [|c cs IHcs]; intros counter leaves Hl; [exact Hl|].
      pose proof (IH c counter leaves Hl) as Hc. destruct (mapPart c counter leaves) as [[p counter'] leaves']. specialize (IHcs counter' leaves' Hc).
      revert IHcs. match goal with |- context [?g cs counter' leaves'] => destruct (g cs counter' leaves') as [[ps' c''] l''] end. exact id. }
    specialize (Hgo counter leaves Hl). revert Hgo.
    match goal with |- context [?g cs counter leaves] => destruct (g cs counter leaves) as [[ps' c''] l''] end. exact id.
  - apply Forall_app. split; [exact Hl|]. repeat constructor. by eexists.
Qed.

Lemma mapGet_snoc {V} k k' (v : V) m : mapGet k m = None -> mapGet k (m ++ [(k', v)]) = if k' === k then Some v else None.
Proof. induction m as [|[k0 v0] m IH]; cbn; [done|]. by destruct (k0 === k). Qed.

Lemma mapGet_app_Some {V} k (v : V) m m' : mapGet k m = Some v -> mapGet k (m ++ m') = Some v.
Proof. induction m as [|[k0 v0] m IH]; cbn; [done|]. by destruct (k0 === k). Qed.

Lemma mapGet_None_keys {V} k (m : list (jsstr * V)) : mapGet k m = None -> k ∉ map fst m.
Proof.
  induction m as [|[k0 v0] m IH]; cbn; [set_solver|]. destruct (seqb_spec k0 k) as [->|Hn]; [done|]. intros H%IH. set_solver.
Qed.

Section Values.
Context `{TextDecoders} (bin : bytes) (mx : Z).

Lemma decodeInto_spec ls vs : NoDup (map fst vs) -> Forall hasId ls ->
  NoDup (map fst (decodeInto bin mx vs ls)) /\
  (forall k v, mapGet k vs = Some v -> mapGet k (decodeInto bin mx vs ls) = Some v) /\
  (forall l, l ∈ ls -> exists id v, partId (l_part l) = Some id /\ mapGet id (decodeInto bin mx vs ls) = Some v).
Proof.
  intros Hnd Hls. revert vs Hnd. induction Hls as [|l ls [id Hid] _ IH]; intros vs Hnd; unfold decodeInto; cbn [fold_left]; fold (decodeInto bin mx).
  { split; [done|]. split; [done|]. set_solver. }
  rewrite Hid. set (vs' := match mapGet id vs with Some _ => vs | None => _ end).
  assert (Hvs' : NoDup (map fst vs') /\ (forall k v, mapGet k vs = Some v -> mapGet k vs' = Some v) /\ exists v, mapGet id vs' = Some v).
  { unfold vs'. destruct (mapGet id vs) as [v|] eqn:E; [eauto|]. split; [|split].
    - rewrite map_app. cbn. apply NoDup_app. split; [done|]. split; [|apply NoDup_singleton]. intros x Hx ->%list_elem_of_singleton. by apply mapGet_None_keys in E.
    - intros k v Hk. by apply mapGet_app_Some.
    - rewrite mapGet_snoc by done. rewrite seqb_refl. eauto. }
  destruct Hvs' as (N & K & v & V). destruct (IH vs' N) as (I1 & I2 & I3). split; [done|]. split; [intros k w Hk; by apply I2, K|].
  intros l' [->|Hl]%elem_of_cons; [|by apply I3]. exists id, v. split; [done|]. by apply I2.
Qed.
End Values.

(** What a client is told to show, it gets: every part listed as text or HTML body has an id, and a
    value under this id; no id has two values. *)
Theorem jmap_values_complete `{TextDecoders} raw mx (b := extractJmapBody raw mx) :
  NoDup (map fst (bodyValues b)) /\
  forall p, p ∈ textBody b ++ htmlBody b -> exists id v, partId p = Some id /\ mapGet id (bodyValues b) = Some v.
Proof.
  unfold b, extractJmapBody. pose proof (mapPart_ids (parseStructure raw) 0 [] ltac:(constructor)) as Hids.
  destruct (mapPart (parseStructure raw) 0 []) as [[root n] leaves]. cbn [snd] in Hids.
  assert (Hf : forall c, Forall hasId (List.filter (isClass c) leaves)).
  { intros c. apply Forall_forall. intros l Hl. rewrite Forall_forall in Hids. apply Hids. apply list_elem_of_In in Hl. apply filter_In in Hl as [Hl _]. by apply list_elem_of_In. }
  set (text := List.filter (isClass CText) leaves). set (html := List.filter (isClass CHtml) leaves).
  set (effText := match text with [] => html | _ => text end). set (effHtml := match html with [] => text | _ => html end).
  assert (H1 : Forall hasId effText) by (unfold effText; destruct text eqn:E; [apply Hf|rewrite <- E; apply Hf]).
  assert (H2 : Forall hasId effHtml) by (unfold effHtml; destruct html eqn:E; [apply Hf|rewrite <- E; apply Hf]).
  destruct (decodeInto_spec raw mx effText [] ltac:(constructor) H1) as (A1 & A2 & A3).
  destruct (decodeInto_spec raw mx effHtml _ A1 H2) as (B1 & B2 & B3). cbn [bodyValues textBody htmlBody]. split; [done|].
  intros p [Hp|Hp]%elem_of_app; apply list_elem_of_fmap in Hp as (l & -> & Hl); [|by apply B3].
  destruct (A3 l Hl) as (id & v & Hi & Hv). exists id, v. split; [done|]. by apply B2.
Qed.
