(* ===== verification/MimeMessage.v ===== *)
(** * Parsing a message (packages/mime/src/parse.ts)

    The entry point: headers within their limits, the fields of the envelope cache, the text and the
    preview.  What goes wrong inside gives the empty message. *)

From S2P Require Import Prelude JsString Loop Text Scram Hash MimeEncoding MimeHeaders Trace MimeAddress MimeFields MimeHtml MimeBody.

Definition MAX_HEADER_SECTION_BYTES : Z := 1024 * 1024.
Definition MAX_HEADER_LINE_BYTES : Z := 64 * 1024.

Record ParsedMessage := mkParsed {
  headers : list (jsstr * list jsstr); subject : option jsstr; subjectBase : option jsstr; messageId : option jsstr; msgidHash : option jsstr;
  inReplyTo : list jsstr; references : list jsstr; threadRefHashes : list jsstr; sentAt : option Z;
  from : list ParsedAddress; to_ : list ParsedAddress; cc : list ParsedAddress; bcc : list ParsedAddress; replyTo : list ParsedAddress; sender : list ParsedAddress;
  m_textBody : option jsstr; preview : option jsstr; m_hasAttachment : bool }.

Definition emptyParsedMessage : ParsedMessage :=
  {| headers := []; subject := None; subjectBase := None; messageId := None; msgidHash := None; inReplyTo := []; references := []; threadRefHashes := [];
     sentAt := None; from := []; to_ := []; cc := []; bcc := []; replyTo := []; sender := []; m_textBody := None; preview := None; m_hasAttachment := false |}.

(** [headerText.split(/\r\n|\n|\r/).some(...)]: the pieces are the contents of the lines (and an empty
    one behind the last line end). *)
Definition hasLongLine (headerText : jsstr) : bool := existsb (fun l => MAX_HEADER_LINE_BYTES <? len l.1) (linesOf headerText).

Section Parse.
Context `{TextDecoders} `{NodeCrypto}.

(** [None] is the thrown error. *)
Definition parseMessageInner (raw : bytes) : option ParsedMessage :=
  let '(headerText, bodyText) := splitHeaderBody raw in
  if MAX_HEADER_SECTION_BYTES <? len headerText then None
  else if hasLongLine headerText then None
  else
    let headers := parseHeaders headerText in
    let subject := firstHeader headers (js "subject") in
    let messageId := firstHeader headers (js "message-id") ≫= extractMsgId in
    let inReplyTo := extractMsgIdList (firstHeader headers (js "in-reply-to")) in
    let references := extractMsgIdList (firstHeader headers (js "references")) in
    let addresses n := parseAddressList (firstHeader headers (js n)) in
    let '(textBody, hasAttachment) := extractBody headers bodyText in
    Some {| headers := headers; subject := subject; subjectBase := computeSubjectBase <$> subject; messageId := messageId;
            msgidHash := sha256hex32 <$> messageId; inReplyTo := inReplyTo; references := references;
            threadRefHashes := computeThreadRefHashes messageId inReplyTo references; sentAt := parseDate (firstHeader headers (js "date"));
            from := addresses "from"%string; to_ := addresses "to"%string; cc := addresses "cc"%string; bcc := addresses "bcc"%string;
            replyTo := addresses "reply-to"%string; sender := addresses "sender"%string;
            m_textBody := textBody; preview := computePreview <$> textBody; m_hasAttachment := hasAttachment |}.

Definition parseMessage (raw : bytes) : ParsedMessage := default emptyParsedMessage (parseMessageInner raw).
End Parse.

(** ** Where the code falls short *)

(** A comma inside an encoded word of the display name splits the list: the address the sender policy is
    checked against is the one hidden in the name, not the one the message shows. *)
Definition spoofedFrom : jsstr := js "=?utf-8?q?a=40evil.test=2C?= <ceo@bank.test>".

Lemma encoded_comma_splits :
  emails (recordValue (H := noDecoders) (js "From: " ++ spoofedFrom)) = [js "a@evil.test"; js "ceo@bank.test"].
Proof. vm_compute. reflexivity. Qed.
