(* ===== verification/Vacation.v ===== *)
(** * Automatic replies (apps/server/src/vacation.ts)

    Whether a message gets the reply its Sieve script asks for, and the bytes of the reply.  The mark
    the replies carry is the mark the decision looks for, so two servers never answer each other. *)

From S2P Require Import Prelude JsString JsNumber Loop Text Scram Hash SieveRun MimeEncoding MimeHeaders InboundAuth Trace MimeAddress MimeFields MimeBody MimeMessage.

Inductive VacationSkip := NullSender | AutoSubmitted | MailingList | BulkPrecedence | NotAddressedToMe | Self.

Inductive VacationDecision :=
| Skip (reason : VacationSkip)
| Send (to_ handle : jsstr) (days : Z).

Definition header (parsed : ParsedMessage) (n : jsstr) : option jsstr := firstHeader (headers parsed) n.

Definition LIST_HEADERS : list jsstr := [js "list-id"; js "list-post"; js "list-unsubscribe"; js "list-help"].

Definition normalized (a : jsstr) : jsstr := toLowerCase (trim a).

Section Decide.
Context `{NodeCrypto}.

Definition decideVacation (request : VacationRequest) (parsed : ParsedMessage) (envelopeFrom : jsstr) (ownAddresses : list jsstr) : VacationDecision :=
  let autoSubmitted := header parsed (js "auto-submitted") in
  let precedence := normalized <$> header parsed (js "precedence") in
  let precedenceIs p := match precedence with Some x => x === p | None => false end in
  let own := List.filter nonEmpty (map normalized (ownAddresses ++ addresses request)) in
  let isOwn a := existsb (fun o => o === normalized a) own in
  if trim envelopeFrom === [] then Skip NullSender
  else if match autoSubmitted with Some v => negb (normalized v === js "no") | None => false end then Skip AutoSubmitted
  else if existsb (fun h => match header parsed h with Some _ => true | None => false end) LIST_HEADERS then Skip MailingList
  else if precedenceIs (js "bulk") || precedenceIs (js "list") || precedenceIs (js "junk") then Skip BulkPrecedence
  else if isOwn envelopeFrom then Skip Self
  else if negb (existsb (fun a => isOwn (email a)) (to_ parsed ++ cc parsed)) then Skip NotAddressedToMe
  else Send envelopeFrom
         (match handle request with Some h => h | None => sha256hex32 (default [] (SieveRun.subject request) ++ [0] ++ reason request) end)
         (days request).
End Decide.

(** ** The reply *)

Definition replySubject (request : VacationRequest) (parsed : ParsedMessage) : jsstr :=
  match SieveRun.subject request with
  | Some s => s
  | None => match trim <$> subject parsed with Some ((_ :: _) as original) => js "Auto: " ++ original | _ => js "Automatic reply" end
  end.

Definition headerSafe (v : jsstr) (maxLen : nat) : jsstr :=
  take maxLen (trim (map (fun c => if (c =? CR) || (c =? LF) || (c =? 0) then SP else c) v)).

Section Reply.
Context `{LocalZone}.

(** The first five headers, the ones that follow, and the text. *)
Definition vacationHead (request : VacationRequest) (parsed : ParsedMessage) (to_ from_ : jsstr) (now : option Z) : list jsstr :=
  [ js "From: " ++ headerSafe (default from_ (SieveRun.from request)) 320;
    js "To: " ++ headerSafe to_ 320;
    js "Subject: " ++ headerSafe (replySubject request parsed) 400;
    js "Date: " ++ rfc5322Date now;
    js "Auto-Submitted: auto-replied" ].

Definition vacationMarks (parsed : ParsedMessage) : list jsstr :=
  [js "Precedence: bulk"; js "X-Auto-Response-Suppress: All"] ++
  match messageId parsed with
  | Some id => let mid := headerSafe (js "<" ++ id ++ js ">") 400 in [js "In-Reply-To: " ++ mid; js "References: " ++ mid]
  | None => []
  end.

Definition buildVacationReply (request : VacationRequest) (parsed : ParsedMessage) (to_ from_ : jsstr) (now : option Z) : bytes :=
  let headers := vacationHead request parsed to_ from_ now ++ vacationMarks parsed in
  if mime request then utf8Encode (joinWith crlf headers ++ crlf ++ reason request)
  else
    let headers := headers ++ [js "Content-Type: text/plain; charset=utf-8"; js "MIME-Version: 1.0"] in
    utf8Encode (joinWith crlf headers ++ crlf ++ crlf ++ reason request ++ crlf).
End Reply.

(** ** Headers are found by name *)

Section First.
Context `{TextDecoders}.

Lemma addRecords_get rs m n :
  mapGet n (fold_left addRecord rs m) =
  match List.filter (fun r => bool_decide (name r = Some n)) rs with
  | [] => mapGet n m
  | fs => Some (default [] (mapGet n m) ++ map (fun r => recordValue (unfolded r)) fs)
  end.
Proof.
  revert m. induction rs as [|r rs IH]; intros m; [done|]. cbn [fold_left List.filter]. rewrite IH.
  unfold addRecord. destruct (name r) as [k|] eqn:En; [|done]. rewrite mapGet_set. destruct (seqb_spec k n) as [->|Hne].
  - rewrite bool_decide_true by done. destruct (List.filter _ rs) as [|f fs]; cbn [default map]; [done|]. cbn. by rewrite <- app_assoc.
  - rewrite bool_decide_false by congruence. done.
Qed.

(** The first value of a header is the value of the first record of its name. *)
Lemma firstHeader_record text n r rs1 rs2 : splitHeaderRecords text = rs1 ++ r :: rs2 -> name r = Some n -> Forall (fun r => name r <> Some n) rs1 ->
  firstHeader (parseHeaders text) n = Some (recordValue (unfolded r)).
Proof.
  intros Hs Hn Hf. unfold firstHeader, parseHeaders. rewrite addRecords_get, Hs. cbn [mapGet].
  assert (Hfil : List.filter (fun r => bool_decide (name r = Some n)) (rs1 ++ r :: rs2) = r :: List.filter (fun r => bool_decide (name r = Some n)) rs2).
  { clear Hs. induction Hf as [|x l Hx _ IH]; cbn [app List.filter]; [by rewrite bool_decide_true by done|]. by rewrite bool_decide_false, IH by done. }
  by rewrite Hfil.
Qed.
End First.

(** ** A reply is never answered *)

Lemma headerSafe_line v n : oneLine (headerSafe v n).
Proof.
  unfold headerSafe. apply Forall_take. apply Forall_forall. intros c Hc%trim_subset.
  apply list_elem_of_fmap in Hc as (x & -> & _). destruct ((x =? CR) || (x =? LF) || (x =? 0)) eqn:E; [done|].
  unfold isNewline. by apply orb_false_iff in E as [? _].
Qed.

#[export] Hint Resolve headerSafe_line : oneline.

(** A field in front of a text, encoded. *)
Lemma encoded_field n v text : is_ascii n -> utf8Encode (n ++ v ++ crlf ++ text) = (n ++ utf8Encode v) ++ crlf ++ utf8Encode text.
Proof.
  intros Hn. rewrite utf8Encode_prefix by done. change (v ++ crlf ++ text) with (v ++ 13 :: 10 :: text).
  by rewrite utf8Encode_app_ascii, utf8Encode_cons_ascii, <- app_assoc by lia.
Qed.

(** The name and the rest of the records of a text a field is put in front of. *)
Lemma field_record n key v text : fieldNameOK n key = true -> oneLine v -> startsField (utf8Encode text) = true ->
  startsField (utf8Encode ((n ++ [58; SP]) ++ v ++ crlf ++ text)) = true /\
  exists r, headerRecords (utf8Encode ((n ++ [58; SP]) ++ v ++ crlf ++ text)) = r :: headerRecords (utf8Encode text) /\ name r = Some key /\
    unfolded r = n ++ [58; SP] ++ utf8Encode v.
Proof.
  intros Hok Hv Ht. unfold fieldNameOK in Hok. apply andb_true_iff in Hok as [[Hn Hl]%andb_true_iff <-%seqb_eq].
  destruct (isFieldName_chars _ Hn) as (Ha & Ho & Hc & Hne & Hs).
  assert (Ha2 : is_ascii (n ++ [58; SP])) by (apply Forall_app; split; [done|]; unfold SP; constructor; [lia|]; constructor; [lia|]; constructor).
  rewrite encoded_field by done. split; [by destruct n|].
  pose proof (prepend_records ((n ++ [58; SP]) ++ utf8Encode v) [] (utf8Encode text)) as Hp. cbn [joinWith flat_map] in Hp. rewrite Hp; [|by auto using utf8Encode_line with oneline|constructor|done].
  eexists. split; [done|]. rewrite app_nil_r. cbn [name unfolded toRecord fst snd]. split; [|by rewrite <- app_assoc].
  rewrite <- app_assoc. cbn [app]. by rewrite headerFieldName_colon, Hl by done.
Qed.

Section Loop.
Context `{LocalZone} `{TextDecoders} `{NodeCrypto}.

(** The reply as its first five fields and a text that goes on with another field. *)
Lemma reply_text request parsed to_ from_ now : exists v1 v2 v3 v4 t,
  oneLine v1 /\ oneLine v2 /\ oneLine v3 /\ oneLine v4 /\
  buildVacationReply request parsed to_ from_ now =
  utf8Encode ((js "From" ++ [58; SP]) ++ v1 ++ crlf ++ (js "To" ++ [58; SP]) ++ v2 ++ crlf ++ (js "Subject" ++ [58; SP]) ++ v3 ++ crlf ++
    (js "Date" ++ [58; SP]) ++ v4 ++ crlf ++ (js "Auto-Submitted" ++ [58; SP]) ++ js "auto-replied" ++ crlf ++ 80 :: t).
Proof.
  assert (Hj : forall a b c d e hs x, joinWith crlf ([a; b; c; d; e] ++ (js "Precedence: bulk" :: hs)) ++ x =
    a ++ crlf ++ b ++ crlf ++ c ++ crlf ++ d ++ crlf ++ e ++ crlf ++ joinWith crlf (js "Precedence: bulk" :: hs) ++ x).
  { intros. cbn [app joinWith]. by rewrite <- !app_assoc. }
  assert (Hp : forall hs x, exists t, joinWith crlf (js "Precedence: bulk" :: hs) ++ x = 80 :: t) by (intros [|h hs] x; by eexists).
  eexists _, _, _, _. unfold buildVacationReply. destruct (mime request).
  - destruct (Hp (tail (vacationMarks parsed)) (crlf ++ reason request)) as [t Ht]. exists t.
    split; [apply headerSafe_line|]. split; [apply headerSafe_line|]. split; [apply headerSafe_line|]. split; [apply oneLine_date|].
    unfold vacationHead. change (vacationMarks parsed) with (js "Precedence: bulk" :: tail (vacationMarks parsed)). rewrite Hj, Ht. by rewrite <- !app_assoc.
  - destruct (Hp (tail (vacationMarks parsed) ++ [js "Content-Type: text/plain; charset=utf-8"; js "MIME-Version: 1.0"]) (crlf ++ crlf ++ reason request ++ crlf)) as [t Ht]. exists t.
    split; [apply headerSafe_line|]. split; [apply headerSafe_line|]. split; [apply headerSafe_line|]. split; [apply oneLine_date|].
    unfold vacationHead. change (vacationMarks parsed) with (js "Precedence: bulk" :: tail (vacationMarks parsed)).
    rewrite <- (app_assoc [_; _; _; _; _]).
    change ((js "Precedence: bulk" :: ?x) ++ [?y; ?z]) with (js "Precedence: bulk" :: (x ++ [y; z])). rewrite Hj, Ht. by rewrite <- !app_assoc.
Qed.

(** The parser of messages finds the mark. *)
Lemma reply_marked request parsed to_ from_ now :
  firstHeader (parseHeaders (splitHeaderBody (buildVacationReply request parsed to_ from_ now)).1) (js "auto-submitted") = Some (js "auto-replied").
Proof.
  destruct (reply_text request parsed to_ from_ now) as (v1 & v2 & v3 & v4 & t & L1 & L2 & L3 & L4 & ->).
  assert (S0 : startsField (utf8Encode (80 :: t)) = true) by (by rewrite utf8Encode_cons_ascii by lia).
  destruct (field_record (js "Auto-Submitted") (js "auto-submitted") (js "auto-replied") _ eq_refl ltac:(vm_compute; repeat constructor) S0) as (S5 & r5 & E5 & N5 & U5).
  destruct (field_record (js "Date") (js "date") v4 _ eq_refl L4 S5) as (S4 & r4 & E4 & N4 & _).
  destruct (field_record (js "Subject") (js "subject") v3 _ eq_refl L3 S4) as (S3 & r3 & E3 & N3 & _).
  destruct (field_record (js "To") (js "to") v2 _ eq_refl L2 S3) as (S2 & r2 & E2 & N2 & _).
  destruct (field_record (js "From") (js "from") v1 _ eq_refl L1 S2) as (_ & r1 & E1 & N1 & _).
  rewrite E2, E3, E4, E5 in E1. unfold headerRecords at 1 in E1.
  rewrite (firstHeader_record _ (js "auto-submitted") r5 [r1; r2; r3; r4] _ E1 N5).
  - rewrite U5. vm_compute. reflexivity.
  - repeat constructor; rewrite ?N1, ?N2, ?N3, ?N4; vm_compute; discriminate.
Qed.

(** C25: automatic replies do not answer each other.  A reply, whatever the script, the message it answers
    and the addresses, and even when its own headers are beyond the limits of the parser, is not answered
    by a server that runs this decision, for any script, envelope and addresses there. *)
Theorem vacation_loop_free request parsed to_ from_ now request' envelopeFrom own :
  exists why, decideVacation request' (parseMessage (buildVacationReply request parsed to_ from_ now)) envelopeFrom own = Skip why.
Proof.
  set (reply := buildVacationReply request parsed to_ from_ now). unfold decideVacation. destruct (trim envelopeFrom === []); [eauto|].
  unfold parseMessage. destruct (parseMessageInner reply) as [m|] eqn:E.
  - assert (Hm : header m (js "auto-submitted") = Some (js "auto-replied")).
    { pose proof (reply_marked request parsed to_ from_ now) as Hr. fold reply in Hr. unfold parseMessageInner in E.
      destruct (splitHeaderBody reply) as [h b]. destruct (_ <? _); [done|]. destruct (hasLongLine h); [done|].
      destruct (extractBody (parseHeaders h) b) as [tb ha]. injection E as <-. exact Hr. }
    change (default emptyParsedMessage (Some m)) with m. rewrite Hm. change (negb (normalized (js "auto-replied") === js "no")) with true. eauto.
  - cbn. destruct (existsb _ _); eauto.
Qed.
End Loop.
