(* ===== verification/Cidr.v ===== *)
(** * Addresses and address ranges (packages/mail-auth/src/spf.ts, first part)

    Reading and writing IP addresses, membership in a CIDR range, and the matcher of lists of
    trusted ranges.  The theorems: a range holds the addresses whose leading bits are those of the
    network, and written addresses are read back. *)

From S2P Require Import Prelude JsString JsNumber Net Loop.

(** ** Addresses *)

Inductive IpVersion := V4 | V6.
#[export] Instance IpVersion_eq_dec : EqDecision IpVersion.
Proof. solve_decision. Defined.

Record ParsedIp := mkIp { version : IpVersion; ipBytes : bytes }.

Definition sameVersion (a b : IpVersion) : bool := bool_decide (a = b).

(** [/^[0-9a-fA-F]{1,4}$/], then [parseInt(s, 16)] *)
Definition parseHextet (s : jsstr) : option Z :=
  if ((1 <=? length s) && (length s <=? 4))%nat then radixVal 16 0 s else None.

(** [/^\d{1,3}$/.test(s)] *)
Definition upTo3Digits (s : jsstr) : bool := ((1 <=? length s) && (length s <=? 3))%nat && forallb isDigit s.

Definition octet (part : jsstr) : option Z :=
  if upTo3Digits part then let n := digitsVal part in if 255 <? n then None else Some n else None.

Definition parseIpv4 (s : jsstr) : option ParsedIp :=
  let parts := splitOn DOT s in
  if negb (length parts =? 4)%nat then None
  else bs ← mapM octet parts; Some (mkIp V4 bs).

(** [writeUInt16BE] of each group. *)
Definition wordBytes (ws : list Z) : bytes := flat_map (fun v => [v / 256; v mod 256]) ws.

Definition groupsIp (groups : list jsstr) : option ParsedIp :=
  ws ← mapM parseHextet groups; Some (mkIp V6 (wordBytes ws)).

Definition parseIpv6 (s : jsstr) : option ParsedIp :=
  if negb (includes [COLON] s) then None
  else
    match splitDouble [] s with
    | [whole] =>
        let groups := splitOn COLON whole in
        if negb (length groups =? 8)%nat then None else groupsIp groups
    | [h; t] =>
        let head := splitNonempty h in
        let tail := splitNonempty t in
        let missing := 8 - len head - len tail in
        if missing <? 0 then None
        else groupsIp (head ++ replicate (Z.to_nat missing) [48] ++ tail)
    | _ => None
    end.

Definition parseIp (raw : jsstr) : option ParsedIp :=
  let s := trim raw in
  let mapped := startsWithI (js "::ffff:") s && match dottedAt (drop 7 s) with Some _ => true | None => false end in
  let candidate := if mapped then drop 7 s else s in
  if includes [DOT] candidate && negb (includes [COLON] candidate) then parseIpv4 candidate
  else if includes [COLON] candidate then parseIpv6 candidate
  else None.

(** [readUInt16BE] of each pair of bytes. *)
Fixpoint bytePairs (bs : bytes) : list Z :=
  match bs with a :: b :: r => (a * 256 + b) :: bytePairs r | _ => [] end.

Definition presentIp (ip : ParsedIp) : jsstr :=
  match version ip with
  | V4 => joinWith [DOT] (map numToString (ipBytes ip))
  | V6 => joinWith [COLON] (map toHex (bytePairs (ipBytes ip)))
  end.

Definition nibbleForm (ip : ParsedIp) : jsstr :=
  joinWith [DOT] (flat_map (fun b => [toHex (Z.land (Z.shiftr b 4) 15); toHex (Z.land b 15)]) (ipBytes ip)).

(** ** Ranges *)

Definition totalBits (v : IpVersion) : Z := match v with V4 => 32 | V6 => 128 end.

Definition byteAt (bs : bytes) (i : nat) : Z := default 0 (bs !! i).

(** The comparison of the whole bytes and of the rest under a mask. *)
Definition prefixEq (a b : bytes) (prefixLen : Z) : bool :=
  let fullBytes := Z.to_nat (prefixLen / 8) in
  let remBits := prefixLen mod 8 in
  (take fullBytes a === take fullBytes b)
  && (if 0 <? remBits then
        let mask := Z.land (Z.shiftl 255 (8 - remBits)) 255 in
        Z.land (byteAt a fullBytes) mask =? Z.land (byteAt b fullBytes) mask
      else true).

Definition ipInCidr (ip network : ParsedIp) (prefixLen : Z) : bool :=
  if negb (sameVersion (version ip) (version network)) then false
  else if (prefixLen <? 0) || (totalBits (version ip) <? prefixLen) then false
  else prefixEq (ipBytes ip) (ipBytes network) prefixLen.

(** [p.bytes.equals(q.bytes)] *)
Definition sameBytes (a b : ParsedIp) : bool := ipBytes a === ipBytes b.

(** ** Lists of trusted ranges *)

Inductive CidrError := BadAddress (entry : jsstr) | BadPrefix (entry : jsstr) | PrefixTooLong (entry : jsstr).

Definition parseCidr (entry : jsstr) : Result CidrError (ParsedIp * Z) :=
  let slash := lastIndexOf 47 entry in
  let addrPart := match slash with Some i => take i entry | None => entry end in
  match parseIp addrPart with
  | None => Err (BadAddress entry)
  | Some net =>
      match slash with
      | None => Ok (net, totalBits (version net))
      | Some i =>
          let prefixPart := drop (S i) entry in
          if negb (upTo3Digits prefixPart) then Err (BadPrefix entry)
          else if totalBits (version net) <? digitsVal prefixPart then Err (PrefixTooLong entry)
          else Ok (net, digitsVal prefixPart)
      end
  end.

Fixpoint parseCidrList (entries : list jsstr) : Result CidrError (list (ParsedIp * Z)) :=
  match entries with
  | [] => Ok []
  | raw :: rest =>
      match trim raw with
      | [] => parseCidrList rest
      | entry => let* n := parseCidr entry in let* ns := parseCidrList rest in Ok (n :: ns)
      end
  end.

(** [CidrMatcher.matches] *)
Definition cidrMatches (nets : list (ParsedIp * Z)) (ip : jsstr) : bool :=
  match nets with
  | [] => false
  | _ => match parseIp ip with None => false | Some parsed => existsb (fun n => ipInCidr parsed n.1 n.2) nets end
  end.

(** ** What a range is *)

(** The bytes of an address as one number, the first byte highest. *)
Fixpoint beVal (bs : bytes) : Z :=
  match bs with [] => 0 | x :: r => x * 256 ^ len r + beVal r end.

Definition wfIp (ip : ParsedIp) : Prop := is_bytes (ipBytes ip) /\ 8 * len (ipBytes ip) = totalBits (version ip).

(** The leading [n] bits agree. *)
Definition inPrefix (ip net : ParsedIp) (n : Z) : Prop :=
  version ip = version net /\ 0 <= n <= totalBits (version ip) /\
  beVal (ipBytes ip) / 2 ^ (totalBits (version ip) - n) = beVal (ipBytes net) / 2 ^ (totalBits (version ip) - n).

Lemma pow256 n : 0 <= n -> 256 ^ n = 2 ^ (8 * n).
Proof. intros Hn. rewrite (Z.pow_mul_r 2 8) by lia. done. Qed.

Lemma beVal_bound bs : is_bytes bs -> 0 <= beVal bs < 2 ^ (8 * len bs).
Proof.
  induction 1 as [|x bs Hx Hbs IH]; [by vm_compute|]. cbn [beVal]. rewrite len_cons, pow256 by apply len_nonneg.
  replace (8 * (1 + len bs)) with (8 + 8 * len bs) by lia. pose proof (len_nonneg bs). rewrite Z.pow_add_r by lia. unfold is_byte in Hx. nia.
Qed.

(** A high part and a low part, seen from a bit of the low part. *)
Lemma div_parts x y A B m k :
  0 <= k <= m -> 0 <= A < 2 ^ m -> 0 <= B < 2 ^ m ->
  (x * 2 ^ m + A) / 2 ^ k = (y * 2 ^ m + B) / 2 ^ k <-> x = y /\ A / 2 ^ k = B / 2 ^ k.
Proof.
  intros Hk HA HB. replace m with ((m - k) + k) by lia. rewrite (Z.pow_add_r 2 (m - k) k) by lia.
  rewrite !Z.mul_assoc, !Z.div_add_l by (apply Z.pow_nonzero; lia).
  assert (Hb : forall C, 0 <= C < 2 ^ m -> 0 <= C / 2 ^ k < 2 ^ (m - k)).
  { intros C HC. split; [apply Z.div_pos; [lia|apply Z.pow_pos_nonneg; lia]|]. apply Z.div_lt_upper_bound; [apply Z.pow_pos_nonneg; lia|].
    rewrite <- Z.pow_add_r by lia. replace (k + (m - k)) with m by lia. lia. }
  pose proof (Hb A HA). pose proof (Hb B HB). split; [|intros [-> ->]; done].
  intros H1. assert (x = y) by nia. split; [done|]. nia.
Qed.

Lemma div_high x A m j : 0 <= j -> 0 <= m -> 0 <= A < 2 ^ m -> (x * 2 ^ m + A) / 2 ^ (m + j) = x / 2 ^ j.
Proof.
  intros Hj Hm HA. rewrite Z.pow_add_r by lia. rewrite <- Z.div_div by (try apply Z.pow_nonzero; try apply Z.pow_pos_nonneg; lia).
  rewrite Z.div_add_l by (apply Z.pow_nonzero; lia). by rewrite (Z.div_small A), Z.add_0_r by lia.
Qed.

(** The mask keeps the leading bits of a byte. *)
Lemma mask_leading x y r : is_byte x -> is_byte y -> 0 < r < 8 ->
  Z.land x (Z.land (Z.shiftl 255 (8 - r)) 255) = Z.land y (Z.land (Z.shiftl 255 (8 - r)) 255) <-> x / 2 ^ (8 - r) = y / 2 ^ (8 - r).
Proof.
  intros Hx Hy Hr.
  assert (Hm : forall z, is_byte z -> Z.land z (Z.land (Z.shiftl 255 (8 - r)) 255) = Z.shiftl (z / 2 ^ (8 - r)) (8 - r)).
  { intros z Hz. rewrite (Z.land_comm (Z.shiftl _ _)), Z.land_assoc, land_255, (Z.mod_small z 256) by exact Hz.
    rewrite <- Z.shiftr_div_pow2 by lia. apply Z.bits_inj'. intros n Hn. rewrite Z.land_spec.
    destruct (Z.lt_ge_cases n (8 - r)) as [Hlt|Hge].
    - rewrite !Z.shiftl_spec_low by lia. apply andb_false_r.
    - rewrite !Z.shiftl_spec by lia. rewrite Z.shiftr_spec by lia. replace (n - (8 - r) + (8 - r)) with n by lia.
      destruct (Z.lt_ge_cases n 8) as [H8|H8].
      + change 255 with (Z.ones 8). rewrite Z.ones_spec_low by lia. apply andb_true_r.
      + assert (Z.testbit z n = false) as ->; [|done]. destruct (Z.eq_dec z 0) as [->|Hz0]; [apply Z.bits_0|].
        apply Z.bits_above_log2; [unfold is_byte in Hz; lia|]. apply Z.log2_lt_pow2; [unfold is_byte in Hz; lia|].
        apply (Z.lt_le_trans _ (2 ^ 8)); [unfold is_byte in Hz; lia|]. apply Z.pow_le_mono_r; lia. }
  rewrite !Hm by done. split; [|by intros ->]. rewrite !Z.shiftl_mul_pow2 by lia. intros H. apply (Z.mul_reg_r _ _ (2 ^ (8 - r))); [|done].
  apply Z.pow_nonzero; lia.
Qed.

Lemma prefixEq_spec a b p : length a = length b -> is_bytes a -> is_bytes b -> 0 <= p <= 8 * len a ->
  prefixEq a b p = true <-> beVal a / 2 ^ (8 * len a - p) = beVal b / 2 ^ (8 * len a - p).
Proof.
  revert b p. induction a as [|x a IH]; intros [|y b] p; try done; intros Hl Ha Hb Hp.
  { unfold len in Hp. cbn in Hp. assert (p = 0) as -> by lia. done. }
  injection Hl as Hl. apply Forall_cons in Ha as [Hx Ha]. apply Forall_cons in Hb as [Hy Hb].
  cbn [beVal]. rewrite len_cons in *. assert (len b = len a) as -> by (unfold len; by rewrite Hl).
  rewrite !pow256 by apply len_nonneg. pose proof (len_nonneg a). pose proof (beVal_bound a Ha). pose proof (beVal_bound b Hb) as HbB.
  assert (Hlen : len b = len a) by (unfold len; by rewrite Hl). rewrite Hlen in HbB.
  destruct (Z.lt_ge_cases p 8) as [Hlt|Hge].
  - replace (8 * (1 + len a) - p) with (8 * len a + (8 - p)) by lia. rewrite !div_high by lia.
    unfold prefixEq. rewrite (Z.div_small p 8), (Z.mod_small p 8) by lia. change (Z.to_nat 0) with 0%nat. cbn [take seqb andb]. unfold byteAt. cbn [lookup list_lookup from_option id].
    destruct (Z.ltb_spec 0 p) as [Hp0|Hp0].
    + rewrite Z.eqb_eq. apply mask_leading; [done|done|lia].
    + assert (p = 0) as -> by lia. change (2 ^ (8 - 0)) with 256. unfold is_byte in Hx, Hy. rewrite !Z.div_small by lia. done.
  - replace (8 * (1 + len a) - p) with (8 * len a - (p - 8)) by lia. rewrite div_parts by lia.
    rewrite <- (IH b (p - 8)) by (done || lia). unfold prefixEq.
    assert (Hq : p / 8 = 1 + (p - 8) / 8) by (Z.div_mod_to_equations; lia).
    assert (Hr : p mod 8 = (p - 8) mod 8) by (Z.div_mod_to_equations; lia).
    assert (0 <= (p - 8) / 8) by (apply Z.div_pos; lia).
    rewrite Hq, Hr, Z2Nat.inj_add by lia. change (Z.to_nat 1 + Z.to_nat ((p - 8) / 8))%nat with (S (Z.to_nat ((p - 8) / 8))).
    cbn [take seqb]. unfold byteAt. cbn [lookup list_lookup]. rewrite <- andb_assoc, andb_true_iff, Z.eqb_eq. done.
Qed.

(** A range holds an address exactly when the kind is the same, the length of the prefix is one of
    this kind, and the leading bits, as numbers, agree. *)
Theorem cidr_prefix ip net n : wfIp ip -> wfIp net -> ipInCidr ip net n = true <-> inPrefix ip net n.
Proof.
  intros [Hi1 Hi2] [Hn1 Hn2]. unfold ipInCidr, inPrefix, sameVersion.
  case_bool_decide as Hv; cbn [negb]; [|split; [done|by intros [? _]]].
  destruct (Z.ltb_spec n 0); cbn [orb]; [split; [done|lia]|]. destruct (Z.ltb_spec (totalBits (version ip)) n); [split; [done|lia]|].
  rewrite <- Hi2. rewrite prefixEq_spec; [split; [intros ?; split; [done|]; split; [lia|done]|by intros (_ & _ & ?)]| |done|done|lia].
  rewrite Hv in Hi2. unfold len in Hi2, Hn2. lia.
Qed.

(** ** Parsed addresses are well formed *)

Lemma radixVal_bound s acc v : radixVal 16 acc s = Some v -> 0 <= acc -> 0 <= v < (acc + 1) * 16 ^ len s.
Proof.
  revert acc. induction s as [|c s IH]; intros acc; [intros [= <-]; unfold len; cbn; lia|]. cbn [radixVal].
  destruct (digitIn 16 c) as [d|] eqn:E; [|done].
  assert (0 <= d < 16).
  { unfold digitIn in E. destruct (isDigit c) eqn:Ed; [unfold isDigit in Ed; bool_hyps; destruct (_ <? _) eqn:E2; [|done]; injection E as <-; bool_hyps; lia|].
    repeat case_match; bool_hyps; simplify_eq; lia. }
  intros H1 Ha. apply IH in H1; [|lia]. rewrite len_cons, Z.add_comm, Z.pow_add_r by (pose proof (len_nonneg s); lia). change (16 ^ 1) with 16.
  assert (0 < 16 ^ len s) by (apply Z.pow_pos_nonneg; [lia|apply len_nonneg]). nia.
Qed.

Lemma parseHextet_word s v : parseHextet s = Some v -> isWord v.
Proof.
  unfold parseHextet. destruct (_ && _) eqn:E; [|done]. apply andb_true_iff in E as [_ E%Nat.leb_le]. intros H%radixVal_bound; [|lia].
  assert (16 ^ len s <= 16 ^ 4) by (apply Z.pow_le_mono_r; unfold len; lia). unfold isWord. lia.
Qed.

Lemma octet_byte s v : octet s = Some v -> is_byte v.
Proof.
  unfold octet, upTo3Digits. destruct (_ && _) eqn:E; [|done]. apply andb_true_iff in E as [_ E]. destruct (Z.ltb_spec 255 (digitsVal s)); [done|].
  intros [= <-]. pose proof (digitsVal_bound s E). unfold is_byte. lia.
Qed.

Lemma mapM_Forall {A B} (f : A -> option B) (P : B -> Prop) l k :
  (forall x y, f x = Some y -> P y) -> mapM f l = Some k -> Forall P k /\ length k = length l.
Proof.
  intros Hf. revert k. induction l as [|x l IH]; intros k; cbn; [intros [= <-]; done|].
  destruct (f x) as [y|] eqn:E; [|done]. cbn. destruct (mapM f l) as [k'|]; [|done]. cbn. intros [= <-].
  destruct (IH k' eq_refl) as [H1 H2]. cbn. split; [constructor; eauto|lia].
Qed.

Lemma wordBytes_wf ws : Forall isWord ws -> is_bytes (wordBytes ws) /\ length (wordBytes ws) = (2 * length ws)%nat.
Proof.
  unfold is_bytes. induction 1 as [|w ws Hw Hws [IH1 IH2]]; [done|]. unfold isWord in Hw. split; [|cbn [wordBytes flat_map app length] in *; unfold wordBytes in IH2; lia].
  cbn.
  repeat constructor; try done; unfold is_byte; Z.div_mod_to_equations; lia.
Qed.

Lemma groupsIp_wf groups ip : length groups = 8%nat -> groupsIp groups = Some ip -> wfIp ip.
Proof.
  unfold groupsIp. intros Hl. destruct (mapM parseHextet groups) as [ws|] eqn:E; [|done]. cbn. intros [= <-].
  apply (mapM_Forall _ isWord) in E as [H1 H2]; [|apply parseHextet_word]. destruct (wordBytes_wf ws H1) as [H3 H4].
  split; [done|]. cbn. unfold len. rewrite H4, H2, Hl. done.
Qed.

Lemma parseIp_wf s ip : parseIp s = Some ip -> wfIp ip.
Proof.
  unfold parseIp. cbv zeta. match goal with |- context [includes [DOT] ?t] => generalize t end. intros c. destruct (_ && _).
  - unfold parseIpv4. destruct (length (splitOn DOT c) =? 4)%nat eqn:E; [|done]. cbn [negb]. apply Nat.eqb_eq in E.
    destruct (mapM octet _) as [bs|] eqn:E2; [|done]. cbn. intros [= <-]. apply (mapM_Forall _ is_byte) in E2 as [H1 H2]; [|apply octet_byte].
    split; [done|]. cbn. unfold len. rewrite H2, E. done.
  - destruct (includes [COLON] c) eqn:Ei; [|done]. unfold parseIpv6. rewrite Ei. cbn [negb]. destruct (splitDouble [] c) as [|h [|t [|]]]; try done.
    + destruct (length (splitOn COLON h) =? 8)%nat eqn:E; [|done]. cbn [negb]. apply groupsIp_wf. by apply Nat.eqb_eq.
    + destruct (Z.ltb_spec (8 - len (splitNonempty h) - len (splitNonempty t)) 0); [done|]. apply groupsIp_wf.
      rewrite !length_app, length_replicate. unfold len in *. lia.
Qed.

(** ** Round trip *)

Lemma includes_char c s : includes [c] s = bool_decide (c ∈ s).
Proof.
  unfold includes. induction s as [|x s IH]; [done|]. cbn [indexOfStr startsWith]. rewrite andb_true_r.
  destruct (Z.eqb_spec c x) as [->|Hne]; [rewrite bool_decide_true; [done|by left]|].
  assert (E : bool_decide (c ∈ x :: s) = bool_decide (c ∈ s)) by (apply bool_decide_ext; rewrite elem_of_cons; naive_solver). rewrite E, <- IH.
  by destruct (indexOfStr [c] s).
Qed.

Lemma digitIn_hexChar v : 0 <= v < 16 -> digitIn 16 (hexChar v) = Some v.
Proof.
  intros Hv. unfold digitIn, hexChar, isDigit. destruct (Z.ltb_spec v 10).
  - rewrite (proj2 (Z.leb_le 48 (48 + v))), (proj2 (Z.leb_le (48 + v) 57)) by lia. cbn [andb].
    replace (48 + v - 48) with v by lia. by rewrite (proj2 (Z.ltb_lt v 16)) by lia.
  - rewrite (proj2 (Z.leb_gt (87 + v) 57)), andb_false_r, (proj2 (Z.leb_le 97 (87 + v))), (proj2 (Z.leb_le (87 + v) 102)) by lia. cbn [andb].
    replace (87 + v - 87) with v by lia. by rewrite (proj2 (Z.ltb_lt v 16)) by lia.
Qed.

Lemma parseHextet_toHex v : isWord v -> parseHextet (toHex v) = Some v.
Proof.
  unfold isWord. intros Hv. unfold toHex. repeat case_match; bool_hyps; unfold parseHextet; cbn [length Nat.leb andb radixVal];
    rewrite ?digitIn_hexChar by (Z.div_mod_to_equations; lia); f_equal; Z.div_mod_to_equations; lia.
Qed.

Lemma bytePairs_wf n bs : length bs = (2 * n)%nat -> is_bytes bs ->
  Forall isWord (bytePairs bs) /\ wordBytes (bytePairs bs) = bs /\ length (bytePairs bs) = n.
Proof.
  unfold is_bytes. revert bs. induction n as [|n IH]; intros bs Hl Hb; [by destruct bs|].
  destruct bs as [|a [|b r]]; cbn in Hl; try lia. apply Forall_cons in Hb as [Ha [Hb Hr]%Forall_cons].
  destruct (IH r ltac:(lia) Hr) as (H1 & H2 & H3). cbn [bytePairs length]. unfold is_byte in *. split; [constructor; [unfold isWord; lia|done]|]. split; [|lia].
  change ((a * 256 + b) / 256 :: (a * 256 + b) mod 256 :: wordBytes (bytePairs r) = a :: b :: r). rewrite H2. repeat f_equal; Z.div_mod_to_equations; lia.
Qed.

Lemma octet_number n : is_byte n -> octet (numToString n) = Some n.
Proof.
  unfold is_byte. intros Hn. pose proof (numToString_digits n ltac:(lia)) as Hd. unfold octet, upTo3Digits. rewrite numToString_val by lia.
  assert (forallb isDigit (numToString n) = true) as -> by (unfold isDigits in Hd; by destruct (numToString n)).
  destruct (Z.ltb_spec 255 n); [lia|]. by destruct (octet_length n Hn) as [->|[-> | ->]].
Qed.

Lemma number_plain n c : is_byte n -> c ∈ numToString n -> isWs c = false /\ c <> COLON /\ c <> DOT.
Proof.
  unfold is_byte. intros Hn Hc. pose proof (numToString_digits n ltac:(lia)) as Hd.
  assert (isDigit c = true) as Hdc by (unfold isDigits in Hd; destruct (numToString n); [done|]; rewrite forallb_forall in Hd; apply Hd; by apply list_elem_of_In).
  destruct (isHexChar_facts c) as (_ & ? & ? & _ & _ & ?); [unfold isHexChar; by rewrite Hdc|done].
Qed.

Lemma mapM_map_id {A B} (f : B -> option A) (g : A -> B) l : Forall (fun x => f (g x) = Some x) l -> mapM f (map g l) = Some l.
Proof. induction 1 as [|x l Hx Hl IH]; [done|]. cbn. rewrite Hx. cbn. by rewrite IH. Qed.

Lemma elem_of_joinWith sep ls c : c ∈ joinWith sep ls -> c ∈ sep \/ exists s, s ∈ ls /\ c ∈ s.
Proof.
  induction ls as [|x ls IH]; [by intros ?%not_elem_of_nil|]. cbn [joinWith]. destruct ls as [|y ls]; [intros H; right; exists x; split; [by left|done]|].
  rewrite !elem_of_app. intros [H|[H|H]]; [right; exists x; split; [by left|done]|by left|].
  destruct (IH H) as [?|(s & Hs & Hc)]; [by left|]. right. exists s. split; [by right|done].
Qed.

Lemma parse_present_v4 bs : is_bytes bs -> length bs = 4%nat -> parseIp (joinWith [DOT] (map numToString bs)) = Some (mkIp V4 bs).
Proof.
  intros Hb Hl. set (t := joinWith _ _).
  assert (Hc : forall c, c ∈ t -> isWs c = false /\ c <> COLON).
  { intros c [->%list_elem_of_singleton|(s & (n & -> & Hn)%list_elem_of_fmap & Hin)]%elem_of_joinWith; [done|].
    unfold is_bytes in Hb. rewrite Forall_forall in Hb. destruct (number_plain n c (Hb n Hn) Hin) as (? & ? & _). done. }
  unfold parseIp. rewrite (trim_id t) by (intros c H; by apply Hc).
  assert (startsWithI (js "::ffff:") t = false) as ->.
  { destruct t as [|c t']; [done|]. cbn [js]. assert (c <> COLON) as Hne by (apply Hc; by left). unfold COLON in Hne.
    change (js "::ffff:") with (58 :: js ":ffff:"). cbn [startsWithI]. destruct (Z.eqb_spec (foldAscii 58) (foldAscii c)) as [E|]; [|done].
    exfalso. unfold foldAscii in E. cbn in E. repeat case_match; bool_hyps; lia. }
  cbn [andb]. rewrite !includes_char, (bool_decide_false (COLON ∈ t)) by (intros H; by apply Hc in H as [_ ?]).
  rewrite (bool_decide_true (DOT ∈ t)); [|unfold t; destruct bs as [|a [|b bs]]; try done; cbn [map joinWith]; set_solver]. cbn [negb andb].
  unfold parseIpv4. assert (splitOn DOT t = map numToString bs) as ->.
  { apply split_join; [by destruct bs|]. apply Forall_map. eapply Forall_impl; [exact Hb|]. intros n Hn Hin. by apply (number_plain n) in Hin as (_ & _ & ?). }
  rewrite length_map, Hl. cbn [Nat.eqb negb]. rewrite mapM_map_id; [done|]. eapply Forall_impl; [exact Hb|]. exact octet_number.
Qed.

Lemma parse_present_v6 ws : Forall isWord ws -> length ws = 8%nat -> parseIp (hexText ws) = Some (mkIp V6 (wordBytes ws)).
Proof.
  intros Hw Hl. assert (Hc : forall c, c ∈ hexText ws -> isWs c = false /\ c <> DOT).
  { intros c Hin%hexText_chars; [|done]. apply orb_true_iff in Hin as [H|H]; [by apply isHexChar_facts in H as (_ & _ & ? & _ & _ & ?)|].
    apply Z.eqb_eq in H as ->. done. }
  unfold parseIp. rewrite trim_id by (intros c H; by apply Hc).
  assert (startsWithI (js "::ffff:") (hexText ws) = false) as ->.
  { destruct ws as [|w ws]; [done|]. inversion_clear Hw as [|? ? Hw1 Hw2]. pose proof (toHex_no_colon w Hw1) as Hn. destruct (isHextet_chars _ (proj1 (toHex_ok w Hw1))) as [Hne Hx].
    assert (exists c r, hexText (w :: ws) = c :: r /\ isHexChar c = true) as (c & r & -> & Hh).
    { unfold hexText. cbn [map joinWith]. destruct (toHex w) as [|c t]; [done|]. exists c. destruct (map toHex ws); cbn; eexists; (split; [done|]); apply Hx; by left. }
    apply isHexChar_facts in Hh as (_ & Hne' & _). unfold COLON in Hne'. change (js "::ffff:") with (58 :: js ":ffff:"). cbn [startsWithI].
    destruct (Z.eqb_spec (foldAscii 58) (foldAscii c)) as [E|]; [|done]. exfalso. unfold foldAscii in E. cbn in E. repeat case_match; bool_hyps; lia. }
  cbn [andb]. rewrite !includes_char, (bool_decide_false (DOT ∈ hexText ws)) by (intros H; by apply Hc in H as [_ ?]). cbn [andb].
  assert (Hcol : bool_decide (COLON ∈ hexText ws) = true).
  { apply bool_decide_true. destruct ws as [|a [|b ws]]; try done. unfold hexText. cbn [map joinWith]. set_solver. }
  rewrite Hcol. unfold parseIpv6. rewrite includes_char, Hcol. cbn [negb]. rewrite <- (app_nil_r (hexText ws)), splitDouble_hexText by done. cbn [splitDouble app].
  pose proof (splitNonempty_hexText ws Hw) as Hs. unfold splitNonempty in Hs. destruct (hexText ws) eqn:E; [by destruct ws|]. rewrite <- E in *.
  rewrite Hs, length_map, Hl. cbn [Nat.eqb negb]. unfold groupsIp. rewrite mapM_map_id; [done|]. eapply Forall_impl; [exact Hw|]. exact parseHextet_toHex.
Qed.

(** What is written as text is read back: the resolver asked for the reverse name of an address is
    asked for this address. *)
Theorem ip_present_roundtrip ip : wfIp ip -> parseIp (presentIp ip) = Some ip.
Proof.
  destruct ip as [[|] bs]; intros [Hb Hl]; cbn in Hl; unfold presentIp; cbn [version ipBytes].
  - apply parse_present_v4; [done|]. unfold len in Hl. cbn in Hb. lia.
  - destruct (bytePairs_wf 8 bs) as (H1 & H2 & H3); [unfold len in Hl; lia|done|].
    change (joinWith _ _) with (hexText (bytePairs bs)). by rewrite parse_present_v6, H2.
Qed.

(** ** Trusted ranges *)

Lemma parseCidr_wf e net n : parseCidr e = Ok (net, n) -> wfIp net.
Proof.
  unfold parseCidr. destruct (parseIp _) as [ip|] eqn:E; [|done]. apply parseIp_wf in E. repeat case_match; intros; by simplify_eq.
Qed.

Lemma parseCidrList_In es nets : parseCidrList es = Ok nets ->
  forall net n, (net, n) ∈ nets <-> exists e, e ∈ es /\ trim e <> [] /\ parseCidr (trim e) = Ok (net, n).
Proof.
  revert nets. induction es as [|e es IH]; intros nets; cbn [parseCidrList].
  { intros [= <-] net n. split; [by intros ?%not_elem_of_nil|by intros (? & ?%not_elem_of_nil & _)]. }
  destruct (trim e) as [|c t] eqn:Et.
  - intros H net n. rewrite (IH nets H). split; intros (e' & He & ? & ?); exists e'; (split; [|done]).
    + by right.
    + apply elem_of_cons in He as [->|?]; [by rewrite Et in *|done].
  - intros ([net0 n0] & H1 & (ns & H2 & [= <-])%bindRes_ok)%bindRes_ok net n. rewrite elem_of_cons, (IH ns H2). split.
    + intros [[= -> ->]|(e' & ? & ? & ?)]; [exists e; split; [by left|]; rewrite Et; done|exists e'; split; [by right|done]].
    + intros (e' & [->|He]%elem_of_cons & H3 & H4); [left; rewrite Et in H4; congruence|right; eauto].
Qed.

(** The matcher trusts exactly the addresses in a configured range: the client's address has to be
    readable, and its leading bits have to be those of an entry.  No list, and a list of blanks, trust
    nobody; a list with an entry that cannot be read gives no matcher at all. *)
Theorem cidr_trust_exact es nets ip : parseCidrList es = Ok nets ->
  cidrMatches nets ip = true <->
  exists e net n a, e ∈ es /\ trim e <> [] /\ parseCidr (trim e) = Ok (net, n) /\ parseIp ip = Some a /\ inPrefix a net n.
Proof.
  intros Hes. pose proof (parseCidrList_In es nets Hes) as Hin. split.
  - unfold cidrMatches. destruct nets as [|x nets']; [done|]. destruct (parseIp ip) as [a|] eqn:Ea; [|done].
    intros ([net n] & H1%list_elem_of_In & H2)%existsb_exists. cbn in H2. apply Hin in H1 as (e & ? & ? & Hp). exists e, net, n, a.
    repeat (split; [done|]). apply cidr_prefix; [by eapply parseIp_wf|by eapply parseCidr_wf|done].
  - intros (e & net & n & a & He & Ht & Hp & Ha & Hx). assert (Hn : (net, n) ∈ nets) by (apply Hin; eauto). unfold cidrMatches.
    destruct nets as [|x nets']; [by apply not_elem_of_nil in Hn|]. rewrite Ha. apply existsb_exists. exists (net, n). split; [by apply list_elem_of_In|].
    cbn. apply cidr_prefix; [by eapply parseIp_wf|by eapply parseCidr_wf|done].
Qed.

(** Every entry is read: one that cannot be read stops the start. *)
Lemma parseCidrList_strict es nets e : parseCidrList es = Ok nets -> e ∈ es -> trim e <> [] -> exists net n, parseCidr (trim e) = Ok (net, n).
Proof.
  revert nets. induction es as [|x es IH]; intros nets; [by intros _ ?%not_elem_of_nil|]. cbn [parseCidrList].
  intros H Hin Ht. apply elem_of_cons in Hin as [->|Hin].
  - destruct (trim x); [done|]. apply bindRes_ok in H as ([net n] & ? & _). eauto.
  - destruct (trim x); [eauto|]. apply bindRes_ok in H as (? & _ & (? & ? & _)%bindRes_ok). eauto.
Qed.

(** ** Examples *)

Definition trusted : list jsstr := [js "10.0.0.0/8"; js " "; js "2001:db8::/33"].

Lemma cidr_trust_exact_witness :
  exists nets, parseCidrList trusted = Ok nets /\ cidrMatches nets (js "::ffff:10.0.82.134") = true /\ cidrMatches nets (js "2001:db8:8000::1") = false /\
  exists e net n a, e ∈ trusted /\ trim e <> [] /\ parseCidr (trim e) = Ok (net, n) /\ parseIp (js "::ffff:10.0.82.134") = Some a /\ inPrefix a net n.
Proof.
  eexists. split; [vm_compute; reflexivity|]. split; [vm_compute; reflexivity|]. split; [vm_compute; reflexivity|].
  apply (cidr_trust_exact trusted _ (js "::ffff:10.0.82.134") ltac:(vm_compute; reflexivity)). vm_compute. reflexivity.
Defined.

(** A mapped address written in hexadecimal is another address to the parser: one and the same host
    is trusted in the dotted spelling and not in this one. *)
Example mapped_spellings :
  parseIp (js "::FFFF:192.0.2.7") = Some (mkIp V4 [192; 0; 2; 7]) /\
  parseIp (js "::ffff:c000:207") = Some (mkIp V6 [0; 0; 0; 0; 0; 0; 0; 0; 0; 0; 255; 255; 192; 0; 2; 7]).
Proof. vm_compute. done. Qed.

Example cidr_errors :
  parseCidrList [js "10.0.0.0/33"] = Err (PrefixTooLong (js "10.0.0.0/33")) /\ parseCidrList [js "10.0.0/8"] = Err (BadAddress (js "10.0.0/8")) /\
  parseCidrList [js "10.0.0.0/"] = Err (BadPrefix (js "10.0.0.0/")).
Proof. vm_compute. done. Qed.
