(* ===== verification/Effects.v ===== *)
(** * Code that awaits and throws over a shared context

    An [async] function of the source that mutates a context and throws is a function from the
    context to a result and the new context: what was changed before an exception stays changed.
     The lemmas are the rules of a small program
    logic: [holds m I Q] says that from every context in [I] the run ends (it is not out of fuel), and
    [Q] relates the context before to the outcome and the context after. *)

From S2P Require Import Prelude Loop.

Section Effects.
Context {S E : Type}.

Definition Eff (A : Type) : Type := S -> Result E A * S.

Definition ret {A} (a : A) : Eff A := fun s => (Ok a, s).
Definition throw {A} (e : E) : Eff A := fun s => (Err e, s).
Definition bind {A B} (m : Eff A) (k : A -> Eff B) : Eff B :=
  fun s => let '(r, s') := m s in match r with Ok a => k a s' | Err e => (Err e, s') | Fuel => (Fuel, s') end.
Definition catch {A} (m : Eff A) (h : E -> Eff A) : Eff A :=
  fun s => let '(r, s') := m s in match r with Err e => h e s' | _ => (r, s') end.
Definition get {A} (f : S -> A) : Eff A := fun s => (Ok (f s), s).
Definition modify (f : S -> S) : Eff unit := fun s => (Ok tt, f s).

(** A specification relates the context before, the outcome and the context after. *)
Definition holds {A} (m : Eff A) (I : S -> Prop) (Q : S -> Result E A -> S -> Prop) : Prop :=
  forall s, I s -> let '(r, s') := m s in r <> Fuel /\ Q s r s'.

Lemma holds_conseq {A} (m : Eff A) (I I' : S -> Prop) (Q Q' : S -> Result E A -> S -> Prop) :
  holds m I Q -> (forall s, I' s -> I s) -> (forall s r s', I' s -> Q s r s' -> Q' s r s') -> holds m I' Q'.
Proof. intros H HI HQ s Hs. specialize (H s (HI s Hs)). destruct (m s) as [r s']. destruct H. eauto. Qed.

(** A specification of the outcome and the context after, for runs that may also be out of fuel. *)
Definition triple {A} (P : S -> Prop) (m : Eff A) (Q : Result E A -> S -> Prop) : Prop :=
  forall s, P s -> let '(r, s') := m s in Q r s'.

(** What is demanded after the first of two programs. *)
Definition andThen {A B} (R : A -> S -> Prop) (Q : Result E B -> S -> Prop) (r : Result E A) (s : S) : Prop :=
  match r with Ok a => R a s | Err e => Q (Err e) s | Fuel => Q Fuel s end.

Lemma triple_bind {A B} (R : A -> S -> Prop) P (m : Eff A) (k : A -> Eff B) Q :
  triple P m (andThen R Q) -> (forall a, triple (R a) (k a) Q) -> triple P (bind m k) Q.
Proof.
  intros Hm Hk s Hs. unfold bind. specialize (Hm s Hs). destruct (m s) as [[a|e|] s']; cbn [andThen] in Hm; [|done..].
  by specialize (Hk a s' Hm).
Qed.

Lemma triple_ret {A} (P : S -> Prop) (a : A) (Q : Result E A -> S -> Prop) : (forall s, P s -> Q (Ok a) s) -> triple P (ret a) Q.
Proof. intros H s Hs. cbn. auto. Qed.

Lemma triple_throw {A} (P : S -> Prop) e (Q : Result E A -> S -> Prop) : (forall s, P s -> Q (Err e) s) -> triple P (throw e) Q.
Proof. intros H s Hs. cbn. auto. Qed.

Lemma triple_modify (P : S -> Prop) f (Q : Result E unit -> S -> Prop) : (forall s, P s -> Q (Ok tt) (f s)) -> triple P (modify f) Q.
Proof. intros H s Hs. cbn. auto. Qed.

Lemma triple_get {A} (P : S -> Prop) (f : S -> A) (Q : Result E A -> S -> Prop) : (forall s, P s -> Q (Ok (f s)) s) -> triple P (get f) Q.
Proof. intros H s Hs. cbn. auto. Qed.

Lemma triple_conseq {A} (P P' : S -> Prop) (m : Eff A) (Q Q' : Result E A -> S -> Prop) :
  triple P m Q -> (forall s, P' s -> P s) -> (forall r s, Q r s -> Q' r s) -> triple P' m Q'.
Proof. intros H HP HQ s Hs. specialize (H s (HP s Hs)). destruct (m s). auto. Qed.

Lemma triple_catch {A} (P : S -> Prop) (m : Eff A) (h : E -> Eff A) (R : E -> S -> Prop) (Q : Result E A -> S -> Prop) :
  triple P m (fun r s => match r with Err e => R e s | _ => Q r s end) -> (forall e, triple (R e) (h e) Q) -> triple P (catch m h) Q.
Proof.
  intros Hm Hh s Hs. unfold catch. specialize (Hm s Hs). destruct (m s) as [[a|e|] s']; [done| |done]. by specialize (Hh e s' Hm).
Qed.

(** The context before, as a logical variable. *)
Lemma triple_at {A} (P : S -> Prop) (m : Eff A) (Q : Result E A -> S -> Prop) : (forall s0, P s0 -> triple (eq s0) m Q) -> triple P m Q.
Proof. intros H s Hs. by apply (H s). Qed.

End Effects.

Arguments Eff : clear implicits.

Notation "'do' x <- m ; k" := (bind m (fun x => k)) (at level 200, x pattern, m at level 100, k at level 200) : js_scope.
Notation "'do_' m ; k" := (bind m (fun _ => k)) (at level 200, m at level 100, k at level 200) : js_scope.

(** ** Costs

    A relation between contexts graded by a cost ("at most [k] more of something"): what a program
    costs is the sum of what its parts cost. *)
Section Cost.
Context {S E : Type} (I : S -> Prop) (R : Z -> S -> S -> Prop).
Context (R_refl : forall k s, 0 <= k -> R k s s).
Context (R_trans : forall j k a b c, R j a b -> R k b c -> R (j + k) a c).
Context (R_mono : forall j k a b, j <= k -> R j a b -> R k a b).
Context (I_step : forall k a b, I a -> R k a b -> I b).

Definition costs {A} (k : Z) (m : Eff S E A) : Prop := holds m I (fun s _ s' => R k s s').

Lemma costs_ret {A} k (a : A) : 0 <= k -> costs k (ret a).
Proof using R_refl. intros Hk s Hs. cbn. auto. Qed.

Lemma costs_throw {A} k e : 0 <= k -> costs k (throw (A := A) e).
Proof using R_refl. intros Hk s Hs. cbn. auto. Qed.

Lemma costs_get {A} k (f : S -> A) : 0 <= k -> costs k (get f).
Proof using R_refl. intros Hk s Hs. cbn. auto. Qed.

Lemma costs_weaken {A} j k (m : Eff S E A) : costs j m -> j <= k -> costs k m.
Proof using R_mono. intros Hm Hk s Hs. specialize (Hm s Hs). destruct (m s) as [r s']. destruct Hm. split; [done|]. eapply R_mono; [exact Hk|done]. Qed.

Lemma costs_bind {A B} j k (m : Eff S E A) (f : A -> Eff S E B) :
  0 <= k -> costs j m -> (forall a, costs k (f a)) -> costs (j + k) (bind m f).
Proof using R_trans R_mono I_step.
  intros Hk Hm Hf s Hs. unfold bind. specialize (Hm s Hs).
  destruct (m s) as [[a|e|] s1]; destruct Hm as [Hm HR]; [|split; [done|eapply R_mono; [|exact HR]; lia]|done].
  specialize (Hf a s1 (I_step _ _ _ Hs HR)). destruct (f a s1) as [r s2]. destruct Hf as [H1 H2]. split; [done|by eapply R_trans].
Qed.

Lemma costs_catch {A} j k (m : Eff S E A) (h : E -> Eff S E A) : 0 <= k -> costs j m -> (forall e, costs k (h e)) -> costs (j + k) (catch m h).
Proof using R_trans R_mono I_step.
  intros Hk Hm Hh s Hs. unfold catch. specialize (Hm s Hs).
  destruct (m s) as [[a|e|] s1]; destruct Hm as [Hm HR]; [split; [done|eapply R_mono; [|exact HR]; lia]| |done].
  specialize (Hh e s1 (I_step _ _ _ Hs HR)). destruct (h e s1) as [r s2]. destruct Hh as [H1 H2]. split; [done|by eapply R_trans].
Qed.
End Cost.
