(* ===== verification/Spf.v ===== *)
(** * SPF (packages/mail-auth/src/spf.ts, second part)

    [checkSpf] and everything under it.  The injected [DnsResolver] is the class [Resolver]: what it
    answers may depend on how many questions were asked before, so that no two answers have to agree.
    The evaluation context carries, besides the fields of the source, the number of questions asked so
    far and of clock readings.  The text of an exception is the constructor of [SpfMessage] with what
    the source puts into it. *)

From S2P Require Import Prelude JsString JsNumber Net Loop Effects MimeHeaders Trace Cidr.

(** ** The resolver *)

(** What a call of the resolver does: it returns, or throws [DnsNotFoundError] or something else. *)
Inductive Answer (A : Type) := Found (a : A) | NotFound | Failed (message : jsstr).
Arguments Found {A} a.
Arguments NotFound {A}.
Arguments Failed {A} message.

Record DnsMxRecord := mkMx { exchange : jsstr; preference : Z }.

Class Resolver := {
  txt : nat -> jsstr -> Answer (list jsstr);
  mx : nat -> jsstr -> Answer (list DnsMxRecord);
  a : nat -> jsstr -> Answer (list jsstr);
  aaaa : nat -> jsstr -> Answer (list jsstr);
  ptr : nat -> jsstr -> Answer (list jsstr);
  dateNow : nat -> Z
}.

(** ** Context and errors *)

Inductive ErrorKind := Permerror | Temperror.

Inductive QueryType := QTxt | QMx | QA | QAaaa | QPtr.

Inductive SpfMessage :=
| MLookupLimit | MVoidLimit
| MQueryFailed (q : QueryType) (name : jsstr) (detail : SpfMessage)
| MSeveralRecords (domain : jsstr) | MMacro (spec : jsstr) | MBadDomainExpanded (domain : jsstr)
| MBadIp4 (arg : jsstr) | MBadIp4Prefix (n : Z) | MBadIp6 (arg : jsstr) | MBadIp6Prefix (n : Z)
| MBadMechanism (term : jsstr) | MUnknownTerm (term : jsstr) | MTwoRedirects | MTwoExps
| MBadDomain (domain : jsstr) | MNoRecord (domain : jsstr) | MBadIp (ip : jsstr)
| MDns (detail : jsstr).

(** [SpfEvalError], or what the resolver threw ([None]). *)
Record Thrown := mkThrown { kind : option ErrorKind; message : SpfMessage }.

Definition spfError (k : ErrorKind) (m : SpfMessage) : Thrown := {| kind := Some k; message := m |}.

Record EvalCtx := mkCtx {
  lookups : Z;
  voidLookups : Z;
  pMacroValue : option jsstr;
  pendingExplanation : option jsstr;
  queries : nat;
  ticks : nat
}.

Definition initialCtx : EvalCtx :=
  {| lookups := 0; voidLookups := 0; pMacroValue := None; pendingExplanation := None; queries := 0; ticks := 0 |}.

(** The fields of [MacroCtx] and the client address of [EvalCtx], which is the same. *)
Record MacroCtx := mkMacro {
  senderFull : jsstr; senderLocal : jsstr; senderDomain : jsstr; helo : jsstr; clientIp : ParsedIp; currentDomain : jsstr
}.

Abbreviation M := (Eff EvalCtx Thrown).

Definition countLookup : M unit :=
  do_ modify (fun c => c <| lookups ::= Z.succ |>);
  do n <- get lookups;
  if 10 <? n then throw (spfError Permerror MLookupLimit) else ret tt.

Definition countVoidLookup : M unit :=
  do_ modify (fun c => c <| voidLookups ::= Z.succ |>);
  do n <- get voidLookups;
  if 2 <? n then throw (spfError Permerror MVoidLimit) else ret tt.

Definition optVoid (count : bool) : M unit := if count then countVoidLookup else ret tt.

(** One question: the answer is that of the moment. *)
Definition ask {A} (q : nat -> jsstr -> Answer A) (name : jsstr) : M (Answer A) :=
  do n <- get queries;
  do_ modify (fun c => c <| queries ::= S |>);
  ret (q n name).

(** [await resolver.q(name)] where nothing but an outer [catch] handles what it throws. *)
Definition askOrThrow {A} (q : nat -> jsstr -> Answer A) (name : jsstr) : M A :=
  do r <- ask q name;
  match r with
  | Found x => ret x
  | NotFound => throw {| kind := None; message := MDns [] |}
  | Failed e => throw {| kind := None; message := MDns e |}
  end.

(** [s.replace(/\.$/, "")] *)
Definition dropDot (s : jsstr) : jsstr := if endsWith1 DOT s then take (length s - 1) s else s.

Definition isLabelChar (c : Z) : bool :=
  isDigit c || ((65 <=? c) && (c <=? 90)) || ((97 <=? c) && (c <=? 122)) || (c =? 95) || (c =? 45).

Definition isValidDomain (d : jsstr) : bool :=
  match d with
  | [] => false
  | _ => if (253 <? length d)%nat then false
         else forallb (fun label => ((1 <=? length label) && (length label <=? 63))%nat && forallb isLabelChar label) (splitOn DOT d)
  end.

Section Evaluation.
Context `{Resolver}.

(** ** Questions with their budget *)

(** [/^v=spf1(\s|$)/i.test(t)] *)
Definition isSpfRecord (t : jsstr) : bool :=
  startsWithI (js "v=spf1") t && match drop 6 t with [] => true | c :: _ => isWs c end.

Definition fetchSpfRecord (domain : jsstr) (countVoidIfEmpty : bool) : M (option jsstr) :=
  do r <- ask txt domain;
  match r with
  | NotFound => do_ optVoid countVoidIfEmpty; ret None
  | Failed e => throw (spfError Temperror (MQueryFailed QTxt domain (MDns e)))
  | Found [] => do_ optVoid countVoidIfEmpty; ret None
  | Found txts =>
      match List.filter isSpfRecord txts with
      | [] => ret None
      | [r] => ret (Some r)
      | _ => throw (spfError Permerror (MSeveralRecords domain))
      end
  end.

Definition lookupAddrs (domain : jsstr) (v : IpVersion) (countVoid : bool) : M (list ParsedIp) :=
  do r <- ask (match v with V4 => a | V6 => aaaa end) domain;
  match r with
  | NotFound => do_ optVoid countVoid; ret []
  | Failed e => throw (spfError Temperror (MQueryFailed (match v with V4 => QA | V6 => QAaaa end) domain (MDns e)))
  | Found raw =>
      do_ (match raw with [] => optVoid countVoid | _ => ret tt end);
      ret (omap parseIp raw)
  end.

(** [safeMx] and [safePtr].  An empty answer is counted inside the [try], so that its own [catch]
    also gets the exception of the counter. *)
Definition safeQuery {A} (q : nat -> jsstr -> Answer (list A)) (t : QueryType) (name : jsstr) : M (list A) :=
  do r <- ask q name;
  match r with
  | NotFound => do_ countVoidLookup; ret []
  | Failed e => throw (spfError Temperror (MQueryFailed t name (MDns e)))
  | Found [] =>
      do_ catch countVoidLookup (fun err => throw (spfError Temperror (MQueryFailed t name (message err))));
      ret []
  | Found recs => ret recs
  end.

Definition safeMx (domain : jsstr) : M (list DnsMxRecord) := safeQuery mx QMx domain.
Definition safePtr (ip : ParsedIp) : M (list jsstr) := safeQuery ptr QPtr (presentIp ip).

(** ** Macros *)

(** The loop over the candidate names. *)
Fixpoint pMacroLoop (ip : ParsedIp) (names : list jsstr) : M jsstr :=
  match names with
  | [] => ret (js "unknown")
  | name :: rest =>
      do_ countLookup;
      do raw <- askOrThrow (match version ip with V4 => a | V6 => aaaa end) name;
      if existsb (fun s => match parseIp s with Some p => sameBytes p ip | None => false end) raw
      then ret (dropDot name) else pMacroLoop ip rest
  end.

Definition resolvePMacro (ip : ParsedIp) : M jsstr :=
  catch
    (do_ countLookup;
     do names <- askOrThrow ptr (presentIp ip);
     pMacroLoop ip (take 10 names))
    (fun _ => ret (js "unknown")).

Fixpoint splitByDelims (delims cur : jsstr) (value : jsstr) : list jsstr :=
  match value with
  | [] => [cur]
  | ch :: r => if existsb (Z.eqb ch) delims then cur :: splitByDelims delims [] r else splitByDelims delims (cur ++ [ch]) r
  end.

Definition readClock : M Z :=
  do n <- get ticks;
  do_ modify (fun c => c <| ticks ::= S |>);
  ret (dateNow n).

(** The letter is in lower case. *)
Definition macroValueAsync (letter : Z) (m : MacroCtx) (forExp : bool) : M (option jsstr) :=
  let ip := clientIp m in
  if letter =? 115 then ret (Some (senderFull m))
  else if letter =? 108 then ret (Some (senderLocal m))
  else if letter =? 111 then ret (Some (senderDomain m))
  else if letter =? 100 then ret (Some (currentDomain m))
  else if letter =? 105 then ret (Some (match version ip with V4 => presentIp ip | V6 => nibbleForm ip end))
  else if letter =? 104 then ret (Some (helo m))
  else if letter =? 118 then ret (Some (match version ip with V4 => js "in-addr" | V6 => js "ip6" end))
  else if letter =? 112 then
    do cached <- get pMacroValue;
    match cached with
    | Some v => ret (Some v)
    | None => do v <- resolvePMacro ip; do_ modify (fun c => c <| pMacroValue := Some v |>); ret (Some v)
    end
  else if letter =? 99 then ret (if forExp then Some (presentIp ip) else None)
  else if letter =? 114 then ret (if forExp then Some (js "unknown") else None)
  else if letter =? 116 then
    if forExp then do now <- readClock; ret (Some (numToString (now / 1000))) else ret None
  else ret None.

(** The fields of a match of [MACRO_RE]: the letter in lower case, the digits, the reversal and the
    delimiters. *)
Record MacroMatch := mkMatch { mm_letter : Z; mm_digits : jsstr; mm_reversed : bool; mm_delims : jsstr }.

Definition isMacroLetter (c : Z) : bool := existsb (Z.eqb c) (js "slodiphcrtvSLODIPHCRTV").
Definition isDelim (c : Z) : bool := existsb (Z.eqb c) (js ".-+,/_=").

Definition macroRe (inner : jsstr) : option MacroMatch :=
  match inner with
  | c :: r =>
      if isMacroLetter c then
        let '(digits, r1) := spanDigits r in
        let '(rv, r2) := match r1 with 114 :: r' => (true, r') | _ => (false, r1) end in
        if forallb isDelim r2 then Some {| mm_letter := if c <=? 90 then c + 32 else c; mm_digits := digits; mm_reversed := rv; mm_delims := r2 |}
        else None
      else None
  | [] => None
  end.

(** From the value of a macro to its text.  The number of the digits is exact: it is compared with
    the number of parts, which is below [2^53]. *)
Definition macroText (m : MacroMatch) (value : jsstr) : jsstr :=
  let delims := match mm_delims m with [] => [DOT] | d => d end in
  let parts := splitByDelims delims [] value in
  let parts := if mm_reversed m then rev parts else parts in
  let parts := match mm_digits m with
               | [] => parts
               | ds => let n := digitsVal ds in
                       if (0 <? n) && (n <? len parts) then drop (length parts - Z.to_nat n) parts else parts
               end in
  joinWith [DOT] parts.

(** The loop of [expandMacros]; [skip] units were consumed by the item before. *)
Fixpoint expandLoop (m : MacroCtx) (forExp : bool) (template : jsstr) (skip : nat) (out : jsstr) : M (option jsstr) :=
  match template with
  | [] => ret (Some out)
  | ch :: rest =>
      match skip with
      | S k => expandLoop m forExp rest k out
      | O =>
          if negb (ch =? 37) then expandLoop m forExp rest 0 (out ++ [ch])
          else
            match rest with
            | 37 :: _ => expandLoop m forExp rest 1 (out ++ [37])
            | 95 :: _ => expandLoop m forExp rest 1 (out ++ [SP])
            | 45 :: _ => expandLoop m forExp rest 1 (out ++ js "%20")
            | 123 :: inside =>
                match indexOf 125 inside with
                | None => ret None
                | Some close =>
                    match macroRe (take close inside) with
                    | None => ret None
                    | Some mm =>
                        do value <- macroValueAsync (mm_letter mm) m forExp;
                        match value with
                        | None => ret None
                        | Some v => expandLoop m forExp rest (close + 2) (out ++ macroText mm v)
                        end
                    end
                end
            | _ => ret None
            end
      end
  end.

Definition expandMacros (template : jsstr) (m : MacroCtx) (forExp : bool) : M (option jsstr) :=
  expandLoop m forExp template 0 [].

Definition expandDomainSpec (spec : jsstr) (m : MacroCtx) : M jsstr :=
  do expanded <- expandMacros spec m false;
  match expanded with
  | None => throw (spfError Permerror (MMacro spec))
  | Some e =>
      let domain := dropDot e in
      if isValidDomain domain then ret domain else throw (spfError Permerror (MBadDomainExpanded domain))
  end.

Definition tryFetchExplanation (expSpec : jsstr) (m : MacroCtx) : M unit :=
  catch
    (do domain <- expandDomainSpec expSpec m;
     do txts <- askOrThrow txt domain;
     match txts with
     | [] => ret tt
     | t :: _ =>
         do expanded <- expandMacros t m true;
         match expanded with
         | Some e => modify (fun c => c <| pendingExplanation := Some e |>)
         | None => ret tt
         end
     end)
    (fun _ => ret tt).

(** ** Mechanisms *)

Inductive Qualifier := QPlus | QMinus | QTilde | QQuestion.

Inductive MechType := MAll | MIp4 | MIp6 | MA | MMx | MPtr | MInclude | MExists.

Record Mechanism := mkMech { qualifier : Qualifier; mtype : MechType; arg : option jsstr; cidr4 : option Z; cidr6 : option Z }.

Definition readQualifier (c : Z) : option Qualifier :=
  if c =? 43 then Some QPlus else if c =? 45 then Some QMinus else if c =? 126 then Some QTilde
  else if c =? 63 then Some QQuestion else None.

(** The optional qualifier in front of a term. *)
Definition splitQualifier (term : jsstr) : option Qualifier * jsstr :=
  match term with
  | c :: r => match readQualifier c with Some q => (Some q, r) | None => (None, term) end
  | [] => (None, [])
  end.

(** What follows [p] at the start of [s], in any case. *)
Definition afterI (p s : jsstr) : option jsstr := if startsWithI p s then Some (drop (length p) s) else None.

Definition opens (cs : jsstr) (r : option jsstr) : bool :=
  match r with Some [] => true | Some (c :: _) => existsb (Z.eqb c) cs | None => false end.

Definition isMechanismTerm (term : jsstr) : bool :=
  let t := (splitQualifier term).2 in
  match afterI (js "all") t with Some [] => true | _ => false end
  || startsWithI (js "include:") t || startsWithI (js "exists:") t
  || opens (js ":/") (afterI (js "a") t)
  || opens (js ":/") (afterI (js "mx") t)
  || opens (js ":") (afterI (js "ptr") t)
  || startsWithI (js "ip4:") t || startsWithI (js "ip6:") t.

(** [(?:\/(\d{1,w}))?$] *)
Definition oneCidr (w : nat) (dflt : Z) (r : jsstr) : option Z :=
  match r with
  | [] => Some dflt
  | 47 :: d => if ((1 <=? length d) && (length d <=? w))%nat && forallb isDigit d then Some (digitsVal d) else None
  | _ => None
  end.

(** [(?:\/(\d{1,2}))?(?:\/\/(\d{1,3}))?$]: the first group stops at the first unit that is no digit, and
    is left out when there is no digit. *)
Definition secondCidr (r : jsstr) : option Z :=
  match r with
  | [] => Some 128
  | 47 :: 47 :: d => if ((1 <=? length d) && (length d <=? 3))%nat && forallb isDigit d then Some (digitsVal d) else None
  | _ => None
  end.

Definition dualCidr (r : jsstr) : option (Z * Z) :=
  match r with
  | 47 :: r1 =>
      match spanDigits r1 with
      | ([], _) => c6 ← secondCidr r; Some (32, c6)
      | (d, r2) => if (length d <=? 2)%nat then c6 ← secondCidr r2; Some (digitsVal d, c6) else None
      end
  | _ => c6 ← secondCidr r; Some (32, c6)
  end.

Definition notSlash (c : Z) : bool := negb (c =? 47).

(** [m[1] || null] *)
Definition orNull (s : jsstr) : option jsstr := match s with [] => None | _ => Some s end.

(** What follows the name in the expressions of [a] and [mx]: an optional colon with a host, up to the
    first slash, and the two lengths. *)
Definition hostMech (q : Qualifier) (t : MechType) (r : jsstr) : option Mechanism :=
  let '(host, r1) := match r with 58 :: r' => spanChars notSlash r' | _ => ([], r) end in
  '(c4, c6) ← dualCidr r1; Some {| qualifier := q; mtype := t; arg := orNull host; cidr4 := Some c4; cidr6 := Some c6 |}.

Definition ipMech (q : Qualifier) (t : MechType) (r : jsstr) : option Mechanism :=
  let '(host, r1) := spanChars notSlash r in
  match host with
  | [] => None
  | _ => match t with
         | MIp4 => c ← oneCidr 2 32 r1; Some {| qualifier := q; mtype := t; arg := Some host; cidr4 := Some c; cidr6 := None |}
         | _ => c ← oneCidr 3 128 r1; Some {| qualifier := q; mtype := t; arg := Some host; cidr4 := None; cidr6 := Some c |}
         end
  end.

Definition plainMech (q : Qualifier) (t : MechType) (arg : option jsstr) : Mechanism :=
  {| qualifier := q; mtype := t; arg := arg; cidr4 := None; cidr6 := None |}.

(** The first of the expressions that matches. *)
Fixpoint firstSome {A} (l : list (option A)) : option A :=
  match l with [] => None | Some x :: _ => Some x | None :: r => firstSome r end.

Definition parseMechanism (term : jsstr) : option Mechanism :=
  let '(qm, rest) := splitQualifier term in
  let q := default QPlus qm in
  firstSome [
    match afterI (js "all") rest with Some [] => Some (plainMech q MAll None) | _ => None end;
    afterI (js "ip4:") rest ≫= ipMech q MIp4;
    afterI (js "ip6:") rest ≫= ipMech q MIp6;
    afterI (js "a") rest ≫= hostMech q MA;
    afterI (js "mx") rest ≫= hostMech q MMx;
    match afterI (js "ptr") rest with
    | Some [] => Some (plainMech q MPtr None)
    | Some (58 :: ((_ :: _) as d)) => Some (plainMech q MPtr (Some d))
    | _ => None
    end;
    match afterI (js "include:") rest with Some ((_ :: _) as d) => Some (plainMech q MInclude (Some d)) | _ => None end;
    match afterI (js "exists:") rest with Some ((_ :: _) as d) => Some (plainMech q MExists (Some d)) | _ => None end
  ].

Definition qualifierToResult (q : Qualifier) : SpfResultValue :=
  match q with QPlus => SpfPass | QMinus => SpfFail | QTilde => SpfSoftfail | QQuestion => SpfNeutral end.

(** ** The terms of a record *)

Record Terms := mkTerms { mechanisms : list Mechanism; redirectSpec : option jsstr; expSpec : option jsstr }.

(** A modifier: a name of a letter and then letters, digits, [_], [.] and [-], and a value. *)
Definition isLetter (c : Z) : bool := ((65 <=? c) && (c <=? 90)) || ((97 <=? c) && (c <=? 122)).
Definition isModChar (c : Z) : bool := isLetter c || isDigit c || (c =? 95) || (c =? 46) || (c =? 45).

Definition modMatch (term : jsstr) : option (jsstr * jsstr) :=
  match term with
  | c :: _ =>
      if isLetter c then
        match spanChars isModChar term with
        | (name, 61 :: ((_ :: _) as value)) => Some (toLowerCase name, value)
        | _ => None
        end
      else None
  | [] => None
  end.

(** The first pass: the syntax of the whole record. *)
Fixpoint readTerms (terms : list jsstr) (acc : Terms) : Result Thrown Terms :=
  match terms with
  | [] => Ok acc
  | term :: rest =>
      if isMechanismTerm term then
        match parseMechanism term with
        | None => Err (spfError Permerror (MBadMechanism term))
        | Some mech => readTerms rest (acc <| mechanisms ::= fun l => l ++ [mech] |>)
        end
      else
        match modMatch term with
        | None => Err (spfError Permerror (MUnknownTerm term))
        | Some (name, value) =>
            if name === js "redirect" then
              match redirectSpec acc with
              | Some _ => Err (spfError Permerror MTwoRedirects)
              | None => readTerms rest (acc <| redirectSpec := Some value |>)
              end
            else if name === js "exp" then
              match expSpec acc with
              | Some _ => Err (spfError Permerror MTwoExps)
              | None => readTerms rest (acc <| expSpec := Some value |>)
              end
            else readTerms rest acc
        end
  end.

Definition recordTerms (record : jsstr) : list jsstr :=
  match trim (drop 6 (trim record)) with [] => [] | body => splitWs body end.

Definition parseRecord (record : jsstr) : Result Thrown Terms :=
  readTerms (recordTerms record) {| mechanisms := []; redirectSpec := None; expSpec := None |}.

Definition liftRes {A} (r : Result Thrown A) : M A := fun c => (r, c).

(** ** Evaluation

    [checkHost] stands for [checkHostInner] with less fuel. *)

Definition domainOf (mech : Mechanism) (m : MacroCtx) : M jsstr :=
  match arg mech with Some spec => expandDomainSpec spec m | None => ret (currentDomain m) end.

(** [mech.cidr4!] and [mech.cidr6!]: the parser gives both for [a] and [mx]. *)
Definition prefixOf (mech : Mechanism) (v : IpVersion) : Z :=
  match v with V4 => default 0 (cidr4 mech) | V6 => default 0 (cidr6 mech) end.

Definition ipMatches (mech : Mechanism) (v : IpVersion) (m : MacroCtx) : M bool :=
  let spec := default [] (arg mech) in
  let prefix := prefixOf mech v in
  let bad := throw (spfError Permerror (match v with V4 => MBadIp4 spec | V6 => MBadIp6 spec end)) in
  match parseIp spec with
  | Some net =>
      if negb (sameVersion (version net) v) then bad
      else if (prefix <? 0) || (totalBits v <? prefix) then
        throw (spfError Permerror (match v with V4 => MBadIp4Prefix prefix | V6 => MBadIp6Prefix prefix end))
      else ret (sameVersion (version (clientIp m)) v && ipInCidr (clientIp m) net prefix)
  | None => bad
  end.

Fixpoint mxLoop (ip : ParsedIp) (prefix : Z) (recs : list DnsMxRecord) : M bool :=
  match recs with
  | [] => ret false
  | r :: rest =>
      do addrs <- lookupAddrs (exchange r) (version ip) false;
      if existsb (fun x => ipInCidr ip x prefix) addrs then ret true else mxLoop ip prefix rest
  end.

(** [lname === ldomain || lname.endsWith("." + ldomain)] *)
Definition endsWithStr (s suffix : jsstr) : bool :=
  (length suffix <=? length s)%nat && (drop (length s - length suffix) s === suffix).

Definition underDomain (name domain : jsstr) : bool :=
  let lname := dropDot (toLowerCase name) in
  let ldomain := dropDot (toLowerCase domain) in
  (lname === ldomain) || endsWithStr lname (DOT :: ldomain).

Fixpoint ptrLoop (ip : ParsedIp) (domain : jsstr) (names : list jsstr) : M bool :=
  match names with
  | [] => ret false
  | name :: rest =>
      do addrs <- lookupAddrs name (version ip) false;
      if existsb (fun x => sameBytes x ip) addrs && underDomain name domain then ret true else ptrLoop ip domain rest
  end.

Section Step.
Context (checkHost : jsstr -> MacroCtx -> M SpfResultValue).

Definition evalMechanism (mech : Mechanism) (m : MacroCtx) : M bool :=
  let ip := clientIp m in
  match mtype mech with
  | MAll => ret true
  | MIp4 => ipMatches mech V4 m
  | MIp6 => ipMatches mech V6 m
  | MA =>
      do_ countLookup;
      do domain <- domainOf mech m;
      do addrs <- lookupAddrs domain (version ip) true;
      ret (existsb (fun x => ipInCidr ip x (prefixOf mech (version ip))) addrs)
  | MMx =>
      do_ countLookup;
      do domain <- domainOf mech m;
      do recs <- safeMx domain;
      mxLoop ip (prefixOf mech (version ip)) (take 10 recs)
  | MPtr =>
      do_ countLookup;
      do domain <- domainOf mech m;
      do names <- safePtr ip;
      ptrLoop ip domain (take 10 names)
  | MExists =>
      do_ countLookup;
      do domain <- expandDomainSpec (default [] (arg mech)) m;
      do addrs <- lookupAddrs domain V4 true;
      ret (match addrs with [] => false | _ => true end)
  | MInclude =>
      do_ countLookup;
      do domain <- expandDomainSpec (default [] (arg mech)) m;
      do sub <- checkHost domain m;
      ret (match sub with SpfPass => true | _ => false end)
  end.

(** The second pass: the first mechanism that matches decides. *)
Fixpoint evalMechanisms (ms : list Mechanism) (exp : option jsstr) (m : MacroCtx) : M (option SpfResultValue) :=
  match ms with
  | [] => ret None
  | mech :: rest =>
      do matched <- evalMechanism mech m;
      if matched then
        let outcome := qualifierToResult (qualifier mech) in
        do_ (match outcome, exp with SpfFail, Some spec => tryFetchExplanation spec m | _, _ => ret tt end);
        ret (Some outcome)
      else evalMechanisms rest exp m
  end.

Definition evaluateRecord (record domain : jsstr) (mb : MacroCtx) : M SpfResultValue :=
  let m := mb <| currentDomain := domain |> in
  do ts <- liftRes (parseRecord record);
  do decided <- evalMechanisms (mechanisms ts) (expSpec ts) m;
  match decided with
  | Some outcome => ret outcome
  | None =>
      match redirectSpec ts with
      | Some spec =>
          do_ countLookup;
          do target <- expandDomainSpec spec m;
          checkHost target m
      | None => ret SpfNeutral
      end
  end.
End Step.

Fixpoint checkHostInner (fuel : nat) (domain : jsstr) (mb : MacroCtx) (isTop : bool) : M SpfResultValue :=
  match fuel with
  | O => fun c => (Fuel, c)
  | S f =>
      if negb (isValidDomain domain) then
        if isTop then ret SpfNone else throw (spfError Permerror (MBadDomain domain))
      else
        do record <- fetchSpfRecord domain (negb isTop);
        match record with
        | None => if isTop then ret SpfNone else throw (spfError Permerror (MNoRecord domain))
        | Some r => evaluateRecord (fun d m => checkHostInner f d m false) r domain mb
        end
  end.

(** ** The public function *)

Record SpfInput := mkSpfInput { si_ip : jsstr; si_helo : jsstr; si_mailFrom : jsstr }.

Inductive Explanation := ExpText (t : jsstr) | ExpError (m : SpfMessage).
Record SpfResult := mkSpfResult { result : SpfResultValue; domain : jsstr; explanation : option Explanation }.

(** Each [include] and [redirect] counts a lookup, so that at most 10 nest below the first. *)
Definition SPF_FUEL : nat := 11.

Definition senderOf (input : SpfInput) : jsstr * jsstr * jsstr :=
  match lastIndexOf 64 (si_mailFrom input) with
  | Some at_ =>
      (si_mailFrom input,
       match take at_ (si_mailFrom input) with [] => js "postmaster" | l => l end,
       drop (S at_) (si_mailFrom input))
  | None => (js "postmaster@" ++ si_helo input, js "postmaster", si_helo input)
  end.

(** The outcome of the [try] block. *)
Definition spfOutcome (sender : jsstr) (r : Result Thrown SpfResultValue) (c : EvalCtx) : option SpfResult :=
  match r with
  | Ok v =>
      Some {| result := v; domain := sender;
              explanation := match v with SpfFail => ExpText <$> pendingExplanation c | _ => None end |}
  | Err e =>
      Some {| result := match kind e with Some Permerror => SpfPermerror | Some Temperror => SpfTemperror | None => SpfTemperror end;
              domain := sender; explanation := Some (ExpError (message e)) |}
  | Fuel => None
  end.

(** The result, and the number of questions asked. *)
Definition checkSpf (input : SpfInput) : option SpfResult * nat :=
  match parseIp (si_ip input) with
  | None =>
      (Some {| result := SpfPermerror; domain := match si_mailFrom input with [] => si_helo input | f => f end;
               explanation := Some (ExpError (MBadIp (si_ip input))) |}, O)
  | Some ip =>
      let '(full, local, sender) := senderOf input in
      if negb (isValidDomain sender) then (Some {| result := SpfNone; domain := sender; explanation := None |}, O)
      else
        let mb := {| senderFull := full; senderLocal := local; senderDomain := sender; helo := si_helo input;
                     clientIp := ip; currentDomain := sender |} in
        let '(r, c) := checkHostInner SPF_FUEL sender mb true initialCtx in
        (spfOutcome sender r c, queries c)
  end.
End Evaluation.
