(* ===== verification/SpfSpec.v ===== *)
(** * What SPF evaluation promises

    - every check ends, with at most 112 questions to the resolver ([spf_query_budget]);
    - a verdict without error is one that the records, read as RFC 7208 defines check_host(), give
      ([spf_refines_check_host]);
    - a record with a syntax error anywhere decides nothing else ([spf_syntax_first]). *)

From S2P Require Import Prelude JsString JsNumber Net Loop Effects MimeHeaders Trace Cidr Spf.

(** ** The budget of questions

    The credit of a context is what was asked plus eleven for each lookup that is left: a lookup that is
    counted pays for the questions of its mechanism, at most one and ten. *)
Definition left_ (c : EvalCtx) : Z := 10 - Z.min 10 (lookups c).
Definition credit (c : EvalCtx) : Z := Z.of_nat (queries c) + 11 * left_ c.
Definition spent (k : Z) (c c' : EvalCtx) : Prop := credit c' <= credit c + k /\ lookups c <= lookups c'.

(** With [n] levels of fuel, [include] and [redirect] do not get to the bottom. *)
Definition enough (n : nat) (c : EvalCtx) : Prop := 11 <= lookups c + Z.of_nat n.

Abbreviation spends n := (costs (E := Thrown) (enough n) spent).

Section Budget.
Context `{Resolver} (n : nat).

Lemma spent_refl k c : 0 <= k -> spent k c c.
Proof. unfold spent. lia. Qed.
Lemma spent_trans j k a b c : spent j a b -> spent k b c -> spent (j + k) a c.
Proof. unfold spent. lia. Qed.
Lemma spent_mono j k a b : j <= k -> spent j a b -> spent k a b.
Proof. unfold spent. lia. Qed.
Lemma enough_step k a b : enough n a -> spent k a b -> enough n b.
Proof. unfold enough, spent. lia. Qed.

Lemma spends_bind {A B} j k l (m : M A) (f : A -> M B) : spends n j m -> (forall a, spends n k (f a)) -> 0 <= k -> j + k <= l -> spends n l (bind m f).
Proof using Type.
  intros Hm Hf Hk Hl. eapply costs_weaken; [apply spent_mono| |exact Hl].
  eapply costs_bind; [apply spent_trans|apply spent_mono|apply enough_step|done|done|done].
Qed.

Lemma spends_catch {A} k (m : M A) (h : Thrown -> M A) : spends n k m -> (forall e, spends n 0 (h e)) -> spends n k (catch m h).
Proof using Type.
  intros Hm Hh. rewrite <- (Z.add_0_r k). eapply costs_catch; [apply spent_trans|apply spent_mono|apply enough_step|done|done|done].
Qed.

Lemma spends_ret {A} k (a : A) : 0 <= k -> spends n k (ret a).
Proof. apply costs_ret. exact spent_refl. Qed.
Lemma spends_throw {A} k e : 0 <= k -> spends n k (throw (A := A) e).
Proof. apply costs_throw. exact spent_refl. Qed.
Lemma spends_get {A} k (f : EvalCtx -> A) : 0 <= k -> spends n k (get f).
Proof. apply costs_get. exact spent_refl. Qed.
Lemma spends_weaken {A} j k (m : M A) : spends n j m -> j <= k -> spends n k m.
Proof. apply costs_weaken, spent_mono. Qed.

Lemma spends_modify k f : 0 <= k -> (forall c, lookups (f c) = lookups c /\ queries (f c) = queries c) -> spends n k (modify f).
Proof. intros Hk Hf c _. destruct (Hf c) as [H1 H2]. split; [done|]. unfold spent, credit, left_. rewrite H1, H2. lia. Qed.

(** A counted lookup, with a level less of fuel behind it; one level is always left. *)
Lemma spends_counted_level {A} k (m : M A) :
  (forall n', n = S (S n') -> spends (S n') 11 m) -> 0 <= k -> spends n k (do_ countLookup; m).
Proof using Type.
  intros Hm Hk c Hc. unfold bind at 1. unfold countLookup, bind, modify, get. cbn. set (c1 := c <| lookups ::= Z.succ |>).
  destruct (Z.ltb_spec 10 (Z.succ (lookups c))) as [Hgt|Hle]; cbn.
  - split; [done|]. unfold spent, credit, left_. cbn. lia.
  - unfold enough in Hc. destruct n as [|[|n']]; [lia|lia|]. assert (E : lookups c1 = Z.succ (lookups c)) by done.
    specialize (Hm n' eq_refl c1 ltac:(unfold enough; rewrite E; lia)). destruct (m c1) as [r c2]. destruct Hm as [H1 H2]. split; [done|].
    unfold spent, credit, left_ in *. rewrite E in H2. change (queries c1) with (queries c) in H2. lia.
Qed.

Lemma spends_counted {A} k (m : M A) : (forall n', spends n' 11 m) -> 0 <= k -> spends n k (do_ countLookup; m).
Proof using Type.
  intros Hm Hk. apply spends_counted_level; [|done]. intros n' _. apply Hm.
Qed.
End Budget.

#[export] Hint Resolve spends_ret spends_throw spends_get : spf.
#[export] Hint Extern 4 (_ <= _) => lia : spf.

Section Costs.
Context `{Resolver}.
Implicit Types (n : nat) (k : Z).

Lemma spends_ask {A} n k (q : nat -> jsstr -> Answer A) name : 1 <= k -> spends n k (ask q name).
Proof.
  intros Hk c Hc. unfold ask, bind, get, modify. cbn. split; [done|]. unfold spent, credit, left_. cbn. lia.
Qed.

Lemma spends_void n k : 0 <= k -> spends n k countVoidLookup.
Proof.
  intros Hk. unfold countVoidLookup. eapply (spends_bind n 0 k); [by apply spends_modify| |done|lia]. intros _.
  eapply (spends_bind n 0 k); [by apply spends_get| |done|lia]. intros v. destruct (2 <? v); auto with spf.
Qed.

Lemma spends_optVoid n k count : 0 <= k -> spends n k (optVoid count).
Proof. intros Hk. destruct count; cbn; [by apply spends_void|auto with spf]. Qed.

(** A question of cost one, and what is done with the answer at no cost. *)
Lemma spends_asking {A B} n k (q : nat -> jsstr -> Answer A) name (f : Answer A -> M B) :
  1 <= k -> (forall r, spends n 0 (f r)) -> spends n k (do r <- ask q name; f r).
Proof. intros Hk Hf. eapply (spends_bind n 1 0); [by apply spends_ask|done|done|lia]. Qed.

Lemma spends_then {A B} n k (m : M A) (f : A -> M B) : 0 <= k -> spends n 0 m -> (forall a, spends n k (f a)) -> spends n k (bind m f).
Proof. intros Hk Hm Hf. eapply (spends_bind n 0 k); [done|done|done|lia]. Qed.

Lemma spends_askOrThrow {A} n k (q : nat -> jsstr -> Answer A) name : 1 <= k -> spends n k (askOrThrow q name).
Proof. intros Hk. apply spends_asking; [done|]. intros []; auto with spf. Qed.

Lemma spends_fetch n k domain count : 1 <= k -> spends n k (fetchSpfRecord domain count).
Proof.
  intros Hk. apply spends_asking; [done|]. intros [txts| |e]; [|apply spends_then; [done|by apply spends_optVoid|]; auto with spf|auto with spf].
  destruct txts as [|t txts]; [apply spends_then; [done|by apply spends_optVoid|]; auto with spf|].
  destruct (List.filter isSpfRecord (t :: txts)) as [|? [|]]; auto with spf.
Qed.

Lemma spends_addrs n k domain v count : 1 <= k -> spends n k (lookupAddrs domain v count).
Proof.
  intros Hk. apply spends_asking; [done|]. intros [raw| |e]; [|apply spends_then; [done|by apply spends_optVoid|]; auto with spf|auto with spf].
  apply spends_then; [done| |auto with spf]. destruct raw; [by apply spends_optVoid|auto with spf].
Qed.

Lemma spends_safeQuery {A} n k (q : nat -> jsstr -> Answer (list A)) t name : 1 <= k -> spends n k (safeQuery q t name).
Proof.
  intros Hk. apply spends_asking; [done|]. intros [[|x recs]| |e]; [|auto with spf| |auto with spf];
    (apply spends_then; [done| |auto with spf]); [apply spends_catch; [|auto with spf]|]; by apply spends_void.
Qed.

(** The loops ask once per name, for at most ten names. *)
Lemma spends_mxLoop n k ip prefix recs : len recs <= k -> spends n k (mxLoop ip prefix recs).
Proof.
  revert k. induction recs as [|r recs IH]; intros k Hk; cbn [mxLoop]; [unfold len in Hk; cbn in Hk; auto with spf|].
  rewrite len_cons in Hk. pose proof (len_nonneg recs).
  eapply (spends_bind n 1 (k - 1)); [by apply spends_addrs| |lia|lia]. intros addrs. destruct (existsb _ addrs); [auto with spf|]. apply IH. lia.
Qed.

Lemma spends_ptrLoop n k ip domain names : len names <= k -> spends n k (ptrLoop ip domain names).
Proof.
  revert k. induction names as [|r names IH]; intros k Hk; cbn [ptrLoop]; [unfold len in Hk; cbn in Hk; auto with spf|].
  rewrite len_cons in Hk. pose proof (len_nonneg names).
  eapply (spends_bind n 1 (k - 1)); [by apply spends_addrs| |lia|lia]. intros addrs. destruct (existsb _ addrs && _); [auto with spf|]. apply IH. lia.
Qed.

Lemma len_take {A} (l : list A) : len (take 10 l) <= 10.
Proof. unfold len. rewrite length_take. lia. Qed.

(** A macro pays for itself. *)
Lemma spends_pLoop n ip names : spends n 0 (pMacroLoop ip names).
Proof.
  revert n. induction names as [|name names IH]; intros n; cbn [pMacroLoop]; [auto with spf|]. apply spends_counted; [|done]. intros n'.
  eapply (spends_bind n' 1 10); [by apply spends_askOrThrow| |done|lia]. intros raw. destruct (existsb _ raw); [auto with spf|].
  eapply spends_weaken; [apply IH|lia].
Qed.

Lemma spends_pMacro n ip : spends n 0 (resolvePMacro ip).
Proof.
  apply spends_catch; [|auto with spf]. apply spends_counted; [|done]. intros n'. eapply (spends_bind n' 1 10); [by apply spends_askOrThrow| |done|lia].
  intros names. eapply spends_weaken; [apply spends_pLoop|lia].
Qed.

Lemma spends_macro n letter m e : spends n 0 (macroValueAsync letter m e).
Proof.
  unfold macroValueAsync. cbv zeta.
  repeat match goal with |- costs _ _ _ (if letter =? ?c then _ else _) => destruct (letter =? c); [try (by auto with spf)|] end; [| |by auto with spf].
  - apply spends_then; [done|auto with spf|]. intros [v|]; [auto with spf|]. apply spends_then; [done|apply spends_pMacro|]. intros v.
    apply spends_then; [done|by apply spends_modify|auto with spf].
  - destruct e; [|auto with spf]. apply spends_then; [done| |auto with spf].
    unfold readClock. apply spends_then; [done|auto with spf|]. intros t. apply spends_then; [done|by apply spends_modify|auto with spf].
Qed.

Lemma spends_expandLoop n m e t skip out : spends n 0 (expandLoop m e t skip out).
Proof.
  revert skip out. induction t as [|ch rest IH]; intros skip out; cbn [expandLoop]; [auto with spf|]. destruct skip as [|k]; [|apply IH].
  destruct (ch =? 37); cbn [negb]; [|apply IH]. destruct rest as [|c inside] eqn:E; [auto with spf|]. rewrite <- E in *.
  repeat (case_match; try (apply IH); try (by auto with spf)). apply spends_then; [done|apply spends_macro|]. intros [v|]; [apply IH|auto with spf].
Qed.

Lemma spends_expand n spec m : spends n 0 (expandDomainSpec spec m).
Proof. apply spends_then; [done|apply spends_expandLoop|]. intros [e|]; cbv beta iota zeta; [destruct (isValidDomain _)|]; auto with spf. Qed.

Lemma spends_explain n k spec m : 1 <= k -> spends n k (tryFetchExplanation spec m).
Proof.
  intros Hk. apply spends_catch; [|auto with spf]. apply spends_then; [lia|apply spends_expand|]. intros d.
  eapply (spends_bind n 1 0); [by apply spends_askOrThrow| |done|lia]. intros [|t txts]; [auto with spf|].
  apply spends_then; [done|apply spends_expandLoop|]. intros [e|]; [by apply spends_modify|auto with spf].
Qed.

Lemma spends_domainOf n mech m : spends n 0 (domainOf mech m).
Proof. unfold domainOf. case_match; [apply spends_expand|auto with spf]. Qed.

Lemma spends_ip n mech v m : spends n 0 (ipMatches mech v m).
Proof. unfold ipMatches. repeat case_match; auto with spf. Qed.

Section Level.
Context (n : nat) (checkHost : jsstr -> MacroCtx -> M SpfResultValue).
Context (Hrec : forall n' d m, n = S (S n') -> spends (S n') 2 (checkHost d m)).

Lemma spends_mechanism mech m : spends n 0 (evalMechanism checkHost mech m).
Proof using Hrec.
  unfold evalMechanism. destruct (mtype mech); [auto with spf|apply spends_ip|apply spends_ip| | | | |].
  - apply spends_counted; [|done]. intros n'. apply spends_then; [done|apply spends_domainOf|]. intros d.
    eapply (spends_bind n' 1 0); [by apply spends_addrs|auto with spf|done|lia].
  - apply spends_counted; [|done]. intros n'. apply spends_then; [done|apply spends_domainOf|]. intros d.
    eapply (spends_bind n' 1 10); [by apply spends_safeQuery| |done|lia]. intros recs. apply spends_mxLoop, len_take.
  - apply spends_counted; [|done]. intros n'. apply spends_then; [done|apply spends_domainOf|]. intros d.
    eapply (spends_bind n' 1 10); [by apply spends_safeQuery| |done|lia]. intros names. apply spends_ptrLoop, len_take.
  - apply spends_counted_level; [|done]. intros n' Hn. apply spends_then; [done|apply spends_expand|]. intros d.
    eapply (spends_bind (S n') 2 0); [by apply Hrec|auto with spf|done|lia].
  - apply spends_counted; [|done]. intros n'. apply spends_then; [done|apply spends_expand|]. intros d.
    eapply (spends_bind n' 1 0); [by apply spends_addrs|auto with spf|done|lia].
Qed.

Lemma spends_mechanisms ms exp m : spends n 1 (evalMechanisms checkHost ms exp m).
Proof using Hrec.
  induction ms as [|mech ms IH]; cbn [evalMechanisms]; [auto with spf|]. apply spends_then; [done|apply spends_mechanism|].
  intros [|]; [|done]. cbv zeta. eapply (spends_bind n 1 0); [|auto with spf|done|lia].
  destruct (qualifier mech), exp; cbn; auto with spf. by apply spends_explain.
Qed.

Lemma spends_record record d mb : spends n 1 (evaluateRecord checkHost record d mb).
Proof using Hrec.
  unfold evaluateRecord. cbv zeta. apply spends_then; [done| |].
  { intros c _. unfold liftRes. split; [|by apply spent_refl]. unfold parseRecord. generalize (recordTerms record). intros ts.
    generalize {| mechanisms := []; redirectSpec := None; expSpec := None |}. induction ts as [|t ts IH]; intros acc; cbn [readTerms]; [done|].
    repeat (case_match; try done; try apply IH). }
  intros ts. eapply (spends_bind n 1 0); [apply spends_mechanisms| |done|lia]. intros [o|]; [auto with spf|]. destruct (redirectSpec ts) as [spec|]; [|auto with spf].
  apply spends_counted_level; [|done]. intros n' Hn. apply spends_then; [done|apply spends_expand|]. intros t.
  eapply spends_weaken; [by apply Hrec|lia].
Qed.
End Level.

Lemma spends_checkHost n d m top : spends (S n) 2 (checkHostInner (S n) d m top).
Proof.
  revert d m top. induction n as [|n IH]; intros d m top; cbn [checkHostInner];
    (destruct (negb (isValidDomain d)); [destruct top; auto with spf|]);
    (eapply (spends_bind _ 1 1); [by apply spends_fetch| |done|lia]); (intros [r|]; [|destruct top; auto with spf]); apply spends_record.
  - intros n' d' m' [=].
  - intros n' d' m' [= ->]. exact (IH d' m' false).
Qed.

(** Every check ends, whatever the records and the answers of the resolver: records that include each
    other in a circle, macros, names without end.  It gives a verdict after at most 112 questions. *)
Theorem spf_query_budget input : exists r, (checkSpf input).1 = Some r /\ (snd (checkSpf input) <= 112)%nat.
Proof.
  unfold checkSpf. destruct (parseIp (si_ip input)) as [ip|]; [|eexists; split; [done|cbn; lia]].
  destruct (senderOf input) as [[full local] sender]. destruct (isValidDomain sender); cbn [negb]; [|eexists; split; [done|cbn; lia]].
  pose proof (spends_checkHost 10 sender (mkMacro full local sender (si_helo input) ip sender) true initialCtx ltac:(unfold enough; cbn; lia)) as Hs.
  unfold SPF_FUEL. destruct (checkHostInner _ _ _ _ _) as [r c]. destruct Hs as [H1 [H2 _]]. unfold credit, left_ in H2. cbn in H2.
  destruct r as [v|e|]; [| |done]; (eexists; split; [done|cbn; lia]).
Qed.
End Costs.

(** ** What the records say

    check_host() of RFC 7208 as a relation, without contexts, counters or order of questions: an
    answer is one the resolver gives at some moment. *)
Section Semantics.
Context `{Resolver}.

Definition answers {A} (q : nat -> jsstr -> Answer A) (name : jsstr) (x : A) : Prop := exists n, q n name = Found x.

Definition addrQuery (v : IpVersion) : nat -> jsstr -> Answer (list jsstr) := match v with V4 => a | V6 => aaaa end.

(** The list of an answer; a name that is not there has none. *)
Definition lists {A} (q : nat -> jsstr -> Answer (list A)) (name : jsstr) (l : list A) : Prop :=
  answers q name l \/ (exists n, q n name = NotFound) /\ l = [].

(** [name] has the addresses [l]. *)
Definition addrsOf (name : jsstr) (v : IpVersion) (l : list ParsedIp) : Prop :=
  exists raw, lists (addrQuery v) name raw /\ l = omap parseIp raw.

(** The one SPF record of a domain. *)
Definition publishes (domain record : jsstr) : Prop :=
  exists txts, answers txt domain txts /\ List.filter isSpfRecord txts = [record].

Definition expandsTo (m : MacroCtx) (spec d : jsstr) : Prop := exists c c', expandDomainSpec spec m c = (Ok d, c').

Definition target (m : MacroCtx) (mech : Mechanism) (d : jsstr) : Prop :=
  match arg mech with Some spec => expandsTo m spec d | None => d = currentDomain m end.

Definition network (mech : Mechanism) (v : IpVersion) (net : ParsedIp) : Prop :=
  parseIp (default [] (arg mech)) = Some net /\ version net = v /\ 0 <= prefixOf mech v <= totalBits v.

(** The client is in the range around one of the addresses. *)
Definition near (m : MacroCtx) (mech : Mechanism) (l : list ParsedIp) : Prop :=
  exists x, x ∈ l /\ inPrefix (clientIp m) x (prefixOf mech (version (clientIp m))).

(** A name of the client, confirmed by its addresses, under the domain. *)
Definition confirms (m : MacroCtx) (d name : jsstr) (l : list ParsedIp) : Prop :=
  (exists x, x ∈ l /\ ipBytes x = ipBytes (clientIp m)) /\ underDomain name d = true.

Definition inside (m : MacroCtx) (d : jsstr) : MacroCtx := m <| currentDomain := d |>.

Inductive CheckHost : MacroCtx -> jsstr -> SpfResultValue -> Prop :=
| check_match m d record ts pre mech post :
    publishes d record -> parseRecord record = Ok ts -> mechanisms ts = pre ++ mech :: post ->
    Forall (fun x => Evaluates (inside m d) x false) pre -> Evaluates (inside m d) mech true ->
    CheckHost m d (qualifierToResult (qualifier mech))
| check_redirect m d record ts spec d' r :
    publishes d record -> parseRecord record = Ok ts -> Forall (fun x => Evaluates (inside m d) x false) (mechanisms ts) ->
    redirectSpec ts = Some spec -> expandsTo (inside m d) spec d' -> CheckHost (inside m d) d' r -> CheckHost m d r
| check_default m d record ts :
    publishes d record -> parseRecord record = Ok ts -> Forall (fun x => Evaluates (inside m d) x false) (mechanisms ts) ->
    redirectSpec ts = None -> CheckHost m d SpfNeutral
with Evaluates : MacroCtx -> Mechanism -> bool -> Prop :=
| ev_all m mech : mtype mech = MAll -> Evaluates m mech true
| ev_ip m mech v net b :
    mtype mech = match v with V4 => MIp4 | V6 => MIp6 end -> network mech v net ->
    (b = true <-> inPrefix (clientIp m) net (prefixOf mech v)) -> Evaluates m mech b
| ev_a m mech d l b :
    mtype mech = MA -> target m mech d -> addrsOf d (version (clientIp m)) l -> (b = true <-> near m mech l) -> Evaluates m mech b
| ev_mx_match m mech d recs r l :
    mtype mech = MMx -> target m mech d -> answers mx d recs -> r ∈ take 10 recs -> addrsOf (exchange r) (version (clientIp m)) l ->
    near m mech l -> Evaluates m mech true
| ev_mx_miss m mech d recs :
    mtype mech = MMx -> target m mech d -> lists mx d recs ->
    Forall (fun r => exists l, addrsOf (exchange r) (version (clientIp m)) l /\ ~ near m mech l) (take 10 recs) -> Evaluates m mech false
| ev_ptr_match m mech d names name l :
    mtype mech = MPtr -> target m mech d -> answers ptr (presentIp (clientIp m)) names -> name ∈ take 10 names ->
    addrsOf name (version (clientIp m)) l -> confirms m d name l -> Evaluates m mech true
| ev_ptr_miss m mech d names :
    mtype mech = MPtr -> target m mech d -> lists ptr (presentIp (clientIp m)) names ->
    Forall (fun name => exists l, addrsOf name (version (clientIp m)) l /\ ~ confirms m d name l) (take 10 names) -> Evaluates m mech false
| ev_exists m mech spec d l b :
    mtype mech = MExists -> arg mech = Some spec -> expandsTo m spec d -> addrsOf d V4 l -> (b = true <-> l <> []) -> Evaluates m mech b
| ev_include m mech spec d r b :
    mtype mech = MInclude -> arg mech = Some spec -> expandsTo m spec d -> CheckHost m d r -> (b = true <-> r = SpfPass) -> Evaluates m mech b.

(** ** The evaluation gives these verdicts *)

Lemma bind_Ok {A B} (p : M A) (f : A -> M B) c b c' : bind p f c = (Ok b, c') -> exists x c1, p c = (Ok x, c1) /\ f x c1 = (Ok b, c').
Proof. unfold bind. destruct (p c) as [[x|e|] c1]; intros ?; simplify_eq. eauto. Qed.

Lemma ask_Ok {A} (q : nat -> jsstr -> Answer A) name c r c' : ask q name c = (Ok r, c') -> exists n, q n name = r.
Proof. unfold ask, bind, get, modify, ret. cbn. intros [= <- <-]. eauto. Qed.

(** Takes a run that returned apart. *)
Ltac run_steps :=
  repeat match goal with
  | Hx : bind _ _ _ = (Ok _, _) |- _ => apply bind_Ok in Hx as (? & ? & ? & Hx)
  | Hx : ask _ _ _ = (Ok _, _) |- _ => apply ask_Ok in Hx as [? Hx]
  | Hx : ret _ _ = (Ok _, _) |- _ => unfold ret in Hx; simplify_eq
  | Hx : throw _ _ = (Ok _, _) |- _ => by unfold throw in Hx
  end.

Lemma fetch_publishes d count c r c' : fetchSpfRecord d count c = (Ok (Some r), c') -> publishes d r.
Proof.
  unfold fetchSpfRecord. intros Hr. run_steps. destruct x as [[|t txts]| |e]; run_steps.
  destruct (List.filter isSpfRecord (t :: txts)) as [|? [|]] eqn:E; run_steps. exists (t :: txts). split; [by eexists|done].
Qed.

Lemma lookup_addrs d v count c l c' : lookupAddrs d v count c = (Ok l, c') -> addrsOf d v l.
Proof.
  unfold lookupAddrs. intros Hr. run_steps. destruct x as [raw| |e]; run_steps.
  - exists raw. split; [left; eexists; by destruct v|done].
  - exists []. split; [right; split; [eexists; by destruct v|done]|done].
Qed.

Lemma safeQuery_lists {A} (q : nat -> jsstr -> Answer (list A)) t name c l c' :
  safeQuery q t name c = (Ok l, c') -> lists q name l /\ (l <> [] -> answers q name l).
Proof.
  unfold safeQuery. intros Hr. run_steps. destruct x as [[|x recs]| |e]; run_steps.
  - split; [left; by eexists|done].
  - split; [left|intros _]; by eexists.
  - split; [right; split; [by eexists|done]|done].
Qed.

Lemma addrsOf_wf d v l x : addrsOf d v l -> x ∈ l -> wfIp x.
Proof. intros (raw & _ & ->) (s & _ & Hs)%list_elem_of_omap. by eapply parseIp_wf. Qed.

Lemma near_spec m mech d v l : wfIp (clientIp m) -> addrsOf d v l ->
  existsb (fun x => ipInCidr (clientIp m) x (prefixOf mech (version (clientIp m)))) l = true <-> near m mech l.
Proof.
  intros Hw Ha. rewrite existsb_exists. unfold near. setoid_rewrite <- list_elem_of_In.
  split; intros (x & Hx & H1); exists x; (split; [done|]); apply cidr_prefix; eauto using addrsOf_wf.
Qed.

Lemma mxLoop_spec m mech recs c b c' : wfIp (clientIp m) ->
  mxLoop (clientIp m) (prefixOf mech (version (clientIp m))) recs c = (Ok b, c') ->
  if b then exists r l, r ∈ recs /\ addrsOf (exchange r) (version (clientIp m)) l /\ near m mech l
  else Forall (fun r => exists l, addrsOf (exchange r) (version (clientIp m)) l /\ ~ near m mech l) recs.
Proof.
  intros Hw. revert c. induction recs as [|r recs IH]; intros c; cbn [mxLoop]; intros Hr; run_steps; [constructor|].
  apply lookup_addrs in H0. pose proof (near_spec m mech _ _ _ Hw H0) as Hn. destruct (existsb _ x); run_steps.
  - exists r, x. split; [by left|]. split; [done|by apply Hn].
  - specialize (IH _ Hr). destruct b; [destruct IH as (r' & l & ? & ?); exists r', l; split; [by right|done]|].
    constructor; [|done]. exists x. split; [done|]. intros Hx%Hn. done.
Qed.

Lemma ptrLoop_spec m d names c b c' :
  ptrLoop (clientIp m) d names c = (Ok b, c') ->
  if b then exists name l, name ∈ names /\ addrsOf name (version (clientIp m)) l /\ confirms m d name l
  else Forall (fun name => exists l, addrsOf name (version (clientIp m)) l /\ ~ confirms m d name l) names.
Proof.
  revert c. induction names as [|r names IH]; intros c; cbn [ptrLoop]; intros Hr; run_steps; [constructor|].
  apply lookup_addrs in H0.
  assert (Hn : existsb (fun y => sameBytes y (clientIp m)) x && underDomain r d = true <-> confirms m d r x).
  { unfold confirms. rewrite andb_true_iff, existsb_exists. setoid_rewrite <- list_elem_of_In. unfold sameBytes. by setoid_rewrite seqb_eq. }
  destruct (existsb _ x && _); run_steps.
  - exists r, x. split; [by left|]. split; [done|by apply Hn].
  - specialize (IH _ Hr). destruct b; [destruct IH as (r' & l & ? & ?); exists r', l; split; [by right|done]|].
    constructor; [|done]. exists x. split; [done|]. intros Hx%Hn. done.
Qed.

Lemma ip_evaluates m mech v c b c' : wfIp (clientIp m) -> mtype mech = match v with V4 => MIp4 | V6 => MIp6 end ->
  ipMatches mech v m c = (Ok b, c') -> Evaluates m mech b.
Proof.
  intros Hw Ht. unfold ipMatches. cbv zeta. destruct (parseIp _) as [net|] eqn:E; [|intros; by run_steps]. unfold sameVersion at 1.
  case_bool_decide as Hv; cbn [negb]; [|intros; by run_steps]. destruct (_ || _) eqn:Ep; [intros; by run_steps|]. bool_hyps. intros Hr. run_steps.
  eapply (ev_ip m mech (version net) net); [done|split; [done|split; [done|lia]]|].
  rewrite andb_true_iff. unfold sameVersion. rewrite bool_decide_eq_true, cidr_prefix by (done || by eapply parseIp_wf).
  split; [by intros [_ ?]|]. intros Hi. split; [|done]. destruct Hi as [Hi _]. congruence.
Qed.

(** An empty name expands to nothing valid, so a mechanism without an argument is not [exists] or [include]. *)
Lemma expand_arg mech m c d c' : expandDomainSpec (default [] (arg mech)) m c = (Ok d, c') ->
  exists spec, arg mech = Some spec /\ expandsTo m spec d.
Proof. destruct (arg mech) as [spec|]; cbn [from_option]; [intros Hr; exists spec; split; [done|by eexists _, _]|done]. Qed.

Lemma domainOf_target mech m c d c' : domainOf mech m c = (Ok d, c') -> target m mech d.
Proof. unfold domainOf, target. destruct (arg mech); intros Hr; [by eexists _, _|by run_steps]. Qed.

(** What the parts of a run say. *)
Ltac run_facts :=
  run_steps;
  repeat match goal with
  | Hx : domainOf _ _ _ = (Ok _, _) |- _ => apply domainOf_target in Hx
  | Hx : lookupAddrs _ _ _ _ = (Ok _, _) |- _ => apply lookup_addrs in Hx
  | Hx : safeMx _ _ = (Ok _, _) |- _ => apply safeQuery_lists in Hx as [? ?]
  | Hx : safePtr _ _ = (Ok _, _) |- _ => apply safeQuery_lists in Hx as [? ?]
  | Hx : expandDomainSpec (default [] _) _ _ = (Ok _, _) |- _ => apply expand_arg in Hx as (? & ? & ?)
  end.

Section Sound.
Context (checkHost : jsstr -> MacroCtx -> M SpfResultValue).
Context (Hrec : forall d m c v c', wfIp (clientIp m) -> checkHost d m c = (Ok v, c') -> CheckHost m d v).

Lemma mechanism_evaluates mech m c b c' : wfIp (clientIp m) -> evalMechanism checkHost mech m c = (Ok b, c') -> Evaluates m mech b.
Proof using Hrec.
  intros Hw. unfold evalMechanism. destruct (mtype mech) eqn:Et.
  - intros Hr. run_steps. by constructor.
  - by apply (ip_evaluates m mech V4).
  - by apply (ip_evaluates m mech V6).
  - intros Hr. run_facts. eapply ev_a; [done|done|done|]. by eapply near_spec.
  - intros Hr. run_facts. apply mxLoop_spec in Hr; [|done].
    destruct b; [|by eapply ev_mx_miss]. destruct Hr as (r & l & Hin & Hadd & Hn). eapply ev_mx_match; [done|done| |done|done|done].
    match goal with Hx : _ -> answers _ _ _ |- _ => apply Hx end. intros ->. by apply not_elem_of_nil in Hin.
  - intros Hr. run_facts. apply ptrLoop_spec in Hr.
    destruct b; [|by eapply ev_ptr_miss]. destruct Hr as (r & l & Hin & Hadd & Hn). eapply ev_ptr_match; [done|done| |done|done|done].
    match goal with Hx : _ -> answers _ _ _ |- _ => apply Hx end. intros ->. by apply not_elem_of_nil in Hin.
  - intros Hr. run_facts. match goal with Hx : checkHost _ _ _ = _ |- _ => apply Hrec in Hx; [|done] end. eapply ev_include; [done|done|done|done|]. by case_match.
  - intros Hr. run_facts. eapply ev_exists; [done|done|done|done|]. by case_match.
Qed.

Lemma mechanisms_evaluate ms exp m c o c' : wfIp (clientIp m) -> evalMechanisms checkHost ms exp m c = (Ok o, c') ->
  match o with
  | Some r => exists pre mech post, ms = pre ++ mech :: post /\ r = qualifierToResult (qualifier mech) /\
      Forall (fun x => Evaluates m x false) pre /\ Evaluates m mech true
  | None => Forall (fun x => Evaluates m x false) ms
  end.
Proof using Hrec.
  intros Hw. revert c. induction ms as [|mech ms IH]; intros c; cbn [evalMechanisms]; intros Hr; run_steps; [constructor|].
  apply mechanism_evaluates in H0; [|done]. destruct x.
  - run_steps. by exists [], mech, ms.
  - specialize (IH _ Hr). destruct o as [r|]; [|by constructor]. destruct IH as (pre & mech' & post & -> & -> & Hp & Hm).
    exists (mech :: pre), mech', post. split; [done|]. split; [done|]. split; [by constructor|done].
Qed.

Lemma record_checks record d m c v c' : wfIp (clientIp m) -> publishes d record ->
  evaluateRecord checkHost record d m c = (Ok v, c') -> CheckHost m d v.
Proof using Hrec.
  intros Hw Hp. unfold evaluateRecord. cbv zeta. intros Hr. run_steps. unfold liftRes in H0. injection H0 as H0 <-.
  apply mechanisms_evaluate in H1; [|done]. destruct x1 as [r|].
  - run_steps. destruct H1 as (pre & mech & post & Hms & -> & Hpre & Hm). by eapply check_match.
  - destruct (redirectSpec x) as [spec|] eqn:Ers; run_steps; [|by eapply check_default]. eapply check_redirect; [done|done|done|done|by eexists _, _|]. by eapply Hrec.
Qed.
End Sound.

Lemma checkHost_sound fuel d m top c v c' : wfIp (clientIp m) -> checkHostInner fuel d m top c = (Ok v, c') ->
  CheckHost m d v \/ (top = true /\ v = SpfNone).
Proof.
  revert d m top c v c'. induction fuel as [|f IH]; intros d m top c v c' Hw; cbn [checkHostInner]; [done|].
  destruct (negb (isValidDomain d)); [destruct top; intros; run_steps; by right|]. intros Hr. run_steps. destruct x as [r|].
  - left. apply fetch_publishes in H0. refine (record_checks _ _ r d m _ _ _ Hw H0 Hr).
    intros d' m' c1 v' c1' Hw' Hc. by destruct (IH _ _ _ _ _ _ Hw' Hc) as [?|[? _]].
  - destruct top; run_steps. by right.
Qed.

Lemma checkSpf_sound input r :
  (checkSpf input).1 = Some r -> result r <> SpfPermerror -> result r <> SpfTemperror -> result r <> SpfNone ->
  exists ip, parseIp (si_ip input) = Some ip /\
    let '(full, local, sender) := senderOf input in
    domain r = sender /\ isValidDomain sender = true /\
    CheckHost (mkMacro full local sender (si_helo input) ip sender) sender (result r).
Proof.
  unfold checkSpf. destruct (parseIp (si_ip input)) as [ip|] eqn:Eip; [|by intros [= <-]]. intros Hr Hp Ht Hn. exists ip. split; [done|].
  destruct (senderOf input) as [[full local] sender]. destruct (isValidDomain sender); cbn [negb] in Hr; [|by injection Hr as <-].
  destruct (checkHostInner _ _ _ _ _) as [[v|e|] c] eqn:E; cbn in Hr; simplify_eq; cbn [result domain] in Hp, Ht, Hn |- *.
  - split; [done|]. split; [done|]. destruct (checkHost_sound _ _ (mkMacro full local sender (si_helo input) ip sender) _ _ _ _ (parseIp_wf _ _ Eip) E) as [?|[_ ?]]; done.
  - destruct (kind e) as [[]|]; done.
Qed.

(** C28: The verdict of a check that did not fail with an error is the one check_host() defines over what
    the resolver said, for the identity of the sender: the first mechanism that matches decides by its
    qualifier, those before it do not match, and the ranges are ranges of bits.  Only a domain without
    a record has none. *)
Theorem spf_refines_check_host input r :
  (checkSpf input).1 = Some r -> result r <> SpfPermerror -> result r <> SpfTemperror -> result r <> SpfNone ->
  exists ip, parseIp (si_ip input) = Some ip /\
    let '(full, local, sender) := senderOf input in
    domain r = sender /\ isValidDomain sender = true /\
    CheckHost (mkMacro full local sender (si_helo input) ip sender) sender (result r).
Proof. apply checkSpf_sound. Qed.
End Semantics.

(** ** Syntax first *)

(** A term that is neither a mechanism nor a modifier. *)
Definition badTerm (t : jsstr) : bool :=
  if isMechanismTerm t then match parseMechanism t with None => true | _ => false end
  else match modMatch t with None => true | _ => false end.

Lemma readTerms_bad ts acc : existsb badTerm ts = true -> exists m, readTerms ts acc = Err (spfError Permerror m).
Proof.
  revert acc. induction ts as [|t ts IH]; intros acc; cbn [existsb readTerms]; [done|]. rewrite orb_true_iff. unfold badTerm at 1.
  destruct (isMechanismTerm t).
  - destruct (parseMechanism t); [|eauto]. intros [?|?]; [done|eauto].
  - destruct (modMatch t) as [[name value]|]; [|eauto]. intros [?|Hb]; [done|]. repeat case_match; eauto.
Qed.

(** A syntax error anywhere in the record is a permanent error at once: no mechanism is evaluated, also
    none before the error that would match, and nothing but the record itself is asked for. *)
Theorem spf_syntax_first `{Resolver} input txts record t ip :
  parseIp (si_ip input) = Some ip -> isValidDomain (senderOf input).2 = true ->
  txt 0 (senderOf input).2 = Found txts -> List.filter isSpfRecord txts = [record] ->
  t ∈ recordTerms record -> badTerm t = true ->
  exists r, checkSpf input = (Some r, 1%nat) /\ result r = SpfPermerror.
Proof.
  intros Hip Hd Htxt Hrec Hin Hbad. unfold checkSpf. rewrite Hip. destruct (senderOf input) as [[full local] sender]. cbn [snd] in *. rewrite Hd. cbn [negb].
  destruct (readTerms_bad (recordTerms record) {| mechanisms := []; redirectSpec := None; expSpec := None |}) as [msg Hmsg].
  { apply existsb_exists. exists t. split; [by apply list_elem_of_In|done]. }
  set (mb := mkMacro _ _ _ _ _ _). assert (E : checkHostInner SPF_FUEL sender mb true initialCtx = (Err (spfError Permerror msg), initialCtx <| queries := 1%nat |>)).
  { unfold SPF_FUEL. cbn [checkHostInner]. rewrite Hd. cbn [negb]. unfold bind at 1. unfold fetchSpfRecord, ask, bind, get, modify, ret. cbn. rewrite Htxt.
    destruct txts as [|t0 txts']; [done|]. rewrite Hrec. unfold evaluateRecord, liftRes, parseRecord, bind. by rewrite Hmsg. }
  rewrite E. eexists. split; reflexivity.
Qed.

(** ** Examples *)

Definition tableQuery (zone : list (jsstr * list jsstr)) (_ : nat) (name : jsstr) : Answer (list jsstr) :=
  match List.find (fun e => e.1 === name) zone with Some e => Found e.2 | None => NotFound end.

(** A resolver over fixed tables; [mxs] gives the exchanges. *)
Definition zoneResolver (txts addrs mxs ptrs : list (jsstr * list jsstr)) : Resolver :=
  {| txt := tableQuery txts; a := tableQuery addrs; aaaa := fun _ _ => NotFound; ptr := tableQuery ptrs;
     mx := fun n d => match tableQuery mxs n d with Found l => Found (map (fun e => mkMx e 10) l) | NotFound => NotFound | Failed e => Failed e end;
     dateNow := fun _ => 0 |}.

Definition exampleZone : Resolver := zoneResolver
  [(js "example.com", [js "v=spf1 ip4:198.51.100.0/28 mx include:_spf.example.net -all"]);
   (js "_spf.example.net", [js "unrelated"; js "V=SPF1 a:%{ir}.list.%{d2} ~all"]);
   (js "loop.example", [js "v=spf1 include:loop.example -all"]);
   (js "typo.example", [js "v=spf1 +all ipv4:192.0.2.1"])]
  [(js "mail.example.com", [js "192.0.2.7"]); (js "9.2.0.192.list.example.net", [js "192.0.2.9"])]
  [(js "example.com", [js "mail.example.com"])] [].

Definition from_ (ip dom : jsstr) : SpfInput := mkSpfInput ip (js "helo.test") (js "user@" ++ dom).

Example spf_examples : let R := exampleZone in
  map (fun '(ip, d) => let '(r, n) := checkSpf (from_ ip d) in (result <$> r, n))
    [(js "198.51.100.15", js "example.com"); (js "198.51.100.16", js "example.com"); (js "192.0.2.7", js "example.com");
     (js "::ffff:192.0.2.9", js "example.com"); (js "192.0.2.1", js "loop.example"); (js "192.0.2.1", js "nowhere.example")]
  = [(Some SpfPass, 1%nat); (Some SpfFail, 5%nat); (Some SpfPass, 3%nat); (Some SpfPass, 5%nat); (Some SpfPermerror, 11%nat); (Some SpfNone, 1%nat)].
Proof. vm_compute. reflexivity. Qed.

Lemma spf_refines_check_host_witness : let R := exampleZone in let input := from_ (js "192.0.2.7") (js "example.com") in
  exists r, (checkSpf input).1 = Some r /\ result r = SpfPass /\
  exists ip, parseIp (si_ip input) = Some ip /\
    let '(full, local, sender) := senderOf input in
    domain r = sender /\ isValidDomain sender = true /\
    CheckHost (mkMacro full local sender (si_helo input) ip sender) sender (result r).
Proof.
  cbv zeta. eexists. split; [vm_compute; reflexivity|]. split; [reflexivity|].
  apply (spf_refines_check_host (H := exampleZone) (from_ (js "192.0.2.7") (js "example.com")));
    [vm_compute; reflexivity|discriminate|discriminate|discriminate].
Defined.

(** The record allows everybody before the error. *)
Lemma spf_syntax_first_witness : let R := exampleZone in
  exists r, checkSpf (from_ (js "192.0.2.1") (js "typo.example")) = (Some r, 1%nat) /\ result r = SpfPermerror.
Proof.
  eapply (spf_syntax_first (H := exampleZone) (from_ (js "192.0.2.1") (js "typo.example")) _ _ (js "ipv4:192.0.2.1"));
    [vm_compute; reflexivity|vm_compute; reflexivity|vm_compute; reflexivity|vm_compute; reflexivity| |vm_compute; reflexivity].
  apply list_elem_of_In. vm_compute. auto.
Defined.

(** Gap: the explanation of an included record is used.  RFC 7208 (6.2) leaves the [exp] of an [include]
    out; here the text that the included domain publishes for its own failures becomes the explanation
    of the outer domain, which has none. *)
Example spf_include_explains :
  let R := zoneResolver
    [(js "outer.example", [js "v=spf1 include:inner.example -all"]);
     (js "inner.example", [js "v=spf1 ip4:198.51.100.1 -all exp=why.inner.example"]);
     (js "why.inner.example", [js "%{d} says no"])] [] [] [] in
  (checkSpf (from_ (js "192.0.2.1") (js "outer.example"))).1 =
  Some (mkSpfResult SpfFail (js "outer.example") (Some (ExpText (js "inner.example says no")))).
Proof. vm_compute. reflexivity. Qed.

(** Gap: the third void lookup is a permanent error when the resolver throws [DnsNotFoundError], and a
    temporary one when it returns an empty list: the counter throws inside the [try] of [safeMx]. *)
Example spf_void_temporary :
  let rec := [(js "v.example", [js "v=spf1 mx:a.v.example mx:b.v.example mx:c.v.example -all"])] in
  let verdict R := result <$> (@checkSpf R (from_ (js "192.0.2.1") (js "v.example"))).1 in
  verdict (zoneResolver rec [] [] []) = Some SpfPermerror /\
  verdict (zoneResolver rec [] [(js "a.v.example", []); (js "b.v.example", []); (js "c.v.example", [])] []) = Some SpfTemperror.
Proof. vm_compute. done. Qed.
