(* ===== verification/Async.v ===== *)
(** * Tasks that interleave

    An [async] function whose calls run side by side ([Promise.all]) over a shared context is a [Task]:
    a list of atomic segments, where each segment reads and changes the context and says how the task
    goes on.  Between two segments any other task may run.  [par] runs two tasks to their ends, the
    context choosing whose turn it is, and gives both results or the first error: where the source
    rejects at once and leaves the other task running, [par] lets it run out first, so that what it
    still does to the context counts.

    [safe Q t] is the proof rule for all interleavings: every segment preserves the invariant of the
    context, which it may assume, and the result satisfies [Q]. *)

From S2P Require Import Prelude.

Section Tasks.
Context {C E : Type}.

Inductive Task (A : Type) :=
| Done (r : E + A)
| Step (f : C -> Task A * C).
Arguments Done {A} r.
Arguments Step {A} f.

(** Induction over the segments. *)
Fixpoint Task_rule {A} (P : Task A -> Prop) (Hdone : forall r, P (Done r)) (Hstep : forall f, (forall c, P (f c).1) -> P (Step f)) (t : Task A) : P t :=
  match t with
  | Done r => Hdone r
  | Step f => Hstep f (fun c => match f c as p return P p.1 with (t', _) => Task_rule P Hdone Hstep t' end)
  end.

Definition tret {A} (x : A) : Task A := Done (inr x).
Definition tthrow {A} (e : E) : Task A := Done (inl e).

Fixpoint tbind {A B} (t : Task A) (k : A -> Task B) : Task B :=
  match t with
  | Done (inr x) => k x
  | Done (inl e) => Done (inl e)
  | Step f => Step (fun c => match f c with (t', c') => (tbind t' k, c') end)
  end.

Definition both {A B} (x : E + A) (y : E + B) : E + (A * B) :=
  match x, y with inl e, _ => inl e | _, inl e => inl e | inr x, inr y => inr (x, y) end.

Section Par.
Context (turn : C -> bool * C).

(** [await Promise.all([t1, t2])] *)
Fixpoint par {A B} (t1 : Task A) : Task B -> Task (A * B) :=
  fix par2 (t2 : Task B) : Task (A * B) :=
    match t1, t2 with
    | Done x, Done y => Done (both x y)
    | Step f, Done _ => Step (fun c => match f c with (t, c') => (par t t2, c') end)
    | Done _, Step g => Step (fun c => match g c with (t, c') => (par2 t, c') end)
    | Step f, Step g =>
        Step (fun c => match turn c with
                       | (true, c) => match f c with (t, c') => (par t t2, c') end
                       | (false, c) => match g c with (t, c') => (par2 t, c') end
                       end)
    end.

(** A run to the end: tasks are finite. *)
Fixpoint run {A} (t : Task A) (c : C) : (E + A) * C :=
  match t with
  | Done r => (r, c)
  | Step f => match f c with (t', c') => run t' c' end
  end.

(** ** Invariants of the context *)

Context (Inv : C -> Prop) (turn_inv : forall c, Inv c -> Inv (turn c).2).

Fixpoint safe {A} (Q : E + A -> Prop) (t : Task A) : Prop :=
  match t with
  | Done r => Q r
  | Step f => forall c, Inv c -> match f c with (t', c') => Inv c' /\ safe Q t' end
  end.

Lemma safe_impl {A} (Q R : E + A -> Prop) t : safe Q t -> (forall r, Q r -> R r) -> safe R t.
Proof using Type.
  intros Ht HQ. revert Ht. induction t as [r|f IH] using Task_rule; cbn; [apply HQ|]. intros Hf c Hc. specialize (Hf c Hc). specialize (IH c).
  destruct (f c) as [t' c']. destruct Hf. auto.
Qed.

Lemma safe_bind {A B} (Q : A -> Prop) (R : E + B -> Prop) t (k : A -> Task B) :
  safe (fun r => match r with inr x => Q x | inl e => R (inl e) end) t -> (forall x, Q x -> safe R (k x)) -> safe R (tbind t k).
Proof using Type.
  intros Ht Hk. revert Ht. induction t as [[e|x]|f IH] using Task_rule; cbn; [done|apply Hk|]. intros Hf c Hc. specialize (Hf c Hc). specialize (IH c).
  destruct (f c) as [t' c']. destruct Hf. auto.
Qed.

(** Each of the two tasks is safe on its own, whatever the other does to the context. *)
Lemma safe_par {A B} (Q : A -> Prop) (R : B -> Prop) t1 t2 :
  safe (fun r => match r with inr x => Q x | inl _ => True end) t1 -> safe (fun r => match r with inr y => R y | inl _ => True end) t2 ->
  safe (fun r => match r with inr (x, y) => Q x /\ R y | inl _ => True end) (par t1 t2).
Proof using turn_inv.
  revert t2. induction t1 as [x|f IH1] using Task_rule.
  - induction t2 as [y|g IH2] using Task_rule; cbn; [destruct x, y; cbn; auto|]. intros Hx Hg c Hc. specialize (Hg c Hc). specialize (IH2 c Hx).
    destruct (g c) as [t c']. destruct Hg. auto.
  - induction t2 as [y|g IH2] using Task_rule; intros H1 H2; cbn; intros c Hc.
    + specialize (H1 c Hc). specialize (IH1 c). destruct (f c) as [t c']. destruct H1. auto.
    + pose proof (turn_inv c Hc) as Ht. destruct (turn c) as [[|] c1]; cbn in Ht.
      * specialize (H1 c1 Ht). specialize (IH1 c1). destruct (f c1) as [t c']. destruct H1. auto.
      * cbn in H2. specialize (H2 c1 Ht). specialize (IH2 c1 H1). destruct (g c1) as [t c']. destruct H2. auto.
Qed.

Lemma safe_run {A} (Q : E + A -> Prop) t c : Inv c -> safe Q t -> Q (run t c).1 /\ Inv (run t c).2.
Proof using Type.
  revert c. induction t as [r|f IH] using Task_rule; intros c Hc; cbn; [done|]. intros Hf. specialize (Hf c Hc). specialize (IH c).
  destruct (f c) as [t' c']. destruct Hf. auto.
Qed.
End Par.
End Tasks.

Arguments Task : clear implicits.
Arguments Done {C E A} r.
Arguments Step {C E A} f.

Notation "'await' x <- m ; k" := (tbind m (fun x => k)) (at level 200, x pattern, m at level 100, k at level 200) : js_scope.
