(* ===== verification/Dmarc.v ===== *)
(** * DMARC (packages/mail-auth/src/dmarc.ts)

    [checkDmarc] and everything under it, over the resolver of [Spf].  The alignments of SPF and DKIM,
    and the two tree walks of an alignment, run side by side over the caches and the budget of the
    evaluation: they are tasks of [Async].  A task may be interrupted between any two of its segments,
    also where the source runs on, so that the theorems hold of more interleavings than there are.  The
    schedule is a stream of turns. *)

From S2P Require Import Prelude JsString JsNumber Net Loop Async Effects MimeHeaders Trace Cidr Spf.

(** ** Data *)

Inductive DmarcDisposition := DispNone | DispQuarantine | DispReject.

Record DkimInput := mkDkimInput { dk_result : DkimVerifyOutcome; dk_domain : jsstr }.

Record DmarcInput := mkDmarcInput { fromDomain : jsstr; spf_result : SpfResultValue; spf_domain : jsstr; dkim : list DkimInput }.

Record DmarcResult := mkDmarcResult {
  dm_result : DmarcResultValue;
  disposition : DmarcDisposition;
  policy : option DmarcDisposition;
  spfAligned : bool;
  dkimAligned : bool;
  orgDomain : option jsstr
}.

(** [DmarcEvalError]; all that are thrown are temporary. *)
Inductive DmarcEvalError := DLookupLimit | DQueryFailed (domain : jsstr) (detail : jsstr).

Abbreviation Tags := (gmap jsstr jsstr).

Record DmarcCtx := mkDmarcCtx {
  orgCache : gmap jsstr jsstr;
  tagCache : gmap jsstr (option Tags);
  dlookups : Z;
  asked : nat;
  turns : nat
}.

Definition emptyCtx : DmarcCtx := {| orgCache := ∅; tagCache := ∅; dlookups := 0; asked := 0; turns := 0 |}.

Abbreviation T := (Task DmarcCtx DmarcEvalError).

(** ** Records *)

Definition normalizeDomain (d : jsstr) : jsstr := dropDot (toLowerCase (trim d)).

Fixpoint parseSegments (segs : list jsstr) (acc : Tags) : option Tags :=
  match segs with
  | [] => Some acc
  | seg :: rest =>
      match trim seg with
      | [] => parseSegments rest acc
      | trimmed =>
          match indexOf 61 trimmed with
          | None => None
          | Some eq =>
              match toLowerCase (trim (take eq trimmed)) with
              | [] => None
              | name =>
                  let value := trim (drop (S eq) trimmed) in
                  parseSegments rest (match acc !! name with Some _ => acc | None => <[name := value]> acc end)
              end
          end
      end
  end.

Definition parseDmarcTagMap (text : jsstr) : option Tags := parseSegments (splitOn 59 text) ∅.

(** A text that begins with [v], [=] and [DMARC1], in any case and with any white space around, and
    then ends or goes on with a semicolon. *)
Definition looksDmarc (t : jsstr) : bool :=
  match afterI (js "v") (trimStart t) with
  | None => false
  | Some r1 =>
      match afterI [61] (trimStart r1) with
      | None => false
      | Some r2 =>
          match afterI (js "DMARC1") (trimStart r2) with
          | None => false
          | Some r3 => match trimStart r3 with [] => true | c :: _ => c =? 59 end
          end
      end
  end.

(** The tags of an answer, [None] for "nothing here". *)
Definition tagsOf (txts : list jsstr) : option Tags :=
  match List.filter looksDmarc txts with
  | [t] =>
      match parseDmarcTagMap t with
      | Some tags => if bool_decide (tags !! js "v" = Some (js "DMARC1")) then Some tags else None
      | None => None
      end
  | _ => None
  end.

Definition readDisposition (v : option jsstr) : option DmarcDisposition :=
  s ← v;
  if toLowerCase s === js "none" then Some DispNone
  else if toLowerCase s === js "quarantine" then Some DispQuarantine
  else if toLowerCase s === js "reject" then Some DispReject
  else None.

Definition isUsablePolicy (tags : Tags) : bool := match readDisposition (tags !! js "p") with Some _ => true | None => false end.

Definition WALK_MAX_STEPS : nat := 10.
Definition MAX_DMARC_LOOKUPS : Z := 40.

Section Evaluation.
Context `{Resolver} (schedule : nat -> bool).

Definition turn (c : DmarcCtx) : bool * DmarcCtx := (schedule (turns c), c <| turns ::= S |>).

(** ** Lookups *)

Definition rememberTags (domain : jsstr) (v : option Tags) (c : DmarcCtx) : T (option Tags) * DmarcCtx :=
  (tret v, c <| tagCache ::= <[domain := v]> |>).

Definition fetchDmarcTags (domain : jsstr) : T (option Tags) :=
  Step (fun c =>
    match tagCache c !! domain with
    | Some cached => (tret cached, c)
    | None =>
        let c := c <| dlookups ::= Z.succ |> in
        if MAX_DMARC_LOOKUPS <? dlookups c then (tthrow DLookupLimit, c)
        else
          let answer := txt (asked c) (js "_dmarc." ++ domain) in
          (Step (fun c =>
             match answer with
             | NotFound => rememberTags domain None c
             | Failed e => (tthrow (DQueryFailed domain e), c)
             | Found txts => rememberTags domain (tagsOf txts) c
             end),
           c <| asked ::= S |>)
    end).

(** ** The tree walk *)

Definition rememberOrg (domain v : jsstr) : T jsstr := Step (fun c => (tret v, c <| orgCache ::= <[domain := v]> |>)).

Definition isPsd (tags : option Tags) : bool :=
  match tags ≫= lookup (js "psd") with Some v => toLowerCase v === js "y" | None => false end.

Definition joinFrom (i : nat) (labels : list jsstr) : jsstr := joinWith [DOT] (drop i labels).

(** The loop from step [i] on, with [steps] steps left. *)
Fixpoint walk (domain : jsstr) (labels : list jsstr) (steps i : nat) : T jsstr :=
  match steps with
  | O => rememberOrg domain (joinFrom (length labels - 2) labels)
  | S k =>
      await tags <- fetchDmarcTags (joinFrom i labels);
      if isPsd tags then rememberOrg domain (joinFrom (i - 1) labels) else walk domain labels k (S i)
  end.

Definition computeOrgDomain (domain : jsstr) : T jsstr :=
  Step (fun c =>
    match orgCache c !! domain with
    | Some hit => (tret hit, c)
    | None =>
        let labels := splitOn DOT domain in
        if (length labels <=? 2)%nat then (rememberOrg domain domain, c)
        else (walk domain labels (Nat.min (length labels - 1) WALK_MAX_STEPS) 1, c)
    end).

Definition discoverPolicy (from : jsstr) : T (option (Tags * jsstr)) :=
  await exact <- fetchDmarcTags from;
  match (t ← exact; if isUsablePolicy t then Some t else None) with
  | Some t => tret (Some (t, from))
  | None =>
      await org <- computeOrgDomain from;
      if org === from then tret None
      else
        await orgTags <- fetchDmarcTags org;
        tret (t ← orgTags; if isUsablePolicy t then Some (t, org) else None)
  end.

(** ** Alignment *)

Inductive Mode := Strict | Relaxed.

(** The two walks of a relaxed alignment. *)
Definition sameOrg (d from : jsstr) : T bool :=
  await (orgD, orgFrom) <- par turn (computeOrgDomain d) (computeOrgDomain from);
  tret (orgD === orgFrom).

Fixpoint isDkimAligned (results : list DkimInput) (from : jsstr) (mode : Mode) : T bool :=
  match results with
  | [] => tret false
  | d :: rest =>
      match dk_result d with
      | DkimPass =>
          let dDomain := normalizeDomain (dk_domain d) in
          match mode with
          | Strict => if dDomain === from then tret true else isDkimAligned rest from mode
          | Relaxed => await same <- sameOrg dDomain from; if same then tret true else isDkimAligned rest from mode
          end
      | _ => isDkimAligned rest from mode
      end
  end.

Definition isSpfAligned (r : SpfResultValue) (d from : jsstr) (mode : Mode) : T bool :=
  match r with
  | SpfPass =>
      let spfDomain := normalizeDomain d in
      match mode with Strict => tret (spfDomain === from) | Relaxed => sameOrg spfDomain from end
  | _ => tret false
  end.

(** ** The public function *)

Definition modeOf (tag : option jsstr) : Mode :=
  match tag with Some v => if toLowerCase (trim v) === js "s" then Strict else Relaxed | None => Relaxed end.

(** Which of [p], [sp] and [np] applies; [p] is one of the three ([isUsablePolicy]). *)
Definition policyOf (tags : Tags) (isSubdomain : bool) : DmarcDisposition :=
  let p := default DispNone (readDisposition (tags !! js "p")) in
  if negb isSubdomain then p
  else
    match readDisposition (tags !! js "sp") with
    | Some sp => sp
    | None => match readDisposition (tags !! js "np") with Some np => np | None => p end
    end.

Definition noAlignment (r : DmarcResultValue) : DmarcResult :=
  {| dm_result := r; disposition := DispNone; policy := None; spfAligned := false; dkimAligned := false; orgDomain := None |}.

(** The [try] block. *)
Definition evaluateDmarc (input : DmarcInput) (from : jsstr) : T DmarcResult :=
  await discovery <- discoverPolicy from;
  match discovery with
  | None => tret (noAlignment DmarcNone)
  | Some (tags, org) =>
      let policyTag := policyOf tags (negb (from === org)) in
      await (dkimOk, spfOk) <-
        par turn (isDkimAligned (dkim input) from (modeOf (tags !! js "adkim")))
                 (isSpfAligned (spf_result input) (spf_domain input) from (modeOf (tags !! js "aspf")));
      let passed := dkimOk || spfOk in
      tret {| dm_result := if passed then DmarcPass else DmarcFail;
              disposition := if passed then DispNone else policyTag;
              policy := Some policyTag; spfAligned := spfOk; dkimAligned := dkimOk; orgDomain := Some org |}
  end.

(** The result, and the number of questions asked. *)
Definition checkDmarc (input : DmarcInput) : DmarcResult * nat :=
  match normalizeDomain (fromDomain input) with
  | [] => (noAlignment DmarcPermerror, O)
  | from =>
      let '(r, c) := run (evaluateDmarc input from) emptyCtx in
      (match r with inr v => v | inl _ => noAlignment DmarcTemperror end, asked c)
  end.
End Evaluation.
