(* ===== verification/DmarcSpec.v ===== *)
(** * What DMARC evaluation promises, under every interleaving

    - [dmarc_query_budget]: at most 40 questions;
    - [dmarc_verdict_sound]: the verdict is the one the published records give;
    - [dmarc_schedule_irrelevant]: with a resolver whose answers do not change, the order in which the
      answers come in changes nothing. *)

From S2P Require Import Prelude JsString JsNumber Net Loop Async Effects MimeHeaders Trace Cidr Spf Dmarc.

(** ** What the records say *)
Section Records.
Context `{Resolver}.

(** The tags at a domain, or that there are none, as the resolver says at some moment. *)
Definition tagsAt (d : jsstr) (v : option Tags) : Prop :=
  exists n, match txt n (js "_dmarc." ++ d) with NotFound => v = None | Found txts => v = tagsOf txts | Failed _ => False end.

Definition psdAt (d : jsstr) (b : bool) : Prop := exists v, tagsAt d v /\ isPsd v = b.

(** The walk from label [i] on, [steps] labels long: the label below the first public suffix. *)
Inductive WalkTo (labels : list jsstr) : nat -> nat -> jsstr -> Prop :=
| walk_end i : WalkTo labels 0 i (joinFrom (length labels - 2) labels)
| walk_found k i : psdAt (joinFrom i labels) true -> WalkTo labels (S k) i (joinFrom (i - 1) labels)
| walk_next k i o : psdAt (joinFrom i labels) false -> WalkTo labels k (S i) o -> WalkTo labels (S k) i o.

(** The organizational domain. *)
Definition OrgOf (d o : jsstr) : Prop :=
  let labels := splitOn DOT d in
  if (length labels <=? 2)%nat then o = d else WalkTo labels (Nat.min (length labels - 1) WALK_MAX_STEPS) 1 o.

Definition aligned (mode : Mode) (d from : jsstr) (b : bool) : Prop :=
  match mode with
  | Strict => b = (normalizeDomain d === from)
  | Relaxed => exists o o', OrgOf (normalizeDomain d) o /\ OrgOf from o' /\ b = (o === o')
  end.

(** The identities that passed, and whether one of them is aligned. *)
Inductive DkimAlignment (mode : Mode) (from : jsstr) : list DkimInput -> bool -> Prop :=
| dkim_nil : DkimAlignment mode from [] false
| dkim_skip d rest b : dk_result d <> DkimPass -> DkimAlignment mode from rest b -> DkimAlignment mode from (d :: rest) b
| dkim_yes d rest : dk_result d = DkimPass -> aligned mode (dk_domain d) from true -> DkimAlignment mode from (d :: rest) true
| dkim_no d rest b : dk_result d = DkimPass -> aligned mode (dk_domain d) from false -> DkimAlignment mode from rest b -> DkimAlignment mode from (d :: rest) b.

Definition SpfAlignment (mode : Mode) (from : jsstr) (r : SpfResultValue) (d : jsstr) (b : bool) : Prop :=
  match r with SpfPass => aligned mode d from b | _ => b = false end.

(** The policy that applies: the domain's own, or else that of its organizational domain. *)
Definition usableAt (d : jsstr) (o : option Tags) : Prop := exists v, tagsAt d v /\ o = (t ← v; if isUsablePolicy t then Some t else None).

Inductive PolicyOf (from : jsstr) : option (Tags * jsstr) -> Prop :=
| policy_own t : usableAt from (Some t) -> PolicyOf from (Some (t, from))
| policy_alone : usableAt from None -> OrgOf from from -> PolicyOf from None
| policy_org org o : usableAt from None -> OrgOf from org -> org <> from -> usableAt org o -> PolicyOf from ((fun t => (t, org)) <$> o).

Inductive Verdict (input : DmarcInput) (from : jsstr) : DmarcResult -> Prop :=
| verdict_none : PolicyOf from None -> Verdict input from (noAlignment DmarcNone)
| verdict_policy tags org dkimOk spfOk :
    PolicyOf from (Some (tags, org)) ->
    DkimAlignment (modeOf (tags !! js "adkim")) from (dkim input) dkimOk ->
    SpfAlignment (modeOf (tags !! js "aspf")) from (spf_result input) (spf_domain input) spfOk ->
    let p := policyOf tags (negb (from === org)) in
    Verdict input from {| dm_result := if dkimOk || spfOk then DmarcPass else DmarcFail;
                          disposition := if dkimOk || spfOk then DispNone else p;
                          policy := Some p; spfAligned := spfOk; dkimAligned := dkimOk; orgDomain := Some org |}.

(** ** The invariant of the shared context *)

Record truthful (c : DmarcCtx) : Prop := {
  tr_tags d v : tagCache c !! d = Some v -> tagsAt d v;
  tr_orgs d o : orgCache c !! d = Some o -> OrgOf d o;
  tr_asked : Z.of_nat (asked c) <= Z.min MAX_DMARC_LOOKUPS (dlookups c)
}.

Lemma truthful_empty : truthful emptyCtx.
Proof. split; [done|done|cbn; unfold MAX_DMARC_LOOKUPS; lia]. Qed.

(** A task that returns a value with [Q], or throws. *)
Definition gives {A} (Q : A -> Prop) (t : Task DmarcCtx DmarcEvalError A) : Prop :=
  safe truthful (fun r => match r with inr x => Q x | inl _ => True end) t.

Lemma gives_bind {A B} (Q : A -> Prop) (R : B -> Prop) t (k : A -> Task DmarcCtx DmarcEvalError B) :
  gives Q t -> (forall x, Q x -> gives R (k x)) -> gives R (tbind t k).
Proof using Type. intros Ht Hk. eapply safe_bind; [|exact Hk]. exact Ht. Qed.

Lemma gives_tagged d v c : truthful c -> tagsAt d v -> let '(t, c') := rememberTags d v c in truthful c' /\ gives (tagsAt d) t.
Proof.
  intros [H1 H2 H3] Hv. cbn. split; [|exact Hv]. split; cbn; [|done|done].
  intros d' v'. destruct (decide (d = d')) as [->|Hne]; [rewrite lookup_insert; case_decide; [intros [= <-]; done|done]|rewrite lookup_insert_ne by done; apply H1].
Qed.

Lemma fetch_gives d : gives (tagsAt d) (fetchDmarcTags d).
Proof.
  intros c Hc. destruct (tagCache c !! d) as [v|] eqn:Ec; [split; [done|by eapply tr_tags]|].
  assert (Hup : forall c', dlookups c' = Z.succ (dlookups c) -> tagCache c' = tagCache c -> orgCache c' = orgCache c -> Z.of_nat (asked c') <= Z.min MAX_DMARC_LOOKUPS (Z.succ (dlookups c)) -> truthful c').
  { intros c' E1 E2 E3 E4. destruct Hc as [H1 H2 H3]. split; [by rewrite E2|by rewrite E3|by rewrite E1]. }
  pose proof (tr_asked _ Hc) as Hask. cbv zeta. destruct (Z.ltb_spec MAX_DMARC_LOOKUPS (dlookups (c <| dlookups ::= Z.succ |>))) as [Hlt|Hge]; cbn in *.
  - split; [|done]. apply Hup; try done. cbn. lia.
  - split; [apply Hup; try done; cbn; lia|]. intros c1 Hc1. destruct (txt (asked c) _) as [txts| |e] eqn:Et.
    + apply gives_tagged; [done|]. exists (asked c). by rewrite Et.
    + apply gives_tagged; [done|]. exists (asked c). by rewrite Et.
    + by split.
Qed.

Lemma rememberOrg_gives d v : OrgOf d v -> gives (OrgOf d) (rememberOrg d v).
Proof.
  intros Hv c [H1 H2 H3]. cbn. split; [|done]. split; cbn; [done| |done].
  intros d' v'. destruct (decide (d = d')) as [->|Hne]; [rewrite lookup_insert; case_decide; [intros [= <-]; done|done]|rewrite lookup_insert_ne by done; apply H2].
Qed.

Lemma walk_gives d labels steps i : (forall o, WalkTo labels steps i o -> OrgOf d o) -> gives (OrgOf d) (walk d labels steps i).
Proof.
  revert i. induction steps as [|k IH]; intros i Hw; cbn [walk]; [apply rememberOrg_gives, Hw; constructor|].
  eapply gives_bind; [apply fetch_gives|]. intros tags Ht. destruct (isPsd tags) eqn:Ep.
  - apply rememberOrg_gives, Hw, walk_found. by exists tags.
  - apply IH. intros o Ho. apply Hw, walk_next; [by exists tags|done].
Qed.

Lemma org_gives d : gives (OrgOf d) (computeOrgDomain d).
Proof.
  intros c Hc. destruct (orgCache c !! d) as [o|] eqn:Ec; [split; [done|by eapply tr_orgs]|]. cbv zeta.
  destruct (length (splitOn DOT d) <=? 2)%nat eqn:El; (split; [done|]).
  - apply rememberOrg_gives. unfold OrgOf. cbv zeta. by rewrite El.
  - apply walk_gives. intros o Ho. unfold OrgOf. cbv zeta. by rewrite El.
Qed.

Lemma discover_gives from : gives (PolicyOf from) (discoverPolicy from).
Proof.
  eapply gives_bind; [apply fetch_gives|]. intros exact Hx. destruct (exact ≫= _) as [t|] eqn:Eu.
  - apply policy_own. by exists exact.
  - assert (Hn : usableAt from None) by (by exists exact). eapply gives_bind; [apply org_gives|]. intros org Ho.
    destruct (seqb_spec org from) as [->|Hne]; [by apply policy_alone|]. eapply gives_bind; [apply fetch_gives|]. intros tags Ht. cbn.
    assert (E : (tags ≫= fun t => if isUsablePolicy t then Some (t, org) else None) = (fun t => (t, org)) <$> (t ← tags; if isUsablePolicy t then Some t else None))
      by (destruct tags as [t|]; [cbn; by destruct (isUsablePolicy t)|done]).
    unfold gives. cbn. rewrite E. apply policy_org; [done|done|done|by exists tags].
Qed.

Section Scheduled.
Context (schedule : nat -> bool).

Lemma turn_truthful c : truthful c -> truthful (turn schedule c).2.
Proof. intros [H1 H2 H3]. by split. Qed.

Lemma gives_par {A B} (Q : A -> Prop) (R : B -> Prop) t1 t2 :
  gives Q t1 -> gives R t2 -> gives (fun '(x, y) => Q x /\ R y) (par (turn schedule) t1 t2).
Proof using Type. intros H1 H2. eapply safe_impl; [apply safe_par; [apply turn_truthful|exact H1|exact H2]|]. by intros [|[]]. Qed.

Lemma sameOrg_gives d from : gives (aligned Relaxed d from) (sameOrg schedule (normalizeDomain d) from).
Proof.
  eapply gives_bind; [apply gives_par; apply org_gives|]. intros [o o'] [Ho Ho']. cbn. by exists o, o'.
Qed.

Lemma dkim_gives results from mode : gives (DkimAlignment mode from results) (isDkimAligned schedule results from mode).
Proof.
  induction results as [|d rest IH]; cbn [isDkimAligned]; [constructor|].
  destruct (dk_result d) eqn:Ed; try (eapply safe_impl; [exact IH|]; intros [|b]; [done|]; intros Hb; apply dkim_skip; [by rewrite Ed|done]).
  assert (Hno : aligned mode (dk_domain d) from false -> gives (DkimAlignment mode from (d :: rest)) (isDkimAligned schedule rest from mode)).
  { intros Ha. eapply safe_impl; [exact IH|]. intros [|b]; [done|]. by apply dkim_no. }
  destruct mode; cbv zeta.
  - destruct (normalizeDomain (dk_domain d) === from) eqn:Es; [by apply dkim_yes|]. by apply Hno.
  - eapply gives_bind; [apply sameOrg_gives|]. intros [|] Ha; [by apply dkim_yes|by apply Hno].
Qed.

Lemma spf_gives r d from mode : gives (SpfAlignment mode from r d) (isSpfAligned schedule r d from mode).
Proof. destruct r; try done. destruct mode; [done|apply sameOrg_gives]. Qed.

Lemma evaluate_gives input from : gives (Verdict input from) (evaluateDmarc schedule input from).
Proof.
  eapply gives_bind; [apply discover_gives|]. intros [[tags org]|] Hp; [|by apply verdict_none].
  eapply gives_bind; [apply gives_par; [apply dkim_gives|apply spf_gives]|]. intros [dkimOk spfOk] [Hd Hs]. by apply verdict_policy.
Qed.

(** However the lookups interleave, however many labels and signatures the message names, and whatever
    the resolver answers: an evaluation asks at most 40 questions. *)
Theorem dmarc_query_budget input : (snd (checkDmarc schedule input) <= 40)%nat.
Proof.
  unfold checkDmarc. destruct (normalizeDomain (fromDomain input)) as [|x from]; [cbn; lia|].
  destruct (safe_run truthful _ (evaluateDmarc schedule input (x :: from)) emptyCtx truthful_empty (evaluate_gives input (x :: from))) as [_ Hc].
  destruct (run _ _) as [r c]. cbn in *. apply tr_asked in Hc. unfold MAX_DMARC_LOOKUPS in Hc. lia.
Qed.

Lemma check_verdict input : normalizeDomain (fromDomain input) <> [] ->
  Verdict input (normalizeDomain (fromDomain input)) (checkDmarc schedule input).1 \/ (checkDmarc schedule input).1 = noAlignment DmarcTemperror.
Proof.
  intros Hne. unfold checkDmarc. destruct (normalizeDomain (fromDomain input)) as [|x from]; [done|].
  destruct (safe_run truthful _ (evaluateDmarc schedule input (x :: from)) emptyCtx truthful_empty (evaluate_gives input (x :: from))) as [Hv _].
  destruct (run _ _) as [[e|r] c]; cbn in *; [by right|by left].
Qed.

(** C30: The verdict is what the published records say, and a message is only refused on a policy that the
    domain in its From header, or its organizational domain, publishes, when no identity that passed is
    aligned with it; an error never refuses. *)
Theorem dmarc_verdict_sound input r : (checkDmarc schedule input).1 = r ->
  (dm_result r = DmarcPass -> exists tags org, PolicyOf (normalizeDomain (fromDomain input)) (Some (tags, org)) /\
     (DkimAlignment (modeOf (tags !! js "adkim")) (normalizeDomain (fromDomain input)) (dkim input) true \/
      SpfAlignment (modeOf (tags !! js "aspf")) (normalizeDomain (fromDomain input)) (spf_result input) (spf_domain input) true)) /\
  (disposition r <> DispNone -> exists tags org, PolicyOf (normalizeDomain (fromDomain input)) (Some (tags, org)) /\
     disposition r = policyOf tags (negb (normalizeDomain (fromDomain input) === org)) /\
     DkimAlignment (modeOf (tags !! js "adkim")) (normalizeDomain (fromDomain input)) (dkim input) false /\
     SpfAlignment (modeOf (tags !! js "aspf")) (normalizeDomain (fromDomain input)) (spf_result input) (spf_domain input) false).
Proof.
  intros <-. destruct (decide (normalizeDomain (fromDomain input) = [])) as [E|Hne]; [unfold checkDmarc; by rewrite E|].
  destruct (check_verdict input Hne) as [Hv| ->]; [|done]. inversion Hv as [Hp Er|tags org dkimOk spfOk Hp Hd Hs p Er]; [done|]. cbn.
  split.
  - destruct dkimOk; [intros _; exists tags, org; auto|]. destruct spfOk; [intros _; exists tags, org; auto|done].
  - destruct dkimOk, spfOk; cbn; try done. intros _. exists tags, org. done.
Qed.
End Scheduled.
End Records.

(** ** A resolver whose answers do not change *)
Section Stable.
Context `{Resolver} (Hstable : forall n n' d, txt n d = txt n' d).

Lemma tagsAt_det d v v' : tagsAt d v -> tagsAt d v' -> v = v'.
Proof using Hstable.
  intros [n Hn] [n' Hn']. rewrite (Hstable n n') in Hn. destruct (txt n' _); [|congruence|done]. congruence.
Qed.

Lemma psdAt_det d b b' : psdAt d b -> psdAt d b' -> b = b'.
Proof using Hstable. intros (v & Hv & <-) (v' & Hv' & <-). by rewrite (tagsAt_det d v v' Hv Hv'). Qed.

Lemma walk_det labels k i o o' : WalkTo labels k i o -> WalkTo labels k i o' -> o = o'.
Proof using Hstable.
  induction 1 as [i|k i Hp|k i o Hp Ho IH]; intros Ho'; inversion Ho' as [|? ? Hp'|? ? ? Hp' Hn]; subst; try done; [| |by apply IH];
    exfalso; pose proof (psdAt_det _ _ _ Hp Hp'); done.
Qed.

Lemma OrgOf_det d o o' : OrgOf d o -> OrgOf d o' -> o = o'.
Proof using Hstable. unfold OrgOf. cbv zeta. destruct (_ <=? _)%nat; [congruence|apply walk_det]. Qed.

Lemma aligned_det mode d from b b' : aligned mode d from b -> aligned mode d from b' -> b = b'.
Proof using Hstable.
  destruct mode; cbn; [congruence|]. intros (o1 & o2 & H1 & H2 & ->) (o3 & o4 & H3 & H4 & ->).
  by rewrite (OrgOf_det _ _ _ H1 H3), (OrgOf_det _ _ _ H2 H4).
Qed.

Lemma dkim_det mode from l b b' : DkimAlignment mode from l b -> DkimAlignment mode from l b' -> b = b'.
Proof using Hstable.
  induction 1 as [|d rest b Hd Hr IH|d rest Hd Ha|d rest b Hd Ha Hr IH]; intros Hb; inversion Hb; subst; try done; try (by apply IH);
    match goal with H1 : aligned _ _ _ true, H2 : aligned _ _ _ false |- _ => pose proof (aligned_det _ _ _ _ _ H1 H2); done end.
Qed.

Lemma spf_det mode from r d b b' : SpfAlignment mode from r d b -> SpfAlignment mode from r d b' -> b = b'.
Proof using Hstable. destruct r; cbn; try congruence. apply aligned_det. Qed.

Lemma usable_det d o o' : usableAt d o -> usableAt d o' -> o = o'.
Proof using Hstable. intros (v & Hv & ->) (v' & Hv' & ->). by rewrite (tagsAt_det d v v' Hv Hv'). Qed.

Lemma policy_det from o o' : PolicyOf from o -> PolicyOf from o' -> o = o'.
Proof using Hstable.
  intros H1 H2. destruct H1 as [t Hu|Hu Ho|org o Hu Ho Hne Hv], H2 as [t' Hu'|Hu' Ho'|org' o' Hu' Ho' Hne' Hv']; try done;
    try (pose proof (usable_det _ _ _ Hu Hu'); congruence).
  - exfalso. by apply Hne', (OrgOf_det from).
  - exfalso. by apply Hne, (OrgOf_det from).
  - rewrite (OrgOf_det _ _ _ Ho' Ho) in *. by rewrite (usable_det _ _ _ Hv Hv').
Qed.

Lemma verdict_det input from r r' : Verdict input from r -> Verdict input from r' -> r = r'.
Proof using Hstable.
  intros [Hp|tags org dk sp Hp Hd Hs p] [Hp'|tags' org' dk' sp' Hp' Hd' Hs' p']; pose proof (policy_det _ _ _ Hp Hp') as E; simplify_eq; [done|].
  by rewrite (dkim_det _ _ _ _ _ Hd Hd'), (spf_det _ _ _ _ _ _ Hs Hs').
Qed.

(** The order in which the answers come in, and so which of the walks finds what in the caches, does
    not change the verdict: two runs that do not end in a temporary error give the same result. *)
Theorem dmarc_schedule_irrelevant schedule schedule' input :
  dm_result (checkDmarc schedule input).1 <> DmarcTemperror -> dm_result (checkDmarc schedule' input).1 <> DmarcTemperror ->
  (checkDmarc schedule input).1 = (checkDmarc schedule' input).1.
Proof using Hstable.
  intros H1 H2. destruct (decide (normalizeDomain (fromDomain input) = [])) as [E|Hne]; [unfold checkDmarc; by rewrite E|].
  destruct (check_verdict schedule input Hne) as [V1|E1]; [|by rewrite E1 in H1]. destruct (check_verdict schedule' input Hne) as [V2|E2]; [|by rewrite E2 in H2].
  by eapply verdict_det.
Qed.
End Stable.

(** ** Examples *)

Definition dmarcZone (txts : list (jsstr * list jsstr)) : Resolver :=
  {| txt := fun _ name => match List.find (fun e => e.1 === name) txts with Some e => Found e.2 | None => NotFound end;
     mx := fun _ _ => NotFound; a := fun _ _ => NotFound; aaaa := fun _ _ => NotFound; ptr := fun _ _ => NotFound; dateNow := fun _ => 0 |}.

Definition bankZone : Resolver := dmarcZone
  [(js "_dmarc.bank.example", [js "v=DMARC1; p=reject; sp=quarantine; adkim=s"]); (js "_dmarc.gov.example", [js "V=DMARC1 ; p=none"; js "x"]);
   (js "_dmarc.psd.example", [js "v=DMARC1; p=none; psd=y"])].

Definition mail (from spf : jsstr) (signers : list jsstr) : DmarcInput :=
  mkDmarcInput from SpfPass spf (map (mkDkimInput DkimPass) signers).

Definition fair (n : nat) : bool := Nat.even n.

Example dmarc_examples : let R := bankZone in
  map (fun i => let '(r, n) := checkDmarc fair i in (dm_result r, disposition r, n))
    [mail (js "bank.example") (js "mx.bank.example.") []; mail (js "www.bank.example") (js "evil.example") [js "bank.example"];
     mail (js "www.bank.example") (js "evil.example") [js "WWW.Bank.example"]; mail (js "a.psd.example") (js "b.psd.example") [];
     mail (js "Bank.Example") (js "a.b.c.evil.example") []]
  = [(DmarcPass, DispNone, 2%nat); (DmarcFail, DispQuarantine, 3%nat); (DmarcPass, DispNone, 3%nat);
     (DmarcNone, DispNone, 2%nat); (DmarcFail, DispReject, 5%nat)].
Proof. vm_compute. reflexivity. Qed.

Lemma dmarc_verdict_sound_witness : let R := bankZone in
  let input := mail (js "bank.example") (js "evil.example") [] in let r := (checkDmarc fair input).1 in
  disposition r = DispReject /\
  (disposition r <> DispNone -> exists tags org, PolicyOf (normalizeDomain (fromDomain input)) (Some (tags, org)) /\
     disposition r = policyOf tags (negb (normalizeDomain (fromDomain input) === org)) /\
     DkimAlignment (modeOf (tags !! js "adkim")) (normalizeDomain (fromDomain input)) (dkim input) false /\
     SpfAlignment (modeOf (tags !! js "aspf")) (normalizeDomain (fromDomain input)) (spf_result input) (spf_domain input) false).
Proof.
  cbv zeta. split; [vm_compute; reflexivity|].
  exact (proj2 (dmarc_verdict_sound (H := bankZone) fair (mail (js "bank.example") (js "evil.example") []) _ eq_refl)).
Defined.

Lemma dmarc_schedule_irrelevant_witness : let R := bankZone in
  let input := mail (js "www.bank.example") (js "mx.www.bank.example") [js "evil.example"; js "a.b.bank.example"] in
  (checkDmarc (fun _ => true) input).1 = (checkDmarc (fun _ => false) input).1.
Proof.
  cbv zeta. apply (dmarc_schedule_irrelevant (H := bankZone)); [reflexivity|vm_compute; discriminate|vm_compute; discriminate].
Defined.

(** Gap: without a record that says [psd=y], two labels are an organizational domain.  Below a public
    suffix of two labels, as co.uk is, every domain is then aligned with every other: whoever holds one
    of them passes for another that asks to refuse everything that is not its own. *)
Example dmarc_suffix_spoof : let R := dmarcZone [(js "_dmarc.victim.co.uk", [js "v=DMARC1; p=reject"])] in
  dm_result (checkDmarc fair (mail (js "victim.co.uk") (js "attacker.co.uk") [])).1 = DmarcPass.
Proof. vm_compute. reflexivity. Qed.
