(* ===== verification/Dkim.v ===== *)
(** * DKIM (packages/mail-auth/src: canon.ts, sign.ts, verify.ts, crypto.ts, keys.ts)

    Canonical forms and the choice of headers, signing, and verification.  A message is its bytes, read as a latin1 string, so that bytes and units are the same. *)

From S2P Require Import Prelude JsString JsNumber Text Net Scram MimeHeaders Trace Cidr Spf.

Inductive DkimCanonMode := CanonRelaxed | CanonSimple.
#[export] Instance DkimCanonMode_eq_dec : EqDecision DkimCanonMode.
Proof. solve_decision. Defined.

(** [bin.replace(/\r\n|\r|\n/g, "\r\n")] *)
Fixpoint normalizeLineEndings (bin : jsstr) : jsstr :=
  match bin with
  | [] => []
  | c :: r =>
      if c =? CR then
        match r with
        | d :: r' => if d =? LF then CR :: LF :: normalizeLineEndings r' else CR :: LF :: normalizeLineEndings r
        | [] => [CR; LF]
        end
      else if c =? LF then CR :: LF :: normalizeLineEndings r
      else c :: normalizeLineEndings r
  end.

Record SplitMessage := mkSplit { headerBlock : jsstr; msgBody : jsstr }.

Definition splitMessage (bin : jsstr) : SplitMessage :=
  match indexOfStr CRLFCRLF bin with
  | None => {| headerBlock := bin; msgBody := [] |}
  | Some idx => {| headerBlock := take idx bin; msgBody := drop (idx + 4) bin |}
  end.

Record HeaderField := mkField { fieldName : jsstr; raw : jsstr }.

(** [s.split("\r\n")] *)
Fixpoint splitCRLF (acc : jsstr) (s : jsstr) : list jsstr :=
  match s with
  | [] => [acc]
  | c :: r =>
      match r with
      | d :: r' => if (c =? CR) && (d =? LF) then acc :: splitCRLF [] r' else splitCRLF (acc ++ [c]) r
      | [] => splitCRLF (acc ++ [c]) r
      end
  end.

Definition isWsp (c : Z) : bool := (c =? 32) || (c =? 9).
Definition startsWsp (l : jsstr) : bool := match l with c :: _ => isWsp c | [] => false end.

(** [FIELD_NAME_RE] *)
Definition isNameChar (c : Z) : bool := ((33 <=? c) && (c <=? 57)) || ((59 <=? c) && (c <=? 126)).
Definition isFieldName (name : jsstr) : bool :=
  match name with c :: r => isNameChar c && forallb (fun d => isNameChar d || isWsp d) r | [] => false end.

(** The records; [cur] is the last one so far. *)
Fixpoint foldRecords (cur : option jsstr) (ls : list jsstr) : list jsstr :=
  match ls with
  | [] => match cur with Some r => [r] | None => [] end
  | l :: rest =>
      match cur with
      | Some r => if startsWsp l then foldRecords (Some (r ++ crlf ++ l)) rest else r :: foldRecords (Some l) rest
      | None => foldRecords (Some l) rest
      end
  end.

Definition fieldOf (record : jsstr) : option HeaderField :=
  match indexOf 58 record with
  | Some (S i) => let name := take (S i) record in if isFieldName name then Some {| fieldName := name; raw := record |} else None
  | _ => None
  end.

Definition parseHeaderFields (block : jsstr) : list HeaderField :=
  match block with [] => [] | _ => omap fieldOf (foldRecords None (splitCRLF [] block)) end.

(** [s.replace(/\r\n/g, "")] *)
Fixpoint dropCRLF (s : jsstr) : jsstr :=
  match s with
  | [] => []
  | c :: r =>
      match r with
      | d :: r' => if (c =? CR) && (d =? LF) then dropCRLF r' else c :: dropCRLF r
      | [] => [c]
      end
  end.

(** [s.replace(/[ \t]+/g, " ")]; [inRun] says that a run is open. *)
Fixpoint squeeze (inRun : bool) (s : jsstr) : jsstr :=
  match s with
  | [] => []
  | c :: r => if isWsp c then (if inRun then squeeze true r else SP :: squeeze true r) else c :: squeeze false r
  end.

Definition canonHeaderField (field : HeaderField) (mode : DkimCanonMode) : jsstr :=
  match mode with
  | CanonSimple => raw field ++ crlf
  | CanonRelaxed =>
      (* every field has a colon; without one, [slice(0, -1)] and [slice(0)] *)
      let '(n, v) := match indexOf 58 (raw field) with
                     | Some i => (take i (raw field), drop (S i) (raw field))
                     | None => (take (length (raw field) - 1) (raw field), raw field)
                     end in
      toLowerCase (trim n) ++ [58] ++ trim (squeeze false (dropCRLF v)) ++ crlf
  end.

(** The scanner: a stretch of text, then a run of white space, which is one space unless the line ends. *)
Fixpoint relaxedScan (fuel : nat) (line : jsstr) : jsstr :=
  match fuel with
  | O => []
  | S f =>
      match line with
      | [] => []
      | _ =>
          let '(text, r) := spanChars (fun c => negb (isWsp c)) line in
          let '(_, r') := spanChars isWsp r in
          text ++ match r' with [] => [] | _ => SP :: relaxedScan f r' end
      end
  end.

Definition canonRelaxedBodyLine (line : jsstr) : jsstr := relaxedScan (S (length line)) line.

(** The lines without the empty ones at the end. *)
Fixpoint dropEmptyTail (lines : list jsstr) : list jsstr :=
  match lines with
  | [] => []
  | l :: r => match dropEmptyTail r with [] => if l === [] then [] else [l] | r' => l :: r' end
  end.

Definition canonBody (body : jsstr) (mode : DkimCanonMode) : jsstr :=
  let lines := splitCRLF [] body in
  let lines := match mode with CanonRelaxed => map canonRelaxedBodyLine lines | CanonSimple => lines end in
  match dropEmptyTail lines with
  | [] => match mode with CanonSimple => crlf | CanonRelaxed => [] end
  | ls => joinWith crlf ls ++ crlf
  end.

Definition fieldKey (f : HeaderField) : jsstr := toLowerCase (trim (fieldName f)).

Abbreviation Groups := (gmap jsstr (list HeaderField)).

Definition groupHeaderFields (fields : list HeaderField) : Groups :=
  fold_left (fun groups f => <[fieldKey f := default [] (groups !! fieldKey f) ++ [f]]> groups) fields ∅.

Definition hasGroup (groups : Groups) (name : jsstr) : bool := match groups !! name with Some _ => true | None => false end.

Fixpoint resolveFrom (groups : Groups) (consumed : gmap jsstr nat) (hNames : list jsstr) : list (option HeaderField) :=
  match hNames with
  | [] => []
  | rawName :: rest =>
      let name := toLowerCase (trim rawName) in
      let arr := default [] (groups !! name) in
      let used := default 0%nat (consumed !! name) in
      (if (used <? length arr)%nat then arr !! (length arr - 1 - used)%nat else None)
      :: resolveFrom groups (<[name := S used]> consumed) rest
  end.

Definition resolveHeaderSequence (groups : Groups) (hNames : list jsstr) : list (option HeaderField) := resolveFrom groups ∅ hNames.

(** [resolved.map((f) => (f ? canonHeaderField(f, mode) : "")).join("")] *)
Definition headerHashInput (groups : Groups) (hNames : list jsstr) (mode : DkimCanonMode) : jsstr :=
  flat_map (fun f => match f with Some f => canonHeaderField f mode | None => [] end) (resolveHeaderSequence groups hNames).

(** * DKIM: signing and verifying (packages/mail-auth/src/crypto.ts, sign.ts, verify.ts, keys.ts)

    SHA-256 and node's base64 decoder are [NodeCrypto]; the asymmetric part of node:crypto is the class
    [DkimKeys].  The resolver is the injected [resolveTxt], whose answers may depend on how many
    questions were asked before.  The text of an error is a constructor of [DkimError]. *)

(** ** Cryptography *)

Inductive DkimAlgorithm := RsaSha256 | Ed25519Sha256.
#[export] Instance DkimAlgorithm_eq_dec : EqDecision DkimAlgorithm.
Proof. solve_decision. Defined.

(** [None] is an exception.  The algorithm of [sign] and [verify] is "sha256" ([true]) or null; a key has
    the length of its modulus, if it has one. *)
Class DkimKeys := {
  KeyObject : Type;
  spkiKey : bytes -> option KeyObject;
  jwkEd25519Key : bytes -> option KeyObject;
  modulusLength : KeyObject -> option Z;
  cryptoSign : bool -> bytes -> jsstr -> option bytes;
  cryptoVerify : bool -> bytes -> KeyObject -> bytes -> option bool
}.

Definition algorithmName (a : DkimAlgorithm) : jsstr :=
  match a with RsaSha256 => js "rsa-sha256" | Ed25519Sha256 => js "ed25519-sha256" end.

Definition readAlgorithm (a : jsstr) : option DkimAlgorithm :=
  if a === js "rsa-sha256" then Some RsaSha256 else if a === js "ed25519-sha256" then Some Ed25519Sha256 else None.

Definition MIN_RSA_BITS : Z := 1024.

(** [Buffer.from(s, "latin1")] *)
Definition latin1 (s : jsstr) : bytes := map (fun c => Z.land c 255) s.

Inductive DkimError :=
| EMalformed | EVersion (v : jsstr) | EMissingTag | ERsaSha1 | EAlgorithm (a : jsstr) | ENoFrom | EHeaderCanon (c : jsstr) | EBodyCanon (c : jsstr)
| EExpired | EBase64 | EBodyLength (l : jsstr) | EBodyCut | EBodyHash | EIdentity (i : jsstr) | EDns (detail : jsstr) | ENoKey
| EKeyFormat | EKeyVersion (v : jsstr) | EKeyNoP | EKeyRevoked | EKeyHash | EKeyType (a k : jsstr) | EKeyLength (n : Z) | ERsaSize (bits : option Z)
| EKeyParse | EMismatch | EVerifyThrew | ETooMany (n : Z).

Section Crypto.
Context `{NodeCrypto} `{DkimKeys}.

Definition signDkimData (data : bytes) (a : DkimAlgorithm) (privateKey : jsstr) : option bytes :=
  match a with RsaSha256 => cryptoSign true data privateKey | Ed25519Sha256 => cryptoSign false (sha256 data) privateKey end.

Definition verifyDkimData (data : bytes) (a : DkimAlgorithm) (key : KeyObject) (signature : bytes) : option bool :=
  match a with RsaSha256 => cryptoVerify true data key signature | Ed25519Sha256 => cryptoVerify false (sha256 data) key signature end.

Definition ed25519PublicKeyFromRaw (rawKey : bytes) : DkimError + KeyObject :=
  if negb (length rawKey =? 32)%nat then inl (EKeyLength (len rawKey))
  else match jwkEd25519Key rawKey with Some k => inr k | None => inl EKeyParse end.

Definition dkimPublicKey (pubKeyBytes : bytes) (a : DkimAlgorithm) : DkimError + KeyObject :=
  match a with
  | Ed25519Sha256 => ed25519PublicKeyFromRaw pubKeyBytes
  | RsaSha256 =>
      match spkiKey pubKeyBytes with
      | None => inl EKeyParse
      | Some key =>
          match modulusLength key with
          | Some bits => if (bits =? 0) || (bits <? MIN_RSA_BITS) then inl (ERsaSize (Some bits)) else inr key
          | None => inl (ERsaSize None)
          end
      end
  end.

(** ** Signing *)

Record DkimSignOptions := mkSignOptions {
  s_domain : jsstr; s_selector : jsstr; s_privateKey : jsstr; s_algorithm : DkimAlgorithm;
  s_headerCanon : DkimCanonMode; s_bodyCanon : DkimCanonMode;
  s_signedHeaders : option (list jsstr); s_timestamp : Z; s_expiration : option Z
}.

Definition DEFAULT_SIGNED_HEADERS : list jsstr :=
  [js "from"; js "to"; js "cc"; js "subject"; js "date"; js "message-id"; js "reply-to"; js "in-reply-to"; js "references";
   js "mime-version"; js "content-type"; js "content-transfer-encoding"].

Definition RELAY_SAFE_SIGNED_HEADERS : list jsstr := List.filter (fun h => negb (h === js "message-id")) DEFAULT_SIGNED_HEADERS.

Definition FOLD_WIDTH : Z := 78.

(** The loop from the column [col] on. *)
Fixpoint foldTail (fuel : nat) (col : Z) (tail : jsstr) : jsstr :=
  match fuel with
  | O => []
  | S f =>
      match tail with
      | [] => []
      | _ =>
          let room := Z.to_nat (Z.max (FOLD_WIDTH - col) 1) in
          take room tail ++ match drop room tail with [] => [] | rest => crlf ++ [9] ++ foldTail f 1 rest end
      end
  end.

Definition foldSignatureTail (headLength : Z) (tail : jsstr) : jsstr := foldTail (length tail) headLength tail.

Definition canonName (m : DkimCanonMode) : jsstr := match m with CanonRelaxed => js "relaxed" | CanonSimple => js "simple" end.

(** The names of [h=]: From twice, and what of the list the message has. *)
Definition signedNames (groups : Groups) (signedHeaders : option (list jsstr)) : list jsstr :=
  [js "from"; js "from"]
  ++ List.filter (fun n => negb (n === js "from") && hasGroup groups n) (map toLowerCase (default DEFAULT_SIGNED_HEADERS signedHeaders)).

(** The tags and their values, [b] last. *)
Definition signatureTags (opts : DkimSignOptions) (hNames : list jsstr) (bh : jsstr) : list (jsstr * jsstr) :=
  [(js "v", js "1"); (js "a", algorithmName (s_algorithm opts)); (js "c", canonName (s_headerCanon opts) ++ [47] ++ canonName (s_bodyCanon opts));
   (js "d", s_domain opts); (js "s", s_selector opts); (js "t", numToString (s_timestamp opts))]
  ++ match s_expiration opts with Some x => [(js "x", numToString x)] | None => [] end
  ++ [(js "h", joinWith [58] hNames); (js "bh", bh); (js "b", [])].

Definition tagText (tv : jsstr * jsstr) : jsstr := tv.1 ++ [61] ++ tv.2.

Definition unsignedText (tags : list (jsstr * jsstr)) : jsstr := js "DKIM-Signature: " ++ joinWith (js "; ") (map tagText tags).

(** [s.replace(/\r\n$/, "")] *)
Definition dropEndCRLF (s : jsstr) : jsstr :=
  if (drop (length s - 2) s === crlf) then take (length s - 2) s else s.

Definition dataFor (groups : Groups) (hNames : list jsstr) (mode : DkimCanonMode) (own : HeaderField) : bytes :=
  latin1 (headerHashInput groups hNames mode ++ dropEndCRLF (canonHeaderField own mode)).

(** [None]: no From header, or a key that node refuses. *)
Definition dkimSign (rawMessage : bytes) (opts : DkimSignOptions) : option jsstr :=
  let m := splitMessage (normalizeLineEndings rawMessage) in
  let groups := groupHeaderFields (parseHeaderFields (headerBlock m)) in
  if negb (hasGroup groups (js "from")) then None
  else
    let hNames := signedNames groups (s_signedHeaders opts) in
    let bh := base64Encode (sha256 (latin1 (canonBody (msgBody m) (s_bodyCanon opts)))) in
    let unsigned := unsignedText (signatureTags opts hNames bh) in
    let own := {| fieldName := js "DKIM-Signature"; raw := unsigned |} in
    sig ← signDkimData (dataFor groups hNames (s_headerCanon opts) own) (s_algorithm opts) (s_privateKey opts);
    Some (unsigned ++ foldSignatureTail (len unsigned) (base64Encode sig)).

(** ** Tag lists *)

Record ParsedTag := mkTag { tag : jsstr; value : jsstr; rawStart : nat; rawEnd : nat }.

(** [s.replace(/[ \t\r\n]+/g, "")] *)
Definition stripFws (s : jsstr) : jsstr := List.filter (fun c => negb ((c =? 32) || (c =? 9) || (c =? 13) || (c =? 10))) s.

Fixpoint parseTagSegments (offset : nat) (segments : list jsstr) : option (list ParsedTag) :=
  match segments with
  | [] => Some []
  | segment :: rest =>
      let next := (offset + length segment + 1)%nat in
      match trim segment with
      | [] => parseTagSegments next rest
      | _ =>
          match indexOf 61 segment with
          | None => None
          | Some eqIdx =>
              match toLowerCase (trim (take eqIdx segment)) with
              | [] => None
              | t =>
                  tags ← parseTagSegments next rest;
                  Some ({| tag := t; value := stripFws (drop (S eqIdx) segment); rawStart := (offset + eqIdx + 1)%nat; rawEnd := (offset + length segment)%nat |}
                        :: tags)
              end
          end
      end
  end.

Definition parseTagList (text : jsstr) : option (list ParsedTag) := parseTagSegments 0 (splitOn 59 text).

Definition findTag (tags : list ParsedTag) (name : jsstr) : option jsstr := value <$> List.find (fun t => tag t === name) tags.

(** ** Verifying *)

Record DkimResult := mkDkimResult {
  v_domain : jsstr; v_selector : jsstr; v_result : DkimVerifyOutcome; v_error : option DkimError; v_testing : option bool; v_algorithm : option DkimAlgorithm
}.

Definition makeResult (domain selector : jsstr) (o : DkimVerifyOutcome) (e : option DkimError) (testing : option bool) : DkimResult :=
  {| v_domain := domain; v_selector := selector; v_result := o; v_error := e; v_testing := testing; v_algorithm := None |}.

(** [s.split(":").map((x) => x.trim().toLowerCase())] *)
Definition colonList (s : jsstr) : list jsstr := map (fun x => toLowerCase (trim x)) (splitOn 58 s).

Definition MAX_DKIM_SIGNATURES : nat := 10.

Definition tryKeyRecord (record domain selector : jsstr) (a : DkimAlgorithm) (dataToVerify sigBytes : bytes) : DkimResult :=
  let perm e t := makeResult domain selector DkimPermerror (Some e) t in
  match parseTagList record with
  | None => perm EKeyFormat None
  | Some keyTags =>
      let wrongVersion := match findTag keyTags (js "v") with Some kv => if kv === js "DKIM1" then None else Some kv | None => None end in
      match wrongVersion with
      | Some kv => perm (EKeyVersion kv) None
      | None =>
          match findTag keyTags (js "p") with
          | None => perm EKeyNoP None
          | Some [] => perm EKeyRevoked None
          | Some p =>
              if match findTag keyTags (js "h") with Some kh => negb (existsb (seqb (js "sha256")) (colonList kh)) | None => false end
              then perm EKeyHash None
              else
                let testing := Some (existsb (seqb (js "y")) (colonList (default [] (findTag keyTags (js "t"))))) in
                let k := default (js "rsa") (findTag keyTags (js "k")) in
                let expectedK := match a with Ed25519Sha256 => js "ed25519" | RsaSha256 => js "rsa" end in
                if negb (k === expectedK) then perm (EKeyType (algorithmName a) k) testing
                else
                  match dkimPublicKey (bufferFromBase64 p) a with
                  | inl e => perm e testing
                  | inr key =>
                      match verifyDkimData dataToVerify a key sigBytes with
                      | Some true => makeResult domain selector DkimPass None testing
                      | Some false => makeResult domain selector DkimFail (Some EMismatch) testing
                      | None => perm EVerifyThrew testing
                      end
                  end
          end
      end
  end.

(** [Number(x)] is a time in seconds that has passed; a fraction of a second is dropped. *)
Definition expired (x : jsstr) (now : Z) : bool :=
  match jsNumber x with NumInt z => z * 1000 <? now | NumFrac f => f * 1000 <? now | _ => false end.

(** [c.split("/")], with the default of RFC 6376; more than two parts are ignored. *)
Definition readCanon (c : jsstr) : option DkimCanonMode :=
  if c === js "relaxed" then Some CanonRelaxed else if c === js "simple" then Some CanonSimple else None.

Definition canonParts (c : jsstr) : jsstr * jsstr :=
  match splitOn 47 c with
  | [] => (js "simple", js "simple")
  | [h] => (h, js "simple")
  | h :: b :: _ => (h, b)
  end.

(** The hash that [bh=] must be: of the whole canonical body, or of its first [l] octets. *)
Definition bodyForHash (body : jsstr) (mode : DkimCanonMode) (lTag : option jsstr) : (DkimVerifyOutcome * DkimError) + bytes :=
  let canon := canonBody body mode in
  match lTag with
  | None => inr (sha256 (latin1 canon))
  | Some l =>
      match jsNumber l with
      | NumInt limit =>
          if limit <? 0 then inl (DkimPermerror, EBodyLength l)
          else if len canon <? limit then inl (DkimFail, EBodyCut)
          else inr (sha256 (latin1 (take (Z.to_nat limit) canon)))
      | _ => inl (DkimPermerror, EBodyLength l)
      end
  end.

(** [i=] names the domain of [d=] or one below it. *)
Definition identityOk (i domain : jsstr) : bool :=
  let iDomain := dropDot (toLowerCase (match lastIndexOf 64 i with Some at_ => drop (S at_) i | None => i end)) in
  let d := dropDot (toLowerCase domain) in
  (iDomain === d) || endsWithStr iDomain (DOT :: d).

(** The field with the value of [b=] cut out. *)
Definition blanked (field : HeaderField) (tags : list ParsedTag) : HeaderField :=
  let colonIdx := default 0%nat (indexOf 58 (raw field)) in
  let valueText := drop (S colonIdx) (raw field) in
  let blankedValue := match List.find (fun t => tag t === js "b") tags with
                      | Some t => take (rawStart t) valueText ++ drop (rawEnd t) valueText
                      | None => valueText
                      end in
  {| fieldName := fieldName field; raw := take colonIdx (raw field) ++ [58] ++ blankedValue |}.

(** The first candidate that decides; else the last. *)
Fixpoint firstDecided (last : DkimResult) (rs : list DkimResult) : DkimResult :=
  match rs with
  | [] => last
  | r :: rest => match v_result r with DkimPass | DkimFail => r | _ => firstDecided r rest end
  end.

Definition keyCandidates (txtRecords : list jsstr) : list jsstr :=
  match txtRecords with _ :: _ :: _ => concat txtRecords :: txtRecords | _ => txtRecords end.

Definition present (o : option jsstr) : bool := match o with Some (_ :: _) => true | _ => false end.

(** What [verifyOne] needs from the DNS: nothing (it has a verdict), or the key for the data and the
    signature. *)
Inductive Plan :=
| Verdict (r : DkimResult)
| NeedKey (domain selector : jsstr) (a : DkimAlgorithm) (data sigBytes : bytes).

Definition planOne (field : HeaderField) (groups : Groups) (body : jsstr) (now : Z) : Plan :=
  let valueText := drop (S (default 0%nat (indexOf 58 (raw field)))) (raw field) in
  match parseTagList valueText with
  | None => Verdict (makeResult [] [] DkimPermerror (Some EMalformed) None)
  | Some tags =>
      let domain := default [] (findTag tags (js "d")) in
      let selector := default [] (findTag tags (js "s")) in
      let stop o e := Verdict (makeResult domain selector o (Some e) None) in
      let wrongVersion := match findTag tags (js "v") with Some v => if v === js "1" then None else Some v | None => None end in
      match wrongVersion with
      | Some v => stop DkimPermerror (EVersion v)
      | None =>
      if negb (present (findTag tags (js "a")) && present (findTag tags (js "bh")) && present (findTag tags (js "b")) && present (findTag tags (js "h"))
               && present (Some domain) && present (Some selector))
      then stop DkimPermerror EMissingTag
      else
      let a := default [] (findTag tags (js "a")) in
      if a === js "rsa-sha1" then stop DkimPermerror ERsaSha1
      else
      match readAlgorithm a with
      | None => stop DkimPermerror (EAlgorithm a)
      | Some alg =>
      let hNames := List.filter (fun s => negb (s === [])) (colonList (default [] (findTag tags (js "h")))) in
      if negb (existsb (seqb (js "from")) hNames) then stop DkimPermerror ENoFrom
      else
      let c := default (js "simple/simple") (findTag tags (js "c")) in
      match readCanon (canonParts c).1 with
      | None => stop DkimPermerror (EHeaderCanon c)
      | Some headerCanon =>
      match readCanon (canonParts c).2 with
      | None => stop DkimPermerror (EBodyCanon c)
      | Some bodyCanon =>
      if match findTag tags (js "x") with Some x => expired x now | None => false end then stop DkimFail EExpired
      else
      let bhBytes := bufferFromBase64 (default [] (findTag tags (js "bh"))) in
      let sigBytes := bufferFromBase64 (default [] (findTag tags (js "b"))) in
      if negb (length bhBytes =? 32)%nat then stop DkimPermerror EBase64
      else
      match bodyForHash body bodyCanon (findTag tags (js "l")) with
      | inl (o, e) => stop o e
      | inr h =>
      if negb (h === bhBytes) then stop DkimFail EBodyHash
      else
      let wrongIdentity := match findTag tags (js "i") with Some i => if identityOk i domain then None else Some i | None => None end in
      match wrongIdentity with
      | Some i => stop DkimPermerror (EIdentity i)
      | None => NeedKey domain selector alg (dataFor groups hNames headerCanon (blanked field tags)) sigBytes
      end end end end end end
  end.

Definition verifyOne (resolveTxt : nat -> jsstr -> Answer (list jsstr)) (field : HeaderField) (groups : Groups) (body : jsstr) (now : Z) (asked : nat) : DkimResult * nat :=
  match planOne field groups body now with
  | Verdict r => (r, asked)
  | NeedKey domain selector a data sigBytes =>
      (match resolveTxt asked (selector ++ js "._domainkey." ++ domain) with
       | NotFound => makeResult domain selector DkimTemperror (Some (EDns [])) None
       | Failed e => makeResult domain selector DkimTemperror (Some (EDns e)) None
       | Found txtRecords =>
           firstDecided (makeResult domain selector DkimPermerror (Some ENoKey) None)
             (map (fun r => tryKeyRecord r domain selector a data sigBytes) (keyCandidates txtRecords))
       end, S asked)
  end.

(** [{ ...result, algorithm: a }] *)
Definition withAlgorithm (field : HeaderField) (r : DkimResult) : DkimResult :=
  let valueText := drop (S (default 0%nat (indexOf 58 (raw field)))) (raw field) in
  match (tags ← parseTagList valueText; a ← findTag tags (js "a"); readAlgorithm a) with
  | Some a => r <| v_algorithm := Some a |>
  | None => r
  end.

Fixpoint verifyAll (resolveTxt : nat -> jsstr -> Answer (list jsstr)) (fields : list HeaderField) (groups : Groups) (body : jsstr) (now : Z) (asked : nat)
  : list DkimResult * nat :=
  match fields with
  | [] => ([], asked)
  | f :: rest =>
      let '(r, n) := verifyOne resolveTxt f groups body now asked in
      let '(rs, n') := verifyAll resolveTxt rest groups body now n in
      (withAlgorithm f r :: rs, n')
  end.

(** The results, and the number of questions asked. *)
Definition dkimVerify (rawMessage : bytes) (resolveTxt : nat -> jsstr -> Answer (list jsstr)) (now : Z) : list DkimResult * nat :=
  let m := splitMessage (normalizeLineEndings rawMessage) in
  let fields := parseHeaderFields (headerBlock m) in
  let sigFields := List.filter (fun f => fieldKey f === js "dkim-signature") fields in
  let '(rs, n) := verifyAll resolveTxt (take MAX_DKIM_SIGNATURES sigFields) (groupHeaderFields fields) (msgBody m) now 0 in
  (rs ++ (if (MAX_DKIM_SIGNATURES <? length sigFields)%nat then [makeResult [] [] DkimPermerror (Some (ETooMany (len sigFields))) None] else []), n).

(** ** Keys (keys.ts): the record that is published for a public key *)
Definition dnsRecord (a : DkimAlgorithm) (publicKey : bytes) : jsstr :=
  js "v=DKIM1; k=" ++ match a with RsaSha256 => js "rsa" | Ed25519Sha256 => js "ed25519" end ++ js "; p=" ++ base64Encode publicKey.
End Crypto.
