(* ===== verification/DkimSpec.v ===== *)
(** * What DKIM promises

    - [dkim_sign_verify]: what is signed verifies, through folding, canonical forms and tag lists;
    - [dkim_body_line_exact]: the linear scanner of a relaxed line gives what the regular expressions
      that it replaced gave;
    - [dkim_query_bound]: a message makes the verifier ask at most ten questions. *)

From S2P Require Import Prelude JsString JsNumber Text Net Scram MimeHeaders Trace Cidr Spf Dkim.

(** ** Relaxed lines *)

(** [line.replace(/[ \t]+$/, "").replace(/[ \t]+/g, " ")] *)
Fixpoint dropWspEnd (s : jsstr) : jsstr :=
  match s with
  | [] => []
  | c :: r => match dropWspEnd r with [] => if isWsp c then [] else [c] | r' => c :: r' end
  end.

Definition relaxedRef (line : jsstr) : jsstr := squeeze false (dropWspEnd line).

Lemma spanChars_split {p s a b} : spanChars p s = (a, b) -> s = a ++ b /\ forallb p a = true /\ match b with c :: _ => p c = false | [] => True end.
Proof.
  revert a b. induction s as [|c s IH]; intros a b; cbn [spanChars]; [by intros [= <- <-]|].
  destruct (p c) eqn:Ep; [|intros [= <- <-]; done]. destruct (spanChars p s) as [a' b'] eqn:E. intros [= <- <-].
  destruct (IH a' b' eq_refl) as (-> & H1 & H2). cbn. by rewrite Ep, H1.
Qed.

Lemma dropWspEnd_text text r : forallb (fun c => negb (isWsp c)) text = true -> dropWspEnd (text ++ r) = text ++ dropWspEnd r.
Proof.
  induction text as [|c text IH]; [done|]. cbn [forallb app dropWspEnd]. intros [Hc Ht]%andb_true_iff. rewrite (IH Ht).
  destruct (text ++ dropWspEnd r) as [|d l] eqn:E; [|done]. apply negb_true_iff in Hc. rewrite Hc. done.
Qed.

Lemma dropWspEnd_run run r : forallb isWsp run = true -> dropWspEnd (run ++ r) = match dropWspEnd r with [] => [] | r' => run ++ r' end.
Proof.
  induction run as [|c run IH]; [intros _; cbn; by destruct (dropWspEnd r)|]. cbn [forallb app dropWspEnd]. intros [Hc Hr]%andb_true_iff. rewrite (IH Hr).
  destruct (dropWspEnd r) as [|d l] eqn:E; [by rewrite Hc|]. by destruct (run ++ d :: l) eqn:E2; [destruct run|].
Qed.

Lemma squeeze_text b text r : forallb (fun c => negb (isWsp c)) text = true ->
  squeeze b (text ++ r) = text ++ squeeze (match text with [] => b | _ => false end) r.
Proof.
  revert b. induction text as [|c text IH]; intros b; [done|]. cbn [forallb app squeeze]. intros [Hc Ht]%andb_true_iff. apply negb_true_iff in Hc. rewrite Hc, (IH false Ht).
  by destruct text.
Qed.

Lemma squeeze_run run r : forallb isWsp run = true -> run <> [] -> match r with c :: _ => isWsp c = false | [] => True end ->
  squeeze false (run ++ r) = SP :: squeeze false r.
Proof.
  intros Hr Hne Hhd. assert (Ht : forall l, forallb isWsp l = true -> squeeze true (l ++ r) = squeeze false r).
  { induction l as [|c l IH]; cbn [forallb app squeeze]; [intros _; destruct r as [|d r]; [done|]; cbn; by rewrite Hhd|]. intros [Hc Hl]%andb_true_iff. rewrite Hc. auto. }
  destruct run as [|c run]; [done|]. cbn [forallb] in Hr. apply andb_true_iff in Hr as [Hc Hr]. cbn [app squeeze]. rewrite Hc, Ht; done.
Qed.

(** A text that does not start with white space and is not empty keeps its start. *)
Lemma dropWspEnd_head c r : isWsp c = false -> exists r', dropWspEnd (c :: r) = c :: r'.
Proof. intros Hc. cbn. destruct (dropWspEnd r); [rewrite Hc|]; eauto. Qed.

Lemma relaxedScan_exact fuel line : (length line < fuel)%nat -> relaxedScan fuel line = relaxedRef line.
Proof.
  unfold relaxedRef. revert line. induction fuel as [|f IH]; intros line Hf; [lia|]. cbn [relaxedScan]. destruct line as [|x line0] eqn:El; [done|]. rewrite <- El in *.
  destruct (spanChars (fun c => negb (isWsp c)) line) as [text r] eqn:E1. destruct (spanChars_split E1) as (Hl & Ht & Hr).
  destruct (spanChars isWsp r) as [run r'] eqn:E2. destruct (spanChars_split E2) as (Hl2 & Hrun & Hr'). subst r. rewrite Hl.
  rewrite dropWspEnd_text by done. rewrite squeeze_text by done. f_equal. rewrite dropWspEnd_run by done. destruct r' as [|c r'].
  { cbn. by destruct text. }
  destruct (dropWspEnd_head c r' Hr') as [d Hd]. rewrite Hd. destruct run as [|w run].
  { exfalso. cbn in Hr. rewrite Hr' in Hr. done. }
  assert (Hb : (match text with [] => false | _ => false end) = false) by (by destruct text). rewrite Hb, squeeze_run by done. f_equal.
  rewrite <- Hd. apply IH. rewrite Hl, !length_app in Hf. cbn in Hf |- *. lia.
Qed.

(** The scanner of a line of the body agrees with its definition by replacements, on every line. *)
Theorem dkim_body_line_exact line : canonRelaxedBodyLine line = relaxedRef line.
Proof. apply relaxedScan_exact. lia. Qed.

(** ** A header in front of a message *)

Definition plain (s : jsstr) : Prop := CR ∉ s /\ LF ∉ s.

(** A folded header: the first line and the continuation lines, each behind a tab. *)
Definition foldedText (p : jsstr) (cs : list jsstr) : jsstr := p ++ flat_map (fun c => crlf ++ 9 :: c) cs.

Lemma foldedText_cons p c cs rest : foldedText p (c :: cs) ++ rest = p ++ crlf ++ 9 :: foldedText c cs ++ rest.
Proof. unfold foldedText. cbn [flat_map]. by rewrite <- !app_assoc. Qed.

Lemma foldedText_nil p rest : foldedText p [] ++ rest = p ++ rest.
Proof. unfold foldedText. cbn [flat_map]. by rewrite app_nil_r. Qed.

Lemma plain_cons c s : plain (c :: s) -> c <> CR /\ c <> LF /\ plain s.
Proof. unfold plain. rewrite !not_elem_of_cons. intros [[? ?] [? ?]]. auto. Qed.

Lemma normalize_plain p s : plain p -> normalizeLineEndings (p ++ s) = p ++ normalizeLineEndings s.
Proof.
  induction p as [|c p IH]; [done|]. intros (H1 & H2 & Hp)%plain_cons. cbn [app normalizeLineEndings].
  apply Z.eqb_neq in H1, H2. rewrite H1, H2. by rewrite IH.
Qed.

Lemma normalize_folded p cs s : plain p -> Forall plain cs ->
  normalizeLineEndings (foldedText p cs ++ crlf ++ s) = foldedText p cs ++ crlf ++ normalizeLineEndings s.
Proof.
  intros Hp Hcs. revert p Hp. induction Hcs as [|c cs Hc Hcs IH]; intros p Hp.
  - rewrite !foldedText_nil, normalize_plain by done. done.
  - rewrite !foldedText_cons, normalize_plain by done. f_equal. change (normalizeLineEndings (crlf ++ ?x)) with (crlf ++ normalizeLineEndings x).
    cbn [app normalizeLineEndings]. by rewrite IH.
Qed.

Lemma indexOfStr_cons p c s : indexOfStr p (c :: s) = if startsWith p (c :: s) then Some 0%nat else S <$> indexOfStr p s.
Proof. cbn [indexOfStr]. destruct (startsWith p (c :: s)); [done|]. by destruct (indexOfStr p s). Qed.

Lemma indexOfStr_skip c s : c <> CR -> indexOfStr CRLFCRLF (c :: s) = S <$> indexOfStr CRLFCRLF s.
Proof.
  intros Hc. rewrite indexOfStr_cons. assert (startsWith CRLFCRLF (c :: s) = false) as ->; [|done].
  unfold CRLFCRLF. cbn [startsWith]. destruct (Z.eqb_spec 13 c); [unfold CR in Hc; congruence|done].
Qed.

Lemma indexOfStr_plain p s : CR ∉ p -> indexOfStr CRLFCRLF (p ++ s) = (fun i => (length p + i)%nat) <$> indexOfStr CRLFCRLF s.
Proof.
  induction p as [|c p IH]; [intros _; cbn; by destruct (indexOfStr _ s)|]. intros [Hc Hp]%not_elem_of_cons. cbn [app]. rewrite indexOfStr_skip by congruence.
  rewrite IH by done. by destruct (indexOfStr _ s).
Qed.

(** A line end that no other follows. *)
Lemma indexOfStr_lineEnd s : match s with c :: _ => c <> CR | [] => True end ->
  indexOfStr CRLFCRLF (crlf ++ s) = (fun i => (2 + i)%nat) <$> indexOfStr CRLFCRLF s.
Proof.
  intros Hs. unfold crlf. cbn [app]. assert (E : startsWith CRLFCRLF (CR :: LF :: s) = false).
  { destruct s as [|c s]; [done|]. change (startsWith CRLFCRLF (CR :: LF :: c :: s)) with ((13 =? c) && startsWith [LF] s).
    destruct (Z.eqb_spec 13 c); [unfold CR in Hs; congruence|done]. }
  rewrite indexOfStr_cons, E, indexOfStr_skip by done. by destruct (indexOfStr _ s).
Qed.

Lemma indexOfStr_folded p cs s : plain p -> Forall plain cs -> match s with c :: _ => c <> CR | [] => True end ->
  indexOfStr CRLFCRLF (foldedText p cs ++ crlf ++ s) = (fun i => (length (foldedText p cs ++ crlf) + i)%nat) <$> indexOfStr CRLFCRLF s.
Proof.
  intros Hp Hcs Hs. revert p Hp. induction Hcs as [|c cs Hc Hcs IH]; intros p Hp.
  - rewrite !foldedText_nil, indexOfStr_plain by apply Hp. rewrite indexOfStr_lineEnd by done. destruct (indexOfStr _ s); [|done]. cbn. f_equal. rewrite length_app. cbn. lia.
  - rewrite !foldedText_cons, indexOfStr_plain by apply Hp. rewrite indexOfStr_lineEnd by done. rewrite indexOfStr_skip by done. rewrite IH by done.
    destruct (indexOfStr _ s); [|done]. cbn [fmap option_fmap option_map]. f_equal. rewrite !length_app. cbn [length crlf]. rewrite !length_app. cbn [length crlf]. lia.
Qed.

(** A header in front of a message leaves the body alone. *)
Lemma splitMessage_folded p cs s : plain p -> Forall plain cs -> match s with c :: _ => c <> CR | [] => True end ->
  splitMessage (foldedText p cs ++ crlf ++ s) = {| headerBlock := foldedText p cs ++ crlf ++ headerBlock (splitMessage s); msgBody := msgBody (splitMessage s) |}.
Proof.
  intros Hp Hcs Hs. unfold splitMessage. rewrite indexOfStr_folded by done. destruct (indexOfStr CRLFCRLF s) as [i|]; [|done]. cbn [fmap option_fmap option_map headerBlock msgBody].
  rewrite (app_assoc (foldedText p cs)). rewrite take_app_ge, drop_app_ge by lia. rewrite <- app_assoc. repeat f_equal; lia.
Qed.

Lemma splitCRLF_plain acc p s : CR ∉ p -> splitCRLF acc (p ++ s) = splitCRLF (acc ++ p) s.
Proof.
  revert acc. induction p as [|c p IH]; intros acc; [intros _; by rewrite app_nil_r|]. intros [Hc Hp]%not_elem_of_cons. cbn [app splitCRLF].
  assert (Hcr : (c =? CR) = false) by (apply Z.eqb_neq; congruence). rewrite Hcr. cbn [andb].
  assert (E : splitCRLF (acc ++ [c]) (p ++ s) = splitCRLF (acc ++ c :: p) s) by (rewrite IH by done; by rewrite <- app_assoc). by destruct (p ++ s).
Qed.

Lemma splitCRLF_folded p cs s : plain p -> Forall plain cs ->
  splitCRLF [] (foldedText p cs ++ crlf ++ s) = p :: map (cons 9) cs ++ splitCRLF [] s.
Proof.
  intros Hp Hcs. assert (Hgen : forall acc p, plain p -> splitCRLF acc (foldedText p cs ++ crlf ++ s) = (acc ++ p) :: map (cons 9) cs ++ splitCRLF [] s); [|by apply Hgen].
  clear p Hp. induction Hcs as [|c cs Hc Hcs IH]; intros acc p Hp.
  - rewrite foldedText_nil, splitCRLF_plain by apply Hp. done.
  - rewrite foldedText_cons, splitCRLF_plain by apply Hp. change (splitCRLF (acc ++ p) (crlf ++ ?x)) with ((acc ++ p) :: splitCRLF [] x).
    f_equal. etrans; [|exact (IH [9] c Hc)]. change (9 :: foldedText c cs ++ crlf ++ s) with ([9] ++ foldedText c cs ++ crlf ++ s).
    rewrite splitCRLF_plain; [done|]. by apply lit_notin.
Qed.

Lemma foldRecords_folded p cs ls : match ls with l :: _ => startsWsp l = false | [] => True end ->
  foldRecords None (p :: map (cons 9) cs ++ ls) = foldedText p cs :: foldRecords None ls.
Proof.
  intros Hls. cbn [foldRecords]. revert p. induction cs as [|c cs IH]; intros p.
  - cbn [map app]. unfold foldedText. cbn [flat_map]. rewrite app_nil_r. destruct ls as [|l ls]; [done|]. cbn [foldRecords]. by rewrite Hls.
  - cbn [map app foldRecords startsWsp]. rewrite IH. unfold foldedText. cbn [flat_map]. by rewrite <- !app_assoc.
Qed.

Lemma splitCRLF_head acc s : exists t rest, splitCRLF acc s = (acc ++ t) :: rest.
Proof.
  remember (length s) as n eqn:Hn. assert (Hl : (length s <= n)%nat) by lia. clear Hn. revert acc s Hl.
  induction n as [|n IH]; intros acc [|c [|d s]] Hl; cbn in Hl |- *; try lia; try (exists [], []; by rewrite app_nil_r).
  - exists [c], []. done.
  - destruct (_ && _); [exists [], (splitCRLF [] s); by rewrite app_nil_r|].
    destruct (IH (acc ++ [c]) (d :: s)) as (t & rest & E); [cbn; lia|]. cbn in E. rewrite E. exists (c :: t), rest. by rewrite <- app_assoc.
Qed.

(** The header block starts with a field. *)
Definition startsVisible (s : jsstr) : Prop := match s with c :: _ => isWsp c = false /\ c <> CR /\ c <> LF | [] => False end.

Lemma parseHeaderFields_folded p cs s : plain p -> Forall plain cs -> startsVisible s ->
  parseHeaderFields (foldedText p cs ++ crlf ++ s) = match fieldOf (foldedText p cs) with Some f => [f] | None => [] end ++ parseHeaderFields s.
Proof.
  intros Hp Hcs Hs. destruct s as [|c s]; [done|]. destruct Hs as (Hw & Hcr & _). unfold parseHeaderFields at 1.
  destruct (foldedText p cs ++ crlf ++ c :: s) as [|x t] eqn:E; [by destruct (foldedText p cs)|]. rewrite <- E, splitCRLF_folded by done.
  assert (Hls : match splitCRLF [] (c :: s) with l :: _ => startsWsp l = false | [] => True end).
  { apply Z.eqb_neq in Hcr. assert (E2 : splitCRLF [] (c :: s) = splitCRLF [c] s) by (cbn [splitCRLF app]; destruct s as [|d s]; [done|]; by rewrite Hcr).
    rewrite E2. destruct (splitCRLF_head [c] s) as (t' & rest & ->). done. }
  rewrite foldRecords_folded by done. cbn [omap list_omap parseHeaderFields]. destruct (fieldOf (foldedText p cs)); done.
Qed.

(** ** Folding *)

Lemma foldTail_chunks fuel col tail : (length tail <= fuel)%nat ->
  exists c cs, foldTail fuel col tail = foldedText c cs /\ c ++ concat cs = tail.
Proof.
  revert col tail. induction fuel as [|f IH]; intros col tail Hf; [destruct tail; [by exists [], []|cbn in Hf; lia]|].
  cbn [foldTail]. destruct tail as [|x tail0] eqn:Et; [by exists [], []|]. rewrite <- Et in *. set (room := Z.to_nat _). assert (Hroom : (1 <= room)%nat) by lia.
  destruct (drop room tail) as [|y rest] eqn:Ed.
  - exists (take room tail), []. unfold foldedText. cbn [flat_map concat]. rewrite !app_nil_r. split; [done|].
    rewrite <- (take_drop room tail) at 2. by rewrite Ed, app_nil_r.
  - destruct (IH 1 (y :: rest)) as (c & cs & E & Hc).
    { pose proof (length_drop tail room) as Hl. rewrite Ed in Hl. subst tail. cbn [length] in *. lia. }
    exists (take room tail), (c :: cs). rewrite E. split; [unfold foldedText; cbn [flat_map]; by rewrite <- !app_assoc|].
    cbn [concat]. rewrite Hc, <- Ed. apply take_drop.
Qed.

Lemma foldedText_prefix p c cs : p ++ foldedText c cs = foldedText (p ++ c) cs.
Proof. unfold foldedText. by rewrite app_assoc. Qed.

(** ** Groups *)

Definition addField (groups : Groups) (f : HeaderField) : Groups := <[fieldKey f := default [] (groups !! fieldKey f) ++ [f]]> groups.

Lemma group_local fields g g' k : g !! k = g' !! k -> fold_left addField fields g !! k = fold_left addField fields g' !! k.
Proof.
  revert g g'. induction fields as [|f fields IH]; intros g g' Hg; [done|]. cbn [fold_left]. apply IH. unfold addField.
  destruct (decide (fieldKey f = k)) as [->|Hne]; [by rewrite !lookup_insert, !decide_True, Hg by done|by rewrite !lookup_insert_ne].
Qed.

Lemma group_other own fields k : fieldKey own <> k -> groupHeaderFields (own :: fields) !! k = groupHeaderFields fields !! k.
Proof. intros Hne. unfold groupHeaderFields. cbn [fold_left]. apply group_local. by rewrite lookup_insert_ne. Qed.

Lemma resolve_local g g' consumed names : (forall n, n ∈ names -> g !! toLowerCase (trim n) = g' !! toLowerCase (trim n)) ->
  resolveFrom g consumed names = resolveFrom g' consumed names.
Proof.
  revert consumed. induction names as [|n names IH]; intros consumed Hn; [done|]. cbn [resolveFrom]. rewrite (Hn n) by left. f_equal.
  apply IH. intros m Hm. apply Hn. by right.
Qed.

(** ** Tag lists *)

(** The segment of a tag, behind white space. *)
Definition segment (w : jsstr) (tv : jsstr * jsstr) : jsstr := w ++ tagText tv.

(** A name of a tag: lower case, no white space, no equal sign. *)
Definition tagName (t : jsstr) : Prop := t <> [] /\ forall c, c ∈ t -> isWs c = false /\ lowerUnit c = [c] /\ c <> 61.

Lemma trim_spaced w t : forallb isWs w = true -> t <> [] -> (forall c, c ∈ t -> isWs c = false) -> trim (w ++ t) = t.
Proof.
  intros Hw Hne Ht. unfold trim. assert (trimStart (w ++ t) = t) as ->.
  { induction w as [|c w IH]; [by apply trimStart_id|]. cbn [forallb] in Hw. apply andb_true_iff in Hw as [Hc Hw]. cbn [app trimStart]. rewrite Hc. by apply IH. }
  unfold trimEnd. rewrite trimStart_id; [apply rev_involutive|]. intros c Hc. apply Ht. by rewrite list_elem_of_In, in_rev, <- list_elem_of_In.
Qed.

Lemma trim_ne c s : c ∈ s -> isWs c = false -> trim s <> [].
Proof.
  intros Hin Hc. unfold trim, trimEnd.
  assert (Hk : forall l, c ∈ l -> c ∈ trimStart l).
  { induction l as [|x l IH]; [by intros ?%not_elem_of_nil|]. intros Hl. cbn [trimStart]. destruct (isWs x) eqn:Ex; [|done]. apply IH.
    apply elem_of_cons in Hl as [->|?]; [congruence|done]. }
  intros E. apply (f_equal (@rev Z)) in E. rewrite rev_involutive in E. cbn in E.
  assert (Hx : c ∈ trimStart (rev (trimStart s))) by (apply Hk; rewrite list_elem_of_In, <- in_rev, <- list_elem_of_In; by apply Hk).
  rewrite E in Hx. by apply not_elem_of_nil in Hx.
Qed.

Definition tagAt (offset : nat) (w : jsstr) (tv : jsstr * jsstr) : ParsedTag :=
  {| tag := tv.1; value := stripFws tv.2; rawStart := (offset + (length w + length tv.1) + 1)%nat; rawEnd := (offset + length (segment w tv))%nat |}.

Lemma parse_segment offset w tv rest : forallb isWs w = true -> tagName tv.1 ->
  parseTagSegments offset (segment w tv :: rest) = cons (tagAt offset w tv) <$> parseTagSegments (offset + length (segment w tv) + 1) rest.
Proof.
  destruct tv as [t v]. intros Hw [Hne Ht]. cbn [fst] in *. cbn [parseTagSegments]. unfold segment, tagText. cbn [fst snd]. change ([61] ++ v) with (61 :: v).
  assert (Hw61 : 61 ∉ w ++ t).
  { intros [Hin|Hin]%elem_of_app; [|by destruct (Ht _ Hin) as (_ & _ & ?)]. rewrite forallb_forall in Hw. apply list_elem_of_In, Hw in Hin. done. }
  destruct (trim (w ++ t ++ 61 :: v)) as [|x y] eqn:Etr.
  { exfalso. refine (trim_ne 61 (w ++ t ++ 61 :: v) _ eq_refl Etr). set_solver. }
  rewrite (app_assoc w t). rewrite indexOf_app_notin by done.
  rewrite take_app_length, (trim_spaced w t) by (done || (intros c Hc; by destruct (Ht c Hc) as (? & _))).
  rewrite lower_units by (intros c Hc; by destruct (Ht c Hc) as (_ & ? & _)). rewrite drop_after.
  unfold tagAt, segment, tagText. cbn [fst snd]. change ([61] ++ v) with (61 :: v). rewrite (app_assoc w t), (length_app w t).
  destruct t as [|c0 t0]; [done|]. by destruct (parseTagSegments _ rest).
Qed.

Abbreviation seg := (segment [SP]).

Fixpoint tagsFrom (offset : nat) (tvs : list (jsstr * jsstr)) : list ParsedTag :=
  match tvs with [] => [] | tv :: rest => tagAt offset [SP] tv :: tagsFrom (offset + length (seg tv) + 1) rest end.

Lemma parse_segments offset tvs : Forall (fun tv => tagName tv.1) tvs -> parseTagSegments offset (map seg tvs) = Some (tagsFrom offset tvs).
Proof.
  intros Ht. revert offset. induction Ht as [|tv tvs Htv Ht IH]; intros offset; [done|]. cbn [map]. rewrite parse_segment by done. by rewrite IH.
Qed.

Lemma find_tags offset tvs n : findTag (tagsFrom offset tvs) n = (fun tv => stripFws tv.2) <$> List.find (fun tv => tv.1 === n) tvs.
Proof.
  unfold findTag. revert offset. induction tvs as [|tv tvs IH]; intros offset; [done|]. cbn [tagsFrom List.find tagAt tag]. destruct (tv.1 === n); [done|]. apply IH.
Qed.

Lemma join_cons sep x ls : ls <> [] -> joinWith sep (x :: ls) = x ++ sep ++ joinWith sep ls.
Proof. by destruct ls. Qed.

Lemma spaced_join tvs : tvs <> [] -> SP :: joinWith (js "; ") (map tagText tvs) = joinWith [59] (map seg tvs).
Proof.
  induction tvs as [|tv tvs IH]; [done|]. intros _. destruct tvs as [|tv' tvs]; [done|]. change (map ?f (tv :: tv' :: tvs)) with (f tv :: map f (tv' :: tvs)).
  rewrite !join_cons by done. rewrite <- (IH ltac:(done)). done.
Qed.

Lemma join_tail sep ls x t : joinWith sep (ls ++ [x]) ++ t = joinWith sep (ls ++ [x ++ t]).
Proof.
  induction ls as [|y ls IH]; [done|]. cbn [app]. rewrite !join_cons by (by destruct ls). by rewrite <- !app_assoc, IH.
Qed.

Definition B : jsstr := js "b".

(** Cutting the last value out. *)
Lemma blank_last pre front v : Forall (fun tv => tv.1 <> B) front ->
  exists t, List.find (fun t => tag t === B) (tagsFrom (length pre) (front ++ [(B, v)])) = Some t /\
    let text := pre ++ joinWith [59] (map seg (front ++ [(B, v)])) in
    take (rawStart t) text ++ drop (rawEnd t) text = pre ++ joinWith [59] (map seg (front ++ [(B, [])])).
Proof.
  intros Hf. revert pre. induction Hf as [|tv front Hne Hf IH]; intros pre.
  - eexists. split; [done|]. cbn [app map joinWith]. unfold tagAt, segment, tagText. cbn [fst snd rawStart rawEnd]. cbn zeta.
    change ([SP] ++ B ++ [61] ++ v) with ((SP :: B ++ [61]) ++ v). rewrite app_assoc. change (length B) with 1%nat.
    rewrite take_app_length' by (rewrite length_app; change (length (SP :: B ++ [61])) with 3%nat; cbn [length]; lia).
    rewrite drop_ge by (rewrite !length_app; lia). by rewrite app_nil_r.
  - cbn [app]. cbn [tagsFrom List.find tagAt tag]. assert ((tv.1 === B) = false) as -> by (by apply seqb_neq).
    destruct (IH (pre ++ seg tv ++ [59])) as (t & Ht & E). exists t.
    assert (Hl : length (pre ++ seg tv ++ [59]) = (length pre + length (seg tv) + 1)%nat) by (rewrite !length_app; cbn [length]; lia). rewrite Hl in Ht. split; [done|].
    cbn zeta in *. cbn [map]. rewrite !join_cons by (by destruct front). by rewrite <- !app_assoc in E.
Qed.

(** ** Tokens *)

(** The units of the values a signature holds: visible ASCII without the semicolon. *)
Definition tokenChar (c : Z) : bool := (33 <=? c) && (c <=? 126) && negb (c =? 59).
Definition token (s : jsstr) : Prop := forall c, c ∈ s -> tokenChar c = true.

Lemma token_bounds c : tokenChar c = true -> 33 <= c <= 126 /\ c <> 59.
Proof. unfold tokenChar. intros H. bool_hyps. lia. Qed.

Lemma token_plain s : token s -> plain s.
Proof. intros Hs. split; intros Hin%Hs%token_bounds; unfold CR, LF in *; lia. Qed.

Lemma token_app a b : token a -> token b -> token (a ++ b).
Proof. unfold token. intros Ha Hb c [?|?]%elem_of_app; auto. Qed.

Lemma token_lit s : forallb tokenChar s = true -> token s.
Proof. intros H c Hc. rewrite forallb_forall in H. by apply H, list_elem_of_In. Qed.

Lemma token_join sep ls : token sep -> Forall token ls -> token (joinWith sep ls).
Proof.
  intros Hs. induction 1 as [|x ls Hx Hls IH]; [intros c ?%not_elem_of_nil; done|]. destruct ls as [|y ls]; [done|].
  change (joinWith sep (x :: y :: ls)) with (x ++ sep ++ joinWith sep (y :: ls)). auto using token_app.
Qed.

Lemma strip_token s : token s -> stripFws s = s.
Proof.
  unfold stripFws. induction s as [|c s IH]; [done|]. intros Hs. cbn [List.filter]. pose proof (token_bounds c (Hs c ltac:(by left))) as Hc.
  destruct (Z.eqb_spec c 32), (Z.eqb_spec c 9), (Z.eqb_spec c 13), (Z.eqb_spec c 10); try lia. cbn [orb negb]. f_equal. apply IH. intros d Hd. apply Hs. by right.
Qed.

Lemma strip_folded c cs : stripFws (foldedText c cs) = stripFws (c ++ concat cs).
Proof.
  unfold stripFws, foldedText. rewrite !List.filter_app. f_equal. induction cs as [|d cs IH]; [done|]. cbn [flat_map concat]. rewrite !List.filter_app, IH. done.
Qed.

Lemma base64_token bs : is_bytes bs -> token (base64Encode bs).
Proof.
  intros Hb c Hc. destruct (tokenChar c) eqn:E; [done|]. exfalso. destruct (isB64 c) eqn:Eb.
  - assert (Hr : 65 <= c <= 90 \/ 97 <= c <= 122 \/ 47 <= c <= 57 \/ c = 43).
    { unfold isB64, b64Val in Eb. destruct (Z.leb_spec 65 c), (Z.leb_spec c 90), (Z.leb_spec 97 c), (Z.leb_spec c 122), (Z.leb_spec 48 c), (Z.leb_spec c 57),
        (Z.eqb_spec c 43), (Z.eqb_spec c 47); cbn in Eb; try done; lia. }
    unfold tokenChar in E. destruct (Z.leb_spec 33 c), (Z.leb_spec c 126), (Z.eqb_spec c 59); cbn in E; try done; lia.
  - destruct (Z.eq_dec c PAD) as [->|Hp]; [done|]. by apply (base64Encode_chars bs c Hb).
Qed.

Lemma number_token n : 0 <= n -> token (numToString n).
Proof.
  intros Hn c Hc. pose proof (numToString_digits n Hn) as Hd. unfold isDigits in Hd. destruct (numToString n); [done|].
  rewrite forallb_forall in Hd. apply list_elem_of_In, Hd in Hc. unfold isDigit in Hc. unfold tokenChar. bool_hyps.
  destruct (Z.leb_spec 33 c), (Z.leb_spec c 126), (Z.eqb_spec c 59); (lia || done).
Qed.

(** The name of a header in [h=]: lower-case letters, digits and hyphens. *)
Definition nameChar (c : Z) : bool := ((97 <=? c) && (c <=? 122)) || isDigit c || (c =? 45).
Definition headerName (n : jsstr) : bool := match n with [] => false | _ => forallb nameChar n end.

Lemma nameChar_facts c : nameChar c = true -> tokenChar c = true /\ isWs c = false /\ lowerUnit c = [c] /\ c <> 58 /\ c <> 61.
Proof.
  unfold nameChar, isDigit. intros H. assert (97 <= c <= 122 \/ 48 <= c <= 57 \/ c = 45) as Hc.
  { destruct (Z.leb_spec 97 c), (Z.leb_spec c 122), (Z.leb_spec 48 c), (Z.leb_spec c 57), (Z.eqb_spec c 45); cbn in H; try done; lia. }
  clear H. unfold tokenChar, isWs, lowerUnit. repeat split; try lia;
  repeat match goal with
         | |- context [?a <=? ?b] => destruct (Z.leb_spec a b); try lia
         | |- context [?a =? ?b] => destruct (Z.eqb_spec a b); try lia
         end; done.
Qed.

Lemma headerName_facts n : headerName n = true -> n <> [] /\ token n /\ trim n = n /\ toLowerCase n = n /\ 58 ∉ n.
Proof.
  unfold headerName. destruct n as [|c n]; [done|]. intros H. rewrite forallb_forall in H.
  assert (Hc : forall d, d ∈ c :: n -> nameChar d = true) by (intros d Hd; by apply H, list_elem_of_In). split; [done|].
  split; [intros d Hd; by apply (nameChar_facts d), Hc|]. split; [apply trim_id; intros d Hd; by apply (nameChar_facts d), Hc|].
  split; [apply lower_units; intros d Hd; by apply (nameChar_facts d), Hc|]. intros Hin%Hc%nameChar_facts. by destruct Hin as (_ & _ & _ & ? & _).
Qed.

(** ** What is signed verifies *)
Section SignVerify.
Context `{NodeCrypto} `{DkimKeys}.

(** SHA-256 gives bytes. *)
Context (sha256_bytes : forall d, is_bytes (sha256 d)).

(** A private key and the public key of it: what the one signs the other accepts. *)
Record keyPair (privateKey : jsstr) (key : KeyObject) : Prop := {
  kp_sound flag d s : cryptoSign flag d privateKey = Some s -> cryptoVerify flag d key s = Some true;
  kp_bytes flag d s : cryptoSign flag d privateKey = Some s -> is_bytes s /\ s <> []
}.

(** The options a signature can be made with. *)
Record signable (opts : DkimSignOptions) (now : Z) : Prop := {
  so_domain : s_domain opts <> [] /\ token (s_domain opts);
  so_selector : s_selector opts <> [] /\ token (s_selector opts);
  so_time : 0 <= s_timestamp opts;
  so_expiration x : s_expiration opts = Some x -> 0 <= x /\ expired (numToString x) now = false;
  so_names : Forall (fun n => headerName (toLowerCase n) = true /\ toLowerCase n <> js "dkim-signature") (default DEFAULT_SIGNED_HEADERS (s_signedHeaders opts))
}.

Definition frontTags (opts : DkimSignOptions) (hNames : list jsstr) (bh : jsstr) : list (jsstr * jsstr) :=
  [(js "v", js "1"); (js "a", algorithmName (s_algorithm opts)); (js "c", canonName (s_headerCanon opts) ++ [47] ++ canonName (s_bodyCanon opts));
   (js "d", s_domain opts); (js "s", s_selector opts); (js "t", numToString (s_timestamp opts))]
  ++ match s_expiration opts with Some x => [(js "x", numToString x)] | None => [] end
  ++ [(js "h", joinWith [58] hNames); (js "bh", bh)].

Lemma signatureTags_front opts hNames bh : signatureTags opts hNames bh = frontTags opts hNames bh ++ [(B, [])].
Proof. unfold signatureTags, frontTags. by rewrite <- !app_assoc. Qed.

Section Signed.
Context (opts : DkimSignOptions) (now : Z) (Hopts : signable opts now) (groups : Groups).
Notation hNames := (signedNames groups (s_signedHeaders opts)).

Lemma names_ok : Forall (fun n => headerName n = true /\ n <> js "dkim-signature") hNames.
Proof using Hopts.
  unfold signedNames. repeat (constructor; [done|]). apply Forall_forall. intros n Hn. apply list_elem_of_In, filter_In in Hn as [Hn _].
  apply in_map_iff in Hn as (n0 & <- & Hn0). pose proof (so_names _ _ Hopts) as Hs. rewrite Forall_forall in Hs. by apply Hs, list_elem_of_In.
Qed.

Lemma names_tokens : Forall token hNames.
Proof using Hopts. eapply Forall_impl; [apply names_ok|]. intros n [Hn _]. by apply headerName_facts. Qed.

Lemma front_ok bh : token bh -> Forall (fun tv => headerName tv.1 = true /\ tv.1 <> B /\ token tv.2) (frontTags opts hNames bh).
Proof using Hopts.
  intros Hbh. unfold frontTags.
  assert (Hn : forall t v, headerName t = true -> (t === B) = false -> token v -> headerName (t, v).1 = true /\ (t, v).1 <> B /\ token (t, v).2)
    by (intros t v Ht Hb Hv; cbn; split; [done|split; [by apply seqb_neq|done]]).
  apply Forall_app. split; [|apply Forall_app; split].
  - repeat (constructor; [apply Hn; [done|done|]|]); [by apply token_lit| | | | |apply number_token, (so_time _ _ Hopts)|constructor].
    + destruct (s_algorithm opts); by apply token_lit.
    + destruct (s_headerCanon opts), (s_bodyCanon opts); by apply token_lit.
    + apply (so_domain _ _ Hopts).
    + apply (so_selector _ _ Hopts).
  - destruct (s_expiration opts) as [x|] eqn:E; [|constructor]. constructor; [apply Hn; [done|done|]|constructor]. apply number_token, (so_expiration _ _ Hopts), E.
  - constructor; [apply Hn; [done|done|]|constructor; [by apply Hn|constructor]]. apply token_join; [by apply token_lit|apply names_tokens].
Qed.

(** The tags with their last value, as the verifier reads them. *)
Lemma tags_ok bh v : token bh -> Forall (fun tv => headerName tv.1 = true) (frontTags opts hNames bh ++ [(B, v)]).
Proof using Hopts. intros Hbh. apply Forall_app. split; [|by repeat constructor]. eapply Forall_impl; [by apply front_ok|]. by intros tv (? & _). Qed.

Lemma tagText_token tv : headerName tv.1 = true -> token tv.2 -> token (tagText tv).
Proof using Type. intros Ht Hv. apply token_app; [by apply headerName_facts|]. apply token_app; [by apply token_lit|done]. Qed.

Lemma join_plain ls : Forall token ls -> plain (joinWith (js "; ") ls).
Proof using Type.
  induction 1 as [|x ls Hx Hls IH]; [split; apply not_elem_of_nil|]. destruct ls as [|y ls]; [by apply token_plain|].
  change (joinWith (js "; ") (x :: y :: ls)) with (x ++ js "; " ++ joinWith (js "; ") (y :: ls)). destruct (token_plain x Hx), IH.
  split; rewrite !elem_of_app; intros [?|[Hin|?]]; try done; revert Hin; by apply lit_notin.
Qed.

Lemma plain_app a b : plain a -> plain b -> plain (a ++ b).
Proof using Type. unfold plain. rewrite !elem_of_app. tauto. Qed.

Lemma unsigned_plain bh : token bh -> plain (unsignedText (signatureTags opts hNames bh)).
Proof using Hopts.
  intros Hbh. unfold unsignedText. rewrite signatureTags_front. apply plain_app; [split; by apply lit_notin|]. apply join_plain.
  apply Forall_map. apply Forall_app. split; [|constructor; [by apply token_lit|constructor]].
  eapply Forall_impl; [by apply front_ok|]. intros tv (? & _ & ?). by apply tagText_token.
Qed.

(** The value of the header, as one list of segments with the folded signature last. *)
Lemma unsigned_segments bh v : unsignedText (signatureTags opts hNames bh) ++ v
  = js "DKIM-Signature" ++ 58 :: joinWith [59] (map seg (frontTags opts hNames bh ++ [(B, v)])).
Proof using Type.
  unfold unsignedText. rewrite signatureTags_front. change (js "DKIM-Signature: ") with (js "DKIM-Signature" ++ [58; SP]). rewrite <- !app_assoc. f_equal.
  change ([58; SP] ++ ?x) with (58 :: SP :: x). rewrite app_comm_cons, spaced_join by (by destruct (frontTags opts hNames bh)). rewrite !map_app. cbn [map].
  change ([58] ++ ?x) with (58 :: x). cbn [app]. f_equal. by rewrite join_tail.
Qed.

Lemma segments_split bh v : token bh -> 59 ∉ v ->
  splitOn 59 (joinWith [59] (map seg (frontTags opts hNames bh ++ [(B, v)]))) = map seg (frontTags opts hNames bh ++ [(B, v)]).
Proof using Hopts.
  intros Hbh Hv. apply split_join; [by destruct (frontTags opts hNames bh)|]. apply Forall_map, Forall_app.
  assert (Hs : forall tv, headerName tv.1 = true -> 59 ∉ tv.2 -> 59 ∉ seg tv).
  { intros tv Ht Hn. unfold segment, tagText. rewrite !elem_of_app. intros [Hin|[Hin|[Hin|Hin]]]; [revert Hin; by apply lit_notin| |revert Hin; by apply lit_notin|done].
    apply headerName_facts in Ht as (_ & Ht & _). apply Ht, token_bounds in Hin. lia. }
  split; [|constructor; [by apply Hs|constructor]]. eapply Forall_impl; [by apply front_ok|]. intros tv (? & _ & Ht). apply Hs; [done|]. intros Hin%Ht%token_bounds. lia.
Qed.

Lemma headerName_tagName t : headerName t = true -> tagName t.
Proof using Type.
  intros Ht. split; [by destruct t|]. intros c Hc. unfold headerName in Ht. destruct t; [done|]. rewrite forallb_forall in Ht.
  apply list_elem_of_In, Ht, nameChar_facts in Hc. tauto.
Qed.

Definition ownField (text : jsstr) : HeaderField := {| fieldName := js "DKIM-Signature"; raw := text |}.

Lemma own_colon x : indexOf 58 (js "DKIM-Signature" ++ 58 :: x) = Some 14%nat.
Proof using Type. rewrite indexOf_app_notin by (by apply lit_notin). done. Qed.

Lemma colon_names : List.filter (fun s => negb (s === [])) (colonList (joinWith [58] hNames)) = hNames.
Proof using Hopts.
  unfold colonList. rewrite split_join; [|done|eapply Forall_impl; [apply names_ok|]; intros n [Hn _]; by apply headerName_facts].
  pose proof names_ok as Hn. revert Hn. generalize hNames. intros ls. induction 1 as [|n ls [Hn _] Hls IH]; [done|]. cbn [map List.filter].
  destruct (headerName_facts n Hn) as (Hne & _ & -> & -> & _). destruct n; [done|]. cbn [seqb negb]. by rewrite IH.
Qed.

Lemma base64_back bs : is_bytes bs -> bufferFromBase64 (base64Encode bs) = bs.
Proof using Type. intros Hb. destruct (base64_roundtrip bs Hb) as [H1 H2]. by rewrite bufferFromBase64_strict. Qed.

(** The text behind the colon, and its tags. *)
Lemma signed_value bh v (text := unsignedText (signatureTags opts hNames bh) ++ v) :
  drop (S (default 0%nat (indexOf 58 text))) text = joinWith [59] (map seg (frontTags opts hNames bh ++ [(B, v)])).
Proof using Type. unfold text. rewrite unsigned_segments, own_colon. done. Qed.

Lemma signed_parse bh v : token bh -> 59 ∉ v ->
  parseTagList (joinWith [59] (map seg (frontTags opts hNames bh ++ [(B, v)]))) = Some (tagsFrom 0 (frontTags opts hNames bh ++ [(B, v)])).
Proof using Hopts.
  intros Hbh Hv. unfold parseTagList. rewrite segments_split by done. apply parse_segments. eapply Forall_impl; [by apply tags_ok|]. intros tv. apply headerName_tagName.
Qed.

Lemma base64_present bs : bs <> [] -> present (Some (base64Encode bs)) = true.
Proof using Type. by destruct bs as [|a [|b [|c bs]]]. Qed.

(** The verifier comes to the same data. *)
Lemma plan_signed body groups' v sig :
  is_bytes sig -> sig <> [] -> stripFws v = base64Encode sig -> 59 ∉ v ->
  (forall n, n ∈ hNames -> groups' !! n = groups !! n) ->
  let bh := base64Encode (sha256 (latin1 (canonBody body (s_bodyCanon opts)))) in
  let unsigned := unsignedText (signatureTags opts hNames bh) in
  planOne (ownField (unsigned ++ v)) groups' body now =
  NeedKey (s_domain opts) (s_selector opts) (s_algorithm opts) (dataFor groups hNames (s_headerCanon opts) (ownField unsigned)) sig.
Proof using Hopts sha256_bytes.
  intros Hsb Hsne Hv H59 Hg bh unsigned. assert (Hbh : token bh) by apply base64_token, sha256_bytes.
  set (tvs := frontTags opts hNames bh ++ [(B, v)]).
  assert (Hraw : unsigned ++ v = js "DKIM-Signature" ++ 58 :: joinWith [59] (map seg tvs)) by apply unsigned_segments.
  assert (Hval : drop (S (default 0%nat (indexOf 58 (unsigned ++ v)))) (unsigned ++ v) = joinWith [59] (map seg tvs)) by exact (signed_value bh v).
  assert (Hparse : parseTagList (joinWith [59] (map seg tvs)) = Some (tagsFrom 0 tvs)) by exact (signed_parse bh v Hbh H59).
  assert (Hfind : forall n x, List.find (fun tv => tv.1 === n) tvs = Some x -> findTag (tagsFrom 0 tvs) n = Some (stripFws x.2)).
  { intros n x Hx. by rewrite find_tags, Hx. }
  assert (Hnone : forall n, List.find (fun tv => tv.1 === n) tvs = None -> findTag (tagsFrom 0 tvs) n = None) by (intros n Hx; by rewrite find_tags, Hx).
  assert (Ftok : forall n w, List.find (fun tv => tv.1 === n) tvs = Some (n, w) -> token w -> findTag (tagsFrom 0 tvs) n = Some w)
    by (intros n w Hx Hw; rewrite (Hfind _ _ Hx); cbn; by rewrite strip_token).
  assert (Fv : findTag (tagsFrom 0 tvs) (js "v") = Some (js "1")) by (apply Ftok; [done|by apply token_lit]).
  assert (Fa : findTag (tagsFrom 0 tvs) (js "a") = Some (algorithmName (s_algorithm opts))) by (apply Ftok; [done|destruct (s_algorithm opts); by apply token_lit]).
  assert (Fc : findTag (tagsFrom 0 tvs) (js "c") = Some (canonName (s_headerCanon opts) ++ [47] ++ canonName (s_bodyCanon opts)))
    by (apply Ftok; [done|destruct (s_headerCanon opts), (s_bodyCanon opts); by apply token_lit]).
  assert (Fd : findTag (tagsFrom 0 tvs) (js "d") = Some (s_domain opts)) by (apply Ftok; [done|apply (so_domain _ _ Hopts)]).
  assert (Fs : findTag (tagsFrom 0 tvs) (js "s") = Some (s_selector opts)) by (apply Ftok; [done|apply (so_selector _ _ Hopts)]).
  assert (Fh : findTag (tagsFrom 0 tvs) (js "h") = Some (joinWith [58] hNames))
    by (apply Ftok; [unfold tvs, frontTags; by destruct (s_expiration opts)|apply token_join; [by apply token_lit|apply names_tokens]]).
  assert (Fbh : findTag (tagsFrom 0 tvs) (js "bh") = Some bh) by (apply Ftok; [unfold tvs, frontTags; by destruct (s_expiration opts)|done]).
  assert (Fb : findTag (tagsFrom 0 tvs) (js "b") = Some (base64Encode sig))
    by (rewrite (Hfind _ (B, v)); [by rewrite <- Hv|unfold tvs, frontTags; by destruct (s_expiration opts)]).
  assert (Fx : match findTag (tagsFrom 0 tvs) (js "x") with Some x => expired x now | None => false end = false).
  { destruct (s_expiration opts) as [x|] eqn:Ex.
    - destruct (so_expiration _ _ Hopts x Ex) as [H1 H2]. rewrite (Ftok (js "x") (numToString x)); [done|unfold tvs, frontTags; by rewrite Ex|by apply number_token].
    - rewrite Hnone; [done|]. unfold tvs, frontTags. by rewrite Ex. }
  assert (Fl : findTag (tagsFrom 0 tvs) (js "l") = None) by (apply Hnone; unfold tvs, frontTags; by destruct (s_expiration opts)).
  assert (Fi : findTag (tagsFrom 0 tvs) (js "i") = None) by (apply Hnone; unfold tvs, frontTags; by destruct (s_expiration opts)).
  unfold planOne. cbn [ownField raw]. rewrite Hval, Hparse. cbv zeta. rewrite Fv, Fa, Fc, Fd, Fs, Fh, Fbh, Fb, Fl, Fi, Fx.
  change (js "1" === js "1") with true. cbn iota. cbn [from_option Datatypes.id].
  assert (Hpres : present (Some (algorithmName (s_algorithm opts))) && present (Some bh) && present (Some (base64Encode sig)) && present (Some (joinWith [58] hNames))
    && present (Some (s_domain opts)) && present (Some (s_selector opts)) = true).
  { destruct (so_domain _ _ Hopts) as [Hd1 _], (so_selector _ _ Hopts) as [Hs1 _]. rewrite !andb_true_iff. repeat split.
    - by destruct (s_algorithm opts).
    - unfold bh. apply base64_present. intros E. pose proof (sha256_length (latin1 (canonBody body (s_bodyCanon opts)))) as Hl. by rewrite E in Hl.
    - by apply base64_present.
    - by destruct (s_domain opts).
    - by destruct (s_selector opts). }
  rewrite Hpres. cbn [negb]. assert ((algorithmName (s_algorithm opts) === js "rsa-sha1") = false) as -> by (by destruct (s_algorithm opts)).
  assert (readAlgorithm (algorithmName (s_algorithm opts)) = Some (s_algorithm opts)) as -> by (by destruct (s_algorithm opts)).
  rewrite colon_names. change (existsb (seqb (js "from")) hNames) with true. cbn [negb].
  assert (Hcp : canonParts (canonName (s_headerCanon opts) ++ [47] ++ canonName (s_bodyCanon opts)) = (canonName (s_headerCanon opts), canonName (s_bodyCanon opts)))
    by (by destruct (s_headerCanon opts), (s_bodyCanon opts)). rewrite Hcp. cbn [fst snd].
  assert (Hrc : forall m, readCanon (canonName m) = Some m) by (by intros []). rewrite !Hrc. unfold bh at 1. rewrite (base64_back (sha256 _)) by apply sha256_bytes.
  rewrite sha256_length. change (negb (32 =? 32)%nat) with false. cbn iota. cbn [bodyForHash]. unfold bh. rewrite (base64_back (sha256 _)) by apply sha256_bytes. rewrite seqb_refl. cbn [negb].
  rewrite (base64_back sig) by done. f_equal. unfold dataFor. f_equal. f_equal.
  - unfold headerHashInput, resolveHeaderSequence. f_equal. apply resolve_local. intros n Hn.
    pose proof names_ok as Hok. rewrite Forall_forall in Hok. destruct (Hok n Hn) as [Hh _]. destruct (headerName_facts n Hh) as (_ & _ & -> & -> & _). by apply Hg.
  - f_equal. f_equal. unfold blanked. cbn [ownField raw fieldName]. rewrite Hval, Hraw, own_colon. cbn [from_option Datatypes.id].
    destruct (blank_last [] (frontTags opts hNames bh) v) as (t & Ht & Hb).
    { eapply Forall_impl; [by apply front_ok|]. by intros tv (_ & ? & _). }
    cbn [length app] in Ht, Hb. change (js "b") with B. unfold tvs. rewrite Ht. cbv zeta in Hb. rewrite Hb.
    unfold ownField. f_equal. pose proof (unsigned_segments bh []) as Hu. rewrite app_nil_r in Hu. unfold unsigned. rewrite Hu.
    rewrite take_app_length' by done. done.
Qed.
End Signed.

(** The published record gives the key. *)
Lemma key_record_passes a pub key privateKey domain selector data sig :
  is_bytes pub -> pub <> [] -> dkimPublicKey pub a = inr key -> keyPair privateKey key -> signDkimData data a privateKey = Some sig ->
  tryKeyRecord (dnsRecord a pub) domain selector a data sig = makeResult domain selector DkimPass None (Some false).
Proof using Type.
  intros Hb Hne Hkey Hpair Hsig. set (p64 := base64Encode pub). assert (Hp : token p64) by (by apply base64_token).
  set (kname := match a with RsaSha256 => js "rsa" | Ed25519Sha256 => js "ed25519" end).
  assert (Hk : token kname) by (unfold kname; destruct a; by apply token_lit).
  set (segs := [segment [] (js "v", js "DKIM1"); seg (js "k", kname); seg (js "p", p64)]).
  assert (Hrec : dnsRecord a pub = joinWith [59] segs).
  { unfold dnsRecord, segs, segment, tagText. cbn [fst snd joinWith]. fold kname p64. change (js "v=DKIM1; k=") with (js "v" ++ [61] ++ js "DKIM1" ++ [59] ++ [SP] ++ js "k" ++ [61]).
    change (js "; p=") with ([59] ++ [SP] ++ js "p" ++ [61]). cbn [app]. by rewrite <- !app_assoc. }
  assert (Hparse : exists t1 t2 t3, parseTagList (dnsRecord a pub) = Some [t1; t2; t3] /\ tag t1 = js "v" /\ value t1 = js "DKIM1" /\
    tag t2 = js "k" /\ value t2 = kname /\ tag t3 = js "p" /\ value t3 = p64).
  { unfold parseTagList. rewrite Hrec, split_join; [|done|].
    - unfold segs. rewrite !parse_segment by (done || by apply headerName_tagName). eexists _, _, _. split; [done|]. cbn [tagAt tag value fst snd].
      by rewrite !strip_token by (done || by apply token_lit).
    - assert (Hs : forall w t v, bool_decide (59 ∈ w ++ t ++ [61]) = false -> 59 ∉ v -> 59 ∉ segment w (t, v)).
      { intros w t v Hw Hv. apply bool_decide_eq_false in Hw. unfold segment, tagText. cbn [fst snd]. rewrite !elem_of_app in *. tauto. }
      unfold segs. constructor; [by apply lit_notin|]. constructor; [apply Hs; [done|]; intros Hin%Hk%token_bounds; lia|].
      constructor; [apply Hs; [done|]; intros Hin%Hp%token_bounds; lia|constructor]. }
  destruct Hparse as (t1 & t2 & t3 & Hparse & T1 & V1 & T2 & V2 & T3 & V3). unfold tryKeyRecord. rewrite Hparse.
  assert (F : forall n, findTag [t1; t2; t3] n = if js "v" === n then Some (js "DKIM1") else if js "k" === n then Some kname else if js "p" === n then Some p64 else None).
  { intros n. unfold findTag. cbn [List.find]. rewrite T1, T2, T3. destruct (js "v" === n); [by rewrite <- V1|]. destruct (js "k" === n); [by rewrite <- V2|].
    destruct (js "p" === n); [by rewrite <- V3|done]. }
  rewrite !F. change (js "v" === js "v") with true. change (js "v" === js "p") with false. change (js "k" === js "p") with false. change (js "p" === js "p") with true.
  change (js "v" === js "h") with false. change (js "k" === js "h") with false. change (js "p" === js "h") with false.
  change (js "v" === js "t") with false. change (js "k" === js "t") with false. change (js "p" === js "t") with false.
  change (js "v" === js "k") with false. change (js "k" === js "k") with true. change (js "DKIM1" === js "DKIM1") with true. cbn iota zeta. cbn [from_option Datatypes.id].
  assert (Hpne : p64 <> []) by (unfold p64; by destruct pub as [|x [|y [|z pub]]]). destruct p64 as [|c0 r0] eqn:Ep; [done|]. rewrite <- Ep.
  fold kname. rewrite (seqb_refl kname). cbn [negb]. assert (Hb64 : bufferFromBase64 p64 = pub) by (by apply base64_back). rewrite Hb64, Hkey.
  assert (verifyDkimData data a key sig = Some true) as -> by (destruct a; cbn in Hsig |- *; by eapply kp_sound). reflexivity.
Qed.

Lemma normalize_head c r : c <> CR -> c <> LF -> exists r', normalizeLineEndings (c :: r) = c :: r'.
Proof using Type. intros H1%Z.eqb_neq H2%Z.eqb_neq. cbn. rewrite H1, H2. eauto. Qed.

Lemma headerBlock_head c r : c <> CR -> exists r', headerBlock (splitMessage (c :: r)) = c :: r'.
Proof using Type.
  intros Hc. unfold splitMessage. rewrite indexOfStr_skip by done. destruct (indexOfStr CRLFCRLF r); cbn [fmap option_fmap option_map headerBlock take]; eauto.
Qed.

Lemma own_fieldOf x : fieldOf (js "DKIM-Signature" ++ 58 :: x) = Some (ownField (js "DKIM-Signature" ++ 58 :: x)).
Proof using Type. unfold fieldOf. rewrite own_colon. rewrite (take_app_length' (js "DKIM-Signature") _ 14) by done. done. Qed.

Lemma elem_of_concat_list (x : Z) d ds : d ∈ ds -> x ∈ d -> x ∈ concat ds.
Proof using Type. intros Hd Hx. apply list_elem_of_In, in_concat. exists d. split; by apply list_elem_of_In. Qed.

Lemma folded_chunks c cs : token (c ++ concat cs) -> plain c /\ Forall plain cs /\ 59 ∉ foldedText c cs.
Proof using Type.
  intros Ht. assert (Hc : token c) by (intros x Hx; apply Ht, elem_of_app; by left).
  assert (Hcs : forall d, d ∈ cs -> token d) by (intros d Hd x Hx; apply Ht, elem_of_app; right; by eapply elem_of_concat_list).
  split; [by apply token_plain|]. split; [apply Forall_forall; intros d Hd; by apply token_plain, Hcs|].
  unfold foldedText. intros [Hin%Hc%token_bounds|Hin]%elem_of_app; [lia|]. apply list_elem_of_In, in_flat_map in Hin as (d & Hd & Hin).
  apply list_elem_of_In in Hd, Hin. apply elem_of_app in Hin as [Hin|[?|Hin]%elem_of_cons]; [revert Hin; by apply lit_notin|done|]. apply (Hcs d Hd), token_bounds in Hin. lia.
Qed.

(** A signature in front of a message is the first that is verified, over the message's own headers and body. *)
Lemma verify_prepended p cs x message resolveTxt now r n :
  plain p -> Forall plain cs -> startsVisible message -> foldedText p cs = js "DKIM-Signature" ++ 58 :: x ->
  let m := splitMessage (normalizeLineEndings message) in
  let own := ownField (foldedText p cs) in
  verifyOne resolveTxt own (groupHeaderFields (own :: parseHeaderFields (headerBlock m))) (msgBody m) now 0 = (r, n) ->
  exists rest n', dkimVerify (foldedText p cs ++ crlf ++ message) resolveTxt now = (withAlgorithm own r :: rest, n').
Proof using Type.
  intros Hp Hcs Hvis Hx m own Hone. destruct message as [|c0 r0]; [done|]. destruct Hvis as (Hw & Hcr & Hlf).
  destruct (normalize_head c0 r0 Hcr Hlf) as [N HN]. destruct (headerBlock_head c0 N Hcr) as [h Hh]. unfold dkimVerify.
  rewrite normalize_folded by done. rewrite splitMessage_folded by (done || by rewrite HN). cbn [headerBlock msgBody]. fold m.
  assert (Hfields : parseHeaderFields (foldedText p cs ++ crlf ++ headerBlock m) = own :: parseHeaderFields (headerBlock m)).
  { rewrite parseHeaderFields_folded; [by rewrite Hx, own_fieldOf; unfold own; rewrite Hx|done|done|]. unfold m. rewrite HN, Hh. done. }
  rewrite Hfields. assert (Hk : (fieldKey own === js "dkim-signature") = true) by done. cbn [List.filter]. rewrite Hk. cbn [MAX_DKIM_SIGNATURES take verifyAll].
  rewrite Hone. destruct (verifyAll _ _ _ _ _ n) as [rs n']. eexists _, _. cbn [app]. reflexivity.
Qed.

Lemma own_algorithm opts now groups bh v r : signable opts now -> token bh -> 59 ∉ v ->
  withAlgorithm (ownField (unsignedText (signatureTags opts (signedNames groups (s_signedHeaders opts)) bh) ++ v)) r = r <| v_algorithm := Some (s_algorithm opts) |>.
Proof using Type.
  intros Hopts Hbh H59. unfold withAlgorithm. cbn [ownField raw]. rewrite signed_value, (signed_parse opts now) by done. cbn [mbind option_bind]. rewrite find_tags.
  assert (E : List.find (fun tv => tv.1 === js "a") (frontTags opts (signedNames groups (s_signedHeaders opts)) bh ++ [(B, v)]) = Some (js "a", algorithmName (s_algorithm opts)))
    by done. rewrite E. cbn [fmap option_fmap option_map mbind option_bind snd]. by destruct (s_algorithm opts).
Qed.

(** C29: What is signed verifies: the header that [dkimSign] makes, put in front of the message, passes, for
    the domain and selector of the options, when the DNS has the record of the public key.  The message
    starts with a header line; everything else about it is arbitrary: line ends, folding, 8-bit bytes,
    other signatures, no body at all. *)
Theorem dkim_sign_verify message opts line resolveTxt now pub key :
  dkimSign message opts = Some line -> signable opts now -> startsVisible message ->
  resolveTxt 0%nat (s_selector opts ++ js "._domainkey." ++ s_domain opts) = Found [dnsRecord (s_algorithm opts) pub] ->
  is_bytes pub -> pub <> [] -> dkimPublicKey pub (s_algorithm opts) = inr key -> keyPair (s_privateKey opts) key ->
  exists rest n, dkimVerify (line ++ crlf ++ message) resolveTxt now =
    ({| v_domain := s_domain opts; v_selector := s_selector opts; v_result := DkimPass; v_error := None; v_testing := Some false;
        v_algorithm := Some (s_algorithm opts) |} :: rest, n).
Proof using sha256_bytes.
  intros Hsign Hopts Hvis Hdns Hpub Hpne Hkey Hpair. unfold dkimSign in Hsign.
  set (m := splitMessage (normalizeLineEndings message)) in *. set (fields := parseHeaderFields (headerBlock m)) in *. set (groups := groupHeaderFields fields) in *.
  destruct (hasGroup groups (js "from")); [cbn [negb] in Hsign|done]. cbv zeta in Hsign. set (hNames := signedNames groups (s_signedHeaders opts)) in *.
  set (bh := base64Encode (sha256 _)) in *. assert (Hbh : token bh) by apply base64_token, sha256_bytes. set (unsigned := unsignedText _) in *.
  destruct (signDkimData _ _ _) as [sig|] eqn:Esig; [|done].
  assert (line = unsigned ++ foldSignatureTail (len unsigned) (base64Encode sig)) as -> by (cbn [mbind option_bind] in Hsign; congruence). clear Hsign.
  assert (Hsig : is_bytes sig /\ sig <> []) by (destruct (s_algorithm opts); cbn in Esig; by eapply kp_bytes). destruct Hsig as [Hsb Hsne].
  destruct (foldTail_chunks _ (len unsigned) (base64Encode sig) (Nat.le_refl _)) as (c & cs & Efold & Hcs). fold (foldSignatureTail (len unsigned) (base64Encode sig)) in Efold.
  rewrite Efold. assert (Htok : token (c ++ concat cs)) by (rewrite Hcs; by apply base64_token). destruct (folded_chunks c cs Htok) as (Hcp & Hcsp & H59).
  assert (Hv : stripFws (foldedText c cs) = base64Encode sig) by (rewrite strip_folded, Hcs; by apply strip_token, base64_token).
  assert (Hx : foldedText (unsigned ++ c) cs = js "DKIM-Signature" ++ 58 :: joinWith [59] (map seg (frontTags opts hNames bh ++ [(B, foldedText c cs)])))
    by (rewrite <- foldedText_prefix; apply unsigned_segments).
  assert (Hpl : plain (unsigned ++ c)) by (apply plain_app; [by eapply unsigned_plain|done]).
  rewrite foldedText_prefix.
  pose proof (verify_prepended (unsigned ++ c) cs _ message resolveTxt now (makeResult (s_domain opts) (s_selector opts) DkimPass None (Some false)) 1 Hpl Hcsp Hvis Hx) as Hver.
  cbv zeta in Hver. fold m in Hver. destruct Hver as (rest & n' & ->); rewrite <- foldedText_prefix.
  - unfold verifyOne. rewrite (plan_signed opts now Hopts groups (msgBody m) _ (foldedText c cs) sig) by (try done; intros n Hn; apply group_other;
      pose proof (names_ok opts now Hopts groups) as Hok; rewrite Forall_forall in Hok; destruct (Hok n Hn) as [_ Hne]; by intros E; apply Hne).
    rewrite Hdns. cbn [keyCandidates map]. rewrite (key_record_passes _ pub key (s_privateKey opts)) by done. done.
  - eexists _, _. by rewrite (own_algorithm opts now groups bh (foldedText c cs) _ Hopts Hbh H59 : withAlgorithm (ownField (unsigned ++ foldedText c cs)) _ = _).
Qed.
End SignVerify.

(** ** Oversigning *)

Lemma group_spec fields k : default [] (groupHeaderFields fields !! k) = List.filter (fun f => fieldKey f === k) fields.
Proof.
  unfold groupHeaderFields. change (fun groups f => <[fieldKey f := default [] (groups !! fieldKey f) ++ [f]]> groups) with addField.
  enough (Hg : forall g, default [] (fold_left addField fields g !! k) = default [] (g !! k) ++ List.filter (fun f => fieldKey f === k) fields) by apply Hg.
  induction fields as [|f fields IH]; intros g; cbn [fold_left List.filter]; [by rewrite app_nil_r|]. rewrite IH. unfold addField.
  destruct (seqb_spec (fieldKey f) k) as [->|Hne]; [rewrite lookup_insert, decide_True by done; cbn; by rewrite <- app_assoc|by rewrite lookup_insert_ne].
Qed.

(** [resolveFrom] looks at the lists of the names only. *)
Lemma resolve_lists g g' consumed names : (forall n, n ∈ names -> default [] (g !! toLowerCase (trim n)) = default [] (g' !! toLowerCase (trim n))) ->
  resolveFrom g consumed names = resolveFrom g' consumed names.
Proof.
  revert consumed. induction names as [|n names IH]; intros consumed Hn; [done|]. cbn [resolveFrom]. rewrite (Hn n) by left. f_equal.
  apply IH. intros m Hm. apply Hn. by right.
Qed.

Definition FROM : jsstr := js "from".

(** What [h=] with From twice takes: the two lowest From fields, from the bottom up. *)
Lemma resolve_from_twice groups names :
  resolveHeaderSequence groups (FROM :: FROM :: names)
  = (let l := default [] (groups !! FROM) in
     match rev l with [] => [None; None] | [f] => [Some f; None] | f :: g :: _ => [Some f; Some g] end)
    ++ resolveFrom groups {[FROM := 2%nat]} names.
Proof.
  unfold resolveHeaderSequence. cbn [resolveFrom]. change (toLowerCase (trim FROM)) with FROM. rewrite lookup_empty, lookup_insert, decide_True by done. cbn [from_option Datatypes.id].
  rewrite insert_insert, decide_True by done. change (<[FROM:=2%nat]> ∅) with ({[FROM := 2%nat]} : gmap jsstr nat). cbv zeta.
  destruct (rev (default [] (groups !! FROM))) as [|f [|g l]] eqn:E; apply (f_equal (@rev _)) in E; rewrite rev_involutive in E; rewrite E; [done|done|].
  cbn [rev]. rewrite <- app_assoc. cbn [app]. rewrite !length_app. cbn [length]. rewrite (proj2 (Nat.ltb_lt 0 _)), (proj2 (Nat.ltb_lt 1 _)) by lia.
  replace (length (rev l) + 2 - 1 - 0)%nat with (length (rev l) + 1)%nat by lia. replace (length (rev l) + 2 - 1 - 1)%nat with (length (rev l) + 0)%nat by lia.
  rewrite !lookup_app_r by lia. replace (length (rev l) + 1 - length (rev l))%nat with 1%nat by lia. by replace (length (rev l) + 0 - length (rev l))%nat with 0%nat by lia.
Qed.

Definition canonOpt (mode : DkimCanonMode) (f : option HeaderField) : jsstr := match f with Some f => canonHeaderField f mode | None => [] end.

Lemma canon_length_pos f mode : (2 <= length (canonHeaderField f mode))%nat.
Proof. unfold canonHeaderField. destruct mode; [destruct (indexOf 58 (raw f))|]; rewrite ?length_app; cbn [length]; rewrite ?length_app; cbn [length crlf]; lia. Qed.

(** A From header that is added to a signed message, wherever, is seen: what is verified is then not
    what was signed, but longer. *)
Theorem dkim_oversign pre post added f names own mode :
  fieldKey added = FROM -> List.filter (fun x => fieldKey x === FROM) (pre ++ post) = [f] -> Forall (fun n => toLowerCase (trim n) <> FROM) names ->
  (length (dataFor (groupHeaderFields (pre ++ post)) (FROM :: FROM :: names) mode own)
   < length (dataFor (groupHeaderFields (pre ++ added :: post)) (FROM :: FROM :: names) mode own))%nat.
Proof.
  intros Hk Hone Hnames. unfold dataFor, headerHashInput, latin1. rewrite !length_map, !length_app, !resolve_from_twice, !flat_map_app, !length_app.
  assert (Hrest : resolveFrom (groupHeaderFields (pre ++ added :: post)) {[FROM := 2%nat]} names = resolveFrom (groupHeaderFields (pre ++ post)) {[FROM := 2%nat]} names).
  { apply resolve_lists. intros n Hn. rewrite !group_spec, !List.filter_app. cbn [List.filter]. rewrite Forall_forall in Hnames. specialize (Hnames n Hn).
    assert ((fieldKey added === toLowerCase (trim n)) = false) as -> by (apply seqb_neq; congruence). done. }
  rewrite Hrest, !group_spec, Hone, List.filter_app. cbn [List.filter]. rewrite Hk, seqb_refl. rewrite List.filter_app in Hone. cbv zeta.
  pose proof (canon_length_pos added mode) as Hpos.
  destruct (List.filter (fun x => fieldKey x === FROM) pre) as [|p0 pre'].
  - cbn [app] in *. rewrite Hone. cbn. rewrite !app_nil_r, length_app. lia.
  - injection Hone as <- Hn. apply app_eq_nil in Hn as [-> ->]. cbn. rewrite !app_nil_r, length_app. lia.
Qed.

(** ** Bounds *)

Section Bounds.
Context `{NodeCrypto} `{DkimKeys}.

Lemma verifyAll_bound resolveTxt fields groups body now asked :
  length (verifyAll resolveTxt fields groups body now asked).1 = length fields /\
  ((verifyAll resolveTxt fields groups body now asked).2 <= asked + length fields)%nat.
Proof.
  revert asked. induction fields as [|f fields IH]; intros asked; cbn [verifyAll length]; [cbn; lia|].
  assert (Ho : ((verifyOne resolveTxt f groups body now asked).2 <= S asked)%nat) by (unfold verifyOne; destruct (planOne f groups body now); cbn; lia).
  destruct (verifyOne _ f _ _ _ _) as [r n]. specialize (IH n). destruct (verifyAll _ _ _ _ _ n) as [rs n']. cbn in *. lia.
Qed.

(** Whatever the message holds, the verifier asks the DNS at most ten times, and reports at most eleven
    results: ten signatures, and that there were more. *)
Theorem dkim_query_bound message resolveTxt now :
  (length (dkimVerify message resolveTxt now).1 <= 11)%nat /\ (snd (dkimVerify message resolveTxt now) <= 10)%nat.
Proof.
  unfold dkimVerify. set (m := splitMessage _). set (fields := parseHeaderFields _). set (sigs := List.filter _ fields).
  destruct (verifyAll_bound resolveTxt (take MAX_DKIM_SIGNATURES sigs) (groupHeaderFields fields) (msgBody m) now 0) as [H1 H2].
  destruct (verifyAll _ _ _ _ _ _) as [rs n]. cbn [fst snd] in *. rewrite length_take in H1, H2. unfold MAX_DKIM_SIGNATURES in *. rewrite length_app.
  split; [case_match; cbn [length]; lia|lia].
Qed.
End Bounds.

(** ** What a pass is worth *)

Section Pass.
Context `{NodeCrypto} `{DkimKeys}.

(** A signature field of the message whose signature a key checks that is published for its domain and
    selector. *)
Definition authentic (message : bytes) (resolveTxt : nat -> jsstr -> Answer (list jsstr)) (now : Z) (d : jsstr) : Prop :=
  let m := splitMessage (normalizeLineEndings message) in
  let fields := parseHeaderFields (headerBlock m) in
  exists field s alg data sig, field ∈ fields /\ fieldKey field = js "dkim-signature" /\
    planOne field (groupHeaderFields fields) (msgBody m) now = NeedKey d s alg data sig /\
    exists n recs record tags p key, resolveTxt n (s ++ js "._domainkey." ++ d) = Found recs /\ record ∈ keyCandidates recs /\
      parseTagList record = Some tags /\ findTag tags (js "p") = Some p /\
      dkimPublicKey (bufferFromBase64 p) alg = inr key /\ verifyDkimData data alg key sig = Some true.

Lemma tryKey_pass record domain selector alg data sig : v_result (tryKeyRecord record domain selector alg data sig) = DkimPass ->
  exists tags p key, parseTagList record = Some tags /\ findTag tags (js "p") = Some p /\ dkimPublicKey (bufferFromBase64 p) alg = inr key /\
    verifyDkimData data alg key sig = Some true.
Proof.
  unfold tryKeyRecord. cbv zeta. destruct (parseTagList record) as [tags|]; [|done]. destruct (match findTag tags (js "v") with Some _ => _ | None => _ end); [done|].
  destruct (findTag tags (js "p")) as [[|x p]|] eqn:Ep; [done| |done]. destruct (match findTag tags (js "h") with Some _ => _ | None => _ end); [done|].
  destruct (negb _); [done|]. destruct (dkimPublicKey _ alg) as [e|key] eqn:Ek; [done|]. destruct (verifyDkimData data alg key sig) as [[|]|] eqn:Ev; try done.
  intros _. by exists tags, (x :: p), key.
Qed.

Lemma firstDecided_pass last rs : v_result (firstDecided last rs) = DkimPass -> v_result last = DkimPass \/ firstDecided last rs ∈ rs.
Proof.
  revert last. induction rs as [|r rs IH]; intros last; cbn [firstDecided]; [by left|]. destruct (v_result r) eqn:Er; intros Hp; try (right; left; done);
    (destruct (IH r Hp) as [Hr|Hr]; [congruence|right; by right]).
Qed.

Lemma tryKey_names record domain selector alg data sig :
  v_domain (tryKeyRecord record domain selector alg data sig) = domain.
Proof. unfold tryKeyRecord. cbv zeta. by repeat case_match. Qed.

Lemma bodyForHash_not_pass body mode l o e : bodyForHash body mode l = inl (o, e) -> o <> DkimPass.
Proof. unfold bodyForHash. cbv zeta. repeat case_match; intros; by simplify_eq. Qed.

Lemma verifyOne_pass resolveTxt field groups body now n :
  v_result (verifyOne resolveTxt field groups body now n).1 = DkimPass ->
  exists s alg data sig, planOne field groups body now = NeedKey (v_domain (verifyOne resolveTxt field groups body now n).1) s alg data sig /\
    exists recs record tags p key, resolveTxt n (s ++ js "._domainkey." ++ v_domain (verifyOne resolveTxt field groups body now n).1) = Found recs /\
      record ∈ keyCandidates recs /\ parseTagList record = Some tags /\ findTag tags (js "p") = Some p /\
      dkimPublicKey (bufferFromBase64 p) alg = inr key /\ verifyDkimData data alg key sig = Some true.
Proof.
  unfold verifyOne. destruct (planOne field groups body now) as [r|d s alg data sig] eqn:Ep.
  - cbn. intros Hr. exfalso. unfold planOne in Ep. cbv zeta in Ep. revert Ep Hr. repeat (case_match; try (intros [= <-]; done)); try done.
    all: intros [= <-]; cbn; by eapply bodyForHash_not_pass.
  - destruct (resolveTxt n _) as [recs| |e] eqn:Et; cbn [fst]; [|done|done]. intros Hr.
    destruct (firstDecided_pass _ _ Hr) as [?|Hin]; [done|]. apply list_elem_of_fmap in Hin as (record & E & Hin). rewrite E in *. rewrite tryKey_names.
    apply tryKey_pass in Hr as (tags & p & key & ? & ? & ? & ?). exists s, alg, data, sig. split; [done|]. exists recs, record, tags, p, key. done.
Qed.

Lemma dkim_pass_authentic message resolveTxt now r :
  r ∈ (dkimVerify message resolveTxt now).1 -> v_result r = DkimPass -> authentic message resolveTxt now (v_domain r).
Proof.
  unfold dkimVerify, authentic. cbv zeta. set (m := splitMessage _). set (fields := parseHeaderFields _). set (sigs := List.filter _ fields).
  assert (Hsigs : forall f, f ∈ take MAX_DKIM_SIGNATURES sigs -> f ∈ fields /\ fieldKey f = js "dkim-signature").
  { intros f Hf%elem_of_take. destruct Hf as (i & Hf & _). apply list_elem_of_lookup_2 in Hf. apply list_elem_of_In, filter_In in Hf as [Hf1 Hf2].
    split; [by apply list_elem_of_In|by apply seqb_eq]. }
  revert Hsigs. generalize (take MAX_DKIM_SIGNATURES sigs). intros fs Hfs Hr Hp.
  assert (Hall : forall fs asked, (forall f, f ∈ fs -> f ∈ fields /\ fieldKey f = js "dkim-signature") ->
    r ∈ (verifyAll resolveTxt fs (groupHeaderFields fields) (msgBody m) now asked).1 ->
    exists f n r0, f ∈ fields /\ fieldKey f = js "dkim-signature" /\ (verifyOne resolveTxt f (groupHeaderFields fields) (msgBody m) now n).1 = r0 /\ r = withAlgorithm f r0).
  { clear. induction fs as [|f fs IH]; intros asked Hfs; cbn [verifyAll]; [by intros ?%not_elem_of_nil|].
    destruct (verifyOne resolveTxt f _ _ _ asked) as [r0 n] eqn:Eo. specialize (IH n (fun f' Hf' => Hfs f' ltac:(by right))).
    destruct (verifyAll _ fs _ _ _ n) as [rs n']. cbn [fst] in *. intros [->|Hin]%elem_of_cons; [|by apply IH].
    destruct (Hfs f ltac:(by left)) as [? ?]. exists f, asked, r0. rewrite Eo. done. }
  destruct (verifyAll _ fs _ _ _ 0) as [rs n] eqn:Eall. cbn [fst] in Hr. apply elem_of_app in Hr as [Hr|Hr].
  - destruct (Hall fs 0%nat Hfs) as (f & n0 & r0 & Hf & Hk & Ho & ->); [by rewrite Eall|].
    assert (Hw : v_result (withAlgorithm f r0) = v_result r0 /\ v_domain (withAlgorithm f r0) = v_domain r0) by (unfold withAlgorithm; by case_match).
    destruct Hw as [W1 W2]. rewrite W1 in Hp. rewrite W2. subst r0. apply verifyOne_pass in Hp as (s & alg & data & sig & Hplan & Hkey).
    exists f, s, alg, data, sig. split; [done|]. split; [done|]. split; [done|]. by exists n0.
  - case_match; [|by apply not_elem_of_nil in Hr]. apply list_elem_of_singleton in Hr as ->. done.
Qed.
End Pass.

(** ** Examples *)

(** A toy scheme: the signature is a digest of the key and the data. *)
Definition toySignature (flag : bool) (d key : bytes) : bytes := toyDigest ((if flag then 1 else 0) :: key ++ d).

Definition toyDkimKeys : DkimKeys :=
  {| KeyObject := bytes; spkiKey := fun b => Some b; jwkEd25519Key := fun b => Some b; modulusLength := fun _ => Some 2048;
     cryptoSign := fun flag d k => Some (toySignature flag d k); cryptoVerify := fun flag d k s => Some (s === toySignature flag d k) |}.

Lemma toyPair k : @keyPair toyDkimKeys k k.
Proof.
  assert (Hs : forall flag d s, @cryptoSign toyDkimKeys flag d k = Some s -> s = toySignature flag d k) by (intros flag d s E; symmetry; by injection E).
  split; intros flag d s ->%Hs; [cbn [cryptoVerify toyDkimKeys]; by rewrite seqb_refl|]. unfold toySignature. split; [apply toyDigest_bytes|].
  intros E. apply (f_equal (@length Z)) in E. by rewrite toyDigest_length in E.
Qed.

Definition toyOptions : DkimSignOptions :=
  {| s_domain := js "example.org"; s_selector := js "s1"; s_privateKey := js "secret"; s_algorithm := RsaSha256; s_headerCanon := CanonRelaxed; s_bodyCanon := CanonSimple;
     s_signedHeaders := None; s_timestamp := 1700000000; s_expiration := Some 1800000000 |}.

Lemma toyOptions_signable : signable toyOptions 1750000000000.
Proof.
  split; [split; [done|by apply token_lit]|split; [done|by apply token_lit]|done| |].
  - intros x [= <-]. split; [done|by vm_compute].
  - cbn [s_signedHeaders toyOptions from_option]. unfold DEFAULT_SIGNED_HEADERS. repeat (constructor; [split; [by vm_compute|by apply seqb_neq]|]). constructor.
Qed.

(** Bare line feeds, a folded header and white space at the end of the body. *)
Definition toyMail : bytes :=
  js "Subject: a" ++ [LF] ++ js "  folded" ++ [LF] ++ js "From: x@example.org" ++ crlf ++ js "To: y@test" ++ [LF; LF] ++ js "Hello  " ++ [LF; LF; LF].

Lemma dkim_sign_verify_witness : exists line rest n,
  @dkimSign toyCrypto toyDkimKeys toyMail toyOptions = Some line /\
  @dkimVerify toyCrypto toyDkimKeys (line ++ crlf ++ toyMail) (fun _ _ => Found [dnsRecord RsaSha256 (js "secret")]) 1750000000000 =
    ({| v_domain := js "example.org"; v_selector := js "s1"; v_result := DkimPass; v_error := None; v_testing := Some false; v_algorithm := Some RsaSha256 |} :: rest, n).
Proof.
  assert (Hs : exists line, @dkimSign toyCrypto toyDkimKeys toyMail toyOptions = Some line) by (eexists; vm_compute; reflexivity). destruct Hs as [line Hs].
  destruct (@dkim_sign_verify toyCrypto toyDkimKeys toyDigest_bytes toyMail toyOptions line (fun _ _ => Found [dnsRecord RsaSha256 (js "secret")]) 1750000000000
    (js "secret") (js "secret") Hs toyOptions_signable) as (rest & n & E).
  - vm_compute. repeat split; discriminate.
  - reflexivity.
  - repeat constructor; unfold is_byte; lia.
  - discriminate.
  - reflexivity.
  - apply toyPair.
  - exists line, rest, n. split; [exact Hs|exact E].
Defined.

Lemma dkim_oversign_witness :
  let f := {| fieldName := js "From"; raw := js "From: me" |} in let x := {| fieldName := js "FROM"; raw := js "FROM:you" |} in
  (length (dataFor (groupHeaderFields [f]) (FROM :: FROM :: [js "to"]) CanonRelaxed f)
   < length (dataFor (groupHeaderFields [x; f]) (FROM :: FROM :: [js "to"]) CanonRelaxed f))%nat.
Proof.
  apply (dkim_oversign [] [{| fieldName := js "From"; raw := js "From: me" |}] {| fieldName := js "FROM"; raw := js "FROM:you" |} {| fieldName := js "From"; raw := js "From: me" |});
    [reflexivity|reflexivity|constructor; [by apply seqb_neq|constructor]].
Defined.

(** Gap: the relaxed form of a header ends in [trim()], which also takes the byte 160, the last byte of
    many UTF-8 characters.  RFC 6376 takes spaces and tabs only, so other verifiers and signers come to
    another form, and a header that loses this byte on the way still verifies. *)
Example dkim_relaxed_trims_byte : let subject v := {| fieldName := js "Subject"; raw := js "Subject: " ++ v |} in
  canonHeaderField (subject [234; 176; 160]) CanonRelaxed = js "subject:" ++ [234; 176] ++ crlf /\
  canonHeaderField (subject [234; 176; 160]) CanonRelaxed = canonHeaderField (subject [234; 176]) CanonRelaxed.
Proof. vm_compute. done. Qed.

(** Gap: the header block of a message that starts with an empty line is read and signed; with the
    signature in front of it the block ends at that line, From is in the body, and the signature fails. *)
Example dkim_blank_first_line :
  let mail := crlf ++ js "From: x@example.org" ++ crlf ++ crlf ++ js "Hello" in
  (fun line => map v_result (@dkimVerify toyCrypto toyDkimKeys (line ++ crlf ++ mail) (fun _ _ => Found [dnsRecord RsaSha256 (js "secret")]) 1750000000000).1)
    <$> @dkimSign toyCrypto toyDkimKeys mail toyOptions = Some [DkimFail].
Proof. vm_compute. reflexivity. Qed.
