(* ===== verification/InboundRun.v ===== *)
(** * Authentication of an incoming message (apps/server/src/inbound-auth.ts, [runInboundAuth])

    SPF, DKIM and DMARC one after the other, over one resolver, and the results that are stored and put
    into the headers.  The two theorems are about the whole: what a pass is worth, and how many
    questions a message can cause. *)

From S2P Require Import Prelude JsString JsNumber Net Loop Async Effects Scram MimeHeaders MimeAddress MimeMessage Trace Cidr Spf SpfSpec Dmarc DmarcSpec Dkim DkimSpec.

Record InboundAuthInput := mkInbound {
  in_raw : bytes; in_parsed : ParsedMessage; in_clientIp : jsstr; in_heloName : jsstr; in_mailFrom : jsstr; in_authservId : jsstr; in_trustedRelay : bool
}.

Record DmarcReport := mkReport {
  rp_policyDomain : jsstr; rp_headerFrom : jsstr; rp_disposition : DmarcDisposition; rp_dkimAligned : bool; rp_spfAligned : bool;
  rp_dkimResult : option DkimVerifyOutcome; rp_spfResult : SpfResultValue; rp_dkimDomain : option jsstr; rp_spfDomain : option jsstr
}.

Record InboundAuthResult := mkInboundResult {
  ir_authResults : jsstr; ir_codes : StorageCodes;
  ir_summarySpf : option SpfResultValue; ir_summaryDkim : option DkimVerifyOutcome; ir_summaryDmarc : DmarcResultValue;
  ir_report : DmarcReport; ir_receivedSpf : option jsstr
}.

(** The local [domainOf]. *)
Definition emailDomain (email : jsstr) : jsstr :=
  match lastIndexOf 64 email with Some at_ => toLowerCase (drop (S at_) email) | None => [] end.

Definition fromDomainOf (m : ParsedMessage) : jsstr := match from m with f :: _ => emailDomain (email f) | [] => [] end.

(** The resolver after [k] questions. *)
Definition laterResolver (k : nat) (R : Resolver) : Resolver :=
  {| txt := fun n => @txt R (k + n); mx := fun n => @mx R (k + n); a := fun n => @a R (k + n); aaaa := fun n => @aaaa R (k + n);
     ptr := fun n => @ptr R (k + n); dateNow := fun n => @dateNow R n |}.

(** "none" ([None]) without signatures; a pass if there is one; else the first. *)
Definition dkimOutcome (rs : list DkimResult) : option DkimVerifyOutcome :=
  match rs with
  | [] => None
  | r :: _ => if existsb (fun d => match v_result d with DkimPass => true | _ => false end) rs then Some DkimPass else Some (v_result r)
  end.

Definition headerDkim (d : DkimResult) : DkimVerifyResult :=
  {| d_result := v_result d; d_domain := v_domain d; d_selector := v_selector d; d_algorithm := algorithmName <$> v_algorithm d |}.

Definition isPass (d : DkimResult) : bool := match v_result d with DkimPass => true | _ => false end.

Section Run.
Context `{NodeCrypto} `{DkimKeys} (R : Resolver) (schedule : nat -> bool) (now : Z).

(** [spf], with the number of questions. *)
Definition inboundSpf (i : InboundAuthInput) : option SpfResult * nat :=
  if in_trustedRelay i then (None, O) else @checkSpf R (mkSpfInput (in_clientIp i) (in_heloName i) (in_mailFrom i)).

Definition inboundDkim (i : InboundAuthInput) (k : nat) : list DkimResult * nat := dkimVerify (in_raw i) (@txt (laterResolver k R)) now.

Definition dmarcInputOf (i : InboundAuthInput) (spf : option SpfResult) (dkims : list DkimResult) : DmarcInput :=
  {| fromDomain := fromDomainOf (in_parsed i); spf_result := match spf with Some s => result s | None => SpfNone end;
     spf_domain := match spf with Some s => domain s | None => [] end; Dmarc.dkim := map (fun d => mkDkimInput (v_result d) (v_domain d)) dkims |}.

Definition inboundDmarc (i : InboundAuthInput) (spf : option SpfResult) (dkims : list DkimResult) (k : nat) : DmarcResult * nat :=
  @checkDmarc (laterResolver k R) schedule (dmarcInputOf i spf dkims).

Definition arInputOf (i : InboundAuthInput) (spf : option SpfResult) (dkims : list DkimResult) (dmarc : DmarcResultValue) : AuthResultsInput :=
  {| ar_spf := (fun s => {| ars_result := result s; ars_domain := match domain s with [] => in_heloName i | d => d end;
                            ars_helo := match in_mailFrom i with [] => true | _ => false end |}) <$> spf;
     ar_dkim := Some (map headerDkim dkims);
     ar_dmarc := Some {| ard_result := dmarc; ard_fromDomain := fromDomainOf (in_parsed i) |} |}.

(** The result, and the number of questions. *)
Definition runInboundAuth (i : InboundAuthInput) : InboundAuthResult * nat :=
  let '(spf, n1) := inboundSpf i in
  let '(dkims, n2) := inboundDkim i n1 in
  let '(dmarc, n3) := inboundDmarc i spf dkims (n1 + n2) in
  let from := fromDomainOf (in_parsed i) in
  ({| ir_authResults := buildAuthenticationResults (in_authservId i) (arInputOf i spf dkims (dm_result dmarc));
      ir_codes := mapToStorageCodes (result <$> spf) (dkimOutcome dkims) (dm_result dmarc);
      ir_summarySpf := result <$> spf; ir_summaryDkim := dkimOutcome dkims; ir_summaryDmarc := dm_result dmarc;
      ir_report :=
        {| rp_policyDomain := default from (orgDomain dmarc); rp_headerFrom := from; rp_disposition := disposition dmarc;
           rp_dkimAligned := dkimAligned dmarc; rp_spfAligned := spfAligned dmarc; rp_dkimResult := dkimOutcome dkims;
           rp_spfResult := match spf with Some s => result s | None => SpfNone end;
           rp_dkimDomain := match List.find isPass dkims with Some d => Some (v_domain d) | None => v_domain <$> head dkims end;
           rp_spfDomain := domain <$> spf |};
      ir_receivedSpf := (fun s => buildReceivedSpf {| s_result := result s; s_receiver := in_authservId i; s_clientIp := in_clientIp i;
          s_heloName := in_heloName i; s_mailFrom := in_mailFrom i; Trace.s_domain := domain s |}) <$> spf |}, (n1 + n2 + n3)%nat).

(** ** How many questions *)

(** C37: A message of anybody, with any records, costs at most 162 questions to the DNS, and the
    authentication ends, with a verdict of SPF unless the message comes from a trusted relay. *)
Theorem inbound_query_budget i : (snd (runInboundAuth i) <= 162)%nat /\ (in_trustedRelay i = true \/ ir_summarySpf (runInboundAuth i).1 <> None).
Proof.
  unfold runInboundAuth. assert (Hspf : (snd (inboundSpf i) <= 112)%nat /\ (in_trustedRelay i = false -> (inboundSpf i).1 <> None)).
  { unfold inboundSpf. destruct (in_trustedRelay i); [split; [cbn; lia|done]|].
    destruct (@spf_query_budget R (mkSpfInput (in_clientIp i) (in_heloName i) (in_mailFrom i))) as (r & E & Hn). split; [done|]. intros _. by rewrite E. }
  destruct (inboundSpf i) as [spf n1]. cbn [fst snd] in Hspf. destruct Hspf as [H1 H2].
  pose proof (dkim_query_bound (in_raw i) (@txt (laterResolver n1 R)) now) as [_ H3]. fold (inboundDkim i n1) in H3. destruct (inboundDkim i n1) as [dkims n2]. cbn [snd] in H3.
  pose proof (@dmarc_query_budget (laterResolver (n1 + n2) R) schedule (dmarcInputOf i spf dkims)) as H4. fold (inboundDmarc i spf dkims (n1 + n2)) in H4.
  destruct (inboundDmarc i spf dkims (n1 + n2)) as [dmarc n3]. cbn [fst snd ir_summarySpf] in *. split; [lia|]. destruct (in_trustedRelay i); [by left|right]. destruct spf; [done|by destruct (H2 eq_refl)].
Qed.

(** ** What a pass is worth *)

Lemma dkim_aligned_true {Rs : Resolver} mode dom l : DkimAlignment mode dom l true -> exists d, d ∈ l /\ dk_result d = DkimPass /\ aligned mode (dk_domain d) dom true.
Proof.
  remember true as b eqn:Hb. induction 1 as [|d rest b Hd Hr IH|d rest Hd Ha|d rest b Hd Ha Hr IH]; try done.
  - destruct (IH Hb) as (d' & ? & ?). exists d'. split; [by right|done].
  - exists d. split; [by left|done].
  - destruct (IH Hb) as (d' & ? & ?). exists d'. split; [by right|done].
Qed.

(** The identities that SPF and DKIM gave the message. *)
Definition spfIdentity (i : InboundAuthInput) (d : jsstr) : Prop :=
  in_trustedRelay i = false /\
  exists ip, parseIp (in_clientIp i) = Some ip /\
    let '(full, local, sender) := senderOf (mkSpfInput (in_clientIp i) (in_heloName i) (in_mailFrom i)) in
    d = sender /\ @CheckHost R (mkMacro full local sender (in_heloName i) ip sender) sender SpfPass.

Definition dkimIdentity (i : InboundAuthInput) (d : jsstr) : Prop := exists k, authentic (in_raw i) (@txt (laterResolver k R)) now d.

(** C27: When a message is reported as [dmarc=pass], then the domain of its From header, or its
    organizational domain, publishes a policy, and the message has an identity that is aligned with it
    under the mode of this policy: a domain whose records permit the address that sent it, by the rules
    of check_host(), or a domain whose published key checks a signature of the message. *)
Theorem inbound_pass_authentic i : ir_summaryDmarc (runInboundAuth i).1 = DmarcPass ->
  exists k tags org d mode,
    @PolicyOf (laterResolver k R) (normalizeDomain (fromDomainOf (in_parsed i))) (Some (tags, org)) /\
    @aligned (laterResolver k R) mode d (normalizeDomain (fromDomainOf (in_parsed i))) true /\
    (spfIdentity i d /\ mode = modeOf (tags !! js "aspf") \/ dkimIdentity i d /\ mode = modeOf (tags !! js "adkim")).
Proof.
  unfold runInboundAuth. destruct (inboundSpf i) as [spf n1] eqn:Espf. destruct (inboundDkim i n1) as [dkims n2] eqn:Edkim.
  destruct (inboundDmarc i spf dkims (n1 + n2)) as [dmarc n3] eqn:Edm. cbn [fst ir_summaryDmarc]. intros Hp. set (dom := normalizeDomain _).
  assert (Hv : dmarc = (@checkDmarc (laterResolver (n1 + n2) R) schedule (dmarcInputOf i spf dkims)).1) by (unfold inboundDmarc in Edm; by rewrite Edm).
  destruct (decide (dom = [])) as [E0|Hne]; [unfold checkDmarc in Hv; cbn [dmarcInputOf fromDomain] in Hv; fold dom in Hv; rewrite E0 in Hv; by rewrite Hv in Hp|].
  destruct (@check_verdict (laterResolver (n1 + n2) R) schedule (dmarcInputOf i spf dkims) Hne) as [V|V]; rewrite <- Hv in V; [|by rewrite V in Hp].
  cbn [dmarcInputOf fromDomain] in V. fold dom in V. inversion V as [Hpol Er|tags org dk sp Hpol Hd Hs p Er]; rewrite <- Er in Hp; cbn [dm_result noAlignment] in Hp; [done|]. clear Er Hv V Edm.
  exists (n1 + n2)%nat, tags, org. destruct dk.
  - apply dkim_aligned_true in Hd as (d & Hin & Hres & Hal). cbn [dmarcInputOf Dmarc.dkim] in Hin. apply list_elem_of_fmap in Hin as (r & -> & Hin). cbn in Hres, Hal.
    eexists _, _. split; [done|]. split; [exact Hal|]. right. split; [|done]. exists n1. apply dkim_pass_authentic; [|done]. unfold inboundDkim in Edkim. by rewrite Edkim.
  - destruct sp; [|done]. cbn [dmarcInputOf spf_result spf_domain] in Hs. destruct spf as [s|]; [|done]. destruct (result s) eqn:Ers; try done. cbn in Hs.
    eexists _, _. split; [done|]. split; [exact Hs|]. left. split; [|done]. unfold inboundSpf in Espf. destruct (in_trustedRelay i) eqn:Et; [done|]. split; [done|].
    destruct (@checkSpf_sound R (mkSpfInput (in_clientIp i) (in_heloName i) (in_mailFrom i)) s) as (ip & Hip & Hsp); [by rewrite Espf|by rewrite Ers|by rewrite Ers|by rewrite Ers|].
    exists ip. split; [done|]. cbn [si_helo] in Hsp. destruct (senderOf _) as [[full local] sender]. destruct Hsp as (Hdom & _ & Hc). rewrite Ers in Hc. done.
Qed.
End Run.

(** ** Examples *)

Definition shopZone : Resolver := zoneResolver
  [(js "mail.shop.example", [js "v=spf1 ip4:192.0.2.0/24 -all"]); (js "_dmarc.shop.example", [js "v=DMARC1; p=reject"])] [] [] [].

Definition shopMail (ip : jsstr) : InboundAuthInput :=
  {| in_raw := js "From: a@shop.example" ++ crlf ++ crlf ++ js "hi"; in_parsed := emptyParsedMessage <| from := [mkAddress None (js "a@shop.example")] |>;
     in_clientIp := ip; in_heloName := js "out.shop.example"; in_mailFrom := js "bounce@mail.shop.example"; in_authservId := js "mx.test"; in_trustedRelay := false |}.

Abbreviation runExample := (@runInboundAuth toyCrypto toyDkimKeys shopZone fair 0).

Example inbound_examples :
  map (fun ip => let '(r, n) := runExample (shopMail ip) in (ir_authResults r, rp_disposition (ir_report r), n)) [js "192.0.2.7"; js "198.51.100.7"]
  = [(js "mx.test; spf=pass smtp.mailfrom=mail.shop.example; dkim=none; dmarc=pass header.from=shop.example", DispNone, 3%nat);
     (js "mx.test; spf=fail smtp.mailfrom=mail.shop.example; dkim=none; dmarc=fail header.from=shop.example", DispReject, 2%nat)].
Proof. vm_compute. reflexivity. Qed.

Lemma inbound_pass_authentic_witness : let i := shopMail (js "192.0.2.7") in
  exists k tags org d mode,
    @PolicyOf (laterResolver k shopZone) (normalizeDomain (fromDomainOf (in_parsed i))) (Some (tags, org)) /\
    @aligned (laterResolver k shopZone) mode d (normalizeDomain (fromDomainOf (in_parsed i))) true /\
    (spfIdentity shopZone i d /\ mode = modeOf (tags !! js "aspf") \/ @dkimIdentity toyCrypto toyDkimKeys shopZone 0 i d /\ mode = modeOf (tags !! js "adkim")).
Proof. apply (@inbound_pass_authentic toyCrypto toyDkimKeys shopZone fair 0 (shopMail (js "192.0.2.7"))). vm_compute. reflexivity. Defined.
