(* ===== verification/Dane.v ===== *)
(** * DANE (packages/mail-auth/src/dane.ts)

    Whether the certificates a mail server shows are those its domain pins in TLSA records.  The
    records come with the answer of the DNSSEC validation; without it they are not used. *)

From S2P Require Import Prelude JsString Scram.

(** [createHash("sha512")] of node:crypto. *)
Class NodeSha512 := { sha512 : bytes -> bytes }.

(** ** Data *)

Definition DANE_TA : Z := 2.
Definition DANE_EE : Z := 3.
Definition FULL_CERT : Z := 0.
Definition SPKI : Z := 1.
Definition EXACT : Z := 0.
Definition SHA256 : Z := 1.
Definition SHA512 : Z := 2.

Record TlsaRecord := mkTlsa { usage : Z; selector : Z; matchingType : Z; data : bytes }.
Record DaneTlsaSet := mkTlsaSet { records : list TlsaRecord; dnssecValidated : bool }.

(** A certificate of the chain that was shown; the first is the server's own. *)
Record Cert := mkCert { cert_raw : bytes; cert_spki : bytes }.

Inductive DaneReason := RNotValidated | RNoTlsa | REmptyChain | RNothingUnderstood | RNoMatch.
Inductive DaneResult := DaneMatch (usage : Z) | DaneNotApplicable (reason : DaneReason) | DaneMismatch (reason : DaneReason).

Definition isUnderstood (rec : TlsaRecord) : bool :=
  if negb (usage rec =? DANE_TA) && negb (usage rec =? DANE_EE) then false
  else if negb (selector rec =? FULL_CERT) && negb (selector rec =? SPKI) then false
  else (matchingType rec =? EXACT) || (matchingType rec =? SHA256) || (matchingType rec =? SHA512).

Definition hasUsableTlsa (tlsa : DaneTlsaSet) : bool := dnssecValidated tlsa && existsb isUnderstood (records tlsa).

Definition selectorBytes (cert : Cert) (sel : Z) : option bytes :=
  if sel =? FULL_CERT then Some (cert_raw cert) else if sel =? SPKI then Some (cert_spki cert) else None.

Section Check.
Context `{NodeCrypto} `{NodeSha512}.

Definition matchBytes (input : bytes) (mt : Z) : option bytes :=
  if mt =? EXACT then Some input
  else if mt =? SHA256 then Some (sha256 input)
  else if mt =? SHA512 then Some (sha512 input)
  else None.

(** One certificate against one record. *)
Definition certMatches (rec : TlsaRecord) (cert : Cert) : bool :=
  match selectorBytes cert (selector rec) with
  | None => false
  | Some sel => match matchBytes sel (matchingType rec) with None => false | Some got => got === data rec end
  end.

Definition candidates (rec : TlsaRecord) (chain : list Cert) : list Cert :=
  if usage rec =? DANE_EE then take 1 chain else chain.

(** The loop over the records: the usage of the first that matches, or how many were usable. *)
Fixpoint scanRecords (recs : list TlsaRecord) (chain : list Cert) (usable : Z) : Z + Z :=
  match recs with
  | [] => inr usable
  | rec :: recs' =>
      if negb (isUnderstood rec) then scanRecords recs' chain usable
      else if existsb (certMatches rec) (candidates rec chain) then inl (usage rec)
      else scanRecords recs' chain (usable + 1)
  end.

Definition checkDane (chain : list Cert) (tlsa : DaneTlsaSet) : DaneResult :=
  if negb (dnssecValidated tlsa) then DaneNotApplicable RNotValidated
  else if len (records tlsa) =? 0 then DaneNotApplicable RNoTlsa
  else if len chain =? 0 then DaneMismatch REmptyChain
  else
    match scanRecords (records tlsa) chain 0 with
    | inl u => DaneMatch u
    | inr usable => if usable =? 0 then DaneNotApplicable RNothingUnderstood else DaneMismatch RNoMatch
    end.

Definition tlsaQueryName (mxHost : jsstr) (port : Z) : jsstr :=
  [95] ++ numToString port ++ js "._tcp." ++ (if endsWith1 DOT mxHost then take (length mxHost - 1) mxHost else mxHost).

(** ** What a match means *)

(** The chain has what a record pins: its server certificate for DANE-EE, any for DANE-TA. *)
Definition pinned (chain : list Cert) (tlsa : DaneTlsaSet) : Prop :=
  dnssecValidated tlsa = true /\
  exists rec cert, rec ∈ records tlsa /\ isUnderstood rec = true /\ cert ∈ chain /\ certMatches rec cert = true /\
    (usage rec = DANE_EE -> head chain = Some cert).

Lemma scan_match recs chain n u : scanRecords recs chain n = inl u ->
  exists rec, rec ∈ recs /\ isUnderstood rec = true /\ existsb (certMatches rec) (candidates rec chain) = true.
Proof.
  revert n. induction recs as [|rec recs IH]; intros n; cbn [scanRecords]; [done|].
  destruct (isUnderstood rec) eqn:Hu; cbn [negb].
  - destruct (existsb _ _) eqn:Hm.
    + intros _. exists rec. split; [left|done].
    + intros Hs. destruct (IH _ Hs) as (r & Hin & ?). exists r. split; [by right|done].
  - intros Hs. destruct (IH _ Hs) as (r & Hin & ?). exists r. split; [by right|done].
Qed.

Lemma scan_usable recs chain n : match scanRecords recs chain n with inl _ => True | inr m => n <= m /\ (existsb isUnderstood recs = true -> n < m) end.
Proof.
  revert n. induction recs as [|rec recs IH]; intros n; cbn [scanRecords existsb]; [split; [lia|done]|].
  destruct (isUnderstood rec); cbn [negb orb].
  - destruct (existsb (certMatches rec) _); [done|]. specialize (IH (n + 1)). destruct (scanRecords _ _ _); [done|]. destruct IH. split; [|intros _]; lia.
  - apply IH.
Qed.

Lemma existsb_In {A} (f : A -> bool) l : existsb f l = true -> exists x, x ∈ l /\ f x = true.
Proof. rewrite existsb_exists. intros (x & Hx & ?). exists x. by rewrite list_elem_of_In. Qed.

(** A match pins a certificate of the chain. *)
Lemma checkDane_match chain tlsa u : checkDane chain tlsa = DaneMatch u -> pinned chain tlsa.
Proof.
  unfold checkDane. destruct (dnssecValidated tlsa) eqn:Hv; [|done]. cbn [negb]. do 2 (case_match; [done|]).
  destruct (scanRecords _ _ _) as [u'|n] eqn:Hs; [|by case_match]. intros _. split; [done|].
  destruct (scan_match _ _ _ _ Hs) as (rec & Hin & Hu & (cert & Hc & Hm)%existsb_In). exists rec, cert.
  unfold candidates in Hc. destruct (Z.eqb_spec (usage rec) DANE_EE).
  - destruct chain as [|c chain]; [by apply elem_of_nil in Hc|]. cbn [take] in Hc. rewrite list_elem_of_singleton in Hc. subst. split_and!; try done. left.
  - split_and!; try done.
Qed.

(** What the client decides before it connects and what it decides after agree: with usable records
    the check of the certificates is never skipped. *)
Lemma usable_applies chain tlsa : hasUsableTlsa tlsa = true -> (exists u, checkDane chain tlsa = DaneMatch u) \/ (exists r, checkDane chain tlsa = DaneMismatch r).
Proof.
  unfold hasUsableTlsa, checkDane. intros [-> Hu]%andb_true_iff. cbn [negb].
  destruct (Z.eqb_spec (len (records tlsa)) 0) as [Hz%len_zero|]; [by rewrite Hz in Hu|].
  destruct (len chain =? 0); [right; eauto|].
  pose proof (scan_usable (records tlsa) chain 0) as Hs. destruct (scanRecords _ _ _) as [u|m]; [left; eauto|].
  destruct Hs as [_ Hs]. specialize (Hs Hu). rewrite (proj2 (Z.eqb_neq m 0)) by lia. right. eauto.
Qed.
End Check.
