(* ===== verification/SmtpClient.v ===== *)
(** * The outbound SMTP client (packages/mta/src/smtp-client.ts, envelope.ts)

    One delivery attempt to one host: connect, greet, STARTTLS, AUTH, the envelope, the message.  The
    code awaits replies and throws; it is a program in the monad of [Effects] over the connection.
    What the peer does is a script, the list of events the reads of the socket see, on the plain
    connection and, after STARTTLS, on the TLS one; every behaviour of a peer is some script, and a
    run that needs more events than the script has ends as [Fuel]: still waiting.  The idle timeout
    is an error event.  All writes are kept, with whether they went out over TLS. *)

From S2P Require Import Prelude JsString Text Loop Effects Scram Dane.

(** A literal with letters outside ASCII. *)
Definition u8 (s : string) : jsstr := utf8Decode (js s).
#[global] Arguments u8 : simpl never.

(** ** Envelope addresses (envelope.ts) *)

Definition isUnsafeChar (c : Z) : bool := (c =? 13) || (c =? 10) || (c =? 0) || (c =? 60) || (c =? 62) || (c =? 32).
Definition isSafeEnvelopeAddress (address : jsstr) : bool := negb (existsb isUnsafeChar address).
Definition findUnsafeAddress (addresses : list jsstr) : option jsstr := List.find (fun a => negb (isSafeEnvelopeAddress a)) addresses.

(** ** Data *)

Inductive TlsMode := Opportunistic | Required | Implicit | Never.
Record SmtpAuth := mkAuth { user : jsstr; pass : jsstr }.

Record SmtpClientOptions := mkOptions {
  host : jsstr; port : Z; ehloName : jsstr; mailFrom : jsstr; rcptTo : list jsstr; raw : bytes;
  timeoutMs : option Z; tls : option TlsMode; auth : option SmtpAuth; dane : option DaneTlsaSet
}.

Record RcptOutcome := mkRcpt { rc_code : Z; rc_permanent : bool; rc_message : jsstr }.
Inductive DaneVerdict := DaneWasMatch | DaneWasMismatch.

Record SmtpClientResult := mkResult {
  ok : bool; code : Z; message : jsstr; permanent : bool; rcptResults : list (jsstr * RcptOutcome);
  daneOf : option DaneVerdict; tlsUsed : option bool
}.

Record ParsedReply := mkReply { r_code : Z; r_lines : list jsstr }.

Definition DEFAULT_TIMEOUT_MS : Z := 30000.
Definition MAX_REPLY_BYTES : Z := 64 * 1024.

(** ** The peer *)

Inductive Event := EvData (chunk : bytes) | EvError (message : jsstr) | EvClose.

(** The certificates as node gives them: each names its issuer, a root itself. *)
Record PeerCert := mkPeerCert { pc_raw : bytes; pc_fingerprint : jsstr; pc_spki : option bytes; pc_issuer : option nat }.

Record Peer := mkPeer {
  p_connect : jsstr + list PeerCert; p_events : list Event;
  p_upgrade : jsstr + list PeerCert; p_tlsEvents : list Event
}.

(** What the client does to the network. *)
Inductive Act :=
| ActConnect
| ActTls (verify : bool) (chain : list Cert)
| ActWrite (secure : bool) (b : bytes)
| ActDestroy.

Record Conn := mkConn { c_events : list Event; c_buf : jsstr; c_tls : bool; c_rcpts : list (jsstr * RcptOutcome); c_trace : list Act }.

(** How a part of [sendSmtp] ends early: a [return], or an exception. *)
Inductive Stop := Return (r : SmtpClientResult) | Thrown (message : jsstr).
Abbreviation M := (Eff Conn Stop).

(** ** Text *)

Definition hexDigit (n : Z) : Z := if n <? 10 then 48 + n else 87 + n.
Definition unicodeEscape (c : Z) : jsstr :=
  js "\u" ++ [hexDigit (c / 4096 mod 16); hexDigit (c / 256 mod 16); hexDigit (c / 16 mod 16); hexDigit (c mod 16)].

Definition isHighSurrogate (c : Z) : bool := (0xD800 <=? c) && (c <=? 0xDBFF).
Definition isLowSurrogate (c : Z) : bool := (0xDC00 <=? c) && (c <=? 0xDFFF).

(** [JSON.stringify] of a string, without its quotes. *)
Fixpoint jsonChars (s : jsstr) : jsstr :=
  match s with
  | [] => []
  | c :: s' =>
      if c =? 34 then [92; 34] ++ jsonChars s'
      else if c =? 92 then [92; 92] ++ jsonChars s'
      else if c =? 8 then js "\b" ++ jsonChars s'
      else if c =? 12 then js "\f" ++ jsonChars s'
      else if c =? 10 then js "\n" ++ jsonChars s'
      else if c =? 13 then js "\r" ++ jsonChars s'
      else if c =? 9 then js "\t" ++ jsonChars s'
      else if c <? 32 then unicodeEscape c ++ jsonChars s'
      else if isHighSurrogate c then
        match s' with
        | d :: s'' => if isLowSurrogate d then c :: d :: jsonChars s'' else unicodeEscape c ++ jsonChars s'
        | [] => unicodeEscape c
        end
      else if isLowSurrogate c then unicodeEscape c ++ jsonChars s'
      else c :: jsonChars s'
  end.
Definition jsonStringify (s : jsstr) : jsstr := [34] ++ jsonChars s ++ [34].

Definition isAscii (s : jsstr) : bool := forallb (fun c => c <=? 0x7f) s.
Definition isPermanent (c : Z) : bool := (500 <=? c) && (c <? 600).
Definition isPositive (c : Z) : bool := (200 <=? c) && (c <? 300).

(** ** Reading replies *)

(** Three digits, a blank or a hyphen, and text without line ends: the code, whether the reply goes on,
    the text. *)
Definition replyLine (line : jsstr) : option (Z * bool * jsstr) :=
  match line with
  | a :: b :: c :: sep :: text =>
      if isDigit a && isDigit b && isDigit c && ((sep =? 32) || (sep =? 45)) && negb (existsb isLineTerminator text)
      then Some (digitsVal [a; b; c], sep =? 45, text)
      else None
  | _ => None
  end.

Inductive Parsed := PMore (buf : jsstr) (code : option Z) (lines : list jsstr) | PReply (buf : jsstr) (r : ParsedReply) | PMalformed (buf : jsstr) (line : jsstr).

(** [tryParse]; a round removes a line from the buffer. *)
Fixpoint tryParse (fuel : nat) (buf : jsstr) (code : option Z) (lines : list jsstr) : Parsed :=
  match fuel with
  | O => PMore buf code lines
  | S fuel' =>
      match indexOfCRLF buf with
      | None => PMore buf code lines
      | Some idx =>
          let line := take idx buf in
          let buf := drop (idx + 2) buf in
          match replyLine line with
          | None => PMalformed buf line
          | Some (lineCode, more, text) =>
              let code := default lineCode code in
              if more then tryParse fuel' buf (Some code) (lines ++ [text])
              else PReply buf {| r_code := code; r_lines := lines ++ [text] |}
          end
      end
  end.

Definition MALFORMED (line : jsstr) : jsstr := js "malformed SMTP reply line: " ++ jsonStringify line.
Definition TOO_LARGE : jsstr := js "SMTP reply too large (> " ++ numToString MAX_REPLY_BYTES ++ u8 " bytes) — 상대가 응답을 끝내지 않는다".
Definition CLOSED : jsstr := js "connection closed while awaiting SMTP reply".

(** The listeners of [read]: what it settles to, the events left and the buffer. *)
Fixpoint readEvents (evs : list Event) (buf : jsstr) (code : option Z) (lines : list jsstr) : Result Stop ParsedReply * (list Event * jsstr) :=
  match evs with
  | [] => (Fuel, ([], buf))
  | EvError m :: evs' => (Err (Thrown m), (evs', buf))
  | EvClose :: evs' => (Err (Thrown CLOSED), (evs', buf))
  | EvData chunk :: evs' =>
      let buf := buf ++ chunk in
      if MAX_REPLY_BYTES <? len buf then (Err (Thrown TOO_LARGE), (evs', buf))
      else
        match tryParse (length buf) buf code lines with
        | PReply buf r => (Ok r, (evs', buf))
        | PMalformed buf line => (Err (Thrown (MALFORMED line)), (evs', buf))
        | PMore buf code lines => readEvents evs' buf code lines
        end
  end.

(** [reader.read()] *)
Definition read : M ParsedReply := fun c =>
  match tryParse (length (c_buf c)) (c_buf c) None [] with
  | PReply buf r => (Ok r, c <| c_buf := buf |>)
  | PMalformed buf line => (Err (Thrown (MALFORMED line)), c <| c_buf := buf |>)
  | PMore buf code lines =>
      let '(r, (evs, buf)) := readEvents (c_events c) buf code lines in (r, c <| c_events := evs |> <| c_buf := buf |>)
  end.

Definition act (a : Act) : M unit := modify (fun c => c <| c_trace ::= fun t => t ++ [a] |>).
Definition write (b : bytes) : M unit := fun c => act (ActWrite (c_tls c) b) c.
Definition writeText (s : jsstr) : M unit := write (utf8Encode s).
Definition destroy : M unit := act ActDestroy.
Definition return_ {A} (r : SmtpClientResult) : M A := throw (Return r).

(** A command and its reply. *)
Definition command (line : jsstr) : M ParsedReply := do_ writeText (line ++ crlf); read.

Definition ehloRoundtrip (name : jsstr) : M ParsedReply := command (js "EHLO " ++ name).

Definition quit : M unit := catch (do_ command (js "QUIT"); ret tt) (fun _ => ret tt).

(** ** Capabilities *)

Definition parseCaps (ehloLines : list jsstr) : list jsstr :=
  omap (fun line => match splitWs (trim line) with (_ :: _) as token :: _ => Some (toUpperCase token) | _ => None end) (drop 1 ehloLines).

Definition parseAuthMechs (ehloLines : list jsstr) : list jsstr :=
  flat_map (fun line => match splitWs (trim line) with
                        | t :: ts => if toUpperCase t === js "AUTH" then map toUpperCase ts else []
                        | [] => []
                        end) (drop 1 ehloLines).

Definition has (set : list jsstr) (k : jsstr) : bool := existsb (fun x => x === k) set.

Definition base64Utf8 (s : jsstr) : jsstr := base64Encode (utf8Encode s).

Definition doAuth (ehloLines : list jsstr) (a : SmtpAuth) : M ParsedReply :=
  let mechs := parseAuthMechs ehloLines in
  if len mechs =? 0 then ret {| r_code := 0; r_lines := [js "AUTH not advertised by server"] |}
  else if has mechs (js "PLAIN") || negb (has mechs (js "LOGIN")) then
    command (js "AUTH PLAIN " ++ base64Utf8 ([0] ++ user a ++ [0] ++ pass a))
  else
    do reply <- command (js "AUTH LOGIN");
    if negb (r_code reply =? 334) then ret reply
    else
      do reply <- command (base64Utf8 (user a));
      if negb (r_code reply =? 334) then ret reply
      else command (base64Utf8 (pass a)).

(** ** The message *)

(** The counting pass of [dotStuff]. *)
Fixpoint countDots (atLineStart : bool) (bs : bytes) : Z :=
  match bs with
  | [] => 0
  | b :: bs' => (if atLineStart && (b =? 0x2e) then 1 else 0) + countDots (b =? 0x0a) bs'
  end.

(** Its writing pass. *)
Fixpoint writeDots (atLineStart : bool) (bs : bytes) : bytes :=
  match bs with
  | [] => []
  | b :: bs' => (if atLineStart && (b =? 0x2e) then [0x2e] else []) ++ [b] ++ writeDots (b =? 0x0a) bs'
  end.

Definition dotStuff (bs : bytes) : bytes := if countDots true bs =? 0 then bs else writeDots true bs.

Definition endsWithCrlf (bs : bytes) : bool :=
  match rev bs with l :: c :: _ => (c =? 0x0d) && (l =? 0x0a) | _ => false end.

Definition terminator (stuffed : bytes) : bytes := if endsWithCrlf stuffed then [DOT] ++ crlf else crlf ++ [DOT] ++ crlf.

(** ** Certificates *)

(** The chain of issuers; a fingerprint that comes again ends it, as does a certificate node cannot
    parse.  There are no more fingerprints than certificates. *)
Fixpoint chainFrom (fuel : nat) (certs : list PeerCert) (cur : option nat) (seen : list jsstr) : list Cert :=
  match fuel with
  | O => []
  | S fuel' =>
      match cur ≫= (fun i => certs !! i) with
      | None => []
      | Some c =>
          if len (pc_raw c) =? 0 then []
          else if has seen (pc_fingerprint c) then []
          else
            match pc_spki c with
            | None => []
            | Some spki => {| cert_raw := pc_raw c; cert_spki := spki |} :: chainFrom fuel' certs (pc_issuer c) (seen ++ [pc_fingerprint c])
            end
      end
  end.

Definition peerChain (certs : list PeerCert) : list Cert := chainFrom (S (length certs)) certs (Some 0%nat) [].

Section Client.
Context `{NodeCrypto} `{NodeSha512} (opts : SmtpClientOptions) (peer : Peer).

Definition daneActive : bool := match dane opts with Some d => hasUsableTlsa d | None => false end.
Definition requestedTls : TlsMode := default Opportunistic (tls opts).
Definition tlsMode : TlsMode :=
  match requestedTls with
  | Opportunistic | Never => if daneActive then Required else requestedTls
  | _ => requestedTls
  end.
Definition verifyPeer : bool := negb daneActive && match tlsMode with Required | Implicit => true | _ => false end.

Definition failure (c : Z) (m : jsstr) (perm : bool) (rcpts : list (jsstr * RcptOutcome)) : SmtpClientResult :=
  {| ok := false; code := c; message := m; permanent := perm; rcptResults := rcpts; daneOf := None; tlsUsed := None |}.

Definition connectFailure (m : jsstr) (rcpts : list (jsstr * RcptOutcome)) : SmtpClientResult := failure 0 m false rcpts.

Definition replyText (r : ParsedReply) : jsstr := joinWith [SP] (r_lines r).

(** A reply that ends the attempt: close, and return it. *)
Definition refuseNow {A} (r : ParsedReply) : M A :=
  do rcpts <- get c_rcpts;
  do_ destroy;
  return_ (failure (r_code r) (replyText r) (isPermanent (r_code r)) rcpts).

(** The same with a farewell. *)
Definition leaveWith {A} (result : list (jsstr * RcptOutcome) -> SmtpClientResult) : M A :=
  do rcpts <- get c_rcpts;
  do_ quit;
  do_ destroy;
  return_ (result rcpts).

Definition reasonText (r : DaneReason) : jsstr :=
  match r with
  | RNotValidated => u8 "TLSA가 DNSSEC로 검증되지 않았다"
  | RNoTlsa => u8 "TLSA 없음"
  | REmptyChain => u8 "인증서 체인이 비었다"
  | RNothingUnderstood => u8 "이해할 수 있는 TLSA 레코드 없음"
  | RNoMatch => u8 "TLSA와 맞는 인증서가 없다"
  end.

Definition daneFailure (chain : list Cert) (tlsa : DaneTlsaSet) (rcpts : list (jsstr * RcptOutcome)) : option SmtpClientResult :=
  match checkDane chain tlsa with
  | DaneMatch _ => None
  | DaneNotApplicable r => Some (failure 0 (u8 "DANE 내부 불일치(" ++ host opts ++ js "): " ++ reasonText r) false rcpts)
  | DaneMismatch r => Some ((failure 0 (js "DANE mismatch (" ++ host opts ++ js "): " ++ reasonText r) false rcpts) <| daneOf := Some DaneWasMismatch |>)
  end.

(** The certificates against the TLSA records, when these are in use. *)
Definition enforceDane (chain : list Cert) : M unit :=
  match dane opts with
  | Some d =>
      if daneActive then
        do rcpts <- get c_rcpts;
        match daneFailure chain d rcpts with Some fail => do_ destroy; return_ fail | None => ret tt end
      else ret tt
  | None => ret tt
  end.

Definition greet : M unit :=
  do banner <- read;
  if negb (isPositive (r_code banner)) then refuseNow banner else ret tt.

Definition ehlo : M ParsedReply :=
  do r <- ehloRoundtrip (ehloName opts);
  if negb (isPositive (r_code r)) then refuseNow r else ret r.

(** [upgradeTls] and what follows: the TLS socket with a reader of its own, the certificates, EHLO again. *)
Definition upgrade : M ParsedReply :=
  match p_upgrade peer with
  | inl m => throw (Thrown m)
  | inr certs =>
      let chain := peerChain certs in
      do_ act (ActTls verifyPeer chain);
      do_ enforceDane chain;
      do_ modify (fun c => c <| c_events := p_tlsEvents peer |> <| c_buf := [] |> <| c_tls := true |>);
      ehlo
  end.

(** The reply to the last EHLO, and [tlsUsed]. *)
Definition startTls (first : ParsedReply) : M (ParsedReply * bool) :=
  let offered := has (parseCaps (r_lines first)) (js "STARTTLS") in
  match tlsMode with
  | Opportunistic | Required =>
      if offered then
        do r <- command (js "STARTTLS");
        if isPositive (r_code r) then do again <- upgrade; ret (again, true)
        else
          match tlsMode with
          | Required => leaveWith (failure (r_code r) (js "STARTTLS refused: " ++ replyText r) false)
          | _ => ret (first, false)
          end
      else
        match tlsMode with
        | Required => leaveWith (failure 0 (js "STARTTLS required but not advertised") false)
        | _ => ret (first, false)
        end
  | _ => ret (first, false)
  end.

Definition authenticate (lines : list jsstr) : M unit :=
  match auth opts with
  | None => ret tt
  | Some a =>
      do secure <- get c_tls;
      if negb secure && match tlsMode with Never => false | _ => true end then
        leaveWith (failure 0 (js "AUTH refused on cleartext connection (credentials would be exposed)") false)
      else
        do r <- doAuth lines a;
        if negb (r_code r =? 235) then leaveWith (failure (r_code r) (js "AUTH failed: " ++ replyText r) false) else ret tt
  end.

Definition needsUtf8 : bool := negb (isAscii (mailFrom opts)) || existsb (fun r => negb (isAscii r)) (rcptTo opts).

Definition sendMail (caps : list jsstr) : M unit :=
  if needsUtf8 && negb (has caps (js "SMTPUTF8")) then
    leaveWith (failure 550 (js "recipient server does not support SMTPUTF8 (RFC 6531)") true)
  else
    let bodyParam := if has caps (js "8BITMIME") then js " BODY=8BITMIME" else [] in
    let utf8Param := if needsUtf8 then js " SMTPUTF8" else [] in
    do r <- command (js "MAIL FROM:<" ++ mailFrom opts ++ js ">" ++ bodyParam ++ utf8Param);
    if negb (isPositive (r_code r)) then leaveWith (failure (r_code r) (replyText r) (isPermanent (r_code r))) else ret tt.

(** The accepted recipients. *)
Fixpoint sendRcpts (rcpts : list jsstr) : M (list jsstr) :=
  match rcpts with
  | [] => ret []
  | rcpt :: rest =>
      do r <- command (js "RCPT TO:<" ++ rcpt ++ js ">");
      do_ modify (fun c => c <| c_rcpts ::= mapSet rcpt {| rc_code := r_code r; rc_permanent := isPermanent (r_code r); rc_message := replyText r |} |>);
      do accepted <- sendRcpts rest;
      ret (if isPositive (r_code r) then rcpt :: accepted else accepted)
  end.

Definition sendData (usedTls : bool) : M SmtpClientResult :=
  do r <- command (js "DATA");
  if negb (r_code r =? 354) then leaveWith (failure (r_code r) (replyText r) (isPermanent (r_code r)))
  else
    let stuffed := dotStuff (raw opts) in
    do_ write stuffed;
    do_ write (terminator stuffed);
    do final <- read;
    do rcpts <- get c_rcpts;
    do_ quit;
    do_ destroy;
    ret {| ok := isPositive (r_code final); code := r_code final; message := replyText final;
           permanent := isPermanent (r_code final); rcptResults := rcpts;
           daneOf := if daneActive then Some DaneWasMatch else None; tlsUsed := Some usedTls |}.

(** The body of the [try]. *)
Definition session : M SmtpClientResult :=
  do_ greet;
  do first <- ehlo;
  do (last, usedTls) <- startTls first;
  do_ authenticate (r_lines last);
  do_ sendMail (parseCaps (r_lines last));
  do accepted <- sendRcpts (rcptTo opts);
  if len accepted =? 0 then leaveWith (failure 550 (js "all recipients rejected") true)
  else sendData usedTls.

(** The [catch], and the early returns. *)
Definition guarded (m : M SmtpClientResult) : M SmtpClientResult :=
  catch m (fun s => match s with
                    | Return r => ret r
                    | Thrown e => do_ destroy; do rcpts <- get c_rcpts; ret (connectFailure e rcpts)
                    end).

Definition unsafeOf : option jsstr := if isSafeEnvelopeAddress (mailFrom opts) then findUnsafeAddress (rcptTo opts) else Some (mailFrom opts).

Definition sendProgram : M SmtpClientResult :=
  match unsafeOf with
  | Some a => ret (failure 550 (js "unsafe envelope address (CR/LF injection guard): " ++ jsonStringify a) true [])
  | None =>
      match p_connect peer with
      | inl e => ret (connectFailure e [])
      | inr certs =>
          do_ act ActConnect;
          match tlsMode with
          | Implicit =>
              let chain := peerChain certs in
              do_ act (ActTls verifyPeer chain);
              guarded (do_ enforceDane chain; do_ modify (fun c => c <| c_tls := true |>); session)
          | _ => guarded session
          end
      end
  end.

(** The result, [None] while it waits for the peer, and what went over the network. *)
Definition sendSmtp : option SmtpClientResult * list Act :=
  let '(r, c) := sendProgram {| c_events := p_events peer; c_buf := []; c_tls := false; c_rcpts := []; c_trace := [] |} in
  (match r with Ok r => Some r | _ => None end, c_trace c).
End Client.
