(* ===== verification/SmtpClientSpec.v ===== *)
(** * What the outbound SMTP client promises

    Against every peer, whatever it answers and wherever it stops: nothing but the greeting goes out in
    the clear when TLS is demanded or credentials are at hand, and what goes out over TLS goes to a peer
    whose certificates were checked as demanded; commands are single lines; a success means that the
    whole message was sent to the recipients and accepted; and what is sent is what the receiving
    engine of this server hands on. *)

From S2P Require Import Prelude JsString Text Loop Effects Scram Dane SmtpClient.

(** ** Frames *)

(** Programs that leave what was sent, the kind of the socket and the recipients alone. *)
Definition sameWire (c c' : Conn) : Prop := c_trace c' = c_trace c /\ c_tls c' = c_tls c /\ c_rcpts c' = c_rcpts c.

Lemma readEvents_err evs buf code lines : match (readEvents evs buf code lines).1 with Err (Return _) => False | _ => True end.
Proof.
  revert buf code lines. induction evs as [|[chunk|m|] evs IH]; intros; cbn [readEvents]; [done| |done|done].
  destruct (_ <? _); [done|]. destruct (tryParse _ _ _ _); [apply IH|done|done].
Qed.

Lemma read_triple (P : Conn -> Prop) (Q : Result Stop ParsedReply -> Conn -> Prop) :
  (forall c c' r, P c -> sameWire c c' -> match r with Err (Return _) => False | _ => True end -> Q r c') -> triple P read Q.
Proof.
  intros HQ c Hc. unfold read. destruct (tryParse _ _ _ _) as [buf code lines|buf r|buf l].
  - pose proof (readEvents_err (c_events c) buf code lines) as He. destruct (readEvents _ _ _ _) as [r [evs buf']]. by apply (HQ c).
  - by apply (HQ c).
  - by apply (HQ c).
Qed.

(** [P] is about what was sent, not about what was received. *)
Definition onWire (P : Conn -> Prop) : Prop := forall c c', sameWire c c' -> P c -> P c'.

Lemma onWire_read P (Q : Result Stop ParsedReply -> Conn -> Prop) :
  onWire P -> (forall c r, P c -> match r with Err (Return _) => False | _ => True end -> Q r c) -> triple P read Q.
Proof. intros HP HQ. apply read_triple. intros c c' r Hc Hs Hr. apply HQ; [by apply (HP c)|done]. Qed.

Lemma act_triple (P : Conn -> Prop) a (Q : Result Stop unit -> Conn -> Prop) :
  (forall c, P c -> Q (Ok tt) (c <| c_trace ::= fun t => t ++ [a] |>)) -> triple P (act a) Q.
Proof. intros H. by apply triple_modify. Qed.

Lemma write_triple (P : Conn -> Prop) b (Q : Result Stop unit -> Conn -> Prop) :
  (forall c, P c -> Q (Ok tt) (c <| c_trace ::= fun t => t ++ [ActWrite (c_tls c) b] |>)) -> triple P (write b) Q.
Proof. intros H c Hc. cbn. by apply H. Qed.

(** ** Secrecy and identity *)

Section Secret.
Context `{NodeCrypto} `{NodeSha512} (opts : SmtpClientOptions) (peer : Peer).

(** The lines that say nothing about the message. *)
Definition publicLine (b : bytes) : Prop :=
  b = utf8Encode ((js "EHLO " ++ ehloName opts) ++ crlf) \/ b = utf8Encode (js "STARTTLS" ++ crlf) \/ b = utf8Encode (js "QUIT" ++ crlf).

(** TLS is demanded: by the mode, or because there are credentials and the operator has not chosen to
    send them in the clear. *)
Definition strict : Prop := tlsMode opts = Required \/ tlsMode opts = Implicit \/ (auth opts <> None /\ tlsMode opts <> Never).

(** The peer of the TLS connection was checked: its chain against the pinned certificates, or by the
    rules of the web when the mode demands it. *)
Definition authenticated (t : list Act) : Prop :=
  exists verify chain, ActTls verify chain ∈ t /\
    (daneActive opts = true -> exists d, dane opts = Some d /\ pinned chain d) /\
    (daneActive opts = false -> tlsMode opts = Required \/ tlsMode opts = Implicit -> verify = true).

Record Wire (c : Conn) : Prop := {
  wire_plain : forall b, ActWrite false b ∈ c_trace c -> strict -> publicLine b;
  wire_secure : forall b, ActWrite true b ∈ c_trace c -> authenticated (c_trace c);
  wire_tls : c_tls c = true -> authenticated (c_trace c)
}.

Lemma authenticated_app t a : authenticated t -> authenticated (t ++ [a]).
Proof using. intros (v & ch & Hin & Hr). exists v, ch. split; [apply elem_of_app; by left|done]. Qed.

Lemma Wire_onWire : onWire Wire.
Proof using. intros c c' (Ht & Hs & _) [H1 H2 H3]. constructor; rewrite ?Ht, ?Hs; done. Qed.

Lemma Wire_act c a : Wire c -> (forall s b, a <> ActWrite s b) -> Wire (c <| c_trace ::= fun t => t ++ [a] |>).
Proof using.
  intros [H1 H2 H3] Ha. constructor; cbn.
  - intros b [Hin|Hin%list_elem_of_singleton]%elem_of_app; [by apply H1|]. by destruct (Ha false b).
  - intros b [Hin|Hin%list_elem_of_singleton]%elem_of_app; [|by destruct (Ha true b)]. by apply authenticated_app, (H2 b).
  - intros Ht. by apply authenticated_app, H3.
Qed.

Lemma Wire_write c b : Wire c -> (c_tls c = true \/ publicLine b \/ ~ strict) -> Wire (c <| c_trace ::= fun t => t ++ [ActWrite (c_tls c) b] |>).
Proof using.
  intros [H1 H2 H3] Hb. constructor; cbn.
  - intros b' [Hin|[= Ht ->]%list_elem_of_singleton]%elem_of_app Hs; [by apply H1|]. rewrite <- Ht in Hb. destruct Hb as [?|[?|?]]; done.
  - intros b' [Hin|[= Ht ->]%list_elem_of_singleton]%elem_of_app; [by apply authenticated_app, (H2 b')|]. by apply authenticated_app, H3.
  - intros Ht. by apply authenticated_app, H3.
Qed.

(** The wire in order, and something about the kind of the socket. *)
Definition On (k : bool -> Prop) (c : Conn) : Prop := Wire c /\ k (c_tls c).

Definition anySocket (b : bool) : Prop := True.

(** A socket that may carry everything. *)
Definition cleared (b : bool) : Prop := strict -> b = true.

Lemma On_onWire k : onWire (On k).
Proof using. intros c c' Hs [Hw Hk]. split; [by apply (Wire_onWire c)|]. destruct Hs as (_ & -> & _). done. Qed.

(** Whatever the outcome, the context satisfies [P]; or it satisfies [R] when there is a result. *)
Definition always {A} (P : Conn -> Prop) (r : Result Stop A) (c : Conn) : Prop := P c.
Definition okElse {A} (R : A -> Conn -> Prop) (P : Conn -> Prop) (r : Result Stop A) (c : Conn) : Prop := match r with Ok a => R a c | _ => P c end.

Lemma bind_okElse {A B} (R : A -> Conn -> Prop) P (m : M A) (f : A -> M B) Q X :
  triple P m (okElse R X) -> (forall a, triple (R a) (f a) (okElse Q X)) -> triple P (bind m f) (okElse Q X).
Proof using. intros Hm Hf. apply (triple_bind R); [|done]. eapply triple_conseq; [exact Hm|done|]. by intros [?|?|]. Qed.

Lemma bind_always {A B} P P' (m : M A) (f : A -> M B) Q X :
  triple P m (always P') -> (forall c, P' c -> X c) -> (forall a, triple P' (f a) (okElse Q X)) -> triple P (bind m f) (okElse Q X).
Proof using. intros Hm Hx Hf. apply (bind_okElse (fun _ => P')); [|done]. eapply triple_conseq; [exact Hm|done|]. intros [?|?|]; cbn; auto. Qed.

Lemma always_okElse {A} P (m : M A) R X : triple P m (always R) -> (forall c, R c -> X c) -> triple P m (okElse (fun _ => R) X).
Proof using. intros Hm HX. eapply triple_conseq; [exact Hm|done|]. intros [?|?|]; cbn; auto. Qed.

Lemma okElse_always {A} P (m : M A) R : triple P m (okElse (fun _ => R) R) -> triple P m (always R).
Proof using. intros Hm. eapply triple_conseq; [exact Hm|done|]. by intros [?|?|]. Qed.

Lemma On_write k b : (publicLine b \/ (forall x, k x -> cleared x)) -> triple (On k) (write b) (always (On k)).
Proof using.
  intros Hb. apply write_triple. intros c [Hw Hk]. split; [|done]. apply Wire_write; [done|].
  destruct Hb as [Hb|Hb]; [by right; left|]. specialize (Hb _ Hk). unfold cleared in Hb. destruct (c_tls c); [by left|]. right. right. intros Hs. by specialize (Hb Hs).
Qed.

Lemma On_command k line : (publicLine (utf8Encode (line ++ crlf)) \/ (forall x, k x -> cleared x)) -> triple (On k) (command line) (always (On k)).
Proof using.
  intros Hb. apply okElse_always. unfold command. eapply bind_always; [by apply On_write|done|]. intros _.
  apply always_okElse; [|done]. apply onWire_read; [apply On_onWire|done].
Qed.

Lemma On_quit k : triple (On k) quit (always (On k)).
Proof using.
  unfold quit. apply (triple_catch _ _ _ (fun _ => On k)); [|intros e; by apply triple_ret].
  eapply triple_conseq; [apply (bind_always _ (On k) _ _ (fun _ => On k) (On k))|done|by intros [?|?|]].
  - apply On_command. left. by right; right.
  - done.
  - intros r. by apply triple_ret.
Qed.

Lemma On_destroy k : triple (On k) destroy (always (On k)).
Proof using. apply act_triple. intros c [Hc Hk]. split; [by apply Wire_act|done]. Qed.

Lemma On_leave {A} k f R : triple (A := A) (On k) (leaveWith f) (okElse R (On k)).
Proof using.
  unfold leaveWith. eapply bind_always; [by apply triple_get|done|]. intros rcpts.
  eapply bind_always; [apply On_quit|done|]. intros _. eapply bind_always; [apply On_destroy|done|]. intros _. by apply triple_throw.
Qed.

Lemma On_refuse {A} k r R : triple (A := A) (On k) (refuseNow r) (okElse R (On k)).
Proof using.
  unfold refuseNow. eapply bind_always; [by apply triple_get|done|]. intros rcpts. eapply bind_always; [apply On_destroy|done|]. intros _. by apply triple_throw.
Qed.

Lemma On_ehlo k : triple (On k) (ehlo opts) (always (On k)).
Proof using.
  apply okElse_always. unfold ehlo. eapply bind_always; [apply On_command; left; by left|done|]. intros r.
  destruct (isPositive _); cbn [negb]; [by apply triple_ret|apply On_refuse].
Qed.

Lemma On_greet k : triple (On k) greet (always (On k)).
Proof using.
  apply okElse_always. unfold greet. eapply bind_always; [apply onWire_read; [apply On_onWire|done]|done|]. intros r.
  destruct (isPositive _); cbn [negb]; [by apply triple_ret|apply On_refuse].
Qed.

(** Once the certificates are accepted, the peer is known. *)
Lemma enforce_authentic k chain :
  triple (fun c => On k c /\ ActTls (verifyPeer opts) chain ∈ c_trace c) (enforceDane opts chain) (okElse (fun _ c => On k c /\ authenticated (c_trace c)) (On k)).
Proof using.
  unfold enforceDane. destruct (dane opts) as [d|] eqn:Hd; [destruct (daneActive opts) eqn:Ha|].
  - intros c [Hc Hin]. unfold bind, get. unfold daneFailure. destruct (checkDane chain d) eqn:Hk; cbn.
    + split; [done|]. exists (verifyPeer opts), chain. split; [done|]. split; [|congruence]. intros _. exists d. split; [done|]. by eapply checkDane_match.
    + destruct Hc as [Hw ?]. split; [by apply Wire_act|done].
    + destruct Hc as [Hw ?]. split; [by apply Wire_act|done].
  - apply triple_ret. intros c [Hc Hin]. split; [done|]. exists (verifyPeer opts), chain. split; [done|]. split; [congruence|]. intros _ Hm. unfold verifyPeer. rewrite Ha. by destruct Hm as [-> | ->].
  - apply triple_ret. intros c [Hc Hin]. split; [done|]. assert (Ha : daneActive opts = false) by (unfold daneActive; by rewrite Hd).
    exists (verifyPeer opts), chain. split; [done|]. split; [congruence|]. intros _ Hm. unfold verifyPeer. rewrite Ha. by destruct Hm as [-> | ->].
Qed.

(** A socket that became a TLS one after its peer was checked. *)
Lemma Wire_secured c c' : Wire c -> authenticated (c_trace c) -> c_trace c' = c_trace c -> Wire c'.
Proof using. intros [H1 H2 H3] Ha Ht. constructor; rewrite Ht; auto. Qed.

Lemma On_weaken k k' (c : Conn) : On k c -> (forall x, k x -> k' x) -> On k' c.
Proof using. intros [Hw Hk] Hi. split; auto. Qed.

Definition secured (b : bool) : Prop := b = true.

Lemma act_tls k chain : triple (On k) (act (ActTls (verifyPeer opts) chain)) (always (fun c => On k c /\ ActTls (verifyPeer opts) chain ∈ c_trace c)).
Proof using.
  apply act_triple. intros c [Hw Hk]. split; [split; [by apply Wire_act|done]|]. cbn. apply elem_of_app. right. by apply list_elem_of_singleton.
Qed.

Lemma On_upgrade : triple (On anySocket) (upgrade opts peer) (okElse (fun _ => On secured) (On anySocket)).
Proof using.
  unfold upgrade. destruct (p_upgrade peer) as [m|certs]; [by apply triple_throw|].
  eapply bind_always; [apply act_tls|intros c Hc; apply Hc|]. intros _. eapply bind_okElse; [apply (enforce_authentic anySocket)|]. intros [].
  apply (bind_always _ (On secured)).
  - apply triple_modify. intros c [[Hw _] Ha]. split; [|done]. by apply (Wire_secured c).
  - intros c Hc. by eapply On_weaken.
  - intros _. eapply triple_conseq; [apply On_ehlo|done|]. intros [?|?|] c Hc; cbn; [done|by eapply On_weaken..].
Qed.

(** Before STARTTLS, and after it. *)
Definition initially (b : bool) : Prop := tlsMode opts = Implicit -> b = true.
Definition demanded (b : bool) : Prop := tlsMode opts = Required \/ tlsMode opts = Implicit -> b = true.

Lemma On_startTls first : triple (On initially) (startTls opts peer first) (okElse (fun _ => On demanded) (On anySocket)).
Proof using.
  assert (Hup : triple (On initially) (do again <- upgrade opts peer; ret (again, true)) (okElse (fun _ => On demanded) (On anySocket))).
  { eapply bind_okElse.
    - eapply triple_conseq; [apply On_upgrade| |done]. intros c Hc. by eapply On_weaken.
    - intros r. apply triple_ret. intros c Hc. eapply On_weaken; [exact Hc|]. by intros ? ->. }
  assert (Hleave : forall f, triple (On initially) (leaveWith f) (okElse (fun (_ : ParsedReply * bool) => On demanded) (On anySocket))).
  { intros f. eapply triple_conseq; [apply (On_leave initially f (fun _ _ => False))|done|]. intros [?|?|] c; [done|by intros Hc; eapply On_weaken..]. }
  assert (Hcmd : triple (On initially) (command (js "STARTTLS")) (always (On initially))) by (apply On_command; left; by right; left).
  assert (Hok : forall r c, tlsMode opts <> Required -> On initially c -> okElse (fun (_ : ParsedReply * bool) => On demanded) (On anySocket) (Ok r) c).
  { intros r c Hm Hc. eapply On_weaken; [exact Hc|]. intros x Hx [?|?]; [done|by apply Hx]. }
  unfold startTls. destruct (tlsMode opts) eqn:Hm; [| |by apply triple_ret; eauto..]; destruct (has _ _).
  - eapply bind_always; [exact Hcmd|intros c Hc; by eapply On_weaken|]. intros r. destruct (isPositive _); [done|]. apply triple_ret; eauto.
  - apply triple_ret; eauto.
  - eapply bind_always; [exact Hcmd|intros c Hc; by eapply On_weaken|]. intros r. by destruct (isPositive _).
  - done.
Qed.

Lemma On_doAuth lines a : triple (On cleared) (doAuth lines a) (always (On cleared)).
Proof using.
  assert (Hc : forall line, triple (On cleared) (command line) (always (On cleared))) by (intros; apply On_command; by right).
  apply okElse_always. unfold doAuth. destruct (_ =? 0); [by apply triple_ret|]. destruct (_ || _); [by apply always_okElse|].
  eapply bind_always; [apply Hc|done|]. intros r1. destruct (negb _); [by apply triple_ret|].
  eapply bind_always; [apply Hc|done|]. intros r2. destruct (negb _); [by apply triple_ret|]. by apply always_okElse.
Qed.

Lemma On_authenticate lines : triple (On demanded) (authenticate opts lines) (okElse (fun _ => On cleared) (On anySocket)).
Proof using.
  unfold authenticate. destruct (auth opts) as [a|] eqn:Ha.
  - intros c Hc. unfold bind at 1, get at 1. cbn.
    destruct (negb (c_tls c) && match tlsMode opts with Never => false | _ => true end) eqn:Hn.
    + pose proof (On_leave (A := unit) anySocket (failure 0 (js "AUTH refused on cleartext connection (credentials would be exposed)") false) (fun _ => On cleared)) as Hl.
      specialize (Hl c). apply Hl. by eapply On_weaken.
    + assert (Hcl : On cleared c).
      { destruct Hc as [Hw Hd]. split; [done|]. intros [Hm|[Hm|[_ Hm]]]; [apply Hd; auto..|]. destruct (c_tls c); [done|]. by destruct (tlsMode opts). }
      revert c Hcl Hc Hn. intros c Hcl _ _. revert c Hcl. change (triple (On cleared) (do r <- doAuth lines a; if negb (r_code r =? 235) then leaveWith (failure (r_code r) (js "AUTH failed: " ++ replyText r) false) else ret tt) (okElse (fun _ => On cleared) (On anySocket))).
      eapply bind_always; [apply On_doAuth|intros c Hc; by eapply On_weaken|]. intros r. destruct (negb _); [|by apply triple_ret].
      eapply triple_conseq; [apply (On_leave cleared _ (fun _ => On cleared))|done|]. intros [?|?|] c Hc; [done|by eapply On_weaken..].
  - apply triple_ret. intros c Hc. eapply On_weaken; [exact Hc|]. intros x Hx [?|[?|[? _]]]; [apply Hx; auto..|done].
Qed.

Lemma On_sendRcpts rcpts : triple (On cleared) (sendRcpts rcpts) (always (On cleared)).
Proof using.
  apply okElse_always. induction rcpts as [|rcpt rcpts IH]; cbn [sendRcpts]; [by apply triple_ret|].
  eapply bind_always; [apply On_command; by right|done|]. intros r.
  apply (bind_always _ (On cleared)); [apply triple_modify; intros c [Hw Hk]; split; [by constructor; apply Hw|done]|done|]. intros _.
  eapply bind_okElse; [exact IH|]. intros acc. by apply triple_ret.
Qed.

Lemma On_sendMail caps : triple (On cleared) (sendMail opts caps) (always (On cleared)).
Proof using.
  apply okElse_always. unfold sendMail. destruct (_ && _); [apply On_leave|]. eapply bind_always; [apply On_command; by right|done|]. intros r.
  destruct (isPositive _); cbn [negb]; [by apply triple_ret|apply On_leave].
Qed.

Lemma On_sendData u : triple (On cleared) (sendData opts u) (always (On cleared)).
Proof using.
  apply okElse_always. unfold sendData. eapply bind_always; [apply On_command; by right|done|]. intros r. destruct (negb _); [apply On_leave|].
  do 2 (eapply bind_always; [apply On_write; by right|done|]; intros _).
  eapply bind_always; [apply onWire_read; [apply On_onWire|done]|done|]. intros final. eapply bind_always; [by apply triple_get|done|]. intros rc.
  eapply bind_always; [apply On_quit|done|]. intros _. eapply bind_always; [apply On_destroy|done|]. intros _. by apply triple_ret.
Qed.

Lemma On_session : triple (On initially) (session opts peer) (always (On anySocket)).
Proof using.
  assert (Hweak : forall k c, On k c -> On anySocket c) by (intros k c Hc; by eapply On_weaken).
  apply okElse_always. unfold session. eapply bind_always; [apply On_greet|apply Hweak|]. intros [].
  eapply bind_always; [apply On_ehlo|apply Hweak|]. intros first. eapply bind_okElse; [apply On_startTls|]. intros [last u].
  eapply bind_okElse; [apply On_authenticate|]. intros []. eapply bind_always; [apply On_sendMail|apply Hweak|]. intros [].
  eapply bind_always; [apply On_sendRcpts|apply Hweak|]. intros acc. destruct (_ =? 0).
  - eapply triple_conseq; [apply (On_leave cleared _ (fun _ => On cleared))|done|]. intros [?|?|] c Hc; by eapply Hweak.
  - eapply triple_conseq; [apply On_sendData|done|]. intros [?|?|] c Hc; by eapply Hweak.
Qed.

Lemma On_guarded P (m : M SmtpClientResult) : triple P m (always (On anySocket)) -> triple P (guarded m) (always (On anySocket)).
Proof using.
  intros Hm. unfold guarded. apply (triple_catch _ _ _ (fun _ => On anySocket)); [eapply triple_conseq; [exact Hm|done|by intros [?|?|]]|].
  intros [r|e]; [by apply triple_ret|]. apply okElse_always. eapply bind_always; [apply On_destroy|done|]. intros [].
  eapply bind_always; [by apply triple_get|done|]. intros rc. by apply triple_ret.
Qed.

Lemma On_program : triple (fun c => c_trace c = [] /\ c_tls c = false) (sendProgram opts peer) (always (On anySocket)).
Proof using.
  assert (Hinit : forall c, c_trace c = [] /\ c_tls c = false -> On anySocket c).
  { intros c [Ht Hs]. split; [|done]. constructor; rewrite ?Ht, ?Hs; [intros b Hb; by apply elem_of_nil in Hb..|done]. }
  unfold sendProgram. destruct (unsafeOf opts); [apply triple_ret; eauto|]. destruct (p_connect peer) as [e|certs]; [apply triple_ret; eauto|].
  apply okElse_always. apply (bind_always _ (On anySocket)).
  - apply act_triple. intros c Hc. destruct (Hinit c Hc) as [Hw ?]. split; [by apply Wire_act|done].
  - done.
  - intros []. destruct (tlsMode opts) eqn:Hm.
    1, 2, 4: apply always_okElse; [|done]; apply On_guarded; eapply triple_conseq; [apply On_session| |done]; intros c [Hw _]; split; [done|]; unfold initially; congruence.
    eapply bind_always; [apply act_tls|intros c Hc; apply Hc|]. intros []. apply always_okElse; [|done]. apply On_guarded, okElse_always.
    eapply bind_okElse; [apply (enforce_authentic anySocket)|]. intros []. apply (bind_always _ (On initially)).
    + apply triple_modify. intros c [[Hw _] Ha]. split; [by apply (Wire_secured c)|done].
    + intros c Hc. by eapply On_weaken.
    + intros []. apply always_okElse; [apply On_session|done].
Qed.

(** The wire of a whole run. *)
Lemma client_wire : exists c, c_trace c = (sendSmtp opts peer).2 /\ Wire c.
Proof using.
  unfold sendSmtp. pose proof (On_program {| c_events := p_events peer; c_buf := []; c_tls := false; c_rcpts := []; c_trace := [] |} (conj eq_refl eq_refl)) as Hp.
  destruct (sendProgram opts peer _) as [r c]. destruct Hp as [Hw _]. by exists c.
Qed.

(** C16: when TLS is demanded, by the mode, by pinned certificates, or because credentials are at hand and
    the operator has not chosen to send them in the clear, the only things that go out in the clear are the
    greeting, STARTTLS and QUIT; and whatever goes out over TLS goes to a peer that was checked: one of
    its certificates is pinned, or node verified it when the mode demands that.  This holds for every
    peer, whatever it answers, also when it never finishes. *)
Theorem smtp_client_confidential b :
  let trace := (sendSmtp opts peer).2 in
  (strict -> ActWrite false b ∈ trace -> publicLine b) /\ (ActWrite true b ∈ trace -> authenticated trace).
Proof using.
  cbv zeta. destruct client_wire as (c & <- & [H1 H2 _]). split; [intros Hs Hin; by apply (H1 b)|apply (H2 b)].
Qed.
End Secret.

(** ** Single lines *)

(** One line with its end, and no line end inside. *)
Definition oneLine (b : bytes) : Prop := exists l, b = l ++ crlf /\ CR ∉ l /\ LF ∉ l.

Definition lineSafe (s : jsstr) : Prop := CR ∉ s /\ LF ∉ s.

Lemma scalars_low s c : c < 128 -> c ∈ scalars s -> c ∈ s.
Proof.
  intros Hc. enough (H : forall n s, (length s <= n)%nat -> c ∈ scalars s -> c ∈ s) by eauto.
  intros n. induction n as [|n IH]; intros [|u l] Hn; cbn [length] in Hn; [done|lia|done|]. cbn [scalars].
  destruct (isHigh u) eqn:Hh; [destruct l as [|v l]; [|destruct (isLow v) eqn:Hl]|destruct (isLow u)];
    intros [->|Hin]%elem_of_cons; try (by apply elem_of_nil in Hin).
  - unfold REPLACEMENT in *. lia.
  - unfold isHigh, isLow in *. bool_hyps. lia.
  - right. right. apply IH; [cbn [length] in Hn; lia|done].
  - unfold REPLACEMENT in *. lia.
  - right. apply IH; [lia|done].
  - unfold REPLACEMENT in *. lia.
  - right. apply IH; [lia|done].
  - left.
  - right. apply IH; [lia|done].
Qed.

Lemma utf8Scalar_low c d : d < 128 -> d ∈ utf8Scalar c -> d = c.
Proof.
  unfold utf8Scalar. intros Hd. destruct (Z.ltb_spec c 0x80); [by intros ?%list_elem_of_singleton|].
  assert (0 <= c / 64) by (apply Z.div_pos; lia). assert (0 <= c / 4096) by (apply Z.div_pos; lia). assert (0 <= c / 262144) by (apply Z.div_pos; lia).
  pose proof (Z.mod_pos_bound c 64). pose proof (Z.mod_pos_bound (c / 64) 64). pose proof (Z.mod_pos_bound (c / 4096) 64).
  repeat case_inner; rewrite ?elem_of_cons, elem_of_nil; lia.
Qed.

Lemma utf8Encode_low s c : c < 128 -> c ∈ utf8Encode s -> c ∈ s.
Proof.
  unfold utf8Encode. intros Hc (u & Hu & Hin)%list_elem_of_In%in_flat_map. apply list_elem_of_In in Hu, Hin.
  apply utf8Scalar_low in Hin; [subst|done]. by apply scalars_low.
Qed.

Lemma utf8Encode_command s : lineSafe s -> oneLine (utf8Encode (s ++ crlf)).
Proof.
  intros [Hcr Hlf]. exists (utf8Encode s). split; [|split; intros Hin%utf8Encode_low; [|done..]; done].
  unfold crlf. by rewrite utf8Encode_app_ascii by (unfold CR; lia).
Qed.

Lemma lineSafe_app a b : lineSafe a -> lineSafe b -> lineSafe (a ++ b).
Proof. intros [] []. split; rewrite not_elem_of_app; done. Qed.

Lemma lineSafe_lit s : forallb (fun c => negb ((c =? 13) || (c =? 10))) s = true -> lineSafe s.
Proof.
  rewrite forallb_forall. intros H. split; intros Hin%list_elem_of_In%H; cbn in Hin; done.
Qed.

Definition isUnit (c : Z) : Prop := 0 <= c < 65536.

Lemma scalars_range s : Forall isUnit s -> Forall (fun c => 0 <= c < 0x110000) (scalars s).
Proof.
  enough (H : forall n s, (length s <= n)%nat -> Forall isUnit s -> Forall (fun c => 0 <= c < 0x110000) (scalars s)) by eauto.
  intros n. induction n as [|n IH]; intros [|u l] Hn Hs; cbn [length] in Hn; try constructor; [lia|]. apply Forall_cons in Hs as [Hu Hs]. unfold isUnit in Hu. cbn [scalars].
  destruct (isHigh u) eqn:Hh; [destruct l as [|v l]; [|destruct (isLow v) eqn:Hl]|destruct (isLow u)].
  - repeat constructor; unfold REPLACEMENT; lia.
  - apply Forall_cons in Hs as [Hv Hs]. constructor; [unfold isHigh, isLow in *; bool_hyps; lia|]. apply IH; [cbn [length] in Hn; lia|done].
  - constructor; [unfold REPLACEMENT; lia|]. apply IH; [lia|done].
  - constructor; [unfold REPLACEMENT; lia|]. apply IH; [lia|done].
  - constructor; [lia|]. apply IH; [lia|done].
Qed.

Lemma utf8Encode_range s : Forall isUnit s -> is_bytes (utf8Encode s).
Proof.
  intros Hs%scalars_range. unfold utf8Encode, is_bytes. induction Hs as [|c cs Hc _ IH]; [constructor|]. cbn [flat_map]. apply Forall_app. split; [|done].
  unfold utf8Scalar, is_byte. pose proof (Z.mod_pos_bound c 64). pose proof (Z.mod_pos_bound (c / 64) 64). pose proof (Z.mod_pos_bound (c / 4096) 64).
  repeat case_inner; bool_hyps; repeat constructor; try lia.
  all: try (assert (c / 64 < 32) by (apply Z.div_lt_upper_bound; lia); assert (0 <= c / 64) by (apply Z.div_pos; lia); lia).
  all: try (assert (c / 4096 < 16) by (apply Z.div_lt_upper_bound; lia); assert (0 <= c / 4096) by (apply Z.div_pos; lia); lia).
  all: try (assert (c / 262144 < 8) by (apply Z.div_lt_upper_bound; lia); assert (0 <= c / 262144) by (apply Z.div_pos; lia); lia).
Qed.

Lemma base64_lineSafe s : Forall isUnit s -> lineSafe (base64Utf8 s).
Proof. intros Hs%utf8Encode_range. split; by apply base64Encode_chars. Qed.

Lemma safeAddress_line s : isSafeEnvelopeAddress s = true -> lineSafe s.
Proof.
  unfold isSafeEnvelopeAddress. intros H%negb_true_iff. split; intros Hin%list_elem_of_In.
  all: enough (existsb isUnsafeChar s = true) by congruence; apply existsb_exists; eexists; split; [exact Hin|done].
Qed.

(** ** The transcript *)

Definition writes (t : list Act) : list bytes := omap (fun a => match a with ActWrite _ b => Some b | _ => None end) t.

Lemma writes_app t u : writes (t ++ u) = writes t ++ writes u.
Proof. apply omap_app. Qed.

Section Transcript.
Context `{NodeCrypto} `{NodeSha512} (opts : SmtpClientOptions) (peer : Peer).

(** What the configuration has to be: the name of this host has no line end, and credentials are
    strings. *)
Definition Clean : Prop :=
  lineSafe (ehloName opts) /\ (forall a, auth opts = Some a -> Forall isUnit (user a) /\ Forall isUnit (pass a)).

Definition commandBytes (line : jsstr) : bytes := utf8Encode (line ++ crlf).
Definition mailLine (caps : list jsstr) : jsstr :=
  js "MAIL FROM:<" ++ mailFrom opts ++ js ">" ++ (if has caps (js "8BITMIME") then js " BODY=8BITMIME" else []) ++ (if needsUtf8 opts then js " SMTPUTF8" else []).
Definition rcptLine (rcpt : jsstr) : jsstr := js "RCPT TO:<" ++ rcpt ++ js ">".

(** What was sent so far, and the recipients so far. *)
Definition Sent (w : list bytes) (m : list (jsstr * RcptOutcome)) (c : Conn) : Prop := writes (c_trace c) = w /\ c_rcpts c = m.

(** A result satisfies [R]; a part that ends the attempt ends it without success. *)
Definition goes {A} (R : A -> Conn -> Prop) (r : Result Stop A) (c : Conn) : Prop :=
  match r with Ok a => R a c | Err (Return r) => ok r = false | _ => True end.

Lemma bind_goes {A B} (R : A -> Conn -> Prop) P (m : M A) (f : A -> M B) Q :
  triple P m (goes R) -> (forall a, triple (R a) (f a) (goes Q)) -> triple P (bind m f) (goes Q).
Proof using. intros Hm Hf. apply (triple_bind R); [|done]. eapply triple_conseq; [exact Hm|done|]. by intros [?|[?|?]|]. Qed.

Lemma Sent_onWire w m : onWire (Sent w m).
Proof using. intros c c' (Ht & _ & Hr) [H1 H2]. split; congruence. Qed.

Lemma Sent_read w m : triple (Sent w m) read (goes (fun _ => Sent w m)).
Proof using. apply onWire_read; [apply Sent_onWire|]. by intros c [?|[?|?]|]. Qed.

Lemma Sent_write w m b : triple (Sent w m) (write b) (goes (fun _ => Sent (w ++ [b]) m)).
Proof using. apply write_triple. intros c [H1 H2]. split; [|done]. cbn. by rewrite writes_app, H1. Qed.

Lemma Sent_command w m line : triple (Sent w m) (command line) (goes (fun _ => Sent (w ++ [commandBytes line]) m)).
Proof using. unfold command. eapply bind_goes; [apply Sent_write|]. intros []. apply Sent_read. Qed.

Lemma Sent_destroy w m : triple (Sent w m) destroy (goes (fun _ => Sent w m)).
Proof using. apply act_triple. intros c [H1 H2]. split; [|done]. cbn. by rewrite writes_app, H1, app_nil_r. Qed.

Lemma Sent_quit w m : triple (Sent w m) quit (goes (fun _ => Sent (w ++ [commandBytes (js "QUIT")]) m)).
Proof using.
  intros c Hc. unfold quit, catch, command, bind, writeText, write, act, modify. cbn. set (c' := c <| c_trace ::= _ |>).
  assert (Hc' : Sent (w ++ [commandBytes (js "QUIT")]) m c') by (destruct Hc as [H1 H2]; split; [cbn; by rewrite writes_app, H1|done]).
  pose proof (onWire_read (Sent (w ++ [commandBytes (js "QUIT")]) m) (fun _ => Sent (w ++ [commandBytes (js "QUIT")]) m) (Sent_onWire _ _) (fun c _ H _ => H) c' Hc') as Hr.
  destruct (read c') as [[a|e|] s]; done.
Qed.

Lemma leave_fails {A} P f R : (forall m, ok (f m) = false) -> triple (A := A) P (leaveWith f) (goes R).
Proof using.
  intros Hf c Hc. unfold leaveWith, bind, get. destruct (quit c) as [[[]|e|] c1] eqn:Hq; cbn; [apply Hf| |done].
  unfold quit, catch in Hq. destruct (bind _ _ _) as [[?|?|] ?]; cbn in Hq; simplify_eq.
Qed.

Lemma refuse_fails {A} P r R : triple (A := A) P (refuseNow r) (goes R).
Proof using. intros c Hc. done. Qed.

(** Before the envelope: single lines, no recipients. *)
Definition Opening (c : Conn) : Prop := exists w, Sent w [] c /\ Forall oneLine w.

Lemma Opening_command line : lineSafe line -> triple Opening (command line) (goes (fun _ => Opening)).
Proof using.
  intros Hl. apply triple_at. intros c (w & Hw & Hf). eapply triple_conseq; [apply (Sent_command w [] line)|by intros ? <-|].
  intros [r|[?|?]|] c' Hc; cbn in *; try done. exists (w ++ [commandBytes line]). split; [done|]. apply Forall_app. split; [done|]. constructor; [|done]. by apply utf8Encode_command.
Qed.

Lemma Opening_greet : triple Opening greet (goes (fun _ => Opening)).
Proof using.
  unfold greet. apply (bind_goes (fun _ => Opening)).
  - apply onWire_read; [|by intros c [?|[?|?]|]]. intros c c' Hs (w & Hw & ?). exists w. split; [by apply (Sent_onWire w [] c)|done].
  - intros r. destruct (isPositive _); cbn [negb]; [by apply triple_ret|apply refuse_fails].
Qed.

Lemma Opening_ehlo : Clean -> triple Opening (ehlo opts) (goes (fun _ => Opening)).
Proof using.
  intros [Hn _]. unfold ehlo, ehloRoundtrip. eapply bind_goes; [apply Opening_command|].
  - apply lineSafe_app; [by apply lineSafe_lit|done].
  - intros r. destruct (isPositive _); cbn [negb]; [by apply triple_ret|apply refuse_fails].
Qed.

Lemma Opening_act a : (forall s b, a <> ActWrite s b) -> triple Opening (act a) (goes (fun _ => Opening)).
Proof using.
  intros Ha. apply act_triple. intros c (w & [H1 H2] & Hf). exists w. split; [|done]. split; [|done]. cbn. rewrite writes_app, H1.
  destruct a as [|?|s b|]; cbn; rewrite ?app_nil_r; try done. by destruct (Ha s b).
Qed.

Lemma Opening_dane chain : triple Opening (enforceDane opts chain) (goes (fun _ => Opening)).
Proof using.
  unfold enforceDane, daneFailure. destruct (dane opts) as [d|]; [|by apply triple_ret]. destruct (daneActive opts); [|by apply triple_ret].
  apply (bind_goes (fun _ => Opening)); [by apply triple_get|]. intros m. destruct (checkDane chain d); [by apply triple_ret|by intros c..].
Qed.

Lemma Opening_upgrade : Clean -> triple Opening (upgrade opts peer) (goes (fun _ => Opening)).
Proof using.
  intros Hc. unfold upgrade. destruct (p_upgrade peer) as [m|certs]; [by apply triple_throw|].
  eapply bind_goes; [by apply Opening_act|]. intros []. eapply bind_goes; [apply Opening_dane|]. intros [].
  apply (bind_goes (fun _ => Opening)); [|intros []; by apply Opening_ehlo]. apply triple_modify. intros c (w & [H1 H2] & Hf). by exists w.
Qed.

Lemma Opening_startTls first : Clean -> triple Opening (startTls opts peer first) (goes (fun _ => Opening)).
Proof using.
  intros Hc. assert (Hcmd : triple Opening (command (js "STARTTLS")) (goes (fun _ => Opening))) by (apply Opening_command; by apply lineSafe_lit).
  assert (Hup : triple Opening (do again <- upgrade opts peer; ret (again, true)) (goes (fun _ => Opening)))
    by (eapply bind_goes; [by apply Opening_upgrade|]; intros r; by apply triple_ret).
  unfold startTls. destruct (tlsMode opts); [| |by apply triple_ret..]; cbv iota; destruct (has _ _).
  - eapply bind_goes; [exact Hcmd|]. intros r. destruct (isPositive _); [done|]. by apply triple_ret.
  - by apply triple_ret.
  - eapply bind_goes; [exact Hcmd|]. intros r. destruct (isPositive _); [done|]. by apply leave_fails.
  - by apply leave_fails.
Qed.

Lemma Opening_auth lines : Clean -> triple Opening (authenticate opts lines) (goes (fun _ => Opening)).
Proof using.
  intros [_ Ha]. unfold authenticate. destruct (auth opts) as [a|]; [|by apply triple_ret]. destruct (Ha a eq_refl) as [Hu Hp].
  apply (bind_goes (fun _ => Opening)); [by apply triple_get|]. intros sec. destruct (_ && _); [by apply leave_fails|].
  apply (bind_goes (fun _ => Opening)); [|intros r; destruct (negb _); [by apply leave_fails|by apply triple_ret]].
  unfold doAuth. destruct (_ =? 0); [by apply triple_ret|]. destruct (_ || _).
  - apply Opening_command, lineSafe_app; [by apply lineSafe_lit|]. apply base64_lineSafe. rewrite !Forall_app. split_and!; try done; repeat constructor; unfold isUnit; lia.
  - eapply bind_goes; [apply Opening_command; by apply lineSafe_lit|]. intros r1. destruct (negb _); [by apply triple_ret|].
    eapply bind_goes; [apply Opening_command; by apply base64_lineSafe|]. intros r2. destruct (negb _); [by apply triple_ret|]. by apply Opening_command, base64_lineSafe.
Qed.

(** The map of the recipients after the replies [outs] to [rs]. *)
Definition recorded (m : list (jsstr * RcptOutcome)) (rs : list jsstr) (outs : list RcptOutcome) : list (jsstr * RcptOutcome) :=
  fold_left (fun m ro => mapSet ro.1 ro.2 m) (zip rs outs) m.

Definition acceptedOf (rs : list jsstr) (outs : list RcptOutcome) : list jsstr := map fst (List.filter (fun ro => isPositive (rc_code ro.2)) (zip rs outs)).

Lemma Sent_rcpts rs : forall w m, triple (Sent w m) (sendRcpts rs) (goes (fun acc c => exists outs, length outs = length rs /\
  Sent (w ++ map (fun r => commandBytes (rcptLine r)) rs) (recorded m rs outs) c /\ acc = acceptedOf rs outs)).
Proof using.
  induction rs as [|r rs IH]; intros w m; cbn [sendRcpts].
  - apply triple_ret. intros c Hc. exists []. cbn. by rewrite app_nil_r.
  - eapply bind_goes; [apply Sent_command|]. intros reply. set (o := mkRcpt (r_code reply) (isPermanent (r_code reply)) (replyText reply)).
    apply (bind_goes (fun _ => Sent (w ++ [commandBytes (rcptLine r)]) (mapSet r o m))).
    + apply triple_modify. intros c [H1 H2]. split; [done|]. cbn. by rewrite H2.
    + intros []. eapply bind_goes; [apply IH|]. intros acc. apply triple_ret. intros c (outs & Hl & Hs & ->). exists (o :: outs). split; [cbn; by rewrite Hl|].
      split; [cbn [map]; by rewrite (cons_middle (commandBytes (rcptLine r))), app_assoc|]. unfold acceptedOf. cbn. by destruct (isPositive _).
Qed.

Definition messageWrites : list bytes := [dotStuff (raw opts); terminator (dotStuff (raw opts))].

Lemma Sent_data w m u : triple (Sent w m) (sendData opts u) (goes (fun r c =>
  Sent (w ++ [commandBytes (js "DATA")] ++ messageWrites ++ [commandBytes (js "QUIT")]) m c /\ rcptResults r = m /\ (ok r = true -> isPositive (code r) = true))).
Proof using.
  unfold sendData. eapply bind_goes; [apply Sent_command|]. intros r. destruct (negb _); [by apply leave_fails|].
  eapply bind_goes; [apply Sent_write|]. intros []. eapply bind_goes; [apply Sent_write|]. intros []. eapply bind_goes; [apply Sent_read|]. intros final.
  apply (bind_goes (fun rc c => rc = m /\ Sent (((w ++ [commandBytes (js "DATA")]) ++ [dotStuff (raw opts)]) ++ [terminator (dotStuff (raw opts))]) m c)).
  - apply triple_get. intros c Hc. split; [apply Hc|done].
  - intros rc. apply (bind_goes (fun _ c => rc = m /\ Sent ((((w ++ [commandBytes (js "DATA")]) ++ [dotStuff (raw opts)]) ++ [terminator (dotStuff (raw opts))]) ++ [commandBytes (js "QUIT")]) m c)).
    + intros c [-> Hc]. pose proof (Sent_quit _ _ c Hc) as Hq. destruct (quit c) as [[?|[?|?]|] c']; cbn in *; done.
    + intros []. apply (bind_goes (fun _ c => rc = m /\ Sent ((((w ++ [commandBytes (js "DATA")]) ++ [dotStuff (raw opts)]) ++ [terminator (dotStuff (raw opts))]) ++ [commandBytes (js "QUIT")]) m c)).
      * intros c [-> Hc]. pose proof (Sent_destroy _ _ c Hc) as Hq. cbn in *. done.
      * intros []. apply triple_ret. intros c [-> Hc]. split; [|done]. unfold messageWrites. cbn [app]. rewrite <- !app_assoc in Hc. exact Hc.
Qed.

(** A success: the envelope, the message and the farewell after an opening of single lines. *)
Definition Success (r : SmtpClientResult) (t : list Act) : Prop :=
  exists opening caps outs,
    Forall oneLine opening /\
    writes t = opening ++ [commandBytes (mailLine caps)] ++ map (fun x => commandBytes (rcptLine x)) (rcptTo opts)
               ++ [commandBytes (js "DATA")] ++ messageWrites ++ [commandBytes (js "QUIT")] /\
    length outs = length (rcptTo opts) /\ rcptResults r = recorded [] (rcptTo opts) outs /\ acceptedOf (rcptTo opts) outs <> [] /\ isPositive (code r) = true.

Lemma session_success : Clean -> triple Opening (session opts peer) (goes (fun r c => ok r = true -> Success r (c_trace c))).
Proof using.
  intros Hc. unfold session. eapply bind_goes; [apply Opening_greet|]. intros []. eapply bind_goes; [by apply Opening_ehlo|]. intros first.
  eapply bind_goes; [by apply Opening_startTls|]. intros [last u]. eapply bind_goes; [by apply Opening_auth|]. intros [].
  apply triple_at. intros c0 (opening & Ho & Hlines). set (caps := parseCaps (r_lines last)).
  apply (bind_goes (fun _ => Sent (opening ++ [commandBytes (mailLine caps)]) [])).
  { unfold sendMail. destruct (_ && _); [by apply leave_fails|].
    eapply bind_goes; [eapply triple_conseq; [apply (Sent_command opening [] (mailLine caps))|by intros ? <-|done]|].
    intros r. destruct (isPositive _); cbn [negb]; [by apply triple_ret|by apply leave_fails]. }
  intros []. eapply bind_goes; [apply Sent_rcpts|]. intros acc. destruct (Z.eqb_spec (len acc) 0) as [|Hacc]; [by apply leave_fails|].
  apply triple_at. intros c1 (outs & Hl & Hs & ->). eapply triple_conseq; [apply Sent_data|by intros ? <-; exact Hs|].
  intros [r|[?|?]|] c; cbn [goes]; try done. intros ([Hw _] & Hr & Hpos) Hok. exists opening, caps, outs. split_and!; try done.
  - by rewrite Hw, <- !app_assoc.
  - intros Hnil. by rewrite Hnil in Hacc.
  - by apply Hpos.
Qed.

Lemma guarded_success P m : triple P m (goes (fun r c => ok r = true -> Success r (c_trace c))) ->
  triple P (guarded m) (goes (fun r c => ok r = true -> Success r (c_trace c))).
Proof using.
  intros Hm c Hc. specialize (Hm c Hc). unfold guarded, catch. destruct (m c) as [[r|[r|e]|] c']; cbn in *; try done; intros; congruence.
Qed.

(** A run that reports success has sent what it should: the transcript is an opening of single lines,
    the envelope of every recipient, the stuffed message and its end, and the farewell; the outcomes of
    the recipients are recorded under their addresses, and one of them at least was accepted. *)
Lemma client_success r t : Clean -> sendSmtp opts peer = (Some r, t) -> ok r = true -> unsafeOf opts = None /\ Success r t.
Proof using.
  intros Hc Hs Hok. unfold sendSmtp, sendProgram in Hs. destruct (unsafeOf opts); [by cbn in Hs; simplify_eq|]. split; [done|].
  destruct (p_connect peer) as [e|certs]; [by cbn in Hs; simplify_eq|].
  assert (Hp : triple (Sent [] []) (do_ act ActConnect; match tlsMode opts with
      | Implicit => do_ act (ActTls (verifyPeer opts) (peerChain certs)); guarded (do_ enforceDane opts (peerChain certs); do_ modify (fun c => c <| c_tls := true |>); session opts peer)
      | _ => guarded (session opts peer) end) (goes (fun r c => ok r = true -> Success r (c_trace c)))).
  { eapply bind_goes; [eapply triple_conseq; [by apply Opening_act| |done]|].
    { intros c Hw. exists []. split; [done|constructor]. }
    intros []. destruct (tlsMode opts); [by apply guarded_success, session_success..| |by apply guarded_success, session_success].
    eapply bind_goes; [by apply Opening_act|]. intros []. apply guarded_success. eapply bind_goes; [apply Opening_dane|]. intros [].
    apply (bind_goes (fun _ => Opening)); [apply triple_modify; intros c (w & [H1 H2] & Hf); by exists w|]. intros []. by apply session_success. }
  specialize (Hp {| c_events := p_events peer; c_buf := []; c_tls := false; c_rcpts := []; c_trace := [] |} (conj eq_refl eq_refl)).
  destruct (bind _ _ _) as [[r'|e|] c]; cbn in Hs; simplify_eq. by apply Hp.
Qed.
End Transcript.

(** ** The attempt ends

    A socket that is idle for [timeoutMs] is destroyed with an error, so what a peer does ends in an error or
    in a close.  With every such peer, whatever it sends before, the attempt comes to a result. *)

Definition lasts (evs : list Event) : Prop := exists before e, evs = before ++ [e] /\ match e with EvData _ => False | _ => True end.
Definition Answers (p : Peer) : Prop :=
  (forall certs, p_connect p = inr certs -> lasts (p_events p)) /\ (forall certs, p_upgrade p = inr certs -> lasts (p_tlsEvents p)).

Section Ends.
Context `{NodeCrypto} `{NodeSha512} (opts : SmtpClientOptions) (peer : Peer) (Hpeer : Answers peer).

Definition live (c : Conn) : Prop := lasts (c_events c).
(** Goes on with a peer that is still to end, or stops early; and: comes to a result of either kind. *)
Definition ends {A} (m : M A) : Prop := triple live m (fun r c => match r with Ok _ => live c | Err _ => True | Fuel => False end).
Definition halts {A} (m : M A) : Prop := triple live m (fun r _ => r <> Fuel).

Lemma ends_bind {A B} (m : M A) (k : A -> M B) : ends m -> (forall a, ends (k a)) -> ends (bind m k).
Proof using. intros Hm Hk. eapply (triple_bind (fun _ => live)); [|done]. eapply triple_conseq; [exact Hm|done|]. by intros [a|e|] s. Qed.

Lemma halts_bind {A B} (m : M A) (k : A -> M B) : ends m -> (forall a, halts (k a)) -> halts (bind m k).
Proof using. intros Hm Hk. eapply (triple_bind (fun _ => live)); [|done]. eapply triple_conseq; [exact Hm|done|]. by intros [a|e|] s. Qed.

Lemma ends_halts {A} (m : M A) : ends m -> halts m.
Proof using. intros Hm. eapply triple_conseq; [exact Hm|done|]. by intros [a|e|] s. Qed.

Lemma ends_ret {A} (a : A) : ends (ret a).
Proof using. by intros c Hc. Qed.
Lemma ends_throw {A} s : ends (throw s : M A).
Proof using. by intros c Hc. Qed.
Lemma ends_get {A} (f : Conn -> A) : ends (get f).
Proof using. by intros c Hc. Qed.
Lemma ends_modify f : (forall c, live c -> live (f c)) -> ends (modify f).
Proof using. intros Hf c Hc. by apply Hf. Qed.
Lemma ends_write b : ends (write b).
Proof using. by intros c Hc. Qed.
Lemma ends_destroy : ends destroy.
Proof using. by intros c Hc. Qed.

Lemma lasts_tail e evs : lasts (e :: evs) -> match e with EvData _ => lasts evs | _ => True end.
Proof using.
  intros (before & l & E & Hl). destruct e; try done. destruct before as [|x before]; cbn in E; [by simplify_eq|]. injection E as _ ->. by exists before, l.
Qed.

Lemma readEvents_ends evs : forall buf code lines, lasts evs ->
  let '(r, (evs', _)) := readEvents evs buf code lines in match r with Ok _ => lasts evs' | Err _ => True | Fuel => False end.
Proof using.
  induction evs as [|e evs IH]; intros buf c lines Hl; [destruct Hl as ([|? ?] & e & E & _); by cbn in E|].
  apply lasts_tail in Hl. destruct e as [chunk|m|]; cbn [readEvents]; [|done..]. destruct (MAX_REPLY_BYTES <? _); [done|]. destruct (tryParse _ _ _ _); [by apply IH|done..].
Qed.

Lemma ends_read : ends read.
Proof using.
  intros c Hc. unfold read. destruct (tryParse _ _ _ _) as [buf code lines|buf r|buf line]; [|done..].
  pose proof (readEvents_ends (c_events c) buf code lines Hc) as He. destruct (readEvents _ _ _ _) as [r [evs b]]. by destruct r.
Qed.

Create HintDb ends discriminated.
#[local] Hint Resolve ends_ret ends_throw ends_get ends_write ends_destroy ends_read : ends.
#[local] Hint Extern 1 (ends (act _)) => apply ends_modify; by intros : ends.
#[local] Hint Extern 1 (ends (writeText _)) => apply ends_write : ends.
#[local] Hint Extern 1 (ends (return_ _)) => apply ends_throw : ends.

Lemma ends_command line : ends (command line).
Proof using. apply ends_bind; [apply ends_write|intros _; apply ends_read]. Qed.
#[local] Hint Resolve ends_command : ends.

(** The farewell is tried, and then the connection is given up. *)
Lemma quit_then {A} (m : M A) : (forall c, (m c).1 <> Fuel) -> halts (bind quit (fun _ => m)).
Proof using.
  intros Hm c Hc. unfold bind, quit, catch. pose proof (ends_command (js "QUIT") c Hc) as He. unfold bind.
  destruct (command (js "QUIT") c) as [[r|e|] c']; [| |done]; cbn; specialize (Hm c'); by destruct (m c').
Qed.

(** One step through a program, at the binds and the branches. *)
Ltac ends_step := first [solve [eauto with ends] | solve [apply ends_halts; eauto with ends] | solve [by apply quit_then] | apply ends_bind; [|intros ?] | apply halts_bind; [|intros ?] | case_match].


Lemma leave_ends {A} result : ends (leaveWith result : M A).
Proof using.
  intros c Hc. pose proof (ends_command (js "QUIT") c Hc) as He. unfold leaveWith, quit, catch, bind. cbn [get].
  destruct (command (js "QUIT") c) as [[r|e|] c']; done.
Qed.

Lemma refuse_ends {A} r : ends (refuseNow r : M A).
Proof using. unfold refuseNow. repeat ends_step. Qed.
#[local] Hint Resolve leave_ends refuse_ends : ends.

Lemma ends_ehlo : ends (ehlo opts).
Proof using. unfold ehlo, ehloRoundtrip. repeat ends_step. Qed.

Lemma ends_enforceDane chain : ends (enforceDane opts chain).
Proof using. unfold enforceDane. repeat ends_step. Qed.
#[local] Hint Resolve ends_ehlo ends_enforceDane : ends.

Lemma ends_upgrade : ends (upgrade opts peer).
Proof using Hpeer.
  unfold upgrade. destruct (p_upgrade peer) as [e|certs] eqn:E; [repeat ends_step|]. repeat ends_step.
  apply ends_modify. intros c _. destruct Hpeer as [_ Hu]. by apply (Hu certs).
Qed.
#[local] Hint Resolve ends_upgrade : ends.

Lemma ends_rcpts rs : ends (sendRcpts rs).
Proof using. induction rs as [|r rs IH]; cbn [sendRcpts]; repeat ends_step. Qed.
#[local] Hint Resolve ends_rcpts : ends.

Lemma session_halts : halts (session opts peer).
Proof using Hpeer.
  unfold session, greet, startTls, authenticate, doAuth, sendMail, sendData. repeat ends_step.
Qed.

Lemma guarded_ends (m : M SmtpClientResult) c : (m c).1 <> Fuel -> exists r c', guarded m c = (Ok r, c').
Proof using. intros Hm. unfold guarded, catch. destruct (m c) as [[r|[r|e]|] c']; [by eauto..|done]. Qed.

Lemma act_bind {A} a (k : unit -> M A) c : bind (act a) k c = k tt (c <| c_trace ::= fun t => t ++ [a] |>).
Proof using. done. Qed.

Lemma sendSmtp_ends : exists r t, sendSmtp opts peer = (Some r, t).
Proof using Hpeer.
  unfold sendSmtp, sendProgram. destruct (unsafeOf opts); [by cbn; eauto|]. destruct (p_connect peer) as [e|certs] eqn:E; [by cbn; eauto|].
  assert (Hg : forall b c, live c -> exists r c', guarded (do_ enforceDane opts (peerChain certs); do_ modify (fun c => c <| c_tls := b |>); session opts peer) c = (Ok r, c')).
  { intros b c Hc. apply guarded_ends. assert (Hh : halts (do_ enforceDane opts (peerChain certs); do_ modify (fun c => c <| c_tls := b |>); session opts peer)).
    { apply halts_bind; [apply ends_enforceDane|intros _]. apply halts_bind; [by apply ends_modify|intros _; apply session_halts]. }
    specialize (Hh c Hc). by destruct (bind _ _ c). }
  assert (Hs : forall c, live c -> exists r c', guarded (session opts peer) c = (Ok r, c')).
  { intros c Hc. apply guarded_ends. pose proof (session_halts c Hc) as Hh. by destruct (session opts peer c). }
  destruct Hpeer as [Hl _]. specialize (Hl certs E). rewrite act_bind. destruct (tlsMode opts); rewrite ?act_bind.
  all: first [match goal with |- context [guarded (session _ _) ?c] => destruct (Hs c Hl) as (r & c' & ->) end
             | match goal with |- context [guarded _ ?c] => destruct (Hg true c Hl) as (r & c' & ->) end]; by eauto.
Qed.
End Ends.
