(* ===== verification/SmtpRelay.v ===== *)
(** * From the outbound client to the receiving engine

    What [SmtpClient.sendSmtp] writes after DATA, read by the engine of [Smtp]: the message arrives as it
    was queued. *)

From S2P Require Import Prelude JsString Text Limits Loop Effects Sasl Scram Dane SmtpParams Smtp SmtpClient SmtpClientSpec.

(** ** Lines *)

(** Every line feed follows a carriage return. *)
Fixpoint noBareLf (afterCr : bool) (bs : bytes) : bool :=
  match bs with
  | [] => true
  | b :: bs' => (negb (b =? LF) || afterCr) && noBareLf (b =? CR) bs'
  end.

(** What arrives: a last line without an end gets one. *)
Definition arrived (bs : bytes) : bytes := if endsWithCrlf bs then bs else bs ++ crlf.

Lemma countDots_none start bs : countDots start bs = 0 -> writeDots start bs = bs.
Proof.
  assert (Hn : forall s l, 0 <= countDots s l) by (intros s l; revert s; induction l as [|b l IH]; intros s; cbn [countDots]; [lia|]; specialize (IH (b =? 0x0a)); case_match; lia).
  revert start. induction bs as [|b bs IH]; intros start; cbn [countDots writeDots]; [done|].
  specialize (Hn (b =? 0x0a) bs). destruct (_ && _); [lia|]. intros Hz. cbn [app]. by rewrite IH by lia.
Qed.

Lemma dotStuff_dots bs : dotStuff bs = writeDots true bs.
Proof. unfold dotStuff. destruct (Z.eqb_spec (countDots true bs) 0) as [Hz|]; [|done]. by rewrite countDots_none. Qed.

Lemma writeDots_plain l rest : LF ∉ l -> writeDots false (l ++ rest) = l ++ writeDots (match l with [] => false | _ => false end) rest.
Proof.
  induction l as [|b l IH]; cbn [app writeDots]; [done|]. intros [Hb Hl]%not_elem_of_cons.
  rewrite (proj2 (Z.eqb_neq b 0x0a)) by (unfold LF in Hb; lia). cbn [app andb]. rewrite IH by done. by destruct l.
Qed.

Lemma writeDots_line l rest : LF ∉ l -> (l <> [] \/ rest = [] \/ head rest = Some CR) -> writeDots true (l ++ rest) = stuffLine l ++ writeDots false rest.
Proof.
  intros Hl Hr. unfold stuffLine. destruct l as [|b l]; cbn [startsWith].
  - cbn [app]. destruct rest as [|c rest]; [done|]. destruct Hr as [?|[?|[= ->]]]; done.
  - apply not_elem_of_cons in Hl as [Hb Hl]. cbn [app writeDots andb]. rewrite (proj2 (Z.eqb_neq b 0x0a)) by (unfold LF in Hb; lia).
    rewrite writeDots_plain by done. replace (match l with [] => false | _ => false end) with false by (by destruct l).
    rewrite (Z.eqb_sym DOT b). unfold DOT. rewrite andb_true_r. destruct (b =? 46) eqn:E; cbn [app]; [apply Z.eqb_eq in E; subst|]; done.
Qed.

Lemma noBareLf_no_lf a l : noBareLf a l = true -> no_crlf l -> (a = true -> head l <> Some LF) -> LF ∉ l.
Proof.
  revert a. induction l as [|b l IH]; intros a; [intros; by apply not_elem_of_nil|]. cbn [noBareLf]. intros [Hb Hl]%andb_true_iff Hc Ha. apply not_elem_of_cons. split.
  - intros <-. rewrite Z.eqb_refl in Hb. cbn in Hb. by apply Ha.
  - apply (IH _ Hl); [by eapply no_crlf_cons|]. intros ->%Z.eqb_eq. destruct l as [|c l]; [done|]. intros [= ->]. by cbn in Hc.
Qed.

Lemma noBareLf_app a l r : noBareLf a (l ++ r) = true -> noBareLf a l = true.
Proof. revert a. induction l as [|b l IH]; intros a; cbn [app noBareLf]; [done|]. intros [-> H]%andb_true_iff. cbn [andb]. by apply IH. Qed.

Lemma noBareLf_rest a l r : noBareLf a (l ++ crlf ++ r) = true -> noBareLf false r = true.
Proof.
  revert a. induction l as [|b l IH]; intros a; cbn [app noBareLf].
  - cbn. done.
  - intros [_ H]%andb_true_iff. by apply IH in H.
Qed.

Lemma indexOfCRLF_take bs i : indexOfCRLF bs = Some i -> no_crlf (take i bs).
Proof.
  intros Hi. unfold no_crlf. destruct (indexOfCRLF (take i bs)) as [j|] eqn:Hj; [|done].
  pose proof (indexOfCRLF_app_l _ (drop i bs) _ Hj) as Ha. rewrite take_drop in Ha. pose proof (indexOfCRLF_lt _ _ Hj) as Hl. rewrite length_take in Hl. simplify_eq. lia.
Qed.

(** A message as its lines and what is left. *)
Lemma message_lines n bs : (length bs <= n)%nat -> noBareLf false bs = true ->
  exists ls last, bs = bodyOf ls ++ last /\ Forall no_crlf ls /\ LF ∉ last /\ writeDots true bs = flat_map (fun l => stuffLine l ++ crlf) ls ++ stuffLine last.
Proof.
  revert bs. induction n as [|n IH]; intros bs Hn Hb.
  { destruct bs; [|cbn in Hn; lia]. exists [], []. split_and!; try done. apply not_elem_of_nil. }
  destruct (indexOfCRLF bs) as [i|] eqn:Hi.
  - pose proof (indexOfCRLF_split _ _ Hi) as Hs. pose proof (indexOfCRLF_take _ _ Hi) as Hno. set (l := take i bs) in *. set (r := drop (i + 2) bs) in *.
    clearbody l. assert (Hlen : (length r < length bs)%nat) by (pose proof (indexOfCRLF_lt _ _ Hi); subst r; rewrite length_drop; lia). clearbody r.
    subst bs. pose proof (noBareLf_rest _ _ _ Hb) as Hr. pose proof (noBareLf_no_lf false l (noBareLf_app _ _ _ Hb) Hno ltac:(done)) as Hl.
    destruct (IH r) as (ls & last & Hbody & Hls & Hlast & Hw); [lia|done|].
    exists (l :: ls), last. split_and!; try done.
    + rewrite Hbody. unfold bodyOf. cbn [flat_map]. by rewrite <- !app_assoc.
    + by constructor.
    + rewrite writeDots_line by auto. cbn [crlf app writeDots flat_map]. rewrite <- !app_assoc. f_equal. cbn. by rewrite Hw.
  - assert (Hl : LF ∉ bs) by (by apply (noBareLf_no_lf false)). exists [], bs. split_and!; try done.
    rewrite <- (app_nil_r bs) at 1. rewrite writeDots_line by auto. cbn. by rewrite app_nil_r.
Qed.

Lemma rev_last_crlf ls : ls <> [] -> endsWithCrlf (bodyOf ls) = true.
Proof.
  intros Hne. destruct (exists_last Hne) as (ls' & l & ->). unfold endsWithCrlf, bodyOf. rewrite flat_map_app. cbn [flat_map]. by rewrite app_nil_r, !rev_app_distr.
Qed.

Lemma endsWithCrlf_stuffed ls : ls <> [] -> endsWithCrlf (flat_map (fun l => stuffLine l ++ crlf) ls) = true.
Proof.
  intros Hne. destruct (exists_last Hne) as (ls' & l & ->). unfold endsWithCrlf. rewrite flat_map_app. cbn [flat_map]. by rewrite app_nil_r, !rev_app_distr.
Qed.

Lemma endsWithCrlf_tail pre l : l <> [] -> LF ∉ l -> endsWithCrlf (pre ++ l) = false.
Proof.
  intros Hne Hl. destruct (exists_last Hne) as (l' & b & ->). unfold endsWithCrlf. rewrite !rev_app_distr. cbn [rev app].
  destruct (rev l' ++ rev pre); [done|]. apply not_elem_of_app in Hl as [_ Hb]. rewrite not_elem_of_cons in Hb. rewrite (proj2 (Z.eqb_neq b 0x0a)) by (unfold LF in Hb; lia). apply andb_false_r.
Qed.

Lemma stuffLine_no_lf l : LF ∉ l -> LF ∉ stuffLine l.
Proof. intros H. unfold stuffLine. case_match; [|done]. apply not_elem_of_cons. split; [done|]. exact H. Qed.

Lemma stuffLine_nonempty l : l <> [] -> stuffLine l <> [].
Proof. intros H. unfold stuffLine. by case_match. Qed.

Lemma no_lf_no_crlf_line l : LF ∉ l -> no_crlf l.
Proof.
  unfold no_crlf. intros H. destruct (indexOfCRLF l) as [i|] eqn:Hi; [|done]. rewrite (indexOfCRLF_split _ _ Hi) in H.
  exfalso. apply H. apply elem_of_app. right. right. left.
Qed.

(** The message and its terminator are the stuffed lines of what arrives. *)
Lemma client_message bs : noBareLf false bs = true ->
  exists ls, Forall no_crlf ls /\ dotStuff bs ++ terminator (dotStuff bs) = stuffedBody ls /\ bodyOf ls = arrived bs.
Proof.
  intros Hb. destruct (message_lines (length bs) bs (le_n _) Hb) as (ls & last & Hs & Hls & Hlast & Hw). rewrite dotStuff_dots, Hw.
  destruct (decide (last = [])) as [->|Hne].
  - change (stuffLine []) with (@nil Z). rewrite app_nil_r in *. subst bs. destruct (decide (ls = [])) as [->|Hne'].
    + exists [[]]. by split_and!; [repeat constructor| |].
    + exists ls. split; [done|]. unfold terminator, arrived. rewrite endsWithCrlf_stuffed, rev_last_crlf by done. done.
  - exists (ls ++ [last]). split; [apply Forall_app; split; [done|]; constructor; [by apply no_lf_no_crlf_line|done]|].
    unfold terminator, arrived. rewrite Hs, !endsWithCrlf_tail by (auto using stuffLine_no_lf, stuffLine_nonempty).
    unfold stuffedBody, bodyOf. rewrite !flat_map_app. cbn [flat_map]. rewrite !app_nil_r, <- !app_assoc. done.
Qed.

(** C23: what the client writes after DATA is, for the receiving engine of this server, the message
    itself, byte for byte, with the envelope of the transaction, as long as it is within the size limit:
    no line of it ends the message early or is taken for a command. *)
Theorem smtp_relay_transparent {SS : ScramServer} opts cfg s :
  noBareLf false (SmtpClient.raw opts) = true ->
  Smtp.Idle Smtp.StData s -> Smtp.dataChunks (Smtp.tx s) = [] -> Smtp.dataSize (Smtp.tx s) = 0 -> Smtp.dataOverflow (Smtp.tx s) = false ->
  Smtp.errorCount s < MAX_SMTP_ERRORS_PER_SESSION -> len (arrived (SmtpClient.raw opts)) <= Smtp.maxSizeBytes cfg ->
  Smtp.feed cfg (concat (messageWrites opts)) s =
  (s <| Smtp.awaiting := Smtp.WDeliver |>,
   [Smtp.ADeliver {| Smtp.e_mailFrom := default [] (Smtp.mailFrom (Smtp.tx s)); Smtp.e_heloName := Smtp.heloName s;
                     Smtp.e_rcptTo := Smtp.rcptTo (Smtp.tx s); Smtp.e_raw := arrived (SmtpClient.raw opts);
                     Smtp.e_authenticatedAs := Smtp.authenticatedAs s; Smtp.e_dsn := Smtp.dsnOf (Smtp.tx s) |}]).
Proof.
  intros Hb Hi Hc Hd Ho He Hlen. destruct (client_message _ Hb) as (ls & Hls & Hst & Hbody).
  unfold messageWrites. cbn [concat]. rewrite app_nil_r, Hst, <- Hbody in *.
  pose proof (len_nonneg (bodyOf ls)). rewrite (smtp_data_roundtrip cfg) by (try done; lia). by rewrite (proj2 (Z.leb_le _ _) Hlen).
Qed.

(** ** Examples *)

Section Examples.
#[local] Existing Instance toyCrypto.
#[local] Instance exampleSha512 : NodeSha512 := {| sha512 := fun b => b |}.

Definition line_ (s : string) : Event := EvData (js s ++ crlf).

Definition exampleOptions : SmtpClientOptions :=
  {| SmtpClient.host := js "mx.example"; port := 25; ehloName := js "me.example"; SmtpClient.mailFrom := js "a@b.example";
     SmtpClient.rcptTo := [js "c@d.example"; js "e@d.example"]; SmtpClient.raw := js "Hi" ++ crlf ++ js ".x"; timeoutMs := None;
     tls := None; auth := Some {| user := js "u"; SmtpClient.pass := js "p" |}; dane := None |}.

(** A peer that never offers STARTTLS. *)
Definition plainPeer : Peer :=
  {| p_connect := inr []; p_events := [line_ "220 hi"; line_ "250 AUTH PLAIN"; line_ "221 bye"]; p_upgrade := inl []; p_tlsEvents := [] |}.

(** One that does, and accepts the second recipient. *)
Definition tlsPeer : Peer :=
  {| p_connect := inr []; p_events := [line_ "220 hi"; EvData (js "250-mx" ++ crlf ++ js "250 STARTTLS" ++ crlf); line_ "220 go"];
     p_upgrade := inr [mkPeerCert [1] (js "F") (Some [2]) (Some 0%nat)];
     p_tlsEvents := [EvData (js "250-mx" ++ crlf ++ js "250 AUTH PL"); EvData (js "AIN" ++ crlf); line_ "235 in"; line_ "250 ok"; line_ "550 no"; line_ "250 ok"; line_ "354 go"; line_ "250 queued"; EvClose] |}.

Definition outcomeOf (r : option SmtpClientResult * list Act) : option (bool * Z) * list bytes := ((fun x => (ok x, code x)) <$> r.1, writes r.2).

(** Without TLS the credentials stay here; with it the message goes through. *)
Lemma client_examples :
  outcomeOf (sendSmtp exampleOptions plainPeer) = (Some (false, 0), [js "EHLO me.example" ++ crlf; js "QUIT" ++ crlf]) /\
  outcomeOf (sendSmtp exampleOptions tlsPeer)
  = (Some (true, 250),
     [js "EHLO me.example" ++ crlf; js "STARTTLS" ++ crlf; js "EHLO me.example" ++ crlf; js "AUTH PLAIN AHUAcA==" ++ crlf;
      js "MAIL FROM:<a@b.example>" ++ crlf; js "RCPT TO:<c@d.example>" ++ crlf; js "RCPT TO:<e@d.example>" ++ crlf; js "DATA" ++ crlf;
      js "Hi" ++ crlf ++ js "..x"; crlf ++ js "." ++ crlf; js "QUIT" ++ crlf]).
Proof. split; vm_compute; reflexivity. Qed.

Lemma smtp_relay_transparent_witness :
  snd (Smtp.feed cfg0 (concat (messageWrites exampleOptions)) (ran scriptData).2)
  = [Smtp.ADeliver (env0 <| Smtp.e_raw := js "Hi" ++ crlf ++ js ".x" ++ crlf |>)].
Proof.
  rewrite (smtp_relay_transparent exampleOptions cfg0 (ran scriptData).2).
  - vm_compute. reflexivity.
  - vm_compute. reflexivity.
  - apply scriptData_idle.
  - vm_compute. reflexivity.
  - vm_compute. reflexivity.
  - vm_compute. reflexivity.
  - vm_compute. reflexivity.
  - vm_compute. congruence.
Defined.

Lemma smtp_client_confidential_witness :
  strict exampleOptions /\ (ActWrite false (js "AUTH PLAIN AHUAcA==" ++ crlf) ∉ (sendSmtp exampleOptions plainPeer).2) /\
  authenticated exampleOptions (sendSmtp exampleOptions tlsPeer).2.
Proof.
  assert (Hs : strict exampleOptions) by (right; right; split; [discriminate|vm_compute; congruence]). split; [exact Hs|]. split.
  - intros Hin. pose proof (proj1 (smtp_client_confidential exampleOptions plainPeer (js "AUTH PLAIN AHUAcA==" ++ crlf)) Hs Hin) as [Hp|[Hp|Hp]]; vm_compute in Hp; congruence.
  - apply (proj2 (smtp_client_confidential exampleOptions tlsPeer (js "DATA" ++ crlf))). vm_compute. do 9 right. left.
Defined.

(** ** Gaps *)

(** The client doubles a dot after a bare line feed, which for the receiver does not end a line: the
    message arrives with a dot too many. *)
Lemma relay_bare_lf_doubles :
  let raw := js "a" ++ [LF] ++ js ".b" ++ crlf in
  dotStuff raw = js "a" ++ [LF] ++ js "..b" ++ crlf /\
  snd (Smtp.feed cfg0 (dotStuff raw ++ terminator (dotStuff raw)) (ran scriptData).2)
  = [Smtp.ADeliver (env0 <| Smtp.e_raw := js "a" ++ [LF] ++ js "..b" ++ crlf |>)].
Proof. cbv zeta. split; vm_compute; reflexivity. Qed.
End Examples.

(** The limit of a reply does not see continuation lines: the reader waits for more, however many came. *)
Lemma reply_lines_unbounded n code lines :
  (readEvents (replicate n (EvData (js "250-x" ++ crlf))) [] code lines).1 = Fuel.
Proof. revert code lines. induction n as [|n IH]; intros code lines; [done|]. cbn [replicate readEvents app]. apply IH. Qed.

(** A session over implicit TLS reports that it did not use TLS. *)
Lemma implicit_tls_not_used `{NodeCrypto} `{NodeSha512} opts peer first c : tlsMode opts = Implicit -> startTls opts peer first c = (Ok (first, false), c).
Proof. intros Hm. unfold startTls. by rewrite Hm. Qed.
