(* ===== verification/MtaSts.v ===== *)
(** * MTA-STS (packages/mta-sts/src/policy.ts, fetch.ts; the cache of packages/mta/src/worker.ts)

    A domain says in a text file over HTTPS which hosts receive its mail and that they have to be
    reached over verified TLS.  The sender reads the policy, keeps it for as long as the policy says,
    and goes on enforcing it when it cannot be read again. *)

From S2P Require Import Prelude JsString JsNumber Text Loop.

(** ** Policies (policy.ts) *)

Inductive MtaStsMode := Enforce | Testing | ModeNone.

(** [maxAge] in seconds, a finite number that is not negative. *)
Record MtaStsPolicy := mkPolicy { mode : MtaStsMode; mx : list jsstr; maxAge : JsNum }.

Record StsDnsRecord := mkStsRecord { sr_name : jsstr; sr_value : jsstr; sr_purpose : jsstr }.

Definition modeName (m : MtaStsMode) : jsstr := match m with Enforce => js "enforce" | Testing => js "testing" | ModeNone => js "none" end.

Definition buildMtaStsPolicy (mxs : list jsstr) (m : option MtaStsMode) (age : option Z) : jsstr :=
  joinWith crlf ([js "version: STSv1"; js "mode: " ++ modeName (default Testing m)] ++ map (fun x => js "mx: " ++ x) mxs
                 ++ [js "max_age: " ++ numToString (default 604800 age)]) ++ crlf.

Definition stsDnsRecords (domain policyId : jsstr) (rua : option jsstr) : list StsDnsRecord :=
  {| sr_name := js "_mta-sts." ++ domain; sr_value := js "v=STSv1; id=" ++ policyId; sr_purpose := utf8Decode (js "MTA-STS 정책 id") |}
  :: match rua with
     | Some ((_ :: _) as r) => [{| sr_name := js "_smtp._tls." ++ domain; sr_value := js "v=TLSRPTv1; rua=" ++ r; sr_purpose := utf8Decode (js "TLS-RPT 리포트 수신처") |}]
     | _ => []
     end.

Definition MAX_MX_ENTRIES : Z := 100.

(** [text.split(/\r?\n/)] *)
Fixpoint splitLf (acc : jsstr) (s : jsstr) : list jsstr :=
  match s with
  | [] => [acc]
  | c :: r =>
      match r with
      | d :: r' => if (c =? CR) && (d =? LF) then acc :: splitLf [] r' else if c =? LF then acc :: splitLf [] r else splitLf (acc ++ [c]) r
      | [] => if c =? LF then [acc; []] else [acc ++ [c]]
      end
  end.

(** The variables of the loop of [parseMtaStsPolicy]. *)
Record PolicyVars := mkVars { v_mx : list jsstr; v_mode : option MtaStsMode; v_version : option jsstr; v_maxAge : option JsNum }.

Definition readMode (v : jsstr) : option MtaStsMode :=
  if v === js "enforce" then Some Enforce else if v === js "testing" then Some Testing else if v === js "none" then Some ModeNone else None.

Definition readAge (v : jsstr) : option JsNum :=
  match jsNumber v with
  | NumInt n => if 0 <=? n then Some (NumInt n) else None
  | NumFrac n => if 0 <=? n then Some (NumFrac n) else None
  | _ => None
  end.

Definition policyLine (rawLine : jsstr) (v : PolicyVars) : PolicyVars :=
  let line := trim rawLine in
  match line with
  | [] => v
  | _ =>
      match indexOf 58 line with
      | None => v
      | Some colon =>
          let key := toLowerCase (trim (take colon line)) in
          let value := trim (drop (S colon) line) in
          if key === js "version" then v <| v_version := Some value |>
          else if key === js "mode" then v <| v_mode := readMode value |>
          else if key === js "mx" then v <| v_mx ::= fun l => l ++ [toLowerCase value] |>
          else if key === js "max_age" then match readAge value with Some n => v <| v_maxAge := Some n |> | None => v end
          else v
      end
  end.

Definition noVars : PolicyVars := {| v_mx := []; v_mode := None; v_version := None; v_maxAge := None |}.

Definition parseMtaStsPolicy (text : jsstr) : option MtaStsPolicy :=
  let v := fold_left (fun v l => policyLine l v) (splitLf [] text) noVars in
  match v_version v, v_mode v, v_maxAge v with
  | Some version, Some m, Some age =>
      if negb (version === js "STSv1") || (len (v_mx v) =? 0) then None
      else if MAX_MX_ENTRIES <? len (v_mx v) then None
      else Some {| mode := m; mx := v_mx v; maxAge := age |}
  | _, _, _ => None
  end.

(** The [key=value] parts of a TXT record, in order. *)
Definition txtParts (txt : jsstr) : list (jsstr * jsstr) :=
  omap (fun p => eq ← indexOf 61 (trim p); Some (toLowerCase (trim (take eq (trim p))), trim (drop (S eq) (trim p)))) (splitOn 59 txt).

(** The last value of a key. *)
Definition lastOf (k : jsstr) (parts : list (jsstr * jsstr)) : option jsstr :=
  fold_left (fun acc kv => if kv.1 === k then Some kv.2 else acc) parts None.

(** The policy id, when the record is one of MTA-STS. *)
Definition parseMtaStsTxt (txt : jsstr) : option jsstr :=
  let parts := txtParts txt in
  match lastOf (js "v") parts, lastOf (js "id") parts with
  | Some v, Some ((_ :: _) as id) => if v === js "STSv1" then Some id else None
  | _, _ => None
  end.

Definition parseTlsRptTxt (txt : jsstr) : option (list jsstr) :=
  let parts := txtParts txt in
  let rua := flat_map (fun kv => if kv.1 === js "rua" then List.filter (fun s => negb (s === [])) (map trim (splitOn 44 kv.2)) else []) parts in
  match lastOf (js "v") parts with
  | Some v => if (v === js "TLSRPTv1") && (0 <? len rua) then Some rua else None
  | None => None
  end.

(** [s.replace(/\.$/, "")] *)
Definition dropFinalDot (s : jsstr) : jsstr := if endsWith1 DOT s then take (length s - 1) s else s.

Definition endsWithS (suffix s : jsstr) : bool := (length suffix <=? length s)%nat && (drop (length s - length suffix) s === suffix).

Definition matchesPattern (host raw : jsstr) : bool :=
  let pat := dropFinalDot (toLowerCase raw) in
  if startsWith [42; DOT] pat then
    let suffix := drop 1 pat in
    if negb (endsWithS suffix host) then false
    else let label := take (length host - length suffix) host in (0 <? len label) && negb (existsb (Z.eqb DOT) label)
  else host === pat.

Definition mxMatchesPolicy (mxHost : jsstr) (patterns : list jsstr) : bool :=
  existsb (matchesPattern (dropFinalDot (toLowerCase mxHost))) patterns.

(** ** Reading a policy (fetch.ts) *)

(** The answers of the DNS and of the web server; [None]: the call threw. *)
Record MtaStsFetchDeps := mkDeps { resolveTxt : jsstr -> option (list jsstr); httpsGet : jsstr -> option jsstr }.

Record MtaStsLookup := mkLookup { found : bool; policyId : option jsstr; policy : option MtaStsPolicy }.

Definition notFound : MtaStsLookup := {| found := false; policyId := None; policy := None |}.

Definition fetchMtaStsPolicy (domain : jsstr) (deps : MtaStsFetchDeps) : MtaStsLookup :=
  match resolveTxt deps (js "_mta-sts." ++ domain) with
  | None => notFound
  | Some txts =>
      match head (omap parseMtaStsTxt txts) with
      | None => notFound
      | Some id =>
          match httpsGet deps (js "https://mta-sts." ++ domain ++ js "/.well-known/mta-sts.txt") with
          | None => {| found := true; policyId := Some id; policy := None |}
          | Some body => {| found := true; policyId := Some id; policy := parseMtaStsPolicy body |}
          end
      end
  end.

Inductive StsEnforcement := RequireTls | ReportOnly | NoEnforcement.

Definition stsEnforcement (l : MtaStsLookup) : StsEnforcement :=
  if negb (found l) then NoEnforcement
  else match policy l with
       | None => NoEnforcement
       | Some p => match mode p with Enforce => RequireTls | Testing => ReportOnly | ModeNone => NoEnforcement end
       end.

(** ** The cache of the sender (worker.ts) *)

Definition MAX_STS_CACHE_ENTRIES : Z := 4096.
Definition STS_NEGATIVE_TTL_MS : Z := 5 * 60 * 1000.
Definition MAX_STS_MAX_AGE_S : Z := 31557600.
Definition MIN_STS_MAX_AGE_S : Z := 300.

Record Retained := mkRetained { rt_lookup : MtaStsLookup; rt_expiresAt : Z }.
Record StsEntry := mkEntry { se_lookup : MtaStsLookup; se_expiresAt : Z; se_policy : option Retained }.

(** A [Map], in the order of insertion. *)
Abbreviation StsCache := (list (jsstr * StsEntry)).

(** Seconds to milliseconds; of a fraction of a second the model of numbers keeps the seconds. *)
Definition maxAgeMs (age : JsNum) : Z :=
  Z.min (Z.max (match age with NumInt n | NumFrac n => n | _ => 0 end) MIN_STS_MAX_AGE_S) MAX_STS_MAX_AGE_S * 1000.

(** The expired ones first, then the oldest. *)
Definition evict (now : Z) (c : StsCache) : StsCache :=
  if MAX_STS_CACHE_ENTRIES <? len c then
    let c := List.filter (fun kv => negb (se_expiresAt kv.2 <=? now)) c in
    drop (Z.to_nat (len c - MAX_STS_CACHE_ENTRIES)) c
  else c.

Section Lookup.
Context (cacheTtlMs : option Z).

(** The cached answer, while it is not to be asked for again. *)
Definition freshLookup (now : Z) (cached : option StsEntry) : option MtaStsLookup :=
  e ← cached; if now <? se_expiresAt e then Some (se_lookup e) else None.

(** [mtaStsLookup]: the answer, and the cache; [fetched] is what the fetch gives, if it is done. *)
Definition mtaStsLookup (now : Z) (domain : jsstr) (fetched : MtaStsLookup) (c : StsCache) : MtaStsLookup * StsCache :=
  let cached := mapGet domain c in
  match freshLookup now cached with
  | Some l => (l, c)
  | None =>
      let store ttl retained := (fetched, evict now (mapSet domain (mkEntry fetched (now + ttl) retained) c)) in
      match policy fetched, cached ≫= se_policy with
      | Some p, _ => store (default (maxAgeMs (maxAge p)) cacheTtlMs) (Some (mkRetained fetched (now + maxAgeMs (maxAge p))))
      | None, Some r =>
          if now <? rt_expiresAt r then (rt_lookup r, mapSet domain (mkEntry (rt_lookup r) (now + STS_NEGATIVE_TTL_MS) (Some r)) c)
          else store STS_NEGATIVE_TTL_MS (Some r)
      | None, None => store STS_NEGATIVE_TTL_MS None
      end
  end.

(** ** Enforcement does not lapse *)

(** A lookup: when, of what, and what a fetch would give. *)
Record Ask := mkAsk { a_now : Z; a_domain : jsstr; a_fetched : MtaStsLookup }.

(** The last policy that was fetched for each domain, and how long it holds. *)
Abbreviation Good := (gmap jsstr Retained).

Definition noteGood (a : Ask) (c : StsCache) (g : Good) : Good :=
  match freshLookup (a_now a) (mapGet (a_domain a) c), policy (a_fetched a) with
  | None, Some p => <[a_domain a := mkRetained (a_fetched a) (a_now a + maxAgeMs (maxAge p))]> g
  | _, _ => g
  end.

Definition ask (s : StsCache * Good) (a : Ask) : StsCache * Good := ((mtaStsLookup (a_now a) (a_domain a) (a_fetched a) s.1).2, noteGood a s.1 s.2).
Definition asks (l : list Ask) : StsCache * Good := fold_left ask l ([], ∅).

Definition keysIn (D : list jsstr) (c : StsCache) : Prop := NoDup (map fst c) /\ (forall k, k ∈ map fst c -> k ∈ D).

Definition Kept (now : Z) (s : StsCache * Good) : Prop :=
  forall d r, s.2 !! d = Some r ->
    exists e, mapGet d s.1 = Some e /\ se_policy e = Some r /\ policy (rt_lookup r) <> None /\ (se_lookup e = rt_lookup r \/ rt_expiresAt r <= now).

Lemma mapSet_keys {V} k (v : V) m : map fst (mapSet k v m) = map fst m \/ (k ∉ map fst m /\ map fst (mapSet k v m) = map fst m ++ [k]).
Proof.
  induction m as [|[k' v'] m IH]; cbn [mapSet map fst]; [right; split; [apply not_elem_of_nil|done]|].
  destruct (seqb_spec k' k) as [->|Hne]; [by left|]. cbn [map fst]. destruct IH as [->|[Hn ->]]; [by left|]. right. split; [|done]. apply not_elem_of_cons. by split.
Qed.

Lemma keysIn_set D k (v : StsEntry) c : k ∈ D -> keysIn D c -> keysIn D (mapSet k v c).
Proof.
  intros Hk [Hn Hi]. unfold keysIn. destruct (mapSet_keys k v c) as [->|[Hf ->]]; [done|]. split.
  - apply NoDup_app. split; [done|]. split; [|apply NoDup_singleton]. by intros x Hx ->%list_elem_of_singleton.
  - intros x [Hx|Hx%list_elem_of_singleton]%elem_of_app; [by apply Hi|by subst].
Qed.

Lemma evict_small D now c : keysIn D c -> len D <= MAX_STS_CACHE_ENTRIES -> evict now c = c.
Proof.
  intros [Hn Hi] HD. unfold evict. destruct (Z.ltb_spec MAX_STS_CACHE_ENTRIES (len c)); [|done].
  assert (Hl : (length (map fst c) <= length D)%nat) by (apply submseteq_length, NoDup_submseteq; done). rewrite length_map in Hl. unfold len in *. lia.
Qed.

Lemma ask_kept D t s a : keysIn D s.1 -> a_domain a ∈ D -> len D <= MAX_STS_CACHE_ENTRIES -> t <= a_now a -> Kept t s -> Kept (a_now a) (ask s a) /\ keysIn D (ask s a).1.
Proof using.
  intros Hk Hin HD Ht HK. destruct s as [c g], a as [now d fetched]. cbn [a_now a_domain a_fetched fst snd] in *. unfold ask, noteGood, mtaStsLookup.
  cbn [a_now a_domain a_fetched fst snd]. destruct (freshLookup now (mapGet d c)) as [l|] eqn:Hf; cbn [fst snd].
  { split; [|done]. intros x r Hx. destruct (HK x r Hx) as (e & H1 & H2 & H3 & H4). exists e. split_and!; try done. destruct H4; [by left|right; cbn; lia]. }
  assert (Hset : forall e, keysIn D (mapSet d e c)) by (intros e; by apply keysIn_set).
  assert (Hother : forall x r e, x <> d -> g !! x = Some r -> exists e', mapGet x (mapSet d e c) = Some e' /\ se_policy e' = Some r /\ policy (rt_lookup r) <> None /\ (se_lookup e' = rt_lookup r \/ rt_expiresAt r <= now)).
  { intros x r e Hx Hg. destruct (HK x r Hg) as (e' & H1 & H2 & H3 & H4). exists e'. rewrite mapGet_set. rewrite (proj2 (seqb_neq d x)) by done. split_and!; try done. destruct H4; [by left|right; lia]. }
  assert (Hown : forall e, mapGet d (mapSet d e c) = Some e) by (intros e; by rewrite mapGet_set, seqb_refl).
  destruct (policy fetched) as [p|] eqn:Hp.
  - rewrite (evict_small D) by done. split; [|apply Hset]. intros x r. cbn [snd fst]. destruct (decide (x = d)) as [->|Hx].
    + rewrite lookup_insert_eq. intros [= <-]. eexists. split; [apply Hown|]. cbn. split_and!; [done|congruence|by left].
    + rewrite lookup_insert_ne by done. by apply Hother.
  - destruct (mapGet d c ≫= se_policy) as [r0|] eqn:Hr; [destruct (Z.ltb_spec now (rt_expiresAt r0))|]; cbn [fst snd];
      try (rewrite (evict_small D) by done); (split; [|apply Hset]); intros x r Hg; cbn [snd fst] in *; (destruct (decide (x = d)) as [->|Hx]; [|by apply Hother]);
      destruct (HK d r Hg) as (e & H1 & H2 & H3 & _); cbn [fst] in H1; rewrite H1 in Hr; cbn in Hr; rewrite H2 in Hr; simplify_eq; eexists; (split; [apply Hown|]); cbn; split_and!; try done; [by left|by right].
Qed.

Lemma Kept_start t D : Kept t ([], ∅) /\ keysIn D (([], ∅) : StsCache * Good).1.
Proof using. split; [intros d r Hr; cbn in Hr; by rewrite lookup_empty in Hr|]. split; [constructor|]. intros k Hk. by apply elem_of_nil in Hk. Qed.

Lemma asks_kept D l t : Forall (fun a => a_domain a ∈ D) l -> len D <= MAX_STS_CACHE_ENTRIES -> StronglySorted Z.le (map a_now l) -> Forall (fun a => a_now a <= t) l ->
  Kept t (asks l) /\ keysIn D (asks l).1.
Proof using.
  intros Hd HD Hs Ht.
  enough (H : forall s t0, Kept t0 s -> keysIn D s.1 -> t0 <= t -> Forall (fun a => t0 <= a_now a) l -> Kept t (fold_left ask l s) /\ keysIn D (fold_left ask l s).1).
  { destruct l as [|a l]; [apply Kept_start|]. destruct (Kept_start (a_now a) D) as [HK0 Hk0].
    apply (H _ (a_now a)); [done|done|by apply Forall_cons in Ht as [? _]|].
    constructor; [lia|]. cbn [map] in Hs. apply StronglySorted_inv in Hs as [_ Hs]. by apply (proj1 (List.Forall_map _ _ _)) in Hs. }
  induction l as [|a l IH]; intros s t0 HK Hk Ht0 Hge; cbn [fold_left].
  - split; [|done]. intros d r Hg. destruct (HK d r Hg) as (e & H1 & H2 & H3 & H4). exists e. split_and!; try done. destruct H4; [by left|right; lia].
  - apply Forall_cons in Hd as [Ha Hd], Ht as [Hat Ht], Hge as [Hga Hge]. cbn [map] in Hs. apply StronglySorted_inv in Hs as [Hs Hall].
    destruct (ask_kept D t0 s a) as [HK' Hk']; [done..|]. apply (IH Hd Hs Ht _ (a_now a)); [done|done|lia|]. by apply (proj1 (List.Forall_map _ _ _)) in Hall.
Qed.

(** C22: a policy that was read once is enforced for as long as it said, whatever happens afterwards: when
    it cannot be read again, by an outage or by somebody who blocks the reading, the lookup still gives
    the policy; only a policy that is read anew replaces it.  (For as many domains as the cache has room
    for.) *)
Theorem mta_sts_no_downgrade D l now d fetched r :
  Forall (fun a => a_domain a ∈ D) l -> d ∈ D -> len D <= MAX_STS_CACHE_ENTRIES ->
  StronglySorted Z.le (map a_now l) -> Forall (fun a => a_now a <= now) l ->
  (asks l).2 !! d = Some r -> now < rt_expiresAt r ->
  let answer := (mtaStsLookup now d fetched (asks l).1).1 in
  answer = rt_lookup r \/ (answer = fetched /\ policy fetched <> None).
Proof using.
  intros Hd Hin HD Hs Ht Hg Hnow. destruct (asks_kept D l now Hd HD Hs Ht) as [HK _]. destruct (HK d r Hg) as (e & H1 & H2 & H3 & H4).
  cbv zeta. unfold mtaStsLookup, freshLookup. rewrite H1. cbn [mbind option_bind]. destruct (now <? se_expiresAt e); [left; cbn; destruct H4; [done|lia]|].
  destruct (policy fetched) as [p|] eqn:Hp; [right; split; [done|congruence]|]. cbn. rewrite H2. rewrite (proj2 (Z.ltb_lt _ _) Hnow). by left.
Qed.
End Lookup.

(** ** What is published is read back *)

Definition hostWord (s : jsstr) : Prop := s <> [] /\ forall c, c ∈ s -> isWs c = false.

Lemma trimStart_cons c s : isWs c = false -> trimStart (c :: s) = c :: s.
Proof. intros Hc. cbn [trimStart]. by rewrite Hc. Qed.

Lemma trim_line c p t : isWs c = false -> hostWord t -> trim (c :: p ++ t) = c :: p ++ t.
Proof.
  intros Hc [Hne Ht]. unfold trim, trimEnd. rewrite trimStart_cons by done. destruct (exists_last Hne) as (t' & d & ->).
  rewrite app_assoc. change (c :: (p ++ t') ++ [d]) with ((c :: p ++ t') ++ [d]). rewrite rev_app_distr. cbn [rev app].
  rewrite trimStart_cons by (apply Ht, elem_of_app; right; by apply list_elem_of_singleton). cbn [rev]. by rewrite rev_app_distr, rev_involutive.
Qed.

Lemma trim_blank_word t : hostWord t -> trim (SP :: t) = t.
Proof.
  intros [Hne Ht]. unfold trim. replace (trimStart (SP :: t)) with t.
  - unfold trimEnd. destruct (exists_last Hne) as (t' & d & ->). rewrite rev_app_distr. cbn [rev app].
    rewrite trimStart_cons by (apply Ht, elem_of_app; right; by apply list_elem_of_singleton). cbn [rev]. by rewrite rev_involutive.
  - destruct t as [|c t]; [done|]. cbn [trimStart]. change (isWs SP) with true. cbv iota. rewrite (Ht c) by left. done.
Qed.

Lemma splitLf_line l rest : CR ∉ l -> LF ∉ l -> forall acc, splitLf acc (l ++ crlf ++ rest) = (acc ++ l) :: splitLf [] rest.
Proof.
  induction l as [|c l IH]; intros Hc Hl acc; [by rewrite app_nil_r|]. apply not_elem_of_cons in Hc as [Hc Hc'], Hl as [Hl Hl'].
  cbn [app splitLf]. destruct (l ++ crlf ++ rest) as [|d r] eqn:E; [by destruct l|]. rewrite (proj2 (Z.eqb_neq c CR)), (proj2 (Z.eqb_neq c LF)) by congruence. cbn [andb].
  rewrite IH by done. by rewrite <- app_assoc.
Qed.

Definition wordLine (l : jsstr) : Prop := CR ∉ l /\ LF ∉ l.

Lemma splitLf_lines ls : Forall wordLine ls -> ls <> [] -> splitLf [] (joinWith crlf ls ++ crlf) = ls ++ [[]].
Proof.
  intros Hls Hne. induction Hls as [|l ls [H1 H2] Hls IH]; [done|]. destruct ls as [|l' ls].
  - cbn [joinWith app]. rewrite <- (app_nil_r crlf), splitLf_line by done. done.
  - cbn [joinWith]. rewrite <- !app_assoc. rewrite splitLf_line by done. cbn [app]. f_equal. by apply IH.
Qed.

Lemma policyLine_word key value v : key <> [] -> (forall c, c ∈ key -> isWs c = false) -> 58 ∉ key -> hostWord value ->
  policyLine (key ++ js ": " ++ value) v
  = if toLowerCase key === js "version" then v <| v_version := Some value |>
    else if toLowerCase key === js "mode" then v <| v_mode := readMode value |>
    else if toLowerCase key === js "mx" then v <| v_mx ::= fun l => l ++ [toLowerCase value] |>
    else if toLowerCase key === js "max_age" then match readAge value with Some n => v <| v_maxAge := Some n |> | None => v end
    else v.
Proof.
  intros Hne Hw Hcol Hv. destruct key as [|c key]; [done|]. unfold policyLine.
  assert (Ht : trim ((c :: key) ++ js ": " ++ value) = (c :: key) ++ 58 :: SP :: value).
  { change ((c :: key) ++ js ": " ++ value) with (c :: key ++ [58; SP] ++ value). rewrite (app_assoc key). rewrite trim_line; [by rewrite <- app_assoc|apply Hw; left|done]. }
  rewrite Ht. rewrite indexOf_app_notin by done. change (match (c :: key) ++ 58 :: SP :: value with [] => v | _ :: _ => ?x end) with x.
  rewrite take_app_length, drop_after. rewrite trim_blank_word by done.
  replace (trim (c :: key)) with (c :: key); [done|]. symmetry. rewrite <- (app_nil_r (c :: key)). destruct (exists_last Hne) as (k' & d & Hk).
  destruct k' as [|c' k'].
  - cbn in Hk. injection Hk as -> ->. unfold trim, trimEnd. cbn. rewrite (Hw d) by left. cbn. by rewrite (Hw d) by left.
  - cbn in Hk. injection Hk as <- ->. rewrite app_nil_r. apply trim_line; [apply Hw; left|]. split; [done|]. intros x ->%list_elem_of_singleton. apply Hw. right. apply elem_of_app. right. by apply list_elem_of_singleton.
Qed.

Lemma hostWord_line p t : wordLine p -> hostWord t -> wordLine (p ++ t).
Proof. intros [H1 H2] [_ Ht]. split; rewrite not_elem_of_app; (split; [done|]); intros Hin%Ht; done. Qed.

Lemma hostWord_js s : forallb (fun c => negb (isWs c)) s = true -> s <> [] -> hostWord s.
Proof. rewrite forallb_forall. intros H Hne. split; [done|]. intros c Hc%list_elem_of_In%H. by apply negb_true_iff in Hc. Qed.

Lemma digits_hostWord n : 0 <= n -> hostWord (numToString n).
Proof.
  intros Hn. pose proof (numToString_digits n Hn) as Hd. unfold isDigits in Hd. split; [by intros E; rewrite E in Hd|].
  assert (Hd' : forallb isDigit (numToString n) = true) by (by destruct (numToString n)). clear Hd. rename Hd' into Hd. rewrite forallb_forall in Hd.
  intros c Hc%list_elem_of_In%Hd. unfold isDigit in Hc. apply andb_true_iff in Hc as [H1%Z.leb_le H2%Z.leb_le]. unfold isWs. repeat (apply orb_false_iff; split); try apply Z.eqb_neq; try lia; try (apply andb_false_iff; left; apply Z.leb_gt; lia).
Qed.

Lemma policyLine_key (key : string) value v : js key <> [] -> forallb (fun c => negb (isWs c) && negb (c =? 58)) (js key) = true -> hostWord value ->
  policyLine (js key ++ js ": " ++ value) v
  = if toLowerCase (js key) === js "version" then v <| v_version := Some value |>
    else if toLowerCase (js key) === js "mode" then v <| v_mode := readMode value |>
    else if toLowerCase (js key) === js "mx" then v <| v_mx ::= fun l => l ++ [toLowerCase value] |>
    else if toLowerCase (js key) === js "max_age" then match readAge value with Some n => v <| v_maxAge := Some n |> | None => v end
    else v.
Proof.
  rewrite forallb_forall. intros Hne Hk Hv. apply policyLine_word; [done| | |done].
  - intros c Hc%list_elem_of_In%Hk. by apply andb_true_iff in Hc as [Hc%negb_true_iff _].
  - intros Hc%list_elem_of_In%Hk. done.
Qed.

Lemma fold_mx mxs v : Forall hostWord mxs -> fold_left (fun v l => policyLine l v) (map (fun x => js "mx: " ++ x) mxs) v = v <| v_mx ::= fun l => l ++ map toLowerCase mxs |>.
Proof.
  intros Hm. revert v. induction Hm as [|x mxs Hx _ IH]; intros v; cbn [map fold_left]; [destruct v as [l ? ? ?]; rewrite <- (app_nil_r l) at 1; reflexivity|].
  change (js "mx: " ++ x) with (js "mx" ++ js ": " ++ x). rewrite (policyLine_key "mx") by done. cbn [toLowerCase]. rewrite IH.
  change (toLowerCase (js "mx")) with (js "mx"). destruct v as [l ? ? ?]. change (toLowerCase x :: map toLowerCase mxs) with ([toLowerCase x] ++ map toLowerCase mxs). transitivity (mkVars ((l ++ [toLowerCase x]) ++ map toLowerCase mxs) v_mode0 v_version0 v_maxAge0); [reflexivity|]. rewrite <- app_assoc. reflexivity.
Qed.

(** A policy that is published is read back, with its hosts in lower case. *)
Theorem mta_sts_policy_roundtrip mxs m age :
  Forall hostWord mxs -> mxs <> [] -> len mxs <= MAX_MX_ENTRIES -> 0 <= age <= 2 ^ 53 ->
  parseMtaStsPolicy (buildMtaStsPolicy mxs (Some m) (Some age)) = Some {| mode := m; mx := map toLowerCase mxs; maxAge := NumInt age |}.
Proof.
  intros Hm Hne Hlen Hage. unfold parseMtaStsPolicy, buildMtaStsPolicy. change (default Testing (Some m)) with m. change (default 604800 (Some age)) with age.
  assert (Hmode : hostWord (modeName m)) by (destruct m; by apply hostWord_js).
  rewrite splitLf_lines; [| |done].
  - rewrite fold_left_app, fold_left_app, fold_left_app, fold_mx by done. cbn [fold_left].
    change (js "version: STSv1") with (js "version" ++ js ": " ++ js "STSv1"). change (js "mode: " ++ modeName m) with (js "mode" ++ js ": " ++ modeName m).
    change (js "max_age: " ++ numToString age) with (js "max_age" ++ js ": " ++ numToString age).
    rewrite (policyLine_key "version"), (policyLine_key "mode"), (policyLine_key "max_age") by (try done; try (by apply hostWord_js); apply digits_hostWord; lia).
    change (toLowerCase (js "version") === js "version") with true. change (toLowerCase (js "mode") === js "version") with false. change (toLowerCase (js "mode") === js "mode") with true.
    change (toLowerCase (js "max_age") === js "version") with false. change (toLowerCase (js "max_age") === js "mode") with false. change (toLowerCase (js "max_age") === js "mx") with false. change (toLowerCase (js "max_age") === js "max_age") with true.
    unfold readAge. rewrite jsNumber_numToString by lia. rewrite (proj2 (Z.leb_le 0 age)) by lia. cbn.
    assert (Hr : readMode (modeName m) = Some m) by (by destruct m). rewrite Hr. rewrite seqb_refl. cbn [negb orb].
    assert (Hl : len (map toLowerCase mxs) = len mxs) by (unfold len; by rewrite length_map). rewrite Hl.
    destruct (Z.eqb_spec (len mxs) 0) as [Hz%len_zero|]; [done|]. by rewrite (proj2 (Z.ltb_ge _ _) Hlen).
  - repeat (apply Forall_app; split).
    + constructor; [by split; apply lit_notin|]. constructor; [|constructor]. apply hostWord_line; [by split; apply lit_notin|done].
    + apply Forall_map. eapply Forall_impl; [exact Hm|]. intros x Hx. apply hostWord_line; [by split; apply lit_notin|done].
    + constructor; [|constructor]. apply hostWord_line; [by split; apply lit_notin|apply digits_hostWord; lia].
Qed.

(** ** Hosts *)

(** A pattern stands for the host of that name, or with a wildcard for every host one level below. *)
Lemma matchesPattern_spec host raw :
  matchesPattern host raw = true <->
  (startsWith [42; DOT] (dropFinalDot (toLowerCase raw)) = false /\ host = dropFinalDot (toLowerCase raw)) \/
  (exists rest label, dropFinalDot (toLowerCase raw) = 42 :: DOT :: rest /\ host = label ++ DOT :: rest /\ label <> [] /\ DOT ∉ label).
Proof.
  unfold matchesPattern. set (pat := dropFinalDot _). destruct (startsWith [42; DOT] pat) eqn:Hs.
  - apply startsWith_split in Hs. set (rest := drop _ pat) in Hs. rewrite Hs. cbn [app drop]. unfold endsWithS. split.
    + destruct (_ && _) eqn:He; cbn [negb]; [|done]. apply andb_true_iff in He as [Hl%Nat.leb_le He%seqb_eq]. intros [Hn Hd]%andb_true_iff. right.
      exists rest, (take (length host - length (DOT :: rest)) host). split; [done|]. split; [by rewrite <- He at 2; rewrite take_drop|]. split.
      * intros E. by rewrite E in Hn.
      * intros Hin%list_elem_of_In. apply negb_true_iff in Hd. enough (existsb (Z.eqb DOT) (take (length host - length (DOT :: rest)) host) = true) by congruence.
        apply existsb_exists. exists DOT. split; [done|]. apply Z.eqb_refl.
    + intros [[? _]|(rest' & label & [= <-] & -> & Hne & Hdot)]; [done|]. rewrite length_app. replace (length label + length (DOT :: rest) - length (DOT :: rest))%nat with (length label) by lia.
      rewrite drop_app_length, take_app_length, seqb_refl, (proj2 (Nat.leb_le _ _)) by lia. cbn [andb negb]. apply andb_true_iff. split.
      * apply Z.ltb_lt. destruct label; [done|]. rewrite len_cons. pose proof (len_nonneg label). lia.
      * apply negb_true_iff. destruct (existsb _ _) eqn:E; [|done]. apply existsb_exists in E as (x & Hx%list_elem_of_In & <-%Z.eqb_eq). done.
  - rewrite seqb_eq. split; [by left|]. intros [[_ ?]|(rest & label & Hp & _)]; [done|]. by rewrite Hp in Hs.
Qed.

(** ** Examples *)

Definition examplePolicy : MtaStsLookup := {| found := true; policyId := Some (js "1"); policy := Some {| mode := Enforce; mx := [js "*.example.com"]; maxAge := NumInt 86400 |} |}.

Lemma mxMatches_examples :
  map (fun h => mxMatchesPolicy h [js "*.Example.com."; js "mx.other.net"]) [js "mx1.example.COM."; js "a.b.example.com"; js "example.com"; js "MX.other.net"]
  = [true; false; false; true].
Proof. vm_compute. reflexivity. Qed.

(** An hour after the policy was read nothing answers any more, ten times; the policy is still in force. *)
Lemma mta_sts_no_downgrade_witness :
  (mtaStsLookup (Some 3600000) 4200000 (js "example.com") notFound
     (asks (Some 3600000) (mkAsk 0 (js "example.com") examplePolicy :: map (fun t => mkAsk t (js "example.com") notFound) [3600000; 3900001])).1).1 = examplePolicy.
Proof.
  destruct (mta_sts_no_downgrade (Some 3600000) [js "example.com"] (mkAsk 0 (js "example.com") examplePolicy :: map (fun t => mkAsk t (js "example.com") notFound) [3600000; 3900001])
    4200000 (js "example.com") notFound (mkRetained examplePolicy 86400000)) as [Ha|[_ Hp]].
  - repeat constructor.
  - left.
  - vm_compute. discriminate.
  - cbn [map a_now]. repeat (constructor; [|repeat (constructor; [lia|]); constructor]). constructor.
  - repeat (constructor; [cbn; lia|]). constructor.
  - vm_compute. reflexivity.
  - vm_compute. reflexivity.
  - exact Ha.
  - by destruct Hp.
Defined.

(** A gap: an entry of a policy that still holds is the first to go when the cache is full, once its next
    reading is due: the entry says when to ask again, not how long the policy holds. *)
Lemma sts_eviction_forgets :
  let held := mkEntry examplePolicy 300000 (Some (mkRetained examplePolicy 86400000)) in
  let others := map (fun n => ([Z.of_nat n], mkEntry notFound 600000 None)) (seq 0 4096) in
  mapGet (js "example.com") (evict 300001 ((js "example.com", held) :: others)) = None.
Proof. vm_compute. reflexivity. Qed.
