(* ===== verification/Dsn.v ===== *)
(** * Delivery status notifications (packages/mta/src/dsn.ts, arf.ts, suppression.ts)

    The report to the sender of a message that could not be delivered, or not yet.  Its headers carry
    values that others chose: the recipient's address and what the remote server said. *)

From S2P Require Import Prelude JsString Text JsDate SieveDate Loop MimeHeaders InboundAuth Trace.

Inductive DsnAction := Failed | Delayed.
Definition actionName (a : DsnAction) : jsstr := match a with Failed => js "failed" | Delayed => js "delayed" end.
Definition isFailed (a : DsnAction) : bool := match a with Failed => true | Delayed => false end.

Record DsnRecipient := mkDsnRecipient {
  d_rcpt : jsstr; d_action : DsnAction; d_status : jsstr;
  d_diagnostic : option jsstr; d_remoteMta : option jsstr; d_originalRecipient : option jsstr
}.

Record DsnInput := mkDsnInput {
  originalEnvelopeFrom : jsstr; reportingMta : jsstr; recipients : list DsnRecipient;
  originalMessage : bytes; originalMessageId : option jsstr
}.

Definition enhancedStatusFor (code : Z) (action : DsnAction) : jsstr :=
  let cls := match action with Delayed => 4 | Failed => if 500 <=? code then 5 else 4 end in
  let with_ s := numToString cls ++ s in
  if (code =? 550) || (code =? 551) then with_ (js ".1.1")
  else if code =? 552 then with_ (js ".2.2")
  else if code =? 553 then with_ (js ".1.3")
  else if (code =? 450) || (code =? 451) || (code =? 452) then with_ (js ".3.0")
  else with_ (js ".0.0").

(** The first of the separators that occurs at all ends the header. *)
Fixpoint cutAt (seps : list jsstr) (bin : jsstr) : jsstr :=
  match seps with
  | [] => bin
  | sep :: seps' => match indexOfStr sep bin with Some i => take i bin | None => cutAt seps' bin end
  end.

Definition headerBlockOf (raw : bytes) : jsstr := cutAt [CRLFCRLF; LFLF; CRCR] raw.

Definition headerSafe (value : jsstr) (maxLen : nat) : jsstr :=
  take maxLen (trim (map (fun c => if (c =? CR) || (c =? LF) || (c =? 0) then SP else c) value)).

(** A string counts as given when it is not empty. *)
Definition given (o : option jsstr) : option jsstr := match o with Some (_ :: _) => o | _ => None end.

Definition listed (r : DsnRecipient) : list jsstr :=
  (js "  " ++ headerSafe (d_rcpt r) 320) :: match given (d_diagnostic r) with Some d => [js "    " ++ headerSafe d 400] | None => [] end.

Definition humanText (input : DsnInput) : jsstr :=
  let failed := List.filter (fun r => isFailed (d_action r)) (recipients input) in
  let delayed := List.filter (fun r => negb (isFailed (d_action r))) (recipients input) in
  joinWith crlf (
    [js "This is an automatically generated Delivery Status Notification."; []]
    ++ (if 0 <? len failed then [js "Delivery to the following recipient(s) failed permanently:"; []] ++ flat_map listed failed ++ [[]] else [])
    ++ (if 0 <? len delayed then
          [js "Delivery to the following recipient(s) is delayed:"; []] ++ flat_map listed delayed
          ++ [[]; js "The server will keep trying. You do not need to resend the message."; []]
        else [])).

Definition statusBlock (r : DsnRecipient) : jsstr :=
  joinWith crlf (
    [[]]
    ++ match given (d_originalRecipient r) with Some o => [js "Original-Recipient: " ++ headerSafe o 350] | None => [] end
    ++ [js "Final-Recipient: rfc822; " ++ headerSafe (d_rcpt r) 320; js "Action: " ++ actionName (d_action r); js "Status: " ++ headerSafe (d_status r) 32]
    ++ match given (d_remoteMta r) with Some m => [js "Remote-MTA: dns; " ++ headerSafe m 255] | None => [] end
    ++ match given (d_diagnostic r) with Some d => [js "Diagnostic-Code: smtp; " ++ headerSafe d 400] | None => [] end).

Definition deliveryStatus (input : DsnInput) : jsstr :=
  joinWith crlf ((js "Reporting-MTA: dns; " ++ headerSafe (reportingMta input) 255) :: map statusBlock (recipients input)) ++ crlf.

(** [Buffer.from(s, "latin1")]: the low byte of every unit. *)
Definition latin1Bytes (s : jsstr) : bytes := map (fun c => Z.land c 255) s.

Section Build.
Context `{LocalZone}.

Definition dsnHeaders (input : DsnInput) (boundary : jsstr) (now : option Z) : list jsstr :=
  let anyFailed := existsb (fun r => isFailed (d_action r)) (recipients input) in
  [ js "From: Mail Delivery Subsystem <MAILER-DAEMON@" ++ headerSafe (reportingMta input) 255 ++ js ">";
    js "To: " ++ headerSafe (originalEnvelopeFrom input) 320;
    js "Subject: " ++ (if anyFailed then js "Undelivered Mail Returned to Sender" else js "Delivery Status Notification (Delayed)");
    js "Date: " ++ rfc5322Date now;
    js "Auto-Submitted: auto-replied";
    js "Content-Type: multipart/report; report-type=delivery-status; boundary=" ++ [34] ++ boundary ++ [34];
    js "MIME-Version: 1.0" ]
  ++ match given (originalMessageId input) with
     | Some id => [js "In-Reply-To: " ++ headerSafe id 400; js "References: " ++ headerSafe id 400]
     | None => []
     end.

Definition dsnBody (input : DsnInput) (boundary : jsstr) : list jsstr :=
  [ js "--" ++ boundary; js "Content-Type: text/plain; charset=utf-8"; js "Content-Transfer-Encoding: 7bit"; []; humanText input;
    js "--" ++ boundary; js "Content-Type: message/delivery-status"; []; deliveryStatus input;
    js "--" ++ boundary; js "Content-Type: message/rfc822-headers"; []; headerBlockOf (originalMessage input); [];
    js "--" ++ boundary ++ js "--"; [] ].

(** The boundary is drawn at random, or given. *)
Definition buildDsn (input : DsnInput) (boundary : jsstr) (now : option Z) : option bytes :=
  if trim (originalEnvelopeFrom input) === [] then None
  else if len (recipients input) =? 0 then None
  else Some (latin1Bytes (joinWith crlf (dsnHeaders input boundary now) ++ crlf ++ joinWith crlf ([] :: dsnBody input boundary))).
End Build.

(** ** Suppressions (suppression.ts) *)

Inductive SuppressionReason := HardBounce | Exhausted.
Definition SUPPRESSION_EXHAUSTED_TTL_MS : Z := 7 * 24 * 60 * 60 * 1000.
Definition suppressionExpiresAt (r : SuppressionReason) (now : Z) : option Z :=
  match r with Exhausted => Some (now + SUPPRESSION_EXHAUSTED_TTL_MS) | HardBounce => None end.

(** [ACTIVE_SUPPRESSION_CLAUSE] *)
Definition isActive (expiresAt : option Z) (now : Z) : bool := match expiresAt with None => true | Some e => now <? e end.

(** ** No value becomes a header *)

Lemma dsnSafe_line v n : oneLine (headerSafe v n).
Proof.
  unfold headerSafe. apply Forall_take. apply Forall_forall. intros c Hc%JsNumber.trim_subset.
  apply list_elem_of_fmap in Hc as (x & -> & _). destruct ((x =? CR) || (x =? LF) || (x =? 0)) eqn:E; [done|].
  unfold isNewline. by apply orb_false_iff in E as [? _].
Qed.
#[export] Hint Resolve dsnSafe_line : oneline.

(** The last line of a header, with the blank line behind it. *)
Lemma blank_line_records h rest : oneLine h -> h <> [] -> headerRecords (h ++ crlf ++ crlf ++ rest) = [toRecord (h, h)].
Proof.
  intros Hl Hne. unfold headerRecords.
  assert (Hs : (splitHeaderBody (h ++ crlf ++ crlf ++ rest)).1 = h).
  { assert (Hat : atSeparator (drop (length h) (h ++ crlf ++ crlf ++ rest))) by (rewrite drop_app_length; exists CRLFCRLF; split; [left|done]).
    destruct (splitHeaderBody_spec (h ++ crlf ++ crlf ++ rest)) as [[-> Hno]|(idx & n & -> & Hidx & Hle & Hmin)].
    - exfalso. destruct Hat as (sep & Hsep & Hst). by rewrite (indexOfStr_None _ _ _ (Hno _ Hsep)) in Hst.
    - cbn [fst]. assert (Hub : (idx <= length h)%nat) by (apply Hmin; [done|rewrite length_app; lia]).
      destruct (decide (idx = length h)) as [->|Hlt]; [by rewrite take_app_length|]. exfalso.
      destruct (atSeparator_newline _ Hidx) as (x & t & Hx & Hnl). rewrite drop_app_le in Hx by lia.
      destruct (drop idx h) as [|y d] eqn:Ed; [apply (f_equal length) in Ed; rewrite length_drop in Ed; cbn in Ed; lia|]. injection Hx as -> _.
      unfold oneLine in Hl. rewrite Forall_forall in Hl. rewrite (Hl x) in Hnl; [done|]. rewrite <- (take_drop idx h), Ed. set_solver. }
  rewrite Hs, records_groups. rewrite <- (app_nil_r h) at 1. change (h ++ []) with (h ++ [] ++ []).
  rewrite linesOf_line; [|split; [done|split; [by right; right; right|by left]]|done|done]. cbn. unfold partOf, printLines. cbn. by rewrite !app_nil_r.
Qed.

(** A block of header lines, a blank line and a body is read as these headers. *)
Lemma header_block_records hs rest : Forall oneLine hs -> Forall (fun h => h <> [] /\ startsField h = true) hs -> hs <> [] ->
  exists raws, length raws = length hs /\ headerRecords (joinWith crlf hs ++ crlf ++ crlf ++ rest) = zip_with (fun r h => toRecord (r, h)) raws hs.
Proof.
  intros Hl Hs Hne. induction Hl as [|h hs Hh Hl IH]; [done|]. apply Forall_cons in Hs as [[Hhn Hhs] Hs]. destruct hs as [|h' hs].
  - exists [h]. split; [done|]. cbn [joinWith]. by rewrite blank_line_records.
  - destruct (IH Hs ltac:(done)) as (raws & Hr & Hrec). exists ((h ++ crlf) :: raws). split; [cbn; by rewrite Hr|].
    change (joinWith crlf (h :: h' :: hs)) with (h ++ crlf ++ joinWith crlf (h' :: hs)). rewrite <- !app_assoc.
    pose proof (prepend_records h [] (joinWith crlf (h' :: hs) ++ crlf ++ crlf ++ rest)) as Hp. cbn [joinWith flat_map] in Hp. rewrite app_nil_r in Hp.
    cbn [joinWith] in Hrec |- *. rewrite Hp; [cbn [zip_with]; by rewrite <- Hrec|done|constructor|].
    apply Forall_cons in Hs as [[Hn' Hs'] _]. destruct h' as [|c h']; [done|]. by destruct hs.
Qed.

Lemma latin1Bytes_id s : Forall (fun c => 0 <= c < 256) s -> latin1Bytes s = s.
Proof. unfold latin1Bytes. induction 1 as [|c s Hc _ IH]; cbn [map]; [done|]. by rewrite IH, land_255, Z.mod_small. Qed.

Section Exact.
Context `{LocalZone}.

Definition fieldNames (input : DsnInput) : list jsstr :=
  [js "from"; js "to"; js "subject"; js "date"; js "auto-submitted"; js "content-type"; js "mime-version"]
  ++ match given (originalMessageId input) with Some _ => [js "in-reply-to"; js "references"] | None => [] end.

Lemma dsnHeaders_lines input boundary now : oneLine boundary -> Forall oneLine (dsnHeaders input boundary now).
Proof.
  intros Hb. unfold dsnHeaders.
  apply oneLines_app; [destruct (existsb _ _)|destruct (given _)]; repeat (apply oneLines_cons; [eauto 8 with oneline|]); auto with oneline.
Qed.

(** The name of a header line that starts with [p], the spelling [n] of a field name and a colon. *)
Lemma named_header (p n : string) key v r : js p = js n ++ [58; SP] -> isFieldName (js n) = true -> toLowerCase (trim (js n)) = js key -> isFieldName (js key) = true ->
  name (toRecord (r, js p ++ v)) = Some (js key).
Proof.
  intros Hp Hn Hk Hf. destruct (isFieldName_chars _ Hn) as (_ & _ & Hc & Hne & _). rewrite Hp, <- app_assoc. cbn [app name toRecord fst snd].
  rewrite headerFieldName_colon by done. by rewrite Hk, Hf.
Qed.

Lemma dsnHeaders_names input boundary now raws : length raws = length (dsnHeaders input boundary now) ->
  map name (zip_with (fun r h => toRecord (r, h)) raws (dsnHeaders input boundary now)) = map Some (fieldNames input).
Proof.
  unfold dsnHeaders, fieldNames. set (ids := given (originalMessageId input)). intros Hl.
  destruct raws as [|r1 [|r2 [|r3 [|r4 [|r5 [|r6 [|r7 raws]]]]]]]; try (cbn in Hl; lia).
  cbn [app zip_with map].
  rewrite (named_header "From: " "From" "from" (js "Mail Delivery Subsystem <MAILER-DAEMON@" ++ headerSafe (reportingMta input) 255 ++ js ">")) by done.
  rewrite (named_header "To: " "To" "to"), (named_header "Subject: " "Subject" "subject"), (named_header "Date: " "Date" "date") by done.
  rewrite (named_header "Auto-Submitted: " "Auto-Submitted" "auto-submitted" (js "auto-replied")) by done.
  rewrite (named_header "Content-Type: " "Content-Type" "content-type" (js "multipart/report; report-type=delivery-status; boundary=" ++ [34] ++ boundary ++ [34])) by done.
  rewrite (named_header "MIME-Version: " "MIME-Version" "mime-version" (js "1.0")) by done.
  do 7 f_equal. destruct ids as [id|]; cbn [length app] in Hl; [destruct raws as [|r8 [|r9 [|? ?]]]; try (cbn in Hl; lia)|by destruct raws]. cbn [zip_with map].
  by rewrite (named_header "In-Reply-To: " "In-Reply-To" "in-reply-to"), (named_header "References: " "References" "references") by done.
Qed.

(** The headers are within Latin-1 when the given values are. *)
Definition latin1 (s : jsstr) : Prop := Forall (fun c => 0 <= c < 256) s.

Lemma latin1_app a b : latin1 a -> latin1 b -> latin1 (a ++ b).
Proof. intros. by apply Forall_app. Qed.

Lemma latin1_cons c s : 0 <= c < 256 -> latin1 s -> latin1 (c :: s).
Proof. by constructor. Qed.

Lemma latin1_numToString n : latin1 (numToString n).
Proof.
  assert (Hd : forall s, Forall (fun c => isDigit c = true) s -> latin1 s).
  { intros s Hs. eapply Forall_impl; [exact Hs|]. cbn. unfold isDigit. intros c [? ?]%andb_true_iff. lia. }
  unfold numToString. destruct (n <? 0); [apply latin1_cons; [lia|]|]; by apply Hd, decDigits_digits.
Qed.

Lemma latin1_safe v n : latin1 v -> latin1 (headerSafe v n).
Proof.
  intros Hv. unfold headerSafe. apply Forall_take, Forall_forall. intros c Hc%JsNumber.trim_subset.
  apply list_elem_of_fmap in Hc as (x & -> & Hx). destruct (_ || _); [by unfold SP; lia|]. unfold latin1 in Hv. rewrite Forall_forall in Hv. auto.
Qed.

Lemma latin1_names names n : Forall latin1 names -> latin1 (nameOf names n).
Proof.
  intros Hn. unfold nameOf. destruct n as [z|]; [|by vm_compute; repeat constructor]. cbn.
  destruct (names !! Z.to_nat z) eqn:E; [|by vm_compute; repeat constructor]. cbn. by eapply Forall_lookup_1.
Qed.

Lemma latin1_showNum n : latin1 (showNum n).
Proof. destruct n; [apply latin1_numToString|by vm_compute; repeat constructor]. Qed.

Lemma latin1_pad2 n : latin1 (pad2 n).
Proof. destruct n as [z|]; [|by vm_compute; repeat constructor]. cbn. destruct (z <? 10); [apply latin1_cons; [lia|]|]; apply latin1_numToString. Qed.

Lemma latin1_date d : latin1 (rfc5322Date d).
Proof.
  unfold rfc5322Date. cbv zeta.
  repeat first [ apply latin1_app | apply latin1_showNum | apply latin1_pad2 | apply latin1_names; by vm_compute; repeat constructor
               | apply latin1_cons; [by repeat case_match; unfold SP; lia|] | by vm_compute; repeat constructor ].
Qed.

Lemma latin1_headers input boundary now :
  latin1 (reportingMta input) -> latin1 (originalEnvelopeFrom input) -> latin1 boundary -> latin1 (default [] (originalMessageId input)) ->
  Forall latin1 (dsnHeaders input boundary now).
Proof.
  intros Hm Hf Hb Hi. assert (Hid : forall id, given (originalMessageId input) = Some id -> latin1 id).
  { intros id Hg. destruct (originalMessageId input) as [[|c t]|]; cbn in Hg |- *; by simplify_eq. }
  unfold dsnHeaders. destruct (existsb _ _), (given _) as [id|]; cbn [app]; repeat apply Forall_cons_2; try constructor;
    repeat first [ done | apply latin1_date | by apply latin1_safe, Hid | by apply latin1_safe | apply latin1_app | by vm_compute; repeat constructor ].
Qed.

Lemma latin1Bytes_app a b : latin1Bytes (a ++ b) = latin1Bytes a ++ latin1Bytes b.
Proof. apply List.map_app. Qed.

Lemma latin1_join hs : Forall latin1 hs -> latin1 (joinWith crlf hs).
Proof. induction 1 as [|h hs Hh Hhs IH]; [constructor|]. destruct hs; cbn [joinWith] in *; [done|]. by repeat apply latin1_app; [..|by vm_compute; repeat constructor|]. Qed.

(** A notification carries no header but its own: whatever the recipients'
    addresses, the remote server's words, the original message and its Message-ID hold, a mailbox that
    parses the notification reads exactly the fields From, To, Subject, Date, Auto-Submitted,
    Content-Type and MIME-Version, with In-Reply-To and References when a Message-ID was given, each of
    them once and in this order, as long as the two addresses and the Message-ID are within Latin-1.  Without
    a return path, or without recipients, there is no notification. *)
Theorem dsn_headers_exact input boundary now :
  latin1 (reportingMta input) -> latin1 (originalEnvelopeFrom input) -> latin1 (default [] (originalMessageId input)) -> latin1 boundary -> oneLine boundary ->
  match buildDsn input boundary now with
  | Some message => map name (headerRecords message) = map Some (fieldNames input)
  | None => trim (originalEnvelopeFrom input) = [] \/ recipients input = []
  end.
Proof.
  intros Hm Hf Hi Hb Hl. unfold buildDsn. destruct (trim (originalEnvelopeFrom input) === []) eqn:Ef; [left; by apply seqb_eq|].
  destruct (len (recipients input) =? 0) eqn:Er; [right; apply Z.eqb_eq in Er; unfold len in Er; by destruct (recipients input)|].
  change (joinWith crlf ([] :: dsnBody input boundary)) with (crlf ++ joinWith crlf (dsnBody input boundary)).
  pose proof (latin1_headers input boundary now Hm Hf Hb Hi) as Hh.
  rewrite !latin1Bytes_app, (latin1Bytes_id _ (latin1_join _ Hh)). change (latin1Bytes crlf) with crlf.
  destruct (header_block_records (dsnHeaders input boundary now) (latin1Bytes (joinWith crlf (dsnBody input boundary)))) as (raws & Hr & Hrec);
    [by apply dsnHeaders_lines|by unfold dsnHeaders; destruct (given _); cbn [app]; repeat constructor|done|].
  rewrite Hrec. by apply dsnHeaders_names.
Qed.
End Exact.

(** ** Concrete notifications *)

Definition utcZone : LocalZone := {| getTimezoneOffset := fun _ => 0 |}.

Definition injecting : DsnInput := mkDsnInput (js "ann@a.example") (js "mx.b.example")
  [mkDsnRecipient (js "x@c.example" ++ crlf ++ js "Bcc: all@d.example") Failed (js "5.1.1") (Some (js "no such user" ++ crlf ++ crlf ++ js "--b")) None None]
  (js "Subject: hi" ++ crlf ++ crlf ++ js "secret") (Some (js "<1@a.example>")).

Lemma dsn_headers_exact_witness :
  (latin1 (reportingMta injecting) /\ latin1 (originalEnvelopeFrom injecting) /\ oneLine (js "=_b")) /\
  match @buildDsn utcZone injecting (js "=_b") (Some 0) with
  | Some message => map name (headerRecords message) = map Some (fieldNames injecting)
  | None => trim (originalEnvelopeFrom injecting) = [] \/ recipients injecting = []
  end.
Proof. split; [repeat split; by vm_compute; repeat constructor|]. apply (@dsn_headers_exact utcZone); by vm_compute; repeat constructor. Defined.

(** The message is written one byte per unit, so that U+010D U+010A, which are no line end where the values
    are cleaned, become one: a recipient's address adds a field of the status part. *)
Example dsn_latin1_injects :
  headerSafe (js "x" ++ [269; 266] ++ js "Action: delivered") 320 = js "x" ++ [269; 266] ++ js "Action: delivered" /\
  latin1Bytes (js "x" ++ [269; 266] ++ js "Action: delivered") = js "x" ++ crlf ++ js "Action: delivered".
Proof. split; vm_compute; reflexivity. Qed.

(** The separators are tried one after the other: a message with LF line ends whose body has CR LF CR LF
    somewhere gives its body up to there as its header. *)
Example headerBlockOf_leaks_body :
  headerBlockOf (js "Subject: hi" ++ [LF; LF] ++ js "secret" ++ crlf ++ crlf ++ js "rest") = js "Subject: hi" ++ [LF; LF] ++ js "secret" /\
  (splitHeaderBody (js "Subject: hi" ++ [LF; LF] ++ js "secret" ++ crlf ++ crlf ++ js "rest")).1 = js "Subject: hi".
Proof. split; vm_compute; reflexivity. Qed.
