(* ===== verification/Queue.v ===== *)
(** * The tables of the outbound queue (packages/db/src/columns.ts, domain-lookup.ts, blob-ledger.ts, packages/mta/src/chunk.ts, packages/admin-cmd/src/ops.ts)

    The rows the queue lives in, the statements that the code runs on them, and batches: a batch is a
    transaction, its statements take effect together or, when one violates a primary key, not at all.
    A statement reports how many rows it changed. *)

From S2P Require Import Prelude JsString Text SmtpClient Dsn.

(** ** Rows *)

(** [MTA_QUEUE_STATUS] *)
Inductive QueueStatus := Queued | InFlight | Done | Bounced | Deferred | Canceled.
#[export] Instance queueStatus_eq : EqDecision QueueStatus.
Proof. solve_decision. Defined.

(** [mta_queue.status] *)
Definition statusCode (s : QueueStatus) : Z :=
  match s with Queued => 0 | InFlight => 1 | Done => 2 | Bounced => 3 | Deferred => 4 | Canceled => 5 end.
Definition isMtaQueueStatus (n : Z) : bool := existsb (fun s => statusCode s =? n) [Queued; InFlight; Done; Bounced; Deferred; Canceled].

Definition PENDING_QUEUE_STATUSES : list QueueStatus := [Queued; InFlight; Deferred].
Definition TERMINAL_QUEUE_STATUSES : list QueueStatus := [Done; Bounced; Canceled].
Definition isOneOf (l : list QueueStatus) (s : QueueStatus) : bool := existsb (fun x => bool_decide (x = s)) l.

Record QueueRow := mkRow {
  q_id : jsstr; q_tenantId : jsstr; q_accountId : option jsstr; q_submissionId : option jsstr; q_blobId : jsstr;
  q_envFrom : jsstr; q_verpToken : jsstr; q_rcpt : jsstr; q_rcptDomain : jsstr;
  q_status : QueueStatus; q_attempts : Z; q_nextAttempt : Z; q_leaseUntil : option Z; q_lastError : option jsstr; q_createdAt : Z;
  q_dsnNotify : option jsstr; q_dsnOrcpt : option jsstr; q_dsnEnvid : option jsstr; q_dsnRet : option jsstr;
  q_delayNotifiedAt : option Z
}.

Record Suppression := mkSuppression { su_tenantId : jsstr; su_email : jsstr; su_reason : SuppressionReason; su_source : jsstr; su_createdAt : Z; su_expiresAt : option Z }.
Record DomainRow := mkDomain { dm_id : jsstr; dm_tenantId : jsstr; dm_name : jsstr; dm_status : Z }.
Record AccountRow := mkAccount { ac_id : jsstr; ac_email : jsstr }.
Record AddressRow := mkAddress { ad_id : jsstr; ad_domainId : jsstr; ad_localpart : jsstr }.
Record TargetRow := mkTarget { tg_addressId : jsstr; tg_accountId : jsstr }.

Inductive BlobStatus := Live | Doomed | Swept.
#[export] Instance blobStatus_eq : EqDecision BlobStatus.
Proof. solve_decision. Defined.
Record BlobRow := mkBlob { bl_id : jsstr; bl_size : Z; bl_status : BlobStatus; bl_generation : Z; bl_doomedAt : option Z; bl_createdAt : Z }.

Inductive RefKind := RefMessage | RefQueue | RefUpload.
#[export] Instance refKind_eq : EqDecision RefKind.
Proof. solve_decision. Defined.
Record BlobRef := mkRef { rf_blobId : jsstr; rf_accountId : jsstr; rf_kind : RefKind; rf_refId : jsstr; rf_createdAt : Z }.
Definition SYSTEM_ACCOUNT_REF : jsstr := [].

Record Db := mkDb {
  mta_queue : list QueueRow; suppressions : list Suppression; domains : list DomainRow; accounts : list AccountRow;
  addresses : list AddressRow; address_targets : list TargetRow; blobs : list BlobRow; blob_refs : list BlobRef
}.

(** ** Statements *)

(** The rows a worker may take: due, or left behind by a worker that is gone. *)
Definition isDue (now : Z) (r : QueueRow) : bool :=
  isOneOf [Queued; Deferred] (q_status r) && (q_nextAttempt r <=? now)
  || bool_decide (q_status r = InFlight) && match q_leaseUntil r with Some l => l <? now | None => false end.

Inductive Stmt :=
| LeaseRow (leaseUntil : Z) (id : jsstr) (now : Z)
| SetDone (id : jsstr)
| SetBounced (error : jsstr) (id : jsstr)
| SetExhausted (attempts : Z) (error : jsstr) (id : jsstr)
| SetDeferred (attempts next : Z) (error : jsstr) (id : jsstr)
| SetDelayNotified (now : Z) (id : jsstr)
| RetryRows (now : Z) (id : option jsstr) (tenantId : jsstr)
| CancelRow (error : jsstr) (id tenantId : jsstr)
| InsertSuppression (s : Suppression)
| DeleteSuppression (tenantId email : jsstr)
| InsertQueue (rows : list QueueRow)
| InsertBlob (b : BlobRow)
| ReviveBlob (generation : Z) (id : jsstr)
| InsertRefs (refs : list BlobRef).

(** [UPDATE] and [DELETE]: the rows, and how many were changed. *)
Definition updateWhere {A} (p : A -> bool) (f : A -> A) (rows : list A) : list A * Z :=
  (map (fun r => if p r then f r else r) rows, len (List.filter p rows)).
Definition deleteWhere {A} (p : A -> bool) (rows : list A) : list A * Z :=
  (List.filter (fun r => negb (p r)) rows, len (List.filter p rows)).

Definition onQueue (db : Db) (u : list QueueRow * Z) : option (Db * Z) := Some (db <| mta_queue := u.1 |>, u.2).
Definition withId (id : jsstr) (r : QueueRow) : bool := q_id r === id.

(** [INSERT]: fails when a key is there already. *)
Fixpoint insertAll {A} (same : A -> A -> bool) (new : list A) (rows : list A) : option (list A) :=
  match new with
  | [] => Some rows
  | x :: new' => if existsb (same x) rows then None else insertAll same new' (rows ++ [x])
  end.

Definition sameRow (a b : QueueRow) : bool := q_id a === q_id b.
Definition sameSuppression (a b : Suppression) : bool := (su_tenantId a === su_tenantId b) && (su_email a === su_email b).
Definition sameBlob (a b : BlobRow) : bool := bl_id a === bl_id b.
Definition sameRef (a b : BlobRef) : bool :=
  (rf_blobId a === rf_blobId b) && bool_decide (rf_kind a = rf_kind b) && (rf_refId a === rf_refId b).

(** [insertIgnore]: a row whose key is there stays as it is. *)
Definition insertIgnore {A} (same : A -> A -> bool) (x : A) (rows : list A) : list A * Z :=
  if existsb (same x) rows then (rows, 0) else (rows ++ [x], 1).

Definition exec (s : Stmt) (db : Db) : option (Db * Z) :=
  match s with
  | LeaseRow l id now => onQueue db (updateWhere (fun r => withId id r && isDue now r) (fun r => r <| q_status := InFlight |> <| q_leaseUntil := Some l |>) (mta_queue db))
  | SetDone id => onQueue db (updateWhere (withId id) (fun r => r <| q_status := Done |> <| q_lastError := None |>) (mta_queue db))
  | SetBounced e id => onQueue db (updateWhere (withId id) (fun r => r <| q_status := Bounced |> <| q_lastError := Some e |>) (mta_queue db))
  | SetExhausted n e id => onQueue db (updateWhere (withId id) (fun r => r <| q_status := Bounced |> <| q_attempts := n |> <| q_lastError := Some e |>) (mta_queue db))
  | SetDeferred n next e id =>
      onQueue db (updateWhere (withId id) (fun r => r <| q_status := Deferred |> <| q_attempts := n |> <| q_nextAttempt := next |> <| q_leaseUntil := None |> <| q_lastError := Some e |>) (mta_queue db))
  | SetDelayNotified now id => onQueue db (updateWhere (withId id) (fun r => r <| q_delayNotifiedAt := Some now |>) (mta_queue db))
  | RetryRows now id t =>
      onQueue db (updateWhere (fun r => match id with Some i => withId i r | None => true end && (q_tenantId r === t) && isOneOf [Deferred; Bounced] (q_status r))
                              (fun r => r <| q_status := Queued |> <| q_nextAttempt := now |> <| q_lastError := None |>) (mta_queue db))
  | CancelRow e id t =>
      onQueue db (updateWhere (fun r => withId id r && (q_tenantId r === t) && isOneOf [Queued; Deferred; Bounced] (q_status r))
                              (fun r => r <| q_status := Canceled |> <| q_lastError := Some e |>) (mta_queue db))
  | InsertSuppression s => let u := insertIgnore sameSuppression s (suppressions db) in Some (db <| suppressions := u.1 |>, u.2)
  | DeleteSuppression t e => let u := deleteWhere (fun s => (su_tenantId s === t) && (su_email s === e)) (suppressions db) in Some (db <| suppressions := u.1 |>, u.2)
  | InsertQueue rows => (fun q => (db <| mta_queue := q |>, len rows)) <$> insertAll sameRow rows (mta_queue db)
  | InsertBlob b => let u := insertIgnore sameBlob b (blobs db) in Some (db <| blobs := u.1 |>, u.2)
  | ReviveBlob g id =>
      let u := updateWhere (fun b => (bl_id b === id) && (bl_generation b <=? g)) (fun b => b <| bl_status := Live |> <| bl_doomedAt := None |> <| bl_generation := g |>) (blobs db) in
      Some (db <| blobs := u.1 |>, u.2)
  | InsertRefs refs => (fun q => (db <| blob_refs := q |>, len refs)) <$> insertAll sameRef refs (blob_refs db)
  end.

(** [db.batch]; [None]: rolled back, and thrown. *)
Fixpoint batch (stmts : list Stmt) (db : Db) : option (Db * list Z) :=
  match stmts with
  | [] => Some (db, [])
  | s :: rest => '(db, n) ← exec s db; '(db, ns) ← batch rest db; Some (db, n :: ns)
  end.

(** ** Statements with many rows (chunk.ts) *)

Definition MAX_PARAMS_PER_STATEMENT : Z := 100.
Definition rowsPerStatement (columnCount : Z) : Z := Z.max 1 (MAX_PARAMS_PER_STATEMENT / columnCount).

Fixpoint chunkFrom {A} (fuel : nat) (size : nat) (items : list A) : list (list A) :=
  match fuel, items with
  | S fuel', _ :: _ => take size items :: chunkFrom fuel' size (drop size items)
  | _, _ => []
  end.
Definition chunk {A} (items : list A) (size : Z) : list (list A) := chunkFrom (length items) (Z.to_nat size) items.

Definition multiRowInsertStatements {A} (insert : list A -> Stmt) (columnCount : Z) (rows : list A) : list Stmt :=
  if len rows =? 0 then [] else map insert (chunk rows (rowsPerStatement columnCount)).

(** ** Which domains are ours (domain-lookup.ts) *)

Definition DOMAIN_STATUS_VERIFIED : Z := 1.
Record DomainRouting := mkRouting { verified : bool; ownedByTenant : bool }.

Definition lookupDomainRouting (db : Db) (nm : jsstr) (tenantId : option jsstr) : DomainRouting :=
  let domain := toLowerCase (trim nm) in
  if domain === [] then mkRouting false false
  else
    let rows := List.filter (fun d => dm_name d === domain) (domains db) in
    mkRouting (existsb (fun d => dm_status d =? DOMAIN_STATUS_VERIFIED) rows)
              (match given tenantId with Some t => existsb (fun d => dm_tenantId d === t) rows | None => false end).

Definition isLocallyRoutableDomain (db : Db) (nm : jsstr) (tenantId : option jsstr) : bool :=
  let r := lookupDomainRouting db nm tenantId in verified r || ownedByTenant r.

Definition canSendFromDomain (db : Db) (nm tenantId : jsstr) : bool :=
  let domain := toLowerCase (trim nm) in
  if (domain === []) || (tenantId === []) then false
  else existsb (fun d => (dm_tenantId d === tenantId) && (dm_name d === domain) && (dm_status d =? DOMAIN_STATUS_VERIFIED)) (domains db).

(** ** The ledger of blobs (blob-ledger.ts) *)

Definition lookupBlob (db : Db) (blobId : jsstr) : option BlobRow := List.find (fun b => bl_id b === blobId) (blobs db).

(** ** The administrator's commands (ops.ts) *)

Definition CANCELED_BY_ADMIN : jsstr := u8 "관리자가 취소함".

(** The number of rows, or [None]: nothing to do. *)
Definition queueRetry (tenantId : jsstr) (id : option jsstr) (now : Z) (db : Db) : option Z * Db :=
  match batch [RetryRows now (given id) tenantId] db with
  | Some (db', [n]) => (if n =? 0 then None else Some n, db')
  | _ => (None, db)
  end.

Definition queueCancel (tenantId id : jsstr) (db : Db) : option Z * Db :=
  match batch [CancelRow CANCELED_BY_ADMIN id tenantId] db with
  | Some (db', [n]) => (if n =? 0 then None else Some n, db')
  | _ => (None, db)
  end.

Definition suppressionRemove (tenantId email : jsstr) (db : Db) : option Z * Db :=
  match batch [DeleteSuppression tenantId (toLowerCase email)] db with
  | Some (db', [n]) => (if n =? 0 then None else Some n, db')
  | _ => (None, db)
  end.

(** ** What batches do *)

Lemma insertAll_app {A} (same : A -> A -> bool) new : forall rows rows', insertAll same new rows = Some rows' -> rows' = rows ++ new.
Proof. induction new as [|x new IH]; intros rows rows' H; cbn in H; [simplify_eq; by rewrite app_nil_r|]. destruct (existsb _ _); [done|]. apply IH in H as ->. by rewrite <- app_assoc. Qed.

Lemma batch_app s1 s2 db db' ns : batch (s1 ++ s2) db = Some (db', ns) -> exists mid n1 n2, batch s1 db = Some (mid, n1) /\ batch s2 mid = Some (db', n2).
Proof.
  revert db db' ns. induction s1 as [|s s1 IH]; intros db db' ns H; cbn in H |- *; [by eexists _, _, _|].
  destruct (exec s db) as [[d n]|]; cbn in *; [|done]. destruct (batch (s1 ++ s2) d) as [[d' ns']|] eqn:E; cbn in H; [|done]. simplify_eq.
  destruct (IH _ _ _ E) as (mid & n1 & n2 & -> & H2). cbn. by eexists _, _, _.
Qed.

Lemma batch_queue cs : forall db db' ns, batch (map InsertQueue cs) db = Some (db', ns) -> db' = db <| mta_queue := mta_queue db ++ concat cs |>.
Proof.
  induction cs as [|c cs IH]; intros db db' ns H; cbn in H; [simplify_eq; rewrite app_nil_r; by destruct db'|].
  destruct (insertAll sameRow c (mta_queue db)) as [q|] eqn:E; cbn in H; [|done]. destruct (batch _ _) as [[d ns']|] eqn:Eb; cbn in H; [|done]. simplify_eq.
  apply IH in Eb as ->. apply insertAll_app in E as ->. cbn [concat]. rewrite app_assoc. by destruct db.
Qed.

Lemma batch_refs cs : forall db db' ns, batch (map InsertRefs cs) db = Some (db', ns) -> db' = db <| blob_refs := blob_refs db ++ concat cs |>.
Proof.
  induction cs as [|c cs IH]; intros db db' ns H; cbn in H; [simplify_eq; rewrite app_nil_r; by destruct db'|].
  destruct (insertAll sameRef c (blob_refs db)) as [q|] eqn:E; cbn in H; [|done]. destruct (batch _ _) as [[d ns']|] eqn:Eb; cbn in H; [|done]. simplify_eq.
  apply IH in Eb as ->. apply insertAll_app in E as ->. cbn [concat]. rewrite app_assoc. by destruct db.
Qed.

Lemma chunkFrom_concat {A} fuel size (items : list A) : (1 <= size)%nat -> (length items <= fuel)%nat -> concat (chunkFrom fuel size items) = items.
Proof.
  revert items. induction fuel as [|fuel IH]; intros items Hs Hl; [by destruct items; cbn in *; [|lia]|]. destruct items as [|x items]; [done|].
  cbn [chunkFrom concat]. rewrite IH; [apply take_drop|done|]. rewrite length_drop. cbn in *. lia.
Qed.

Lemma chunk_concat {A} (items : list A) size : 1 <= size -> concat (chunk items size) = items.
Proof. intros Hs. apply chunkFrom_concat; [lia|done]. Qed.

Lemma rowsPerStatement_pos n : 1 <= rowsPerStatement n.
Proof. unfold rowsPerStatement. lia. Qed.

(** The statements for many rows insert them all, whatever the chunks. *)
Lemma inserts_queue n rows db db' ns : batch (multiRowInsertStatements InsertQueue n rows) db = Some (db', ns) -> db' = db <| mta_queue := mta_queue db ++ rows |>.
Proof.
  unfold multiRowInsertStatements. destruct (Z.eqb_spec (len rows) 0) as [E|_]; intros H.
  - apply len_zero in E as ->. cbn in H. simplify_eq. rewrite app_nil_r. by destruct db'.
  - apply batch_queue in H as ->. by rewrite chunk_concat by apply rowsPerStatement_pos.
Qed.

Lemma inserts_refs n refs db db' ns : batch (multiRowInsertStatements InsertRefs n refs) db = Some (db', ns) -> db' = db <| blob_refs := blob_refs db ++ refs |>.
Proof.
  unfold multiRowInsertStatements. destruct (Z.eqb_spec (len refs) 0) as [E|_]; intros H.
  - apply len_zero in E as ->. cbn in H. simplify_eq. rewrite app_nil_r. by destruct db'.
  - apply batch_refs in H as ->. by rewrite chunk_concat by apply rowsPerStatement_pos.
Qed.

(** No statement has more parameters than the smallest of the databases allows. *)
Lemma chunk_params {A} (items : list A) columns c : 1 <= columns <= MAX_PARAMS_PER_STATEMENT -> c ∈ chunk items (rowsPerStatement columns) -> len c * columns <= MAX_PARAMS_PER_STATEMENT.
Proof.
  intros Hc Hin. assert (Hs : len c <= rowsPerStatement columns).
  { unfold chunk in Hin. revert Hin. generalize (length items) as fuel. intros fuel. revert items. induction fuel as [|fuel IH]; intros items Hin; [cbn in Hin; set_solver|].
    destruct items as [|x items]; [cbn in Hin; set_solver|]. cbn [chunkFrom] in Hin. apply elem_of_cons in Hin as [->|Hin]; [|eauto].
    unfold len. rewrite length_take. pose proof (rowsPerStatement_pos columns). lia. }
  unfold rowsPerStatement, MAX_PARAMS_PER_STATEMENT in *. assert (1 <= 100 / columns) by (apply Z.div_le_lower_bound; lia).
  pose proof (Z.mul_div_le 100 columns ltac:(lia)). nia.
Qed.
