(* ===== verification/Enqueue.v ===== *)
(** * Entering the outbound queue (packages/mta/src/enqueue.ts)

    [enqueueMessage] decides whether a message may leave: safe envelope addresses, a sender domain the
    tenant has verified, a sender the account owns, the rate limits, the internal-only mode and the
    suppression list.  Then the rows of the queue and the ledger of the message's blob are written in one
    batch.  The ids are drawn by the caller of the model: [fresh] gives the n-th id and token. *)

From S2P Require Import Prelude JsString Text SmtpClient Dsn Queue.

Inductive SystemSender := NullSender | Srs.
Record SystemRelay := mkSystem { relayPerHour : Z; sy_envFrom : SystemSender }.

Record RcptDsn := mkRcptDsn { dp_notify : option jsstr; dp_orcpt : option jsstr }.
Record EnqueueDsn := mkEnqueueDsn { dp_ret : option jsstr; dp_envid : option jsstr; perRcpt : list (jsstr * RcptDsn) }.

Record EnqueueInput := mkInput {
  tenantId : jsstr; accountId : option jsstr; submissionId : option jsstr; blobId : jsstr; sizeBytes : Z; blobGeneration : option Z;
  envFrom : jsstr; rcpts : list jsstr; sendAt : option Z; system : option SystemRelay; en_dsn : option EnqueueDsn
}.

Inductive OutboundRejectReason := DomainUnverified | RateLimited | ExternalDisabled | InvalidAddress | SenderNotOwned.

(** What is thrown: a rejection, or the error of a hook or of the database. *)
Inductive EnqueueError := OutboundRejected (reason : OutboundRejectReason) (text : jsstr) | Threw.

Inductive EnqueueResult := Enqueued (queuedIds : list jsstr) (skipped : list jsstr) | Refused (e : EnqueueError).

Record RateLimitConfig := mkRate { perMinute : option Z; perHour : option Z; perDay : option Z }.

(** [hasRelayFor] is a hook; it may throw. *)
Record EnqueueOptions := mkEnqueueOptions {
  rateLimit : option RateLimitConfig; localOnly : bool; hasRelayFor : option (jsstr -> jsstr -> option bool); requireSenderOwnership : option bool
}.

Definition domainPart (address : jsstr) : jsstr :=
  match lastIndexOf 64 address with None => [] | Some at_ => toLowerCase (drop (S at_) address) end.
Definition rcptDomain (rcpt : jsstr) : jsstr := domainPart rcpt.

(** An account's address, its tag removed: its own, or an alias that leads to it. *)
Definition baseAddress (from : jsstr) : option (jsstr * jsstr) :=
  let addr := toLowerCase (trim from) in
  match lastIndexOf 64 addr with
  | None | Some O => None
  | Some at_ =>
      let rawLocalpart := take at_ addr in
      let localpart := match indexOf 43 rawLocalpart with Some (S p) => take (S p) rawLocalpart | _ => rawLocalpart end in
      Some (localpart, drop (S at_) addr)
  end.

Definition ownEmail (db : Db) (account email : jsstr) : bool := existsb (fun a => (ac_id a === account) && (ac_email a === email)) (accounts db).

Definition aliasTarget (db : Db) (account domain localpart : jsstr) : bool :=
  existsb (fun t => (tg_accountId t === account) &&
    existsb (fun ad => (ad_id ad === tg_addressId t) && (ad_localpart ad === localpart) &&
      existsb (fun d => (dm_id d === ad_domainId ad) && (dm_name d === domain)) (domains db)) (addresses db)) (address_targets db).

Definition senderOwnedByAccount (db : Db) (account from : jsstr) : bool :=
  match baseAddress from with
  | None => false
  | Some (localpart, domain) => ownEmail db account (localpart ++ [64] ++ domain) || aliasTarget db account domain localpart
  end.

(** ** The gates, in their order *)

Inductive Window := PerMinute | PerHour | PerDay.
Definition WINDOW_MS (w : Window) : Z := match w with PerMinute => 60000 | PerHour => 3600000 | PerDay => 86400000 end.
Definition windowName (w : Window) : jsstr := match w with PerMinute => js "perMinute" | PerHour => js "perHour" | PerDay => js "perDay" end.
Definition capOf (c : RateLimitConfig) (w : Window) : Z :=
  match w with PerMinute => default 30 (perMinute c) | PerHour => default 500 (perHour c) | PerDay => default 2000 (perDay c) end.
Definition DEFAULT_RELAY_PER_HOUR : Z := 1000.

(** [SELECT COUNT(...)] *)
Definition countRows (p : QueueRow -> bool) (since : Z) (db : Db) : Z := len (List.filter (fun r => p r && (since <? q_createdAt r)) (mta_queue db)).
Definition ofTenant (t : jsstr) (r : QueueRow) : bool := q_tenantId r === t.
Definition ofAccount (a : jsstr) (r : QueueRow) : bool := match q_accountId r with Some x => x === a | None => false end.

Definition reject (reason : OutboundRejectReason) (text : jsstr) : option EnqueueError := Some (OutboundRejected reason text).

(** The first error of a list of gates. *)
Definition orElse (a b : option EnqueueError) : option EnqueueError := match a with Some e => Some e | None => b end.

Section Enqueue.
Context (db : Db) (input : EnqueueInput) (opts : EnqueueOptions) (now : Z).

Definition effectiveFrom : jsstr := match system input with Some {| sy_envFrom := NullSender |} => [] | _ => envFrom input end.

Definition gateAddresses : option EnqueueError :=
  if negb (isSafeEnvelopeAddress effectiveFrom) then reject InvalidAddress (js "unsafe envelope-from: " ++ jsonStringify effectiveFrom)
  else match findUnsafeAddress (rcpts input) with
       | Some r => reject InvalidAddress (js "unsafe recipient: " ++ jsonStringify r)
       | None => None
       end.

Definition gateRewritten : option EnqueueError :=
  match system input with
  | Some {| sy_envFrom := Srs |} => if domainPart effectiveFrom === [] then reject InvalidAddress (js "system relay envelope-from is not rewritten: " ++ jsonStringify effectiveFrom) else None
  | _ => None
  end.

Definition gateDomain : option EnqueueError :=
  match system input with
  | Some _ => None
  | None =>
      let domain := domainPart effectiveFrom in
      if domain === [] then reject DomainUnverified (js "envelope-from domain missing: " ++ effectiveFrom)
      else if canSendFromDomain db domain (tenantId input) then None
      else reject DomainUnverified (js "sender domain not verified: " ++ domain)
  end.

Definition gateOwner : option EnqueueError :=
  match requireSenderOwnership opts, given (accountId input), system input with
  | Some false, _, _ => None
  | _, Some account, None => if senderOwnedByAccount db account effectiveFrom then None else reject SenderNotOwned (js "envelope-from not owned by account: " ++ effectiveFrom)
  | _, _, _ => None
  end.

Definition gateRelay : option EnqueueError :=
  match system input with
  | Some s =>
      let existing := countRows (ofTenant (tenantId input)) (now - WINDOW_MS PerHour) db in
      if relayPerHour s <? existing + len (rcpts input)
      then reject RateLimited (js "relay rate limit exceeded (" ++ numToString (existing + len (rcpts input)) ++ js " > " ++ numToString (relayPerHour s) ++ js ")")
      else None
  | None => None
  end.

Definition gateWindow (account : jsstr) (c : RateLimitConfig) (w : Window) : option EnqueueError :=
  let cap := capOf c w in
  let existing := countRows (ofAccount account) (now - WINDOW_MS w) db in
  if cap <? existing + len (rcpts input)
  then reject RateLimited (js "rate limit exceeded (" ++ windowName w ++ js ": " ++ numToString (existing + len (rcpts input)) ++ js " > " ++ numToString cap ++ js ")")
  else None.

Definition gateRate : option EnqueueError :=
  match rateLimit opts, given (accountId input) with
  | Some c, Some account => orElse (gateWindow account c PerMinute) (orElse (gateWindow account c PerHour) (gateWindow account c PerDay))
  | _, _ => None
  end.

(** [None]: the hook threw. *)
Definition hasExternalRoute : option bool :=
  match hasRelayFor opts with None => Some false | Some f => f (tenantId input) (domainPart (envFrom input)) end.

(** The source asks each domain once, in the order of the recipients: the first that is not local decides. *)
Definition gateLocal : option EnqueueError :=
  match localOnly opts, system input with
  | true, None =>
      match hasExternalRoute with
      | None => Some Threw
      | Some true => None
      | Some false =>
          match List.find (fun d => negb (isLocallyRoutableDomain db d (Some (tenantId input)))) (map domainPart (rcpts input)) with
          | Some d => reject ExternalDisabled (js "external delivery is not configured (recipient domain: " ++ d ++ js ")")
          | None => None
          end
      end
  | _, _ => None
  end.

Definition gates : option EnqueueError :=
  orElse gateAddresses (orElse gateRewritten (orElse gateDomain (orElse gateOwner (orElse gateRelay (orElse gateRate gateLocal))))).

(** ** Recipients and rows *)

Definition isSuppressed (rcpt : jsstr) : bool :=
  existsb (fun s => (su_tenantId s === tenantId input) && (su_email s === toLowerCase rcpt) && isActive (su_expiresAt s) now) (suppressions db).

Definition accepted : list jsstr := List.filter (fun r => negb (isSuppressed r)) (rcpts input).
Definition skipped : list jsstr := List.filter isSuppressed (rcpts input).

Definition rcptParams (rcpt : jsstr) : option RcptDsn := d ← en_dsn input; snd <$> List.find (fun kv => kv.1 === rcpt) (perRcpt d).

Definition queueRow (id token rcpt : jsstr) : QueueRow := {|
  q_id := id; q_tenantId := tenantId input; q_accountId := accountId input; q_submissionId := submissionId input; q_blobId := blobId input;
  q_envFrom := effectiveFrom; q_verpToken := token; q_rcpt := rcpt; q_rcptDomain := rcptDomain rcpt;
  q_status := Queued; q_attempts := 0; q_nextAttempt := default now (sendAt input); q_leaseUntil := None; q_lastError := None; q_createdAt := now;
  q_dsnNotify := rcptParams rcpt ≫= dp_notify; q_dsnOrcpt := rcptParams rcpt ≫= dp_orcpt;
  q_dsnEnvid := en_dsn input ≫= dp_envid; q_dsnRet := en_dsn input ≫= dp_ret; q_delayNotifiedAt := None
|}.

Definition generation : Z := default 0 (blobGeneration input).

Definition MTA_QUEUE_COLUMNS : Z := 19.
Definition BLOB_REF_COLUMNS : Z := 5.

Definition queueRef (id : jsstr) : BlobRef := mkRef (blobId input) (default SYSTEM_ACCOUNT_REF (accountId input)) RefQueue id now.

Definition writes (rows : list QueueRow) : list Stmt :=
  multiRowInsertStatements InsertQueue MTA_QUEUE_COLUMNS rows
  ++ [InsertBlob (mkBlob (blobId input) (sizeBytes input) Live generation None now); ReviveBlob generation (blobId input)]
  ++ multiRowInsertStatements InsertRefs BLOB_REF_COLUMNS (map (fun r => queueRef (q_id r)) rows).

(** [fresh i]: what the i-th [ulid()] and [verpToken()] give. *)
Definition newRows (fresh : nat -> jsstr * jsstr) : list QueueRow := imap (fun i rcpt => queueRow (fresh i).1 (fresh i).2 rcpt) accepted.

Definition enqueueMessage (fresh : nat -> jsstr * jsstr) : EnqueueResult * Db :=
  match gates with
  | Some e => (Refused e, db)
  | None =>
      if len accepted =? 0 then (Enqueued [] skipped, db)
      else match batch (writes (newRows fresh)) db with
           | Some (db', _) => (Enqueued (map q_id (newRows fresh)) skipped, db')
           | None => (Refused Threw, db)
           end
  end.
End Enqueue.

(** ** What gets into the queue *)

(** The account may use the address, as the tables say. *)
Definition Owns (db : Db) (account from : jsstr) : Prop :=
  exists localpart domain, baseAddress from = Some (localpart, domain) /\
    ((exists a, a ∈ accounts db /\ ac_id a = account /\ ac_email a = localpart ++ [64] ++ domain) \/
     (exists t ad d, t ∈ address_targets db /\ ad ∈ addresses db /\ d ∈ domains db /\
        tg_accountId t = account /\ ad_id ad = tg_addressId t /\ ad_localpart ad = localpart /\ dm_id d = ad_domainId ad /\ dm_name d = domain)).

(** A row of the table of domains for [nm]. *)
Definition HasDomain (db : Db) (nm : jsstr) (P : DomainRow -> Prop) : Prop := exists d, d ∈ domains db /\ dm_name d = toLowerCase (trim nm) /\ P d.

Lemma existsb_elem {A} (p : A -> bool) l : existsb p l = true <-> exists x, x ∈ l /\ p x = true.
Proof. rewrite existsb_exists. split; intros (x & Hx & Hp); exists x; split; try done; by apply list_elem_of_In. Qed.

Lemma senderOwned_spec db account from : senderOwnedByAccount db account from = true -> Owns db account from.
Proof.
  unfold senderOwnedByAccount, Owns. destruct (baseAddress from) as [[l d]|]; [|done]. intros [H|H]%orb_true_iff; exists l, d; (split; [done|]).
  - left. apply existsb_elem in H as (a & Ha & [Hi He]%andb_true_iff). apply seqb_eq in Hi, He. eauto.
  - right. apply existsb_elem in H as (t & Ht & [Hta H]%andb_true_iff). apply existsb_elem in H as (ad & Had & [[Hi Hl]%andb_true_iff H]%andb_true_iff).
    apply existsb_elem in H as (dm & Hdm & [Hd Hn]%andb_true_iff). apply seqb_eq in Hta, Hi, Hl, Hd, Hn. eauto 12.
Qed.

Lemma canSend_spec db nm t : canSendFromDomain db nm t = true -> HasDomain db nm (fun d => dm_tenantId d = t /\ dm_status d = DOMAIN_STATUS_VERIFIED).
Proof.
  unfold canSendFromDomain, HasDomain. destruct (_ || _); [done|]. intros (d & Hd & [[Ht Hn]%andb_true_iff Hs]%andb_true_iff)%existsb_elem.
  apply seqb_eq in Ht, Hn. apply Z.eqb_eq in Hs. eauto.
Qed.

Lemma routable_spec db nm t : isLocallyRoutableDomain db nm (Some t) = true -> HasDomain db nm (fun d => dm_status d = DOMAIN_STATUS_VERIFIED \/ dm_tenantId d = t).
Proof.
  unfold isLocallyRoutableDomain, lookupDomainRouting, HasDomain. destruct (_ === _); [done|]. cbn [verified ownedByTenant].
  assert (Hf : forall p, existsb p (List.filter (fun d => dm_name d === toLowerCase (trim nm)) (domains db)) = true ->
    exists d, d ∈ domains db /\ dm_name d = toLowerCase (trim nm) /\ p d = true).
  { intros p (d & Hd & Hp)%existsb_elem. apply list_elem_of_In, filter_In in Hd as [Hd Hn]. apply seqb_eq in Hn. exists d. split; [by apply list_elem_of_In|done]. }
  intros [H|H]%orb_true_iff.
  - destruct (Hf _ H) as (d & Hd & Hn & Hp%Z.eqb_eq). eauto.
  - destruct (given (Some t)) as [t'|] eqn:E; [|done]. assert (t' = t) as -> by (destruct t; cbn in E; by simplify_eq).
    destruct (Hf _ H) as (d & Hd & Hn & Hp%seqb_eq). eauto.
Qed.

Lemma orElse_None a b : orElse a b = None -> a = None /\ b = None.
Proof. by destruct a. Qed.

Section Sound.
Context (db : Db) (input : EnqueueInput) (opts : EnqueueOptions) (now : Z).

(** What the gates allow a row of the queue to be, and the queue it is in. *)
Definition Permitted (db' : Db) (row : QueueRow) : Prop :=
  isSafeEnvelopeAddress (q_envFrom row) = true /\ isSafeEnvelopeAddress (q_rcpt row) = true /\
  (system input = None -> HasDomain db (domainPart (q_envFrom row)) (fun d => dm_tenantId d = q_tenantId row /\ dm_status d = DOMAIN_STATUS_VERIFIED)) /\
  (system input = None -> requireSenderOwnership opts <> Some false -> forall a, given (accountId input) = Some a -> Owns db a (q_envFrom row)) /\
  (forall s, system input = Some s ->
     countRows (ofTenant (q_tenantId row)) (now - WINDOW_MS PerHour) db' <= relayPerHour s /\ (sy_envFrom s = NullSender -> q_envFrom row = [])) /\
  (forall c a w, rateLimit opts = Some c -> given (accountId input) = Some a -> countRows (ofAccount a) (now - WINDOW_MS w) db' <= capOf c w) /\
  (localOnly opts = true -> system input = None -> hasExternalRoute input opts <> Some true ->
     HasDomain db (domainPart (q_rcpt row)) (fun d => dm_status d = DOMAIN_STATUS_VERIFIED \/ dm_tenantId d = q_tenantId row)) /\
  (forall s, s ∈ suppressions db -> su_tenantId s = q_tenantId row -> su_email s = toLowerCase (q_rcpt row) -> isActive (su_expiresAt s) now = false).

Lemma gates_pass : gates db input opts now = None ->
  gateAddresses input = None /\ gateDomain db input = None /\ gateOwner db input opts = None /\ gateRelay db input now = None /\
  gateRate db input opts now = None /\ gateLocal db input opts = None.
Proof. unfold gates. intros H. repeat (apply orElse_None in H as [? H]). done. Qed.

Lemma count_bound p since rows : (length rows <= length (rcpts input))%nat ->
  countRows p since (db <| mta_queue := mta_queue db ++ rows |>) <= countRows p since db + len (rcpts input).
Proof.
  intros Hl. unfold countRows. cbn. rewrite List.filter_app, len_app. pose proof (List.filter_length_le (fun r => p r && (since <? q_createdAt r)) rows).
  unfold len. lia.
Qed.

Lemma gateWindow_pass account c w : gateWindow db input now account c w = None -> countRows (ofAccount account) (now - WINDOW_MS w) db + len (rcpts input) <= capOf c w.
Proof. unfold gateWindow. destruct (Z.ltb_spec (capOf c w) (countRows (ofAccount account) (now - WINDOW_MS w) db + len (rcpts input))); [done|]. done. Qed.

Lemma gateRate_pass c a w : gateRate db input opts now = None -> rateLimit opts = Some c -> given (accountId input) = Some a ->
  countRows (ofAccount a) (now - WINDOW_MS w) db + len (rcpts input) <= capOf c w.
Proof.
  unfold gateRate. intros H Hc Ha. rewrite Hc, Ha in H. apply orElse_None in H as [H1 [H2 H3]%orElse_None].
  destruct w; by apply gateWindow_pass.
Qed.

(** The rows of an accepted request satisfy every gate. *)
Lemma rows_permitted rows rows0 id token rcpt db' : gates db input opts now = None -> (length rows <= length (rcpts input))%nat ->
  mta_queue db' = mta_queue (db <| mta_queue := mta_queue db ++ rows |>) -> rows0 = queueRow input now id token rcpt -> rcpt ∈ accepted db input now ->
  Permitted db' rows0.
Proof.
  intros (Ha & Hd & Ho & Hr & Hrl & Hl)%gates_pass Hlen Hq -> Hin. apply list_elem_of_In, filter_In in Hin as [Hin Hns]. apply negb_true_iff in Hns.
  assert (Hc : forall p since, countRows p since db' <= countRows p since db + len (rcpts input)).
  { intros p since. unfold countRows at 1. rewrite Hq. by apply count_bound. }
  unfold Permitted. cbn [q_envFrom q_rcpt q_tenantId queueRow]. split_and!.
  - unfold gateAddresses in Ha. by destruct (isSafeEnvelopeAddress _).
  - unfold gateAddresses in Ha. destruct (isSafeEnvelopeAddress _); [|done]. cbn in Ha.
    destruct (findUnsafeAddress (rcpts input)) eqn:E; [done|]. unfold findUnsafeAddress in E.
    pose proof (List.find_none _ _ E _ Hin) as Hf. by apply negb_false_iff in Hf.
  - intros Hs. unfold gateDomain in Hd. rewrite Hs in Hd. destruct (_ === _); [done|]. destruct (canSendFromDomain _ _ _) eqn:E; [|done]. by apply canSend_spec.
  - intros Hs Hreq a Hgiven. unfold gateOwner in Ho. rewrite Hs, Hgiven in Ho.
    destruct (senderOwnedByAccount db a (effectiveFrom input)) eqn:E; [by apply senderOwned_spec|]. by destruct (requireSenderOwnership opts) as [[]|].
  - intros s Hs. unfold gateRelay in Hr. rewrite Hs in Hr. destruct (Z.ltb_spec (relayPerHour s) (countRows (ofTenant (tenantId input)) (now - WINDOW_MS PerHour) db + len (rcpts input))); [done|].
    split; [etrans; [apply Hc|done]|]. intros Hn. unfold effectiveFrom. rewrite Hs. destruct s as [n []]; cbn in Hn; by simplify_eq.
  - intros c a w Hcfg Hgiven. etrans; [apply Hc|]. by apply gateRate_pass.
  - intros Hloc Hs Hext. unfold gateLocal in Hl. rewrite Hloc, Hs in Hl. destruct (hasExternalRoute input opts) as [[]|]; [done| |done].
    destruct (List.find _ _) eqn:E; [done|]. pose proof (List.find_none _ _ E (domainPart rcpt) (List.in_map domainPart _ _ Hin)) as Hf.
    apply negb_false_iff in Hf. by apply routable_spec.
  - intros s Hs Ht He. destruct (isActive _ _) eqn:E; [|done]. assert (isSuppressed db input now rcpt = true); [|congruence].
    apply existsb_elem. exists s. split; [done|]. by rewrite Ht, He, E, !seqb_refl.
Qed.

(** The ledger after the batch: the blob is known, at the written generation or a later one. *)
Lemma ledger_written rows db' ns : batch (writes input now rows) db = Some (db', ns) ->
  mta_queue db' = mta_queue db ++ rows /\ suppressions db' = suppressions db /\ domains db' = domains db /\
  blob_refs db' = blob_refs db ++ map (fun r => queueRef input now (q_id r)) rows /\
  exists b, b ∈ blobs db' /\ bl_id b = blobId input /\ generation input <= bl_generation b.
Proof.
  unfold writes. intros H. apply batch_app in H as (d1 & n1 & n2 & H1 & H2). apply inserts_queue in H1 as ->.
  change (InsertBlob ?a :: ?b :: ?rest) with ([InsertBlob a; b] ++ rest) in H2. apply batch_app in H2 as (d2 & n3 & n4 & H2 & H3). apply inserts_refs in H3 as ->.
  set (row := mkBlob (blobId input) (sizeBytes input) Live (generation input) None now) in *.
  cbn [batch exec] in H2. cbn in H2. destruct (insertIgnore sameBlob row (blobs db)) as [bs k] eqn:E. cbn in H2. simplify_eq. cbn. split_and!; try done.
  assert (Hb : exists b, b ∈ bs /\ bl_id b = blobId input).
  { unfold insertIgnore in E. destruct (existsb (sameBlob row) (blobs db)) eqn:Ex; simplify_eq.
    - apply existsb_elem in Ex as (b & Hb & Hs%seqb_eq). exists b. split; [done|]. by rewrite <- Hs.
    - exists row. split; [set_solver|done]. }
  destruct Hb as (b & Hb & Hid). eexists. split; [apply list_elem_of_fmap; eexists; split; [reflexivity|exact Hb]|].
  rewrite Hid, seqb_refl. cbn [andb]. destruct (Z.leb_spec (bl_generation b) (generation input)); cbn; [done|]. split; [done|lia].
Qed.

(** C19: whatever enters the queue was allowed to.  A request either is refused, and then nothing is written,
    or it adds one row for each recipient that is not suppressed, and every such row satisfies all gates:
    envelope addresses that cannot break a command line; for a user, a sender domain the tenant has
    verified and, unless the check is switched off, a sender address that the account owns; for the
    server's own mail, the null sender where it was declared, and a tenant whose rows of the last hour,
    these included, do not exceed the declared limit; for an account with limits, no more rows in the
    last minute, hour and day than they allow; in internal-only mode without a relay, a recipient domain
    that is verified or the tenant's own; no active suppression of the recipient.  Every row holds a
    reference to the message's blob, which is in the ledger. *)
Theorem enqueue_gates fresh :
  match enqueueMessage db input opts now fresh with
  | (Enqueued ids skip, db') =>
      exists rows, mta_queue db' = mta_queue db ++ rows /\ ids = map q_id rows /\ map q_rcpt rows = accepted db input now /\ skip = skipped db input now /\
        Forall (Permitted db') rows /\
        Forall (fun r => q_status r = Queued /\ q_attempts r = 0 /\ queueRef input now (q_id r) ∈ blob_refs db') rows /\
        (rows <> [] -> exists b, b ∈ blobs db' /\ bl_id b = blobId input /\ generation input <= bl_generation b)
  | (Refused _, db') => db' = db
  end.
Proof.
  unfold enqueueMessage. destruct (gates db input opts now) eqn:Hg; [done|]. destruct (Z.eqb_spec (len (accepted db input now)) 0) as [E|E].
  { apply len_zero in E. exists []. by rewrite E, app_nil_r. }
  destruct (batch _ db) as [[db' ns]|] eqn:Hb; [|done]. apply ledger_written in Hb as (Hq & _ & _ & Hr & Hl).
  set (rows := newRows db input now fresh) in *.
  assert (Hlen : (length rows <= length (rcpts input))%nat) by (unfold rows, newRows; rewrite length_imap; apply List.filter_length_le).
  exists rows. split_and!; try done.
  - unfold rows, newRows. clear. generalize (accepted db input now) as l. intros l. revert fresh. induction l as [|x l IH]; intros fresh; cbn; [done|]. f_equal. apply (IH (fresh ∘ S)).
  - apply Forall_forall. intros r Hin. unfold rows, newRows in Hin. apply elem_of_lookup_imap in Hin as (i & rcpt & -> & Hi). eapply rows_permitted; [done|exact Hlen|by rewrite Hq|done|by eapply list_elem_of_lookup_2].
  - apply Forall_forall. intros r Hin. pose proof Hin as Hin'. unfold rows, newRows in Hin'. apply elem_of_lookup_imap in Hin' as (i & rcpt & -> & Hi). cbn. split_and!; try done.
    rewrite Hr. apply elem_of_app. right. apply list_elem_of_fmap. eexists. split; [|exact Hin]. done.
Qed.
End Sound.
