(* ===== verification/MtaWorker.v ===== *)
(** * The worker of the outbound queue (packages/mta/src/worker.ts)

    A tick takes the rows that are due under a lease, groups them by tenant, recipient domain, sender and
    blob, and hands each group to [processGroup]: find the relay or the mail exchangers, load and sign the
    message, try the hosts in their order, and record for each recipient what came of it.  What the
    worker asks of the world (the resolver, the relays, the blob store, the keys, the peers, the clock,
    random numbers) is the record [World]; clock, random numbers and peers are numbered by the questions
    asked so far.  The lanes of a tick run one after the other, as they do with concurrency 1. *)

From S2P Require Import Prelude JsString Text JsDate Trace Loop Effects Scram Dane Dkim MtaSts SmtpClient Dsn Queue.

(** ** Notifications *)

Inductive DsnKind := KFailure | KDelay | KSuccess.
Definition kindName (k : DsnKind) : jsstr := match k with KFailure => js "FAILURE" | KDelay => js "DELAY" | KSuccess => js "SUCCESS" end.

Definition dsnWanted (notify : option jsstr) (kind : DsnKind) : bool :=
  let byDefault := match kind with KSuccess => false | _ => true end in
  match notify with
  | None => byDefault
  | Some n =>
      if trim n === [] then byDefault
      else let parts := splitOn 44 (toUpperCase n) in
           if existsb (fun p => p === js "NEVER") parts then false else existsb (fun p => p === kindName kind) parts
  end.

(** ** Texts that tenants see *)

Definition MAX_TENANT_ERROR_LEN : Z := 200.

(** [/(^|\s)\/[^\s:]+/g]: a slash at the start or behind white space, and the run that follows. *)
Definition isPathChar (c : Z) : bool := negb (isWs c) && negb (c =? 58).
Fixpoint pathRun (s : jsstr) : nat := match s with c :: s' => if isPathChar c then S (pathRun s') else O | [] => O end.
Definition pathAt (s : jsstr) : option nat := match s with 47 :: s' => match pathRun s' with O => None | n => Some (S n) end | _ => None end.

Fixpoint redactPaths (fuel : nat) (start : bool) (s : jsstr) : jsstr :=
  match fuel, s with
  | S fuel', c :: s' =>
      match (if start then pathAt s else None) with
      | Some n => js "<path>" ++ redactPaths fuel' false (drop n s)
      | None =>
          if isWs c then match pathAt s' with
                         | Some n => c :: js "<path>" ++ redactPaths fuel' false (drop n s')
                         | None => c :: redactPaths fuel' false s'
                         end
          else c :: redactPaths fuel' false s'
      end
  | _, _ => []
  end.

Definition isWord (c : Z) : bool := isDigit c || ((65 <=? c) && (c <=? 90)) || ((97 <=? c) && (c <=? 122)) || (c =? 95).
(** [\b] between the unit before, if any, and the text ahead. *)
Definition boundary (before : option Z) (s : jsstr) : bool := xorb (match before with Some c => isWord c | None => false end) (match s with c :: _ => isWord c | [] => false end).
Definition lastUnit (before : option Z) (n : nat) (s : jsstr) : option Z := match n with O => before | S i => s !! i end.

(** The lengths that [c{0,m}] can take, longest first. *)
Fixpoint runLengths (p : Z -> bool) (m : nat) (s : jsstr) : list nat :=
  match m, s with S m', c :: s' => if p c then map S (runLengths p m' s') ++ [O] else [O] | _, _ => [O] end.

(** The lengths that [(?:sep c{lo,4})] repeated between [least] and [most] times can take, in the order they are tried. *)
Fixpoint groupLengths (sep : Z) (p : Z -> bool) (lo hi : nat) (least most : nat) (s : jsstr) : list nat :=
  match most with
  | O => [O]
  | S most' =>
      match s with
      | c :: s' =>
          if c =? sep then
            flat_map (fun n => map (fun k => S (n + k)) (groupLengths sep p lo hi (pred least) most' (drop n s')))
                     (List.filter (fun n => Nat.leb lo n) (runLengths p hi s'))
          else []
      | [] => []
      end ++ match least with O => [O] | _ => [] end
  end.

Definition isHexChar (c : Z) : bool := isDigit c || ((97 <=? c) && (c <=? 102)) || ((65 <=? c) && (c <=? 70)).

(** The length of a match at the start of [s], of the two patterns for addresses. *)
Definition addressAt (first : jsstr -> list nat) (rest : jsstr -> list nat) (before : option Z) (s : jsstr) : option nat :=
  if boundary before s then
    List.find (fun n => boundary (lastUnit before n s) (drop n s)) (flat_map (fun n => map (fun k => (n + k)%nat) (rest (drop n s))) (first s))
  else None.
Definition ipv4At : option Z -> jsstr -> option nat :=
  addressAt (fun s => List.filter (fun n => Nat.leb 1 n) (runLengths isDigit 3 s)) (groupLengths 46 isDigit 1 3 3 3).
Definition ipv6At : option Z -> jsstr -> option nat := addressAt (runLengths isHexChar 4) (groupLengths 58 isHexChar 0 4 2 7).

Fixpoint redactAddresses (at_ : option Z -> jsstr -> option nat) (fuel : nat) (before : option Z) (s : jsstr) : jsstr :=
  match fuel, s with
  | S fuel', c :: s' =>
      match at_ before s with
      | Some (S n) => js "<ip>" ++ redactAddresses at_ fuel' (s !! n) (drop (S n) s)
      | _ => c :: redactAddresses at_ fuel' (Some c) s'
      end
  | _, _ => []
  end.

Definition redactForTenant (m : jsstr) : jsstr :=
  let a := redactPaths (length m) true m in
  let b := redactAddresses ipv4At (length a) None a in
  let cleaned := redactAddresses ipv6At (length b) None b in
  if MAX_TENANT_ERROR_LEN <? len cleaned then take (Z.to_nat MAX_TENANT_ERROR_LEN) cleaned ++ [8230] else cleaned.

Definition rejectionText (c : Z) (m : jsstr) : jsstr :=
  let detail := trim m in
  if detail === [] then numToString c ++ js " rejected" else redactForTenant (numToString c ++ [SP] ++ detail).

Example redact_examples :
  redactForTenant (js "open /var/mail/x: denied") = js "open <path>: denied" /\
  redactForTenant (js "connect 10.0.0.12:25") = js "connect <ip>:25" /\
  redactForTenant (js "at fe80::1:2 now 12:30:45") = js "at <ip> now <ip>" /\
  redactForTenant (js "v1.2.3.4 1.2.3.4567 a:b") = js "v1.2.3.4 1.2.3.4567 a:b" /\
  redactForTenant (js "10:20:30Z") = js "<ip>30Z".
Proof. vm_compute. done. Qed.

(** An address that starts with a colon has no word boundary in front, and stays. *)
Example redact_misses_compressed : redactForTenant (js "connect ECONNREFUSED ::1:25") = js "connect ECONNREFUSED ::1:25".
Proof. vm_compute. reflexivity. Qed.

(** ** Retries *)

Definition DEFAULT_PORT : Z := 25.
Definition LEASE_MS : Z := 5 * 60 * 1000.
Definition LOCAL_DOMAIN_TTL_MS : Z := 60000.
Definition MAX_LOCAL_DOMAIN_CACHE : Z := 1024.
Definition DELAY_NOTIFY_AFTER_MS : Z := 4 * 60 * 60 * 1000.

(** [noise] is the jitter, rounded with the sum: at most a fifth of the base either way. *)
Definition backoffMs (attempts noise : Z) : Z := Z.max 1000 (Z.min (2 ^ attempts * 60000) (4 * 60 * 60 * 1000) + noise).

(** ** The worker and its world *)

Record MxRecord := mkMx { exchange : jsstr; priority : Z }.

Record SmarthostOptions := mkSmarthost { sh_host : jsstr; sh_port : option Z; sh_auth : option SmtpAuth; sh_tls : option TlsMode; maxRcptsPerSession : option Z }.

Record DkimKeyLookup := mkKey { k_selector : jsstr; k_privateKey : jsstr; k_algorithm : DkimAlgorithm }.

Inductive TlsaLookup := TlsaNone | TlsaSet (set : DaneTlsaSet) | TlsaBogus (reason : jsstr).

(** The hooks and what they answer; [None] where a hook throws. *)
Record Hooks := mkHooks {
  h_resolveMx : jsstr -> option (list MxRecord);
  h_resolveTlsa : option (jsstr -> Z -> option TlsaLookup);
  h_dkim : option (jsstr -> option (list DkimKeyLookup));
  h_smarthost : option (jsstr -> jsstr -> option (option SmarthostOptions));
  h_mtaSts : option (jsstr -> MtaStsLookup); h_cacheTtlMs : option Z;
  h_blobGet : jsstr -> Z -> option bytes;
  h_ledgerFails : bool; h_domainsFail : bool;
  h_dsnSends : bool;
  h_clock : nat -> Z; h_noise : nat -> Z; h_boundary : nat -> jsstr; h_peer : nat -> Peer
}.

Record WorkerOptions := mkWorker { wo_ehloName : jsstr; wo_port : Z; wo_smarthost : option SmarthostOptions; wo_maxAttempts : Z; wo_batchSize : Z; wo_dsn : bool; wo_tlsReport : bool }.

Inductive DeliveryOutcome := OSent | OBounced | ODeferred.

(** One call of [sendSmtp]. *)
Record Session := mkSession { ss_opts : SmtpClientOptions; ss_peer : Peer; ss_result : SmtpClientResult; ss_trace : list Act }.

Record Notice := mkNotice { n_tenantId : jsstr; n_to : jsstr; n_recipients : list DsnRecipient; n_message : bytes }.

Record World := mkWorld {
  w_db : Db; w_asked : nat; w_local : list (jsstr * (bool * Z)); w_sts : list (jsstr * StsEntry);
  w_sessions : list Session; w_notices : list Notice; w_outcomes : list DeliveryOutcome; w_tls : list (jsstr * jsstr * jsstr * jsstr)
}.

(** A rejected promise is [Err]; a peer that keeps the worker waiting is [Fuel]. *)
Abbreviation W := (Eff World unit).

Definition asking {A} (f : nat -> A) : W A := do n <- get w_asked; do_ modify (fun w => w <| w_asked := S n |>); ret (f n).
Definition emitResult (o : DeliveryOutcome) : W unit := modify (fun w => w <| w_outcomes ::= fun l => l ++ [o] |>).
Definition runBatch (stmts : list Stmt) : W (list Z) :=
  fun w => match batch stmts (w_db w) with Some (db, ns) => (Ok ns, w <| w_db := db |>) | None => (Err tt, w) end.

Definition groupKey (row : QueueRow) : jsstr := q_tenantId row ++ [0] ++ q_rcptDomain row ++ [0] ++ q_envFrom row ++ [0] ++ q_blobId row.

(** [prependHeader] *)
Definition prependHeader (r : bytes) (header : jsstr) : bytes := utf8Encode (header ++ crlf) ++ r.

Definition FEEDBACK_ID_HEADER : jsstr := js "X-Ionosphere-Feedback-Id".

(** [envFrom.slice(envFrom.lastIndexOf("@") + 1).toLowerCase()] *)
Definition senderDomainOf (from : jsstr) : jsstr := toLowerCase (drop (match lastIndexOf 64 from with Some i => S i | None => O end) from).

Section Worker.
Context `{NodeCrypto} `{DkimKeys} `{NodeSha512} `{LocalZone} (o : WorkerOptions) (h : Hooks).

Definition readClock : W Z := asking (h_clock h).

(** ** Small questions *)

Definition evictLocal (now : Z) (c : list (jsstr * (bool * Z))) : list (jsstr * (bool * Z)) :=
  if MAX_LOCAL_DOMAIN_CACHE <=? len c then
    let c := List.filter (fun kv => negb (kv.2.2 <=? now)) c in
    drop (Z.to_nat (len c - MAX_LOCAL_DOMAIN_CACHE + 1)) c
  else c.

Definition isLocalDomain (domain tenant : jsstr) : W bool :=
  do now <- readClock;
  let key := tenant ++ [0] ++ domain in
  do cache <- get w_local;
  let ask :=
    if h_domainsFail h then ret false
    else
      do db <- get w_db;
      let value := isLocallyRoutableDomain db domain (Some tenant) in
      do_ modify (fun w => w <| w_local := mapSet key (value, now + LOCAL_DOMAIN_TTL_MS) (evictLocal now (w_local w)) |>);
      ret value in
  match mapGet key cache with
  | Some (value, expiresAt) => if now <? expiresAt then ret value else ask
  | None => ask
  end.

Definition recordTls (domain policyType receivingMx resultType : jsstr) : W unit :=
  if wo_tlsReport o then modify (fun w => w <| w_tls ::= fun l => l ++ [(domain, policyType, receivingMx, resultType)] |>) else ret tt.

Definition stsLookup (fetch : jsstr -> MtaStsLookup) (domain : jsstr) : W MtaStsLookup :=
  do now <- readClock;
  do c <- get w_sts;
  let '(l, c') := mtaStsLookup (h_cacheTtlMs h) now domain (fetch domain) c in
  do_ modify (fun w => w <| w_sts := c' |>);
  ret l.

Definition lookupTlsa (mxHost : jsstr) (mxPort : Z) : TlsaLookup :=
  match h_resolveTlsa h with None => TlsaNone | Some f => default TlsaNone (f mxHost mxPort) end.

(** ** Telling the sender *)

Definition sendDsn (row : option QueueRow) (rs : list DsnRecipient) (original : bytes) : W unit :=
  match row with
  | None => ret tt
  | Some r =>
      if negb (wo_dsn o) || (len rs =? 0) then ret tt
      else if trim (q_envFrom r) === [] then ret tt
      else
        do boundaryText <- asking (h_boundary h);
        do now <- readClock;
        match buildDsn (mkDsnInput (q_envFrom r) (wo_ehloName o) rs original None) boundaryText (Some now) with
        | None => ret tt
        | Some m => if h_dsnSends h then modify (fun w => w <| w_notices ::= fun l => l ++ [mkNotice (q_tenantId r) (q_envFrom r) rs m] |>) else ret tt
        end
  end.

(** The delay notice of a row that stays: the recipient's entry, and the statement that marks it. *)
Definition noteDelayIfDue (row : QueueRow) (now : Z) (detail : jsstr) : list DsnRecipient * list Stmt :=
  if negb (wo_dsn o) then ([], [])
  else if match q_delayNotifiedAt row with Some _ => true | None => false end then ([], [])
  else if trim (q_envFrom row) === [] then ([], [])
  else if now - q_createdAt row <? DELAY_NOTIFY_AFTER_MS then ([], [])
  else if negb (dsnWanted (q_dsnNotify row) KDelay) then ([], [])
  else ([mkDsnRecipient (q_rcpt row) Delayed (js "4.4.7") (Some detail) None (q_dsnOrcpt row)], [SetDelayNotified now (q_id row)]).

(** What one row adds to the batch of its chunk. *)
Record Entry := mkEntryOf { e_stmts : list Stmt; e_suppress : list Suppression; e_dsn : list DsnRecipient; e_outcome : DeliveryOutcome }.

Definition retryEntry (row : QueueRow) (now noise : Z) (error : jsstr) : Entry :=
  let attempts := q_attempts row + 1 in
  let d := noteDelayIfDue row now error in
  mkEntryOf ([SetDeferred attempts (now + backoffMs attempts noise) error (q_id row)] ++ d.2) [] d.1 ODeferred.

(** [Map.get] *)
Definition rcptResult (r : SmtpClientResult) (rcpt : jsstr) : option RcptOutcome := mapGet rcpt (rcptResults r).

Definition isAccepted (rc : option RcptOutcome) : bool := match rc with Some x => (200 <=? rc_code x) && (rc_code x <? 300) | None => false end.

(** The code, whether it is for good, and the text: of the session when the recipient was accepted or not
    reached, else of the recipient. *)
Definition stageOf (r : SmtpClientResult) (rc : option RcptOutcome) : Z * bool * jsstr :=
  match rc with
  | Some x => if isAccepted rc then (code r, permanent r, message r) else (rc_code x, rc_permanent x, rc_message x)
  | None => (code r, permanent r, message r)
  end.

Definition failureNotice (row : QueueRow) (c : Z) (diagnostic : jsstr) (mxHost : jsstr) (viaSmarthost : bool) : list DsnRecipient :=
  if dsnWanted (q_dsnNotify row) KFailure then
    [mkDsnRecipient (q_rcpt row) Failed (enhancedStatusFor c Failed) (Some diagnostic) (if viaSmarthost then None else Some mxHost) (q_dsnOrcpt row)]
  else [].

Definition suppressionOf (row : QueueRow) (reason : SuppressionReason) (source : jsstr) (now : Z) : Suppression :=
  mkSuppression (q_tenantId row) (q_rcpt row) reason source now (suppressionExpiresAt reason now).

Definition outcomeOf (r : SmtpClientResult) (mxHost : jsstr) (viaSmarthost : bool) (now noise : Z) (row : QueueRow) : Entry :=
  let rc := rcptResult r (q_rcpt row) in
  let '(c, perm, detail) := stageOf r rc in
  if ok r && isAccepted rc then mkEntryOf [SetDone (q_id row)] [] [] OSent
  else if perm then
    mkEntryOf [SetBounced (rejectionText c detail) (q_id row)]
              (if viaSmarthost then [] else [suppressionOf row HardBounce (js "mta-bounce") now])
              (failureNotice row c (rejectionText c detail) mxHost viaSmarthost) OBounced
  else
    let attempts := q_attempts row + 1 in
    if wo_maxAttempts o <=? attempts then
      let error := js "max attempts exhausted: " ++ rejectionText c detail in
      mkEntryOf [SetExhausted attempts error (q_id row)]
                (if viaSmarthost then [] else [suppressionOf row Exhausted (js "mta-max-attempts") now])
                (failureNotice row c error mxHost viaSmarthost) OBounced
    else retryEntry row now noise (rejectionText c detail).

(** The entries of the rows in their order; each retry draws its own jitter. *)
Fixpoint entries (f : Z -> QueueRow -> Entry) (rows : list QueueRow) : W (list Entry) :=
  match rows with
  | [] => ret []
  | row :: rest =>
      do noise <- asking (h_noise h);
      let e := f noise row in
      do_ emitResult (e_outcome e);
      do es <- entries f rest;
      ret (e :: es)
  end.

Definition commit (rows : list QueueRow) (es : list Entry) (original : bytes) : W unit :=
  do_ runBatch (flat_map e_stmts es ++ map InsertSuppression (flat_map e_suppress es));
  sendDsn (head rows) (flat_map e_dsn es) original.

Definition applyOutcome (rows : list QueueRow) (r : SmtpClientResult) (mx : MxRecord) (viaSmarthost : bool) (original : bytes) : W unit :=
  do now <- readClock;
  do es <- entries (outcomeOf r (exchange mx) viaSmarthost now) rows;
  commit rows es original.

Definition deferEntry (stored : jsstr) (now noise : Z) (row : QueueRow) : Entry :=
  let attempts := q_attempts row + 1 in
  if wo_maxAttempts o <=? attempts then
    mkEntryOf [SetExhausted attempts stored (q_id row)] [] [mkDsnRecipient (q_rcpt row) Failed (js "5.0.0") (Some stored) None None] OBounced
  else retryEntry row now noise stored.

Definition deferAll (rows : list QueueRow) (tenantText : jsstr) (original : bytes) : W unit :=
  do now <- readClock;
  do es <- entries (deferEntry (redactForTenant tenantText) now) rows;
  commit rows es original.

(** ** One group *)

Definition signOptions (domain : jsstr) (k : DkimKeyLookup) (viaSmarthost : bool) (t : Z) : DkimSignOptions :=
  mkSignOptions domain (k_selector k) (k_privateKey k) (k_algorithm k) CanonRelaxed CanonRelaxed (if viaSmarthost then Some RELAY_SAFE_SIGNED_HEADERS else None) t None.

(** Each key signs what the keys before it made; a failure leaves the signatures so far. *)
Fixpoint signAll (domain : jsstr) (viaSmarthost : bool) (keys : list DkimKeyLookup) (m : bytes) : W bytes :=
  match keys with
  | [] => ret m
  | k :: rest =>
      do now <- readClock;
      match dkimSign m (signOptions domain k viaSmarthost (now / 1000)) with
      | Some header => signAll domain viaSmarthost rest (prependHeader m header)
      | None => ret m
      end
  end.

Definition prepareMessage (feedbackId domain : jsstr) (viaSmarthost : bool) (m : bytes) : W bytes :=
  let m := match feedbackId with [] => m | _ => prependHeader m (FEEDBACK_ID_HEADER ++ js ": " ++ feedbackId) end in
  match h_dkim h with
  | None => ret m
  | Some selectorFor => match selectorFor domain with None => ret m | Some keys => signAll domain viaSmarthost keys m end
  end.

Definition attemptOptions (smarthost : option SmarthostOptions) (mx : MxRecord) (from : jsstr) (rs : list jsstr) (m : bytes) (mxTls : TlsMode) (tlsa : option DaneTlsaSet) : SmtpClientOptions := {|
  host := exchange mx;
  port := match smarthost with Some s => default 587 (sh_port s) | None => wo_port o end;
  ehloName := wo_ehloName o; mailFrom := from; rcptTo := rs; SmtpClient.raw := m; timeoutMs := None;
  tls := Some (match smarthost with Some s => default Required (sh_tls s) | None => mxTls end);
  auth := smarthost ≫= sh_auth; dane := tlsa
|}.

Definition NO_MX : jsstr := js "no MX targets".

(** The hosts in their order, until one answers at all; and the text of the last failure. *)
Fixpoint tryTargets (smarthost : option SmarthostOptions) (domain policyType from : jsstr) (rs : list jsstr) (m : bytes) (mxTls : TlsMode)
    (targets : list MxRecord) (lastErr : jsstr) : W (option (SmtpClientResult * MxRecord) * jsstr) :=
  match targets with
  | [] => ret (None, lastErr)
  | mx :: rest =>
      let mxPort := match smarthost with Some s => default 587 (sh_port s) | None => wo_port o end in
      match (match smarthost with Some _ => TlsaNone | None => lookupTlsa (exchange mx) mxPort end) with
      | TlsaBogus reason =>
          do_ recordTls domain (js "tlsa") (exchange mx) (js "dane-required");
          tryTargets smarthost domain policyType from rs m mxTls rest (u8 "TLSA 검증 실패(" ++ exchange mx ++ js "): " ++ reason)
      | t =>
          let opts := attemptOptions smarthost mx from rs m mxTls (match t with TlsaSet s => Some s | _ => None end) in
          do peer <- asking (h_peer h);
          match sendSmtp opts peer with
          | (None, _) => fun w => (Fuel, w)
          | (Some r, trace) =>
              do_ modify (fun w => w <| w_sessions ::= fun l => l ++ [mkSession opts peer r trace] |>);
              if negb (code r =? 0) then
                do_ recordTls domain policyType (exchange mx) (match tlsUsed r with Some false => js "starttls-not-supported" | _ => js "success" end);
                ret (Some (r, mx), lastErr)
              else
                do_ recordTls domain policyType (exchange mx) (js "validation-failure");
                tryTargets smarthost domain policyType from rs m mxTls rest (message r)
          end
      end
  end.

Definition processChunk (smarthost : option SmarthostOptions) (domain policyType from : jsstr) (m : bytes) (mxTls : TlsMode) (targets : list MxRecord) (rows : list QueueRow) : W unit :=
  do (found, lastErr) <- tryTargets smarthost domain policyType from (map q_rcpt rows) m mxTls targets NO_MX;
  match found with
  | Some (r, mx) => applyOutcome rows r mx (match smarthost with Some _ => true | None => false end) m
  | None => deferAll rows lastErr m
  end.

Fixpoint processChunks (f : list QueueRow -> W unit) (chunks : list (list QueueRow)) : W unit :=
  match chunks with [] => ret tt | c :: rest => do_ f c; processChunks f rest end.

(** The relay, or why there is none to be had; [inr None]: straight to the exchangers. *)
Definition relayFor (row : QueueRow) : W (jsstr + option SmarthostOptions) :=
  do local <- isLocalDomain (q_rcptDomain row) (q_tenantId row);
  if local then ret (inr None)
  else match h_smarthost h with
       | None => ret (inr (wo_smarthost o))
       | Some resolve =>
           match resolve (q_tenantId row) (senderDomainOf (q_envFrom row)) with
           | None => ret (inl (js "relay configuration unavailable"))
           | Some (Some s) => ret (inr (Some s))
           | Some None => ret (inr (wo_smarthost o))
           end
       end.

Definition targetsFor (smarthost : option SmarthostOptions) (domain : jsstr) : option (list MxRecord) :=
  match smarthost with
  | Some s => Some [mkMx (sh_host s) 0]
  | None => (fun l => match l with [] => [mkMx domain 0] | _ => sortBy priority l end) <$> h_resolveMx h domain
  end.

(** The hosts that may be used, how TLS is used with them, and what the reports call the policy. *)
Definition policyFor (smarthost : option SmarthostOptions) (domain : jsstr) (targets : list MxRecord) : W (option (list MxRecord * TlsMode * jsstr)) :=
  let none := js "no-policy-found" in
  match h_mtaSts h, smarthost with
  | Some fetch, None =>
      do l <- stsLookup fetch domain;
      match stsEnforcement l, policy l with
      | RequireTls, Some p =>
          match List.filter (fun t => mxMatchesPolicy (exchange t) (mx p)) targets with
          | [] =>
              do_ recordTls domain (js "sts") (match targets with t :: _ => exchange t | [] => domain end) (js "sts-policy-invalid");
              ret None
          | matched => ret (Some (matched, Required, js "sts"))
          end
      | ReportOnly, _ => ret (Some (targets, Opportunistic, js "sts"))
      | _, _ => ret (Some (targets, Opportunistic, none))
      end
  | _, _ => ret (Some (targets, Opportunistic, none))
  end.

Definition loadBlob (blobId : jsstr) : W (option bytes) :=
  if h_ledgerFails h then ret None
  else do db <- get w_db;
       ret (h_blobGet h blobId (match lookupBlob db blobId with Some b => bl_generation b | None => 0 end)).

Definition processGroup (rows : list QueueRow) : W unit :=
  match rows with
  | [] => ret tt
  | first :: _ =>
      let domain := q_rcptDomain first in
      do relay <- relayFor first;
      match relay with
      | inl error => deferAll rows error []
      | inr smarthost =>
          match targetsFor smarthost domain with
          | None => deferAll rows (js "recipient domain MX lookup failed") []
          | Some targets =>
              do allowed <- policyFor smarthost domain targets;
              match allowed with
              | None => deferAll rows (js "recipient MTA-STS policy mismatch") []
              | Some (targets, mxTls, policyType) =>
                  do loaded <- loadBlob (q_blobId first);
                  match loaded with
                  | None => deferAll rows (js "temporary internal error") []
                  | Some stored =>
                      let via := match smarthost with Some _ => true | None => false end in
                      do m <- prepareMessage (q_id first) (senderDomainOf (q_envFrom first)) via stored;
                      let cap := Z.max 1 (default (len rows) (smarthost ≫= maxRcptsPerSession)) in
                      processChunks (processChunk smarthost domain policyType (q_envFrom first) m mxTls targets) (chunk rows cap)
                  end
              end
          end
      end
  end.

(** ** One tick *)

(** A [Map] of lists, filled in order. *)
Definition groupBy {A} (key : A -> jsstr) (l : list A) : list (jsstr * list A) :=
  fold_left (fun m x => match mapGet (key x) m with Some xs => mapSet (key x) (xs ++ [x]) m | None => m ++ [(key x, [x])] end) l [].

Definition groupsOf (leased : list QueueRow) : list (list QueueRow) := map snd (groupBy groupKey leased).
Definition lanesOf (groups : list (list QueueRow)) : list (list (list QueueRow)) :=
  map snd (groupBy (fun g => match g with r :: _ => q_rcptDomain r | [] => [] end) groups).

Definition selectDue (now : Z) (db : Db) : list QueueRow :=
  take (Z.to_nat (wo_batchSize o)) (sortBy q_nextAttempt (List.filter (isDue now) (mta_queue db))).

Definition leaseStmts (now : Z) (rows : list QueueRow) : list Stmt := map (fun r => LeaseRow (now + LEASE_MS) (q_id r) now) rows.
Definition leasedRows (rows : list QueueRow) (changes : list Z) : list QueueRow := map fst (List.filter (fun rc => rc.2 =? 1) (zip rows changes)).

(** A group that throws is left as it is; the others go on. *)
Fixpoint runLane (groups : list (list QueueRow)) : W unit :=
  match groups with [] => ret tt | g :: rest => do_ catch (processGroup g) (fun _ => ret tt); runLane rest end.

Definition runTick : W Z :=
  do now <- readClock;
  do db <- get w_db;
  let rows := selectDue now db in
  if len rows =? 0 then ret 0
  else
    do changes <- runBatch (leaseStmts now rows);
    let leased := leasedRows rows changes in
    do_ runLane (concat (lanesOf (groupsOf leased)));
    ret (len leased).
End Worker.
