(* ===== verification/MtaWorkerSpec.v ===== *)
(** * What the worker does to the queue

    Three theorems: a row is closed as delivered only after a server took the message for that
    recipient; a group that is worked off leaves every row settled, with a notice for every failure; and a
    recipient domain with an enforced policy gets the message only over verified TLS at a host it names. *)

From S2P Require Import Prelude JsString Text JsDate Trace Loop Effects Scram Dane Dkim MtaSts SmtpClient SmtpClientSpec Dsn Queue MtaWorker.

(** ** Statements of the worker on rows *)

Lemma chunk_nonempty {A} (items : list A) size : 1 <= size -> Forall (fun c => c <> []) (chunk items size).
Proof.
  intros Hs. unfold chunk. generalize (length items) as fuel. intros fuel. revert items. induction fuel as [|fuel IH]; intros items; [constructor|].
  destruct items as [|x items]; [constructor|]. cbn [chunkFrom]. constructor; [|apply IH]. destruct (Z.to_nat size) eqn:E; [lia|done].
Qed.


(** What a statement makes of a row; [None] for the statements that the worker does not use. *)
Definition rowEffect (s : Stmt) : option (QueueRow -> QueueRow) :=
  match s with
  | LeaseRow l id now => Some (fun r => if withId id r && isDue now r then r <| q_status := InFlight |> <| q_leaseUntil := Some l |> else r)
  | SetDone id => Some (fun r => if withId id r then r <| q_status := Done |> <| q_lastError := None |> else r)
  | SetBounced e id => Some (fun r => if withId id r then r <| q_status := Bounced |> <| q_lastError := Some e |> else r)
  | SetExhausted n e id => Some (fun r => if withId id r then r <| q_status := Bounced |> <| q_attempts := n |> <| q_lastError := Some e |> else r)
  | SetDeferred n next e id =>
      Some (fun r => if withId id r then r <| q_status := Deferred |> <| q_attempts := n |> <| q_nextAttempt := next |> <| q_leaseUntil := None |> <| q_lastError := Some e |> else r)
  | SetDelayNotified now id => Some (fun r => if withId id r then r <| q_delayNotifiedAt := Some now |> else r)
  | InsertSuppression _ => Some (fun r => r)
  | _ => None
  end.

Definition workerStmt (s : Stmt) : Prop := is_Some (rowEffect s).
Definition effects (stmts : list Stmt) (r : QueueRow) : QueueRow := fold_left (fun r s => default (fun r => r) (rowEffect s) r) stmts r.

Lemma batch_worker stmts : Forall workerStmt stmts -> forall db, exists db' ns, batch stmts db = Some (db', ns) /\ mta_queue db' = map (effects stmts) (mta_queue db).
Proof.
  induction 1 as [|s stmts [f Hf] _ IH]; intros db; [exists db, []; split; [done|]; cbn; by rewrite List.map_id|].
  assert (Hs : exists d n, exec s db = Some (d, n) /\ mta_queue d = map f (mta_queue db)).
  { destruct s; cbn in Hf; simplify_eq; cbn; unfold onQueue, updateWhere; eexists _, _; (split; [reflexivity|]); cbn; try done. by rewrite List.map_id. }
  destruct Hs as (d & n & Hd & Hq). destruct (IH d) as (db' & ns & Hb & Hq'). exists db', (n :: ns). cbn. rewrite Hd. cbn. rewrite Hb. split; [done|].
  rewrite Hq', Hq, List.map_map. apply List.map_ext. intros r. cbn. by rewrite Hf.
Qed.

(** What no statement of the worker changes. *)
Definition letter (r : QueueRow) : jsstr * jsstr * jsstr * jsstr * jsstr * jsstr := (q_id r, q_tenantId r, q_rcpt r, q_rcptDomain r, q_envFrom r, q_blobId r).

Lemma effects_letter stmts r : letter (effects stmts r) = letter r.
Proof.
  unfold effects. revert r. induction stmts as [|s stmts IH]; intros r; [done|]. cbn. rewrite IH. destruct s; cbn; try done; by repeat case_match.
Qed.

Lemma effects_app s1 s2 r : effects (s1 ++ s2) r = effects s2 (effects s1 r).
Proof. apply fold_left_app. Qed.

(** The id a statement is about. *)
Definition aboutId (s : Stmt) : option jsstr :=
  match s with
  | LeaseRow _ id _ | SetDone id | SetBounced _ id | SetExhausted _ _ id | SetDeferred _ _ _ id | SetDelayNotified _ id => Some id
  | _ => None
  end.

Lemma effects_other stmts r : Forall (fun s => workerStmt s /\ aboutId s <> Some (q_id r)) stmts -> effects stmts r = r.
Proof.
  unfold effects. induction 1 as [|s stmts [[f Hf] Ha] _ IH]; [done|]. cbn. rewrite Hf. cbn. assert (f r = r) as ->; [|done].
  destruct s; cbn in Hf, Ha; simplify_eq; try done; unfold withId; by rewrite (proj2 (seqb_neq _ _)) by congruence.
Qed.

(** ** Programs that leave the queue alone *)

Definition same (w w' : World) : Prop := w_db w' = w_db w /\ w_sessions w' = w_sessions w /\ w_notices w' = w_notices w.
Definition quietly {A} (m : W A) (Q : A -> Prop) : Prop := forall w, exists a w', m w = (Ok a, w') /\ same w w' /\ Q a.

Lemma same_trans a b c : same a b -> same b c -> same a c.
Proof. unfold same. intros (? & ? & ?) (? & ? & ?). by split_and!; etrans. Qed.

Lemma quietly_ret {A} (a : A) (Q : A -> Prop) : Q a -> quietly (ret a) Q.
Proof. intros Hq w. by exists a, w. Qed.

Lemma quietly_get {A} (f : World -> A) : quietly (get f) (fun _ => True).
Proof. intros w. by exists (f w), w. Qed.

Lemma quietly_bind {A B} (m : W A) (k : A -> W B) Q R : quietly m Q -> (forall a, Q a -> quietly (k a) R) -> quietly (bind m k) R.
Proof.
  intros Hm Hk w. destruct (Hm w) as (a & w1 & H1 & S1 & Ha). destruct (Hk a Ha w1) as (b & w2 & H2 & S2 & Hb). exists b, w2. unfold bind. rewrite H1, H2.
  split; [done|]. split; [by eapply same_trans|done].
Qed.

Lemma quietly_impl {A} (m : W A) (Q R : A -> Prop) : quietly m Q -> (forall a, Q a -> R a) -> quietly m R.
Proof. intros Hm Hi w. destruct (Hm w) as (a & w' & ? & ? & ?). exists a, w'. auto. Qed.

Lemma quietly_modify f : (forall w, same w (f w)) -> quietly (modify f) (fun _ => True).
Proof. intros Hs w. exists tt, (f w). auto. Qed.

Lemma quietly_asking {A} (f : nat -> A) : quietly (asking f) (fun a => exists n, a = f n).
Proof. intros w. exists (f (w_asked w)), (w <| w_asked := S (w_asked w) |>). split; [done|]. split; [done|]. eauto. Qed.

Lemma triple_quiet {A B} (m : W A) (k : A -> W B) Q (P : World -> Prop) R :
  (forall w w', same w w' -> P w -> P w') -> quietly m Q -> (forall a, Q a -> triple P (k a) R) -> triple P (bind m k) R.
Proof. intros HP Hm Hk w Hw. unfold bind. destruct (Hm w) as (a & w' & -> & Hs & Ha). apply (Hk a Ha). by eapply HP. Qed.

Section Spec.
Context `{NodeCrypto} `{DkimKeys} `{NodeSha512} `{LocalZone} (o : WorkerOptions) (h : Hooks).

Lemma readClock_quiet : quietly (readClock h) (fun t => exists n, t = h_clock h n).
Proof. apply quietly_asking. Qed.

Lemma recordTls_quiet a b c d : quietly (recordTls o a b c d) (fun _ => True).
Proof. unfold recordTls. destruct (wo_tlsReport o); [by apply quietly_modify|by apply quietly_ret]. Qed.

Lemma isLocal_quiet d t : quietly (isLocalDomain h d t) (fun _ => True).
Proof.
  unfold isLocalDomain. eapply quietly_bind; [apply readClock_quiet|]. intros now _. eapply quietly_bind; [apply quietly_get|]. intros c _.
  assert (Ha : quietly (if h_domainsFail h then ret false else
    do db <- get w_db; let value := isLocallyRoutableDomain db d (Some t) in
    do_ modify (fun w => w <| w_local := mapSet (t ++ [0] ++ d) (value, now + LOCAL_DOMAIN_TTL_MS) (evictLocal now (w_local w)) |>); ret value) (fun _ => True)).
  { destruct (h_domainsFail h); [by apply quietly_ret|]. eapply quietly_bind; [apply quietly_get|]. intros db _.
    eapply quietly_bind; [by apply quietly_modify|]. intros [] _. by apply quietly_ret. }
  destruct (mapGet _ c) as [[v e]|]; [|exact Ha]. destruct (now <? e); [by apply quietly_ret|exact Ha].
Qed.

(** The relay for the mail of a sender: the one of his tenant and domain, or else the one of the worker. *)
Definition ConfiguredRelay (row : QueueRow) (sm : SmarthostOptions) : Prop :=
  match h_smarthost h with
  | None => wo_smarthost o = Some sm
  | Some resolve => resolve (q_tenantId row) (senderDomainOf (q_envFrom row)) = Some (Some sm) \/
                    resolve (q_tenantId row) (senderDomainOf (q_envFrom row)) = Some None /\ wo_smarthost o = Some sm
  end.

Lemma relay_quiet row : quietly (relayFor o h row) (fun relay => forall sm, relay = inr (Some sm) -> ConfiguredRelay row sm).
Proof.
  unfold relayFor, ConfiguredRelay. eapply quietly_bind; [apply isLocal_quiet|]. intros [] _; [by apply quietly_ret|].
  repeat case_match; apply quietly_ret; intros sm Hsm; simplify_eq; try done; [by left | by right].
Qed.

Lemma entries_quiet f rows : quietly (entries h f rows) (Forall2 (fun row e => exists n, e = f (h_noise h n) row) rows).
Proof.
  induction rows as [|row rows IH]; cbn [entries]; [by apply quietly_ret|]. eapply quietly_bind; [apply quietly_asking|]. intros noise [n ->].
  eapply quietly_bind; [by apply quietly_modify|]. intros [] _. eapply quietly_bind; [exact IH|]. intros es Hes. apply quietly_ret. constructor; eauto.
Qed.

(** Header lines in front of a message. *)
Definition fronted (headers : list jsstr) (m : bytes) : bytes := flat_map (fun hd => utf8Encode (hd ++ crlf)) headers ++ m.

Lemma signAll_quiet d via keys : forall m, quietly (signAll h d via keys m) (fun m' => exists hs, m' = fronted hs m).
Proof.
  induction keys as [|k keys IH]; intros m; cbn [signAll]; [apply quietly_ret; by exists []|]. eapply quietly_bind; [apply readClock_quiet|]. intros now _.
  destruct (dkimSign _ _) as [hd|]; [|apply quietly_ret; by exists []]. eapply quietly_impl; [apply IH|]. intros m' [hs ->]. exists (hs ++ [hd]).
  unfold fronted, prependHeader. rewrite flat_map_app. cbn [flat_map]. by rewrite app_nil_r, <- app_assoc.
Qed.

Lemma prepare_quiet fid d via m : quietly (prepareMessage h fid d via m) (fun m' => exists hs, m' = fronted hs m).
Proof.
  unfold prepareMessage. set (m1 := match fid with [] => m | _ => _ end). assert (Hm : exists hs, m1 = fronted hs m).
  { unfold m1. destruct fid as [|c fid]; [by exists []|]. exists [FEEDBACK_ID_HEADER ++ js ": " ++ c :: fid]. unfold fronted. cbn [flat_map]. by rewrite app_nil_r. }
  destruct Hm as [hs ->]. destruct (h_dkim h) as [f|]; [|apply quietly_ret; eauto]. destruct (f d) as [keys|]; [|apply quietly_ret; eauto].
  eapply quietly_impl; [apply signAll_quiet|]. intros m' [hs' ->]. exists (hs' ++ hs). unfold fronted. by rewrite flat_map_app, <- app_assoc.
Qed.

(** ** Committing the entries of a chunk *)

Definition entryStmts (es : list Entry) : list Stmt := flat_map e_stmts es ++ map InsertSuppression (flat_map e_suppress es).

(** The entries of the rows: each has statements of the worker about its row alone. *)
Definition aboutRow (row : QueueRow) (e : Entry) : Prop := Forall (fun s => workerStmt s /\ aboutId s = Some (q_id row)) (e_stmts e).

Lemma entryStmts_worker rows es : Forall2 aboutRow rows es -> Forall workerStmt (entryStmts es).
Proof.
  intros He. apply Forall_app. split; [|apply List.Forall_map, Forall_forall; intros s _; by eexists].
  induction He as [|row e rows es Hr _ IH]; cbn; [constructor|]. apply Forall_app. split; [|done]. eapply Forall_impl; [exact Hr|]. by intros s [? _].
Qed.

(** A row that is none of the chunk's stays as it is; of the chunk's, each gets its own entry. *)
Lemma entryStmts_other rows es r : Forall2 aboutRow rows es -> Forall (fun row => q_id row <> q_id r) rows -> effects (entryStmts es) r = r.
Proof.
  intros He Hn. apply effects_other, Forall_app. split.
  - induction He as [|row e rows es Hr _ IH]; cbn; [constructor|]. apply Forall_cons in Hn as [Hn1 Hn2]. apply Forall_app. split; [|auto].
    eapply Forall_impl; [exact Hr|]. intros s [Hw ->]. split; [done|congruence].
  - apply List.Forall_map, Forall_forall. intros s _. split; [by eexists|done].
Qed.

Lemma flat_stmts_own rows es i row e r : Forall2 aboutRow rows es -> NoDup (map q_id rows) -> rows !! i = Some row -> es !! i = Some e -> q_id r = q_id row ->
  effects (flat_map e_stmts es) r = effects (e_stmts e) r.
Proof.
  intros He. revert i r. induction He as [|row' e' rows es Hr He IH]; intros i r Hnd Hi Hei Hid; [done|]. cbn [map] in Hnd. apply NoDup_cons in Hnd as [Hni Hnd].
  cbn [flat_map]. rewrite effects_app. destruct i as [|i]; cbn in Hi, Hei.
  - injection Hi as ->. injection Hei as ->. apply effects_other.
    assert (Hid' : q_id (effects (e_stmts e) r) = q_id row).
    { pose proof (effects_letter (e_stmts e) r) as Hl. unfold letter in Hl. congruence. }
    clear IH Hr. induction He as [|row2 e2 rows es Hr2 He IH2]; cbn; [constructor|].
    cbn [map] in Hnd, Hni. apply NoDup_cons in Hnd as [_ Hnd]. apply not_elem_of_cons in Hni as [Hne Hni]. apply Forall_app. split; [|by apply IH2].
    eapply Forall_impl; [exact Hr2|]. intros s [Hw ->]. split; [done|]. rewrite Hid'. congruence.
  - rewrite (effects_other (e_stmts e') r); [by eapply IH|]. eapply Forall_impl; [exact Hr|]. intros s [Hw ->]. split; [done|]. intros [= E].
    apply Hni. rewrite E, Hid. apply list_elem_of_fmap. exists row. split; [done|]. by eapply list_elem_of_lookup_2.
Qed.

Lemma entryStmts_own rows es i row e r : Forall2 aboutRow rows es -> NoDup (map q_id rows) -> rows !! i = Some row -> es !! i = Some e -> q_id r = q_id row ->
  effects (entryStmts es) r = effects (e_stmts e) r.
Proof.
  intros He Hnd Hi Hei Hid. unfold entryStmts. rewrite effects_app, (flat_stmts_own rows es i row e r) by done.
  apply effects_other, List.Forall_map, Forall_forall. intros s _. split; [by eexists|done].
Qed.

Lemma noteDelay_about row now d : Forall (fun s => workerStmt s /\ aboutId s = Some (q_id row)) (noteDelayIfDue o row now d).2.
Proof. unfold noteDelayIfDue. repeat case_match; repeat constructor; by eexists. Qed.

Lemma retry_about row now noise e : aboutRow row (retryEntry o row now noise e).
Proof. unfold retryEntry, aboutRow. cbn [e_stmts]. apply Forall_app. split; [|apply noteDelay_about]. constructor; [|constructor]. split; [by eexists|done]. Qed.

Lemma outcome_about r mxHost via now noise row : aboutRow row (outcomeOf o r mxHost via now noise row).
Proof.
  unfold outcomeOf. destruct (stageOf r (rcptResult r (q_rcpt row))) as [[c perm] detail]. repeat case_match; try apply retry_about; (constructor; [|constructor]); (split; [by eexists|done]).
Qed.

Lemma defer_about stored now noise row : aboutRow row (deferEntry o stored now noise row).
Proof. unfold deferEntry. case_match; [|apply retry_about]. constructor; [|constructor]. split; [by eexists|done]. Qed.

(** The notices that [sendDsn] adds. *)
Definition noticed (row : QueueRow) (rs : list DsnRecipient) (ns : list Notice) : Prop :=
  rs <> [] -> wo_dsn o = true -> h_dsnSends h = true -> trim (q_envFrom row) <> [] -> exists n, n ∈ ns /\ n_to n = q_envFrom row /\ n_recipients n = rs.

Lemma sendDsn_run row rest rs original w : exists w' ns, sendDsn o h (head (row :: rest)) rs original w = (Ok tt, w') /\
  w_db w' = w_db w /\ w_sessions w' = w_sessions w /\ w_notices w' = w_notices w ++ ns /\ noticed row rs ns.
Proof.
  unfold sendDsn. cbn [head]. destruct (negb (wo_dsn o) || (len rs =? 0)) eqn:E1.
  { exists w, []. rewrite app_nil_r. split_and!; try done. unfold noticed. intros Hne Ho. rewrite Ho in E1. cbn in E1. by apply Z.eqb_eq, len_zero in E1. }
  destruct (trim (q_envFrom row) === []) eqn:E2; [exists w, []; rewrite app_nil_r; split_and!; try done; intros _ _ _ Hn; by apply seqb_eq in E2|].
  unfold bind. destruct (quietly_asking (h_boundary h) w) as (b & w1 & -> & (S1 & S2 & S3) & _). destruct (readClock_quiet w1) as (t & w2 & -> & (T1 & T2 & T3) & _).
  unfold buildDsn. cbn [originalEnvelopeFrom recipients]. rewrite E2. apply orb_false_iff in E1 as [_ ->].
  destruct (h_dsnSends h) eqn:Es; cbn.
  - eexists _, [_]. split; [reflexivity|]. cbn. split_and!; [congruence|congruence|by rewrite T3, S3|]. intros _ _ _ _. eexists. split; [by apply list_elem_of_singleton|done].
  - exists w2, []. rewrite app_nil_r. split; [done|]. by split_and!; congruence.
Qed.

Lemma commit_run row rest es original w : Forall2 aboutRow (row :: rest) es ->
  exists w' ns, commit o h (row :: rest) es original w = (Ok tt, w') /\ mta_queue (w_db w') = map (effects (entryStmts es)) (mta_queue (w_db w)) /\
    w_sessions w' = w_sessions w /\ w_notices w' = w_notices w ++ ns /\ noticed row (flat_map e_dsn es) ns.
Proof.
  intros He. unfold commit. fold (entryStmts es). unfold bind, runBatch. destruct (batch_worker _ (entryStmts_worker _ _ He) (w_db w)) as (db & k & -> & Hq). cbn [fst snd].
  destruct (sendDsn_run row rest (flat_map e_dsn es) original (w <| w_db := db |>)) as (w' & ns & -> & Edb & Ess & Ens & Enot). exists w', ns. split_and!; try done. by rewrite Edb.
Qed.

(** ** The run of a group

    What one run did: the sessions it opened, the batches it committed, each with the entries of its rows,
    and the notices it sent. *)

(** The answer of the cache, or else of the policy host, at the time when the relay has been settled. *)
Definition policyInForce (w : World) (first : QueueRow) (fetch : jsstr -> MtaStsLookup) : MtaStsLookup :=
  (mtaStsLookup (h_cacheTtlMs h) (h_clock h (w_asked (relayFor o h first w).2)) (q_rcptDomain first) (fetch (q_rcptDomain first)) (w_sts w)).1.

(** An attempt for the group, and the host and TLS that it uses: the relay's, or those of the policy. *)
Record Attempt (w : World) (first : QueueRow) (s : Session) : Prop := {
  at_run : sendSmtp (ss_opts s) (ss_peer s) = (Some (ss_result s), ss_trace s);
  at_from : mailFrom (ss_opts s) = q_envFrom first;
  at_raw : exists g stored hs, h_blobGet h (q_blobId first) g = Some stored /\ SmtpClient.raw (ss_opts s) = fronted hs stored;
  at_ehlo : ehloName (ss_opts s) = wo_ehloName o;
  at_host : (exists sm, ConfiguredRelay first sm /\ host (ss_opts s) = sh_host sm /\ tls (ss_opts s) = Some (default Required (sh_tls sm)) /\ auth (ss_opts s) = sh_auth sm) \/
            (auth (ss_opts s) = None /\ forall fetch, h_mtaSts h = Some fetch ->
               let l := policyInForce w first fetch in
                 forall p, stsEnforcement l = RequireTls -> policy l = Some p -> mxMatchesPolicy (host (ss_opts s)) (mx p) = true /\ tls (ss_opts s) = Some Required)
}.

(** Where the entry of a row comes from: a session with the row's recipient, or no answer at all. *)
Definition EntryOf (ss : list Session) (row : QueueRow) (e : Entry) : Prop :=
  exists n k, (exists s mxHost via, s ∈ ss /\ q_rcpt row ∈ rcptTo (ss_opts s) /\ e = outcomeOf o (ss_result s) mxHost via (h_clock h n) (h_noise h k) row) \/
              (exists stored, e = deferEntry o stored (h_clock h n) (h_noise h k) row).

Lemma EntryOf_about ss row e : EntryOf ss row e -> aboutRow row e.
Proof. intros (n & k & [(s & mxHost & via & _ & _ & ->)|[stored ->]]); [apply outcome_about|apply defer_about]. Qed.

Lemma EntryOf_mono ss ss' row e : (forall s, s ∈ ss -> s ∈ ss') -> EntryOf ss row e -> EntryOf ss' row e.
Proof. intros Hi (n & k & [(s & mxHost & via & Hs & Hr & ->)|Hd]); exists n, k; [left|by right]. exists s, mxHost, via. auto. Qed.

(** A peer that neither answers nor gives up. *)
Definition Silent : Prop := exists n, ~ Answers (h_peer h n).

Record Run (rows : list QueueRow) (w : World) (res : Result unit unit) (w' : World) (ss : list Session) (cs : list (list QueueRow * list Entry)) (ns : list Notice) : Prop := {
  run_res : res = Ok tt \/ (res = Fuel /\ Silent);
  run_rows : exists rest, rows = concat (map fst cs) ++ rest /\ (res = Ok tt -> rest = []);
  run_sessions : w_sessions w' = w_sessions w ++ ss;
  run_entries : Forall (fun c => c.1 <> [] /\ Forall2 (EntryOf ss) c.1 c.2) cs;
  run_queue : mta_queue (w_db w') = map (effects (flat_map (fun c => entryStmts c.2) cs)) (mta_queue (w_db w));
  run_notices : w_notices w' = w_notices w ++ ns;
  run_noticed : Forall (fun c => match c.1 with first :: _ => noticed first (flat_map e_dsn c.2) ns | [] => True end) cs
}.

Lemma noticed_mono first rs ns ns' : (forall n, n ∈ ns -> n ∈ ns') -> noticed first rs ns -> noticed first rs ns'.
Proof. intros Hi Hn a b c d. destruct (Hn a b c d) as (n & Hin & ?). eauto. Qed.

(** Runs that do nothing to the queue in front of a run. *)
Lemma WorkerRun_same rows w0 w res w' ss cs ns : same w0 w -> Run rows w res w' ss cs ns -> Run rows w0 res w' ss cs ns.
Proof. intros (E1 & E2 & E3) [A B C D E F G]. split; try done; congruence. Qed.

Lemma Run_cons rows1 rows2 w w1 res w2 ss1 cs1 ns1 ss2 cs2 ns2 :
  Run rows1 w (Ok tt) w1 ss1 cs1 ns1 -> Run rows2 w1 res w2 ss2 cs2 ns2 -> Run (rows1 ++ rows2) w res w2 (ss1 ++ ss2) (cs1 ++ cs2) (ns1 ++ ns2).
Proof.
  intros [A1 (r1 & B1 & B1') C1 D1 E1 F1 G1] [A2 (r2 & B2 & B2') C2 D2 E2 F2 G2]. rewrite (B1' eq_refl), app_nil_r in B1. split.
  - done.
  - exists r2. split; [|done]. by rewrite B1, B2, map_app, concat_app, <- app_assoc.
  - by rewrite C2, C1, app_assoc.
  - apply Forall_app. split; [eapply Forall_impl; [exact D1|]|eapply Forall_impl; [exact D2|]]; cbn; intros c [? Hc]; (split; [done|]);
      (eapply Forall2_impl; [exact Hc|]); intros row e; apply EntryOf_mono; set_solver.
  - rewrite E2, E1, List.map_map. apply List.map_ext. intros r. by rewrite flat_map_app, effects_app.
  - by rewrite F2, F1, app_assoc.
  - apply Forall_app. split; [eapply Forall_impl; [exact G1|]|eapply Forall_impl; [exact G2|]]; cbn; intros [[|first rest] es]; cbn; try done; apply noticed_mono; set_solver.
Qed.

(** A commit of entries that come from somewhere. *)
Lemma commit_Run ss first rest es original w0 w : w_db w = w_db w0 -> w_notices w = w_notices w0 -> w_sessions w = w_sessions w0 ++ ss -> Forall2 (EntryOf ss) (first :: rest) es ->
  exists w' ns, commit o h (first :: rest) es original w = (Ok tt, w') /\ Run (first :: rest) w0 (Ok tt) w' ss [(first :: rest, es)] ns.
Proof.
  intros Ed En Es He. destruct (commit_run first rest es original w) as (w' & ns & Hc & Hq & Hs & Hn & Hnot).
  { eapply Forall2_impl; [exact He|]. apply EntryOf_about. }
  exists w', ns. split; [done|]. split; cbn; rewrite ?app_nil_r.
  - by left.
  - exists []. by rewrite app_nil_r.
  - congruence.
  - constructor; [|constructor]. done.
  - by rewrite Hq, Ed.
  - congruence.
  - constructor; [|constructor]. done.
Qed.

Lemma deferAll_Run ss first rest e original w0 w : w_db w = w_db w0 -> w_notices w = w_notices w0 -> w_sessions w = w_sessions w0 ++ ss ->
  exists w' cs ns, deferAll o h (first :: rest) e original w = (Ok tt, w') /\ Run (first :: rest) w0 (Ok tt) w' ss cs ns.
Proof.
  intros Ed En Es. unfold deferAll, bind. destruct (readClock_quiet w) as (t & w1 & -> & (S1 & S2 & S3) & n & ->).
  destruct (entries_quiet (deferEntry o (redactForTenant e) (h_clock h n)) (first :: rest) w1) as (es & w2 & -> & (T1 & T2 & T3) & Hes).
  destruct (commit_Run ss first rest es original w0 w2) as (w' & ns & -> & Hr); [congruence..| |by exists w', [(first :: rest, es)], ns].
  eapply Forall2_impl; [exact Hes|]. intros row e' [k ->]. exists n, k. eauto.
Qed.

Lemma applyOutcome_Run ss s first rest mx via original w0 w : w_db w = w_db w0 -> w_notices w = w_notices w0 -> w_sessions w = w_sessions w0 ++ ss ->
  s ∈ ss -> (forall row, row ∈ first :: rest -> q_rcpt row ∈ rcptTo (ss_opts s)) ->
  exists w' cs ns, applyOutcome o h (first :: rest) (ss_result s) mx via original w = (Ok tt, w') /\ Run (first :: rest) w0 (Ok tt) w' ss cs ns.
Proof.
  intros Ed En Es Hs Hr. unfold applyOutcome, bind. destruct (readClock_quiet w) as (t & w1 & -> & (S1 & S2 & S3) & n & ->).
  destruct (entries_quiet (outcomeOf o (ss_result s) (exchange mx) via (h_clock h n)) (first :: rest) w1) as (es & w2 & -> & (T1 & T2 & T3) & Hes).
  destruct (commit_Run ss first rest es original w0 w2) as (w' & ns & -> & Hrun); [congruence..| |by exists w', [(first :: rest, es)], ns].
  revert Hr Hes. generalize (first :: rest) as rows. intros rows Hr Hes.
  induction Hes as [|row e rows es [k ->] _ IH]; constructor; [|by apply IH; set_solver].
  exists n, k. left. exists s, (exchange mx), via. split; [done|]. split; [|done]. apply Hr. set_solver.
Qed.

Section Group.
Context (w0 : World) (first : QueueRow) (m : bytes) (sm : option SmarthostOptions) (mxTls : TlsMode) (targets : list MxRecord).
Context (Hm : exists g stored hs, h_blobGet h (q_blobId first) g = Some stored /\ m = fronted hs stored).
Context (Hhost : forall mx0, mx0 ∈ targets ->
  match sm with
  | Some s => ConfiguredRelay first s /\ exchange mx0 = sh_host s
  | None => forall fetch, h_mtaSts h = Some fetch ->
      let l := policyInForce w0 first fetch in
        forall p, stsEnforcement l = RequireTls -> policy l = Some p -> mxMatchesPolicy (exchange mx0) (mx p) = true /\ mxTls = Required
  end).

Lemma attempt_ok rs mx0 tlsa peer r t : mx0 ∈ targets -> sendSmtp (attemptOptions o sm mx0 (q_envFrom first) rs m mxTls tlsa) peer = (Some r, t) ->
  Attempt w0 first (mkSession (attemptOptions o sm mx0 (q_envFrom first) rs m mxTls tlsa) peer r t).
Proof using Hm Hhost.
  intros Hin Hs. split; [done|done|exact Hm|done|]. specialize (Hhost mx0 Hin). cbn. destruct sm as [s|].
  - destruct Hhost as [Hr He]. left. exists s. done.
  - right. split; [done|]. intros fetch Hf. cbv zeta. intros p He Hp. destruct (Hhost fetch Hf p He Hp) as [? ->]. done.
Qed.

Definition Tried (rs : list jsstr) (w : World) (res : Result unit (option (SmtpClientResult * MxRecord) * jsstr)) (w' : World) : Prop :=
  exists ss, w_db w' = w_db w /\ w_notices w' = w_notices w /\ w_sessions w' = w_sessions w ++ ss /\ Forall (fun s => Attempt w0 first s /\ rcptTo (ss_opts s) = rs) ss /\
    match res with Ok (Some (r, _), _) => exists s, s ∈ ss /\ ss_result s = r | Ok (None, _) => True | Fuel => Silent | Err _ => False end.

Lemma Tried_same rs w w1 res w' : same w w1 -> Tried rs w1 res w' -> Tried rs w res w'.
Proof. intros (E1 & E2 & E3) (ss & ? & ? & ? & ?). exists ss. split_and!; try congruence; tauto. Qed.

Lemma Tried_bind {A} (a : W A) k Q rs w : quietly a Q -> (forall x w1, Q x -> let '(res, w') := k x w1 in Tried rs w1 res w') -> let '(res, w') := bind a k w in Tried rs w res w'.
Proof.
  intros Ha Hk. unfold bind. destruct (Ha w) as (x & w1 & -> & Hs & HQ). specialize (Hk x w1 HQ). destruct (k x w1) as [res w']. by eapply Tried_same.
Qed.

(** A session more, in front of what follows. *)
Lemma Tried_session rs s w res w' : Attempt w0 first s -> rcptTo (ss_opts s) = rs -> Tried rs (w <| w_sessions ::= fun l => l ++ [s] |>) res w' -> Tried rs w res w'.
Proof.
  intros Ha Hr (ss & D1 & D2 & D3 & D4 & D5). exists (s :: ss). split_and!; [done|done|by rewrite D3; cbn; rewrite <- app_assoc|by constructor|].
  destruct res as [[[[r' mx']|] ?]|?|]; try done. destruct D5 as (s' & ? & ?). exists s'. split; [set_solver|done].
Qed.

Lemma tryTargets_run domain pt rs ts : (forall mx0, mx0 ∈ ts -> mx0 ∈ targets) -> forall e w,
  let '(res, w') := tryTargets o h sm domain pt (q_envFrom first) rs m mxTls ts e w in Tried rs w res w'.
Proof using Hm Hhost.
  induction ts as [|mx0 ts IH]; intros Hin e w; cbn [tryTargets].
  { exists []. rewrite app_nil_r. by split_and!. }
  specialize (IH ltac:(set_solver)).
  assert (Hgo : forall tlsa, let opts := attemptOptions o sm mx0 (q_envFrom first) rs m mxTls tlsa in
    let '(res, w') := (do peer <- asking (h_peer h);
          match sendSmtp opts peer with
          | (None, _) => fun w => (Fuel, w)
          | (Some r, trace) =>
              do_ modify (fun w => w <| w_sessions ::= fun l => l ++ [mkSession opts peer r trace] |>);
              if negb (code r =? 0) then
                do_ recordTls o domain pt (exchange mx0) (match tlsUsed r with Some false => js "starttls-not-supported" | _ => js "success" end);
                ret (Some (r, mx0), e)
              else
                do_ recordTls o domain pt (exchange mx0) (js "validation-failure");
                tryTargets o h sm domain pt (q_envFrom first) rs m mxTls ts (message r)
          end) w in Tried rs w res w').
  { intros tlsa. cbv zeta. eapply Tried_bind; [apply quietly_asking|]. intros peer w1 [n Hn].
    destruct (sendSmtp _ peer) as [[r|] t] eqn:Er; [|exists []; rewrite app_nil_r; split_and!; try done; exists n; intros Ha; rewrite <- Hn in Ha; destruct (sendSmtp_ends (attemptOptions o sm mx0 (q_envFrom first) rs m mxTls tlsa) peer Ha) as (? & ? & ?); congruence].
    pose proof (attempt_ok rs mx0 tlsa peer r t ltac:(set_solver) Er) as Ha. set (s := mkSession _ peer r t) in *. unfold bind at 1. cbn [modify].
    destruct (negb (code r =? 0)).
    - unfold bind. destruct (recordTls_quiet domain pt (exchange mx0) (match tlsUsed r with Some false => js "starttls-not-supported" | _ => js "success" end) (w1 <| w_sessions ::= fun l => l ++ [s] |>)) as ([] & w3 & -> & (T1 & T2 & T3) & _).
      cbn. exists [s]. split_and!; [by rewrite T1|by rewrite T3|by rewrite T2|by apply Forall_singleton|]. exists s. split; [set_solver|done].
    - assert (Hk : let '(res, w') := (do_ recordTls o domain pt (exchange mx0) (js "validation-failure"); tryTargets o h sm domain pt (q_envFrom first) rs m mxTls ts (message r))
        (w1 <| w_sessions ::= fun l => l ++ [s] |>) in Tried rs (w1 <| w_sessions ::= fun l => l ++ [s] |>) res w').
      { eapply Tried_bind; [apply recordTls_quiet|]. intros [] w3 _. apply IH. }
      destruct (bind _ _ _) as [res w']. by eapply Tried_session. }
  destruct sm; [apply (Hgo None)|]. destruct (lookupTlsa h _ _) as [|set|reason]; [apply (Hgo None)|apply (Hgo (Some set))|].
  eapply Tried_bind; [apply recordTls_quiet|]. intros [] w3 _. apply IH.
Qed.

(** ** Chunks and groups *)

Lemma processChunk_Run domain pt rows w : rows <> [] -> exists res w' ss cs ns,
  processChunk o h sm domain pt (q_envFrom first) m mxTls targets rows w = (res, w') /\ Run rows w res w' ss cs ns /\ Forall (Attempt w0 first) ss.
Proof using Hm Hhost.
  intros Hne. destruct rows as [|row rest]; [done|]. unfold processChunk, bind at 1.
  pose proof (tryTargets_run domain pt (map q_rcpt (row :: rest)) targets ltac:(done) NO_MX w) as Ht.
  destruct (tryTargets _ _ _ _ _ _ _ _ _ _ _ w) as [res w1]. destruct Ht as (ss & D1 & D2 & D3 & D4 & D5).
  assert (Ha : Forall (Attempt w0 first) ss) by (eapply Forall_impl; [exact D4|]; by intros s [? _]).
  destruct res as [[[[r mx0]|] e]|[]|]; [| |done|].
  - destruct D5 as (s & Hs & <-). rewrite Forall_forall in D4. destruct (D4 s Hs) as [_ Hr].
    destruct (applyOutcome_Run ss s row rest mx0 (match sm with Some _ => true | None => false end) m w w1) as (w' & cs & ns & Hrun & HR); try done.
    { intros row' Hin. rewrite Hr. by apply list_elem_of_fmap_2. }
    exists (Ok tt), w', ss, cs, ns. done.
  - destruct (deferAll_Run ss row rest e m w w1) as (w' & cs & ns & Hrun & HR); try done. exists (Ok tt), w', ss, cs, ns. done.
  - exists Fuel, w1, ss, [], []. split; [done|]. split; [|done]. split; cbn; rewrite ?app_nil_r; try done; [right; by split|by exists (row :: rest)|by rewrite D1, List.map_id].
Qed.

Lemma processChunks_Run domain pt chunks : Forall (fun c => c <> []) chunks -> forall w, exists res w' ss cs ns,
  processChunks (processChunk o h sm domain pt (q_envFrom first) m mxTls targets) chunks w = (res, w') /\ Run (concat chunks) w res w' ss cs ns /\ Forall (Attempt w0 first) ss.
Proof using Hm Hhost.
  induction 1 as [|c chunks Hc _ IH]; intros w; cbn [processChunks concat].
  { exists (Ok tt), w, [], [], []. split; [done|]. split; [|constructor]. split; cbn; rewrite ?app_nil_r; try done; [by left|by exists []|by rewrite List.map_id]. }
  unfold bind. destruct (processChunk_Run domain pt c w Hc) as (res & w1 & ss & cs & ns & -> & HR & Ha).
  destruct (run_res _ _ _ _ _ _ _ HR) as [->|[-> _]].
  - destruct (IH w1) as (res & w2 & ss2 & cs2 & ns2 & -> & HR2 & Ha2). exists res, w2, (ss ++ ss2), (cs ++ cs2), (ns ++ ns2). split; [done|]. split; [by eapply Run_cons|by apply Forall_app].
  - exists Fuel, w1, ss, cs, ns. split; [done|]. split; [|done]. destruct HR as [A (rest & B & B') C D E F G]. split; try done.
    exists (rest ++ concat chunks). split; [by rewrite B, app_assoc|done].
Qed.
End Group.

Lemma relay_sts row w : w_sts (relayFor o h row w).2 = w_sts w.
Proof.
  unfold relayFor, isLocalDomain, bind, readClock, asking, get, modify, ret. cbn. repeat (case_match; simplify_eq; cbn; try done).
Qed.

Definition PolicyOk (w : World) (domain : jsstr) (sm : option SmarthostOptions) (targets : list MxRecord) (allowed : option (list MxRecord * TlsMode * jsstr)) : Prop :=
  match allowed with
  | None => True
  | Some (ts, t, _) => forall mx0, mx0 ∈ ts -> mx0 ∈ targets /\ (sm = None -> forall fetch, h_mtaSts h = Some fetch ->
      let l := (mtaStsLookup (h_cacheTtlMs h) (h_clock h (w_asked w)) domain (fetch domain) (w_sts w)).1 in
        forall p, stsEnforcement l = RequireTls -> policy l = Some p -> mxMatchesPolicy (exchange mx0) (mx p) = true /\ t = Required)
  end.

Lemma policyFor_run sm domain targets w : exists allowed w', policyFor o h sm domain targets w = (Ok allowed, w') /\ same w w' /\ PolicyOk w domain sm targets allowed.
Proof.
  unfold policyFor. destruct (h_mtaSts h) as [fetch|] eqn:Ef; [destruct sm as [s|] eqn:Esm|].
  - eexists _, w. split; [done|]. split; [done|]. cbn. intros mx0 Hin. split; [done|]. done.
  - unfold bind at 1. unfold stsLookup, bind at 1, readClock, asking. cbn [bind get modify ret].
    destruct (mtaStsLookup (h_cacheTtlMs h) (h_clock h (w_asked w)) domain (fetch domain) (w_sts w)) as [l c'] eqn:El. unfold bind, get, modify, ret. cbn. rewrite El. cbn.
    assert (Hweak : forall ts t pt, (forall p, stsEnforcement l = RequireTls -> policy l = Some p -> False) -> (forall m, m ∈ ts -> m ∈ targets) -> PolicyOk w domain None targets (Some (ts, t, pt))).
    { intros ts t pt Hno Hin mx0 Hm. split; [by apply Hin|]. intros _ f Hf. assert (f = fetch) as -> by congruence. rewrite El. cbn. intros p He Hp. by destruct (Hno p). }
    destruct (stsEnforcement l) eqn:Ee, (policy l) as [p|] eqn:Ep.
    2: eexists _, _; split; [reflexivity|]; split; [done|]; apply Hweak; [done|done].
    2,3,4,5: eexists _, _; split; [reflexivity|]; split; [done|]; apply Hweak; [done|done].
    destruct (List.filter (fun t => mxMatchesPolicy (exchange t) (mx p)) targets) as [|t ts] eqn:Et.
    + destruct (recordTls_quiet domain (js "sts") (match targets with t :: _ => exchange t | [] => domain end) (js "sts-policy-invalid") (w <| w_asked := S (w_asked w) |> <| w_sts := c' |>)) as ([] & w3 & Hr & Hs & _).
      unfold bind. cbn in Hr |- *. rewrite Hr. eexists _, w3. split; [done|]. split; [done|]. done.
    + eexists _, _. split; [reflexivity|]. split; [done|]. intros mx0 Hin. rewrite <- Et in Hin. apply list_elem_of_In, filter_In in Hin as [Hin Hmx]. split; [by apply list_elem_of_In|].
      intros _ f Hf. assert (f = fetch) as -> by congruence. rewrite El. cbn. intros p' _ Hp. by assert (p' = p) as -> by congruence.
  - eexists _, w. split; [done|]. split; [done|]. cbn. intros mx0 Hin. split; [done|]. intros _ f Hf. congruence.
Qed.

Lemma loadBlob_quiet id : quietly (loadBlob h id) (fun b => forall stored, b = Some stored -> exists g, h_blobGet h id g = Some stored).
Proof. unfold loadBlob. destruct (h_ledgerFails h); [by apply quietly_ret|]. eapply quietly_bind; [apply quietly_get|]. intros db _. apply quietly_ret. eauto. Qed.

(** Whatever the world answers, the run of a group ends or waits for a peer; it does not throw. *)
Lemma processGroup_Run first rest w : exists res w' ss cs ns,
  processGroup o h (first :: rest) w = (res, w') /\ Run (first :: rest) w res w' ss cs ns /\ Forall (Attempt w first) ss.
Proof.
  assert (Hdefer : forall e w1, same w w1 -> exists res w' ss cs ns, deferAll o h (first :: rest) e [] w1 = (res, w') /\ Run (first :: rest) w res w' ss cs ns /\ Forall (Attempt w first) ss).
  { intros e w1 (S1 & S2 & S3). destruct (deferAll_Run [] first rest e [] w w1) as (w' & cs & ns & Hd & HR); [done|done|by rewrite app_nil_r|]. exists (Ok tt), w', [], cs, ns. by split_and!. }
  cbn [processGroup]. unfold bind at 1. pose proof (relay_sts first w) as Hsts. destruct (relay_quiet first w) as (relay & w1 & Er & Hs1 & Hcfg). rewrite Er in Hsts |- *. cbn in Hsts.
  destruct relay as [e|sm]; [by apply Hdefer|]. destruct (targetsFor h sm (q_rcptDomain first)) as [targets|] eqn:Et; [|by apply Hdefer].
  unfold bind at 1. destruct (policyFor_run sm (q_rcptDomain first) targets w1) as (allowed & w2 & -> & Hs2 & Hp).
  pose proof (same_trans _ _ _ Hs1 Hs2) as Hs12. destruct allowed as [[[ts t] pt]|]; [|by apply Hdefer].
  unfold bind at 1. destruct (loadBlob_quiet (q_blobId first) w2) as (loaded & w3 & -> & Hs3 & Hl). pose proof (same_trans _ _ _ Hs12 Hs3) as Hs13.
  destruct loaded as [stored|]; [|by apply Hdefer]. destruct (Hl stored eq_refl) as [g Hg].
  unfold bind at 1. destruct (prepare_quiet (q_id first) (senderDomainOf (q_envFrom first)) (match sm with Some _ => true | None => false end) stored w3) as (m & w4 & -> & Hs4 & hs & ->).
  pose proof (same_trans _ _ _ Hs13 Hs4) as Hs14.
  set (cap := Z.max 1 _). pose proof (chunk_nonempty (first :: rest) cap ltac:(lia)) as Hne.
  destruct (processChunks_Run w first (fronted hs stored) sm t ts) with (domain := q_rcptDomain first) (pt := pt) (chunks := chunk (first :: rest) cap) (w := w4)
    as (res & w' & ss & cs & ns & Hrun & HR & Ha); [by eauto| |done|].
  - intros mx0 Hin. destruct (Hp mx0 Hin) as [Hin' Hpol]. destruct sm as [s|].
    + cbn in Et. simplify_eq. apply list_elem_of_singleton in Hin' as ->. split; [by apply Hcfg | done].
    + intros fetch Hf. unfold policyInForce. rewrite Er, <- Hsts. by apply Hpol.
  - rewrite chunk_concat in HR by lia. exists res, w', ss, cs, ns. split; [done|]. split; [|done]. by eapply WorkerRun_same.
Qed.

(** ** Every row is settled *)

(** The sender learns of the failure of a recipient where four things hold: the row asks for notices of
    failure (as it does by default), the worker sends notices, the notice can be put into the queue, and
    the letter has a sender. *)
Definition Told (row : QueueRow) (ns : list Notice) : Prop :=
  dsnWanted (q_dsnNotify row) KFailure = true -> wo_dsn o = true -> h_dsnSends h = true -> trim (q_envFrom row) <> [] ->
  exists n d, n ∈ ns /\ n_to n = q_envFrom row /\ d ∈ n_recipients n /\ d_rcpt d = q_rcpt row /\ d_action d = Failed.

Definition Settled (row r : QueueRow) (ns : list Notice) : Prop :=
  q_status r = Done \/ (q_status r = Bounced /\ Told row ns) \/
  (q_status r = Deferred /\ q_attempts r = q_attempts row + 1 /\ q_attempts r < wo_maxAttempts o /\ q_leaseUntil r = None /\ exists n, h_clock h n + 1000 <= q_nextAttempt r).

(** What an entry says of its row. *)
Definition EntrySettles (row : QueueRow) (e : Entry) : Prop := forall r, q_id r = q_id row -> let r' := effects (e_stmts e) r in
  q_status r' = Done \/
  (q_status r' = Bounced /\ (dsnWanted (q_dsnNotify row) KFailure = true -> exists d, d ∈ e_dsn e /\ d_rcpt d = q_rcpt row /\ d_action d = Failed)) \/
  (q_status r' = Deferred /\ q_attempts r' = q_attempts row + 1 /\ q_attempts r' < wo_maxAttempts o /\ q_leaseUntil r' = None /\ exists n, h_clock h n + 1000 <= q_nextAttempt r').

Lemma withId_true row r : q_id r = q_id row -> withId (q_id row) r = true.
Proof. intros E. apply seqb_eq. done. Qed.

Lemma noteDelay_keeps row now d r : let r' := effects (noteDelayIfDue o row now d).2 r in
  q_status r' = q_status r /\ q_attempts r' = q_attempts r /\ q_leaseUntil r' = q_leaseUntil r /\ q_nextAttempt r' = q_nextAttempt r.
Proof. unfold noteDelayIfDue. repeat case_match; cbn; try done. by destruct (withId _ _). Qed.

Lemma retry_settles row n noise e : q_attempts row + 1 < wo_maxAttempts o -> EntrySettles row (retryEntry o row (h_clock h n) noise e).
Proof.
  intros Hlt r Hid. cbv zeta. right. right. unfold retryEntry. cbn [e_stmts]. rewrite effects_app.
  destruct (noteDelay_keeps row (h_clock h n) e (effects [SetDeferred (q_attempts row + 1) (h_clock h n + backoffMs (q_attempts row + 1) noise) e (q_id row)] r)) as (-> & -> & -> & ->).
  cbn. rewrite (withId_true row r Hid). cbn. split_and!; try done. exists n. unfold backoffMs. lia.
Qed.

Lemma failureNotice_told row c d mxHost via : dsnWanted (q_dsnNotify row) KFailure = true -> exists x, x ∈ failureNotice row c d mxHost via /\ d_rcpt x = q_rcpt row /\ d_action x = Failed.
Proof. unfold failureNotice. intros ->. eexists. split; [by apply list_elem_of_singleton|done]. Qed.

Lemma entry_settles ss row e : EntryOf ss row e -> EntrySettles row e.
Proof.
  intros (n & k & [(s & mxHost & via & _ & _ & ->)|[stored ->]]).
  - unfold outcomeOf. destruct (stageOf _ _) as [[c perm] detail]. destruct (ok _ && _); [|destruct perm; [|destruct (Z.leb_spec (wo_maxAttempts o) (q_attempts row + 1))]].
    4: by apply retry_settles.
    all: intros r Hid; cbn; rewrite (withId_true row r Hid); cbn; first [by left|right; left; split; [done|]; apply failureNotice_told].
  - unfold deferEntry. destruct (Z.leb_spec (wo_maxAttempts o) (q_attempts row + 1)); [|by apply retry_settles].
    intros r Hid. cbn. rewrite (withId_true row r Hid). cbn. right. left. split; [done|]. intros _. eexists. split; [by apply list_elem_of_singleton|done].
Qed.

Lemma NoDup_concat_r (a b : list QueueRow) : NoDup (map q_id (a ++ b)) -> NoDup (map q_id a) /\ NoDup (map q_id b) /\ forall x y, x ∈ a -> y ∈ b -> q_id x <> q_id y.
Proof.
  rewrite map_app, NoDup_app. intros (Ha & Hd & Hb). split_and!; [done|done|]. intros x y Hx Hy E. apply (Hd (q_id x)); [by apply list_elem_of_fmap_2|]. rewrite E. by apply list_elem_of_fmap_2.
Qed.

(** The batches of a run, one after the other: a row of the group goes through its own entry alone. *)
Lemma batches_own ss cs : Forall (fun c => c.1 <> [] /\ Forall2 (EntryOf ss) c.1 c.2) cs -> NoDup (map q_id (concat (map fst cs))) ->
  forall r, (forall row, row ∈ concat (map fst cs) -> q_id r <> q_id row) /\ effects (flat_map (fun c => entryStmts c.2) cs) r = r \/
    exists c row e, c ∈ cs /\ row ∈ c.1 /\ e ∈ c.2 /\ q_id r = q_id row /\ EntryOf ss row e /\ effects (flat_map (fun c => entryStmts c.2) cs) r = effects (e_stmts e) r.
Proof.
  intros Hcs. induction Hcs as [|[rows es] cs [_ He] _ IH]; intros Hnd r; [left; cbn; split; [set_solver|done]|]. cbn [map concat fst snd flat_map] in *.
  destruct (NoDup_concat_r _ _ Hnd) as (Hn1 & Hn2 & Hdis). specialize (IH Hn2). rewrite effects_app.
  assert (Habout : Forall2 aboutRow rows es) by (eapply Forall2_impl; [exact He|apply EntryOf_about]).
  destruct (decide (q_id r ∈ map q_id rows)) as [Hin|Hin].
  - right. apply list_elem_of_fmap in Hin as (row & Hid & Hrow). destruct (list_elem_of_lookup_1 _ _ Hrow) as [i Hi]. destruct (Forall2_lookup_l _ _ _ _ _ He Hi) as (e & Hei & Hent).
    exists (rows, es), row, e. cbn. split_and!; [set_solver|done|by eapply list_elem_of_lookup_2|done|done|]. rewrite (entryStmts_own rows es i row e r) by done.
    destruct (IH (effects (e_stmts e) r)) as [[_ ->]|(c & row' & e' & Hc & Hrow' & _ & Hid' & _)]; [done|]. exfalso.
    pose proof (effects_letter (e_stmts e) r) as Hl. unfold letter in Hl. apply (Hdis row row'); [done| |congruence]. apply list_elem_of_In, in_concat. exists c.1. split; [|by apply list_elem_of_In].
    apply List.in_map. by apply list_elem_of_In.
  - assert (Hother : Forall (fun row => q_id row <> q_id r) rows).
    { apply Forall_forall. intros row Hrow E. apply Hin. rewrite <- E. by apply list_elem_of_fmap_2. }
    rewrite (entryStmts_other rows es r) by done. destruct (IH r) as [[Hn ->]|(c & row & e & Hc & ?)].
    + left. split; [|done]. intros row [Hrow|Hrow]%elem_of_app; [|by apply Hn]. rewrite Forall_forall in Hother. intros E. by apply (Hother row).
    + right. exists c, row, e. split; [set_solver|done].
Qed.

Lemma id_inj rows a b : NoDup (map q_id rows) -> a ∈ rows -> b ∈ rows -> q_id a = q_id b -> a = b.
Proof.
  intros Hnd Ha Hb E. destruct (list_elem_of_lookup_1 _ _ Ha) as [i Hi]. destruct (list_elem_of_lookup_1 _ _ Hb) as [j Hj].
  assert (i = j) as ->; [|congruence]. eapply (NoDup_lookup (map q_id rows)); [done|..]; rewrite list_lookup_fmap; [by rewrite Hi|by rewrite Hj, E].
Qed.

Lemma elem_of_chunks {A B} (cs : list (list A * B)) c x : c ∈ cs -> x ∈ c.1 -> x ∈ concat (map fst cs).
Proof. intros Hc Hx. apply list_elem_of_In, in_concat. exists c.1. split; [|by apply list_elem_of_In]. apply List.in_map. by apply list_elem_of_In. Qed.

(** C14: a group that was worked off leaves no row behind.  With peers that answer or give up, as a socket does
    when it was idle for too long, the work ends and does not throw, whatever the peers and the other
    hooks say.  Then every row of the group is delivered; or given up for
    good, and then, when the row asks for notices of failure, notices are switched on and can be put into
    the queue, and the letter has a sender, a notice to him names this recipient ([Told]); or it is due again later, at least a second on, without a lease, with one attempt more
    and still below the limit, so that a row is given up after at most that many attempts.  Rows outside
    the group are as they were, and none is added or lost. *)
Theorem worker_settles first rest w :
  NoDup (map q_id (first :: rest)) -> Forall (fun row => q_envFrom row = q_envFrom first) (first :: rest) -> (forall n, Answers (h_peer h n)) ->
  exists w' ns, processGroup o h (first :: rest) w = (Ok tt, w') /\ w_notices w' = w_notices w ++ ns /\
    map q_id (mta_queue (w_db w')) = map q_id (mta_queue (w_db w)) /\
    (forall r, r ∈ mta_queue (w_db w) -> q_id r ∉ map q_id (first :: rest) -> r ∈ mta_queue (w_db w')) /\
    (forall row r, row ∈ first :: rest -> r ∈ mta_queue (w_db w') -> q_id r = q_id row -> Settled row r ns).
Proof.
  intros Hnd Hfrom Hpeers. destruct (processGroup_Run first rest w) as (res & w' & ss & cs & ns & -> & HR & _). destruct HR as [A (tl & B & B') C D E F G].
  assert (res = Ok tt) as -> by (destruct A as [?|[_ [n Hn]]]; [done|by destruct Hn]). exists w', ns. split; [done|]. split; [done|].
  pose proof Hnd as Hnd'. rewrite B in Hnd'. destruct (NoDup_concat_r _ _ Hnd') as (Hn1 & _ & _).
  split; [rewrite E, List.map_map; apply List.map_ext; intros r; pose proof (effects_letter (flat_map (fun c => entryStmts c.2) cs) r) as Hl; unfold letter in Hl; congruence|]. split.
  - intros r Hin Hout. rewrite E. apply list_elem_of_fmap. exists r. split; [|done]. destruct (batches_own ss cs D Hn1 r) as [[_ ->]|(c & row & e & Hc & Hrow & _ & Hid & _)]; [done|].
    exfalso. apply Hout. rewrite Hid, B. apply list_elem_of_fmap_2, elem_of_app. left. by eapply elem_of_chunks.
  - intros row r Hrow Hr Hid. rewrite (B' eq_refl), app_nil_r in B. rewrite E in Hr. apply list_elem_of_fmap in Hr as (r0 & -> & Hr0).
    assert (Hid0 : q_id r0 = q_id row) by (pose proof (effects_letter (flat_map (fun c => entryStmts c.2) cs) r0) as Hl; unfold letter in Hl; congruence).
    destruct (batches_own ss cs D Hn1 r0) as [[Hno _]|(c & row' & e & Hc & Hrow' & He & Hid' & Hent & ->)]; [exfalso; by apply (Hno row); [rewrite <- B|]|].
    assert (row' = row) as ->. { apply (id_inj (first :: rest)); [done| |done|congruence]. rewrite B. by eapply elem_of_chunks. }
    destruct (entry_settles _ _ _ Hent r0 Hid0) as [?|[[Hb Ht]|?]]; [by left|right; left; split; [done|]|by right; right].
    intros Hw Hd Hs Hne. destruct (Ht Hw) as (d & Hd' & Hd1 & Hd2). rewrite Forall_forall in G. rewrite Forall_forall in Hfrom. specialize (G c Hc). destruct c as [[|f rs] es]; [set_solver|]. cbn in *.
    assert (Hin : d ∈ flat_map e_dsn es) by (apply list_elem_of_In, in_flat_map; exists e; split; by apply list_elem_of_In).
    assert (Hf : q_envFrom f = q_envFrom row). { rewrite (Hfrom row Hrow). apply Hfrom. rewrite B. by eapply elem_of_chunks; [exact Hc|left]. }
    destruct G as (n & Hn & Hto & Hrec); [by intros E0; rewrite E0 in Hin; set_solver|done|done|by rewrite Hf|]. exists n, d. split_and!; try done; [congruence|by rewrite Hrec].
Qed.

(** ** Delivered means accepted *)

(** A server took the message for the row's recipient: in a session with the row's sender, in which the
    stored message went out behind header lines of ours. *)
Definition Accepted (s : Session) (r : QueueRow) : Prop :=
  sendSmtp (ss_opts s) (ss_peer s) = (Some (ss_result s), ss_trace s) /\ ok (ss_result s) = true /\
  isAccepted (rcptResult (ss_result s) (q_rcpt r)) = true /\ q_rcpt r ∈ rcptTo (ss_opts s) /\ mailFrom (ss_opts s) = q_envFrom r /\
  exists g stored hs, h_blobGet h (q_blobId r) g = Some stored /\ SmtpClient.raw (ss_opts s) = fronted hs stored.

Lemma status_done stmts r : q_status (effects stmts r) = Done -> q_status r = Done \/ SetDone (q_id r) ∈ stmts.
Proof.
  revert r. induction stmts as [|s stmts IH]; intros r Hd; [by left|]. change (effects (s :: stmts) r) with (effects stmts (effects [s] r)) in Hd.
  assert (Hid : q_id (effects [s] r) = q_id r) by (pose proof (effects_letter [s] r) as Hl; unfold letter in Hl; congruence).
  apply IH in Hd. rewrite Hid in Hd. destruct Hd as [Hd|Hd]; [|right; by right]. destruct s; cbn in Hd; try (by left); repeat case_match; cbn in Hd; try done; try (by left).
  all: unfold withId in *; right; apply elem_of_cons; left; f_equal; by apply seqb_eq.
Qed.

Lemma entry_done ss row e id : EntryOf ss row e -> SetDone id ∈ e_stmts e -> id = q_id row /\ exists s, s ∈ ss /\ q_rcpt row ∈ rcptTo (ss_opts s) /\ ok (ss_result s) = true /\ isAccepted (rcptResult (ss_result s) (q_rcpt row)) = true.
Proof.
  assert (Hretry : forall now noise x, SetDone id ∉ e_stmts (retryEntry o row now noise x)).
  { intros now noise x. unfold retryEntry, noteDelayIfDue. repeat case_match; cbn; set_solver. }
  intros (n & k & [(s & mxHost & via & Hs & Hr & ->)|[stored ->]]).
  - unfold outcomeOf. destruct (stageOf _ _) as [[c perm] detail]. destruct (ok (ss_result s) && isAccepted (rcptResult (ss_result s) (q_rcpt row))) eqn:E.
    + cbn. intros Hin%list_elem_of_singleton. simplify_eq. apply andb_true_iff in E as [? ?]. eauto 8.
    + intros Hin. exfalso. destruct perm; [cbn in Hin; set_solver|]. destruct (_ <=? _); [cbn in Hin; set_solver|]. by apply Hretry in Hin.
  - unfold deferEntry. intros Hin. exfalso. destruct (_ <=? _); [cbn in Hin; set_solver|]. by apply Hretry in Hin.
Qed.

(** A row that a run closes as delivered was accepted. *)
Lemma run_done first rest w res w' ss cs ns r : Run (first :: rest) w res w' ss cs ns -> Forall (Attempt w first) ss ->
  r ∈ mta_queue (w_db w) -> q_status (effects (flat_map (fun c => entryStmts c.2) cs) r) = Done -> q_status r <> Done ->
  exists s row, s ∈ ss /\ row ∈ first :: rest /\ q_id r = q_id row /\ Attempt w first s /\ q_rcpt row ∈ rcptTo (ss_opts s) /\ ok (ss_result s) = true /\
    isAccepted (rcptResult (ss_result s) (q_rcpt row)) = true.
Proof.
  intros [A (tl & B & B') C D E F G] Ha Hr Hd Hnd. apply status_done in Hd as [?|Hin]; [done|]. apply list_elem_of_In, in_flat_map in Hin as (c & Hc & Hin).
  apply list_elem_of_In in Hc, Hin. unfold entryStmts in Hin. apply elem_of_app in Hin as [Hin|Hin]; [|apply list_elem_of_fmap in Hin as (? & ? & _); done].
  apply list_elem_of_In, in_flat_map in Hin as (e & He & Hin). apply list_elem_of_In in He, Hin. rewrite Forall_forall in D. destruct (D c Hc) as [_ Hent].
  destruct (list_elem_of_lookup_1 _ _ He) as [i Hi]. destruct (Forall2_lookup_r _ _ _ _ _ Hent Hi) as (row & Hrow & Hof). destruct (entry_done _ _ _ _ Hof Hin) as (Hid & s & Hs & Hrc & Hok & Hacc).
  exists s, row. rewrite Forall_forall in Ha. split_and!; try done; [|by apply Ha]. rewrite B. apply elem_of_app. left. eapply elem_of_chunks; [exact Hc|by eapply list_elem_of_lookup_2].
Qed.

(** What is closed as delivered since [w0] was accepted in a session since then. *)
Definition Reported (w0 w : World) : Prop :=
  map letter (mta_queue (w_db w)) = map letter (mta_queue (w_db w0)) /\
  exists new, w_sessions w = w_sessions w0 ++ new /\
    forall r, r ∈ mta_queue (w_db w) -> q_status r = Done ->
      (exists r0, r0 ∈ mta_queue (w_db w0) /\ q_id r0 = q_id r /\ q_status r0 = Done) \/ exists s, s ∈ new /\ Accepted s r.

Lemma Accepted_letter s r r' : letter r = letter r' -> Accepted s r -> Accepted s r'.
Proof. unfold letter, Accepted. intros E. assert (q_rcpt r = q_rcpt r' /\ q_envFrom r = q_envFrom r' /\ q_blobId r = q_blobId r') as (-> & -> & ->) by (split_and!; congruence). done. Qed.

Lemma letters_unique rows a b : NoDup (map q_id rows) -> letter a ∈ map letter rows -> letter b ∈ map letter rows -> q_id a = q_id b -> letter a = letter b.
Proof.
  intros Hnd (a' & Ea & Ha)%list_elem_of_fmap (b' & Eb & Hb)%list_elem_of_fmap E. rewrite Ea, Eb. f_equal. apply (id_inj rows); try done. unfold letter in Ea, Eb. congruence.
Qed.

Lemma status_dec (r : QueueRow) : q_status r = Done \/ q_status r <> Done.
Proof. destruct (q_status r); by (left + right). Qed.

(** The groups of the tick: letters of the queue, with one sender and one blob. *)
Definition GroupOf (w0 : World) (g : list QueueRow) : Prop :=
  Forall (fun row => letter row ∈ map letter (mta_queue (w_db w0))) g /\
  forall a b, a ∈ g -> b ∈ g -> q_envFrom a = q_envFrom b /\ q_blobId a = q_blobId b.

Lemma group_Reported w0 g : NoDup (map q_id (mta_queue (w_db w0))) -> GroupOf w0 g -> triple (Reported w0) (processGroup o h g) (fun _ => Reported w0).
Proof.
  intros Hnd [Hknown Hone] w (Hl & new & Hs & Hdone). destruct g as [|first rest]; [by cbn; split; [done|exists new]|].
  destruct (processGroup_Run first rest w) as (res & w' & ss & cs & ns & -> & HR & Ha). pose proof HR as [_ _ C _ E _ _]. split.
  - rewrite E, List.map_map, <- Hl. apply List.map_ext. intros r. apply effects_letter.
  - exists (new ++ ss). split; [by rewrite C, Hs, app_assoc|]. intros r Hr Hst. rewrite E in Hr. apply list_elem_of_fmap in Hr as (r0 & -> & Hr0).
    set (stmts := flat_map _ cs) in *. pose proof (effects_letter stmts r0) as Hlet. destruct (status_dec r0) as [Hd0|Hd0].
    + destruct (Hdone r0 Hr0 Hd0) as [(x & ? & ? & ?)|(s & ? & ?)]; [left; exists x; split_and!; try done; unfold letter in Hlet; congruence|].
      right. exists s. split; [set_solver|]. by eapply Accepted_letter.
    + right. destruct (run_done first rest w res w' ss cs ns r0 HR Ha Hr0 Hst Hd0) as (s & row & Hs' & Hrow & Hid & [A1 A2 A3 _ _] & Hrc & Hok & Hacc).
      exists s. split; [set_solver|]. apply (Accepted_letter s row).
      * rewrite Hlet. symmetry. apply (letters_unique (mta_queue (w_db w0))); [done| | |done].
        -- rewrite <- Hl. by apply list_elem_of_fmap_2.
        -- rewrite Forall_forall in Hknown. by apply Hknown.
      * destruct (Hone row first Hrow ltac:(left)) as [Ef Eb]. unfold Accepted. rewrite Ef, Eb. done.
Qed.

(** ** Groups *)

Lemma mapSet_elem {V} k v (m : list (jsstr * V)) k' v' : (k', v') ∈ mapSet k v m -> (k' = k /\ v' = v) \/ (k', v') ∈ m.
Proof.
  induction m as [|[k0 v0] m IH]; cbn; [intros E%list_elem_of_singleton; simplify_eq; by left|]. destruct (seqb_spec k0 k) as [->|]; intros [E|Hin]%elem_of_cons; simplify_eq.
  - by left.
  - right. by right.
  - right. by left.
  - destruct (IH Hin) as [?|?]; [by left|right; by right].
Qed.

Lemma groupBy_spec {A} (key : A -> jsstr) l k xs : (k, xs) ∈ groupBy key l -> forall x, x ∈ xs -> x ∈ l /\ key x = k.
Proof.
  unfold groupBy. revert k xs. induction l as [|y l IH] using rev_ind; intros k xs Hin x Hx; [cbn in Hin; set_solver|]. rewrite fold_left_app in Hin. cbn in Hin.
  assert (IH' : forall k xs, (k, xs) ∈ fold_left (fun m x => match mapGet (key x) m with Some xs => mapSet (key x) (xs ++ [x]) m | None => m ++ [(key x, [x])] end) l [] -> forall x, x ∈ xs -> x ∈ l ++ [y] /\ key x = k).
  { intros k' xs' H' x' Hx'. destruct (IH k' xs' H' x' Hx') as [??]. split; [set_solver|done]. }
  destruct (mapGet (key y) _) as [ys|] eqn:Eg.
  - apply mapSet_elem in Hin as [[-> ->]|Hin]; [|by eapply IH']. apply elem_of_app in Hx as [Hx|Hx]; [by eapply IH'; [by apply mapGet_elem|]|].
    apply list_elem_of_singleton in Hx as ->. split; [set_solver|done].
  - apply elem_of_app in Hin as [Hin|Hin]; [by eapply IH'|]. apply list_elem_of_singleton in Hin. simplify_eq. apply list_elem_of_singleton in Hx as ->. split; [set_solver|done].
Qed.

(** The separator is in no part of a key but the last. *)
Definition NulFree (r : QueueRow) : Prop := 0 ∉ q_tenantId r /\ 0 ∉ q_rcptDomain r /\ 0 ∉ q_envFrom r.

Lemma sep_inj (a b c d : jsstr) : 0 ∉ a -> 0 ∉ c -> a ++ [0] ++ b = c ++ [0] ++ d -> a = c /\ b = d.
Proof.
  revert c. induction a as [|x a IH]; intros [|y c] Ha Hc E; cbn in E; simplify_eq; [done|set_solver|set_solver|].
  destruct (IH c) as [-> ->]; [set_solver|set_solver|done|done].
Qed.

(** Rows with one key have one tenant, domain, sender and blob. *)
Lemma groupKey_inj a b : NulFree a -> NulFree b -> groupKey a = groupKey b -> q_tenantId a = q_tenantId b /\ q_rcptDomain a = q_rcptDomain b /\ q_envFrom a = q_envFrom b /\ q_blobId a = q_blobId b.
Proof.
  intros (A1 & A2 & A3) (B1 & B2 & B3) E. unfold groupKey in E. apply sep_inj in E as [? E]; [|done..]. apply sep_inj in E as [? E]; [|done..]. by apply sep_inj in E as [? E].
Qed.

Lemma leasedRows_sub rows ns row : row ∈ leasedRows rows ns -> row ∈ rows.
Proof.
  unfold leasedRows. intros ([r n] & -> & Hin)%list_elem_of_fmap. apply list_elem_of_In, filter_In in Hin as [Hin _]. by apply List.in_combine_l, list_elem_of_In in Hin.
Qed.

Lemma groups_of w0 rows : (forall row, row ∈ rows -> row ∈ mta_queue (w_db w0) /\ NulFree row) -> Forall (GroupOf w0) (concat (lanesOf (groupsOf rows))).
Proof.
  intros Hrows. apply Forall_forall. intros g Hg. apply list_elem_of_In, in_concat in Hg as (lane & Hlane & Hg). apply list_elem_of_In in Hlane, Hg.
  unfold lanesOf in Hlane. apply list_elem_of_fmap in Hlane as ([d lane'] & -> & Hlane). destruct (groupBy_spec _ _ _ _ Hlane g Hg) as [Hin _].
  unfold groupsOf in Hin. apply list_elem_of_fmap in Hin as ([k g'] & -> & Hin). pose proof (groupBy_spec _ _ _ _ Hin) as Hkey. cbn in *. split.
  - apply Forall_forall. intros row Hrow. apply list_elem_of_fmap_2, Hrows. by apply Hkey.
  - intros a b Ha Hb. destruct (Hkey a Ha) as [Ha' Ka], (Hkey b Hb) as [Hb' Kb]. destruct (groupKey_inj a b) as (_ & _ & ? & ?); [by apply Hrows..|congruence|done].
Qed.

Lemma lane_Reported w0 gs : NoDup (map q_id (mta_queue (w_db w0))) -> Forall (GroupOf w0) gs -> triple (Reported w0) (runLane o h gs) (fun _ => Reported w0).
Proof.
  intros Hnd. induction 1 as [|g gs Hg _ IH]; cbn [runLane]; [by apply triple_ret|]. apply (triple_bind (fun _ => Reported w0)); [|by intros ?].
  apply (triple_catch _ _ _ (fun _ => Reported w0)); [|by intros []; apply triple_ret]. eapply triple_conseq; [by apply group_Reported|done|]. by intros [?|?|] w.
Qed.

(** C13: a row is closed as delivered only when a server has taken the message.  After a tick, for every
    row that is marked done and was not before, the tick held a session with the row's sender and
    recipient that ended well: the recipient was accepted, the bytes that were sent are those of the
    row's blob, as the blob store gave it, behind header lines of ours; and, with a configuration whose
    strings fit on a line, the transcript shows the envelope, the whole stuffed message and its end, and
    a positive final reply.  This holds whatever the peers, the resolver and the other hooks answer, and
    also when the tick is still waiting. *)
Theorem worker_done_accepted w : NoDup (map q_id (mta_queue (w_db w))) -> Forall NulFree (mta_queue (w_db w)) ->
  let w' := (runTick o h w).2 in
  exists new, w_sessions w' = w_sessions w ++ new /\
    forall r, r ∈ mta_queue (w_db w') -> q_status r = Done ->
      (exists r0, r0 ∈ mta_queue (w_db w) /\ q_id r0 = q_id r /\ q_status r0 = Done) \/
      exists s, s ∈ new /\ Accepted s r /\ (Clean (ss_opts s) -> Success (ss_opts s) (ss_result s) (ss_trace s)).
Proof.
  intros Hnd Hnul. assert (Hrep : Reported w (runTick o h w).2).
  { assert (Hw : Reported w w) by (split; [done|]; exists []; rewrite app_nil_r; split; [done|]; intros r Hr Hd; left; by exists r).
    unfold runTick, bind at 1. destruct (readClock_quiet w) as (now & w1 & -> & (S1 & S2 & S3) & _). assert (Hw1 : Reported w w1) by (unfold Reported; rewrite S1, S2; exact Hw).
    unfold bind at 1. cbn [get]. set (rows := selectDue o now (w_db w1)). destruct (len rows =? 0); [done|].
    unfold bind at 1. unfold runBatch. destruct (batch_worker (leaseStmts now rows)) with (db := w_db w1) as (db & ns & -> & Hq).
    { apply List.Forall_map, Forall_forall. intros r _. by eexists. }
    set (w2 := w1 <| w_db := db |>). assert (Hw2 : Reported w w2).
    { destruct Hw1 as (Hl & new & Hs & Hd). split; [change (w_db w2) with db; rewrite Hq, List.map_map, <- Hl; apply List.map_ext; intros r; apply effects_letter|].
      exists new. split; [done|]. intros r Hr Hst. change (w_db w2) with db in Hr. rewrite Hq in Hr. apply list_elem_of_fmap in Hr as (r0 & -> & Hr0).
      pose proof (effects_letter (leaseStmts now rows) r0) as Hlet. apply status_done in Hst as [Hst|Hin]; [|apply list_elem_of_fmap in Hin as (? & ? & _); done].
      destruct (Hd r0 Hr0 Hst) as [(x & ? & ? & ?)|(s & ? & ?)]; [left; exists x; split_and!; try done; unfold letter in Hlet; congruence|right; exists s; split; [done|by eapply Accepted_letter]]. }
    assert (Hsub : forall row, row ∈ leasedRows rows ns -> row ∈ mta_queue (w_db w) /\ NulFree row).
    { intros row Hin%leasedRows_sub. assert (row ∈ mta_queue (w_db w)) as Hrow; [|split; [done|]; rewrite Forall_forall in Hnul; by apply Hnul].
      unfold rows, selectDue in Hin. rewrite S1 in Hin. apply elem_of_take in Hin as (i & Hin & _). apply list_elem_of_lookup_2, elem_of_sortBy, list_elem_of_In, filter_In in Hin as [Hin _]. by apply list_elem_of_In. }
    unfold bind. pose proof (lane_Reported w _ Hnd (groups_of w _ Hsub) w2 Hw2) as Hlane. destruct (runLane o h _ w2) as [[?|?|] w3]; exact Hlane. }
  destruct Hrep as (_ & new & Hs & Hd). exists new. split; [done|]. intros r Hr Hst. destruct (Hd r Hr Hst) as [?|(s & Hin & Hacc)]; [by left|]. right. exists s. split_and!; [done|done|].
  intros Hc. destruct Hacc as (Hrun & Hok & _). by apply (client_success _ _ _ _ Hc Hrun Hok).
Qed.

End Spec.

(** * The worker at work: concrete runs

    A queue with two letters to one domain, run through a tick; the theorems at this world; and what the
    code does in cases where its comments promise something else. *)

From S2P Require Import Enqueue.

Section Runs.
#[local] Existing Instance toyCrypto.
#[local] Instance noKeys : DkimKeys :=
  {| KeyObject := unit; spkiKey := fun _ => None; jwkEd25519Key := fun _ => None; modulusLength := fun _ => None; cryptoSign := fun _ _ _ => None; cryptoVerify := fun _ _ _ _ => None |}.
#[local] Instance plainSha512 : NodeSha512 := {| sha512 := fun b => b |}.
#[local] Existing Instance utcZone.

Definition says (s : string) : Event := EvData (js s ++ crlf).

(** Refuses the first recipient and takes the message for the second. *)
Definition mxPeer : Peer :=
  {| p_connect := inr []; p_events := [says "220 hi"; says "250 mx"; says "250 ok"; says "550 no such user"; says "250 ok"; says "354 go"; says "250 queued"; EvClose]; p_upgrade := inl []; p_tlsEvents := [] |}.
(** Refuses before anything was said. *)
Definition closedPeer : Peer := {| p_connect := inr []; p_events := [says "554 no service for you"; EvClose]; p_upgrade := inl []; p_tlsEvents := [] |}.
Definition deadPeer : Peer := {| p_connect := inl (js "connect ECONNREFUSED"); p_events := []; p_upgrade := inl []; p_tlsEvents := [] |}.

Definition hooks (p : Peer) : Hooks := {|
  h_resolveMx := fun _ => Some [mkMx (js "mx.d.example") 10]; h_resolveTlsa := None; h_dkim := None; h_smarthost := None; h_mtaSts := None; h_cacheTtlMs := None;
  h_blobGet := fun _ _ => Some (js "From: a@b.example" ++ crlf ++ crlf ++ js "Hi"); h_ledgerFails := false; h_domainsFail := false; h_dsnSends := true;
  h_clock := fun _ => 1000; h_noise := fun _ => 0; h_boundary := fun _ => js "=_b"; h_peer := fun _ => p |}.
Definition options : WorkerOptions := mkWorker (js "me.example") 25 None 8 200 true false.

Definition rowTo (id rcpt : string) (attempts : Z) (notify : option jsstr) : QueueRow :=
  mkRow (js id) (js "t1") (Some (js "acct")) None (js "blob") (js "a@b.example") (js "v") (js rcpt) (js "d.example") Queued attempts 0 None None 0 notify None None None None.
Definition world (rows : list QueueRow) (sup : list Suppression) : World := mkWorld (mkDb rows sup [] [] [] [] [] []) 0 [] [] [] [] [] [].
Definition world0 : World := world [rowTo "1" "c@d.example" 0 None; rowTo "2" "e@d.example" 0 None] [].

Definition ends (p : Peer) (w : World) : World := (runTick options (hooks p) w).2.
Definition states (w : World) : list (jsstr * QueueStatus * Z) := map (fun r => (q_id r, q_status r, q_attempts r)) (mta_queue (w_db w)).

(** The refused recipient is closed, suppressed and reported; the other is delivered. *)
Lemma worker_example : let w := ends mxPeer world0 in
  states w = [(js "1", Bounced, 0); (js "2", Done, 0)] /\
  map (fun s => (su_email s, su_expiresAt s)) (suppressions (w_db w)) = [(js "c@d.example", None)] /\
  map (fun n => (n_to n, map d_rcpt (n_recipients n))) (w_notices w) = [(js "a@b.example", [js "c@d.example"])] /\ length (w_sessions w) = 1%nat.
Proof. vm_compute. done. Qed.

Lemma world0_ids : NoDup (map q_id (mta_queue (w_db world0))).
Proof. vm_compute. repeat constructor; set_solver. Qed.

Lemma world0_nul : Forall NulFree (mta_queue (w_db world0)).
Proof. repeat constructor; apply lit_notin; vm_compute; reflexivity. Qed.

Lemma worker_done_accepted_witness : let w' := (runTick options (hooks mxPeer) world0).2 in
  (exists r, r ∈ mta_queue (w_db w') /\ q_status r = Done) /\
  exists new, w_sessions w' = w_sessions world0 ++ new /\
    forall r, r ∈ mta_queue (w_db w') -> q_status r = Done ->
      (exists r0, r0 ∈ mta_queue (w_db world0) /\ q_id r0 = q_id r /\ q_status r0 = Done) \/
      exists s, s ∈ new /\ Accepted (hooks mxPeer) s r /\ (Clean (ss_opts s) -> Success (ss_opts s) (ss_result s) (ss_trace s)).
Proof. split; [vm_compute; eexists; split; [right; left|reflexivity]|]. apply (worker_done_accepted options (hooks mxPeer) world0 world0_ids world0_nul). Defined.

Lemma mxPeer_answers : Answers mxPeer.
Proof. split; intros certs E; cbn in *; [|done]. exists (take 7 (p_events mxPeer)), EvClose. done. Qed.

Lemma worker_settles_witness :
  exists w' ns, processGroup options (hooks mxPeer) (mta_queue (w_db world0)) world0 = (Ok tt, w') /\ w_notices w' = w_notices world0 ++ ns /\
    map q_id (mta_queue (w_db w')) = map q_id (mta_queue (w_db world0)) /\
    (forall r, r ∈ mta_queue (w_db world0) -> q_id r ∉ map q_id (mta_queue (w_db world0)) -> r ∈ mta_queue (w_db w')) /\
    (forall row r, row ∈ mta_queue (w_db world0) -> r ∈ mta_queue (w_db w') -> q_id r = q_id row -> Settled options (hooks mxPeer) row r ns).
Proof.
  apply (worker_settles options (hooks mxPeer) (rowTo "1" "c@d.example" 0 None) [rowTo "2" "e@d.example" 0 None] world0 world0_ids); [by repeat constructor|].
  intros n. exact mxPeer_answers.
Defined.

(** ** Gaps *)

(** The recipient of a message that a server refuses at its banner is suppressed for good, although
    nothing was learnt of the address. *)
Example banner_suppresses : let w := ends closedPeer (world [rowTo "1" "c@d.example" 0 None] []) in
  states w = [(js "1", Bounced, 0)] /\ map su_email (suppressions (w_db w)) = [js "c@d.example"].
Proof. vm_compute. done. Qed.

(** A sender who asked for no notices gets one when the last attempt finds no server. *)
Example never_is_notified : let w := ends deadPeer (world [rowTo "1" "c@d.example" 7 (Some (js "NEVER"))] []) in
  states w = [(js "1", Bounced, 8)] /\ map (fun n => map d_rcpt (n_recipients n)) (w_notices w) = [[js "c@d.example"]].
Proof. vm_compute. done. Qed.

Definition inputTo (rcpt : jsstr) : EnqueueInput := mkInput (js "t1") (Some (js "acct")) None (js "blob") 1 None (js "a@b.example") [rcpt] None None None.

(** A suppression that has expired stays in the table, and its key keeps a new one out: a hard bounce
    after it leaves the recipient open. *)
Example expired_suppression_sticks :
  let old := mkSuppression (js "t1") (js "c@d.example") Exhausted (js "mta-max-attempts") 0 (Some 500) in
  let w := ends mxPeer (world [rowTo "1" "c@d.example" 0 None; rowTo "2" "e@d.example" 0 None] [old]) in
  states w = [(js "1", Bounced, 0); (js "2", Done, 0)] /\ suppressions (w_db w) = [old] /\ isSuppressed (w_db w) (inputTo []) 1000 (js "c@d.example") = false.
Proof. vm_compute. done. Qed.

(** The worker stores the address as it was written, the gate asks for it in lower case. *)
Example suppression_case_missed :
  let w := ends mxPeer (world [rowTo "1" "C@d.example" 0 None; rowTo "2" "e@d.example" 0 None] []) in
  map su_email (suppressions (w_db w)) = [js "C@d.example"] /\ isSuppressed (w_db w) (inputTo []) 1000 (js "C@d.example") = false /\
  (suppressionRemove (js "t1") (js "C@d.example") (w_db w)).1 = None.
Proof. vm_compute. done. Qed.

(** The owner of a catch-all may send in the name of the catch-all itself. *)
Example catch_all_sends :
  let db := mkDb [] [] [mkDomain (js "d1") (js "t1") (js "b.example") 1] [] [mkAddress (js "ad1") (js "d1") (js "*")] [mkTarget (js "ad1") (js "acct")] [] [] in
  senderOwnedByAccount db (js "acct") (js "*+ceo@b.example") = true /\ senderOwnedByAccount db (js "acct") (js "ceo@b.example") = false.
Proof. vm_compute. done. Qed.
End Runs.
