(* ===== verification/QueueLease.v ===== *)
(** * Workers that share a queue (packages/mta/src/worker.ts, runTick)

    Several processes may run a worker on one database.  A row is taken by a conditional UPDATE that
    also sets a lease; whoever changed the row has it.  The steps below are single statements of any
    number of workers, of [enqueueMessage] and of the administrator, in any order, with time passing
    between them: a batch is a sequence of such steps, so every interleaving of batches is one here. *)

From S2P Require Import Prelude JsString Text SmtpClient Dsn Queue MtaWorker MtaWorkerSpec.

(** Worker [h_worker] took the row [h_id] until [h_until]. *)
Record Hold := mkHold { h_worker : nat; h_id : jsstr; h_until : Z }.
Record Shared := mkShared { s_now : Z; s_db : Db; s_holds : list Hold }.

Definition valid (now : Z) (k : Hold) : Prop := now <= h_until k.

(** The statements that end a worker's hold of a row. *)
Definition releases (s : Stmt) : option jsstr :=
  match s with SetDone id | SetBounced _ id | SetExhausted _ _ id | SetDeferred _ _ _ id => Some id | _ => None end.

(** What others than the workers do to the queue. *)
Definition foreign (s : Stmt) : Prop := match s with RetryRows _ _ _ | CancelRow _ _ _ | InsertQueue _ => True | _ => False end.

Inductive step : Shared -> Shared -> Prop :=
| Wait t s : s_now s <= t -> step s (s <| s_now := t |>)
(** The clock was read when the tick began; one row changed: the worker has it. *)
| Lease w t id s db : t <= s_now s -> exec (LeaseRow (t + LEASE_MS) id t) (s_db s) = Some (db, 1) ->
    step s (mkShared (s_now s) db (mkHold w id (t + LEASE_MS) :: s_holds s))
| Lost t id s db n : t <= s_now s -> n <> 1 -> exec (LeaseRow (t + LEASE_MS) id t) (s_db s) = Some (db, n) ->
    step s (s <| s_db := db |>)
(** An outcome, written while the lease holds. *)
| Outcome w id u st s db n : mkHold w id u ∈ s_holds s -> s_now s <= u -> releases st = Some id -> exec st (s_db s) = Some (db, n) ->
    step s (mkShared (s_now s) db (List.filter (fun k => negb (Nat.eqb (h_worker k) w && (h_id k === id))) (s_holds s)))
| Notified t id s db n : exec (SetDelayNotified t id) (s_db s) = Some (db, n) -> step s (s <| s_db := db |>)
| Foreign st s db n : foreign st -> exec st (s_db s) = Some (db, n) -> step s (s <| s_db := db |>).

Inductive reaches (s0 : Shared) : Shared -> Prop :=
| Here : reaches s0 s0
| Next s s' : reaches s0 s -> step s s' -> reaches s0 s'.

(** A valid hold is what the row says. *)
Definition Backed (s : Shared) : Prop := forall k, k ∈ s_holds s -> valid (s_now s) k ->
  exists r, r ∈ mta_queue (s_db s) /\ q_id r = h_id k /\ q_status r = InFlight /\ q_leaseUntil r = Some (h_until k).

Definition Exclusive (s : Shared) : Prop := forall a b, a ∈ s_holds s -> b ∈ s_holds s -> h_id a = h_id b -> valid (s_now s) a -> valid (s_now s) b -> h_worker a = h_worker b.

Record LeaseInv (s : Shared) : Prop := { li_ids : NoDup (map q_id (mta_queue (s_db s))); li_backed : Backed s; li_excl : Exclusive s }.

Lemma updateWhere_ids p f (rows : list QueueRow) : (forall r, q_id (f r) = q_id r) -> map q_id (updateWhere p f rows).1 = map q_id rows.
Proof. intros Hf. unfold updateWhere. cbn. rewrite List.map_map. apply List.map_ext. intros r. by destruct (p r). Qed.

Lemma insertAll_ids new : forall rows rows', insertAll sameRow new rows = Some rows' -> NoDup (map q_id rows) -> NoDup (map q_id rows').
Proof.
  induction new as [|x new IH]; intros rows rows' E Hnd; cbn in E; [by simplify_eq|]. destruct (existsb (sameRow x) rows) eqn:Ex; [done|]. apply (IH _ _ E).
  rewrite map_app. apply NoDup_app. split_and!; [done| |repeat constructor; set_solver]. intros id Hin ->%list_elem_of_singleton.
  apply list_elem_of_fmap in Hin as (r & Hid & Hr). assert (existsb (sameRow x) rows = true); [|congruence].
  apply existsb_exists. exists r. split; [by apply list_elem_of_In|]. by apply seqb_eq.
Qed.

(** The statements that leave rows in flight as they are. *)
Lemma foreign_keeps st db db' n : foreign st -> exec st db = Some (db', n) -> NoDup (map q_id (mta_queue db)) ->
  NoDup (map q_id (mta_queue db')) /\ forall r, r ∈ mta_queue db -> q_status r = InFlight -> r ∈ mta_queue db'.
Proof.
  intros Hf E Hnd. destruct st; try done; cbn in E.
  - unfold onQueue in E. simplify_eq. cbn. rewrite List.map_map. split; [by rewrite (List.map_ext _ q_id) by (intros r; by case_match)|].
    intros r Hr Hs. apply list_elem_of_fmap. exists r. split; [|done]. rewrite Hs. cbn. by rewrite andb_false_r.
  - unfold onQueue in E. simplify_eq. cbn. rewrite List.map_map. split; [by rewrite (List.map_ext _ q_id) by (intros r; by case_match)|].
    intros r Hr Hs. apply list_elem_of_fmap. exists r. split; [|done]. rewrite Hs. cbn. by rewrite andb_false_r.
  - destruct (insertAll sameRow rows (mta_queue db)) as [q|] eqn:Ei; [|done]. cbn in E. simplify_eq. cbn. split; [by eapply insertAll_ids|].
    intros r Hr _. apply insertAll_app in Ei as ->. set_solver.
Qed.

(** A statement about one id changes no other row, and no id. *)
Lemma about_keeps st id db db' n : workerStmt st -> aboutId st = Some id -> exec st db = Some (db', n) ->
  map q_id (mta_queue db') = map q_id (mta_queue db) /\ forall r, r ∈ mta_queue db -> q_id r <> id -> r ∈ mta_queue db'.
Proof.
  intros Hw Ha E. destruct (batch_worker [st] ltac:(by repeat constructor) db) as (d & ns & Hb & Hq). cbn in Hb. rewrite E in Hb. cbn in Hb. simplify_eq.
  rewrite Hq. split.
  - rewrite List.map_map. apply List.map_ext. intros r. pose proof (effects_letter [st] r) as Hl. unfold letter in Hl. congruence.
  - intros r Hr Hne. apply list_elem_of_fmap. exists r. split; [|done]. symmetry. apply effects_other. constructor; [|constructor]. split; [done|congruence].
Qed.

Lemma lease_spec l t id db db' n : exec (LeaseRow l id t) db = Some (db', n) ->
  mta_queue db' = map (fun r => if withId id r && isDue t r then r <| q_status := InFlight |> <| q_leaseUntil := Some l |> else r) (mta_queue db) /\
  n = len (List.filter (fun r => withId id r && isDue t r) (mta_queue db)).
Proof. cbn. unfold onQueue, updateWhere. intros [= <- <-]. done. Qed.

(** Whoever holds a row validly keeps others out: it is not due. *)
Lemma held_not_due s t k r : LeaseInv s -> t <= s_now s -> k ∈ s_holds s -> valid (s_now s) k -> r ∈ mta_queue (s_db s) -> q_id r = h_id k -> isDue t r = false.
Proof.
  intros [Hnd Hb _] Ht Hk Hv Hr Hid. destruct (Hb k Hk Hv) as (r' & Hr' & Hid' & Hst & Hl). assert (r = r') as -> by (apply (id_inj (mta_queue (s_db s))); try done; congruence).
  unfold isDue. rewrite Hst, Hl. cbn. unfold valid in Hv. apply Z.ltb_ge. lia.
Qed.

Lemma lease_step_inv s s' : LeaseInv s -> step s s' -> LeaseInv s'.
Proof.
  intros Hinv Hstep. pose proof Hinv as [Hnd Hb He]. destruct Hstep as [t s Ht|w t id s db Ht Hx|t id s db n Ht Hn Hx|w id u st s db n Hk Hu Hst Hx|t id s db n Hx|st s db n Hf Hx].
  - split; [done| |].
    + intros k Hk Hv. apply Hb; [done|]. unfold valid in *. cbn in Hv. lia.
    + intros a b Ha Hb' Hid Hva Hvb. apply He; try done; unfold valid in *; cbn in Hva, Hvb; lia.
  - destruct (lease_spec _ _ _ _ _ _ Hx) as [Hq Hn]. destruct (about_keeps (LeaseRow (t + LEASE_MS) id t) id _ _ _ ltac:(by eexists) eq_refl Hx) as [Hids Hother].
    assert (Hrow : exists r, r ∈ mta_queue (s_db s) /\ q_id r = id /\ isDue t r = true).
    { destruct (List.filter _ _) as [|r rs] eqn:Ef; [done|]. assert (Hin : r ∈ r :: rs) by left. rewrite <- Ef in Hin. apply list_elem_of_In, filter_In in Hin as [Hin [Hw Hd]%andb_true_iff].
      exists r. split; [by apply list_elem_of_In|]. split; [by apply seqb_eq|done]. }
    destruct Hrow as (r & Hr & Hid & Hdue).
    assert (Hfresh : forall k, k ∈ s_holds s -> valid (s_now s) k -> h_id k <> id).
    { intros k Hk Hv E. rewrite (held_not_due s t k r Hinv Ht Hk Hv Hr ltac:(congruence)) in Hdue. done. }
    split; [by cbn; rewrite Hids| |].
    + intros k Hk Hv. cbn in *. apply elem_of_cons in Hk as [->|Hk].
      * cbn. exists (r <| q_status := InFlight |> <| q_leaseUntil := Some (t + LEASE_MS) |>). split_and!; try done. rewrite Hq. apply list_elem_of_fmap. exists r. split; [|done].
        unfold withId. by rewrite Hdue, (proj2 (seqb_eq _ _) Hid).
      * destruct (Hb k Hk Hv) as (r' & Hr' & Hid' & ? & ?). exists r'. split_and!; try done. apply Hother; [done|]. rewrite Hid'. by apply Hfresh.
    + intros a b Ha Hb' Hab Hva Hvb. cbn in *. apply elem_of_cons in Ha as [->|Ha]; apply elem_of_cons in Hb' as [->|Hb'']; cbn in *; [done| | |by apply He].
      * exfalso. by apply (Hfresh b).
      * exfalso. by apply (Hfresh a).
  - destruct (lease_spec _ _ _ _ _ _ Hx) as [Hq _]. destruct (about_keeps (LeaseRow (t + LEASE_MS) id t) id _ _ _ ltac:(by eexists) eq_refl Hx) as [Hids Hother]. split; [by cbn; rewrite Hids| |done].
    intros k Hk Hv. destruct (Hb k Hk Hv) as (r & Hr & Hid & Hs & Hl). exists r. split_and!; try done. cbn. rewrite Hq. apply list_elem_of_fmap. exists r. split; [|done].
    by rewrite (held_not_due s t k r Hinv Ht Hk Hv Hr Hid), andb_false_r.
  - assert (Hw : workerStmt st /\ aboutId st = Some id) by (destruct st; cbn in Hst; simplify_eq; (split; [by eexists|done])). destruct Hw as [Hw Ha].
    destruct (about_keeps _ id _ _ _ Hw Ha Hx) as [Hids Hother]. split; [by cbn; rewrite Hids| |].
    + intros k Hkf Hv. cbn in *. apply list_elem_of_In, filter_In in Hkf as [Hk' Hkeep]. apply list_elem_of_In in Hk'. destruct (Hb k Hk' Hv) as (r & Hr & Hid & ? & ?).
      exists r. split_and!; try done. apply Hother; [done|]. rewrite Hid. intros E.
      assert (h_worker k = w) by (apply (He k (mkHold w id u)); try done). apply negb_true_iff, andb_false_iff in Hkeep as [Hkeep|Hkeep]; [by apply Nat.eqb_neq in Hkeep|by apply seqb_neq in Hkeep].
    + intros a b Haf Hbf Hab Hva Hvb. cbn in *. apply list_elem_of_In, filter_In in Haf as [Haf _], Hbf as [Hbf _]. apply list_elem_of_In in Haf, Hbf. by apply He.
  - destruct (batch_worker [SetDelayNotified t id] ltac:(by repeat constructor; eexists) (s_db s)) as (d & ns & Hbt & Hq). cbn [batch] in Hbt. rewrite Hx in Hbt. cbn in Hbt. simplify_eq.
    split; [| |done].
    + cbn. rewrite Hq, List.map_map. erewrite List.map_ext; [exact Hnd|]. intros r. cbn. by destruct (withId _ _).
    + intros k Hk Hv. destruct (Hb k Hk Hv) as (r & Hr & Hid & Hs & Hl). cbn. rewrite Hq. eexists. split; [by apply list_elem_of_fmap_2|]. cbn. by destruct (withId _ _).
  - destruct (foreign_keeps _ _ _ _ Hf Hx Hnd) as [Hids Hkeep]. split; [done| |done]. intros k Hk Hv. destruct (Hb k Hk Hv) as (r & Hr & Hid & Hs & Hl). exists r. split_and!; try done. by apply Hkeep.
Qed.

(** C20: no letter is in two hands.  Whatever the order in which any number of workers take rows and write
    outcomes, messages are queued, and the administrator retries and cancels: as long as every outcome is
    written while its writer's lease holds, two workers never hold valid leases on the same row, and
    a valid lease is what the row says: in flight, until that time. *)
Theorem queue_lease_exclusive s0 s : s_holds s0 = [] -> NoDup (map q_id (mta_queue (s_db s0))) -> reaches s0 s -> Exclusive s /\ Backed s.
Proof.
  intros Hh Hnd Hr. assert (LeaseInv s) as [_ ? ?]; [|done]. induction Hr as [|s s' _ IH Hs]; [|by eapply lease_step_inv].
  split; [done|intros k Hk; rewrite Hh in Hk; set_solver|intros a b Ha; rewrite Hh in Ha; set_solver].
Qed.

(** ** Examples *)

Definition letter1 : QueueRow := mkRow (js "1") (js "t1") None None (js "blob") (js "a@b.example") (js "v") (js "c@d.example") (js "d.example") Queued 0 0 None None 0 None None None None None.
Definition oneRow (r : QueueRow) : Db := mkDb [r] [] [] [] [] [] [] [].
Definition leased1 : Db := oneRow (letter1 <| q_status := InFlight |> <| q_leaseUntil := Some LEASE_MS |>).

(** Worker 1 takes the row, worker 2 comes too late. *)
Lemma queue_lease_exclusive_witness :
  let s := mkShared 10 leased1 [mkHold 1 (js "1") LEASE_MS] in
  (exec (LeaseRow (5 + LEASE_MS) (js "1") 5) leased1 = Some (leased1, 0)) /\ Exclusive s /\ Backed s.
Proof.
  split; [reflexivity|]. apply (queue_lease_exclusive (mkShared 0 (oneRow letter1) []) (mkShared 10 leased1 [mkHold 1 (js "1") LEASE_MS])).
  - reflexivity.
  - vm_compute. repeat constructor; set_solver.
  - eapply (Next _ (mkShared 10 leased1 [mkHold 1 (js "1") LEASE_MS])); [|exact (Lost 5 (js "1") (mkShared 10 leased1 [mkHold 1 (js "1") LEASE_MS]) leased1 0 ltac:(done) ltac:(done) eq_refl)].
    eapply (Next _ (mkShared 0 leased1 [mkHold 1 (js "1") LEASE_MS])); [|exact (Wait 10 (mkShared 0 leased1 [mkHold 1 (js "1") LEASE_MS]) ltac:(done))].
    eapply Next; [apply Here|]. exact (Lease 1 0 (js "1") (mkShared 0 (oneRow letter1) []) leased1 ltac:(done) eq_refl).
Defined.

(** Outcomes are written by id alone.  A worker whose lease ran out, whose row another worker has taken
    and delivered since, writes its own failure over the result: the row is due again, and the message
    goes out twice. *)
Example stale_outcome_resends :
  let late := LEASE_MS + 1 in
  batch [LeaseRow LEASE_MS (js "1") 0; LeaseRow (late + LEASE_MS) (js "1") late; SetDone (js "1"); SetDeferred 1 (late + 2000) (js "timeout") (js "1")] (oneRow letter1)
  = Some (oneRow (letter1 <| q_status := Deferred |> <| q_attempts := 1 |> <| q_nextAttempt := late + 2000 |> <| q_lastError := Some (js "timeout") |>), [1; 1; 1; 1]).
Proof. vm_compute. reflexivity. Qed.
