(* ===== verification/BlobGc.v ===== *)
(** * Message bodies and their collection (packages/store/src/blob.ts, blob-gc.ts)

    A body is a file named by the hash of its content and a generation; the ledger [blobs] says which
    generation is current, the table [blob_refs] who needs it.  A writer reads the ledger, writes the file, and
    commits ledger and references in one batch, as [enqueueMessage] and [appendMessage] do.  The
    collector drops references of finished letters and of old uploads, marks bodies without references as
    doomed, and after a grace period sweeps them: first the ledger, then the files. *)

From S2P Require Import Prelude JsString Text Scram Hash SmtpClient Dsn Queue.

Abbreviation Files := (gmap (jsstr * Z) bytes).

Inductive BlobGcMode := GcOff | GcMark | GcSweep.
Definition isBlobGcMode (v : jsstr) : bool := (v === js "off") || (v === js "mark") || (v === js "sweep").

Definition DEFAULT_GRACE_MS : Z := 24 * 60 * 60 * 1000.
Definition DEFAULT_UPLOAD_TTL_MS : Z := 24 * 60 * 60 * 1000.
Definition DEFAULT_BATCH : Z := 500.

(** ** The store (blob.ts) *)

Section Store.
Context `{NodeCrypto}.

Definition blobHash (content : bytes) : jsstr := hex (sha256 content).

Definition isHexLower (c : Z) : bool := isDigit c || ((97 <=? c) && (c <=? 102)).
Definition isBlobId (id : jsstr) : bool := (len id =? 64) && forallb isHexLower id.

(** The file of a generation; [None]: not a path that may be built. *)
Definition blobPath (id : jsstr) (generation : Z) : option (jsstr * Z) := if isBlobId id && (0 <=? generation) then Some (id, generation) else None.

Definition fsPut (content : bytes) (generation : Z) (fs : Files) : option Files := (fun p => <[p := content]> fs) <$> blobPath (blobHash content) generation.
Definition fsGet (fs : Files) (id : jsstr) (generation : Z) : option bytes := p ← blobPath id generation; fs !! p.
Definition fsRemove (id : jsstr) (generation : Z) (fs : Files) : Files := match blobPath id generation with Some p => delete p fs | None => fs end.

(** The generation that [putBlob] writes to. *)
Definition putGeneration (ledger : option BlobRow) : Z :=
  match ledger with
  | None => 0
  | Some b => if bool_decide (bl_status b = Live) then bl_generation b else bl_generation b + 1
  end.
Definition putBlob (db : Db) (content : bytes) (fs : Files) : option (Z * Files) :=
  let g := putGeneration (lookupBlob db (blobHash content)) in (fun fs => (g, fs)) <$> fsPut content g fs.

(** A reader asks the ledger for the generation. *)
Definition readBlob (db : Db) (fs : Files) (id : jsstr) : option bytes := b ← lookupBlob db id; fsGet fs id (bl_generation b).
End Store.

(** ** The collector (blob-gc.ts) *)

Definition hasRef (db : Db) (id : jsstr) : bool := existsb (fun r => rf_blobId r === id) (blob_refs db).

Definition isTerminalRow (db : Db) (id : jsstr) : bool := existsb (fun r => (q_id r === id) && isOneOf TERMINAL_QUEUE_STATUSES (q_status r)) (mta_queue db).

Definition releaseTerminalQueueRefs (db : Db) : Db * Z :=
  let u := deleteWhere (fun r => bool_decide (rf_kind r = RefQueue) && isTerminalRow db (rf_refId r)) (blob_refs db) in (db <| blob_refs := u.1 |>, u.2).

Definition expireUploadRefs (cutoff : Z) (db : Db) : Db * Z :=
  let u := deleteWhere (fun r => bool_decide (rf_kind r = RefUpload) && (rf_createdAt r <? cutoff)) (blob_refs db) in (db <| blob_refs := u.1 |>, u.2).

(** The guarded updates: of one blob, if it is still what the query said. *)
Definition doomBlob (now : Z) (id : jsstr) (db : Db) : Db * Z :=
  let u := updateWhere (fun b => (bl_id b === id) && bool_decide (bl_status b = Live) && negb (hasRef db (bl_id b))) (fun b => b <| bl_status := Doomed |> <| bl_doomedAt := Some now |>) (blobs db) in
  (db <| blobs := u.1 |>, u.2).
Definition sweepBlob (id : jsstr) (generation : Z) (db : Db) : Db * Z :=
  let u := updateWhere (fun b => (bl_id b === id) && bool_decide (bl_status b = Doomed) && (bl_generation b =? generation) && negb (hasRef db (bl_id b))) (fun b => b <| bl_status := Swept |>) (blobs db) in
  (db <| blobs := u.1 |>, u.2).

Definition doomCandidates (limit : Z) (db : Db) : list BlobRow := take (Z.to_nat limit) (List.filter (fun b => bool_decide (bl_status b = Live) && negb (hasRef db (bl_id b))) (blobs db)).
Definition isAged (cutoff : Z) (b : BlobRow) : bool := bool_decide (bl_status b = Doomed) && match bl_doomedAt b with Some d => d <? cutoff | None => false end.
Definition sweepCandidates (cutoff limit : Z) (db : Db) : list BlobRow := take (Z.to_nat limit) (List.filter (isAged cutoff) (blobs db)).

Definition markDoomed (now limit : Z) (db : Db) : Db * Z :=
  fold_left (fun dn b => let u := doomBlob now (bl_id b) dn.1 in (u.1, dn.2 + u.2)) (doomCandidates limit db) (db, 0).

(** All generations up to this one. *)
Definition removeFiles (id : jsstr) (generation : Z) (fs : Files) : Files :=
  fold_left (fun fs g => fsRemove id (Z.of_nat g) fs) (seq 0 (Z.to_nat (generation + 1))) fs.

Record Swept_ := mkSwept { sw_db : Db; sw_files : Files; sw_count : Z; sw_bytes : Z }.
Definition sweepDoomed (cutoff limit : Z) (db : Db) (fs : Files) : Swept_ :=
  fold_left (fun s b =>
    let u := sweepBlob (bl_id b) (bl_generation b) (sw_db s) in
    if u.2 =? 0 then s <| sw_db := u.1 |>
    else mkSwept u.1 (removeFiles (bl_id b) (bl_generation b) (sw_files s)) (sw_count s + 1) (sw_bytes s + bl_size b))
  (sweepCandidates cutoff limit db) (mkSwept db fs 0 0).

Record GcResult := mkGc { gc_releasedQueue : Z; gc_expiredUploads : Z; gc_doomed : Z; gc_swept : Z; gc_bytesFreed : Z }.
Definition runBlobGc (mode : BlobGcMode) (now : Z) (graceMs uploadTtlMs batchSize : option Z) (db : Db) (fs : Files) : GcResult * (Db * Files) :=
  match mode with
  | GcOff => (mkGc 0 0 0 0 0, (db, fs))
  | _ =>
      let limit := default DEFAULT_BATCH batchSize in
      let '(db, released) := releaseTerminalQueueRefs db in
      let '(db, expired) := expireUploadRefs (now - default DEFAULT_UPLOAD_TTL_MS uploadTtlMs) db in
      let '(db, doomed) := markDoomed now limit db in
      match mode with
      | GcSweep => let s := sweepDoomed (now - default DEFAULT_GRACE_MS graceMs) limit db fs in (mkGc released expired doomed (sw_count s) (sw_bytes s), (sw_db s, sw_files s))
      | _ => (mkGc released expired doomed 0 0, (db, fs))
      end
  end.

(** ** All of it at once

    Writers, readers, the worker and the collector, step by step in any order.  A writer is known by what
    it read and when; the collector by the rows it has selected and the files it has still to remove. *)

Record Writer := mkWriter { wr_content : bytes; wr_gen : Z; wr_at : Z; wr_written : bool }.

Record Pool := mkPool { p_now : Z; p_db : Db; p_files : Files; p_writers : list Writer; p_selected : list (jsstr * Z); p_removing : list (jsstr * Z) }.

Section Steps.
Context `{NodeCrypto} (patience span grace : Z).

Definition wr_id (w : Writer) : jsstr := blobHash (wr_content w).
(** A writer that may still commit. *)
Definition timely (now : Z) (w : Writer) : Prop := now <= wr_at w + patience.

(** What a writer commits: letters for the queue, the ledger, references. *)
Definition commitStmts (w : Writer) (size now : Z) (rows : list QueueRow) (refs : list BlobRef) : list Stmt :=
  [InsertQueue rows; InsertBlob (mkBlob (wr_id w) size Live (wr_gen w) None now); ReviveBlob (wr_gen w) (wr_id w); InsertRefs refs].

Definition refFor (r : QueueRow) (f : BlobRef) : Prop := rf_kind f = RefQueue /\ rf_refId f = q_id r /\ rf_blobId f = q_blobId r.
Definition isPending (r : QueueRow) : Prop := q_status r = Queued \/ q_status r = InFlight \/ q_status r = Deferred.

(** What the worker and the administrator do to letters: they take one, close one, put one off, cancel one. *)
Definition letterStmt (s : Stmt) : Prop :=
  match s with
  | LeaseRow _ _ _ | SetDone _ | SetBounced _ _ | SetExhausted _ _ _ | SetDelayNotified _ _ | CancelRow _ _ _ | SetDeferred _ _ _ _ => True
  | _ => False
  end.

(** The statement that puts a letter off names it by its id, whatever has become of it.  It is in time when
    the letter is still in flight, as it is while the lease of the writer holds; an outcome that
    comes later can make a letter pending whose body was already released. *)
Definition outcomeInTime (db : Db) (s : Stmt) : Prop :=
  match s with
  | SetDeferred _ _ _ id => forall r, r ∈ mta_queue db -> q_id r = id -> q_status r = InFlight
  | _ => True
  end.

Inductive pstep : Pool -> Pool -> Prop :=
| PWait t p : p_now p <= t -> pstep p (p <| p_now := t |>)
| PRead content p : pstep p (p <| p_writers ::= cons (mkWriter content (putGeneration (lookupBlob (p_db p) (blobHash content))) (p_now p) false) |>)
| PWrite w ws p fs : p_writers p ≡ₚ w :: ws -> fsPut (wr_content w) (wr_gen w) (p_files p) = Some fs ->
    pstep p (p <| p_files := fs |> <| p_writers := (w <| wr_written := true |>) :: ws |>)
| PCommit w ws size rows refs p db ns : p_writers p ≡ₚ w :: ws -> wr_written w = true -> timely (p_now p) w ->
    Forall (fun f => rf_blobId f = wr_id w) refs -> Forall (fun r => q_status r = Queued /\ exists f, f ∈ refs /\ refFor r f) rows ->
    batch (commitStmts w size (p_now p) rows refs) (p_db p) = Some (db, ns) ->
    pstep p (p <| p_db := db |> <| p_writers := ws |>)
| PAbandon w ws p : p_writers p ≡ₚ w :: ws -> pstep p (p <| p_writers := ws |>)
(** A message is copied: one reference more to a body that has one. *)
| PCopy refs p db n : Forall (fun f => hasRef (p_db p) (rf_blobId f) = true) refs -> exec (InsertRefs refs) (p_db p) = Some (db, n) -> pstep p (p <| p_db := db |>)
| PLetter s p db n : letterStmt s -> outcomeInTime (p_db p) s -> exec s (p_db p) = Some (db, n) -> pstep p (p <| p_db := db |>)
(** Messages are deleted. *)
| PDelete f p : pstep p (p <| p_db ::= fun db => db <| blob_refs := List.filter (fun r => negb (bool_decide (rf_kind r = RefMessage) && f r)) (blob_refs db) |> |>)
| PRelease p : pstep p (p <| p_db := (releaseTerminalQueueRefs (p_db p)).1 |>)
| PExpire cutoff p : pstep p (p <| p_db := (expireUploadRefs cutoff (p_db p)).1 |>)
(** The collector's clock was read when its run began. *)
| PDoom t id p : t <= p_now p <= t + span -> pstep p (p <| p_db := (doomBlob t id (p_db p)).1 |>)
| PSelect t b p : t <= p_now p -> b ∈ blobs (p_db p) -> isAged (t - grace) b = true -> pstep p (p <| p_selected ::= cons (bl_id b, bl_generation b) |>)
| PSweep id g p : (id, g) ∈ p_selected p -> (sweepBlob id g (p_db p)).2 <> 0 ->
    pstep p (p <| p_db := (sweepBlob id g (p_db p)).1 |> <| p_removing ::= cons (id, g) |>)
| PRemove id g k p : (id, g) ∈ p_removing p -> k <= g -> pstep p (p <| p_files ::= fsRemove id k |>).

Inductive preaches (p0 : Pool) : Pool -> Prop :=
| PHere : preaches p0 p0
| PNext p p' : preaches p0 p -> pstep p p' -> preaches p0 p'.
End Steps.

(** * No needed body is collected

    The invariant of the steps above: what the ledger calls current is there, no writer that may still
    commit relies on a generation that is being removed, and whoever is owed a body has a reference. *)

From S2P Require Import MtaWorkerSpec QueueLease.

Section Spec.
Context `{NodeCrypto} (patience span grace : Z).

Abbreviation timely := (timely patience).

(** The part about ledger, files, writers and collector. *)
Record LedgerInv (now : Z) (bs : list BlobRow) (fs : Files) (ws : list Writer) (selected removing : list (jsstr * Z)) : Prop := {
  gi_ids : NoDup (map bl_id bs);
  gi_files : forall id g c, fs !! (id, g) = Some c -> blobHash c = id /\ blobPath id g = Some (id, g);
  gi_current : forall b, b ∈ bs -> bl_status b <> Swept -> is_Some (fs !! (bl_id b, bl_generation b));
  gi_written : forall w, w ∈ ws -> timely now w -> wr_written w = true -> is_Some (fs !! (wr_id w, wr_gen w));
  gi_at : forall w, w ∈ ws -> wr_at w <= now;
  gi_doomed : forall b w d, b ∈ bs -> w ∈ ws -> timely now w -> wr_id w = bl_id b -> bl_status b = Doomed -> wr_gen w <= bl_generation b -> bl_doomedAt b = Some d -> wr_at w <= d + span;
  gi_swept : forall b w, b ∈ bs -> w ∈ ws -> timely now w -> wr_id w = bl_id b -> bl_status b = Swept -> bl_generation b < wr_gen w;
  gi_selected : forall id g, (id, g) ∈ selected -> exists b, b ∈ bs /\ bl_id b = id /\
    (g < bl_generation b \/ bl_generation b = g /\ bl_status b <> Live /\ forall w, w ∈ ws -> timely now w -> wr_id w = id -> g < wr_gen w);
  gi_removing : forall id g, (id, g) ∈ removing -> (exists b, b ∈ bs /\ bl_id b = id /\ (g < bl_generation b \/ bl_generation b = g /\ bl_status b = Swept)) /\
    forall w, w ∈ ws -> timely now w -> wr_id w = id -> g < wr_gen w
}.

(** The part about references and letters. *)
Record RefsInv (q : list QueueRow) (refs : list BlobRef) (bs : list BlobRow) : Prop := {
  ri_rows : NoDup (map q_id q);
  ri_refs : forall f, f ∈ refs -> exists b, b ∈ bs /\ bl_id b = rf_blobId f /\ bl_status b <> Swept;
  ri_pending : forall r, r ∈ q -> isPending r -> exists f, f ∈ refs /\ refFor r f
}.

Definition GcInv (p : Pool) : Prop :=
  LedgerInv (p_now p) (blobs (p_db p)) (p_files p) (p_writers p) (p_selected p) (p_removing p) /\ RefsInv (mta_queue (p_db p)) (blob_refs (p_db p)) (blobs (p_db p)).

Lemma blob_inj bs a b : NoDup (map bl_id bs) -> a ∈ bs -> b ∈ bs -> bl_id a = bl_id b -> a = b.
Proof.
  intros Hnd Ha Hb E. destruct (list_elem_of_lookup_1 _ _ Ha) as [i Hi]. destruct (list_elem_of_lookup_1 _ _ Hb) as [j Hj].
  assert (i = j) as ->; [|congruence]. eapply (NoDup_lookup (map bl_id bs)); [done|..]; rewrite list_lookup_fmap; [by rewrite Hi|by rewrite Hj, E].
Qed.

Lemma lookupBlob_spec db id : match lookupBlob db id with Some b => b ∈ blobs db /\ bl_id b = id | None => forall b, b ∈ blobs db -> bl_id b <> id end.
Proof.
  unfold lookupBlob. destruct (List.find _ _) as [b|] eqn:E.
  - apply List.find_some in E as [Hin Hid]. split; [by apply list_elem_of_In|by apply seqb_eq].
  - intros b Hb Hid. apply list_elem_of_In in Hb. pose proof (List.find_none _ _ E b Hb) as Hf. cbn in Hf. by apply seqb_neq in Hf.
Qed.

(** ** Time and writers *)

Lemma timely_earlier now now' w : now <= now' -> timely now' w -> timely now w.
Proof. unfold BlobGc.timely. lia. Qed.

Lemma ledger_wait now now' bs fs ws sel rem : now <= now' -> LedgerInv now bs fs ws sel rem -> LedgerInv now' bs fs ws sel rem.
Proof.
  intros Ht [A B C D E F G I J]. assert (Hw : forall w, timely now' w -> timely now w) by (intros w; by apply timely_earlier). split; eauto.
  - intros w Hw'. specialize (E w Hw'). lia.
  - intros id g Hin. destruct (I id g Hin) as (b & ? & ? & [?|(? & ? & ?)]); exists b; (split; [done|]); (split; [done|]); [by left|right]. eauto.
  - intros id g Hin. destruct (J id g Hin) as [? ?]. eauto.
Qed.

Lemma ledger_fewer now bs fs ws ws' sel rem : (forall w, w ∈ ws' -> w ∈ ws) -> LedgerInv now bs fs ws sel rem -> LedgerInv now bs fs ws' sel rem.
Proof.
  intros Hs [A B C D E F G I J]. split; eauto.
  - intros id g Hin. destruct (I id g Hin) as (b & ? & ? & [?|(? & ? & ?)]); exists b; (split; [done|]); (split; [done|]); [by left|right]. eauto.
  - intros id g Hin. destruct (J id g Hin) as [? ?]. eauto.
Qed.

Lemma ledger_read now db fs ws sel rem content : LedgerInv now (blobs db) fs ws sel rem ->
  LedgerInv now (blobs db) fs (mkWriter content (putGeneration (lookupBlob db (blobHash content))) now false :: ws) sel rem.
Proof.
  intros [A B C D E F G I J]. set (w0 := mkWriter _ _ _ _). pose proof (lookupBlob_spec db (blobHash content)) as Hl.
  assert (Hgen : forall b, b ∈ blobs db -> wr_id w0 = bl_id b -> wr_gen w0 = if bool_decide (bl_status b = Live) then bl_generation b else bl_generation b + 1).
  { intros b Hb Hid. unfold w0, wr_id in *. cbn in *. destruct (lookupBlob db (blobHash content)) as [b'|]; [|by destruct (Hl b Hb)]. destruct Hl as [Hb' Hid'].
    by assert (b' = b) as -> by (apply (blob_inj (blobs db)); try done; congruence). }
  assert (Hnew : forall b, b ∈ blobs db -> wr_id w0 = bl_id b -> bl_status b <> Live -> wr_gen w0 = bl_generation b + 1).
  { intros b Hb Hid Hs. rewrite (Hgen b Hb Hid). by rewrite bool_decide_eq_false_2. }
  split; eauto.
  - intros w [->|Hw]%elem_of_cons Ht Hwr; [done|eauto].
  - intros w [->|Hw]%elem_of_cons; [cbn; lia|eauto].
  - intros b w d Hb [->|Hw]%elem_of_cons Ht Hid Hst Hg Hd; [|eauto]. rewrite (Hnew b Hb Hid) in Hg by congruence. lia.
  - intros b w Hb [->|Hw]%elem_of_cons Ht Hid Hst; [|eauto]. rewrite (Hnew b Hb Hid) by congruence. lia.
  - intros id g Hin. destruct (I id g Hin) as (b & Hb & Hid & [?|(Hg & Hs & Hws)]); exists b; (split; [done|]); (split; [done|]); [by left|right]. split_and!; try done.
    intros w [->|Hw]%elem_of_cons Ht Hwid; [|eauto]. rewrite (Hnew b Hb) by congruence. lia.
  - intros id g Hin. destruct (J id g Hin) as [(b & Hb & Hid & Hcase) Hws]. split; [eauto|]. intros w [->|Hw]%elem_of_cons Ht Hwid; [|eauto].
    rewrite (Hgen b Hb) by congruence. destruct (bool_decide_reflect (bl_status b = Live)); destruct Hcase as [?|[? ?]]; [lia|congruence|lia|lia].
Qed.

(** ** Files *)

Lemma ledger_write now bs fs fs' ws ws0 w sel rem : ws ≡ₚ w :: ws0 -> fsPut (wr_content w) (wr_gen w) fs = Some fs' ->
  LedgerInv now bs fs ws sel rem -> LedgerInv now bs fs' ((w <| wr_written := true |>) :: ws0) sel rem.
Proof.
  intros Hp Hput [A B C D E F G I J]. set (w' := w <| wr_written := true |>). unfold fsPut in Hput.
  destruct (blobPath (blobHash (wr_content w)) (wr_gen w)) as [pth|] eqn:Ep; [|done]. cbn in Hput. injection Hput as <-.
  assert (pth = (wr_id w, wr_gen w)) as -> by (unfold blobPath in Ep; destruct (_ && _); by simplify_eq).
  assert (Hold : forall x, x ∈ w' :: ws0 -> exists y, y ∈ ws /\ wr_id x = wr_id y /\ wr_gen x = wr_gen y /\ wr_at x = wr_at y /\ (x = w' \/ x = y)).
  { intros x [->|Hx]%elem_of_cons; [exists w|exists x]; rewrite Hp; (split; [set_solver|]); split_and!; try done; tauto. }
  assert (Ht : forall x y, wr_at x = wr_at y -> timely now x -> timely now y) by (unfold BlobGc.timely; intros x y; lia).
  assert (Hmono : forall k, is_Some (fs !! k) -> is_Some (<[(wr_id w, wr_gen w) := wr_content w]> fs !! k)).
  { intros k [c Hc]. destruct (decide (k = (wr_id w, wr_gen w))) as [->|Hne]; [rewrite lookup_insert_eq; eauto|rewrite lookup_insert_ne by congruence; eauto]. }
  split; eauto.
  - intros id g c Hc. destruct (decide ((id, g) = (wr_id w, wr_gen w))) as [Heq|Hne]; [|rewrite lookup_insert_ne in Hc by congruence; eauto].
    rewrite Heq, lookup_insert_eq in Hc. simplify_eq. split; [done|]. by rewrite <- Ep.
  - intros x Hx Htx Hwr. destruct (Hold x Hx) as (y & Hy & Hid & Hg & Ha & [->| ->]); [cbn; rewrite lookup_insert_eq; eauto|eauto].
  - intros x Hx. destruct (Hold x Hx) as (y & Hy & _ & _ & -> & _). eauto.
  - intros b x d Hb Hx Htx Hid Hst Hg Hd. destruct (Hold x Hx) as (y & Hy & Ei & Eg & Ea & _). rewrite Ea. rewrite Ei in Hid. rewrite Eg in Hg. eauto.
  - intros b x Hb Hx Htx Hid Hst. destruct (Hold x Hx) as (y & Hy & Ei & Eg & Ea & _). rewrite Eg. rewrite Ei in Hid. eauto.
  - intros id g Hin. destruct (I id g Hin) as (b & Hb & Hid & [?|(? & ? & Hws)]); exists b; (split; [done|]); (split; [done|]); [by left|right]. split_and!; try done.
    intros x Hx Htx Hwid. destruct (Hold x Hx) as (y & Hy & Ei & Eg & Ea & _). rewrite Eg. rewrite Ei in Hwid. eauto.
  - intros id g Hin. destruct (J id g Hin) as [Hb Hws]. split; [done|]. intros x Hx Htx Hwid. destruct (Hold x Hx) as (y & Hy & Ei & Eg & Ea & _). rewrite Eg. rewrite Ei in Hwid. eauto.
Qed.

Lemma ledger_remove now bs fs ws sel rem id g k : (id, g) ∈ rem -> k <= g -> LedgerInv now bs fs ws sel rem -> LedgerInv now bs (fsRemove id k fs) ws sel rem.
Proof.
  intros Hin Hk [A B C D E F G I J]. destruct (J id g Hin) as [(b0 & Hb0 & Hid0 & Hcase) Hws].
  assert (Hkeep : forall id' g', (id' = id -> k < g') -> is_Some (fs !! (id', g')) -> is_Some (fsRemove id k fs !! (id', g'))).
  { intros id' g' Hne Hs. unfold fsRemove, blobPath. destruct (_ && _); [|done]. rewrite lookup_delete_ne; [done|]. intros [= -> ->]. specialize (Hne eq_refl). lia. }
  split; eauto.
  - intros id' g' c Hc. unfold fsRemove, blobPath in Hc. destruct (_ && _); [|eauto]. apply lookup_delete_Some in Hc as [_ Hc]. eauto.
  - intros b Hb Hs. apply Hkeep; [|eauto]. intros Hid. assert (b = b0) as -> by (apply (blob_inj bs); try done; congruence). destruct Hcase as [?|[? ?]]; [lia|done].
  - intros w Hw Ht Hwr. apply Hkeep; [|eauto]. intros Hid. specialize (Hws w Hw Ht Hid). lia.
Qed.

(** ** The collector *)

(** An update of ledger rows that keeps their ids. *)
Lemma update_elem p (f : BlobRow -> BlobRow) bs b' : b' ∈ (updateWhere p f bs).1 <-> exists b, b ∈ bs /\ b' = if p b then f b else b.
Proof. unfold updateWhere. cbn. rewrite list_elem_of_fmap. split; intros (b & ? & ?); exists b; done. Qed.

Lemma update_ids p (f : BlobRow -> BlobRow) bs : (forall b, bl_id (f b) = bl_id b) -> map bl_id (updateWhere p f bs).1 = map bl_id bs.
Proof. intros Hf. unfold updateWhere. cbn. rewrite List.map_map. apply List.map_ext. intros b. by destruct (p b). Qed.

Lemma ledger_doom now t id db fs ws sel rem : t <= now <= t + span -> LedgerInv now (blobs db) fs ws sel rem -> LedgerInv now (blobs (doomBlob t id db).1) fs ws sel rem.
Proof.
  intros Ht [A B C D E F G I J]. unfold doomBlob. cbn [fst blobs]. set (p := fun b : BlobRow => _ && _ && _). set (f := fun b : BlobRow => _).
  assert (Hf : forall b, bl_id (f b) = bl_id b /\ bl_generation (f b) = bl_generation b /\ bl_status (f b) = Doomed /\ bl_doomedAt (f b) = Some t) by done.
  assert (Hp : forall b, p b = true -> bl_status b = Live) by (intros b [[_ Hb]%andb_true_iff _]%andb_true_iff; by apply bool_decide_eq_true in Hb).
  split; eauto.
  - change (NoDup (map bl_id (updateWhere p f (blobs db)).1)). rewrite update_ids by done. done.
  - intros b' (b & Hb & ->)%update_elem Hs. destruct (p b) eqn:Eb; [|eauto]. apply (C b Hb). by rewrite (Hp b Eb).
  - intros b' w d (b & Hb & ->)%update_elem Hw Htw Hid Hst Hg Hd. destruct (p b) eqn:Eb; [|eauto]. destruct (Hf b) as (_ & _ & _ & E'). rewrite E' in Hd. simplify_eq. specialize (E w Hw). lia.
  - intros b' w (b & Hb & ->)%update_elem Hw Htw Hid Hst. destruct (p b) eqn:Eb; [done|eauto].
  - intros id' g Hin. destruct (I id' g Hin) as (b & Hb & Hid & Hc). exists (if p b then f b else b). split; [by apply update_elem; eauto|].
    destruct (p b) eqn:Eb; [|done]. split; [done|]. destruct Hc as [?|(? & Hs & _)]; [by left|]. by rewrite (Hp b Eb) in Hs.
  - intros id' g Hin. destruct (J id' g Hin) as [(b & Hb & Hid & Hc) Hws]. split; [|done]. exists (if p b then f b else b). split; [by apply update_elem; eauto|].
    destruct (p b) eqn:Eb; [|done]. split; [done|]. destruct Hc as [?|[? Hs]]; [by left|]. by rewrite (Hp b Eb) in Hs.
Qed.

Lemma ledger_select now t b bs fs ws sel rem : patience + span <= grace -> t <= now -> b ∈ bs -> isAged (t - grace) b = true ->
  LedgerInv now bs fs ws sel rem -> LedgerInv now bs fs ws ((bl_id b, bl_generation b) :: sel) rem.
Proof.
  intros Hspan Ht Hb Ha [A B C D E F G I J]. split; eauto. intros id g [[= -> ->]|Hin]%elem_of_cons; [|eauto]. exists b. split; [done|]. split; [done|]. right. split; [done|].
  unfold isAged in Ha. apply andb_true_iff in Ha as [Hs%bool_decide_eq_true Hd]. split; [congruence|]. destruct (bl_doomedAt b) as [d|] eqn:Ed; [|done]. apply Z.ltb_lt in Hd.
  intros w Hw Htw Hid. destruct (Z.lt_ge_cases (bl_generation b) (wr_gen w)) as [|Hge]; [done|]. exfalso. specialize (F b w d Hb Hw Htw Hid Hs Hge Ed). unfold BlobGc.timely in Htw. lia.
Qed.

Lemma sweep_spec id g db : (sweepBlob id g db).2 <> 0 -> exists b, b ∈ blobs db /\ bl_id b = id /\ bl_status b = Doomed /\ bl_generation b = g /\ hasRef db id = false.
Proof.
  unfold sweepBlob. cbn [snd updateWhere]. intros Hn. destruct (List.filter _ _) as [|b bs] eqn:Ef; [done|]. assert (Hin : In b (b :: bs)) by by left. rewrite <- Ef in Hin.
  apply filter_In in Hin as [Hin [[[Hi Hs]%andb_true_iff Hg]%andb_true_iff Hr]%andb_true_iff]. apply seqb_eq in Hi. apply bool_decide_eq_true in Hs. apply Z.eqb_eq in Hg. apply negb_true_iff in Hr.
  exists b. split_and!; try done; [by apply list_elem_of_In|by rewrite <- Hi].
Qed.

Lemma ledger_sweep now id g db fs ws sel rem : (id, g) ∈ sel -> (sweepBlob id g db).2 <> 0 -> LedgerInv now (blobs db) fs ws sel rem ->
  LedgerInv now (blobs (sweepBlob id g db).1) fs ws sel ((id, g) :: rem).
Proof.
  intros Hsel Hn [A B C D E F G I J]. destruct (sweep_spec id g db Hn) as (b0 & Hb0 & Hid0 & Hs0 & Hg0 & Hr0).
  assert (Hws : forall w, w ∈ ws -> timely now w -> wr_id w = id -> g < wr_gen w).
  { destruct (I id g Hsel) as (b & Hb & Hid & Hc). assert (b = b0) as -> by (apply (blob_inj (blobs db)); try done; congruence). destruct Hc as [?|(_ & _ & ?)]; [lia|done]. }
  unfold sweepBlob. cbn [fst blobs]. set (p := fun b : BlobRow => _ && _ && _ && _). set (f := fun b : BlobRow => _).
  assert (Hf : forall b, bl_id (f b) = bl_id b /\ bl_generation (f b) = bl_generation b /\ bl_status (f b) = Swept) by done.
  assert (Hp : forall b, b ∈ blobs db -> p b = true -> b = b0).
  { intros b Hb [[[Hi _]%andb_true_iff _]%andb_true_iff _]%andb_true_iff. apply seqb_eq in Hi. apply (blob_inj (blobs db)); try done. congruence. }
  assert (Hp0 : p b0 = true) by (unfold p; rewrite Hid0, seqb_refl, Hr0, Hs0, Hg0, Z.eqb_refl; done).
  split; eauto.
  - change (NoDup (map bl_id (updateWhere p f (blobs db)).1)). by rewrite update_ids.
  - intros b' (b & Hb & ->)%update_elem Hs. destruct (p b) eqn:Eb; [done|eauto].
  - intros b' w d (b & Hb & ->)%update_elem Hw Htw Hid Hst Hg Hd. destruct (p b) eqn:Eb; [done|eauto].
  - intros b' w (b & Hb & ->)%update_elem Hw Htw Hid Hst. destruct (p b) eqn:Eb; [|eauto]. rewrite (Hp b Hb Eb) in *. cbn in *. rewrite Hg0. apply Hws; [done|done|congruence].
  - intros id' g' Hin. destruct (I id' g' Hin) as (b & Hb & Hid & Hc). exists (if p b then f b else b). split; [by apply update_elem; eauto|]. destruct (p b) eqn:Eb; [|done]. split; [done|].
    destruct Hc as [?|(? & _ & ?)]; [by left|]. right. split_and!; try done.
  - intros id' g' [[= -> ->]|Hin]%elem_of_cons.
    + split; [|done]. exists (f b0). split; [apply update_elem; exists b0; by rewrite Hp0|]. split; [done|]. by right.
    + destruct (J id' g' Hin) as [(b & Hb & Hid & Hc) ?]. split; [|done]. exists (if p b then f b else b). split; [by apply update_elem; eauto|]. destruct (p b) eqn:Eb; [|done]. split; [done|].
      destruct Hc as [?|[? _]]; [by left|by right].
Qed.

(** ** Commits *)

Definition revive (w : Writer) (b : BlobRow) : BlobRow :=
  if (bl_id b === wr_id w) && (bl_generation b <=? wr_gen w) then b <| bl_status := Live |> <| bl_doomedAt := None |> <| bl_generation := wr_gen w |> else b.

Definition registered (w : Writer) (size now : Z) (bs : list BlobRow) : list BlobRow := (insertIgnore sameBlob (mkBlob (wr_id w) size Live (wr_gen w) None now) bs).1.

Lemma commit_effect w size now rows refs db db' ns : batch (commitStmts w size now rows refs) db = Some (db', ns) ->
  (exists q, insertAll sameRow rows (mta_queue db) = Some q /\ mta_queue db' = q) /\ blob_refs db' = blob_refs db ++ refs /\ blobs db' = map (revive w) (registered w size now (blobs db)).
Proof.
  unfold commitStmts, registered. intros Hb. change (InsertQueue rows :: ?l) with (map InsertQueue [rows] ++ l) in Hb.
  cbn [batch exec map app] in Hb. destruct (insertAll sameRow rows (mta_queue db)) as [q|] eqn:Eq; cbn in Hb; [|done].
  destruct (insertIgnore sameBlob _ (blobs db)) as [bs k]. cbn in Hb. destruct (insertAll sameRef refs (blob_refs db)) as [fs|] eqn:Ef; cbn in Hb; [|done]. simplify_eq. cbn.
  split; [by exists q|]. split; [by apply insertAll_app in Ef|]. done.
Qed.

Lemma registered_elem w size now bs b : b ∈ registered w size now bs -> b ∈ bs \/ (bl_id b = wr_id w /\ bl_generation b = wr_gen w /\ forall x, x ∈ bs -> bl_id x <> wr_id w).
Proof.
  unfold registered, insertIgnore. destruct (existsb _ bs) eqn:E; cbn; [by left|]. intros [?|Hb]%elem_of_app; [by left|]. apply list_elem_of_singleton in Hb as ->. right. split_and!; try done.
  intros x Hx Hid. assert (existsb (sameBlob (mkBlob (wr_id w) size Live (wr_gen w) None now)) bs = true); [|congruence]. apply existsb_exists. exists x. split; [by apply list_elem_of_In|]. by apply seqb_eq.
Qed.

Lemma registered_has w size now bs : (forall b, b ∈ bs -> b ∈ registered w size now bs) /\ exists b, b ∈ registered w size now bs /\ bl_id b = wr_id w.
Proof.
  unfold registered, insertIgnore. destruct (existsb _ bs) eqn:E; cbn.
  - split; [done|]. apply existsb_exists in E as (b & Hb & Hs%seqb_eq). exists b. split; [by apply list_elem_of_In|done].
  - split; [set_solver|]. eexists. split; [apply elem_of_app; right; by apply list_elem_of_singleton|done].
Qed.

Lemma revive_cases w b : (bl_id b = wr_id w /\ bl_generation b <= wr_gen w /\ bl_id (revive w b) = wr_id w /\ bl_generation (revive w b) = wr_gen w /\ bl_status (revive w b) = Live) \/
  (revive w b = b /\ (bl_id b = wr_id w -> wr_gen w < bl_generation b)).
Proof.
  unfold revive. destruct (seqb_spec (bl_id b) (wr_id w)) as [E|E]; cbn; [destruct (Z.leb_spec (bl_generation b) (wr_gen w))|].
  - left. split_and!; done.
  - right. split; [done|]. lia.
  - right. split; [done|]. done.
Qed.

Lemma revive_id w b : bl_id (revive w b) = bl_id b.
Proof. unfold revive. by destruct (_ && _). Qed.

Lemma ledger_commit now w ws ws' size bs fs sel rem : w ∈ ws -> (forall x, x ∈ ws' -> x ∈ ws) -> wr_written w = true -> timely now w ->
  LedgerInv now bs fs ws sel rem -> LedgerInv now (map (revive w) (registered w size now bs)) fs ws' sel rem.
Proof.
  intros Hw Hsub Hwr Ht [A B C D E F G I J]. destruct (registered_has w size now bs) as [Hincl _].
  assert (Hback : forall b', b' ∈ map (revive w) (registered w size now bs) ->
    (bl_id b' = wr_id w /\ bl_generation b' = wr_gen w /\ bl_status b' = Live) \/ b' ∈ bs).
  { intros b' (b & -> & Hb)%list_elem_of_fmap. destruct (revive_cases w b) as [(_ & _ & ? & ? & ?)|[Er Hgt]]; [by left|]. rewrite Er. right.
    destruct (registered_elem _ _ _ _ _ Hb) as [|(Hid & Hg & _)]; [done|]. specialize (Hgt Hid). lia. }
  assert (Hfwd : forall b, b ∈ bs -> revive w b ∈ map (revive w) (registered w size now bs)) by (intros b Hb; apply list_elem_of_fmap_2; auto).
  assert (Hw' : forall x, x ∈ ws' -> x ∈ ws) by done. split; eauto.
  - rewrite List.map_map, (List.map_ext _ bl_id) by apply revive_id. unfold registered, insertIgnore. destruct (existsb _ bs) eqn:Ex; cbn; [done|]. rewrite map_app. apply NoDup_app.
    split_and!; [done| |repeat constructor; set_solver]. intros id Hin ->%list_elem_of_singleton. apply list_elem_of_fmap in Hin as (b & Hid & Hb).
    destruct (registered_elem w size now bs (mkBlob (wr_id w) size Live (wr_gen w) None now)) as [Hin|(_ & _ & Hno)].
    + unfold registered, insertIgnore. rewrite Ex. cbn. set_solver.
    + assert (existsb (sameBlob (mkBlob (wr_id w) size Live (wr_gen w) None now)) bs = true); [|congruence]. apply existsb_exists. eexists. split; [by apply list_elem_of_In|]. by apply seqb_eq.
    + by destruct (Hno b Hb).
  - intros b' Hb' Hs. destruct (Hback b' Hb') as [(-> & -> & _)|Hb]; [by apply D|eauto].
  - intros b' x d Hb' Hx Htx Hid Hst Hg Hd. destruct (Hback b' Hb') as [(_ & _ & Hl)|Hb]; [congruence|eauto].
  - intros b' x Hb' Hx Htx Hid Hst. destruct (Hback b' Hb') as [(_ & _ & Hl)|Hb]; [congruence|eauto].
  - intros id g Hin. destruct (I id g Hin) as (b & Hb & Hid & Hc). exists (revive w b). split; [auto|]. split; [by rewrite revive_id|].
    destruct (revive_cases w b) as [(Hbid & Hle & _ & -> & _)|[-> _]].
    + left. destruct Hc as [?|(Hg & _ & Hws)]; [lia|]. apply Hws; [done|done|congruence].
    + destruct Hc as [?|(? & ? & ?)]; [by left|right]. eauto 6.
  - intros id g Hin. destruct (J id g Hin) as [(b & Hb & Hid & Hc) Hws]. split; [|eauto]. exists (revive w b). split; [auto|]. split; [by rewrite revive_id|].
    destruct (revive_cases w b) as [(Hbid & Hle & _ & -> & _)|[-> _]]; [|done]. left. apply Hws; [done|done|congruence].
Qed.

Lemma refs_commit now w ws size rows refs q bs fs sel rem q' rfs : w ∈ ws -> timely now w -> LedgerInv now bs fs ws sel rem ->
  Forall (fun f => rf_blobId f = wr_id w) refs -> Forall (fun r => q_status r = Queued /\ exists f, f ∈ refs /\ refFor r f) rows ->
  insertAll sameRow rows q = Some q' -> RefsInv q rfs bs -> RefsInv q' (rfs ++ refs) (map (revive w) (registered w size now bs)).
Proof.
  intros Hw Ht HL Hrefs Hrows Hq [A B C]. destruct (registered_has w size now bs) as [Hincl (b1 & Hb1 & Hid1)]. split.
  - by eapply insertAll_ids.
  - intros f [Hf|Hf]%elem_of_app.
    + destruct (B f Hf) as (b & Hb & Hid & Hs). exists (revive w b). split; [apply list_elem_of_fmap_2; auto|]. split; [by rewrite revive_id|].
      destruct (revive_cases w b) as [(_ & _ & _ & _ & ->)|[-> _]]; [congruence|done].
    + rewrite Forall_forall in Hrefs. exists (revive w b1). split; [by apply list_elem_of_fmap_2|]. split; [rewrite revive_id, Hid1; symmetry; auto|].
      destruct (revive_cases w b1) as [(_ & _ & _ & _ & ->)|[-> Hgt]]; [congruence|]. intros Hs. specialize (Hgt Hid1).
      destruct (registered_elem _ _ _ _ _ Hb1) as [Hb|(_ & Hg & _)]; [|lia]. pose proof (gi_swept _ _ _ _ _ _ HL b1 w Hb Hw Ht ltac:(congruence) Hs). lia.
  - intros r Hr Hp. apply insertAll_app in Hq as ->. apply elem_of_app in Hr as [Hr|Hr].
    + destruct (C r Hr Hp) as (f & ? & ?). exists f. split; [set_solver|done].
    + rewrite Forall_forall in Hrows. destruct (Hrows r Hr) as [_ (f & ? & ?)]. exists f. split; [set_solver|done].
Qed.

(** ** Letters *)

(** A statement about letters leaves ledger and references alone, and makes no letter pending that was not. *)
Lemma letter_spec st db db' n : letterStmt st -> outcomeInTime db st -> exec st db = Some (db', n) ->
  blobs db' = blobs db /\ blob_refs db' = blob_refs db /\
  exists f, mta_queue db' = map f (mta_queue db) /\ forall r, r ∈ mta_queue db -> q_id (f r) = q_id r /\ q_blobId (f r) = q_blobId r /\ (isPending (f r) -> isPending r).
Proof.
  intros Hs Hl E. destruct st; try done; cbn in E; unfold onQueue, updateWhere in E; simplify_eq; cbn; (split; [done|]); (split; [done|]); eexists; (split; [reflexivity|]); intros r Hr;
    cbv beta; (destruct (_ : bool) eqn:Eb in |- *); cbn; try done; split_and!; try done; unfold isPending; cbn; try tauto; try (by intros [?|[?|?]]).
  - intros _. apply andb_true_iff in Eb as [_ Hd]. unfold isDue in Hd. apply orb_true_iff in Hd as [[Hd _]%andb_true_iff|[Hd _]%andb_true_iff].
    + destruct (q_status r); cbn in Hd; try done; tauto.
    + apply bool_decide_eq_true in Hd. tauto.
  - intros _. apply seqb_eq in Eb. rewrite (Hl r Hr Eb). tauto.
Qed.

Lemma pending_not_terminal db r : NoDup (map q_id (mta_queue db)) -> r ∈ mta_queue db -> isPending r -> isTerminalRow db (q_id r) = false.
Proof.
  intros Hnd Hr Hp. apply not_true_iff_false. intros (x & Hx & [Hid Hs]%andb_true_iff)%existsb_exists. apply list_elem_of_In in Hx. apply seqb_eq in Hid.
  assert (x = r) as -> by by apply (id_inj (mta_queue db)). destruct Hp as [E|[E|E]]; by rewrite E in Hs.
Qed.

(** Fewer references, none of a pending letter. *)
Lemma refs_fewer q refs bs p : (forall r f, r ∈ q -> isPending r -> f ∈ refs -> refFor r f -> p f = true) -> RefsInv q refs bs -> RefsInv q (List.filter p refs) bs.
Proof.
  intros Hk [A B C]. split; [done| |].
  - intros f Hf. apply list_elem_of_In, filter_In in Hf as [Hf _]. apply B. by apply list_elem_of_In.
  - intros r Hr Hp. destruct (C r Hr Hp) as (f & Hf & Hff). exists f. split; [|done]. apply list_elem_of_In, filter_In. split; [by apply list_elem_of_In|]. eauto.
Qed.

Lemma refs_update q refs bs p f : (forall b, bl_id (f b) = bl_id b) -> (forall b, b ∈ bs -> p b = true -> bl_status (f b) <> Swept \/ forall r, r ∈ refs -> rf_blobId r <> bl_id b) ->
  RefsInv q refs bs -> RefsInv q refs (updateWhere p f bs).1.
Proof.
  intros Hid Hs [A B C]. split; [done| |done]. intros r Hr. destruct (B r Hr) as (b & Hb & Hbid & Hst). exists (if p b then f b else b). split; [apply update_elem; eauto|].
  destruct (p b) eqn:Ep; [|done]. split; [by rewrite Hid|]. destruct (Hs b Hb Ep) as [?|Hno]; [done|]. by destruct (Hno r Hr).
Qed.

Lemma hasRef_false db id r : hasRef db id = false -> r ∈ blob_refs db -> rf_blobId r <> id.
Proof. intros Hn Hr E. assert (hasRef db id = true); [|congruence]. apply existsb_exists. exists r. split; [by apply list_elem_of_In|by apply seqb_eq]. Qed.

Lemma pstep_inv p p' : patience + span <= grace -> GcInv p -> pstep patience span grace p p' -> GcInv p'.
Proof.
  intros Hspan [HL HR] Hs. destruct Hs; split; cbn [p_now p_db p_files p_writers p_selected p_removing]; try done; try exact HR.
  - by eapply ledger_wait.
  - by apply ledger_read.
  - by eapply ledger_write.
  - cbn. destruct (commit_effect _ _ _ _ _ _ _ _ H5) as (_ & _ & ->). eapply (ledger_commit _ w (p_writers p)); try done; [rewrite H0; left|intros x Hx; rewrite H0; by right].
  - cbn. destruct (commit_effect _ _ _ _ _ _ _ _ H5) as ((q & Hq & ->) & -> & ->). eapply (refs_commit _ w (p_writers p)); try done. rewrite H0. left.
  - cbn. eapply ledger_fewer; [|exact HL]. intros x Hx. rewrite H0. by right.
  - cbn in H1 |- *. destruct (insertAll _ _ _) as [fs|] eqn:Ef; cbn in H1; simplify_eq. exact HL.
  - cbn in H1 |- *. destruct (insertAll _ _ _) as [fs|] eqn:Ef; cbn in H1; simplify_eq. cbn. apply insertAll_app in Ef as ->. destruct HR as [A B C]. split; [done| |].
    + intros f [Hf|Hf]%elem_of_app; [auto|]. rewrite Forall_forall in H0. specialize (H0 f Hf). apply existsb_exists in H0 as (f0 & Hf0 & Hid%seqb_eq). apply list_elem_of_In in Hf0.
      destruct (B f0 Hf0) as (b & ? & ? & ?). exists b. split_and!; try done. congruence.
    + intros r Hr Hp. destruct (C r Hr Hp) as (f & ? & ?). exists f. split; [set_solver|done].
  - cbn. destruct (letter_spec _ _ _ _ H0 H1 H2) as (-> & _ & _). exact HL.
  - cbn. destruct (letter_spec _ _ _ _ H0 H1 H2) as (-> & -> & f & -> & Hf). destruct HR as [A B C]. split; [|done|].
    + rewrite List.map_map. erewrite List.map_ext_in; [exact A|]. intros r Hr. apply list_elem_of_In in Hr. by destruct (Hf r Hr).
    + intros r' (r & -> & Hr)%list_elem_of_fmap Hp. destruct (Hf r Hr) as (Hi & Hb & Hpend). destruct (C r Hr (Hpend Hp)) as (x & Hx & ? & ? & ?). exists x. split; [done|]. split_and!; congruence.
  - apply refs_fewer; [|exact HR]. intros r x Hr Hp Hx (Hk & _). by rewrite Hk.
  - apply refs_fewer; [|exact HR]. intros r x Hr Hp Hx (_ & Hid & _). rewrite Hid, (pending_not_terminal (p_db p)) by (try done; apply HR). by rewrite andb_false_r.
  - apply refs_fewer; [|exact HR]. intros r x Hr Hp Hx (Hk & _). by rewrite Hk.
  - by apply ledger_doom.
  - apply refs_update; [done| |exact HR]. intros b Hb _. by left.
  - by apply (ledger_select _ t).
  - by apply ledger_sweep.
  - apply refs_update; [done| |exact HR]. intros b Hb Hp. right. intros r Hr. apply andb_true_iff in Hp as [_ Hp%negb_true_iff]. by eapply hasRef_false.
  - by eapply ledger_remove.
Qed.

(** What a reader finds for a reference. *)
Lemma read_current p f : GcInv p -> f ∈ blob_refs (p_db p) -> exists c, readBlob (p_db p) (p_files p) (rf_blobId f) = Some c /\ blobHash c = rf_blobId f.
Proof.
  intros [HL HR] Hf. destruct (ri_refs _ _ _ HR f Hf) as (b & Hb & Hid & Hs). destruct (gi_current _ _ _ _ _ _ HL b Hb Hs) as [c Hc]. destruct (gi_files _ _ _ _ _ _ HL _ _ _ Hc) as [Hh Hp].
  exists c. split; [|congruence]. unfold readBlob. pose proof (lookupBlob_spec (p_db p) (rf_blobId f)) as Hl. destruct (lookupBlob _ _) as [b'|]; [|by destruct (Hl b Hb)].
  destruct Hl as [Hb' Hid']. assert (b' = b) as -> by (apply (blob_inj (blobs (p_db p))); [apply HL|done|done|congruence]). cbn. unfold fsGet. rewrite <- Hid, Hp. done.
Qed.

(** A store in which nothing has happened yet. *)
Definition Fresh (p : Pool) : Prop :=
  blobs (p_db p) = [] /\ blob_refs (p_db p) = [] /\ mta_queue (p_db p) = [] /\ p_files p = ∅ /\ p_writers p = [] /\ p_selected p = [] /\ p_removing p = [].

(** ** The functions of the store as runs of steps *)

Abbreviation Reaches := (preaches patience span grace).

Lemma preaches_trans p0 p p' : Reaches p0 p -> Reaches p p' -> Reaches p0 p'.
Proof. intros H1 H2. induction H2; [done|]. by eapply PNext. Qed.

Lemma preaches_one p p' : pstep patience span grace p p' -> Reaches p p'.
Proof. intros Hs. eapply PNext; [apply PHere | done]. Qed.

(** [putBlob] reads the ledger and writes the file. *)
Lemma putBlob_steps content g fs p : putBlob (p_db p) content (p_files p) = Some (g, fs) ->
  Reaches p (p <| p_files := fs |> <| p_writers ::= cons (mkWriter content g (p_now p) true) |>).
Proof.
  unfold putBlob. cbv zeta. set (g0 := putGeneration _). destruct (fsPut content g0 (p_files p)) as [fs'|] eqn:E; [|done]. intros [= <- <-].
  eapply PNext; [apply preaches_one, (PRead _ _ _ content)|]. fold g0.
  pose (p1 := p <| p_writers ::= cons (mkWriter content g0 (p_now p) false) |>).
  exact (PWrite _ _ _ (mkWriter content g0 (p_now p) false) (p_writers p) p1 fs' (Permutation_refl _) E).
Qed.

(** [markDoomed] is a sequence of guarded updates. *)
Lemma markDoomed_steps limit p : 0 <= span -> Reaches p (p <| p_db := (markDoomed (p_now p) limit (p_db p)).1 |>).
Proof.
  intros Hspan. unfold markDoomed. generalize 0 as n. generalize (doomCandidates limit (p_db p)) as cs. intros cs.
  revert p. induction cs as [|b cs IH]; intros p n; cbn [fold_left fst snd]; [by destruct p; apply PHere|].
  eapply preaches_trans; [apply preaches_one, (PDoom _ _ _ (p_now p) (bl_id b)); lia|].
  pose (p1 := p <| p_db := (doomBlob (p_now p) (bl_id b) (p_db p)).1 |>). exact (IH p1 _).
Qed.

(** The files of one swept body. *)
Lemma removeFiles_steps id g p : (id, g) ∈ p_removing p -> Reaches p (p <| p_files ::= removeFiles id g |>).
Proof.
  intros Hin. unfold removeFiles.
  assert (Hle : Forall (fun k => Z.of_nat k <= g) (seq 0 (Z.to_nat (g + 1)))) by (apply Forall_forall; intros k Hk%list_elem_of_In; apply in_seq in Hk; lia).
  revert p Hin. induction Hle as [|k ks Hk _ IH]; intros p Hin; cbn [fold_left]; [by destruct p; apply PHere|].
  eapply preaches_trans; [by apply preaches_one, (PRemove _ _ _ id g (Z.of_nat k))|]. pose (p1 := p <| p_files ::= fsRemove id (Z.of_nat k) |>). exact (IH p1 Hin).
Qed.

(** The rows that a query has found. *)
Lemma select_steps cs : forall p, Forall (fun b => b ∈ blobs (p_db p) /\ isAged (p_now p - grace) b = true) cs ->
  exists sel, Reaches p (p <| p_selected := sel |>) /\ Forall (fun b => (bl_id b, bl_generation b) ∈ sel) cs /\ forall x, x ∈ p_selected p -> x ∈ sel.
Proof.
  induction cs as [|b cs IH]; intros p Hcs; [exists (p_selected p); split_and!; [by destruct p; apply PHere | done | done]|].
  apply Forall_cons in Hcs as [[Hb Ha] Hcs]. pose (p1 := p <| p_selected ::= cons (bl_id b, bl_generation b) |>). destruct (IH p1 Hcs) as (sel & Hr & Hin & Hold).
  exists sel. split_and!; [|constructor; [apply Hold; left | done] | intros x Hx; apply Hold; by right].
  eapply preaches_trans; [apply preaches_one, (PSelect _ _ _ (p_now p) b); [lia | done | done] | exact Hr].
Qed.

Lemma updateWhere_none {A} p (f : A -> A) rows : (updateWhere p f rows).2 = 0 -> (updateWhere p f rows).1 = rows.
Proof.
  unfold updateWhere. cbn [fst snd]. intros Hf%len_zero. induction rows as [|b bs IH]; [done|]. cbn in *. destruct (p b); [done|]. by rewrite IH.
Qed.

Lemma sweep_none id g db : (sweepBlob id g db).2 = 0 -> (sweepBlob id g db).1 = db.
Proof. unfold sweepBlob. cbv zeta. cbn [fst snd]. intros Hn. rewrite (updateWhere_none _ _ _ Hn). by destruct db. Qed.

(** The loop of [sweepDoomed], from rows that were selected. *)
Lemma sweepLoop_steps cs : forall p n m, Forall (fun b => (bl_id b, bl_generation b) ∈ p_selected p) cs ->
  let s := fold_left (fun s b =>
    let u := sweepBlob (bl_id b) (bl_generation b) (sw_db s) in
    if u.2 =? 0 then s <| sw_db := u.1 |>
    else mkSwept u.1 (removeFiles (bl_id b) (bl_generation b) (sw_files s)) (sw_count s + 1) (sw_bytes s + bl_size b)) cs (mkSwept (p_db p) (p_files p) n m) in
  exists rem, Reaches p (p <| p_db := sw_db s |> <| p_files := sw_files s |> <| p_removing := rem |>).
Proof.
  induction cs as [|b cs IH]; intros p n m Hcs; cbn [fold_left]; [exists (p_removing p); by destruct p; apply PHere|].
  apply Forall_cons in Hcs as [Hb Hcs]. cbv zeta. cbn [sw_db sw_files sw_count sw_bytes]. destruct (Z.eqb_spec (sweepBlob (bl_id b) (bl_generation b) (p_db p)).2 0) as [Hz|Hnz].
  - rewrite (sweep_none _ _ _ Hz). exact (IH p n m Hcs).
  - set (p1 := p <| p_db := (sweepBlob (bl_id b) (bl_generation b) (p_db p)).1 |> <| p_removing ::= cons (bl_id b, bl_generation b) |>).
    assert (H1 : Reaches p p1) by (by apply preaches_one, PSweep).
    pose (p2 := p1 <| p_files ::= removeFiles (bl_id b) (bl_generation b) |>).
    assert (H2 : Reaches p1 p2) by (apply removeFiles_steps; left).
    destruct (IH p2 (n + 1) (m + bl_size b) Hcs) as [rem H3]. exists rem.
    exact (preaches_trans _ _ _ H1 (preaches_trans _ _ _ H2 H3)).
Qed.

Lemma sweepDoomed_steps limit p : exists sel rem, let s := sweepDoomed (p_now p - grace) limit (p_db p) (p_files p) in
  Reaches p (p <| p_db := sw_db s |> <| p_files := sw_files s |> <| p_selected := sel |> <| p_removing := rem |>).
Proof.
  unfold sweepDoomed. set (cs := sweepCandidates _ _ _).
  assert (Hcs : Forall (fun b => b ∈ blobs (p_db p) /\ isAged (p_now p - grace) b = true) cs).
  { apply Forall_forall. intros b Hb. apply elem_of_take in Hb as (i & Hb & _). apply list_elem_of_lookup_2, list_elem_of_In, filter_In in Hb as [Hb Ha]. split; [by apply list_elem_of_In | done]. }
  destruct (select_steps cs p Hcs) as (sel & H1 & Hin & _). pose (p1 := p <| p_selected := sel |>). destruct (sweepLoop_steps cs p1 0 0 Hin) as [rem H2].
  exists sel, rem. exact (preaches_trans _ _ _ H1 H2).
Qed.

(** A whole run of the collector, at one reading of the clock. *)
Lemma runBlobGc_steps mode uploadTtl batch p : 0 <= span ->
  let r := (runBlobGc mode (p_now p) (Some grace) uploadTtl batch (p_db p) (p_files p)).2 in
  exists sel rem, Reaches p (p <| p_db := r.1 |> <| p_files := r.2 |> <| p_selected := sel |> <| p_removing := rem |>).
Proof.
  intros Hspan. unfold runBlobGc. destruct mode; [exists (p_selected p), (p_removing p); by destruct p; apply PHere| |]; cbn [default from_option Datatypes.id];
    set (limit := default DEFAULT_BATCH batch); set (cutoff := p_now p - _);
    pose (p1 := p <| p_db := (releaseTerminalQueueRefs (p_db p)).1 |>); pose (p2 := p1 <| p_db := (expireUploadRefs cutoff (p_db p1)).1 |>);
    pose proof (preaches_one _ _ (PRelease patience span grace p)) as H1; pose proof (preaches_one _ _ (PExpire patience span grace cutoff p1)) as H2;
    pose proof (markDoomed_steps limit p2 Hspan) as H3; pose proof (preaches_trans _ _ _ H1 (preaches_trans _ _ _ H2 H3)) as H4; cbn in H4 |- *;
    destruct (markDoomed _ _ _) as [db doomed]; cbn in H4 |- *.
  - exists (p_selected p), (p_removing p). exact H4.
  - pose (p3 := p2 <| p_db := db |>). destruct (sweepDoomed_steps limit p3) as (sel & rem & H5). exists sel, rem. exact (preaches_trans _ _ _ H4 H5).
Qed.

(** C15: no body is lost to the collector.  Whatever the order in which writers read the ledger, write files and
    commit, letters are taken, closed, put off and cancelled, messages are copied and deleted, and the
    collector releases, expires, dooms, selects, sweeps and removes: when a writer commits within
    [patience] of its reading, the collector dooms within [span] of reading its clock, the two
    together are no longer than the grace period, and a letter is put off only while it is in flight,
    then at every moment each reference leads to a body: the
    ledger's generation is there, and its content has the hash that names it.  In particular every letter
    that is still to be sent can be read.  A whole run of [runBlobGc], in any mode, and of [putBlob] is a sequence of these
    steps, so that both hold behind it too. *)
Theorem blob_gc_safe p0 p : 0 <= span -> patience + span <= grace -> Fresh p0 -> Reaches p0 p ->
  (forall f, f ∈ blob_refs (p_db p) -> exists c, readBlob (p_db p) (p_files p) (rf_blobId f) = Some c /\ blobHash c = rf_blobId f) /\
  (forall r, r ∈ mta_queue (p_db p) -> isPending r -> exists c, readBlob (p_db p) (p_files p) (q_blobId r) = Some c /\ blobHash c = q_blobId r) /\
  (forall mode uploadTtl batch, let r := (runBlobGc mode (p_now p) (Some grace) uploadTtl batch (p_db p) (p_files p)).2 in
     exists sel rem, Reaches p0 (p <| p_db := r.1 |> <| p_files := r.2 |> <| p_selected := sel |> <| p_removing := rem |>)) /\
  (forall content g fs, putBlob (p_db p) content (p_files p) = Some (g, fs) ->
     Reaches p0 (p <| p_files := fs |> <| p_writers ::= cons (mkWriter content g (p_now p) true) |>)).
Proof.
  intros H0 Hspan (E1 & E2 & E3 & E4 & E5 & E6 & E7) Hr. assert (Hinv : GcInv p).
  { induction Hr as [|q q' _ IH Hs]; [|by eapply pstep_inv]. unfold GcInv. rewrite E1, E2, E3, E4, E5, E6, E7. split; split; try (by intros; set_solver); try constructor. }
  split_and!.
  - intros f. by apply read_current.
  - intros r Hin Hp. destruct Hinv as [HL HR]. destruct (ri_pending _ _ _ HR r Hin Hp) as (f & Hf & _ & _ & <-). by apply read_current.
  - intros mode up batch. destruct (runBlobGc_steps mode up batch p H0) as (sel & rem & Hg). exists sel, rem. by eapply preaches_trans.
  - intros content g fs Hput. eapply preaches_trans; [done | by apply putBlob_steps].
Qed.
End Spec.

(** ** Examples *)

Section Examples.
#[local] Existing Instance toyCrypto.

Definition body : bytes := js "Hi".
Definition bodyId : jsstr := blobHash body.
Definition emptyDb : Db := mkDb [] [] [] [] [] [] [] [].
Definition start : Pool := mkPool 0 emptyDb ∅ [] [] [].

Definition theWriter (written : bool) : Writer := mkWriter body 0 0 written.
Definition theLetter (s : QueueStatus) : QueueRow := mkRow (js "1") (js "t1") None None bodyId (js "a@b.example") (js "v") (js "c@d.example") (js "d.example") s 0 0 None None 0 None None None None None.
Definition theRef : BlobRef := mkRef bodyId [] RefQueue (js "1") 0.
Definition stored : Db := mkDb [theLetter Queued] [] [] [] [] [] [mkBlob bodyId 2 Live 0 None 0] [theRef].
Definition files0 : Files := {[ (bodyId, 0) := body ]}.

Lemma files0_put : fsPut body 0 ∅ = Some files0.
Proof.
  unfold fsPut, blobPath. assert (isBlobId (blobHash body) = true) as -> by (vm_compute; reflexivity). cbn [andb Z.leb Z.compare fmap option_fmap option_map]. unfold files0, bodyId.
  by rewrite insert_empty.
Qed.

(** A letter is written and queued; it is readable. *)
Lemma blob_gc_safe_witness : (exists r, r ∈ mta_queue stored /\ isPending r) /\
  (forall f, f ∈ blob_refs stored -> exists c, readBlob stored files0 (rf_blobId f) = Some c /\ blobHash c = rf_blobId f) /\
  (forall r, r ∈ mta_queue stored -> isPending r -> exists c, readBlob stored files0 (q_blobId r) = Some c /\ blobHash c = q_blobId r) /\
  (forall mode uploadTtl batch, let r := (runBlobGc mode 0 (Some 100) uploadTtl batch stored files0).2 in
     exists sel rem, preaches 10 10 100 start (mkPool 0 r.1 r.2 [] sel rem)) /\
  (forall content g fs, putBlob stored content files0 = Some (g, fs) -> preaches 10 10 100 start (mkPool 0 stored fs [mkWriter content g 0 true] [] [])).
Proof.
  split; [exists (theLetter Queued); split; [left|by left]|]. apply (blob_gc_safe 10 10 100 start (mkPool 0 stored files0 [] [] [])); [lia|lia|by repeat split|].
  eapply (PNext _ _ _ _ (mkPool 0 emptyDb files0 [theWriter true] [] [])).
  - eapply (PNext _ _ _ _ (mkPool 0 emptyDb ∅ [theWriter false] [] [])).
    + eapply PNext; [apply PHere|]. exact (PRead 10 10 100 body start).
    + exact (PWrite 10 10 100 (theWriter false) [] (mkPool 0 emptyDb ∅ [theWriter false] [] []) files0 (Permutation_refl _) files0_put).
  - refine (PCommit 10 10 100 (theWriter true) [] 2 [theLetter Queued] [theRef] (mkPool 0 emptyDb files0 [theWriter true] [] []) stored _ (Permutation_refl _) eq_refl _ _ _ _).
    + unfold timely. cbn. lia.
    + repeat constructor.
    + repeat constructor. exists theRef. split; [left|done].
    + vm_compute. reflexivity.
Defined.

Definition collect (mode : BlobGcMode) (now : Z) (d : Db * Files) : Db * Files := (runBlobGc mode now None None None d.1 d.2).2.

(** ** Gaps *)

(** A letter that was given up is terminal for the collector, but not for the administrator: after its
    body was swept it can be queued again, and then has none. *)
Example retry_after_sweep_loses :
  let swept := collect GcSweep (DEFAULT_GRACE_MS + 2) (collect GcMark 1 (mkDb [theLetter Bounced] [] [] [] [] [] (blobs stored) [theRef], files0)) in
  let db := (queueRetry (js "t1") (Some (js "1")) (DEFAULT_GRACE_MS + 3) swept.1).2 in
  map q_status (mta_queue db) = [Queued] /\ readBlob db swept.2 bodyId = None.
Proof. vm_compute. done. Qed.

(** A writer that takes longer than the grace period between reading the ledger and committing revives a
    generation whose file is gone. *)
Example slow_writer_loses :
  let doomed := collect GcMark 1 (mkDb [] [] [] [] [] [] (blobs stored) [], files0) in
  match putBlob (mkDb [] [] [] [] [] [] (blobs stored) []) body files0 with
  | Some (g, fs) =>
      let swept := collect GcSweep (DEFAULT_GRACE_MS + 2) (doomed.1, fs) in
      match batch (commitStmts (mkWriter body g 0 true) 2 (DEFAULT_GRACE_MS + 3) [theLetter Queued] [theRef]) swept.1 with
      | Some (db, _) => map bl_status (blobs db) = [Live] /\ readBlob db swept.2 bodyId = None
      | None => False
      end
  | None => False
  end.
Proof. vm_compute. done. Qed.
End Examples.
