(* ===== verification/ImapFetch.v ===== *)
(** * FETCH items and their data (packages/proto-imap/src/fetch-items.ts, fetch-format.ts)

    What a client may ask of a message and the wire text of the answer: envelope, structure, sections
    and decoded parts, over the parser of messages and the tree of parts.  Wire text has one unit per
    byte.  Numbers of the client are doubles. *)

From S2P Require Import Prelude JsString JsNumber Loop Text Scram Hash JsDate MimeEncoding MimeHeaders MimeAddress MimeFields MimeHtml MimeBody MimeStructure MimeMessage.
From S2P Require Import ListMatch ImapReader ImapParser.

(** ** Printing a number *)

(** The multiple of [10 ^ (e - k)] next to the [e]-digit double [v] that still reads as [v]. *)
Definition nearDigits (v : Z) (k : nat) : option Z :=
  let p := 10 ^ Z.max 0 (len (numToString v) - Z.of_nat k) in
  let lo := v / p * p in
  let hi := lo + p in
  let reads z := match toDouble z 1 with NumInt d => d =? v | _ => false end in
  match reads lo, reads hi with
  | true, true => Some (if v - lo <? hi - v then lo else if hi - v <? v - lo then hi else if Z.even (v / p) then lo else hi)
  | true, false => Some lo
  | false, true => Some hi
  | false, false => None
  end.

(** The shortest decimal that reads as [v]. *)
Definition shortestDecimal (v : Z) : Z := default v (head (omap (nearDigits v) (seq 1 17))).

Fixpoint dropZeros (s : jsstr) : jsstr :=
  match s with
  | [] => []
  | c :: r => match dropZeros r with [] => if c =? 48 then [] else [c] | r' => c :: r' end
  end.

(** [String(n)] for a double that is an integer from 0 on. *)
Definition numText (n : JsNum) : jsstr :=
  match n with
  | NumInt v =>
      let s := numToString (shortestDecimal v) in
      if v <? 10 ^ 21 then s
      else match s with
           | [] => []
           | d :: r => d :: (match dropZeros r with [] => [] | f => DOT :: f end) ++ js "e+" ++ numToString (len r)
           end
  | _ => js "Infinity"
  end.

(** ** Items *)

Inductive SectionSub := SubHeader | SubHeaderFields | SubHeaderFieldsNot | SubText | SubMime.

Record SectionSpec := mkSpec { path : list JsNum; sub : option SectionSub; fields : list jsstr }.

Definition subName (s : SectionSub) : jsstr :=
  match s with
  | SubHeader => js "HEADER" | SubHeaderFields => js "HEADER.FIELDS" | SubHeaderFieldsNot => js "HEADER.FIELDS.NOT"
  | SubText => js "TEXT" | SubMime => js "MIME"
  end.

Record Partial := mkPartial { p_start : JsNum; p_count : JsNum }.

Inductive FetchItem :=
| FFlags | FUid | FModseq | FInternaldate | FSavedate | FEmailid | FThreadid | FRfc822size | FEnvelope | FBody | FBodystructure
| FSection (peek : bool) (spec : SectionSpec) (partial : option Partial) (label : jsstr)
| FBinary (peek : bool) (bpath : list JsNum) (partial : option Partial) (label : jsstr)
| FBinarySize (bpath : list JsNum) (label : jsstr).

Definition MACROS : list (jsstr * list FetchItem) :=
  [(js "ALL", [FFlags; FInternaldate; FRfc822size; FEnvelope]);
   (js "FAST", [FFlags; FInternaldate; FRfc822size]);
   (js "FULL", [FFlags; FInternaldate; FRfc822size; FEnvelope; FBody])].

Definition wholeSpec : SectionSpec := {| path := []; sub := None; fields := [] |}.
Definition rootSpec (s : SectionSub) : SectionSpec := {| path := []; sub := Some s; fields := [] |}.

(** The items that are one word. *)
Definition WORD_ITEMS : list (jsstr * FetchItem) :=
  [(js "FLAGS", FFlags); (js "UID", FUid); (js "MODSEQ", FModseq); (js "INTERNALDATE", FInternaldate); (js "SAVEDATE", FSavedate);
   (js "EMAILID", FEmailid); (js "THREADID", FThreadid); (js "RFC822.SIZE", FRfc822size); (js "ENVELOPE", FEnvelope); (js "BODY", FBody);
   (js "BODYSTRUCTURE", FBodystructure);
   (js "RFC822", FSection false wholeSpec None (js "RFC822"));
   (js "RFC822.HEADER", FSection true (rootSpec SubHeader) None (js "RFC822.HEADER"));
   (js "RFC822.TEXT", FSection false (rootSpec SubText) None (js "RFC822.TEXT"))].

(** [(<(\d+)\.(\d+)>)?$]: [None] when the rest is something else. *)
Definition partialTail (s : jsstr) : option (option Partial) :=
  match s with
  | [] => Some None
  | 60 :: r =>
      match spanDigits r with
      | ((_ :: _) as a, 46 :: r') =>
          match spanDigits r' with
          | ((_ :: _) as b, [62]) => Some (Some {| p_start := jsNumber a; p_count := jsNumber b |})
          | _ => None
          end
      | _ => None
      end
  | _ => None
  end.

(** The word, in any case, a bracket up to the first closing one, and [partialTail]. *)
Definition matchBracket (word text : jsstr) : option (jsstr * option Partial) :=
  if startsWithI word text then
    match drop (length word) text with
    | 91 :: r =>
        i ← indexOf 93 r;
        p ← partialTail (drop (S i) r);
        Some (take i r, p)
    | _ => None
    end
  else None.

Definition isPartNumber (seg : jsstr) : bool := match seg with c :: r => (49 <=? c) && (c <=? 57) && forallb isDigit r | [] => false end.

(** The numbers in front, and the other segments. *)
Fixpoint spanPath (segs : list jsstr) : list JsNum * list jsstr :=
  match segs with
  | [] => ([], [])
  | s :: r => if isPartNumber s then let '(p, r') := spanPath r in (jsNumber s :: p, r') else ([], segs)
  end.

Definition parseSectionSpec (inner : jsstr) (fields : option (list jsstr)) : option SectionSpec :=
  match inner with
  | [] => match fields with None => Some wholeSpec | Some _ => None end
  | _ =>
      let '(path, segs) := spanPath (splitOn DOT inner) in
      let rest := toUpperCase (joinWith [DOT] segs) in
      let plain s := match fields with None => Some {| path := path; sub := s; fields := [] |} | Some _ => None end in
      let listed s := match fields with Some ((_ :: _) as fs) => Some {| path := path; sub := Some s; fields := map toUpperCase fs |} | _ => None end in
      match rest with
      | [] => match path with [] => None | _ => plain None end
      | _ =>
          if rest === js "HEADER" then plain (Some SubHeader)
          else if rest === js "TEXT" then plain (Some SubText)
          else if rest === js "MIME" then match path with [] => None | _ => plain (Some SubMime) end
          else if rest === js "HEADER.FIELDS" then listed SubHeaderFields
          else if rest === js "HEADER.FIELDS.NOT" then listed SubHeaderFieldsNot
          else None
      end
  end.

Definition parseBinaryPath (inner : jsstr) : option (list JsNum) :=
  match inner with
  | [] => Some []
  | _ => mapM (fun seg => if isPartNumber seg then Some (jsNumber seg) else None) (splitOn DOT inner)
  end.

Definition startLabel (p : option Partial) : jsstr := match p with Some p => [60] ++ numText (p_start p) ++ [62] | None => [] end.

(** What stands between the brackets of the answer. *)
Definition sectionLabel (spec : SectionSpec) : jsstr :=
  let inner := joinWith [DOT] (map numText (path spec)) in
  match sub spec with
  | None => inner
  | Some s =>
      (match inner with [] => [] | _ => inner ++ [DOT] end) ++ subName s
      ++ (match fields spec with [] => [] | fs => js " (" ++ joinWith [SP] fs ++ js ")" end)
  end.

Definition binaryItem (which : jsstr) (inner : jsstr) (partial : option Partial) : option FetchItem :=
  p ← parseBinaryPath inner;
  let label := joinWith [DOT] (map numText p) in
  if which === js "BINARY.SIZE" then
    match partial with
    | Some _ => None
    | None => Some (FBinarySize p (js "BINARY.SIZE[" ++ label ++ js "]"))
    end
  else Some (FBinary (which === js "BINARY.PEEK") p partial (js "BINARY[" ++ label ++ js "]" ++ startLabel partial)).

Definition bodyItem (peek : bool) (inner : jsstr) (partial : option Partial) (fields : option (list jsstr)) : option FetchItem :=
  spec ← parseSectionSpec inner fields;
  Some (FSection peek spec partial (js "BODY[" ++ sectionLabel spec ++ js "]" ++ startLabel partial)).

(** The first of the words that opens a bracket. *)
Definition matchWords (words : list jsstr) (text : jsstr) : option (jsstr * jsstr * option Partial) :=
  head (omap (fun w => '(inner, p) ← matchBracket w text; Some (w, inner, p)) words).

(** The part behind the words and macros. *)
Definition parseBracketItem (text : jsstr) (fields : option (list jsstr)) : option FetchItem :=
  match matchWords [js "BINARY"; js "BINARY.PEEK"; js "BINARY.SIZE"] text with
  | Some (which, inner, p) => match fields with Some _ => None | None => binaryItem which inner p end
  | None =>
      '(which, inner, p) ← matchWords [js "BODY"; js "BODY.PEEK"] text;
      bodyItem (which === js "BODY.PEEK") inner p fields
  end.

(** A macro is a list of items. *)
Definition parseSingleItem (text : jsstr) (fields : option (list jsstr)) : option (FetchItem + list FetchItem) :=
  let upper := toUpperCase text in
  match fields with
  | None =>
      match mapGet upper MACROS, mapGet upper WORD_ITEMS with
      | Some l, _ => Some (inr l)
      | None, Some it => Some (inl it)
      | None, None => inl <$> parseBracketItem text None
      end
  | Some _ => inl <$> parseBracketItem text fields
  end.

(** A section cut at its list of fields takes three values. *)
Fixpoint itemsLoop (flat : list ImapValue) (items : list FetchItem) : option (list FetchItem) :=
  match flat with
  | [] => Some items
  | v :: r =>
      text ← valueText v;
      if bool_decide (91 ∈ text) && negb (bool_decide (93 ∈ text)) then
        match r with
        | VList fs :: close :: r' =>
            closeText ← valueText close;
            match closeText with
            | 93 :: tail =>
                fields ← mapM valueText fs;
                match parseSingleItem (text ++ [93] ++ tail) (Some fields) with
                | Some (inl it) => itemsLoop r' (items ++ [it])
                | _ => None
                end
            | _ => None
            end
        | _ => None
        end
      else
        match parseSingleItem text None with
        | Some (inl it) => itemsLoop r (items ++ [it])
        | Some (inr l) => itemsLoop r (items ++ l)
        | None => None
        end
  end.

Definition parseFetchItems (values : list ImapValue) : option (list FetchItem) :=
  let flat := match values with [VList items] => items | _ => values end in
  match flat with [] => None | _ => itemsLoop flat [] end.

Example fetch_items_example :
  parseFetchItems [VList [VAtom (js "uid"); VAtom (js "BODY.PEEK[1.HEADER.FIELDS"); VList [VAtom (js "From")]; VAtom (js "]<0.9>"); VAtom (js "FAST")]]
  = Some [FUid; FSection true {| path := [NumInt 1]; sub := Some SubHeaderFields; fields := [js "FROM"] |}
                  (Some {| p_start := NumInt 0; p_count := NumInt 9 |}) (js "BODY[1.HEADER.FIELDS (FROM)]<0>");
          FFlags; FInternaldate; FRfc822size].
Proof. vm_compute. reflexivity. Qed.

(** ** The wire *)

(** [out[i] = wire.charCodeAt(i) & 0xff] *)
Definition wireToBytes (wire : jsstr) : bytes := map (fun c => Z.land c 255) wire.

Definition literalWire (bs : bytes) : jsstr := [123] ++ numToString (len bs) ++ js "}" ++ crlf ++ bs.

Definition binaryLiteralWire (bs : bytes) : jsstr :=
  (if bool_decide (0 ∈ bs) then [126] else []) ++ [123] ++ numToString (len bs) ++ js "}" ++ crlf ++ bs.

Definition quotedSafe (s : jsstr) : bool := forallb (fun c => (32 <=? c) && (c <=? 126)) s.

Definition nstring (value : option jsstr) : jsstr :=
  match value with
  | None => js "NIL"
  | Some v =>
      if quotedSafe v && negb (bool_decide (34 ∈ v)) && negb (bool_decide (92 ∈ v)) then [34] ++ v ++ [34]
      else if quotedSafe v then [34] ++ flat_map quoteUnit v ++ [34]
      else literalWire (utf8Encode v)
  end.

(** ** Dates *)

Definition MONTHS : list jsstr :=
  [js "Jan"; js "Feb"; js "Mar"; js "Apr"; js "May"; js "Jun"; js "Jul"; js "Aug"; js "Sep"; js "Oct"; js "Nov"; js "Dec"].

(** [Date.UTC(y, m, d, ...)] for a month of the year: the years 0 to 99 are those of 1900. *)
Definition dateUtc (y m d h mi s : Z) : Z :=
  let y := if (0 <=? y) && (y <=? 99) then 1900 + y else y in
  dayFromCivil y m d * msPerDay + h * 3600000 + mi * 60000 + s * 1000.

(** Exactly [n] digits. *)
Definition takeDigits (n : nat) (s : jsstr) : option (Z * jsstr) :=
  let d := take n s in
  if (length d =? n)%nat && forallb isDigit d then Some (digitsVal d, drop n s) else None.

Definition expectUnit (c : Z) (s : jsstr) : option jsstr :=
  match s with x :: r => if x =? c then Some r else None | [] => None end.

Definition isLetter (c : Z) : bool := ((65 <=? c) && (c <=? 90)) || ((97 <=? c) && (c <=? 122)).

(** [(\d{1,2})-([A-Za-z]{3})-(\d{4})] and the rest. *)
Definition dateText (s : jsstr) : option (Z * jsstr * Z * jsstr) :=
  let '(d, r) := spanDigits s in
  if (0 <? length d)%nat && (length d <=? 2)%nat then
    r ← expectUnit 45 r;
    let mon := take 3 r in
    if (length mon =? 3)%nat && forallb isLetter mon then
      r ← expectUnit 45 (drop 3 r);
      '(y, r) ← takeDigits 4 r;
      Some (digitsVal d, mon, y, r)
    else None
  else None.

Definition monthIndex (mon : jsstr) : option Z :=
  Z.of_nat <$> (fst <$> list_find (fun x => toLowerCase x = toLowerCase mon) MONTHS).

Definition parseImapDateTime (s : jsstr) : option Z :=
  '(d, mon, y, r) ← dateText (trimStart s);
  r ← expectUnit 32 r;
  '(h, r) ← takeDigits 2 r; r ← expectUnit 58 r;
  '(mi, r) ← takeDigits 2 r; r ← expectUnit 58 r;
  '(sec, r) ← takeDigits 2 r; r ← expectUnit 32 r;
  '(sign, r) ← (match r with 43 :: r => Some (1, r) | 45 :: r => Some (-1, r) | _ => None end);
  '(oh, r) ← takeDigits 2 r;
  '(om, r) ← takeDigits 2 r;
  match r with
  | [] => m ← monthIndex mon; Some (dateUtc y m d h mi sec - sign * (oh * 60 + om) * 60000)
  | _ => None
  end.

Definition pad (n : Z) : jsstr := padStart0 2 (numToString n).

Definition formatInternalDate (epochMs : Z) : jsstr :=
  match newDate epochMs with
  | Some t =>
      pad (utcDate t) ++ js "-" ++ default (js "undefined") (MONTHS !! Z.to_nat (utcMonth t)) ++ js "-" ++ numToString (utcFullYear t) ++ js " "
      ++ pad (utcHours t) ++ js ":" ++ pad (utcMinutes t) ++ js ":" ++ pad (utcSeconds t) ++ js " +0000"
  | None => js "NaN-undefined-NaN NaN:NaN:NaN +0000"
  end.

Example internal_date_example :
  formatInternalDate 1767240896000 = js "01-Jan-2026 04:14:56 +0000" /\
  parseImapDateTime (js " 1-jan-2026 13:14:56 +0900") = Some 1767240896000.
Proof. split; vm_compute; reflexivity. Qed.

(** ** Envelopes and structures *)

Definition addr (a : ParsedAddress) : jsstr :=
  let '(mailbox, host) := match lastIndexOf 64 (email a) with
                          | None => (email a, None)
                          | Some at_ => (take at_ (email a), Some (drop (S at_) (email a)))
                          end in
  js "(" ++ nstring (a_name a) ++ js " NIL " ++ nstring (Some mailbox) ++ js " " ++ nstring host ++ js ")".

Definition addrList (l : list ParsedAddress) : jsstr :=
  match l with [] => js "NIL" | _ => js "(" ++ flat_map addr l ++ js ")" end.

(** [Object.entries]: the keys that are array indices come first, in their order. *)
Definition isIndexKey (k : jsstr) : bool :=
  isDigits k && ((k === js "0") || negb (startsWith [48] k)) && (digitsVal k <? 4294967295).

Definition objectEntries (params : Params) : Params :=
  sortBy (fun kv => digitsVal kv.1) (List.filter (fun kv => isIndexKey kv.1) params) ++ List.filter (fun kv => negb (isIndexKey kv.1)) params.

Definition paramsList (params : Params) : jsstr :=
  match objectEntries params with
  | [] => js "NIL"
  | entries => js "(" ++ joinWith [SP] (map (fun kv => nstring (Some kv.1) ++ [SP] ++ nstring (Some kv.2)) entries) ++ js ")"
  end.

Definition dispositionStr (part : MimePartInfo) : jsstr :=
  match disposition part with
  | None => js "NIL"
  | Some d => js "(" ++ nstring (Some (md_type d)) ++ js " " ++ paramsList (md_params d) ++ js ")"
  end.

Definition isRfc822 (p : MimePartInfo) : bool := (type p === js "message") && (subtype p === js "rfc822").

(** [raw.subarray(from, to)] *)
Definition subarray (raw : bytes) (from to : nat) : bytes := slice raw from to.

Section Format.
Context `{TextDecoders} `{NodeCrypto}.

Definition formatEnvelope (raw : bytes) : jsstr :=
  let m := parseMessage raw in
  let from := addrList (MimeMessage.from m) in
  let orFrom l := match l with [] => from | _ => addrList l end in
  js "(" ++ nstring (firstHeader (headers m) (js "date")) ++ js " " ++ nstring (subject m) ++ js " " ++ from ++ js " "
  ++ orFrom (sender m) ++ js " " ++ orFrom (replyTo m) ++ js " " ++ addrList (to_ m) ++ js " " ++ addrList (cc m) ++ js " " ++ addrList (bcc m) ++ js " "
  ++ nstring (firstHeader (headers m) (js "in-reply-to")) ++ js " "
  ++ nstring ((fun i => js "<" ++ i ++ js ">") <$> messageId m) ++ js ")".

Fixpoint bodyPart (part : MimePartInfo) (ext : bool) (raw : bytes) : jsstr :=
  if type part === js "multipart" then
    let kids := match children part with
                | [] => js "(NIL NIL NIL NIL NIL 0 0)"
                | cs => concat (map (fun c => bodyPart c ext raw) cs)
                end in
    let base := js "(" ++ kids ++ js " " ++ nstring (Some (toUpperCase (subtype part))) in
    if ext then base ++ js " " ++ paramsList (params part) ++ js " " ++ dispositionStr part ++ js " NIL NIL)" else base ++ js ")"
  else
    let common :=
      nstring (Some (toUpperCase (type part))) ++ js " " ++ nstring (Some (toUpperCase (subtype part))) ++ js " " ++ paramsList (params part)
      ++ js " " ++ nstring (contentId part) ++ js " " ++ nstring (description part) ++ js " " ++ nstring (Some (toUpperCase (encoding part)))
      ++ js " " ++ numToString (size part) in
    let typed :=
      match isRfc822 part, children part with
      | true, inner :: _ =>
          common ++ js " " ++ formatEnvelope (subarray raw (bodyStart part) (end_ part)) ++ js " " ++ bodyPart inner ext raw
          ++ js " " ++ numToString (lines part)
      | _, _ => if type part === js "text" then common ++ js " " ++ numToString (lines part) else common
      end in
    if ext then js "(" ++ typed ++ js " NIL " ++ dispositionStr part ++ js " NIL NIL)" else js "(" ++ typed ++ js ")".

Definition formatBodyStructure (raw : bytes) (ext : bool) : jsstr := bodyPart (parseStructure raw) ext raw.

(** ** Sections *)

(** What a path goes through: the message inside a message part. *)
Definition contentOf (node : MimePartInfo) : MimePartInfo * bool :=
  match (if isRfc822 node then children node else []) with c :: _ => (c, false) | [] => (node, true) end.

(** The part, and whether it is the node itself. *)
Definition stepPart (node : MimePartInfo) (n : JsNum) : option (MimePartInfo * bool) :=
  let '(content, same) := contentOf node in
  match n with
  | NumInt k =>
      if type content === js "multipart" then
        (fun c => (c, false)) <$> (if 1 <=? k then children content !! Z.to_nat (k - 1) else None)
      else if k =? 1 then Some (content, same) else None
  | _ => None
  end.

(** The part, and whether it is the root object. *)
Fixpoint resolvePath (node : MimePartInfo) (isRoot : bool) (path : list JsNum) : option (MimePartInfo * bool) :=
  match path with
  | [] => Some (node, isRoot)
  | n :: r => '(node, same) ← stepPart node n; resolvePath node (isRoot && same) r
  end.

(** [text.split(/\r?\n/)] *)
Definition splitLineEnds (text : jsstr) : list jsstr :=
  match rev (splitOn LF text) with
  | [] => []
  | last :: front => map (fun l => if endsWith1 CR l then removelast l else l) (rev front) ++ [last]
  end.

(** The lines kept; a continuation goes with its field. *)
Fixpoint filterLines (wanted : list jsstr) (negate keeping : bool) (ls : list jsstr) : list jsstr :=
  match ls with
  | [] => []
  | l :: r =>
      match l with
      | [] => filterLines wanted negate keeping r
      | c :: _ =>
          if (c =? 32) || (c =? 9) then (if keeping then [l] else []) ++ filterLines wanted negate keeping r
          else
            let keeping := match indexOf 58 l with
                           | None => false
                           | Some colon =>
                               let inList := bool_decide (toUpperCase (trim (take colon l)) ∈ wanted) in
                               if negate then negb inList else inList
                           end in
            (if keeping then [l] else []) ++ filterLines wanted negate keeping r
      end
  end.

Definition filterHeaderFields (headerBytes : bytes) (fields : list jsstr) (negate : bool) : bytes :=
  let out := filterLines (map toUpperCase fields) negate false (splitLineEnds headerBytes) in
  wireToBytes (match out with [] => crlf | _ => joinWith crlf out ++ crlf ++ crlf end).

(** [None] is NIL. *)
Definition extractSection (raw : bytes) (spec : SectionSpec) : option bytes :=
  let root := parseStructure raw in
  match resolvePath root true (path spec) with
  | None => None
  | Some (target, isRoot) =>
      let message :=
        match path spec with
        | [] => Some root
        | _ => if isRoot : bool then Some root else if isRfc822 target then head (children target) else None
        end in
      match sub spec with
      | None => match path spec with [] => Some raw | _ => Some (subarray raw (bodyStart target) (end_ target)) end
      | Some SubHeader => m ← message; Some (subarray raw (start m) (bodyStart m))
      | Some SubText => m ← message; Some (subarray raw (bodyStart m) (end_ m))
      | Some SubMime => match path spec with [] => None | _ => Some (subarray raw (start target) (bodyStart target)) end
      | Some SubHeaderFields => m ← message; Some (filterHeaderFields (subarray raw (start m) (bodyStart m)) (fields spec) false)
      | Some SubHeaderFieldsNot => m ← message; Some (filterHeaderFields (subarray raw (start m) (bodyStart m)) (fields spec) true)
      end
  end.

(** ** Decoded parts *)

Inductive BinaryContent := BinBytes (bs : bytes) | BinUnknownCte.

Definition decodeCte (bs : bytes) (encoding : jsstr) : BinaryContent :=
  let e := toLowerCase (trim encoding) in
  if bool_decide (e ∈ [[]; js "7bit"; js "8bit"; js "binary"]) then BinBytes bs
  else if e === js "base64" then BinBytes (MimeEncoding.base64Decode bs)
  else if e === js "quoted-printable" then BinBytes (quotedPrintableDecode bs)
  else BinUnknownCte.

Definition extractBinary (raw : bytes) (path : list JsNum) : option BinaryContent :=
  let root := parseStructure raw in
  '(target, _) ← resolvePath root true path;
  Some (match decodeCte (subarray raw (bodyStart target) (end_ target)) (encoding target) with
        | BinUnknownCte => BinUnknownCte
        | BinBytes bs =>
            match path with
            | [] => BinBytes (subarray raw (start root) (bodyStart root) ++ bs)
            | _ => BinBytes bs
            end
        end).
End Format.

(** [bytes.subarray(start, start + count)]: both ends are cut at the length, so the rounding of a sum
    above it does not show. *)
Definition atMost (n : JsNum) (l : bytes) : nat := match n with NumInt k => Z.to_nat (Z.min k (len l)) | _ => length l end.

Definition partialBytes (p : option Partial) (bs : bytes) : bytes :=
  match p with
  | None => bs
  | Some p => take (atMost (p_count p) bs) (drop (atMost (p_start p) bs) bs)
  end.

(** The two sections of a message are the message: the header with the empty line, and the text. *)
Lemma fetch_header_text `{TextDecoders} raw :
  exists h b, extractSection raw (rootSpec SubHeader) = Some h /\ extractSection raw (rootSpec SubText) = Some b /\ h ++ b = raw /\
    extractSection raw wholeSpec = Some raw.
Proof.
  destruct (structure_root raw) as (Hw & Hs & He). unfold extractSection. cbn [path sub rootSpec wholeSpec resolvePath mbind option_bind].
  do 2 eexists. split_and!; [done | done | | done]. rewrite Hs, He. unfold subarray, slice. rewrite Nat.sub_0_r, drop_0.
  rewrite (take_ge (drop _ raw)); [apply take_drop|]. rewrite length_drop. lia.
Qed.
