(* ===== verification/ImapSearch.v ===== *)
(** * SEARCH, SORT and THREAD (packages/proto-imap/src/search-criteria.ts, sort-thread.ts)

    The program of a search as a tree, its meaning on one message, and the order of SORT and THREAD.
    Parsing goes by recursion on the arguments, bounded by their size ([search_program_total]: the bound
    is enough); SORT lists the messages in the one order that the criteria allow ([imap_sort_correct]). *)

From S2P Require Import Prelude JsString JsNumber Loop Text Scram Hash JsDate MimeEncoding MimeHeaders MimeAddress MimeFields MimeHtml MimeBody MimeMessage.
From S2P Require Import SequenceSet ListMatch ImapReader ImapParser ImapFetch.

(** ** Search programs *)

Inductive DateOp := OpBefore | OpOn | OpSince.

Inductive SearchKey :=
| KAll
| KNone
| KFlag (flag : jsstr) (negate : bool)
| KLarger (n : JsNum)
| KSmaller (n : JsNum)
| KUid (ranges : list SeqRange)
| KSeq (ranges : list SeqRange)
| KInternalDate (op : DateOp) (ms : Z)
| KSentDate (op : DateOp) (ms : Z)
| KSaveDate (op : DateOp) (ms : Z)
| KHeader (field value : jsstr)
| KText (value : jsstr) (includeHeaders : bool)
| KModseq (n : JsNum)
| KNot (key : SearchKey)
| KOr (a b : SearchKey)
| KAnd (keys : list SearchKey).

Definition FLAG_KEYS : list (jsstr * jsstr) :=
  [(js "ANSWERED", js "\Answered"); (js "DELETED", js "\Deleted"); (js "DRAFT", js "\Draft"); (js "FLAGGED", js "\Flagged"); (js "SEEN", js "\Seen")].

Definition HEADER_SHORTCUTS : list jsstr := [js "FROM"; js "TO"; js "CC"; js "BCC"; js "SUBJECT"].

(** [/^"?(\d{1,2})-([A-Za-z]{3})-(\d{4})"?$/], and midnight UTC of the date. *)
Definition parseSearchDate (s : jsstr) : option Z :=
  '(d, mon, y, r) ← dateText (match s with 34 :: r => r | _ => s end);
  if (r === []) || (r === [34]) then m ← monthIndex mon; Some (dateUtc y m d 0 0 0) else None.

(** [stream.next()] and its text. *)
Definition argText (vs : list ImapValue) : option jsstr * list ImapValue :=
  match vs with [] => (None, []) | v :: r => (valueText v, r) end.

Definition argNumber (vs : list ImapValue) : option JsNum * list ImapValue :=
  let '(t, r) := argText vs in
  (t ← t; if isDigits t then Some (jsNumber t) else None, r).

(** The date keys: which date, and how it is compared. *)
Definition DATE_KEYS : list (jsstr * (Z -> SearchKey)) :=
  [(js "BEFORE", KInternalDate OpBefore); (js "ON", KInternalDate OpOn); (js "SINCE", KInternalDate OpSince);
   (js "SENTBEFORE", KSentDate OpBefore); (js "SENTON", KSentDate OpOn); (js "SENTSINCE", KSentDate OpSince);
   (js "SAVEDBEFORE", KSaveDate OpBefore); (js "SAVEDON", KSaveDate OpOn); (js "SAVEDSINCE", KSaveDate OpSince)].

(** [MODSEQ [entry-name entry-type] n] *)
Definition modseqArg (vs : list ImapValue) : option JsNum * list ImapValue :=
  match argText vs with
  | (None, r) => (None, r)
  | (Some t, r) => if isDigits t then (Some (jsNumber t), r) else argNumber (argText r).2
  end.

(** The keys that take words only: [None] when the word is none of them, [Some (None, _)] when its
    arguments are wrong. *)
Definition flagKey (upper : jsstr) : option SearchKey :=
  if startsWith (js "UN") upper
  then (fun f => KFlag f true) <$> mapGet (drop 2 upper) FLAG_KEYS
  else (fun f => KFlag f false) <$> mapGet upper FLAG_KEYS.

Definition wordKey (upper text : jsstr) (r : list ImapValue) : option SearchKey * list ImapValue :=
  if upper === js "ALL" then (Some KAll, r)
  else if (upper === js "RECENT") || (upper === js "NEW") then (Some KNone, r)
  else if upper === js "OLD" then (Some KAll, r)
  else if (upper === js "KEYWORD") || (upper === js "UNKEYWORD") then
    let '(kw, r) := argText r in ((fun k => KFlag k (upper === js "UNKEYWORD")) <$> kw, r)
  else if upper === js "LARGER" then let '(n, r) := argNumber r in (KLarger <$> n, r)
  else if upper === js "SMALLER" then let '(n, r) := argNumber r in (KSmaller <$> n, r)
  else if upper === js "UID" then let '(set, r) := argText r in (KUid <$> (set ≫= parseSequenceSet), r)
  else match mapGet upper DATE_KEYS with
  | Some key => let '(d, r) := argText r in (key <$> (d ≫= parseSearchDate), r)
  | None =>
      if upper === js "HEADER" then
        let '(field, r) := argText r in
        let '(value, r) := argText r in
        (f ← field; v ← value; Some (KHeader (toUpperCase f) v), r)
      else if (upper === js "BODY") || (upper === js "TEXT") then
        let '(value, r) := argText r in ((fun v => KText v (upper === js "TEXT")) <$> value, r)
      else if upper === js "MODSEQ" then let '(n, r) := modseqArg r in (KModseq <$> n, r)
      else if bool_decide (upper ∈ HEADER_SHORTCUTS) then
        let '(value, r) := argText r in (KHeader upper <$> value, r)
      else (KSeq <$> parseSequenceSet text, r)
  end.

Definition isCharset (name : option jsstr) : bool :=
  match name with Some n => (n === js "UTF-8") || (n === js "US-ASCII") | None => false end.

(** The leading CHARSET; the error is a charset that is not supported. *)
Definition takeCharset (vs : list ImapValue) : option (list ImapValue) :=
  match argText vs with
  | (Some t, r) =>
      if toUpperCase t === js "CHARSET" then
        let '(cs, r) := argText r in if isCharset (toUpperCase <$> cs) then Some r else None
      else Some vs
  | (None, _) => Some vs
  end.

Definition oneKey (keys : list SearchKey) : Result bool SearchKey :=
  match keys with [] => Err false | [k] => Ok k | _ => Ok (KAnd keys) end.

(** [Err tt] is [null]; the error of a program is [badCharset]. *)
Fixpoint parseKey (fuel : nat) (vs : list ImapValue) : Result unit (SearchKey * list ImapValue) :=
  match fuel with
  | O => Fuel
  | S f =>
      match vs with
      | [] => Err tt
      | VList items :: r =>
          match parseProgram f items with Ok k => Ok (k, r) | Err _ => Err tt | Fuel => Fuel end
      | v :: r =>
          match valueText v with
          | None => Err tt
          | Some text =>
              let upper := toUpperCase text in
              match flagKey upper with
              | Some k => Ok (k, r)
              | None =>
                  if upper === js "NOT" then let* (k, r) := parseKey f r in Ok (KNot k, r)
                  else if upper === js "OR" then
                    let* (a, r) := parseKey f r in
                    let* (b, r) := parseKey f r in Ok (KOr a b, r)
                  else match wordKey upper text r with (Some k, r) => Ok (k, r) | (None, _) => Err tt end
              end
          end
      end
  end
with parseKeys (fuel : nat) (keys : list SearchKey) (vs : list ImapValue) : Result bool SearchKey :=
  match fuel with
  | O => Fuel
  | S f =>
      match vs with
      | [] => oneKey keys
      | _ =>
          match parseKey f vs with
          | Ok (k, r) => parseKeys f (keys ++ [k]) r
          | Err _ => Err false
          | Fuel => Fuel
          end
      end
  end
with parseProgram (fuel : nat) (vs : list ImapValue) : Result bool SearchKey :=
  match fuel with
  | O => Fuel
  | S f => match takeCharset vs with Some vs => parseKeys f [] vs | None => Err true end
  end.

(** The number of values, lists and what is in them. *)
Fixpoint valueSize (v : ImapValue) : nat :=
  match v with
  | VList items => S ((fix all l := match l with [] => O | x :: r => (valueSize x + all r)%nat end) items)
  | _ => 1%nat
  end.

Definition valuesSize (vs : list ImapValue) : nat := sum_list_with valueSize vs.

Definition parseSearchProgram (vs : list ImapValue) : Result bool SearchKey := parseProgram (3 * valuesSize vs + 3) vs.

(** ** The meaning of a key *)

Fixpoint searchNeedsRaw (key : SearchKey) : bool :=
  match key with
  | KSentDate _ _ | KHeader _ _ | KText _ _ => true
  | KNot k => searchNeedsRaw k
  | KOr a b => searchNeedsRaw a || searchNeedsRaw b
  | KAnd keys => existsb searchNeedsRaw keys
  | _ => false
  end.

Record SearchMessage := mkSearchMessage {
  s_seq : Z; s_uid : Z; s_flags : list jsstr; s_size : Z; s_internalDateMs : Z; s_saveDateMs : option Z; s_modseq : option Z; s_raw : option bytes }.

Definition dayNum (ms : Z) : Z := ms / 86400000.

Definition dateMatch (op : DateOp) (targetMs valueMs : Z) : bool :=
  match op with
  | OpBefore => dayNum valueMs <? dayNum targetMs
  | OpOn => dayNum valueMs =? dayNum targetMs
  | OpSince => dayNum targetMs <=? dayNum valueMs
  end.

(** [n < z] for a double from digits. *)
Definition numLt (n : JsNum) (z : Z) : bool := match n with NumInt k => k <? z | _ => false end.
(** [z < n] *)
Definition ltNum (z : Z) (n : JsNum) : bool := match n with NumInt k => z <? k | _ => true end.

(** [buffer.toString("utf8")]: unlike a [TextDecoder] it keeps the byte order mark. *)
Definition bufferUtf8 (bs : bytes) : jsstr :=
  let '(st, cs) := utf8Run utf8Init bs in
  flat_map unitsOf (cs ++ match u_needed st with O => [] | S _ => [REPLACEMENT] end).

(** [full.slice(full.search(/\r?\n\r?\n/))], or the empty string. *)
Fixpoint fromBlankLine (s : jsstr) : jsstr :=
  match s with
  | [] => []
  | c :: r =>
      let opt l := match l with x :: l' => if x =? CR then l' else l | [] => l end in
      match opt s with
      | x :: s1 => if x =? LF then match opt s1 with y :: _ => if y =? LF then s else fromBlankLine r | [] => fromBlankLine r end
                   else fromBlankLine r
      | [] => fromBlankLine r
      end
  end.

Section Evaluate.
Context `{TextDecoders} `{NodeCrypto}.

Fixpoint evaluateSearch (key : SearchKey) (msg : SearchMessage) (maxSeq maxUid : Z) : bool :=
  match key with
  | KAll => true
  | KNone => false
  | KFlag flag negate => xorb negate (existsb (fun f => toUpperCase f === toUpperCase flag) (s_flags msg))
  | KLarger n => numLt n (s_size msg)
  | KSmaller n => ltNum (s_size msg) n
  | KUid ranges => matchSequenceSet ranges (s_uid msg) maxUid
  | KSeq ranges => matchSequenceSet ranges (s_seq msg) maxSeq
  | KInternalDate op ms => dateMatch op ms (s_internalDateMs msg)
  | KSaveDate op ms => dateMatch op ms (default (s_internalDateMs msg) (s_saveDateMs msg))
  | KSentDate op ms =>
      match s_raw msg with
      | None => false
      | Some raw => match sentAt (parseMessage raw) with Some t => dateMatch op ms t | None => false end
      end
  | KHeader field value =>
      match s_raw msg with
      | None => false
      | Some raw =>
          let vals := default [] (mapGet (toLowerCase field) (headers (parseMessage raw))) in
          match value with
          | [] => negb (bool_decide (vals = []))
          | _ => existsb (fun h => includes (toLowerCase value) (toLowerCase h)) vals
          end
      end
  | KText value includeHeaders =>
      match s_raw msg with
      | None => false
      | Some raw =>
          let full := toLowerCase (bufferUtf8 raw) in
          includes (toLowerCase value) (if includeHeaders then full else fromBlankLine full)
      end
  | KModseq n => negb (ltNum (default 0 (s_modseq msg)) n)
  | KNot k => negb (evaluateSearch k msg maxSeq maxUid)
  | KOr a b => evaluateSearch a msg maxSeq maxUid || evaluateSearch b msg maxSeq maxUid
  | KAnd keys => forallb (fun k => evaluateSearch k msg maxSeq maxUid) keys
  end.
End Evaluate.

Example search_example :
  parseSearchProgram [VAtom (js "charset"); VAtom (js "utf-8"); VAtom (js "unseen"); VAtom (js "or"); VAtom (js "2:*"); VList [VAtom (js "larger"); VAtom (js "9"); VAtom (js "old")]]
  = Ok (KAnd [KFlag (js "\Seen") true; KOr (KSeq [mkRange (SNum 2) SStar]) (KAnd [KLarger (NumInt 9); KAll])]).
Proof. vm_compute. reflexivity. Qed.

(** ** SORT and THREAD *)

Record ImapSortKeys := mkSortKeys { k_subjectBase : jsstr; k_sentAtMs : Z; k_threadId : jsstr; k_from : jsstr; k_to : jsstr; k_cc : jsstr }.

Inductive SortKeyName := SkArrival | SkCc | SkDate | SkFrom | SkSize | SkSubject | SkTo.

Record SortSpec := mkSortSpec { ss_key : SortKeyName; ss_reverse : bool }.

Definition SORT_KEYS : list (jsstr * SortKeyName) :=
  [(js "ARRIVAL", SkArrival); (js "CC", SkCc); (js "DATE", SkDate); (js "FROM", SkFrom); (js "SIZE", SkSize); (js "SUBJECT", SkSubject); (js "TO", SkTo)].

Record SortItem := mkSortItem { num : Z; seq_ : Z; uid_ : Z; keys : ImapSortKeys }.

Fixpoint sortSpecLoop (items : list ImapValue) (out : list SortSpec) (reverse : bool) : option (list SortSpec) :=
  match items with
  | [] => if reverse then None else match out with [] => None | _ => Some out end
  | item :: r =>
      t ← toUpperCase <$> valueText item;
      if t === js "REVERSE" then if reverse then None else sortSpecLoop r out true
      else k ← mapGet t SORT_KEYS; sortSpecLoop r (out ++ [{| ss_key := k; ss_reverse := reverse |}]) false
  end.

Definition parseSortSpec (items : list ImapValue) : option (list SortSpec) := sortSpecLoop items [] false.

Definition cmpStr (a b : jsstr) : Z := if strLt a b then -1 else if strLt b a then 1 else 0.

(** The last entry of a uid counts. *)
Abbreviation SortMeta := (list (Z * (Z * Z))).
Definition metaGet (meta : SortMeta) (u : Z) : option (Z * Z) := snd <$> List.find (fun e => e.1 =? u) meta.
Definition metaDate (meta : SortMeta) (a : SortItem) : Z := default 0 (fst <$> metaGet meta (uid_ a)).
Definition metaSize (meta : SortMeta) (a : SortItem) : Z := default 0 (snd <$> metaGet meta (uid_ a)).

(** [a.keys.sentAtMs || ...] *)
Definition sentOrArrival (meta : SortMeta) (a : SortItem) : Z :=
  if k_sentAtMs (keys a) =? 0 then metaDate meta a else k_sentAtMs (keys a).

Definition cmpBy (meta : SortMeta) (key : SortKeyName) (a b : SortItem) : Z :=
  match key with
  | SkArrival => metaDate meta a - metaDate meta b
  | SkSize => metaSize meta a - metaSize meta b
  | SkDate => sentOrArrival meta a - sentOrArrival meta b
  | SkSubject => cmpStr (k_subjectBase (keys a)) (k_subjectBase (keys b))
  | SkFrom => cmpStr (k_from (keys a)) (k_from (keys b))
  | SkTo => cmpStr (k_to (keys a)) (k_to (keys b))
  | SkCc => cmpStr (k_cc (keys a)) (k_cc (keys b))
  end.

Fixpoint compareItems (meta : SortMeta) (spec : list SortSpec) (a b : SortItem) : Z :=
  match spec with
  | [] => seq_ a - seq_ b
  | s :: spec' =>
      let r := cmpBy meta (ss_key s) a b in
      if r =? 0 then compareItems meta spec' a b else if ss_reverse s then - r else r
  end.

(** [[...l].sort(cmp)], the stable sort by a comparator. *)
Section SortCmp.
Context {A : Type} (cmp : A -> A -> Z).

Fixpoint insertCmp (x : A) (l : list A) : list A :=
  match l with
  | [] => [x]
  | y :: l' => if cmp x y <? 0 then x :: l else y :: insertCmp x l'
  end.

Definition sortCmp (l : list A) : list A := fold_left (fun acc x => insertCmp x acc) l [].
End SortCmp.

Definition formatSortLine (hits : list SortItem) (spec : list SortSpec) (meta : SortMeta) : jsstr :=
  js "* SORT" ++ match sortCmp (compareItems meta spec) hits with
                 | [] => []
                 | sorted => [SP] ++ joinWith [SP] (map (fun h => numToString (num h)) sorted)
                 end.

(** A message without a thread is alone; no thread id starts with NUL. *)
Definition threadKey (h : SortItem) : jsstr :=
  match k_threadId (keys h) with [] => 0 :: js "solo-" ++ numToString (uid_ h) | t => t end.

Definition threadGroups (hits : list SortItem) : list (jsstr * list SortItem) :=
  fold_left (fun groups h => mapSet (threadKey h) (default [] (mapGet (threadKey h) groups) ++ [h]) groups) hits [].

Definition cmpSent (a b : SortItem) : Z :=
  let r := k_sentAtMs (keys a) - k_sentAtMs (keys b) in if r =? 0 then seq_ a - seq_ b else r.

Definition cmpGroups (ordered : bool) (a b : list SortItem) : Z :=
  match a, b with
  | x :: _, y :: _ =>
      let r := if ordered then cmpStr (k_subjectBase (keys x)) (k_subjectBase (keys y)) else 0 in
      if r =? 0 then cmpSent x y else r
  | _, _ => 0
  end.

Definition formatThreadLine (hits : list SortItem) (algorithm : jsstr) : jsstr :=
  let groups := map (fun g => sortCmp cmpSent g.2) (threadGroups hits) in
  let ordered := sortCmp (cmpGroups (algorithm === js "ORDEREDSUBJECT")) groups in
  let body := flat_map (fun g => js "(" ++ joinWith [SP] (map (fun h => numToString (num h)) g) ++ js ")") ordered in
  js "* THREAD" ++ match body with [] => [] | _ => [SP] ++ body end.

(** ** The parser comes to an end *)

Lemma valueSize_list items : valueSize (VList items) = S (valuesSize items).
Proof. done. Qed.

Lemma valueSize_pos v : (1 <= valueSize v)%nat.
Proof. destruct v; cbn; lia. Qed.

Lemma valuesSize_cons v r : valuesSize (v :: r) = (valueSize v + valuesSize r)%nat.
Proof. done. Qed.

(** What is left is not more. *)
Lemma argText_size vs : (valuesSize (argText vs).2 <= valuesSize vs)%nat.
Proof. destruct vs; cbn; [done|]. unfold valuesSize. cbn. lia. Qed.

Lemma argNumber_size vs : (valuesSize (argNumber vs).2 <= valuesSize vs)%nat.
Proof. unfold argNumber. pose proof (argText_size vs). by destruct (argText vs). Qed.

Lemma modseqArg_size vs : (valuesSize (modseqArg vs).2 <= valuesSize vs)%nat.
Proof.
  unfold modseqArg. pose proof (argText_size vs) as H1. destruct (argText vs) as [[t|] r]; [|done]. cbn [snd] in H1. destruct (isDigits t); [done|].
  pose proof (argText_size r) as H2. destruct (argText r) as [o r2]. pose proof (argNumber_size r2). cbn [fst snd] in *. lia.
Qed.

Lemma wordKey_size upper text r : (valuesSize (wordKey upper text r).2 <= valuesSize r)%nat.
Proof.
  unfold wordKey. pose proof (argText_size r) as H1. pose proof (argNumber_size r) as H2. pose proof (modseqArg_size r) as H3.
  destruct (argText r) as [o r1]. destruct (argNumber r) as [n r2]. destruct (modseqArg r) as [m r3]. pose proof (argText_size r1) as H4. destruct (argText r1) as [o1 r4].
  cbn [fst snd] in *. repeat case_match; cbn [snd]; lia.
Qed.

Lemma takeCharset_size vs vs' : takeCharset vs = Some vs' -> (valuesSize vs' <= valuesSize vs)%nat.
Proof.
  unfold takeCharset. pose proof (argText_size vs) as H1. destruct (argText vs) as [[t|] r]; [|by intros [= <-]]. destruct (_ === _); [|by intros [= <-]].
  pose proof (argText_size r) as H2. destruct (argText r) as [cs r2]. destruct (isCharset _); [|done]. intros [= <-]. cbn [fst snd] in *. lia.
Qed.

Lemma parseKey_size f : forall vs k r, parseKey f vs = Ok (k, r) -> (valuesSize r < valuesSize vs)%nat.
Proof.
  induction f as [|f IH]; intros vs k r; [done|]. destruct vs as [|v vs]; [done|]. rewrite valuesSize_cons. pose proof (valueSize_pos v) as Hv. cbn [parseKey].
  assert (Hword : match valueText v with
    | None => Err tt
    | Some text =>
        let upper := toUpperCase text in
        match flagKey upper with
        | Some k => Ok (k, vs)
        | None =>
            if upper === js "NOT" then let* (k, r) := parseKey f vs in Ok (KNot k, r)
            else if upper === js "OR" then let* (a, r) := parseKey f vs in let* (b, r) := parseKey f r in Ok (KOr a b, r)
            else match wordKey upper text vs with (Some k, r) => Ok (k, r) | (None, _) => Err tt end
        end
    end = Ok (k, r) -> (valuesSize r < valueSize v + valuesSize vs)%nat).
  { destruct (valueText v) as [text|]; [|done]. cbv zeta. destruct (flagKey _); [intros [= _ <-]; lia|]. destruct (_ === js "NOT").
    { destruct (parseKey f vs) as [[a r1]| |] eqn:E1; cbn; try done. intros [= _ <-]. specialize (IH _ _ _ E1). lia. }
    destruct (_ === js "OR").
    { destruct (parseKey f vs) as [[a r1]| |] eqn:E1; cbn; try done. destruct (parseKey f r1) as [[b r2]| |] eqn:E2; cbn; try done. intros [= _ <-].
      pose proof (IH _ _ _ E1). pose proof (IH _ _ _ E2). lia. }
    pose proof (wordKey_size (toUpperCase text) text vs) as Hw. destruct (wordKey _ text vs) as [[k1|] r1]; [|done]. intros [= _ <-]. cbn [snd] in Hw. lia. }
  destruct v; try exact Hword. destruct (parseProgram f items); [|done|done]. intros [= _ <-]. lia.
Qed.

Lemma parse_fuel f :
  (forall vs, (3 * valuesSize vs + 1 <= f)%nat -> parseKey f vs <> Fuel) /\
  (forall keys vs, (3 * valuesSize vs + 2 <= f)%nat -> parseKeys f keys vs <> Fuel) /\
  (forall vs, (3 * valuesSize vs + 3 <= f)%nat -> parseProgram f vs <> Fuel).
Proof.
  induction f as [|f (IHk & IHs & IHp)]; [split_and!; intros; lia|]. split_and!.
  - intros vs Hf. destruct vs as [|v vs]; [done|]. rewrite valuesSize_cons in Hf. pose proof (valueSize_pos v). cbn [parseKey].
    destruct v as [t|t|d|items]; cbn [valueText].
    4: { rewrite valueSize_list in Hf. specialize (IHp items ltac:(lia)). by destruct (parseProgram f items). }
    all: cbv zeta; destruct (flagKey _); [done|]; destruct (_ === js "NOT"); [|destruct (_ === js "OR"); [|by destruct (wordKey _ _ _) as [[] ?]]].
    all: specialize (IHk vs ltac:(lia)) as Hk1; destruct (parseKey f vs) as [[a r1]| |] eqn:E1; cbn; try done.
    all: pose proof (parseKey_size _ _ _ _ E1); specialize (IHk r1 ltac:(lia)) as Hk2; destruct (parseKey f r1) as [[b r2]| |]; cbn; done.
  - intros keys vs Hf. cbn [parseKeys]. destruct vs as [|v vs]; [by destruct keys as [|? []]|]. specialize (IHk (v :: vs) ltac:(lia)).
    destruct (parseKey f (v :: vs)) as [[k r]| |] eqn:E; [|done|done]. apply parseKey_size in E. apply IHs. lia.
  - intros vs Hf. cbn [parseProgram]. destruct (takeCharset vs) as [vs'|] eqn:E; [|done]. apply takeCharset_size in E. apply IHs. lia.
Qed.

(** A search program is a tree or an error, whatever the client sends. *)
Lemma search_program_total vs : (exists k, parseSearchProgram vs = Ok k) \/ (exists badCharset, parseSearchProgram vs = Err badCharset).
Proof.
  unfold parseSearchProgram. destruct (parse_fuel (3 * valuesSize vs + 3)) as (_ & _ & Hp). specialize (Hp vs ltac:(lia)).
  destruct (parseProgram _ vs); [left; by eexists | right; by eexists | done].
Qed.

(** ** The order of SORT *)

(** A comparator that orders: it is antisymmetric up to its sign, and transitive. *)
Record CmpOk {A} (cmp : A -> A -> Z) : Prop := {
  cmp_opp : forall a b, Z.sgn (cmp b a) = - Z.sgn (cmp a b);
  cmp_trans : forall a b c, cmp a b <= 0 -> cmp b c <= 0 -> cmp a c <= 0 }.

Definition Before {A} (cmp : A -> A -> Z) (a b : A) : Prop := cmp a b <= 0.

Lemma cmp_flip {A} (cmp : A -> A -> Z) a b : CmpOk cmp -> (cmp b a <= 0 <-> 0 <= cmp a b).
Proof. intros [Ho _]. specialize (Ho a b). lia. Qed.

Lemma cmp_key {A} (f : A -> Z) : CmpOk (fun a b => f a - f b).
Proof. split; intros; lia. Qed.

Lemma cmp_neg {A} (cmp : A -> A -> Z) : CmpOk cmp -> CmpOk (fun a b => - cmp a b).
Proof.
  intros [Ho Ht]. split; [intros a b; specialize (Ho a b); lia|]. intros a b c Hab Hbc. pose proof (Ho a b). pose proof (Ho b c). pose proof (Ho a c).
  specialize (Ht c b a). lia.
Qed.

(** The second comparator decides where the first does not. *)
Lemma cmp_lex {A} (c1 c2 : A -> A -> Z) : CmpOk c1 -> CmpOk c2 -> CmpOk (fun a b => if c1 a b =? 0 then c2 a b else c1 a b).
Proof.
  intros [Ho1 Ht1] [Ho2 Ht2]. split.
  - intros a b. specialize (Ho1 a b). specialize (Ho2 a b). destruct (Z.eqb_spec (c1 b a) 0), (Z.eqb_spec (c1 a b) 0); lia.
  - intros a b c. pose proof (Ho1 a b). pose proof (Ho1 b c). pose proof (Ho1 a c). pose proof (Ht1 a b c). pose proof (Ht1 b c a). pose proof (Ht1 c a b). specialize (Ht2 a b c).
    destruct (Z.eqb_spec (c1 a b) 0), (Z.eqb_spec (c1 b c) 0), (Z.eqb_spec (c1 a c) 0); lia.
Qed.

Lemma strLt_trans a b c : strLt a b = true -> strLt b c = true -> strLt a c = true.
Proof.
  revert b c. induction a as [|x a IH]; intros [|y b] [|z c]; cbn [strLt]; try done. rewrite !orb_true_iff, !andb_true_iff, !Z.ltb_lt, !Z.eqb_eq.
  intros [Hxy|[-> Hab]] [Hyz|[-> Hbc]]; [left; lia | by left | by left | right; split; [done | by eapply IH]].
Qed.

Lemma strLt_irrefl a : strLt a a = false.
Proof. induction a as [|x a IH]; [done|]. cbn. by rewrite Z.ltb_irrefl, Z.eqb_refl, IH. Qed.

Lemma strLt_total a b : strLt a b = true \/ strLt b a = true \/ a = b.
Proof.
  revert b. induction a as [|x a IH]; intros [|y b]; cbn [strLt]; auto. destruct (Z.lt_trichotomy x y) as [H|[->|H]].
  - left. by rewrite (proj2 (Z.ltb_lt x y)).
  - rewrite Z.ltb_irrefl, Z.eqb_refl. cbn. destruct (IH b) as [?|[?| ->]]; auto.
  - right. left. by rewrite (proj2 (Z.ltb_lt y x)).
Qed.

Lemma cmpStr_spec a b : cmpStr a b = if strLt a b then -1 else if bool_decide (a = b) then 0 else 1.
Proof.
  unfold cmpStr. destruct (strLt a b) eqn:E1; [done|]. destruct (strLt b a) eqn:E2.
  - rewrite bool_decide_eq_false_2; [done|]. intros ->. by rewrite strLt_irrefl in E2.
  - destruct (strLt_total a b) as [?|[?| ->]]; [congruence | congruence | by rewrite bool_decide_eq_true_2].
Qed.

Lemma cmp_str {A} (f : A -> jsstr) : CmpOk (fun a b => cmpStr (f a) (f b)).
Proof.
  split.
  - intros a b. unfold cmpStr. destruct (strLt (f a) (f b)) eqn:E1, (strLt (f b) (f a)) eqn:E2; try done.
    pose proof (strLt_trans _ _ _ E1 E2) as E3. by rewrite strLt_irrefl in E3.
  - assert (Hle : forall a b, cmpStr a b <= 0 <-> strLt a b = true \/ a = b).
    { intros a b. rewrite cmpStr_spec. destruct (strLt a b) eqn:E; [split; [auto | lia]|]. destruct (bool_decide (a = b)) eqn:Eb.
      - apply bool_decide_eq_true_1 in Eb. split; [auto | lia].
      - apply bool_decide_eq_false_1 in Eb. split; [lia | intros [?|?]; congruence]. }
    intros a b c. rewrite !Hle. intros [H1| ->] [H2|H2]; [left; by eapply strLt_trans | left; congruence | by left | by right].
Qed.

Lemma cmpBy_ok meta key : CmpOk (cmpBy meta key).
Proof.
  destruct key; [apply (cmp_key (metaDate meta)) | apply (cmp_str (fun a => k_cc (keys a))) | apply (cmp_key (sentOrArrival meta)) |
    apply (cmp_str (fun a => k_from (keys a))) | apply (cmp_key (metaSize meta)) | apply (cmp_str (fun a => k_subjectBase (keys a))) |
    apply (cmp_str (fun a => k_to (keys a)))].
Qed.

Lemma compareItems_ok meta spec : CmpOk (compareItems meta spec).
Proof.
  induction spec as [|[k rv] spec IH]; [apply cmp_key|].
  assert (Hext : forall c1 c2 : SortItem -> SortItem -> Z, (forall a b, c1 a b = c2 a b) -> CmpOk c1 -> CmpOk c2).
  { intros c1 c2 He [Ho Ht]. split; [intros a b; rewrite <- !He; apply Ho | intros a b c; rewrite <- !He; apply Ht]. }
  pose proof (cmpBy_ok meta k) as Hk. destruct rv.
  - eapply Hext; [|exact (cmp_lex _ _ (cmp_neg _ Hk) IH)]. intros a b. cbn. destruct (Z.eqb_spec (cmpBy meta k a b) 0), (Z.eqb_spec (- cmpBy meta k a b) 0); lia.
  - exact (cmp_lex _ _ Hk IH).
Qed.

Lemma insertCmp_perm {A} (cmp : A -> A -> Z) x l : insertCmp cmp x l ≡ₚ x :: l.
Proof. induction l as [|y l IH]; cbn; [done|]. destruct (_ <? _); [done|]. rewrite IH. apply Permutation_swap. Qed.

Lemma insertCmp_sorted {A} (cmp : A -> A -> Z) x l : CmpOk cmp -> StronglySorted (Before cmp) l -> StronglySorted (Before cmp) (insertCmp cmp x l).
Proof.
  intros Hc. induction 1 as [|y l Hs IH Hf]; cbn; [by repeat constructor|]. pose proof (cmp_flip cmp x y Hc) as Hfl. destruct (Z.ltb_spec (cmp x y) 0).
  - repeat constructor; [done | done | unfold Before; lia |]. eapply Forall_impl; [exact Hf|]. intros z Hz. cbn. eapply (cmp_trans _ Hc); [|exact Hz]. lia.
  - constructor; [done|]. rewrite insertCmp_perm. constructor; [unfold Before; lia | done].
Qed.

Lemma sortCmp_spec {A} (cmp : A -> A -> Z) l : CmpOk cmp -> sortCmp cmp l ≡ₚ l /\ StronglySorted (Before cmp) (sortCmp cmp l).
Proof.
  intros Hc. unfold sortCmp. enough (Hgo : forall acc, StronglySorted (Before cmp) acc ->
    fold_left (fun acc x => insertCmp cmp x acc) l acc ≡ₚ acc ++ l /\ StronglySorted (Before cmp) (fold_left (fun acc x => insertCmp cmp x acc) l acc)).
  { apply (Hgo []). constructor. }
  induction l as [|x l IH]; intros acc Ha; cbn; [by rewrite app_nil_r|]. destruct (IH (insertCmp cmp x acc)) as [H1 H2]; [by apply insertCmp_sorted|].
  split; [|done]. rewrite H1, insertCmp_perm. cbn. apply Permutation_middle.
Qed.

(** ** The order the criteria mean (RFC 5256) *)

Definition sortName (k : SortKeyName) : jsstr :=
  match k with
  | SkArrival => js "ARRIVAL" | SkCc => js "CC" | SkDate => js "DATE" | SkFrom => js "FROM" | SkSize => js "SIZE"
  | SkSubject => js "SUBJECT" | SkTo => js "TO"
  end.

Definition saysWord (v : ImapValue) (t : jsstr) : Prop := toUpperCase <$> valueText v = Some t.

(** [REVERSE] turns the one criterion behind it. *)
Inductive SortWords : list ImapValue -> list SortSpec -> Prop :=
| words_nil : SortWords [] []
| words_key v k items spec : saysWord v (sortName k) -> SortWords items spec -> SortWords (v :: items) ({| ss_key := k; ss_reverse := false |} :: spec)
| words_reverse r v k items spec : saysWord r (js "REVERSE") -> saysWord v (sortName k) -> SortWords items spec ->
    SortWords (r :: v :: items) ({| ss_key := k; ss_reverse := true |} :: spec).

(** Strings in the order of their units, the shorter one first. *)
Inductive UnitsLt : jsstr -> jsstr -> Prop :=
| units_nil x b : UnitsLt [] (x :: b)
| units_head x y a b : x < y -> UnitsLt (x :: a) (y :: b)
| units_tail x a b : UnitsLt a b -> UnitsLt (x :: a) (x :: b).

Inductive KeyValue := VNumber (n : Z) | VString (t : jsstr).

Inductive ValueLt : KeyValue -> KeyValue -> Prop :=
| value_number a b : a < b -> ValueLt (VNumber a) (VNumber b)
| value_string a b : UnitsLt a b -> ValueLt (VString a) (VString b).

Section Order.
(** When a message arrived and its size, as the store has them. *)
Context (arrived size : Z -> Z).

(** The date of a message is that of its header, or of its arrival when it has none. *)
Definition sortValue (k : SortKeyName) (m : SortItem) : KeyValue :=
  match k with
  | SkArrival => VNumber (arrived (uid_ m))
  | SkSize => VNumber (size (uid_ m))
  | SkDate => VNumber (if decide (k_sentAtMs (keys m) = 0) then arrived (uid_ m) else k_sentAtMs (keys m))
  | SkSubject => VString (k_subjectBase (keys m))
  | SkFrom => VString (k_from (keys m))
  | SkTo => VString (k_to (keys m))
  | SkCc => VString (k_cc (keys m))
  end.

(** One message goes before another: by the first criterion in which they differ, or by their place. *)
Inductive Precedes : list SortSpec -> SortItem -> SortItem -> Prop :=
| precedes_place a b : seq_ a < seq_ b -> Precedes [] a b
| precedes_less k spec a b : ValueLt (sortValue k a) (sortValue k b) -> Precedes ({| ss_key := k; ss_reverse := false |} :: spec) a b
| precedes_more k spec a b : ValueLt (sortValue k b) (sortValue k a) -> Precedes ({| ss_key := k; ss_reverse := true |} :: spec) a b
| precedes_next k rv spec a b : sortValue k a = sortValue k b -> Precedes spec a b -> Precedes ({| ss_key := k; ss_reverse := rv |} :: spec) a b.

(** The table of the engine says the same of a message as the store. *)
Definition recorded (meta : SortMeta) (m : SortItem) : Prop := metaGet meta (uid_ m) = Some (arrived (uid_ m), size (uid_ m)).

Lemma strLt_units a b : strLt a b = true <-> UnitsLt a b.
Proof.
  split.
  - revert b. induction a as [|x a IH]; intros [|y b]; cbn [strLt]; try done; [constructor|]. rewrite orb_true_iff, andb_true_iff, Z.ltb_lt, Z.eqb_eq.
    intros [?|[-> ?]]; [by apply units_head | by apply units_tail, IH].
  - induction 1 as [|x y a b Hlt|x a b _ IH]; cbn [strLt]; [done | by rewrite (proj2 (Z.ltb_lt x y)) | by rewrite Z.ltb_irrefl, Z.eqb_refl, IH].
Qed.

(** The sign of a comparison, read as an order. *)
Definition Signs (c : Z) (lt eq gt : Prop) : Prop := (c < 0 <-> lt) /\ (c = 0 <-> eq) /\ (0 < c <-> gt).

Lemma signs_number a b : Signs (a - b) (ValueLt (VNumber a) (VNumber b)) (VNumber a = VNumber b) (ValueLt (VNumber b) (VNumber a)).
Proof.
  assert (Hl : forall x y, ValueLt (VNumber x) (VNumber y) <-> x < y) by (intros x y; split; [by inversion 1 | by constructor]).
  unfold Signs. rewrite !Hl. assert (He : VNumber a = VNumber b <-> a = b) by (split; [by intros [= ->] | by intros ->]). rewrite He. lia.
Qed.

Lemma signs_string a b : Signs (cmpStr a b) (ValueLt (VString a) (VString b)) (VString a = VString b) (ValueLt (VString b) (VString a)).
Proof.
  assert (Hl : forall x y, ValueLt (VString x) (VString y) <-> strLt x y = true).
  { intros x y. rewrite strLt_units. split; [by inversion 1 | by constructor]. }
  unfold Signs. rewrite !Hl. assert (He : VString a = VString b <-> a = b) by (split; [by intros [= ->] | by intros ->]). rewrite He. unfold cmpStr.
  destruct (strLt a b) eqn:E1, (strLt b a) eqn:E2.
  - pose proof (strLt_trans _ _ _ E1 E2) as E3. by rewrite strLt_irrefl in E3.
  - split_and!; (split; [intros; try done; lia|intros; try done]). subst. by rewrite strLt_irrefl in E1.
  - split_and!; (split; [intros; try done; lia|intros; try done]). subst. by rewrite strLt_irrefl in E2.
  - destruct (strLt_total a b) as [?|[?| ->]]; [congruence | congruence |]. split_and!; (split; [intros; try done; lia|intros; try done]).
Qed.

Lemma signs_key meta k a b : recorded meta a -> recorded meta b ->
  Signs (cmpBy meta k a b) (ValueLt (sortValue k a) (sortValue k b)) (sortValue k a = sortValue k b) (ValueLt (sortValue k b) (sortValue k a)).
Proof.
  intros Ha Hb. assert (Hd : forall m, recorded meta m -> metaDate meta m = arrived (uid_ m) /\ metaSize meta m = size (uid_ m)).
  { intros m Hm. unfold metaDate, metaSize. by rewrite Hm. }
  destruct (Hd a Ha) as [Ea1 Ea2], (Hd b Hb) as [Eb1 Eb2].
  assert (Hs : forall m, metaDate meta m = arrived (uid_ m) -> sentOrArrival meta m = if decide (k_sentAtMs (keys m) = 0) then arrived (uid_ m) else k_sentAtMs (keys m)).
  { intros m Hm. unfold sentOrArrival. rewrite Hm. destruct (Z.eqb_spec (k_sentAtMs (keys m)) 0), (decide _); done. }
  destruct k; cbn [cmpBy sortValue]; rewrite ?Ea1, ?Ea2, ?Eb1, ?Eb2, ?(Hs a Ea1), ?(Hs b Eb1); first [apply signs_number | apply signs_string].
Qed.

Lemma compare_precedes meta spec a b : recorded meta a -> recorded meta b -> (compareItems meta spec a b < 0 <-> Precedes spec a b).
Proof.
  intros Ha Hb. induction spec as [|[k rv] spec IH]; cbn [compareItems ss_key ss_reverse].
  { split; [intros; apply precedes_place; lia | inversion 1; lia]. }
  destruct (signs_key meta k a b Ha Hb) as (Hl & He & Hg). destruct (Z.eqb_spec (cmpBy meta k a b) 0) as [Ez|Hz].
  - rewrite IH. split; [apply precedes_next; tauto|]. inversion 1; subst; [| |done]; [assert (cmpBy meta k a b < 0) by tauto | assert (0 < cmpBy meta k a b) by tauto]; lia.
  - split.
    + destruct rv; intros Hc; [apply precedes_more, Hg; lia | by apply precedes_less, Hl].
    + inversion 1; subst; [tauto | |tauto]. assert (0 < cmpBy meta k a b) by tauto. lia.
Qed.
End Order.

(** Distinct places decide every comparison. *)
Lemma compare_place meta spec a b : compareItems meta spec a b = 0 -> seq_ a = seq_ b.
Proof.
  induction spec as [|sp spec IH]; cbn; [lia|]. destruct (Z.eqb_spec (cmpBy meta (ss_key sp) a b) 0); [done|]. destruct (ss_reverse sp); lia.
Qed.

Lemma before_precedes arrived size meta spec l : (forall x, x ∈ l -> recorded arrived size meta x) -> NoDup (map seq_ l) ->
  StronglySorted (Before (compareItems meta spec)) l <-> StronglySorted (Precedes arrived size spec) l.
Proof.
  induction l as [|x l IH]; intros Hr Hn; [split; constructor|]. inversion Hn as [|? ? Hx Hn']; subst.
  assert (Hl : Forall (Before (compareItems meta spec) x) l <-> Forall (Precedes arrived size spec x) l).
  { rewrite !Forall_forall. split; intros Hf y Hy; specialize (Hf y Hy); pose proof (compare_precedes arrived size meta spec x y) as Hc.
    - apply Hc; [apply Hr; left | apply Hr; by right|]. unfold Before in Hf. destruct (Z.eq_dec (compareItems meta spec x y) 0) as [E|]; [|lia].
      exfalso. apply Hx. rewrite (compare_place _ _ _ _ E). by apply list_elem_of_fmap_2.
    - unfold Before. apply Hc in Hf; [lia | apply Hr; left | apply Hr; by right]. }
  assert (Ht : forall y, y ∈ l -> recorded arrived size meta y) by (intros y Hy; apply Hr; by right).
  split; inversion 1; subst; constructor; tauto.
Qed.

Lemma sorted_unique meta spec hits l l' : NoDup (map seq_ hits) -> l ≡ₚ hits -> StronglySorted (Before (compareItems meta spec)) l ->
  l' ≡ₚ hits -> StronglySorted (Before (compareItems meta spec)) l' -> l' = l.
Proof.
  intros Hn Hp Hs Hp' Hs'. pose proof (compareItems_ok meta spec) as Hc.
  apply (StronglySorted_unique_strong (Before (compareItems meta spec))); [|done|done|by rewrite Hp, Hp'].
  intros a b Ha Hb Hab Hba. rewrite Hp' in Ha. rewrite Hp in Hb.
  assert (Hz : compareItems meta spec a b = 0) by (unfold Before in *; rewrite cmp_flip in Hba by done; lia).
  apply list_elem_of_lookup in Ha as [i Hi], Hb as [j Hj]. assert (i = j) as ->; [|congruence].
  eapply (NoDup_lookup (map seq_ hits)); [done | rewrite list_lookup_fmap, Hi; done | rewrite list_lookup_fmap, Hj; cbn; f_equal; symmetry; by eapply compare_place].
Qed.

Lemma sortKey_name t k : mapGet t SORT_KEYS = Some k <-> t = sortName k.
Proof.
  split; [|intros ->; by destruct k]. unfold SORT_KEYS. cbn [mapGet].
  repeat match goal with |- context [if ?w === t then _ else _] => destruct (seqb_spec w t) as [<-|_]; [by intros [= <-]|] end. done.
Qed.

Lemma sortName_reverse k : (sortName k === js "REVERSE") = false.
Proof. by destruct k. Qed.

(** Both directions of the reading of criteria, from any point of it. *)
Lemma sortSpecLoop_words items : forall out rv spec, sortSpecLoop items out rv = Some spec <->
  spec <> [] /\ exists more, spec = out ++ more /\
    if rv : bool then exists v k rest more', items = v :: rest /\ saysWord v (sortName k) /\ more = {| ss_key := k; ss_reverse := true |} :: more' /\ SortWords rest more'
    else SortWords items more.
Proof.
  induction items as [|v items IH]; intros out rv spec; cbn [sortSpecLoop].
  { destruct rv; [split; [done | intros (_ & more & _ & v & k & rest & m & Hx & _); done]|]. split.
    - destruct out as [|o out]; [done|]. intros [= <-]. split; [done|]. exists []. split; [by rewrite app_nil_r | constructor].
    - intros (Hne & more & -> & Hw). inversion Hw; subst. rewrite app_nil_r in *. by destruct out. }
  unfold saysWord in *. destruct (valueText v) as [t|] eqn:Ev; cbn [fmap option_fmap option_map mbind option_bind].
  2: { split; [done|]. intros (_ & more & _ & Hw). destruct rv; [destruct Hw as (? & ? & ? & ? & [= <- <-] & Hs & _); by rewrite Ev in Hs|].
       inversion Hw; subst; unfold saysWord in *; by rewrite Ev in *. }
  destruct (seqb_spec (toUpperCase t) (js "REVERSE")) as [Er|Hnr].
  { destruct rv.
    - split; [done|]. intros (_ & more & _ & x & k & rest & m & [= <- <-] & Hs & _). rewrite Ev in Hs. cbn in Hs. injection Hs as Hs. pose proof (sortName_reverse k) as Hn.
      by rewrite <- Hs, Er in Hn.
    - rewrite IH. split; intros (Hne & more & -> & Hw); (split; [done|]); exists more; (split; [done|]).
      + destruct Hw as (x & k & rest & m & -> & Hs & -> & Hw). apply words_reverse; unfold saysWord; [by rewrite Ev, <- Er | done | done].
      + inversion Hw as [|? k ? sp Hs Hw'|? x k ? sp _ Hs Hw']; subst; [|by exists x, k, items0, sp].
        exfalso. unfold saysWord in Hs. rewrite Ev in Hs. cbn in Hs. injection Hs as Hs. pose proof (sortName_reverse k) as Hn. by rewrite <- Hs, Er in Hn. }
  destruct (mapGet (toUpperCase t) SORT_KEYS) as [k|] eqn:Ek; cbn [mbind option_bind].
  - apply sortKey_name in Ek. rewrite IH. split; intros (Hne & more & -> & Hw); (split; [done|]).
    + exists ({| ss_key := k; ss_reverse := rv |} :: more). rewrite <- (assoc_L (++)). split; [done|]. destruct rv.
      * exists v, k, items, more. by rewrite Ev, <- Ek.
      * apply words_key; [unfold saysWord; by rewrite Ev, <- Ek | done].
    + assert (Hk : forall k', toUpperCase <$> Some t = Some (sortName k') -> k' = k).
      { intros k' [= Hk]. apply (sortKey_name (toUpperCase t)) in Hk. pose proof (proj2 (sortKey_name _ _) Ek). congruence. }
      destruct rv.
      * destruct Hw as (x & k' & rest & m & [= <- <-] & Hs & -> & Hw). rewrite Ev in Hs. rewrite (Hk k' Hs). exists m. by rewrite <- (assoc_L (++)).
      * inversion Hw as [|? k' ? sp Hs Hw'|r x k' ? sp Hs Hs2 Hw']; subst.
        -- unfold saysWord in Hs. rewrite Ev in Hs. rewrite (Hk k' Hs). exists sp. by rewrite <- (assoc_L (++)).
        -- unfold saysWord in Hs. rewrite Ev in Hs. cbn in Hs. by injection Hs.
  - split; [done|]. intros (_ & more & _ & Hw). assert (Hk : forall k', toUpperCase <$> Some t <> Some (sortName k')).
    { intros k' [= Hk]. apply (sortKey_name (toUpperCase t)) in Hk. congruence. }
    destruct rv; [destruct Hw as (x & k' & rest & m & [= <- <-] & Hs & _); rewrite Ev in Hs; by apply Hk in Hs|].
    inversion Hw as [|? k' ? sp Hs Hw'|r x k' ? sp Hs Hs2 Hw']; subst; unfold saysWord in Hs; rewrite Ev in Hs; [by apply Hk in Hs | cbn in Hs; by injection Hs].
Qed.

(** C34: the criteria of SORT are read as the client writes them, and nothing else is read: [REVERSE] turns
    the one criterion behind it.  And the line lists every message that was found once, each one
    before those that it precedes by the criteria, the values that the store has being compared as numbers and
    strings, and the place in the mailbox deciding at the end; there is only one such list, whatever
    the sorting algorithm. *)
Theorem imap_sort_correct items spec arrived size hits meta : NoDup (map seq_ hits) -> Forall (recorded arrived size meta) hits ->
  (parseSortSpec items = Some spec <-> spec <> [] /\ SortWords items spec) /\
  exists l, l ≡ₚ hits /\ StronglySorted (Precedes arrived size spec) l /\
    (forall l', l' ≡ₚ hits -> StronglySorted (Precedes arrived size spec) l' -> l' = l) /\
    formatSortLine hits spec meta = js "* SORT" ++ match l with [] => [] | _ => [SP] ++ joinWith [SP] (map (fun h => numToString (num h)) l) end.
Proof.
  intros Hn Hr. split; [unfold parseSortSpec; rewrite sortSpecLoop_words; split; [intros (? & ? & -> & ?); done | intros []; eauto]|].
  rewrite Forall_forall in Hr. pose proof (compareItems_ok meta spec) as Hc. destruct (sortCmp_spec (compareItems meta spec) hits Hc) as [Hp Hs].
  assert (Hiff : forall l', l' ≡ₚ hits -> StronglySorted (Before (compareItems meta spec)) l' <-> StronglySorted (Precedes arrived size spec) l').
  { intros l' Hp'. apply before_precedes; [intros x Hx; apply Hr; by rewrite <- Hp'|]. eapply NoDup_Permutation_proper; [|exact Hn]. by apply Permutation_map. }
  exists (sortCmp (compareItems meta spec) hits). split_and!; [done | by apply Hiff | | unfold formatSortLine; by destruct (sortCmp _ _)]. intros l' Hp' Hs'.
  apply Hiff in Hs'; [|done]. eapply sorted_unique; [exact Hn | done | done | done | done].
Qed.

Definition exampleItem (n : Z) (subject : string) : SortItem :=
  {| num := n; seq_ := n; uid_ := n; keys := {| k_subjectBase := js subject; k_sentAtMs := 0; k_threadId := []; k_from := []; k_to := []; k_cc := [] |} |}.

Lemma imap_sort_correct_witness :
  let items := [VAtom (js "reverse"); VAtom (js "Subject")] in
  let spec := [{| ss_key := SkSubject; ss_reverse := true |}] in
  let hits := [exampleItem 1 "b"; exampleItem 2 "c"; exampleItem 3 "b"] in
  parseSortSpec items = Some spec /\ exists l, l ≡ₚ hits /\ StronglySorted (Precedes (fun _ => 0) (fun _ => 9) spec) l /\
    formatSortLine hits spec [(1, (0, 9)); (2, (0, 9)); (3, (0, 9))] =
      js "* SORT" ++ match l with [] => [] | _ => [SP] ++ joinWith [SP] (map (fun h => numToString (num h)) l) end /\
    formatSortLine hits spec [(1, (0, 9)); (2, (0, 9)); (3, (0, 9))] = js "* SORT 2 1 3".
Proof.
  intros items spec hits. destruct (imap_sort_correct items spec (fun _ => 0) (fun _ => 9) hits [(1, (0, 9)); (2, (0, 9)); (3, (0, 9))]) as (Hw & l & Hp & Hs & _ & Hf).
  { apply (bool_decide_eq_true_1 (NoDup [1; 2; 3])). vm_compute. reflexivity. }
  { repeat constructor. }
  split; [apply Hw; split; [done|]; apply (words_reverse _ _ SkSubject); [by vm_compute | by vm_compute | constructor]|].
  exists l. split_and!; [exact Hp | exact Hs | exact Hf | vm_compute; reflexivity].
Defined.
