(* ===== verification/ImapCommands.v ===== *)
(** * The commands of an IMAP session (packages/proto-imap/src/engine.ts)

    What the engine asks of the store and what it answers, the view of a selected mailbox, the state of
    a connection; the commands on mailboxes and messages, and what is done with the answers.  The source keeps, for a request that is under way, a closure; here it is a value of
    [Resume], with what the closure has captured.  The [view] a closure captures is the object in
    [selected] when the answer comes: while a request is under way lines are only queued. *)

From S2P Require Import Prelude JsString JsNumber Limits Loop Text Scram MimeEncoding SequenceSet ListMatch ImapReader ImapParser ImapFetch ImapSearch.

(** ** The store *)

Record ImapMailbox := mkMailbox {
  m_name : jsstr; m_role : option jsstr; m_subscribed : option bool; m_uidvalidity : Z; m_uidnext : Z; m_highestmodseq : Z; m_totalCount : Z;
  m_unreadCount : Z; m_totalBytes : Z; m_mailboxId : option jsstr; m_deletedCount : option Z; m_deletedBytes : option Z; m_readable : option bool }.

Record AppendItem := mkAppendItem { ai_raw : bytes; ai_flags : list jsstr; ai_date : option Z }.

Inductive StoreMode := StoreSet | StoreAdd | StoreRemove.

Inductive ImapBackendRequest :=
| ListMailboxes (statusRights deletedCounts : bool)
| GetQuota
| CreateMailbox (mailbox : jsstr)
| DeleteMailbox (mailbox : jsstr)
| RenameMailbox (source target : jsstr)
| GetAcl (mailbox : jsstr)
| SetAcl (mailbox identifier rights : jsstr)
| DeleteAcl (mailbox identifier : jsstr)
| ListRights (mailbox identifier : jsstr)
| MyRights (mailbox : jsstr)
| SetSubscribed (mailbox : jsstr) (subscribed : bool)
| SelectMailbox (mailbox : jsstr)
| ExpungeMailbox (mailbox : jsstr)
| FetchMessages (mailbox : jsstr) (us : list Z) (needRaw markSeen needSortKeys : bool)
| StoreFlags (mailbox : jsstr) (us : list Z) (mode : StoreMode) (flags : list jsstr) (unchangedSince : option JsNum)
| SyncSince (mailbox : jsstr) (sinceModseq : JsNum) (knownUids : option (list SeqRange)) (vanishedOnly : bool)
| Expunge (mailbox : jsstr) (us : option (list Z))
| AppendMessage (mailbox : jsstr) (flags : list jsstr) (internalDateMs : option Z) (raw : bytes) (items : list AppendItem)
| ReplaceMessage (source target : jsstr) (oldUid : Z) (raw : bytes) (flags : list jsstr) (internalDateMs : option Z)
| CopyMessages (source target : jsstr) (us : list Z)
| MoveMessages (source target : jsstr) (us : list Z).

Record ImapFetchData := mkFetchData {
  d_uid : Z; d_emailId : option jsstr; d_threadId : option jsstr; d_flags : list jsstr; d_internalDateMs : Z; d_saveDateMs : option Z; d_size : Z;
  d_modseq : Z; d_raw : option bytes; d_sortKeys : option ImapSortKeys }.

Record FlagsUpdate := mkUpdate { u_uid : Z; u_flags : list jsstr; u_modseq : option Z }.
Record Changed := mkChanged { c_uid : Z; c_flags : list jsstr; c_modseq : Z }.

Inductive ImapBackendResponse :=
| Mailboxes (mailboxes : list ImapMailbox)
| Selected (mailbox : ImapMailbox) (us : list Z) (firstUnseenSeq : option Z) (keywords : option (list jsstr))
| Messages (messages : list ImapFetchData)
| FlagsUpdated (updated : list FlagsUpdate) (failed : option (list Z))
| Sync (vanished : list Z) (changed : list Changed)
| Expunged (us : list Z)
| Appended (uidvalidity uid : Z) (us : option (list Z))
| Replaced (uidvalidity uid : Z) (expungedUid : option Z)
| Copied (uidvalidity : Z) (srcUids dstUids : list Z)
| Acl (mailbox : jsstr) (entries : list (jsstr * jsstr))
| Rights (mailbox identifier rights : jsstr)
| Quota (usedBytes limitBytes messageCount : Z)
| ROk
| RNo (code : option jsstr) (message : jsstr).

(** ** The session *)

Record SelectedView := mkView {
  v_name : jsstr; readWrite : bool; v_uidvalidity : Z; uids : list Z; v_uidnext : Z; announcedKeywords : list jsstr; lastSyncModseq : Z }.

Inductive ImapState := NotAuthenticated | Authenticated | SelectedState.

#[global] Instance ImapState_eq_dec : EqDecision ImapState.
Proof. solve_decision. Defined.

Record Target := mkTarget { t_seq : Z; t_uid : Z }.

Record Qresync := mkQresync { q_uidvalidity : JsNum; q_modseq : JsNum; q_known : option (list SeqRange) }.

Record ListJob := mkListJob { lj_tag : jsstr; lj_verb : jsstr; lj_select : list jsstr; lj_patterns : list jsstr; lj_status : option (list jsstr); lj_returnSubscribed : bool }.

Record FetchJob := mkFetchJob {
  fj_tag : jsstr; fj_verb : jsstr; fj_name : jsstr; fj_items : list FetchItem; fj_needRaw : bool; fj_markSeen : bool; fj_changedSince : option JsNum }.

Record SearchJob := mkSearchJob {
  sj_tag : jsstr; sj_verb : jsstr; sj_uidMode : bool; sj_name : jsstr; sj_key : SearchKey; sj_maxSeq : Z; sj_maxUid : Z }.

Inductive SortMode := ModeSort (spec : list SortSpec) | ModeThread (algorithm : jsstr).

(** One constructor per continuation; [RDone] is the one that the commands answered by OK or NO share. *)
Inductive Resume :=
| RDone (tag verb : jsstr)
| RGetAcl (tag : jsstr)
| RListRights (tag : jsstr)
| RMyRights (tag : jsstr)
| RList (job : ListJob)
| RStatus (tag : jsstr) (mailbox : jsstr) (wanted : list jsstr)
| RQuota (tag verb : jsstr) (mailbox : jsstr)
| RSelect (tag : jsstr) (writable : bool) (qresync : option Qresync)
| RSelectSync (taggedLine : jsstr)
| RFetchVanished (job : FetchJob) (targets : list Target) (requested : list SeqRange) (maxUid : Z)
| RFetch (job : FetchJob) (todo : list Target)
| RAppend (tag : jsstr) (mailbox : jsstr)
| RReplace (tag verb : jsstr) (dest : jsstr)
| RCopyMove (tag verb : jsstr) (isMove : bool)
| RStore (tag verb : jsstr) (uidMode silent : bool) (targets : list Target)
| RExpunge (tag verb : jsstr)
| RRefresh (taggedOk : option jsstr)
| RRefreshSync (taggedOk : option jsstr) (dbKeywords : list jsstr) (newWatermark : Z)
| RSearch (job : SearchJob) (esearch : option (list jsstr)) (offset : nat) (batchUids hits hitUids : list Z)
| RSort (job : SearchJob) (mode : SortMode) (offset : nat) (batchUids : list Z) (hits : list SortItem) (meta : SortMeta).

Inductive ScramStage := StClientFirst | StClientFinal | StServerFinal.

Inductive ImapAction :=
| AReply (text : jsstr)
| AReplyBinary (bs : bytes)
| AClose
| AStartTls
| AStartCompress
| AAuth (user pass : jsstr)
| AScramKeys (user : jsstr)
| AAuthVerified (tag user : jsstr)
| AAuthFailed (user : option jsstr)
| ABackend (req : ImapBackendRequest).

(** [ImapEngineOptions] after the defaults of the constructor; [nonces] is the randomness of the SCRAM
    sessions of the connection, in order. *)
Record ImapConfig := mkConfig {
  hostname : jsstr; initiallySecure : bool; allowInsecureAuth : bool; tlsAvailable : bool; scramOffered : bool; scramDecoySecret : bytes;
  readerOpts : ReaderOptions; authedMaxLiteralBytes : Z; nonces : nat -> bytes }.

Definition MAX_QUEUED_LINE_BYTES : Z := 1024 * 1024.
Definition FETCH_BATCH_RAW : nat := 32.
Definition FETCH_BATCH_META : nat := 512.
Definition batchSize (needRaw : bool) : nat := if needRaw then FETCH_BATCH_RAW else FETCH_BATCH_META.

Section State.
Context {SS : ScramServer}.

Inductive SaslMech :=
| MPlain
| MXoauth2
| MOauthbearer
| MScram (session : ScramSession) (stage : ScramStage) (username : option jsstr).

Record SaslPending := mkSasl { sl_tag : jsstr; mechanism : SaslMech }.

Inductive Pending :=
| PAuth (tag : jsstr)
| PSaslLine (sasl : SaslPending)
| PScramKeys (sasl : SaslPending)
| PBackend (resume : Resume).

Record Imap := mkImap {
  secure : bool; awaitingTls : bool; compressed : bool; reader : Reader; state : ImapState; selected : option SelectedView; closed : bool;
  pending : option Pending; idleTag : option jsstr; queued : list (list LinePart); queuedBytes : Z; enabled : list jsstr; savedSearch : list Z;
  nonceIdx : nat }.

Definition initial (cfg : ImapConfig) : Imap :=
  {| secure := initiallySecure cfg; awaitingTls := false; compressed := false;
     reader := newReader (Z.min (authedMaxLiteralBytes cfg) MAX_PREAUTH_LITERAL_BYTES); state := NotAuthenticated; selected := None; closed := false;
     pending := None; idleTag := None; queued := []; queuedBytes := 0; enabled := []; savedSearch := []; nonceIdx := 0 |}.

Abbreviation Handler := (Imap -> Imap * list ImapAction).

(** ** Helpers of the handlers *)

Definition say (text : jsstr) : Handler := fun s => (s, [AReply text]).
Definition bad (tag : jsstr) (why : string) : Handler := say (tag ++ js " BAD " ++ js why).

(** What [s] becomes and the actions of two handlers in a row. *)
Definition andThen (h1 h2 : Handler) : Handler :=
  fun s => let '(s1, a) := h1 s in let '(s2, b) := h2 s1 in (s2, a ++ b).

Definition callBackend (req : ImapBackendRequest) (resume : Resume) : Handler :=
  fun s => (s <| pending := Some (PBackend resume) |>, [ABackend req]).

Definition hasEnabled (ext : string) (s : Imap) : bool := bool_decide (js ext ∈ enabled s).

(** [set.add(x)] on a set in insertion order. *)
Definition setAdd (x : jsstr) (l : list jsstr) : list jsstr := if bool_decide (x ∈ l) then l else l ++ [x].
Definition setOf (l : list jsstr) : list jsstr := fold_left (fun acc x => setAdd x acc) l [].

Definition enable (ext : string) (s : Imap) : Imap := s <| enabled ::= setAdd (js ext) |>.

Definition leaveSelected (s : Imap) : Imap := s <| selected := None |> <| state := Authenticated |>.

Definition requireAuth (tag : jsstr) (fn : Handler) : Handler := fun s =>
  if decide (state s = NotAuthenticated) then bad tag "command not allowed before authentication" s else fn s.

(** The handler gets the view. *)
Definition requireSelected (tag : jsstr) (fn : SelectedView -> Handler) : Handler := fun s =>
  match selected s with
  | Some v => if decide (state s = SelectedState) then fn v s else bad tag "command requires a selected mailbox" s
  | None => bad tag "command requires a selected mailbox" s
  end.

(** [args[i] ? valueText(args[i]) : null] *)
Definition textArg (cmd : ParsedCommand) (i : nat) : option jsstr := args cmd !! i ≫= valueText.
Definition upperArg (cmd : ParsedCommand) (i : nat) : option jsstr := toUpperCase <$> textArg cmd i.
Definition mailboxArg (cmd : ParsedCommand) (i : nat) : option jsstr := normalizeMailboxName <$> textArg cmd i.

(** [valueText(items[i] ?? { kind: "atom", value: "" })] *)
Definition textOr (items : list ImapValue) (i : nat) : option jsstr :=
  match items !! i with Some v => valueText v | None => Some [] end.
Definition upperOr (items : list ImapValue) (i : nat) : option jsstr := toUpperCase <$> textOr items i.

Definition isText (o : option jsstr) (t : string) : bool := match o with Some x => x === js t | None => false end.

Definition noReply (tag verb : jsstr) (code : option jsstr) (message : jsstr) : ImapAction :=
  AReply (tag ++ js " NO " ++ (match code with Some ((_ :: _) as c) => [91] ++ c ++ js "] " | _ => [] end) ++ verb ++ [SP] ++ message).

Definition okReply (tag verb : jsstr) : ImapAction := AReply (tag ++ js " OK " ++ verb ++ js " completed").
Definition failedReply (tag verb : jsstr) : ImapAction := AReply (tag ++ js " NO " ++ verb ++ js " failed").

(** A response of the wrong kind is a failure; [no] keeps its text. *)
Definition unexpected (tag verb : jsstr) (res : ImapBackendResponse) : ImapAction :=
  match res with RNo code message => noReply tag verb code message | _ => failedReply tag verb end.

(** ** The view *)

Definition SYSTEM_FLAGS : list jsstr := [js "\Answered"; js "\Flagged"; js "\Deleted"; js "\Seen"; js "\Draft"].

Definition flagsLine (keywords : list jsstr) : jsstr := js "* FLAGS (" ++ joinWith [SP] (SYSTEM_FLAGS ++ keywords) ++ js ")".

Definition isSystemFlag (f : jsstr) : bool := existsb (fun x => toUpperCase x === toUpperCase f) SYSTEM_FLAGS.

(** [arr.indexOf(u)] *)
Fixpoint uidIndex (u : Z) (l : list Z) : option nat :=
  match l with
  | [] => None
  | x :: r => if x =? u then Some O else S <$> uidIndex u r
  end.

(** The sequence number of a uid, 0 when the view does not have it. *)
Definition seqOf (u : Z) (v : SelectedView) : Z := match uidIndex u (uids v) with Some i => Z.of_nat i + 1 | None => 0 end.

Definition onView (f : SelectedView -> SelectedView * list ImapAction) : Handler := fun s =>
  match selected s with
  | None => (s, [])
  | Some v => let '(v', a) := f v in (s <| selected := Some v' |>, a)
  end.

Definition announce (flags : list jsstr) (v : SelectedView) : SelectedView * list ImapAction :=
  let fresh := setOf (List.filter (fun f => negb (isSystemFlag f) && negb (bool_decide (f ∈ announcedKeywords v))) flags) in
  match fresh with
  | [] => (v, [])
  | _ => let v := v <| announcedKeywords ::= fun k => k ++ fresh |> in (v, [AReply (flagsLine (announcedKeywords v))])
  end.

Definition ensureFlagsAnnounced (flags : list jsstr) : Handler := onView (announce flags).

Definition existsLine (v : SelectedView) : ImapAction := AReply (js "* " ++ numToString (len (uids v)) ++ js " EXISTS").
Definition expungeLine (i : nat) : ImapAction := AReply (js "* " ++ numToString (Z.of_nat i + 1) ++ js " EXPUNGE").
Definition vanishedLine (us : list Z) : ImapAction := AReply (js "* VANISHED " ++ formatUidSet us).

(** [arr.splice(arr.indexOf(u), 1)]: an index of -1 takes the last one away. *)
Definition spliceUid (l : list Z) (u : Z) : list Z :=
  match uidIndex u l with Some i => delete i l | None => removelast l end.

(** The indices of the uids that are there, from the highest. *)
Definition removalIndices (us l : list Z) : list nat :=
  map Z.to_nat (sortBy (fun i => - i) (map Z.of_nat (omap (fun u => uidIndex u l) us))).

Definition vanishFrom (us : list Z) (v : SelectedView) : SelectedView * list ImapAction :=
  let present := List.filter (fun u => bool_decide (u ∈ uids v)) us in
  (v <| uids ::= fun l => fold_left spliceUid present l |>, match present with [] => [] | _ => [vanishedLine present] end).

Definition expungeFrom (us : list Z) (v : SelectedView) : SelectedView * list ImapAction :=
  let idxs := removalIndices us (uids v) in
  (v <| uids ::= fun l => fold_left (fun l i => delete i l) idxs l |>, map expungeLine idxs).

Definition removalActions (us : list Z) : Handler := fun s =>
  onView (if hasEnabled "QRESYNC" s then vanishFrom us else expungeFrom us) s.

(** [view.uids.push(u); view.uidnext = ...] for the uids that are new, and [sort]. *)
Definition addUids (added : list Z) (v : SelectedView) : SelectedView * list ImapAction :=
  match added with
  | [] => (v, [])
  | _ =>
      let v := v <| uids ::= fun l => sortBy id (l ++ added) |> <| v_uidnext ::= fun n => fold_left (fun n u => Z.max n (u + 1)) added n |> in
      (v, [existsLine v])
  end.

(** [for (const u of us) if (!view.uids.includes(u)) view.uids.push(u)] *)
Definition pushNew (us l : list Z) : list Z :=
  fold_left (fun new u => if bool_decide (u ∈ l ++ new) then new else new ++ [u]) us [].

(** ** Sets of messages *)

Definition resolveSetArg (text : jsstr) (uidMode : bool) (s : Imap) : option (list SeqRange) :=
  if text === js "$" then
    v ← selected s;
    let numbers :=
      if uidMode then List.filter (fun u => bool_decide (u ∈ uids v)) (savedSearch s)
      else omap (fun u => (fun i => Z.of_nat i + 1) <$> uidIndex u (uids v)) (savedSearch s) in
    Some (map (fun n => mkRange (SNum n) (SNum n)) (sortBy id numbers))
  else parseSequenceSet text.

(** The messages of a view with their numbers. *)
Definition targetsOf (v : SelectedView) : list Target := imap (fun i u => {| t_seq := Z.of_nat i + 1; t_uid := u |}) (uids v).

Definition maxUidOf (v : SelectedView) : Z := default 0 (last (uids v)).

Definition resolveTargets (ranges : list SeqRange) (uidMode : bool) (v : SelectedView) : list Target :=
  List.filter (fun t => if uidMode then matchSequenceSet ranges (t_uid t) (maxUidOf v) else matchSequenceSet ranges (t_seq t) (len (uids v)))
    (targetsOf v).

(** The set argument of a command. *)
Definition setArg (cmd : ParsedCommand) (uidMode : bool) (s : Imap) : option (list SeqRange) :=
  t ← textArg cmd 0; resolveSetArg t uidMode s.
End State.

Abbreviation Handler := (Imap -> Imap * list ImapAction).

(** * The commands of an IMAP session (packages/proto-imap/src/engine.ts)

    One definition per command, and [resumeWith], which goes on with a command when the store has
    answered.  Authentication and the dispatch are in ImapSession. *)

(** ** STATUS items *)

Definition LIST_SELECT_OPTIONS : list jsstr := [js "SUBSCRIBED"; js "REMOTE"; js "RECURSIVEMATCH"; js "SPECIAL-USE"].

Definition STATUS_ITEMS : list jsstr :=
  [js "MESSAGES"; js "RECENT"; js "UIDNEXT"; js "UIDVALIDITY"; js "UNSEEN"; js "DELETED"; js "SIZE"; js "HIGHESTMODSEQ"; js "MAILBOXID"; js "DELETED-STORAGE"].

Definition statusListRequest (items : list jsstr) : ImapBackendRequest :=
  ListMailboxes true (bool_decide (js "DELETED" ∈ items) || bool_decide (js "DELETED-STORAGE" ∈ items)).

Fixpoint statusLoop (items : list ImapValue) (out : list jsstr) : list jsstr + string :=
  match items with
  | [] => inl out
  | it :: r =>
      match toUpperCase <$> valueText it with
      | None | Some [] => inr "invalid STATUS item"%string
      | Some t => if bool_decide (t ∈ STATUS_ITEMS) then statusLoop r (out ++ [t]) else inr "unknown STATUS item"%string
      end
  end.

Definition parseStatusItems (v : ImapValue) : list jsstr + string :=
  match v with VList items => statusLoop items [] | _ => inr "STATUS expects item list"%string end.

(** [Math.ceil(n / 1024)] *)
Definition kib (n : Z) : Z := - (- n / 1024).

Definition statusField (m : ImapMailbox) (item : jsstr) : option jsstr :=
  let field n z := Some (js n ++ [SP] ++ numToString z) in
  if item === js "MESSAGES" then field "MESSAGES"%string (m_totalCount m)
  else if item === js "RECENT" then field "RECENT"%string 0
  else if item === js "MAILBOXID" then (fun i => js "MAILBOXID (" ++ i ++ js ")") <$> m_mailboxId m
  else if item === js "UIDNEXT" then field "UIDNEXT"%string (m_uidnext m)
  else if item === js "UIDVALIDITY" then field "UIDVALIDITY"%string (m_uidvalidity m)
  else if item === js "UNSEEN" then field "UNSEEN"%string (m_unreadCount m)
  else if item === js "SIZE" then field "SIZE"%string (m_totalBytes m)
  else if item === js "HIGHESTMODSEQ" then field "HIGHESTMODSEQ"%string (m_highestmodseq m)
  else if item === js "DELETED" then field "DELETED"%string (default 0 (m_deletedCount m))
  else if item === js "DELETED-STORAGE" then field "DELETED-STORAGE"%string (kib (default 0 (m_deletedBytes m)))
  else None.

Definition statusFields (m : ImapMailbox) (wanted : list jsstr) : list jsstr := omap (statusField m) wanted.

Definition statusLine (m : ImapMailbox) (wanted : list jsstr) : ImapAction :=
  AReply (js "* STATUS " ++ quoteMailboxName (m_name m) ++ js " (" ++ joinWith [SP] (statusFields m wanted) ++ js ")").

Definition isSubscribed (m : ImapMailbox) : bool := negb (bool_decide (m_subscribed m = Some false)).
Definition isReadable (m : ImapMailbox) : bool := negb (bool_decide (m_readable m = Some false)).

(** ** LIST *)

(** The paths above a mailbox. *)
Definition ancestors (mailbox : jsstr) : list jsstr :=
  let segs := splitOn HIERARCHY_DELIMITER mailbox in
  map (fun i => joinWith [HIERARCHY_DELIMITER] (take i segs)) (seq 1 (length segs - 1)).

Definition hasOpt (o : string) (l : list jsstr) : bool := bool_decide (js o ∈ l).

Definition passesSelection (select : list jsstr) (m : ImapMailbox) : bool :=
  (negb (hasOpt "SUBSCRIBED" select) || isSubscribed m) &&
  (negb (hasOpt "SPECIAL-USE" select) || bool_decide (is_Some (roleToAttribute (m_role m)))).

Definition listAttributes (parents : list jsstr) (m : ImapMailbox) (subscribedFlag : bool) : jsstr :=
  joinWith [SP]
    (option_list (roleToAttribute (m_role m))
     ++ [if bool_decide (m_name m ∈ parents) then js "\HasChildren" else js "\HasNoChildren"]
     ++ (if isReadable m then [] else [js "\NoSelect"])
     ++ (if subscribedFlag then [js "\Subscribed"] else [])).

Definition childInfoSuffix : jsstr :=
  [SP; 40; 34] ++ js "CHILDINFO" ++ [34] ++ js " (" ++ [34] ++ js "SUBSCRIBED" ++ [34] ++ js "))".

Definition delimiterText : jsstr := [34; HIERARCHY_DELIMITER; 34].

(** The lines of one mailbox. *)
Definition listMailbox (job : ListJob) (parents hasSelectedDesc hasUnreturned : list jsstr) (childInfo : bool) (m : ImapMailbox) : list ImapAction :=
  let row attrs suffix :=
    AReply (js "* " ++ lj_verb job ++ js " (" ++ attrs ++ js ") " ++ delimiterText ++ [SP] ++ quoteMailboxName (m_name m) ++ suffix) in
  if negb (existsb (fun p => compileListPattern p (m_name m)) (lj_patterns job)) then []
  else if (lj_verb job === js "LSUB") && negb (isSubscribed m) then []
  else if negb (passesSelection (lj_select job) m) then
    if childInfo && bool_decide (m_name m ∈ hasUnreturned) then [row (listAttributes parents m false) childInfoSuffix] else []
  else
    row (listAttributes parents m (lj_returnSubscribed job && isSubscribed m))
        (if childInfo && bool_decide (m_name m ∈ hasSelectedDesc) then childInfoSuffix else [])
    :: match lj_status job with
       | Some items => if isReadable m then [statusLine m items] else []
       | None => []
       end.

Definition listResume (job : ListJob) (res : ImapBackendResponse) : list ImapAction :=
  match res with
  | Mailboxes ms =>
      let parents := flat_map (fun m => ancestors (m_name m)) ms in
      let childInfo := hasOpt "RECURSIVEMATCH" (lj_select job) && hasOpt "SUBSCRIBED" (lj_select job) in
      let chosen := if childInfo then List.filter (passesSelection (lj_select job)) ms else [] in
      let unreturned := List.filter (fun m => negb (existsb (fun p => compileListPattern p (m_name m)) (lj_patterns job))) chosen in
      let above l := flat_map (fun m => ancestors (m_name m)) l in
      flat_map (listMailbox job parents (above chosen) (above unreturned) childInfo) ms ++ [okReply (lj_tag job) (lj_verb job)]
  | _ => [unexpected (lj_tag job) (lj_verb job) res]
  end.

(** The selection options of LIST. *)
Fixpoint selectOptions (items : list ImapValue) (out : list jsstr) : option (list jsstr) :=
  match items with
  | [] => Some out
  | it :: r =>
      o ← toUpperCase <$> valueText it;
      if bool_decide (o ∈ LIST_SELECT_OPTIONS) then selectOptions r (setAdd o out) else None
  end.

Definition listPrefix (isList : bool) (args : list ImapValue) : (list jsstr * nat) + string :=
  match args with
  | VList items :: _ =>
      if isList then
        match selectOptions items [] with
        | None => inr "unknown selection option"%string
        | Some select =>
            if hasOpt "RECURSIVEMATCH" select && negb (hasOpt "SUBSCRIBED" select) && negb (hasOpt "SPECIAL-USE" select)
            then inr "RECURSIVEMATCH requires another selection option"%string else inl (select, 1%nat)
        end
      else inl ([], O)
  | _ => inl ([], O)
  end.

Definition listPatterns (isList : bool) (arg : option ImapValue) : option (list jsstr) :=
  match arg with
  | Some (VList items) => if isList then match items with [] => None | _ => mapM valueText items end else None
  | Some v => p ← valueText v; Some [p]
  | None => None
  end.

(** The return options of LIST: the STATUS items and SUBSCRIBED. *)
Fixpoint returnOptions (items : list ImapValue) (status : option (list jsstr)) (subscribed : bool) : (option (list jsstr) * bool) + string :=
  match items with
  | [] => inl (status, subscribed)
  | it :: r =>
      let opt := toUpperCase <$> valueText it in
      if isText opt "SUBSCRIBED" then returnOptions r status true
      else if isText opt "CHILDREN" || isText opt "SPECIAL-USE" then returnOptions r status subscribed
      else if isText opt "STATUS" then
        match r with
        | [] => inr "RETURN STATUS expects item list"%string
        | l :: r' =>
            match parseStatusItems l with
            | inl items => returnOptions r' (Some items) subscribed
            | inr why => inr why
            end
        end
      else inr "unknown RETURN option"%string
  end.

Definition listReturn (isList : bool) (rest : list ImapValue) : (option (list jsstr) * bool) + string :=
  match rest with
  | [] => inl (None, false)
  | kw :: VList opts :: [] =>
      if isList && isText (toUpperCase <$> valueText kw) "RETURN" then returnOptions opts None false else inr "invalid arguments"%string
  | _ => inr "invalid arguments"%string
  end.

Section Commands.
Context {SS : ScramServer} `{TextDecoders} `{NodeCrypto}.

Definition badVerb (tag verb : jsstr) (why : string) : Handler := say (tag ++ js " BAD " ++ verb ++ [SP] ++ js why).

Definition cmdList (cmd : ParsedCommand) (verb : jsstr) : Handler :=
  let isList := verb === js "LIST" in
  match listPrefix isList (args cmd) with
  | inr why => badVerb (tag cmd) verb why
  | inl (select, at_) =>
      let ref := textArg cmd at_ in
      let patArg := args cmd !! S at_ in
      let rest := drop (2 + at_) (args cmd) in
      match ref, listPatterns isList patArg with
      | Some ref, Some patterns =>
          match listReturn isList rest with
          | inr why => badVerb (tag cmd) verb why
          | inl (status, returnSubscribed) =>
              let extended := (0 <? at_)%nat || match patArg with Some (VList _) => true | _ => false end || negb (bool_decide (rest = [])) in
              if negb extended && bool_decide (patterns = [[]]) then
                fun s => (s, [AReply (js "* " ++ verb ++ js " (\Noselect) " ++ delimiterText ++ [SP; 34; 34]); okReply (tag cmd) verb])
              else
                let matchers := map (fun p => normalizeMailboxName (joinListPattern ref p)) (List.filter (fun p => negb (len p =? 0)) patterns) in
                callBackend (match status with Some items => statusListRequest items | None => ListMailboxes false false end)
                  (RList {| lj_tag := tag cmd; lj_verb := verb; lj_select := select; lj_patterns := matchers; lj_status := status;
                            lj_returnSubscribed := returnSubscribed || hasOpt "SUBSCRIBED" select |})
          end
      | _, _ => badVerb (tag cmd) verb "expects reference and pattern"
      end
  end.

(** ** Mailboxes *)

Definition oneArg (cmd : ParsedCommand) : bool := (length (args cmd) =? 1)%nat.

Definition cmdSubscribe (cmd : ParsedCommand) : Handler :=
  match mailboxArg cmd 0 with
  | Some n => if oneArg cmd then callBackend (SetSubscribed n (name cmd === js "SUBSCRIBE")) (RDone (tag cmd) (name cmd))
              else badVerb (tag cmd) (name cmd) "expects mailbox name"
  | None => badVerb (tag cmd) (name cmd) "expects mailbox name"
  end.

Definition cmdCreate (cmd : ParsedCommand) : Handler :=
  match (if oneArg cmd then mailboxArg cmd 0 else None) with
  | None => bad (tag cmd) "CREATE expects mailbox name"
  | Some n =>
      let n := if endsWith1 HIERARCHY_DELIMITER n then removelast n else n in
      if (len n =? 0) || (n === js "INBOX") then say (tag cmd ++ js " NO CREATE invalid mailbox name")
      else callBackend (CreateMailbox n) (RDone (tag cmd) (js "CREATE"))
  end.

Definition cmdDelete (cmd : ParsedCommand) : Handler :=
  match (if oneArg cmd then mailboxArg cmd 0 else None) with
  | None => bad (tag cmd) "DELETE expects mailbox name"
  | Some n =>
      if n === js "INBOX" then say (tag cmd ++ js " NO DELETE INBOX is not allowed")
      else callBackend (DeleteMailbox n) (RDone (tag cmd) (js "DELETE"))
  end.

Definition cmdRename (cmd : ParsedCommand) : Handler :=
  match mailboxArg cmd 0, mailboxArg cmd 1 with
  | Some f, Some t =>
      if (length (args cmd) =? 2)%nat then
        if t === js "INBOX" then say (tag cmd ++ js " NO RENAME destination INBOX is not allowed")
        else callBackend (RenameMailbox f t) (RDone (tag cmd) (js "RENAME"))
      else bad (tag cmd) "RENAME expects source and destination"
  | _, _ => bad (tag cmd) "RENAME expects source and destination"
  end.

Definition cmdGetAcl (cmd : ParsedCommand) : Handler :=
  match (if oneArg cmd then mailboxArg cmd 0 else None) with
  | None => bad (tag cmd) "GETACL expects mailbox name"
  | Some n => callBackend (GetAcl n) (RGetAcl (tag cmd))
  end.

Definition cmdSetAcl (cmd : ParsedCommand) : Handler :=
  match mailboxArg cmd 0, textArg cmd 1, textArg cmd 2 with
  | Some n, Some i, Some r =>
      if (length (args cmd) =? 3)%nat then callBackend (SetAcl n i r) (RDone (tag cmd) (js "SETACL"))
      else bad (tag cmd) "SETACL expects mailbox identifier rights"
  | _, _, _ => bad (tag cmd) "SETACL expects mailbox identifier rights"
  end.

Definition cmdDeleteAcl (cmd : ParsedCommand) : Handler :=
  match mailboxArg cmd 0, textArg cmd 1 with
  | Some n, Some i =>
      if (length (args cmd) =? 2)%nat then callBackend (DeleteAcl n i) (RDone (tag cmd) (js "DELETEACL"))
      else bad (tag cmd) "DELETEACL expects mailbox identifier"
  | _, _ => bad (tag cmd) "DELETEACL expects mailbox identifier"
  end.

Definition cmdListRights (cmd : ParsedCommand) : Handler :=
  match mailboxArg cmd 0, textArg cmd 1 with
  | Some n, Some i =>
      if (length (args cmd) =? 2)%nat then callBackend (ListRights n i) (RListRights (tag cmd))
      else bad (tag cmd) "LISTRIGHTS expects mailbox identifier"
  | _, _ => bad (tag cmd) "LISTRIGHTS expects mailbox identifier"
  end.

Definition cmdMyRights (cmd : ParsedCommand) : Handler :=
  match (if oneArg cmd then mailboxArg cmd 0 else None) with
  | None => bad (tag cmd) "MYRIGHTS expects mailbox name"
  | Some n => callBackend (MyRights n) (RMyRights (tag cmd))
  end.

Definition cmdStatus (cmd : ParsedCommand) : Handler :=
  match mailboxArg cmd 0, args cmd with
  | Some n, [_; VList items] =>
      match statusLoop items [] with
      | inr why => bad (tag cmd) why
      | inl [] => bad (tag cmd) "empty STATUS item list"
      | inl wanted => callBackend (statusListRequest wanted) (RStatus (tag cmd) n wanted)
      end
  | _, _ => bad (tag cmd) "STATUS expects mailbox name and item list"
  end.

Definition statusResume (tag mailbox : jsstr) (wanted : list jsstr) (res : ImapBackendResponse) : list ImapAction :=
  match res with
  | Mailboxes ms =>
      match List.find (fun m => m_name m === mailbox) ms with
      | None => [AReply (tag ++ js " NO [NONEXISTENT] STATUS no such mailbox")]
      | Some m => if isReadable m then [statusLine m wanted; okReply tag (js "STATUS")]
                  else [AReply (tag ++ js " NO [NOPERM] STATUS no read access")]
      end
  | _ => [unexpected tag (js "STATUS") res]
  end.

(** ** QUOTA *)

Definition QUOTA_ROOT : jsstr := [].

Definition cmdGetQuota (cmd : ParsedCommand) (verb : jsstr) : Handler :=
  match (if oneArg cmd then mailboxArg cmd 0 else None) with
  | None => badVerb (tag cmd) verb "expects one argument"
  | Some n =>
      if (verb === js "GETQUOTA") && negb (n === QUOTA_ROOT) then say (tag cmd ++ js " NO [NONEXISTENT] no such quota root")
      else callBackend GetQuota (RQuota (tag cmd) verb n)
  end.

Definition quotaResources (used limit : Z) : jsstr :=
  if limit <=? 0 then [] else js "STORAGE " ++ numToString (kib used) ++ [SP] ++ numToString (kib limit).

Definition quotaResume (tag verb mailbox : jsstr) (res : ImapBackendResponse) : list ImapAction :=
  match res with
  | Quota used limit _ =>
      (if verb === js "GETQUOTAROOT" then [AReply (js "* QUOTAROOT " ++ quoteMailboxName mailbox ++ [SP] ++ quoteMailboxName QUOTA_ROOT)] else [])
      ++ [AReply (js "* QUOTA " ++ quoteMailboxName QUOTA_ROOT ++ js " (" ++ quotaResources used limit ++ js ")"); okReply tag verb]
  | _ => [unexpected tag verb res]
  end.

(** ** SELECT and EXAMINE *)

Definition digitText (o : option jsstr) : option JsNum := t ← o; if isDigits t then Some (jsNumber t) else None.

Definition qresyncOf (items : list ImapValue) : option Qresync :=
  match digitText (textOr items 0), digitText (textOr items 1) with
  | Some uv, Some ms =>
      let known := match items !! 2%nat with Some v => valueText v | None => None end in
      Some {| q_uidvalidity := uv; q_modseq := ms; q_known := match known with Some t => parseSequenceSet t | None => None end |}
  | _, _ => None
  end.

(** The parameters of SELECT; CONDSTORE takes effect at once. *)
Fixpoint selectParams (tag verb : jsstr) (items : list ImapValue) (q : option Qresync) (s : Imap) : Imap * (option Qresync + jsstr) :=
  match items with
  | [] => (s, inl q)
  | it :: r =>
      let p := toUpperCase <$> valueText it in
      if isText p "CONDSTORE" then selectParams tag verb r q (enable "CONDSTORE" s)
      else if isText p "QRESYNC" then
        if hasEnabled "QRESYNC" s then
          match r with
          | VList qs :: r' =>
              match qresyncOf qs with
              | Some q => selectParams tag verb r' (Some q) s
              | None => (s, inr (tag ++ js " BAD invalid QRESYNC parameters"))
              end
          | _ => (s, inr (tag ++ js " BAD invalid QRESYNC parameters"))
          end
        else (s, inr (tag ++ js " BAD QRESYNC not enabled"))
      else (s, inr (tag ++ js " BAD unknown " ++ verb ++ js " parameter"))
  end.

Definition selectVerb (writable : bool) : jsstr := if writable then js "SELECT" else js "EXAMINE".

Definition cmdSelect (cmd : ParsedCommand) (writable : bool) : Handler := fun s =>
  let verb := selectVerb writable in
  match mailboxArg cmd 0 with
  | Some n =>
      if (2 <? length (args cmd))%nat then badVerb (tag cmd) verb "expects mailbox name" s
      else
        match args cmd !! 1%nat with
        | Some (VList items) =>
            match selectParams (tag cmd) verb items None s with
            | (s, inr line) => say line s
            | (s, inl q) => callBackend (SelectMailbox n) (RSelect (tag cmd) writable q) (leaveSelected s)
            end
        | Some _ => badVerb (tag cmd) verb "invalid parameters" s
        | None => callBackend (SelectMailbox n) (RSelect (tag cmd) writable None) (leaveSelected s)
        end
  | None => badVerb (tag cmd) verb "expects mailbox name" s
  end.

(** The view of a mailbox that was just opened. *)
Definition viewOf (writable : bool) (m : ImapMailbox) (us : list Z) (keywords : list jsstr) : SelectedView :=
  {| v_name := m_name m; readWrite := writable; v_uidvalidity := m_uidvalidity m; uids := us;
     v_uidnext := Z.max (m_uidnext m) (default 0 (last us) + 1); announcedKeywords := setOf keywords; lastSyncModseq := m_highestmodseq m |}.

Definition selectLines (rev2 writable : bool) (m : ImapMailbox) (us : list Z) (firstUnseen : option Z) (keywords : list jsstr) : list ImapAction :=
  [AReply (flagsLine keywords); AReply (js "* " ++ numToString (len us) ++ js " EXISTS")]
  ++ (if rev2 then [] else [AReply (js "* 0 RECENT")])
  ++ [AReply (js "* OK [UIDVALIDITY " ++ numToString (m_uidvalidity m) ++ js "] UIDs valid")]
  ++ (match m_mailboxId m with Some i => [AReply (js "* OK [MAILBOXID (" ++ i ++ js ")] object id")] | None => [] end)
  ++ [AReply (js "* OK [UIDNEXT " ++ numToString (m_uidnext m) ++ js "] predicted next UID");
      AReply (js "* OK [HIGHESTMODSEQ " ++ numToString (m_highestmodseq m) ++ js "] modseq");
      AReply (if writable then js "* OK [PERMANENTFLAGS (\Answered \Flagged \Deleted \Seen \Draft \*)] flags" else js "* OK [PERMANENTFLAGS ()] read-only")]
  ++ (match firstUnseen with
      | Some n => if rev2 then [] else [AReply (js "* OK [UNSEEN " ++ numToString n ++ js "] first unseen")]
      | None => []
      end).

Definition numIs (n : JsNum) (z : Z) : bool := match n with NumInt k => k =? z | _ => false end.

Definition selectResume (tag : jsstr) (writable : bool) (q : option Qresync) (res : ImapBackendResponse) : Handler := fun s =>
  let verb := selectVerb writable in
  match res with
  | Selected m us firstUnseen keywords =>
      let keywords := default [] keywords in
      let s := s <| selected := Some (viewOf writable m us keywords) |> <| state := SelectedState |> <| savedSearch := [] |> in
      let lines := selectLines (hasEnabled "IMAP4rev2" s) writable m us firstUnseen keywords in
      let tagged := tag ++ js " OK [" ++ (if writable then js "READ-WRITE" else js "READ-ONLY") ++ js "] " ++ verb ++ js " completed" in
      match q with
      | Some q =>
          if numIs (q_uidvalidity q) (m_uidvalidity m) then
            andThen (fun s => (s, lines)) (callBackend (SyncSince (m_name m) (q_modseq q) (q_known q) false) (RSelectSync tagged)) s
          else (s, lines ++ [AReply tagged])
      | None => (s, lines ++ [AReply tagged])
      end
  | _ => (s, [unexpected tag verb res])
  end.

Definition flagsText (flags : list jsstr) : jsstr := js "FLAGS (" ++ joinWith [SP] flags ++ js ")".

Definition earlierLine (us : list Z) : list ImapAction :=
  match us with [] => [] | _ => [AReply (js "* VANISHED (EARLIER) " ++ formatUidSet us)] end.

(** The changes of the messages that are in the view. *)
Fixpoint changedLines (withModseq : bool) (changed : list Changed) : Handler := fun s =>
  match changed with
  | [] => (s, [])
  | c :: r =>
      let n := match selected s with Some v => seqOf (c_uid c) v | None => 0 end in
      if 0 <? n then
        andThen (ensureFlagsAnnounced (c_flags c))
          (andThen (say (js "* " ++ numToString n ++ js " FETCH (UID " ++ numToString (c_uid c) ++ [SP] ++ flagsText (c_flags c)
                         ++ (if withModseq then js " MODSEQ (" ++ numToString (c_modseq c) ++ js ")" else []) ++ js ")"))
             (changedLines withModseq r)) s
      else changedLines withModseq r s
  end.

Definition selectSyncResume (taggedLine : jsstr) (res : ImapBackendResponse) : Handler :=
  match res with
  | Sync vanished changed => andThen (fun s => (s, earlierLine vanished)) (andThen (changedLines true changed) (say taggedLine))
  | _ => say taggedLine
  end.

Definition cmdClose (cmd : ParsedCommand) (v : SelectedView) : Handler := fun s =>
  let s := leaveSelected s in
  if readWrite v then callBackend (ExpungeMailbox (v_name v)) (RDone (tag cmd) (js "CLOSE")) s
  else say (tag cmd ++ js " OK CLOSE completed") s.

(** ** FETCH *)

Record FetchMods := mkMods { fm_changedSince : option JsNum; fm_vanished : bool }.

Fixpoint fetchMods (mods : list ImapValue) (m : FetchMods) : option FetchMods :=
  match mods with
  | [] => Some m
  | v :: r =>
      let n := match v with VAtom a => Some (toUpperCase a) | _ => None end in
      if isText n "CHANGEDSINCE" && bool_decide (fm_changedSince m = None) then
        match r with
        | w :: r' => k ← digitText (valueText w); fetchMods r' (m <| fm_changedSince := Some k |>)
        | [] => None
        end
      else if isText n "VANISHED" && negb (fm_vanished m) then fetchMods r (m <| fm_vanished := true |>)
      else None
  end.

(** The last argument when it is a list of modifiers. *)
Definition modifierList (itemArgs : list ImapValue) : option (list ImapValue) :=
  match last itemArgs with
  | Some (VList mods) =>
      if (2 <=? length itemArgs)%nat && (isText (upperOr mods 0) "CHANGEDSINCE" || isText (upperOr mods 0) "VANISHED") then Some mods else None
  | _ => None
  end.

Definition isUidItem (it : FetchItem) : bool := match it with FUid => true | _ => false end.
Definition isModseqItem (it : FetchItem) : bool := match it with FModseq => true | _ => false end.
Definition isFlagsItem (it : FetchItem) : bool := match it with FFlags => true | _ => false end.
Definition itemNeedsRaw (it : FetchItem) : bool :=
  match it with FEnvelope | FBody | FBodystructure | FSection _ _ _ _ | FBinary _ _ _ _ | FBinarySize _ _ => true | _ => false end.
Definition itemMarksSeen (it : FetchItem) : bool :=
  match it with FSection peek _ _ _ => negb peek | FBinary peek _ _ _ => negb peek | _ => false end.

Definition fetchItemWire (it : FetchItem) (u : Z) (d : ImapFetchData) : option jsstr :=
  let raw := default [] (d_raw d) in
  let inParens o := match o with None => js "NIL" | Some i => js "(" ++ i ++ js ")" end in
  match it with
  | FFlags => Some (flagsText (d_flags d))
  | FUid => Some (js "UID " ++ numToString u)
  | FModseq => Some (js "MODSEQ (" ++ numToString (d_modseq d) ++ js ")")
  | FInternaldate => Some (js "INTERNALDATE " ++ [34] ++ formatInternalDate (d_internalDateMs d) ++ [34])
  | FEmailid => Some (js "EMAILID " ++ inParens (d_emailId d))
  | FThreadid => Some (js "THREADID " ++ inParens (match d_threadId d with Some [] => None | o => o end))
  | FSavedate => Some (js "SAVEDATE " ++ match d_saveDateMs d with None => js "NIL" | Some t => [34] ++ formatInternalDate t ++ [34] end)
  | FRfc822size => Some (js "RFC822.SIZE " ++ numToString (d_size d))
  | FEnvelope => Some (js "ENVELOPE " ++ formatEnvelope raw)
  | FBody => Some (js "BODY " ++ formatBodyStructure raw false)
  | FBodystructure => Some (js "BODYSTRUCTURE " ++ formatBodyStructure raw true)
  | FSection _ spec partial label =>
      Some (label ++ [SP] ++ match extractSection raw spec with None => js "NIL" | Some bs => literalWire (partialBytes partial bs) end)
  | FBinary _ p partial label =>
      match extractBinary raw p with
      | None => Some (label ++ js " NIL")
      | Some BinUnknownCte => None
      | Some (BinBytes bs) => Some (label ++ [SP] ++ binaryLiteralWire (partialBytes partial bs))
      end
  | FBinarySize p label =>
      match extractBinary raw p with
      | None => Some (label ++ js " 0")
      | Some BinUnknownCte => None
      | Some (BinBytes bs) => Some (label ++ [SP] ++ numToString (len bs))
      end
  end.

(** [new Map(messages.map((m) => [m.uid, m])).get(u)]: the last of a uid. *)
Definition dataOf (u : Z) (ms : list ImapFetchData) : option ImapFetchData := last (List.filter (fun d => d_uid d =? u) ms).

(** [data.modseq <= changedSince] *)
Definition unchanged (since : option JsNum) (modseq : Z) : bool := match since with Some n => negb (numLt n modseq) | None => false end.

(** The lines of one batch; [true] stops the command: a part cannot be decoded. *)
Fixpoint emitBatch (job : FetchJob) (ms : list ImapFetchData) (batch : list Target) (s : Imap) : Imap * list ImapAction * bool :=
  match batch with
  | [] => (s, [], false)
  | t :: r =>
      match dataOf (t_uid t) ms with
      | None => emitBatch job ms r s
      | Some d =>
          if unchanged (fj_changedSince job) (d_modseq d) then emitBatch job ms r s
          else
            match mapM (fun it => fetchItemWire it (t_uid t) d) (fj_items job) with
            | None => (s, [], true)
            | Some parts =>
                let '(s, a) := (if existsb isFlagsItem (fj_items job) then ensureFlagsAnnounced (d_flags d) s else (s, [])) in
                let line := AReplyBinary (wireToBytes (js "* " ++ numToString (t_seq t) ++ js " FETCH (" ++ joinWith [SP] parts ++ js ")" ++ crlf)) in
                let '(s, b, stop) := emitBatch job ms r s in
                (s, a ++ line :: b, stop)
            end
      end
  end.

Definition fetchFrom (job : FetchJob) (todo : list Target) : Handler :=
  match todo with
  | [] => fun s => (s, [okReply (fj_tag job) (fj_verb job)])
  | _ =>
      callBackend (FetchMessages (fj_name job) (map t_uid (take (batchSize (fj_needRaw job)) todo)) (fj_needRaw job) (fj_markSeen job) false)
        (RFetch job todo)
  end.

Definition fetchResume (job : FetchJob) (todo : list Target) (res : ImapBackendResponse) : Handler := fun s =>
  match res with
  | Messages ms =>
      let n := batchSize (fj_needRaw job) in
      let '(s, a, stop) := emitBatch job ms (take n todo) s in
      if stop : bool then
        (s, a ++ [AReply (fj_tag job ++ js " NO [UNKNOWN-CTE] " ++ fj_verb job ++ js " cannot decode section")])
      else let '(s, b) := fetchFrom job (drop n todo) s in (s, a ++ b)
  | _ => (s, [unexpected (fj_tag job) (fj_verb job) res])
  end.

Definition fixStar (maxUid : Z) (r : SeqRange) : SeqRange :=
  mkRange (SNum (resolve (from r) maxUid)) (SNum (resolve (to r) maxUid)).

Definition verbOf (uidMode : bool) (verb : string) : jsstr := (if uidMode then js "UID " else []) ++ js verb.

(** FETCH once its modifiers are read. *)
Definition startFetch (tag verb : jsstr) (uidMode : bool) (ranges : list SeqRange) (items : list FetchItem) (mods : FetchMods) (v : SelectedView) : Handler :=
  let items := if uidMode && negb (existsb isUidItem items) then items ++ [FUid] else items in
  let items := if bool_decide (is_Some (fm_changedSince mods)) && negb (existsb isModseqItem items) then items ++ [FModseq] else items in
  let targets := resolveTargets ranges uidMode v in
  let job := {| fj_tag := tag; fj_verb := verb; fj_name := v_name v; fj_items := items; fj_needRaw := existsb itemNeedsRaw items;
                fj_markSeen := readWrite v && existsb itemMarksSeen items; fj_changedSince := fm_changedSince mods |} in
  match fm_vanished mods, fm_changedSince mods with
  | true, Some since =>
      let maxUid := default (v_uidnext v) (last (uids v)) in
      let requested := map (fixStar maxUid) ranges in
      callBackend (SyncSince (v_name v) since (Some requested) true) (RFetchVanished job targets requested maxUid)
  | _, _ => fetchFrom job targets
  end.

Definition cmdFetch (cmd : ParsedCommand) (uidMode : bool) (v : SelectedView) : Handler := fun s =>
  let verb := verbOf uidMode "FETCH" in
  let ranges := setArg cmd uidMode s in
  let itemArgs := drop 1 (args cmd) in
  let finish mods itemArgs s :=
    match ranges with
    | Some ranges =>
        match parseFetchItems itemArgs with
        | Some items => startFetch (tag cmd) verb uidMode ranges items mods v s
        | None => badVerb (tag cmd) verb "invalid arguments" s
        end
    | None => badVerb (tag cmd) verb "invalid arguments" s
    end in
  match modifierList itemArgs with
  | None => finish {| fm_changedSince := None; fm_vanished := false |} itemArgs s
  | Some mods =>
      match fetchMods mods {| fm_changedSince := None; fm_vanished := false |} with
      | None => badVerb (tag cmd) verb "invalid CHANGEDSINCE" s
      | Some m =>
          if fm_vanished m && bool_decide (fm_changedSince m = None) then bad (tag cmd) "VANISHED requires CHANGEDSINCE" s
          else if fm_vanished m && negb uidMode then bad (tag cmd) "VANISHED requires UID FETCH" s
          else if fm_vanished m && negb (hasEnabled "QRESYNC" s) then bad (tag cmd) "QRESYNC not enabled" s
          else finish m (removelast itemArgs) (enable "CONDSTORE" s)
      end
  end.

Definition fetchVanishedResume (job : FetchJob) (targets : list Target) (requested : list SeqRange) (maxUid : Z) (res : ImapBackendResponse) : Handler :=
  match res with
  | Sync vanished _ =>
      andThen (fun s => (s, earlierLine (List.filter (fun u => matchSequenceSet requested u maxUid) vanished))) (fetchFrom job targets)
  | _ => fun s => (s, [unexpected (fj_tag job) (fj_verb job) res])
  end.

(** ** APPEND and REPLACE *)

(** Where the loop over the arguments stands: a flag list may come, then a date, then the message. *)
Inductive AppendPhase := WantFlags | WantDate (flags : list jsstr) | WantMessage (flags : list jsstr) (date : Z).

Definition phaseFlags (p : AppendPhase) : list jsstr := match p with WantFlags => [] | WantDate f | WantMessage f _ => f end.
Definition phaseDate (p : AppendPhase) : option Z := match p with WantMessage _ d => Some d | _ => None end.

(** Text for a message is encoded as UTF-8. *)
Definition messageBytes (v : ImapValue) : option bytes :=
  match v with VLiteral d => Some d | VQuoted t => Some (utf8Encode t) | _ => None end.

Definition dateArg (v : ImapValue) : option Z := match v with VQuoted t => parseImapDateTime t | _ => None end.

(** The next item takes one argument: flags, a date, or the message that ends it. *)
Definition appendStep (verb : jsstr) (v : ImapValue) (p : AppendPhase) : (AppendPhase + AppendItem) + jsstr :=
  let message :=
    match messageBytes v with
    | None => inr (js " BAD " ++ verb ++ js " expects message literal")
    | Some [] => inr (js " NO " ++ verb ++ js " empty message")
    | Some raw => inl (inr {| ai_raw := raw; ai_flags := phaseFlags p; ai_date := phaseDate p |})
    end in
  match p, v with
  | WantFlags, VList fs =>
      match mapM valueText fs with
      | None => inr (js " BAD " ++ verb ++ js " invalid flag")
      | Some flags => inl (inl (WantDate flags))
      end
  | WantMessage _ _, _ => message
  | _, _ => match dateArg v with Some ms => inl (inl (WantMessage (phaseFlags p) ms)) | None => message end
  end.

Fixpoint appendLoop (args : list ImapValue) (p : AppendPhase) (items : list AppendItem) : list AppendItem + jsstr :=
  match args with
  | [] => match p with WantFlags => inl items | _ => inr (js " BAD APPEND expects message literal") end
  | v :: r =>
      match appendStep (js "APPEND") v p with
      | inr e => inr e
      | inl (inl p) => appendLoop r p items
      | inl (inr it) => appendLoop r WantFlags (items ++ [it])
      end
  end.

Definition cmdAppend (cmd : ParsedCommand) : Handler :=
  match mailboxArg cmd 0 with
  | None => bad (tag cmd) "APPEND expects mailbox name"
  | Some n =>
      match appendLoop (drop 1 (args cmd)) WantFlags [] with
      | inr e => say (tag cmd ++ e)
      | inl [] => bad (tag cmd) "APPEND expects message literal"
      | inl ((first :: _) as items) =>
          callBackend (AppendMessage n (ai_flags first) (ai_date first) (ai_raw first) items) (RAppend (tag cmd) n)
      end
  end.

(** The messages that came into the selected mailbox. *)
Definition addToView (mailbox : jsstr) (us : list Z) : Handler :=
  onView (fun v => if v_name v === mailbox then addUids (pushNew us (uids v)) v else (v, [])).

Definition appendResume (tag mailbox : jsstr) (res : ImapBackendResponse) : Handler :=
  match res with
  | Appended uv u us =>
      let us := default [u] us in
      andThen (addToView mailbox us) (say (tag ++ js " OK [APPENDUID " ++ numToString uv ++ [SP] ++ formatUidSet us ++ js "] APPEND completed"))
  | _ => fun s => (s, [unexpected tag (js "APPEND") res])
  end.

(** The arguments of REPLACE behind the mailbox: one item, and nothing behind it. *)
Fixpoint replaceItem (verb : jsstr) (args : list ImapValue) (p : AppendPhase) : AppendItem + jsstr :=
  match args with
  | [] => inr (js " BAD " ++ verb ++ js " expects message literal")
  | v :: r =>
      match appendStep verb v p with
      | inr e => inr e
      | inl (inl p) => replaceItem verb r p
      | inl (inr it) => match r with [] => inl it | _ => inr (js " BAD " ++ verb ++ js " invalid arguments") end
      end
  end.

Definition readOnly (tag : jsstr) : Handler := say (tag ++ js " NO [READ-ONLY] mailbox is read-only").

Definition cmdReplace (cmd : ParsedCommand) (uidMode : bool) (v : SelectedView) : Handler := fun s =>
  let verb := verbOf uidMode "REPLACE" in
  if negb (readWrite v) then readOnly (tag cmd) s
  else
    match setArg cmd uidMode s with
    | None => badVerb (tag cmd) verb "expects a message number" s
    | Some ranges =>
        match resolveTargets ranges uidMode v with
        | [t] =>
            match mailboxArg cmd 1 with
            | None => badVerb (tag cmd) verb "expects mailbox name" s
            | Some dest =>
                match replaceItem verb (drop 2 (args cmd)) WantFlags with
                | inr e => say (tag cmd ++ e) s
                | inl it => callBackend (ReplaceMessage (v_name v) dest (t_uid t) (ai_raw it) (ai_flags it) (ai_date it)) (RReplace (tag cmd) verb dest) s
                end
            end
        | _ => say (tag cmd ++ js " NO " ++ verb ++ js " expects exactly one message") s
        end
    end.

Definition replaceResume (tag verb dest : jsstr) (res : ImapBackendResponse) : Handler :=
  match res with
  | Replaced uv u expunged =>
      andThen (addToView dest [u])
        (andThen (match expunged with Some old => removalActions [old] | None => fun s => (s, []) end)
           (say (tag ++ js " OK [APPENDUID " ++ numToString uv ++ [SP] ++ numToString u ++ js "] " ++ verb ++ js " completed")))
  | _ => fun s => (s, [unexpected tag verb res])
  end.

(** ** COPY and MOVE *)

Definition cmdCopyMove (cmd : ParsedCommand) (uidMode isMove : bool) (v : SelectedView) : Handler := fun s =>
  let verb := verbOf uidMode (if isMove then "MOVE" else "COPY") in
  if isMove && negb (readWrite v) then readOnly (tag cmd) s
  else
    match setArg cmd uidMode s, mailboxArg cmd 1 with
    | Some ranges, Some dest =>
        if (length (args cmd) =? 2)%nat then
          match map t_uid (resolveTargets ranges uidMode v) with
          | [] => (s, [okReply (tag cmd) verb])
          | us => callBackend (if isMove then MoveMessages (v_name v) dest us else CopyMessages (v_name v) dest us) (RCopyMove (tag cmd) verb isMove) s
          end
        else badVerb (tag cmd) verb "invalid arguments" s
    | _, _ => badVerb (tag cmd) verb "invalid arguments" s
    end.

Definition copyMoveResume (tag verb : jsstr) (isMove : bool) (res : ImapBackendResponse) : Handler :=
  match res with
  | Copied uv src dst =>
      let copyuid := js "COPYUID " ++ numToString uv ++ [SP] ++ formatUidSet src ++ [SP] ++ formatUidSet dst in
      if isMove then
        andThen (say (js "* OK [" ++ copyuid ++ js "] moved")) (andThen (removalActions src) (fun s => (s, [okReply tag verb])))
      else say (tag ++ js " OK [" ++ copyuid ++ js "] " ++ verb ++ js " completed")
  | _ => fun s => (s, [unexpected tag verb res])
  end.

(** ** STORE *)

(** [/^([+-]?)FLAGS(\.SILENT)?$/] *)
Definition storeItem (text : jsstr) : option (StoreMode * bool) :=
  let '(mode, r) := match text with 43 :: r => (StoreAdd, r) | 45 :: r => (StoreRemove, r) | _ => (StoreSet, text) end in
  if r === js "FLAGS" then Some (mode, false) else if r === js "FLAGS.SILENT" then Some (mode, true) else None.

Definition cmdStore (cmd : ParsedCommand) (uidMode : bool) (v : SelectedView) : Handler := fun s =>
  let verb := verbOf uidMode "STORE" in
  if negb (readWrite v) then readOnly (tag cmd) s
  else
    let ranges := setArg cmd uidMode s in
    let finish argIdx since s :=
      match ranges, upperArg cmd argIdx with
      | Some ranges, Some ((_ :: _) as itemText) =>
          match storeItem itemText with
          | None => badVerb (tag cmd) verb "unknown data item" s
          | Some (mode, silent) =>
              match mapM valueText (match drop (S argIdx) (args cmd) with [VList items] => items | vs => vs end) with
              | None => badVerb (tag cmd) verb "invalid flag" s
              | Some flags =>
                  match resolveTargets ranges uidMode v with
                  | [] => (s, [okReply (tag cmd) verb])
                  | targets => callBackend (StoreFlags (v_name v) (map t_uid targets) mode flags since) (RStore (tag cmd) verb uidMode silent targets) s
                  end
              end
          end
      | _, _ => badVerb (tag cmd) verb "invalid arguments" s
      end in
    match args cmd !! 1%nat with
    | Some (VList mods) =>
        if isText (upperOr mods 0) "UNCHANGEDSINCE" then
          match digitText (textOr mods 1), (length mods =? 2)%nat with
          | Some n, true => finish 2%nat (Some n) (enable "CONDSTORE" s)
          | _, _ => badVerb (tag cmd) verb "invalid UNCHANGEDSINCE" s
          end
        else finish 1%nat None s
    | _ => finish 1%nat None s
    end.

(** [new Map(targets.map((t) => [t.uid, t.seq])).get(u)] *)
Definition seqByUid (targets : list Target) (u : Z) : option Z := t_seq <$> last (List.filter (fun t => t_uid t =? u) targets).

Fixpoint storeLines (uidMode condstore : bool) (targets : list Target) (updated : list FlagsUpdate) : Handler := fun s =>
  match updated with
  | [] => (s, [])
  | u :: r =>
      match seqByUid targets (u_uid u) with
      | None => storeLines uidMode condstore targets r s
      | Some n =>
          andThen (ensureFlagsAnnounced (u_flags u))
            (andThen (say (js "* " ++ numToString n ++ js " FETCH (" ++ flagsText (u_flags u)
                           ++ (if uidMode then js " UID " ++ numToString (u_uid u) else [])
                           ++ (match u_modseq u with
                               | Some m => if condstore then js " MODSEQ (" ++ numToString m ++ js ")" else []
                               | None => []
                               end) ++ js ")"))
               (storeLines uidMode condstore targets r)) s
      end
  end.

Definition storeResume (tag verb : jsstr) (uidMode silent : bool) (targets : list Target) (res : ImapBackendResponse) : Handler := fun s =>
  match res with
  | FlagsUpdated updated failed =>
      let final := match default [] failed with
                   | [] => okReply tag verb
                   | failed =>
                       let set := if uidMode then failed else List.filter (fun n => 0 <? n) (map (fun u => default 0 (seqByUid targets u)) failed) in
                       AReply (tag ++ js " OK [MODIFIED " ++ formatUidSet set ++ js "] conditional " ++ verb ++ js " failed for some messages")
                   end in
      andThen (if silent then fun s => (s, []) else storeLines uidMode (hasEnabled "CONDSTORE" s) targets updated) (fun s => (s, [final])) s
  | _ => (s, [unexpected tag verb res])
  end.

(** ** EXPUNGE *)

Definition cmdExpunge (cmd : ParsedCommand) (uidRanges : option (list SeqRange)) (v : SelectedView) : Handler :=
  let verb := verbOf (bool_decide (is_Some uidRanges)) "EXPUNGE" in
  if negb (readWrite v) then readOnly (tag cmd)
  else
    match (fun ranges => map t_uid (resolveTargets ranges true v)) <$> uidRanges with
    | Some [] => fun s => (s, [okReply (tag cmd) verb])
    | limit => callBackend (Expunge (v_name v) limit) (RExpunge (tag cmd) verb)
    end.

Definition expungeResume (tag verb : jsstr) (res : ImapBackendResponse) : Handler :=
  match res with
  | Expunged us => andThen (removalActions us) (fun s => (s, [okReply tag verb]))
  | _ => fun s => (s, [unexpected tag verb res])
  end.

(** ** NOOP and IDLE: what changed in the mailbox *)

Definition sayIf (o : option jsstr) : Handler := match o with Some t => say t | None => fun s => (s, []) end.

Definition refreshSelected (taggedOk : option jsstr) : Handler := fun s =>
  match selected s with
  | None => sayIf taggedOk s
  | Some v => callBackend (SelectMailbox (v_name v)) (RRefresh taggedOk) s
  end.

(** The keywords of the mailbox, and those that came up since the snapshot. *)
Definition syncKeywordList (dbKeywords extra : list jsstr) : Handler :=
  onView (fun v =>
    let final := fold_left (fun acc k => if startsWith (js "\") k then acc else setAdd k acc) extra dbKeywords in
    let differs := negb (length final =? length (announcedKeywords v))%nat || existsb (fun k => negb (bool_decide (k ∈ announcedKeywords v))) final in
    if differs then (v <| announcedKeywords := final |>, [AReply (flagsLine final)]) else (v, [])).

Definition addSnapshot (m : ImapMailbox) (us : list Z) : Handler :=
  onView (fun v =>
    let v := v <| v_uidnext ::= Z.max (m_uidnext m) |> in
    addUids (List.filter (fun u => negb (bool_decide (u ∈ uids v))) us) v).

(** The uids of the view that the snapshot does not have. *)
Definition goneUids (us : list Z) (s : Imap) : list Z :=
  match selected s with Some v => List.filter (fun u => negb (bool_decide (u ∈ us))) (uids v) | None => [] end.

Definition refreshResume (taggedOk : option jsstr) (res : ImapBackendResponse) : Handler := fun s =>
  match res, selected s with
  | Selected m us _ keywords, Some v =>
      let dbKeywords := setOf (default [] keywords) in
      let since := lastSyncModseq v in
      andThen (removalActions (goneUids us s))
        (andThen (addSnapshot m us)
           (if m_highestmodseq m <=? since then andThen (syncKeywordList dbKeywords []) (sayIf taggedOk)
            else callBackend (SyncSince (v_name v) (NumInt since) None false) (RRefreshSync taggedOk dbKeywords (m_highestmodseq m)))) s
  | _, _ => sayIf taggedOk s
  end.

(** The flags of the changed messages of the view. *)
Definition deltaKeywords (changed : list Changed) (v : SelectedView) : list jsstr :=
  flat_map c_flags (List.filter (fun c => 0 <? seqOf (c_uid c) v) changed).

Definition refreshSyncResume (taggedOk : option jsstr) (dbKeywords : list jsstr) (newWatermark : Z) (res : ImapBackendResponse) : Handler := fun s =>
  match res, selected s with
  | Sync _ changed, Some v =>
      andThen (changedLines (hasEnabled "CONDSTORE" s) changed)
        (andThen (syncKeywordList dbKeywords (deltaKeywords changed v)) (sayIf taggedOk))
        (s <| selected := Some (v <| lastSyncModseq := newWatermark |>) |>)
  | _, _ => andThen (syncKeywordList dbKeywords []) (sayIf taggedOk) s
  end.

(** ** SEARCH *)

Definition hasSave (esearch : option (list jsstr)) : bool := match esearch with Some e => hasOpt "SAVE" e | None => false end.

Definition savedFor (esearch : list jsstr) (hitUids : list Z) : list Z :=
  match hitUids with
  | [] => []
  | u0 :: _ =>
      let minMaxOnly := (hasOpt "MIN" esearch || hasOpt "MAX" esearch) && negb (hasOpt "ALL" esearch) && negb (hasOpt "COUNT" esearch) in
      if minMaxOnly then
        let ends := (if hasOpt "MIN" esearch then [u0] else []) ++ (if hasOpt "MAX" esearch then [List.last hitUids u0] else []) in
        sortedUnique ends
      else hitUids
  end.

Definition searchReply (tag : jsstr) (uidMode : bool) (esearch : option (list jsstr)) (hits : list Z) : option jsstr :=
  match esearch with
  | None => Some (js "* SEARCH" ++ match hits with [] => [] | _ => [SP] ++ joinWith [SP] (map numToString hits) end)
  | Some e =>
      if hasOpt "SAVE" e && (length e =? 1)%nat then None
      else
        let found :=
          match hits with
          | [] => []
          | h :: r =>
              (if hasOpt "MIN" e then [js "MIN " ++ numToString (fold_left Z.min r h)] else [])
              ++ (if hasOpt "MAX" e then [js "MAX " ++ numToString (fold_left Z.max r h)] else [])
              ++ (if hasOpt "ALL" e then [js "ALL " ++ formatUidSet hits] else [])
          end in
        Some (js "* ESEARCH "
              ++ joinWith [SP] ([js "(TAG " ++ [34] ++ tag ++ [34] ++ js ")"] ++ (if uidMode then [js "UID"] else []) ++ found
                                ++ (if hasOpt "COUNT" e then [js "COUNT " ++ numToString (len hits)] else [])))
  end.

(** The options of RETURN. *)
Fixpoint returnSet (items : list ImapValue) (out : list jsstr) : option (list jsstr) :=
  match items with
  | [] => Some (match out with [] => [js "ALL"] | _ => out end)
  | it :: r =>
      t ← toUpperCase <$> valueText it;
      if bool_decide (t ∈ [js "MIN"; js "MAX"; js "COUNT"; js "ALL"; js "SAVE"]) then returnSet r (setAdd t out) else None
  end.

Definition searchMessage (n u : Z) (d : ImapFetchData) : SearchMessage :=
  {| s_seq := n; s_uid := u; s_flags := d_flags d; s_size := d_size d; s_internalDateMs := d_internalDateMs d; s_saveDateMs := d_saveDateMs d;
     s_modseq := Some (d_modseq d); s_raw := d_raw d |}.

(** The messages of a batch that the program matches, with their numbers and data. *)
Definition batchHits (job : SearchJob) (offset : nat) (batchUids : list Z) (ms : list ImapFetchData) : list (Z * Z * ImapFetchData) :=
  omap id (imap (fun k u =>
    d ← dataOf u ms;
    let n := Z.of_nat (offset + k) + 1 in
    if evaluateSearch (sj_key job) (searchMessage n u d) (sj_maxSeq job) (sj_maxUid job) then Some (n, u, d) else None) batchUids).

Definition hitNum (job : SearchJob) (h : Z * Z * ImapFetchData) : Z := if sj_uidMode job then h.1.2 else h.1.1.

Definition viewUids (s : Imap) : list Z := match selected s with Some v => uids v | None => [] end.

(** The uids of the batch at [offset]. *)
Definition batchAt (job : SearchJob) (offset : nat) (s : Imap) : list Z := take (batchSize (searchNeedsRaw (sj_key job))) (drop offset (viewUids s)).

Definition searchFrom (job : SearchJob) (esearch : option (list jsstr)) (offset : nat) (hits hitUids : list Z) : Handler := fun s =>
  let batch := batchAt job offset s in
  callBackend (FetchMessages (sj_name job) batch (searchNeedsRaw (sj_key job)) false false) (RSearch job esearch offset batch hits hitUids) s.

(** The answer, and [$] when it is to be saved. *)
Definition searchDone (job : SearchJob) (esearch : option (list jsstr)) (hits hitUids : list Z) : Handler := fun s =>
  let s := match esearch with Some e => if hasOpt "SAVE" e then s <| savedSearch := savedFor e hitUids |> else s | None => s end in
  (s, map AReply (option_list (searchReply (sj_tag job) (sj_uidMode job) esearch hits)) ++ [okReply (sj_tag job) (sj_verb job)]).

Definition searchResume (job : SearchJob) (esearch : option (list jsstr)) (offset : nat) (batchUids hits hitUids : list Z) (res : ImapBackendResponse) : Handler := fun s =>
  match res with
  | Messages ms =>
      let found := batchHits job offset batchUids ms in
      let hits := hits ++ map (hitNum job) found in
      let hitUids := hitUids ++ map (fun h => h.1.2) found in
      let next := (offset + batchSize (searchNeedsRaw (sj_key job)))%nat in
      if (next <? length (viewUids s))%nat then searchFrom job esearch next hits hitUids s else searchDone job esearch hits hitUids s
  | _ => (s, [unexpected (sj_tag job) (sj_verb job) res])
  end.

Definition badCriteria (tag verb : jsstr) (badCharset : bool) : Handler :=
  if badCharset then say (tag ++ js " NO [BADCHARSET (UTF-8 US-ASCII)] unsupported charset") else badVerb tag verb "invalid search criteria".

Definition jobOf (tag verb : jsstr) (uidMode : bool) (key : SearchKey) (v : SelectedView) : SearchJob :=
  {| sj_tag := tag; sj_verb := verb; sj_uidMode := uidMode; sj_name := v_name v; sj_key := key; sj_maxSeq := len (uids v); sj_maxUid := maxUidOf v |}.

(** SEARCH once its RETURN options are read. *)
Definition startSearch (tag verb : jsstr) (uidMode : bool) (esearch : option (list jsstr)) (critArgs : list ImapValue) (v : SelectedView) : Handler :=
  match parseSearchProgram critArgs with
  | Err badCharset => badCriteria tag verb badCharset
  | Fuel => fun s => (s, [])
  | Ok key =>
      match uids v with
      | [] => searchDone (jobOf tag verb uidMode key v) esearch [] []
      | _ => searchFrom (jobOf tag verb uidMode key v) esearch 0 [] []
      end
  end.

Definition cmdSearch (cmd : ParsedCommand) (uidMode : bool) (v : SelectedView) : Handler := fun s =>
  let verb := verbOf uidMode "SEARCH" in
  match isText (upperOr (args cmd) 0) "RETURN", args cmd !! 1%nat with
  | true, Some (VList opts) =>
      match returnSet opts [] with
      | None => bad (tag cmd) "unknown RETURN option" s
      | Some e => startSearch (tag cmd) verb uidMode (Some e) (drop 2 (args cmd)) v s
      end
  | _, _ => startSearch (tag cmd) verb uidMode (if hasEnabled "IMAP4rev2" s then Some [js "ALL"] else None) (args cmd) v s
  end.

(** ** SORT and THREAD *)

Definition sortFrom (job : SearchJob) (mode : SortMode) (offset : nat) (hits : list SortItem) (meta : SortMeta) : Handler := fun s =>
  let batch := batchAt job offset s in
  callBackend (FetchMessages (sj_name job) batch (searchNeedsRaw (sj_key job)) false true) (RSort job mode offset batch hits meta) s.

Definition noSortKeys : ImapSortKeys := {| k_subjectBase := []; k_sentAtMs := 0; k_threadId := []; k_from := []; k_to := []; k_cc := [] |}.

Definition sortItemOf (job : SearchJob) (h : Z * Z * ImapFetchData) : SortItem :=
  {| num := hitNum job h; seq_ := h.1.1; uid_ := h.1.2; keys := default noSortKeys (d_sortKeys h.2) |}.

Definition sortLine (mode : SortMode) (hits : list SortItem) (meta : SortMeta) : jsstr :=
  match mode with ModeSort spec => formatSortLine hits spec meta | ModeThread algorithm => formatThreadLine hits algorithm end.

Definition sortResume (job : SearchJob) (mode : SortMode) (offset : nat) (batchUids : list Z) (hits : list SortItem) (meta : SortMeta) (res : ImapBackendResponse) : Handler := fun s =>
  match res with
  | Messages ms =>
      let found := batchHits job offset batchUids ms in
      let hits := hits ++ map (sortItemOf job) found in
      let meta := rev (map (fun h => (h.1.2, (d_internalDateMs h.2, d_size h.2))) found) ++ meta in
      let next := (offset + batchSize (searchNeedsRaw (sj_key job)))%nat in
      if (next <? length (viewUids s))%nat then sortFrom job mode next hits meta s
      else (s, [AReply (sortLine mode hits meta); okReply (sj_tag job) (sj_verb job)])
  | _ => (s, [unexpected (sj_tag job) (sj_verb job) res])
  end.

(** The criteria of SORT or the algorithm of THREAD. *)
Definition sortMode (isSort : bool) (args : list ImapValue) : SortMode + string :=
  if isSort then
    match args with
    | VList items :: _ => match parseSortSpec items with Some spec => inl (ModeSort spec) | None => inr "invalid sort criteria"%string end
    | _ => inr "expects a sort criteria list"%string
    end
  else
    match upperOr args 0 with
    | Some alg => if (alg === js "ORDEREDSUBJECT") || (alg === js "REFERENCES") then inl (ModeThread alg) else inr "unsupported threading algorithm"%string
    | None => inr "unsupported threading algorithm"%string
    end.

Definition cmdSortThread (cmd : ParsedCommand) (uidMode isSort : bool) (v : SelectedView) : Handler :=
  let verb := verbOf uidMode (if isSort then "SORT" else "THREAD") in
  match sortMode isSort (args cmd) with
  | inr why => badVerb (tag cmd) verb why
  | inl mode =>
      match upperOr (args cmd) 1 with
      | None => badVerb (tag cmd) verb "expects a charset"
      | Some cs =>
          if isCharset (Some cs) then
            match parseSearchProgram (drop 2 (args cmd)) with
            | Err badCharset => badCriteria (tag cmd) verb badCharset
            | Fuel => fun s => (s, [])
            | Ok key =>
                match uids v with
                | [] => fun s => (s, [AReply (if isSort then js "* SORT" else js "* THREAD"); okReply (tag cmd) verb])
                | _ => sortFrom (jobOf (tag cmd) verb uidMode key v) mode 0 [] []
                end
            end
          else badCriteria (tag cmd) verb true
      end
  end.

(** ** UID *)

Definition cmdUid (cmd : ParsedCommand) : Handler := fun s =>
  let rest := {| tag := tag cmd; name := default [] (upperArg cmd 0); args := drop 1 (args cmd) |} in
  let sub := name rest in
  let selected fn := requireSelected (tag cmd) fn s in
  match upperArg cmd 0 with
  | None => bad (tag cmd) "unknown UID command" s
  | Some _ =>
      if sub === js "FETCH" then selected (cmdFetch rest true)
      else if sub === js "STORE" then selected (cmdStore rest true)
      else if sub === js "SEARCH" then selected (cmdSearch rest true)
      else if sub === js "SORT" then selected (cmdSortThread rest true true)
      else if sub === js "THREAD" then selected (cmdSortThread rest true false)
      else if sub === js "COPY" then selected (cmdCopyMove rest true false)
      else if sub === js "MOVE" then selected (cmdCopyMove rest true true)
      else if sub === js "REPLACE" then selected (cmdReplace rest true)
      else if sub === js "EXPUNGE" then
        match setArg rest true s with
        | None => bad (tag cmd) "UID EXPUNGE expects sequence set" s
        | Some ranges => selected (cmdExpunge rest (Some ranges))
        end
      else bad (tag cmd) "unknown UID command" s
  end.

(** ** The answer of the store *)

Definition aclResume (tag : jsstr) (res : ImapBackendResponse) : list ImapAction :=
  match res with
  | Acl mailbox entries =>
      [AReply (js "* ACL " ++ quoteMailboxName mailbox ++ [SP] ++ joinWith [SP] (flat_map (fun e => [e.1; e.2]) entries)); okReply tag (js "GETACL")]
  | _ => [unexpected tag (js "GETACL") res]
  end.

Definition listRightsResume (tag : jsstr) (res : ImapBackendResponse) : list ImapAction :=
  match res with
  | Rights mailbox identifier rights =>
      [AReply (js "* LISTRIGHTS " ++ quoteMailboxName mailbox ++ [SP] ++ identifier ++ [SP; 34; 34; SP] ++ rights); okReply tag (js "LISTRIGHTS")]
  | _ => [unexpected tag (js "LISTRIGHTS") res]
  end.

Definition myRightsResume (tag : jsstr) (res : ImapBackendResponse) : list ImapAction :=
  match res with
  | Rights mailbox _ rights => [AReply (js "* MYRIGHTS " ++ quoteMailboxName mailbox ++ [SP] ++ rights); okReply tag (js "MYRIGHTS")]
  | _ => [unexpected tag (js "MYRIGHTS") res]
  end.

(** [noReply(tag, verb, res.kind === "no" ? res : { message: "failed" })] is [unexpected]. *)
Definition doneResume (tag verb : jsstr) (res : ImapBackendResponse) : list ImapAction :=
  match res with ROk => [okReply tag verb] | _ => [unexpected tag verb res] end.

Definition resumeWith (r : Resume) (res : ImapBackendResponse) : Handler := fun s =>
  match r with
  | RDone tag verb => (s, doneResume tag verb res)
  | RGetAcl tag => (s, aclResume tag res)
  | RListRights tag => (s, listRightsResume tag res)
  | RMyRights tag => (s, myRightsResume tag res)
  | RList job => (s, listResume job res)
  | RStatus tag mailbox wanted => (s, statusResume tag mailbox wanted res)
  | RQuota tag verb mailbox => (s, quotaResume tag verb mailbox res)
  | RSelect tag writable q => selectResume tag writable q res s
  | RSelectSync line => selectSyncResume line res s
  | RFetchVanished job targets requested maxUid => fetchVanishedResume job targets requested maxUid res s
  | RFetch job todo => fetchResume job todo res s
  | RAppend tag mailbox => appendResume tag mailbox res s
  | RReplace tag verb dest => replaceResume tag verb dest res s
  | RCopyMove tag verb isMove => copyMoveResume tag verb isMove res s
  | RStore tag verb uidMode silent targets => storeResume tag verb uidMode silent targets res s
  | RExpunge tag verb => expungeResume tag verb res s
  | RRefresh taggedOk => refreshResume taggedOk res s
  | RRefreshSync taggedOk dbKeywords w => refreshSyncResume taggedOk dbKeywords w res s
  | RSearch job esearch offset batchUids hits hitUids => searchResume job esearch offset batchUids hits hitUids res s
  | RSort job mode offset batchUids hits meta => sortResume job mode offset batchUids hits meta res s
  end.
End Commands.
