(* ===== verification/ImapSession.v ===== *)
(** * The IMAP session (packages/proto-imap/src/engine.ts)

    Authentication, the dispatch of commands, the queue of lines that wait for a backend, and the
    methods the listener calls.  A method that throws gives [None].  The callback that counts commands
    is not part of the protocol and is left out. *)

From S2P Require Import Prelude JsString JsNumber Limits Loop Text Sasl Scram MimeEncoding SequenceSet ListMatch ImapReader ImapParser ImapFetch ImapSearch ImapCommands.

Definition parseErrorText (e : ImapParseError) : jsstr :=
  match e with
  | LiteralBoundary => js "internal: nextChar on literal boundary"
  | Unterminated => js "unterminated quoted string"
  | InvalidEscape => js "invalid quoted-string escape"
  | ExpectedAtom => js "expected atom"
  | UnterminatedList => js "unterminated parenthesized list"
  | UnexpectedEnd => js "unexpected end of command"
  | MissingTag => js "missing command tag"
  | InvalidTag => js "invalid tag"
  | MissingName => js "missing command name"
  end.

Definition lineBytes (parts : list LinePart) : Z :=
  fold_left (fun n p => n + match p with PText t => len t | PLiteral d => len d end) parts 0.

Definition BASE_CAPABILITIES : list jsstr :=
  [js "IMAP4rev1"; js "IMAP4rev2"; js "LITERAL-"; js "SASL-IR"; js "ID"; js "ENABLE"; js "NAMESPACE"; js "CHILDREN"; js "SPECIAL-USE"; js "UNSELECT";
   js "UIDPLUS"; js "MOVE"; js "IDLE"; js "CONDSTORE"; js "QRESYNC"; js "ESEARCH"; js "SEARCHRES"; js "BINARY"; js "SAVEDATE"; js "MULTIAPPEND";
   js "REPLACE"; js "OBJECTID"; js "SORT"; js "THREAD=ORDEREDSUBJECT"; js "THREAD=REFERENCES"; js "LIST-EXTENDED"; js "LIST-STATUS"; js "QUOTA";
   js "QUOTA=RES-STORAGE"; js "QUOTA=RES-MESSAGE"].

Definition ENABLABLE : list jsstr := [js "CONDSTORE"; js "QRESYNC"; js "IMAP4rev2"].

Section Session.
Context {SS : ScramServer} `{TextDecoders} `{NodeCrypto} (cfg : ImapConfig).

(** ** Capabilities *)

Definition authAllowed (s : Imap) : bool := secure s || allowInsecureAuth cfg.
Definition starttlsOffered (s : Imap) : bool := tlsAvailable cfg && negb (secure s).

Definition capabilities (s : Imap) : list jsstr :=
  BASE_CAPABILITIES
  ++ (if decide (state s = NotAuthenticated) then
        (if starttlsOffered s then [js "STARTTLS"] else [])
        ++ (if authAllowed s then
              (if scramOffered cfg then [js "AUTH=SCRAM-SHA-256"] else []) ++ [js "AUTH=PLAIN"; js "AUTH=XOAUTH2"; js "AUTH=OAUTHBEARER"]
            else [js "LOGINDISABLED"])
      else if compressed s then [] else [js "COMPRESS=DEFLATE"]).

Definition capabilityText (s : Imap) : jsstr := joinWith [SP] (capabilities s).

Definition greeting (s : Imap) : list ImapAction := [AReply (js "* OK [CAPABILITY " ++ capabilityText s ++ js "] " ++ hostname cfg ++ js " IMAP ready")].

Definition cmdCapability (cmd : ParsedCommand) : Handler := fun s =>
  (s, [AReply (js "* CAPABILITY " ++ capabilityText s); okReply (tag cmd) (js "CAPABILITY")]).

Definition cmdLogout (cmd : ParsedCommand) : Handler := fun s =>
  (s <| closed := true |>, [AReply (js "* BYE " ++ hostname cfg ++ js " logging out"); okReply (tag cmd) (js "LOGOUT"); AClose]).

Definition cmdId (cmd : ParsedCommand) : Handler := fun s =>
  (s, [AReply (js "* ID (" ++ [34] ++ js "name" ++ [34; SP; 34] ++ js "ionosphere" ++ [34] ++ js ")"); okReply (tag cmd) (js "ID")]).

Definition cmdStartTls (cmd : ParsedCommand) : Handler := fun s =>
  if secure s then bad (tag cmd) "TLS already active" s
  else if negb (tlsAvailable cfg) then say (tag cmd ++ js " NO STARTTLS not available") s
  else match pending s, idleTag s with
  | None, None =>
      (s <| awaitingTls := true |> <| queued := [] |> <| queuedBytes := 0 |>, [AReply (tag cmd ++ js " OK Begin TLS negotiation now"); AStartTls])
  | _, _ => bad (tag cmd) "STARTTLS not allowed mid-command" s
  end.

(** Names that are known, in their own spelling. *)
Fixpoint enableArgs (args : list ImapValue) (accepted : list jsstr) (s : Imap) : Imap * list jsstr :=
  match args with
  | [] => (s, accepted)
  | v :: r =>
      match (t ← valueText v; List.find (fun n => toUpperCase n === toUpperCase t) ENABLABLE) with
      | Some n =>
          if bool_decide (n ∈ enabled s) then enableArgs r accepted s
          else
            let s := s <| enabled ::= setAdd n |> in
            let s := if n === js "QRESYNC" then enable "CONDSTORE" s else s in
            enableArgs r (accepted ++ [n]) s
      | None => enableArgs r accepted s
      end
  end.

Definition cmdEnable (cmd : ParsedCommand) : Handler := fun s =>
  match state s with
  | NotAuthenticated => bad (tag cmd) "ENABLE not allowed before authentication" s
  | SelectedState => bad (tag cmd) "ENABLE not allowed with a mailbox selected" s
  | Authenticated =>
      let '(s, accepted) := enableArgs (args cmd) [] s in
      (s, [AReply (js "* ENABLED" ++ match accepted with [] => [] | _ => [SP] ++ joinWith [SP] accepted end); okReply (tag cmd) (js "ENABLE")])
  end.

Definition cmdCompress (cmd : ParsedCommand) : Handler := fun s =>
  if decide (state s = NotAuthenticated) then bad (tag cmd) "COMPRESS not allowed before authentication" s
  else if negb (isText (upperOr (args cmd) 0) "DEFLATE") then bad (tag cmd) "COMPRESS unsupported algorithm" s
  else if compressed s then say (tag cmd ++ js " NO [COMPRESSIONACTIVE] compression already active") s
  else (s <| compressed := true |>, [AReply (tag cmd ++ js " OK DEFLATE active"); AStartCompress]).

(** ** Authentication *)

Definition authFailedReply (tag : jsstr) : ImapAction := AReply (tag ++ js " NO [AUTHENTICATIONFAILED] authentication failed").

Definition scramFailedAction (step : ScramStep) : ImapAction :=
  AAuthFailed (match step with NeedFailed (Some ((_ :: _) as u)) => Some u | _ => None end).

Definition cmdLogin (cmd : ParsedCommand) : Handler := fun s =>
  if decide (state s <> NotAuthenticated) then bad (tag cmd) "LOGIN not allowed in current state" s
  else if negb (authAllowed s) then say (tag cmd ++ js " NO [PRIVACYREQUIRED] LOGIN disabled on insecure connection") s
  else match textArg cmd 0, textArg cmd 1 with
  | Some user, Some pass =>
      if (length (args cmd) =? 2)%nat then (s <| pending := Some (PAuth (tag cmd)) |>, [AAuth user pass])
      else bad (tag cmd) "LOGIN expects username and password" s
  | _, _ => bad (tag cmd) "LOGIN expects username and password" s
  end.

(** The SCRAM part of [handleSaslData], once the line is decoded. *)
Definition handleScram (t : jsstr) (session : ScramSession) (stage : ScramStage) (user : option jsstr) (text : jsstr) : Handler := fun s =>
  let sasl session stage user := {| sl_tag := t; mechanism := MScram session stage user |} in
  match stage with
  | StServerFinal => (s <| pending := Some (PAuth t) |>, [AAuthVerified t (default [] user)])
  | StClientFirst =>
      let '(session, step) := scramStart (nonces cfg (nonceIdx s)) text session in
      let s := s <| nonceIdx ::= S |> in
      match step with
      | NeedLookup u => (s <| pending := Some (PScramKeys (sasl session StClientFinal user)) |>, [AScramKeys u])
      | _ => (s, [scramFailedAction step; authFailedReply t])
      end
  | StClientFinal =>
      let '(session, fin) := scramFinal text session in
      match fin with
      | NeedDone u message =>
          (s <| pending := Some (PSaslLine (sasl session StServerFinal (Some u))) |>, [AReply (js "+ " ++ base64Encode (utf8Encode message))])
      | _ => (s, [scramFailedAction fin; authFailedReply t])
      end
  end.

Definition handleOAuth (t mech text : jsstr) : Handler := fun s =>
  match parseSaslOAuth mech text with
  | None => (s, [AReply (t ++ js " NO [AUTHENTICATIONFAILED] malformed " ++ mech ++ js " response")])
  | Some creds => (s <| pending := Some (PAuth t) |>, [AAuth (oa_user creds) (oa_token creds)])
  end.

Definition handlePlain (t : jsstr) (bs : bytes) : Handler := fun s =>
  match parseSaslPlain bs with
  | None => (s, [AReply (t ++ js " NO [AUTHENTICATIONFAILED] malformed PLAIN response")])
  | Some creds => (s <| pending := Some (PAuth t) |>, [AAuth (pl_user creds) (pl_pass creds)])
  end.

(** The bytes of a line. *)
Definition handleDecoded (t : jsstr) (mech : SaslMech) (bs : bytes) : Handler :=
  match mech with
  | MScram session stage user => handleScram t session stage user (utf8Decode bs)
  | MXoauth2 => handleOAuth t (js "XOAUTH2") (utf8Decode bs)
  | MOauthbearer => handleOAuth t (js "OAUTHBEARER") (utf8Decode bs)
  | MPlain => handlePlain t bs
  end.

(** [data] is [None] for a line that is not one text. *)
Definition handleSaslText (t : jsstr) (mech : SaslMech) (data : option jsstr) : Handler :=
  match data with
  | None => bad t "malformed SASL response"
  | Some data =>
      if data === js "*" then bad t "authentication cancelled"
      else match decodeSaslBase64 (if data === js "=" then [] else data) with
      | None => bad t "invalid base64"
      | Some bs => handleDecoded t mech bs
      end
  end.

(** After the last message of the server an empty line is expected. *)
Definition handleSaslData (sasl : SaslPending) (data : option jsstr) : Handler := fun s =>
  match mechanism sasl, default [] data with
  | MScram _ StServerFinal user, [] => (s <| pending := Some (PAuth (sl_tag sasl)) |>, [AAuthVerified (sl_tag sasl) (default [] user)])
  | mech, _ => handleSaslText (sl_tag sasl) mech data s
  end.

(** The mechanism of AUTHENTICATE. *)
Definition mechOf (name : option jsstr) : option SaslMech :=
  if isText name "SCRAM-SHA-256" && scramOffered cfg then Some (MScram (scramNew (scramDecoySecret cfg)) StClientFirst None)
  else if isText name "PLAIN" then Some MPlain
  else if isText name "XOAUTH2" then Some MXoauth2
  else if isText name "OAUTHBEARER" then Some MOauthbearer
  else None.

Definition cmdAuthenticate (cmd : ParsedCommand) : Handler := fun s =>
  if decide (state s <> NotAuthenticated) then bad (tag cmd) "AUTHENTICATE not allowed in current state" s
  else if negb (authAllowed s) then say (tag cmd ++ js " NO [PRIVACYREQUIRED] AUTHENTICATE disabled on insecure connection") s
  else match mechOf (upperArg cmd 0) with
  | None => say (tag cmd ++ js " NO [CANNOT] unsupported authentication mechanism") s
  | Some mech =>
      let sasl := {| sl_tag := tag cmd; mechanism := mech |} in
      if (2 <? length (args cmd))%nat then bad (tag cmd) "too many arguments" s
      else match textArg cmd 1 with
      | Some ir => handleSaslData sasl (Some ir) s
      | None => (s <| pending := Some (PSaslLine sasl) |>, [AReply (js "+ ")])
      end
  end.

(** ** The dispatch *)

Definition cmdNoop (cmd : ParsedCommand) : Handler := fun s =>
  let ok := tag cmd ++ js " OK " ++ name cmd ++ js " completed" in
  match selected s with
  | Some _ => if decide (state s = SelectedState) then refreshSelected (Some ok) s else say ok s
  | None => say ok s
  end.

Definition cmdNamespace (cmd : ParsedCommand) : Handler := fun s =>
  (s, [AReply (js "* NAMESPACE ((" ++ [34; 34; SP] ++ delimiterText ++ js ")) NIL NIL"); okReply (tag cmd) (js "NAMESPACE")]).

Definition cmdIdle (cmd : ParsedCommand) : Handler := fun s => (s <| idleTag := Some (tag cmd) |>, [AReply (js "+ idling")]).

Definition cmdUnselect (cmd : ParsedCommand) (_ : SelectedView) : Handler := fun s => (leaveSelected s, [okReply (tag cmd) (js "UNSELECT")]).

(** What the guards in front of a command let through. *)
Inductive Route :=
| Free (h : Handler)
| NeedsAuth (h : Handler)
| NeedsSelected (h : SelectedView -> Handler).

Definition routes (cmd : ParsedCommand) : list (jsstr * Route) :=
  [(js "CAPABILITY", Free (cmdCapability cmd)); (js "NOOP", Free (cmdNoop cmd)); (js "CHECK", Free (cmdNoop cmd)); (js "LOGOUT", Free (cmdLogout cmd));
   (js "ID", Free (cmdId cmd)); (js "STARTTLS", Free (cmdStartTls cmd)); (js "LOGIN", Free (cmdLogin cmd)); (js "AUTHENTICATE", Free (cmdAuthenticate cmd));
   (js "ENABLE", Free (cmdEnable cmd)); (js "COMPRESS", Free (cmdCompress cmd));
   (js "GETQUOTAROOT", NeedsAuth (cmdGetQuota cmd (js "GETQUOTAROOT"))); (js "GETQUOTA", NeedsAuth (cmdGetQuota cmd (js "GETQUOTA")));
   (js "SETQUOTA", NeedsAuth (say (tag cmd ++ js " NO [CANNOT] quota is managed by the administrator")));
   (js "NAMESPACE", NeedsAuth (cmdNamespace cmd)); (js "LIST", NeedsAuth (cmdList cmd (js "LIST"))); (js "LSUB", NeedsAuth (cmdList cmd (js "LSUB")));
   (js "SUBSCRIBE", NeedsAuth (cmdSubscribe cmd)); (js "UNSUBSCRIBE", NeedsAuth (cmdSubscribe cmd)); (js "CREATE", NeedsAuth (cmdCreate cmd));
   (js "DELETE", NeedsAuth (cmdDelete cmd)); (js "RENAME", NeedsAuth (cmdRename cmd)); (js "GETACL", NeedsAuth (cmdGetAcl cmd));
   (js "SETACL", NeedsAuth (cmdSetAcl cmd)); (js "DELETEACL", NeedsAuth (cmdDeleteAcl cmd)); (js "LISTRIGHTS", NeedsAuth (cmdListRights cmd));
   (js "MYRIGHTS", NeedsAuth (cmdMyRights cmd)); (js "STATUS", NeedsAuth (cmdStatus cmd)); (js "SELECT", NeedsAuth (cmdSelect cmd true));
   (js "EXAMINE", NeedsAuth (cmdSelect cmd false)); (js "UNSELECT", NeedsSelected (cmdUnselect cmd)); (js "CLOSE", NeedsSelected (cmdClose cmd));
   (js "FETCH", NeedsSelected (cmdFetch cmd false)); (js "STORE", NeedsSelected (cmdStore cmd false)); (js "SEARCH", NeedsSelected (cmdSearch cmd false));
   (js "SORT", NeedsSelected (cmdSortThread cmd false true)); (js "THREAD", NeedsSelected (cmdSortThread cmd false false));
   (js "EXPUNGE", NeedsSelected (cmdExpunge cmd None)); (js "APPEND", NeedsAuth (cmdAppend cmd)); (js "REPLACE", NeedsSelected (cmdReplace cmd false));
   (js "COPY", NeedsSelected (cmdCopyMove cmd false false)); (js "MOVE", NeedsSelected (cmdCopyMove cmd false true)); (js "IDLE", NeedsAuth (cmdIdle cmd));
   (js "UID", Free (cmdUid cmd))].

Definition runRoute (tag : jsstr) (r : Route) : Handler :=
  match r with Free h => h | NeedsAuth h => requireAuth tag h | NeedsSelected h => requireSelected tag h end.

Definition handleCommand (cmd : ParsedCommand) : Handler :=
  match mapGet (name cmd) (routes cmd) with
  | Some r => runRoute (tag cmd) r
  | None => bad (tag cmd) "unknown command"
  end.

(** The text of a line that is nothing else. *)
Definition soleText (parts : list LinePart) : option jsstr := match parts with [PText t] => Some t | _ => None end.

Definition handleLine (parts : list LinePart) : Handler := fun s =>
  match idleTag s with
  | Some t =>
      let text := toUpperCase (trim (default [] (soleText parts))) in
      say (if text === js "DONE" then t ++ js " OK IDLE terminated" else t ++ js " BAD expected DONE") (s <| idleTag := None |>)
  | None =>
      match pending s with
      | Some (PSaslLine sasl) => handleSaslData sasl (soleText parts) (s <| pending := None |>)
      | _ =>
          match parseCommand parts with
          | Ok cmd => handleCommand cmd s
          | Err e => say (js "* BAD " ++ parseErrorText e) s
          | Fuel => (s, [])
          end
      end
  end.

(** ** The queue *)

(** Lines wait for a verdict or for the store. *)
Definition waiting (s : Imap) : bool := match pending s with Some (PAuth _) | Some (PBackend _) => true | _ => false end.

Definition queueLine (parts : list LinePart) : Handler := fun s =>
  let s := s <| queued ::= fun q => q ++ [parts] |> <| queuedBytes ::= fun n => n + lineBytes parts |> in
  if MAX_QUEUED_LINE_BYTES <? queuedBytes s then
    (s <| queued := [] |> <| queuedBytes := 0 |> <| closed := true |>, [AReply (js "* BYE too much pipelined data"); AClose])
  else (s, []).

Definition handleReaderEvent (ev : ReaderEvent) : Handler := fun s =>
  match ev with
  | RContinue _ => say (js "+ OK") s
  | RError message => say (js "* BAD " ++ message) s
  | RLine parts => if waiting s then queueLine parts s else handleLine parts s
  end.

Definition draining (s : Imap) : bool :=
  match queued s, pending s with _ :: _, None => negb (closed s) | _, _ => false end.

(** One queued line. *)
Definition drainBody (s : Imap) : Imap * list ImapAction * bool :=
  match queued s with
  | [] => (s, [], true)
  | parts :: q => (handleLine parts (s <| queued := q |> <| queuedBytes ::= fun n => n - lineBytes parts |>), true)
  end.

Definition drainQueued : Handler := fun s =>
  let '(s, a) := whileFuel draining drainBody (S (length (queued s))) s in
  (match queued s with [] => s <| queuedBytes := 0 |> | _ => s end, a).

(** ** Public methods *)

(** The events of a chunk, until the connection is closed. *)
Fixpoint handleEvents (evs : list ReaderEvent) : Handler := fun s =>
  match evs with
  | [] => (s, [])
  | ev :: r =>
      let '(s, a) := handleReaderEvent ev s in
      if closed s then (s, a) else let '(s, b) := handleEvents r s in (s, a ++ b)
  end.

Definition feed (chunk : bytes) : Handler := fun s =>
  if closed s then (s, [])
  else if awaitingTls s then (s, [])
  else
    let '(r, evs) := ImapReader.feed (readerOpts cfg) chunk (reader s) in
    handleEvents evs (s <| reader := r |>).

Definition backendResult (res : ImapBackendResponse) (s : Imap) : option (Imap * list ImapAction) :=
  match pending s with
  | Some (PBackend r) => Some (andThen (resumeWith r res) drainQueued (s <| pending := None |>))
  | _ => None
  end.

Definition scramKeysResult (keys : option ScramStoredKeys) (s : Imap) : option (Imap * list ImapAction) :=
  match pending s with
  | Some (PScramKeys {| sl_tag := t; mechanism := MScram session stage user |}) =>
      let '(session, step) := scramProvideKeys keys session in
      Some (match step with
            | NeedSend message =>
                (s <| pending := Some (PSaslLine {| sl_tag := t; mechanism := MScram session stage user |}) |>,
                 [AReply (js "+ " ++ base64Encode (utf8Encode message))])
            | _ => (s <| pending := None |>, [scramFailedAction step; authFailedReply t])
            end)
  | _ => None
  end.

(** The verdict on the credentials; the large literals are for those who have passed. *)
Definition authReply (ok : bool) (t : jsstr) : Handler := fun s =>
  if ok then
    let s := s <| state := Authenticated |> <| reader ::= setMaxLiteralBytes (authedMaxLiteralBytes cfg) |> in
    say (t ++ js " OK [CAPABILITY " ++ capabilityText s ++ js "] authenticated") s
  else (s, [authFailedReply t]).

Definition authResult (ok : bool) (s : Imap) : option (Imap * list ImapAction) :=
  match pending s with
  | Some (PAuth t) => Some (andThen (authReply ok t) drainQueued (s <| pending := None |>))
  | _ => None
  end.

Definition isIdling (s : Imap) : bool := match idleTag s with Some _ => true | None => false end.

Definition idleTick : Handler := fun s =>
  match idleTag s, pending s with
  | Some _, None => if decide (state s = SelectedState) then if closed s then (s, []) else refreshSelected None s else (s, [])
  | _, _ => (s, [])
  end.

Definition tlsEstablished (s : Imap) : Imap := s <| secure := true |> <| awaitingTls := false |>.
End Session.
