(* ===== verification/ImapSessionSpec.v ===== *)
(** * What an IMAP session keeps (packages/proto-imap/src/engine.ts)

    The methods of the engine as runs of small steps: a line of the client, an answer of the store, a
    verdict on credentials.  Along every run the store is asked on behalf of an authenticated client
    only, one request at a time; a mailbox that was opened read-only is not changed; and the lines that
    wait for an answer are bounded. *)

From S2P Require Import Prelude JsString JsNumber Limits Loop Text Sasl Scram MimeEncoding SequenceSet ListMatch ImapReader ImapParser ImapFetch ImapSearch ImapCommands ImapSession.

(** ** What a client reads *)

Inductive ClientEvent := CExists (n : Z) | CExpunge (n : Z) | CVanished (ranges : list SeqRange).

Definition clientRead (t : jsstr) : option ClientEvent :=
  if startsWith (js "* ") t then
    match spanDigits (drop 2 t) with
    | ([], r) => if startsWith (js "VANISHED ") r then CVanished <$> parseSequenceSet (drop 9 r) else None
    | (d, r) => if r === js " EXISTS" then Some (CExists (digitsVal d)) else if r === js " EXPUNGE" then Some (CExpunge (digitsVal d)) else None
    end
  else None.

(** The actions that say nothing about which messages there are. *)
Definition neutral (a : ImapAction) : Prop := match a with AReply t => clientRead t = None | _ => True end.

Definition goodTag (t : jsstr) : Prop := 42 ∉ t.

Lemma read_tag t x : goodTag t -> head x <> Some 42 -> clientRead (t ++ x) = None.
Proof.
  intros Ht Hx. unfold clientRead. assert (Hs : startsWith (js "* ") (t ++ x) = false); [|by rewrite Hs].
  change (js "* ") with [42; 32]. destruct t as [|c t].
  - destruct x as [|y x]; [done|]. cbn [app startsWith]. destruct (Z.eqb_spec 42 y) as [<-|]; done.
  - cbn [app startsWith]. destruct (Z.eqb_spec 42 c) as [<-|]; [|done]. exfalso. apply Ht. left.
Qed.

(** Digits are read up to the first unit that is none. *)
Lemma spanDigits_front d x : forallb isDigit d = true -> match x with [] => True | c :: _ => isDigit c = false end -> spanDigits (d ++ x) = (d, x).
Proof.
  intros Hd Hx. induction d as [|c d IH]; cbn [app spanDigits].
  - destruct x as [|c x]; [done|]. cbn [spanDigits]. by rewrite Hx.
  - cbn in Hd. apply andb_true_iff in Hd as [-> Hd]. by rewrite (IH Hd).
Qed.

Lemma read_count n x : 0 <= n -> match x with [] => True | c :: _ => isDigit c = false end ->
  clientRead (js "* " ++ numToString n ++ x) =
  if x === js " EXISTS" then Some (CExists n) else if x === js " EXPUNGE" then Some (CExpunge n) else None.
Proof.
  intros Hn Hx. unfold clientRead. change (startsWith (js "* ") _) with true. cbv iota.
  change (drop 2 _) with (numToString n ++ x). pose proof (numToString_digits n Hn) as Hd.
  rewrite spanDigits_front; [|by destruct (numToString n)|done].
  destruct (numToString n) as [|d ds] eqn:E; [done|]. rewrite <- E, numToString_val by done. done.
Qed.

Lemma read_number n x : match x with c :: y => isDigit c = false /\ head y <> Some 69 | [] => True end -> clientRead (js "* " ++ numToString n ++ x) = None.
Proof.
  intros Hx. destruct (Z.lt_ge_cases n 0) as [Hn|Hn].
  - unfold numToString. rewrite (proj2 (Z.ltb_lt _ _)) by done. done.
  - rewrite read_count by (try done; destruct x; tauto). destruct x as [|c x]; [done|]. destruct Hx as [_ Hx].
    change (js " EXISTS") with (32 :: 69 :: js "XISTS"). change (js " EXPUNGE") with (32 :: 69 :: js "XPUNGE"). cbn [seqb].
    destruct x as [|y x]; [by rewrite !andb_false_r|]. cbn in Hx. cbn [seqb]. destruct (Z.eqb_spec y 69) as [->|]; [done|]. by rewrite !andb_false_r.
Qed.

(** ** The shape of a command *)

Definition issue (a : ImapAction) : bool :=
  match a with AAuth _ _ | AScramKeys _ | AAuthVerified _ _ | ABackend _ => true | _ => false end.

Definition issues (acts : list ImapAction) : list ImapAction := List.filter issue acts.

Lemma issues_app a b : issues (a ++ b) = issues a ++ issues b.
Proof. apply List.filter_app. Qed.

Section Spec.
Context {SS : ScramServer} `{TextDecoders} `{NodeCrypto} (cfg : ImapConfig).
Implicit Types s : Imap.

(** A mailbox is selected exactly in the selected state. *)
Definition coherent s : Prop := state s = SelectedState <-> is_Some (selected s).

(** A request that changes the selected mailbox or the flags in it. *)
Definition mutated (req : ImapBackendRequest) : option jsstr :=
  match req with
  | StoreFlags n _ _ _ _ | Expunge n _ | ExpungeMailbox n | MoveMessages n _ _ | ReplaceMessage n _ _ _ _ _ => Some n
  | FetchMessages n _ _ true _ => Some n
  | _ => None
  end.

(** Such a request is about the mailbox of a view that is open for writing. *)
Definition writes s (n : jsstr) : Prop := exists v, selected s = Some v /\ readWrite v = true /\ v_name v = n.
Definition reqOk s (req : ImapBackendRequest) : Prop := forall n, mutated req = Some n -> writes s n.

Definition fetchOk s (job : FetchJob) : Prop := goodTag (fj_tag job) /\ is_Some (selected s) /\ (fj_markSeen job = true -> writes s (fj_name job)).
Definition lineOk (o : option jsstr) : Prop := forall t, o = Some t -> clientRead t = None.

(** What a continuation relies on when the answer comes. *)
Definition resumeOk s (r : Resume) : Prop :=
  match r with
  | RDone t _ | RGetAcl t | RListRights t | RMyRights t | RStatus t _ _ | RQuota t _ _ | RAppend t _ => goodTag t
  | RList job => goodTag (lj_tag job) /\ (lj_verb job = js "LIST" \/ lj_verb job = js "LSUB")
  | RSelect t _ _ => goodTag t /\ selected s = None
  | RSelectSync l => clientRead l = None /\ is_Some (selected s)
  | RFetchVanished job _ _ _ | RFetch job _ => fetchOk s job
  | RReplace t _ _ | RCopyMove t _ _ | RStore t _ _ _ _ | RExpunge t _ => goodTag t /\ is_Some (selected s)
  | RRefresh o | RRefreshSync o _ _ => lineOk o /\ is_Some (selected s)
  | RSearch job _ _ _ _ _ | RSort job _ _ _ _ _ => goodTag (sj_tag job) /\ is_Some (selected s)
  end.

(** The exchanges that wait for a line. *)
Definition mechOk (m : SaslMech) : Prop :=
  match m with
  | MScram _ StClientFirst u | MScram _ StClientFinal u => u = None
  | MScram _ StServerFinal u => is_Some u
  | _ => True
  end.

(** What a handler asks for, and what is pending after it. *)
Inductive Issued s s' (acts : list ImapAction) : Prop :=
| iss_none : issues acts = [] -> pending s' = pending s -> Issued s s' acts
| iss_drop sasl : issues acts = [] -> pending s = Some (PSaslLine sasl) -> pending s' = None -> Issued s s' acts
| iss_line sasl : issues acts = [] -> pending s' = Some (PSaslLine sasl) -> goodTag (sl_tag sasl) -> state s = NotAuthenticated ->
    authAllowed cfg s = true -> match mechanism sasl with MScram _ StClientFirst None => True | MScram _ _ _ => False | _ => True end -> Issued s s' acts
| iss_final t sess sess' u : issues acts = [] -> pending s = Some (PSaslLine {| sl_tag := t; mechanism := MScram sess StClientFinal None |}) ->
    pending s' = Some (PSaslLine {| sl_tag := t; mechanism := MScram sess' StServerFinal (Some u) |}) -> scramUser sess = u -> goodTag t ->
    state s = NotAuthenticated -> authAllowed cfg s = true -> Issued s s' acts
| iss_verified t sess u : issues acts = [AAuthVerified t u] -> pending s = Some (PSaslLine {| sl_tag := t; mechanism := MScram sess StServerFinal (Some u) |}) ->
    pending s' = Some (PAuth t) -> goodTag t -> state s = NotAuthenticated -> authAllowed cfg s = true -> Issued s s' acts
| iss_auth u p t : issues acts = [AAuth u p] -> pending s' = Some (PAuth t) -> goodTag t -> state s = NotAuthenticated -> authAllowed cfg s = true ->
    Issued s s' acts
| iss_keys u t sess : issues acts = [AScramKeys u] -> pending s' = Some (PScramKeys {| sl_tag := t; mechanism := MScram sess StClientFinal None |}) -> scramUser sess = u ->
    goodTag t -> state s = NotAuthenticated -> authAllowed cfg s = true -> Issued s s' acts
| iss_backend req r : issues acts = [ABackend req] -> pending s' = Some (PBackend r) -> state s <> NotAuthenticated -> reqOk s req -> resumeOk s' r ->
    Issued s s' acts.

Record Cmd s (r : Imap * list ImapAction) : Prop := {
  c_secure : secure r.1 = secure s;
  c_queue : (queued r.1, queuedBytes r.1) = (queued s, queuedBytes s) \/ (queued r.1, queuedBytes r.1) = ([], 0);
  c_auth : state r.1 = NotAuthenticated <-> state s = NotAuthenticated;
  c_view : selected r.1 = selected s \/ selected r.1 = None;
  c_coherent : coherent r.1;
  c_idle : idleTag r.1 = idleTag s \/ idleTag r.1 = None \/ exists t, idleTag r.1 = Some t /\ goodTag t /\ state s <> NotAuthenticated;
  c_issued : Issued s r.1 r.2;
  c_neutral : Forall neutral r.2 }.

(** ** The commands *)

Lemma cmd_acts s acts : coherent s -> issues acts = [] -> Forall neutral acts -> Cmd s (s, acts).
Proof. intros Hc Hi Hn. split; cbn; [done | by left | done | by left | done | by left | by apply iss_none | done]. Qed.

Lemma cmd_say s t : coherent s -> clientRead t = None -> Cmd s (say t s).
Proof. intros Hc Ht. apply cmd_acts; [done|done|]. by repeat constructor. Qed.

Lemma cmd_call s req r : coherent s -> state s <> NotAuthenticated -> reqOk s req -> resumeOk s r -> Cmd s (callBackend req r s).
Proof.
  intros Hc Hst Hq Hr. split; cbn; [done | by left | done | by left | done | by left | | by repeat constructor].
  by apply (iss_backend _ _ _ req r).
Qed.

(** The enabled extensions do not matter. *)
Lemma cmd_enabled e s r : Cmd (s <| enabled := e |>) r -> Cmd s r.
Proof.
  intros [H1 H2 H3 H4 H5 H6 H7 H8]. split; [done|done|done|done|done|done| |done].
  destruct H7; [by apply iss_none | by eapply iss_drop | by eapply iss_line | by eapply iss_final | by eapply iss_verified | by eapply iss_auth
    | by eapply iss_keys | by eapply iss_backend].
Qed.

Lemma cmd_enable e s r : Cmd (enable e s) r -> Cmd s r.
Proof. apply cmd_enabled. Qed.

Lemma coherent_leave s : coherent (leaveSelected s).
Proof. split; [done | intros [? ?]; done]. Qed.

(** Leaving the mailbox, and an answer or a request. *)
Lemma cmd_leave s acts : state s <> NotAuthenticated -> issues acts = [] -> Forall neutral acts -> Cmd s (leaveSelected s, acts).
Proof.
  intros Hs Hi Hn. split; cbn; [done | by left | by split | by right | apply coherent_leave | by left | by apply iss_none | done].
Qed.

Lemma cmd_leave_call s req r : state s <> NotAuthenticated -> reqOk s req -> resumeOk (leaveSelected s) r -> Cmd s (callBackend req r (leaveSelected s)).
Proof.
  intros Hs Hq Hr. split; cbn; [done | by left | by split | by right | apply coherent_leave | by left | | by repeat constructor].
  by apply (iss_backend _ _ _ req r).
Qed.

Lemma reqOk_none s req : mutated req = None -> reqOk s req.
Proof. intros Hm n Hn. congruence. Qed.

Ltac tagged := first [done | reflexivity | apply read_tag; [done | done]].

(** Case analysis on what a handler looks at. *)
Ltac break :=
  repeat match goal with
  | |- Cmd _ (match ?x with _ => _ end) => destruct x eqn:?
  | |- Cmd _ (match ?x with _ => _ end _) => destruct x eqn:?
  end.

Ltac plain :=
  cbv beta;
  lazymatch goal with
  | |- Cmd _ (say _ _) => apply cmd_say; [done | tagged]
  | |- Cmd _ (bad _ _ _) => apply cmd_say; [done | tagged]
  | |- Cmd _ (badVerb _ _ _ _) => apply cmd_say; [done | tagged]
  | |- Cmd _ (readOnly _ _) => apply cmd_say; [done | tagged]
  | |- Cmd _ (callBackend _ _ _) => apply cmd_call; [done | done | try (by apply reqOk_none; repeat case_match) | try (by repeat split)]
  | |- Cmd _ (?s, _) => apply cmd_acts; [done | done | repeat constructor; unfold neutral; tagged]
  end.

(** The complaints about the arguments of APPEND and REPLACE are put behind the tag. *)
Lemma appendStep_err verb v p e : appendStep verb v p = inr e -> head e = Some 32.
Proof. unfold appendStep. intros He. repeat case_match; simplify_eq; reflexivity. Qed.

Lemma appendLoop_err args : forall p items e, appendLoop args p items = inr e -> head e = Some 32.
Proof.
  induction args as [|v r IH]; intros p items e; cbn [appendLoop]; [by destruct p; intros [= <-]|].
  destruct (appendStep _ v p) as [[q|it]|e'] eqn:E; [apply IH | apply IH | intros [= <-]; by eapply appendStep_err].
Qed.

Lemma replaceItem_err verb args : forall p e, replaceItem verb args p = inr e -> head e = Some 32.
Proof.
  induction args as [|v r IH]; intros p e; cbn [replaceItem]; [by intros [= <-]|].
  destruct (appendStep _ v p) as [[q|it]|e'] eqn:E; [apply IH | by destruct r; intros [= <-] | intros [= <-]; by eapply appendStep_err].
Qed.

Lemma fetchOk_req s job us raw keys : fetchOk s job -> reqOk s (FetchMessages (fj_name job) us raw (fj_markSeen job) keys).
Proof. intros (_ & _ & Hm) n Hn. cbn in Hn. destruct (fj_markSeen job); [|done]. injection Hn as <-. by apply Hm. Qed.

Lemma cmd_fetchFrom s job todo : coherent s -> state s <> NotAuthenticated -> fetchOk s job -> Cmd s (fetchFrom job todo s).
Proof.
  intros Hc Hs Hj. pose proof Hj as (Ht & _). unfold fetchFrom. break; [plain|]. apply cmd_call; [done | done | by apply fetchOk_req | done].
Qed.

Lemma cmd_searchFrom s job e off hits us : coherent s -> state s <> NotAuthenticated -> is_Some (selected s) -> goodTag (sj_tag job) -> Cmd s (searchFrom job e off hits us s).
Proof. intros. unfold searchFrom. plain. Qed.

Lemma cmd_sortFrom s job m off hits meta : coherent s -> state s <> NotAuthenticated -> is_Some (selected s) -> goodTag (sj_tag job) -> Cmd s (sortFrom job m off hits meta s).
Proof. intros. unfold sortFrom. plain. Qed.

Lemma cmd_searchDone s job e hits us : coherent s -> goodTag (sj_tag job) -> Cmd s (searchDone job e hits us s).
Proof.
  intros Hc Ht. unfold searchDone. set (s1 := match e with Some _ => _ | None => _ end). set (acts := map AReply _ ++ _).
  assert (Hs1 : s1 = s <| savedSearch := savedSearch s1 |>) by (unfold s1; repeat case_match; by destruct s).
  assert (Ha : issues acts = [] /\ Forall neutral acts).
  { unfold acts, searchReply. split; [by repeat case_match|]. apply Forall_app. split; [|repeat constructor; unfold neutral; tagged].
    repeat case_match; by repeat constructor. }
  rewrite Hs1. destruct Ha. split; cbn; [done | by left | done | by left | done | by left | by apply iss_none | done].
Qed.

Section Commands.
Context (cmd : ParsedCommand) (Htag : goodTag (tag cmd)).

Lemma listPrefix_ok verb : verb = js "LIST" \/ verb = js "LSUB" -> forall s, coherent s -> state s <> NotAuthenticated -> Cmd s (cmdList cmd verb s).
Proof.
  intros Hv s Hc Hs. unfold cmdList. break; try plain.
  apply cmd_acts; [done|done|]. repeat constructor; unfold neutral; [|tagged]. by destruct Hv as [-> | ->].
Qed.

Lemma cmds_auth s : coherent s -> state s <> NotAuthenticated ->
  Cmd s (cmdSubscribe cmd s) /\ Cmd s (cmdCreate cmd s) /\ Cmd s (cmdDelete cmd s) /\ Cmd s (cmdRename cmd s) /\ Cmd s (cmdGetAcl cmd s) /\
  Cmd s (cmdSetAcl cmd s) /\ Cmd s (cmdDeleteAcl cmd s) /\ Cmd s (cmdListRights cmd s) /\ Cmd s (cmdMyRights cmd s) /\ Cmd s (cmdStatus cmd s) /\
  (forall verb, Cmd s (cmdGetQuota cmd verb s)) /\ Cmd s (cmdNamespace cmd s) /\ Cmd s (cmdAppend cmd s).
Proof.
  intros Hc Hs. split_and!; intros;
    unfold cmdSubscribe, cmdCreate, cmdDelete, cmdRename, cmdGetAcl, cmdSetAcl, cmdDeleteAcl, cmdListRights, cmdMyRights, cmdStatus, cmdGetQuota,
      cmdNamespace, cmdAppend; break; try plain.
  apply cmd_say; [done|]. apply read_tag; [done|]. erewrite appendLoop_err by done. done.
Qed.

(** SELECT leaves the old mailbox first. *)
Lemma selectParams_ok t verb items : goodTag t -> forall q s, coherent s ->
  let r := selectParams t verb items q s in
  (exists e, r.1 = s <| enabled := e |>) /\ match r.2 with inr l => clientRead l = None | inl _ => True end.
Proof.
  intros Ht. enough (Hlen : forall n items q s, (length items <= n)%nat -> let r := selectParams t verb items q s in
    (exists e, r.1 = s <| enabled := e |>) /\ match r.2 with inr l => clientRead l = None | inl _ => True end) by (intros q s _; by eapply Hlen).
  clear items. induction n as [|n IH]; intros items q s Hn; (destruct items as [|it r]; [split; [exists (enabled s); by destruct s | done]|]);
    cbn in Hn; [lia|]. cbn [selectParams].
  assert (Hsame : exists e, s = s <| enabled := e |>) by (exists (enabled s); by destruct s).
  destruct (isText _ "CONDSTORE").
  { destruct (IH r q (enable "CONDSTORE" s)) as [(e & ->) Hr]; [lia|]. split; [by exists e | done]. }
  destruct (isText _ "QRESYNC"); [destruct (hasEnabled _ s)|]; [|split; [done|tagged]|split; [done|tagged]].
  destruct r as [|[?|?|?|qs] r']; try (split; [done|tagged]). destruct (qresyncOf qs) as [q'|]; [|split; [done|tagged]].
  cbn in Hn. apply IH. lia.
Qed.

Lemma cmd_select writable s : coherent s -> state s <> NotAuthenticated -> Cmd s (cmdSelect cmd writable s).
Proof.
  intros Hc Hs. unfold cmdSelect.
  assert (Hgo : forall e n q, Cmd s (callBackend (SelectMailbox n) (RSelect (tag cmd) writable q) (leaveSelected (s <| enabled := e |>)))).
  { intros e n q. apply (cmd_enabled e), cmd_leave_call; [done | by apply reqOk_none | by repeat split]. }
  destruct (mailboxArg cmd 0) as [n|]; [|plain]. destruct (2 <? _)%nat; [plain|].
  destruct (args cmd !! 1%nat) as [[?|?|?|items]|]; try plain.
  - destruct (selectParams_ok (tag cmd) (selectVerb writable) items Htag None s Hc) as [(e & He) Hl].
    destruct (selectParams _ _ _ _ _) as [s1 [q|l]]; cbn in He, Hl; subst s1; [apply Hgo|].
    apply (cmd_enabled e), cmd_say; done.
  - specialize (Hgo (enabled s) n None). by destruct s.
Qed.

Context (v : SelectedView).

Lemma cmds_view s : coherent s -> state s <> NotAuthenticated -> selected s = Some v ->
  Cmd s (cmdClose cmd v s) /\ Cmd s (cmdUnselect cmd v s) /\ (forall m, Cmd s (cmdCopyMove cmd m false v s)) /\ (forall m, Cmd s (cmdCopyMove cmd m true v s)) /\
  (forall m, Cmd s (cmdReplace cmd m v s)) /\ (forall o, Cmd s (cmdExpunge cmd o v s)) /\ (forall m, Cmd s (cmdStore cmd m v s)).
Proof.
  intros Hc Hs Hv.
  assert (Hw : forall req n, readWrite v = true -> v_name v = n -> mutated req = Some n -> reqOk s req).
  { intros req n Hrw Hn Hm m Hm'. exists v. split_and!; try done. congruence. }
  split_and!; intros.
  - unfold cmdClose. break; [apply cmd_leave_call; [done | by eapply Hw | done] | apply cmd_leave; [done | done | repeat constructor; unfold neutral; tagged]].
  - apply cmd_leave; [done | done | repeat constructor; unfold neutral; tagged].
  - unfold cmdCopyMove. cbn [andb]. break; plain.
  - unfold cmdCopyMove. cbn [andb]. break; try plain. eapply Hw; [by apply negb_false_iff | done | done].
  - unfold cmdReplace. break; try plain; first [eapply Hw; [by apply negb_false_iff | done | done] | idtac].
    apply cmd_say; [done|]. apply read_tag; [done|]. by erewrite replaceItem_err.
  - unfold cmdExpunge. break; try plain; (eapply Hw; [by apply negb_false_iff | done | done]).
  - assert (Hset : forall us mode flags since, negb (readWrite v) = false -> reqOk s (StoreFlags (v_name v) us mode flags since))
      by (intros; eapply Hw; [by apply negb_false_iff | done | done]).
    unfold cmdStore. break; try plain; auto; apply (cmd_enable "CONDSTORE"); plain; by apply Hset.
Qed.

Lemma cmd_startFetch s uidMode ranges items mods : coherent s -> state s <> NotAuthenticated -> selected s = Some v ->
  Cmd s (startFetch (tag cmd) (verbOf uidMode "FETCH") uidMode ranges items mods v s).
Proof.
  intros Hc Hs Hv. unfold startFetch. set (job := {| fj_tag := _ |}).
  assert (Hj : fetchOk s job).
  { split_and!; [done | by eexists |]. cbn. intros [Hrw _]%andb_true_iff. by exists v. }
  break; [apply cmd_call; [done | done | by apply reqOk_none | done] | by apply cmd_fetchFrom | by apply cmd_fetchFrom].
Qed.

Lemma cmds_find s : coherent s -> state s <> NotAuthenticated -> selected s = Some v ->
  (forall m, Cmd s (cmdFetch cmd m v s)) /\ (forall m, Cmd s (cmdSearch cmd m v s)) /\ (forall m b, Cmd s (cmdSortThread cmd m b v s)).
Proof.
  intros Hc Hs Hv. assert (Hsel : is_Some (selected s)) by (by eexists). split_and!; intros.
  - unfold cmdFetch. break; try plain; try (by apply cmd_startFetch); apply (cmd_enable "CONDSTORE"); first [plain | by apply cmd_startFetch].
  - unfold cmdSearch, startSearch, badCriteria. break; try plain; first [by apply cmd_searchDone | by apply cmd_searchFrom].
  - unfold cmdSortThread, badCriteria. destruct b; break; try plain; by apply cmd_sortFrom.
Qed.
End Commands.

Lemma requireSelected_ok cmd h s : goodTag (tag cmd) -> coherent s ->
  (forall v, state s <> NotAuthenticated -> selected s = Some v -> Cmd s (h v s)) -> Cmd s (requireSelected (tag cmd) h s).
Proof. intros Ht Hc Hh. unfold requireSelected. break; try plain. apply Hh; congruence. Qed.

Lemma cmd_uid cmd s : goodTag (tag cmd) -> coherent s -> Cmd s (cmdUid cmd s).
Proof.
  intros Ht Hc. unfold cmdUid. set (rest := {| tag := tag cmd; name := _; args := _ |}).
  assert (Htr : goodTag (tag rest)) by done. break; try plain;
    apply requireSelected_ok; try done; intros v Hs Hv;
    first [by eapply cmds_find | by eapply cmds_view].
Qed.

(** ** Authentication *)

(** A step that only answers, or sets what is pending. *)
Lemma cmd_pend s p n acts : coherent s -> Forall neutral acts -> Issued s (s <| pending := p |>) acts -> Cmd s (s <| pending := p |> <| nonceIdx := n |>, acts).
Proof.
  intros Hc Hn Hi. split; cbn; [done | by left | done | by left | done | by left | | done].
  destruct Hi; [by apply iss_none | by eapply iss_drop | by eapply iss_line | by eapply iss_final | by eapply iss_verified | by eapply iss_auth
    | by eapply iss_keys | by eapply iss_backend].
Qed.

(** A line of an exchange: it is the one that is pending, or has just begun. *)
Definition saslAt s (p : option Pending) (sasl : SaslPending) : Prop :=
  p = None /\ pending s = Some (PSaslLine sasl) \/
  p = pending s /\ match mechanism sasl with MScram _ StClientFirst _ => True | MScram _ _ _ => False | _ => True end.

Section Sasl.
Context (s : Imap) (p : option Pending) (t : jsstr) (mech : SaslMech).
Context (Hc : coherent s) (Hs : state s = NotAuthenticated) (Ha : authAllowed cfg s = true) (Ht : goodTag t) (Hm : mechOk mech)
  (Hat : saslAt s p {| sl_tag := t; mechanism := mech |}).

Lemma sasl_pend q acts : Forall neutral acts -> Issued s (s <| pending := q |>) acts -> Cmd s (s <| pending := q |>, acts).
Proof. exact (cmd_pend s q (nonceIdx s) acts Hc). Qed.

Lemma sasl_fail n acts : issues acts = [] -> Forall neutral acts -> Cmd s (s <| pending := p |> <| nonceIdx := n |>, acts).
Proof.
  intros Hi Hn. apply cmd_pend; [done|done|]. destruct Hat as [[-> Hp]|[-> _]]; [by eapply iss_drop | by apply iss_none].
Qed.

Lemma sasl_say x : head x <> Some 42 -> Cmd s (say (t ++ x) (s <| pending := p |>)).
Proof. intros Hx. apply (sasl_fail (nonceIdx s)); [done|]. repeat constructor. unfold neutral. by apply read_tag. Qed.

Lemma sasl_refuse n step : Cmd s (s <| pending := p |> <| nonceIdx := n |>, [scramFailedAction step; authFailedReply t]).
Proof. apply sasl_fail; [done|]. repeat constructor. by apply read_tag. Qed.

Lemma sasl_verdict u pw : Cmd s (s <| pending := Some (PAuth t) |>, [AAuth u pw]).
Proof. apply sasl_pend; [by repeat constructor | by eapply iss_auth]. Qed.

Lemma sasl_verified sess u : mech = MScram sess StServerFinal u -> Cmd s (s <| pending := Some (PAuth t) |>, [AAuthVerified t (default [] u)]).
Proof.
  intros He. pose proof Hm as Hm'. pose proof Hat as Hat'. rewrite He in Hm', Hat'. destruct Hm' as [u0 ->]. destruct Hat' as [[_ Hp]|[_ []]].
  apply sasl_pend; [by repeat constructor | by eapply iss_verified].
Qed.

Lemma sasl_scram sess stage u text : mech = MScram sess stage u -> Cmd s (handleScram cfg t sess stage u text (s <| pending := p |>)).
Proof.
  intros He. unfold handleScram. pose proof Hm as Hm'. pose proof Hat as Hat'. rewrite He in Hm', Hat'.
  destruct stage; [| |by eapply sasl_verified]; cbn in Hm'; subst u.
  - destruct (scramStart _ _ sess) as [sess' step] eqn:E. destruct step as [u|m|u m|u]; try apply sasl_refuse.
    apply (cmd_pend s _ (S (nonceIdx s))); [done | by repeat constructor |]. apply (iss_keys _ _ _ u t sess'); try done. by eapply scramStart_lookup.
  - destruct Hat' as [[_ Hp]|[_ []]]. destruct (scramFinal _ sess) as [sess' fin] eqn:E. destruct fin as [u|m|u m|u]; try apply (sasl_refuse (nonceIdx s)).
    apply sasl_pend; [by repeat constructor|]. apply (iss_final _ _ _ t sess sess' u); try done. symmetry. by eapply scramFinal_done.
Qed.

End Sasl.

Lemma cmd_sasl s p t mech data : coherent s -> state s = NotAuthenticated -> authAllowed cfg s = true -> goodTag t -> mechOk mech ->
  saslAt s p {| sl_tag := t; mechanism := mech |} -> Cmd s (handleSaslData cfg {| sl_tag := t; mechanism := mech |} data (s <| pending := p |>)).
Proof.
  intros Hc Hs Ha Ht Hm Hat.
  assert (Hdec : forall bs, Cmd s (handleDecoded cfg t mech bs (s <| pending := p |>))).
  { intros bs. unfold handleDecoded, handlePlain, handleOAuth.
    break; first [exact (sasl_verdict s t Hc Hs Ha Ht _ _) | by eapply sasl_say | by eapply (sasl_scram s p t _ Hc Hs Ha Ht Hm Hat)]. }
  assert (Htext : Cmd s (handleSaslText cfg t mech data (s <| pending := p |>))).
  { unfold handleSaslText. break; first [apply Hdec | by eapply sasl_say]. }
  unfold handleSaslData. cbn [sl_tag mechanism]. break; first [exact Htext | exact (sasl_verified s p t _ Hc Hs Ha Ht Hm Hat _ _ eq_refl)].
Qed.

(** ** The dispatch *)

Lemma cmd_authenticate cmd s : goodTag (tag cmd) -> coherent s -> Cmd s (cmdAuthenticate cfg cmd s).
Proof.
  intros Ht Hc. unfold cmdAuthenticate. destruct (decide _) as [|Hst]; [plain|]. apply dec_stable in Hst.
  destruct (authAllowed cfg s) eqn:Ha; cbn [negb]; [|plain]. destruct (mechOf cfg _) as [mech|] eqn:Hmech; [|plain].
  assert (Hm : mechOk mech /\ match mech with MScram _ StClientFirst None => True | MScram _ _ _ => False | _ => True end).
  { unfold mechOf in Hmech. repeat case_match; by simplify_eq. }
  destruct (2 <? _)%nat; [plain|]. destruct (textArg cmd 1) as [ir|].
  - assert (Hsame : s = s <| pending := pending s |>) by (by destruct s). rewrite Hsame at 2. apply cmd_sasl; try done; [tauto|].
    right. split; [done|]. cbn. destruct Hm as [_ Hm]. by repeat case_match.
  - apply (cmd_pend s _ (nonceIdx s)); [done | repeat constructor; unfold neutral; tagged | eapply iss_line; [done | done | done | done | done | apply Hm]].
Qed.

Lemma enableArgs_ok l : forall acc s, exists e, (enableArgs l acc s).1 = s <| enabled := e |>.
Proof.
  induction l as [|v r IH]; intros acc s; cbn [enableArgs]; [exists (enabled s); by destruct s|].
  repeat case_match; try apply IH;
    match goal with |- exists e, (enableArgs r ?a ?s1).1 = _ => destruct (IH a s1) as [e ->]; by exists e end.
Qed.

Lemma cmds_free cmd s : goodTag (tag cmd) -> coherent s ->
  Cmd s (cmdCapability cfg cmd s) /\ Cmd s (cmdNoop cmd s) /\ Cmd s (cmdLogout cfg cmd s) /\ Cmd s (cmdId cmd s) /\ Cmd s (cmdStartTls cfg cmd s) /\
  Cmd s (cmdLogin cfg cmd s) /\ Cmd s (cmdEnable cmd s) /\ Cmd s (cmdCompress cmd s).
Proof.
  intros Ht Hc. split_and!.
  - unfold cmdCapability. plain.
  - unfold cmdNoop, refreshSelected. break; try plain; try congruence. apply cmd_call; [done | congruence | by apply reqOk_none |].
    split; [intros x [= <-]; tagged | by eexists].
  - unfold cmdLogout. split; cbn; [done | by left | done | by left | done | by left | by apply iss_none | repeat constructor; unfold neutral; tagged].
  - unfold cmdId. plain.
  - unfold cmdStartTls. break; try plain. split; cbn; [done | by right | done | by left | done | by left | by apply iss_none | repeat constructor; unfold neutral; tagged].
  - unfold cmdLogin. break; try plain. apply (cmd_pend s _ (nonceIdx s)); [done | by repeat constructor |].
    eapply iss_auth; try done; [by apply dec_stable | by apply negb_false_iff].
  - unfold cmdEnable. destruct (state s) eqn:Hst; try plain. destruct (enableArgs_ok (args cmd) [] s) as [e He].
    destruct (enableArgs _ _ _) as [s1 acc]. cbn in He. subst s1. apply (cmd_enabled e). plain.
  - unfold cmdCompress. break; try plain. split; cbn; [done | by left | done | by left | done | by left | by apply iss_none | repeat constructor; unfold neutral; tagged].
Qed.

Definition RouteOk (cmd : ParsedCommand) (r : Route) : Prop :=
  goodTag (tag cmd) -> forall s, coherent s -> Cmd s (runRoute (tag cmd) r s).

Lemma route_auth cmd h : (goodTag (tag cmd) -> forall s, coherent s -> state s <> NotAuthenticated -> Cmd s (h s)) -> RouteOk cmd (NeedsAuth h).
Proof. intros Hh Ht s Hc. cbn. unfold requireAuth. destruct (decide _); [plain | by apply Hh]. Qed.

Lemma route_selected cmd h :
  (goodTag (tag cmd) -> forall v s, coherent s -> state s <> NotAuthenticated -> selected s = Some v -> Cmd s (h v s)) -> RouteOk cmd (NeedsSelected h).
Proof. intros Hh Ht s Hc. cbn. apply requireSelected_ok; [done|done|]. intros v Hs Hv. by apply Hh. Qed.

Lemma cmd_idle cmd s : goodTag (tag cmd) -> coherent s -> state s <> NotAuthenticated -> Cmd s (cmdIdle cmd s).
Proof.
  intros Ht Hc Hs. split; cbn; [done | by left | done | by left | done | right; right; by eexists | by apply iss_none | by repeat constructor].
Qed.

Lemma routes_ok cmd : Forall (fun r => RouteOk cmd r.2) (routes cfg cmd).
Proof.
  repeat (apply Forall_cons; split; [|]); [..|by apply Forall_nil]; cbn [snd].
  all: try (intros Ht s Hc; cbn; first [by eapply cmds_free | by apply cmd_authenticate | by apply cmd_uid]).
  all: first [apply route_auth; intros Ht s Hc Hs | apply route_selected; intros Ht v s Hc Hs Hv].
  all: first [by eapply cmds_auth | by eapply cmds_view | by eapply cmds_find | by apply cmd_select | plain | by apply cmd_idle | apply listPrefix_ok; auto].
Qed.

Lemma cmd_handleCommand cmd s : goodTag (tag cmd) -> coherent s -> Cmd s (handleCommand cfg cmd s).
Proof.
  intros Ht Hc. unfold handleCommand. destruct (mapGet _ _) as [r|] eqn:E; [|plain]. apply mapGet_elem in E as Hk.
  pose proof (routes_ok cmd) as Hf. rewrite Forall_forall in Hf. exact (Hf _ Hk Ht s Hc).
Qed.

Lemma parseCommand_tag parts cmd : parseCommand parts = Ok cmd -> goodTag (tag cmd).
Proof.
  unfold parseCommand. destruct (parseValues parts) as [[|[t|?|?|?] rest]|?|]; cbn [bindRes]; try done.
  destruct (existsb _ t) eqn:E; [done|]. destruct rest as [|[n|?|?|?] rest]; try done. intros [= <-]. cbn. intros H42.
  assert (Hx : existsb (fun c => (c =? 43) || (c =? 42) || (c =? 37)) t = true); [|congruence].
  apply existsb_exists. exists 42. split; [by apply list_elem_of_In | done].
Qed.

(** ** The invariant of a session *)

Definition saslOk (sasl : SaslPending) : Prop := goodTag (sl_tag sasl) /\ mechOk (mechanism sasl).

Record Inv s : Prop := {
  i_coherent : coherent s;
  i_idle : forall t, idleTag s = Some t -> goodTag t /\ state s <> NotAuthenticated;
  i_pending : match pending s with
              | None => True
              | Some (PBackend r) => state s <> NotAuthenticated /\ resumeOk s r
              | Some (PAuth t) => state s = NotAuthenticated /\ authAllowed cfg s = true /\ goodTag t
              | Some (PSaslLine sasl) => state s = NotAuthenticated /\ authAllowed cfg s = true /\ saslOk sasl
              | Some (PScramKeys sasl) => state s = NotAuthenticated /\ authAllowed cfg s = true /\ saslOk sasl /\
                  exists sess, mechanism sasl = MScram sess StClientFinal None
              end }.

Lemma cmd_handleLine parts s : Inv s -> waiting s = false -> Cmd s (handleLine cfg parts s).
Proof.
  intros [Hc Hi Hp] Hw. unfold handleLine. destruct (idleTag s) as [t|] eqn:Et.
  - destruct (Hi t eq_refl) as [Ht Hs]. split; cbn; [done | by left | done | by left | done | by right; left | by apply iss_none |].
    repeat constructor. unfold neutral. destruct (_ === _); tagged.
  - assert (Hcmd : Cmd s (match parseCommand parts with Ok cmd => handleCommand cfg cmd s | Err e => say (js "* BAD " ++ parseErrorText e) s | Fuel => (s, []) end)).
    { destruct (parseCommand parts) as [cmd|e|] eqn:E; [apply cmd_handleCommand; [by eapply parseCommand_tag | done] | plain | by apply cmd_acts]. }
    destruct (pending s) as [[t|[t m]|[t m]|r]|] eqn:E; try exact Hcmd.
    destruct Hp as (Hs & Ha & Ht & Hm). apply cmd_sasl; try done. left. by split.
Qed.

Lemma cmd_inv s r : Inv s -> waiting s = false -> Cmd s r -> Inv r.1.
Proof.
  intros [Hc Hi Hp] Hw [H1 _ H2 H3 H4 H5 H6 _]. assert (Hal : authAllowed cfg r.1 = authAllowed cfg s) by (unfold authAllowed; by rewrite H1).
  split; [done | |].
  - intros t Ht. destruct H5 as [H5|[H5|(t' & H5 & Hg & Hs)]]; [| congruence |].
    + rewrite H5 in Ht. destruct (Hi t Ht). by rewrite H2.
    + assert (t' = t) as <- by congruence. by rewrite H2.
  - rewrite Hal. destruct H6 as [H7 H8|sasl H7 H8 H9|sasl H7 H8|t sess sess' u H7 H8 H9|t sess u H7 H8 H9|u p t H7 H8|u t sess H7 H8|req q H7 H8]; rewrite ?H8, ?H9; try done.
    + unfold waiting in Hw. destruct (pending s) as [[?|?|?|?]|]; try done; by rewrite H2.
    + rewrite H2. split_and!; try done. split; [done|]. destruct (mechanism sasl) as [| | |? [] []]; try done; tauto.
    + rewrite H2. split_and!; try done. split; [done|]. by eexists.
    + by rewrite H2.
    + by rewrite H2.
    + rewrite H2. split_and!; try done. by eexists.
    + by rewrite H2.
Qed.

(** ** The answers of the store *)

(** What a part of a continuation leaves as it is: all but the messages and keywords of the view. *)
Definition viewKey (v : SelectedView) : jsstr * bool := (v_name v, readWrite v).
Definition frame s := (secure s, (queued s, queuedBytes s), state s, idleTag s, pending s, viewKey <$> selected s).

Definition Inner s (r : Imap * list ImapAction) : Prop := frame r.1 = frame s /\ issues r.2 = [].

Lemma inner_acts s acts : issues acts = [] -> Inner s (s, acts).
Proof. by split. Qed.

Lemma inner_then h1 h2 s : Inner s (h1 s) -> (forall s1, frame s1 = frame s -> Inner s1 (h2 s1)) -> Inner s (andThen h1 h2 s).
Proof.
  unfold andThen. intros [Hf Hi] H2. destruct (h1 s) as [s1 a]. cbn [fst snd] in *. destruct (H2 s1 Hf) as [Hf2 Hi2]. destruct (h2 s1) as [s2 b]. cbn [fst snd] in *.
  split; cbn [fst snd]; [congruence|]. by rewrite issues_app, Hi, Hi2.
Qed.

Lemma inner_view f s : (forall v, viewKey (f v).1 = viewKey v /\ issues (f v).2 = []) -> Inner s (onView f s).
Proof.
  intros Hf. unfold onView. destruct (selected s) as [v|] eqn:E; [|by split]. specialize (Hf v). destruct (f v) as [v' a]. cbn [fst snd] in *.
  destruct Hf as [Hk Hi]. split; [|done]. unfold frame. rewrite E. cbn -[viewKey]. by rewrite Hk.
Qed.

Lemma inner_announce flags s : Inner s (ensureFlagsAnnounced flags s).
Proof. apply inner_view. intros v. unfold announce. by repeat case_match. Qed.

Lemma inner_add us v : viewKey (addUids us v).1 = viewKey v /\ issues (addUids us v).2 = [].
Proof. by destruct us. Qed.

Lemma inner_removal us s : Inner s (removalActions us s).
Proof.
  unfold removalActions. destruct (hasEnabled _ s); apply inner_view; intros v; cbn; (split; [done|]); [by case_match|].
  induction (removalIndices us (uids v)); [done | exact IHl].
Qed.

Lemma inner_keywords db extra s : Inner s (syncKeywordList db extra s).
Proof. apply inner_view. intros v. cbv beta zeta. by destruct (_ || _). Qed.

Lemma inner_addToView mailbox us s : Inner s (addToView mailbox us s).
Proof. apply inner_view. intros v. destruct (_ === _); [apply inner_add | done]. Qed.

Lemma inner_snapshot m us s : Inner s (addSnapshot m us s).
Proof. apply inner_view. intros v. cbv beta zeta. by destruct (List.filter _ us). Qed.

Lemma inner_changed b changed : forall s, Inner s (changedLines b changed s).
Proof.
  induction changed as [|c r IH]; intros s; cbn [changedLines]; [by split|]. destruct (_ <? _); [|apply IH].
  apply inner_then; [apply inner_announce|]. intros s1 _. apply inner_then; [by split | auto].
Qed.

Lemma inner_store uidMode cs targets updated : forall s, Inner s (storeLines uidMode cs targets updated s).
Proof.
  induction updated as [|u r IH]; intros s; cbn [storeLines]; [by split|]. destruct (seqByUid _ _); [|apply IH].
  apply inner_then; [apply inner_announce|]. intros s1 _. apply inner_then; [by split | auto].
Qed.

Lemma inner_batch job ms batch : forall s, Inner s (emitBatch job ms batch s).1.
Proof.
  induction batch as [|t r IH]; intros s; cbn [emitBatch]; [by split|]. destruct (dataOf _ _) as [d|]; [|apply IH].
  destruct (unchanged _ _); [apply IH|]. destruct (mapM _ _) as [parts|]; [|by split].
  assert (Ha : Inner s (if existsb isFlagsItem (fj_items job) then ensureFlagsAnnounced (d_flags d) s else (s, []))) by (case_match; [apply inner_announce | by split]).
  destruct (if existsb _ _ then _ else _) as [s1 a]. destruct Ha as [Hf Hi]. specialize (IH s1). destruct (emitBatch job ms r s1) as [[s2 b] stop].
  destruct IH as [Hf2 Hi2]. cbn [fst snd] in *. split; cbn [fst snd]; [congruence|]. by rewrite issues_app, Hi.
Qed.

(** What a continuation does: it is the end of the command, or it asks again. *)
Inductive Next s (acts : list ImapAction) : Prop :=
| next_done : issues acts = [] -> pending s = None -> Next s acts
| next_ask req r : issues acts = [ABackend req] -> pending s = Some (PBackend r) -> reqOk s req -> resumeOk s r -> Next s acts.

Record Answered s (r : Imap * list ImapAction) : Prop := {
  a_frame : (secure r.1, (queued r.1, queuedBytes r.1), idleTag r.1) = (secure s, (queued s, queuedBytes s), idleTag s);
  a_auth : state r.1 <> NotAuthenticated;
  a_coherent : coherent r.1;
  a_view : viewKey <$> selected r.1 = viewKey <$> selected s \/ selected s = None /\ (forall req, issues r.2 = [ABackend req] -> mutated req = None);
  a_next : Next r.1 r.2 }.

Lemma answered_acts s acts : coherent s -> state s <> NotAuthenticated -> pending s = None -> issues acts = [] -> Answered s (s, acts).
Proof. intros Hc Hs Hp Hi. split; [done | done | done | by left | by apply next_done]. Qed.

Lemma coherent_frame s s1 : frame s1 = frame s -> coherent s -> coherent s1.
Proof.
  intros [=] Hc. unfold coherent in *. rewrite (ltac:(congruence) : state s1 = state s), Hc.
  destruct (selected s), (selected s1); try done; rewrite !is_Some_alt; done.
Qed.

(** A command that answers is one kind of continuation. *)
Lemma answered_cmd s r : pending s = None -> state s <> NotAuthenticated -> idleTag r.1 = idleTag s -> selected r.1 = selected s ->
  (queued r.1, queuedBytes r.1) = (queued s, queuedBytes s) -> Cmd s r -> Answered s r.
Proof.
  intros Hp Hs Hi Hv Hq [H1 _ H2 H3 H4 H5 H6 _]. split; [by rewrite H1, Hq, Hi | by rewrite H2 | done | left; by rewrite Hv |].
  destruct H6 as [H7 H8| | | | | | |req q H7 H8 H9 Hq' H11]; try congruence; [by apply next_done; [|congruence]|]. eapply next_ask; try done.
  intros n Hn. destruct (Hq' n Hn) as (v & Hsv & Hrw). exists v. by rewrite Hv.
Qed.

Lemma answered_frame s s1 r : frame s1 = frame s -> Answered s1 r -> Answered s r.
Proof.
  intros Hf [H1 H2 H3 H4 H5]. injection Hf as E1 E2 E3 E4 E5 E6 E7. split; [congruence | done | done | | done].
  destruct H4 as [H4|[H4 Hq]]; [left; congruence | right]. rewrite H4 in E7. by destruct (selected s).
Qed.

Lemma answered_then h1 h2 s : coherent s -> state s <> NotAuthenticated -> pending s = None -> Inner s (h1 s) ->
  (forall s1, frame s1 = frame s -> coherent s1 -> state s1 <> NotAuthenticated -> pending s1 = None -> Answered s1 (h2 s1)) -> Answered s (andThen h1 h2 s).
Proof.
  unfold andThen. intros Hc Hs Hp [Hf Hi] H2. destruct (h1 s) as [s1 a]. cbn [fst snd] in *. injection (Hf) as E1 E2 E3 E4 E5 E6 E7.
  destruct (answered_frame s s1 _ Hf (H2 s1 Hf ltac:(by eapply coherent_frame) ltac:(congruence) ltac:(congruence))) as [H3 H4 H5 H6 H7].
  destruct (h2 s1) as [s2 b]. cbn [fst snd] in *. split; cbn [fst snd]; rewrite ?issues_app, ?Hi; try done.
  destruct H7 as [H7 H8|req r H7 H8]; [apply next_done | eapply next_ask]; rewrite ?issues_app, ?Hi; done.
Qed.

Lemma issues_flat {A} (f : A -> list ImapAction) l : (forall x, issues (f x) = []) -> issues (flat_map f l) = [].
Proof. intros Hf. induction l as [|x l IH]; [done|]. cbn [flat_map]. by rewrite issues_app, Hf, IH. Qed.

Lemma issues_unexpected t v res : issues [unexpected t v res] = [].
Proof. by destruct res. Qed.

(** The continuations that only answer. *)
Lemma issues_listResume job res : issues (listResume job res) = [].
Proof.
  unfold listResume. destruct res; try apply issues_unexpected. rewrite issues_app, issues_flat; [done|].
  intros m. unfold listMailbox. by repeat case_match.
Qed.

Lemma issues_answers t res : (forall v, issues (doneResume t v res) = []) /\ issues (aclResume t res) = [] /\ issues (listRightsResume t res) = [] /\
  issues (myRightsResume t res) = [] /\ (forall v w, issues (statusResume t v w res) = []) /\ (forall v m, issues (quotaResume t v m res) = []).
Proof.
  unfold doneResume, aclResume, listRightsResume, myRightsResume, statusResume, quotaResume.
  split_and!; intros; destruct res; try done; by repeat case_match.
Qed.

Lemma issues_selectLines rev2 writable m us fu kw : issues (selectLines rev2 writable m us fu kw) = [].
Proof. unfold selectLines. rewrite !issues_app. by repeat case_match. Qed.

Lemma issues_earlier us : issues (earlierLine us) = [].
Proof. by destruct us. Qed.

Lemma writes_frame s s1 n : frame s1 = frame s -> writes s n -> writes s1 n.
Proof.
  intros Hf (v & Hv & Hw & Hn). injection Hf as _ _ _ _ _ _ Hk. rewrite Hv in Hk. destruct (selected s1) as [v1|] eqn:E; [|done].
  injection Hk as Hk1 Hk2. exists v1. split_and!; congruence.
Qed.

Lemma some_frame s s1 : frame s1 = frame s -> is_Some (selected s) -> is_Some (selected s1).
Proof. intros [=] [v Hv]. rewrite Hv in *. destruct (selected s1); [by eexists | done]. Qed.

Lemma fetchOk_frame s s1 job : frame s1 = frame s -> fetchOk s job -> fetchOk s1 job.
Proof. intros Hf (Ht & Hv & Hm). split_and!; [done | by eapply some_frame | intros Hm'; eapply writes_frame; [done | by apply Hm]]. Qed.

Lemma answered_fetchFrom job todo s : coherent s -> state s <> NotAuthenticated -> pending s = None -> fetchOk s job -> Answered s (fetchFrom job todo s).
Proof. intros Hc Hs Hp Hj. apply answered_cmd; try done; try (by destruct todo). by apply cmd_fetchFrom. Qed.

Lemma answered_search job e hits us s : coherent s -> state s <> NotAuthenticated -> pending s = None -> is_Some (selected s) -> goodTag (sj_tag job) ->
  (forall off, Answered s (searchFrom job e off hits us s)) /\ Answered s (searchDone job e hits us s).
Proof.
  intros. split; [intros off|]; (apply answered_cmd; try done).
  - by apply cmd_searchFrom.
  - unfold searchDone. by repeat case_match.
  - unfold searchDone. by repeat case_match.
  - unfold searchDone. by repeat case_match.
  - by apply cmd_searchDone.
Qed.

Lemma answered_call s req r : coherent s -> state s <> NotAuthenticated -> reqOk s req -> resumeOk s r -> Answered s (callBackend req r s).
Proof. intros Hc Hs Hq Hr. split; [done | done | done | by left | by eapply next_ask]. Qed.

Lemma answered_sayIf o s : coherent s -> state s <> NotAuthenticated -> pending s = None -> Answered s (sayIf o s).
Proof. intros. destruct o; by apply answered_acts. Qed.

Lemma answered_select t w q res s : coherent s -> state s <> NotAuthenticated -> pending s = None -> goodTag t -> selected s = None ->
  Answered s (selectResume t w q res s).
Proof.
  intros Hc Hs Hp Ht Hv. unfold selectResume. destruct res as [|m us fu kw| | | | | | | | | | | |]; try (by apply answered_acts).
  set (s1 := s <| selected := _ |> <| state := _ |> <| savedSearch := _ |>).
  assert (Hc1 : coherent s1) by (split; [by eexists | done]).
  assert (Hdone : forall l, Answered s (s1, selectLines (hasEnabled "IMAP4rev2" s1) w m us fu (default [] kw) ++ [AReply l])).
  { intros l. assert (Hl : forall k, issues (selectLines (hasEnabled "IMAP4rev2" s1) w m us fu (default [] kw) ++ k) = issues k)
      by (intros k; by rewrite issues_app, issues_selectLines).
    split; [done | done | done | right; split; [done | cbn [snd]; by rewrite Hl] |]. apply next_done; [apply Hl | done]. }
  destruct q as [q|]; [|apply Hdone]. destruct (numIs _ _); [|apply Hdone].
  split; [done | done | done | right; split; [done|] | eapply next_ask].
  - unfold andThen, callBackend. cbn [fst snd]. rewrite issues_app, issues_selectLines. by intros req [= <-].
  - unfold andThen, callBackend. cbn [fst snd]. rewrite issues_app, issues_selectLines. reflexivity.
  - reflexivity.
  - by apply reqOk_none.
  - split; [tagged | by eexists].
Qed.

Section Resumes.
Context (res : ImapBackendResponse) (s : Imap) (Hc : coherent s) (Hs : state s <> NotAuthenticated) (Hp : pending s = None).

Lemma answered_unexpected t v other : Answered s (s, [unexpected t v other]).
Proof. apply answered_acts; auto using issues_unexpected. Qed.

(** A part that stays in the frame, and the rest. *)
Ltac first_part := apply answered_then; [done | done | done | | intros].

Lemma answered_selectSync l : Answered s (selectSyncResume l res s).
Proof.
  unfold selectSyncResume. destruct res; try (by apply answered_acts). first_part; [by apply inner_acts, issues_earlier|].
  first_part; [apply inner_changed | by apply answered_acts].
Qed.

Lemma answered_fetchVanished job targets rq mx : fetchOk s job -> Answered s (fetchVanishedResume job targets rq mx res s).
Proof.
  intros Hj. unfold fetchVanishedResume. destruct res; try apply answered_unexpected. first_part; [by apply inner_acts, issues_earlier|].
  apply answered_fetchFrom; try done. by eapply fetchOk_frame.
Qed.

Lemma answered_fetch job todo : fetchOk s job -> Answered s (fetchResume job todo res s).
Proof.
  intros Hj. unfold fetchResume. destruct res as [| |ms| | | | | | | | | | |]; try apply answered_unexpected.
  pose proof (inner_batch job ms (take (batchSize (fj_needRaw job)) todo) s) as Hb. destruct (emitBatch _ _ _ s) as [[s1 a] stop].
  pose proof (fun h => answered_then (fun _ => (s1, a)) h s Hc Hs Hp Hb) as Hend.
  destruct stop; [apply (Hend (fun s => (s, _))) | apply (Hend (fetchFrom _ _))]; intros; [by apply answered_acts|].
  apply answered_fetchFrom; try done. by eapply fetchOk_frame.
Qed.

Lemma answered_changes t :
  (forall m, Answered s (appendResume t m res s)) /\ (forall v m, Answered s (replaceResume t v m res s)) /\
  (forall v mv, Answered s (copyMoveResume t v mv res s)) /\ (forall v um si tg, Answered s (storeResume t v um si tg res s)) /\
  (forall v, Answered s (expungeResume t v res s)).
Proof.
  unfold appendResume, replaceResume, copyMoveResume, storeResume, expungeResume. split_and!; intros; destruct res; try apply answered_unexpected.
  - first_part; [apply inner_addToView | by apply answered_acts].
  - first_part; [apply inner_addToView|]. first_part; [destruct expungedUid; [apply inner_removal | by apply inner_acts] | by apply answered_acts].
  - destruct mv; [|by apply answered_acts]. first_part; [by apply inner_acts|]. first_part; [apply inner_removal | by apply answered_acts].
  - first_part; [destruct si; [by apply inner_acts | apply inner_store]|]. apply answered_acts; try done. by repeat case_match.
  - first_part; [apply inner_removal | by apply answered_acts].
Qed.

Lemma answered_refresh o : lineOk o -> Answered s (refreshResume o res s).
Proof.
  intros Hl. unfold refreshResume. destruct res; try (by apply answered_sayIf). destruct (selected s) as [v|] eqn:Ev; [|by apply answered_sayIf].
  first_part; [apply inner_removal|]. first_part; [apply inner_snapshot|]. destruct (_ <=? _).
  - first_part; [apply inner_keywords | by apply answered_sayIf].
  - apply answered_call; [done | done | by apply reqOk_none |]. split; [done|]. by eapply some_frame, some_frame.
Qed.

Lemma answered_refreshSync o db w : Answered s (refreshSyncResume o db w res s).
Proof.
  assert (Hend : forall extra s, coherent s -> state s <> NotAuthenticated -> pending s = None -> Answered s (andThen (syncKeywordList db extra) (sayIf o) s)).
  { intros. first_part; [apply inner_keywords | by apply answered_sayIf]. }
  unfold refreshSyncResume. destruct res; try by apply Hend. destruct (selected s) as [v|] eqn:Ev; [|by apply Hend].
  assert (Hfr : frame (s <| selected := Some (v <| lastSyncModseq := w |>) |>) = frame s) by (unfold frame; cbn; by rewrite Ev).
  pose proof (coherent_frame _ _ Hfr Hc) as Hc'. eapply answered_frame; [exact Hfr|].
  first_part; [apply inner_changed | by apply Hend].
Qed.

Lemma answered_find job off b : is_Some (selected s) -> goodTag (sj_tag job) ->
  (forall e hits us, Answered s (searchResume job e off b hits us res s)) /\ (forall md items meta, Answered s (sortResume job md off b items meta res s)).
Proof.
  intros Hv Ht. unfold searchResume, sortResume. split; intros; destruct res; try apply answered_unexpected; (destruct (_ <? _)%nat; [|]).
  - by apply answered_search.
  - by apply answered_search.
  - apply answered_cmd; try done. by apply cmd_sortFrom.
  - by apply answered_acts.
Qed.
End Resumes.

Lemma answered_resume r res s : coherent s -> state s <> NotAuthenticated -> pending s = None -> resumeOk s r -> Answered s (resumeWith r res s).
Proof.
  intros Hc Hs Hp Hr. destruct r; cbn [resumeWith resumeOk] in *;
    try (apply answered_acts; [done | done | done | first [apply issues_listResume | apply issues_answers]]);
    try (by apply answered_changes); try (destruct Hr; by apply answered_find).
  - destruct Hr. by apply answered_select.
  - by apply answered_selectSync.
  - by apply answered_fetchVanished.
  - by apply answered_fetch.
  - destruct Hr. by apply answered_refresh.
  - by apply answered_refreshSync.
Qed.
End Spec.

(** * The methods of an IMAP session as runs of small steps (packages/proto-imap/src/engine.ts)

    A chunk of the client may hold several lines, and an answer of the store may be followed by lines
    that have waited for it: every method of the engine is a sequence of steps, each of which is one
    event of the reader, one waiting line, or one answer.  The theorems are about every run of such
    steps. *)

Section Run.
Context {SS : ScramServer} `{TextDecoders} `{NodeCrypto} (cfg : ImapConfig).
Implicit Types s : Imap.

(** ** Steps *)

Inductive Label :=
| LChunk (chunk : bytes)
| LEvent (ev : ReaderEvent)
| LQueued
| LDrained
| LBackend (res : ImapBackendResponse)
| LKeys (keys : option ScramStoredKeys)
| LVerdict (ok : bool)
| LTls
| LTick.

Definition micro (l : Label) s : option (Imap * list ImapAction) :=
  match l with
  | LChunk chunk => if closed s || awaitingTls s then None else Some (s <| reader := (ImapReader.feed (readerOpts cfg) chunk (reader s)).1 |>, [])
  | LEvent ev => if closed s then None else Some (handleReaderEvent cfg ev s)
  | LQueued => if draining s then Some (drainBody cfg s).1 else None
  | LDrained => match queued s with [] => Some (s <| queuedBytes := 0 |>, []) | _ => None end
  | LBackend res => match pending s with Some (PBackend r) => Some (resumeWith r res (s <| pending := None |>)) | _ => None end
  | LKeys keys => scramKeysResult keys s
  | LVerdict ok => match pending s with Some (PAuth t) => Some (authReply cfg ok t (s <| pending := None |>)) | _ => None end
  | LTls => Some (tlsEstablished s, [])
  | LTick => Some (idleTick s)
  end.

Abbreviation Trace := (list (Label * list ImapAction)).

Inductive Steps s : Trace -> Imap -> Prop :=
| steps_nil : Steps s [] s
| steps_snoc tr s1 l s2 a : Steps s tr s1 -> micro l s1 = Some (s2, a) -> Steps s (tr ++ [(l, a)]) s2.

Definition Run : Trace -> Imap -> Prop := Steps (initial cfg).

Definition said (tr : Trace) : list ImapAction := flat_map snd tr.

Lemma steps_one s l s2 a : micro l s = Some (s2, a) -> Steps s [(l, a)] s2.
Proof. intros Hm. apply (steps_snoc s [] s l s2 a); [constructor | done]. Qed.

Lemma steps_app s tr s1 tr2 s2 : Steps s tr s1 -> Steps s1 tr2 s2 -> Steps s (tr ++ tr2) s2.
Proof.
  intros H1 H2. induction H2 as [|tr2 s2 l s3 a H2 IH Hm]; [by rewrite app_nil_r|]. rewrite (assoc_L (++)). by eapply steps_snoc.
Qed.

Lemma steps_cons s l s1 a tr s2 : micro l s = Some (s1, a) -> Steps s1 tr s2 -> Steps s ((l, a) :: tr) s2.
Proof. intros Hm Hs. exact (steps_app _ [_] _ _ _ (steps_one _ _ _ _ Hm) Hs). Qed.

Lemma said_app a b : said (a ++ b) = said a ++ said b.
Proof. apply flat_map_app. Qed.

(** The calls of the listener. *)
Inductive Call := CFeed (chunk : bytes) | CBackend (res : ImapBackendResponse) | CKeys (keys : option ScramStoredKeys) | CVerdict (ok : bool) | CTls | CTick.

Definition call (c : Call) s : option (Imap * list ImapAction) :=
  match c with
  | CFeed chunk => Some (feed cfg chunk s)
  | CBackend res => backendResult cfg res s
  | CKeys keys => scramKeysResult keys s
  | CVerdict ok => authResult cfg ok s
  | CTls => Some (tlsEstablished s, [])
  | CTick => Some (idleTick s)
  end.

(** The steps that come from outside. *)
Definition answer (l : Label) : option Call :=
  match l with
  | LBackend res => Some (CBackend res)
  | LKeys keys => Some (CKeys keys)
  | LVerdict ok => Some (CVerdict ok)
  | LTls => Some CTls
  | LTick => Some CTick
  | LChunk chunk => Some (CFeed chunk)
  | _ => None
  end.

Lemma steps_events evs : forall s, closed s = false -> exists tr,
  Steps s tr (handleEvents cfg evs s).1 /\ said tr = (handleEvents cfg evs s).2 /\ omap (answer ∘ fst) tr = [].
Proof.
  induction evs as [|ev r IH]; intros s Hcl; cbn [handleEvents]; [exists []; split_and!; [constructor | done | done]|].
  destruct (handleReaderEvent cfg ev s) as [s1 a] eqn:E.
  assert (H1 : micro (LEvent ev) s = Some (s1, a)) by (cbn; by rewrite Hcl, E).
  destruct (closed s1) eqn:Hcl1; [exists [(LEvent ev, a)]; split_and!; [by apply steps_one | apply app_nil_r | done]|].
  destruct (IH s1 Hcl1) as (tr & H2 & Hsaid & Hans). destruct (handleEvents cfg r s1) as [s2 b]. cbn in *.
  exists ((LEvent ev, a) :: tr). split_and!; [by eapply steps_cons | cbn; by rewrite <- Hsaid | done].
Qed.

Lemma steps_drain s : exists tr, Steps s tr (drainQueued cfg s).1 /\ said tr = (drainQueued cfg s).2 /\ omap (answer ∘ fst) tr = [].
Proof.
  assert (Hloop : forall n s, exists tr, Steps s tr (whileFuel draining (drainBody cfg) n s).1 /\ said tr = (whileFuel draining (drainBody cfg) n s).2 /\
    omap (answer ∘ fst) tr = []).
  { clear s. induction n as [|n IH]; intros s; cbn [whileFuel]; [exists []; split_and!; [constructor | done | done]|].
    destruct (draining s) eqn:Hd; [|exists []; split_and!; [constructor | done | done]].
    destruct (drainBody cfg s) as [[s1 a] b] eqn:E. assert (b = true) as ->. { unfold drainBody in E. destruct (queued s); simplify_eq; done. }
    assert (H1 : micro LQueued s = Some (s1, a)) by (cbn; by rewrite Hd, E).
    destruct (IH s1) as (tr & H2 & Hsaid & Hans). destruct (whileFuel _ _ n s1) as [s2 b]. cbn in *.
    exists ((LQueued, a) :: tr). split_and!; [by eapply steps_cons | cbn; by rewrite <- Hsaid | done]. }
  unfold drainQueued. destruct (Hloop (S (length (queued s))) s) as (tr & Hs & Hsaid & Hans). destruct (whileFuel _ _ _ s) as [s1 a]. cbn in *.
  destruct (queued s1) as [|q qs] eqn:Eq; [|by exists tr].
  exists (tr ++ [(LDrained, [])]). split_and!; [eapply steps_snoc; [done | cbn; by rewrite Eq] | by rewrite said_app, Hsaid, app_nil_r |].
  by rewrite omap_app, Hans.
Qed.

(** An answer, and the lines that have waited for it. *)
Lemma steps_then l s r : micro l s = Some r -> is_Some (answer l) -> exists tr,
  let r' := let '(s2, b) := drainQueued cfg r.1 in (s2, r.2 ++ b) in
  Steps s tr r'.1 /\ said tr = r'.2 /\ omap (answer ∘ fst) tr = option_list (answer l).
Proof.
  destruct r as [s1 a]. intros Hm [c Hc]. cbn [fst snd]. destruct (steps_drain s1) as (tr & Hs & Hsaid & Hans). destruct (drainQueued cfg s1) as [s2 b]. cbn in *.
  exists ((l, a) :: tr). split_and!; [by eapply steps_cons | cbn; by rewrite <- Hsaid |]. cbn. by rewrite Hc, Hans.
Qed.

Lemma steps_call l c s r : answer l = Some c -> micro l s = Some r -> exists tr, Steps s tr r.1 /\ said tr = r.2 /\ omap (answer ∘ fst) tr = [c].
Proof. destruct r as [s1 a]. intros Ha Hm. exists [(l, a)]. split_and!; [by apply steps_one | apply app_nil_r | cbn; by rewrite Ha]. Qed.

Lemma feed_off chunk s : (closed s || awaitingTls s) = true -> feed cfg chunk s = (s, []).
Proof. unfold feed. by destruct (closed s), (awaitingTls s). Qed.

Lemma steps_feed chunk s : (closed s || awaitingTls s) = false -> exists tr,
  Steps s tr (feed cfg chunk s).1 /\ said tr = (feed cfg chunk s).2 /\ omap (answer ∘ fst) tr = [CFeed chunk].
Proof.
  intros Hoff. unfold feed. pose proof Hoff as [Hcl Htls]%orb_false_iff. rewrite Hcl, Htls.
  assert (Hm : micro (LChunk chunk) s = Some (s <| reader := (ImapReader.feed (readerOpts cfg) chunk (reader s)).1 |>, [])) by (cbn [micro]; by rewrite Hoff).
  destruct (ImapReader.feed _ chunk _) as [rd evs]. cbn [fst] in Hm.
  pose (s1 := s <| reader := rd |>). destruct (steps_events evs s1 Hcl) as (tr & Hs & Hsaid & Hans).
  exists ((LChunk chunk, []) :: tr). split_and!; [exact (steps_cons _ _ _ _ _ _ Hm Hs) | exact Hsaid | cbn; by rewrite Hans].
Qed.

(** Every call of the listener that does not throw is a run of steps: what it returns is what the steps say, in
    order, and the one step of the run that comes from outside is the call itself; a chunk that arrives
    when the connection is closed or waits for TLS is no step at all. *)
Theorem imap_calls_refine c s s' acts : call c s = Some (s', acts) ->
  exists tr, Steps s tr s' /\ said tr = acts /\
    (omap (answer ∘ fst) tr = [c] \/ (exists chunk, c = CFeed chunk) /\ (closed s || awaitingTls s) = true /\ tr = []).
Proof.
  intros Hcall. destruct c as [chunk|res|keys|ok| |].
  - injection Hcall as Hf. destruct (closed s || awaitingTls s) eqn:Hoff.
    + rewrite (feed_off chunk s Hoff) in Hf. injection Hf as <- <-. exists []. split_and!; [constructor | done |]. right. eauto.
    + destruct (steps_feed chunk s Hoff) as (tr & ? & ? & ?). rewrite Hf in *. eauto.
  - cbn in Hcall. unfold backendResult in Hcall. destruct (pending s) as [[| | |r]|] eqn:Hp; try done.
    destruct (steps_then (LBackend res) s (resumeWith r res (s <| pending := None |>))) as (tr & Ht); [cbn; by rewrite Hp | by eexists |].
    exists tr. unfold andThen in Hcall. destruct (resumeWith _ _ _) as [s1 a]. cbn [fst snd] in Ht. destruct (drainQueued cfg s1) as [s2 b].
    injection Hcall as <- <-. destruct Ht as (? & ? & ?). eauto.
  - destruct (steps_call (LKeys keys) (CKeys keys) s (s', acts)) as (tr & ? & ? & ?); eauto.
  - cbn in Hcall. unfold authResult in Hcall. destruct (pending s) as [[t| | |]|] eqn:Hp; try done.
    destruct (steps_then (LVerdict ok) s (authReply cfg ok t (s <| pending := None |>))) as (tr & Ht); [cbn; by rewrite Hp | by eexists |].
    exists tr. unfold andThen in Hcall. destruct (authReply _ _ _ _) as [s1 a]. cbn [fst snd] in Ht. destruct (drainQueued cfg s1) as [s2 b].
    injection Hcall as <- <-. destruct Ht as (? & ? & ?). eauto.
  - destruct (steps_call LTls CTls s (s', acts)) as (tr & ? & ? & ?); eauto.
  - destruct (steps_call LTick CTick s (s', acts)) as (tr & ? & ? & ?); eauto.
Qed.

(** ** What a step does *)

(** The answer to a pending exchange, after which nothing is pending. *)
Definition Settled s (r : Imap * list ImapAction) : Prop :=
  (secure r.1, (queued r.1, queuedBytes r.1), selected r.1, idleTag r.1) = (secure s, (queued s, queuedBytes s), selected s, idleTag s) /\
  pending r.1 = None /\ issues r.2 = [] /\ Forall neutral r.2.

Inductive Does s : Label -> Imap * list ImapAction -> Prop :=
| does_quiet l r : (secure r.1, state r.1, idleTag r.1, pending r.1, selected r.1) = (secure s, state s, idleTag s, pending s, selected s) ->
    issues r.2 = [] -> Forall neutral r.2 -> match l with LChunk _ | LEvent _ | LDrained | LTick => True | _ => False end -> Does s l r
| does_cmd l q n r : waiting s = false -> Cmd cfg (s <| queued := q |> <| queuedBytes := n |>) r ->
    match l with LEvent _ | LQueued | LTick => True | _ => False end -> Does s l r
| does_answer res x r : pending s = Some (PBackend x) -> r = resumeWith x res (s <| pending := None |>) -> Answered (s <| pending := None |>) r ->
    Does s (LBackend res) r
| does_verdict (ok : bool) t r : pending s = Some (PAuth t) -> Settled s r -> state r.1 = (if ok then Authenticated else state s) -> Does s (LVerdict ok) r
| does_nokeys keys sasl r : pending s = Some (PScramKeys sasl) -> Settled s r -> state r.1 = state s -> Does s (LKeys keys) r
| does_keys keys t sess sess' r : pending s = Some (PScramKeys {| sl_tag := t; mechanism := MScram sess StClientFinal None |}) ->
    r.1 = s <| pending := Some (PSaslLine {| sl_tag := t; mechanism := MScram sess' StClientFinal None |}) |> -> scramUser sess' = scramUser sess ->
    issues r.2 = [] -> Forall neutral r.2 -> Does s (LKeys keys) r
| does_tls : Does s LTls (tlsEstablished s, []).

Lemma does_event ev s : Inv cfg s -> Does s (LEvent ev) (handleReaderEvent cfg ev s).
Proof.
  intros Hi. unfold handleReaderEvent. destruct ev; try (apply does_quiet; [done | done | by repeat constructor | done]). destruct (waiting s) eqn:Hw.
  - unfold queueLine. destruct (_ <? _); (apply does_quiet; [done | done | by repeat constructor | done]).
  - apply (does_cmd _ _ (queued s) (queuedBytes s)); [done | | done].
    replace (s <| queued := queued s |> <| queuedBytes := queuedBytes s |>) with s by (by destruct s). by apply cmd_handleLine.
Qed.

Lemma inv_queue q n s : Inv cfg s -> Inv cfg (s <| queued := q |> <| queuedBytes := n |>).
Proof. by intros []. Qed.

Lemma does_queued s : Inv cfg s -> draining s = true -> Does s LQueued (drainBody cfg s).1.
Proof.
  intros Hi Hd. unfold draining in Hd. unfold drainBody. destruct (queued s) as [|parts q] eqn:Eq; [done|]. destruct (pending s) eqn:Ep; [done|].
  eapply does_cmd; [unfold waiting; by rewrite Ep | | done]. apply cmd_handleLine; [by apply inv_queue | unfold waiting; cbn; by rewrite Ep].
Qed.

Lemma does_tick s : Inv cfg s -> Does s LTick (idleTick s).
Proof.
  intros Hi. assert (Hq : Does s LTick (s, [])) by (by apply does_quiet; repeat constructor).
  unfold idleTick. destruct (idleTag s); [|done]. destruct (pending s) eqn:Ep; [done|]. destruct (decide _) as [Hs|]; [|done]. destruct (closed s); [done|].
  unfold refreshSelected. destruct (selected s) as [v|] eqn:Ev; [|done].
  apply (does_cmd _ _ (queued s) (queuedBytes s)); [unfold waiting; by rewrite Ep | | done].
  replace (s <| queued := queued s |> <| queuedBytes := queuedBytes s |>) with s by (by destruct s).
  apply cmd_call; [apply Hi | congruence | by apply reqOk_none | split; [done | by eexists]].
Qed.

Lemma does_verdicts ok t s : Inv cfg s -> pending s = Some (PAuth t) -> Does s (LVerdict ok) (authReply cfg ok t (s <| pending := None |>)).
Proof.
  intros Hi Hp. pose proof (i_pending _ _ Hi) as Hpd. rewrite Hp in Hpd. destruct Hpd as (Hst & _ & Ht).
  eapply does_verdict; [done | | by destruct ok]. destruct ok; (split_and!; [done | done | done | repeat constructor; unfold neutral; by apply read_tag]).
Qed.

Lemma does_scramKeys keys s r : Inv cfg s -> scramKeysResult keys s = Some r -> Does s (LKeys keys) r.
Proof.
  intros Hi. unfold scramKeysResult. pose proof (i_pending _ _ Hi) as Hpd. destruct (pending s) as [[|?|[t m]|]|] eqn:Hp; try done.
  destruct Hpd as (Hst & _ & [Ht _] & sess & Hm). cbn in Hm, Ht. subst m.
  pose proof (scramProvideKeys_user keys sess) as Hu. destruct (scramProvideKeys keys sess) as [sess' step]. intros [= <-].
  assert (Hno : Does s (LKeys keys) (s <| pending := None |>, [scramFailedAction step; authFailedReply t])).
  { eapply does_nokeys; [done | | done]. split_and!; [done | done | done | repeat constructor; by apply read_tag]. }
  destruct step; try exact Hno. eapply does_keys; [done | done | done | done | by repeat constructor].
Qed.

Lemma micro_does l s r : Inv cfg s -> micro l s = Some r -> Does s l r.
Proof.
  intros Hi Hm. destruct l; cbn [micro] in Hm.
  - destruct (_ || _); [done|]. injection Hm as <-. by apply does_quiet.
  - destruct (closed s); [done|]. injection Hm as <-. by apply does_event.
  - destruct (draining s) eqn:Hd; [|done]. injection Hm as <-. by apply does_queued.
  - destruct (queued s); [|done]. injection Hm as <-. by apply does_quiet.
  - pose proof (i_pending _ _ Hi) as Hpd. destruct (pending s) as [[| | |x]|] eqn:Hp; try done. injection Hm as <-. destruct Hpd as [Hs Hr].
    eapply does_answer; [done | done |]. apply (answered_resume cfg); [apply Hi | done | done |]. by destruct x.
  - by apply does_scramKeys.
  - destruct (pending s) as [[t| | |]|] eqn:Hp; try done. injection Hm as <-. by apply does_verdicts.
  - injection Hm as <-. apply does_tls.
  - injection Hm as <-. by apply does_tick.
Qed.

(** ** The invariant along a run *)

Lemma resumeOk_selected s s' x : selected s' = selected s -> resumeOk s x -> resumeOk s' x.
Proof. intros Hv. destruct x; cbn; unfold fetchOk, writes; rewrite ?Hv; done. Qed.

Lemma inv_initial : Inv cfg (initial cfg).
Proof. split; [|done|done]. split; [done | intros [? ?]; done]. Qed.

Lemma not_selected s : Inv cfg s -> state s = NotAuthenticated -> selected s = None.
Proof. intros [Hc _ _] Hs. destruct (selected s) eqn:E; [|done]. unfold coherent in Hc. rewrite E in Hc. rewrite (proj2 Hc ltac:(by eexists)) in Hs. done. Qed.

Lemma inv_answered s r : Inv cfg s -> Answered s r -> Inv cfg r.1.
Proof.
  intros [_ Hi _] [H1 H2 H3 H4 H5]. injection H1 as H1 Hq1 Hq2 Hidle. split; [done | |].
  - intros t Ht. rewrite Hidle in Ht. split; [by apply (Hi t Ht) | done].
  - destruct H5 as [H5 H6|req x H5 H6 H7 H8]; by rewrite H6.
Qed.

Lemma inv_settled s r : Inv cfg s -> Settled s r -> state r.1 = state s \/ state s = NotAuthenticated /\ state r.1 = Authenticated -> Inv cfg r.1.
Proof.
  intros Hi (Hs & Hp & _) Hst. injection Hs as H1 _ _ H2 H3. pose proof (not_selected s Hi) as Hno. destruct Hi as [Hc Hi _].
  split; [| |by rewrite Hp].
  - unfold coherent in *. rewrite H2. destruct Hst as [->|[Hs Ha]]; [done|]. rewrite Ha, (Hno Hs). split; [done | by intros [? ?]].
  - intros t Ht. rewrite H3 in Ht. destruct (Hi t Ht) as [Hg Hn]. split; [done|]. destruct Hst as [->|[_ ->]]; done.
Qed.

Lemma inv_does l s r : Inv cfg s -> Does s l r -> Inv cfg r.1.
Proof.
  intros Hi Hd. destruct Hd as [l r Hf|l q n r Hw Hcmd|res x r Hp -> Ha|ok t r Hp Hs Hst|keys sasl r Hp Hs Hst|keys t sess sess' r Hp Hr|].
  - injection Hf as E1 E2 E3 E4 E5. destruct Hi as [Hc Hi Hpd]. assert (Hal : authAllowed cfg r.1 = authAllowed cfg s) by (unfold authAllowed; by rewrite E1).
    split; [unfold coherent; by rewrite E2, E5 | by rewrite E2, E3 |]. rewrite E4, E2, Hal. destruct (pending s) as [[| | |x]|]; try done.
    destruct Hpd. split; [done|]. by eapply resumeOk_selected.
  - eapply cmd_inv; [by apply inv_queue | done | done].
  - eapply inv_answered; [|done]. destruct Hi as [Hc Hi Hpd]. split; done.
  - eapply inv_settled; [done | done |]. pose proof (i_pending _ _ Hi) as Hpd. rewrite Hp in Hpd. destruct ok; [right | left]; tauto.
  - eapply inv_settled; [done | done | by left].
  - rewrite Hr. destruct Hi as [Hc Hi Hpd]. rewrite Hp in Hpd. destruct Hpd as (Hst & Hal & (Ht & _) & _). split; [done | done |]. by split_and!.
  - destruct Hi as [Hc Hi Hpd]. split; [done | done |]. cbn. destruct (pending s) as [[| | |x]|]; try tauto.
Qed.

Lemma inv_steps s tr s' : Inv cfg s -> Steps s tr s' -> Inv cfg s'.
Proof. intros Hi Hs. induction Hs as [|tr s1 l s2 a _ IH Hm]; [done|]. exact (inv_does _ _ _ IH (micro_does _ _ _ IH Hm)). Qed.

Lemma inv_run tr s : Run tr s -> Inv cfg s.
Proof. apply inv_steps, inv_initial. Qed.

(** ** Requests *)

(** Credentials that are put to the test, and keys that are looked up. *)
Definition credential (a : ImapAction) : bool := match a with AAuth _ _ | AScramKeys _ | AAuthVerified _ _ => true | _ => false end.
Definition asksVerdict (a : ImapAction) : bool := match a with AAuth _ _ | AAuthVerified _ _ => true | _ => false end.
Definition asksStore (a : ImapAction) : bool := match a with ABackend _ => true | _ => false end.

(** What one step asks for. *)
Inductive Asks s s' (acts : list ImapAction) : Prop :=
| asks_nothing : issues acts = [] -> Asks s s' acts
| asks_credential a : issues acts = [a] -> credential a = true -> state s = NotAuthenticated -> authAllowed cfg s = true -> Asks s s' acts
| asks_store req : issues acts = [ABackend req] -> state s <> NotAuthenticated -> reqOk s req -> Asks s s' acts.

Lemma does_asks l s r : Inv cfg s -> Does s l r -> Asks s r.1 r.2.
Proof.
  intros Hi Hd. destruct Hd as [l r Hf Hq|l q n r Hw [_ _ _ _ _ _ Hiss _]|res x r Hp -> Ha|ok t r Hp (_ & _ & Hq & _)|keys sasl r Hp (_ & _ & Hq & _)|keys t sess sess' r Hp Hr Hu Hq|];
    try (by apply asks_nothing).
  - destruct Hiss; try (by apply asks_nothing); try (by eapply asks_credential); by eapply asks_store.
  - destruct Ha as [_ _ _ Hv [Hq _|req y Hq _ Hok _]]; [by apply asks_nothing|]. pose proof (i_pending _ _ Hi) as Hpd. rewrite Hp in Hpd.
    eapply asks_store; [done | by destruct Hpd |]. intros m Hm. destruct Hv as [Hv|[_ Hv]]; [|by rewrite (Hv req Hq) in Hm].
    destruct (Hok m Hm) as (v & Hsv & Hrw & Hn). rewrite Hsv in Hv. cbn in Hv. destruct (selected s) as [v0|] eqn:E; [|done]. injection Hv as Hn0 Hr0.
    exists v0. split_and!; congruence.
Qed.

Lemma issues_elem a acts : a ∈ acts -> issue a = true -> a ∈ issues acts.
Proof. intros Ha Hi. apply list_elem_of_In, filter_In. split; [by apply list_elem_of_In | done]. Qed.

(** What a state owes to the steps before it. *)
Definition verdictIn (tr : Trace) : Prop := exists acts, (LVerdict true, acts) ∈ tr.
Definition tlsIn (tr : Trace) : Prop := exists acts, (LTls, acts) ∈ tr.

Lemma in_snoc (tr : Trace) e l : (exists acts, (l, acts) ∈ tr) -> exists acts, (l, acts) ∈ tr ++ [e].
Proof. intros [acts Ha]. exists acts. apply elem_of_app. by left. Qed.

Lemma in_last (tr : Trace) l a : exists acts, (l, acts) ∈ tr ++ [(l, a)].
Proof. exists a. apply elem_of_app. right. apply list_elem_of_singleton. done. Qed.

Lemma run_owes tr s : Run tr s -> (state s <> NotAuthenticated -> verdictIn tr) /\ (secure s = true -> initiallySecure cfg = true \/ tlsIn tr).
Proof.
  intros Hr. induction Hr as [|tr s l s2 a Hr [IHv IHs] Hm]; [split; [done | by left]|].
  pose proof (inv_run _ _ Hr) as Hi. pose proof (micro_does _ _ _ Hi Hm) as Hd.
  assert (Hv : state s <> NotAuthenticated -> verdictIn (tr ++ [(l, a)])) by (intros Hn; exact (in_snoc _ _ _ (IHv Hn))).
  assert (Ht : secure s = true -> initiallySecure cfg = true \/ tlsIn (tr ++ [(l, a)])) by (intros Hn; destruct (IHs Hn); [by left | right; by apply in_snoc]).
  remember (s2, a) as r. replace s2 with r.1 by (by subst r).
  destruct Hd as [l r Hf Hq|l q n r Hw [H1 _ H2 _ _ _ _ _]|res x r Hp Hx Ha|ok t r Hp (Hs & _) Hst|keys sasl r Hp (Hs & _) Hst|keys t sess sess' r Hp -> Hu Hq|].
  - injection Hf as -> -> _ _ _. done.
  - rewrite H1, H2. done.
  - destruct Ha as [Hs Hst _ _ _]. injection Hs as -> _ _ _. split; [intros _|done]. apply Hv. pose proof (i_pending _ _ Hi) as Hpd. rewrite Hp in Hpd. by destruct Hpd.
  - injection Hs as -> _ _ _ _. split; [|done]. rewrite Hst. destruct ok; [|done]. intros _. apply in_last.
  - injection Hs as -> _ _ _ _. by rewrite Hst.
  - done.
  - split; [done|]. intros _. right. apply in_last.
Qed.

(** C11: in every run the store is asked only after a positive verdict on credentials, and a request that changes the
    selected mailbox is about the mailbox of a view that is open for writing; credentials and key
    lookups leave the engine only before authentication, and only on a connection that is under TLS or
    where the configuration allows clear text. *)
Theorem imap_requests_gated tr s l s' acts : Run tr s -> micro l s = Some (s', acts) ->
  (forall req, ABackend req ∈ acts -> verdictIn tr /\
     forall n, mutated req = Some n -> exists v, selected s = Some v /\ readWrite v = true /\ v_name v = n) /\
  (forall a, a ∈ acts -> credential a = true -> state s = NotAuthenticated /\ (initiallySecure cfg || allowInsecureAuth cfg = true \/ tlsIn tr)).
Proof.
  intros Hr Hm. pose proof (inv_run _ _ Hr) as Hi. destruct (run_owes _ _ Hr) as [Hv Hs].
  pose proof (does_asks _ _ _ Hi (micro_does _ _ _ Hi Hm)) as Hask. cbn in Hask. split.
  - intros req Hreq. apply issues_elem in Hreq; [|done]. destruct Hask as [Ha|a Ha Hc|req' Ha Hst Hok]; rewrite Ha in Hreq.
    + by apply not_elem_of_nil in Hreq.
    + apply list_elem_of_singleton in Hreq as <-. done.
    + apply list_elem_of_singleton in Hreq as [= <-]. auto.
  - intros a Hreq Hcr. apply issues_elem in Hreq; [|by destruct a]. destruct Hask as [Ha|a' Ha _ Hst Hal|req' Ha]; rewrite Ha in Hreq.
    + by apply not_elem_of_nil in Hreq.
    + split; [done|]. unfold authAllowed in Hal. apply orb_true_iff in Hal as [Hal| ->]; [|left; by rewrite orb_true_r].
      destruct (Hs Hal) as [-> |]; [by left | by right].
    + apply list_elem_of_singleton in Hreq as ->. done.
Qed.

(** ** One request at a time *)

Definition count (p : ImapAction -> bool) (acts : list ImapAction) : nat := length (List.filter p acts).
Definition answers (p : Label -> bool) (tr : Trace) : nat := length (List.filter (p ∘ fst) tr).
Definition isBackendLabel (l : Label) : bool := match l with LBackend _ => true | _ => false end.
Definition isVerdictLabel (l : Label) : bool := match l with LVerdict _ => true | _ => false end.

Definition awaitsStore s : nat := match pending s with Some (PBackend _) => 1 | _ => 0 end.
Definition awaitsVerdict s : nat := match pending s with Some (PAuth _) => 1 | _ => 0 end.

Lemma count_issues p acts : (forall a, p a = true -> issue a = true) -> count p acts = count p (issues acts).
Proof.
  intros Hp. unfold count, issues. induction acts as [|a acts IH]; [done|]. cbn [List.filter]. specialize (Hp a).
  destruct (p a) eqn:E; [rewrite (Hp eq_refl) | destruct (issue a)]; cbn [List.filter length]; rewrite ?E; cbn [length]; congruence.
Qed.

Lemma count_app p a b : count p (a ++ b) = (count p a + count p b)%nat.
Proof. unfold count. by rewrite List.filter_app, length_app. Qed.

Lemma does_counts l s r : Inv cfg s -> Does s l r ->
  (count asksStore r.2 + awaitsStore s = (if isBackendLabel l then 1 else 0) + awaitsStore r.1)%nat /\
  (count asksVerdict r.2 + awaitsVerdict s = (if isVerdictLabel l then 1 else 0) + awaitsVerdict r.1)%nat.
Proof.
  intros Hi Hd. rewrite (count_issues asksStore), (count_issues asksVerdict) by (by intros []). unfold awaitsStore, awaitsVerdict.
  destruct Hd as [l r Hf Hq _ Hl|l q n r Hw [_ _ _ _ _ _ Hiss _] Hl|res x r Hp Hx Ha|ok t r Hp (_ & Hs & Hq & _) Hst|keys sasl r Hp (_ & Hs & Hq & _) Hst|keys t sess sess' r Hp -> Hu Hq|].
  - injection Hf as _ _ _ -> _. rewrite Hq. by destruct l.
  - assert (isBackendLabel l = false /\ isVerdictLabel l = false) as [-> ->] by (by destruct l). unfold waiting in Hw.
    destruct Hiss as [Hq Hp|? Hq _ Hp|? Hq Hp|? ? ? ? Hq _ Hp|? ? ? Hq _ Hp|? ? ? Hq Hp|? ? ? Hq Hp|? ? Hq Hp]; rewrite Hq, Hp; cbn;
      destruct (pending s) as [[| | |]|]; done.
  - rewrite Hp. destruct Ha as [_ _ _ _ [Hq Hn|req y Hq Hn]]; by rewrite Hq, Hn.
  - by rewrite Hp, Hs, Hq.
  - by rewrite Hp, Hs, Hq.
  - by rewrite Hp, Hq.
  - cbn. by destruct (pending s) as [[| | |]|].
Qed.

Lemma run_counts tr s : Run tr s ->
  count asksStore (said tr) = (answers isBackendLabel tr + awaitsStore s)%nat /\ count asksVerdict (said tr) = (answers isVerdictLabel tr + awaitsVerdict s)%nat.
Proof.
  intros Hr. induction Hr as [|tr s l s2 a Hr [IH1 IH2] Hm]; [done|]. pose proof (inv_run _ _ Hr) as Hi.
  destruct (does_counts l s (s2, a) Hi (micro_does _ _ _ Hi Hm)) as [H1 H2]. cbn [fst snd] in *.
  assert (Hans : forall p, answers p (tr ++ [(l, a)]) = (answers p tr + (if p l then 1 else 0))%nat).
  { intros p. unfold answers. rewrite List.filter_app, length_app. cbn. by destruct (p l). }
  assert (Hsaid : said (tr ++ [(l, a)]) = said tr ++ a) by (rewrite said_app; cbn; by rewrite app_nil_r).
  rewrite Hsaid, !count_app, !Hans, IH1, IH2. lia.
Qed.

(** C17: in every run there is at most one request to the store and at most one verdict under way: the requests are
    those that were answered and the one that is pending; so an answer never throws when the listener
    gives each request one answer, and it does throw otherwise. *)
Theorem imap_one_request tr s : Run tr s ->
  let store := (count asksStore (said tr) - answers isBackendLabel tr)%nat in
  let verdict := (count asksVerdict (said tr) - answers isVerdictLabel tr)%nat in
  (store + verdict <= 1)%nat /\
  (forall res, is_Some (call (CBackend res) s) <-> store = 1%nat) /\ (forall ok, is_Some (call (CVerdict ok) s) <-> verdict = 1%nat).
Proof.
  intros Hr. destruct (run_counts tr s Hr) as [-> ->]. cbv zeta. rewrite !Nat.add_sub_swap, !Nat.sub_diag by lia. cbn [Nat.add].
  unfold awaitsStore, awaitsVerdict. cbn [call]. unfold backendResult, authResult.
  destruct (pending s) as [[| | |]|]; split_and!; try lia; intros; split; intros Hx; try done; try (by destruct Hx); by eexists.
Qed.

(** ** The queue *)

Definition queueBytes (q : list (list LinePart)) : Z := foldr (fun parts n => lineBytes parts + n) 0 q.

Definition queueOk s : Prop := queuedBytes s = queueBytes (queued s) /\ queuedBytes s <= MAX_QUEUED_LINE_BYTES.

Lemma lineBytes_nonneg parts : 0 <= lineBytes parts.
Proof.
  unfold lineBytes. assert (Hgo : forall l n, 0 <= n -> 0 <= fold_left (fun n p => n + match p with PText t => len t | PLiteral d => len d end) l n); [|by apply Hgo].
  induction l as [|p l IH]; intros n Hn; [done|]. cbn. apply IH. destruct p; unfold len; lia.
Qed.

Lemma queueBytes_snoc q parts : queueBytes (q ++ [parts]) = queueBytes q + lineBytes parts.
Proof. induction q as [|x q IH]; cbn; [lia|]. unfold queueBytes in *. rewrite IH. lia. Qed.

Lemma queueOk_cmd s r : queueOk s -> Cmd cfg s r -> queueOk r.1.
Proof. intros Hq [_ [Hs|Hs] _ _ _ _ _ _]; injection Hs as H1 H2; unfold queueOk in *; rewrite H1, H2; [done|]. by split. Qed.

Lemma queueOk_same s s' : (queued s', queuedBytes s') = (queued s, queuedBytes s) -> queueOk s -> queueOk s'.
Proof. intros [= H1 H2]. unfold queueOk. by rewrite H1, H2. Qed.

Lemma queueOk_pop s parts q : queued s = parts :: q -> queueOk s -> queueOk (s <| queued := q |> <| queuedBytes ::= fun n => n - lineBytes parts |>).
Proof. intros Hq [H1 H2]. rewrite Hq in H1. pose proof (lineBytes_nonneg parts). unfold queueOk. cbn in *. unfold queueBytes in *. lia. Qed.

Lemma queueOk_queue parts s : queueOk s -> queueOk (queueLine parts s).1.
Proof.
  intros [H1 H2]. unfold queueLine. set (s1 := s <| queued ::= _ |> <| queuedBytes ::= _ |>). destruct (Z.ltb_spec MAX_QUEUED_LINE_BYTES (queuedBytes s1)) as [|Hle]; [by split|].
  split; [|done]. cbn. rewrite queueBytes_snoc. lia.
Qed.

Lemma does_queue l s r : Does s l r -> match l with LBackend _ | LKeys _ | LVerdict _ => True | _ => False end ->
  (queued r.1, queuedBytes r.1) = (queued s, queuedBytes s).
Proof.
  intros Hd Hl. destruct Hd as [l r _ _ _ Hk|l q n r _ _ Hk|res x r _ _ [Hf _ _ _ _]|ok t r _ (Hs & _)|keys sasl r _ (Hs & _)|keys t sess sess' r _ ->|]; try done;
    [by destruct l | by destruct l | ..]; [injection Hf as _ -> -> _ | injection Hs as _ -> -> _ _ | injection Hs as _ -> -> _ _]; done.
Qed.

Lemma queueOk_micro l s s' a : Inv cfg s -> queueOk s -> micro l s = Some (s', a) -> queueOk s'.
Proof.
  intros Hi Hq Hm. pose proof (micro_does _ _ _ Hi Hm) as Hd. destruct l; cbn [micro] in Hm.
  - destruct (_ || _); [done|]. injection Hm as <- <-. by apply (queueOk_same s).
  - destruct (closed s); [done|]. injection Hm as Hm. unfold handleReaderEvent in Hm. destruct ev; try (injection Hm as <- <-; done).
    destruct (waiting s) eqn:Hw; [pose proof (queueOk_queue parts s Hq) as Hx | pose proof (queueOk_cmd s _ Hq (cmd_handleLine cfg parts s Hi Hw)) as Hx]; by rewrite Hm in Hx.
  - destruct (draining s) eqn:Hdr; [|done]. injection Hm as Hm. unfold draining in Hdr. unfold drainBody in Hm. destruct (queued s) as [|parts q] eqn:Eq; [done|].
    destruct (pending s) eqn:Ep; [done|]. change s' with (s', a).1. rewrite <- Hm. eapply queueOk_cmd; [by apply queueOk_pop|].
    apply cmd_handleLine; [by apply inv_queue | unfold waiting; cbn; by rewrite Ep].
  - destruct (queued s) eqn:Eq; [|done]. injection Hm as <- <-. split; [cbn; by rewrite Eq | done].
  - exact (queueOk_same s _ (does_queue _ _ _ Hd I) Hq).
  - exact (queueOk_same s _ (does_queue _ _ _ Hd I) Hq).
  - exact (queueOk_same s _ (does_queue _ _ _ Hd I) Hq).
  - by injection Hm as <- <-.
  - injection Hm as Hm. change s' with (s', a).1. rewrite <- Hm. apply (queueOk_same s); [|done]. unfold idleTick, refreshSelected.
    destruct (idleTag s), (pending s), (decide (state s = SelectedState)), (closed s), (selected s); done.
Qed.

(** Whatever the client pipelines while a request or a verdict is under way, the lines that wait never hold more
    than [MAX_QUEUED_LINE_BYTES], and the counter of the engine is exactly their size. *)
Theorem imap_queue_bounded tr s : Run tr s -> queuedBytes s = queueBytes (queued s) /\ queuedBytes s <= MAX_QUEUED_LINE_BYTES.
Proof.
  intros Hr. change (queueOk s). induction Hr as [|tr s l s2 a Hr IH Hm]; [by split|]. eapply queueOk_micro; [by eapply inv_run | done | done].
Qed.
End Run.
