(* ===== verification/ImapNumbers.v ===== *)
(** * Message sequence numbers (packages/proto-imap/src/engine.ts)

    A client counts the messages of the mailbox it has opened, and names them by their place.  What it
    knows of additions and removals are the EXISTS, EXPUNGE and VANISHED lines; the engine has to send
    them so that after each line both count the same messages. *)

From S2P Require Import Prelude JsString JsNumber Limits Loop Text Sasl Scram MimeEncoding SequenceSet ListMatch ImapReader ImapParser ImapFetch ImapSearch ImapCommands ImapSession ImapSessionSpec MimeBody.

(** ** Ascending lists *)

Abbreviation Ascending := (StronglySorted Z.lt).

Lemma sorted_sublist {A} (R : A -> A -> Prop) l k : sublist l k -> StronglySorted R k -> StronglySorted R l.
Proof.
  induction 1 as [|x l k Hs IH|x l k Hs IH]; intros Hk; [done | | by inversion Hk; auto].
  inversion Hk as [|? ? Hk' Hf]; subst. constructor; [auto|]. rewrite Forall_forall in *. intros y Hy. apply Hf. by eapply elem_of_submseteq, sublist_submseteq.
Qed.

Lemma asc_nodup l : Ascending l -> NoDup l.
Proof.
  induction 1 as [|x l Hs IH Hf]; constructor; [|done]. intros Hx. rewrite Forall_forall in Hf. specialize (Hf x Hx). lia.
Qed.

Lemma sorted_lt {A} (key : A -> Z) l : StronglySorted (key_le key) l -> NoDup (map key l) -> Ascending (map key l).
Proof.
  induction 1 as [|x l Hs IH Hf]; intros Hn; [constructor|]. inversion Hn as [|? ? Hx Hn']; subst. constructor; [by apply IH|].
  rewrite Forall_forall in Hf. apply Forall_forall. intros y Hy. apply list_elem_of_fmap in Hy as (z & -> & Hz). specialize (Hf z Hz). unfold key_le in Hf.
  assert (key x <> key z); [|lia]. intros E. apply Hx. rewrite E. by apply list_elem_of_fmap_2.
Qed.

Lemma sorted_le l : Ascending l -> StronglySorted (key_le id) l.
Proof. induction 1 as [|x l Hs IH Hf]; constructor; [done|]. eapply Forall_impl; [done|]. unfold key_le, id. lia. Qed.

Lemma sorted_app {A} (R : A -> A -> Prop) l k : StronglySorted R l -> StronglySorted R k -> (forall x y, x ∈ l -> y ∈ k -> R x y) -> StronglySorted R (l ++ k).
Proof.
  intros Hl Hk. induction Hl as [|x l Hl IH Hf]; intros Hlk; [done|]. cbn. constructor; [apply IH; intros; apply Hlk; [by right | done]|].
  apply Forall_app. split; [done|]. apply Forall_forall. intros y Hy. apply Hlk; [left | done].
Qed.

(** Numbers above those of an ascending list go behind it. *)
Lemma sort_behind l added : Ascending l -> (forall x y, x ∈ l -> y ∈ added -> x < y) -> sortBy id (l ++ added) = l ++ sortBy id added.
Proof.
  intros Hl Hlt. apply (StronglySorted_unique_strong (key_le id)).
  - unfold key_le, id. lia.
  - apply sortBy_sorted.
  - apply sorted_app; [by apply sorted_le | apply sortBy_sorted |]. intros x y Hx Hy. rewrite elem_of_sortBy in Hy. specialize (Hlt x y Hx Hy). unfold key_le, id. lia.
  - by rewrite !sortBy_perm.
Qed.

Lemma sort_ascending l : NoDup l -> Ascending (sortBy id l).
Proof. intros Hn. rewrite <- (map_id (sortBy id l)). apply (sorted_lt id); [apply sortBy_sorted|]. rewrite map_id. by rewrite sortBy_perm. Qed.

(** ** What a client counts *)

(** A client has the messages it knows, in the order of their numbers; and there are those that the mailbox
    has gained and that it has not heard of.  EXISTS announces the next ones of these, EXPUNGE takes
    away the message of a number, VANISHED the messages of a set of uids.  A line that cannot be followed gives [None]. *)
Definition hear (e : ClientEvent) (c : list Z * list Z) : option (list Z * list Z) :=
  let '(known, coming) := c in
  match e with
  | CExists n =>
      let k := n - len known in
      if (0 <=? k) && (k <=? len coming) then Some (known ++ take (Z.to_nat k) coming, drop (Z.to_nat k) coming) else None
  | CExpunge n => if (1 <=? n) && (n <=? len known) then Some (delete (Z.to_nat (n - 1)) known, coming) else None
  | CVanished ranges => Some (List.filter (fun u => negb (matchSequenceSet ranges u 0)) known, coming)
  end.

Fixpoint hearAll (evs : list ClientEvent) (c : list Z * list Z) : option (list Z * list Z) :=
  match evs with [] => Some c | e :: r => c ← hear e c; hearAll r c end.

(** From [l] to [l'], by the lines, the messages [new] being announced. *)
Definition Sees (l : list Z) (evs : list ClientEvent) (new l' : list Z) : Prop := forall rest, hearAll evs (l, new ++ rest) = Some (l', rest).

Lemma hearAll_app a b c : hearAll (a ++ b) c = hearAll a c ≫= hearAll b.
Proof. revert c. induction a as [|e a IH]; intros c; [done|]. cbn. destruct (hear e c); [apply IH | done]. Qed.

Lemma sees_nil l : Sees l [] [] l.
Proof. done. Qed.

Lemma sees_app l evs new l1 evs2 new2 l2 : Sees l evs new l1 -> Sees l1 evs2 new2 l2 -> Sees l (evs ++ evs2) (new ++ new2) l2.
Proof. intros H1 H2 rest. rewrite hearAll_app, <- (assoc_L (++)), H1. apply H2. Qed.

Lemma sees_exists l new : Sees l [CExists (len (l ++ new))] new (l ++ new).
Proof.
  intros rest. cbn [hearAll hear]. replace (len (l ++ new) - len l) with (len new) by (rewrite len_app; lia).
  replace ((0 <=? len new) && (len new <=? len (new ++ rest))) with true.
  - cbn [mbind option_bind]. unfold len. rewrite Nat2Z.id, take_app_length, drop_app_length. done.
  - symmetry. apply andb_true_iff. rewrite len_app. unfold len. split; apply Z.leb_le; lia.
Qed.

Lemma sees_expunge l n : 1 <= n <= len l -> Sees l [CExpunge n] [] (delete (Z.to_nat (n - 1)) l).
Proof. intros Hn rest. cbn. rewrite (proj2 (Z.leb_le 1 n)), (proj2 (Z.leb_le n (len l))) by lia. done. Qed.

Definition reads (acts : list ImapAction) : list ClientEvent := omap (fun a => match a with AReply t => clientRead t | _ => None end) acts.

Lemma reads_app a b : reads (a ++ b) = reads a ++ reads b.
Proof. apply omap_app. Qed.

Lemma reads_neutral acts : Forall neutral acts -> reads acts = [].
Proof. induction 1 as [|a acts Ha Hf IH]; [done|]. cbn. destruct a; cbn in Ha; rewrite ?Ha; exact IH. Qed.

(** ** Removal *)

Lemma uidIndex_lookup u l i : uidIndex u l = Some i -> l !! i = Some u.
Proof.
  revert i. induction l as [|x l IH]; intros i; cbn [uidIndex]; [done|]. destruct (Z.eqb_spec x u) as [->|]; [by intros [= <-]|].
  destruct (uidIndex u l) as [j|] eqn:E; [|done]. intros [= <-]. cbn. auto.
Qed.

Lemma uidIndex_some u l : u ∈ l -> is_Some (uidIndex u l).
Proof.
  induction l as [|x l IH]; [by intros ?%not_elem_of_nil|]. intros Hu. cbn [uidIndex]. destruct (Z.eqb_spec x u); [by eexists|].
  destruct IH as [i ->]; [by apply elem_of_cons in Hu as [->|]|]. by eexists.
Qed.

(** Deleting from the highest index down. *)
Lemma sees_deletes idxs : forall l, StronglySorted (fun i j => (j < i)%nat) idxs -> Forall (fun i => (i < length l)%nat) idxs ->
  Sees l (map (fun i => CExpunge (Z.of_nat i + 1)) idxs) [] (fold_left (fun l i => delete i l) idxs l).
Proof.
  induction idxs as [|i idxs IH]; intros l Hs Hf; [apply sees_nil|]. inversion Hs as [|? ? Hs' Hlt]; subst. apply Forall_cons in Hf as [Hi Hf]. cbn.
  apply (sees_app _ [_] [] (delete i l) _ []); [|apply IH; [done|]].
  { pose proof (sees_expunge l (Z.of_nat i + 1) ltac:(unfold len; lia)) as He. by replace (Z.to_nat (Z.of_nat i + 1 - 1)) with i in He by lia. }
  destruct (lookup_lt_is_Some_2 l i Hi) as [x Hx]. pose proof (length_delete l i ltac:(by eexists)) as Hlen. rewrite Hlen. eapply Forall_impl; [exact Hlt|]. cbn. lia.
Qed.

Lemma fold_delete_sublist idxs : forall l : list Z, sublist (fold_left (fun l i => delete i l) idxs l) l.
Proof. induction idxs as [|i idxs IH]; intros l; [done|]. cbn. etransitivity; [apply IH | apply sublist_delete]. Qed.

#[local] Instance opp_inj : Inj (=) (=) Z.opp := Z.opp_inj.

Lemma removalIndices_sorted us l : NoDup us -> StronglySorted (fun i j => (j < i)%nat) (removalIndices us l).
Proof.
  intros Hn. unfold removalIndices. set (idx := omap _ us).
  assert (Hd : NoDup idx).
  { unfold idx. clear -Hn. induction Hn as [|u us Hu Hn IH]; [constructor|]. cbn. destruct (uidIndex u l) as [i|] eqn:E; [|done]. constructor; [|done].
    intros (w & Hw & Ew)%list_elem_of_omap. apply uidIndex_lookup in E, Ew. assert (u = w) as -> by congruence. done. }
  assert (Ha : Ascending (map Z.opp (sortBy Z.opp (map Z.of_nat idx)))).
  { apply (sorted_lt Z.opp); [apply sortBy_sorted|]. apply (NoDup_fmap_2 Z.opp). rewrite sortBy_perm. by apply (NoDup_fmap_2 Z.of_nat). }
  assert (Hp : Forall (Z.le 0) (sortBy Z.opp (map Z.of_nat idx))).
  { rewrite sortBy_perm. apply Forall_forall. intros z Hz. apply list_elem_of_fmap in Hz as (k & -> & _). lia. }
  change (fun i => - i) with Z.opp. induction (sortBy Z.opp _) as [|z r IH]; [constructor|]. cbn in *. inversion Ha as [|? ? Ha' Hf]; subst. apply Forall_cons in Hp as [Hz Hp].
  constructor; [auto|]. apply Forall_forall. intros k Hk. apply list_elem_of_fmap in Hk as (y & -> & Hy). rewrite Forall_forall in Hf, Hp.
  specialize (Hf (- y) ltac:(by apply list_elem_of_fmap_2)). specialize (Hp y Hy). lia.
Qed.

Lemma removalIndices_bound us l : Forall (fun i => (i < length l)%nat) (removalIndices us l).
Proof.
  apply Forall_forall. intros i Hi. unfold removalIndices in Hi. apply list_elem_of_fmap in Hi as (z & -> & Hz). rewrite elem_of_sortBy in Hz.
  apply list_elem_of_fmap in Hz as (k & -> & Hk). apply list_elem_of_omap in Hk as (u & _ & Hu). rewrite Nat2Z.id. by eapply lookup_lt_Some, uidIndex_lookup.
Qed.

Lemma spliceUid_filter u l : NoDup l -> u ∈ l -> spliceUid l u = List.filter (fun x => negb (x =? u)) l.
Proof.
  intros Hn Hu. unfold spliceUid. destruct (uidIndex_some u l Hu) as [i Hi]. rewrite Hi. revert i Hi. induction Hn as [|x l Hx Hn IH]; intros i Hi; [done|].
  cbn [uidIndex] in Hi. cbn [List.filter]. destruct (Z.eqb_spec x u) as [->|Hne]; cbn [negb].
  - injection Hi as <-. cbn. symmetry. apply forallb_filter_id, forallb_forall. intros y Hy%list_elem_of_In. destruct (Z.eqb_spec y u) as [->|]; done.
  - destruct (uidIndex u l) as [j|] eqn:E; [|done]. injection Hi as <-. cbn. f_equal. apply IH; [|done]. apply elem_of_cons in Hu as [->|]; [done | done].
Qed.

Lemma filter_filter {A} (f g : A -> bool) l : List.filter f (List.filter g l) = List.filter (fun x => g x && f x) l.
Proof. induction l as [|x l IH]; [done|]. cbn. destruct (g x); cbn; [destruct (f x)|]; by rewrite IH. Qed.

Lemma filter_sublist {A} (f : A -> bool) l : sublist (List.filter f l) l.
Proof. induction l as [|x l IH]; [done|]. cbn. destruct (f x); by constructor. Qed.

Lemma fold_splice present : forall l, NoDup l -> NoDup present -> (forall u, u ∈ present -> u ∈ l) ->
  fold_left spliceUid present l = List.filter (fun x => negb (bool_decide (x ∈ present))) l.
Proof.
  induction present as [|u present IH]; intros l Hl Hp Hin; [symmetry; by apply forallb_filter_id, forallb_forall|].
  inversion Hp as [|? ? Hu Hp']; subst. cbn [fold_left]. rewrite spliceUid_filter by (try done; apply Hin; left). rewrite IH.
  - rewrite filter_filter. apply List.filter_ext. intros x. destruct (Z.eqb_spec x u) as [->|]; cbn [negb andb]; [rewrite bool_decide_eq_true_2 by left; done|].
    f_equal. apply bool_decide_ext. rewrite elem_of_cons. naive_solver.
  - eapply sublist_NoDup; [|apply filter_sublist]; done.
  - done.
  - intros w Hw. apply list_elem_of_In, filter_In. split; [apply list_elem_of_In, Hin; by right|]. destruct (Z.eqb_spec w u) as [->|]; done.
Qed.

Lemma uidIndex_nodup l i u : NoDup l -> l !! i = Some u -> uidIndex u l = Some i.
Proof.
  intros Hn Hi. destruct (uidIndex_some u l) as [j Hj]; [by eapply list_elem_of_lookup_2|]. rewrite Hj. f_equal.
  by eapply NoDup_lookup; [|apply uidIndex_lookup|].
Qed.

Lemma delete_filter l i u : NoDup l -> l !! i = Some u -> delete i l = List.filter (fun x => negb (x =? u)) l.
Proof.
  intros Hn Hi. rewrite <- spliceUid_filter by (try done; by eapply list_elem_of_lookup_2). unfold spliceUid. by rewrite (uidIndex_nodup l i u).
Qed.

Lemma fold_deletes idxs : forall l us : list Z, NoDup l -> StronglySorted (fun i j => (j < i)%nat) idxs -> Forall2 (fun i u => l !! i = Some u) idxs us ->
  fold_left (fun l i => delete i l) idxs l = List.filter (fun x => negb (bool_decide (x ∈ us))) l.
Proof.
  induction idxs as [|i idxs IH]; intros l us Hn Hs Hf; inversion Hf as [|? u ? us' Hi Hf']; subst; [symmetry; by apply forallb_filter_id, forallb_forall|].
  inversion Hs as [|? ? Hs' Hlt]; subst. cbn [fold_left]. rewrite (IH _ us'); [| | done |].
  - rewrite (delete_filter l i u Hn Hi), filter_filter. apply List.filter_ext. intros x. destruct (Z.eqb_spec x u) as [->|]; cbn [negb andb].
    + rewrite bool_decide_eq_true_2 by left. done.
    + f_equal. apply bool_decide_ext. rewrite elem_of_cons. naive_solver.
  - eapply sublist_NoDup; [|apply sublist_delete]; done.
  - clear -Hf' Hlt. induction Hf' as [|j w idxs us Hj Hf IH]; [constructor|]. apply Forall_cons in Hlt as [Hji Hlt]. constructor; [by rewrite list_lookup_delete_lt | auto].
Qed.

Lemma expunge_uids us l : NoDup l -> NoDup us ->
  fold_left (fun l i => delete i l) (removalIndices us l) l = List.filter (fun x => negb (bool_decide (x ∈ us))) l.
Proof.
  intros Hl Hn. set (idxs := removalIndices us l). pose (at_ i := default 0 (l !! i)).
  rewrite (fold_deletes idxs l (map at_ idxs) Hl (removalIndices_sorted us l Hn)).
  - apply List.filter_ext_in. intros x Hx%list_elem_of_In. f_equal. apply bool_decide_ext. rewrite list_elem_of_fmap. unfold idxs, removalIndices. split.
    + intros (i & -> & Hi). apply list_elem_of_fmap in Hi as (z & -> & Hz). rewrite elem_of_sortBy in Hz. apply list_elem_of_fmap in Hz as (k & -> & Hk).
      apply list_elem_of_omap in Hk as (u & Hu & Hk). rewrite Nat2Z.id. unfold at_. by rewrite (uidIndex_lookup _ _ _ Hk).
    + intros Hu. destruct (uidIndex_some x l Hx) as [i Hi]. exists i. split; [unfold at_; by rewrite (uidIndex_lookup _ _ _ Hi)|].
      apply list_elem_of_fmap. exists (Z.of_nat i). split; [by rewrite Nat2Z.id|]. rewrite elem_of_sortBy. apply list_elem_of_fmap_2, list_elem_of_omap. by exists x.
  - pose proof (removalIndices_bound us l) as Hb. fold idxs in Hb. clearbody idxs. induction Hb as [|i idxs Hi Hb IH]; [constructor|]. constructor; [|done].
    unfold at_. by destruct (lookup_lt_is_Some_2 l i Hi) as [x ->].
Qed.

(** ** The view and the client *)

Section Numbers.
Context {SS : ScramServer} `{TextDecoders} `{NodeCrypto} (cfg : ImapConfig).
Implicit Types s : Imap.

Definition uidsOk (l : list Z) : Prop := Ascending l /\ Forall safe l.

(** What a handler does to the view is what its lines say. *)
Definition Seen (new l : list Z) (acts : list ImapAction) (l' : list Z) : Prop := Sees l (reads acts) new l' /\ (uidsOk l -> uidsOk l').

Lemma uidsOk_sublist l k : sublist l k -> uidsOk k -> uidsOk l.
Proof.
  intros Hs [Ha Hf]. split; [by eapply sorted_sublist|]. rewrite Forall_forall in *. intros x Hx. apply Hf. by eapply elem_of_submseteq, sublist_submseteq.
Qed.

Lemma seen_neutral l acts : Forall neutral acts -> Seen [] l acts l.
Proof. intros Hn. split; [|done]. rewrite reads_neutral by done. apply sees_nil. Qed.

Lemma seen_app n1 n2 l a l1 b l2 : Seen n1 l a l1 -> Seen n2 l1 b l2 -> Seen (n1 ++ n2) l (a ++ b) l2.
Proof. intros [H1 H2] [H3 H4]. split; [|auto]. rewrite reads_app. by eapply sees_app. Qed.

Lemma read_expunge i : clientRead (js "* " ++ numToString (Z.of_nat i + 1) ++ js " EXPUNGE") = Some (CExpunge (Z.of_nat i + 1)).
Proof. rewrite read_count; [done | lia | done]. Qed.

Lemma read_exists n : 0 <= n -> clientRead (js "* " ++ numToString n ++ js " EXISTS") = Some (CExists n).
Proof. intros Hn. by rewrite read_count. Qed.

Lemma seen_expunge us v : NoDup us -> Seen [] (uids v) (expungeFrom us v).2 (uids (expungeFrom us v).1).
Proof.
  intros Hn. unfold expungeFrom. cbn [fst snd]. split.
  - assert (Hr : forall idxs, reads (map expungeLine idxs) = map (fun i => CExpunge (Z.of_nat i + 1)) idxs).
    { induction idxs as [|i idxs IH]; [done|]. unfold reads in *. cbn [map omap list_omap]. unfold expungeLine at 1. by rewrite read_expunge, IH. }
    rewrite Hr. apply sees_deletes; [by apply removalIndices_sorted | apply removalIndices_bound].
  - apply uidsOk_sublist, fold_delete_sublist.
Qed.

Lemma seen_vanish us v : NoDup us -> uidsOk (uids v) -> Seen [] (uids v) (vanishFrom us v).2 (uids (vanishFrom us v).1).
Proof.
  intros Hn [Ha Hf]. unfold vanishFrom. cbn [fst snd]. set (present := List.filter _ us).
  assert (Hin : forall u, u ∈ present -> u ∈ uids v).
  { intros u Hu. apply list_elem_of_In, filter_In in Hu as [_ Hu]. by apply bool_decide_eq_true_1 in Hu. }
  assert (Hp : NoDup present) by (eapply sublist_NoDup; [|apply filter_sublist]; done).
  assert (Hl : uids (v <| uids ::= fun l => fold_left spliceUid present l |>) = List.filter (fun x => negb (bool_decide (x ∈ present))) (uids v))
    by (apply fold_splice; [by apply asc_nodup | done | done]).
  rewrite Hl. split; [|apply uidsOk_sublist, filter_sublist].
  destruct present as [|u r] eqn:Ep; [rewrite forallb_filter_id; [apply sees_nil | by apply forallb_forall]|].
  destruct (formatUidSet_roundtrip present) as (ranges & Hr & Hm); [by rewrite Ep | apply Forall_forall; intros x Hx; rewrite Forall_forall in Hf; apply Hf, Hin; by rewrite <- Ep |].
  rewrite Ep in Hr, Hm. unfold reads. cbn [omap list_omap]. unfold vanishedLine.
  change (clientRead (js "* VANISHED " ++ ?x)) with (CVanished <$> parseSequenceSet x). rewrite Hr. intros rest. cbn.
  do 2 f_equal. apply List.filter_ext. intros x. f_equal. specialize (Hm x 0).
  destruct (matchSequenceSet ranges x 0); [symmetry; apply bool_decide_eq_true_2; tauto | symmetry; apply bool_decide_eq_false_2; intros Hx; by apply Hm in Hx].
Qed.

(** *** Additions *)

(** The uids of an answer: new ones are above those of the view. *)
Definition fresh (l us : list Z) : Prop := NoDup us /\ Forall safe us /\ forall u w, u ∈ us -> u ∉ l -> w ∈ l -> w < u.

Lemma seen_add added v : NoDup added -> Forall safe added -> uidsOk (uids v) -> (forall u w, u ∈ added -> w ∈ uids v -> w < u) ->
  Seen (sortBy id added) (uids v) (addUids added v).2 (uids (addUids added v).1) /\ uids (addUids added v).1 = uids v ++ sortBy id added.
Proof.
  intros Hn Hs [Ha Hf] Hlt. unfold addUids. destruct added as [|u r] eqn:Ead; [split; [split; [apply sees_nil | done] | by rewrite app_nil_r]|]. rewrite <- Ead in *. cbn [fst snd].
  set (v' := v <| uids ::= _ |> <| v_uidnext ::= _ |>).
  assert (Hu : uids v' = uids v ++ sortBy id added) by (apply sort_behind; [done | intros x y Hx Hy; by apply Hlt]).
  split; [|done]. rewrite Hu. split.
  - unfold reads, existsLine. cbn [omap list_omap]. rewrite read_exists by (unfold len; lia). rewrite Hu. apply sees_exists.
  - intros _. split.
    + apply sorted_app; [done | by apply sort_ascending |]. intros x y Hx Hy. rewrite elem_of_sortBy in Hy. by apply Hlt.
    + apply Forall_app. split; [done|]. by rewrite sortBy_perm.
Qed.

Lemma pushNew_spec us l : NoDup us -> pushNew us l = List.filter (fun u => negb (bool_decide (u ∈ l))) us.
Proof.
  intros Hn. unfold pushNew.
  assert (Hgo : forall us new, NoDup us -> (forall u, u ∈ us -> u ∉ new) ->
    fold_left (fun new u => if bool_decide (u ∈ l ++ new) then new else new ++ [u]) us new = new ++ List.filter (fun u => negb (bool_decide (u ∈ l))) us).
  { clear us Hn. induction us as [|u us IH]; intros new Hn Hx; [by rewrite app_nil_r|]. inversion Hn as [|? ? Hu Hn']; subst. cbn.
    assert (Hb : bool_decide (u ∈ l ++ new) = bool_decide (u ∈ l)).
    { apply bool_decide_ext. rewrite elem_of_app. specialize (Hx u ltac:(left)). tauto. }
    rewrite Hb. destruct (bool_decide (u ∈ l)); cbn.
    - apply IH; [done|]. intros w Hw. apply Hx. by right.
    - rewrite IH; [by rewrite <- (assoc_L (++)) | done |]. intros w Hw. rewrite elem_of_app, list_elem_of_singleton. intros [Hw'| ->]; [|done].
      by apply (Hx w); [right|]. }
  apply (Hgo us []); [done|]. intros u _. apply not_elem_of_nil.
Qed.

(** The messages of an answer that the view has not. *)
Definition unseen (l us : list Z) : list Z := sortBy id (List.filter (fun u => negb (bool_decide (u ∈ l))) us).

Lemma elem_of_unseen u l us : u ∈ unseen l us <-> u ∈ us /\ u ∉ l.
Proof. unfold unseen. rewrite elem_of_sortBy, list_elem_of_In, filter_In, <- list_elem_of_In, negb_true_iff, bool_decide_eq_false. done. Qed.

Lemma seen_fresh us v : fresh (uids v) us -> uidsOk (uids v) -> let r := addUids (List.filter (fun u => negb (bool_decide (u ∈ uids v))) us) v in
  Seen (unseen (uids v) us) (uids v) r.2 (uids r.1) /\ uids r.1 = uids v ++ unseen (uids v) us.
Proof.
  intros (Hn & Hs & Hlt) Hok. apply seen_add; [by eapply sublist_NoDup; [|apply filter_sublist] | | done |].
  - rewrite Forall_forall in *. intros u Hu. apply Hs. apply list_elem_of_In, filter_In in Hu as [Hu _]. by apply list_elem_of_In.
  - intros u w Hu Hw. apply list_elem_of_In, filter_In in Hu as [Hu Hb]. apply list_elem_of_In in Hu. apply negb_true_iff, bool_decide_eq_false in Hb. by eapply Hlt.
Qed.

(** *** Handlers *)

Definition Shown (new : list Z) s (r : Imap * list ImapAction) : Prop := Seen new (viewUids s) r.2 (viewUids r.1).
Definition Mute s (r : Imap * list ImapAction) : Prop := viewUids r.1 = viewUids s /\ Forall neutral r.2.

Lemma shown_mute s r : Mute s r -> Shown [] s r.
Proof. intros [Hv Hn]. unfold Shown. rewrite Hv. by apply seen_neutral. Qed.

Lemma shown_then n1 n2 h1 h2 s : Shown n1 s (h1 s) -> Shown n2 (h1 s).1 (h2 (h1 s).1) -> Shown (n1 ++ n2) s (andThen h1 h2 s).
Proof. unfold Shown, andThen. destruct (h1 s) as [s1 a]. cbn [fst snd]. destruct (h2 s1) as [s2 b]. apply seen_app. Qed.

Lemma mute_then h1 h2 s : Mute s (h1 s) -> (forall s1, Mute s1 (h2 s1)) -> Mute s (andThen h1 h2 s).
Proof.
  unfold Mute, andThen. intros [H1 H2] Hh. destruct (h1 s) as [s1 a]. cbn [fst snd] in *. specialize (Hh s1). destruct (h2 s1) as [s2 b]. cbn [fst snd] in *. destruct Hh as [H3 H4].
  split; [congruence|]. by apply Forall_app.
Qed.

Lemma mute_acts s acts : Forall neutral acts -> Mute s (s, acts).
Proof. by split. Qed.

Lemma mute_say t s : clientRead t = None -> Mute s (say t s).
Proof. intros Ht. apply mute_acts. by repeat constructor. Qed.

Lemma mute_view f s : (forall v, uids (f v).1 = uids v /\ Forall neutral (f v).2) -> Mute s (onView f s).
Proof.
  intros Hf. unfold onView, Mute, viewUids. destruct (selected s) as [v|] eqn:E; [|cbn; by rewrite E]. specialize (Hf v). destruct (f v). done.
Qed.

Lemma mute_announce flags s : Mute s (ensureFlagsAnnounced flags s).
Proof. apply mute_view. intros v. unfold announce. case_match; (split; [done|]); by repeat constructor. Qed.

Lemma mute_keywords db extra s : Mute s (syncKeywordList db extra s).
Proof. apply mute_view. intros v. cbv beta zeta. destruct (_ || _); (split; [done|]); by repeat constructor. Qed.

Lemma mute_changed b changed : forall s, Mute s (changedLines b changed s).
Proof.
  induction changed as [|c r IH]; intros s; cbn [changedLines]; [by apply mute_acts|]. destruct (_ <? _); [|apply IH].
  apply mute_then; [apply mute_announce|]. intros s1. apply mute_then; [apply mute_say; by apply read_number | done].
Qed.

Lemma mute_store uidMode cs targets updated : forall s, Mute s (storeLines uidMode cs targets updated s).
Proof.
  induction updated as [|u r IH]; intros s; cbn [storeLines]; [by apply mute_acts|]. destruct (seqByUid _ _); [|apply IH].
  apply mute_then; [apply mute_announce|]. intros s1. apply mute_then; [apply mute_say; by apply read_number | done].
Qed.

Lemma mute_batch job ms batch : forall s, Mute s (emitBatch job ms batch s).1.
Proof.
  induction batch as [|t r IH]; intros s; cbn [emitBatch]; [by apply mute_acts|]. destruct (dataOf _ _) as [d|]; [|apply IH].
  destruct (unchanged _ _); [apply IH|]. destruct (mapM _ _) as [parts|]; [|by apply mute_acts].
  assert (Ha : Mute s (if existsb isFlagsItem (fj_items job) then ensureFlagsAnnounced (d_flags d) s else (s, []))) by (case_match; [apply mute_announce | by apply mute_acts]).
  destruct (if existsb _ _ then _ else _) as [s1 a]. destruct Ha as [Hv Hn]. specialize (IH s1). destruct (emitBatch job ms r s1) as [[s2 b] stop].
  destruct IH as [Hv2 Hn2]. cbn [fst snd] in *. split; cbn [fst snd]; [congruence|]. apply Forall_app. split; [done|]. by constructor.
Qed.

Lemma parse_paren x : parseSequenceSet (40 :: x) = None.
Proof.
  unfold parseSequenceSet. replace (len (40 :: x) =? 0) with false by (symmetry; apply Z.eqb_neq; unfold len; cbn; lia). cbn [splitOn].
  change (40 =? 44) with false. cbv iota. assert (Hp : forall h, parsePart (40 :: h) = None).
  { intros h. unfold parsePart. cbn [indexOf]. change (40 =? 58) with false. cbv iota. destruct (indexOf 58 h); done. }
  destruct (splitOn 44 x) as [|h r]; cbn [mapM]; by rewrite Hp.
Qed.

Lemma neutral_earlier us : Forall neutral (earlierLine us).
Proof.
  unfold earlierLine. destruct us as [|u us]; [done|]. repeat constructor. unfold neutral.
  change (CVanished <$> parseSequenceSet (40 :: js "EARLIER) " ++ formatUidSet (u :: us)) = None). by rewrite parse_paren.
Qed.

Lemma shown_removal us s : NoDup us -> uidsOk (viewUids s) ->
  Shown [] s (removalActions us s) /\ viewUids (removalActions us s).1 = List.filter (fun x => negb (bool_decide (x ∈ us))) (viewUids s).
Proof.
  intros Hn Hok. unfold removalActions, onView, Shown, viewUids in *. destruct (selected s) as [v|] eqn:E; [|cbn; rewrite E; split; [by apply seen_neutral | done]].
  destruct (hasEnabled _ s).
  - pose proof (seen_vanish us v Hn Hok) as Hs. unfold vanishFrom in *. cbn [fst snd] in *. cbn. split; [done|].
    rewrite fold_splice; [| by apply asc_nodup, Hok | by eapply sublist_NoDup; [|apply filter_sublist] |].
    + apply List.filter_ext_in. intros x Hx%list_elem_of_In. f_equal. apply bool_decide_ext. rewrite !list_elem_of_In, filter_In, <- !list_elem_of_In.
      rewrite bool_decide_eq_true. tauto.
    + intros u Hu. apply list_elem_of_In, filter_In in Hu as [_ Hu]. by apply bool_decide_eq_true_1 in Hu.
  - pose proof (seen_expunge us v Hn) as Hs. unfold expungeFrom in *. cbn [fst snd] in *. cbn. split; [done|]. apply expunge_uids; [by apply asc_nodup, Hok | done].
Qed.

(** What the theorem relies on: the store numbers messages in ascending order and does not use a number
    twice, so a message that is new to the view is above the messages of the view; nor is a message replaced by itself. *)
Definition answerOk (x : Resume) s (res : ImapBackendResponse) : Prop :=
  match x, res with
  | RSelect _ _ _, Selected _ us _ _ => uidsOk us
  | RRefresh _, Selected _ us _ _ => fresh (List.filter (fun u => bool_decide (u ∈ us)) (viewUids s)) us
  | RAppend _ m, Appended _ u us => forall v, selected s = Some v -> v_name v = m -> fresh (uids v) (default [u] us)
  | RReplace _ _ d, Replaced _ u expunged => forall v, selected s = Some v -> v_name v = d -> fresh (uids v) [u] /\ expunged <> Some u
  | RCopyMove _ _ _, Copied _ src _ => NoDup src
  | RExpunge _ _, Expunged us => NoDup us
  | _, _ => True
  end.

(** What the answers of the store say of the messages of the selected mailbox. *)
Definition told (x : Resume) (res : ImapBackendResponse) s (m : gset Z) : gset Z :=
  let here n := match selected s with Some v => v_name v === n | None => false end in
  match x, res with
  | RSelect _ _ _, Selected _ us _ _ => list_to_set us
  | RRefresh _, Selected _ us _ _ => list_to_set us
  | RAppend _ n, Appended _ u us => if here n then m ∪ list_to_set (default [u] us) else m
  | RReplace _ _ n, Replaced _ u expunged => (if here n then m ∪ {[u]} else m) ∖ (match expunged with Some old => {[old]} | None => ∅ end)
  | RCopyMove _ _ true, Copied _ src _ => m ∖ list_to_set src
  | RExpunge _ _, Expunged us => m ∖ list_to_set us
  | _, _ => m
  end.

(** A handler that announces [new], keeps [keep], and has the view that [m] says. *)
Definition Faithful (f : gset Z -> gset Z) s (r : Imap * list ImapAction) : Prop :=
  exists keep new, Shown new s r /\ viewUids r.1 = keep ++ new /\ sublist keep (viewUids s) /\ (forall u, u ∈ new -> u ∉ viewUids s) /\
    (forall u, u ∈ viewUids r.1 <-> u ∈ f (list_to_set (viewUids s))).

Lemma faithful_mute f s r : Mute s r -> (forall m, f m = m) -> Faithful f s r.
Proof.
  intros Hm Hf. exists (viewUids s), []. pose proof (shown_mute s r Hm) as Hs. destruct Hm as [Hv _]. rewrite Hv, app_nil_r. split_and!; try done; [by intros u ?%not_elem_of_nil|].
  intros u. rewrite Hf, elem_of_list_to_set. done.
Qed.

Lemma view_then h1 h2 s : viewUids (andThen h1 h2 s).1 = viewUids (h2 (h1 s).1).1.
Proof. unfold andThen. destruct (h1 s) as [s1 a]. cbn [fst]. by destruct (h2 s1). Qed.

(** A handler behind it that says nothing of messages. *)
Lemma faithful_then f h1 h2 s : Faithful f s (h1 s) -> (forall s1, Mute s1 (h2 s1)) -> Faithful f s (andThen h1 h2 s).
Proof.
  intros (keep & new & Hs & Hv & Hk & Hn & Hf) Hm. specialize (Hm (h1 s).1). pose proof (shown_then new [] h1 h2 s Hs (shown_mute _ _ Hm)) as Hs2. rewrite app_nil_r in Hs2.
  exists keep, new. rewrite view_then, (proj1 Hm). by split_and!.
Qed.

Definition incoming (m : jsstr) (us : list Z) s : list Z :=
  match selected s with Some v => if v_name v === m then unseen (uids v) us else [] | None => [] end.

Lemma shown_addToView m us s : uidsOk (viewUids s) -> (forall v, selected s = Some v -> v_name v = m -> fresh (uids v) us) ->
  Shown (incoming m us s) s (addToView m us s) /\ viewUids (addToView m us s).1 = viewUids s ++ incoming m us s.
Proof.
  intros Hok Hf. unfold addToView, onView, Shown, viewUids, incoming in *. destruct (selected s) as [v|] eqn:E; [|cbn; rewrite E; split; [by apply seen_neutral | done]].
  destruct (v_name v === m) eqn:En; [|cbn; rewrite app_nil_r; split; [by apply seen_neutral | done]]. apply seqb_eq in En. specialize (Hf v eq_refl En). rewrite pushNew_spec by apply Hf.
  pose proof (seen_fresh us v Hf Hok) as Hs. cbv zeta in Hs. destruct (addUids _ v). done.
Qed.

Lemma incoming_new m us s u : u ∈ incoming m us s -> u ∉ viewUids s.
Proof. unfold incoming, viewUids. repeat case_match; try (by intros ?%not_elem_of_nil). by intros [_ ?]%elem_of_unseen. Qed.

(** Messages that are added to the view are those of the mailbox. *)
Lemma incoming_spec m us s u : u ∈ viewUids s ++ incoming m us s <->
  u ∈ (if match selected s with Some v => v_name v === m | None => false end then list_to_set (viewUids s) ∪ list_to_set us else list_to_set (viewUids s) : gset Z).
Proof.
  unfold incoming, viewUids. destruct (selected s) as [v|]; [|by rewrite app_nil_r, elem_of_list_to_set]. destruct (_ === _); [|by rewrite app_nil_r, elem_of_list_to_set].
  rewrite elem_of_app, elem_of_unseen, elem_of_union, !elem_of_list_to_set. destruct (decide (u ∈ uids v)); tauto.
Qed.

Lemma shown_snapshot m us s : is_Some (selected s) -> uidsOk (viewUids s) -> fresh (viewUids s) us ->
  Shown (unseen (viewUids s) us) s (addSnapshot m us s) /\ viewUids (addSnapshot m us s).1 = viewUids s ++ unseen (viewUids s) us.
Proof.
  intros [v E] Hok Hf. unfold addSnapshot, onView, Shown, viewUids in *. rewrite E in *.
  cbv beta zeta. set (v1 := v <| v_uidnext ::= Z.max (m_uidnext m) |>). pose proof (seen_fresh us v1 Hf Hok) as Hs. cbv zeta in Hs. destruct (addUids _ v1). done.
Qed.

Lemma faithful_removal us s : NoDup us -> uidsOk (viewUids s) -> Faithful (fun m => m ∖ list_to_set us) s (removalActions us s).
Proof.
  intros Hn Hok. destruct (shown_removal us s Hn Hok) as [Hs Hv]. exists (viewUids (removalActions us s).1), []. rewrite app_nil_r. split_and!; try done.
  - rewrite Hv. apply filter_sublist.
  - by intros u ?%not_elem_of_nil.
  - intros u. rewrite Hv, list_elem_of_In, filter_In, <- list_elem_of_In, negb_true_iff, bool_decide_eq_false, elem_of_difference, !elem_of_list_to_set. done.
Qed.

Lemma shown_ok new s r : uidsOk (viewUids s) -> Shown new s r -> uidsOk (viewUids r.1).
Proof. intros Hok [_ Hs]. auto. Qed.

Lemma neutral_unexpected t v res : goodTag t -> Forall neutral [unexpected t v res].
Proof. intros Ht. repeat constructor. destruct res; by apply read_tag. Qed.

Lemma mute_sayIf o s : lineOk o -> Mute s (sayIf o s).
Proof. intros Ho. destruct o as [t|]; [apply mute_say; auto | by apply mute_acts]. Qed.

Lemma mute_fetchFrom job todo s : goodTag (fj_tag job) -> Mute s (fetchFrom job todo s).
Proof. intros Ht. destruct todo; (split; [done|]); repeat constructor. by apply read_tag. Qed.

(** *** Continuations *)

Lemma neutral_flat {A} (f : A -> list ImapAction) l : (forall x, Forall neutral (f x)) -> Forall neutral (flat_map f l).
Proof. intros Hf. induction l as [|x l IH]; [done|]. cbn. apply Forall_app. by split. Qed.

Ltac lines := repeat (apply Forall_cons; split; [first [reflexivity | exact I | by apply read_tag]|]); try apply Forall_nil; try exact I.

Lemma neutral_list job res : goodTag (lj_tag job) -> lj_verb job = js "LIST" \/ lj_verb job = js "LSUB" -> Forall neutral (listResume job res).
Proof.
  intros Ht Hv. unfold listResume. destruct res; try (by apply neutral_unexpected). apply Forall_app. split; [|lines].
  apply neutral_flat. intros m. unfold listMailbox. destruct Hv as [-> | ->]; repeat case_match; lines.
Qed.

Lemma neutral_answers t res : goodTag t -> (forall v, Forall neutral (doneResume t v res)) /\ Forall neutral (aclResume t res) /\ Forall neutral (listRightsResume t res) /\
  Forall neutral (myRightsResume t res) /\ (forall v w, Forall neutral (statusResume t v w res)) /\ (forall v m, Forall neutral (quotaResume t v m res)).
Proof.
  intros Ht. unfold doneResume, aclResume, listRightsResume, myRightsResume, statusResume, quotaResume.
  split_and!; intros; destruct res; try (by apply neutral_unexpected); repeat case_match; lines.
Qed.

Lemma reads_select rev2 w m us fu kw acts : reads acts = [] -> reads (selectLines rev2 w m us fu kw ++ acts) = [CExists (len us)].
Proof.
  intros Ha. rewrite reads_app, Ha, app_nil_r. unfold selectLines. rewrite reads_app. unfold reads at 1. cbn [omap list_omap].
  change (clientRead (flagsLine kw)) with (@None ClientEvent). cbv iota. rewrite read_exists by (unfold len; lia). cbn [app]. f_equal.
  apply reads_neutral. repeat (apply Forall_app; split); repeat case_match; lines.
Qed.

Lemma faithful_select t w q res s : goodTag t -> selected s = None -> match res with Selected _ us _ _ => uidsOk us | _ => True end ->
  Faithful (told (RSelect t w q) res s) s (selectResume t w q res s).
Proof.
  intros Ht Hv Hres. unfold selectResume. destruct res as [|m us fu kw| | | | | | | | | | | |]; try (apply faithful_mute; [apply mute_acts; by apply neutral_unexpected | done]).
  assert (Hgo : forall s' acts, viewUids s' = us -> reads acts = [CExists (len us)] -> Faithful (told (RSelect t w q) (Selected m us fu kw) s) s (s', acts)).
  { intros s' acts Hu Hr. exists [], us. unfold Shown. cbn [fst snd]. rewrite Hu. unfold Seen. rewrite Hr. assert (Hs : viewUids s = []) by (unfold viewUids; by rewrite Hv). rewrite Hs.
    split_and!; [apply (sees_exists [] us) | done | done | done | intros u _; apply not_elem_of_nil |]. intros u. cbn [told]. by rewrite elem_of_list_to_set. }
  cbv zeta. destruct q as [q|]; [destruct (numIs _ _)|]; (apply Hgo; [done|]); apply reads_select; try done; apply reads_neutral; lines.
Qed.

Lemma mute_cmd s r : Cmd cfg s r -> viewUids r.1 = viewUids s -> Mute s r.
Proof. intros Hc Hv. split; [done | apply Hc]. Qed.

Section Resumes.
Context (res : ImapBackendResponse) (s : Imap) (Hok : uidsOk (viewUids s)).

Lemma faithful_unexpected f t v other : goodTag t -> (forall m, f m = m) -> Faithful f s (s, [unexpected t v other]).
Proof. intros Ht Hf. apply faithful_mute; [by apply mute_acts, neutral_unexpected | done]. Qed.

Lemma mute_selectSync l : clientRead l = None -> Mute s (selectSyncResume l res s).
Proof.
  intros Hl. unfold selectSyncResume. destruct res; try (by apply mute_say). apply mute_then; [apply mute_acts, neutral_earlier|].
  intros s1. apply mute_then; [apply mute_changed|]. intros s2. by apply mute_say.
Qed.

Lemma mute_unexpected t v other : goodTag t -> Mute s (s, [unexpected t v other]).
Proof. intros Ht. by apply mute_acts, neutral_unexpected. Qed.

Lemma mute_fetches job : goodTag (fj_tag job) ->
  (forall targets rq mx, Mute s (fetchVanishedResume job targets rq mx res s)) /\ (forall todo, Mute s (fetchResume job todo res s)).
Proof.
  intros Ht. unfold fetchVanishedResume, fetchResume. split; intros; destruct res; try (by apply mute_unexpected).
  - apply mute_then; [apply mute_acts, neutral_earlier|]. intros s1. by apply mute_fetchFrom.
  - pose proof (mute_batch job messages (take (batchSize (fj_needRaw job)) todo) s) as Hb. destruct (emitBatch _ _ _ s) as [[s1 a] stop].
    destruct stop; [apply (mute_then (fun _ => (s1, a)) (fun s => (s, _))) | apply (mute_then (fun _ => (s1, a)) (fetchFrom _ _))]; try exact Hb; intros s2.
    + apply mute_acts. lines.
    + by apply mute_fetchFrom.
Qed.

Lemma faithful_append t m : goodTag t -> answerOk (RAppend t m) s res -> Faithful (told (RAppend t m) res s) s (appendResume t m res s).
Proof using Hok.
  intros Ht Ha. unfold appendResume. destruct res; try (by apply faithful_unexpected). cbn [answerOk] in Ha. destruct (shown_addToView m _ s Hok Ha) as [Hs Hv].
  apply faithful_then; [|intros s1; apply mute_say; by apply read_tag].
  exists (viewUids s), (incoming m (default [uid] us) s). rewrite Hv. split_and!; [done | done | done | apply incoming_new |]. intros u. apply incoming_spec.
Qed.

Lemma faithful_replace t v d : goodTag t -> answerOk (RReplace t v d) s res -> Faithful (told (RReplace t v d) res s) s (replaceResume t v d res s).
Proof using Hok.
  intros Ht Ha. unfold replaceResume. destruct res as [| | | | | | |vl uid expunged| | | | | |]; try (by apply faithful_unexpected). cbn [answerOk] in Ha.
  destruct (shown_addToView d [uid] s Hok (fun v H1 H2 => proj1 (Ha v H1 H2))) as [Hadd Hv]. pose proof (shown_ok _ _ _ Hok Hadd) as Hok1.
  set (s1 := (addToView d [uid] s).1) in *. set (del := match expunged with Some old => removalActions [old] | None => fun s => (s, []) end). set (gone := option_list expunged).
  assert (Hdel : Shown [] s1 (del s1) /\ viewUids (del s1).1 = List.filter (fun x => negb (bool_decide (x ∈ gone))) (viewUids s1)).
  { unfold del, gone. destruct expunged as [old|]; [apply shown_removal; [apply NoDup_singleton | done]|]. split; [by apply shown_mute, mute_acts|].
    symmetry. by apply forallb_filter_id, forallb_forall. }
  destruct Hdel as [Hdel Hv2]. rewrite Hv, List.filter_app in Hv2. set (new := incoming d [uid] s) in *.
  assert (Hnew : List.filter (fun x => negb (bool_decide (x ∈ gone))) new = new).
  { apply forallb_filter_id, forallb_forall. intros x Hx%list_elem_of_In. apply negb_true_iff, bool_decide_eq_false. intros Hg. unfold new, incoming in Hx.
    destruct (selected s) as [w|]; [|by apply not_elem_of_nil in Hx]. destruct (seqb_spec (v_name w) d) as [Hd|]; [|by apply not_elem_of_nil in Hx].
    apply elem_of_unseen in Hx as [->%list_elem_of_singleton _]. destruct (Ha w eq_refl Hd) as [_ Hne]. unfold gone in Hg. destruct expunged; [|by apply not_elem_of_nil in Hg].
    apply list_elem_of_singleton in Hg as ->. done. }
  rewrite Hnew in Hv2. set (last := say _).
  assert (Hlast : Mute (del s1).1 (last (del s1).1)) by (apply mute_say; by apply read_tag).
  exists (List.filter (fun x => negb (bool_decide (x ∈ gone))) (viewUids s)), new. rewrite !view_then. fold s1. destruct Hlast as [Hl1 Hl2]. rewrite Hl1, Hv2. split_and!; [| done | apply filter_sublist | apply incoming_new |].
  - pose proof (shown_then new ([] ++ []) _ (andThen del last) s Hadd (shown_then [] [] del last s1 Hdel (shown_mute _ _ (conj Hl1 Hl2)))) as Hs. by rewrite !app_nil_r in Hs.
  - intros u. rewrite <- Hnew, <- List.filter_app. rewrite list_elem_of_In, filter_In, <- list_elem_of_In, negb_true_iff, bool_decide_eq_false. unfold new. rewrite incoming_spec.
    unfold told. rewrite elem_of_difference. change (list_to_set [uid]) with ({[uid]} ∪ ∅ : gset Z). rewrite (right_id_L ∅ (∪)). f_equiv. unfold gone. destruct expunged; cbn; set_solver.
Qed.

Lemma faithful_removal_then f us t v : goodTag t -> NoDup us -> (forall m, f m = m ∖ list_to_set us) -> Faithful f s (andThen (removalActions us) (fun s => (s, [okReply t v])) s).
Proof using Hok.
  intros Ht Hn Hf. apply faithful_then; [|intros s1; apply mute_acts; lines]. destruct (faithful_removal us s Hn Hok) as (keep & new & H1 & H2 & H3 & H4 & H5).
  exists keep, new. split_and!; try done. intros u. by rewrite Hf.
Qed.

Lemma faithful_copyMove t v mv : goodTag t -> answerOk (RCopyMove t v mv) s res -> Faithful (told (RCopyMove t v mv) res s) s (copyMoveResume t v mv res s).
Proof using Hok.
  intros Ht Ha. unfold copyMoveResume. destruct res; try (apply faithful_unexpected; [done | by destruct mv]).
  destruct mv; [|apply faithful_mute; [apply mute_say; by apply read_tag | done]]. cbv zeta. set (h1 := say _). set (h2 := andThen (removalActions _) _).
  assert (Hm : Mute s (h1 s)) by (by apply mute_say). destruct (faithful_removal_then (fun m => m ∖ list_to_set srcUids) srcUids t v Ht Ha (fun _ => eq_refl)) as (keep & new & H1 & H2 & H3 & H4 & H5).
  exists keep, new. rewrite view_then. split_and!; try done. exact (shown_then [] new h1 h2 s (shown_mute _ _ Hm) H1).
Qed.

Lemma mute_storeResume t v um si tg : goodTag t -> Mute s (storeResume t v um si tg res s).
Proof.
  intros Ht. unfold storeResume. destruct res; try (by apply mute_unexpected). apply mute_then; [destruct si; [by apply mute_acts | apply mute_store]|].
  intros s1. apply mute_acts. repeat case_match; lines.
Qed.

Lemma faithful_expunge t v : goodTag t -> answerOk (RExpunge t v) s res -> Faithful (told (RExpunge t v) res s) s (expungeResume t v res s).
Proof using Hok.
  intros Ht Ha. unfold expungeResume. destruct res; try (by apply faithful_unexpected). by apply faithful_removal_then.
Qed.

Lemma faithful_refresh o : lineOk o -> is_Some (selected s) -> answerOk (RRefresh o) s res -> Faithful (told (RRefresh o) res s) s (refreshResume o res s).
Proof using Hok.
  intros Ho [v Ev] Ha. assert (Hsay : forall s, Mute s (sayIf o s)) by (intros; by apply mute_sayIf).
  unfold refreshResume. destruct res; try (by apply faithful_mute). rewrite Ev. cbn [answerOk] in Ha.
  destruct (shown_removal (goneUids us s) s) as [Hrm Hu]; [|done|].
  { unfold goneUids. rewrite Ev. unfold viewUids in Hok. rewrite Ev in Hok. eapply sublist_NoDup; [|apply filter_sublist]. by apply asc_nodup, Hok. }
  set (s1 := (removalActions (goneUids us s) s).1) in *. set (keep := List.filter (fun u => bool_decide (u ∈ us)) (viewUids s)) in *.
  assert (Hkeep : viewUids s1 = keep).
  { rewrite Hu. apply List.filter_ext_in. intros x Hx. unfold goneUids, viewUids in *. rewrite Ev in *. destruct (decide (x ∈ us)) as [Hin|Hin].
    - rewrite (bool_decide_eq_true_2 _ Hin). rewrite bool_decide_eq_false_2; [done|]. intros Hg%list_elem_of_In. apply filter_In in Hg as [_ Hg].
      by rewrite bool_decide_eq_true_2 in Hg.
    - rewrite (bool_decide_eq_false_2 _ Hin). rewrite bool_decide_eq_true_2; [done|]. apply list_elem_of_In, filter_In. split; [done|]. by rewrite bool_decide_eq_false_2. }
  assert (Hsel : is_Some (selected s1)) by (unfold s1, removalActions, onView; rewrite Ev; repeat case_match; by eexists).
  pose proof (shown_ok _ _ _ Hok Hrm) as Hok1. destruct (shown_snapshot mailbox us s1 Hsel Hok1 ltac:(by rewrite Hkeep)) as [Hsn Hv]. rewrite Hkeep in Hv.
  set (h2 := addSnapshot mailbox us) in *. set (h3 := if (_ <=? _) then _ else _).
  assert (Hm : forall s, Mute s (h3 s)) by (intros s2; unfold h3; destruct (_ <=? _); [apply mute_then; [apply mute_keywords | done] | split; [done | lines]]).
  assert (Hin : forall u, u ∈ keep <-> u ∈ viewUids s /\ u ∈ us) by (intros u; unfold keep; by rewrite list_elem_of_In, filter_In, <- list_elem_of_In, bool_decide_eq_true).
  exists keep, (unseen keep us). rewrite !view_then. fold s1. destruct (Hm (h2 s1).1) as [Hl1 Hl2]. rewrite Hl1, Hv. split_and!; [| done | apply filter_sublist | |].
  - pose proof (shown_then [] (unseen keep us ++ []) _ (andThen h2 h3) s Hrm) as Hs. rewrite app_nil_r in Hs. apply Hs. rewrite <- (app_nil_r (unseen keep us)). rewrite <- Hkeep at 1.
    apply shown_then; [exact Hsn | by apply shown_mute].
  - intros u [Hus Hk]%elem_of_unseen Hx. apply Hk, Hin. done.
  - intros u. cbn [told]. rewrite elem_of_app, elem_of_unseen, elem_of_list_to_set, Hin. destruct (decide (u ∈ viewUids s)); tauto.
Qed.

Lemma mute_refreshSync o db w : lineOk o -> Mute s (refreshSyncResume o db w res s).
Proof.
  intros Ho. assert (Hsay : forall s, Mute s (sayIf o s)) by (intros; by apply mute_sayIf).
  assert (Hend : forall extra s, Mute s (andThen (syncKeywordList db extra) (sayIf o) s)) by (intros; apply mute_then; [apply mute_keywords | done]).
  unfold refreshSyncResume. destruct res; try done. destruct (selected s) as [v|] eqn:Ev; [|done]. set (s1 := s <| selected := _ |>).
  assert (Hu : viewUids s1 = viewUids s) by (unfold viewUids; by rewrite Ev). unfold Mute. rewrite <- Hu. apply (mute_then _ _ s1); [apply mute_changed | done].
Qed.

Lemma mute_find job : coherent s -> state s <> NotAuthenticated -> is_Some (selected s) -> goodTag (sj_tag job) ->
  (forall e off b hits us, Mute s (searchResume job e off b hits us res s)) /\ (forall md off b hits meta, Mute s (sortResume job md off b hits meta res s)).
Proof.
  intros Hc Hs Hv Ht. unfold searchResume, sortResume. split; intros; (destruct res; try (by apply mute_unexpected)); (destruct (_ <? _)%nat; [|]).
  - apply mute_cmd; [by apply cmd_searchFrom | done].
  - apply mute_cmd; [by apply cmd_searchDone | unfold searchDone; by repeat case_match].
  - apply mute_cmd; [by apply cmd_sortFrom | done].
  - apply mute_acts. unfold sortLine, formatSortLine, formatThreadLine. destruct md; lines.
Qed.
End Resumes.

Lemma faithful_resume x res s : coherent s -> state s <> NotAuthenticated -> resumeOk s x -> uidsOk (viewUids s) -> answerOk x s res ->
  Faithful (told x res s) s (resumeWith x res s).
Proof.
  intros Hc Hs Hr Hok Ha. destruct x; cbn [resumeWith resumeOk] in *; try (destruct Hr as [Hr1 Hr2]);
    try (apply faithful_mute; [apply mute_acts; first [by apply neutral_list | by apply neutral_answers] | by destruct res]).
  - apply faithful_select; [done | done | by destruct res].
  - apply faithful_mute; [by apply mute_selectSync | by destruct res].
  - apply faithful_mute; [by apply mute_fetches | by destruct res].
  - apply faithful_mute; [by apply mute_fetches | by destruct res].
  - by apply faithful_append.
  - by apply faithful_replace.
  - by apply faithful_copyMove.
  - apply faithful_mute; [by apply mute_storeResume | by destruct res].
  - by apply faithful_expunge.
  - by apply faithful_refresh.
  - apply faithful_mute; [by apply mute_refreshSync | by destruct res].
  - apply faithful_mute; [by apply mute_find | by destruct res].
  - apply faithful_mute; [by apply mute_find | by destruct res].
Qed.

(** *** Runs *)

Definition labelOk (l : Label) s : Prop :=
  match l, pending s with LBackend res, Some (PBackend x) => answerOk x s res | _, _ => True end.

Definition toldBy (l : Label) s (m : gset Z) : gset Z :=
  match l, pending s with LBackend res, Some (PBackend x) => told x res s m | _, _ => m end.

(** What the mailbox has gained, in the order of the uids. *)
Definition arrivals (m m' : gset Z) : list Z := sortBy id (elements (m' ∖ m)).

(** The client follows the lines of a step, at the end of which it has heard of all there is. *)
Definition listen (m m' : gset Z) (acts : list ImapAction) (known : list Z) : option (list Z) :=
  match hearAll (reads acts) (known, arrivals m m') with Some (known', []) => Some known' | _ => None end.

(** A run, the messages of the selected mailbox as the store has told of them, and what a client knows that
    has read every line since the mailbox was opened. *)
Inductive Follows : Imap -> gset Z -> option (list Z) -> Prop :=
| follows_start : Follows (initial cfg) ∅ (Some [])
| follows_step s m c l s' acts : Follows s m c -> micro cfg l s = Some (s', acts) -> labelOk l s -> is_Some (selected s') ->
    Follows s' (toldBy l s m) (c ≫= listen m (toldBy l s m) acts)
| follows_leave s m c l s' acts : Follows s m c -> micro cfg l s = Some (s', acts) -> labelOk l s -> selected s' = None -> Follows s' ∅ (Some []).

Lemma follows_inv s m c : Follows s m c -> Inv cfg s.
Proof.
  assert (Hstep : forall s l s' acts, Inv cfg s -> micro cfg l s = Some (s', acts) -> Inv cfg s').
  { intros s0 l s' acts Hi Hm. exact (inv_does _ _ _ _ Hi (micro_does _ _ _ _ Hi Hm)). }
  induction 1; [apply inv_initial | by eapply Hstep | by eapply Hstep].
Qed.

Lemma faithful_micro l s s' acts : Inv cfg s -> uidsOk (viewUids s) -> micro cfg l s = Some (s', acts) -> labelOk l s -> selected s' = None \/ Faithful (toldBy l s) s (s', acts).
Proof.
  intros Hi Hok Hm Hl. pose proof (micro_does _ _ _ _ Hi Hm) as Hd. remember (s', acts) as r eqn:Er. replace s' with r.1 by (by subst r).
  assert (Hsame : (forall m, toldBy l s m = m) -> selected r.1 = selected s -> Forall neutral r.2 -> selected r.1 = None \/ Faithful (toldBy l s) s r).
  { intros Ht Hv Hn. right. apply faithful_mute; [|done]. split; [unfold viewUids; by rewrite Hv | done]. }
  destruct Hd as [l r Hf _ Hn Hk|l q n r _ [_ _ _ Hv _ _ _ Hn] Hk|res x r Hp Hx Ha|ok t r _ (Hs & _ & _ & Hn) _|keys sasl r _ (Hs & _ & _ & Hn) _|keys t sess sess' r _ Hr _ _ Hn|].
  - apply Hsame; [by destruct l | by injection Hf | done].
  - destruct Hv as [Hv|Hv]; [apply Hsame; [by destruct l | done | done] | by left].
  - right. unfold labelOk, toldBy in *. rewrite Hp in *. rewrite Hx. destruct Hi as [Hc _ Hpd]. rewrite Hp in Hpd. destruct Hpd as [Hst Hr].
    set (s0 := s <| pending := None |>). change (Faithful (told x res s0) s0 (resumeWith x res s0)). apply faithful_resume; try done; by destruct x.
  - apply Hsame; [done | by injection Hs | done].
  - apply Hsame; [done | by injection Hs | done].
  - apply Hsame; [done | by rewrite Hr | done].
  - by apply Hsame.
Qed.

Lemma asc_ext a b : Ascending a -> Ascending b -> (forall x, x ∈ a <-> x ∈ b) -> a = b.
Proof.
  intros Ha Hb He. apply (StronglySorted_unique_strong Z.lt); [intros; lia | done | done |]. apply NoDup_Permutation; [by apply asc_nodup | by apply asc_nodup | done].
Qed.

(** What a step announces is what has arrived, so the client can follow it. *)
Lemma listen_faithful f s s' acts : uidsOk (viewUids s) -> Faithful f s (s', acts) -> let m := list_to_set (viewUids s) in
  f m = list_to_set (viewUids s') /\ listen m (f m) acts (viewUids s) = Some (viewUids s') /\ uidsOk (viewUids s').
Proof.
  intros Hok (keep & new & Hs & Hv & Hk & Hn & Hf) m. cbn [fst snd] in *. pose proof (shown_ok _ _ _ Hok Hs) as Hok'. cbn [fst] in Hok'.
  assert (Hm : f m = list_to_set (viewUids s')) by (apply set_eq; intros u; by rewrite elem_of_list_to_set, Hf).
  split_and!; [done | | done]. unfold listen. assert (Ha : arrivals m (f m) = new).
  { apply asc_ext; [apply sort_ascending, NoDup_elements | |].
    - eapply sorted_sublist; [|apply Hok']. rewrite Hv. by apply sublist_inserts_l.
    - intros u. unfold arrivals. rewrite elem_of_sortBy, elem_of_elements, elem_of_difference, Hm. unfold m. rewrite !elem_of_list_to_set, Hv, elem_of_app. split; [|auto].
      intros [[Hu|Hu] Hnot]; [|done]. exfalso. apply Hnot. by eapply elem_of_submseteq, sublist_submseteq. }
  rewrite Ha. destruct Hs as [Hs _]. specialize (Hs []). rewrite app_nil_r in Hs. cbn [fst snd] in Hs. by rewrite Hs.
Qed.

(** C12: message sequence numbers.  Take what the store answers as the truth on which messages the selected mailbox
    has: a snapshot, and what is appended, moved away and expunged.  Take a client that starts with
    nothing when a mailbox is opened and reads the lines of the engine: at EXISTS it takes the next ones of
    the messages that have arrived, in the order of their uids; at EXPUNGE it strikes out the message of this number, at
    VANISHED those of the set.  Then, provided the store gives new messages uids above those it
    gave before, the client can follow every line, and after every step of the engine the messages it knows, in their order, are those by
    which the engine counts, and they are the messages of the mailbox. *)
Theorem imap_numbers_agree s m c v : Follows s m c -> selected s = Some v -> c = Some (uids v) /\ m = list_to_set (uids v) /\ Ascending (uids v).
Proof.
  assert (Hnil : forall s, selected s = None -> Some [] = Some (viewUids s) /\ (∅ : gset Z) = list_to_set (viewUids s) /\ uidsOk (viewUids s)).
  { intros s0 Hs. unfold viewUids. rewrite Hs. split_and!; [done | done |]. split; constructor. }
  intros Hf. assert (Hgo : c = Some (viewUids s) /\ m = list_to_set (viewUids s) /\ uidsOk (viewUids s)).
  2: { unfold viewUids in Hgo. intros Hv. rewrite Hv in Hgo. destruct Hgo as (? & ? & ? & _). done. }
  induction Hf as [|s m c l s' acts Hf IH Hm Hl [v' Hv']|s m c l s' acts Hf IH Hm Hl Hv']; [by apply Hnil | | by apply Hnil].
  destruct IH as (-> & -> & Hok). destruct (faithful_micro l s s' acts (follows_inv _ _ _ Hf) Hok Hm Hl) as [Hno|Hfa]; [congruence|].
  destruct (listen_faithful _ _ _ _ Hok Hfa) as (Hset & Hlis & Hok'). by rewrite <- Hset.
Qed.
End Numbers.

(** ** Sets of messages and searches *)

Section Searches.
Context {SS : ScramServer} `{TextDecoders} `{NodeCrypto}.
Implicit Types s : Imap.

Lemma match_singles ns x max : matchSequenceSet (map (fun n => mkRange (SNum n) (SNum n)) ns) x max = bool_decide (x ∈ ns).
Proof.
  unfold matchSequenceSet. induction ns as [|n ns IH]; [done|]. cbn [map existsb]. rewrite IH. unfold bounds. cbn [resolve from to]. rewrite Z.ltb_irrefl.
  destruct (Z.eq_dec x n) as [->|Hne].
  - rewrite Z.leb_refl, (bool_decide_eq_true_2 (n ∈ n :: ns)) by left. done.
  - replace ((n <=? x) && (x <=? n)) with false by lia. cbn. apply bool_decide_ext. rewrite elem_of_cons. naive_solver.
Qed.

Lemma targets_lookup v t : t ∈ targetsOf v -> exists i, t_seq t = Z.of_nat i + 1 /\ uids v !! i = Some (t_uid t).
Proof.
  intros Ht. unfold targetsOf in Ht. apply list_elem_of_lookup in Ht as [i Hi]. rewrite list_lookup_imap in Hi. apply fmap_Some in Hi as (u & Hu & ->).
  exists i. by split.
Qed.

(** The set [$] names the messages of the last saved search that are still in the view, whether the command counts
    by uid or by sequence number. *)
Theorem imap_saved_search s v m : selected s = Some v -> NoDup (uids v) ->
  exists ranges, resolveSetArg (js "$") m s = Some ranges /\
    resolveTargets ranges m v = List.filter (fun t => bool_decide (t_uid t ∈ savedSearch s)) (targetsOf v).
Proof.
  intros Hv Hn. unfold resolveSetArg. change (js "$" === js "$") with true. cbv iota. rewrite Hv. eexists. split; [reflexivity|].
  unfold resolveTargets. apply List.filter_ext_in. intros t Ht%list_elem_of_In. apply targets_lookup in Ht as (i & Hs & Hi).
  destruct m; rewrite match_singles; apply bool_decide_ext; rewrite elem_of_sortBy.
  - rewrite !list_elem_of_In, filter_In, bool_decide_eq_true. apply list_elem_of_lookup_2 in Hi. tauto.
  - rewrite list_elem_of_omap. split.
    + intros (u & Hu & Hx). destruct (uidIndex u (uids v)) as [j|] eqn:Ej; [|done]. injection Hx as Hx. apply uidIndex_lookup in Ej.
      assert (j = i) as -> by lia. congruence.
    + intros Hu. exists (t_uid t). split; [done|]. rewrite (uidIndex_nodup _ _ _ Hn Hi). cbn. by rewrite Hs.
Qed.

(** A store that has the data of every message answers the requests of a search. *)
Fixpoint serve (n : nat) (data : Z -> ImapFetchData) s : Imap * list ImapAction :=
  match n, pending s with
  | S n', Some (PBackend (RSearch job e off batch hits us)) =>
      andThen (resumeWith (RSearch job e off batch hits us) (Messages (map data batch))) (serve n' data) (s <| pending := None |>)
  | _, _ => (s, [])
  end.

Definition replies (acts : list ImapAction) : list ImapAction := List.filter (fun a => negb (asksStore a)) acts.

(** What one pass over the view finds. *)
Definition searchAll (job : SearchJob) (data : Z -> ImapFetchData) (v : SelectedView) : list Target :=
  List.filter (fun t => evaluateSearch (sj_key job) (searchMessage (t_seq t) (t_uid t) (data (t_uid t))) (sj_maxSeq job) (sj_maxUid job)) (targetsOf v).

Section Serve.
Context (data : Z -> ImapFetchData) (Hdata : forall u, d_uid (data u) = u) (job : SearchJob).

Definition hitsFrom (off : nat) (us : list Z) : list (Z * Z * ImapFetchData) :=
  omap id (imap (fun k u => if evaluateSearch (sj_key job) (searchMessage (Z.of_nat (off + k) + 1) u (data u)) (sj_maxSeq job) (sj_maxUid job)
    then Some (Z.of_nat (off + k) + 1, u, data u) else None) us).

Lemma dataOf_data u us : u ∈ us -> dataOf u (map data us) = Some (data u).
Proof.
  intros Hu. unfold dataOf. assert (Hf : forall us, List.filter (fun d => d_uid d =? u) (map data us) = map data (List.filter (Z.eqb u) us)).
  { clear us Hu. induction us as [|w us IH]; [done|]. cbn. rewrite Hdata, (Z.eqb_sym w u). destruct (u =? w); cbn; by rewrite IH. }
  rewrite Hf. assert (Hin : u ∈ List.filter (Z.eqb u) us) by (apply list_elem_of_In, filter_In; split; [by apply list_elem_of_In | apply Z.eqb_refl]).
  assert (Hall : Forall (eq u) (List.filter (Z.eqb u) us)) by (apply Forall_forall; intros x Hx; apply list_elem_of_In, filter_In in Hx as [_ Hx]; lia).
  destruct (List.filter (Z.eqb u) us) as [|w l] using rev_ind; [by apply not_elem_of_nil in Hin|]. rewrite map_app. cbn. rewrite last_snoc. apply Forall_app in Hall as [_ Hw].
  apply Forall_cons in Hw as [-> _]. done.
Qed.

Lemma batchHits_data off us : batchHits job off us (map data us) = hitsFrom off us.
Proof.
  unfold batchHits, hitsFrom. f_equal. apply imap_ext. intros i u Hu. cbn. apply list_elem_of_lookup_2 in Hu. by rewrite (dataOf_data u us Hu).
Qed.

Lemma hitsFrom_app off a b : hitsFrom off (a ++ b) = hitsFrom off a ++ hitsFrom (off + length a) b.
Proof.
  unfold hitsFrom. rewrite imap_app, omap_app. do 2 f_equal. apply imap_ext. intros i u _. cbn. by rewrite Nat.add_assoc.
Qed.

Lemma hits_all v : map (hitNum job) (hitsFrom 0 (uids v)) = map (fun t => if sj_uidMode job then t_uid t else t_seq t) (searchAll job data v) /\
  map (fun h => h.1.2) (hitsFrom 0 (uids v)) = map t_uid (searchAll job data v).
Proof.
  unfold searchAll, targetsOf. generalize (uids v). intros us.
  assert (Hgo : forall us off, hitsFrom off us = map (fun t => (t_seq t, t_uid t, data (t_uid t)))
    (List.filter (fun t => evaluateSearch (sj_key job) (searchMessage (t_seq t) (t_uid t) (data (t_uid t))) (sj_maxSeq job) (sj_maxUid job))
       (imap (fun i u => {| t_seq := Z.of_nat (off + i) + 1; t_uid := u |}) us))).
  { clear. induction us as [|u us IH]; intros off; [done|]. change (u :: us) with ([u] ++ us). rewrite hitsFrom_app, imap_app. cbn [length]. rewrite IH, List.filter_app, map_app. f_equal.
    - unfold hitsFrom. cbn. by destruct (evaluateSearch _ _ _ _).
    - do 2 f_equal. apply imap_ext. intros i w _. cbn. do 2 f_equal. lia. }
  rewrite (Hgo us 0%nat), !map_map. split; done.
Qed.

Lemma batchSize_pos b : (0 < batchSize b)%nat.
Proof. destruct b; unfold batchSize, FETCH_BATCH_RAW, FETCH_BATCH_META; lia. Qed.

Lemma serve_step e off hits us n s : pending s = None ->
  andThen (searchFrom job e off hits us) (serve (S n) data) s =
  let batch := batchAt job off s in
  let r := andThen (searchResume job e off batch hits us (Messages (map data batch))) (serve n data) s in
  (r.1, ABackend (FetchMessages (sj_name job) batch (searchNeedsRaw (sj_key job)) false false) :: r.2).
Proof.
  intros Hp. unfold andThen at 1, searchFrom, callBackend. cbn [serve pending].
  replace ((s <| pending := _ |>) <| pending := None |>) with s by (destruct s; cbn in Hp |- *; by subst).
  change (pending (s <| pending := ?x |>)) with x. cbv iota.
  change (resumeWith (RSearch job e off ?b hits us)) with (searchResume job e off b hits us). cbv zeta. destruct (andThen (searchResume _ _ _ _ _ _ _) _ s) as [s2 b]. done.
Qed.

Lemma serve_done e hits us n s : pending s = None -> andThen (searchDone job e hits us) (serve n data) s = searchDone job e hits us s.
Proof.
  intros Hp. unfold andThen. assert (Hd : pending (searchDone job e hits us s).1 = None) by (unfold searchDone; by repeat case_match).
  destruct (searchDone job e hits us s) as [s1 a]. cbn in Hd. destruct n; cbn; rewrite ?Hd; by rewrite app_nil_r.
Qed.

Lemma replies_done e hits us s : replies (searchDone job e hits us s).2 = (searchDone job e hits us s).2.
Proof. unfold searchDone, searchReply. by repeat case_match. Qed.

(** The batches from [off] on find what one pass from there finds. *)
Lemma serve_from e v n : forall off hits us s, selected s = Some v -> pending s = None -> (length (uids v) - off < n)%nat ->
  let r := andThen (searchFrom job e off hits us) (serve n data) s in
  let found := hitsFrom off (drop off (uids v)) in
  let done := searchDone job e (hits ++ map (hitNum job) found) (us ++ map (fun h => h.1.2) found) s in
  r.1 = done.1 /\ replies r.2 = done.2.
Proof.
  induction n as [|n IH]; intros off hits us s Hv Hp Hn; [lia|]. cbv zeta. set (k := batchSize (searchNeedsRaw (sj_key job))).
  pose proof (batchSize_pos (searchNeedsRaw (sj_key job))) as Hk. fold k in Hk.
  assert (Hb : batchAt job off s = take k (drop off (uids v))) by (unfold batchAt, viewUids; by rewrite Hv).
  rewrite (serve_step _ _ _ _ _ _ Hp). cbv zeta. rewrite Hb. cbn [fst snd]. change (replies (ABackend _ :: ?l)) with (replies l).
  set (found := hitsFrom off (take k (drop off (uids v)))).
  assert (Hr : searchResume job e off (take k (drop off (uids v))) hits us (Messages (map data (take k (drop off (uids v))))) s =
    if (off + k <? length (uids v))%nat then searchFrom job e (off + k) (hits ++ map (hitNum job) found) (us ++ map (fun h => h.1.2) found) s
    else searchDone job e (hits ++ map (hitNum job) found) (us ++ map (fun h => h.1.2) found) s).
  { unfold searchResume. rewrite batchHits_data. unfold viewUids. by rewrite Hv. }
  unfold andThen. rewrite Hr. destruct (Nat.ltb_spec (off + k) (length (uids v))) as [Hlt|Hge].
  - assert (Hsplit : hitsFrom off (drop off (uids v)) = found ++ hitsFrom (off + k) (drop (off + k) (uids v))).
    { rewrite <- (take_drop k (drop off (uids v))) at 1. rewrite hitsFrom_app, drop_drop. unfold found. rewrite length_take, length_drop. do 2 f_equal. lia. }
    rewrite Hsplit, !map_app, !(assoc_L (++)). apply (IH (off + k)%nat); [done | done | lia].
  - change (let '(s1, a) := searchDone job e ?h ?u s in let '(s2, b) := serve n data s1 in (s2, a ++ b)) with (andThen (searchDone job e h u) (serve n data) s).
    rewrite serve_done by done. unfold found. rewrite take_ge by (rewrite length_drop; lia). split; [done | apply replies_done].
Qed.
End Serve.

(** C18: with a store that has every message of the view, SEARCH comes to its end and answers with the messages of the
    view that match, found in one pass over the view: the batches in which the messages are fetched do
    not show, neither in the answer nor in the saved result. *)
Theorem imap_search_batches data tag verb m e args key s v : (forall u, d_uid (data u) = u) -> parseSearchProgram args = Ok key ->
  selected s = Some v -> pending s = None ->
  let job := jobOf tag verb m key v in
  let r := andThen (startSearch tag verb m e args v) (serve (S (length (uids v))) data) s in
  let found := searchAll job data v in
  let done := searchDone job e (map (fun t => if m then t_uid t else t_seq t) found) (map t_uid found) s in
  r.1 = done.1 /\ replies r.2 = done.2.
Proof.
  intros Hd Hk Hv Hp. cbv zeta. unfold startSearch. rewrite Hk. set (job := jobOf tag verb m key v). destruct (hits_all data job v) as [H1 H2].
  change m with (sj_uidMode job). rewrite <- H1, <- H2. destruct (uids v) as [|u us] eqn:Eu.
  - rewrite serve_done by done. split; [done | apply replies_done].
  - pose proof (serve_from data Hd job e v (S (length (u :: us))) 0 [] [] s Hv Hp) as Hs. rewrite Eu in Hs. apply Hs. lia.
Qed.
End Searches.

(** ** Runs *)

Section Examples.
#[local] Existing Instance toyCrypto.
#[local] Existing Instance noDecoders.

Definition exampleConfig (secure : bool) : ImapConfig :=
  {| hostname := js "mx"; initiallySecure := secure; allowInsecureAuth := false; tlsAvailable := true; scramOffered := true; scramDecoySecret := [9];
     readerOpts := {| maxLineBytes := MAX_IMAP_LINE_BYTES; maxNonSyncLiteralBytes := 4096 |}; authedMaxLiteralBytes := MAX_MESSAGE_BYTES; nonces := fun _ => [1; 2; 3] |}.

(** Steps by their labels. *)
Fixpoint exec (cfg : ImapConfig) (ls : list Label) (s : Imap) : option (Imap * list (Label * list ImapAction)) :=
  match ls with
  | [] => Some (s, [])
  | l :: r => '(s1, a) ← micro cfg l s; '(s2, tr) ← exec cfg r s1; Some (s2, (l, a) :: tr)
  end.

Lemma exec_steps cfg ls : forall s s' tr, exec cfg ls s = Some (s', tr) -> Steps cfg s tr s'.
Proof.
  induction ls as [|l r IH]; intros s s' tr; cbn; [intros [= -> <-]; constructor|]. destruct (micro cfg l s) as [[s1 a]|] eqn:E1; [|done]. cbn.
  destruct (exec cfg r s1) as [[s2 tr2]|] eqn:E2; [|done]. intros [= <- <-]. eapply steps_cons; [done | by apply IH].
Qed.

Definition line (t : string) : Label := LEvent (RLine [PText (js t)]).

Definition inbox (modseq : Z) : ImapMailbox :=
  {| m_name := js "INBOX"; m_role := None; m_subscribed := None; m_uidvalidity := 1; m_uidnext := 20; m_highestmodseq := modseq; m_totalCount := 3; m_unreadCount := 0;
     m_totalBytes := 0; m_mailboxId := None; m_deletedCount := None; m_deletedBytes := None; m_readable := None |}.

Definition opening (us : list Z) : list Label :=
  [line "a LOGIN u p"; LVerdict true; line "b SELECT INBOX"; LBackend (Selected (inbox 1) us None None)].

Definition finish (cfg : ImapConfig) (ls : list Label) : Imap := default (initial cfg) (fst <$> exec cfg ls (initial cfg)).
Definition trace (cfg : ImapConfig) (ls : list Label) : list (Label * list ImapAction) := default [] (snd <$> exec cfg ls (initial cfg)).
Definition runs (cfg : ImapConfig) (ls : list Label) : bool := match exec cfg ls (initial cfg) with Some _ => true | None => false end.

Lemma exec_run cfg ls : runs cfg ls = true -> Run cfg (trace cfg ls) (finish cfg ls).
Proof. unfold runs, trace, finish. destruct (exec cfg ls _) as [[s' tr]|] eqn:E; [|done]. intros _. by apply (exec_steps _ ls). Qed.

(** A session: the mailbox is opened, a message expunged, and one more arrives. *)
Definition session : list Label :=
  opening [3; 5; 9] ++ [line "c EXPUNGE"; LBackend (Expunged [5]); line "d NOOP"; LBackend (Selected (inbox 1) [3; 9; 12] None None)].

Definition open_ : ImapConfig := exampleConfig true.

Lemma imap_calls_refine_witness :
  exists acts tr, said tr = acts /\ reads acts = [CExists 2] /\ omap (answer ∘ fst) tr = [CBackend (Selected (inbox 1) [3; 5] None None)].
Proof.
  set (s := finish open_ (take 3 (opening []))). set (c := CBackend (Selected (inbox 1) [3; 5] None None)).
  destruct (call open_ c s) as [[s' acts]|] eqn:E; [|exfalso; assert (Hx : match call open_ c s with Some _ => true | None => false end = true) by (vm_compute; reflexivity); by rewrite E in Hx].
  destruct (imap_calls_refine open_ c s s' acts E) as (tr & _ & Hs & [Ha|[[chunk Hc] _]]); [|done].
  exists acts, tr. split_and!; [done | | done]. assert (Hr : match call open_ c s with Some r => reads r.2 | None => [] end = [CExists 2]) by (vm_compute; reflexivity). by rewrite E in Hr.
Defined.

Lemma imap_requests_gated_witness : verdictIn (trace open_ (take 2 (opening []))) /\
  exists s' acts, ABackend (SelectMailbox (js "INBOX")) ∈ acts /\ micro open_ (line "b SELECT INBOX") (finish open_ (take 2 (opening []))) = Some (s', acts).
Proof.
  set (s := finish open_ (take 2 (opening []))). destruct (micro open_ (line "b SELECT INBOX") s) as [[s' acts]|] eqn:E.
  - assert (Ha : acts = [ABackend (SelectMailbox (js "INBOX"))]).
    { assert (Hx : match micro open_ (line "b SELECT INBOX") s with Some r => r.2 | None => [] end = [ABackend (SelectMailbox (js "INBOX"))]) by (vm_compute; reflexivity).
      by rewrite E in Hx. }
    assert (Hin : ABackend (SelectMailbox (js "INBOX")) ∈ acts) by (rewrite Ha; left).
    pose proof (exec_run open_ (take 2 (opening [])) ltac:(vm_compute; reflexivity)) as Hrun.
    destruct (imap_requests_gated open_ _ s (line "b SELECT INBOX") s' acts Hrun E) as [Hg _]. split; [exact (proj1 (Hg _ Hin)) | by exists s', acts].
  - exfalso. assert (Hx : match micro open_ (line "b SELECT INBOX") s with Some _ => true | None => false end = true) by (vm_compute; reflexivity). by rewrite E in Hx.
Defined.

Lemma imap_one_request_witness : let tr := trace open_ (take 3 session) in
  (count asksStore (said tr) - answers isBackendLabel tr)%nat = 1%nat /\
  forall res, is_Some (call open_ (CBackend res) (finish open_ (take 3 session))).
Proof.
  pose proof (imap_one_request open_ _ _ (exec_run open_ (take 3 session) ltac:(vm_compute; reflexivity))) as (_ & Hs & _).
  cbv zeta. split; [vm_compute; reflexivity|]. intros res. apply Hs. vm_compute. reflexivity.
Defined.

Lemma imap_queue_bounded_witness : let s := finish open_ [line "a LOGIN u p"; line "b NOOP"] in
  queuedBytes s = 6 /\ queuedBytes s <= MAX_QUEUED_LINE_BYTES.
Proof.
  cbv zeta. split; [vm_compute; reflexivity|].
  apply (imap_queue_bounded open_ (trace open_ [line "a LOGIN u p"; line "b NOOP"])), exec_run. vm_compute. reflexivity.
Defined.

(** The events of a run, with a check of what it relies on. *)
Definition safeUids (l : list Z) : bool := forallb (fun u => (1 <=? u) && (u <=? MAX_SAFE_INTEGER)) l.
Definition ascending (l : list Z) : bool := bool_decide (Sorted Z.lt l).
Definition freshCheck (l us : list Z) : bool :=
  bool_decide (NoDup us) && safeUids us && forallb (fun u => bool_decide (u ∈ l) || forallb (fun w => w <? u) l) us.

Definition answerCheck (x : Resume) (s : Imap) (res : ImapBackendResponse) : bool :=
  match x, res with
  | RSelect _ _ _, Selected _ us _ _ => ascending us && safeUids us
  | RRefresh _, Selected _ us _ _ => freshCheck (List.filter (fun u => bool_decide (u ∈ us)) (viewUids s)) us
  | RExpunge _ _, Expunged us => bool_decide (NoDup us)
  | RAppend _ _, Appended _ _ _ | RReplace _ _ _, Replaced _ _ _ | RCopyMove _ _ _, Copied _ _ _ => false
  | _, _ => true
  end.

Lemma safeUids_ok l : safeUids l = true -> Forall safe l.
Proof. unfold safeUids. rewrite forallb_forall. intros Hf. apply Forall_forall. intros u Hu%list_elem_of_In%Hf. unfold safe. lia. Qed.

Lemma freshCheck_ok l us : freshCheck l us = true -> fresh l us.
Proof.
  unfold freshCheck. rewrite !andb_true_iff, bool_decide_eq_true. intros [[Hn Hs] Hf]. rewrite forallb_forall in Hf.
  split_and!; [done | by apply safeUids_ok |]. intros u w Hu%list_elem_of_In%Hf Hnot Hw. rewrite bool_decide_eq_false_2 in Hu by done. cbn in Hu.
  rewrite forallb_forall in Hu. apply list_elem_of_In, Hu in Hw. lia.
Qed.

Lemma answerCheck_ok x s res : answerCheck x s res = true -> answerOk x s res.
Proof.
  destruct x; try done; destruct res; try done; cbn [answerCheck answerOk].
  - intros [Ha Hs]%andb_true_iff. split; [|by apply safeUids_ok]. apply bool_decide_eq_true in Ha. apply Sorted_StronglySorted; [|done]. intros a b c. lia.
  - apply bool_decide_eq_true.
  - apply freshCheck_ok.
Qed.

Definition labelCheck (l : Label) (s : Imap) : bool :=
  match l, pending s with LBackend res, Some (PBackend x) => answerCheck x s res | _, _ => true end.

Fixpoint followed (cfg : ImapConfig) (ls : list Label) (s : Imap) (m : gset Z) (c : option (list Z)) : option (Imap * gset Z * option (list Z)) :=
  match ls with
  | [] => Some (s, m, c)
  | l :: r =>
      '(s', a) ← micro cfg l s;
      if labelCheck l s then
        match selected s' with
        | Some _ => followed cfg r s' (toldBy l s m) (c ≫= listen m (toldBy l s m) a)
        | None => followed cfg r s' ∅ (Some [])
        end
      else None
  end.

Lemma followed_ok cfg ls : forall s m c s' m' c', Follows cfg s m c -> followed cfg ls s m c = Some (s', m', c') -> Follows cfg s' m' c'.
Proof.
  induction ls as [|l r IH]; intros s m c s' m' c' Hf; cbn; [by intros [= <- <- <-]|]. destruct (micro cfg l s) as [[s1 a]|] eqn:E1; [|done]. cbn.
  destruct (labelCheck l s) eqn:Ec; [|done]. assert (Hl : labelOk l s).
  { unfold labelCheck in Ec. unfold labelOk. destruct l; try done. destruct (pending s) as [[]|]; try done. by apply answerCheck_ok. }
  destruct (selected s1) as [v|] eqn:Ev; apply IH; [eapply follows_step; [done | done | done | by eexists] | by eapply follows_leave].
Qed.

Lemma imap_numbers_agree_witness : exists s m c v, Follows open_ s m c /\ selected s = Some v /\ uids v = [3; 9; 12] /\ c = Some [3; 9; 12] /\ m = list_to_set [3; 9; 12].
Proof.
  assert (Hx : (r ← followed open_ session (initial open_) ∅ (Some []); v ← selected r.1.1; Some (uids v)) = Some [3; 9; 12]) by (vm_compute; reflexivity).
  destruct (followed open_ session (initial open_) ∅ (Some [])) as [[[s m] c]|] eqn:E; [|done]. cbn in Hx. destruct (selected s) as [v|] eqn:Ev; [|done].
  cbn in Hx. injection Hx as Hu. pose proof (followed_ok open_ session _ _ _ _ _ _ (follows_start open_) E) as Hf.
  destruct (imap_numbers_agree open_ s m c v Hf Ev) as (Hc & Hm & _). exists s, m, c, v. rewrite Hu in Hc, Hm. done.
Defined.

(** A line that names another message is not followed to the same messages. *)
Example wrong_number_differs :
  hearAll [CExpunge 1; CExists 3] ([3; 5; 9], [12]) = Some ([5; 9; 12], []) /\ hearAll [CExpunge 2; CExists 3] ([3; 5; 9], [12]) = Some ([3; 9; 12], []).
Proof. vm_compute. done. Qed.

Definition exampleView (us : list Z) : SelectedView :=
  {| v_name := js "INBOX"; readWrite := true; v_uidvalidity := 1; uids := us; v_uidnext := 20; announcedKeywords := []; lastSyncModseq := 1 |}.

Definition viewing (us saved : list Z) : Imap := (initial open_) <| state := SelectedState |> <| selected := Some (exampleView us) |> <| savedSearch := saved |>.

Lemma imap_saved_search_witness : exists ranges, resolveSetArg (js "$") false (viewing [3; 9; 12] [12; 5; 3]) = Some ranges /\
  resolveTargets ranges false (exampleView [3; 9; 12]) = [{| t_seq := 1; t_uid := 3 |}; {| t_seq := 3; t_uid := 12 |}].
Proof.
  destruct (imap_saved_search (viewing [3; 9; 12] [12; 5; 3]) (exampleView [3; 9; 12]) false) as (ranges & H1 & H2); [reflexivity | |].
  { apply (bool_decide_eq_true_1 (NoDup [3; 9; 12])). vm_compute. reflexivity. }
  exists ranges. split; [exact H1|]. rewrite H2. vm_compute. reflexivity.
Defined.

Definition exampleData (u : Z) : ImapFetchData :=
  {| d_uid := u; d_emailId := None; d_threadId := None; d_flags := []; d_internalDateMs := 0; d_saveDateMs := None; d_size := 100 * u; d_modseq := 1; d_raw := None; d_sortKeys := None |}.

Lemma imap_search_batches_witness : let r := andThen (startSearch (js "a") (js "SEARCH") false None [VAtom (js "LARGER"); VAtom (js "500")] (exampleView [3; 9; 12])) (serve 4 exampleData) (viewing [3; 9; 12] []) in
  replies r.2 = [AReply (js "* SEARCH 2 3"); AReply (js "a OK SEARCH completed")].
Proof.
  destruct (imap_search_batches exampleData (js "a") (js "SEARCH") false None [VAtom (js "LARGER"); VAtom (js "500")] (KLarger (NumInt 500)) (viewing [3; 9; 12] []) (exampleView [3; 9; 12]))
    as [_ H2]; [reflexivity | vm_compute; reflexivity | reflexivity | reflexivity |].
  etransitivity; [exact H2 | vm_compute; reflexivity].
Defined.

(** ** Where the code falls short *)

(** The bytes behind STARTTLS in the chunk are not dropped: a command that has begun in clear text ends
    under TLS. *)
Lemma imap_starttls_keeps_input :
  (let s := exampleConfig false in
   '(s1, a) ← call s (CFeed (js "a STARTTLS" ++ crlf ++ js "b LOGIN eve pw")) (initial s);
   '(s2, _) ← call s CTls s1;
   '(s3, b) ← call s (CFeed crlf) s2;
   Some (a, b)) = Some ([AReply (js "a OK Begin TLS negotiation now"); AStartTls], [AAuth (js "eve") (js "pw")]).
Proof. vm_compute. reflexivity. Qed.

(** A line that comes while keys are looked up is not queued: the keys of one user are taken for the
    exchange of another. *)
Definition scramLine (tag user : string) : Label :=
  LEvent (RLine [PText (js tag ++ js " AUTHENTICATE SCRAM-SHA-256 " ++ base64Encode (utf8Encode (clientFirstMessage (js user) (js "xyz"))))]).

Definition malloryFinal : jsstr :=
  @clientFinalMessage toyCrypto Saslprep.latinUnicode (js "pw") [1; 2] 4096 (js "alice") (js "xyz")
    (js "xyz" ++ serverNonce [1; 2; 3]) (buildServerFirst (js "xyz") (serverNonce [1; 2; 3]) [1; 2] 4096).

Lemma imap_scram_keys_crossed :
  map snd (trace open_ [scramLine "a" "mallory"; scramLine "b" "alice"; LKeys (Some toyKeys); LEvent (RLine [PText (base64Encode (utf8Encode malloryFinal))]); LEvent (RLine [PText []])])
  !! 4%nat = Some [AAuthVerified (js "b") (js "alice")].
Proof. vm_compute. reflexivity. Qed.

(** The uid of an own message enters the view before the messages that were delivered shortly before it
    are known; when they come, they go in front of it, and EXISTS does not say so. *)
Definition appending : list Label :=
  opening [3] ++ [LEvent (RLine [PText (js "c APPEND INBOX "); PLiteral (js "x")]); LBackend (Appended 1 7 None); line "d NOOP"; LBackend (Selected (inbox 1) [3; 5; 7] None None)].

Lemma imap_append_shifts_numbers :
  viewUids (finish open_ (take 6 appending)) = [3; 7] /\ viewUids (finish open_ appending) = [3; 5; 7] /\
  map (fun t => reads t.2) (drop 7 (trace open_ appending)) = [[CExists 3]] /\ hearAll [CExists 3] ([3; 7], [5]) = Some ([3; 7; 5], []).
Proof. split_and!; vm_compute; reflexivity. Qed.

(** A search text is read as one unit per byte and the message as UTF-8: a text that is not ASCII is not
    found in a message that holds it. *)
Lemma imap_search_utf8_missed :
  let msg := {| s_seq := 1; s_uid := 1; s_flags := []; s_size := 0; s_internalDateMs := 0; s_saveDateMs := None; s_modseq := None;
                s_raw := Some (js "Subject: x" ++ crlf ++ crlf ++ [195; 169]) |} in
  parseSearchProgram [VAtom (js "CHARSET"); VAtom (js "UTF-8"); VAtom (js "BODY"); VLiteral [195; 169]] = Ok (KText [195; 169] false) /\
  evaluateSearch (KText [195; 169] false) msg 1 1 = false.
Proof. split; vm_compute; reflexivity. Qed.
End Examples.
